(* ===== verification/_CoqProject ===== *)
-Q . S2P
Prelude.v
MemoryTypes.v
Tables.v
VmOffsets.v
VmContext.v
FreeChain.v
TryVec.v
BTree.v
Slab.v
HandleTable.v
Resources.v
ResourceTable.v
FreeList.v
Wmemcheck.v
IndexAllocator.v
SlabLayout.v
CowSlot.v
Allocations.v
LinearMemory.v
MemoryPool.v
PoolSystem.v
BitSet.v
Sections.v
TrapEncoding.v
AddressMap.v
StackMap.v
ExceptionTable.v
DivConst.v
ClifTypes.v
CondCodes.v
ClifValue.v
ConstExpr.v
Metering.v
Epoch.v
BulkOps.v
MemoryInit.v
TableInit.v
ClifOps.v
ClifStep.v
DivRules.v
Emit.v
BoundsCheck.v
MemorySize.v
TableAccess.v
MemorySafety.v
EntityMap.v
LinkedList.v
Layout.v
LayoutRefine.v
LayoutSerde.v
