(* ===== verification/Prelude.v ===== *)
(** * A verification library for Wasmtime

    The program is Wasmtime (src/wasmtime): a WebAssembly engine made of a
    compiler (Cranelift), a runtime, and the metadata the compiler leaves for
    the runtime in the sections of a compiled artifact.  This library models
    the parts whose correctness is a matter of data structures, state and
    machine arithmetic.  Its spine is the memory of a guest: the configuration
    (MemoryTypes.v), what the compiler emits for an access (Emit.v,
    BoundsCheck.v, MemorySize.v), the address space, the images and the
    allocations behind a memory (CowSlot.v, Allocations.v, LinearMemory.v), the
    pool they may come from (SlabLayout.v, MemoryPool.v, PoolSystem.v), and the
    two sides put together (MemorySafety.v).  Around it: the tables a component
    instance keeps of its handles and resources, the free list of the GC heap,
    the memory checker, the tables of an instance and the context compiled code reads it
    through, how memories and tables are initialized, how code is interrupted (fuel and
    epochs) and what its bulk operations do, the sections that say, for an offset of the compiled
    code, which trap, source position, live references or exception handlers
    belong to it; and of Cranelift the value types and condition codes of its
    intermediate language (CLIF), the layout of functions, the interpreter of its integer instructions,
    and the rewriting of divisions by constants.

    ** How the code is modelled

    A method on [&mut self] is a computation of the state-and-error monad [M]
    below; a failed [assert!], [unwrap] or index, an arithmetic overflow and a
    failed [debug_assert!] are [Panic]; [Err] is [Fail] and keeps the
    mutations made so far.  Pure methods are functions, with [option] where
    [None] is a panic, as their comments say.  Machine integers are [Z] with
    their bounds written out; [usize] is 64 bits wide.  Third-party code is an
    interface: the class [Allocator] (whether memory can be had, TryVec.v) and
    the class [ObjectCrate] (the [object] crate's byte slices and section
    writer, Sections.v), each with the documented laws the code relies on and
    an instance that satisfies them.  The operating system is a parameter too
    (the classes [OS] of CowSlot.v and [Mapper] of Allocations.v): its calls may
    fail at any point.  Loops that are not structural carry fuel that is proved to suffice: the
    binary search of the standard library has the length of the slice, the
    scalar iterator has the width plus one, the loops over the instructions of a
    block the length of the vector they are in.

    Compiled code is modelled twice over.  The translator's functions are
    computations that emit instructions and see the numbers of values only;
    what they emitted is run by the interpreter of ClifStep.v on a machine with a
    memory, and the theorems speak of that run.

    Where several implementations stand behind a trait, the operations are a
    class and their laws a second class over it: [RuntimeLinearMemory] and
    [LinearMemoryLaws] of Allocations.v, against which all of LinearMemory.v
    and MemorySafety.v is proved, with three instances.

    ** The files

    - FreeChain.v: chains of free slots, shared by the tables.
    - TryVec.v: vectors whose allocations can fail
      (crates/core/src/alloc/vec.rs, try_collect.rs).
    - BTree.v: the reading of [BTreeMap] and [BTreeSet] the free list makes.
    - Slab.v: the slab of crates/core/src/slab.rs.  Every slab built by its
      operations is well formed; allocation and deallocation bind and unbind
      exactly one fresh id; iteration lists the map.
    - HandleTable.v: the component-model handle table
      (runtime/vm/component/handle_table.rs), all of its typed operations.
      Reachable tables are well formed, operations do not panic, insertion
      yields a fresh handle, removal refuses lent or ill-typed handles.
    - Resources.v: ResourceTables, CallContext and the call scopes of the
      store (runtime/vm/component/resources.rs, runtime/component/store.rs).
      The borrow counters of the scopes and the lend counters of the handles
      count exactly the borrows and lends there are; leaving a scope is refused
      exactly when borrows remain and undoes exactly its lends.
    - ResourceTable.v: the host's table of resources with parents and children
      (wasmtime::component::ResourceTable).  Reachable tables are forests
      whose links agree; deletion refuses entries with children; a dangling
      parent after [add_child] on a stale entry is shown.
    - FreeList.v: the free-list allocator of the GC heap
      (runtime/vm/gc/enabled/free_list.rs).  Live blocks never overlap and stay
      inside the capacity, no operation panics, allocation finds a block
      whenever the slow path has one, deallocation and growth give back exactly
      their bytes; a block that is lost to bookkeeping is shown.
    - Wmemcheck.v: the shadow memory of crates/wmemcheck.  Accesses are judged
      by the specification of a checked heap; use after free is reported;
      where a stack-pointer update marks heap memory is shown.
    - MemoryTypes.v: the type of a memory and the tunables, and every question that the
      compiler and the runtime ask of them (environ/src/types.rs, tunables.rs).
    - Tables.v: tables of functions, GC references and continuations
      (runtime/vm/table.rs), in slots of the pool or in vectors.  Creation, growth, fills
      and accesses never panic and do what they say, whatever fails.
    - VmOffsets.v: the layout of the context that compiled code reads an instance through
      (environ/src/vmoffsets.rs) and the structures in it (runtime/vm/vmcontext.rs,
      stack_switching.rs).  Entries never overlap, are where the structures' own layout says, and
      are aligned, but for the references to functions behind an odd number of tags.
    - VmContext.v: writing and reading a context (runtime/vm/instance.rs).  Initialization fills every
      place; every memory is found at its definition, also after it grew.
    - IndexAllocator.v: the slot allocators of the pooling allocator
      (pooling/index_allocator.rs) with their intrusive lists, a refinement of
      a queue specification, and exclusiveness of allocated slots.
    - SlabLayout.v: page-aligned byte counts and the layout of the pool's slots,
      guards and stripes (pooling/memory_pool.rs).  The layout never overflows and keeps what
      compiled code may touch without a check out of other memories.
    - CowSlot.v: copy-on-write slots (runtime/vm/cow.rs) over an address space of
      cells: instantiating gives exactly the image; whatever a guest did, resetting
      leaves nothing of it.
    - MemoryPool.v, PoolSystem.v: the memory pool with its decommit queue and its
      clients.  Live memories are disjoint and exact after any sequence of operations with any
      failing calls; an allocation is refused only when all slots are held.
    - Allocations.v: mappings and the three allocations behind a memory
      (runtime/vm/mmap.rs, memory/mmap.rs, malloc.rs, static_.rs), each proved to
      obey the laws of [LinearMemoryLaws].
    - LinearMemory.v: [LocalMemory] and the creation of memories
      (runtime/vm/memory.rs).  Growth and creation never panic and do what they say,
      whatever fails.
    - Emit.v: building code and running it; trap codes, the trap helpers and the
      guards of divisions (crates/cranelift/src/trap.rs, func_environ.rs).  A
      translated division computes what WebAssembly asks for or traps as it should.
    - BoundsCheck.v: the check of an access (crates/cranelift/src/bounds_checks.rs,
      translate/code_translator.rs) and the fault handler (runtime/store.rs).  An access traps exactly if it
      is out of bounds, under every configuration; fields of GC objects stay in the heap.
    - MemorySize.v: what [memory.size] and [memory.grow] answer (func_environ.rs).
    - TableAccess.v: the bounds checks of table accesses and of bulk operations
      (crates/cranelift/src/translate/table.rs, func_environ.rs).  They trap exactly when the access
      is out of bounds, under speculation as the check is mitigated.
    - MemorySafety.v: an instance's memory and the code compiled for it, together
      (runtime/vm/instance.rs, libcalls.rs).  Any program of accesses and growths
      behaves as on the list of bytes of the specification, and nothing else of the process changes.
    - BitSet.v: scalar and compound bit sets (cranelift/bitset), a refinement
      of finite sets of integers; the state a failed growth leaves, and the
      range at the capacity, are shown.
    - Sections.v: the [object] crate's interface, binary search with its
      contract, the layout of functions in the text section.
    - TrapEncoding.v, AddressMap.v, StackMap.v (crates/environ: builders under
      compile/, readers beside them) and ExceptionTable.v (crates/unwinder):
      from builder to bytes to lookup.  Building functions laid out in order
      never panics, every lookup answers exactly with what was recorded (for
      the address map, with what covers the offset), iteration lists what was
      recorded.  That the lookup by exception tag misses handlers whose tags
      are not sorted is shown.

    - DivConst.v: the magic numbers for division by constants
      (codegen/src/opts/div_const.rs).  The loops stop within their fuel and
      without overflow for every divisor, and the result satisfies the contract
      from which the quotient follows.
    - ClifTypes.v: the value types of CLIF as 16-bit numbers, type sets and
      operand constraints (codegen/src/ir/types.rs, ir/instructions.rs, and the
      numbering of codegen/meta).  The numbers implement the structured types;
      where dynamic vectors are lost, and an example that is no member of its
      set, are shown.
    - CondCodes.v: the condition codes (codegen/src/ir/condcodes.rs) against
      the comparisons of the interpreter.
    - ConstExpr.v: constant expressions (environ/src/types.rs) and their evaluation
      at compile time and at run time (runtime/vm/const_expr.rs): sound for the types of validation.
    - MemoryInit.v: active data segments (environ/src/module.rs,
      compile/module_environ.rs, instance/allocator.rs).  Turning them into images at
      compile time is the same as writing them at instantiation; an image of 4GiB
      that makes the compiler panic is shown.
    - TableInit.v: the initial values and element segments of tables (the same files,
      runtime/vm/instance.rs).  Turning them into images that elements are initialized
      from when they are read changes nothing that can be seen.
    - Metering.v: fuel (crates/cranelift/src/func_environ.rs, runtime/store.rs, libcalls.rs), in
      compiled code and in the store.  The counter, batched, cached and split as it is, is exact;
      two ways in which it loses what a callee consumed are shown.
    - Epoch.v: epochs (the same files and engine.rs).  Checks of the cached deadline do what checks
      of the deadline would; where they cannot is shown.
    - BulkOps.v: copies and fills of memories, tables and arrays (func_environ.rs) in chunks, by elements
      or by memset, with the interruptions in between.  They do what one copy or
      fill does, but for chunked copies onto their own source, which is shown.
    - ClifValue.v, ClifOps.v, ClifStep.v: the CLIF interpreter on integers and
      integer vectors (interpreter/src/value.rs and step.rs): values,
      conversions and lanes with their round trip; what the operations compute
      (arithmetic, overflow flags, bits); the arms of [step], their type
      soundness and the traps of the divisions.
    - EntityMap.v, LinkedList.v: maps keyed by entities (cranelift/entity/src/map.rs), and the links of
      doubly linked lists.
    - Layout.v, LayoutRefine.v, LayoutSerde.v: the order of blocks and instructions of a
      function (codegen/src/ir/layout.rs) with the sequence numbers that compare program points.  It refines
      lists; serializing keeps it; where the numbers run out is shown.
    - DivRules.v: the rewrite rules of the mid-end for division and remainder
      by constants (codegen/src/opts/arithmetic.isle, prelude_opt.isle,
      opts.rs).  Whatever rule fires, the instructions it emits compute, in the
      interpreter of ClifStep.v and with the numbers of DivConst.v, what the
      division computes; divisions that may trap are kept.

    Each file states its abstract specification (a finite map, a set of free
    bytes, a queue, a finite set, a list of entries) and proves that the code's
    operations implement it; the invariants are proved of every state the
    public operations reach, by induction on the step relation or on the list
    of operations.

    ** What is not modelled

    The rest of Cranelift's code generation and mid-end, register allocation and the
    ISLE compiler; Winch; module translation beyond what is named above; the
    Pulley interpreter beyond the address mode of memory accesses; of the CLIF
    interpreter floating point, memory, branches and calls; shared and imported
    memories and custom memory creators; the tables, stacks and GC heaps of the
    pool; the linker, fibers and most of the store; host I/O (WASI), bindings and tests.
    They are pure I/O, generated code, or parts whose state is in crates and
    assembly that cannot be read here.  Locks make the modelled operations atomic
    and are left out; iterators are the lists they yield; formatting, logging
    and serde are left out.

    ** Possible extensions

    Memories in slots of the pool under compiled code; the reads and writes of table elements
    in compiled code; passive segments; the operand encodings of Pulley; the frame table
    section (environ/frame_table.rs) over Sections.v.

    ** This file

    The monad and its notations, machine integers, vectors indexed by [Z], the
    contents of a table as a finite map, sums and counts, and the tactics and
    hint databases the other files use. *)

From Stdlib Require Export ZArith Lia.
From stdpp Require Export base tactics numbers list option gmap sorting.

#[export] Set Default Goal Selector "!".

(** ** Effects

    The Rust methods modelled in this library take [&mut self], may return
    [Err] (leaving the mutations made so far in place) and may panic.  They are
    computations of the state-and-error monad [M S E]: the state after a
    failure is kept, the state after a panic is not observed. *)

Inductive outcome (S E A : Type) : Type :=
| Ret (a : A) (s : S)
| Fail (e : E) (s : S)
| Panic.
Arguments Ret {S E A} a s.
Arguments Fail {S E A} e s.
Arguments Panic {S E A}.

Definition M (S E A : Type) : Type := S -> outcome S E A.

Section monad.
Context {S E : Type}.

Definition ret {A} (a : A) : M S E A := fun s => Ret a s.

(** [bail!(e)] and [return Err(e)]. *)
Definition fail {A} (e : E) : M S E A := fun s => Fail e s.

(** [panic!], [unreachable!], an out of range index, an overflow. *)
Definition panic {A} : M S E A := fun _ => Panic.

(** Sequencing with the [?] operator: an error returns at once. *)
Definition bind {A B} (m : M S E A) (k : A -> M S E B) : M S E B :=
  fun s => match m s with
           | Ret a s' => k a s'
           | Fail e s' => Fail e s'
           | Panic => Panic
           end.

Definition get : M S E S := fun s => Ret s s.
Definition put (s : S) : M S E unit := fun _ => Ret tt s.
Definition gets {A} (f : S -> A) : M S E A := fun s => Ret (f s) s.
Definition modify (f : S -> S) : M S E unit := fun s => Ret tt (f s).

(** [.unwrap()] and [.expect(..)] on an [Option]. *)
Definition unwrap {A} (o : option A) : M S E A :=
  match o with Some a => ret a | None => panic end.

(** [.ok_or(e)?] on an [Option]. *)
Definition ok_or {A} (o : option A) (e : E) : M S E A :=
  match o with Some a => ret a | None => fail e end.

(** [assert!(b)]. *)
Definition rust_assert (b : bool) : M S E unit :=
  if b then ret tt else panic.

(** The state a computation leaves, for concrete runs. *)
Definition after {A} (m : M S E A) (s : S) : S :=
  match m s with Ret _ s' | Fail _ s' => s' | Panic => s end.

Definition is_panic {A} (o : outcome S E A) : bool :=
  match o with Panic => true | _ => false end.
End monad.

(** Inversion of a sequence that returned. *)
Lemma bind_Ret {S E A B} (m : M S E A) (k : A -> M S E B) s b s' :
  bind m k s = Ret b s' -> exists a s1, m s = Ret a s1 /\ k a s1 = Ret b s'.
Proof. unfold bind. destruct (m s); naive_solver. Qed.

(** Running a sequence whose first part is known to return. *)
Lemma bind_run {S E A B} (m : M S E A) (k : A -> M S E B) s a s' :
  m s = Ret a s' -> bind m k s = k a s'.
Proof. unfold bind. by intros ->. Qed.

Lemma assert_run {S E} (b : bool) (s : S) : b = true -> rust_assert (E := E) b s = Ret tt s.
Proof. by intros ->. Qed.

Lemma unwrap_run {S E A} (o : option A) a (s : S) :
  o = Some a -> unwrap (E := E) o s = Ret a s.
Proof. by intros ->. Qed.

(** Weakest preconditions: the computation does not panic, and what it returns,
    or fails with, satisfies [P], or [Q]. *)
Definition wp {S E A} (m : M S E A) (P : A -> S -> Prop) (Q : E -> S -> Prop) (s : S) : Prop :=
  match m s with
  | Ret a s' => P a s'
  | Fail e s' => Q e s'
  | Panic => False
  end.

Lemma wp_bind {S E A B} (m : M S E A) (k : A -> M S E B) P Q s :
  wp m (fun a s' => wp (k a) P Q s') Q s -> wp (bind m k) P Q s.
Proof. unfold wp, bind. by destruct (m s). Qed.

Lemma wp_mono {S E A} (m : M S E A) (P P' : A -> S -> Prop) (Q Q' : E -> S -> Prop) s :
  wp m P Q s -> (forall a s', P a s' -> P' a s') -> (forall e s', Q e s' -> Q' e s') -> wp m P' Q' s.
Proof. unfold wp. destruct (m s); naive_solver. Qed.

(** The error postcondition may use that the computation failed so. *)
Lemma wp_fail_eq {S E A} (m : M S E A) P (Q : E -> S -> Prop) s :
  wp m P (fun e s' => m s = Fail e s' -> Q e s') s -> wp m P Q s.
Proof. unfold wp. destruct (m s); auto. Qed.

Lemma wp_run {S E A} (m : M S E A) P Q s a s' : m s = Ret a s' -> P a s' -> wp m P Q s.
Proof. unfold wp. by intros ->. Qed.

Lemma wp_Ret {S E A} (m : M S E A) P Q s a s' : wp m P Q s -> m s = Ret a s' -> P a s'.
Proof. unfold wp. intros Hw Hm. by rewrite Hm in Hw. Qed.

Lemma wp_ret {S E A} (a : A) P (Q : E -> S -> Prop) s : P a s -> wp (ret a) P Q s.
Proof. done. Qed.

Lemma wp_assert {S E} (b : bool) P (Q : E -> S -> Prop) s :
  b = true -> P tt s -> wp (rust_assert b) P Q s.
Proof. by intros ->. Qed.

Lemma wp_unwrap {S E A} (o : option A) a P (Q : E -> S -> Prop) s :
  o = Some a -> P a s -> wp (unwrap o) P Q s.
Proof. by intros ->. Qed.

(** [Result::ok]: an error becomes [None], its effects stay. *)
Definition attempt {S E E' A} (m : M S E A) : M S E' (option A) :=
  fun s => match m s with
           | Ret a s' => Ret (Some a) s'
           | Fail _ s' => Ret None s'
           | Panic => Panic
           end.

Lemma wp_attempt {S E E' A} (m : M S E A) P (Q : E' -> S -> Prop) s :
  wp m (fun a s' => P (Some a) s') (fun _ s' => P None s') s -> wp (attempt m) P Q s.
Proof. unfold wp, attempt. by destruct (m s). Qed.

(** A destructor that runs when an error is propagated. *)
Definition on_err {S E A B} (m : M S E A) (cleanup : M S E B) : M S E A :=
  fun s => match m s with
           | Fail e s' => match cleanup s' with
                          | Ret _ s'' | Fail _ s'' => Fail e s''
                          | Panic => Panic
                          end
           | r => r
           end.

Lemma wp_on_err {S E A B} (m : M S E A) (c : M S E B) P (Q : E -> S -> Prop) s :
  wp m P (fun e s' => wp c (fun _ => Q e) (fun _ => Q e) s') s -> wp (on_err m c) P Q s.
Proof. unfold wp, on_err. destruct (m s) as [| e s'|]; [done| |done]. by destruct (c s'). Qed.

Declare Scope rust_scope.
Delimit Scope rust_scope with rust.
Notation "x <- m ;; k" := (bind m (fun x => k))
  (at level 100, m at next level, right associativity) : rust_scope.
Notation "m ;;; k" := (bind m (fun _ => k))
  (at level 100, right associativity) : rust_scope.
Open Scope rust_scope.

(** Running a method of a field of the state ([self.field.method(..)]). *)
Definition zoom {S T E A} (view : S -> T) (upd : T -> S -> S) (m : M T E A)
  : M S E A :=
  fun s => match m (view s) with
           | Ret a t => Ret a (upd t s)
           | Fail e t => Fail e (upd t s)
           | Panic => Panic
           end.

(** [.map_err(f)]: the error of a callee converted to the caller's. *)
Definition map_err {S E E' A} (f : E -> E') (m : M S E A) : M S E' A :=
  fun s => match m s with
           | Ret a s' => Ret a s'
           | Fail e s' => Fail (f e) s'
           | Panic => Panic
           end.

(** [.or_else(k)] on a [Result]. *)
Definition or_else {S E E' A} (m : M S E A) (k : E -> M S E' A) : M S E' A :=
  fun s => match m s with
           | Ret a s' => Ret a s'
           | Fail e s' => k e s'
           | Panic => Panic
           end.

(** ** Machine integers

    An integer of width [w] is a [Z]; every operation that can leave the range
    says what happens there.  [+], [-] and [*] are modelled with overflow
    checks (they panic), the named operations as the standard library defines
    them.  [usize] is 64 bits wide. *)

Open Scope Z_scope.

Definition u8_MAX : Z := 2 ^ 8 - 1.
Definition u32_MAX : Z := 2 ^ 32 - 1.
Definition usize_MAX : Z := 2 ^ 64 - 1.

Definition in_u8 (z : Z) : Prop := 0 <= z <= u8_MAX.
Definition in_u32 (z : Z) : Prop := 0 <= z <= u32_MAX.
Definition in_usize (z : Z) : Prop := 0 <= z <= usize_MAX.

(** [a.checked_add(b)] and [a.checked_sub(b)] at the width of [max]. *)
Definition checked_add (max a b : Z) : option Z :=
  if a + b <=? max then Some (a + b) else None.
Definition checked_sub (a b : Z) : option Z :=
  if b <=? a then Some (a - b) else None.
Definition saturating_add (max a b : Z) : Z := Z.min (a + b) max.
Definition saturating_sub (a b : Z) : Z := Z.max (a - b) 0.
(** [T::try_from(z)] for an unsigned [T]. *)
Definition try_from (max z : Z) : option Z :=
  if (0 <=? z) && (z <=? max) then Some z else None.

Lemma checked_add_Some max a b c :
  checked_add max a b = Some c <-> c = a + b /\ a + b <= max.
Proof.
  unfold checked_add. destruct (Z.leb_spec (a + b) max); split;
    intros; simplify_eq/=; intuition (try congruence; try lia).
Qed.

Lemma checked_sub_Some a b c : checked_sub a b = Some c <-> c = a - b /\ b <= a.
Proof.
  unfold checked_sub. destruct (Z.leb_spec b a); split;
    intros; simplify_eq/=; intuition (try congruence; try lia).
Qed.

Lemma try_from_Some max z c : try_from max z = Some c <-> c = z /\ 0 <= z <= max.
Proof.
  unfold try_from.
  destruct (Z.leb_spec 0 z), (Z.leb_spec z max); simpl; split;
    intros; simplify_eq/=; intuition (try congruence; try lia).
Qed.

Lemma try_from_in max z : 0 <= z <= max -> try_from max z = Some z.
Proof. intros. by apply try_from_Some. Qed.

(** The length of a vector as a [usize]. *)
Definition zlen {A} (l : list A) : Z := Z.of_nat (length l).

(** [v[i]] and [v.get(i)]: out of range is [None]. *)
Definition zget {A} (l : list A) (i : Z) : option A :=
  if 0 <=? i then l !! Z.to_nat i else None.

(** [v[i] = x] for [i] in range. *)
Definition zset {A} (l : list A) (i : Z) (x : A) : list A :=
  <[Z.to_nat i := x]> l.

Section zlist.
Context {A : Type}.
Implicit Types (l : list A) (i j : Z) (x : A).

Lemma zlen_nonneg l : 0 <= zlen l.
Proof. unfold zlen. lia. Qed.

Lemma zget_Some l i x : zget l i = Some x <-> 0 <= i /\ l !! Z.to_nat i = Some x.
Proof. unfold zget. destruct (Z.leb_spec 0 i); naive_solver lia. Qed.

Lemma zget_lt l i x : zget l i = Some x -> 0 <= i < zlen l.
Proof.
  intros [? H]%zget_Some. apply lookup_lt_Some in H. unfold zlen. lia.
Qed.

Lemma zget_is_Some l i : is_Some (zget l i) <-> 0 <= i < zlen l.
Proof.
  split; [intros [x ?]; by eapply zget_lt|].
  intros [? ?]. unfold zget. rewrite (proj2 (Z.leb_le 0 i)) by done.
  apply lookup_lt_is_Some. unfold zlen in *. lia.
Qed.

Lemma zget_None l i : zget l i = None <-> i < 0 \/ zlen l <= i.
Proof.
  rewrite eq_None_not_Some, zget_is_Some. lia.
Qed.

Lemma zlen_zset l i x : zlen (zset l i x) = zlen l.
Proof. unfold zlen, zset. by rewrite length_insert. Qed.

Lemma zget_zset l i j x : 0 <= i < zlen l ->
  zget (zset l i x) j = if decide (i = j) then Some x else zget l j.
Proof.
  intros [Hi Hl]. unfold zget, zset, zlen in *.
  destruct (Z.leb_spec 0 j); case_decide; try lia; subst; try done.
  - rewrite list_lookup_insert_eq; [done|lia].
  - rewrite list_lookup_insert_ne; [done|lia].
Qed.

Lemma zget_zset_eq l i x : 0 <= i < zlen l -> zget (zset l i x) i = Some x.
Proof. intros. rewrite zget_zset by done. by case_decide. Qed.

Lemma zget_zset_ne l i j x : 0 <= i < zlen l -> i <> j ->
  zget (zset l i x) j = zget l j.
Proof. intros. rewrite zget_zset by done. by case_decide. Qed.

Lemma zlen_app l l' : zlen (l ++ l') = zlen l + zlen l'.
Proof. unfold zlen. rewrite length_app. lia. Qed.

Lemma zlen_cons x l : zlen (x :: l) = 1 + zlen l.
Proof. unfold zlen. simpl. lia. Qed.

Lemma zget_app_l l l' i : i < zlen l -> zget (l ++ l') i = zget l i.
Proof.
  intros. unfold zget, zlen in *. destruct (Z.leb_spec 0 i); [|done].
  by rewrite lookup_app_l by lia.
Qed.

Lemma zget_snoc l x i :
  zget (l ++ [x]) i = if decide (i = zlen l) then Some x else zget l i.
Proof.
  case_decide as Hi.
  - subst. unfold zget, zlen. rewrite (proj2 (Z.leb_le _ _)) by lia.
    rewrite lookup_app_r by lia. by replace (_ - _)%nat with 0%nat by lia.
  - destruct (decide (i < zlen l)); [by apply zget_app_l|].
    rewrite !(proj2 (zget_None _ _)); [done|lia|].
    rewrite zlen_app, zlen_cons. unfold zlen. simpl. unfold zlen in *. lia.
Qed.

Lemma zget_elem_of l i x : zget l i = Some x -> x ∈ l.
Proof. intros [_ Hx]%zget_Some. by eapply list_elem_of_lookup_2. Qed.

Lemma elem_of_zset l i x y : y ∈ zset l i x -> y = x \/ y ∈ l.
Proof.
  unfold zset. intros [j Hj]%list_elem_of_lookup.
  destruct (decide (Z.to_nat i = j)) as [<-|].
  - pose proof (lookup_lt_Some _ _ _ Hj) as Hl. rewrite length_insert in Hl.
    rewrite list_lookup_insert_eq in Hj by done. naive_solver.
  - rewrite list_lookup_insert_ne in Hj by done. right.
    by eapply list_elem_of_lookup_2.
Qed.

Lemma zget_of_nat l (n : nat) : zget l (Z.of_nat n) = l !! n.
Proof.
  unfold zget. rewrite (proj2 (Z.leb_le _ _)) by lia. by rewrite Nat2Z.id.
Qed.
End zlist.

Lemma forallb_elem {A} (p : A -> bool) l :
  forallb p l = true <-> forall x, x ∈ l -> p x = true.
Proof. rewrite forallb_forall. by setoid_rewrite list_elem_of_In. Qed.

(** ** The contents of a table

    A table is a vector whose slots are vacant or hold a value ([f] reads a
    slot).  Its contents are the finite map from slot index to value: the
    abstract state the tables' specifications speak about. *)

Section contents.
Context {A B : Type} (f : A -> option B).

Fixpoint contents_from (i : Z) (l : list A) : gmap Z B :=
  match l with
  | [] => ∅
  | x :: l => match f x with
              | Some b => <[i := b]> (contents_from (i + 1) l)
              | None => contents_from (i + 1) l
              end
  end.

Definition contents (l : list A) : gmap Z B := contents_from 0 l.

Lemma lookup_contents_from l i j :
  contents_from i l !! j = zget l (j - i) ≫= f.
Proof.
  revert i. induction l as [|x l IH]; intros i; simpl.
  { unfold zget. rewrite lookup_empty. by destruct (0 <=? j - i). }
  assert (zget (x :: l) (j - i) = if decide (j = i) then Some x
                                  else zget l (j - (i + 1))) as ->.
  { unfold zget. case_decide; [subst; by rewrite Z.sub_diag|].
    destruct (Z.leb_spec 0 (j - i)), (Z.leb_spec 0 (j - (i + 1))); try lia;
      [|done]. by replace (Z.to_nat (j - i)) with (S (Z.to_nat (j - (i + 1))))
      by lia. }
  destruct (f x) eqn:Hx; case_decide; subst; simpl; simplify_map_eq; auto.
  rewrite IH. unfold zget. rewrite (proj2 (Z.leb_gt _ _)) by lia. done.
Qed.

Lemma lookup_contents l j : contents l !! j = zget l j ≫= f.
Proof. unfold contents. rewrite lookup_contents_from. by rewrite Z.sub_0_r. Qed.

Lemma contents_from_zset_Some l k i x b :
  0 <= i < zlen l -> f x = Some b ->
  contents_from k (zset l i x) = <[k + i := b]> (contents_from k l).
Proof.
  intros Hi Hx. apply map_eq. intros j.
  rewrite lookup_contents_from, zget_zset, lookup_insert, lookup_contents_from
    by done.
  repeat case_decide; simpl; try done; lia.
Qed.

Lemma contents_from_zset_None l k i x :
  0 <= i < zlen l -> f x = None ->
  contents_from k (zset l i x) = delete (k + i) (contents_from k l).
Proof.
  intros Hi Hx. apply map_eq. intros j.
  rewrite lookup_contents_from, zget_zset, lookup_delete, lookup_contents_from
    by done.
  repeat case_decide; simpl; try done; lia.
Qed.

Lemma contents_from_snoc_None l k x :
  f x = None -> contents_from k (l ++ [x]) = contents_from k l.
Proof.
  intros Hx. apply map_eq. intros j.
  rewrite !lookup_contents_from, zget_snoc. case_decide as Hj; [|done].
  rewrite Hj. simpl. rewrite Hx. by rewrite (proj2 (zget_None l _)) by lia.
Qed.

Lemma contents_from_snoc_Some l k x b :
  f x = Some b ->
  contents_from k (l ++ [x]) = <[k + zlen l := b]> (contents_from k l).
Proof.
  intros Hx. apply map_eq. intros j.
  rewrite lookup_contents_from, zget_snoc, lookup_insert, lookup_contents_from.
  repeat case_decide; simpl; try done; lia.
Qed.

Lemma contents_zset_Some l i x b :
  0 <= i < zlen l -> f x = Some b -> contents (zset l i x) = <[i := b]> (contents l).
Proof. apply (contents_from_zset_Some l 0). Qed.

Lemma contents_zset_None l i x :
  0 <= i < zlen l -> f x = None -> contents (zset l i x) = delete i (contents l).
Proof. apply (contents_from_zset_None l 0). Qed.

Lemma contents_snoc_None l x : f x = None -> contents (l ++ [x]) = contents l.
Proof. apply contents_from_snoc_None. Qed.

Lemma contents_nil : contents [] = ∅.
Proof. done. Qed.
End contents.

Lemma alter_Some {V} (f : V -> V) (m : gmap Z V) i x :
  m !! i = Some x -> alter f i m = <[i := f x]> m.
Proof.
  intros Hi. apply map_eq. intros j. rewrite lookup_alter, lookup_insert.
  case_decide; [by subst; rewrite Hi|done].
Qed.

(** ** Sums over a vector and counting in a map *)

Section total.
Context {A : Type} (f : A -> Z).

Fixpoint total (l : list A) : Z :=
  match l with [] => 0 | x :: l => f x + total l end.

Lemma total_app l l' : total (l ++ l') = total l + total l'.
Proof. induction l; simpl; lia. Qed.

Lemma total_insert (l : list A) (n : nat) x y :
  l !! n = Some x -> total (<[n := y]> l) = total l - f x + f y.
Proof.
  revert n. induction l as [|a l IH]; intros [|n]; simpl; intros; simplify_eq;
    [lia|]. rewrite (IH n) by done. lia.
Qed.

Lemma total_nonneg l : (forall x, 0 <= f x) -> 0 <= total l.
Proof. intros H. induction l as [|a l IH]; simpl; [lia|]. specialize (H a). lia. Qed.

Lemma total_le l (n : nat) x :
  (forall x, 0 <= f x) -> l !! n = Some x -> f x <= total l.
Proof.
  intros H. revert n. induction l as [|a l IH]; [done|].
  intros [|n]; simpl; intros Hn; pose proof (H a).
  - simplify_eq. pose proof (total_nonneg l H). lia.
  - apply IH in Hn. lia.
Qed.
End total.

Lemma total_zero {A} (f : A -> Z) l : (forall x, x ∈ l -> f x = 0) -> total f l = 0.
Proof.
  induction l as [|a l IH]; intros H; simpl; [done|].
  rewrite H by set_solver. rewrite IH; [done|set_solver].
Qed.

Lemma total_ext {A} (f g : A -> Z) l :
  (forall x, x ∈ l -> f x = g x) -> total f l = total g l.
Proof.
  induction l as [|a l IH]; intros H; simpl; [done|].
  rewrite H by set_solver. f_equal. apply IH. set_solver.
Qed.

Section count_map.
Context {V : Type} (p : V -> bool).

(** How many values of the map satisfy [p]. *)
Definition count_map (m : gmap Z V) : Z :=
  Z.of_nat (size (filter (fun kv => p kv.2 = true) m)).

Definition b2z (b : bool) : Z := if b then 1 else 0.

Lemma count_map_nonneg m : 0 <= count_map m.
Proof. unfold count_map. lia. Qed.

Lemma count_map_insert m k v :
  m !! k = None -> count_map (<[k := v]> m) = count_map m + b2z (p v).
Proof.
  intros Hk. unfold count_map, b2z. destruct (p v) eqn:Hp.
  - rewrite map_filter_insert_True by done. rewrite map_size_insert_None; [lia|].
    apply map_lookup_filter_None. left. done.
  - rewrite map_filter_insert_False by (simpl; congruence).
    rewrite delete_id by done. lia.
Qed.

Lemma count_map_delete m k v :
  m !! k = Some v -> count_map (delete k m) = count_map m - b2z (p v).
Proof.
  intros Hk.
  assert (count_map m = count_map (delete k m) + b2z (p v)); [|lia].
  rewrite <- (count_map_insert _ k) by apply lookup_delete_eq.
  by rewrite insert_delete_eq, insert_id.
Qed.

Lemma count_map_update m k v w :
  m !! k = Some v -> count_map (<[k := w]> m) = count_map m - b2z (p v) + b2z (p w).
Proof.
  intros Hk. rewrite <- insert_delete_eq, count_map_insert by apply lookup_delete_eq.
  by rewrite (count_map_delete m k v).
Qed.

Lemma count_map_pos m k v : m !! k = Some v -> p v = true -> 1 <= count_map m.
Proof.
  intros Hk Hp. pose proof (count_map_delete m k v Hk) as Hd. rewrite Hp in Hd.
  pose proof (count_map_nonneg (delete k m)). simpl in Hd. lia.
Qed.
End count_map.

(** ** Tactics

    [crush_matches] splits the conditionals and matches a model's definition
    leaves in a hypothesis or the goal; [inv_ret] runs a computation of [M]
    that is known to have returned. *)

Ltac simplify_bools :=
  repeat match goal with
  | H : (_ <=? _) = true |- _ => apply Z.leb_le in H
  | H : (_ <=? _) = false |- _ => apply Z.leb_gt in H
  | H : (_ <? _) = true |- _ => apply Z.ltb_lt in H
  | H : (_ <? _) = false |- _ => apply Z.ltb_ge in H
  | H : (_ =? _) = true |- _ => apply Z.eqb_eq in H
  | H : (_ =? _) = false |- _ => apply Z.eqb_neq in H
  | H : (_ && _) = true |- _ => apply andb_true_iff in H; destruct H
  | H : negb _ = true |- _ => apply negb_true_iff in H
  | H : negb _ = false |- _ => apply negb_false_iff in H
  | H : bool_decide _ = true |- _ => apply bool_decide_eq_true in H
  | H : bool_decide _ = false |- _ => apply bool_decide_eq_false in H
  end.

Ltac case_in H :=
  match type of H with
  | context [match ?x with _ => _ end] =>
      lazymatch x with
      | context [match _ with _ => _ end] => fail
      | _ => destruct x eqn:?
      end
  end.

Ltac crush_in H := repeat (case_in H; simplify_eq/=); simplify_bools.

Create HintDb rust.
#[export] Hint Resolve zlen_nonneg zget_lt : rust.

Create Rewrite HintDb zlist.
#[export] Hint Rewrite @zlen_zset @zlen_app @zlen_cons : zlist.
