(* ===== verification/MemoryTypes.v ===== *)
(** * Memory types and tunables

    The [Memory] type of crates/environ/src/types.rs with the questions the
    compiler and the runtime ask of it (its byte sizes, whether virtual memory
    may stand for bounds checks, whether its base may move), and the view
    [MemoryTunables] that crates/environ/src/tunables.rs gives of the
    configuration for linear memories and for GC heaps.  Both sides of Wasmtime
    decide with these functions: BoundsCheck.v compiles accesses by them,
    LinearMemory.v and MemoryPool.v allocate by them.

    [Result<_, SizeOverflow>] is [option]; where the source adds two [u64] the
    result is [None] on overflow. *)

From S2P Require Import Prelude.

Definition u64_MAX : Z := 2 ^ 64 - 1.

Definition checked_mul (max a b : Z) : option Z := if a * b <=? max then Some (a * b) else None.

Lemma checked_mul_Some max a b c : checked_mul max a b = Some c <-> c = a * b /\ a * b <= max.
Proof.
  unfold checked_mul. destruct (Z.leb_spec (a * b) max); split; intros; destruct_and?; simplify_eq; auto; lia.
Qed.

(** ** Configuration *)

Record Tunables := mkTunables {
  memory_reservation : Z;
  memory_guard_size : Z;
  memory_reservation_for_growth : Z;
  memory_may_move : bool;
  gc_heap_reservation : Z;
  gc_heap_guard_size : Z;
  gc_heap_reservation_for_growth : Z;
  gc_heap_may_move : bool;
  guard_before_linear_memory : bool;
  signals_based_traps : bool;
  memory_init_cow : bool;
  debug_guest : bool;
  consume_fuel : bool;
  metadata_for_internal_asserts : bool;
  metadata_for_gc_heap_corruption : bool;
  table_lazy_init : bool
}.

Inductive MemoryKind := LinearMemory | GcHeap.

Module MemoryTunables.
Record t := new { tunables : Tunables; kind : MemoryKind }.

Definition reservation (self : t) : Z :=
  match kind self with
  | LinearMemory => memory_reservation (tunables self)
  | GcHeap => gc_heap_reservation (tunables self)
  end.

Definition guard_size (self : t) : Z :=
  match kind self with
  | LinearMemory => memory_guard_size (tunables self)
  | GcHeap => gc_heap_guard_size (tunables self)
  end.

Definition reservation_for_growth (self : t) : Z :=
  match kind self with
  | LinearMemory => memory_reservation_for_growth (tunables self)
  | GcHeap => gc_heap_reservation_for_growth (tunables self)
  end.

Definition may_move (self : t) : bool :=
  match kind self with
  | LinearMemory => memory_may_move (tunables self)
  | GcHeap => gc_heap_may_move (tunables self)
  end.

(** Values of type [u64] whose sum does not overflow: the guard of a
    configuration that can be mapped at all. *)
Record valid (self : t) : Prop := {
  v_reservation : 0 <= reservation self;
  v_guard : 0 <= guard_size self;
  v_growth : 0 <= reservation_for_growth self <= u64_MAX;
  v_sum : reservation self + guard_size self <= u64_MAX;
}.
End MemoryTunables.

(** ** The type of a memory *)

Inductive IndexType := Idx32 | Idx64.

#[export] Instance IndexType_eq_dec : EqDecision IndexType.
Proof. solve_decision. Defined.

Definition WASM32_MAX_SIZE : Z := Z.shiftl 1 32.

Module Memory.
Record Limits := mkLimits { min : Z; max : option Z }.

Record t := mkMemory {
  idx_type : IndexType;
  limits : Limits;
  shared : bool;
  page_size_log2 : Z
}.

(** The page size; its [debug_assert!] holds of [valid] types. *)
Definition page_size (self : t) : Z := Z.shiftl 1 (page_size_log2 self).

Definition minimum_byte_size (self : t) : option Z :=
  checked_mul u64_MAX (min (limits self)) (page_size self).

Definition max_size_based_on_index_type (self : t) : Z :=
  match idx_type self with
  | Idx64 => (0 - page_size self) mod 2 ^ 64
  | Idx32 => WASM32_MAX_SIZE
  end.

Definition maximum_byte_size (self : t) : option Z :=
  match max (limits self) with
  | Some max => checked_mul u64_MAX max (page_size self)
  | None => min ← minimum_byte_size self; Some (Z.max min (max_size_based_on_index_type self))
  end.

Definition can_use_virtual_memory (self : t) (tunables : Tunables) (host_page_size_log2 : Z) : bool :=
  signals_based_traps tunables && (host_page_size_log2 <=? page_size_log2 self).

Definition can_elide_bounds_check (self : t) (mt : MemoryTunables.t) (host_page_size_log2 : Z)
  : option bool :=
  if can_use_virtual_memory self (MemoryTunables.tunables mt) host_page_size_log2
     && bool_decide (idx_type self = Idx32)
  then reach ← checked_add u64_MAX (MemoryTunables.reservation mt) (MemoryTunables.guard_size mt);
       Some (Z.shiftl 1 32 <=? reach)
  else Some false.

Definition static_heap_size (self : t) : option Z :=
  min ← minimum_byte_size self;
  max ← maximum_byte_size self;
  if min =? max then Some min else None.

Definition memory_may_move (self : t) (mt : MemoryTunables.t) : bool :=
  if shared self then false
  else if negb (MemoryTunables.may_move mt) then false
  else if (match max (limits self) with Some max => min (limits self) =? max | None => false end)
  then false
  else MemoryTunables.reservation mt <? default u64_MAX (maximum_byte_size self).

Definition allow_growth_to (self : t) (size : Z) : bool :=
  if negb (page_size_log2 self =? 0) then true
  else match idx_type self with Idx32 => size <? 0xffffffff | Idx64 => true end.

(** What validation of the module ensures: the two page sizes there are, and
    limits in order and within the index type. *)
Record valid (self : t) : Prop := {
  v_log2 : page_size_log2 self = 0 \/ page_size_log2 self = 16;
  v_min : 0 <= min (limits self);
  v_index : min (limits self) * page_size self <= 2 ^ (match idx_type self with Idx32 => 32 | Idx64 => 64 end);
  v_max : forall m, max (limits self) = Some m -> min (limits self) <= m /\
    m * page_size self <= 2 ^ (match idx_type self with Idx32 => 32 | Idx64 => 64 end);
}.

(** ** What the answers mean *)

Section facts.
Context (self : t) (Hv : valid self).

Lemma page_size_cases : page_size self = 1 \/ page_size self = 65536.
Proof. unfold page_size. destruct (v_log2 self Hv) as [-> | ->]; [left|right]; reflexivity. Qed.

Lemma page_size_log2_nonneg : 0 <= page_size_log2 self.
Proof. destruct (v_log2 self Hv); lia. Qed.

Lemma minimum_byte_size_Some n : minimum_byte_size self = Some n ->
  n = min (limits self) * page_size self /\ 0 <= n <= u64_MAX.
Proof.
  intros [-> ?]%checked_mul_Some. pose proof (v_min self Hv). destruct page_size_cases; nia.
Qed.

Lemma max_index_type_pos : 0 < max_size_based_on_index_type self <= u64_MAX.
Proof.
  unfold max_size_based_on_index_type. destruct (idx_type self); [done|].
  destruct page_size_cases as [-> | ->]; done.
Qed.

Lemma maximum_byte_size_Some n : maximum_byte_size self = Some n ->
  exists m, minimum_byte_size self = Some m /\ 0 <= m <= n /\ n <= u64_MAX.
Proof.
  pose proof (v_min self Hv) as H0. pose proof max_index_type_pos as Hi.
  unfold maximum_byte_size. destruct (max (limits self)) as [mx|] eqn:E.
  - intros [-> ?]%checked_mul_Some. destruct (v_max self Hv mx E).
    exists (min (limits self) * page_size self).
    destruct page_size_cases as [Ep | Ep]; rewrite Ep in *;
      (split; [apply checked_mul_Some; rewrite Ep; lia|lia]).
  - destruct (minimum_byte_size self) as [m|] eqn:Em; [|done]. intros [= <-].
    destruct (minimum_byte_size_Some m Em). exists m. split; [done|lia].
Qed.

(** A 32-bit memory is at most 4GiB. *)
Lemma maximum_byte_size_32 : idx_type self = Idx32 ->
  exists n, maximum_byte_size self = Some n /\ n <= 2 ^ 32.
Proof.
  intros E. pose proof (v_index self Hv) as Hm. pose proof (v_max self Hv) as Hx.
  unfold maximum_byte_size, minimum_byte_size, max_size_based_on_index_type. rewrite E in *.
  destruct (max (limits self)) as [mx|].
  - destruct (Hx mx eq_refl). exists (mx * page_size self). split; [|done].
    apply checked_mul_Some. unfold u64_MAX. lia.
  - assert (checked_mul u64_MAX (min (limits self)) (page_size self) = Some (min (limits self) * page_size self)) as ->.
    { apply checked_mul_Some. unfold u64_MAX. lia. }
    eexists. split; [done|]. unfold WASM32_MAX_SIZE. rewrite Z.shiftl_1_l. lia.
Qed.

Lemma static_heap_size_Some n : static_heap_size self = Some n ->
  minimum_byte_size self = Some n /\ maximum_byte_size self = Some n.
Proof.
  unfold static_heap_size. destruct (minimum_byte_size self), (maximum_byte_size self); simpl; try done.
  case_match; [|done]. intros [= <-]. apply Z.eqb_eq in H as ->. done.
Qed.

(** A base that cannot move: growth is then confined to what was reserved. *)
Lemma memory_may_move_false mt : memory_may_move self mt = false ->
  shared self = true \/ MemoryTunables.may_move mt = false \/
  max (limits self) = Some (min (limits self)) \/
  (default u64_MAX (maximum_byte_size self) <= MemoryTunables.reservation mt).
Proof.
  unfold memory_may_move. destruct (shared self); [auto|]. destruct (MemoryTunables.may_move mt); [|auto].
  destruct (max (limits self)) as [m|]; simpl.
  - destruct (Z.eqb_spec (min (limits self)) m) as [-> | _]; [auto|]. intros ?%Z.ltb_ge. auto.
  - intros ?%Z.ltb_ge. auto.
Qed.

(** The type cannot be grown to a size whose answer from [memory.grow] would
    look like a failure. *)
Lemma allow_growth_to_32 size : page_size_log2 self = 0 -> idx_type self = Idx32 ->
  allow_growth_to self size = (size <? 2 ^ 32 - 1).
Proof. intros E1 E2. unfold allow_growth_to. by rewrite E1, E2. Qed.
End facts.
End Memory.
