(* ===== verification/Tables.v ===== *)
(** * Tables

    runtime/vm/table.rs: the tables of an instance, of functions (whose elements
    may be initialized lazily), of GC references and of continuations, either
    in a slot of the pool ([Static]) or in a vector ([Dynamic]).  The three
    element types are arms that differ in the type of the element only; each
    operation is written once over it.

    An element of a table of functions is a word: zero, and with lazy
    initialization the pointer with its lowest bit set, so that an explicit
    null is not zero.

    Shown: creation and growth never panic, also not in the assertions of debug
    builds; growth answers the old size, keeps the elements and adds nulls, or changes nothing; fills and
    accesses trap exactly when out of bounds.  TableAccess.v has what compiled
    code does with a table. *)

From S2P Require Import Prelude MemoryTypes.

(** ** The data *)

Inductive TableElementType := Func | GcRef | Cont.

#[export] Instance TableElementType_eq_dec : EqDecision TableElementType.
Proof. solve_decision. Defined.

Definition element_size (ty : TableElementType) : Z := match ty with Func => 8 | GcRef => 4 | Cont => 16 end.

(** [align_of]: a continuation is two words. *)
Definition element_align (ty : TableElementType) : Z := match ty with Func | Cont => 8 | GcRef => 4 end.

Definition FUNCREF_INIT_BIT : Z := 1.
Definition FUNCREF_MASK : Z := usize_MAX - FUNCREF_INIT_BIT.

(** The pointer of a function is at least two. *)
Module MaybeTaggedFuncRef.
Definition from (ptr : option Z) (lazy_init : bool) : option Z :=
  if lazy_init then Some (match ptr with Some p => Z.lor p FUNCREF_INIT_BIT | None => FUNCREF_INIT_BIT end) else ptr.

Definition into_funcref (self : option Z) (lazy_init : bool) : option (option Z) :=
  if lazy_init && bool_decide (self = None) then None
  else Some (p ← self; let a := Z.land p FUNCREF_MASK in if a =? 0 then None else Some a).
End MaybeTaggedFuncRef.

(** A slot of the pool: its address, its elements up to the maximum, and how many
    of them are the table's. *)
Record StaticOf {T} := mkStatic { data_ptr : Z; data : list (option T); s_size : Z }.
#[global] Arguments StaticOf : clear implicits.
#[global] Arguments mkStatic {T} _ _ _.

(** A vector, with its buffer and its capacity, and the maximum. *)
Record DynamicOf {T} := mkDynamic { v_ptr : Z; v_capacity : Z; elements : list (option T); d_maximum : option Z }.
#[global] Arguments DynamicOf : clear implicits.
#[global] Arguments mkDynamic {T} _ _ _ _.

Inductive TableOf (T : Type) := Static (t : StaticOf T) | Dynamic (t : DynamicOf T).
#[global] Arguments Static {T} _.
#[global] Arguments Dynamic {T} _.

(** Continuations are pairs of a reference and a revision. *)
Inductive Table :=
| FuncTable (t : TableOf Z) (lazy_init : bool)
| GcRefTable (t : TableOf Z)
| ContTable (t : TableOf (Z * Z)).

Inductive TableError := TableOutOfBounds | TableLimits | TableLimiterError | TableOutOfMemory | TableOverflow | TableLayoutError | TableTooLarge.

(** The allocator: zeroed buffers, and buffers grown in place or moved. *)
Class TableMemory := {
  alloc_zeroed : Z -> option Z;
  realloc : Z -> Z -> option Z;
  alloc_zeroed_spec n p : alloc_zeroed n = Some p -> 4096 <= p /\ p + n <= 2 ^ 47;
  realloc_spec q n p : realloc q n = Some p -> 4096 <= p /\ p + n <= 2 ^ 47;
}.

(** The store's limiter. *)
Record TableLimiter := mkTableLimiter {
  table_growing : Z -> Z -> option Z -> option bool;
  table_grow_failed : bool
}.

(** The type of a table: its limits, its index, what its elements are. *)
Record TableType := mkTableType { t_idx : IndexType; t_min : Z; t_max : option Z; t_elem : TableElementType }.

(** ** Creation *)

Section creation.
Context `{TableMemory}.
Abbreviation TM := (M unit TableError).

(** [Layout::from_size_align]. *)
Definition layout_ok (size align : Z) : bool := size <=? 2 ^ 63 - align.

(** [Vec::new] has a dangling buffer. *)
Definition alloc_dynamic_table_elements {T} (ty : TableElementType) (len : Z) : TM (DynamicOf T) :=
  let align := element_align ty in
  if len =? 0 then ret (mkDynamic align 0 [] None)
  else
    size <- ok_or (checked_mul usize_MAX (element_size ty) len) TableOverflow ;;
    (if layout_ok size align then ret tt else fail TableLayoutError) ;;;
    ptr <- ok_or (alloc_zeroed size) TableOutOfMemory ;;
    ret (mkDynamic ptr len (replicate (Z.to_nat len) None) None).

Definition table_growing_ (limiter : option TableLimiter) {S} (current desired : Z) (maximum : option Z) : M S TableError bool :=
  match limiter with
  | Some l => ok_or (table_growing l current desired maximum) TableLimiterError
  | None => ret true
  end.

Definition table_grow_failed_ (limiter : option TableLimiter) {S} : M S TableError unit :=
  match limiter with
  | Some l => if table_grow_failed l then ret tt else fail TableLimiterError
  | None => ret tt
  end.

Definition limit_new (ty : TableType) (limiter : option TableLimiter) : TM (Z * option Z) :=
  let minimum := try_from usize_MAX (t_min ty) in
  let maximum := match t_max ty, t_idx ty with
                 | Some max, _ => try_from usize_MAX max
                 | None, Idx64 => try_from usize_MAX u64_MAX
                 | None, Idx32 => try_from usize_MAX u32_MAX
                 end in
  allowed <- table_growing_ limiter 0 (default usize_MAX minimum) maximum ;;
  if negb allowed then fail TableLimits
  else minimum <- ok_or minimum TableLimits ;; ret (minimum, maximum).

(** [Vec::try_reserve] and [resize_with(n, || None)]. *)
Definition resize_with {T} (ty : TableElementType) (new_len : Z) (v : DynamicOf T) : option (DynamicOf T) :=
  let grown v := mkDynamic (v_ptr v) (v_capacity v)
                   (elements v ++ replicate (Z.to_nat (new_len - zlen (elements v))) None) (d_maximum v) in
  let additional := new_len - zlen (elements v) in
  if new_len <=? zlen (elements v) then Some (mkDynamic (v_ptr v) (v_capacity v) (take (Z.to_nat new_len) (elements v)) (d_maximum v))
  else if additional <=? v_capacity v - zlen (elements v) then Some (grown v)
  else
    let cap := Z.max (Z.max (2 * v_capacity v) (zlen (elements v) + additional)) 4 in
    if (zlen (elements v) + additional <=? usize_MAX) && layout_ok (element_size ty * cap) (element_align ty)
    then ptr ← realloc (v_ptr v) (element_size ty * cap); Some (grown (mkDynamic ptr cap (elements v) (d_maximum v)))
    else None.

Definition of_dynamic (ty : TableElementType) (lazy_init : bool) (minimum : Z) (maximum : option Z) : TM Table :=
  let with_maximum {T} (d : DynamicOf T) := Dynamic (mkDynamic (v_ptr d) (v_capacity d) (elements d) maximum) in
  match ty with
  | Func => d <- alloc_dynamic_table_elements Func minimum ;; ret (FuncTable (with_maximum d) lazy_init)
  | GcRef => d <- alloc_dynamic_table_elements GcRef minimum ;; ret (GcRefTable (with_maximum d))
  | Cont => d <- ok_or (resize_with Cont minimum (mkDynamic 8 0 [] None)) TableOutOfMemory ;; ret (ContTable (with_maximum d))
  end.

Definition new_dynamic (ty : TableType) (table_lazy_init : bool) (limiter : option TableLimiter) : TM Table :=
  p <- limit_new ty limiter ;;
  of_dynamic (t_elem ty) table_lazy_init p.1 p.2.

(** A slot of the pool is an address and [bytes] zeros; [align_to] leaves nothing
    before the elements if the address is aligned or there is nothing, and nothing
    after them if they fill the bytes. *)
Definition static_slice {T} (ty : TableElementType) (min max ptr bytes size : Z) : TM (StaticOf T) :=
  rust_assert ((bytes =? 0) || (ptr mod element_align ty =? 0)) ;;;
  rust_assert (bytes mod element_size ty =? 0) ;;;
  let len := bytes / element_size ty in
  if len <? min then fail TableTooLarge
  else ret (mkStatic ptr (replicate (Z.to_nat (Z.min len max)) None) size).

Definition new_static (ty : TableType) (table_lazy_init : bool) (ptr bytes : Z) (limiter : option TableLimiter) : TM Table :=
  p <- limit_new ty limiter ;;
  let max := default usize_MAX p.2 in
  match t_elem ty with
  | Func => d <- static_slice Func (t_min ty) max ptr bytes p.1 ;; ret (FuncTable (Static d) table_lazy_init)
  | GcRef => d <- static_slice GcRef (t_min ty) max ptr bytes p.1 ;; ret (GcRefTable (Static d))
  | Cont => d <- static_slice Cont (t_min ty) max ptr bytes p.1 ;; ret (ContTable (Static d))
  end.
End creation.

(** ** Operations *)

Section over_elements.
Context {T : Type}.

Definition size_of (t : TableOf T) : Z := match t with Static s => s_size s | Dynamic d => zlen (elements d) end.
Definition maximum_of (t : TableOf T) : option Z :=
  match t with Static s => Some (zlen (data s)) | Dynamic d => d_maximum d end.

(** The slice of the elements in use, and the table with other elements there. *)
Definition slice (t : TableOf T) : list (option T) :=
  match t with Static s => take (Z.to_nat (s_size s)) (data s) | Dynamic d => elements d end.
Definition with_slice (l : list (option T)) (t : TableOf T) : TableOf T :=
  match t with
  | Static s => Static (mkStatic (data_ptr s) (l ++ drop (Z.to_nat (s_size s)) (data s)) (s_size s))
  | Dynamic d => Dynamic (mkDynamic (v_ptr d) (v_capacity d) l (d_maximum d))
  end.

Definition fill_range (l : list (option T)) (start end_ : Z) (x : option T) : list (option T) :=
  take (Z.to_nat start) l ++ replicate (Z.to_nat (end_ - start)) x ++ drop (Z.to_nat end_) l.

Definition is_none (x : option T) : bool := match x with None => true | Some _ => false end.

(** The storage grown to [n] elements, with the assertion on a slot of the pool. *)
Definition grow_storage `{TableMemory} (ty : TableElementType) (n : Z) : M (TableOf T) TableError unit := fun t =>
  match t with
  | Static s =>
      if (s_size s <=? n) && (n <=? zlen (data s)) && forallb is_none (take (Z.to_nat (n - s_size s)) (drop (Z.to_nat (s_size s)) (data s)))
      then Ret tt (Static (mkStatic (data_ptr s) (data s) n)) else Panic
  | Dynamic d => match resize_with ty n d with
                 | Some d => Ret tt (Dynamic d)
                 | None => Fail TableOutOfMemory (Dynamic d)
                 end
  end.

(** [VMTableDefinition]: base and current elements. *)
Definition vmtable_of (t : TableOf T) : Z * Z :=
  match t with Static s => (data_ptr s, s_size s) | Dynamic d => (v_ptr d, zlen (elements d)) end.
End over_elements.

Definition size (t : Table) : Z :=
  match t with FuncTable t _ | GcRefTable t => size_of t | ContTable t => size_of t end.
Definition maximum (t : Table) : option Z :=
  match t with FuncTable t _ | GcRefTable t => maximum_of t | ContTable t => maximum_of t end.
Definition element_type (t : Table) : TableElementType :=
  match t with FuncTable _ _ => Func | GcRefTable _ => GcRef | ContTable _ => Cont end.
Definition vmtable (t : Table) : Z * Z :=
  match t with FuncTable t _ | GcRefTable t => vmtable_of t | ContTable t => vmtable_of t end.

Section operations.
Context `{TableMemory}.
Abbreviation TT := (M Table TableError).

Definition validate_fill (dst len : Z) : TT (Z * Z) :=
  start <- ok_or (try_from usize_MAX dst) TableOutOfBounds ;;
  len <- ok_or (try_from usize_MAX len) TableOutOfBounds ;;
  end_ <- ok_or (checked_add usize_MAX start len) TableOutOfBounds ;;
  n <- gets size ;;
  if n <? end_ then fail TableOutOfBounds else ret (start, end_).

(** [funcrefs_mut] and its like: another type of element is a panic. *)
Definition funcrefs : TT (list (option Z) * bool) :=
  fun t => match t with FuncTable f lazy_init => Ret (slice f, lazy_init) t | _ => Panic end.
Definition set_funcrefs (l : list (option Z)) : TT unit :=
  fun t => match t with FuncTable f lazy_init => Ret tt (FuncTable (with_slice l f) lazy_init) | _ => Panic end.
Definition gc_refs : TT (list (option Z)) := fun t => match t with GcRefTable f => Ret (slice f) t | _ => Panic end.
Definition contrefs : TT (list (option (Z * Z))) := fun t => match t with ContTable f => Ret (slice f) t | _ => Panic end.
Definition set_contrefs (l : list (option (Z * Z))) : TT unit :=
  fun t => match t with ContTable f => Ret tt (ContTable (with_slice l f)) | _ => Panic end.

Definition fill_func (dst : Z) (val : option Z) (len : Z) : TT unit :=
  range <- validate_fill dst len ;;
  p <- funcrefs ;;
  set_funcrefs (fill_range p.1 range.1 range.2 (MaybeTaggedFuncRef.from val p.2)).

Definition fill_cont (dst : Z) (val : option (Z * Z)) (len : Z) : TT unit :=
  range <- validate_fill dst len ;;
  l <- contrefs ;;
  set_contrefs (fill_range l range.1 range.2 val).

Definition grow (limiter : option TableLimiter) (delta : Z) : TT (option Z) :=
  old_size <- gets size ;;
  if delta =? 0 then ret (Some old_size)
  else
    delta <- ok_or (try_from usize_MAX delta) TableOutOfBounds ;;
    match checked_add usize_MAX old_size delta with
    | None => table_grow_failed_ limiter ;;; ret None
    | Some new_size =>
        max <- gets maximum ;;
        allowed <- table_growing_ limiter old_size new_size max ;;
        if negb allowed then ret None
        else if (match max with Some m => m <? new_size | None => false end) then
          table_grow_failed_ limiter ;;; ret None
        else
          (fun t => match t with
                    | FuncTable f lazy_init => zoom (fun _ => f) (fun f _ => FuncTable f lazy_init) (grow_storage Func new_size) t
                    | GcRefTable f => zoom (fun _ => f) (fun f _ => GcRefTable f) (grow_storage GcRef new_size) t
                    | ContTable f => zoom (fun _ => f) (fun f _ => ContTable f) (grow_storage Cont new_size) t
                    end) ;;;
          ret (Some old_size)
    end.

Definition get_func_maybe_init (index : Z) : TT (option (option Z)) :=
  index <- ok_or (try_from usize_MAX index) TableOutOfBounds ;;
  p <- funcrefs ;;
  elem <- ok_or (zget p.1 index) TableOutOfBounds ;;
  ret (MaybeTaggedFuncRef.into_funcref elem p.2).

Definition get_func (index : Z) : TT (option Z) :=
  elem <- get_func_maybe_init index ;;
  unwrap elem.

Definition get_gc_ref (index : Z) : TT (option Z) :=
  index <- ok_or (try_from usize_MAX index) TableOutOfBounds ;;
  l <- gc_refs ;;
  ok_or (zget l index) TableOutOfBounds.

Definition get_cont (index : Z) : TT (option (Z * Z)) :=
  index <- ok_or (try_from usize_MAX index) TableOutOfBounds ;;
  l <- contrefs ;;
  ok_or (zget l index) TableOutOfBounds.

Definition set_func (index : Z) (elem : option Z) : TT unit :=
  index <- ok_or (try_from usize_MAX index) TableOutOfBounds ;;
  p <- funcrefs ;;
  _ <- ok_or (zget p.1 index) TableOutOfBounds ;;
  set_funcrefs (zset p.1 index (MaybeTaggedFuncRef.from elem p.2)).

Definition manually_memset_zeros : TT unit := fun t =>
  let zeros {T} (f : TableOf T) := with_slice (replicate (length (slice f)) None) f in
  match t with
  | FuncTable f lazy_init => Ret tt (FuncTable (zeros f) lazy_init)
  | GcRefTable f => Ret tt (GcRefTable (zeros f))
  | ContTable f => Ret tt (ContTable (zeros f))
  end.
End operations.

(** ** Well-formed tables *)

Section wf.
Context {T : Type}.
Implicit Type t : TableOf T.

Lemma zlen_app_replicate (l : list (option T)) n x : 0 <= n -> zlen (l ++ replicate (Z.to_nat n) x) = zlen l + n.
Proof. intros. unfold zlen. rewrite length_app, length_replicate. lia. Qed.

(** The storage of a table of elements of type [ty]: what is unused of a slot
    is zeros, what is used of a vector is within its buffer and its maximum. *)
Definition storage_ok (ty : TableElementType) (t : TableOf T) : Prop :=
  match t with
  | Static s => 0 <= s_size s <= zlen (data s) /\ Forall (fun x => x = None) (drop (Z.to_nat (s_size s)) (data s)) /\
      (0 < zlen (data s) -> 4096 <= data_ptr s /\ data_ptr s + element_size ty * zlen (data s) <= 2 ^ 47)
  | Dynamic d => zlen (elements d) <= v_capacity d /\
      (0 < v_capacity d -> 4096 <= v_ptr d /\ v_ptr d + element_size ty * v_capacity d <= 2 ^ 47) /\
      (forall m, d_maximum d = Some m -> zlen (elements d) <= m)
  end.

Lemma size_slice t ty : storage_ok ty t -> size_of t = zlen (slice t).
Proof.
  destruct t as [s|d]; [|done]. intros ([? ?] & _ & _). cbn [size_of slice]. unfold zlen in *.
  rewrite length_take. lia.
Qed.

Lemma element_size_pos ty : 4 <= element_size ty <= 16.
Proof. destruct ty; simpl; lia. Qed.

Lemma size_of_range t ty : storage_ok ty t -> 0 <= size_of t < 2 ^ 46.
Proof.
  pose proof (element_size_pos ty). destruct t as [s|d]; cbn [storage_ok size_of].
  - intros ([? ?] & _ & Hp). split; [done|]. destruct (decide (0 < zlen (data s))); [|lia]. nia.
  - intros (Hc & Hp & _). assert (0 <= zlen (elements d)) by (unfold zlen; lia). split; [done|].
    destruct (decide (0 < v_capacity d)); [|lia]. nia.
Qed.

(** The slice lies in the address space. *)
Lemma vmtable_of_range t ty : storage_ok ty t -> (vmtable_of t).2 = size_of t /\
  (0 < size_of t -> 4096 <= (vmtable_of t).1 /\ (vmtable_of t).1 + element_size ty * size_of t <= 2 ^ 47).
Proof.
  pose proof (element_size_pos ty). destruct t as [s|d]; cbn [storage_ok size_of vmtable_of fst snd].
  - intros ([? ?] & _ & Hp). split; [done|]. intros ?. specialize (Hp ltac:(lia)). nia.
  - intros (Hc & Hp & _). split; [done|]. intros ?. specialize (Hp ltac:(lia)). nia.
Qed.

Lemma slice_with_slice ty l t : storage_ok ty t -> zlen l = zlen (slice t) -> slice (with_slice l t) = l.
Proof.
  destruct t as [s|d]; [|done]. intros ([? ?] & _). cbn [slice with_slice s_size data]. unfold zlen in *.
  rewrite length_take. intros Hl. apply take_app_length'. lia.
Qed.

Lemma with_slice_ok ty l t : storage_ok ty t -> zlen l = zlen (slice t) ->
  storage_ok ty (with_slice l t) /\ size_of (with_slice l t) = size_of t /\ maximum_of (with_slice l t) = maximum_of t.
Proof.
  destruct t as [s|d]; cbn [storage_ok slice with_slice s_size data data_ptr size_of maximum_of elements v_ptr v_capacity d_maximum].
  - intros ([? Hs] & Hn & Hp) Hl.
    assert (zlen (l ++ drop (Z.to_nat (s_size s)) (data s)) = zlen (data s)) as E.
    { unfold zlen in *. rewrite length_app, length_drop. rewrite length_take in Hl. lia. }
    rewrite E. split_and!; try done. rewrite drop_app_le, drop_ge; [done|..]; unfold zlen in *; rewrite length_take in Hl; lia.
  - intros (? & ? & ?) Hl. rewrite Hl. done.
Qed.

(** ** Growing the storage *)

Section storage.
Context `{TableMemory}.

Lemma resize_with_ok ty (d : DynamicOf T) n d' : storage_ok ty (Dynamic d) -> zlen (elements d) <= n ->
  (forall m, d_maximum d = Some m -> n <= m) -> resize_with ty n d = Some d' ->
  storage_ok ty (Dynamic d') /\ elements d' = elements d ++ replicate (Z.to_nat (n - zlen (elements d))) None /\
  d_maximum d' = d_maximum d.
Proof.
  intros (Hc & Hp & Hm) Hn Hmax. unfold resize_with. set (l := elements d) in *.
  assert (zlen (l ++ replicate (Z.to_nat (n - zlen l)) None) = n) as El by (rewrite zlen_app_replicate; lia).
  destruct (Z.leb_spec n (zlen l)) as [Hle|Hlt].
  { intros [= <-]. assert (n = zlen l) as -> by lia. cbn [storage_ok elements v_capacity v_ptr d_maximum].
    unfold zlen. rewrite Nat2Z.id, firstn_all. rewrite (Z.sub_diag _). by rewrite app_nil_r. }
  destruct (Z.leb_spec (n - zlen l) (v_capacity d - zlen l)) as [Hcap|Hcap].
  { intros [= <-]. cbn [storage_ok elements v_capacity v_ptr d_maximum]. rewrite El. split_and!; auto; lia. }
  set (cap := Z.max _ 4). destruct (_ && _); [|done].
  destruct (realloc (v_ptr d) (element_size ty * cap)) as [p|] eqn:Ep; [|done]. intros [= <-].
  apply realloc_spec in Ep. cbn [storage_ok elements v_capacity v_ptr d_maximum]. rewrite El. split_and!; auto.
  unfold cap. lia.
Qed.

(** Growing a table within its maximum: nulls are added, or, out of memory,
    nothing is changed. *)
Lemma grow_storage_ok ty n (t : TableOf T) : storage_ok ty t -> size_of t <= n ->
  (forall m, maximum_of t = Some m -> n <= m) ->
  wp (grow_storage ty n)
    (fun _ t' => storage_ok ty t' /\ slice t' = slice t ++ replicate (Z.to_nat (n - size_of t)) None /\
       maximum_of t' = maximum_of t)
    (fun e t' => e = TableOutOfMemory /\ t' = t) t.
Proof.
  intros Hok Hn Hmax. unfold wp, grow_storage. destruct t as [s|d].
  - destruct Hok as ([H0 Hs] & Hnone & Hp). specialize (Hmax _ eq_refl). cbn [size_of] in Hn.
    set (u := Z.to_nat (s_size s)) in *. set (k := Z.to_nat (n - s_size s)).
    assert (take k (drop u (data s)) = replicate k None) as Ek.
    { apply list_eq. intros i. destruct (decide (i < k)%nat) as [Hi|Hi].
      - rewrite lookup_take_lt by done. rewrite lookup_replicate_2 by done.
        destruct (drop u (data s) !! i) as [x|] eqn:E; [|by apply lookup_ge_None in E; rewrite length_drop in E; unfold zlen in *; lia].
        by rewrite (Forall_lookup_1 _ _ _ _ Hnone E).
      - rewrite lookup_take_ge by lia. symmetry. apply lookup_ge_None. rewrite length_replicate. lia. }
    fold u k. rewrite Ek, (proj2 (Z.leb_le _ _) Hn), (proj2 (Z.leb_le _ _) Hmax).
    assert (forallb is_none (replicate k (None : option T)) = true) as -> by (by generalize k; intros j; induction j).
    cbn [andb storage_ok slice s_size data data_ptr size_of maximum_of]. fold k. split_and!; try done; try lia.
    + replace (Z.to_nat n) with (u + k)%nat by lia. rewrite <- drop_drop. by apply Forall_drop.
    + replace (Z.to_nat n) with (u + k)%nat by lia. by rewrite <- Ek, take_take_drop.
  - destruct (resize_with ty n d) as [d'|] eqn:E; [|done].
    destruct (resize_with_ok ty d n d' Hok Hn Hmax E) as (? & ? & ?). done.
Qed.
End storage.
End wf.

Definition table_ok (t : Table) : Prop :=
  match t with
  | FuncTable f _ => storage_ok Func f
  | GcRefTable f => storage_ok GcRef f
  | ContTable f => storage_ok Cont f
  end.

(** [t'] is [t] with [n] more elements, all null. *)
Definition with_nulls (n : Z) (t t' : Table) : Prop :=
  let nulls {T} (f f' : TableOf T) :=
    slice f' = slice f ++ replicate (Z.to_nat n) None /\ maximum_of f' = maximum_of f in
  match t, t' with
  | FuncTable f lazy_init, FuncTable f' lazy_init' => nulls f f' /\ lazy_init' = lazy_init
  | GcRefTable f, GcRefTable f' => nulls f f'
  | ContTable f, ContTable f' => nulls f f'
  | _, _ => False
  end.

Lemma size_range t : table_ok t -> 0 <= size t < 2 ^ 46.
Proof. destruct t; apply size_of_range. Qed.

Section tables.
Context `{TableMemory}.

Lemma wp_ok_or {S E A} (o : option A) (e : E) P (Q : E -> S -> Prop) s :
  (forall a, o = Some a -> P a s) -> (o = None -> Q e s) -> wp (ok_or o e) P Q s.
Proof. destruct o; unfold wp; simpl; auto. Qed.

(** [grow]'s last part, on the storage of any type. *)
Lemma grow_storage_any t n : table_ok t -> size t <= n -> (forall m, maximum t = Some m -> n <= m) ->
  wp (fun t => match t with
               | FuncTable f lazy_init => zoom (fun _ => f) (fun f _ => FuncTable f lazy_init) (grow_storage Func n) t
               | GcRefTable f => zoom (fun _ => f) (fun f _ => GcRefTable f) (grow_storage GcRef n) t
               | ContTable f => zoom (fun _ => f) (fun f _ => ContTable f) (grow_storage Cont n) t
               end)
    (fun _ t' => table_ok t' /\ with_nulls (n - size t) t t') (fun e t' => e = TableOutOfMemory /\ t' = t) t.
Proof.
  intros Hok Hn Hmax.
  destruct t as [f lz|f|f]; pose proof (grow_storage_ok _ n f Hok Hn Hmax) as Hw; unfold wp, zoom in *;
    (destruct (grow_storage _ n f) as [[] f'|e f'|]; [|by destruct Hw as [-> ->]|done]); destruct Hw as (? & ? & ?);
    by split_and!.
Qed.

(** [wp] of the limiter's calls: the state is not touched. *)
Lemma wp_table_growing {S} limiter cur new mx P (Q : TableError -> S -> Prop) s :
  (forall ok : bool, P ok s) -> Q TableLimiterError s -> wp (table_growing_ limiter cur new mx) P Q s.
Proof. intros HP HQ. unfold table_growing_. destruct limiter; [|apply wp_ret, HP]. by apply wp_ok_or. Qed.

Lemma wp_table_grow_failed {S} limiter P (Q : TableError -> S -> Prop) s :
  P tt s -> Q TableLimiterError s -> wp (table_grow_failed_ limiter) P Q s.
Proof. intros HP HQ. unfold table_grow_failed_, wp. destruct limiter as [l|]; [|done]. by destruct (table_grow_failed l). Qed.

(** C16. [Table::grow] never panics, whatever the limiter says and whatever
    allocation fails, also not in the assertion on the slots of the pool.  If it
    answers, the answer is the old size, the elements are kept and nulls were
    added, within the maximum; otherwise nothing has changed. *)
Theorem grow_correct limiter delta t : table_ok t -> 0 <= delta <= u64_MAX ->
  wp (grow limiter delta)
    (fun r t' => table_ok t' /\
       match r with
       | Some old => old = size t /\ with_nulls delta t t' /\
           (0 < delta -> forall m, maximum t = Some m -> size t + delta <= m)
       | None => t' = t
       end)
    (fun _ t' => t' = t) t.
Proof.
  intros Hok Hd. unfold grow. apply wp_bind, (wp_run _ _ _ _ (size t) t); [done|].
  destruct (Z.eqb_spec delta 0) as [-> |Hne].
  { apply wp_ret. split; [done|]. split_and!; [done| |lia].
    destruct t; cbn [with_nulls]; by rewrite ?app_nil_r. }
  apply wp_bind, wp_ok_or; [|done]. intros ? [-> _]%try_from_Some.
  destruct (checked_add usize_MAX (size t) delta) as [new|] eqn:En.
  2: { apply wp_bind, wp_table_grow_failed; [|done]. by apply wp_ret. }
  apply checked_add_Some in En as [-> Hle].
  apply wp_bind, (wp_run _ _ _ _ (maximum t) t); [done|].
  apply wp_bind, wp_table_growing; [|done]. intros [|]; [|by apply wp_ret]. cbn [negb].
  destruct (match maximum t with Some m => _ | None => _ end) eqn:Em.
  { apply wp_bind, wp_table_grow_failed; [|done]. by apply wp_ret. }
  assert (forall m, maximum t = Some m -> size t + delta <= m) as Hmax.
  { intros m E. rewrite E in Em. apply Z.ltb_ge in Em. lia. }
  apply wp_bind. eapply wp_mono; [apply grow_storage_any; [done|lia|done]| |].
  - intros [] t' (? & Hn). replace (size t + delta - size t) with delta in Hn by lia. apply wp_ret. auto.
  - by intros e t' [_ ->].
Qed.
End tables.

(** An allocator that has 2^32 bytes at one address, as long as nobody asks twice. *)
Definition one_buffer (n : Z) : option Z := if n <=? u32_MAX then Some 65536 else None.

Lemma one_buffer_spec n p : one_buffer n = Some p -> 4096 <= p /\ p + n <= 2 ^ 47.
Proof. unfold one_buffer. destruct (Z.leb_spec n u32_MAX); [|done]. intros [= <-]. unfold u32_MAX in *. lia. Qed.

#[local] Instance one_buffer_memory : TableMemory := {
  alloc_zeroed := one_buffer;
  realloc := fun _ => one_buffer;
  alloc_zeroed_spec := one_buffer_spec;
  realloc_spec := fun _ => one_buffer_spec;
}.

(** A lazy table of the pool with three functions and room for five, and a
    vector of two GC references, full. *)
Definition static_table : Table :=
  FuncTable (Static (mkStatic 8192 [Some 4097; None; Some 1; None; None] 3)) true.
Definition vector_table : Table := GcRefTable (Dynamic (mkDynamic 65536 2 [Some 4; None] (Some 10))).

Example static_table_grows : grow None 2 static_table =
  Ret (Some 3) (FuncTable (Static (mkStatic 8192 [Some 4097; None; Some 1; None; None] 5)) true).
Proof. reflexivity. Qed.

Example static_table_full : grow None 3 static_table = Ret None static_table.
Proof. reflexivity. Qed.

Example vector_table_grows : grow None 1 vector_table =
  Ret (Some 2) (GcRefTable (Dynamic (mkDynamic 65536 4 [Some 4; None; None] (Some 10)))).
Proof. reflexivity. Qed.

Lemma static_table_ok : table_ok static_table.
Proof.
  change (storage_ok Func (Static (mkStatic 8192 [Some 4097; None; Some 1; None; None] 3))).
  split; [|split]; [unfold zlen; simpl; lia|repeat constructor|intros _; unfold zlen; simpl; lia].
Qed.

Lemma vector_table_ok : table_ok vector_table.
Proof.
  change (storage_ok GcRef (Dynamic (mkDynamic 65536 2 [Some 4; None] (Some 10)))).
  split; [|split]; [unfold zlen; simpl; lia|simpl; lia|intros m [= <-]; unfold zlen; simpl; lia].
Qed.

Lemma grow_correct_witness :
  wp (grow None 2)
    (fun r t' => table_ok t' /\ match r with
       | Some old => old = 3 /\ with_nulls 2 static_table t' /\ (0 < 2 -> forall m, Some 5 = Some m -> 3 + 2 <= m)
       | None => t' = static_table
       end)
    (fun _ t' => t' = static_table) static_table /\
  wp (grow (Some (mkTableLimiter (fun _ _ _ => Some true) true)) 9)
    (fun r t' => table_ok t' /\ match r with
       | Some old => old = 2 /\ with_nulls 9 vector_table t' /\ (0 < 9 -> forall m, Some 10 = Some m -> 2 + 9 <= m)
       | None => t' = vector_table
       end)
    (fun _ t' => t' = vector_table) vector_table.
Proof.
  split.
  - apply (grow_correct None 2 static_table static_table_ok). unfold u64_MAX. lia.
  - apply (grow_correct _ 9 vector_table vector_table_ok). unfold u64_MAX. lia.
Defined.

(** ** Creation *)

Section creating.
Context `{TableMemory}.

(** The elements of a new table: [n] nulls of type [ty]. *)
Definition all_null (ty : TableElementType) (lazy_init : bool) (n : Z) (t : Table) : Prop :=
  let nulls {T} (f : TableOf T) := slice f = replicate (Z.to_nat n) None in
  match t with
  | FuncTable f l => ty = Func /\ l = lazy_init /\ nulls f
  | GcRefTable f => ty = GcRef /\ nulls f
  | ContTable f => ty = Cont /\ nulls f
  end.

(** The maximum at run time: the declared one, or that of the index type. *)
Definition runtime_maximum (ty : TableType) : Z :=
  match t_max ty, t_idx ty with Some m, _ => m | None, Idx64 => u64_MAX | None, Idx32 => u32_MAX end.

(** What validation ensures of the limits. *)
Record table_type_ok (ty : TableType) : Prop := {
  tt_min : 0 <= t_min ty;
  tt_order : t_min ty <= runtime_maximum ty;
  tt_index : runtime_maximum ty <= match t_idx ty with Idx32 => u32_MAX | Idx64 => u64_MAX end;
}.

Lemma limit_new_ok ty limiter : table_type_ok ty ->
  wp (limit_new ty limiter) (fun p _ => p = (t_min ty, Some (runtime_maximum ty))) (fun _ _ => True) tt.
Proof.
  intros [H0 Hm Hi]. assert (runtime_maximum ty <= usize_MAX) as Hu by (destruct (t_idx ty); unfold u32_MAX, u64_MAX, usize_MAX in *; lia).
  unfold limit_new. rewrite (try_from_in usize_MAX (t_min ty)) by lia. cbn [default].
  assert (match t_max ty, t_idx ty with
          | Some max, _ => try_from usize_MAX max
          | None, Idx64 => try_from usize_MAX u64_MAX
          | None, Idx32 => try_from usize_MAX u32_MAX
          end = Some (runtime_maximum ty)) as ->.
  { unfold runtime_maximum in *. destruct (t_max ty), (t_idx ty); try done; apply try_from_in; lia. }
  apply wp_bind, wp_table_growing; [|done]. by intros [|].
Qed.

Lemma replicate_None_ok {T} n : Forall (fun x => x = None) (replicate n (None : option T)).
Proof. by apply Forall_replicate. Qed.

Lemma zlen_replicate_nulls {T} n : 0 <= n -> zlen (replicate (Z.to_nat n) (None : option T)) = n.
Proof. intros. unfold zlen. rewrite length_replicate. lia. Qed.

Lemma alloc_ok {T} ty n m : 0 <= n <= m ->
  wp (alloc_dynamic_table_elements (T := T) ty n)
    (fun d _ => let t := Dynamic (mkDynamic (v_ptr d) (v_capacity d) (elements d) (Some m)) in
       storage_ok ty t /\ slice t = replicate (Z.to_nat n) None)
    (fun _ _ => True) tt.
Proof.
  intros Hn. unfold alloc_dynamic_table_elements. destruct (Z.eqb_spec n 0) as [-> |Hne].
  { apply wp_ret. cbn. split_and!; try done; try lia. intros ? [= <-]. unfold zlen. simpl. lia. }
  apply wp_bind, wp_ok_or; [|done]. intros ? [-> Hle]%checked_mul_Some.
  destruct (layout_ok _ _); [|done]. apply wp_bind, wp_ret, wp_bind, wp_ok_or; [|done].
  intros p Hp%alloc_zeroed_spec. apply wp_ret. cbn [v_ptr v_capacity elements storage_ok d_maximum slice].
  rewrite zlen_replicate_nulls by lia. split_and!; try done; try lia. intros ? [= <-]. lia.
Qed.

Lemma of_dynamic_ok ty lazy_init n m : 0 <= n <= m ->
  wp (of_dynamic ty lazy_init n (Some m))
    (fun t _ => table_ok t /\ all_null ty lazy_init n t /\ maximum t = Some m) (fun _ _ => True) tt.
Proof.
  intros Hn. unfold of_dynamic. destruct ty.
  1,2: apply wp_bind; (eapply wp_mono; [by apply (alloc_ok _ n m)| |done]);
    intros d [] (Hok & Hs); apply wp_ret; by split_and!.
  assert (storage_ok Cont (Dynamic (mkDynamic (T := Z * Z) 8 0 [] (Some m)))) as H0.
  { cbn. split_and!; try done; try lia. intros ? [= <-]. unfold zlen. simpl. lia. }
  apply wp_bind, wp_ok_or; [|done]. intros d E.
  assert (resize_with Cont n (mkDynamic (T := Z * Z) 8 0 [] (Some m)) =
    Some (mkDynamic (v_ptr d) (v_capacity d) (elements d) (Some m))) as E'.
  { revert E. unfold resize_with. cbn [elements v_capacity v_ptr d_maximum].
    repeat (case_match; try done); try (by intros [= <-]).
    destruct (realloc _ _); simpl; [|done]. by intros [= <-]. }
  destruct (resize_with_ok Cont _ n _ H0 ltac:(unfold zlen; simpl; lia) ltac:(by intros ? [= <-]; lia) E') as (Hok & Hs & _).
  cbn [elements zlen length] in Hs. rewrite app_nil_l, Z.sub_0_r in Hs. apply wp_ret. by split_and!.
Qed.

Lemma new_dynamic_ok ty lazy_init limiter : table_type_ok ty ->
  wp (new_dynamic ty lazy_init limiter)
    (fun t _ => table_ok t /\ all_null (t_elem ty) lazy_init (t_min ty) t /\ maximum t = Some (runtime_maximum ty))
    (fun _ _ => True) tt.
Proof.
  intros Hty. unfold new_dynamic. apply wp_bind. eapply wp_mono; [by apply limit_new_ok| |done].
  intros p [] ->. apply of_dynamic_ok. split; apply Hty.
Qed.

(** A slot of the pool: zeros, aligned for every type of element. *)
Record slot_ok (ptr bytes : Z) : Prop := {
  so_ptr : 4096 <= ptr;
  so_aligned : (8 | ptr);
  so_bytes : 0 <= bytes;
  so_elements : (16 | bytes);
  so_end : ptr + bytes <= 2 ^ 47;
}.

Lemma static_slice_ok {T} ty ptr bytes n m : slot_ok ptr bytes -> 0 <= n <= m ->
  wp (static_slice (T := T) ty n m ptr bytes n)
    (fun d _ => storage_ok ty (Static d) /\ slice (Static d) = replicate (Z.to_nat n) None /\
       maximum_of (Static d) = Some (Z.min (bytes / element_size ty) m))
    (fun _ _ => True) tt.
Proof.
  intros [H0 [k ->] Hb [j ->] He] Hn. unfold static_slice. pose proof (element_size_pos ty) as Hes.
  assert ((element_align ty | k * 8) /\ (element_size ty | j * 16)) as [[q Hq] [r Hr]].
  { split; destruct ty; simpl; [exists k|exists (2 * k)|exists k|exists (2 * j)|exists (4 * j)|exists j]; lia. }
  assert (element_align ty <> 0) as Hal by (by destruct ty).
  apply wp_bind, wp_assert; [by rewrite Hq, Z.mod_mul, orb_true_r by done|].
  apply wp_bind, wp_assert; [by rewrite Hr, Z.mod_mul by lia|].
  rewrite Hr, Z.div_mul by lia. destruct (Z.ltb_spec r n); [done|]. apply wp_ret.
  cbn [storage_ok slice maximum_of data_ptr data s_size]. rewrite zlen_replicate_nulls by lia.
  rewrite take_replicate. split_and!; try done; try lia.
  - apply Forall_drop, replicate_None_ok.
  - nia.
  - f_equal. lia.
Qed.

(** Creating a table in a slot of the pool or in a vector never panics, also not in the
    assertions on the slot's alignment.  Where it succeeds the table is in order: its
    elements are nulls, of its minimum size, and its maximum is that of its type,
    or less if the slot is smaller. *)
Theorem new_table_correct ty lazy_init slot limiter : table_type_ok ty ->
  match slot with Some (ptr, bytes) => slot_ok ptr bytes | None => True end ->
  wp (match slot with
      | Some (ptr, bytes) => new_static ty lazy_init ptr bytes limiter
      | None => new_dynamic ty lazy_init limiter
      end)
    (fun t _ => table_ok t /\ all_null (t_elem ty) lazy_init (t_min ty) t /\ size t = t_min ty /\
       maximum t = Some (match slot with
                         | Some (_, bytes) => Z.min (bytes / element_size (t_elem ty)) (runtime_maximum ty)
                         | None => runtime_maximum ty
                         end))
    (fun _ _ => True) tt.
Proof.
  intros Hty Hslot.
  assert (forall t, table_ok t -> all_null (t_elem ty) lazy_init (t_min ty) t -> size t = t_min ty) as Hsize.
  { pose proof (tt_min _ Hty). intros [f l|f|f] Hok Hn; cbn [size table_ok all_null] in *; rewrite (size_slice _ _ Hok);
      [destruct Hn as (_ & _ & ->)|destruct Hn as (_ & ->)|destruct Hn as (_ & ->)]; by apply zlen_replicate_nulls. }
  destruct slot as [[ptr bytes]|].
  - unfold new_static. apply wp_bind. eapply wp_mono; [by apply limit_new_ok| |done].
    intros p [] ->. cbn [fst snd default]. destruct Hty as [? ? _].
    destruct (t_elem ty); apply wp_bind;
      (eapply wp_mono; [by apply (static_slice_ok _ ptr bytes (t_min ty) (runtime_maximum ty))| |done]);
      intros d [] (? & ? & ?); apply wp_ret; (split_and!; [done..| |done]); by apply Hsize.
  - eapply wp_mono; [by apply new_dynamic_ok| |done]. intros t [] (? & ? & ?). split_and!; auto.
Qed.
End creating.

Definition func_table_type : TableType := mkTableType Idx32 3 (Some 10) Func.

(** A slot for six functions bounds a table of ten. *)
Lemma new_table_correct_witness :
  wp (new_static func_table_type true 8192 48 None)
    (fun t _ => table_ok t /\ all_null Func true 3 t /\ size t = 3 /\ maximum t = Some 6) (fun _ _ => True) tt /\
  wp (new_dynamic func_table_type false None)
    (fun t _ => table_ok t /\ all_null Func false 3 t /\ size t = 3 /\ maximum t = Some 10) (fun _ _ => True) tt.
Proof.
  assert (table_type_ok func_table_type) as Hty by (split; cbn; unfold u32_MAX; lia).
  split.
  - apply (new_table_correct func_table_type true (Some (8192, 48)) None Hty).
    split; [lia|by exists 1024|lia|by exists 3|lia].
  - apply (new_table_correct func_table_type false None None Hty). done.
Defined.

(** ** Accesses *)

Section accesses.
Context (f : TableOf Z) (lazy_init : bool) (Hok : storage_ok Func f).
Abbreviation t := (FuncTable f lazy_init).

Lemma get_func_maybe_init_run i : 0 <= i <= u64_MAX ->
  get_func_maybe_init i t =
    if i <? size_of f
    then Ret (MaybeTaggedFuncRef.into_funcref (default None (zget (slice f) i)) lazy_init) t
    else Fail TableOutOfBounds t.
Proof.
  intros Hi. unfold get_func_maybe_init, bind. rewrite try_from_in by done. cbn [ok_or ret funcrefs fst snd].
  rewrite (size_slice f Func Hok). destruct (Z.ltb_spec i (zlen (slice f))) as [Hlt|Hge].
  - destruct (proj2 (zget_is_Some (slice f) i)) as [x Ex]; [lia|]. by rewrite Ex.
  - by rewrite (proj2 (zget_None _ _)) by lia.
Qed.

Lemma set_func_run i e : 0 <= i <= u64_MAX ->
  set_func i e t =
    if i <? size_of f
    then Ret tt (FuncTable (with_slice (zset (slice f) i (MaybeTaggedFuncRef.from e lazy_init)) f) lazy_init)
    else Fail TableOutOfBounds t.
Proof.
  intros Hi. unfold set_func, bind. rewrite try_from_in by done. cbn [ok_or ret funcrefs fst snd].
  rewrite (size_slice f Func Hok). destruct (Z.ltb_spec i (zlen (slice f))) as [Hlt|Hge].
  - destruct (proj2 (zget_is_Some (slice f) i)) as [x Ex]; [lia|]. by rewrite Ex.
  - by rewrite (proj2 (zget_None _ _)) by lia.
Qed.

Lemma fill_func_run dst val len : 0 <= dst <= u64_MAX -> 0 <= len <= u64_MAX ->
  fill_func dst val len t =
    if dst + len <=? size_of f
    then Ret tt (FuncTable (with_slice (fill_range (slice f) dst (dst + len) (MaybeTaggedFuncRef.from val lazy_init)) f) lazy_init)
    else Fail TableOutOfBounds t.
Proof.
  intros Hd Hl. pose proof (size_of_range f Func Hok).
  unfold fill_func, validate_fill, bind. rewrite !try_from_in by done. cbn [ok_or ret gets]. change (size t) with (size_of f).
  destruct (Z.leb_spec (dst + len) (size_of f)).
  - rewrite (proj2 (checked_add_Some _ _ _ (dst + len))) by (unfold usize_MAX; lia). cbn [ok_or ret].
    change (size t) with (size_of f). by rewrite (proj2 (Z.ltb_ge _ _)) by lia.
  - unfold checked_add. destruct (_ <=? _); cbn [ok_or ret fail]; [|done].
    change (size t) with (size_of f). by rewrite (proj2 (Z.ltb_lt _ _)) by lia.
Qed.
End accesses.
