(* ===== verification/VmOffsets.v ===== *)
(** * The layout of the context of an instance

    environ/src/vmoffsets.rs: where compiled code finds the parts of an instance.  A
    [VMContext] has a part of fixed size and thirteen arrays, whose numbers of entries
    are the module's; the offsets are computed once, for pointers of four or eight
    bytes.  The structures themselves are those of runtime/vm/vmcontext.rs and
    stack_switching.rs, laid out by the rules of [repr(C)].

    Shown: entries of the arrays never overlap, lie behind the fixed part and inside the
    allocation, and their offsets do not overflow; the offsets of fields are those of the
    structures; entries are aligned, but for references to functions and the
    bases of passive data when the number of tags is odd and pointers have
    eight bytes.  VmContext.v writes and reads a context by these offsets. *)

From S2P Require Import Prelude MemoryTypes.

(** ** Structures that do not depend on the module *)

Definition NUM_COMPONENT_CONTEXT_SLOTS : Z := 2.

(** The addition is of 32 bits. *)
Definition align (offset width : Z) : option Z :=
  sum ← checked_add u32_MAX offset (width - 1); Some (sum / width * width).

(** What follows is arithmetic of eight bits, which does not overflow for pointers of four and
    eight bytes ([constants_fit]); [aligned8] is [align] there. *)
Definition aligned8 (offset width : Z) : Z := (offset + (width - 1)) / width * width.

Module PtrSize.
Section constants.
Context (size : Z).

Definition vmcontext_store_context := aligned8 4 size.
Definition vmcontext_builtin_functions := vmcontext_store_context + size.
Definition vm_func_ref_array_call := 0 * size.
Definition vm_func_ref_wasm_call := 1 * size.
Definition vm_func_ref_type_index := 2 * size.
Definition vm_func_ref_vmctx := 3 * size.
Definition size_of_vm_func_ref := 4 * size.
Definition size_of_vmglobal_definition := 16.
Definition size_of_vmtag_definition := 4.
Definition maximum_value_size := size_of_vmglobal_definition.

Definition vmmemory_definition_base := 0 * size.
Definition vmmemory_definition_current_length := 1 * size.
Definition size_of_vmmemory_definition := 2 * size.
Definition size_of_vmmemory_pointer := size.
Definition size_of_vmstack_chain := 2 * size.

Definition vmstore_context_fuel_consumed := 0.
Definition vmstore_context_epoch_deadline := vmstore_context_fuel_consumed + 8.
Definition vmstore_context_execution_version := vmstore_context_epoch_deadline + 8.
Definition vmstore_context_stack_limit := vmstore_context_execution_version + 8.
Definition vmstore_context_gc_heap := vmstore_context_stack_limit + size.
Definition vmstore_context_gc_heap_base := vmstore_context_gc_heap + vmmemory_definition_base.
Definition vmstore_context_gc_heap_current_length := vmstore_context_gc_heap + vmmemory_definition_current_length.
Definition vmstore_context_last_wasm_exit_trampoline_fp := vmstore_context_gc_heap + size_of_vmmemory_definition.
Definition vmstore_context_last_wasm_exit_pc := vmstore_context_last_wasm_exit_trampoline_fp + size.
Definition vmstore_context_last_wasm_entry_sp := vmstore_context_last_wasm_exit_pc + size.
Definition vmstore_context_last_wasm_entry_fp := vmstore_context_last_wasm_entry_sp + size.
Definition vmstore_context_last_wasm_entry_trap_handler := vmstore_context_last_wasm_entry_fp + size.
Definition vmstore_context_stack_chain := vmstore_context_last_wasm_entry_trap_handler + size.
Definition vmstore_context_store_data := vmstore_context_stack_chain + size_of_vmstack_chain.
Definition vmstore_context_async_guard_range := vmstore_context_store_data + size.
Definition vmstore_context_component_context_slot (i : Z) : option Z :=
  if i <? NUM_COMPONENT_CONTEXT_SLOTS then Some (vmstore_context_async_guard_range + 2 * size + i * 4) else None.

Definition vmarray_call_host_func_context_func_ref := aligned8 4 size.
Definition vmstack_limits_stack_limit := 0.
Definition vmstack_limits_last_wasm_entry_fp := size.
Definition vmhostarray_length := 0.
Definition vmhostarray_capacity := 4.
Definition vmhostarray_data := 8.
Definition size_of_vmhostarray := 8 + size.
Definition vmcommon_stack_information_limits := 0 * size.
Definition vmcommon_stack_information_state := 2 * size.
Definition vmcommon_stack_information_handlers := aligned8 (vmcommon_stack_information_state + 4) size.
Definition vmcommon_stack_information_first_switch_handler_index :=
  vmcommon_stack_information_handlers + size_of_vmhostarray.
Definition size_of_vmcommon_stack_information :=
  aligned8 (vmcommon_stack_information_first_switch_handler_index + 4) size.
Definition vmcontobj_contref := 0.
Definition vmcontobj_revision := size.
(** The size of a [usize] is the host's. *)
Definition size_of_vmcontobj (host : Z) := aligned8 (vmcontobj_revision + host) size.
Definition vmcontref_common_stack_information := 0 * size.
Definition vmcontref_parent_chain :=
  aligned8 (vmcontref_common_stack_information + size_of_vmcommon_stack_information) size.
Definition vmcontref_last_ancestor := vmcontref_parent_chain + 2 * size.
Definition vmcontref_revision := vmcontref_last_ancestor + size.
Definition vmcontref_stack := vmcontref_revision + size.
Definition vmcontref_args := vmcontref_stack + 3 * size.
Definition vmcontref_values := vmcontref_args + size_of_vmhostarray.

Definition vmctx_magic := 0.
Definition vmctx_store_context := vmctx_magic + size.
Definition vmctx_builtin_functions := vmctx_store_context + size.
Definition vmctx_epoch_ptr := vmctx_builtin_functions + size.
Definition vmctx_gc_heap_data := vmctx_epoch_ptr + size.
Definition vmctx_type_ids_array := vmctx_gc_heap_data + size.
Definition vmctx_dynamic_data_start := vmctx_type_ids_array + size.

Definition vmdrc_heap_data_over_approximated_stack_roots := 0.
Definition vmdrc_heap_data_current_over_approximated_stack_roots_len := 4.
Definition vmdrc_heap_data_over_approximated_stack_roots_len_after_last_gc := 8.
Definition size_of_vmdrc_heap_data := 12.
Definition align_of_vmdrc_heap_data := 4.
Definition vmcopying_heap_data_bump_ptr := 0.
Definition vmcopying_heap_data_active_space_end := 4.
Definition size_of_vmcopying_heap_data := 8.
Definition align_of_vmcopying_heap_data := 4.
End constants.
End PtrSize.

(** [VMFunctionImport] and its like, as methods of [VMOffsets]. *)
Section imports.
Context (pointer_size : Z).

Definition vmfunction_import_array_call := 0 * pointer_size.
Definition vmfunction_import_wasm_call := 1 * pointer_size.
Definition vmfunction_import_type_index := 2 * pointer_size.
Definition vmfunction_import_vmctx := 3 * pointer_size.
Definition size_of_vmfunction_import := 4 * pointer_size.
Definition size_of_vmfunction_body_ptr := 1 * pointer_size.
Definition vmtable_import_from := 0 * pointer_size.
Definition vmtable_import_vmctx := 1 * pointer_size.
Definition vmtable_import_index := 2 * pointer_size.
Definition size_of_vmtable_import := 3 * pointer_size.
Definition vmtable_definition_base := 0 * pointer_size.
Definition vmtable_definition_current_elements := 1 * pointer_size.
Definition size_of_vmtable_definition_current_elements := pointer_size.
Definition size_of_vmtable_definition := 2 * pointer_size.
Definition vmmemory_import_from := 0 * pointer_size.
Definition vmmemory_import_vmctx := 1 * pointer_size.
Definition vmmemory_import_index := 2 * pointer_size.
Definition size_of_vmmemory_import := 3 * pointer_size.
Definition vmglobal_import_from := 0 * pointer_size.
Definition size_of_vmglobal_import := 2 * pointer_size + 8.
Definition size_of_vmshared_type_index := 4.
Definition vmtag_import_from := 0 * pointer_size.
Definition vmtag_import_vmctx := 1 * pointer_size.
Definition vmtag_import_index := 2 * pointer_size.
Definition size_of_vmtag_import := 3 * pointer_size.
End imports.

Definition vm_gc_header_kind : Z := 0.
Definition vm_gc_header_reserved_bits : Z := vm_gc_header_kind.
Definition vm_gc_header_ty : Z := vm_gc_header_kind + 4.
Definition vm_drc_header_ref_count : Z := 8.
Definition vm_drc_header_next_over_approximated_stack_root : Z := vm_drc_header_ref_count + 8.

(** [u32::from_le_bytes]: the letters "core" and "ACHF". *)
Definition from_le_bytes (bytes : list Z) : Z := foldr (fun b rest => b + 256 * rest) 0 bytes.
Definition VMCONTEXT_MAGIC : Z := from_le_bytes [99; 111; 114; 101].
Definition VM_ARRAY_CALL_HOST_FUNC_MAGIC : Z := from_le_bytes [65; 67; 72; 70].

(** ** The layout for a module *)

(** The parts of a [Module] that are counted. *)
Record Module_ := mkModule {
  num_imported_funcs : Z;
  m_num_imported_tables : Z;
  m_num_imported_memories : Z;
  m_num_imported_globals : Z;
  m_num_imported_tags : Z;
  tables_len : Z;
  memories : list Memory.t;
  globals_len : Z;
  tags_len : Z;
  m_num_escaped_funcs : Z;
  passive_data_len : Z
}.

Record VMOffsetsFields := mkFields {
  ptr : Z;
  num_imported_functions : Z;
  num_imported_tables : Z;
  num_imported_memories : Z;
  num_imported_globals : Z;
  num_imported_tags : Z;
  num_defined_tables : Z;
  num_defined_memories : Z;
  num_owned_memories : Z;
  num_defined_globals : Z;
  num_defined_tags : Z;
  num_escaped_funcs : Z;
  num_passive_data : Z
}.

(** [VMOffsets] repeats the numbers and adds the precalculated offsets. *)
Record VMOffsets := mkOffsets {
  fields : VMOffsetsFields;
  imported_functions : Z;
  imported_tables : Z;
  imported_memories : Z;
  imported_globals : Z;
  imported_tags : Z;
  defined_tables : Z;
  defined_memories : Z;
  owned_memories : Z;
  defined_globals : Z;
  defined_tags : Z;
  defined_func_refs : Z;
  passive_data_bases : Z;
  passive_data_lengths : Z;
  size : Z
}.

Definition cadd (count size : Z) : option Z := checked_add u32_MAX count size.
Definition cmul (count size : Z) : option Z := checked_mul u32_MAX count size.

(** [size(field) = ...] of the macro: the offset of the field and the next one. *)
Definition size_ (next_field_offset : Z) (size : option Z) : option (Z * Z) :=
  size ← size; next ← cadd next_field_offset size; Some (next_field_offset, next).

Definition from (f : VMOffsetsFields) : option VMOffsets :=
  let next_field_offset := PtrSize.vmctx_dynamic_data_start (ptr f) in
  '(imported_memories, next) ← size_ next_field_offset (cmul (num_imported_memories f) (size_of_vmmemory_import (ptr f)));
  '(defined_memories, next) ← size_ next (cmul (num_defined_memories f) (PtrSize.size_of_vmmemory_pointer (ptr f)));
  '(owned_memories, next) ← size_ next (cmul (num_owned_memories f) (PtrSize.size_of_vmmemory_definition (ptr f)));
  '(imported_functions, next) ← size_ next (cmul (num_imported_functions f) (size_of_vmfunction_import (ptr f)));
  '(imported_tables, next) ← size_ next (cmul (num_imported_tables f) (size_of_vmtable_import (ptr f)));
  '(imported_globals, next) ← size_ next (cmul (num_imported_globals f) (size_of_vmglobal_import (ptr f)));
  '(imported_tags, next) ← size_ next (cmul (num_imported_tags f) (size_of_vmtag_import (ptr f)));
  '(defined_tables, next) ← size_ next (cmul (num_defined_tables f) (size_of_vmtable_definition (ptr f)));
  next ← align next 16;
  '(defined_globals, next) ← size_ next (cmul (num_defined_globals f) PtrSize.size_of_vmglobal_definition);
  '(defined_tags, next) ← size_ next (cmul (num_defined_tags f) PtrSize.size_of_vmtag_definition);
  '(defined_func_refs, next) ← size_ next (cmul (num_escaped_funcs f) (PtrSize.size_of_vm_func_ref (ptr f)));
  '(passive_data_bases, next) ← size_ next (cmul (num_passive_data f) (ptr f));
  '(passive_data_lengths, next) ← size_ next (cmul (num_passive_data f) 4);
  Some (mkOffsets f imported_functions imported_tables imported_memories imported_globals imported_tags
          defined_tables defined_memories owned_memories defined_globals defined_tags defined_func_refs
          passive_data_bases passive_data_lengths next).

Definition cast_to_u32 (sz : Z) : option Z := try_from u32_MAX sz.

Definition is_owned (m : Memory.t) : bool := negb (Memory.shared m).

(** [VMOffsets::new]; the subtractions are of [usize]. *)
Definition new (ptr : Z) (m : Module_) : option VMOffsets :=
  owned ← try_from u32_MAX (zlen (filter is_owned (drop (Z.to_nat (m_num_imported_memories m)) (memories m))));
  functions ← cast_to_u32 (num_imported_funcs m);
  tables ← cast_to_u32 (m_num_imported_tables m);
  imported_memories ← cast_to_u32 (m_num_imported_memories m);
  globals ← cast_to_u32 (m_num_imported_globals m);
  tags ← cast_to_u32 (m_num_imported_tags m);
  defined_tables ← checked_sub (tables_len m) (m_num_imported_tables m) ≫= cast_to_u32;
  defined_memories ← checked_sub (zlen (memories m)) (m_num_imported_memories m) ≫= cast_to_u32;
  defined_globals ← checked_sub (globals_len m) (m_num_imported_globals m) ≫= cast_to_u32;
  defined_tags ← checked_sub (tags_len m) (m_num_imported_tags m) ≫= cast_to_u32;
  escaped ← cast_to_u32 (m_num_escaped_funcs m);
  passive ← cast_to_u32 (passive_data_len m);
  from (mkFields ptr functions tables imported_memories globals tags defined_tables defined_memories owned
          defined_globals defined_tags escaped passive).

(** ** The accessors *)

Section accessors.
Context (self : VMOffsets).
Abbreviation p := (ptr (fields self)).

Definition vmctx_imported_functions_begin := imported_functions self.
Definition vmctx_imported_tables_begin := imported_tables self.
Definition vmctx_imported_memories_begin := imported_memories self.
Definition vmctx_imported_globals_begin := imported_globals self.
Definition vmctx_imported_tags_begin := imported_tags self.
Definition vmctx_tables_begin := defined_tables self.
Definition vmctx_memories_begin := defined_memories self.
Definition vmctx_owned_memories_begin := owned_memories self.
Definition vmctx_globals_begin := defined_globals self.
Definition vmctx_tags_begin := defined_tags self.
Definition vmctx_func_refs_begin := defined_func_refs self.
Definition vmctx_passive_data_bases_begin := passive_data_bases self.
Definition vmctx_passive_data_lengths_begin := passive_data_lengths self.
Definition size_of_vmctx := size self.

(** The assertion on the index, and arithmetic of 32 bits. *)
Definition element (begin count size index : Z) : option Z :=
  if index <? count then offset ← checked_mul u32_MAX index size; checked_add u32_MAX begin offset else None.

Definition vmctx_vmfunction_import :=
  element vmctx_imported_functions_begin (num_imported_functions (fields self)) (size_of_vmfunction_import p).
Definition vmctx_vmtable_import :=
  element vmctx_imported_tables_begin (num_imported_tables (fields self)) (size_of_vmtable_import p).
Definition vmctx_vmmemory_import :=
  element vmctx_imported_memories_begin (num_imported_memories (fields self)) (size_of_vmmemory_import p).
Definition vmctx_vmglobal_import :=
  element vmctx_imported_globals_begin (num_imported_globals (fields self)) (size_of_vmglobal_import p).
Definition vmctx_vmtag_import :=
  element vmctx_imported_tags_begin (num_imported_tags (fields self)) (size_of_vmtag_import p).
Definition vmctx_vmtable_definition :=
  element vmctx_tables_begin (num_defined_tables (fields self)) (size_of_vmtable_definition p).
Definition vmctx_vmmemory_pointer :=
  element vmctx_memories_begin (num_defined_memories (fields self)) (PtrSize.size_of_vmmemory_pointer p).
Definition vmctx_vmmemory_definition :=
  element vmctx_owned_memories_begin (num_owned_memories (fields self)) (PtrSize.size_of_vmmemory_definition p).
Definition vmctx_vmglobal_definition :=
  element vmctx_globals_begin (num_defined_globals (fields self)) PtrSize.size_of_vmglobal_definition.
Definition vmctx_vmtag_definition :=
  element vmctx_tags_begin (num_defined_tags (fields self)) PtrSize.size_of_vmtag_definition.

(** The reserved value of an index is the largest [u32]. *)
Definition not_reserved (index : Z) (r : option Z) : option Z := if index =? u32_MAX then None else r.
Definition vmctx_func_ref index :=
  not_reserved index (element vmctx_func_refs_begin (num_escaped_funcs (fields self)) (PtrSize.size_of_vm_func_ref p) index).
Definition vmctx_passive_data_base index :=
  not_reserved index (element vmctx_passive_data_bases_begin (num_passive_data (fields self)) p index).
Definition vmctx_passive_data_length index :=
  not_reserved index (element vmctx_passive_data_lengths_begin (num_passive_data (fields self)) 4 index).

(** The offset of a field of an entry. *)
Definition plus (entry : option Z) (field : Z) : option Z := e ← entry; checked_add u32_MAX e field.
Definition vmctx_vmfunction_import_wasm_call i := plus (vmctx_vmfunction_import i) (vmfunction_import_wasm_call p).
Definition vmctx_vmfunction_import_array_call i := plus (vmctx_vmfunction_import i) (vmfunction_import_array_call p).
Definition vmctx_vmfunction_import_vmctx i := plus (vmctx_vmfunction_import i) (vmfunction_import_vmctx p).
Definition vmctx_vmtable_from i := plus (vmctx_vmtable_import i) (vmtable_import_from p).
Definition vmctx_vmtable_definition_base i := plus (vmctx_vmtable_definition i) (vmtable_definition_base p).
Definition vmctx_vmtable_definition_current_elements i :=
  plus (vmctx_vmtable_definition i) (vmtable_definition_current_elements p).
Definition vmctx_vmmemory_import_from i := plus (vmctx_vmmemory_import i) (vmmemory_import_from p).
Definition vmctx_vmmemory_definition_base i := plus (vmctx_vmmemory_definition i) (PtrSize.vmmemory_definition_base p).
Definition vmctx_vmmemory_definition_current_length i :=
  plus (vmctx_vmmemory_definition i) (PtrSize.vmmemory_definition_current_length p).
Definition vmctx_vmglobal_import_from i := plus (vmctx_vmglobal_import i) (vmglobal_import_from p).
Definition vmctx_vmtag_import_from i := plus (vmctx_vmtag_import i) (vmtag_import_from p).
Definition vmctx_vmtag_import_vmctx i := plus (vmctx_vmtag_import i) (vmtag_import_vmctx p).
Definition vmctx_vmtag_import_index i := plus (vmctx_vmtag_import i) (vmtag_import_index p).
End accessors.

(** [region_sizes]: the distance of each region to the one behind it, the last region first; the
    assertions are subtractions that do not go below zero. *)
Fixpoint calculate_sizes (last : Z) (regions : list Z) : option (list Z) :=
  match regions with
  | [] => if last =? 0 then None else Some [last]
  | name :: regions =>
      size ← checked_sub last name;
      sizes ← calculate_sizes name regions;
      Some (size :: sizes)
  end.

Definition region_sizes (self : VMOffsets) : option (list Z) :=
  calculate_sizes (size self)
    [passive_data_lengths self; passive_data_bases self; defined_func_refs self; defined_tags self;
     defined_globals self; defined_tables self; imported_tags self; imported_globals self;
     imported_tables self; imported_functions self; owned_memories self; defined_memories self;
     imported_memories self].

(** ** The structures *)

(** [repr(C)]: each field at the next offset that its alignment allows, the size a
    multiple of the largest alignment.  A type is its size and its alignment. *)
Fixpoint repr_c_offsets (offset : Z) (types : list (Z * Z)) : list Z :=
  match types with
  | [] => []
  | (size, al) :: types => aligned8 offset al :: repr_c_offsets (aligned8 offset al + size) types
  end.
Fixpoint repr_c_end (offset : Z) (types : list (Z * Z)) : Z :=
  match types with [] => offset | (size, al) :: types => repr_c_end (aligned8 offset al + size) types end.
Definition repr_c_align (types : list (Z * Z)) : Z := foldr (fun t a => Z.max t.2 a) 1 types.
Definition repr_c (types : list (Z * Z)) : Z * Z :=
  (aligned8 (repr_c_end 0 types) (repr_c_align types), repr_c_align types).
Definition repr_c_field (types : list (Z * Z)) (i : nat) : Z := default 0 (repr_c_offsets 0 types !! i).

Section structures.
Context (p : Z) (u64 : Z * Z).
Abbreviation word := (p, p).
Abbreviation u32 := (4, 4).

Definition VMFunctionImport := [word; word; u32; word].
Definition VMTableImport := [word; word; u32].
Definition VMMemoryImport := [word; word; u32].
(** [VMGlobalKind] is a tag and an index. *)
Definition VMGlobalKind := [u32; u32].
Definition VMGlobalImport := [word; word; repr_c VMGlobalKind].
Definition VMTagImport := [word; word; u32].
Definition VMMemoryDefinition := [word; word].
Definition VMTableDefinition := [word; word].
Definition VMGlobalDefinition := [(16, 16)].
Definition VMTagDefinition := [u32].
Definition VMFuncRef := [word; word; u32; word].
Definition VMStackChain := [word; word].
(** [Range<*mut u8>] and [[u32; 2]] at the end. *)
Definition VMStoreContext :=
  [u64; u64; u64; word; repr_c VMMemoryDefinition; word; word; word; word; word; repr_c VMStackChain; word; (2 * p, p); (8, 4)].
Definition VMArrayCallHostFuncContext := [u32; repr_c VMFuncRef; (2 * p, p)].
Definition VMStackLimits := [word; word].
Definition VMHostArray := [u32; u32; word].
Definition VMCommonStackInformation := [repr_c VMStackLimits; u32; repr_c VMHostArray; u32].
Definition VMContObj := [word; word].
Definition VMContinuationStack := [word; word; (1, 1)].
Definition VMContRef :=
  [repr_c VMCommonStackInformation; repr_c VMStackChain; word; word; repr_c VMContinuationStack; repr_c VMHostArray; repr_c VMHostArray].
End structures.

(** ** Entries *)

(** The arrays, in the order of the layout. *)
Inductive Field :=
| ImportedMemories | DefinedMemories | OwnedMemories | ImportedFunctions | ImportedTables | ImportedGlobals
| ImportedTags | DefinedTables | DefinedGlobals | DefinedTags | FuncRefs | PassiveBases | PassiveLengths.

#[export] Instance Field_eq_dec : EqDecision Field.
Proof. solve_decision. Defined.

Section entries.
Context (o : VMOffsets).
Abbreviation p := (ptr (fields o)).

Definition entry (a : Field) : Z -> option Z :=
  match a with
  | ImportedMemories => vmctx_vmmemory_import o
  | DefinedMemories => vmctx_vmmemory_pointer o
  | OwnedMemories => vmctx_vmmemory_definition o
  | ImportedFunctions => vmctx_vmfunction_import o
  | ImportedTables => vmctx_vmtable_import o
  | ImportedGlobals => vmctx_vmglobal_import o
  | ImportedTags => vmctx_vmtag_import o
  | DefinedTables => vmctx_vmtable_definition o
  | DefinedGlobals => vmctx_vmglobal_definition o
  | DefinedTags => vmctx_vmtag_definition o
  | FuncRefs => vmctx_func_ref o
  | PassiveBases => vmctx_passive_data_base o
  | PassiveLengths => vmctx_passive_data_length o
  end.

Definition begin (a : Field) : Z :=
  match a with
  | ImportedMemories => imported_memories o
  | DefinedMemories => defined_memories o
  | OwnedMemories => owned_memories o
  | ImportedFunctions => imported_functions o
  | ImportedTables => imported_tables o
  | ImportedGlobals => imported_globals o
  | ImportedTags => imported_tags o
  | DefinedTables => defined_tables o
  | DefinedGlobals => defined_globals o
  | DefinedTags => defined_tags o
  | FuncRefs => defined_func_refs o
  | PassiveBases => passive_data_bases o
  | PassiveLengths => passive_data_lengths o
  end.
End entries.

Section numbers.
Context (f : VMOffsetsFields).
Abbreviation p := (ptr f).

Definition count (a : Field) : Z :=
  match a with
  | ImportedMemories => num_imported_memories f
  | DefinedMemories => num_defined_memories f
  | OwnedMemories => num_owned_memories f
  | ImportedFunctions => num_imported_functions f
  | ImportedTables => num_imported_tables f
  | ImportedGlobals => num_imported_globals f
  | ImportedTags => num_imported_tags f
  | DefinedTables => num_defined_tables f
  | DefinedGlobals => num_defined_globals f
  | DefinedTags => num_defined_tags f
  | FuncRefs => num_escaped_funcs f
  | PassiveBases | PassiveLengths => num_passive_data f
  end.

(** The structure an entry is. *)
Definition structure (a : Field) : list (Z * Z) :=
  match a with
  | ImportedMemories => VMMemoryImport p
  | DefinedMemories => [(p, p)]
  | OwnedMemories => VMMemoryDefinition p
  | ImportedFunctions => VMFunctionImport p
  | ImportedTables => VMTableImport p
  | ImportedGlobals => VMGlobalImport p
  | ImportedTags => VMTagImport p
  | DefinedTables => VMTableDefinition p
  | DefinedGlobals => VMGlobalDefinition
  | DefinedTags => VMTagDefinition
  | FuncRefs => VMFuncRef p
  | PassiveBases => [(p, p)]
  | PassiveLengths => [(4, 4)]
  end.

Record fields_ok : Prop := {
  f_ptr : p = 4 \/ p = 8;
  f_count : forall a, 0 <= count a <= u32_MAX;
}.
End numbers.

(** What an array's entries take, by their structure. *)
Definition entry_size (f : VMOffsetsFields) (a : Field) : Z := (repr_c (structure f a)).1.
Definition entry_align (f : VMOffsetsFields) (a : Field) : Z := (repr_c (structure f a)).2.

(** The size that the layout reckons with is the size of the structure. *)
Lemma entry_sizes f a : ptr f = 4 \/ ptr f = 8 -> entry_size f a =
  match a with
  | ImportedMemories => size_of_vmmemory_import (ptr f)
  | DefinedMemories => PtrSize.size_of_vmmemory_pointer (ptr f)
  | OwnedMemories => PtrSize.size_of_vmmemory_definition (ptr f)
  | ImportedFunctions => size_of_vmfunction_import (ptr f)
  | ImportedTables => size_of_vmtable_import (ptr f)
  | ImportedGlobals => size_of_vmglobal_import (ptr f)
  | ImportedTags => size_of_vmtag_import (ptr f)
  | DefinedTables => size_of_vmtable_definition (ptr f)
  | DefinedGlobals => PtrSize.size_of_vmglobal_definition
  | DefinedTags => PtrSize.size_of_vmtag_definition
  | FuncRefs => PtrSize.size_of_vm_func_ref (ptr f)
  | PassiveBases => ptr f
  | PassiveLengths => 4
  end.
Proof. intros [E|E]; unfold entry_size; destruct a; cbn [structure]; rewrite ?E; reflexivity. Qed.

Lemma entry_size_pos f a : ptr f = 4 \/ ptr f = 8 -> 4 <= entry_size f a <= 32.
Proof. intros H. rewrite entry_sizes by done. destruct H as [E|E], a; rewrite ?E; done. Qed.

Lemma size_Some n c s a b : size_ n (cmul c s) = Some (a, b) -> a = n /\ b = n + c * s /\ b <= u32_MAX.
Proof.
  unfold size_, cmul. destruct (checked_mul u32_MAX c s) as [m|] eqn:Em; [|done]. cbn.
  apply checked_mul_Some in Em as [-> ?]. destruct (cadd n (c * s)) as [next|] eqn:En; [|done]. cbn.
  intros [= <- <-]. apply checked_add_Some in En. lia.
Qed.

Lemma align_Some offset w r : 0 < w -> 0 <= offset -> align offset w = Some r ->
  offset <= r < offset + w /\ (w | r).
Proof.
  intros Hw Ho. unfold align. destruct (checked_add _ _ _) as [s|] eqn:Es; [|done]. apply checked_add_Some in Es as [-> ?].
  intros [= <-]. split; [|by exists ((offset + (w - 1)) / w)].
  pose proof (Z.div_mod (offset + (w - 1)) w ltac:(lia)). pose proof (Z.mod_pos_bound (offset + (w - 1)) w Hw). lia.
Qed.

(** The array behind another; after the tables the offset is aligned. *)
Definition next (a : Field) : option Field :=
  match a with
  | ImportedMemories => Some DefinedMemories
  | DefinedMemories => Some OwnedMemories
  | OwnedMemories => Some ImportedFunctions
  | ImportedFunctions => Some ImportedTables
  | ImportedTables => Some ImportedGlobals
  | ImportedGlobals => Some ImportedTags
  | ImportedTags => Some DefinedTables
  | DefinedTables => Some DefinedGlobals
  | DefinedGlobals => Some DefinedTags
  | DefinedTags => Some FuncRefs
  | FuncRefs => Some PassiveBases
  | PassiveBases => Some PassiveLengths
  | PassiveLengths => None
  end.

Definition end_ (o : VMOffsets) (a : Field) : Z := begin o a + count (fields o) a * entry_size (fields o) a.

Record laid_out (o : VMOffsets) : Prop := {
  l_first : begin o ImportedMemories = 6 * ptr (fields o);
  l_next a b : next a = Some b ->
    if decide (a = DefinedTables) then end_ o a <= begin o b < end_ o a + 16 /\ (16 | begin o b) else begin o b = end_ o a;
  l_last : size o = end_ o PassiveLengths;
  l_max : size o <= u32_MAX;
}.

Ltac offsets_simpl :=
  unfold end_; cbn [size fields begin count imported_memories defined_memories owned_memories imported_functions imported_tables imported_globals imported_tags defined_tables defined_globals defined_tags defined_func_refs
     passive_data_bases passive_data_lengths].

Lemma from_laid_out f o : fields_ok f -> from f = Some o -> fields o = f /\ laid_out o.
Proof.
  intros [Hp Hc].
  assert (forall a, 0 <= count f a * entry_size f a) as Hnn.
  { intros a. pose proof (Hc a). pose proof (entry_size_pos f a Hp). nia. }
  unfold from. change (PtrSize.vmctx_dynamic_data_start (ptr f)) with (ptr f + ptr f + ptr f + ptr f + ptr f + ptr f).
  intros H.
  repeat match type of H with
  | context [size_ ?n (cmul ?c ?s)] =>
      let E := fresh "E" in let a := fresh "a" in let b := fresh "b" in
      destruct (size_ n (cmul c s)) as [[a b]|] eqn:E; [|done]; cbn [mbind option_bind] in H; apply size_Some in E as (? & ? & ?)
  | context [align ?n 16] =>
      let E := fresh "E" in let b := fresh "b" in destruct (align n 16) as [b|] eqn:E; [|done]; cbn [mbind option_bind] in H
  end.
  injection H as <-. cbn [fields]. split; [done|].
  apply align_Some in E as [? ?]; [|lia|].
  2: { pose proof (Hnn ImportedMemories); pose proof (Hnn DefinedMemories); pose proof (Hnn OwnedMemories);
       pose proof (Hnn ImportedFunctions); pose proof (Hnn ImportedTables); pose proof (Hnn ImportedGlobals);
       pose proof (Hnn ImportedTags); pose proof (Hnn DefinedTables).
       rewrite !entry_sizes in * by done. cbn [count] in *. lia. }
  split; offsets_simpl; [lia| |..].
  - intros c d Hcd. destruct c; try done; injection Hcd as <-; case_decide; try done;
      offsets_simpl; rewrite entry_sizes by done; lia || (split; [lia|congruence]).
  - rewrite entry_sizes by done. lia.
  - lia.
Qed.

Section layout.
Context (o : VMOffsets) (Hf : fields_ok (fields o)) (Hl : laid_out o).
Abbreviation f := (fields o).
Abbreviation p := (ptr f).

Definition rank (a : Field) : nat :=
  match a with
  | ImportedMemories => 0 | DefinedMemories => 1 | OwnedMemories => 2 | ImportedFunctions => 3 | ImportedTables => 4
  | ImportedGlobals => 5 | ImportedTags => 6 | DefinedTables => 7 | DefinedGlobals => 8 | DefinedTags => 9
  | FuncRefs => 10 | PassiveBases => 11 | PassiveLengths => 12
  end.

Lemma rank_inj a b : rank a = rank b -> a = b.
Proof. by destruct a, b. Qed.

Lemma previous b n : rank b = S n -> exists c, next c = Some b /\ rank c = n.
Proof.
  destruct b; try done; intros [= <-]; [exists ImportedMemories|exists DefinedMemories|exists OwnedMemories|exists ImportedFunctions
    |exists ImportedTables|exists ImportedGlobals|exists ImportedTags|exists DefinedTables|exists DefinedGlobals|exists DefinedTags
    |exists FuncRefs|exists PassiveBases]; done.
Qed.

Lemma begin_le_end a : begin o a <= end_ o a.
Proof. unfold end_. pose proof (f_count _ Hf a). pose proof (entry_size_pos f a (f_ptr _ Hf)). nia. Qed.

Lemma next_le a b : next a = Some b -> end_ o a <= begin o b.
Proof. intros H. pose proof (l_next o Hl a b H). case_decide; lia. Qed.

Lemma arrays_ordered n : forall a b, rank b = (rank a + S n)%nat -> end_ o a <= begin o b.
Proof.
  induction n as [|n IH]; intros a b Hab.
  - destruct (previous b (rank a)) as (c & Hc & ->%rank_inj); [lia|]. by apply next_le.
  - destruct (previous b (rank a + S n)) as (c & Hc & Hrc); [lia|]. pose proof (IH a c Hrc).
    pose proof (begin_le_end c). pose proof (next_le c b Hc). lia.
Qed.

Lemma arrays_apart a b : a <> b -> end_ o a <= begin o b \/ end_ o b <= begin o a.
Proof.
  intros Hne. destruct (Nat.lt_total (rank a) (rank b)) as [H|[H|H]].
  - left. apply (arrays_ordered (rank b - rank a - 1)). lia.
  - by apply rank_inj in H.
  - right. apply (arrays_ordered (rank a - rank b - 1)). lia.
Qed.

Lemma array_bounds a : 6 * p <= begin o a /\ end_ o a <= size o.
Proof.
  split.
  - rewrite <- (l_first o Hl). destruct (decide (rank a = 0)%nat) as [H|H].
    + by rewrite (rank_inj a ImportedMemories H).
    + pose proof (begin_le_end ImportedMemories). etrans; [done|]. apply (arrays_ordered (rank a - 1)). cbn [rank]. lia.
  - rewrite (l_last o Hl). destruct (decide (rank a = 12)%nat) as [H|H].
    + by rewrite (rank_inj a PassiveLengths H).
    + etrans; [|apply begin_le_end]. apply (arrays_ordered (11 - rank a)). cbn [rank]. destruct a; cbn [rank] in *; lia.
Qed.

Lemma element_run b c s i : 0 <= i -> 0 <= b -> 0 < s -> b + c * s <= u32_MAX ->
  element b c s i = if i <? c then Some (b + i * s) else None.
Proof.
  intros Hi Hb Hs Hmax. unfold element. destruct (Z.ltb_spec i c); [|done].
  rewrite (proj2 (checked_mul_Some _ _ _ (i * s))) by (split; [done|nia]). cbn [mbind option_bind].
  apply checked_add_Some. nia.
Qed.

(** An accessor answers below the number of entries and asserts otherwise; its
    arithmetic does not overflow. *)
Lemma entry_run a i : 0 <= i ->
  entry o a i = if i <? count f a then Some (begin o a + i * entry_size f a) else None.
Proof.
  intros Hi. pose proof (f_ptr _ Hf) as Hp. pose proof (entry_size_pos f a Hp). destruct (array_bounds a) as [Hb He].
  pose proof (l_max o Hl). pose proof (f_count _ Hf a). unfold end_ in He.
  assert (0 <= begin o a) as Hb0 by lia.
  pose proof (element_run (begin o a) (count f a) (entry_size f a) i Hi Hb0 ltac:(lia) ltac:(lia)) as E.
  rewrite <- E. rewrite (entry_sizes f a Hp).
  assert (forall r, (count f a <= i -> r = None) -> not_reserved i r = r) as Hres.
  { intros r Hr. unfold not_reserved. destruct (Z.eqb_spec i u32_MAX); [|done]. rewrite Hr by lia. done. }
  destruct a; try reflexivity; cbn [entry]; apply Hres; intros ?; unfold element;
    by rewrite (proj2 (Z.ltb_ge _ _)).
Qed.

Lemma entry_Some a i x : 0 <= i -> entry o a i = Some x ->
  i < count f a /\ x = begin o a + i * entry_size f a /\ begin o a <= x /\ x + entry_size f a <= end_ o a.
Proof.
  intros Hi. rewrite entry_run by done. destruct (Z.ltb_spec i (count f a)); [|done]. intros [= <-].
  pose proof (entry_size_pos f a (f_ptr _ Hf)). unfold end_. nia.
Qed.

Lemma entries_apart a b i j x y : 0 <= i -> 0 <= j -> entry o a i = Some x -> entry o b j = Some y -> (a, i) <> (b, j) ->
  x + entry_size f a <= y \/ y + entry_size f b <= x.
Proof.
  intros Hi Hj (_ & Ex & ? & ?)%entry_Some (_ & Ey & ? & ?)%entry_Some Hne; [|done..].
  destruct (decide (a = b)) as [-> |Hab].
  - assert (i <> j) by congruence. pose proof (entry_size_pos f b (f_ptr _ Hf)). nia.
  - destruct (arrays_apart a b Hab); lia.
Qed.

(** ** Alignment *)

Lemma next_divide d a b : next a = Some b -> a <> DefinedTables -> (d | begin o a) -> (d | entry_size f a) -> (d | begin o b).
Proof.
  intros Hn Hne Ha Hs. pose proof (l_next o Hl a b Hn) as H. rewrite decide_False in H by done. rewrite H. unfold end_.
  apply Z.divide_add_r; [done|]. by apply Z.divide_mul_r.
Qed.

Lemma entry_aligns a : entry_align f a =
  match a with DefinedGlobals => 16 | DefinedTags | PassiveLengths => 4 | _ => p end.
Proof. unfold entry_align. destruct (f_ptr _ Hf) as [E|E], a; cbn [structure]; rewrite ?E; reflexivity. Qed.

Lemma entry_size_divide a : (entry_align f a | entry_size f a) /\ (4 | entry_size f a).
Proof.
  rewrite entry_aligns, entry_sizes by apply Hf.
  destruct (f_ptr _ Hf) as [E|E], a; rewrite ?E; split; by apply Z.mod_divide.
Qed.

Lemma words_aligned a : (rank a <= 7)%nat -> (p | begin o a).
Proof.
  assert (forall b c, next b = Some c -> (rank c <= 7)%nat -> (p | begin o b) -> (p | begin o c)) as Hstep.
  { intros b c Hbc Hc Hb. apply (next_divide p b c Hbc); [by intros ->; injection Hbc as <-; cbn in Hc; lia|done|].
    pose proof (proj1 (entry_size_divide b)) as Hd. rewrite entry_aligns in Hd. by destruct b; try done; injection Hbc as <-; cbn in Hc; lia. }
  assert (forall n b, rank b = n -> (n <= 7)%nat -> (p | begin o b)) as H.
  { induction n as [|n IH]; intros b Hb Hn.
    - rewrite (rank_inj b ImportedMemories Hb), (l_first o Hl). by exists 6.
    - destruct (previous b n Hb) as (c & Hc & Hrc). apply (Hstep c b Hc); [lia|]. apply IH; [done|lia]. }
  intros Ha. by apply (H (rank a)).
Qed.

Lemma globals_aligned : (16 | begin o DefinedGlobals).
Proof. by apply (l_next o Hl DefinedTables DefinedGlobals). Qed.

Lemma tags_aligned : (16 | begin o DefinedTags).
Proof.
  apply (next_divide 16 DefinedGlobals); [done|done|apply globals_aligned|]. rewrite entry_sizes by apply Hf. by exists 1.
Qed.

(** The references to functions begin behind the tags, whatever their number. *)
Lemma func_refs_begin : begin o FuncRefs = begin o DefinedTags + 4 * num_defined_tags f.
Proof.
  pose proof (l_next o Hl DefinedTags FuncRefs eq_refl) as H. rewrite decide_False in H by done. rewrite H. unfold end_.
  rewrite entry_sizes by apply Hf. cbn [count]. unfold PtrSize.size_of_vmtag_definition. lia.
Qed.

Lemma func_refs_aligned d : (d = 4 \/ d = p /\ (p = 4 \/ Z.even (num_defined_tags f) = true)) -> (d | begin o FuncRefs).
Proof.
  intros H. rewrite func_refs_begin. destruct tags_aligned as [k ->]. pose proof (f_ptr _ Hf).
  destruct H as [-> |[-> [E|E]]]; [exists (4 * k + num_defined_tags f); lia|rewrite E; exists (4 * k + num_defined_tags f); lia|].
  apply Z.even_spec in E as [q E]. rewrite E. destruct (f_ptr _ Hf) as [Ep|Ep]; rewrite Ep; [exists (4 * k + 2 * q)|exists (2 * k + q)]; lia.
Qed.

Lemma array_aligned a : a <> FuncRefs /\ a <> PassiveBases \/ p = 4 \/ Z.even (num_defined_tags f) = true ->
  (entry_align f a | begin o a).
Proof.
  intros H. rewrite entry_aligns. pose proof (entry_size_divide FuncRefs) as [Hd1 Hd4]. pose proof (entry_size_divide PassiveBases) as [_ Hb4].
  rewrite entry_aligns in Hd1.
  assert (forall d, (d | begin o FuncRefs) -> (d | entry_size f FuncRefs) -> (d | begin o PassiveBases)) as Hbases.
  { intros d. by apply next_divide. }
  destruct a; try (by apply words_aligned; cbn; lia).
  - apply globals_aligned.
  - destruct tags_aligned as [k ->]. exists (4 * k). lia.
  - apply func_refs_aligned. naive_solver.
  - apply Hbases; [|done]. apply func_refs_aligned. naive_solver.
  - apply (next_divide 4 PassiveBases); [done|done| |done]. apply Hbases; [|done]. apply func_refs_aligned. by left.
Qed.
End layout.

(** C29. For pointers of four or eight bytes and any module whose layout can be computed: the accessor of
    an array answers for every index below the number of entries, without overflow, and panics
    for others; the entry has the size of its structure, lies behind the fixed part and
    inside the allocation, overlaps no other entry of any array, and is aligned for its structure,
    but for references to functions and passive bases on 64 bits with an odd number of
    tags. *)
Theorem vmctx_layout_safe f o a i : fields_ok f -> from f = Some o -> 0 <= i ->
  if i <? count f a then
    exists x, entry o a i = Some x /\ PtrSize.vmctx_dynamic_data_start (ptr f) <= x /\ x + entry_size f a <= size_of_vmctx o /\
      (forall b j y, 0 <= j -> entry o b j = Some y -> (a, i) <> (b, j) ->
         x + entry_size f a <= y \/ y + entry_size f b <= x) /\
      (a <> FuncRefs /\ a <> PassiveBases \/ ptr f = 4 \/ Z.even (num_defined_tags f) = true -> (entry_align f a | x))
  else entry o a i = None.
Proof.
  intros Hf Ho Hi. destruct (from_laid_out f o Hf Ho) as [<- Hl]. pose proof (entry_run o Hf Hl a i Hi) as E.
  destruct (i <? count (fields o) a) eqn:Ei; [|done].
  eexists. split; [done|]. destruct (entry_Some o Hf Hl a i _ Hi E) as (_ & _ & H1 & H2).
  destruct (array_bounds o Hf Hl a) as [Hb He].
  change (PtrSize.vmctx_dynamic_data_start (ptr (fields o))) with
    (ptr (fields o) + ptr (fields o) + ptr (fields o) + ptr (fields o) + ptr (fields o) + ptr (fields o)).
  split; [lia|]. split; [unfold size_of_vmctx; lia|]. split.
  - intros b j y Hj Ey Hne. by apply (entries_apart o Hf Hl a b i j).
  - intros Ha. apply Z.divide_add_r; [by apply array_aligned|]. apply Z.divide_mul_r. by apply entry_size_divide.
Qed.

(** A module with two imported memories, three tables, a global, two tags and five functions. *)
Definition sample_fields (tags : Z) : VMOffsetsFields := mkFields 8 1 0 2 1 0 3 2 1 1 tags 5 1.

Lemma sample_fields_ok : fields_ok (sample_fields 2) /\ fields_ok (sample_fields 1).
Proof. split; (split; [by right|]); intros a; destruct a; unfold u32_MAX; simpl; lia. Qed.

Lemma vmctx_layout_safe_witness :
  exists o, from (sample_fields 2) = Some o /\
    exists x, entry o FuncRefs 3 = Some x /\ 48 <= x /\ x + 32 <= size_of_vmctx o /\
      (forall b j y, 0 <= j -> entry o b j = Some y -> (FuncRefs, 3) <> (b, j) -> x + 32 <= y \/ y + entry_size (sample_fields 2) b <= x) /\
      (8 | x).
Proof.
  destruct (from (sample_fields 2)) as [o|] eqn:Eo; [|by vm_compute in Eo]. exists o. split; [done|].
  destruct (vmctx_layout_safe (sample_fields 2) o FuncRefs 3 (proj1 sample_fields_ok) Eo ltac:(lia)) as (x & E & H1 & H2 & H3 & H4).
  exists x. split; [done|]. split; [exact H1|]. split; [exact H2|]. split; [exact H3|]. apply H4. by right; right.
Defined.

(** ** References to functions that are not aligned

    With eight-byte pointers and an odd number of tags every reference to a function
    and every base of passive data is four bytes off. *)
Lemma func_refs_misaligned f o i : fields_ok f -> from f = Some o -> ptr f = 8 -> Z.odd (num_defined_tags f) = true ->
  0 <= i -> i < num_escaped_funcs f -> exists x, vmctx_func_ref o i = Some x /\ x mod entry_align f FuncRefs = 4.
Proof.
  intros Hf Ho Hp Hodd Hi Hc. destruct (from_laid_out f o Hf Ho) as [<- Hl].
  pose proof (entry_run o Hf Hl FuncRefs i Hi) as E. cbn [count entry] in E. rewrite (proj2 (Z.ltb_lt _ _) Hc) in E.
  eexists. split; [exact E|]. rewrite entry_aligns by done. rewrite (func_refs_begin o Hf Hl), entry_sizes by apply Hf.
  unfold PtrSize.size_of_vm_func_ref. rewrite Hp. destruct (tags_aligned o Hf Hl) as [k ->].
  apply Z.odd_spec in Hodd as [q ->]. symmetry. apply (Z.mod_unique_pos _ _ (2 * k + q + 4 * i)); lia.
Qed.

(** It takes one tag and one function. *)
Example misaligned_func_ref :
  (o ← from (mkFields 8 0 0 0 0 0 0 0 0 0 1 1 0); vmctx_func_ref o 0) = Some 52.
Proof. reflexivity. Qed.

(** ** The sizes of the regions *)

Lemma calculate_sizes_total l : forall last, 0 < last -> (forall x, x ∈ l -> 0 < x) -> StronglySorted (fun a b => b <= a) (last :: l) ->
  exists sizes, calculate_sizes last l = Some sizes /\ foldr Z.add 0 sizes = last /\ length sizes = S (length l).
Proof.
  induction l as [|x l IH]; intros last Hlast Hpos Hs; cbn [calculate_sizes].
  - destruct (Z.eqb_spec last 0); [lia|]. exists [last]. split_and!; [done|simpl; lia|done].
  - apply StronglySorted_inv in Hs as [Hs Hx%Forall_cons_1]. destruct Hx as [Hx _].
    rewrite (proj2 (checked_sub_Some last x _) (conj eq_refl Hx)). cbn [mbind option_bind].
    destruct (IH x) as (sizes & -> & Hsum & Hlen); [by apply Hpos; left|intros y Hy; apply Hpos; by right|done|].
    exists (last - x :: sizes). split_and!; [done|simpl; lia|simpl; lia].
Qed.

(** The explanation of the sizes never fails and adds up. *)
Lemma region_sizes_total f o : fields_ok f -> from f = Some o ->
  exists sizes, region_sizes o = Some sizes /\ foldr Z.add 0 sizes = size_of_vmctx o /\ length sizes = 14%nat.
Proof.
  intros Hf Ho. destruct (from_laid_out f o Hf Ho) as [<- Hl].
  assert (forall a, 0 < begin o a <= size o) as Hb.
  { intros a. pose proof (array_bounds o Hf Hl a). pose proof (begin_le_end o Hf a). pose proof (f_ptr _ Hf). lia. }
  assert (forall a b, (rank a < rank b)%nat -> begin o a <= begin o b) as Hord.
  { intros a b Hab. etrans; [apply (begin_le_end o Hf)|]. apply (arrays_ordered o Hf Hl (rank b - rank a - 1)). lia. }
  refine (calculate_sizes_total (begin o <$> [PassiveLengths; PassiveBases; FuncRefs; DefinedTags; DefinedGlobals; DefinedTables;
    ImportedTags; ImportedGlobals; ImportedTables; ImportedFunctions; OwnedMemories; DefinedMemories; ImportedMemories]) (size o) _ _ _).
  - pose proof (Hb ImportedMemories). lia.
  - intros x (a & -> & _)%list_elem_of_fmap. apply Hb.
  - cbn [fmap list_fmap]. repeat (constructor; [|repeat (constructor; [first [apply Hb|apply Hord; cbn; lia]|]); constructor]). constructor.
Qed.

(** ** The structures *)

(** On every target with pointers of four or eight bytes, whatever the alignment of 64-bit integers there, the
    offsets of fields and the sizes that compiled code uses are those that [repr(C)] gives
    the structures of the runtime, none exceeds a byte, and the bounds asserted of the GC heap's fields hold. *)
Theorem offsets_match_structures p u64 : p = 4 \/ p = 8 -> u64 = (8, 4) \/ u64 = (8, 8) ->
  repr_c_offsets 0 (VMFunctionImport p) =
    [vmfunction_import_array_call p; vmfunction_import_wasm_call p; vmfunction_import_type_index p; vmfunction_import_vmctx p] /\
  repr_c (VMFunctionImport p) = (size_of_vmfunction_import p, p) /\
  repr_c_offsets 0 (VMTableImport p) = [vmtable_import_from p; vmtable_import_vmctx p; vmtable_import_index p] /\
  repr_c_offsets 0 (VMMemoryImport p) = [vmmemory_import_from p; vmmemory_import_vmctx p; vmmemory_import_index p] /\
  repr_c_offsets 0 (VMTagImport p) = [vmtag_import_from p; vmtag_import_vmctx p; vmtag_import_index p] /\
  repr_c_field (VMGlobalImport p) 0 = vmglobal_import_from p /\
  repr_c_offsets 0 (VMMemoryDefinition p) = [PtrSize.vmmemory_definition_base p; PtrSize.vmmemory_definition_current_length p] /\
  repr_c_offsets 0 (VMTableDefinition p) = [vmtable_definition_base p; vmtable_definition_current_elements p] /\
  repr_c_offsets 0 (VMFuncRef p) = [PtrSize.vm_func_ref_array_call p; PtrSize.vm_func_ref_wasm_call p;
    PtrSize.vm_func_ref_type_index p; PtrSize.vm_func_ref_vmctx p] /\
  repr_c_offsets 0 (VMStoreContext p u64) = [PtrSize.vmstore_context_fuel_consumed; PtrSize.vmstore_context_epoch_deadline;
    PtrSize.vmstore_context_execution_version; PtrSize.vmstore_context_stack_limit; PtrSize.vmstore_context_gc_heap p;
    PtrSize.vmstore_context_last_wasm_exit_trampoline_fp p; PtrSize.vmstore_context_last_wasm_exit_pc p;
    PtrSize.vmstore_context_last_wasm_entry_sp p; PtrSize.vmstore_context_last_wasm_entry_fp p;
    PtrSize.vmstore_context_last_wasm_entry_trap_handler p; PtrSize.vmstore_context_stack_chain p;
    PtrSize.vmstore_context_store_data p; PtrSize.vmstore_context_async_guard_range p;
    default 0 (PtrSize.vmstore_context_component_context_slot p 0)] /\
  repr_c_field (VMArrayCallHostFuncContext p) 1 = PtrSize.vmarray_call_host_func_context_func_ref p /\
  repr_c_offsets 0 (VMStackLimits p) = [PtrSize.vmstack_limits_stack_limit; PtrSize.vmstack_limits_last_wasm_entry_fp p] /\
  repr_c_offsets 0 (VMHostArray p) = [PtrSize.vmhostarray_length; PtrSize.vmhostarray_capacity; PtrSize.vmhostarray_data] /\
  repr_c (VMHostArray p) = (PtrSize.size_of_vmhostarray p, p) /\
  repr_c_offsets 0 (VMCommonStackInformation p) = [PtrSize.vmcommon_stack_information_limits p; PtrSize.vmcommon_stack_information_state p;
    PtrSize.vmcommon_stack_information_handlers p; PtrSize.vmcommon_stack_information_first_switch_handler_index p] /\
  repr_c (VMCommonStackInformation p) = (PtrSize.size_of_vmcommon_stack_information p, p) /\
  repr_c_offsets 0 (VMContObj p) = [PtrSize.vmcontobj_contref; PtrSize.vmcontobj_revision p] /\
  repr_c (VMContObj p) = (PtrSize.size_of_vmcontobj p p, p) /\
  repr_c_offsets 0 (VMContRef p) = [PtrSize.vmcontref_common_stack_information p; PtrSize.vmcontref_parent_chain p;
    PtrSize.vmcontref_last_ancestor p; PtrSize.vmcontref_revision p; PtrSize.vmcontref_stack p; PtrSize.vmcontref_args p;
    PtrSize.vmcontref_values p] /\
  PtrSize.vmcontref_values p + PtrSize.size_of_vmhostarray p <= u8_MAX /\
  default 0 (PtrSize.vmstore_context_component_context_slot p 1) <= u8_MAX /\
  PtrSize.vmcontext_store_context p = PtrSize.vmctx_store_context p /\
  PtrSize.vmstore_context_gc_heap_base p < PtrSize.vmstore_context_last_wasm_exit_trampoline_fp p /\
  PtrSize.vmstore_context_gc_heap_current_length p < PtrSize.vmstore_context_last_wasm_exit_trampoline_fp p.
Proof. intros [-> | ->] [-> | ->]; vm_compute; split_and!; (reflexivity || discriminate). Qed.

Lemma offsets_match_structures_witness :
  repr_c_offsets 0 (VMFunctionImport 8) = [0; 8; 16; 24] /\ repr_c_field (VMStoreContext 8 (8, 8)) 4 = PtrSize.vmstore_context_gc_heap 8.
Proof.
  destruct (offsets_match_structures 8 (8, 8) (or_intror eq_refl) (or_intror eq_refl)) as (H & _ & _ & _ & _ & _ & _ & _ & _ & Hs & _).
  split; [exact H|]. unfold repr_c_field. by rewrite Hs.
Defined.

(** A 32-bit target on a 64-bit host: the size of a continuation object is computed with the
    host's [usize]. *)
Example contobj_on_another_host : PtrSize.size_of_vmcontobj 4 8 = 12 /\ repr_c (VMContObj 4) = (8, 4).
Proof. done. Qed.
