(* ===== verification/VmContext.v ===== *)
(** * The context of an instance

    The part of runtime/vm/instance.rs that writes and reads a [VMContext], which compiled code
    reads too: [initialize_vmctx], the definitions of memories and tables, the references to
    functions.  The places are those of VmOffsets.v; a place holds a structure, which is the list
    of its fields, and an access of another size or at another place sees nothing.

    Shown: initialization leaves every import, definition and constant at its place, whatever
    was there, and touches nothing outside the context; in particular every memory is
    found through its pointer, owned, shared or imported, also after it grew; a reference to a function has the
    fields of the function. *)

From S2P Require Import Prelude MemoryTypes VmOffsets.

(** ** Memory of the process

    A byte belongs to a scalar: its value, its size and the byte's position in it. *)
Definition memory := Z -> option (Z * Z * Z).

Definition store_scalar (a size v : Z) (m : memory) : memory :=
  fun x => if (a <=? x) && (x <? a + size) then Some (v, size, x - a) else m x.

(** A structure: its fields at their offsets. *)
Fixpoint store_fields (a offset : Z) (types : list (Z * Z)) (vs : list Z) (m : memory) : memory :=
  match types, vs with
  | (size, al) :: types, v :: vs =>
      store_fields a (aligned8 offset al + size) types vs (store_scalar (a + aligned8 offset al) size v m)
  | _, _ => m
  end.
Definition store_struct (a : Z) (types : list (Z * Z)) (vs : list Z) (m : memory) : memory := store_fields a 0 types vs m.

(** Reading: all bytes of one scalar. *)
Definition load_scalar (a size : Z) (m : memory) : option Z :=
  '(v, _, _) ← m a;
  if forallb (fun k => bool_decide (m (a + k) = Some (v, size, k))) (seqZ 0 size) then Some v else None.

Definition load_field (a : Z) (types : list (Z * Z)) (i : nat) (m : memory) : option Z :=
  offset ← repr_c_offsets 0 types !! i; t ← types !! i; load_scalar (a + offset) t.1 m.

(** ** The instance *)

(** A function of the module, if it is defined here: where its structure of references is, and its code. *)
Record FunctionInfo := mkFunction { func_ref : Z; type_index : Z; array_call : Z; wasm_call : Z }.

Inductive RuntimeMemory := Local (base current_length : Z) | Shared (vmmemory_ptr : Z).

Record Imports := mkImports {
  functions : list (list Z);
  tables : list (list Z);
  imported : list (list Z);
  globals : list (list Z);
  tags : list (list Z)
}.

Record Instance := mkInstance {
  env_module : Module_;
  offsets : VMOffsets;
  vmctx : Z;
  imports : Imports;
  i_memories : list RuntimeMemory;
  (** base and current elements of each defined table *)
  i_tables : list (Z * Z);
  (** the engine's index of the type of each defined tag *)
  tag_types : list Z;
  (** base and length of each passive segment *)
  passive_data : list (Z * Z);
  defined_functions : list FunctionInfo;
  type_ids : Z;
  builtins : Z;
  vm_store_context : Z;
  epoch_counter : Z;
  gc_heap_data : option Z
}.

Section instance.
Context (self : Instance).
Abbreviation VM := (M memory Empty_set).
Abbreviation module := (env_module self).
Abbreviation f := (fields (offsets self)).
Abbreviation p := (ptr f).

(** [vmctx_plus_offset_raw(offset).write(..)]; computing the offset may panic. *)
Definition write (types : list (Z * Z)) (offset : option Z) (vs : list Z) : VM unit :=
  offset <- unwrap offset ;;
  modify (store_struct (vmctx self + offset) types vs).

(** [ptr::copy_nonoverlapping] of an array of structures, and the loops that write through a pointer. *)
Fixpoint write_array (types : list (Z * Z)) (offset : Z) (l : list (list Z)) : VM unit :=
  match l with
  | [] => ret tt
  | vs :: l => write types (Some offset) vs ;;; write_array types (offset + (repr_c types).1) l
  end.

Definition set_store : VM unit :=
  write [(p, p)] (Some (PtrSize.vmctx_store_context p)) [vm_store_context self] ;;;
  write [(p, p)] (Some (PtrSize.vmctx_epoch_ptr p)) [epoch_counter self] ;;;
  write [(p, p)] (Some (PtrSize.vmctx_gc_heap_data p)) [default 0 (gc_heap_data self)].

(** The memories: pointers to all, definitions of the owned ones. *)
Fixpoint write_memories (n i : nat) (ptr_ owned_ptr : Z) : VM unit :=
  match n with
  | O => ret tt
  | S n =>
      memory <- unwrap (memories module !! (Z.to_nat (m_num_imported_memories module) + i)%nat) ;;
      rt <- unwrap (i_memories self !! i) ;;
      if Memory.shared memory then
        def_ptr <- unwrap (match rt with Shared q => Some q | Local _ _ => None end) ;;
        write [(p, p)] (Some ptr_) [def_ptr] ;;;
        write_memories n (S i) (ptr_ + p) owned_ptr
      else
        def <- unwrap (match rt with Local base len => Some [base; len] | Shared _ => None end) ;;
        write (VMMemoryDefinition p) (Some owned_ptr) def ;;;
        write [(p, p)] (Some ptr_) [vmctx self + owned_ptr] ;;;
        write_memories n (S i) (ptr_ + p) (owned_ptr + (repr_c (VMMemoryDefinition p)).1)
  end.

(** [global_ptr(index).write(VMGlobalDefinition::new())] for each defined global. *)
Fixpoint write_globals (n : nat) (i : Z) : VM unit :=
  match n with
  | O => ret tt
  | S n => write VMGlobalDefinition (vmctx_vmglobal_definition (offsets self) i) [0] ;;; write_globals n (i + 1)
  end.

Fixpoint write_passive (lengths bases : Z) (l : list (Z * Z)) : VM unit :=
  match l with
  | [] => ret tt
  | (base, len) :: l =>
      len <- unwrap (try_from u32_MAX len) ;;
      write [(4, 4)] (Some lengths) [len] ;;;
      write [(p, p)] (Some bases) [base] ;;;
      write_passive (lengths + 4) (bases + p) l
  end.

Definition initialize_vmctx : VM unit :=
  let o := offsets self in
  write [(4, 4)] (Some PtrSize.vmctx_magic) [VMCONTEXT_MAGIC] ;;;
  set_store ;;;
  write [(p, p)] (Some (PtrSize.vmctx_type_ids_array p)) [type_ids self] ;;;
  write [(p, p)] (Some (PtrSize.vmctx_builtin_functions p)) [builtins self] ;;;
  rust_assert (zlen (functions (imports self)) =? num_imported_funcs module) ;;;
  write_array (VMFunctionImport p) (vmctx_imported_functions_begin o) (functions (imports self)) ;;;
  rust_assert (zlen (tables (imports self)) =? m_num_imported_tables module) ;;;
  write_array (VMTableImport p) (vmctx_imported_tables_begin o) (tables (imports self)) ;;;
  rust_assert (zlen (imported (imports self)) =? m_num_imported_memories module) ;;;
  write_array (VMMemoryImport p) (vmctx_imported_memories_begin o) (imported (imports self)) ;;;
  rust_assert (zlen (globals (imports self)) =? m_num_imported_globals module) ;;;
  write_array (VMGlobalImport p) (vmctx_imported_globals_begin o) (globals (imports self)) ;;;
  rust_assert (zlen (tags (imports self)) =? m_num_imported_tags module) ;;;
  write_array (VMTagImport p) (vmctx_imported_tags_begin o) (tags (imports self)) ;;;
  tables <- unwrap (mapM (fun i => i_tables self !! Z.to_nat i) (seqZ 0 (tables_len module - m_num_imported_tables module))) ;;
  write_array (VMTableDefinition p) (vmctx_tables_begin o) ((fun t => [t.1; t.2]) <$> tables) ;;;
  write_memories (length (memories module) - Z.to_nat (m_num_imported_memories module)) 0
    (vmctx_memories_begin o) (vmctx_owned_memories_begin o) ;;;
  write_globals (Z.to_nat (globals_len module - m_num_imported_globals module)) 0 ;;;
  tags <- unwrap (mapM (fun i => tag_types self !! Z.to_nat i) (seqZ 0 (tags_len module - m_num_imported_tags module))) ;;
  write_array VMTagDefinition (vmctx_tags_begin o) ((fun t => [t]) <$> tags) ;;;
  write_passive (vmctx_passive_data_lengths_begin o) (vmctx_passive_data_bases_begin o) (passive_data self).

(** ** Reading and updating *)

Definition read (types : list (Z * Z)) (offset : option Z) (i : nat) : VM Z :=
  offset <- unwrap offset ;;
  m <- get ;;
  unwrap (load_field (vmctx self + offset) types i m).

Definition memory_ptr (index : Z) : VM Z := read [(p, p)] (vmctx_vmmemory_pointer (offsets self) index) 0.

(** [VMMemoryDefinition::load]. *)
Definition load_definition (a : Z) : VM (Z * Z) :=
  m <- get ;;
  base <- unwrap (load_field a (VMMemoryDefinition p) 0 m) ;;
  current_length <- unwrap (load_field a (VMMemoryDefinition p) 1 m) ;;
  ret (base, current_length).

Definition memory_ (index : Z) : VM (Z * Z) := a <- memory_ptr index ;; load_definition a.

Definition set_memory (index : Z) (mem : Z * Z) : VM unit :=
  a <- memory_ptr index ;; modify (store_struct a (VMMemoryDefinition p) [mem.1; mem.2]).

Definition get_memory (index : Z) : VM (Z * Z) :=
  if index <? m_num_imported_memories module
  then from <- read (VMMemoryImport p) (vmctx_vmmemory_import (offsets self) index) 0 ;; load_definition from
  else memory_ (index - m_num_imported_memories module).

Definition table (index : Z) : VM (Z * Z) :=
  base <- read (VMTableDefinition p) (vmctx_vmtable_definition (offsets self) index) 0 ;;
  elements <- read (VMTableDefinition p) (vmctx_vmtable_definition (offsets self) index) 1 ;;
  ret (base, elements).
Definition set_table (index : Z) (t : Z * Z) : VM unit :=
  write (VMTableDefinition p) (vmctx_vmtable_definition (offsets self) index) [t.1; t.2].

(** [get_func_ref]: the reference to an imported function is its import; that to a defined function is
    written whenever it is asked for.  Looking up the code is left to [defined_functions]. *)
Definition get_func_ref (index : Z) : VM (option Z) :=
  if index =? u32_MAX then ret None
  else if index <? num_imported_funcs module then
    offset <- unwrap (vmctx_vmfunction_import (offsets self) index) ;;
    ret (Some (vmctx self + offset))
  else
    func <- unwrap (zget (defined_functions self) (index - num_imported_funcs module)) ;;
    offset <- unwrap (vmctx_func_ref (offsets self) (func_ref func)) ;;
    write (VMFuncRef p) (Some offset) [array_call func; wasm_call func; type_index func; vmctx self] ;;;
    ret (Some (vmctx self + offset)).

(** [owned_memory_index], with its assertion. *)
Definition owned_memory_index (memory : Z) : option Z :=
  if memory <? zlen (memories module)
  then Some (zlen (filter is_owned (take (Z.to_nat memory) (drop (Z.to_nat (m_num_imported_memories module)) (memories module)))))
  else None.
End instance.

(** ** Storing and loading structures *)

Definition sane (types : list (Z * Z)) : Prop := Forall (fun t => 0 < t.1 /\ 0 < t.2) types.

(** The structure at [a] has the fields [vs]. *)
Definition holds (m : memory) (a : Z) (types : list (Z * Z)) (vs : list Z) : Prop :=
  length vs = length types /\ forall i v, vs !! i = Some v -> load_field a types i m = Some v.

Lemma aligned8_ge offset al : 0 < al -> offset <= aligned8 offset al.
Proof.
  intros Hal. unfold aligned8. pose proof (Z.div_mod (offset + (al - 1)) al ltac:(lia)).
  pose proof (Z.mod_pos_bound (offset + (al - 1)) al Hal). lia.
Qed.

Lemma repr_c_end_ge types : forall offset, sane types -> offset <= repr_c_end offset types.
Proof.
  induction types as [|[size al] types IH]; intros offset Hs; cbn [repr_c_end]; [lia|].
  apply Forall_cons_1 in Hs as [[? ?] Hs]. cbn [fst snd] in *. pose proof (aligned8_ge offset al). specialize (IH (aligned8 offset al + size) Hs). lia.
Qed.

Lemma store_fields_outside types a : forall offset vs m x, sane types ->
  x < a + offset \/ a + repr_c_end offset types <= x -> store_fields a offset types vs m x = m x.
Proof.
  induction types as [|[size al] types IH]; intros offset vs m x Hs Hx; [done|].
  destruct vs as [|v vs]; [done|]. cbn [store_fields repr_c_end] in *. apply Forall_cons_1 in Hs as [[? ?] Hs]. cbn [fst snd] in *.
  pose proof (aligned8_ge offset al). pose proof (repr_c_end_ge types (aligned8 offset al + size) Hs).
  rewrite IH by (done || lia). unfold store_scalar. destruct (Z.leb_spec (a + aligned8 offset al) x), (Z.ltb_spec x (a + aligned8 offset al + size)); try done. lia.
Qed.

Lemma load_scalar_ext a size m m' : 0 < size -> (forall x, a <= x < a + size -> m' x = m x) -> load_scalar a size m' = load_scalar a size m.
Proof.
  intros Hs Hm. unfold load_scalar. rewrite (Hm a) by lia. destruct (m a) as [[[v ?] ?]|]; [|done]. cbn.
  assert (forall l, (forall k, k ∈ l -> 0 <= k < size) ->
    forallb (fun k => bool_decide (m' (a + k) = Some (v, size, k))) l = forallb (fun k => bool_decide (m (a + k) = Some (v, size, k))) l) as E.
  { induction l as [|k l IH]; intros Hl; [done|]. cbn [forallb]. rewrite (Hm (a + k)) by (specialize (Hl k ltac:(by left)); lia).
    f_equal. apply IH. intros j Hj. apply Hl. by right. }
  rewrite E; [done|]. intros k Hk%elem_of_seqZ. lia.
Qed.

Lemma load_stored a size v m : 0 < size -> load_scalar a size (store_scalar a size v m) = Some v.
Proof.
  intros Hs.
  assert (forall k, 0 <= k < size -> store_scalar a size v m (a + k) = Some (v, size, k)) as E.
  { intros k Hk. unfold store_scalar. rewrite (proj2 (Z.leb_le _ _)), (proj2 (Z.ltb_lt _ _)) by lia. cbn. do 2 f_equal. lia. }
  pose proof (E 0 ltac:(lia)) as E0. rewrite Z.add_0_r in E0. unfold load_scalar. rewrite E0. cbn [mbind option_bind].
  assert (forallb (fun k => bool_decide (store_scalar a size v m (a + k) = Some (v, size, k))) (seqZ 0 size) = true) as ->; [|done].
  apply forallb_elem. intros k Hk%elem_of_seqZ. apply bool_decide_eq_true. apply E. lia.
Qed.

Lemma field_inside types : forall offset i o t, sane types -> repr_c_offsets offset types !! i = Some o -> types !! i = Some t ->
  offset <= o /\ o + t.1 <= repr_c_end offset types /\ 0 < t.1.
Proof.
  induction types as [|[size al] types IH]; intros offset i o t Hs Ho Ht; [done|].
  cbn [repr_c_offsets repr_c_end] in *. apply Forall_cons_1 in Hs as [[? ?] Hs]. cbn [fst snd] in *.
  pose proof (aligned8_ge offset al). pose proof (repr_c_end_ge types (aligned8 offset al + size) Hs). destruct i as [|i].
  - injection Ho as <-. injection Ht as <-. cbn. lia.
  - specialize (IH _ i o t Hs Ho Ht). lia.
Qed.

Lemma store_fields_load types a : forall offset vs m i o t v, sane types ->
  repr_c_offsets offset types !! i = Some o -> types !! i = Some t -> vs !! i = Some v ->
  load_scalar (a + o) t.1 (store_fields a offset types vs m) = Some v.
Proof.
  induction types as [|[size al] types IH]; intros offset vs m i o t v Hs Ho Ht Hv; [done|].
  destruct vs as [|w vs]; [done|]. cbn [repr_c_offsets store_fields] in *. apply Forall_cons_1 in Hs as [[? ?] Hs]. cbn [fst snd] in *.
  destruct i as [|i].
  - injection Ho as <-. injection Ht as <-. injection Hv as <-. cbn [fst]. erewrite load_scalar_ext; [by apply load_stored|done|].
    intros x Hx. apply store_fields_outside; [done|]. lia.
  - by apply (IH _ vs _ i).
Qed.

Lemma offsets_length types : forall offset, length (repr_c_offsets offset types) = length types.
Proof. induction types as [|[size al] types IH]; intros offset; [done|]. simpl. by rewrite IH. Qed.

Lemma store_holds a types vs m : sane types -> length vs = length types -> holds (store_struct a types vs m) a types vs.
Proof.
  intros Hs Hl. split; [done|]. intros i v Hv. pose proof (lookup_lt_Some _ _ _ Hv) as Hi.
  destruct (lookup_lt_is_Some_2 (repr_c_offsets 0 types) i) as [o Ho]; [rewrite offsets_length; lia|].
  destruct (lookup_lt_is_Some_2 types i) as [t Ht]; [lia|].
  unfold load_field. rewrite Ho, Ht. cbn [mbind option_bind]. unfold store_struct. by apply (store_fields_load types a 0 vs m i).
Qed.

Lemma end_le_size types : sane types -> repr_c_end 0 types <= (repr_c types).1.
Proof.
  intros Hs. unfold repr_c. cbn [fst]. apply aligned8_ge. clear Hs. unfold repr_c_align. induction types as [|t types IH]; simpl; lia.
Qed.

Lemma store_outside a types vs m x : sane types -> x < a \/ a + (repr_c types).1 <= x -> store_struct a types vs m x = m x.
Proof. intros Hs Hx. pose proof (end_le_size types Hs). unfold store_struct. apply store_fields_outside; [done|lia]. Qed.

Lemma load_field_ext a types i m m' : sane types -> (forall x, a <= x < a + (repr_c types).1 -> m' x = m x) ->
  load_field a types i m' = load_field a types i m.
Proof.
  intros Hs Hm. unfold load_field. destruct (repr_c_offsets 0 types !! i) as [o|] eqn:Ho; [|done].
  destruct (types !! i) as [t|] eqn:Ht; [|done]. cbn [mbind option_bind].
  destruct (field_inside types 0 i o t Hs Ho Ht) as (? & ? & ?). pose proof (end_le_size types Hs).
  apply load_scalar_ext; [done|]. intros x Hx. apply Hm. lia.
Qed.

Lemma holds_ext a types vs m m' : sane types -> (forall x, a <= x < a + (repr_c types).1 -> m' x = m x) ->
  holds m a types vs -> holds m' a types vs.
Proof. intros Hs Hm [Hl Hv]. split; [done|]. intros i v Hi. rewrite (load_field_ext _ _ _ m) by done. by apply Hv. Qed.

(** Structures that do not overlap are kept. *)
Lemma store_struct_keeps a types vs b types' vs' m : sane types -> sane types' ->
  a + (repr_c types).1 <= b \/ b + (repr_c types').1 <= a -> holds m b types' vs' -> holds (store_struct a types vs m) b types' vs'.
Proof. intros Hs Hs' Hab. apply holds_ext; [done|]. intros x Hx. apply store_outside; [done|lia]. Qed.

(** ** Places of a context *)

Inductive Slot := Fixed (k : Z) | Entry (a : Field) (i : Z).

#[export] Instance Slot_eq_dec : EqDecision Slot.
Proof. solve_decision. Defined.

Section slots.
Context (o : VMOffsets).
Abbreviation f := (fields o).
Abbreviation p := (ptr f).

Definition slot_types (s : Slot) : list (Z * Z) :=
  match s with
  | Fixed k => if k =? 0 then [(4, 4)] else [(p, p)]
  | Entry a _ => structure f a
  end.
Definition slot_offset (s : Slot) : Z :=
  match s with Fixed k => k * p | Entry a i => begin o a + i * entry_size f a end.
Definition slot_valid (s : Slot) : Prop :=
  match s with Fixed k => 0 <= k < 6 | Entry a i => 0 <= i < count f a end.
Definition slot_size (s : Slot) : Z := (repr_c (slot_types s)).1.

Context (Hf : fields_ok f) (Hl : laid_out o).

Lemma slot_sane s : sane (slot_types s).
Proof.
  pose proof (f_ptr _ Hf) as [E|E]; destruct s as [k|a i]; [destruct (k =? 0) eqn:Ek|destruct a|destruct (k =? 0) eqn:Ek|destruct a];
    cbn [slot_types structure]; rewrite ?Ek, ?E; repeat constructor.
Qed.

Lemma slot_size_fixed k : 4 <= slot_size (Fixed k) <= p.
Proof. unfold slot_size. pose proof (f_ptr _ Hf) as [E|E]; cbn [slot_types]; rewrite E; by destruct (k =? 0). Qed.

Lemma slot_bounds s : slot_valid s -> 0 <= slot_offset s /\ slot_offset s + slot_size s <= size o.
Proof.
  pose proof (f_ptr _ Hf) as Hp. destruct s as [k|a i]; cbn [slot_valid slot_offset]; intros Hv.
  - pose proof (slot_size_fixed k). pose proof (array_bounds o Hf Hl ImportedMemories). pose proof (begin_le_end o Hf ImportedMemories). nia.
  - pose proof (array_bounds o Hf Hl a). pose proof (entry_size_pos f a Hp). unfold end_ in *. fold (entry_size f a).
    change (slot_size (Entry a i)) with (entry_size f a). nia.
Qed.

Lemma slots_apart s t : slot_valid s -> slot_valid t -> s <> t ->
  slot_offset s + slot_size s <= slot_offset t \/ slot_offset t + slot_size t <= slot_offset s.
Proof.
  pose proof (f_ptr _ Hf) as Hp.
  assert (forall k a i, slot_valid (Fixed k) -> slot_valid (Entry a i) -> slot_offset (Fixed k) + slot_size (Fixed k) <= slot_offset (Entry a i)) as Hfe.
  { intros k a i Hk Hi. cbn [slot_valid slot_offset] in *. pose proof (slot_size_fixed k). pose proof (array_bounds o Hf Hl a).
    pose proof (entry_size_pos f a Hp). nia. }
  intros Hs Ht Hne. destruct s as [k|a i], t as [j|b h].
  - assert (k <> j) by congruence. pose proof (slot_size_fixed k). pose proof (slot_size_fixed j). cbn [slot_offset]. nia.
  - left. by apply Hfe.
  - right. by apply Hfe.
  - change (slot_size (Entry a i)) with (entry_size f a). change (slot_size (Entry b h)) with (entry_size f b). cbn [slot_valid slot_offset] in *.
    apply (entries_apart o Hf Hl a b i h); [lia|lia| | |congruence].
    + rewrite entry_run by (done || lia). by rewrite (proj2 (Z.ltb_lt _ _)) by lia.
    + rewrite entry_run by (done || lia). by rewrite (proj2 (Z.ltb_lt _ _)) by lia.
Qed.

Lemma entry_offset a i : 0 <= i < count f a -> entry o a i = Some (slot_offset (Entry a i)).
Proof. intros Hi. rewrite entry_run by (done || lia). by rewrite (proj2 (Z.ltb_lt _ _)) by lia. Qed.
End slots.

(** ** What the places should hold *)

Section expected.
Context (self : Instance).
Abbreviation o := (offsets self).
Abbreviation module := (env_module self).
Abbreviation f := (fields o).
Abbreviation p := (ptr f).

Definition local_definition (rt : RuntimeMemory) : option (list Z) :=
  match rt with Local base len => Some [base; len] | Shared _ => None end.

(** The definitions of the owned memories among the first [n]. *)
Definition owned_before (n : nat) : list (list Z) := omap local_definition (take n (i_memories self)).

Definition expected_fixed : list Z :=
  [VMCONTEXT_MAGIC; vm_store_context self; builtins self; epoch_counter self; default 0 (gc_heap_data self); type_ids self].

Definition expected (s : Slot) : option (list Z) :=
  match s with
  | Fixed k => (fun v => [v]) <$> zget expected_fixed k
  | Entry ImportedFunctions i => zget (functions (imports self)) i
  | Entry ImportedTables i => zget (tables (imports self)) i
  | Entry ImportedMemories i => zget (imported (imports self)) i
  | Entry ImportedGlobals i => zget (globals (imports self)) i
  | Entry ImportedTags i => zget (tags (imports self)) i
  | Entry DefinedTables i => (fun t => [t.1; t.2]) <$> zget (i_tables self) i
  | Entry DefinedMemories i =>
      (fun rt => [match rt with
                  | Shared q => q
                  | Local _ _ => vmctx self + slot_offset o (Entry OwnedMemories (zlen (owned_before (Z.to_nat i))))
                  end]) <$> zget (i_memories self) i
  | Entry OwnedMemories i => zget (owned_before (length (i_memories self))) i
  | Entry DefinedGlobals _ => Some [0]
  | Entry DefinedTags i => (fun t => [t]) <$> zget (tag_types self) i
  | Entry FuncRefs _ => None
  | Entry PassiveBases i => (fun d => [d.1]) <$> zget (passive_data self) i
  | Entry PassiveLengths i => (fun d => [d.2]) <$> zget (passive_data self) i
  end.

(** What linking and the allocation of memories and tables establish: the numbers of things
    are the module's, a memory is shared if its type is, and imports are whole structures. *)
Record instance_ok : Prop := {
  io_offsets : VmOffsets.new p module = Some o;
  io_ptr : p = 4 \/ p = 8;
  io_functions : zlen (functions (imports self)) = num_imported_funcs module;
  io_tables : zlen (tables (imports self)) = m_num_imported_tables module;
  io_imported : zlen (imported (imports self)) = m_num_imported_memories module;
  io_globals : zlen (globals (imports self)) = m_num_imported_globals module;
  io_tags : zlen (tags (imports self)) = m_num_imported_tags module;
  io_i_tables : zlen (i_tables self) = tables_len module - m_num_imported_tables module;
  io_memories : Forall2 (fun m rt => Memory.shared m = match rt with Shared _ => true | Local _ _ => false end)
                  (drop (Z.to_nat (m_num_imported_memories module)) (memories module)) (i_memories self);
  io_tag_types : zlen (tag_types self) = tags_len module - m_num_imported_tags module;
  io_passive : zlen (passive_data self) = passive_data_len module;
  io_passive_lengths : Forall (fun d => 0 <= d.2 <= u32_MAX) (passive_data self);
  io_structures : forall a i vs, expected (Entry a i) = Some vs -> length vs = length (structure f a);
}.

Lemma new_fields : instance_ok -> fields_ok f /\ laid_out o /\
  count f ImportedFunctions = num_imported_funcs module /\ count f ImportedTables = m_num_imported_tables module /\
  count f ImportedMemories = m_num_imported_memories module /\ count f ImportedGlobals = m_num_imported_globals module /\
  count f ImportedTags = m_num_imported_tags module /\ count f DefinedTables = tables_len module - m_num_imported_tables module /\
  count f DefinedMemories = zlen (memories module) - m_num_imported_memories module /\
  count f OwnedMemories = zlen (filter is_owned (drop (Z.to_nat (m_num_imported_memories module)) (memories module))) /\
  count f DefinedGlobals = globals_len module - m_num_imported_globals module /\
  count f DefinedTags = tags_len module - m_num_imported_tags module /\
  count f FuncRefs = m_num_escaped_funcs module /\ count f PassiveBases = passive_data_len module.
Proof.
  intros Hok. pose proof (io_offsets Hok) as H. pose proof (io_ptr Hok) as Hp. unfold new in H.
  repeat match type of H with
  | context [try_from u32_MAX ?x] => let E := fresh "E" in destruct (try_from u32_MAX x) eqn:E; [|done]; cbn [mbind option_bind] in H; apply try_from_Some in E as [-> ?]
  | context [cast_to_u32 ?x] => let E := fresh "E" in destruct (cast_to_u32 x) eqn:E; [|done]; cbn [mbind option_bind] in H; apply try_from_Some in E as [-> ?]
  | context [checked_sub ?a ?b] => let E := fresh "E" in destruct (checked_sub a b) eqn:E; [|done]; cbn [mbind option_bind] in H; apply checked_sub_Some in E as [-> ?]
  end.
  match type of H with from ?g = _ => assert (fields_ok g) as Hg; [|destruct (from_laid_out g _ Hg H) as [E Hl]; rewrite E in *] end.
  { split; [done|]. intros []; done. }
  split_and!; done.
Qed.
End expected.

(** ** Initialization *)

Section initialize.
Context (self : Instance) (Hok : instance_ok self).
Abbreviation o := (offsets self).
Abbreviation module := (env_module self).
Abbreviation f := (fields o).
Abbreviation p := (ptr f).

Lemma layout_facts : fields_ok f /\ laid_out o.
Proof. by destruct (new_fields self Hok) as (? & ? & _). Qed.

(** The places written so far hold what they should; nothing outside has changed. *)
Definition holds_slot (m : memory) (s : Slot) (vs : list Z) : Prop := holds m (vmctx self + slot_offset o s) (slot_types o s) vs.
Definition fills (W : Slot -> Prop) (m m' : memory) : Prop :=
  (forall s vs, slot_valid o s -> expected self s = Some vs -> W s \/ holds_slot m s vs -> holds_slot m' s vs) /\
  (forall x, x < vmctx self \/ vmctx self + size o <= x -> m' x = m x).

Lemma fills_trans W1 W2 m1 m2 m3 : fills W1 m1 m2 -> fills W2 m2 m3 -> fills (fun s => W1 s \/ W2 s) m1 m3.
Proof.
  intros [H1 O1] [H2 O2]. split; [|intros x Hx; by rewrite O2, O1]. intros s vs Hv He Hs. apply H2; [done..|].
  destruct Hs as [[?|?]|?]; [right; apply H1; auto|by left|right; apply H1; auto].
Qed.

Lemma fills_mono (W W' : Slot -> Prop) m m' : (forall s, slot_valid o s -> W' s -> W s) -> fills W m m' -> fills W' m m'.
Proof. intros Hw [H O]. split; [|done]. intros s vs Hv He Hs. apply H; [done..|]. destruct Hs; auto. Qed.

Lemma fills_refl m : fills (fun _ => False) m m.
Proof. split; [|done]. by intros s vs _ _ [|]. Qed.

Lemma store_slot_outside s vs m x : slot_valid o s -> x < vmctx self \/ vmctx self + size o <= x ->
  store_struct (vmctx self + slot_offset o s) (slot_types o s) vs m x = m x.
Proof.
  destruct layout_facts as [Hf Hl]. intros Hv Hx. apply store_outside; [by apply slot_sane|].
  pose proof (slot_bounds o Hf Hl s Hv) as Hb. unfold slot_size in Hb. lia.
Qed.

Lemma store_slot_keeps s t vs ws m : slot_valid o s -> slot_valid o t -> s <> t -> holds_slot m t ws ->
  holds_slot (store_struct (vmctx self + slot_offset o s) (slot_types o s) vs m) t ws.
Proof.
  destruct layout_facts as [Hf Hl]. intros Hs Ht Hne Hw. pose proof (slots_apart o Hf Hl s t Hs Ht Hne) as Hap. unfold slot_size in Hap.
  apply store_struct_keeps; [by apply slot_sane..|lia|done].
Qed.

Lemma store_fills s vs m : slot_valid o s -> expected self s = Some vs -> length vs = length (slot_types o s) ->
  fills (fun t => t = s) m (store_struct (vmctx self + slot_offset o s) (slot_types o s) vs m).
Proof.
  destruct layout_facts as [Hf Hl]. intros Hv He Hlen. pose proof (slot_sane o Hf s) as Hs. split.
  - intros t ws Ht Et Hw. destruct (decide (t = s)) as [-> |Hne].
    + assert (ws = vs) as -> by congruence. by apply store_holds.
    + destruct Hw as [?|Hw]; [done|]. by apply store_slot_keeps.
  - intros x Hx. by apply store_slot_outside.
Qed.

(** One write, with the rest of the computation. *)
Definition filling {A} (c : M memory Empty_set A) (W : Slot -> Prop) (P : A -> Prop) : Prop :=
  forall m, exists a m', c m = Ret a m' /\ fills W m m' /\ P a.

Lemma filling_ret {A} (a : A) (P : A -> Prop) : P a -> filling (ret a) (fun _ => False) P.
Proof. intros HP m. exists a, m. split_and!; [done|apply fills_refl|done]. Qed.

Lemma filling_bind {A B} (c : M memory Empty_set A) (k : A -> M memory Empty_set B) (W1 W2 : Slot -> Prop) P Q :
  filling c W1 P -> (forall a, P a -> filling (k a) W2 Q) -> filling (bind c k) (fun s => W1 s \/ W2 s) Q.
Proof.
  intros Hc Hk m. destruct (Hc m) as (a & m1 & E1 & F1 & HP). destruct (Hk a HP m1) as (b & m2 & E2 & F2 & HQ).
  exists b, m2. unfold bind. rewrite E1, E2. split_and!; [done|by eapply fills_trans|done].
Qed.

Lemma filling_mono {A} (c : M memory Empty_set A) (W W' : Slot -> Prop) P :
  (forall s, slot_valid o s -> W' s -> W s) -> filling c W P -> filling c W' P.
Proof. intros Hw Hc m. destruct (Hc m) as (a & m' & ? & ? & ?). exists a, m'. split_and!; [done|by eapply fills_mono|done]. Qed.

Lemma filling_pure {A B} (x : option A) a (k : A -> M memory Empty_set B) W P :
  x = Some a -> filling (k a) W P -> filling (bind (unwrap x) k) W P.
Proof. intros -> Hk. exact Hk. Qed.

Lemma filling_assert {B} (b : bool) (k : unit -> M memory Empty_set B) W P :
  b = true -> filling (k tt) W P -> filling (bind (rust_assert b) k) W P.
Proof. intros -> Hk. exact Hk. Qed.

Lemma write_filling s types offset vs : slot_valid o s -> expected self s = Some vs -> slot_types o s = types ->
  offset = slot_offset o s -> length vs = length types ->
  filling (write self types (Some offset) vs) (fun t => t = s) (fun _ => True).
Proof.
  intros Hv He <- -> Hlen m. eexists tt, _. split; [reflexivity|]. split; [|done]. by apply store_fills.
Qed.

(** The arrays that are copied. *)
Lemma write_array_filling a : forall l i, 0 <= i -> i + zlen l = count f a ->
  (forall j vs, l !! j = Some vs -> expected self (Entry a (i + Z.of_nat j)) = Some vs) ->
  filling (write_array self (structure f a) (slot_offset o (Entry a i)) l) (fun s => exists j, s = Entry a j /\ i <= j) (fun _ => True).
Proof.
  induction l as [|vs l IH]; intros i Hi Hlen He.
  - eapply filling_mono; [|by apply filling_ret]. intros s Hs (j & -> & Hj). cbn in Hs, Hlen. unfold zlen in Hlen. simpl in Hlen. lia.
  - rewrite zlen_cons in Hlen. pose proof (zlen_nonneg l). cbn [write_array].
    pose proof (He 0%nat vs eq_refl) as He0. rewrite Z.add_0_r in He0.
    eapply filling_mono; [|eapply filling_bind; [apply (write_filling (Entry a i)); try done|intros _ _; refine (_ : filling _ _ _)]].
    + intros s Hs (j & -> & Hj). cbv beta. destruct (decide (j = i)) as [-> |]; [by left|right]. instantiate (1 := fun s => exists j, s = Entry a j /\ i + 1 <= j). exists j. split; [done|lia].
    + cbn. lia.
    + by eapply (io_structures self Hok).
    + assert (slot_offset o (Entry a i) + (repr_c (structure f a)).1 = slot_offset o (Entry a (i + 1))) as ->.
      { cbn [slot_offset]. unfold entry_size. lia. }
      apply IH; [lia|lia|]. intros j ws Hj. replace (i + 1 + Z.of_nat j) with (i + Z.of_nat (S j)) by lia. by apply He.
Qed.

Lemma copy_filling a l types offset : zlen l = count f a -> types = structure f a -> offset = begin o a ->
  (forall j vs, l !! j = Some vs -> expected self (Entry a (Z.of_nat j)) = Some vs) ->
  filling (write_array self types offset l) (fun s => exists j, s = Entry a j) (fun _ => True).
Proof.
  intros Hlen -> -> He. eapply filling_mono; [|pose proof (write_array_filling a l 0 ltac:(lia) ltac:(lia) He) as H].
  2: { cbn [slot_offset] in H. rewrite Z.mul_0_l, Z.add_0_r in H. exact H. }
  intros s Hs (j & ->). exists j. split; [done|]. cbn in Hs. lia.
Qed.

(** ** The memories *)

Lemma owned_before_S i rt : i_memories self !! i = Some rt ->
  owned_before self (S i) = owned_before self i ++ match local_definition rt with Some d => [d] | None => [] end.
Proof. intros E. unfold owned_before. rewrite (take_S_r _ _ rt) by done. rewrite omap_app. simpl. by destruct (local_definition rt). Qed.

Lemma owned_before_split i rt d : i_memories self !! i = Some rt -> local_definition rt = Some d ->
  zget (owned_before self (length (i_memories self))) (zlen (owned_before self i)) = Some d.
Proof.
  intros E Ed. unfold owned_before. rewrite firstn_all.
  rewrite <- (take_drop_middle (i_memories self) i rt E) at 1. rewrite omap_app. cbn [omap list_omap]. rewrite Ed.
  unfold zlen. rewrite zget_of_nat, lookup_app_r by lia. by rewrite Nat.sub_diag.
Qed.

(** The runtime's memories are those of the module. *)
Lemma memory_kinds i rt : i_memories self !! i = Some rt ->
  exists m, memories module !! (Z.to_nat (m_num_imported_memories module) + i)%nat = Some m /\
    Memory.shared m = match rt with Shared _ => true | Local _ _ => false end.
Proof. intros E. destruct (Forall2_lookup_r _ _ _ _ _ (io_memories self Hok) E) as (m & Em & H). exists m. by rewrite <- lookup_drop. Qed.

Lemma owned_total : zlen (owned_before self (length (i_memories self))) = count f OwnedMemories.
Proof.
  destruct (new_fields self Hok) as (_ & _ & _ & _ & _ & _ & _ & _ & _ & -> & _). unfold owned_before. rewrite firstn_all.
  generalize (io_memories self Hok). induction 1 as [|m rt ms rts Hm _ IH]; [done|]. rewrite filter_cons.
  assert (is_owned m = match rt with Shared _ => false | Local _ _ => true end) as Ho by (unfold is_owned; rewrite Hm; by destruct rt).
  destruct rt; cbn [omap list_omap local_definition].
  - rewrite decide_True by (rewrite Ho; done). rewrite !zlen_cons. unfold omap in *. lia.
  - rewrite decide_False by (rewrite Ho; by intros []). done.
Qed.

Lemma owned_before_mono i : zlen (owned_before self i) <= count f OwnedMemories.
Proof.
  rewrite <- owned_total. unfold owned_before. rewrite firstn_all. rewrite <- (take_drop i (i_memories self)) at 2.
  rewrite omap_app, zlen_app. pose proof (zlen_nonneg (omap local_definition (drop i (i_memories self)))). lia.
Qed.

Lemma memories_count : count f DefinedMemories = zlen (i_memories self).
Proof.
  destruct (new_fields self Hok) as (Hf & _ & _ & _ & H & _ & _ & _ & Hd & _). pose proof (f_count _ Hf ImportedMemories). pose proof (f_count _ Hf DefinedMemories).
  pose proof (Forall2_length _ _ _ (io_memories self Hok)) as E. rewrite length_drop in E. unfold zlen in *. lia.
Qed.

Definition memories_from (i : nat) (s : Slot) : Prop :=
  (exists j, s = Entry DefinedMemories j /\ Z.of_nat i <= j) \/
  (exists j, s = Entry OwnedMemories j /\ zlen (owned_before self i) <= j).

Lemma memories_from_S i rt s : i_memories self !! i = Some rt -> memories_from i s ->
  memories_from (S i) s \/ s = Entry DefinedMemories (Z.of_nat i) \/
  local_definition rt <> None /\ s = Entry OwnedMemories (zlen (owned_before self i)).
Proof.
  intros E [(j & -> & Hj)|(j & -> & Hj)].
  - destruct (decide (j = Z.of_nat i)) as [-> |]; [by right; left|]. left; left. exists j. split; [done|lia].
  - pose proof (owned_before_S i rt E) as Es. destruct (decide (j = zlen (owned_before self i))) as [-> |].
    + destruct (local_definition rt); [by right; right|]. left; right. exists (zlen (owned_before self i)). rewrite Es, app_nil_r. done.
    + left; right. exists j. split; [done|]. rewrite Es, zlen_app. destruct (local_definition rt); [|change (zlen []) with 0; lia].
      change (zlen [l]) with 1. lia.
Qed.

Lemma next_slot a i : slot_offset o (Entry a i) + entry_size f a = slot_offset o (Entry a (i + 1)).
Proof. cbn [slot_offset]. lia. Qed.

Lemma write_memories_filling : forall n i, (i + n = length (i_memories self))%nat ->
  filling (write_memories self n i (slot_offset o (Entry DefinedMemories (Z.of_nat i))) (slot_offset o (Entry OwnedMemories (zlen (owned_before self i)))))
    (memories_from i) (fun _ => True).
Proof.
  pose proof memories_count as Hc. pose proof (f_ptr _ (proj1 layout_facts)) as Hp.
  pose proof (next_slot DefinedMemories) as Hnd. rewrite entry_sizes in Hnd by done. unfold PtrSize.size_of_vmmemory_pointer in Hnd.
  induction n as [|n IH]; intros i Hi.
  { eapply filling_mono; [|by apply filling_ret]. intros s Hs [(j & -> & Hj)|(j & -> & Hj)]; cbn [slot_valid] in Hs.
    - unfold zlen in Hc. lia.
    - replace i with (length (i_memories self)) in Hj by lia. rewrite owned_total in Hj. lia. }
  destruct (lookup_lt_is_Some_2 (i_memories self) i) as [rt E]; [lia|]. destruct (memory_kinds i rt E) as (m & Em & Hm).
  pose proof (owned_before_S i rt E) as Es. pose proof (IH (S i) ltac:(lia)) as IH'. replace (Z.of_nat (S i)) with (Z.of_nat i + 1) in IH' by lia.
  assert (slot_valid o (Entry DefinedMemories (Z.of_nat i))) as Hv by (cbn [slot_valid]; unfold zlen in Hc; lia).
  assert (expected self (Entry DefinedMemories (Z.of_nat i)) = Some
    [match rt with Shared q => q | Local _ _ => vmctx self + slot_offset o (Entry OwnedMemories (zlen (owned_before self i))) end]) as He.
  { cbn [expected]. rewrite zget_of_nat, E. cbn. by rewrite Nat2Z.id. }
  assert (slot_types o (Entry DefinedMemories (Z.of_nat i)) = [(p, p)]) as Ht by done.
  cbn [write_memories]. apply (filling_pure _ m); [done|]. apply (filling_pure _ rt); [done|]. rewrite Hm.
  destruct rt as [base len|q]; cbn [local_definition] in Es.
  - apply (filling_pure _ [base; len]); [done|]. rewrite Es, zlen_app in IH'. change (zlen [[base; len]]) with 1 in IH'.
    rewrite <- Hnd, <- next_slot in IH'.
    eapply filling_mono; [|eapply filling_bind; [apply (write_filling (Entry OwnedMemories (zlen (owned_before self i))))
      |intros _ _; eapply filling_bind; [apply (write_filling (Entry DefinedMemories (Z.of_nat i)))|intros _ _; exact IH']]]; try done.
    + intros s Hs Hfrom. destruct (memories_from_S i _ s E Hfrom) as [?|[?|[_ ?]]]; auto.
    + cbn [slot_valid]. pose proof (zlen_nonneg (owned_before self i)). pose proof (owned_before_mono (S i)) as Hb. rewrite Es, zlen_app in Hb.
      change (zlen [[base; len]]) with 1 in Hb. lia.
    + cbn [expected]. by apply (owned_before_split i (Local base len)).
  - apply (filling_pure _ q); [done|]. rewrite Es, app_nil_r, <- Hnd in IH'.
    eapply filling_mono; [|eapply filling_bind; [apply (write_filling (Entry DefinedMemories (Z.of_nat i)))|intros _ _; exact IH']]; try done.
    intros s Hs Hfrom. destruct (memories_from_S i _ s E Hfrom) as [?|[?|[? _]]]; auto. done.
Qed.

(** ** Globals, passive data *)

Lemma write_globals_filling : forall n i, 0 <= i -> i + Z.of_nat n = count f DefinedGlobals ->
  filling (write_globals self n i) (fun s => exists j, s = Entry DefinedGlobals j /\ i <= j) (fun _ => True).
Proof.
  destruct layout_facts as [Hf Hl]. induction n as [|n IH]; intros i Hi Hn.
  - eapply filling_mono; [|by apply filling_ret]. intros s Hs (j & -> & Hj). cbn [slot_valid] in Hs. lia.
  - cbn [write_globals]. pose proof (entry_offset o Hf Hl DefinedGlobals i ltac:(lia)) as E. cbn [entry] in E. rewrite E.
    eapply filling_mono; [|eapply filling_bind; [apply (write_filling (Entry DefinedGlobals i)); try done; cbn [slot_valid]; lia|intros _ _; apply (IH (i + 1)); lia]].
    intros s Hs (j & -> & Hj). destruct (decide (j = i)) as [-> |]; [by left|right]. exists j. split; [done|lia].
Qed.

Lemma write_passive_filling : forall l i, 0 <= i -> i + zlen l = count f PassiveBases ->
  (forall j d, l !! j = Some d -> zget (passive_data self) (i + Z.of_nat j) = Some d) -> Forall (fun d => 0 <= d.2 <= u32_MAX) l ->
  filling (write_passive self (slot_offset o (Entry PassiveLengths i)) (slot_offset o (Entry PassiveBases i)) l)
    (fun s => exists j, (s = Entry PassiveLengths j \/ s = Entry PassiveBases j) /\ i <= j) (fun _ => True).
Proof.
  pose proof (f_ptr _ (proj1 layout_facts)) as Hp.
  pose proof (next_slot PassiveBases) as Hnb. pose proof (next_slot PassiveLengths) as Hnl. rewrite entry_sizes in Hnb, Hnl by done.
  induction l as [|[base len] l IH]; intros i Hi Hlen Hget Hall.
  - eapply filling_mono; [|by apply filling_ret]. intros s Hs (j & [-> | ->] & Hj); cbn [slot_valid count] in *; unfold zlen in Hlen; simpl in Hlen; lia.
  - rewrite zlen_cons in Hlen. pose proof (zlen_nonneg l). apply Forall_cons_1 in Hall as [Hd Hall]. cbn [snd] in Hd.
    pose proof (Hget 0%nat _ eq_refl) as H0. rewrite Z.add_0_r in H0.
    cbn [write_passive]. apply (filling_pure _ len); [by apply try_from_in|]. rewrite Hnb, Hnl.
    eapply filling_mono; [|eapply filling_bind; [apply (write_filling (Entry PassiveLengths i))|intros _ _;
      eapply filling_bind; [apply (write_filling (Entry PassiveBases i))|intros _ _; apply (IH (i + 1))]]]; try done; try lia;
      try (cbn [slot_valid count] in *; lia); try (cbn [expected]; by rewrite H0).
    + intros s Hs (j & Hs' & Hj). destruct (decide (j = i)) as [-> |]; [destruct Hs'; auto|]. right; right. exists j. split; [done|lia].
    + intros j d Hj. replace (i + 1 + Z.of_nat j) with (i + Z.of_nat (S j)) by lia. by apply Hget.
Qed.

Lemma write_fixed_filling k types offset v : types = slot_types o (Fixed k) -> offset = k * p -> zget (expected_fixed self) k = Some v ->
  filling (write self types (Some offset) [v]) (fun s => s = Fixed k) (fun _ => True).
Proof.
  intros -> -> E. apply write_filling; try done.
  - apply zget_lt in E. change (zlen (expected_fixed self)) with 6 in E. done.
  - cbn [expected]. by rewrite E.
  - cbn [slot_types]. by destruct (k =? 0).
Qed.

Lemma mapM_lookups {A} (l : list A) n : zlen l = n -> mapM (fun i => l !! Z.to_nat i) (seqZ 0 n) = Some l.
Proof.
  intros <-. apply mapM_Some. apply Forall2_same_length_lookup. split.
  - rewrite length_seqZ. unfold zlen. lia.
  - intros i x y [-> Hx]%lookup_seqZ Hy. rewrite Z.add_0_l, Nat2Z.id. done.
Qed.

(** Every place is written but those of references to functions. *)
Definition initialized (s : Slot) : Prop := match s with Entry FuncRefs _ => False | _ => True end.

Ltac fixed_offset :=
  unfold PtrSize.vmctx_type_ids_array, PtrSize.vmctx_gc_heap_data, PtrSize.vmctx_epoch_ptr, PtrSize.vmctx_builtin_functions,
    PtrSize.vmctx_store_context, PtrSize.vmctx_magic; lia.

Lemma set_store_filling : filling (set_store self) (fun s => s = Fixed 1 \/ s = Fixed 3 \/ s = Fixed 4) (fun _ => True).
Proof.
  unfold set_store. eapply filling_bind; [by apply (write_fixed_filling 1); [|fixed_offset|]|intros _ _].
  eapply filling_bind; [by apply (write_fixed_filling 3); [|fixed_offset|]|intros _ _].
  by apply (write_fixed_filling 4); [|fixed_offset|].
Qed.

Lemma initialize_filling : filling (initialize_vmctx self) initialized (fun _ => True).
Proof.
  destruct (new_fields self Hok) as (Hf & Hl & Hif & Hit & Him & Hig & Hitag & Hdt & Hdm & _ & Hdg & Hdtag & _ & Hpd).
  pose proof Hok as [_ _ H1 H2 H3 H4 H5 H6 _ H7 H8 H9 _]. pose proof memories_count as Hmc.
  assert (forall a, slot_offset o (Entry a 0) = begin o a) as Hz by (intros; cbn [slot_offset]; lia).
  eapply filling_mono; [|unfold initialize_vmctx].
  2: { eapply filling_bind; [by apply (write_fixed_filling 0)|intros _ _]. eapply filling_bind; [apply set_store_filling|intros _ _].
    eapply filling_bind; [by apply (write_fixed_filling 5); [|fixed_offset|]|intros _ _].
    eapply filling_bind; [by apply (write_fixed_filling 2); [|fixed_offset|]|intros _ _].
    apply filling_assert; [by apply Z.eqb_eq|]. eapply filling_bind; [apply (copy_filling ImportedFunctions); [congruence|done|done|intros j vs Hj; cbn [expected]; by rewrite zget_of_nat]|intros _ _].
    apply filling_assert; [by apply Z.eqb_eq|]. eapply filling_bind; [apply (copy_filling ImportedTables); [congruence|done|done|intros j vs Hj; cbn [expected]; by rewrite zget_of_nat]|intros _ _].
    apply filling_assert; [by apply Z.eqb_eq|]. eapply filling_bind; [apply (copy_filling ImportedMemories); [congruence|done|done|intros j vs Hj; cbn [expected]; by rewrite zget_of_nat]|intros _ _].
    apply filling_assert; [by apply Z.eqb_eq|]. eapply filling_bind; [apply (copy_filling ImportedGlobals); [congruence|done|done|intros j vs Hj; cbn [expected]; by rewrite zget_of_nat]|intros _ _].
    apply filling_assert; [by apply Z.eqb_eq|]. eapply filling_bind; [apply (copy_filling ImportedTags); [congruence|done|done|intros j vs Hj; cbn [expected]; by rewrite zget_of_nat]|intros _ _].
    apply (filling_pure _ (i_tables self)); [by apply mapM_lookups|].
    eapply filling_bind; [apply (copy_filling DefinedTables); [unfold zlen in *; rewrite length_fmap; lia|done|done|
      intros j vs (t & -> & Ht)%list_lookup_fmap_Some; cbn [expected]; by rewrite zget_of_nat, Ht]|intros _ _].
    eapply filling_bind; [|intros _ _].
    { pose proof (write_memories_filling (length (memories (env_module self)) - Z.to_nat (m_num_imported_memories (env_module self))) 0) as Hm.
      rewrite Nat.add_0_l in Hm. change (zlen (owned_before self 0)) with 0 in Hm. cbn [Z.of_nat] in Hm. rewrite !Hz in Hm. apply Hm.
      pose proof (Forall2_length _ _ _ (io_memories self Hok)) as E. by rewrite length_drop in E. }
    eapply filling_bind; [apply write_globals_filling; [lia|]; pose proof (f_count _ Hf DefinedGlobals); lia|intros _ _].
    apply (filling_pure _ (tag_types self)); [by apply mapM_lookups|].
    eapply filling_bind; [apply (copy_filling DefinedTags); [unfold zlen in *; rewrite length_fmap; lia|done|done|
      intros j vs (t & -> & Ht)%list_lookup_fmap_Some; cbn [expected]; by rewrite zget_of_nat, Ht]|intros _ _].
    pose proof (write_passive_filling (passive_data self) 0) as Hp. rewrite !Hz in Hp. apply Hp; [lia|lia| |done].
    intros j d Hj. rewrite Z.add_0_l. by rewrite zget_of_nat. }
  intros s Hs Hi. destruct s as [k|a i]; cbn [slot_valid] in Hs.
  - assert (k = 0 \/ k = 1 \/ k = 2 \/ k = 3 \/ k = 4 \/ k = 5) as Hk by lia. naive_solver.
  - unfold memories_from. change (zlen (owned_before self 0)) with 0.
    assert (exists j, Entry a i = Entry a j /\ 0 <= j) as Hj by (exists i; split; [done|lia]).
    assert (exists j, Entry a i = Entry a j) as Hj' by (by exists i).
    destruct a; try done; naive_solver.
Qed.

Lemma zget_total {A} (l : list A) i n : zlen l = n -> 0 <= i < n -> exists x, zget l i = Some x.
Proof. intros <- Hi. by apply zget_is_Some. Qed.

Lemma expected_total s : slot_valid o s -> initialized s -> exists vs, expected self s = Some vs.
Proof.
  destruct (new_fields self Hok) as (Hf & Hl & Hif & Hit & Him & Hig & Hitag & Hdt & Hdm & _ & Hdg & Hdtag & _ & Hpd).
  pose proof Hok as [_ _ H1 H2 H3 H4 H5 H6 _ H7 H8 _ _]. pose proof memories_count as Hmc. pose proof owned_total as Hot.
  assert (forall B (l : list B) i n (g : B -> list Z), zlen l = n -> 0 <= i < n -> exists vs, g <$> zget l i = Some vs) as Hmap.
  { intros B l i n g Hn Hi. destruct (zget_total l i n Hn Hi) as [x ->]. by exists (g x). }
  intros Hv Hi. destruct s as [k|a i]; cbn [slot_valid expected] in *; [by apply (Hmap _ _ _ 6)|].
  destruct a; try done; try (eapply zget_total; [|exact Hv]; congruence); try (eapply Hmap; [|exact Hv]; congruence).
  - by exists [0].
  - apply (Hmap _ _ _ (count f PassiveBases)); [congruence|exact Hv].
Qed.

(** ** The context afterwards *)

(** The places that are not written again once the context is initialized. *)
Definition constant (s : Slot) : Prop :=
  match s with
  | Fixed _ | Entry (ImportedMemories | ImportedFunctions | ImportedTables | ImportedGlobals | ImportedTags | DefinedMemories | DefinedTags) _ => True
  | _ => False
  end.

Definition context_ok (m : memory) : Prop :=
  forall s vs, slot_valid o s -> constant s -> expected self s = Some vs -> holds_slot m s vs.

Lemma store_context_ok m s vs : context_ok m -> slot_valid o s -> ~ constant s ->
  context_ok (store_struct (vmctx self + slot_offset o s) (slot_types o s) vs m).
Proof.
  intros Hm Hv Hc t ws Ht Hct Et. apply store_slot_keeps; [done|done|by intros ->|by apply Hm].
Qed.

(** Where the definition of a memory is. *)
Definition home (i : Z) : option Z :=
  if i <? m_num_imported_memories module then vs ← zget (imported (imports self)) i; vs !! 0%nat
  else
    rt ← zget (i_memories self) (i - m_num_imported_memories module);
    Some (match rt with
          | Shared q => q
          | Local _ _ => vmctx self + slot_offset o (Entry OwnedMemories (zlen (owned_before self (Z.to_nat (i - m_num_imported_memories module)))))
          end).

Lemma read_run types offset i m v : load_field (vmctx self + offset) types i m = Some v ->
  read self types (Some offset) i m = Ret v m.
Proof. intros E. unfold read, bind. cbn. by rewrite E. Qed.

Lemma memory_ptr_run i m rt : context_ok m -> 0 <= i -> zget (i_memories self) i = Some rt ->
  memory_ptr self i m = Ret (default 0 (home (m_num_imported_memories module + i))) m.
Proof.
  destruct layout_facts as [Hf Hl]. intros Hm Hi E. pose proof (zget_lt _ _ _ E) as Hlt. pose proof memories_count as Hmc.
  assert (slot_valid o (Entry DefinedMemories i)) as Hv by (cbn [slot_valid]; lia).
  pose proof (entry_offset o Hf Hl DefinedMemories i ltac:(lia)) as Eo. cbn [entry] in Eo.
  unfold memory_ptr. rewrite Eo. apply read_run. unfold home.
  rewrite (proj2 (Z.ltb_ge _ _)) by lia. replace (m_num_imported_memories module + i - m_num_imported_memories module) with i by lia.
  rewrite E. cbn [mbind option_bind default]. pose proof (Hm (Entry DefinedMemories i)) as Hs. cbn [expected] in Hs. rewrite E in Hs.
  destruct (Hs _ Hv I eq_refl) as [_ Hload]. by apply Hload.
Qed.

(** A memory is read at its home. *)
Lemma get_memory_run i m a : context_ok m -> 0 <= i -> home i = Some a -> get_memory self i m = load_definition self a m.
Proof.
  destruct layout_facts as [Hf Hl]. intros Hm Hi Ea. unfold get_memory. pose proof Ea as Eh. unfold home in Eh.
  destruct (i <? m_num_imported_memories module) eqn:El.
  - destruct (zget (imported (imports self)) i) as [vs|] eqn:E; [|done]. cbn [mbind option_bind] in Eh.
    destruct (new_fields self Hok) as (_ & _ & _ & _ & Him & _). pose proof (zget_lt _ _ _ E) as Hlt. pose proof (io_imported self Hok).
    assert (slot_valid o (Entry ImportedMemories i)) as Hv by (cbn [slot_valid]; lia).
    pose proof (entry_offset o Hf Hl ImportedMemories i ltac:(lia)) as Eo. cbn [entry] in Eo. rewrite Eo.
    destruct (Hm (Entry ImportedMemories i) vs Hv I E) as [_ Hload]. apply bind_run, read_run. by apply Hload.
  - destruct (zget (i_memories self) _) as [rt|] eqn:E; [|done]. unfold memory_.
    apply bind_run. rewrite (memory_ptr_run _ m rt Hm) by (done || lia).
    replace (m_num_imported_memories module + (i - m_num_imported_memories module)) with i by lia. by rewrite Ea.
Qed.

Lemma load_definition_run a m base len : holds m a (VMMemoryDefinition p) [base; len] -> load_definition self a m = Ret (base, len) m.
Proof.
  intros [_ H]. unfold load_definition, bind, get. rewrite (H 0%nat base eq_refl). cbn [unwrap ret]. by rewrite (H 1%nat len eq_refl).
Qed.

Lemma load_definition_ext a m m' : (forall x, a <= x < a + 2 * p -> m' x = m x) ->
  match load_definition self a m with
  | Ret d _ => load_definition self a m' = Ret d m'
  | Fail e _ => match e with end
  | Panic => load_definition self a m' = Panic
  end.
Proof.
  intros Hm. assert (sane (VMMemoryDefinition p)) as Hs.
  { apply (slot_sane o (proj1 layout_facts) (Entry OwnedMemories 0)). }
  assert (forall i, load_field a (VMMemoryDefinition p) i m' = load_field a (VMMemoryDefinition p) i m) as E.
  { intros i. apply load_field_ext; [done|]. intros x Hx. apply Hm.
    pose proof (entry_sizes f OwnedMemories (f_ptr _ (proj1 layout_facts))) as E. unfold entry_size in E. cbn [structure] in E. rewrite E in Hx. exact Hx. }
  unfold load_definition, bind, get. rewrite !E. destruct (load_field a _ 0 m); cbn [unwrap ret panic]; [|done]. by destruct (load_field a _ 1 m).
Qed.
End initialize.

(** C9. Initializing the context of an instance whose imports, memories and tables are those its module asks for never
    panics; every place but the references to functions then holds what it should, in particular every pointer to an owned
    memory points at its definition; and nothing outside the context has changed. *)
Theorem initialize_vmctx_correct self m : instance_ok self ->
  exists m', initialize_vmctx self m = Ret tt m' /\
    (forall s, slot_valid (offsets self) s -> initialized s ->
       exists vs, expected self s = Some vs /\ holds m' (vmctx self + slot_offset (offsets self) s) (slot_types (offsets self) s) vs) /\
    (forall x, x < vmctx self \/ vmctx self + size_of_vmctx (offsets self) <= x -> m' x = m x).
Proof.
  intros Hok. destruct (initialize_filling self Hok m) as ([] & m' & E & [H O] & _). exists m'. split; [done|]. split; [|exact O].
  intros s Hv Hi. destruct (expected_total self Hok s Hv Hi) as [vs Evs]. exists vs. split; [done|]. apply H; auto.
Qed.

Section afterwards.
Context (self : Instance) (Hok : instance_ok self).
Abbreviation o := (offsets self).
Abbreviation module := (env_module self).
Abbreviation f := (fields o).
Abbreviation p := (ptr f).

Lemma initialize_context_ok m m' : initialize_vmctx self m = Ret tt m' -> context_ok self m' /\
  forall i base len, zget (i_memories self) i = Some (Local base len) ->
    holds_slot self m' (Entry OwnedMemories (zlen (owned_before self (Z.to_nat i)))) [base; len].
Proof.
  intros E. destruct (initialize_filling self Hok m) as ([] & m1 & E1 & [H _] & _). assert (m1 = m') as -> by congruence. split.
  - intros s vs Hv Hc He. apply H; [done..|]. left. destruct s as [|[]]; done.
  - intros i base len Ei. pose proof (zget_lt _ _ _ Ei) as Hi. apply zget_Some in Ei as [_ Ei].
    apply H; [|by apply (owned_before_split self _ (Local base len))|by left].
    cbn [slot_valid]. pose proof (owned_before_mono self Hok (S (Z.to_nat i))) as Hb. rewrite (owned_before_S self _ _ Ei), zlen_app in Hb.
    change (zlen (match local_definition (Local base len) with Some d => [d] | None => [] end)) with 1 in Hb.
    pose proof (zlen_nonneg (owned_before self (Z.to_nat i))). lia.
Qed.

Lemma owned_slot_valid i base len : zget (i_memories self) i = Some (Local base len) ->
  slot_valid o (Entry OwnedMemories (zlen (owned_before self (Z.to_nat i)))).
Proof.
  intros [_ Ei]%zget_Some. cbn [slot_valid]. pose proof (owned_before_mono self Hok (S (Z.to_nat i))) as Hb.
  rewrite (owned_before_S self _ _ Ei), zlen_app in Hb.
  change (zlen (match local_definition (Local base len) with Some d => [d] | None => [] end)) with 1 in Hb.
  pose proof (zlen_nonneg (owned_before self (Z.to_nat i))). lia.
Qed.

(** Two owned memories have two definitions. *)
Lemma owned_before_lt i j base len : zget (i_memories self) i = Some (Local base len) -> i < j ->
  zlen (owned_before self (Z.to_nat i)) < zlen (owned_before self (Z.to_nat j)).
Proof.
  intros [Hi Ei]%zget_Some Hij. pose proof (owned_before_S self _ _ Ei) as Hs.
  assert (zlen (owned_before self (S (Z.to_nat i))) <= zlen (owned_before self (Z.to_nat j))) as Hle.
  { unfold owned_before. replace (Z.to_nat j) with (S (Z.to_nat i) + (Z.to_nat j - S (Z.to_nat i)))%nat by lia.
    rewrite <- take_take_drop, omap_app, zlen_app.
    match goal with |- _ <= _ + zlen ?l => pose proof (zlen_nonneg l) end. lia. }
  rewrite Hs, zlen_app in Hle. change (zlen (match local_definition (Local base len) with Some d => [d] | None => [] end)) with 1 in Hle. lia.
Qed.

Lemma owned_before_inj i j base len base' len' : zget (i_memories self) i = Some (Local base len) ->
  zget (i_memories self) j = Some (Local base' len') -> i <> j ->
  Entry OwnedMemories (zlen (owned_before self (Z.to_nat i))) <> Entry OwnedMemories (zlen (owned_before self (Z.to_nat j))).
Proof.
  intros Ei Ej Hne [= E]. destruct (Z.lt_total i j) as [H|[H|H]]; [|done|].
  - pose proof (owned_before_lt i j _ _ Ei H). lia.
  - pose proof (owned_before_lt j i _ _ Ej H). lia.
Qed.

Lemma home_local i base len : zget (i_memories self) i = Some (Local base len) ->
  home self (m_num_imported_memories module + i) = Some (vmctx self + slot_offset o (Entry OwnedMemories (zlen (owned_before self (Z.to_nat i))))).
Proof.
  intros E. pose proof (zget_lt _ _ _ E). unfold home. rewrite (proj2 (Z.ltb_ge _ _)) by lia.
  replace (m_num_imported_memories module + i - m_num_imported_memories module) with i by lia. by rewrite E.
Qed.

Lemma imported_nonneg : 0 <= m_num_imported_memories module.
Proof. rewrite <- (io_imported self Hok). apply zlen_nonneg. Qed.
End afterwards.

(** C30. After initialization every memory of the instance is found at its definition, through its pointer or its import.
    At any later time, updating the definition of an owned memory, as a growth does, gives that memory its new definition and
    changes no other memory's, owned, shared or imported, no constant part of the context and nothing outside it. *)
Theorem memory_definitions_correct self m0 m : instance_ok self -> initialize_vmctx self m0 = Ret tt m ->
  context_ok self m /\
  (forall i base len, zget (i_memories self) i = Some (Local base len) ->
     get_memory self (m_num_imported_memories (env_module self) + i) m = Ret (base, len) m) /\
  forall m1 i base len d, context_ok self m1 -> zget (i_memories self) i = Some (Local base len) ->
    exists m2, set_memory self i d m1 = Ret tt m2 /\ context_ok self m2 /\
      get_memory self (m_num_imported_memories (env_module self) + i) m2 = Ret d m2 /\
      (forall j a d', 0 <= j -> j <> m_num_imported_memories (env_module self) + i -> home self j = Some a ->
         (exists base' len', zget (i_memories self) (j - m_num_imported_memories (env_module self)) = Some (Local base' len')) \/
         a + 2 * ptr (fields (offsets self)) <= vmctx self \/ vmctx self + size_of_vmctx (offsets self) <= a ->
         get_memory self j m1 = Ret d' m1 -> get_memory self j m2 = Ret d' m2) /\
      (forall x, x < vmctx self \/ vmctx self + size_of_vmctx (offsets self) <= x -> m2 x = m1 x).
Proof.
  intros Hok E. destruct (initialize_context_ok self Hok _ _ E) as [Hc Ho]. destruct (layout_facts self Hok) as [Hf Hl].
  pose proof (imported_nonneg self Hok) as Him. split; [done|]. split.
  { intros i base len Ei. pose proof (zget_lt _ _ _ Ei). rewrite (get_memory_run self Hok (m_num_imported_memories (env_module self) + i) _ _ Hc ltac:(lia) (home_local self i _ _ Ei)).
    apply load_definition_run. by apply Ho. }
  intros m1 i base len [b l] Hm1 Ei. pose proof (zget_lt _ _ _ Ei) as Hi.
  set (s := Entry OwnedMemories (zlen (owned_before self (Z.to_nat i)))).
  pose proof (owned_slot_valid self Hok i _ _ Ei) as Hv. fold s in Hv. pose proof (slot_sane (offsets self) Hf s) as Hs.
  exists (store_struct (vmctx self + slot_offset (offsets self) s) (slot_types (offsets self) s) [b; l] m1).
  assert (context_ok self (store_struct (vmctx self + slot_offset (offsets self) s) (slot_types (offsets self) s) [b; l] m1)) as Hm2.
  { apply store_context_ok; [done|done|done|by intros []]. }
  pose proof (slot_bounds (offsets self) Hf Hl s Hv) as Hb. unfold slot_size in Hb.
  pose proof (home_local self i _ _ Ei) as Hh. fold s in Hh. split; [|split; [exact Hm2|split; [|split]]].
  - unfold set_memory. rewrite (bind_run _ _ _ _ _ (memory_ptr_run self Hok i m1 _ Hm1 (proj1 Hi) Ei)), Hh. done.
  - rewrite (get_memory_run self Hok (m_num_imported_memories (env_module self) + i) _ _ Hm2 ltac:(lia) Hh). apply load_definition_run. by apply store_holds.
  - intros j a d' Hj Hne Ha Hplace. rewrite (get_memory_run self Hok _ _ _ Hm1 Hj Ha), (get_memory_run self Hok _ _ _ Hm2 Hj Ha).
    intros El. pose proof (load_definition_ext self Hok a m1 (store_struct (vmctx self + slot_offset (offsets self) s) (slot_types (offsets self) s) [b; l] m1)) as Hx.
    rewrite El in Hx. apply Hx. intros x Hxx. apply store_outside; [done|].
    destruct Hplace as [(base' & len' & Ej)|Hout]; [|unfold size_of_vmctx in Hout; lia].
    pose proof (home_local self _ _ _ Ej) as Hhj. rewrite Z.add_comm, Z.sub_add in Hhj. assert (a = vmctx self + slot_offset (offsets self) (Entry OwnedMemories (zlen (owned_before self (Z.to_nat (j - m_num_imported_memories (env_module self))))))) as -> by congruence.
    assert (i <> j - m_num_imported_memories (env_module self)) as Hij by lia.
    pose proof (slots_apart (offsets self) Hf Hl s _ Hv (owned_slot_valid self Hok _ _ _ Ej) (owned_before_inj self i _ _ _ _ _ Ei Ej Hij)) as Hap.
    assert (forall k, slot_size (offsets self) (Entry OwnedMemories k) = 2 * ptr (fields (offsets self))) as Hsz
      by (intros k; apply (entry_sizes _ OwnedMemories (f_ptr _ Hf))).
    rewrite Hsz in Hap. unfold slot_size in Hap. lia.
  - intros x Hx. by apply store_slot_outside.
Qed.

(** ** References to functions *)

(** A reference to a function of the module is a pointer to a structure with the fields of the function: those of the import, where
    nothing is written, or the code, the type and this context; writing it changes no other place of the context and
    nothing outside. *)
Theorem get_func_ref_correct self m index : instance_ok self -> context_ok self m -> 0 <= index < u32_MAX ->
  (forall func, zget (defined_functions self) (index - num_imported_funcs (env_module self)) = Some func ->
     0 <= func_ref func < m_num_escaped_funcs (env_module self) /\ func_ref func <> u32_MAX) ->
  index < num_imported_funcs (env_module self) + zlen (defined_functions self) ->
  exists a m' vs, get_func_ref self index m = Ret (Some a) m' /\ holds m' a (VMFuncRef (ptr (fields (offsets self)))) vs /\
    (if index <? num_imported_funcs (env_module self) then zget (functions (imports self)) index = Some vs /\ m' = m
     else exists func, zget (defined_functions self) (index - num_imported_funcs (env_module self)) = Some func /\
       vs = [array_call func; wasm_call func; type_index func; vmctx self]) /\
    context_ok self m' /\
    (forall s ws, slot_valid (offsets self) s -> (forall i, s <> Entry FuncRefs i) -> holds_slot self m s ws -> holds_slot self m' s ws) /\
    (forall x, x < vmctx self \/ vmctx self + size_of_vmctx (offsets self) <= x -> m' x = m x).
Proof.
  intros Hok Hm Hi Hdef Hlt. destruct (new_fields self Hok) as (Hf & Hl & Hif & _ & _ & _ & _ & _ & _ & _ & _ & _ & Hfr & _).
  unfold get_func_ref. rewrite (proj2 (Z.eqb_neq _ _)) by lia. destruct (Z.ltb_spec index (num_imported_funcs (env_module self))) as [Him|Him].
  - assert (slot_valid (offsets self) (Entry ImportedFunctions index)) as Hv by (cbn [slot_valid]; lia).
    destruct (expected_total self Hok _ Hv I) as [vs Evs].
    pose proof (entry_offset (offsets self) Hf Hl ImportedFunctions index ltac:(lia)) as Eo. cbn [entry] in Eo. rewrite Eo.
    eexists _, m, vs. split; [reflexivity|]. split_and!; try done. by apply (Hm (Entry ImportedFunctions index)).
  - destruct (zget_total (defined_functions self) (index - num_imported_funcs (env_module self)) _ eq_refl ltac:(lia)) as [func Ef].
    destruct (Hdef func Ef) as [Hfunc Hres]. rewrite Ef.
    assert (slot_valid (offsets self) (Entry FuncRefs (func_ref func))) as Hv by (cbn [slot_valid]; lia).
    pose proof (entry_offset (offsets self) Hf Hl FuncRefs (func_ref func) ltac:(lia)) as Eo. cbn [entry] in Eo.
    set (s := Entry FuncRefs (func_ref func)) in *. pose proof (slot_sane (offsets self) Hf s) as Hs.
    set (vs := [array_call func; wasm_call func; type_index func; vmctx self]).
    exists (vmctx self + slot_offset (offsets self) s), (store_struct (vmctx self + slot_offset (offsets self) s) (slot_types (offsets self) s) vs m), vs.
    split; [rewrite (bind_run _ _ _ _ _ (unwrap_run _ _ _ eq_refl)), (bind_run _ _ _ _ _ (unwrap_run _ _ _ Eo)); reflexivity|].
    split; [by apply (store_holds _ (slot_types (offsets self) s))|]. split; [by exists func|]. split; [|split].
    + apply store_context_ok; [done|done|done|by intros []].
    + intros t ws Ht Hne Hw. apply store_slot_keeps; [done|done|done| |done]. intros E. by apply (Hne (func_ref func)).
    + intros x Hx. by apply store_slot_outside.
Qed.

(** ** An instance

    It imports a function and a memory, defines an owned, a shared and another owned memory, a table, a global and two
    tags, and has one passive segment. *)
Definition plain_memory (sh : bool) : Memory.t := Memory.mkMemory Idx32 (Memory.mkLimits 1 (Some 2)) sh 16.

Definition sample_module : Module_ :=
  mkModule 1 0 1 0 0 1 [plain_memory false; plain_memory false; plain_memory true; plain_memory false] 1 2 1 1.

Definition sample_offsets : VMOffsets :=
  match new 8 sample_module with Some o => o | None => mkOffsets (sample_fields 0) 0 0 0 0 0 0 0 0 0 0 0 0 0 0 end.

Definition sample_instance : Instance :=
  mkInstance sample_module sample_offsets 65536 (mkImports [[4096; 4112; 7; 8192]] [] [[12288; 8192; 0]] [] [])
    [Local 1048576 65536; Shared 20480; Local 2097152 131072] [(24576, 3)] [5; 6] [(28672, 10)]
    [mkFunction 0 7 4128 4144] 32768 36864 40960 45056 None.

Lemma sample_instance_ok : instance_ok sample_instance.
Proof.
  split; try reflexivity; [by right|repeat constructor|repeat constructor; unfold u32_MAX; simpl; lia|].
  intros a i vs E. destruct a; cbn [expected sample_instance i_memories] in E;
    repeat match type of E with
    | _ <$> zget _ _ = _ => apply fmap_Some in E as (? & E & ->); try reflexivity
    | zget _ _ = _ => apply zget_Some in E as [_ E]; vm_compute (owned_before _ _) in E; cbn in E;
        destruct (Z.to_nat i) as [|[|[|?]]]; try done; injection E as <-; try reflexivity
    | Some _ = _ => injection E as <-; reflexivity
    end; try done.
Qed.

Lemma initialize_vmctx_correct_witness :
  exists m', initialize_vmctx sample_instance (fun _ => None) = Ret tt m' /\
    (forall s, slot_valid sample_offsets s -> initialized s ->
       exists vs, expected sample_instance s = Some vs /\ holds m' (65536 + slot_offset sample_offsets s) (slot_types sample_offsets s) vs) /\
    (forall x, x < 65536 \/ 65536 + size_of_vmctx sample_offsets <= x -> m' x = None).
Proof. exact (initialize_vmctx_correct sample_instance (fun _ => None) sample_instance_ok). Defined.

(** The second owned memory is found at its definition. *)
Example sample_memories :
  match (initialize_vmctx sample_instance ;;; a <- get_memory sample_instance 1 ;; b <- get_memory sample_instance 3 ;; ret (a, b)) (fun _ => None) with
  | Ret r _ => r = ((1048576, 65536), (2097152, 131072))
  | _ => False
  end.
Proof. vm_compute. reflexivity. Qed.

(** Growing it leaves the first alone. *)
Lemma memory_definitions_correct_witness :
  exists m m2, initialize_vmctx sample_instance (fun _ => None) = Ret tt m /\
    set_memory sample_instance 2 (2097152, 196608) m = Ret tt m2 /\
    get_memory sample_instance 3 m2 = Ret (2097152, 196608) m2 /\ get_memory sample_instance 1 m2 = Ret (1048576, 65536) m2.
Proof.
  destruct (initialize_vmctx_correct sample_instance (fun _ => None) sample_instance_ok) as (m & E & _).
  destruct (memory_definitions_correct sample_instance (fun _ => None) m sample_instance_ok E) as (Hc & Hget & Hset).
  destruct (Hset m 2 2097152 131072 (2097152, 196608) Hc eq_refl) as (m2 & E2 & _ & H3 & Hothers & _).
  exists m, m2. split; [exact E|]. split; [exact E2|]. split; [exact H3|].
  eapply (Hothers 1); [lia|discriminate|reflexivity| |].
  - left. by exists 1048576, 65536.
  - apply (Hget 0 1048576 65536). reflexivity.
Defined.

Lemma get_func_ref_correct_witness :
  exists m a m' vs, get_func_ref sample_instance 1 m = Ret (Some a) m' /\ holds m' a (VMFuncRef 8) vs /\ vs = [4128; 4144; 7; 65536].
Proof.
  destruct (initialize_vmctx_correct sample_instance (fun _ => None) sample_instance_ok) as (m & E & _).
  destruct (initialize_context_ok sample_instance sample_instance_ok _ _ E) as [Hc _].
  destruct (get_func_ref_correct sample_instance m 1 sample_instance_ok Hc) as (a & m' & vs & Er & Hh & Hvs & _).
  - unfold u32_MAX. lia.
  - intros func [= <-]. split; [simpl; lia|by unfold u32_MAX].
  - unfold zlen. simpl. lia.
  - exists m, a, m', vs. split; [exact Er|]. split; [exact Hh|]. destruct Hvs as (func & [= <-] & ->). reflexivity.
Defined.
