(* ===== verification/FreeChain.v ===== *)
(** * Free lists threaded through a vector

    Three tables of the runtime keep their vacant slots in a singly linked list
    whose links live in the slots themselves: [Slab] (crates/core/src/slab.rs),
    [HandleTable] (vm/component/handle_table.rs) and [ResourceTable]
    (runtime/component/resource_table.rs).  This file holds the theory they
    share.  A table supplies [deref], which reads a link ([None] at the end of
    the list), and [next], which reads the link stored in a vacant slot ([None]
    for an occupied slot or an index out of range). *)

From S2P Require Import Prelude.

Section chain.
Context {L : Type}.
Implicit Types (deref : L -> option Z) (next : Z -> option L)
  (h : L) (l : list Z) (i : Z).

(** [chain deref next h l]: following the links from [h] visits the vacant
    slots [l], in that order, and then ends. *)
Inductive chain deref next : L -> list Z -> Prop :=
| chain_nil h : deref h = None -> chain deref next h []
| chain_cons h i h' l :
    deref h = Some i -> next i = Some h' -> chain deref next h' l ->
    chain deref next h (i :: l).

Lemma chain_det deref next h l l' :
  chain deref next h l -> chain deref next h l' -> l = l'.
Proof.
  intros H. revert l'. induction H; inversion 1; simplify_eq; [done|].
  f_equal. by apply IHchain.
Qed.

Lemma chain_suffix deref next h l1 i l2 :
  chain deref next h (l1 ++ i :: l2) ->
  exists h', next i = Some h' /\ chain deref next h' l2.
Proof.
  revert h. induction l1 as [|j l1 IH]; intros h; inversion 1; simplify_eq/=;
    eauto.
Qed.

(** A chain never visits a slot twice: the walk is a function of the link, so
    a repeated slot would have two different remainders. *)
Lemma chain_NoDup deref next h l : chain deref next h l -> NoDup l.
Proof.
  revert h. induction l as [|i l IH]; intros h Hc; [constructor|].
  inversion Hc; simplify_eq. constructor; [|by eapply IH].
  intros (l1 & l2 & ->)%list_elem_of_split.
  apply (chain_suffix _ _ h (i :: l1) i l2) in Hc as (h2 & Hn & Hc2).
  simplify_eq. match goal with H : chain _ _ _ (l1 ++ _) |- _ =>
    pose proof (chain_det _ _ _ _ _ H Hc2) as Heq end.
  apply (f_equal length) in Heq. rewrite length_app in Heq. simpl in Heq. lia.
Qed.

(** Only the links of the visited slots and the reading of links matter. *)
Lemma chain_frame deref deref' next next' h l :
  chain deref next h l ->
  deref' h = deref h ->
  (forall i, i ∈ l -> next' i = next i) ->
  (forall i h', i ∈ l -> next i = Some h' -> deref' h' = deref h') ->
  chain deref' next' h l.
Proof.
  induction 1 as [h Hd|h i h' l Hd Hn Hc IH]; intros Hdh Hnx Hdx.
  - constructor. congruence.
  - econstructor; [congruence| |apply IH].
    + rewrite Hnx by set_solver. done.
    + eapply Hdx; [|done]. set_solver.
    + intros. apply Hnx. set_solver.
    + intros. eapply Hdx; [|done]. set_solver.
Qed.

Lemma chain_frame_next deref next next' h l :
  chain deref next h l ->
  (forall i, i ∈ l -> next' i = next i) ->
  chain deref next' h l.
Proof. intros. by eapply chain_frame. Qed.

(** Every slot of the chain is vacant. *)
Lemma chain_vacant deref next h l i :
  chain deref next h l -> i ∈ l -> is_Some (next i).
Proof.
  induction 1 as [|h j h' l ? ? ? IH]; [by intros ?%elem_of_nil|].
  intros [->|]%elem_of_cons; eauto.
Qed.

Lemma chain_head deref next h l i :
  chain deref next h l -> deref h = Some i ->
  exists h' l', l = i :: l' /\ next i = Some h' /\ chain deref next h' l'
           /\ i ∉ l'.
Proof.
  intros Hc Hd. pose proof (chain_NoDup _ _ _ _ Hc) as Hnd.
  inversion Hc; simplify_eq. apply NoDup_cons in Hnd as [??]. eauto 10.
Qed.

Lemma chain_end deref next h l :
  chain deref next h l -> deref h = None -> l = [].
Proof. intros Hc ?. inversion Hc; congruence. Qed.
End chain.

Arguments chain {L} deref next _ _.

(** ** Counting the occupied slots of a table *)

Section occupied.
Context {A : Type} (occ : A -> bool).

Fixpoint count_occ_slots (l : list A) : Z :=
  match l with
  | [] => 0
  | x :: l => (if occ x then 1 else 0) + count_occ_slots l
  end.

Lemma count_occ_app l l' :
  count_occ_slots (l ++ l') = count_occ_slots l + count_occ_slots l'.
Proof. induction l; simpl; lia. Qed.

Lemma count_occ_bounds l : 0 <= count_occ_slots l <= zlen l.
Proof.
  induction l as [|a l IH]; simpl; [unfold zlen; simpl; lia|].
  rewrite zlen_cons. destruct (occ a); lia.
Qed.

Lemma count_occ_insert (l : list A) (n : nat) x y :
  l !! n = Some x ->
  count_occ_slots (<[n := y]> l)
  = count_occ_slots l - (if occ x then 1 else 0) + (if occ y then 1 else 0).
Proof.
  revert n. induction l as [|a l IH]; intros [|n]; simpl; intros; simplify_eq;
    [lia|]. rewrite (IH n) by done. lia.
Qed.

Lemma count_occ_zset (l : list A) i x y :
  zget l i = Some x ->
  count_occ_slots (zset l i y)
  = count_occ_slots l - (if occ x then 1 else 0) + (if occ y then 1 else 0).
Proof. intros [? ?]%zget_Some. by apply count_occ_insert. Qed.

Lemma count_occ_all (l : list A) :
  (forall i x, zget l i = Some x -> occ x = true) -> count_occ_slots l = zlen l.
Proof.
  intros H. assert (forall x, x ∈ l -> occ x = true) as H'.
  { intros x [n Hn]%list_elem_of_lookup. apply (H (Z.of_nat n)).
    by rewrite zget_of_nat. }
  clear H. induction l as [|a l IH]; [done|]. simpl. rewrite zlen_cons.
  rewrite H' by set_solver. rewrite IH; [done|set_solver].
Qed.
End occupied.

Lemma count_occ_ext {A} (p q : A -> bool) l :
  (forall x, x ∈ l -> p x = q x) -> count_occ_slots p l = count_occ_slots q l.
Proof.
  induction l as [|a l IH]; intros H; simpl; [done|].
  rewrite H by set_solver. f_equal. apply IH. set_solver.
Qed.

Lemma count_occ_pos {A} (p : A -> bool) l x :
  x ∈ l -> p x = true -> 1 <= count_occ_slots p l.
Proof.
  induction l as [|a l IH]; [by intros ?%elem_of_nil|].
  pose proof (proj1 (count_occ_bounds p l)). simpl.
  intros [->|Hx]%elem_of_cons Hp; [rewrite Hp; lia|].
  specialize (IH Hx Hp). destruct (p a); lia.
Qed.
