(* ===== verification/TryVec.v ===== *)
(** * TryVec: vectors whose allocations can fail

    Models [TryVec] of crates/core/src/alloc/vec.rs, the wrapper around
    [std::vec::Vec] that the runtime's tables use, as a list with a capacity.
    The allocator is an interface: given the current capacity and the capacity
    required, [grow] picks the new capacity or reports that memory ran out, and
    [shrink] says whether a block can be reallocated to a smaller size.  The
    one promise the code relies on is the documented one of
    [Vec::try_reserve]: on success there is room for what was required. *)

From S2P Require Import Prelude.

Class Allocator := {
  grow : Z -> Z -> option Z;
  shrink : Z -> Z -> bool;
  grow_enough : forall cap required cap',
    grow cap required = Some cap' -> required <= cap';
}.

Record TryVec (A : Type) := mkTryVec { elems : list A; capacity : Z }.
Arguments mkTryVec {A}.
Arguments elems {A}.
Arguments capacity {A}.

Definition tv_new {A} : TryVec A := mkTryVec [] 0.

Definition tv_set {A} (v : TryVec A) (i : Z) (x : A) : TryVec A :=
  mkTryVec (zset (elems v) i x) (capacity v).

(** [TryVec::reserve]: nothing happens when there is room already. *)
Definition reserve `{Allocator} {A} (v : TryVec A) (additional : Z)
  : option (TryVec A) :=
  if additional <=? capacity v - zlen (elems v) then Some v
  else match grow (capacity v) (zlen (elems v) + additional) with
       | Some cap' => Some (mkTryVec (elems v) cap')
       | None => None
       end.

Definition push `{Allocator} {A} (v : TryVec A) (x : A) : option (TryVec A) :=
  match reserve v 1 with
  | Some v' => Some (mkTryVec (elems v' ++ [x]) (capacity v'))
  | None => None
  end.

(** [TryVec::reserve_exact]: as [reserve], without slack beyond the
    allocator's. *)
Definition reserve_exact `{Allocator} {A} (v : TryVec A) (additional : Z)
  : option (TryVec A) :=
  if additional <=? capacity v - zlen (elems v) then Some v
  else match grow (capacity v) (zlen (elems v) + additional) with
       | Some cap' => Some (mkTryVec (elems v) cap')
       | None => None
       end.

(** [TryVec::from] of a boxed slice, whose capacity is its length. *)
Definition from_boxed_slice {A} (l : list A) : TryVec A := mkTryVec l (zlen l).

(** [TryVec::shrink_to_fit] at an element type that is not zero-sized. *)
Definition shrink_to_fit `{Allocator} {A} (v : TryVec A) : option (TryVec A) :=
  if zlen (elems v) =? capacity v then Some v
  else if zlen (elems v) =? 0 then Some (mkTryVec [] 0)
  else if shrink (capacity v) (zlen (elems v))
  then Some (mkTryVec (elems v) (zlen (elems v)))
  else None.

Definition into_boxed_slice `{Allocator} {A} (v : TryVec A) : option (list A) :=
  elems <$> shrink_to_fit v.

Fixpoint push_items `{Allocator} {A} (v : TryVec A) (items : list A) : option (TryVec A) :=
  match items with
  | [] => Some v
  | x :: items => match push v x with
                  | Some v' => push_items v' items
                  | None => None
                  end
  end.

(** [TryExtend::try_extend] for an iterator of known length. *)
Definition try_extend `{Allocator} {A} (v : TryVec A) (items : list A) : option (TryVec A) :=
  match reserve v (zlen items) with
  | Some v' => push_items v' items
  | None => None
  end.

Definition pop {A} (v : TryVec A) : option A * TryVec A :=
  (last (elems v), mkTryVec (removelast (elems v)) (capacity v)).

Definition clear {A} (v : TryVec A) : TryVec A := mkTryVec [] (capacity v).

(** [drain(..)]: the elements, in order, and the vector left empty. *)
Definition drain {A} (v : TryVec A) : list A * TryVec A :=
  (elems v, clear v).

Definition tv_wf {A} (v : TryVec A) : Prop := zlen (elems v) <= capacity v.

Section tryvec.
Context `{Allocator} {A : Type}.
Implicit Types v : TryVec A.

Lemma reserve_Some v n v' :
  reserve v n = Some v' ->
  elems v' = elems v /\ n <= capacity v' - zlen (elems v').
Proof.
  unfold reserve. intros Hr. crush_in Hr; simpl; [split; [done|lia]|].
  match goal with G : grow _ _ = Some _ |- _ => apply grow_enough in G end.
  split; [done|lia].
Qed.

Lemma push_Some v x v' :
  push v x = Some v' -> elems v' = elems v ++ [x] /\ tv_wf v'.
Proof.
  unfold push, tv_wf. intros Hp. crush_in Hp.
  apply reserve_Some in Heqo as [-> ?].
  split; [done|]. rewrite zlen_app, zlen_cons. unfold zlen in *. simpl in *. lia.
Qed.

Lemma push_in_capacity v x :
  zlen (elems v) < capacity v ->
  push v x = Some (mkTryVec (elems v ++ [x]) (capacity v)).
Proof.
  intros. unfold push, reserve. by rewrite (proj2 (Z.leb_le _ _)) by lia.
Qed.

Lemma reserve_exact_Some v n v' :
  reserve_exact v n = Some v' ->
  elems v' = elems v /\ n <= capacity v' - zlen (elems v').
Proof. apply reserve_Some. Qed.

Lemma push_items_Some items v v' :
  push_items v items = Some v' -> elems v' = elems v ++ items.
Proof.
  revert v. induction items as [|x items IH]; intros v; simpl.
  - intros [= ->]. by rewrite app_nil_r.
  - destruct (push v x) as [v1|] eqn:Hp; [|done]. intros ->%IH.
    apply push_Some in Hp as [-> _]. by rewrite <- app_assoc.
Qed.

Lemma push_items_in_capacity items v :
  zlen (elems v) + zlen items <= capacity v ->
  push_items v items = Some (mkTryVec (elems v ++ items) (capacity v)).
Proof.
  revert v. induction items as [|x items IH]; intros v Hc; simpl.
  { rewrite app_nil_r. by destruct v. }
  rewrite zlen_cons in Hc. pose proof (zlen_nonneg items).
  rewrite push_in_capacity by lia. rewrite IH; simpl.
  - by rewrite <- app_assoc.
  - rewrite zlen_app, zlen_cons. unfold zlen in *. simpl. lia.
Qed.

Lemma try_extend_Some items v v' :
  try_extend v items = Some v' -> elems v' = elems v ++ items.
Proof.
  unfold try_extend. destruct (reserve v _) as [v1|] eqn:Hr; [|done].
  apply reserve_Some in Hr as [<- _]. apply push_items_Some.
Qed.

Lemma into_boxed_slice_Some v l : into_boxed_slice v = Some l -> l = elems v.
Proof.
  unfold into_boxed_slice, shrink_to_fit. intros Hs. crush_in Hs; simplify_eq/=; try done.
  destruct (elems v); [done|]. rewrite zlen_cons in *. pose proof (zlen_nonneg l). lia.
Qed.
End tryvec.

(** The growth policy of [std]'s [RawVec]: at least double, at least 4; with a
    limit on the memory there is.  It instantiates the interface in the
    witnesses. *)
Definition amortized_grow (limit : Z) (cap required : Z) : option Z :=
  let cap' := Z.max (Z.max required (2 * cap)) 4 in
  if cap' <=? limit then Some cap' else None.

Lemma amortized_grow_enough limit cap required cap' :
  amortized_grow limit cap required = Some cap' -> required <= cap'.
Proof. unfold amortized_grow. case_match; intros; simplify_eq. lia. Qed.

Definition amortized (limit : Z) : Allocator :=
  {| grow := amortized_grow limit;
     shrink := fun _ _ => true;
     grow_enough := amortized_grow_enough limit |}.
