(* ===== verification/BTree.v ===== *)
(** * BTree: ordered maps and sets

    [BTreeMap<u32, V>] and [BTreeSet<u32>] of the standard library, as the
    modelled code uses them: a finite map (or set) that is also traversed in
    increasing order of its keys.  Lookup, insertion and removal are stdpp's;
    this file adds the traversal, [first_key_value], [last_key_value] and
    [range], with what they promise. *)

From S2P Require Import Prelude.

(** ** Strictly increasing lists *)

Section increasing.
Context {A : Type} (key : A -> Z).
Implicit Types (l : list A) (x y : A).

Definition increasing l : Prop := StronglySorted (fun x y => key x < key y) l.

(** The first and the last element that satisfy [p]. *)
Definition first_such (p : A -> bool) l : option A := head (List.filter p l).
Definition last_such (p : A -> bool) l : option A := last (List.filter p l).

Lemma first_such_Some p l x :
  increasing l -> first_such p l = Some x ->
  x ∈ l /\ p x = true /\ forall y, y ∈ l -> p y = true -> key x <= key y.
Proof.
  unfold first_such. induction 1 as [|a l Hl IH Ha]; simpl; [done|].
  rewrite Forall_forall in Ha. destruct (p a) eqn:Hp; simpl.
  - intros [= ->]. split; [set_solver|]. split; [done|].
    intros y [->|Hy]%elem_of_cons ?; [lia|]. specialize (Ha y Hy). lia.
  - intros (? & ? & Hmin)%IH. split; [set_solver|]. split; [done|].
    intros y [->|Hy]%elem_of_cons Hpy; [congruence|]. by apply Hmin.
Qed.

Lemma first_such_None p l x : first_such p l = None -> x ∈ l -> p x = false.
Proof.
  unfold first_such. induction l as [|a l IH]; simpl; [by intros _ ?%elem_of_nil|].
  destruct (p a) eqn:Hp; [done|]. intros Hn [->|Hx]%elem_of_cons; auto.
Qed.

Lemma last_such_Some p l x :
  increasing l -> last_such p l = Some x ->
  x ∈ l /\ p x = true /\ forall y, y ∈ l -> p y = true -> key y <= key x.
Proof.
  unfold last_such. induction 1 as [|a l Hl IH Ha]; simpl; [done|].
  rewrite Forall_forall in Ha. destruct (p a) eqn:Hp.
  - rewrite last_cons. destruct (last (List.filter p l)) as [z|] eqn:Hz.
    + intros [= ->]. destruct IH as (Hin & ? & Hmax); [done|].
      split; [set_solver|]. split; [done|]. intros y [->|Hy]%elem_of_cons ?.
      * specialize (Ha x Hin). lia.
      * by apply Hmax.
    + apply last_None in Hz. intros [= ->]. split; [set_solver|]. split; [done|].
      intros y [->|Hy]%elem_of_cons Hpy; [lia|].
      assert (y ∈ List.filter p l) as Hyf.
      { apply list_elem_of_In. apply filter_In. by rewrite <- list_elem_of_In. }
      rewrite Hz in Hyf. by apply elem_of_nil in Hyf.
  - intros (? & ? & Hmax)%IH. split; [set_solver|]. split; [done|].
    intros y [->|Hy]%elem_of_cons Hpy; [congruence|]. by apply Hmax.
Qed.

Lemma last_such_None p l x : last_such p l = None -> x ∈ l -> p x = false.
Proof.
  unfold last_such. intros Hn%last_None Hx. apply not_true_iff_false. intros Hp.
  assert (x ∈ List.filter p l) as Hxf.
  { apply list_elem_of_In. apply filter_In. by rewrite <- list_elem_of_In. }
  rewrite Hn in Hxf. by apply elem_of_nil in Hxf.
Qed.

Lemma increasing_of_sorted l :
  StronglySorted (fun x y => key x <= key y) l -> NoDup (key <$> l) -> increasing l.
Proof.
  induction 1 as [|a l Hl IH Ha]; [constructor|]. simpl.
  intros [Hna Hnd]%NoDup_cons. constructor; [by apply IH|].
  rewrite Forall_forall in Ha |- *. intros y Hy. specialize (Ha y Hy).
  assert (key a <> key y); [|lia]. intros He. apply Hna. rewrite He.
  by apply list_elem_of_fmap_2.
Qed.
End increasing.

(** ** Maps *)

Section map.
Context {V : Type}.
Implicit Types m : gmap Z V.

Definition key_le (x y : Z * V) : Prop := x.1 <= y.1.

#[local] Instance key_le_dec : RelDecision key_le.
Proof. intros x y. unfold key_le. apply _. Defined.
#[local] Instance key_le_total : Total key_le.
Proof. intros x y. unfold key_le. lia. Qed.
#[local] Instance key_le_trans : Transitive key_le.
Proof. intros x y z. unfold key_le. lia. Qed.

(** The entries in order of their keys. *)
Definition sorted_entries m : list (Z * V) := merge_sort key_le (map_to_list m).

Definition last_key_value m : option (Z * V) := last_such (fun _ => true) (sorted_entries m).

(** [range(..k).next_back()] and [range(k..).next()]. *)
Definition range_before m (k : Z) : option (Z * V) :=
  last_such (fun kv => kv.1 <? k) (sorted_entries m).
Definition range_from m (k : Z) : option (Z * V) :=
  first_such (fun kv => k <=? kv.1) (sorted_entries m).

Lemma elem_of_sorted_entries m k v : (k, v) ∈ sorted_entries m <-> m !! k = Some v.
Proof.
  unfold sorted_entries. rewrite merge_sort_Permutation. apply elem_of_map_to_list.
Qed.

Lemma sorted_entries_increasing m : increasing fst (sorted_entries m).
Proof.
  apply increasing_of_sorted; [apply (StronglySorted_merge_sort key_le)|].
  unfold sorted_entries. rewrite merge_sort_Permutation. apply NoDup_fst_map_to_list.
Qed.

Lemma last_key_value_Some m k v :
  last_key_value m = Some (k, v) ->
  m !! k = Some v /\ forall k' v', m !! k' = Some v' -> k' <= k.
Proof.
  intros (Hin & _ & Hmax)%(last_such_Some fst); [|apply sorted_entries_increasing].
  rewrite elem_of_sorted_entries in Hin. split; [done|].
  intros k' v' Hk'%elem_of_sorted_entries. by apply (Hmax (k', v')).
Qed.

Lemma range_before_Some m k k' v :
  range_before m k = Some (k', v) ->
  m !! k' = Some v /\ k' < k /\ forall j w, m !! j = Some w -> j < k -> j <= k'.
Proof.
  intros (Hin & Hp & Hmax)%(last_such_Some fst); [|apply sorted_entries_increasing].
  rewrite elem_of_sorted_entries in Hin. apply Z.ltb_lt in Hp. simpl in Hp.
  split_and!; [done|done|]. intros j w Hj%elem_of_sorted_entries ?.
  apply (Hmax (j, w)); [done|]. by apply Z.ltb_lt.
Qed.

Lemma range_before_None m k j w : range_before m k = None -> m !! j = Some w -> k <= j.
Proof.
  intros Hn Hj%elem_of_sorted_entries. apply (last_such_None _ _ _ Hn) in Hj.
  by apply Z.ltb_ge in Hj.
Qed.

Lemma range_from_Some m k k' v :
  range_from m k = Some (k', v) ->
  m !! k' = Some v /\ k <= k' /\ forall j w, m !! j = Some w -> k <= j -> k' <= j.
Proof.
  intros (Hin & Hp & Hmin)%(first_such_Some fst); [|apply sorted_entries_increasing].
  rewrite elem_of_sorted_entries in Hin. apply Z.leb_le in Hp. simpl in Hp.
  split_and!; [done|done|]. intros j w Hj%elem_of_sorted_entries ?.
  apply (Hmin (j, w)); [done|]. by apply Z.leb_le.
Qed.

Lemma range_from_None m k j w : range_from m k = None -> m !! j = Some w -> j < k.
Proof.
  intros Hn Hj%elem_of_sorted_entries. apply (first_such_None _ _ _ Hn) in Hj.
  by apply Z.leb_gt in Hj.
Qed.
End map.

(** ** Sets *)

Definition sorted_elements (s : gset Z) : list Z := merge_sort Z.le (elements s).

Definition first_element (s : gset Z) : option Z := head (sorted_elements s).

Lemma elem_of_sorted_elements s x : x ∈ sorted_elements s <-> x ∈ s.
Proof. unfold sorted_elements. rewrite merge_sort_Permutation. apply elem_of_elements. Qed.

Lemma sorted_elements_NoDup s : NoDup (sorted_elements s).
Proof. unfold sorted_elements. rewrite merge_sort_Permutation. apply NoDup_elements. Qed.

Lemma sorted_elements_sorted s : StronglySorted Z.le (sorted_elements s).
Proof. apply (StronglySorted_merge_sort Z.le). Qed.

Lemma first_element_Some s x : first_element s = Some x -> x ∈ s.
Proof.
  unfold first_element. intros Hh. apply elem_of_sorted_elements.
  destruct (sorted_elements s); simplify_eq/=. set_solver.
Qed.

Lemma first_element_None s : first_element s = None -> s = ∅.
Proof.
  unfold first_element. intros Hh. apply set_eq. intros x.
  rewrite <- elem_of_sorted_elements. destruct (sorted_elements s); [|done]. set_solver.
Qed.
