(* ===== verification/Slab.v ===== *)
(** * Slab: the runtime's slab arena

    Models crates/core/src/slab.rs.  A slab is a vector of entries, each
    occupied or a link of the free list, the head of that list, and the number
    of occupied entries.  An [Id] is the [NonZeroU32] the code stores, the
    index plus one.  The specification is a finite map from index to value. *)

From S2P Require Import Prelude FreeChain TryVec.

(** ** Indices *)

Definition MAX_CAPACITY : Z := u32_MAX - 1.

(** [EntryIndex::new]: panics ([None]) beyond the maximum capacity. *)
Definition EntryIndex_new (index : Z) : option Z :=
  if index <=? MAX_CAPACITY then
    match try_from u32_MAX (index + 1) with
    | Some x => if x =? 0 then None else Some x
    | None => None
    end
  else None.

Definition EntryIndex_index (e : Z) : Z := e - 1.

Definition Id_into_raw (id : Z) : option Z :=
  try_from u32_MAX (EntryIndex_index id).

Definition Id_from_raw (raw : Z) : option Z := EntryIndex_new raw.

(** ** Data *)

Inductive Entry (T : Type) : Type :=
| Occupied (x : T)
| Free (next_free : option Z).
Arguments Occupied {T} x.
Arguments Free {T} next_free.

Record Slab (T : Type) := mkSlab {
  entries : TryVec (Entry T);
  free : option Z;
  len : Z;
}.
Arguments mkSlab {T}.
Arguments entries {T}.
Arguments free {T}.
Arguments len {T}.

Inductive SlabError := OutOfMemory.

(** ** Operations *)

Section operations.
Context `{Allocator} {T : Type}.

Definition new : Slab T := mkSlab tv_new None 0.

Definition slab_reserve (additional : Z) : M (Slab T) SlabError unit :=
  s <- get ;;
  let cap := capacity (entries s) in
  rust_assert (len s <=? cap) ;;;
  if additional <=? cap - len s then ret tt
  else
    v <- ok_or (reserve (entries s) additional) OutOfMemory ;;
    put (mkSlab v (free s) (len s)) ;;;
    rust_assert (capacity v <=? MAX_CAPACITY).

Definition with_capacity (cap : Z) : outcome (Slab T) SlabError unit :=
  slab_reserve cap new.

Definition double_capacity : M (Slab T) SlabError unit :=
  s <- get ;;
  slab_reserve (Z.max (capacity (entries s)) 16).

Definition try_alloc_index : M (Slab T) T (option Z) :=
  s <- get ;;
  match free s with
  | Some index => put (mkSlab (entries s) None (len s)) ;;; ret (Some index)
  | None =>
      if zlen (elems (entries s)) <? capacity (entries s) then
        index <- unwrap (EntryIndex_new (zlen (elems (entries s)))) ;;
        v <- unwrap (push (entries s) (Free None)) ;;
        put (mkSlab v None (len s)) ;;;
        ret (Some index)
      else ret None
  end.

Definition try_alloc (value : T) : M (Slab T) T Z :=
  oi <- try_alloc_index ;;
  match oi with
  | Some index =>
      s <- get ;;
      e <- unwrap (zget (elems (entries s)) (EntryIndex_index index)) ;;
      match e with
      | Occupied _ => panic
      | Free next_free =>
          len' <- unwrap (checked_add u32_MAX (len s) 1) ;;
          put (mkSlab
                 (tv_set (entries s) (EntryIndex_index index) (Occupied value))
                 next_free len') ;;;
          ret index
      end
  | None => fail value
  end.

Definition alloc_slow (value : T) : M (Slab T) SlabError Z :=
  double_capacity ;;;
  or_else (try_alloc value) (fun _ => panic).

Definition alloc (value : T) : M (Slab T) SlabError Z :=
  or_else (try_alloc value) alloc_slow.

Definition next_id (s : Slab T) : option Z :=
  match free s with
  | Some index => Some index
  | None => EntryIndex_new (len s)
  end.

(** The outer [option] is the panic of [expect]. *)
Definition get_ (s : Slab T) (id : Z) : option (option T) :=
  match zget (elems (entries s)) (EntryIndex_index id) with
  | Some (Occupied x) => Some (Some x)
  | Some (Free _) => Some None
  | None => None
  end.

(** The value behind the [&mut T] and what writing through it does. *)
Definition get_mut (s : Slab T) (id : Z) : option (option (T * (T -> Slab T))) :=
  match zget (elems (entries s)) (EntryIndex_index id) with
  | Some (Occupied x) =>
      Some (Some (x, fun y =>
        mkSlab (tv_set (entries s) (EntryIndex_index id) (Occupied y))
               (free s) (len s)))
  | Some (Free _) => Some None
  | None => None
  end.

Definition contains (s : Slab T) (id : Z) : bool :=
  match zget (elems (entries s)) (EntryIndex_index id) with
  | Some (Occupied _) => true
  | _ => false
  end.

Definition dealloc (id : Z) : M (Slab T) SlabError T :=
  s <- get ;;
  entry <- unwrap (zget (elems (entries s)) (EntryIndex_index id)) ;;
  match entry with
  | Free _ => panic
  | Occupied value =>
      len' <- unwrap (checked_sub (len s) 1) ;;
      put (mkSlab
             (tv_set (entries s) (EntryIndex_index id) (Free (free s)))
             (Some id) len') ;;;
      ret value
  end.

(** [.enumerate().filter_map(..)] over the entries. *)
Fixpoint iter_from (i : Z) (es : list (Entry T)) : option (list (Z * T)) :=
  match es with
  | [] => Some []
  | Occupied x :: es =>
      match EntryIndex_new i, iter_from (i + 1) es with
      | Some id, Some r => Some ((id, x) :: r)
      | _, _ => None
      end
  | Free _ :: es => iter_from (i + 1) es
  end.

Definition iter (s : Slab T) : option (list (Z * T)) :=
  if zlen (elems (entries s)) <=? MAX_CAPACITY
  then iter_from 0 (elems (entries s)) else None.

(** [drain], run to the end of the iterator. *)
Definition slab_drain (s : Slab T) : option (list (Z * T) * Slab T) :=
  if zlen (elems (entries s)) <=? MAX_CAPACITY then
    let '(es, v) := drain (entries s) in
    match iter_from 0 es with
    | Some r => Some (r, mkSlab v None 0)
    | None => None
    end
  else None.

Definition slab_clear (s : Slab T) : Slab T :=
  mkSlab (clear (entries s)) None 0.
End operations.

(** ** The invariant and the abstract state *)

Definition is_occupied {T} (e : Entry T) : bool :=
  match e with Occupied _ => true | Free _ => false end.

Definition occupant {T} (e : Entry T) : option T :=
  match e with Occupied x => Some x | Free _ => None end.

(** The link in a vacant entry. *)
Definition link_at {T} (es : list (Entry T)) (i : Z) : option (option Z) :=
  match zget es i with Some (Free n) => Some n | _ => None end.

Definition deref (o : option Z) : option Z := EntryIndex_index <$> o.

Record wf {T} (s : Slab T) : Prop := {
  wf_room : zlen (elems (entries s)) <= capacity (entries s);
  wf_max : capacity (entries s) <= MAX_CAPACITY;
  wf_len : len s = count_occ_slots is_occupied (elems (entries s));
  wf_free : exists l, chain deref (link_at (elems (entries s))) (free s) l
              /\ forall i, is_Some (link_at (elems (entries s)) i) -> i ∈ l;
}.

(** What the slab holds: a map from index to value. *)
Definition view {T} (s : Slab T) : gmap Z T := contents occupant (elems (entries s)).

Lemma EntryIndex_new_ok i :
  0 <= i <= MAX_CAPACITY -> EntryIndex_new i = Some (i + 1).
Proof.
  unfold EntryIndex_new, MAX_CAPACITY, u32_MAX. intros.
  rewrite (proj2 (Z.leb_le _ _)) by lia. rewrite try_from_in by lia.
  by rewrite (proj2 (Z.eqb_neq _ _)) by lia.
Qed.

Section correctness.
Context `{Allocator} {T : Type}.
Implicit Types (s : Slab T) (v : T).

Lemma link_at_zset (es : list (Entry T)) i e j :
  0 <= i < zlen es ->
  link_at (zset es i e) j
  = if decide (i = j) then match e with Free n => Some n | _ => None end
    else link_at es j.
Proof.
  intros. unfold link_at. rewrite zget_zset by done. case_decide; [|done].
  by destruct e.
Qed.

Lemma link_at_snoc (es : list (Entry T)) n j :
  link_at (es ++ [Free n]) j
  = if decide (j = zlen es) then Some n else link_at es j.
Proof. unfold link_at. rewrite zget_snoc. by case_decide. Qed.

Lemma link_at_range (es : list (Entry T)) i :
  is_Some (link_at es i) -> 0 <= i < zlen es.
Proof.
  unfold link_at. intros [x Hx]. crush_in Hx. eauto with rust.
Qed.

Lemma wf_new : wf (new (T := T)).
Proof.
  split; simpl; [done|unfold MAX_CAPACITY, u32_MAX; lia|done|].
  exists []. split; [by constructor|]. intros i [Hi Hi']%link_at_range.
  unfold zlen in *. simpl in *. lia.
Qed.

(** With no vacant entry, the length is the number of entries. *)
Lemma wf_full s : wf s -> free s = None -> len s = zlen (elems (entries s)).
Proof.
  intros [? ? -> (l & Hc & Hl)] Hf. apply count_occ_all.
  intros i [x|n] Hi; [done|]. exfalso.
  apply chain_end in Hc as ->; [|by rewrite Hf].
  assert (i ∈ []) as ?%elem_of_nil; [|done].
  apply Hl. unfold link_at. rewrite Hi. eauto.
Qed.

(** Filling the entry at the head of the free list. *)
Lemma wf_fill s i n v l :
  zlen (elems (entries s)) <= capacity (entries s) ->
  capacity (entries s) <= MAX_CAPACITY ->
  len s = count_occ_slots is_occupied (elems (entries s)) ->
  zget (elems (entries s)) i = Some (Free n) ->
  chain deref (link_at (elems (entries s))) n l -> i ∉ l ->
  (forall j, is_Some (link_at (elems (entries s)) j) -> j ∈ i :: l) ->
  wf (mkSlab (tv_set (entries s) i (Occupied v)) n (len s + 1))
  /\ view (mkSlab (tv_set (entries s) i (Occupied v)) n (len s + 1))
     = <[i := v]> (view s).
Proof.
  intros Hroom Hmax Hlen Hi Hc Hni Hall. pose proof (zget_lt _ _ _ Hi) as Hr.
  split; [split; simpl|].
  - by rewrite zlen_zset.
  - done.
  - rewrite (count_occ_zset _ _ _ _ _ Hi), Hlen. simpl. lia.
  - exists l. split.
    + eapply chain_frame_next; [done|]. intros j Hj.
      rewrite link_at_zset by done. case_decide; [by subst|done].
    + intros j. rewrite link_at_zset by done. case_decide as Hij.
      { intros []. done. }
      intros Hj%Hall. set_solver.
  - unfold view. simpl. by apply contents_zset_Some.
Qed.

(** What a successful allocation of [v] at [id] means for the slab. *)
Definition allocated s v id s' : Prop :=
  next_id s = Some id /\ wf s' /\ view s !! EntryIndex_index id = None
  /\ 0 <= EntryIndex_index id < capacity (entries s)
  /\ view s' = <[EntryIndex_index id := v]> (view s)
  /\ capacity (entries s') = capacity (entries s).

Lemma len_bound s : wf s -> 0 <= len s <= MAX_CAPACITY.
Proof.
  intros [? ? -> _].
  pose proof (count_occ_bounds is_occupied (elems (entries s))). lia.
Qed.

Lemma checked_len s : wf s -> checked_add u32_MAX (len s) 1 = Some (len s + 1).
Proof.
  intros ?%len_bound. apply checked_add_Some. unfold MAX_CAPACITY in *. lia.
Qed.

(** Allocation from the free list. *)
Lemma try_alloc_reuse s v e :
  wf s -> free s = Some e ->
  exists s', try_alloc v s = Ret e s' /\ allocated s v e s'.
Proof.
  intros Hwf Hf. pose proof Hwf as [Hroom Hmax Hlen (l & Hc & Hall)].
  destruct (chain_head _ _ _ _ (EntryIndex_index e) Hc) as
    (n & l' & -> & Hn & Hc' & Hni); [by rewrite Hf|].
  unfold link_at in Hn. crush_in Hn. rename Heqo into He.
  pose proof (zget_lt _ _ _ He) as Hr.
  unfold try_alloc, try_alloc_index, bind, get, put, ret. simpl.
  rewrite Hf. simpl. rewrite He. simpl. rewrite checked_len by done. simpl.
  edestruct (wf_fill s (EntryIndex_index e) n v l') as [??]; try done.
  eexists. split; [done|]. unfold allocated, next_id. rewrite Hf.
  split_and!; try done; try lia.
  unfold view. by rewrite lookup_contents, He.
Qed.

(** Allocation of a new entry within the capacity. *)
Lemma try_alloc_fresh s v :
  wf s -> free s = None -> zlen (elems (entries s)) < capacity (entries s) ->
  exists s', try_alloc v s = Ret (zlen (elems (entries s)) + 1) s'
             /\ allocated s v (zlen (elems (entries s)) + 1) s'.
Proof.
  intros Hwf Hf Hlt. pose proof Hwf as [Hroom Hmax Hlen (l & Hc & Hall)].
  pose proof (wf_full _ Hwf Hf) as Hfull.
  apply chain_end in Hc as ->; [|by rewrite Hf].
  set (es := elems (entries s)) in *. pose proof (zlen_nonneg es) as Hnn.
  edestruct (wf_fill
    (mkSlab (mkTryVec (es ++ [Free None]) (capacity (entries s))) None (len s))
    (zlen es) None v []) as [Hw Hv]; simpl.
  { rewrite zlen_app, zlen_cons. unfold zlen at 2. simpl. lia. }
  { done. }
  { rewrite count_occ_app. simpl. lia. }
  { rewrite zget_snoc. by rewrite decide_True. }
  { by constructor. }
  { apply not_elem_of_nil. }
  { intros j. rewrite link_at_snoc. case_decide; [set_solver|].
    intros ?%Hall%elem_of_nil. done. }
  unfold try_alloc, try_alloc_index, bind, get, put, ret. simpl.
  rewrite Hf. fold es. rewrite (proj2 (Z.ltb_lt _ _)) by done. simpl.
  rewrite EntryIndex_new_ok by lia. simpl.
  rewrite push_in_capacity by done. fold es. unfold EntryIndex_index. simpl.
  replace (zlen es + 1 - 1) with (zlen es) by lia.
  rewrite zget_snoc, decide_True by done. simpl. rewrite checked_len by done. simpl.
  eexists. split; [done|]. unfold allocated, next_id, EntryIndex_index.
  rewrite Hf. replace (zlen es + 1 - 1) with (zlen es) by lia.
  split_and!; try done; try lia.
  - rewrite Hfull, EntryIndex_new_ok by lia. done.
  - unfold view. rewrite lookup_contents.
    by rewrite (proj2 (zget_None _ _)) by (unfold es; lia).
  - etransitivity; [exact Hv|]. unfold view. simpl. fold es.
    by rewrite contents_snoc_None.
Qed.

Lemma try_alloc_full s v :
  free s = None -> capacity (entries s) <= zlen (elems (entries s)) ->
  try_alloc v s = Fail v s.
Proof.
  intros Hf Hfull. unfold try_alloc, try_alloc_index, bind, get, ret. simpl.
  rewrite Hf. by rewrite (proj2 (Z.ltb_ge _ _)) by done.
Qed.

Lemma try_alloc_cases s v :
  wf s ->
  (exists id s', try_alloc v s = Ret id s' /\ allocated s v id s')
  \/ (try_alloc v s = Fail v s /\ free s = None
      /\ zlen (elems (entries s)) = capacity (entries s)).
Proof.
  intros Hwf. destruct (free s) as [e|] eqn:Hf.
  { edestruct try_alloc_reuse as (?&?&?); eauto. }
  destruct (decide (zlen (elems (entries s)) < capacity (entries s))).
  { edestruct try_alloc_fresh as (?&?&?); eauto. }
  right. pose proof (wf_room _ Hwf). split_and!; [|done|lia].
  apply try_alloc_full; [done|lia].
Qed.

Lemma reserve_spec s n :
  wf s ->
  match slab_reserve n s with
  | Ret _ s' => wf s' /\ view s' = view s /\ free s' = free s
                /\ elems (entries s') = elems (entries s)
                /\ (n <= capacity (entries s) - len s
                    \/ n <= capacity (entries s') - zlen (elems (entries s')))
  | Fail _ s' => s' = s
  | Panic => exists c, grow (capacity (entries s))
               (zlen (elems (entries s)) + n) = Some c /\ MAX_CAPACITY < c
  end.
Proof.
  intros Hwf. pose proof Hwf as [Hroom Hmax Hlen Hfree].
  pose proof (count_occ_bounds is_occupied (elems (entries s))).
  unfold slab_reserve, bind, get, put, ret, rust_assert, ok_or. simpl.
  rewrite (proj2 (Z.leb_le (len s) _)) by lia. simpl.
  destruct (Z.leb_spec n (capacity (entries s) - len s)); [by auto 10|].
  destruct (reserve (entries s) n) as [v|] eqn:Hr; simpl; [|done].
  pose proof (reserve_Some _ _ _ Hr) as [He Hn].
  destruct (Z.leb_spec (capacity v) MAX_CAPACITY); simpl.
  - unfold view. simpl. rewrite He in *. split_and!; try done; [|by right; lia].
    split; simpl; rewrite ?He; try done.
    pose proof (wf_room _ Hwf). unfold reserve in Hr. crush_in Hr; simpl; [lia|].
    apply grow_enough in Heqo. lia.
  - unfold reserve in Hr. crush_in Hr; [lia|]. eauto.
Qed.

Lemma alloc_cases s v :
  wf s ->
  match alloc v s with
  | Ret id s' =>
      next_id s = Some id /\ wf s' /\ view s !! EntryIndex_index id = None
      /\ view s' = <[EntryIndex_index id := v]> (view s)
  | Fail _ s' => s' = s
  | Panic => exists required c,
      grow (capacity (entries s)) required = Some c /\ MAX_CAPACITY < c
  end.
Proof.
  intros Hwf. unfold alloc, or_else.
  destruct (try_alloc_cases s v Hwf) as [(id & s' & -> & Ha)|(-> & Hf & Hfull)].
  { unfold allocated in Ha. naive_solver. }
  unfold alloc_slow, double_capacity, bind, get. simpl.
  set (n := Z.max (capacity (entries s)) 16).
  pose proof (reserve_spec s n Hwf) as Hr.
  destruct (slab_reserve n s) as [u s1|e s1|]; [|done|naive_solver].
  destruct Hr as (Hwf1 & Hview & Hfree & He & Hroom).
  pose proof (wf_full _ Hwf Hf) as Hlen. unfold or_else.
  destruct (try_alloc_cases s1 v Hwf1) as [(id & s' & -> & Ha)|(_ & _ & Hfull1)].
  - destruct Ha as (Hid & ? & ? & _ & ? & _). rewrite Hview in *.
    split_and!; try done. revert Hid. unfold next_id. rewrite Hfree, Hf.
    pose proof (wf_full _ Hwf1 ltac:(congruence)). congruence.
  - exfalso. rewrite He in *. lia.
Qed.

Lemma get_view s id v :
  get_ s id = Some (Some v) <-> view s !! EntryIndex_index id = Some v.
Proof.
  unfold get_, view. rewrite lookup_contents.
  destruct (zget _ _) as [[x|n]|]; simpl; naive_solver.
Qed.

Lemma dealloc_live s id v :
  wf s -> get_ s id = Some (Some v) ->
  exists s', dealloc id s = Ret v s' /\ wf s'
    /\ view s' = delete (EntryIndex_index id) (view s)
    /\ next_id s' = Some id.
Proof.
  intros Hwf Hg. pose proof Hwf as [Hroom Hmax Hlen (l & Hc & Hall)].
  unfold get_ in Hg. crush_in Hg. rename Heqo into Hi.
  pose proof (zget_lt _ _ _ Hi) as Hr.
  pose proof (count_occ_zset is_occupied _ _ _ (Free (free s)) Hi) as Hcnt.
  pose proof (count_occ_bounds is_occupied
    (zset (elems (entries s)) (EntryIndex_index id) (Free (free s)))) as Hb.
  simpl in Hcnt. unfold dealloc, bind, get, put, ret. simpl. rewrite Hi. simpl.
  unfold checked_sub. rewrite (proj2 (Z.leb_le _ _)) by lia. simpl.
  eexists. split; [done|]. split_and!; [split; simpl| |done].
  - by rewrite zlen_zset.
  - done.
  - lia.
  - exists (EntryIndex_index id :: l). split.
    + econstructor; [done| |].
      { rewrite link_at_zset by done. by rewrite decide_True. }
      eapply chain_frame_next; [done|]. intros j Hj.
      rewrite link_at_zset by done. case_decide; [subst|done].
      apply (chain_vacant _ _ _ _ _ Hc) in Hj as [n Hn].
      unfold link_at in Hn. by rewrite Hi in Hn.
    + intros j. rewrite link_at_zset by done. case_decide; [set_solver|].
      intros ?%Hall. set_solver.
  - unfold view. simpl. by apply contents_zset_None.
Qed.

Lemma dealloc_dead s id :
  (forall v, get_ s id <> Some (Some v)) -> dealloc id s = Panic.
Proof.
  unfold get_, dealloc, bind, get, unwrap, panic, ret. simpl.
  destruct (zget _ _) as [[x|n]|]; simpl; [|done|done].
  intros Hg. by destruct (Hg x).
Qed.

Lemma wf_empty s : wf s -> wf (slab_clear s).
Proof.
  intros [Hr Hm _ _]. pose proof (zlen_nonneg (elems (entries s))).
  split; simpl; [unfold zlen; simpl; lia|done|done|].
  exists []. split; [by constructor|]. intros i [Hi Hi']%link_at_range.
  unfold zlen in Hi'. simpl in Hi'. lia.
Qed.

Lemma wf_get_mut s id x upd y :
  wf s -> get_mut s id = Some (Some (x, upd)) ->
  wf (upd y) /\ view (upd y) = <[EntryIndex_index id := y]> (view s).
Proof.
  intros [Hroom Hmax Hlen (l & Hc & Hall)] Hg.
  unfold get_mut in Hg. crush_in Hg. rename Heqo into Hi.
  pose proof (zget_lt _ _ _ Hi) as Hr.
  assert (forall j, link_at (zset (elems (entries s)) (EntryIndex_index id)
    (Occupied y)) j = link_at (elems (entries s)) j) as Hl.
  { intros j. rewrite link_at_zset by done. case_decide; [|done].
    subst. unfold link_at. by rewrite Hi. }
  split; [split; simpl; try done|].
  - by rewrite zlen_zset.
  - rewrite (count_occ_zset _ _ _ _ _ Hi), Hlen. simpl. lia.
  - exists l. split; [by eapply chain_frame_next|].
    intros j. rewrite Hl. apply Hall.
  - unfold view. simpl. by apply contents_zset_Some.
Qed.

Lemma iter_from_ok (es : list (Entry T)) i :
  0 <= i -> i + zlen es <= MAX_CAPACITY + 1 ->
  exists r, iter_from i es = Some r
    /\ contents_from occupant i es
       = list_to_map (prod_map EntryIndex_index id <$> r)
    /\ forall j, j ∈ (EntryIndex_index ∘ fst <$> r) -> i <= j.
Proof.
  revert i. induction es as [|e es IH]; intros i Hi Hm.
  { exists []. split_and!; [done|done|]. intros j ?%elem_of_nil. done. }
  rewrite zlen_cons in Hm. pose proof (zlen_nonneg es).
  destruct (IH (i + 1)) as (r & Hr & Hc & Hb); [lia|lia|].
  destruct e as [x|n]; simpl; rewrite Hr.
  - rewrite EntryIndex_new_ok by lia. exists ((i + 1, x) :: r).
    split_and!; [done| |].
    + simpl. unfold EntryIndex_index. replace (i + 1 - 1) with i by lia.
      by rewrite Hc.
    + intros j [->|Hj]%elem_of_cons; [unfold EntryIndex_index; simpl; lia|].
      apply Hb in Hj. lia.
  - exists r. split_and!; [done|done|]. intros j ?%Hb. lia.
Qed.
End correctness.

(** ** Every sequence of operations *)

Inductive reachable `{Allocator} {T : Type} : Slab T -> Prop :=
| r_new : reachable new
| r_with_capacity n s : with_capacity n = Ret tt s -> reachable s
| r_reserve s n s' : reachable s -> slab_reserve n s = Ret tt s' -> reachable s'
| r_alloc s v id s' : reachable s -> alloc v s = Ret id s' -> reachable s'
| r_alloc_oom s v e s' : reachable s -> alloc v s = Fail e s' -> reachable s'
| r_get_mut s id x upd y :
    reachable s -> get_mut s id = Some (Some (x, upd)) -> reachable (upd y)
| r_dealloc s id v s' : reachable s -> dealloc id s = Ret v s' -> reachable s'
| r_drain s r s' : reachable s -> slab_drain s = Some (r, s') -> reachable s'
| r_clear s : reachable s -> reachable (slab_clear s).

(** ** Properties *)

Section properties.
Context `{Allocator} {T : Type}.
Implicit Types (s : Slab T) (v : T).

(** Allocation in a well-formed slab either reports that memory
    ran out and changes nothing, or stores the value under an index that was
    vacant (the one [next_id] announced) and keeps everything else; it panics
    only when the vector grew beyond [MAX_CAPACITY]. *)
Theorem slab_alloc_correct s v :
  wf s ->
  match alloc v s with
  | Ret id s' =>
      next_id s = Some id /\ wf s' /\ view s !! EntryIndex_index id = None
      /\ view s' = <[EntryIndex_index id := v]> (view s)
  | Fail _ s' => s' = s
  | Panic => exists required c,
      grow (capacity (entries s)) required = Some c /\ MAX_CAPACITY < c
  end.
Proof. apply alloc_cases. Qed.

(** Deallocating a live id returns its value, removes exactly
    that entry and makes it the next id to be handed out; an id that is
    vacant or out of range panics. *)
Theorem slab_dealloc_correct s id :
  wf s ->
  match view s !! EntryIndex_index id with
  | Some v => exists s', dealloc id s = Ret v s' /\ wf s'
                /\ view s' = delete (EntryIndex_index id) (view s)
                /\ next_id s' = Some id
  | None => dealloc id s = Panic
  end.
Proof.
  intros Hwf. destruct (view s !! _) as [v|] eqn:Hv.
  - by apply dealloc_live, get_view.
  - apply dealloc_dead. intros v ?%get_view. congruence.
Qed.

(** Every slab the API can build, in any order of operations and
    with any allocator, is well formed: the free list visits each vacant
    entry exactly once, the length counts the occupied entries and no index
    exceeds [MAX_CAPACITY]. *)
Theorem slab_reachable_wf s : reachable s -> wf s.
Proof.
  induction 1 as [|n s Hs|s n s' _ IH Hs|s v id s' _ IH Hs|s v e s' _ IH Hs
    |s id x upd y _ IH Hs|s id v s' _ IH Hs|s r s' _ IH Hs|s _ IH].
  - apply wf_new.
  - pose proof (reserve_spec new n (wf_new (T := T))) as Hr.
    unfold with_capacity in Hs. rewrite Hs in Hr. apply Hr.
  - pose proof (reserve_spec s n IH) as Hr. rewrite Hs in Hr. apply Hr.
  - pose proof (alloc_cases s v IH) as Hr. rewrite Hs in Hr. apply Hr.
  - pose proof (alloc_cases s v IH) as Hr. rewrite Hs in Hr. by subst.
  - by eapply wf_get_mut.
  - destruct (get_ s id) as [[w|]|] eqn:Hg.
    + destruct (dealloc_live s id w IH Hg) as (? & ? & ? & _). congruence.
    + rewrite dealloc_dead in Hs; [done|congruence].
    + rewrite dealloc_dead in Hs; [done|congruence].
  - unfold slab_drain in Hs. simpl in Hs. crush_in Hs. by apply wf_empty.
  - by apply wf_empty.
Qed.

(** Iteration yields each live id with its value: the pairs it lists are the
    slab's map. *)
Theorem slab_iter_correct s :
  wf s ->
  exists r, iter s = Some r
    /\ list_to_map (prod_map EntryIndex_index id <$> r) = view s.
Proof.
  intros [Hr Hm _ _]. unfold iter. rewrite (proj2 (Z.leb_le _ _)) by lia.
  destruct (iter_from_ok (elems (entries s)) 0) as (r & ? & ? & _); [lia|lia|].
  eauto.
Qed.
End properties.

(** ** Witnesses *)

#[local] Instance small : Allocator := amortized 64.

Definition sample1 : Slab Z := after (alloc 7) new.
Definition sample2 : Slab Z := after (alloc 8) sample1.
Definition sample : Slab Z := after (dealloc 1) sample2.

Lemma sample_reachable : reachable sample.
Proof.
  apply (r_dealloc sample2 1 7); [|vm_compute; reflexivity].
  apply (r_alloc sample1 8 2); [|vm_compute; reflexivity].
  apply (r_alloc new 7 1); [|vm_compute; reflexivity].
  constructor.
Qed.

Lemma sample_wf : wf sample.
Proof.
  split; try (by vm_compute).
  exists [0]. split.
  - econstructor; [by vm_compute|by vm_compute|by constructor].
  - intros i [l Hl]. pose proof (link_at_range _ i ltac:(eauto)) as Hr.
    assert (i = 0 \/ i = 1) as [-> | ->]
      by (change (0 <= i < 2) in Hr; lia); [set_solver|done].
Qed.

Lemma slab_alloc_correct_witness :
  exists s', alloc 9 sample = Ret 1 s' /\ view s' = <[0 := 9]> (view sample).
Proof.
  pose proof (slab_alloc_correct sample 9 sample_wf) as H.
  eexists. split; [vm_compute; reflexivity|]. vm_compute in H. vm_compute. tauto.
Defined.

Lemma slab_dealloc_correct_witness :
  exists s', dealloc 2 sample = Ret 8 s' /\ next_id s' = Some 2.
Proof.
  destruct (slab_dealloc_correct sample 2 sample_wf) as (s' & H & _ & _ & Hn).
  exists s'. split; [exact H|exact Hn].
Defined.

Lemma slab_reachable_wf_witness : wf sample.
Proof. apply slab_reachable_wf. apply sample_reachable. Defined.

Lemma slab_iter_correct_witness :
  exists r, iter sample = Some r
    /\ list_to_map (prod_map EntryIndex_index id <$> r) = view sample.
Proof. apply slab_iter_correct. apply sample_wf. Defined.
