(* ===== verification/HandleTable.v ===== *)
(** * HandleTable: the component model's handle tables

    Models crates/wasmtime/src/runtime/vm/component/handle_table.rs, with the
    typed representations and indices of vm/component/resources.rs.  A table is
    a vector of slots in which the vacant slots form a list that ends at the
    length of the vector; handle [h] names slot [h - 1] because the component
    model reserves handle 0.  The specification is the finite map from handle
    to slot. *)

From S2P Require Import Prelude FreeChain TryVec.

(** ** Typed resources (resources.rs) *)

Inductive TypedResource :=
| RHost (rep : Z)
| RComponent (rep ty : Z).

Inductive TypedResourceIndex :=
| IHost (index : Z)
| IComponent (index ty : Z).

#[export] Instance TypedResource_eq_dec : EqDecision TypedResource.
Proof. solve_decision. Defined.
#[export] Instance TypedResourceIndex_eq_dec : EqDecision TypedResourceIndex.
Proof. solve_decision. Defined.

Definition raw_index (i : TypedResourceIndex) : Z :=
  match i with IHost index | IComponent index _ => index end.

(** What a [ResourceTypeMismatch] says was found. *)
Inductive found := FoundHost | FoundOtherGuest | FoundGuest.

Inductive Error :=
| IndexOverflow
| OutOfMemory
| UnknownHandle (idx : Z)
| ResourceTypeMismatch (expected : TypedResourceIndex) (f : found)
| NotAResource
| NotAnOwnResource
| RemoveWhileBorrowed
| StreamTypeMismatch | NotAStream | NotReadableStream | NotWritableStream
| StreamBusy
| FutureTypeMismatch | NotAFuture | NotReadableFuture | NotWritableFuture
| FutureBusy
| NotAnErrorContext | NotASubtask | NotAWaitableSet | NotAWaitable
| NotAGuestThread
| LiftOwnFromBorrow
| BorrowsRemain
| ScopeIdOverflow.

(** [TypedResource::rep]. *)
Definition rep (r : TypedResource) (access_ty : TypedResourceIndex) : Z + Error :=
  match r, access_ty with
  | RHost rep, IHost _ => inl rep
  | RHost _, expected => inr (ResourceTypeMismatch expected FoundHost)
  | RComponent rep ty, IComponent _ expected =>
      if ty =? expected then inl rep
      else inr (ResourceTypeMismatch access_ty FoundOtherGuest)
  | RComponent _ _, expected => inr (ResourceTypeMismatch expected FoundGuest)
  end.

(** ** Data *)

Definition MAX_HANDLE : Z := Z.shiftl 1 28.

Inductive TransmitLocalState :=
| Write (done : bool)
| Read (done : bool)
| Busy.

Inductive RemovedResource :=
| Own (rep : Z)
| Borrow (scope : Z).

Inductive Waitable :=
| WSubtask (is_host : bool)
| WFuture
| WStream.

Inductive Slot :=
| Free (next : Z)
| ResourceOwn (resource : TypedResource) (lend_count : Z)
| ResourceBorrow (resource : TypedResource) (scope : Z)
| HostTask (rep : Z)
| GuestTask (rep : Z)
| GuestThread (rep : Z)
| Stream (ty rep : Z) (state : TransmitLocalState)
| Future (ty rep : Z) (state : TransmitLocalState)
| WaitableSet (rep : Z)
| ErrorContext (rep : Z).

Record HandleTable := mkHandleTable { next : Z; slots : TryVec Slot }.

Definition default : HandleTable := mkHandleTable 0 tv_new.

(** ** Operations *)

Definition is_free (s : Slot) : bool := match s with Free _ => true | _ => false end.

Definition is_empty (t : HandleTable) : bool := forallb is_free (elems (slots t)).

(** The conversion of the [u32] to a [usize] that follows the subtraction
    always succeeds: [usize] is the wider type. *)
Definition handle_index_to_table_index (idx : Z) : option Z := checked_sub idx 1.

(** A [?] on the [Result] of a pure function. *)
Definition try_ {S A} (r : A + Error) : M S Error A :=
  match r with inl a => ret a | inr e => fail e end.

Section operations.
Context `{Allocator}.

Definition insert (slot : Slot) : M HandleTable Error Z :=
  t <- get ;;
  n1 <- unwrap (checked_add u32_MAX (next t) 1) ;;
  if MAX_HANDLE <=? n1 then fail IndexOverflow
  else
    sl <- (if next t =? zlen (elems (slots t))
           then ok_or (push (slots t) (Free n1)) OutOfMemory
           else ret (slots t)) ;;
    old <- unwrap (zget (elems sl) (next t)) ;;
    match old with
    | Free n => put (mkHandleTable n (tv_set sl (next t) slot)) ;;; ret n1
    | _ => panic
    end.

(** [get_mut]: the slot read; writing through the reference is [set_slot]. *)
Definition get_slot (t : HandleTable) (idx : Z) : Slot + Error :=
  match handle_index_to_table_index idx with
  | Some i => match zget (elems (slots t)) i with
              | None | Some (Free _) => inr (UnknownHandle idx)
              | Some slot => inl slot
              end
  | None => inr (UnknownHandle idx)
  end.

Definition set_slot (idx : Z) (slot : Slot) (t : HandleTable) : HandleTable :=
  mkHandleTable (next t) (tv_set (slots t) (idx - 1) slot).

Definition get_mut (idx : Z) : M HandleTable Error Slot :=
  t <- get ;; try_ (get_slot t idx).

Definition remove (idx : Z) : M HandleTable Error unit :=
  t <- get ;;
  get_mut idx ;;;
  modify (set_slot idx (Free (next t))) ;;;
  n <- unwrap (checked_sub idx 1) ;;
  modify (fun t => mkHandleTable n (slots t)).

(** *** Resources *)

Definition resource_own_insert (resource : TypedResource) : M HandleTable Error Z :=
  insert (ResourceOwn resource 0).

Definition resource_borrow_insert (resource : TypedResource) (scope : Z)
  : M HandleTable Error Z :=
  insert (ResourceBorrow resource scope).

Definition resource_rep (idx : TypedResourceIndex) : M HandleTable Error Z :=
  slot <- get_mut (raw_index idx) ;;
  match slot with
  | ResourceOwn resource _ | ResourceBorrow resource _ => try_ (rep resource idx)
  | _ => fail NotAResource
  end.

Definition resource_lend (idx : TypedResourceIndex)
  : M HandleTable Error (Z * bool) :=
  slot <- get_mut (raw_index idx) ;;
  match slot with
  | ResourceOwn resource lend_count =>
      rep <- try_ (rep resource idx) ;;
      n <- unwrap (checked_add u32_MAX lend_count 1) ;;
      modify (set_slot (raw_index idx) (ResourceOwn resource n)) ;;;
      ret (rep, true)
  | ResourceBorrow resource _ =>
      rep <- try_ (rep resource idx) ;;
      ret (rep, false)
  | _ => fail NotAResource
  end.

Definition resource_undo_lend (idx : TypedResourceIndex)
  : M HandleTable Error unit :=
  slot <- get_mut (raw_index idx) ;;
  match slot with
  | ResourceOwn resource lend_count =>
      n <- unwrap (checked_sub lend_count 1) ;;
      modify (set_slot (raw_index idx) (ResourceOwn resource n))
  | _ => fail NotAnOwnResource
  end.

Definition remove_resource (idx : TypedResourceIndex)
  : M HandleTable Error RemovedResource :=
  slot <- get_mut (raw_index idx) ;;
  r <- match slot with
       | ResourceOwn resource lend_count =>
           if negb (lend_count =? 0) then fail RemoveWhileBorrowed
           else rep <- try_ (rep resource idx) ;; ret (Own rep)
       | ResourceBorrow resource scope =>
           try_ (rep resource idx) ;;; ret (Borrow scope)
       | _ => fail NotAResource
       end ;;
  remove (raw_index idx) ;;;
  ret r.

(** *** Streams and futures *)

Definition stream_insert_read (ty rep : Z) : M HandleTable Error Z :=
  insert (Stream ty rep (Read false)).

Definition stream_insert_write (ty rep : Z) : M HandleTable Error Z :=
  insert (Stream ty rep (Write false)).

(** The [rep], the state and what writing a state through the reference
    does. *)
Definition stream_rep (expected_ty idx : Z)
  : M HandleTable Error
      (Z * TransmitLocalState * (TransmitLocalState -> HandleTable -> HandleTable)) :=
  slot <- get_mut idx ;;
  match slot with
  | Stream ty rep state =>
      if negb (ty =? expected_ty) then fail StreamTypeMismatch
      else ret (rep, state, fun st => set_slot idx (Stream ty rep st))
  | _ => fail NotAStream
  end.

Definition stream_remove_readable (expected_ty idx : Z)
  : M HandleTable Error (Z * bool) :=
  slot <- get_mut idx ;;
  r <- match slot with
       | Stream ty rep state =>
           if negb (ty =? expected_ty) then fail StreamTypeMismatch
           else is_done <- match state with
                           | Read done => ret done
                           | Write _ => fail NotReadableStream
                           | Busy => fail StreamBusy
                           end ;;
                ret (rep, is_done)
       | _ => fail NotAStream
       end ;;
  remove idx ;;;
  ret r.

Definition stream_remove_writable (expected_ty idx : Z) : M HandleTable Error Z :=
  slot <- get_mut idx ;;
  r <- match slot with
       | Stream ty rep state =>
           if negb (ty =? expected_ty) then fail StreamTypeMismatch
           else match state with
                | Write _ => ret rep
                | Read _ => fail NotWritableStream
                | Busy => fail StreamBusy
                end
       | _ => fail NotAStream
       end ;;
  remove idx ;;;
  ret r.

Definition future_insert_read (ty rep : Z) : M HandleTable Error Z :=
  insert (Future ty rep (Read false)).

Definition future_insert_write (ty rep : Z) : M HandleTable Error Z :=
  insert (Future ty rep (Write false)).

Definition future_rep (expected_ty idx : Z)
  : M HandleTable Error
      (Z * TransmitLocalState * (TransmitLocalState -> HandleTable -> HandleTable)) :=
  slot <- get_mut idx ;;
  match slot with
  | Future ty rep state =>
      if negb (ty =? expected_ty) then fail FutureTypeMismatch
      else ret (rep, state, fun st => set_slot idx (Future ty rep st))
  | _ => fail NotAFuture
  end.

Definition future_remove_readable (expected_ty idx : Z)
  : M HandleTable Error (Z * bool) :=
  slot <- get_mut idx ;;
  r <- match slot with
       | Future ty rep state =>
           if negb (ty =? expected_ty) then fail FutureTypeMismatch
           else is_done <- match state with
                           | Read done => ret done
                           | Write _ => fail NotReadableFuture
                           | Busy => fail FutureBusy
                           end ;;
                ret (rep, is_done)
       | _ => fail NotAFuture
       end ;;
  remove idx ;;;
  ret r.

Definition future_remove_writable (expected_ty idx : Z) : M HandleTable Error Z :=
  slot <- get_mut idx ;;
  r <- match slot with
       | Future ty rep state =>
           if negb (ty =? expected_ty) then fail FutureTypeMismatch
           else match state with
                | Write _ => ret rep
                | Read _ => fail NotWritableFuture
                | Busy => fail FutureBusy
                end
       | _ => fail NotAFuture
       end ;;
  remove idx ;;;
  ret r.

(** *** Error contexts, subtasks, waitable sets and threads *)

Definition error_context_insert (rep : Z) : M HandleTable Error Z :=
  insert (ErrorContext rep).

Definition error_context_rep (idx : Z) : M HandleTable Error Z :=
  slot <- get_mut idx ;;
  match slot with ErrorContext rep => ret rep | _ => fail NotAnErrorContext end.

Definition error_context_drop (idx : Z) : M HandleTable Error Z :=
  slot <- get_mut idx ;;
  rep <- match slot with
         | ErrorContext rep => ret rep
         | _ => fail NotAnErrorContext
         end ;;
  remove idx ;;; ret rep.

Definition subtask_insert_guest (rep : Z) : M HandleTable Error Z :=
  insert (GuestTask rep).

Definition subtask_insert_host (rep : Z) : M HandleTable Error Z :=
  insert (HostTask rep).

Definition subtask_rep (idx : Z) : M HandleTable Error (Z * bool) :=
  slot <- get_mut idx ;;
  match slot with
  | GuestTask rep => ret (rep, false)
  | HostTask rep => ret (rep, true)
  | _ => fail NotASubtask
  end.

Definition subtask_remove (idx : Z) : M HandleTable Error (Z * bool) :=
  slot <- get_mut idx ;;
  r <- match slot with
       | GuestTask rep => ret (rep, false)
       | HostTask rep => ret (rep, true)
       | _ => fail NotASubtask
       end ;;
  remove idx ;;; ret r.

Definition waitable_set_insert (rep : Z) : M HandleTable Error Z :=
  insert (WaitableSet rep).

Definition waitable_set_rep (idx : Z) : M HandleTable Error Z :=
  slot <- get_mut idx ;;
  match slot with WaitableSet rep => ret rep | _ => fail NotAWaitableSet end.

Definition waitable_set_remove (idx : Z) : M HandleTable Error Z :=
  slot <- get_mut idx ;;
  r <- match slot with WaitableSet rep => ret rep | _ => fail NotAWaitableSet end ;;
  remove idx ;;; ret r.

Definition waitable_rep (idx : Z) : M HandleTable Error (Z * Waitable) :=
  slot <- get_mut idx ;;
  match slot with
  | GuestTask rep => ret (rep, WSubtask false)
  | HostTask rep => ret (rep, WSubtask true)
  | Future _ rep _ => ret (rep, WFuture)
  | Stream _ rep _ => ret (rep, WStream)
  | _ => fail NotAWaitable
  end.

Definition guest_thread_insert (rep : Z) : M HandleTable Error Z :=
  insert (GuestThread rep).

Definition guest_thread_rep (idx : Z) : M HandleTable Error Z :=
  slot <- get_mut idx ;;
  match slot with GuestThread rep => ret rep | _ => fail NotAGuestThread end.

Definition guest_thread_remove (idx : Z) : M HandleTable Error Z :=
  slot <- get_mut idx ;;
  rep <- match slot with GuestThread rep => ret rep | _ => fail NotAGuestThread end ;;
  remove idx ;;; ret rep.
End operations.

(** ** The invariant and the abstract state *)

Definition slot_value (s : Slot) : option Slot :=
  if is_free s then None else Some s.

(** The live handles: what a guest can name, and what it names. *)
Definition handles (t : HandleTable) : gmap Z Slot :=
  contents_from slot_value 1 (elems (slots t)).

Definition link_at (es : list Slot) (i : Z) : option Z :=
  match zget es i with Some (Free n) => Some n | _ => None end.

(** The free list ends at the length of the vector. *)
Definition deref (n : Z) (link : Z) : option Z :=
  if link =? n then None else Some link.

Record wf (t : HandleTable) : Prop := {
  wf_size : zlen (elems (slots t)) < MAX_HANDLE;
  wf_free : exists l,
    chain (deref (zlen (elems (slots t)))) (link_at (elems (slots t))) (next t) l
    /\ forall i, is_Some (link_at (elems (slots t)) i) -> i ∈ l;
}.

Section lemmas.
Context `{Allocator}.
Implicit Types (t : HandleTable) (es : list Slot).

Lemma wf_default : wf default.
Proof.
  split; [by vm_compute|]. exists []. split; [by constructor|].
  intros i [x Hx]. unfold link_at, zget in Hx. simpl in Hx.
  by destruct (0 <=? i).
Qed.

Lemma slot_link_zset es i e j :
  0 <= i < zlen es ->
  link_at (zset es i e) j
  = if decide (i = j) then match e with Free n => Some n | _ => None end
    else link_at es j.
Proof.
  intros. unfold link_at. rewrite zget_zset by done. case_decide; [|done].
  by destruct e.
Qed.

Lemma slot_link_range es i : is_Some (link_at es i) -> 0 <= i < zlen es.
Proof. unfold link_at. intros [x Hx]. crush_in Hx. eauto with rust. Qed.

(** Either the table has a vacant slot, the head of the list, or it has none
    and the next handle extends it. *)
Lemma wf_next t :
  wf t ->
  (next t = zlen (elems (slots t))
     /\ forall i, ~ is_Some (link_at (elems (slots t)) i))
  \/ (0 <= next t < zlen (elems (slots t))
      /\ exists n, zget (elems (slots t)) (next t) = Some (Free n)).
Proof.
  intros [Hs (l & Hc & Hall)]. inversion Hc as [h Hd|h i n l' Hd Hn Hc']; subst.
  - left. unfold deref in Hd. crush_in Hd. split; [done|].
    intros i ?%Hall%elem_of_nil. done.
  - right. unfold deref in Hd. crush_in Hd.
    pose proof (slot_link_range _ _ ltac:(eauto)) as Hr. split; [done|].
    unfold link_at in Hn. crush_in Hn. eauto.
Qed.

Lemma get_slot_handles t idx :
  get_slot t idx = match handles t !! idx with
                   | Some slot => inl slot
                   | None => inr (UnknownHandle idx)
                   end.
Proof.
  unfold get_slot, handles, handle_index_to_table_index.
  rewrite lookup_contents_from.
  destruct (checked_sub idx 1) as [i|] eqn:Hi.
  - apply checked_sub_Some in Hi as [-> Hi]. by destruct (zget _ _) as [[]|].
  - unfold checked_sub in Hi. crush_in Hi. unfold zget.
    by rewrite (proj2 (Z.leb_gt _ _)) by lia.
Qed.

Lemma handles_Some t idx slot :
  handles t !! idx = Some slot <->
  zget (elems (slots t)) (idx - 1) = Some slot /\ is_free slot = false.
Proof.
  unfold handles. rewrite lookup_contents_from, bind_Some. unfold slot_value.
  split.
  - intros (y & ? & Hy). destruct (is_free y) eqn:?; by simplify_eq.
  - intros [? Hf]. exists slot. by rewrite Hf.
Qed.

Lemma get_mut_run t idx :
  get_mut idx t = match handles t !! idx with
                  | Some slot => Ret slot t
                  | None => Fail (UnknownHandle idx) t
                  end.
Proof.
  unfold get_mut, bind, get, try_. rewrite get_slot_handles.
  by destruct (handles t !! idx).
Qed.

(** Putting a value in the vacant slot at the head of the free list. *)
Lemma wf_fill_slot t n slot l :
  zlen (elems (slots t)) < MAX_HANDLE ->
  zget (elems (slots t)) (next t) = Some (Free n) ->
  chain (deref (zlen (elems (slots t)))) (link_at (elems (slots t))) n l ->
  next t ∉ l ->
  (forall i, is_Some (link_at (elems (slots t)) i) -> i ∈ next t :: l) ->
  is_free slot = false ->
  let t' := mkHandleTable n (tv_set (slots t) (next t) slot) in
  wf t' /\ handles t' = <[next t + 1 := slot]> (handles t).
Proof.
  intros Hs Hi Hc Hni Hall Hslot t'. pose proof (zget_lt _ _ _ Hi) as Hr.
  split.
  - split; simpl; rewrite zlen_zset; [done|]. exists l. split.
    + eapply chain_frame_next; [done|]. intros j Hj.
      rewrite slot_link_zset by done. case_decide; [by subst|done].
    + intros j. rewrite slot_link_zset by done. case_decide as Hij.
      { intros [? ?]. by destruct slot. }
      intros Hj%Hall. set_solver.
  - unfold handles. simpl. rewrite Z.add_comm. apply contents_from_zset_Some;
      [done|]. unfold slot_value. by rewrite Hslot.
Qed.

Lemma MAX_HANDLE_eq : MAX_HANDLE = 2 ^ 28.
Proof. done. Qed.

Lemma handles_range t h : wf t -> is_Some (handles t !! h) -> 1 <= h < MAX_HANDLE.
Proof.
  intros [Hs _] [slot [Hz _]%handles_Some]. apply zget_lt in Hz. lia.
Qed.

(** What inserting [slot] as handle [h] means for the table. *)
Definition inserted t slot h t' : Prop :=
  h = next t + 1 /\ 1 <= h < MAX_HANDLE /\ wf t'
  /\ handles t !! h = None /\ handles t' = <[h := slot]> (handles t).

Lemma checked_next t : wf t -> checked_add u32_MAX (next t) 1 = Some (next t + 1).
Proof.
  intros Hwf. pose proof (wf_size t Hwf). rewrite MAX_HANDLE_eq in *.
  apply checked_add_Some. unfold u32_MAX. destruct (wf_next t Hwf); lia.
Qed.

Lemma insert_reuse t slot n :
  wf t -> is_free slot = false -> next t < zlen (elems (slots t)) ->
  zget (elems (slots t)) (next t) = Some (Free n) ->
  exists t', insert slot t = Ret (next t + 1) t' /\ inserted t slot (next t + 1) t'.
Proof.
  intros Hwf Hslot Hn Hz. pose proof Hwf as [Hs (l & Hc & Hall)].
  pose proof (zget_lt _ _ _ Hz) as Hr.
  destruct (chain_head _ _ _ _ (next t) Hc) as (n' & l' & -> & Hl & Hc' & Hni).
  { unfold deref. by rewrite (proj2 (Z.eqb_neq _ _)) by lia. }
  unfold link_at in Hl. rewrite Hz in Hl. simplify_eq.
  edestruct (wf_fill_slot t n' slot l') as [Hw Hv]; try done.
  unfold insert, bind, get, put, ret. simpl. rewrite checked_next by done. simpl.
  rewrite (proj2 (Z.leb_gt _ _)) by lia.
  rewrite (proj2 (Z.eqb_neq _ _)) by lia. simpl. rewrite Hz. simpl.
  eexists. split; [done|]. split_and!; try done; try lia.
  apply eq_None_not_Some. intros [sl [Hsl Hf]%handles_Some].
  replace (next t + 1 - 1) with (next t) in Hsl by lia. by simplify_eq.
Qed.

Lemma insert_extend t slot v :
  wf t -> is_free slot = false -> next t = zlen (elems (slots t)) ->
  (forall i, ~ is_Some (link_at (elems (slots t)) i)) ->
  next t + 1 < MAX_HANDLE ->
  push (slots t) (Free (next t + 1)) = Some v ->
  exists t', insert slot t = Ret (next t + 1) t' /\ inserted t slot (next t + 1) t'.
Proof.
  intros Hwf Hslot Hn Hnone Hmax Hp. pose proof (push_Some _ _ _ Hp) as [He _].
  pose proof (zlen_nonneg (elems (slots t))).
  edestruct (wf_fill_slot (mkHandleTable (next t) v) (next t + 1) slot [])
    as [Hw Hv]; simpl; rewrite ?He; try done.
  { rewrite zlen_app, zlen_cons, <- Hn. unfold zlen. simpl. lia. }
  { by rewrite zget_snoc, decide_True. }
  { constructor. unfold deref. rewrite zlen_app, zlen_cons, Hn. unfold zlen at 3.
    simpl. by rewrite (proj2 (Z.eqb_eq _ _)) by lia. }
  { apply not_elem_of_nil. }
  { intros i. unfold link_at. rewrite zget_snoc. case_decide; [set_solver|].
    intros Hi. by destruct (Hnone i). }
  unfold insert, bind, get, put, ret. simpl. rewrite checked_next by done. simpl.
  rewrite (proj2 (Z.leb_gt _ _)) by lia. rewrite (proj2 (Z.eqb_eq _ _)) by done.
  rewrite Hp. simpl. rewrite He, zget_snoc, decide_True by done. simpl.
  eexists. split; [done|]. split_and!; try done; try lia.
  - unfold handles. rewrite lookup_contents_from.
    by rewrite (proj2 (zget_None _ _)) by lia.
  - etransitivity; [exact Hv|]. unfold handles. simpl.
    by rewrite He, contents_from_snoc_None.
Qed.

Lemma insert_spec t slot :
  wf t -> is_free slot = false ->
  match insert slot t with
  | Ret h t' => inserted t slot h t'
  | Fail e t' => t' = t /\
      (e = OutOfMemory
       \/ e = IndexOverflow
          /\ forall h, 1 <= h < MAX_HANDLE -> is_Some (handles t !! h))
  | Panic => False
  end.
Proof.
  intros Hwf Hslot. pose proof (wf_size t Hwf) as Hs.
  destruct (wf_next t Hwf) as [[Hn Hnone]|[Hn [n Hz]]].
  2: { destruct (insert_reuse t slot n) as (t' & -> & ?); [done..|lia|done|done]. }
  destruct (decide (MAX_HANDLE <= next t + 1)) as [Hle|Hgt].
  - unfold insert, bind, get. rewrite checked_next by done. simpl.
    rewrite (proj2 (Z.leb_le _ _)) by done. split; [done|]. right.
    split; [done|]. intros h Hh.
    destruct (zget (elems (slots t)) (h - 1)) as [sl|] eqn:Hsl.
    + exists sl. apply handles_Some. split; [done|]. destruct sl; try done.
      destruct (Hnone (h - 1)). unfold link_at. rewrite Hsl. eauto.
    + apply zget_None in Hsl. lia.
  - destruct (push (slots t) (Free (next t + 1))) as [v|] eqn:Hp.
    + destruct (insert_extend t slot v) as (t' & -> & ?); try done. lia.
    + unfold insert, bind, get. rewrite checked_next by done. simpl.
      rewrite (proj2 (Z.leb_gt _ _)) by lia.
      rewrite (proj2 (Z.eqb_eq _ _)) by done. rewrite Hp. simpl. auto.
Qed.

(** Overwriting a live slot. *)
Lemma set_slot_spec t idx old slot :
  wf t -> handles t !! idx = Some old -> is_free slot = false ->
  wf (set_slot idx slot t)
  /\ handles (set_slot idx slot t) = <[idx := slot]> (handles t).
Proof.
  intros [Hs (l & Hc & Hall)] [Hz Hf]%handles_Some Hslot.
  pose proof (zget_lt _ _ _ Hz) as Hr.
  assert (forall j, link_at (zset (elems (slots t)) (idx - 1) slot) j
                    = link_at (elems (slots t)) j) as Hl.
  { intros j. rewrite slot_link_zset by done. case_decide; [|done]. subst.
    unfold link_at. rewrite Hz. by destruct slot, old. }
  split.
  - split; simpl; rewrite zlen_zset; [done|]. exists l.
    split; [by eapply chain_frame_next|]. intros j. rewrite Hl. apply Hall.
  - unfold handles. simpl. rewrite (contents_from_zset_Some _ _ _ _ _ slot); [|done|].
    + f_equal. lia.
    + unfold slot_value. by rewrite Hslot.
Qed.

Lemma remove_unknown t idx :
  handles t !! idx = None -> remove idx t = Fail (UnknownHandle idx) t.
Proof. intros Hn. unfold remove, bind, get. by rewrite get_mut_run, Hn. Qed.

Lemma ht_remove_spec t idx slot :
  wf t -> handles t !! idx = Some slot ->
  exists t', remove idx t = Ret tt t' /\ wf t'
    /\ handles t' = delete idx (handles t) /\ next t' + 1 = idx.
Proof.
  intros Hwf Hh. pose proof Hwf as [Hs (l & Hc & Hall)].
  pose proof (handles_range t idx Hwf ltac:(eauto)) as Hi.
  unfold remove, bind, get, modify, ret. rewrite get_mut_run, Hh.
  apply handles_Some in Hh as [Hz Hf]. pose proof (zget_lt _ _ _ Hz) as Hr.
  unfold checked_sub. rewrite (proj2 (Z.leb_le _ _)) by lia. simpl.
  eexists. split; [done|]. split_and!; [| |simpl; lia].
  - split; simpl; rewrite zlen_zset; [done|]. exists (idx - 1 :: l). split.
    + econstructor.
      * unfold deref. by rewrite (proj2 (Z.eqb_neq _ _)) by lia.
      * rewrite slot_link_zset by done. by rewrite decide_True.
      * eapply chain_frame_next; [done|]. intros j Hj.
        rewrite slot_link_zset by done. case_decide; [subst|done].
        apply (chain_vacant _ _ _ _ _ Hc) in Hj as [n Hn].
        unfold link_at in Hn. rewrite Hz in Hn. by destruct slot.
    + intros j. rewrite slot_link_zset by done. case_decide; [set_solver|].
      intros ?%Hall. set_solver.
  - unfold handles. simpl. rewrite contents_from_zset_None by done. f_equal. lia.
Qed.

(** *** Resource operations on the live handles *)

Lemma resource_lend_run t idx :
  wf t ->
  resource_lend idx t
  = match handles t !! raw_index idx with
    | Some (ResourceOwn r n) =>
        match rep r idx with
        | inl rp => if n + 1 <=? u32_MAX
                    then Ret (rp, true)
                           (set_slot (raw_index idx) (ResourceOwn r (n + 1)) t)
                    else Panic
        | inr e => Fail e t
        end
    | Some (ResourceBorrow r _) =>
        match rep r idx with inl rp => Ret (rp, false) t | inr e => Fail e t end
    | Some _ => Fail NotAResource t
    | None => Fail (UnknownHandle (raw_index idx)) t
    end.
Proof.
  intros Hwf. unfold resource_lend, bind. rewrite get_mut_run.
  destruct (handles t !! raw_index idx) as [[]|]; try done.
  - destruct (rep resource idx); try done. simpl. unfold checked_add.
    by destruct (_ <=? _).
  - by destruct (rep resource idx).
Qed.

Lemma resource_undo_lend_run t idx :
  resource_undo_lend idx t
  = match handles t !! raw_index idx with
    | Some (ResourceOwn r n) =>
        if 1 <=? n
        then Ret tt (set_slot (raw_index idx) (ResourceOwn r (n - 1)) t)
        else Panic
    | Some _ => Fail NotAnOwnResource t
    | None => Fail (UnknownHandle (raw_index idx)) t
    end.
Proof.
  unfold resource_undo_lend, bind. rewrite get_mut_run.
  destruct (handles t !! raw_index idx) as [[]|]; try done.
  simpl. unfold checked_sub. by destruct (_ <=? _).
Qed.

(** What [remove_resource] decides from the slot alone. *)
Definition removable (slot : Slot) (idx : TypedResourceIndex)
  : RemovedResource + Error :=
  match slot with
  | ResourceOwn r n =>
      if n =? 0 then match rep r idx with inl rp => inl (Own rp) | inr e => inr e end
      else inr RemoveWhileBorrowed
  | ResourceBorrow r scope =>
      match rep r idx with inl _ => inl (Borrow scope) | inr e => inr e end
  | _ => inr NotAResource
  end.

Lemma remove_resource_run t idx :
  remove_resource idx t
  = match handles t !! raw_index idx with
    | Some slot =>
        match removable slot idx with
        | inl r => match remove (raw_index idx) t with
                   | Ret _ t' => Ret r t'
                   | Fail e t' => Fail e t'
                   | Panic => Panic
                   end
        | inr e => Fail e t
        end
    | None => Fail (UnknownHandle (raw_index idx)) t
    end.
Proof.
  unfold remove_resource, bind. rewrite get_mut_run.
  destruct (handles t !! raw_index idx) as [slot|]; [|done].
  unfold removable. destruct slot; try done.
  - destruct (lend_count =? 0); simpl; [|done]. by destruct (rep resource idx).
  - by destruct (rep resource idx).
Qed.
End lemmas.

(** ** Every public operation *)

Inductive op :=
| OpOwnInsert (r : TypedResource)
| OpBorrowInsert (r : TypedResource) (scope : Z)
| OpResourceRep (i : TypedResourceIndex)
| OpLend (i : TypedResourceIndex)
| OpUndoLend (i : TypedResourceIndex)
| OpRemoveResource (i : TypedResourceIndex)
| OpStreamInsertRead (ty rep : Z)
| OpStreamInsertWrite (ty rep : Z)
| OpStreamSetState (ty idx : Z) (st : TransmitLocalState)
| OpStreamRemoveReadable (ty idx : Z)
| OpStreamRemoveWritable (ty idx : Z)
| OpFutureInsertRead (ty rep : Z)
| OpFutureInsertWrite (ty rep : Z)
| OpFutureSetState (ty idx : Z) (st : TransmitLocalState)
| OpFutureRemoveReadable (ty idx : Z)
| OpFutureRemoveWritable (ty idx : Z)
| OpErrorContextInsert (rep : Z)
| OpErrorContextRep (idx : Z)
| OpErrorContextDrop (idx : Z)
| OpSubtaskInsertGuest (rep : Z)
| OpSubtaskInsertHost (rep : Z)
| OpSubtaskRep (idx : Z)
| OpSubtaskRemove (idx : Z)
| OpWaitableSetInsert (rep : Z)
| OpWaitableSetRep (idx : Z)
| OpWaitableSetRemove (idx : Z)
| OpWaitableRep (idx : Z)
| OpGuestThreadInsert (rep : Z)
| OpGuestThreadRep (idx : Z)
| OpGuestThreadRemove (idx : Z).

Definition void {S E A} (m : M S E A) : M S E unit := m ;;; ret tt.

Definition run_op `{Allocator} (o : op) : M HandleTable Error unit :=
  match o with
  | OpOwnInsert r => void (resource_own_insert r)
  | OpBorrowInsert r scope => void (resource_borrow_insert r scope)
  | OpResourceRep i => void (resource_rep i)
  | OpLend i => void (resource_lend i)
  | OpUndoLend i => resource_undo_lend i
  | OpRemoveResource i => void (remove_resource i)
  | OpStreamInsertRead ty rep => void (stream_insert_read ty rep)
  | OpStreamInsertWrite ty rep => void (stream_insert_write ty rep)
  | OpStreamSetState ty idx st => r <- stream_rep ty idx ;; modify (r.2 st)
  | OpStreamRemoveReadable ty idx => void (stream_remove_readable ty idx)
  | OpStreamRemoveWritable ty idx => void (stream_remove_writable ty idx)
  | OpFutureInsertRead ty rep => void (future_insert_read ty rep)
  | OpFutureInsertWrite ty rep => void (future_insert_write ty rep)
  | OpFutureSetState ty idx st => r <- future_rep ty idx ;; modify (r.2 st)
  | OpFutureRemoveReadable ty idx => void (future_remove_readable ty idx)
  | OpFutureRemoveWritable ty idx => void (future_remove_writable ty idx)
  | OpErrorContextInsert rep => void (error_context_insert rep)
  | OpErrorContextRep idx => void (error_context_rep idx)
  | OpErrorContextDrop idx => void (error_context_drop idx)
  | OpSubtaskInsertGuest rep => void (subtask_insert_guest rep)
  | OpSubtaskInsertHost rep => void (subtask_insert_host rep)
  | OpSubtaskRep idx => void (subtask_rep idx)
  | OpSubtaskRemove idx => void (subtask_remove idx)
  | OpWaitableSetInsert rep => void (waitable_set_insert rep)
  | OpWaitableSetRep idx => void (waitable_set_rep idx)
  | OpWaitableSetRemove idx => void (waitable_set_remove idx)
  | OpWaitableRep idx => void (waitable_rep idx)
  | OpGuestThreadInsert rep => void (guest_thread_insert rep)
  | OpGuestThreadRep idx => void (guest_thread_rep idx)
  | OpGuestThreadRemove idx => void (guest_thread_remove idx)
  end.

(** One call on a table, whether it succeeds or reports an error. *)
Definition step `{Allocator} (t t' : HandleTable) : Prop :=
  exists o, run_op o t = Ret tt t' \/ exists e, run_op o t = Fail e t'.

(** The counter of lends is a [u32]. *)
Definition slot_ok (slot : Slot) : Prop :=
  match slot with ResourceOwn _ n => in_u32 n | _ => True end.

Definition inv (t : HandleTable) : Prop :=
  wf t /\ map_Forall (fun _ slot => slot_ok slot) (handles t).

(** [safe m]: from a table that satisfies the invariant [m] does not panic and
    keeps the invariant, also when it reports an error. *)
Definition safe {A} (m : M HandleTable Error A) : Prop :=
  forall t, inv t -> match m t with Ret _ t' | Fail _ t' => inv t' | Panic => False end.

Create HintDb safe.

Section safety.
Context `{Allocator}.

Lemma safe_ret {A} (a : A) : safe (ret a).
Proof. by intros t. Qed.
Lemma safe_fail {A} e : safe (A := A) (fail e).
Proof. by intros t. Qed.
Lemma safe_try {A} (r : A + Error) : safe (try_ r).
Proof. intros t. by destruct r. Qed.
Lemma safe_bind {A B} (m : M HandleTable Error A) (k : A -> M HandleTable Error B) :
  safe m -> (forall a, safe (k a)) -> safe (bind m k).
Proof.
  intros Hm Hk t Ht. specialize (Hm t Ht). unfold bind.
  destruct (m t); [by apply Hk|done|done].
Qed.
Lemma inv_default : inv default.
Proof. split; [apply wf_default|]. apply map_Forall_empty. Qed.
Lemma inv_set_slot t idx old slot :
  inv t -> handles t !! idx = Some old -> is_free slot = false -> slot_ok slot ->
  inv (set_slot idx slot t).
Proof.
  intros [Ht Hl] Hh Hf Hs. destruct (set_slot_spec t idx old slot Ht Hh Hf) as [? Hi].
  split; [done|]. rewrite Hi. by apply map_Forall_insert_2.
Qed.
Lemma safe_insert slot : is_free slot = false -> slot_ok slot -> safe (insert slot).
Proof.
  intros Hs Hok t [Ht Hl]. pose proof (insert_spec t slot Ht Hs) as Hi.
  unfold inserted in Hi.
  destruct (insert slot t) as [h t'|e t'|]; [|by destruct Hi as [-> _]|done].
  destruct Hi as (_ & _ & ? & _ & Hh). split; [done|]. rewrite Hh.
  by apply map_Forall_insert_2.
Qed.
Lemma safe_get_mut idx : safe (get_mut idx).
Proof. intros t Ht. rewrite get_mut_run. by destruct (handles t !! idx). Qed.
Lemma safe_remove idx : safe (remove idx).
Proof.
  intros t [Ht Hl]. destruct (handles t !! idx) as [slot|] eqn:Hh.
  - destruct (ht_remove_spec t idx slot Ht Hh) as (t' & -> & ? & Hd & _).
    split; [done|]. rewrite Hd. by apply map_Forall_delete.
  - by rewrite remove_unknown.
Qed.
End safety.

#[export] Hint Resolve safe_ret safe_fail safe_try safe_get_mut safe_remove
  safe_insert safe_bind : safe.
#[export] Hint Extern 1 (safe (match ?x with _ => _ end)) => destruct x : safe.
#[export] Hint Extern 1 (is_free _ = false) => reflexivity : safe.
#[export] Hint Extern 1 (slot_ok _) => (simpl; unfold in_u32, u32_MAX; lia) : safe.

Section safety_of_operations.
Context `{Allocator}.

Lemma safe_stream_set ty idx st :
  safe (r <- stream_rep ty idx ;; modify (r.2 st)).
Proof.
  intros t Ht. unfold stream_rep, bind, modify. rewrite get_mut_run.
  destruct (handles t !! idx) as [[]|] eqn:Hh; try done. simpl.
  destruct (negb _); [done|]. simpl. by eapply inv_set_slot.
Qed.

Lemma safe_future_set ty idx st :
  safe (r <- future_rep ty idx ;; modify (r.2 st)).
Proof.
  intros t Ht. unfold future_rep, bind, modify. rewrite get_mut_run.
  destruct (handles t !! idx) as [[]|] eqn:Hh; try done. simpl.
  destruct (negb _); [done|]. simpl. by eapply inv_set_slot.
Qed.

(** The only panics of the API: the counter of lends leaving its range. *)
Definition lend_overflow (t : HandleTable) (o : op) : Prop :=
  match o with
  | OpLend i => exists r n, handles t !! raw_index i = Some (ResourceOwn r n)
                            /\ n = u32_MAX
  | OpUndoLend i => exists r n, handles t !! raw_index i = Some (ResourceOwn r n)
                                /\ n = 0
  | _ => False
  end.

Lemma run_op_spec t o :
  inv t ->
  match run_op o t with
  | Ret _ t' | Fail _ t' => inv t'
  | Panic => lend_overflow t o
  end.
Proof.
  intros Ht. destruct o; try (
    match goal with |- match ?m ?t with _ => _ end =>
      enough (safe m) as Hs by (specialize (Hs t Ht); by destruct (m t)) end;
    simpl; first [apply safe_stream_set | apply safe_future_set
                 | unfold void; cbv [resource_own_insert resource_borrow_insert
      resource_rep remove_resource stream_insert_read stream_insert_write
      stream_remove_readable stream_remove_writable future_insert_read
      future_insert_write future_remove_readable future_remove_writable
      error_context_insert error_context_rep error_context_drop
      subtask_insert_guest subtask_insert_host subtask_rep subtask_remove
      waitable_set_insert waitable_set_rep waitable_set_remove waitable_rep
      guest_thread_insert guest_thread_rep guest_thread_remove];
      solve [eauto 20 with safe]]).
  - simpl. unfold void, bind. rewrite resource_lend_run by apply Ht.
    destruct (handles t !! raw_index i) as [[]|] eqn:Hh; try done.
    + pose proof (proj2 Ht _ _ Hh) as Hok. unfold slot_ok, in_u32 in Hok.
      destruct (rep resource i); [|done].
      destruct (Z.leb_spec (lend_count + 1) u32_MAX); simpl.
      * eapply inv_set_slot; [done..|]. unfold slot_ok, in_u32. lia.
      * exists resource, lend_count. split; [done|lia].
    + by destruct (rep resource i).
  - simpl. rewrite resource_undo_lend_run.
    destruct (handles t !! raw_index i) as [[]|] eqn:Hh; try done.
    pose proof (proj2 Ht _ _ Hh) as Hok. unfold slot_ok, in_u32 in Hok.
    destruct (Z.leb_spec 1 lend_count).
    + eapply inv_set_slot; [done..|]. unfold slot_ok, in_u32. lia.
    + exists resource, lend_count. split; [done|lia].
Qed.

Lemma set_slot_undo t idx old slot :
  handles t !! idx = Some old -> set_slot idx old (set_slot idx slot t) = t.
Proof.
  intros [Hz _]%handles_Some. apply zget_Some in Hz as [_ Hz].
  destruct t as [n [es c]]. unfold set_slot, tv_set, zset. simpl in *.
  by rewrite list_insert_insert_eq, list_insert_id.
Qed.
End safety_of_operations.

(** ** Properties *)

Section properties.
Context `{Allocator}.

(** Inserting into a well-formed table hands out a handle between
    1 and [MAX_HANDLE - 1] that was not in use and binds it to the slot,
    leaving every other handle alone.  It fails only when memory ran out or
    every one of those handles is in use, and then changes nothing; it never
    panics. *)
Theorem handle_insert_correct t slot :
  wf t -> is_free slot = false ->
  match insert slot t with
  | Ret h t' => 1 <= h < MAX_HANDLE /\ wf t'
                /\ handles t !! h = None /\ handles t' = <[h := slot]> (handles t)
  | Fail e t' => t' = t /\
      (e = OutOfMemory
       \/ e = IndexOverflow
          /\ forall h, 1 <= h < MAX_HANDLE -> is_Some (handles t !! h))
  | Panic => False
  end.
Proof.
  intros Ht Hs. pose proof (insert_spec t slot Ht Hs) as Hi. unfold inserted in Hi.
  destruct (insert slot t); naive_solver.
Qed.

(** Dropping a resource handle succeeds exactly when the handle is
    live, has the requested type and, if it owns the resource, is not lent;
    then exactly that handle goes away and is the next one to be reused.
    Every refusal leaves the table as it was, and no input panics. *)
Theorem handle_remove_resource_correct t idx :
  wf t ->
  match handles t !! raw_index idx with
  | None => remove_resource idx t = Fail (UnknownHandle (raw_index idx)) t
  | Some slot =>
      match removable slot idx with
      | inl r => exists t', remove_resource idx t = Ret r t' /\ wf t'
                   /\ handles t' = delete (raw_index idx) (handles t)
                   /\ next t' + 1 = raw_index idx
      | inr e => remove_resource idx t = Fail e t
      end
  end.
Proof.
  intros Ht. rewrite remove_resource_run.
  destruct (handles t !! raw_index idx) as [slot|] eqn:Hh; [|done].
  destruct (removable slot idx) as [r|e]; [|done].
  destruct (ht_remove_spec t _ slot Ht Hh) as (t' & -> & ? & ? & ?). eauto.
Qed.

(** While an owned handle is lent it cannot be removed, and undoing
    the lend restores the table bit for bit. *)
Theorem handle_lend_undo t idx rp t1 :
  inv t -> resource_lend idx t = Ret (rp, true) t1 ->
  remove_resource idx t1 = Fail RemoveWhileBorrowed t1
  /\ resource_undo_lend idx t1 = Ret tt t.
Proof.
  intros [Ht Hl] Hr. rewrite resource_lend_run in Hr by done.
  destruct (handles t !! raw_index idx) as [[]|] eqn:Hh; try done;
    destruct (rep resource idx) eqn:Hrep; try done.
  pose proof (Hl _ _ Hh) as Hok. unfold slot_ok, in_u32 in Hok.
  crush_in Hr. destruct (set_slot_spec t (raw_index idx) _
    (ResourceOwn resource (lend_count + 1)) Ht Hh eq_refl) as [_ Hi].
  rewrite remove_resource_run, resource_undo_lend_run, Hi, lookup_insert_eq.
  unfold removable. rewrite (proj2 (Z.eqb_neq _ _)) by lia.
  rewrite (proj2 (Z.leb_le _ _)) by lia. split; [done|].
  replace (lend_count + 1 - 1) with lend_count by lia. by rewrite set_slot_undo.
Qed.

(** C25. Every table built by any sequence of the public operations,
    successful or not, is well formed: live handles and vacant slots partition
    the vector, the free list visits each vacant slot once and no handle
    reaches [MAX_HANDLE]. *)
Theorem handle_table_reachable_inv t : rtc step default t -> inv t.
Proof.
  intros Hs. eapply (rtc_ind_r inv) with (x := default); [apply inv_default| |done].
  intros y z _ (o & Ho) Hy. pose proof (run_op_spec y o Hy) as Hr.
  destruct Ho as [Ho|[e Ho]]; by rewrite Ho in Hr.
Qed.

(** No public operation panics on a table that satisfies the
    invariant, whatever handle it is given, except lending a handle that is
    already lent [u32::MAX] times and undoing a lend that was never made. *)
Theorem handle_table_no_panic t o :
  inv t -> run_op o t = Panic -> lend_overflow t o.
Proof.
  intros Ht Ho. pose proof (run_op_spec t o Ht) as Hr. by rewrite Ho in Hr.
Qed.
End properties.

(** ** Witnesses *)

#[local] Instance small : Allocator := amortized 64.

Definition t1 : HandleTable := after (resource_own_insert (RHost 5)) default.
Definition t2 : HandleTable := after (stream_insert_read 3 77) t1.
Definition t3 : HandleTable := after (resource_lend (IHost 1)) t2.

Lemma t2_reachable : rtc step default t2.
Proof.
  apply (rtc_l _ _ t1); [exists (OpOwnInsert (RHost 5)); left; by vm_compute|].
  apply (rtc_l _ _ t2); [exists (OpStreamInsertRead 3 77); left; by vm_compute|].
  apply rtc_refl.
Qed.

Lemma t2_inv : inv t2.
Proof.
  split.
  - split; [by vm_compute|]. exists []. split; [by constructor|].
    intros i [x Hx]. assert (0 <= i < 2) as Hr
      by exact (slot_link_range (elems (slots t2)) i (ex_intro _ x Hx)).
    assert (i = 0 \/ i = 1) as [-> | ->] by lia; done.
  - intros h slot [Hz Hf]%handles_Some. pose proof (zget_lt _ _ _ Hz) as Hr.
    change (0 <= h - 1 < 2) in Hr.
    assert (h = 1 \/ h = 2) as [-> | ->] by lia; vm_compute in Hz; simplify_eq;
      [by vm_compute|done].
Qed.

Lemma handle_insert_correct_witness :
  exists t', insert (ErrorContext 4) t2 = Ret 3 t'
    /\ handles t' = <[3 := ErrorContext 4]> (handles t2).
Proof.
  pose proof (handle_insert_correct t2 (ErrorContext 4) (proj1 t2_inv) eq_refl) as H.
  eexists. split; [vm_compute; reflexivity|]. vm_compute in H. vm_compute. tauto.
Defined.

Lemma handle_remove_resource_correct_witness :
  exists t', remove_resource (IHost 1) t2 = Ret (Own 5) t'
    /\ handles t' = delete 1 (handles t2).
Proof.
  destruct (handle_remove_resource_correct t2 (IHost 1) (proj1 t2_inv))
    as (t' & H1 & _ & H2 & _). exists t'. split; [exact H1|exact H2].
Defined.

Lemma handle_lend_undo_witness :
  remove_resource (IHost 1) t3 = Fail RemoveWhileBorrowed t3
  /\ resource_undo_lend (IHost 1) t3 = Ret tt t2.
Proof.
  apply (handle_lend_undo t2 (IHost 1) 5 t3); [exact t2_inv|vm_compute; reflexivity].
Defined.

Lemma handle_table_reachable_inv_witness : inv t2.
Proof. apply handle_table_reachable_inv. exact t2_reachable. Defined.

Lemma handle_table_no_panic_witness : lend_overflow t2 (OpUndoLend (IHost 1)).
Proof.
  apply handle_table_no_panic; [exact t2_inv|vm_compute; reflexivity].
Defined.
