(* ===== verification/Resources.v ===== *)
(** * Resources: borrow tracking across calls

    Models [ResourceTables] and [CallContext] of
    crates/wasmtime/src/runtime/vm/component/resources.rs on top of
    [HandleTable], with the call scopes of runtime/component/store.rs in the
    configuration without concurrency support.  The state is the host's table,
    the tables of the instances of one component, and the stack of call scopes;
    the main theorem is that the counters of lends and borrows always equal the
    lends and borrows there are. *)

From S2P Require Import Prelude FreeChain TryVec HandleTable.

(** ** Data *)

Inductive TypeResourceTable :=
| Concrete (ty instance : Z)
| Abstract (idx : Z).

Record CallContext := mkCallContext {
  lenders : list TypedResourceIndex;
  borrow_count : Z;
}.

Definition CallContext_default : CallContext := mkCallContext [] 0.

Record ResourceTables := mkResourceTables {
  guest : option (list HandleTable * list TypeResourceTable);
  host_table : HandleTable;
  scopes : TryVec CallContext;
}.

(** All the tables: the host's first, then those of the guest instances. *)
Definition tables (s : ResourceTables) : list HandleTable :=
  host_table s :: match guest s with Some (states, _) => states | None => [] end.

Definition set_table (n : nat) (t : HandleTable) (s : ResourceTables)
  : ResourceTables :=
  match n with
  | O => mkResourceTables (guest s) t (scopes s)
  | S i => mkResourceTables
             (match guest s with
              | Some (states, types) => Some (<[i := t]> states, types)
              | None => None
              end) (host_table s) (scopes s)
  end.

Definition set_scopes (v : TryVec CallContext) (s : ResourceTables)
  : ResourceTables :=
  mkResourceTables (guest s) (host_table s) v.

(** ** Operations *)

(** [unwrap_concrete_instance]. *)
Definition unwrap_concrete_instance (t : TypeResourceTable) : option Z :=
  match t with Concrete _ instance => Some instance | Abstract _ => None end.

(** [states[types[ty].unwrap_concrete_instance()]]: which table holds the
    resources of guest type [ty]; [None] is a panic. *)
Definition guest_table_of (s : ResourceTables) (ty : Z) : option nat :=
  '(states, types) ← guest s;
  t ← zget types ty;
  i ← unwrap_concrete_instance t;
  _ ← zget states i;
  Some (S (Z.to_nat i)).

Definition table_of_resource (s : ResourceTables) (r : TypedResource) : option nat :=
  match r with RHost _ => Some O | RComponent _ ty => guest_table_of s ty end.

Definition table_of_index (s : ResourceTables) (i : TypedResourceIndex) : option nat :=
  match i with IHost _ => Some O | IComponent _ ty => guest_table_of s ty end.

Abbreviation RM := (M ResourceTables Error).

Definition table_for_resource (r : TypedResource) : RM nat :=
  s <- get ;; unwrap (table_of_resource s r).

Definition table_for_index (i : TypedResourceIndex) : RM nat :=
  s <- get ;; unwrap (table_of_index s i).

(** A method of the table found. *)
Definition on_table {A} (n : nat) (m : M HandleTable Error A) : RM A :=
  fun s => match tables s !! n with
           | Some t => zoom (fun _ => t) (set_table n) m s
           | None => Panic
           end.

Definition call_context (id : Z) : RM CallContext :=
  s <- get ;; unwrap (zget (elems (scopes s)) id).

Definition set_call_context (id : Z) (cx : CallContext) : RM unit :=
  modify (fun s => set_scopes (tv_set (scopes s) id cx) s).

(** [u32::try_from(state.scopes.len() - 1)?]. *)
Definition current_call_context_scope_id : RM Z :=
  s <- get ;;
  n <- unwrap (checked_sub (zlen (elems (scopes s))) 1) ;;
  ok_or (try_from u32_MAX n) ScopeIdOverflow.

Section operations.
Context `{Allocator}.

Definition resource_new (r : TypedResource) : RM Z :=
  n <- table_for_resource r ;; on_table n (resource_own_insert r).

Definition resource_rep_ (i : TypedResourceIndex) : RM Z :=
  n <- table_for_index i ;; on_table n (resource_rep i).

Definition resource_drop (i : TypedResourceIndex) : RM (option Z) :=
  n <- table_for_index i ;;
  removed <- on_table n (remove_resource i) ;;
  match removed with
  | Own rep => ret (Some rep)
  | Borrow scope =>
      cx <- call_context scope ;;
      c <- unwrap (checked_sub (borrow_count cx) 1) ;;
      set_call_context scope (mkCallContext (lenders cx) c) ;;;
      ret None
  end.

Definition resource_lower_own (r : TypedResource) : RM Z :=
  n <- table_for_resource r ;; on_table n (resource_own_insert r).

Definition resource_lift_own (i : TypedResourceIndex) : RM Z :=
  n <- table_for_index i ;;
  removed <- on_table n (remove_resource i) ;;
  match removed with
  | Own rep => ret rep
  | Borrow _ => fail LiftOwnFromBorrow
  end.

Definition resource_lift_borrow (i : TypedResourceIndex) : RM Z :=
  n <- table_for_index i ;;
  r <- on_table n (resource_lend i) ;;
  let '(rep, is_own) := (r : Z * bool) in
  if is_own then
    scope <- current_call_context_scope_id ;;
    cx <- call_context scope ;;
    set_call_context scope (mkCallContext (lenders cx ++ [i]) (borrow_count cx)) ;;;
    ret rep
  else ret rep.

Definition resource_lower_borrow (r : TypedResource) : RM Z :=
  scope <- current_call_context_scope_id ;;
  cx <- call_context scope ;;
  c <- unwrap (checked_add u32_MAX (borrow_count cx) 1) ;;
  set_call_context scope (mkCallContext (lenders cx) c) ;;;
  n <- table_for_resource r ;;
  on_table n (resource_borrow_insert r scope).

(** The loop over the lenders; [unwrap] turns an error into a panic. *)
Fixpoint undo_lends (ls : list TypedResourceIndex) : RM unit :=
  match ls with
  | [] => ret tt
  | l :: ls =>
      n <- table_for_index l ;;
      or_else (on_table n (resource_undo_lend l)) (fun _ => panic) ;;;
      undo_lends ls
  end.

Definition validate_scope_exit : RM unit :=
  current <- current_call_context_scope_id ;;
  cx <- call_context current ;;
  if 0 <? borrow_count cx then fail BorrowsRemain
  else
    set_call_context current (mkCallContext [] (borrow_count cx)) ;;;
    undo_lends (lenders cx).

Definition enter_call : RM unit :=
  s <- get ;;
  v <- ok_or (push (scopes s) CallContext_default) OutOfMemory ;;
  put (set_scopes v s).

Definition exit_call : RM unit :=
  modify (fun s => set_scopes (pop (scopes s)).2 s).
End operations.

(** ** Accounting

    [borrows s k] counts the borrow handles created in scope [k], over all the
    tables; [lends s n h] counts the lends of handle [h] of table [n] that are
    recorded in the scopes; [lend_count_at s n h] is the counter in the slot. *)

Definition is_borrow_of (k : Z) (slot : Slot) : bool :=
  match slot with ResourceBorrow _ scope => scope =? k | _ => false end.

Definition borrows_in (k : Z) (t : HandleTable) : Z :=
  count_map (is_borrow_of k) (handles t).

Definition borrows (s : ResourceTables) (k : Z) : Z := total (borrows_in k) (tables s).

Definition borrow_count_at (s : ResourceTables) (k : Z) : Z :=
  match zget (elems (scopes s)) k with Some cx => borrow_count cx | None => 0 end.

Definition points_to (s : ResourceTables) (n : nat) (h : Z) (l : TypedResourceIndex)
  : bool :=
  bool_decide (table_of_index s l = Some n /\ raw_index l = h).

Definition lends (s : ResourceTables) (n : nat) (h : Z) : Z :=
  total (fun cx => count_occ_slots (points_to s n h) (lenders cx)) (elems (scopes s)).

Definition slot_at (s : ResourceTables) (n : nat) (h : Z) : option Slot :=
  t ← tables s !! n; handles t !! h.

Definition lend_count_of (o : option Slot) : Z :=
  match o with Some (ResourceOwn _ n) => n | _ => 0 end.

(** The counters agree with what they count, when the lends [pending] are no
    longer in a scope but not yet undone. *)
Record accounted_but (pending : list TypedResourceIndex) (s : ResourceTables)
  : Prop := {
  acc_tables : Forall inv (tables s);
  acc_borrows : forall k, borrows s k = borrow_count_at s k;
  acc_lends : forall n h,
    lends s n h + count_occ_slots (points_to s n h) pending
    = lend_count_of (slot_at s n h);
  acc_lenders : forall cx l, cx ∈ elems (scopes s) -> l ∈ lenders cx ->
    is_Some (table_of_index s l);
  acc_pending : forall l, l ∈ pending -> is_Some (table_of_index s l);
}.

Definition accounted : ResourceTables -> Prop := accounted_but [].

Section lemmas.
Context `{Allocator}.
Implicit Types (s : ResourceTables) (t : HandleTable).

(** *** The shape of the state *)

Lemma tables_set_table s n t :
  (n < length (tables s))%nat -> tables (set_table n t s) = <[n := t]> (tables s).
Proof.
  unfold tables, set_table. destruct n as [|n]; [done|]. simpl.
  destruct (guest s) as [[states types]|]; simpl; [done|lia].
Qed.

Lemma scopes_set_table s n t : scopes (set_table n t s) = scopes s.
Proof. by destruct n. Qed.

Lemma table_of_set_table s n t i :
  table_of_index (set_table n t s) i = table_of_index s i.
Proof.
  destruct i as [|index ty], n as [|n]; try done. simpl.
  unfold guest_table_of, set_table. simpl.
  destruct (guest s) as [[states types]|]; simpl; [|done].
  destruct (zget types ty) as [tt|]; simpl; [|done].
  destruct (unwrap_concrete_instance tt) as [j|]; simpl; [|done].
  assert (is_Some (zget (<[n := t]> states) j) <-> is_Some (zget states j)) as Hz.
  { rewrite !zget_is_Some. unfold zlen. by rewrite length_insert. }
  destruct (zget (<[n := t]> states) j), (zget states j); try done.
  - destruct (proj1 Hz) as [? ?]; [eauto|done].
  - destruct (proj2 Hz) as [? ?]; [eauto|done].
Qed.

Lemma table_of_set_scopes s v i :
  table_of_index (set_scopes v s) i = table_of_index s i.
Proof. by destruct i. Qed.

Lemma guest_table_valid s ty n :
  guest_table_of s ty = Some n -> (n < length (tables s))%nat.
Proof.
  unfold guest_table_of, tables. intros Hg.
  destruct (guest s) as [[states types]|]; simpl in *; [|done].
  destruct (zget types ty) as [tt|]; simpl in *; [|done].
  destruct (unwrap_concrete_instance tt) as [j|]; simpl in *; [|done].
  destruct (zget states j) as [x|] eqn:Hz; simpl in *; [|done]. simplify_eq.
  apply zget_Some in Hz as [_ Hz%lookup_lt_Some]. lia.
Qed.

Lemma table_of_index_valid s i n :
  table_of_index s i = Some n -> (n < length (tables s))%nat.
Proof.
  destruct i; simpl; [intros; simplify_eq; unfold tables; simpl; lia|].
  apply guest_table_valid.
Qed.

Lemma table_of_resource_valid s r n :
  table_of_resource s r = Some n -> (n < length (tables s))%nat.
Proof.
  destruct r; simpl; [intros; simplify_eq; unfold tables; simpl; lia|].
  apply guest_table_valid.
Qed.

Lemma on_table_run {A} s n t (m : M HandleTable Error A) :
  tables s !! n = Some t ->
  on_table n m s = match m t with
                   | Ret a t' => Ret a (set_table n t' s)
                   | Fail e t' => Fail e (set_table n t' s)
                   | Panic => Panic
                   end.
Proof. intros Ht. unfold on_table. by rewrite Ht. Qed.

Lemma set_table_id s n t : tables s !! n = Some t -> set_table n t s = s.
Proof.
  destruct s as [g h sc]. unfold tables, set_table. destruct n as [|n]; simpl.
  - by intros [= ->].
  - destruct g as [[states types]|]; simpl; [|done]. intros ?.
    by rewrite list_insert_id.
Qed.

(** *** How the counters move *)

Lemma borrows_set_table s n t t' k :
  tables s !! n = Some t ->
  borrows (set_table n t' s) k = borrows s k - borrows_in k t + borrows_in k t'.
Proof.
  intros Ht. unfold borrows. rewrite tables_set_table by (by eapply lookup_lt_Some).
  by apply total_insert.
Qed.

Lemma points_to_ext s s' n h l :
  table_of_index s' l = table_of_index s l -> points_to s' n h l = points_to s n h l.
Proof. intros Ht. unfold points_to. apply bool_decide_ext. by rewrite Ht. Qed.

Lemma lends_set_table s n t m h : lends (set_table n t s) m h = lends s m h.
Proof.
  unfold lends. rewrite scopes_set_table. apply total_ext. intros cx _.
  apply count_occ_ext. intros l _. apply points_to_ext, table_of_set_table.
Qed.

Lemma borrows_set_scopes s v k : borrows (set_scopes v s) k = borrows s k.
Proof. done. Qed.

(** Replacing the context of scope [k]. *)
Lemma lends_set_context s k cx cx' n h :
  zget (elems (scopes s)) k = Some cx ->
  lends (set_scopes (tv_set (scopes s) k cx') s) n h
  = lends s n h - count_occ_slots (points_to s n h) (lenders cx)
    + count_occ_slots (points_to s n h) (lenders cx').
Proof.
  intros [Hk Hz]%zget_Some. unfold lends. simpl. unfold zset.
  rewrite (total_ext _ (fun cx => count_occ_slots (points_to s n h) (lenders cx))).
  - by apply (total_insert (fun cx => count_occ_slots (points_to s n h) (lenders cx))).
  - intros c _. apply count_occ_ext. intros l _.
    apply points_to_ext, table_of_set_scopes.
Qed.

Lemma borrow_count_set_context s k cx k' cx' :
  zget (elems (scopes s)) k = Some cx ->
  borrow_count_at (set_scopes (tv_set (scopes s) k cx') s) k'
  = if decide (k = k') then borrow_count cx' else borrow_count_at s k'.
Proof.
  intros Hk. pose proof (zget_lt _ _ _ Hk). unfold borrow_count_at. simpl.
  rewrite zget_zset by done. by case_decide.
Qed.

Lemma slot_at_table s n t h : tables s !! n = Some t -> slot_at s n h = handles t !! h.
Proof. intros Ht. unfold slot_at. by rewrite Ht. Qed.

Lemma slot_at_set_table s n t t' m h :
  tables s !! n = Some t ->
  slot_at (set_table n t' s) m h
  = if decide (n = m) then handles t' !! h else slot_at s m h.
Proof.
  intros Ht. pose proof (lookup_lt_Some _ _ _ Ht). unfold slot_at.
  rewrite tables_set_table by done. case_decide; subst.
  - by rewrite list_lookup_insert_eq.
  - by rewrite list_lookup_insert_ne.
Qed.

Lemma acc_inv p s n t : accounted_but p s -> tables s !! n = Some t -> inv t.
Proof. intros Ha Ht. eapply Forall_lookup_1; [apply Ha|done]. Qed.

Lemma set_table_scopes s n t v :
  set_table n t (set_scopes v s) = set_scopes v (set_table n t s).
Proof. by destruct n. Qed.

(** [only h t t']: the tables bind every handle but [h] alike. *)
Definition only (h : Z) t t' : Prop :=
  forall h', h' <> h -> handles t' !! h' = handles t !! h'.

(** One table and one context change together: handle [h] of table [n], the
    borrows of scope [k] by [d] and the lends of that handle by [e]. *)
Lemma accounted_update s n t t' h k cx cx' d e :
  accounted s -> tables s !! n = Some t -> inv t' -> only h t t' ->
  zget (elems (scopes s)) k = Some cx ->
  (forall k', borrows_in k' t' = borrows_in k' t + if decide (k = k') then d else 0) ->
  borrow_count cx' = borrow_count cx + d ->
  (forall m h', count_occ_slots (points_to s m h') (lenders cx')
                = count_occ_slots (points_to s m h') (lenders cx)
                  + if decide (m = n /\ h' = h) then e else 0) ->
  lend_count_of (handles t' !! h) = lend_count_of (handles t !! h) + e ->
  (forall l, l ∈ lenders cx' -> l ∈ lenders cx \/ is_Some (table_of_index s l)) ->
  accounted (set_scopes (tv_set (scopes s) k cx') (set_table n t' s)).
Proof.
  intros Ha Ht Hinv Hh Hk Hb Hbc Hp Hl Hls. pose proof (lookup_lt_Some _ _ _ Ht).
  rewrite <- set_table_scopes. set (s1 := set_scopes (tv_set (scopes s) k cx') s).
  assert (tables s1 !! n = Some t) as Ht1 by done. split.
  - rewrite tables_set_table by done. apply Forall_insert; [apply Ha|done].
  - intros k'. rewrite (borrows_set_table s1 n t t' k') by done.
    unfold s1 at 1. rewrite borrows_set_scopes, (acc_borrows [] s Ha), Hb.
    unfold borrow_count_at at 2. rewrite scopes_set_table.
    fold (borrow_count_at s1 k'). unfold s1.
    rewrite (borrow_count_set_context _ _ cx) by done.
    case_decide; [subst|lia]. unfold borrow_count_at. rewrite Hk. lia.
  - intros m h'. rewrite lends_set_table. unfold s1 at 1.
    rewrite (lends_set_context _ _ cx) by done. rewrite Hp. simpl.
    pose proof (acc_lends [] s Ha m h') as Hm. simpl in Hm.
    rewrite (slot_at_set_table s1 n t) by done.
    assert (slot_at s1 m h' = slot_at s m h') as -> by done.
    destruct (decide (n = m)) as [<-|]; [|rewrite decide_False by naive_solver; lia].
    rewrite (slot_at_table _ _ t) in Hm by done.
    destruct (decide (h' = h)) as [->|]; [rewrite decide_True by done; lia|].
    rewrite decide_False by naive_solver. rewrite Hh by done. lia.
  - intros c l. rewrite scopes_set_table, table_of_set_table.
    unfold s1. rewrite table_of_set_scopes. simpl.
    intros [->|Hc]%elem_of_zset Hcl; [|by eapply (acc_lenders [] s Ha)].
    destruct (Hls l Hcl) as [Hin|]; [|done].
    eapply (acc_lenders [] s Ha); [by eapply zget_elem_of|done].
  - intros l ?%elem_of_nil. done.
Qed.

(** A change of one table that leaves the borrows and the lends alone. *)
Lemma accounted_set_table s n t t' h :
  accounted s -> tables s !! n = Some t -> inv t' -> only h t t' ->
  (forall k, borrows_in k t' = borrows_in k t) ->
  lend_count_of (handles t' !! h) = lend_count_of (handles t !! h) ->
  accounted (set_table n t' s).
Proof.
  intros Ha Ht Hinv Hh Hb Hl. split.
  - rewrite tables_set_table by (by eapply lookup_lt_Some).
    apply Forall_insert; [apply Ha|done].
  - intros k. rewrite (borrows_set_table _ _ t) by done. rewrite Hb.
    rewrite (acc_borrows [] s Ha). unfold borrow_count_at.
    rewrite scopes_set_table. lia.
  - intros m h'. rewrite lends_set_table. simpl.
    pose proof (acc_lends [] s Ha m h') as Hm. simpl in Hm. rewrite Hm.
    rewrite (slot_at_set_table _ _ t) by done. case_decide; [|done]. subst m.
    rewrite (slot_at_table _ _ t) by done.
    destruct (decide (h' = h)) as [->|]; [done|]. by rewrite Hh.
  - intros cx l. rewrite scopes_set_table, table_of_set_table. apply Ha.
  - intros l ?%elem_of_nil. done.
Qed.

(** *** The table operations, as the accounting sees them *)

Lemma only_insert t t' h slot :
  handles t' = <[h := slot]> (handles t) -> only h t t'.
Proof. intros Hh h' Hne. rewrite Hh. by rewrite lookup_insert_ne. Qed.

Lemma only_delete t t' h : handles t' = delete h (handles t) -> only h t t'.
Proof. intros Hh h' Hne. rewrite Hh. by rewrite lookup_delete_ne. Qed.

Lemma borrows_in_insert k t t' h slot :
  handles t !! h = None -> handles t' = <[h := slot]> (handles t) ->
  borrows_in k t' = borrows_in k t + b2z (is_borrow_of k slot).
Proof. intros Hn Hh. unfold borrows_in. by rewrite Hh, count_map_insert. Qed.

Lemma borrows_in_delete k t t' h slot :
  handles t !! h = Some slot -> handles t' = delete h (handles t) ->
  borrows_in k t' = borrows_in k t - b2z (is_borrow_of k slot).
Proof.
  intros Hn Hh. unfold borrows_in.
  by rewrite Hh, (count_map_delete _ _ _ slot).
Qed.

Lemma borrows_in_own k t t' h r n n' :
  handles t !! h = Some (ResourceOwn r n) ->
  handles t' = <[h := ResourceOwn r n']> (handles t) ->
  borrows_in k t' = borrows_in k t.
Proof.
  intros Hn Hh. unfold borrows_in.
  rewrite Hh, (count_map_update _ _ _ (ResourceOwn r n)) by done. simpl. lia.
Qed.

Lemma on_table_Ret {A} n (m : M HandleTable Error A) s a s' :
  on_table n m s = Ret a s' ->
  exists t t', tables s !! n = Some t /\ m t = Ret a t' /\ s' = set_table n t' s.
Proof.
  unfold on_table, zoom. destruct (tables s !! n) as [t|]; [|done].
  destruct (m t) eqn:?; naive_solver.
Qed.

Lemma table_for_index_Ret i s n s' :
  table_for_index i s = Ret n s' -> s' = s /\ table_of_index s i = Some n.
Proof.
  unfold table_for_index, bind, get, unwrap.
  destruct (table_of_index s i); unfold ret, panic; naive_solver.
Qed.

Lemma table_for_resource_Ret r s n s' :
  table_for_resource r s = Ret n s' -> s' = s /\ table_of_resource s r = Some n.
Proof.
  unfold table_for_resource, bind, get, unwrap.
  destruct (table_of_resource s r); unfold ret, panic; naive_solver.
Qed.

Lemma call_context_Ret k s cx s' :
  call_context k s = Ret cx s' -> s' = s /\ zget (elems (scopes s)) k = Some cx.
Proof.
  unfold call_context, bind, get, unwrap.
  destruct (zget _ k); unfold ret, panic; naive_solver.
Qed.

Lemma current_scope_Ret s k s' :
  current_call_context_scope_id s = Ret k s' ->
  s' = s /\ k = zlen (elems (scopes s)) - 1 /\ 0 <= k.
Proof.
  unfold current_call_context_scope_id, bind, get, unwrap, ok_or. intros Hc.
  destruct (checked_sub _ 1) as [z|] eqn:Hs; [|done]. simpl in Hc.
  apply checked_sub_Some in Hs as [-> ?].
  destruct (try_from _ _) as [y|] eqn:Hy; [|done].
  apply try_from_Some in Hy as [-> ?]. unfold ret in Hc. naive_solver.
Qed.

Lemma own_insert_accounted s n r h s' :
  accounted s -> on_table n (resource_own_insert r) s = Ret h s' -> accounted s'.
Proof.
  intros Ha (t & t' & Ht & Hm & ->)%on_table_Ret.
  pose proof (acc_inv _ _ _ _ Ha Ht) as Hinv.
  pose proof (insert_spec t (ResourceOwn r 0) (proj1 Hinv) eq_refl) as Hi.
  pose proof (safe_insert (ResourceOwn r 0) eq_refl
    ltac:(simpl; unfold in_u32, u32_MAX; lia) t Hinv) as Hs.
  unfold resource_own_insert in Hm. rewrite Hm in Hi, Hs.
  destruct Hi as (_ & _ & _ & Hnone & Hh).
  apply (accounted_set_table s n t t' h); try done.
  - by eapply only_insert.
  - intros k. rewrite (borrows_in_insert _ _ _ _ _ Hnone Hh). simpl. lia.
  - by rewrite Hh, lookup_insert_eq, Hnone.
Qed.

(** What a successful removal did to its table. *)
Lemma remove_resource_Ret t i r t' :
  inv t -> remove_resource i t = Ret r t' ->
  exists slot, handles t !! raw_index i = Some slot /\ removable slot i = inl r
    /\ inv t' /\ handles t' = delete (raw_index i) (handles t).
Proof.
  intros [Hwf Hl] Hm. rewrite remove_resource_run in Hm.
  destruct (handles t !! raw_index i) as [slot|] eqn:Hh; [|done].
  destruct (removable slot i) as [x|] eqn:Hr; [|done].
  destruct (ht_remove_spec t _ slot Hwf Hh) as (t1 & Hrm & ? & Hd & _).
  rewrite Hrm in Hm. simplify_eq. exists slot. split_and!; try done.
  split; [done|]. rewrite Hd. by apply map_Forall_delete.
Qed.

Lemma removable_Own slot i rp :
  removable slot i = inl (Own rp) ->
  exists r, slot = ResourceOwn r 0 /\ rep r i = inl rp.
Proof.
  unfold removable. destruct slot; try done.
  - destruct (Z.eqb_spec lend_count 0) as [->|]; [|done].
    destruct (rep resource i) eqn:?; intros; simplify_eq; eauto.
  - by destruct (rep resource i).
Qed.

Lemma removable_Borrow slot i k :
  removable slot i = inl (Borrow k) -> exists r, slot = ResourceBorrow r k.
Proof.
  unfold removable. destruct slot; try done.
  - destruct (lend_count =? 0); [|done]. by destruct (rep resource i).
  - destruct (rep resource i) eqn:?; intros; simplify_eq; eauto.
Qed.

(** Every outcome of a removal: a refusal leaves the table alone, and a lent
    handle is refused as such. *)
Lemma remove_resource_total t i :
  inv t ->
  match remove_resource i t with
  | Ret r t' => exists slot, handles t !! raw_index i = Some slot
      /\ removable slot i = inl r /\ handles t' = delete (raw_index i) (handles t)
  | Fail e t' => t' = t
      /\ (lend_count_of (handles t !! raw_index i) <> 0 -> e = RemoveWhileBorrowed)
  | Panic => False
  end.
Proof.
  intros [Hwf _]. rewrite remove_resource_run.
  destruct (handles t !! raw_index i) as [slot|] eqn:Hh; [|done].
  destruct (removable slot i) as [r|e] eqn:Hr.
  - destruct (ht_remove_spec t _ slot Hwf Hh) as (t1 & -> & _ & Hd & _). eauto.
  - split; [done|]. destruct slot; simpl; try done. intros Hne. simpl in Hr.
    rewrite (proj2 (Z.eqb_neq _ _) Hne) in Hr. by injection Hr.
Qed.

Lemma remove_own_accounted s n i rp s' :
  accounted s -> on_table n (remove_resource i) s = Ret (Own rp) s' -> accounted s'.
Proof.
  intros Ha (t & t' & Ht & Hm & ->)%on_table_Ret.
  pose proof (acc_inv _ _ _ _ Ha Ht) as Hinv.
  destruct (remove_resource_Ret t i _ t' Hinv Hm) as (slot & Hh & Hr & Hinv' & Hd).
  destruct slot; simpl in Hr; try done;
    [|by destruct (rep resource i)].
  destruct (Z.eqb_spec lend_count 0) as [->|]; [|done].
  apply (accounted_set_table s n t t' (raw_index i)); try done.
  - by eapply only_delete.
  - intros k. rewrite (borrows_in_delete _ _ _ _ _ Hh Hd). simpl. lia.
  - by rewrite Hd, lookup_delete_eq, Hh.
Qed.

(** Dropping a borrow handle of scope [k] and counting it down. *)
Lemma remove_borrow_accounted s n i k s1 :
  accounted s -> on_table n (remove_resource i) s = Ret (Borrow k) s1 ->
  exists cx, zget (elems (scopes s1)) k = Some cx /\ 1 <= borrow_count cx
    /\ accounted (set_scopes (tv_set (scopes s1) k
          (mkCallContext (lenders cx) (borrow_count cx - 1))) s1).
Proof.
  intros Ha (t & t' & Ht & Hm & ->)%on_table_Ret.
  pose proof (acc_inv _ _ _ _ Ha Ht) as Hinv.
  destruct (remove_resource_Ret t i _ t' Hinv Hm) as (slot & Hh & Hr & Hinv' & Hd).
  destruct slot; simpl in Hr; try done.
  { destruct (lend_count =? 0); [|done]. by destruct (rep resource i). }
  destruct (rep resource i); [|done]. injection Hr as ->.
  assert (1 <= borrows s k) as Hb.
  { etransitivity; [|apply (total_le (borrows_in k) _ n t); [|done]].
    - eapply (count_map_pos _ _ _ _ Hh). simpl. apply Z.eqb_refl.
    - intros. apply count_map_nonneg. }
  rewrite (acc_borrows [] s Ha) in Hb. unfold borrow_count_at in Hb.
  rewrite scopes_set_table.
  destruct (zget (elems (scopes s)) k) as [cx|] eqn:Hk; [|lia].
  exists cx. split_and!; [done|done|].
  apply (accounted_update s n t t' (raw_index i) k cx _ (-1) 0); try done.
  - by eapply only_delete.
  - intros k'. rewrite (borrows_in_delete _ _ _ _ _ Hh Hd). simpl.
    destruct (Z.eqb_spec k k'); case_decide; simpl; lia.
  - intros m h'. simpl. case_decide; lia.
  - rewrite Hd, lookup_delete_eq, Hh. done.
  - simpl. auto.
Qed.

Lemma lend_own_accounted s n i rp s1 k cx :
  accounted s -> table_of_index s i = Some n ->
  on_table n (resource_lend i) s = Ret (rp, true) s1 ->
  zget (elems (scopes s1)) k = Some cx ->
  accounted (set_scopes (tv_set (scopes s1) k
    (mkCallContext (lenders cx ++ [i]) (borrow_count cx))) s1).
Proof.
  intros Ha Hn (t & t' & Ht & Hm & ->)%on_table_Ret. rewrite scopes_set_table.
  intros Hk. pose proof (acc_inv _ _ _ _ Ha Ht) as Hinv.
  rewrite resource_lend_run in Hm by apply Hinv.
  destruct (handles t !! raw_index i) as [[]|] eqn:Hh; try done;
    destruct (rep resource i); try done.
  crush_in Hm. pose proof (proj2 Hinv _ _ Hh) as Hok. simpl in Hok.
  destruct (set_slot_spec t _ _ (ResourceOwn resource (lend_count + 1))
    (proj1 Hinv) Hh eq_refl) as [_ Hi].
  apply (accounted_update s n t _ (raw_index i) k cx _ 0 1); try done.
  - eapply inv_set_slot; [done..|]. unfold slot_ok, in_u32 in *. lia.
  - by eapply only_insert.
  - intros k'. rewrite (borrows_in_own _ _ _ _ _ _ _ Hh Hi). case_decide; lia.
  - simpl. lia.
  - intros m h'. simpl. rewrite count_occ_app. simpl. unfold points_to at 2.
    rewrite Hn. case_bool_decide; case_decide; naive_solver lia.
  - rewrite Hi, lookup_insert_eq, Hh. done.
  - simpl. intros l [?|Hl]%elem_of_app; [by left|].
    apply list_elem_of_singleton in Hl as ->. right. eauto.
Qed.

Lemma lend_borrow_same s n i rp s1 :
  accounted s -> on_table n (resource_lend i) s = Ret (rp, false) s1 -> s1 = s.
Proof.
  intros Ha (t & t' & Ht & Hm & ->)%on_table_Ret.
  pose proof (acc_inv _ _ _ _ Ha Ht) as Hinv.
  rewrite resource_lend_run in Hm by apply Hinv.
  destruct (handles t !! raw_index i) as [[]|]; try done;
    destruct (rep resource i); try done; crush_in Hm; simplify_eq.
  by apply set_table_id.
Qed.

Lemma borrow_insert_accounted s n r k cx h s' :
  accounted s -> zget (elems (scopes s)) k = Some cx ->
  on_table n (resource_borrow_insert r k)
    (set_scopes (tv_set (scopes s) k
      (mkCallContext (lenders cx) (borrow_count cx + 1))) s) = Ret h s' ->
  accounted s'.
Proof.
  intros Ha Hk (t & t' & Ht & Hm & ->)%on_table_Ret.
  rewrite set_table_scopes. change (tables s !! n = Some t) in Ht.
  pose proof (acc_inv _ _ _ _ Ha Ht) as Hinv.
  pose proof (insert_spec t (ResourceBorrow r k) (proj1 Hinv) eq_refl) as Hi.
  pose proof (safe_insert (ResourceBorrow r k) eq_refl I t Hinv) as Hs.
  unfold resource_borrow_insert in Hm. rewrite Hm in Hi, Hs.
  destruct Hi as (_ & _ & _ & Hnone & Hh).
  apply (accounted_update s n t t' h k cx _ 1 0); try done.
  - by eapply only_insert.
  - intros k'. rewrite (borrows_in_insert _ _ _ _ _ Hnone Hh). simpl.
    destruct (Z.eqb_spec k k'); case_decide; simpl; lia.
  - intros m h'. simpl. case_decide; lia.
  - by rewrite Hh, lookup_insert_eq, Hnone.
  - simpl. auto.
Qed.

(** *** Leaving a scope *)

(** A pending lend points at an owned handle whose counter is not zero. *)
Lemma pending_own s l ls :
  accounted_but (l :: ls) s ->
  exists n t r c, table_of_index s l = Some n /\ tables s !! n = Some t
    /\ handles t !! raw_index l = Some (ResourceOwn r c) /\ 1 <= c.
Proof.
  intros Ha. destruct (acc_pending _ _ Ha l) as [n Hn]; [set_solver|].
  pose proof (table_of_index_valid _ _ _ Hn) as Hlt.
  destruct (tables s !! n) as [t|] eqn:Ht; [|by apply lookup_ge_None in Ht; lia].
  pose proof (acc_lends _ _ Ha n (raw_index l)) as Hc.
  rewrite (slot_at_table _ _ t) in Hc by done. simpl in Hc.
  assert (points_to s n (raw_index l) l = true) as Hp
    by (unfold points_to; by rewrite bool_decide_true).
  rewrite Hp in Hc.
  pose proof (proj1 (count_occ_bounds (points_to s n (raw_index l)) ls)).
  assert (0 <= lends s n (raw_index l))
    by (apply total_nonneg; intros; apply count_occ_bounds).
  destruct (handles t !! raw_index l) as [[]|] eqn:Hh; simpl in Hc; try lia.
  eexists _, _, _, _. split_and!; try done. lia.
Qed.

(** Counting that handle's lends down by one accounts for the pending lend. *)
Lemma accounted_undo s l ls n t r c :
  accounted_but (l :: ls) s -> table_of_index s l = Some n ->
  tables s !! n = Some t ->
  handles t !! raw_index l = Some (ResourceOwn r c) -> 1 <= c ->
  accounted_but ls
    (set_table n (set_slot (raw_index l) (ResourceOwn r (c - 1)) t) s).
Proof.
  intros Ha Hn Ht Hh Hc. pose proof (acc_inv _ _ _ _ Ha Ht) as Hinv.
  pose proof (proj2 Hinv _ _ Hh) as Hok. simpl in Hok. unfold in_u32 in Hok.
  destruct (set_slot_spec t _ _ (ResourceOwn r (c - 1)) (proj1 Hinv) Hh eq_refl)
    as [_ Hi]. split.
  - rewrite tables_set_table by (by eapply lookup_lt_Some).
    apply Forall_insert; [apply Ha|].
    eapply inv_set_slot; [done..|]. simpl. unfold in_u32. lia.
  - intros k. rewrite (borrows_set_table _ _ t) by done.
    rewrite (borrows_in_own _ _ _ _ _ _ _ Hh Hi), (acc_borrows _ _ Ha).
    unfold borrow_count_at. rewrite scopes_set_table. lia.
  - intros m h. rewrite lends_set_table.
    rewrite (count_occ_ext _ (points_to s m h))
      by (intros; apply points_to_ext, table_of_set_table).
    pose proof (acc_lends _ _ Ha m h) as Hm. simpl in Hm. unfold points_to at 1 in Hm.
    rewrite Hn in Hm. rewrite (slot_at_set_table _ _ t) by done. rewrite Hi.
    destruct (decide (n = m)) as [<-|]; cycle 1.
    { rewrite bool_decide_false in Hm by naive_solver. lia. }
    rewrite (slot_at_table _ _ t) in Hm by done.
    destruct (decide (raw_index l = h)) as [<-|].
    + rewrite bool_decide_true in Hm by done.
      rewrite Hh in Hm. rewrite lookup_insert_eq. simpl in *. lia.
    + rewrite bool_decide_false in Hm by naive_solver.
      rewrite lookup_insert_ne by done. lia.
  - intros cx l'. rewrite scopes_set_table, table_of_set_table. apply Ha.
  - intros l' Hl'. rewrite table_of_set_table. apply (acc_pending _ _ Ha). set_solver.
Qed.

(** Undoing one pending lend: it cannot fail and cannot underflow. *)
Lemma undo_one s l ls :
  accounted_but (l :: ls) s ->
  exists n s1, table_of_index s l = Some n
    /\ on_table n (resource_undo_lend l) s = Ret tt s1 /\ accounted_but ls s1
    /\ scopes s1 = scopes s
    /\ forall i, table_of_index s1 i = table_of_index s i.
Proof.
  intros Ha. destruct (pending_own s l ls Ha) as (n & t & r & c & Hn & Ht & Hh & Hc).
  exists n. eexists. split; [done|]. rewrite (on_table_run s n t) by done.
  rewrite resource_undo_lend_run, Hh, (proj2 (Z.leb_le _ _)) by lia.
  split; [done|]. split; [by eapply accounted_undo|].
  split; [apply scopes_set_table|]. intros. apply table_of_set_table.
Qed.

Lemma undo_lends_ok s ls :
  accounted_but ls s ->
  exists s', undo_lends ls s = Ret tt s' /\ accounted s' /\ scopes s' = scopes s
    /\ forall i, table_of_index s' i = table_of_index s i.
Proof.
  revert s. induction ls as [|l ls IH]; intros s Ha; [by eexists|].
  destruct (undo_one s l ls Ha) as (n & s1 & Hn & Hu & Ha1 & Hs & Ht).
  destruct (IH s1 Ha1) as (s' & Hs' & ? & ? & Ht'). exists s'.
  split; [|split_and!; [done|congruence|intros; by rewrite Ht', Ht]]. simpl. unfold bind, table_for_index, get.
  unfold bind at 1, or_else. rewrite Hn. simpl. by rewrite Hu.
Qed.

(** Taking the lenders out of the current scope. *)
Lemma take_lenders s k cx :
  accounted s -> zget (elems (scopes s)) k = Some cx ->
  accounted_but (lenders cx)
    (set_scopes (tv_set (scopes s) k (mkCallContext [] (borrow_count cx))) s).
Proof.
  intros Ha Hk. set (s1 := set_scopes _ s).
  assert (forall n h l, points_to s1 n h l = points_to s n h l) as Hp
    by (intros; apply points_to_ext, table_of_set_scopes).
  split; [apply Ha| | | |].
  - intros k'. unfold s1. rewrite borrows_set_scopes, (acc_borrows _ _ Ha).
    rewrite (borrow_count_set_context _ _ cx) by done. case_decide; [|done].
    subst. unfold borrow_count_at. by rewrite Hk.
  - intros n h. rewrite (count_occ_ext _ _ (lenders cx) (fun l _ => Hp n h l)).
    unfold s1. rewrite (lends_set_context _ _ cx) by done. simpl.
    pose proof (acc_lends _ _ Ha n h) as Hm. simpl in Hm.
    change (slot_at _ n h) with (slot_at s n h). lia.
  - intros c l. unfold s1. rewrite table_of_set_scopes. simpl.
    intros [->|Hc]%elem_of_zset; [by intros ?%elem_of_nil|].
    by apply (acc_lenders _ _ Ha).
  - intros l Hl. unfold s1. rewrite table_of_set_scopes.
    eapply (acc_lenders _ _ Ha); [by eapply zget_elem_of|done].
Qed.

Lemma lends_scopes_app s l l' c n h :
  elems (scopes s) = l ++ l' ->
  lends s n h = lends (set_scopes (mkTryVec l c) s) n h
    + total (fun cx => count_occ_slots (points_to s n h) (lenders cx)) l'.
Proof.
  intros He. unfold lends. by rewrite He, total_app.
Qed.

(** A context without borrows and lends at the top of the stack does not
    change the counts. *)
Lemma accounted_idle s l cx c c' :
  borrow_count cx = 0 -> lenders cx = [] ->
  accounted (set_scopes (mkTryVec (l ++ [cx]) c) s) <->
  accounted (set_scopes (mkTryVec l c') s).
Proof.
  intros Hb Hl. set (s1 := set_scopes (mkTryVec (l ++ [cx]) c) s).
  set (s2 := set_scopes (mkTryVec l c') s).
  assert (forall k, borrow_count_at s1 k = borrow_count_at s2 k) as Hbc.
  { intros k. unfold borrow_count_at. simpl. rewrite zget_snoc. case_decide; [|done].
    rewrite (proj2 (zget_None l k)) by lia. done. }
  assert (forall n h, lends s1 n h = lends s2 n h) as Hlends.
  { intros n h. rewrite (lends_scopes_app s1 l [cx] c') by done.
    change (set_scopes (mkTryVec l c') s1) with s2. simpl. rewrite Hl. simpl. lia. }
  split; intros [H1 H2 H3 H4 _]; split; try done; try (by intros i ?%elem_of_nil).
  - intros k. rewrite <- Hbc. apply H2.
  - intros n h. rewrite <- Hlends. apply H3.
  - intros cx' i Hcx. apply H4. set_solver.
  - intros k. rewrite Hbc. apply H2.
  - intros n h. rewrite Hlends. apply H3.
  - intros cx' i [Hcx|Hcx]%elem_of_app Hi; [by eapply H4|].
    apply list_elem_of_singleton in Hcx as ->. rewrite Hl in Hi.
    by apply elem_of_nil in Hi.
Qed.

Lemma set_scopes_same s : set_scopes (mkTryVec (elems (scopes s)) (capacity (scopes s))) s = s.
Proof. by destruct s as [? ? []]. Qed.

Lemma enter_accounted s s' : accounted s -> enter_call s = Ret tt s' -> accounted s'.
Proof.
  intros Ha. unfold enter_call, bind, get, put, ok_or.
  destruct (push (scopes s) CallContext_default) as [[es c]|] eqn:Hp; [|done].
  simpl. intros [= <-]. apply push_Some in Hp as [He _]. simpl in He. subst es.
  apply (accounted_idle s _ CallContext_default c (capacity (scopes s))); try done.
  by rewrite set_scopes_same.
Qed.

(** The two outcomes of leaving a scope: borrows remain and nothing changes,
    or every lend of the scope is undone. *)
Lemma validate_cases s cx :
  accounted s -> last (elems (scopes s)) = Some cx ->
  zlen (elems (scopes s)) - 1 <= u32_MAX ->
  (0 < borrow_count cx /\ validate_scope_exit s = Fail BorrowsRemain s)
  \/ (borrow_count cx = 0 /\ exists s',
      validate_scope_exit s = Ret tt s' /\ accounted s'
      /\ scopes s' = tv_set (scopes s) (zlen (elems (scopes s)) - 1)
                       (mkCallContext [] 0)
      /\ forall i, table_of_index s' i = table_of_index s i).
Proof.
  intros Ha Hlast Hmax. apply last_Some in Hlast as [l Hl].
  assert (zlen (elems (scopes s)) = zlen l + 1) as Hlen
    by (rewrite Hl, zlen_app; unfold zlen at 2; simpl; lia).
  pose proof (zlen_nonneg l).
  assert (zget (elems (scopes s)) (zlen (elems (scopes s)) - 1) = Some cx) as Hk.
  { rewrite Hlen, Hl, zget_snoc. rewrite decide_True by lia. done. }
  unfold validate_scope_exit, current_call_context_scope_id, call_context.
  unfold bind, get, unwrap, ok_or. unfold checked_sub.
  rewrite (proj2 (Z.leb_le 1 _)) by lia. simpl.
  rewrite try_from_in by lia. simpl. rewrite Hk. simpl.
  assert (0 <= borrow_count cx) as Hb.
  { pose proof (acc_borrows _ _ Ha (zlen (elems (scopes s)) - 1)) as Hb.
    unfold borrow_count_at in Hb. rewrite Hk in Hb. rewrite <- Hb.
    apply total_nonneg. intros. apply count_map_nonneg. }
  destruct (Z.ltb_spec 0 (borrow_count cx)); [by left|]. right.
  assert (borrow_count cx = 0) as Hz by lia. split; [done|]. rewrite Hz.
  destruct (undo_lends_ok _ _ (take_lenders s _ cx Ha Hk)) as (s' & Hs' & ? & Hsc & Ht).
  rewrite Hz in Hs'. exists s'. split_and!; [done|done|by rewrite Hsc, Hz|].
  intros i. by rewrite Ht, table_of_set_scopes.
Qed.

Lemma return_accounted s s1 s' :
  accounted s -> validate_scope_exit s = Ret tt s1 -> exit_call s1 = Ret tt s' ->
  accounted s'.
Proof.
  intros Ha Hv He. unfold exit_call, modify in He. injection He as <-.
  destruct (bind_Ret _ _ _ _ _ Hv) as (k & s0 & Hk & _).
  unfold current_call_context_scope_id, bind, get, unwrap, ok_or in Hk.
  destruct (checked_sub _ 1) as [z|] eqn:Hz; [|done].
  apply checked_sub_Some in Hz as [-> Hlen]. simpl in Hk.
  destruct (try_from _ _) as [y|] eqn:Hy; [|done].
  apply try_from_Some in Hy as [_ Hy].
  destruct (last (elems (scopes s))) as [cx|] eqn:Hlast.
  2: { apply last_None in Hlast. rewrite Hlast in Hlen. by vm_compute in Hlen. }
  destruct (validate_cases s cx Ha Hlast) as [[_ Hf]|(_ & s2 & Hs2 & Ha2 & Hsc & _)];
    [lia|congruence|].
  rewrite Hv in Hs2. injection Hs2 as <-.
  apply last_Some in Hlast as [l Hl].
  assert (elems (scopes s1) = l ++ [mkCallContext [] 0]) as He.
  { rewrite Hsc. simpl. rewrite Hl. unfold zset. rewrite zlen_app.
    unfold zlen. simpl. rewrite insert_app_r_alt by lia.
    by replace (_ - _)%nat with 0%nat by lia. }
  rewrite He, removelast_last.
  apply (accounted_idle s1 l (mkCallContext [] 0) (capacity (scopes s1))); try done.
  by rewrite <- He, set_scopes_same.
Qed.
End lemmas.

(** ** The state machine

    A run of a component: calls are entered and left, and in between the
    canonical-ABI intrinsics run.  An intrinsic that reports an error traps, so
    a run continues only after successes.  Leaving a call validates the scope
    first. *)

Inductive step `{Allocator} (s s' : ResourceTables) : Prop :=
| s_enter : enter_call s = Ret tt s' -> step s s'
| s_new r h : resource_new r s = Ret h s' -> step s s'
| s_rep i x : resource_rep_ i s = Ret x s' -> step s s'
| s_drop i x : resource_drop i s = Ret x s' -> step s s'
| s_lower_own r h : resource_lower_own r s = Ret h s' -> step s s'
| s_lift_own i x : resource_lift_own i s = Ret x s' -> step s s'
| s_lift_borrow i x : resource_lift_borrow i s = Ret x s' -> step s s'
| s_lower_borrow r h : resource_lower_borrow r s = Ret h s' -> step s s'
| s_return s1 : validate_scope_exit s = Ret tt s1 -> exit_call s1 = Ret tt s' ->
    step s s'.

(** A store before its first call: every table empty, no scope. *)
Definition initial (instances : nat) (types : list TypeResourceTable)
  : ResourceTables :=
  mkResourceTables (Some (replicate instances default, types)) default tv_new.

Section invariant.
Context `{Allocator}.
Implicit Types s : ResourceTables.

Lemma initial_accounted instances types : accounted (initial instances types).
Proof.
  assert (forall t, t ∈ tables (initial instances types) -> t = default) as Hd.
  { intros t. unfold tables. simpl. intros [->|Ht]%elem_of_cons; [done|].
    by apply elem_of_replicate in Ht as [-> _]. }
  split.
  - apply Forall_forall. intros t ->%Hd. apply inv_default.
  - intros k. unfold borrows, borrow_count_at.
    rewrite total_zero by (by intros t ->%Hd).
    unfold zget. simpl. by destruct (0 <=? k).
  - intros n h. unfold lends, slot_at. simpl.
    destruct (tables (initial instances types) !! n) as [t|] eqn:Ht; simpl; [|done].
    by apply list_elem_of_lookup_2, Hd in Ht as ->.
  - intros cx l ?%elem_of_nil. done.
  - intros l ?%elem_of_nil. done.
Qed.

Lemma rep_same s i x s' : accounted s -> resource_rep_ i s = Ret x s' -> s' = s.
Proof.
  intros Ha (n & s1 & [-> _]%table_for_index_Ret & Hm)%bind_Ret.
  apply on_table_Ret in Hm as (t & t' & Ht & Hm & ->).
  enough (t' = t) as -> by (by apply set_table_id).
  unfold resource_rep, bind in Hm. rewrite get_mut_run in Hm.
  destruct (handles t !! raw_index i) as [[]|]; try done;
    unfold try_ in Hm; destruct (rep _ _); unfold ret, fail in Hm; by simplify_eq.
Qed.

Lemma drop_accounted s i x s' :
  accounted s -> resource_drop i s = Ret x s' -> accounted s'.
Proof.
  intros Ha (n & s1 & [-> _]%table_for_index_Ret & Hm)%bind_Ret.
  apply bind_Ret in Hm as ([rp|k] & s2 & Hr & Hm).
  - unfold ret in Hm. simplify_eq. by eapply remove_own_accounted.
  - destruct (remove_borrow_accounted s n i k s2 Ha Hr) as (cx & Hcx & Hc & Hacc).
    apply bind_Ret in Hm as (cx' & s3 & [-> Hcx']%call_context_Ret & Hm).
    simplify_eq. unfold bind, unwrap, checked_sub in Hm.
    rewrite (proj2 (Z.leb_le _ _)) in Hm by lia. simpl in Hm.
    unfold ret in Hm. by simplify_eq.
Qed.

Lemma lift_own_accounted s i x s' :
  accounted s -> resource_lift_own i s = Ret x s' -> accounted s'.
Proof.
  intros Ha (n & s1 & [-> _]%table_for_index_Ret & Hm)%bind_Ret.
  apply bind_Ret in Hm as ([rp|k] & s2 & Hr & Hm); [|done].
  unfold ret in Hm. simplify_eq. by eapply remove_own_accounted.
Qed.

Lemma lift_borrow_accounted s i x s' :
  accounted s -> resource_lift_borrow i s = Ret x s' -> accounted s'.
Proof.
  intros Ha (n & s1 & [-> Hn]%table_for_index_Ret & Hm)%bind_Ret.
  apply bind_Ret in Hm as ([rp []] & s2 & Hr & Hm).
  - apply bind_Ret in Hm as (k & s3 & (-> & _)%current_scope_Ret & Hm).
    apply bind_Ret in Hm as (cx & s4 & [-> Hcx]%call_context_Ret & Hm).
    unfold bind, set_call_context, modify, ret in Hm. simplify_eq.
    by eapply lend_own_accounted.
  - unfold ret in Hm. simplify_eq. by rewrite (lend_borrow_same _ _ _ _ _ Ha Hr).
Qed.

Lemma lower_borrow_accounted s r h s' :
  accounted s -> resource_lower_borrow r s = Ret h s' -> accounted s'.
Proof.
  intros Ha (k & s1 & (-> & _)%current_scope_Ret & Hm)%bind_Ret.
  apply bind_Ret in Hm as (cx & s2 & [-> Hcx]%call_context_Ret & Hm).
  apply bind_Ret in Hm as (c & s3 & Hc & Hm). unfold unwrap in Hc.
  destruct (checked_add _ _ _) as [z|] eqn:Hz; [|done].
  apply checked_add_Some in Hz as [-> _]. unfold ret in Hc. simplify_eq.
  apply bind_Ret in Hm as (u & s4 & Hs & Hm).
  unfold set_call_context, modify in Hs. simplify_eq.
  apply bind_Ret in Hm as (n & s5 & [-> Hn]%table_for_resource_Ret & Hm).
  by eapply borrow_insert_accounted.
Qed.

Lemma step_accounted s s' : accounted s -> step s s' -> accounted s'.
Proof.
  intros Ha [Hs|r h Hs|i x Hs|i x Hs|r h Hs|i x Hs|i x Hs|r h Hs|s1 Hs He].
  - by eapply enter_accounted.
  - apply bind_Ret in Hs as (n & s1 & [-> _]%table_for_resource_Ret & Hm).
    by eapply own_insert_accounted.
  - by rewrite (rep_same _ _ _ _ Ha Hs).
  - by eapply drop_accounted.
  - apply bind_Ret in Hs as (n & s1 & [-> _]%table_for_resource_Ret & Hm).
    by eapply own_insert_accounted.
  - by eapply lift_own_accounted.
  - by eapply lift_borrow_accounted.
  - by eapply lower_borrow_accounted.
  - by eapply return_accounted.
Qed.

Lemma rtc_accounted s s' : accounted s -> rtc step s s' -> accounted s'.
Proof.
  intros Ha Hs. revert Ha. induction Hs as [|x y z Hxy _ IH]; [done|].
  intros Ha. apply IH. by eapply step_accounted.
Qed.
End invariant.

(** ** Properties *)

Section properties.
Context `{Allocator}.
Implicit Types s : ResourceTables.


(** C24. Leaving a scope never panics: the [unwrap] of each undone lend
    succeeds and no counter underflows.  It is refused, with nothing changed,
    exactly when a borrow handle of the scope remains in some table; otherwise
    the scope ends up empty and every owned handle is lent exactly as often as
    the other scopes lent it. *)
Theorem scope_exit_correct s cx :
  accounted s -> last (elems (scopes s)) = Some cx ->
  zlen (elems (scopes s)) - 1 <= u32_MAX ->
  let k := zlen (elems (scopes s)) - 1 in
  match validate_scope_exit s with
  | Ret _ s' => borrows s k = 0 /\ accounted s'
      /\ scopes s' = tv_set (scopes s) k (mkCallContext [] 0)
      /\ forall n h, lend_count_of (slot_at s' n h)
           = lend_count_of (slot_at s n h)
             - count_occ_slots (points_to s n h) (lenders cx)
  | Fail e s' => e = BorrowsRemain /\ 0 < borrows s k /\ s' = s
  | Panic => False
  end.
Proof.
  intros Ha Hlast Hmax k.
  assert (zget (elems (scopes s)) k = Some cx) as Hk.
  { apply last_Some in Hlast as [l Hl]. unfold k. rewrite Hl, zget_snoc, zlen_app.
    by rewrite decide_True by (unfold zlen at 2; simpl; lia). }
  assert (borrows s k = borrow_count cx) as Hb.
  { rewrite (acc_borrows _ _ Ha). unfold borrow_count_at. by rewrite Hk. }
  destruct (validate_cases s cx Ha Hlast Hmax) as [[? ->]|(Hz & s' & Hv & Ha' & Hs & Ht)].
  { split_and!; [done|lia|done]. }
  rewrite Hv. split_and!; [lia|done|done|]. intros n h.
  pose proof (acc_lends _ _ Ha n h) as H1. pose proof (acc_lends _ _ Ha' n h) as H2.
  simpl in H1, H2. rewrite <- H1, <- H2.
  pose proof (lends_set_context s k cx (mkCallContext [] 0) n h Hk) as H3.
  simpl in H3. assert (lends s' n h = lends (set_scopes (tv_set (scopes s) k
    (mkCallContext [] 0)) s) n h) as ->; [|lia].
  unfold lends. rewrite Hs. apply total_ext. intros c _. apply count_occ_ext.
  intros l _. apply points_to_ext. by rewrite table_of_set_scopes.
Qed.

(** Dropping a handle whose type names a table never panics, in
    particular the [borrow_count -= 1] cannot underflow.  A lent owned handle
    is refused; every refusal changes nothing.  An owned handle yields its
    representation only if nobody borrows it, a borrow handle settles one
    borrow of the scope that created it. *)
Theorem resource_drop_correct s i n :
  accounted s -> table_of_index s i = Some n ->
  match resource_drop i s with
  | Ret (Some rp) s' => accounted s' /\ slot_at s' n (raw_index i) = None
      /\ lends s n (raw_index i) = 0
      /\ exists r, slot_at s n (raw_index i) = Some (ResourceOwn r 0)
               /\ rep r i = inl rp
  | Ret None s' => accounted s' /\ slot_at s' n (raw_index i) = None
      /\ exists r k, slot_at s n (raw_index i) = Some (ResourceBorrow r k)
                 /\ borrow_count_at s' k = borrow_count_at s k - 1
  | Fail e s' => s' = s
      /\ (0 < lends s n (raw_index i) -> e = RemoveWhileBorrowed)
  | Panic => False
  end.
Proof.
  intros Ha Hn. pose proof (acc_lends _ _ Ha n (raw_index i)) as Hl. simpl in Hl.
  pose proof (table_of_index_valid _ _ _ Hn) as Hlt.
  destruct (tables s !! n) as [t|] eqn:Ht; [|by apply lookup_ge_None in Ht; lia].
  pose proof (acc_inv _ _ _ _ Ha Ht) as Hinv.
  rewrite (slot_at_table s n t) in * by done.
  assert (on_table n (remove_resource i) s = match remove_resource i t with
    | Ret a t' => Ret a (set_table n t' s) | Fail e t' => Fail e (set_table n t' s)
    | Panic => Panic end) as Hrun by by apply on_table_run.
  unfold resource_drop, bind, table_for_index, get. unfold bind at 1. rewrite Hn.
  simpl. pose proof (remove_resource_total t i Hinv) as Hr.
  destruct (remove_resource i t) as [[rp|k] t'|e t'|]; rewrite Hrun; [| | |done].
  - destruct Hr as (slot & Hs & Hrm & Hd). apply removable_Own in Hrm as (r & -> & Hrep).
    rewrite Hs in Hl |- *. simpl in *.
    rewrite (slot_at_set_table s n t), decide_True, Hd, lookup_delete_eq by done.
    split_and!; [by eapply remove_own_accounted|done|lia|eauto].
  - destruct Hr as (slot & Hs & Hrm & Hd). apply removable_Borrow in Hrm as (r & ->).
    destruct (remove_borrow_accounted s n i k _ Ha Hrun) as (cx & Hcx & Hc & Hacc).
    unfold call_context, bind, get. simpl. rewrite Hcx. simpl.
    unfold checked_sub. rewrite (proj2 (Z.leb_le _ _)) by lia. simpl.
    split; [done|]. rewrite Hs. rewrite scopes_set_table in Hcx.
    split; [|exists r, k; split; [done|]].
    + change (slot_at (set_table n t' s) n (raw_index i) = None).
      by rewrite (slot_at_set_table s n t), decide_True, Hd, lookup_delete_eq by done.
    + rewrite scopes_set_table. unfold borrow_count_at. simpl.
      rewrite zget_zset_eq, Hcx; [done|]. by eapply zget_lt.
  - destruct Hr as [-> He]. rewrite (set_table_id s n t) by done. split; [done|].
    intros ?. apply He. lia.
Qed.
End properties.

(** ** Witnesses

    One component of two instances; the guest type 0 lives in instance 1.  The
    host owns a resource and lends it to a guest in a call, the guest drops its
    borrow handle. *)

#[local] Instance small : Allocator := amortized 64.

Definition s0 : ResourceTables := initial 2 [Concrete 7 1].
Definition s1 : ResourceTables := after (resource_new (RHost 5)) s0.
Definition s2 : ResourceTables := after enter_call s1.
Definition s3 : ResourceTables := after (resource_lift_borrow (IHost 1)) s2.
Definition s4 : ResourceTables := after (resource_lower_borrow (RComponent 5 0)) s3.
Definition s5 : ResourceTables := after (resource_drop (IComponent 1 0)) s4.

Lemma s4_reachable : rtc step s0 s4.
Proof.
  apply (rtc_l _ _ s1); [apply (s_new _ _ (RHost 5) 1); by vm_compute|].
  apply (rtc_l _ _ s2); [apply s_enter; by vm_compute|].
  apply (rtc_l _ _ s3); [apply (s_lift_borrow _ _ (IHost 1) 5); by vm_compute|].
  apply rtc_once, (s_lower_borrow _ _ (RComponent 5 0) 1). by vm_compute.
Qed.

Lemma s4_accounted : accounted s4.
Proof.
  eapply rtc_accounted; [apply initial_accounted|apply s4_reachable].
Qed.

Lemma s5_accounted : accounted s5.
Proof.
  eapply step_accounted; [apply s4_accounted|]. apply (s_drop _ _ (IComponent 1 0) None). by vm_compute.
Qed.


(** With the borrow dropped the scope can be left and the lend is undone. *)
Lemma scope_exit_correct_witness :
  exists s', validate_scope_exit s5 = Ret tt s'
    /\ lend_count_of (slot_at s5 0 1) = 1 /\ lend_count_of (slot_at s' 0 1) = 0.
Proof.
  pose proof (scope_exit_correct s5 (mkCallContext [IHost 1] 0) s5_accounted
    ltac:(by vm_compute) ltac:(by vm_compute)) as H.
  destruct (validate_scope_exit s5) as [[] s'|e s'|] eqn:Hv; [|by vm_compute in Hv..].
  exists s'. split; [done|]. split; [by vm_compute|].
  destruct H as (_ & _ & _ & H). rewrite (H 0%nat 1). by vm_compute.
Defined.

(** The lent handle of the host cannot be dropped, the borrow handle can. *)
Lemma resource_drop_correct_witness :
  resource_drop (IHost 1) s4 = Fail RemoveWhileBorrowed s4
  /\ resource_drop (IComponent 1 0) s4 = Ret None s5.
Proof.
  pose proof (resource_drop_correct s4 (IHost 1) 0%nat s4_accounted eq_refl) as H.
  split; [|by vm_compute].
  destruct (resource_drop (IHost 1) s4) as [x s'|e s'|] eqn:Hv;
    [by vm_compute in Hv| |by vm_compute in Hv].
  destruct H as [-> He]. rewrite He; [done|by vm_compute].
Defined.
