(* ===== verification/ResourceTable.v ===== *)
(** * ResourceTable: the host's table of typed resources

    Models [ResourceTable] of
    crates/wasmtime/src/runtime/component/resource_table.rs: a vector of boxed,
    dynamically typed values with a free list of vacant indices, in which an
    entry can be the child of another one.  The specification is the finite map
    from index to entry; the invariant says that the parent and child links
    mirror each other, which is what the [expect]s of the code rely on.  One
    operation can break it, and the last theorem says how. *)

From S2P Require Import Prelude FreeChain BTree.

(** ** Data *)

Inductive ResourceTableError := Full | NotPresent | WrongType | HasChildren.

(** [Box<dyn Any>]: a value with the identity of its type, or the private
    tombstone type. *)
Inductive Any (V : Type) :=
| Boxed (type_id : Z) (value : V)
| Tombstone.
Arguments Boxed {V}.
Arguments Tombstone {V}.

Record TableEntry (V : Type) := mkTableEntry {
  entry : Any V;
  parent : option Z;
  children : gset Z;
}.
Arguments mkTableEntry {V}.
Arguments entry {V}.
Arguments parent {V}.
Arguments children {V}.

Inductive Entry (V : Type) :=
| Free (next : option Z)
| Occupied (e : TableEntry V).
Arguments Free {V}.
Arguments Occupied {V}.

Record ResourceTable (V : Type) := mkResourceTable {
  entries : list (Entry V);
  free_head : option Z;
  max_capacity : Z;
}.
Arguments mkResourceTable {V}.
Arguments entries {V}.
Arguments free_head {V}.
Arguments max_capacity {V}.

(** A [Resource<T>]: its index, and whether it owns the resource.  The type is
    an argument of the operations. *)
Record Resource := mkResource { res_rep : Z; owned : bool }.

Definition new_own (rep : Z) : Resource := mkResource rep true.

Definition DELETE_WITH_TOMBSTONE : bool := false.
Definition DEFAULT_MAX_CAPACITY : Z := 1000000.

(** ** Operations *)

Section operations.
Context {V : Type}.
Abbreviation TM := (M (ResourceTable V) ResourceTableError).

(** [downcast], [downcast_ref] and [downcast_mut] at the type [ty]. *)
Definition downcast (ty : Z) (a : Any V) : option V :=
  match a with
  | Boxed ty' v => if ty' =? ty then Some v else None
  | Tombstone => None
  end.

Definition Entry_occupied (e : Entry V) : option (TableEntry V) :=
  match e with Occupied e => Some e | Free _ => None end.

Definition TableEntry_new (a : Any V) (p : option Z) : TableEntry V :=
  mkTableEntry a p ∅.

(** The [debug_assert!]s are kept: a violated one panics. *)
Definition TableEntry_add_child (child : Z) (e : TableEntry V)
  : option (TableEntry V) :=
  if decide (child ∈ children e) then None
  else Some (mkTableEntry (entry e) (parent e) ({[child]} ∪ children e)).

Definition TableEntry_remove_child (child : Z) (e : TableEntry V)
  : option (TableEntry V) :=
  if decide (child ∈ children e)
  then Some (mkTableEntry (entry e) (parent e) (children e ∖ {[child]}))
  else None.

Definition with_capacity (capacity : Z) : ResourceTable V :=
  mkResourceTable [] None DEFAULT_MAX_CAPACITY.

Definition new : ResourceTable V := with_capacity 0.

Definition is_empty (t : ResourceTable V) : bool :=
  forallb (fun e => match e with
                    | Free _ => true
                    | Occupied e => match entry e with Tombstone => true | _ => false end
                    end) (entries t).

Definition set_max_capacity (max : Z) (t : ResourceTable V) : ResourceTable V :=
  mkResourceTable (entries t) (free_head t) max.

Definition set_entry (ix : Z) (e : Entry V) (t : ResourceTable V) : ResourceTable V :=
  mkResourceTable (zset (entries t) ix e) (free_head t) (max_capacity t).

Definition set_free_head (h : option Z) (t : ResourceTable V) : ResourceTable V :=
  mkResourceTable (entries t) h (max_capacity t).

Definition pop_free_list : TM (option Z) :=
  t <- get ;;
  match free_head t with
  | Some ix =>
      e <- unwrap (zget (entries t) ix) ;;
      match e with
      | Free next => put (set_free_head next t) ;;; ret (Some ix)
      | Occupied _ => panic
      end
  | None => ret None
  end.

Definition free_entry (ix : Z) (debug : bool) : TM (TableEntry V) :=
  t <- get ;;
  e <- unwrap (zget (entries t) ix) ;;
  match e with
  | Free _ => panic
  | Occupied e =>
      (if debug
       then put (set_entry ix (Occupied (TableEntry_new Tombstone None)) t)
       else put (set_free_head (Some ix) (set_entry ix (Free (free_head t)) t))) ;;;
      ret e
  end.

Definition push_ (e : TableEntry V) : TM Z :=
  free <- pop_free_list ;;
  match free with
  | Some ix =>
      modify (set_entry ix (Occupied e)) ;;; unwrap (try_from u32_MAX ix)
  | None =>
      t <- get ;;
      if max_capacity t <=? zlen (entries t) then fail Full
      else
        ix <- ok_or (try_from u32_MAX (zlen (entries t))) Full ;;
        put (mkResourceTable (entries t ++ [Occupied e]) (free_head t)
               (max_capacity t)) ;;;
        ret ix
  end.

(** [occupied] and [occupied_mut]; the second hands out a reference, which the
    caller writes back with [set_entry]. *)
Definition occupied_at (t : ResourceTable V) (key : Z) : option (TableEntry V) :=
  zget (entries t) key ≫= Entry_occupied.

Definition occupied (key : Z) : TM (TableEntry V) :=
  t <- get ;; ok_or (occupied_at t key) NotPresent.

Definition push (ty : Z) (v : V) : TM Resource :=
  idx <- push_ (TableEntry_new (Boxed ty v) None) ;; ret (new_own idx).

Definition push_child (ty : Z) (v : V) (p : Resource) : TM Resource :=
  occupied (res_rep p) ;;;
  child <- push_ (TableEntry_new (Boxed ty v) (Some (res_rep p))) ;;
  pe <- occupied (res_rep p) ;;
  pe' <- unwrap (TableEntry_add_child child pe) ;;
  modify (set_entry (res_rep p) (Occupied pe')) ;;;
  ret (new_own child).

Definition add_child (child p : Resource) : TM unit :=
  e <- occupied (res_rep child) ;;
  rust_assert (match parent e with None => true | Some _ => false end) ;;;
  modify (set_entry (res_rep child)
    (Occupied (mkTableEntry (entry e) (Some (res_rep p)) (children e)))) ;;;
  pe <- occupied (res_rep p) ;;
  pe' <- unwrap (TableEntry_add_child (res_rep child) pe) ;;
  modify (set_entry (res_rep p) (Occupied pe')).

Definition remove_child (child p : Resource) : TM unit :=
  e <- occupied (res_rep child) ;;
  rust_assert (bool_decide (parent e = Some (res_rep p))) ;;;
  modify (set_entry (res_rep child)
    (Occupied (mkTableEntry (entry e) None (children e)))) ;;;
  pe <- occupied (res_rep p) ;;
  pe' <- unwrap (TableEntry_remove_child (res_rep child) pe) ;;
  modify (set_entry (res_rep p) (Occupied pe')).

Definition get_any (key : Z) : TM (Any V) :=
  r <- occupied key ;; ret (entry r).

Definition get_at (ty : Z) (key : Resource) : TM V :=
  a <- get_any (res_rep key) ;; ok_or (downcast ty a) WrongType.

(** [get_mut], with the value [v] its caller stores through the reference. *)
Definition set_at (ty : Z) (key : Resource) (v : V) : TM unit :=
  r <- occupied (res_rep key) ;;
  _ <- ok_or (downcast ty (entry r)) WrongType ;;
  modify (set_entry (res_rep key)
    (Occupied (mkTableEntry (Boxed ty v) (parent r) (children r)))).

Definition delete_entry (key : Z) (debug : bool) : TM (TableEntry V) :=
  e0 <- occupied key ;;
  (if decide (children e0 = ∅) then ret tt else fail HasChildren) ;;;
  e <- free_entry key debug ;;
  match parent e with
  | Some p =>
      pe <- or_else (occupied p) (fun _ => panic) ;;
      pe' <- unwrap (TableEntry_remove_child key pe) ;;
      modify (set_entry p (Occupied pe')) ;;;
      ret e
  | None => ret e
  end.

Definition delete_maybe_debug (ty : Z) (r : Resource) (debug : bool) : TM V :=
  rust_assert (owned r) ;;;
  e <- delete_entry (res_rep r) debug ;;
  ok_or (downcast ty (entry e)) WrongType.

Definition delete_resource (ty : Z) (r : Resource) : TM V :=
  delete_maybe_debug ty r DELETE_WITH_TOMBSTONE.

(** [iter_entries]: for each key of a map, in order, the entry or the error. *)
Definition iter_entries {T} (keys : list (Z * T)) (t : ResourceTable V)
  : list ((Any V + ResourceTableError) * T) :=
  (fun '(k, v) =>
     (match occupied_at t k with Some e => inl (entry e) | None => inr NotPresent end,
      v)) <$> keys.

(** [iter_children]; consuming the iterator panics at a missing child. *)
Definition iter_children (p : Resource) : TM (list (Any V)) :=
  pe <- occupied (res_rep p) ;;
  t <- get ;;
  unwrap (mapM (fun c => entry <$> occupied_at t c) (sorted_elements (children pe))).

Definition iter_mut (t : ResourceTable V) : list (Any V) :=
  omap (fun e => match e with Occupied e => Some (entry e) | Free _ => None end)
    (entries t).
End operations.

(** ** The invariant and the abstract state *)

Section invariant.
Context {V : Type}.
Implicit Types (t : ResourceTable V) (es : list (Entry V)) (m : gmap Z (TableEntry V)).

Definition live t : gmap Z (TableEntry V) := contents Entry_occupied (entries t).

Definition link_at es (i : Z) : option (option Z) :=
  match zget es i with Some (Free n) => Some n | _ => None end.

Record wf_list t : Prop := {
  wl_size : zlen (entries t) <= u32_MAX + 1;
  wl_free : exists l, chain id (link_at (entries t)) (free_head t) l
              /\ forall i, is_Some (link_at (entries t) i) -> i ∈ l;
}.

Definition par m (c : Z) : option Z := m !! c ≫= parent.
Definition kids m (p : Z) : gset Z := from_option children ∅ (m !! p).

(** Parents and children mirror each other: an entry's parent is live and lists
    it, and every listed child is live and points back. *)
Definition family m : Prop := forall c p, par m c = Some p <-> c ∈ kids m p.

Definition wf t : Prop := wf_list t /\ family (live t).
End invariant.

Section lemmas.
Context {V : Type}.
Implicit Types (t : ResourceTable V) (es : list (Entry V)) (m : gmap Z (TableEntry V)).

(** *** Families *)

Lemma par_insert m i e c : par (<[i := e]> m) c = if decide (i = c) then parent e else par m c.
Proof. unfold par. rewrite lookup_insert. by case_decide. Qed.

Lemma kids_insert m i e p :
  kids (<[i := e]> m) p = if decide (i = p) then children e else kids m p.
Proof. unfold kids. rewrite lookup_insert. by case_decide. Qed.

Lemma par_delete m i c : par (delete i m) c = if decide (i = c) then None else par m c.
Proof. unfold par. rewrite lookup_delete. by case_decide. Qed.

Lemma kids_delete m i p : kids (delete i m) p = if decide (i = p) then ∅ else kids m p.
Proof. unfold kids. rewrite lookup_delete. by case_decide. Qed.

Lemma par_live m c p : family m -> par m c = Some p -> is_Some (m !! p).
Proof.
  intros Hf Hc%Hf. unfold kids in Hc. destruct (m !! p); [eauto|]. set_solver.
Qed.

Lemma kids_live m c p : family m -> c ∈ kids m p ->
  exists ce, m !! c = Some ce /\ parent ce = Some p.
Proof.
  intros Hf Hc%Hf. unfold par in Hc. destruct (m !! c); simpl in Hc; [eauto|done].
Qed.

(** An entry without relatives may come, go, or change its value. *)
Lemma family_orphan m i e :
  family m -> par m i = None -> kids m i = ∅ -> parent e = None -> children e = ∅ ->
  family (<[i := e]> m).
Proof.
  intros Hf Hp Hk Hpe Hke c p. rewrite par_insert, kids_insert, Hpe, Hke.
  pose proof (Hf c p). repeat case_decide; subst; set_solver.
Qed.

Lemma family_same m i e e' :
  family m -> m !! i = Some e -> parent e' = parent e -> children e' = children e ->
  family (<[i := e']> m).
Proof.
  intros Hf Hi Hpe Hke c p. rewrite par_insert, kids_insert.
  pose proof (Hf c p) as Hcp. unfold par, kids in *.
  repeat case_decide; subst; rewrite ?Hi in *; simpl in *; congruence.
Qed.

Lemma family_remove m i :
  family m -> par m i = None -> kids m i = ∅ -> family (delete i m).
Proof.
  intros Hf Hp Hk c p. rewrite par_delete, kids_delete.
  pose proof (Hf c p). repeat case_decide; subst; set_solver.
Qed.

(** Linking child [c] to parent [p], as the code does it: first the child's
    entry, then the parent's, read again since they may be the same. *)
Lemma family_link m c ce' p pe pe' :
  family m -> par m c = None ->
  parent ce' = Some p -> children ce' = kids m c ->
  <[c := ce']> m !! p = Some pe ->
  parent pe' = parent pe -> children pe' = {[c]} ∪ children pe ->
  family (<[p := pe']> (<[c := ce']> m)).
Proof.
  intros Hf Hn Hp Hk Hpe Hpp Hkk i j.
  assert (parent pe = par (<[c := ce']> m) p) as H1 by (unfold par; by rewrite Hpe).
  assert (children pe = kids (<[c := ce']> m) p) as H2 by (unfold kids; by rewrite Hpe).
  rewrite !par_insert, !kids_insert, Hpp, Hkk, H1, H2, par_insert, kids_insert, Hp, Hk.
  pose proof (Hf i j). repeat case_decide; subst; set_solver.
Qed.

(** Unlinking them. *)
Lemma family_unlink m c ce' p pe pe' :
  family m -> par m c = Some p ->
  parent ce' = None -> children ce' = kids m c ->
  <[c := ce']> m !! p = Some pe ->
  parent pe' = parent pe -> children pe' = children pe ∖ {[c]} ->
  family (<[p := pe']> (<[c := ce']> m)).
Proof.
  intros Hf Hn Hp Hk Hpe Hpp Hkk i j.
  assert (parent pe = par (<[c := ce']> m) p) as H1 by (unfold par; by rewrite Hpe).
  assert (children pe = kids (<[c := ce']> m) p) as H2 by (unfold kids; by rewrite Hpe).
  rewrite !par_insert, !kids_insert, Hpp, Hkk, H1, H2, par_insert, kids_insert, Hp, Hk.
  pose proof (Hf i j). repeat case_decide; subst; set_solver.
Qed.

(** *** The vector and its free list *)

Lemma entry_link_zset es i e j :
  0 <= i < zlen es ->
  link_at (zset es i e) j
  = if decide (i = j) then match e with Free n => Some n | _ => None end
    else link_at es j.
Proof.
  intros. unfold link_at. rewrite zget_zset by done. case_decide; [|done].
  by destruct e.
Qed.

Lemma live_lookup t key : live t !! key = occupied_at t key.
Proof. unfold live. by rewrite lookup_contents. Qed.

Lemma live_Some t key e : live t !! key = Some e <-> zget (entries t) key = Some (Occupied e).
Proof.
  rewrite live_lookup. unfold occupied_at.
  destruct (zget (entries t) key) as [[|]|]; simpl; naive_solver.
Qed.

Lemma occupied_run t key :
  occupied key t
  = match live t !! key with Some e => Ret e t | None => Fail NotPresent t end.
Proof.
  unfold occupied, bind, get. rewrite live_lookup. by destruct (occupied_at t key).
Qed.

(** Writing through [occupied_mut]. *)
Lemma set_occupied t i e0 e :
  wf_list t -> live t !! i = Some e0 ->
  wf_list (set_entry i (Occupied e) t)
  /\ live (set_entry i (Occupied e) t) = <[i := e]> (live t).
Proof.
  intros [Hs (l & Hc & Hall)] Hi%live_Some. pose proof (zget_lt _ _ _ Hi) as Hr.
  assert (forall j, link_at (zset (entries t) i (Occupied e)) j = link_at (entries t) j)
    as Hlk.
  { intros j. rewrite entry_link_zset by done. case_decide; [|done]. subst.
    unfold link_at. by rewrite Hi. }
  split; [split; simpl|].
  - by rewrite zlen_zset.
  - exists l. split; [by eapply chain_frame_next|]. intros j. rewrite Hlk. apply Hall.
  - unfold live. simpl. by apply contents_zset_Some.
Qed.

(** What [push_] promises. *)
Definition pushed t (e : TableEntry V) ix t' : Prop :=
  0 <= ix <= u32_MAX /\ live t !! ix = None /\ wf_list t'
  /\ live t' = <[ix := e]> (live t) /\ max_capacity t' = max_capacity t.

Lemma push_reuse t e ix n l :
  wf_list t -> chain id (link_at (entries t)) n l -> ix ∉ l ->
  (forall i, is_Some (link_at (entries t) i) -> i ∈ ix :: l) ->
  zget (entries t) ix = Some (Free n) ->
  pushed t e ix (set_entry ix (Occupied e) (set_free_head n t)).
Proof.
  intros [Hs _] Hc Hni Hall Hz. pose proof (zget_lt _ _ _ Hz) as Hr.
  split; [unfold u32_MAX in *; lia|]. split.
  { rewrite live_lookup. unfold occupied_at. by rewrite Hz. }
  split; [split; simpl|split; [|done]].
  - by rewrite zlen_zset.
  - exists l. split.
    + eapply chain_frame_next; [done|]. intros j Hj.
      rewrite entry_link_zset by done. case_decide; [by subst|done].
    + intros j. rewrite entry_link_zset by done. case_decide; [by intros []|].
      intros Hj%Hall. set_solver.
  - unfold live. simpl. by apply contents_zset_Some.
Qed.

Lemma push_extend t e :
  wf_list t -> free_head t = None -> zlen (entries t) <= u32_MAX ->
  pushed t e (zlen (entries t))
    (mkResourceTable (entries t ++ [Occupied e]) (free_head t) (max_capacity t)).
Proof.
  intros [Hs (l & Hc & Hall)] Hf Hmax. pose proof (zlen_nonneg (entries t)).
  split; [done|]. split.
  { rewrite live_lookup. unfold occupied_at. by rewrite (proj2 (zget_None _ _)) by lia. }
  split; [split; simpl|split; [|done]].
  - rewrite zlen_app, zlen_cons. unfold zlen in *. simpl. lia.
  - exists l. split.
    + apply chain_end in Hc as ->; [|by rewrite Hf]. constructor. by rewrite Hf.
    + intros j. unfold link_at at 1. rewrite zget_snoc.
      case_decide; [by intros []|]. apply Hall.
  - unfold live. simpl. by apply (contents_from_snoc_Some _ _ 0).
Qed.

Lemma push_spec t e :
  wf_list t ->
  match push_ e t with
  | Ret ix t' => pushed t e ix t'
  | Fail err t' => err = Full /\ t' = t
      /\ (forall i, 0 <= i < Z.min (max_capacity t) (u32_MAX + 1) -> is_Some (live t !! i))
  | Panic => False
  end.
Proof.
  intros Hwf. pose proof Hwf as [Hs (l & Hc & Hall)].
  unfold push_, pop_free_list. unfold bind, get, put, modify, ok_or, unwrap, ret, fail.
  destruct (free_head t) as [ix|] eqn:Hf.
  - destruct (chain_head _ _ _ _ ix Hc) as (n & l' & -> & Hn & Hc' & Hni); [done|].
    unfold link_at in Hn. destruct (zget (entries t) ix) as [[n'|]|] eqn:Hz; try done.
    injection Hn as ->. pose proof (zget_lt _ _ _ Hz) as Hr.
    rewrite try_from_in by (unfold u32_MAX in *; lia). by eapply push_reuse.
  - apply chain_end in Hc as ->; [|done].
    assert (forall i, 0 <= i < zlen (entries t) -> is_Some (live t !! i)) as Hfull.
    { intros i Hi%zget_is_Some. destruct Hi as [[n|x] Hz].
      - assert (i ∈ []) as ?%elem_of_nil; [|done]. apply Hall. unfold link_at.
        rewrite Hz. eauto.
      - exists x. by apply live_Some. }
    destruct (Z.leb_spec (max_capacity t) (zlen (entries t))).
    { split_and!; [done|done|]. intros i ?. apply Hfull. lia. }
    destruct (try_from u32_MAX (zlen (entries t))) as [ix|] eqn:Ht.
    + apply try_from_Some in Ht as [-> ?].
      apply push_extend; [done|done|lia].
    + split_and!; [done|done|]. intros i ?. apply Hfull.
      destruct (decide (zlen (entries t) <= u32_MAX)); [|lia].
      rewrite try_from_in in Ht; [done|]. pose proof (zlen_nonneg (entries t)). lia.
Qed.

(** Vacating an entry, or leaving a tombstone in it. *)
Definition vacated (debug : bool) (ix : Z) m : gmap Z (TableEntry V) :=
  if debug then <[ix := TableEntry_new Tombstone None]> m else delete ix m.

Lemma free_entry_spec t ix e debug :
  wf_list t -> live t !! ix = Some e ->
  exists t', free_entry ix debug t = Ret e t' /\ wf_list t'
    /\ live t' = vacated debug ix (live t) /\ max_capacity t' = max_capacity t.
Proof.
  intros Hwf Hl. pose proof Hl as Hz%live_Some. pose proof (zget_lt _ _ _ Hz) as Hr.
  unfold free_entry, bind, get. rewrite Hz. simpl. destruct debug; eexists.
  - destruct (set_occupied t ix e (TableEntry_new Tombstone None) Hwf Hl). done.
  - split; [done|]. destruct Hwf as [Hs (l & Hc & Hall)].
    assert (ix ∉ l) as Hni.
    { intros [n Hn]%(chain_vacant _ _ _ _ _ Hc). unfold link_at in Hn. by rewrite Hz in Hn. }
    split; [split; simpl|split; [|done]].
    + by rewrite zlen_zset.
    + exists (ix :: l). split.
      * eapply (chain_cons _ _ _ ix (free_head t)); [done| |].
        { rewrite entry_link_zset by done. by rewrite decide_True. }
        eapply chain_frame_next; [done|]. intros j Hj.
        rewrite entry_link_zset by done. case_decide; [by subst|done].
      * intros j. rewrite entry_link_zset by done. case_decide; [set_solver|].
        intros ?%Hall. set_solver.
    + unfold live. simpl. by apply contents_zset_None.
Qed.

(** *** The operations *)

Definition unlisted (key : Z) (pe : TableEntry V) : TableEntry V :=
  mkTableEntry (entry pe) (parent pe) (children pe ∖ {[key]}).

(** The table's map after the entry [e] at [key] is deleted. *)
Definition deleted (debug : bool) (key : Z) (e : TableEntry V) m
  : gmap Z (TableEntry V) :=
  let m' := vacated debug key m in
  match parent e with Some p => alter (unlisted key) p m' | None => m' end.

Lemma family_deleted m debug key e :
  family m -> m !! key = Some e -> children e = ∅ -> family (deleted debug key e m).
Proof.
  intros Hf He Hk. unfold deleted.
  assert (kids m key = ∅) as Hkk by (unfold kids; by rewrite He).
  destruct (parent e) as [p|] eqn:Hp.
  - assert (par m key = Some p) as Hpar by (unfold par; rewrite He; done).
    destruct (par_live _ _ _ Hf Hpar) as [pe Hpe].
    assert (p <> key).
    { intros ->. apply Hf in Hpar. set_solver. }
    assert (family (<[p := unlisted key pe]> (<[key := TableEntry_new Tombstone None]> m)))
      as Hu.
    { eapply (family_unlink m key _ p pe); try done. by rewrite lookup_insert_ne. }
    destruct debug; simpl.
    + rewrite (alter_Some _ _ _ pe); [done|]. by rewrite lookup_insert_ne.
    + rewrite (alter_Some _ _ _ pe) by (by rewrite lookup_delete_ne).
      apply (family_remove _ key) in Hu.
      * by rewrite delete_insert_ne, delete_insert_eq in Hu by done.
      * by rewrite par_insert, par_insert, decide_False, decide_True.
      * by rewrite kids_insert, kids_insert, decide_False, decide_True.
  - assert (par m key = None) as Hpar by (unfold par; by rewrite He).
    destruct debug; [by apply family_orphan|by apply family_remove].
Qed.

Lemma delete_entry_spec t key debug :
  wf t ->
  match live t !! key with
  | None => delete_entry key debug t = Fail NotPresent t
  | Some e =>
      if decide (children e = ∅)
      then exists t', delete_entry key debug t = Ret e t' /\ wf t'
             /\ live t' = deleted debug key e (live t)
             /\ max_capacity t' = max_capacity t
      else delete_entry key debug t = Fail HasChildren t
  end.
Proof.
  intros [Hwf Hf]. unfold delete_entry, bind. rewrite occupied_run.
  destruct (live t !! key) as [e|] eqn:He; [|done]. case_decide as Hk; [|done].
  destruct (free_entry_spec t key e debug Hwf He) as (t1 & Hr & Hwf1 & Hl1 & Hm1).
  pose proof (family_deleted _ debug _ _ Hf He Hk) as Hfd. simpl. rewrite Hr.
  unfold deleted in *. destruct (parent e) as [p|] eqn:Hp.
  - assert (par (live t) key = Some p) as Hpar by (unfold par; rewrite He; done).
    destruct (par_live _ _ _ Hf Hpar) as [pe Hpe].
    assert (key ∈ children pe) as Hin.
    { apply Hf in Hpar. unfold kids in Hpar. by rewrite Hpe in Hpar. }
    assert (p <> key) by (intros ->; set_solver).
    assert (live t1 !! p = Some pe) as Hpe1.
    { rewrite Hl1. unfold vacated. destruct debug;
        [by rewrite lookup_insert_ne|by rewrite lookup_delete_ne]. }
    unfold or_else. rewrite occupied_run, Hpe1. simpl.
    unfold TableEntry_remove_child. rewrite decide_True by done. simpl.
    rewrite <- Hl1, (alter_Some _ _ _ pe) in * by done.
    destruct (set_occupied t1 p pe (unlisted key pe) Hwf1 Hpe1) as [? Hl2].
    exists (set_entry p (Occupied (unlisted key pe)) t1). split; [done|].
    unfold wf. rewrite Hl2. done.
  - exists t1. unfold wf. rewrite Hl1. done.
Qed.

Lemma push_wf t e : wf t -> parent e = None -> children e = ∅ ->
  forall ix t', push_ e t = Ret ix t' -> wf t'.
Proof.
  intros [Hwf Hf] Hp Hk ix t' Ht. pose proof (push_spec t e Hwf) as Hs.
  rewrite Ht in Hs. destruct Hs as (_ & Hn & Hwf' & Hl & _). split; [done|].
  rewrite Hl. apply family_orphan; try done; unfold par, kids; by rewrite Hn.
Qed.

(** The entry of a parent that lists one more child. *)
Definition listed (key : Z) (pe : TableEntry V) : TableEntry V :=
  mkTableEntry (entry pe) (parent pe) ({[key]} ∪ children pe).

Definition with_parent (p : option Z) (e : TableEntry V) : TableEntry V :=
  mkTableEntry (entry e) p (children e).

Lemma push_child_spec t ty v p :
  wf t ->
  match push_child ty v p t with
  | Ret r t' => wf t' /\ owned r = true /\ live t !! res_rep r = None
      /\ res_rep r <> res_rep p
      /\ live t' = alter (listed (res_rep r)) (res_rep p)
           (<[res_rep r := mkTableEntry (Boxed ty v) (Some (res_rep p)) ∅]> (live t))
  | Fail e t' => t' = t
      /\ (e = NotPresent /\ live t !! res_rep p = None
          \/ e = Full /\ is_Some (live t !! res_rep p))
  | Panic => False
  end.
Proof.
  intros [Hwf Hf]. unfold push_child, bind. rewrite occupied_run.
  destruct (live t !! res_rep p) as [pe|] eqn:Hp; [|naive_solver].
  set (ce := TableEntry_new (Boxed ty v) (Some (res_rep p))).
  pose proof (push_spec t ce Hwf) as Hs. destruct (push_ ce t) as [ix t1|e t1|];
    [|naive_solver|done].
  destruct Hs as (_ & Hn & Hwf1 & Hl & _).
  assert (ix <> res_rep p) by congruence.
  assert (live t1 !! res_rep p = Some pe) as Hp1 by (by rewrite Hl, lookup_insert_ne).
  rewrite occupied_run, Hp1. unfold TableEntry_add_child.
  assert (ix ∉ children pe) as Hni.
  { intros Hin. destruct (kids_live (live t) ix (res_rep p) Hf) as (? & ? & _);
      [unfold kids; by rewrite Hp|congruence]. }
  rewrite decide_False by done. simpl.
  destruct (set_occupied t1 _ pe (listed ix pe) Hwf1 Hp1) as [Hwf2 Hl2].
  change (set_entry _ _ t1) with (set_entry (res_rep p) (Occupied (listed ix pe)) t1).
  unfold wf. rewrite Hl2, Hl, (alter_Some _ _ _ pe) by (by rewrite lookup_insert_ne).
  split_and!; try done.
  eapply (family_link _ _ ce _ pe); try done; [unfold par; by rewrite Hn
    |unfold kids; by rewrite Hn|by rewrite <- Hl].
Qed.

Lemma wf_two t i e p pe :
  wf_list t -> is_Some (live t !! i) -> is_Some (<[i := e]> (live t) !! p) ->
  family (<[p := pe]> (<[i := e]> (live t))) ->
  wf (set_entry p (Occupied pe) (set_entry i (Occupied e) t))
  /\ live (set_entry p (Occupied pe) (set_entry i (Occupied e) t))
     = <[p := pe]> (<[i := e]> (live t)).
Proof.
  intros Hwf [e0 Hi] [pe0 Hp] Hf.
  destruct (set_occupied t i e0 e Hwf Hi) as [Hwf1 Hl1]. rewrite <- Hl1 in Hp.
  destruct (set_occupied _ p pe0 pe Hwf1 Hp) as [Hwf2 Hl2].
  unfold wf. rewrite Hl2, Hl1. done.
Qed.

Lemma insert_live m i p e :
  is_Some (m !! i) -> is_Some (<[i := e]> m !! p) <-> is_Some (m !! p).
Proof.
  intros Hi. rewrite lookup_insert_is_Some'. split; [intros [<-|]; done|auto].
Qed.

(** A parentless entry is in nobody's list. *)
Lemma not_listed m c p ce pe :
  family m -> par m c = None -> children ce = kids m c ->
  <[c := ce]> m !! p = Some pe -> c ∉ children pe.
Proof.
  intros Hf Hn Hk Hp Hin. assert (c ∈ kids m p) as Hc.
  { rewrite lookup_insert in Hp. case_decide; simplify_eq; [by rewrite <- Hk|].
    unfold kids. by rewrite Hp. }
  apply Hf in Hc. congruence.
Qed.

(** Adding a child: the four cases, of which the last leaves a dangling
    parent. *)
Lemma add_child_spec t c p :
  wf t ->
  match live t !! res_rep c with
  | None => add_child c p t = Fail NotPresent t
  | Some ce =>
      match parent ce with
      | Some _ => add_child c p t = Panic
      | None =>
          let ce' := with_parent (Some (res_rep p)) ce in
          if decide (is_Some (live t !! res_rep p))
          then exists t', add_child c p t = Ret tt t' /\ wf t'
            /\ live t' = alter (listed (res_rep c)) (res_rep p)
                           (<[res_rep c := ce']> (live t))
          else add_child c p t
               = Fail NotPresent (set_entry (res_rep c) (Occupied ce') t)
      end
  end.
Proof.
  intros [Hwf Hf]. unfold add_child, bind. rewrite occupied_run.
  destruct (live t !! res_rep c) as [ce|] eqn:Hc; [|done].
  destruct (parent ce) eqn:Hpar; [done|].
  set (ce' := with_parent (Some (res_rep p)) ce). simpl.
  fold ce'. change (mkTableEntry (entry ce) (Some (res_rep p)) (children ce)) with ce'.
  destruct (set_occupied t _ _ ce' Hwf Hc) as [Hwf1 Hl1].
  pose proof (insert_live (live t) _ (res_rep p) ce' ltac:(eauto)) as Hiff.
  rewrite occupied_run, Hl1.
  destruct (<[res_rep c := ce']> (live t) !! res_rep p) as [pe|] eqn:Hp; cycle 1.
  { rewrite decide_False; [done|]. intros []%Hiff. done. }
  rewrite decide_True by (apply Hiff; eauto).
  rewrite (alter_Some _ _ _ pe) by done. unfold TableEntry_add_child.
  assert (par (live t) (res_rep c) = None) as Hn by (unfold par; by rewrite Hc).
  assert (children ce' = kids (live t) (res_rep c)) as Hk by (unfold kids; by rewrite Hc).
  rewrite decide_False by (by apply (not_listed _ _ _ _ _ Hf Hn Hk Hp)).
  destruct (wf_two t (res_rep c) ce' (res_rep p) (listed (res_rep c) pe)) as [? Hl2];
    [done|eauto|eauto| |eexists; split; [reflexivity|done]].
  by apply (family_link _ _ ce' _ pe).
Qed.

Lemma remove_child_spec t c p :
  wf t ->
  match live t !! res_rep c with
  | None => remove_child c p t = Fail NotPresent t
  | Some ce =>
      if decide (parent ce = Some (res_rep p))
      then exists t', remove_child c p t = Ret tt t' /\ wf t'
        /\ live t' = alter (unlisted (res_rep c)) (res_rep p)
                       (<[res_rep c := with_parent None ce]> (live t))
      else remove_child c p t = Panic
  end.
Proof.
  intros [Hwf Hf]. unfold remove_child, bind. rewrite occupied_run.
  destruct (live t !! res_rep c) as [ce|] eqn:Hc; [|done].
  case_decide as Hpar; [|by rewrite bool_decide_false].
  rewrite bool_decide_true by done. simpl.
  set (ce' := with_parent None ce).
  change (mkTableEntry (entry ce) None (children ce)) with ce'.
  destruct (set_occupied t _ _ ce' Hwf Hc) as [Hwf1 Hl1].
  assert (par (live t) (res_rep c) = Some (res_rep p)) as Hn
    by (unfold par; by rewrite Hc).
  assert (is_Some (<[res_rep c := ce']> (live t) !! res_rep p)) as [pe Hp].
  { apply insert_live; [eauto|]. by eapply par_live. }
  rewrite occupied_run, Hl1, Hp. rewrite (alter_Some _ _ _ pe) by done.
  unfold TableEntry_remove_child. rewrite decide_True; cycle 1.
  { apply Hf in Hn. rewrite lookup_insert in Hp. unfold kids in Hn.
    case_decide as Hcp; simplify_eq; [|by rewrite Hp in Hn].
    rewrite <- Hcp, Hc in Hn. done. }
  destruct (wf_two t (res_rep c) ce' (res_rep p) (unlisted (res_rep c) pe)) as [? Hl2];
    [done|eauto|eauto| |eexists; split; [reflexivity|done]].
  eapply (family_unlink _ _ ce' _ pe); try done. unfold kids. by rewrite Hc.
Qed.

Lemma set_at_spec t ty key v t' :
  wf t -> set_at ty key v t = Ret tt t' ->
  wf t' /\ exists e, live t !! res_rep key = Some e /\ is_Some (downcast ty (entry e))
    /\ live t' = <[res_rep key := mkTableEntry (Boxed ty v) (parent e) (children e)]> (live t).
Proof.
  intros [Hwf Hf]. unfold set_at, bind. rewrite occupied_run.
  destruct (live t !! res_rep key) as [e|] eqn:He; [|done].
  destruct (downcast ty (entry e)) as [x|] eqn:Hd; [|done]. simpl. intros [= <-].
  destruct (set_occupied t _ _ (mkTableEntry (Boxed ty v) (parent e) (children e)) Hwf He)
    as [? Hl]. split; [|exists e; split; [done|]; split; [by rewrite Hd; eauto|done]].
  split; [done|]. rewrite Hl. by eapply family_same.
Qed.
End lemmas.

(** ** The state machine

    Every operation with every outcome that leaves the table in use, except the
    one that breaks the invariant: adding a child to a parent that is not
    there. *)

Inductive step {V} (t t' : ResourceTable V) : Prop :=
| s_push ty v r : push ty v t = Ret r t' -> step t t'
| s_push_fail ty v e : push ty v t = Fail e t' -> step t t'
| s_push_child ty v p r : push_child ty v p t = Ret r t' -> step t t'
| s_push_child_fail ty v p e : push_child ty v p t = Fail e t' -> step t t'
| s_add_child c p : add_child c p t = Ret tt t' -> step t t'
| s_remove_child c p : remove_child c p t = Ret tt t' -> step t t'
| s_remove_child_fail c p e : remove_child c p t = Fail e t' -> step t t'
| s_set ty key v : set_at ty key v t = Ret tt t' -> step t t'
| s_delete ty r debug v : delete_maybe_debug ty r debug t = Ret v t' -> step t t'
| s_delete_fail ty r debug e : delete_maybe_debug ty r debug t = Fail e t' -> step t t'
| s_max max : t' = set_max_capacity max t -> step t t'.

Section machine.
Context {V : Type}.
Implicit Types t : ResourceTable V.

Lemma wf_with_capacity n : wf (with_capacity (V := V) n).
Proof.
  assert (forall i, link_at (V := V) [] i = None) as Hn
    by (intros i; unfold link_at, zget; by destruct (0 <=? i)).
  split; [split; simpl; [by vm_compute|]|].
  - exists []. split; [by constructor|]. intros i. rewrite Hn. by intros [].
  - intros c p. change (live (with_capacity n)) with (∅ : gmap Z (TableEntry V)).
    unfold par, kids. rewrite !lookup_empty. simpl. set_solver.
Qed.

Lemma push_wf_run t ty v :
  wf t ->
  match push ty v t with Ret _ t' | Fail _ t' => wf t' | Panic => False end.
Proof.
  intros Hwf. set (e := TableEntry_new (Boxed ty v) None).
  pose proof (push_spec t e (proj1 Hwf)) as Hs.
  pose proof (push_wf t e Hwf eq_refl eq_refl) as Hw.
  unfold push, bind. fold e. destruct (push_ e t) as [ix t'|err t'|]; simpl; [by eapply Hw| |done].
  by destruct Hs as (_ & -> & _).
Qed.

Lemma delete_wf t ty r debug :
  wf t ->
  match delete_maybe_debug ty r debug t with
  | Ret _ t' | Fail _ t' => wf t'
  | Panic => owned r = false
  end.
Proof.
  intros Hwf. unfold delete_maybe_debug, bind. destruct (owned r); [simpl|done].
  pose proof (delete_entry_spec t (res_rep r) debug Hwf) as Hd.
  destruct (live t !! res_rep r) as [e|]; [|by rewrite Hd].
  case_decide; [|by rewrite Hd]. destruct Hd as (t' & -> & ? & _).
  by destruct (downcast ty (entry e)).
Qed.

Lemma remove_child_wf t c p :
  wf t -> match remove_child c p t with Ret _ t' | Fail _ t' => wf t' | Panic => True end.
Proof.
  intros Hwf. pose proof (remove_child_spec t c p Hwf) as Hr.
  destruct (live t !! res_rep c) as [ce|]; [|by rewrite Hr].
  case_decide; [destruct Hr as (? & -> & ? & _); done|by rewrite Hr].
Qed.

Lemma add_child_wf t c p t' : wf t -> add_child c p t = Ret tt t' -> wf t'.
Proof.
  intros Hwf Ha. pose proof (add_child_spec t c p Hwf) as Hr. rewrite Ha in Hr.
  destruct (live t !! res_rep c) as [ce|]; [|done].
  destruct (parent ce); [done|]. simpl in Hr. case_decide; [|done].
  destruct Hr as (? & [= ->] & ? & _). done.
Qed.

Lemma step_wf t t' : wf t -> step t t' -> wf t'.
Proof.
  intros Hwf [ty v r Hs|ty v e Hs|ty v p r Hs|ty v p e Hs|c p Hs|c p Hs|c p e Hs
    |ty k v Hs|ty r d v Hs|ty r d e Hs|max ->].
  - pose proof (push_wf_run t ty v Hwf) as Hp. by rewrite Hs in Hp.
  - pose proof (push_wf_run t ty v Hwf) as Hp. by rewrite Hs in Hp.
  - pose proof (push_child_spec t ty v p Hwf) as Hp. rewrite Hs in Hp. apply Hp.
  - pose proof (push_child_spec t ty v p Hwf) as Hp. rewrite Hs in Hp.
    by destruct Hp as [-> _].
  - by eapply add_child_wf.
  - pose proof (remove_child_wf t c p Hwf) as Hp. by rewrite Hs in Hp.
  - pose proof (remove_child_wf t c p Hwf) as Hp. by rewrite Hs in Hp.
  - by apply (set_at_spec t ty k v).
  - pose proof (delete_wf t ty r d Hwf) as Hp. by rewrite Hs in Hp.
  - pose proof (delete_wf t ty r d Hwf) as Hp. by rewrite Hs in Hp.
  - by destruct Hwf as [[? ?] ?].
Qed.

Lemma rtc_wf t t' : wf t -> rtc step t t' -> wf t'.
Proof.
  intros Hwf Hs. revert Hwf. induction Hs as [|x y z Hxy _ IH]; [done|].
  intros Hx. apply IH. by eapply step_wf.
Qed.
End machine.

(** ** Properties *)

Section properties.
Context {V : Type}.
Implicit Types t : ResourceTable V.

(** Every table the API can build keeps the documented invariants: the
    free list visits each vacant index once, every parent is present and lists
    its child, and every listed child is present and points back.  The one
    excluded step is adding a child to an absent parent. *)
Theorem resource_table_reachable_wf t capacity :
  rtc step (with_capacity capacity) t -> wf t.
Proof. intros Hs. eapply rtc_wf; [apply wf_with_capacity|done]. Qed.

(** Deleting an owned resource never panics: the [expect] on the
    parent succeeds.  An absent index and an entry with children are refused
    with the table unchanged; otherwise the entry goes, its parent forgets it
    and nothing else changes, also when the type turns out to be wrong. *)
Theorem resource_table_delete_correct t ty r debug :
  wf t -> owned r = true ->
  match live t !! res_rep r with
  | None => delete_maybe_debug ty r debug t = Fail NotPresent t
  | Some e =>
      if decide (children e = ∅)
      then exists t', wf t' /\ live t' = deleted debug (res_rep r) e (live t)
             /\ delete_maybe_debug ty r debug t
                = match downcast ty (entry e) with
                  | Some v => Ret v t'
                  | None => Fail WrongType t'
                  end
      else delete_maybe_debug ty r debug t = Fail HasChildren t
  end.
Proof.
  intros Hwf Ho. unfold delete_maybe_debug, bind. rewrite Ho. simpl.
  pose proof (delete_entry_spec t (res_rep r) debug Hwf) as Hd.
  destruct (live t !! res_rep r) as [e|]; [|by rewrite Hd].
  case_decide; [|by rewrite Hd]. destruct Hd as (t' & -> & ? & ? & _).
  exists t'. split_and!; [done|done|]. by destruct (downcast ty (entry e)).
Qed.

(** Inserting a child never panics.  It succeeds with a fresh index
    that points to the parent and that the parent lists, everything else
    unchanged; it fails with the table unchanged when the parent is absent or
    the table is full. *)
Theorem resource_table_push_child_correct t ty v p :
  wf t ->
  match push_child ty v p t with
  | Ret r t' => wf t' /\ owned r = true /\ live t !! res_rep r = None
      /\ res_rep r <> res_rep p
      /\ live t' = alter (listed (res_rep r)) (res_rep p)
           (<[res_rep r := mkTableEntry (Boxed ty v) (Some (res_rep p)) ∅]> (live t))
  | Fail e t' => t' = t
      /\ (e = NotPresent /\ live t !! res_rep p = None
          \/ e = Full /\ is_Some (live t !! res_rep p))
  | Panic => False
  end.
Proof. apply push_child_spec. Qed.

(** The children of a present entry can always be iterated: exactly
    the values of the entries whose parent it is, in increasing order of
    index. *)
Theorem resource_table_iter_children_correct t p pe :
  wf t -> live t !! res_rep p = Some pe ->
  exists ks vs, iter_children p t = Ret vs t
    /\ StronglySorted Z.le ks /\ NoDup ks
    /\ (forall k, k ∈ ks <-> par (live t) k = Some (res_rep p))
    /\ Forall2 (fun k v => exists e, live t !! k = Some e /\ entry e = v) ks vs.
Proof.
  intros [Hwf Hf] Hp. unfold iter_children, bind. rewrite occupied_run, Hp.
  unfold get, unwrap. set (ks := sorted_elements (children pe)).
  assert (forall k, k ∈ ks <-> par (live t) k = Some (res_rep p)) as Hks.
  { intros k. unfold ks. rewrite elem_of_sorted_elements, (Hf k (res_rep p)). unfold kids.
    by rewrite Hp. }
  assert (exists vs, mapM (fun c => entry <$> occupied_at t c) ks = Some vs) as [vs Hvs].
  { apply mapM_is_Some_2, Forall_forall. intros k Hk%Hks.
    simpl. rewrite <- live_lookup. unfold par in Hk. destruct (live t !! k); [|done]. simpl. eauto. }
  exists ks, vs. rewrite Hvs. split_and!; [done| | |done|].
  - apply sorted_elements_sorted.
  - apply sorted_elements_NoDup.
  - apply mapM_Some in Hvs. eapply Forall2_impl; [done|]. intros k v. simpl.
    rewrite <- live_lookup. destruct (live t !! k) as [e|]; [|done].
    simpl. intros [= <-]. eauto.
Qed.

(** Adding a present, parentless entry to an absent parent
    reports [NotPresent] but has already recorded the parent, so deleting the
    entry afterwards panics ("missing parent"). *)
Theorem resource_table_add_child_dangling t c p ce ty debug :
  wf t -> live t !! res_rep c = Some ce -> parent ce = None -> children ce = ∅ ->
  owned c = true -> live t !! res_rep p = None ->
  exists t', add_child c p t = Fail NotPresent t'
    /\ delete_maybe_debug ty c debug t' = Panic.
Proof.
  intros Hwf Hc Hpar Hk Ho Hp. pose proof (add_child_spec t c p Hwf) as Ha.
  rewrite Hc, Hpar in Ha. simpl in Ha.
  rewrite decide_False in Ha by (rewrite Hp; by intros []).
  eexists. split; [done|]. set (ce' := with_parent _ ce).
  destruct (set_occupied t _ _ ce' (proj1 Hwf) Hc) as [Hwf1 Hl1].
  set (t1 := set_entry _ _ t) in *.
  assert (res_rep p <> res_rep c) by congruence.
  assert (live t1 !! res_rep c = Some ce') as Hc1 by (by rewrite Hl1, lookup_insert_eq).
  destruct (free_entry_spec t1 _ _ debug Hwf1 Hc1) as (t2 & Hf2 & _ & Hl2 & _).
  unfold delete_maybe_debug, delete_entry, bind. rewrite Ho. simpl.
  rewrite occupied_run, Hc1. rewrite decide_True by done. simpl. rewrite Hf2. simpl.
  unfold or_else. rewrite occupied_run, Hl2, Hl1. unfold vacated.
  by destruct debug; rewrite ?lookup_delete_ne, ?lookup_insert_ne, Hp by done.
Qed.
End properties.

(** ** Witnesses

    A parent with a child at indices 0 and 1, and an unrelated entry at 2. *)

Definition t0 : ResourceTable Z := new.
Definition t1 : ResourceTable Z := after (push 10 100) t0.
Definition t2 : ResourceTable Z := after (push_child 11 101 (new_own 0)) t1.
Definition t3 : ResourceTable Z := after (push 10 102) t2.

Lemma t3_reachable : rtc step t0 t3.
Proof.
  apply (rtc_l _ _ t1); [apply (s_push _ _ 10 100 (new_own 0)); by vm_compute|].
  apply (rtc_l _ _ t2);
    [apply (s_push_child _ _ 11 101 (new_own 0) (new_own 1)); by vm_compute|].
  apply rtc_once, (s_push _ _ 10 102 (new_own 2)). by vm_compute.
Qed.

Lemma t3_wf : wf t3.
Proof. eapply rtc_wf; [apply (wf_with_capacity 0)|apply t3_reachable]. Qed.

Lemma resource_table_reachable_wf_witness : wf t3.
Proof. apply (resource_table_reachable_wf t3 0). exact t3_reachable. Defined.

(** The parent cannot be deleted before its child; the child can. *)
Lemma resource_table_delete_correct_witness :
  delete_maybe_debug 10 (new_own 0) false t3 = Fail HasChildren t3
  /\ exists t', delete_maybe_debug 11 (new_own 1) false t3 = Ret 101 t'
       /\ children <$> live t' !! 0 = Some ∅.
Proof.
  split.
  - exact (resource_table_delete_correct t3 10 (new_own 0) false t3_wf eq_refl).
  - destruct (resource_table_delete_correct t3 11 (new_own 1) false t3_wf eq_refl)
      as (t' & _ & Hl & Hr). exists t'. split; [exact Hr|]. rewrite Hl. by vm_compute.
Defined.

Lemma resource_table_push_child_correct_witness :
  exists t', push_child 12 103 (new_own 0) t3 = Ret (new_own 3) t' /\ wf t'.
Proof.
  pose proof (resource_table_push_child_correct t3 12 103 (new_own 0) t3_wf) as H.
  destruct (push_child 12 103 (new_own 0) t3) as [r t'|e t'|] eqn:Hp;
    [|by vm_compute in Hp..].
  exists t'. split; [|apply H]. f_equal. vm_compute in Hp. by injection Hp.
Defined.

Lemma resource_table_iter_children_correct_witness :
  exists (ks : list Z) (vs : list (Any Z)), iter_children (new_own 0) t3 = Ret vs t3 /\ 1 ∈ ks.
Proof.
  destruct (resource_table_iter_children_correct t3 (new_own 0)
    (mkTableEntry (Boxed 10 100) None {[1]}) t3_wf) as (ks & vs & Hi & _ & _ & Hk & _);
    [by vm_compute|].
  exists ks, vs. split; [exact Hi|]. apply Hk. by vm_compute.
Defined.

Lemma resource_table_add_child_dangling_witness :
  exists t', add_child (new_own 2) (new_own 7) t3 = Fail NotPresent t'
    /\ delete_maybe_debug 10 (new_own 2) false t' = Panic.
Proof.
  apply (resource_table_add_child_dangling t3 (new_own 2) (new_own 7)
    (mkTableEntry (Boxed 10 102) None ∅)); [exact t3_wf|by vm_compute..].
Defined.
