(* ===== verification/FreeList.v ===== *)
(** * FreeList: the allocator of the GC heap

    Models crates/wasmtime/src/runtime/vm/gc/enabled/free_list.rs: a bump region
    backed by free blocks, indexed both by address and by length, that are
    merged when they touch.  The specification is the set of free addresses:
    allocation takes a range out of it, deallocation and growth put ranges in.
    The debug assertions and, under [gc_zeal], the integrity check are part of
    the model, so that the theorems show them to hold. *)

From S2P Require Import Prelude BTree.

(** ** Data *)

Record FreeList := mkFreeList {
  capacity : Z;
  index_to_len : gmap Z Z;
  len_to_indices : gmap Z (gset Z);
  bump_ptr : Z;
  bump_end : Z;
}.

Definition ALIGN : Z := 16.

Abbreviation FM := (M FreeList Empty_set).

Definition set_capacity (c : Z) (s : FreeList) : FreeList :=
  mkFreeList c (index_to_len s) (len_to_indices s) (bump_ptr s) (bump_end s).
Definition set_blocks (m : gmap Z Z) (s : FreeList) : FreeList :=
  mkFreeList (capacity s) m (len_to_indices s) (bump_ptr s) (bump_end s).
Definition set_buckets (b : gmap Z (gset Z)) (s : FreeList) : FreeList :=
  mkFreeList (capacity s) (index_to_len s) b (bump_ptr s) (bump_end s).
Definition set_bump (p e : Z) (s : FreeList) : FreeList :=
  mkFreeList (capacity s) (index_to_len s) (len_to_indices s) p e.

(** ** Arithmetic *)

(** Bitwise complement at the width of [max]. *)
Definition bit_not (max x : Z) : Z := max - x.

Definition round_u32_down_to_pow2 (value divisor : Z) : Z :=
  Z.land value (bit_not u32_MAX (divisor - 1)).
Definition round_usize_down_to_pow2 (value divisor : Z) : Z :=
  Z.land value (bit_not usize_MAX (divisor - 1)).

Definition aligned_size (size : Z) : option Z :=
  n ← checked_add u32_MAX size ALIGN;
  Some (Z.land (n - 1) (bit_not u32_MAX (ALIGN - 1))).

(** [+] and [-] on [u32]. *)
Definition add32 (a b : Z) : FM Z := unwrap (checked_add u32_MAX a b).
Definition sub32 (a b : Z) : FM Z := unwrap (checked_sub a b).

Definition blocks_are_contiguous (prev_index prev_len next_index : Z) : FM bool :=
  end_of_prev <- add32 prev_index prev_len ;;
  rust_assert (end_of_prev <=? next_index) ;;;
  delta_to_next <- sub32 next_index end_of_prev ;;
  ret (delta_to_next <? ALIGN).

(** ** The integrity check *)

Definition in_bucket (b : gmap Z (gset Z)) (len index : Z) : bool :=
  match b !! len with Some ixs => bool_decide (index ∈ ixs) | None => false end.

(** The loop over the blocks, in order of their index. *)
Fixpoint check_blocks (s : FreeList) (prev_end : option Z) (l : list (Z * Z)) : bool :=
  match l with
  | [] => true
  | (index, len) :: l =>
      match checked_add u32_MAX index len with
      | None => false
      | Some e =>
          (e <=? capacity s)
          && match prev_end with Some p => p <? index | None => true end
          && (index mod ALIGN =? 0) && (len mod ALIGN =? 0)
          && in_bucket (len_to_indices s) len index
          && check_blocks s (Some e) l
      end
  end.

Definition check_buckets (s : FreeList) : bool :=
  forallb (fun '(len, ixs) =>
             bool_decide (ixs <> ∅)
             && forallb (fun i => bool_decide (index_to_len s !! i = Some len))
                  (sorted_elements ixs))
    (sorted_entries (len_to_indices s)).

Definition check_bump (s : FreeList) : bool :=
  (bump_ptr s <=? bump_end s) && negb (bump_ptr s =? 0) && negb (bump_end s =? 0)
  && (if bump_ptr s <? bump_end s
      then (bump_ptr s mod ALIGN =? 0) && (bump_end s mod ALIGN =? 0)
           && (bump_end s <=? capacity s)
           && forallb (fun '(index, len) =>
                         (bump_end s <=? index) || (index + len <=? bump_ptr s))
                (sorted_entries (index_to_len s))
      else true).

(** ** Operations *)

Section operations.
(** Whether the crate is built with [cfg(gc_zeal)]. *)
Context (gc_zeal : bool).

Definition check_integrity : FM unit :=
  s <- get ;;
  rust_assert (negb gc_zeal
    || check_blocks s None (sorted_entries (index_to_len s))
       && check_buckets s && check_bump s).

Definition new (cap : Z) : outcome FreeList Empty_set unit :=
  let start := ALIGN in
  let s := mkFreeList cap ∅ ∅ start start in
  let e := match try_from u32_MAX cap with Some e => e | None => u32_MAX end in
  let len := round_u32_down_to_pow2 (saturating_sub e start) ALIGN in
  check_integrity (if ALIGN <=? len then set_bump start (start + len) s else s).

Definition remove_from_block_len_to_index (block_index block_len : Z) : FM unit :=
  s <- get ;;
  ixs <- unwrap (len_to_indices s !! block_len) ;;
  rust_assert (bool_decide (block_index ∈ ixs)) ;;;
  let ixs' := ixs ∖ {[block_index]} in
  put (set_buckets (if decide (ixs' = ∅) then delete block_len (len_to_indices s)
                    else <[block_len := ixs']> (len_to_indices s)) s).

(** [free_block_len_to_indices.entry(len).or_default().insert(index)]. *)
Definition add_to_block_len_to_index (len index : Z) : FM unit :=
  modify (fun s => set_buckets
    (<[len := {[index]} ∪ default ∅ (len_to_indices s !! len)]> (len_to_indices s)) s).

Definition insert_block (index len : Z) : FM unit :=
  modify (fun s => set_blocks (<[index := len]> (index_to_len s)) s).

(** [free_block_index_to_len.remove(&index)]. *)
Definition remove_block (index : Z) : FM (option Z) :=
  s <- get ;;
  put (set_blocks (delete index (index_to_len s)) s) ;;;
  ret (index_to_len s !! index).

Definition pop_last : FM (option (Z * Z)) :=
  s <- get ;;
  match last_key_value (index_to_len s) with
  | Some (i, l) => put (set_blocks (delete i (index_to_len s)) s) ;;; ret (Some (i, l))
  | None => ret None
  end.

(** The last block is absorbed by the bump region if it ends where that
    begins. *)
Definition absorb_last : FM unit :=
  s <- get ;;
  match last_key_value (index_to_len s) with
  | Some (block_index, block_len) =>
      e <- add32 block_index block_len ;;
      if e =? bump_ptr s then
        put (set_bump block_index (bump_end s) s) ;;;
        last <- pop_last ;;
        rust_assert (bool_decide (last = Some (block_index, block_len))) ;;;
        remove_from_block_len_to_index block_index block_len
      else ret tt
  | None => ret tt
  end.

(** The [match] that merges the freed block with its neighbours. *)
Definition merge_block (index alloc_size : Z) : FM unit :=
  s <- get ;;
  let prev_block := range_before (index_to_len s) index in
  from <- add32 index 1 ;;
  let next_block := range_from (index_to_len s) from in
  prev_touches <- match prev_block with
                  | Some (pi, pl) => blocks_are_contiguous pi pl index
                  | None => ret false
                  end ;;
  next_touches <- match next_block with
                  | Some (ni, _) => blocks_are_contiguous index alloc_size ni
                  | None => ret false
                  end ;;
  match prev_block, next_block, prev_touches, next_touches with
  | Some (pi, pl), Some (ni, nl), true, true =>
      nl2 <- remove_block ni ;;
      rust_assert (bool_decide (nl2 = Some nl)) ;;;
      remove_from_block_len_to_index ni nl ;;;
      e <- add32 ni nl ;; merged <- sub32 e pi ;;
      rust_assert (merged mod ALIGN =? 0) ;;;
      insert_block pi merged ;;;
      remove_from_block_len_to_index pi pl ;;;
      add_to_block_len_to_index merged pi
  | Some (pi, pl), _, true, _ =>
      e <- add32 index alloc_size ;; merged <- sub32 e pi ;;
      rust_assert (merged mod ALIGN =? 0) ;;;
      insert_block pi merged ;;;
      remove_from_block_len_to_index pi pl ;;;
      add_to_block_len_to_index merged pi
  | _, Some (ni, nl), _, true =>
      nl2 <- remove_block ni ;;
      rust_assert (bool_decide (nl2 = Some nl)) ;;;
      remove_from_block_len_to_index ni nl ;;;
      e <- add32 ni nl ;; merged <- sub32 e index ;;
      rust_assert (merged mod ALIGN =? 0) ;;;
      insert_block index merged ;;;
      add_to_block_len_to_index merged index
  | _, _, _, _ =>
      insert_block index alloc_size ;;;
      add_to_block_len_to_index alloc_size index
  end.

Definition dealloc_impl (index alloc_size : Z) : FM unit :=
  rust_assert (index mod ALIGN =? 0) ;;;
  rust_assert (alloc_size mod ALIGN =? 0) ;;;
  e <- add32 index alloc_size ;;
  s <- get ;;
  if e =? bump_ptr s then
    put (set_bump index (bump_end s) s) ;;;
    absorb_last ;;;
    check_integrity
  else if bump_end s =? index then
    put (set_bump (bump_ptr s) e s) ;;;
    block_len <- remove_block e ;;
    match block_len with
    | Some block_len =>
        remove_from_block_len_to_index e block_len ;;;
        e' <- add32 e block_len ;;
        modify (fun s => set_bump (bump_ptr s) e' s)
    | None => ret tt
    end ;;;
    check_integrity
  else
    merge_block index alloc_size ;;;
    absorb_last ;;;
    check_integrity.

Definition insert_free_block (index size : Z) : FM unit :=
  rust_assert (index mod ALIGN =? 0) ;;;
  rust_assert (size mod ALIGN =? 0) ;;;
  dealloc_impl index size.

(** The first bucket of blocks that are long enough and its lowest block. *)
Definition find_block (alloc_size : Z) (b : gmap Z (gset Z)) : option (Z * Z) :=
  '(block_len, ixs) ← first_such
      (fun '(len, ixs) => (alloc_size <=? len) && bool_decide (ixs <> ∅))
      (sorted_entries b);
  block_index ← first_element ixs;
  Some (block_index, block_len).

Definition alloc_slow (alloc_size : Z) : FM (option Z) :=
  s <- get ;;
  let remaining_ptr := bump_ptr s in
  remaining <- sub32 (bump_end s) (bump_ptr s) ;;
  put (set_bump ALIGN ALIGN s) ;;;
  (if ALIGN <=? remaining then insert_free_block remaining_ptr remaining else ret tt) ;;;
  s <- get ;;
  match find_block alloc_size (len_to_indices s) with
  | None => ret None
  | Some (block_index, block_len) =>
      rust_assert (block_len mod ALIGN =? 0) ;;;
      remove_from_block_len_to_index block_index block_len ;;;
      block_len2 <- remove_block block_index ;;
      rust_assert (bool_decide (block_len2 = Some block_len)) ;;;
      rust_assert (block_index mod ALIGN =? 0) ;;;
      rust_assert (negb (block_len =? 0)) ;;;
      rust_assert (alloc_size <=? block_len) ;;;
      p <- add32 block_index alloc_size ;;
      e <- add32 block_index block_len ;;
      modify (set_bump p e) ;;;
      rust_assert (negb (block_index =? 0)) ;;;
      check_integrity ;;;
      ret (Some block_index)
  end.

Definition alloc_impl (alloc_size : Z) : FM (option Z) :=
  rust_assert (alloc_size mod ALIGN =? 0) ;;;
  s <- get ;;
  match checked_add u32_MAX (bump_ptr s) alloc_size with
  | Some new_ptr =>
      if new_ptr <=? bump_end s then
        put (set_bump new_ptr (bump_end s) s) ;;;
        rust_assert (negb (bump_ptr s =? 0)) ;;;
        rust_assert (bump_ptr s mod ALIGN =? 0) ;;;
        check_integrity ;;;
        ret (Some (bump_ptr s))
      else check_integrity ;;; alloc_slow alloc_size
  | None => check_integrity ;;; alloc_slow alloc_size
  end.

Definition alloc_fast (alloc_size : Z) : FM (option Z) :=
  rust_assert (alloc_size mod ALIGN =? 0) ;;;
  rust_assert (0 <? alloc_size) ;;;
  alloc_impl alloc_size.

Definition dealloc_fast (index alloc_size : Z) : FM unit :=
  rust_assert (alloc_size mod ALIGN =? 0) ;;;
  rust_assert (index mod ALIGN =? 0) ;;;
  dealloc_impl index alloc_size.

Definition add_capacity (additional : Z) : FM unit :=
  s <- get ;;
  let old_cap := capacity s in
  let cap := saturating_add usize_MAX old_cap additional in
  put (set_capacity cap s) ;;;
  match try_from u32_MAX (round_usize_down_to_pow2 old_cap ALIGN) with
  | None => ret tt
  | Some old_cap_rounded =>
      let index := if old_cap_rounded =? 0 then ALIGN else old_cap_rounded in
      let new_cap := match try_from u32_MAX cap with Some c => c | None => u32_MAX end in
      let new_cap := round_u32_down_to_pow2 new_cap ALIGN in
      if new_cap <? index then ret tt
      else
        size <- sub32 new_cap index ;;
        rust_assert (size mod ALIGN =? 0) ;;;
        if size =? 0 then ret tt else dealloc_impl index size
  end.
End operations.

(** All free blocks, the bump region last. *)
Definition iter_free_blocks (s : FreeList) : list (Z * Z) :=
  sorted_entries (index_to_len s)
  ++ (if bump_ptr s <? bump_end s then [(bump_ptr s, bump_end s - bump_ptr s)] else []).

(** ** Geometry

    The invariant on the blocks [m] and the bump region from [p] to [e], below
    the highest usable address [t]: blocks are aligned, in bounds, and never
    touch one another; the bump region overlaps no block and no block starts
    where it ends, unless it is the empty region at the start of the heap. *)

Ltac zlia := Z.to_euclidean_division_equations; lia.

Implicit Types (m : gmap Z Z) (b : gmap Z (gset Z)) (s : FreeList) (i j l p e t x : Z).

Definition top (cap : Z) : Z := 16 * (Z.min cap u32_MAX / 16).

Definition block_in m x : Prop := exists i l, m !! i = Some l /\ i <= x < i + l.

(** The free addresses: the abstract state. *)
Definition free_at m p e x : Prop := block_in m x \/ p <= x < e.
Definition free s x : Prop := free_at (index_to_len s) (bump_ptr s) (bump_end s) x.

Record blocks_ok t m : Prop := {
  bo_block : forall i l, m !! i = Some l ->
    16 <= i /\ i mod 16 = 0 /\ 0 < l /\ l mod 16 = 0 /\ i + l <= t;
  bo_sep : forall i l j l', m !! i = Some l -> m !! j = Some l' -> i < j -> i + l < j;
}.

Record bump_ok t m p e : Prop := {
  bu_range : 16 <= p <= e;
  bu_align : p mod 16 = 0 /\ e mod 16 = 0;
  bu_top : e <= t \/ e = 16;
  bu_disj : p < e -> forall i l, m !! i = Some l -> i + l <= p \/ e <= i;
  bu_above : forall l, m !! e = Some l -> e = 16;
}.

Section geometry.

Lemma block_in_delete t m i l x :
  blocks_ok t m -> m !! i = Some l ->
  block_in (delete i m) x <-> block_in m x /\ ~ (i <= x < i + l).
Proof.
  intros Hm Hi. split.
  - intros (j & lj & [Hji Hj]%lookup_delete_Some & Hx). split; [by exists j, lj|].
    destruct (Z.lt_total i j) as [Hlt|[?|Hlt]]; [|done|].
    + pose proof (bo_sep _ _ Hm _ _ _ _ Hi Hj Hlt). lia.
    + pose proof (bo_sep _ _ Hm _ _ _ _ Hj Hi Hlt). lia.
  - intros [(j & lj & Hj & Hx) Hnx]. exists j, lj. split; [|done].
    rewrite lookup_delete_ne; [done|]. intros ->. by simplify_eq.
Qed.

Lemma block_in_insert m i l x :
  m !! i = None -> block_in (<[i := l]> m) x <-> block_in m x \/ i <= x < i + l.
Proof.
  intros Hi. split.
  - intros (j & lj & [[-> ->]|[Hij Hj]]%lookup_insert_Some & Hx); [by right|].
    left. by exists j, lj.
  - intros [(j & lj & Hj & Hx)|Hx].
    + exists j, lj. rewrite lookup_insert_ne; [done|congruence].
    + exists i, l. by rewrite lookup_insert_eq.
Qed.

Lemma blocks_ok_delete t m i : blocks_ok t m -> blocks_ok t (delete i m).
Proof.
  intros [Hb Hs]. split.
  - intros j l [_ Hj]%lookup_delete_Some. by apply Hb.
  - intros j l k l' [_ Hj]%lookup_delete_Some [_ Hk]%lookup_delete_Some. by eapply Hs.
Qed.

(** A block may be added where it touches no other. *)
Lemma blocks_ok_insert t m i l :
  blocks_ok t m -> 16 <= i -> i mod 16 = 0 -> 0 < l -> l mod 16 = 0 -> i + l <= t ->
  (forall j lj, m !! j = Some lj -> j <> i -> j + lj < i \/ i + l < j) ->
  blocks_ok t (<[i := l]> m).
Proof.
  intros [Hb Hs] Hi Hi' Hl Hl' Ht Hn. split.
  - intros j lj [[-> ->]|[_ Hj]]%lookup_insert_Some; [done|by apply Hb].
  - intros j lj k lk [[-> ->]|[? Hj]]%lookup_insert_Some
      [[<- <-]|[? Hk]]%lookup_insert_Some Hjk; [lia| | |by eapply Hs].
    + destruct (Hn _ _ Hk); [done| |done]. destruct (Hb _ _ Hk) as (_ & _ & ? & _). lia.
    + destruct (Hn _ _ Hj); [done|done|]. lia.
Qed.

Lemma bump_ok_delete t m p e i : bump_ok t m p e -> bump_ok t (delete i m) p e.
Proof.
  intros [? ? ? Hd Ha]. split; try done.
  - intros Hpe j l [_ Hj]%lookup_delete_Some. by eapply Hd.
  - intros l [_ Hl]%lookup_delete_Some. by eapply Ha.
Qed.

Lemma bump_ok_insert t m p e i l :
  bump_ok t m p e -> (p < e -> i + l <= p \/ e <= i) -> (i = e -> e = 16) ->
  bump_ok t (<[i := l]> m) p e.
Proof.
  intros [? ? ? Hd Ha] Hi He. split; try done.
  - intros Hpe j lj [[-> ->]|[_ Hj]]%lookup_insert_Some; [by apply Hi|by eapply Hd].
  - intros lj [[-> _]|[_ Hj]]%lookup_insert_Some; [by apply He|by eapply Ha].
Qed.

(** No block meets a range that is not free. *)
Lemma block_apart t m p e i n j l :
  blocks_ok t m -> (forall x, i <= x < i + n -> ~ free_at m p e x) -> 0 < n ->
  m !! j = Some l -> j + l <= i \/ i + n <= j.
Proof.
  intros Hm Hf Hn Hj. destruct (bo_block _ _ Hm _ _ Hj) as (_ & _ & ? & _).
  destruct (decide (j + l <= i)) as [|Hji]; [by left|]. right.
  destruct (decide (i + n <= j)) as [|Hij]; [done|]. exfalso.
  apply (Hf (Z.max i j)); [lia|]. left. exists j, l. split; [done|lia].
Qed.

Lemma bump_apart m p e i n :
  (forall x, i <= x < i + n -> ~ free_at m p e x) -> 0 < n -> p < e ->
  i + n <= p \/ e <= i.
Proof.
  intros Hf Hn Hpe. destruct (decide (i + n <= p)) as [|Hip]; [by left|]. right.
  destruct (decide (e <= i)) as [|Hei]; [done|]. exfalso.
  apply (Hf (Z.max i p)); [lia|]. right. lia.
Qed.

(** The bump region absorbs the block that ends where it begins. *)
Lemma absorb_geometry t m p e i l :
  blocks_ok t m -> bump_ok t m p e -> m !! i = Some l -> i + l = p ->
  bump_ok t (delete i m) i e
  /\ forall x, free_at (delete i m) i e x <-> free_at m p e x.
Proof.
  intros Hm [Hr [Ha1 Ha2] Ht Hd Ha] Hi Hp.
  destruct (bo_block _ _ Hm _ _ Hi) as (? & ? & ? & ? & ?). split; [split|].
  - lia.
  - done.
  - lia.
  - intros _ j lj [Hji Hj]%lookup_delete_Some.
    destruct (bo_block _ _ Hm _ _ Hj) as (_ & _ & ? & _).
    destruct (Z.lt_total i j) as [Hlt|[?|Hlt]]; [|done|].
    + pose proof (bo_sep _ _ Hm _ _ _ _ Hi Hj Hlt). right.
      destruct (decide (p < e)) as [Hpe|]; [|lia]. destruct (Hd Hpe _ _ Hj); lia.
    + pose proof (bo_sep _ _ Hm _ _ _ _ Hj Hi Hlt). lia.
  - intros lj [_ Hj]%lookup_delete_Some. by eapply Ha.
  - intros x. unfold free_at. rewrite (block_in_delete t m i l) by done.
    assert (i <= x < i + l -> block_in m x) by (exists i, l; done).
    split; [intros [[? ?]|?]|intros [?|?]]; try tauto.
    + destruct (decide (x < p)); [left; auto with lia|right; lia].
    + destruct (decide (i <= x < i + l)); [right; lia|tauto].
    + right. lia.
Qed.

(** The bump region grows downwards over a range that was not free. *)
Lemma down_geometry t m p e i :
  blocks_ok t m -> bump_ok t m p e -> 16 <= i < p -> i mod 16 = 0 ->
  (forall x, i <= x < p -> ~ free_at m p e x) ->
  bump_ok t m i e
  /\ forall x, free_at m i e x <-> free_at m p e x \/ i <= x < p.
Proof.
  intros Hm [Hr [Ha1 Ha2] Ht Hd Ha] Hi Hi' Hf. split; [split|].
  - lia.
  - done.
  - done.
  - intros _ j lj Hj. destruct (bo_block _ _ Hm _ _ Hj) as (_ & _ & ? & _).
    destruct (block_apart t m p e i (p - i) j lj) as [|Hpj]; [done| |lia|done|by left|].
    { intros x Hx. apply Hf. lia. }
    destruct (decide (p < e)) as [Hpe|]; [|lia]. destruct (Hd Hpe _ _ Hj); lia.
  - done.
  - intros x. unfold free_at. split; [intros [?|?]|intros [[?|?]|?]]; try tauto; lia.
Qed.

(** It grows upwards over a range that was not free; [up_absorb] continues over
    the block that starts where it then ends. *)
Lemma up_geometry t m p e n :
  blocks_ok t m -> bump_ok t m p e -> 0 < n -> n mod 16 = 0 -> e + n <= t ->
  (forall x, e <= x < e + n -> ~ free_at m p e x) ->
  m !! (e + n) = None ->
  bump_ok t m p (e + n)
  /\ forall x, free_at m p (e + n) x <-> free_at m p e x \/ e <= x < e + n.
Proof.
  intros Hm [Hr [Ha1 Ha2] Ht Hd Ha] Hn Hn' Htop Hf Hnone. split; [split|].
  - lia.
  - split; [done|zlia].
  - by left.
  - intros _ j lj Hj. destruct (bo_block _ _ Hm _ _ Hj) as (_ & _ & ? & _).
    destruct (block_apart t m p e e n j lj) as [|Hpj]; [done|done|done|done| |by right].
    left. destruct (decide (p < e)) as [Hpe|]; [|lia]. destruct (Hd Hpe _ _ Hj); lia.
  - intros l Hl. congruence.
  - intros x. unfold free_at. split; [intros [?|?]|intros [[?|?]|?]]; try tauto; lia.
Qed.

Lemma up_absorb_geometry t m p e n l :
  blocks_ok t m -> bump_ok t m p e -> 0 < n -> n mod 16 = 0 -> e + n <= t ->
  (forall x, e <= x < e + n -> ~ free_at m p e x) ->
  m !! (e + n) = Some l ->
  bump_ok t (delete (e + n) m) p (e + n + l)
  /\ forall x, free_at (delete (e + n) m) p (e + n + l) x
               <-> free_at m p e x \/ e <= x < e + n.
Proof.
  intros Hm [Hr [Ha1 Ha2] Ht Hd Ha] Hn Hn' Htop Hf Hl.
  destruct (bo_block _ _ Hm _ _ Hl) as (_ & _ & Hl0 & Hl' & Hlt). split; [split|].
  - lia.
  - split; [done|zlia].
  - by left.
  - intros _ j lj [Hne Hj]%lookup_delete_Some.
    destruct (bo_block _ _ Hm _ _ Hj) as (_ & _ & ? & _).
    destruct (block_apart t m p e e n j lj) as [|Hpj]; [done..| |].
    + left. destruct (decide (p < e)) as [Hpe|]; [|lia]. destruct (Hd Hpe _ _ Hj); lia.
    + right. pose proof (bo_sep _ _ Hm _ _ _ _ Hl Hj). lia.
  - intros j [Hne Hj]%lookup_delete_Some. pose proof (bo_sep _ _ Hm _ _ _ _ Hl Hj). lia.
  - intros x. unfold free_at. rewrite (block_in_delete t m (e + n) l) by done.
    assert (e + n <= x < e + n + l -> block_in m x) by (exists (e + n), l; done).
    split; [intros [[? ?]|?]|intros [[?|?]|?]]; try tauto.
    + destruct (decide (e + n <= x)); [left; left; auto with lia|].
      destruct (decide (e <= x)); [right; lia|left; right; lia].
    + destruct (decide (e + n <= x < e + n + l)); [right; lia|tauto].
    + right. lia.
    + right. lia.
Qed.
End geometry.

(** *** Merging

    A range that is not free stays so when it swallows a neighbour that is taken
    off the list; once it touches no block it can be added. *)

Definition fresh m p e i n : Prop := forall x, i <= x < i + n -> ~ free_at m p e x.

Section merging.

Lemma fresh_next t m p e i n l :
  blocks_ok t m -> bump_ok t m p e -> fresh m p e i n -> 0 < n -> m !! (i + n) = Some l ->
  fresh (delete (i + n) m) p e i (n + l)
  /\ forall x, free_at m p e x
               <-> free_at (delete (i + n) m) p e x \/ i + n <= x < i + (n + l).
Proof.
  intros Hm Hb Hf Hn Hl. destruct (bo_block _ _ Hm _ _ Hl) as (_ & _ & Hl0 & _).
  pose proof (bump_apart m p e i n Hf Hn) as Hpe.
  assert (i + n <= i + n < i + n + l -> block_in m (i + n)) as Hin
    by (exists (i + n), l; done).
  unfold free_at. split.
  - intros x Hx. unfold free_at. rewrite (block_in_delete t m (i + n) l) by done.
    destruct (decide (x < i + n)) as [|Hge].
    + intros Hbad. apply (Hf x); [lia|]. unfold free_at. tauto.
    + intros [[_ ?]|?]; [lia|]. destruct (bu_disj _ _ _ _ Hb ltac:(lia) _ _ Hl); lia.
  - intros x. rewrite (block_in_delete t m (i + n) l) by done.
    assert (i + n <= x < i + n + l -> block_in m x) by (exists (i + n), l; done).
    destruct (decide (i + n <= x < i + n + l)); split; intros; try tauto;
      [right; lia|intuition lia].
Qed.

Lemma fresh_prev t m p e i n j l :
  blocks_ok t m -> bump_ok t m p e -> fresh m p e i n -> 0 < n -> m !! j = Some l ->
  j + l = i ->
  fresh (delete j m) p e j (l + n)
  /\ forall x, free_at m p e x <-> free_at (delete j m) p e x \/ j <= x < i.
Proof.
  intros Hm Hb Hf Hn Hl Hji. destruct (bo_block _ _ Hm _ _ Hl) as (_ & _ & Hl0 & _).
  unfold free_at. split.
  - intros x Hx. unfold free_at. rewrite (block_in_delete t m j l) by done.
    destruct (decide (x < i)) as [|Hge].
    + intros [[_ ?]|?]; [lia|]. destruct (bu_disj _ _ _ _ Hb ltac:(lia) _ _ Hl); lia.
    + intros Hbad. apply (Hf x); [lia|]. unfold free_at. tauto.
  - intros x. rewrite (block_in_delete t m j l) by done.
    assert (j <= x < j + l -> block_in m x) by (exists j, l; done).
    destruct (decide (j <= x < j + l)); split; intros; try tauto;
      [right; lia|intuition lia].
Qed.

Lemma fresh_insert t m p e i n :
  blocks_ok t m -> bump_ok t m p e -> fresh m p e i n ->
  16 <= i -> i mod 16 = 0 -> 0 < n -> n mod 16 = 0 -> i + n <= t ->
  (forall j l, m !! j = Some l -> j + l <> i) -> m !! (i + n) = None -> (i = e -> e = 16) ->
  m !! i = None /\ blocks_ok t (<[i := n]> m) /\ bump_ok t (<[i := n]> m) p e
  /\ forall x, free_at (<[i := n]> m) p e x <-> free_at m p e x \/ i <= x < i + n.
Proof.
  intros Hm Hb Hf Hi Hi' Hn Hn' Ht Hprev Hnext He.
  assert (m !! i = None) as Hnone.
  { apply eq_None_not_Some. intros [l Hl]. apply (Hf i); [lia|]. left.
    destruct (bo_block _ _ Hm _ _ Hl) as (_ & _ & ? & _).
    exists i, l. split; [done|lia]. }
  split_and!; [done| | |].
  - apply blocks_ok_insert; try done. intros j lj Hj Hne.
    pose proof (Hprev _ _ Hj). assert (j <> i + n) by congruence.
    destruct (block_apart t m p e i n j lj); try done; lia.
  - apply bump_ok_insert; try done. intros Hpe. by eapply bump_apart.
  - intros x. unfold free_at. rewrite block_in_insert by done. tauto.
Qed.
End merging.

(** ** The buckets *)

Definition buckets_ok m b : Prop :=
  map_Forall (fun _ ixs => ixs <> ∅) b
  /\ forall l i, in_bucket b l i = true <-> m !! i = Some l.

Section buckets.

Lemma in_bucket_true b l i :
  in_bucket b l i = true <-> exists ixs, b !! l = Some ixs /\ i ∈ ixs.
Proof.
  unfold in_bucket. destruct (b !! l) as [ixs|]; [|naive_solver].
  rewrite bool_decide_eq_true. naive_solver.
Qed.

Lemma remove_bucket_run m s i l :
  buckets_ok m (len_to_indices s) -> m !! i = Some l ->
  exists b', remove_from_block_len_to_index i l s = Ret tt (set_buckets b' s)
    /\ buckets_ok (delete i m) b'.
Proof.
  intros [Hne Hb] Hi. pose proof Hi as Hin%Hb%in_bucket_true.
  destruct Hin as (ixs & Hl & Hin). unfold remove_from_block_len_to_index, bind, get.
  rewrite Hl. simpl. rewrite bool_decide_true by done. simpl. eexists. split; [done|].
  split.
  - intros l' ixs'. case_decide; [intros [_ ?]%lookup_delete_Some; by eapply Hne|].
    intros [[<- <-]|[_ ?]]%lookup_insert_Some; [done|by eapply Hne].
  - intros l' i'. rewrite lookup_delete_Some, <- Hb, !in_bucket_true. case_decide as Hd.
    + setoid_rewrite lookup_delete_Some. split.
      * intros (ixs' & [Hll ?] & ?). split; [|eauto]. intros ->.
        assert (m !! i' = Some l') by (apply Hb, in_bucket_true; eauto). congruence.
      * intros [Hii (ixs' & Hl' & ?)]. exists ixs'. split_and!; try done. intros ->.
        simplify_eq. assert (i' ∈ ixs ∖ {[i]}) as Hbad.
        { apply elem_of_difference. by rewrite elem_of_singleton. }
        rewrite Hd in Hbad. by apply elem_of_empty in Hbad.
    + setoid_rewrite lookup_insert_Some. split.
      * intros (ixs' & [[-> <-]|[Hll ?]] & Hin').
        { apply elem_of_difference in Hin' as [? Hii]. rewrite elem_of_singleton in Hii.
          split; [congruence|eauto]. }
        split; [|eauto]. intros ->.
        assert (m !! i' = Some l') by (apply Hb, in_bucket_true; eauto). congruence.
      * intros [Hii (ixs' & Hl' & ?)].
        destruct (decide (l = l')) as [->|]; [|by exists ixs'; auto].
        simplify_eq. eexists. split; [by left|].
        apply elem_of_difference. by rewrite elem_of_singleton.
Qed.

Lemma add_bucket_run m s i l :
  buckets_ok m (len_to_indices s) -> m !! i = None ->
  exists b', add_to_block_len_to_index l i s = Ret tt (set_buckets b' s)
    /\ buckets_ok (<[i := l]> m) b'.
Proof.
  intros [Hne Hb] Hi. unfold add_to_block_len_to_index, modify. eexists. split; [done|].
  split.
  - apply map_Forall_insert_2; [set_solver|done].
  - intros l' i'. rewrite lookup_insert_Some, <- Hb, !in_bucket_true.
    setoid_rewrite lookup_insert_Some. split.
    + intros (ixs' & [[-> <-]|[Hll ?]] & Hin).
      * apply elem_of_union in Hin as [->%elem_of_singleton|Hin]; [by left|].
        destruct (len_to_indices s !! l') as [ixs|] eqn:Hl; [|set_solver].
        right. split; [|eauto]. intros ->.
        assert (m !! i' = Some l') by (apply Hb, in_bucket_true; eauto). congruence.
      * right. split; [|eauto]. intros ->.
        assert (m !! i' = Some l') by (apply Hb, in_bucket_true; eauto). congruence.
    + intros [[-> ->]|[Hii (ixs & Hl & Hin)]].
      * eexists. split; [by left|]. set_solver.
      * destruct (decide (l = l')) as [->|]; [|eauto].
        eexists. split; [by left|]. rewrite Hl. simpl. set_solver.
Qed.
End buckets.

(** ** The invariant *)

Record Inv s : Prop := {
  inv_cap : 0 <= capacity s <= usize_MAX;
  inv_blocks : blocks_ok (top (capacity s)) (index_to_len s);
  inv_bump : bump_ok (top (capacity s)) (index_to_len s) (bump_ptr s) (bump_end s);
  inv_buckets : buckets_ok (index_to_len s) (len_to_indices s);
}.

Section invariant.

Lemma top_bounds cap : 0 <= cap -> 0 <= top cap <= cap /\ top cap <= u32_MAX - 15 /\ top cap mod 16 = 0.
Proof. unfold top, u32_MAX. intros. zlia. Qed.

Lemma add32_run i j s : i + j <= u32_MAX -> add32 i j s = Ret (i + j) s.
Proof. intros. apply unwrap_run. by apply checked_add_Some. Qed.

Lemma sub32_run i j s : j <= i -> sub32 i j s = Ret (i - j) s.
Proof. intros. apply unwrap_run. by apply checked_sub_Some. Qed.

(** *** The integrity check succeeds *)

Lemma check_blocks_ok s pe (l : list (Z * Z)) :
  Inv s -> increasing fst l -> (forall i n, (i, n) ∈ l -> index_to_len s !! i = Some n) ->
  (forall q i n, pe = Some q -> (i, n) ∈ l -> q < i) ->
  check_blocks s pe l = true.
Proof.
  intros Hs Hl. revert pe. induction Hl as [|[i n] l Hl IH Ha]; intros pe Hin Hpe; [done|].
  assert (index_to_len s !! i = Some n) as Hi by (apply Hin; set_solver).
  destruct (bo_block _ _ (inv_blocks _ Hs) _ _ Hi) as (? & ? & ? & ? & ?).
  pose proof (top_bounds (capacity s) (proj1 (inv_cap _ Hs))) as (? & ? & _).
  simpl. unfold checked_add. rewrite (proj2 (Z.leb_le _ _)) by lia.
  rewrite (proj2 (Z.leb_le (i + n) _)) by lia. unfold ALIGN.
  rewrite !(proj2 (Z.eqb_eq _ _)) by done.
  rewrite (proj2 (proj2 (inv_buckets _ Hs) n i)) by done.
  assert (match pe with Some p => p <? i | None => true end = true) as ->.
  { destruct pe as [q|]; [|done]. apply Z.ltb_lt. apply (Hpe q i n); [done|]. set_solver. }
  simpl. apply IH.
  - intros j k Hj. apply Hin. set_solver.
  - intros q j k [= <-] Hj. rewrite Forall_forall in Ha. specialize (Ha _ Hj). simpl in Ha.
    apply (bo_sep _ _ (inv_blocks _ Hs) i n j k); [done| |done]. apply Hin. set_solver.
Qed.

Lemma check_buckets_ok s : Inv s -> check_buckets s = true.
Proof.
  intros Hs. destruct (inv_buckets _ Hs) as [Hne Hb]. unfold check_buckets.
  apply forallb_elem. intros [l ixs] Hl%elem_of_sorted_entries.
  apply andb_true_iff. split.
  - apply bool_decide_eq_true. by eapply Hne.
  - apply forallb_elem. intros i Hi%elem_of_sorted_elements.
    apply bool_decide_eq_true, Hb, in_bucket_true. eauto.
Qed.

Lemma check_bump_ok s : Inv s -> check_bump s = true.
Proof.
  intros Hs. destruct (inv_bump _ Hs) as [Hr [Ha1 Ha2] Ht Hd _]. unfold check_bump, ALIGN.
  pose proof (top_bounds (capacity s) (proj1 (inv_cap _ Hs))) as (? & ? & _).
  rewrite (proj2 (Z.leb_le _ _)) by lia. rewrite !(proj2 (Z.eqb_neq _ 0)) by lia.
  simpl. destruct (Z.ltb_spec (bump_ptr s) (bump_end s)); [|done].
  rewrite !(proj2 (Z.eqb_eq _ _)) by done. rewrite (proj2 (Z.leb_le _ _)) by lia. simpl.
  apply forallb_elem.
  intros [i l] Hi%elem_of_sorted_entries. apply orb_true_iff.
  rewrite !Z.leb_le. destruct (Hd ltac:(done) _ _ Hi); lia.
Qed.

Lemma check_integrity_run z s : Inv s -> check_integrity z s = Ret tt s.
Proof.
  intros Hs. unfold check_integrity, bind, get. apply assert_run.
  rewrite check_buckets_ok, check_bump_ok by done.
  rewrite check_blocks_ok; [by destruct z|done|apply sorted_entries_increasing| |done].
  intros i n. apply elem_of_sorted_entries.
Qed.

(** *** Deallocation *)

Lemma pop_last_run s i l :
  last_key_value (index_to_len s) = Some (i, l) ->
  pop_last s = Ret (Some (i, l)) (set_blocks (delete i (index_to_len s)) s).
Proof. intros Hl. unfold pop_last, bind, get. by rewrite Hl. Qed.

Lemma absorb_last_spec s :
  Inv s ->
  exists s', absorb_last s = Ret tt s' /\ Inv s' /\ capacity s' = capacity s
    /\ bump_end s' = bump_end s /\ (bump_ptr s = 16 -> bump_ptr s' = 16)
    /\ forall x, free s' x <-> free s x.
Proof.
  intros Hs. unfold absorb_last, bind at 1, get.
  destruct (last_key_value (index_to_len s)) as [[i l]|] eqn:Hlast; [|by exists s].
  pose proof (last_key_value_Some _ _ _ Hlast) as [Hi _].
  destruct (bo_block _ _ (inv_blocks _ Hs) _ _ Hi) as (? & ? & ? & ? & ?).
  pose proof (top_bounds (capacity s) (proj1 (inv_cap _ Hs))) as (? & ? & _).
  rewrite (bind_run _ _ _ _ _ (add32_run i l s ltac:(lia))).
  destruct (Z.eqb_spec (i + l) (bump_ptr s)) as [He|]; [|by exists s].
  set (s1 := set_bump i (bump_end s) s). unfold put. rewrite (bind_run _ _ _ tt s1) by done.
  rewrite (bind_run _ _ _ _ _ (pop_last_run s1 i l Hlast)).
  rewrite bool_decide_true by done. unfold rust_assert. rewrite (bind_run _ _ _ tt _) by done.
  set (s2 := set_blocks _ s1).
  destruct (remove_bucket_run (index_to_len s) s2 i l (inv_buckets _ Hs) Hi) as (b' & Hrun & Hb').
  destruct (absorb_geometry _ _ _ _ _ _ (inv_blocks _ Hs) (inv_bump _ Hs) Hi He) as [Hbu Hfree].
  exists (set_buckets b' s2). split_and!; [done| |done|done|simpl; lia|done].
  split; [apply Hs|by apply blocks_ok_delete, Hs|done|done].
Qed.

Lemma contiguous_run s i n j :
  0 <= i -> i mod 16 = 0 -> n mod 16 = 0 -> j mod 16 = 0 -> i + n <= j -> j <= u32_MAX ->
  blocks_are_contiguous i n j s = Ret (i + n =? j) s.
Proof.
  intros. unfold blocks_are_contiguous.
  rewrite (bind_run _ _ _ _ _ (add32_run i n s ltac:(lia))).
  rewrite (bind_run _ _ _ tt s) by (apply assert_run, Z.leb_le; lia).
  rewrite (bind_run _ _ _ _ _ (sub32_run j (i + n) s ltac:(lia))). unfold ret, ALIGN.
  f_equal. destruct (Z.eqb_spec (i + n) j), (Z.ltb_spec (j - (i + n)) 16); try done; zlia.
Qed.

(** What a change of the block list that frees the range from [i] for [n]
    promises. *)
Definition freed s i n s' : Prop :=
  Inv s' /\ capacity s' = capacity s /\ bump_ptr s' = bump_ptr s
  /\ bump_end s' = bump_end s /\ forall x, free s' x <-> free s x \/ i <= x < i + n.

(** The range from [i] for [n] is aligned, usable and not free. *)
Definition releasable s i n : Prop :=
  16 <= i /\ i mod 16 = 0 /\ 0 < n /\ n mod 16 = 0 /\ i + n <= top (capacity s)
  /\ fresh (index_to_len s) (bump_ptr s) (bump_end s) i n.

Lemma finish_insert s i n :
  Inv s -> releasable s i n ->
  (forall j l, index_to_len s !! j = Some l -> j + l <> i) ->
  index_to_len s !! (i + n) = None -> (i = bump_end s -> bump_end s = 16) ->
  exists s', (insert_block i n ;;; add_to_block_len_to_index n i) s = Ret tt s'
    /\ freed s i n s'.
Proof.
  intros Hs (Hi & Hi' & Hn & Hn' & Ht & Hf) Hp Hx He.
  destruct (fresh_insert _ _ _ _ i n (inv_blocks _ Hs) (inv_bump _ Hs)) as (Hnone & ? & ? & ?);
    try done.
  set (s1 := set_blocks (<[i := n]> (index_to_len s)) s).
  destruct (add_bucket_run (index_to_len s) s1 i n (inv_buckets _ Hs) Hnone) as (b' & Hr & ?).
  exists (set_buckets b' s1). split; [exact Hr|].
  split_and!; try done. split; [apply Hs|done..].
Qed.

Lemma finish_prev s i n pi pl merged :
  Inv s -> releasable s i n -> index_to_len s !! pi = Some pl -> pi + pl = i ->
  merged = pl + n -> index_to_len s !! (i + n) = None ->
  exists s', (insert_block pi merged ;;; remove_from_block_len_to_index pi pl ;;;
              add_to_block_len_to_index merged pi) s = Ret tt s'
    /\ freed s i n s'.
Proof.
  intros Hs (Hi & Hi' & Hn & Hn' & Ht & Hf) Hp Hpi -> Hx.
  pose proof (inv_blocks _ Hs) as Hm. pose proof (inv_bump _ Hs) as Hb.
  destruct (bo_block _ _ Hm _ _ Hp) as (? & ? & ? & ? & ?).
  destruct (fresh_prev _ _ _ _ _ _ _ _ Hm Hb Hf Hn Hp Hpi) as [Hf1 Hfree1].
  destruct (fresh_insert _ _ _ _ pi (pl + n) (blocks_ok_delete _ _ pi Hm)
    (bump_ok_delete _ _ _ _ pi Hb)) as (Hnone & ? & ? & Hfree2); try done; try lia.
  { zlia. }
  { intros j l [? Hj]%lookup_delete_Some Heq.
    destruct (Z.lt_total pi j) as [Hlt|[?|Hlt]]; [|done|].
    - pose proof (bo_block _ _ Hm _ _ Hj). lia.
    - pose proof (bo_sep _ _ Hm _ _ _ _ Hj Hp Hlt). lia. }
  { apply lookup_delete_None. right. by replace (pi + (pl + n)) with (i + n) by lia. }
  { intros ->. by eapply (bu_above _ _ _ _ Hb). }
  rewrite insert_delete_eq in *.
  set (s1 := set_blocks (<[pi := pl + n]> (index_to_len s)) s).
  destruct (remove_bucket_run (index_to_len s) s1 pi pl (inv_buckets _ Hs) Hp) as (b1 & Hr1 & Hb1).
  destruct (add_bucket_run _ (set_buckets b1 s1) pi (pl + n) Hb1 Hnone) as (b2 & Hr2 & Hb2).
  rewrite insert_delete_eq in Hb2.
  exists (set_buckets b2 s1). split.
  { unfold insert_block, modify. rewrite (bind_run _ _ _ tt s1) by done.
    by rewrite (bind_run _ _ _ _ _ Hr1). }
  split_and!; try done; [split; [apply Hs|done..]|].
  intros x. unfold free at 1. simpl. rewrite Hfree2. unfold free. rewrite Hfree1.
  split; [intros [?|?]|intros [[?|?]|?]]; try tauto; try (right; lia).
  destruct (decide (x < i)); [left; right; lia|right; lia].
Qed.

(** Taking the block [ni] off the list and out of its bucket. *)
Lemma take_block_run s ni nl :
  Inv s -> index_to_len s !! ni = Some nl ->
  exists b',
    (forall k : FM unit,
       (nl2 <- remove_block ni ;; rust_assert (bool_decide (nl2 = Some nl)) ;;;
        remove_from_block_len_to_index ni nl ;;; k) s
       = k (set_buckets b' (set_blocks (delete ni (index_to_len s)) s)))
    /\ Inv (set_buckets b' (set_blocks (delete ni (index_to_len s)) s)).
Proof.
  intros Hs Hn. set (s1 := set_blocks (delete ni (index_to_len s)) s).
  destruct (remove_bucket_run (index_to_len s) s1 ni nl (inv_buckets _ Hs) Hn) as (b' & Hr & Hb').
  exists b'. split.
  - intros k. rewrite (bind_run _ _ _ (Some nl) s1) by (unfold remove_block, bind, get; by rewrite Hn).
    rewrite bool_decide_true by done. rewrite (bind_run _ _ _ tt s1) by done.
    by rewrite (bind_run _ _ _ _ _ Hr).
  - split; [apply Hs|by apply blocks_ok_delete, Hs|by apply bump_ok_delete, Hs|done].
Qed.

(** Whether the neighbours touch the range, as [merge_block] finds out. *)
Lemma prev_touches_run s i n :
  Inv s -> releasable s i n ->
  exists pt, match range_before (index_to_len s) i with
             | Some (pi, pl) => blocks_are_contiguous pi pl i
             | None => ret false
             end s = Ret pt s
    /\ if pt then exists pi pl, range_before (index_to_len s) i = Some (pi, pl)
                    /\ index_to_len s !! pi = Some pl /\ pi + pl = i
       else forall j l, index_to_len s !! j = Some l -> j + l <> i.
Proof.
  intros Hs (Hi & Hi' & Hn & Hn' & Ht & Hf). pose proof (inv_blocks _ Hs) as Hm.
  pose proof (top_bounds (capacity s) (proj1 (inv_cap _ Hs))) as (? & ? & _).
  destruct (range_before _ i) as [[pi pl]|] eqn:Hp; cycle 1.
  { exists false. split; [done|]. intros j l Hj Heq.
    pose proof (range_before_None _ _ _ _ Hp Hj). pose proof (bo_block _ _ Hm _ _ Hj). lia. }
  apply range_before_Some in Hp as (Hpi & Hlt & Hmax).
  destruct (bo_block _ _ Hm _ _ Hpi) as (? & ? & ? & ? & ?).
  assert (pi + pl <= i) by (destruct (block_apart _ _ _ _ _ _ _ _ Hm Hf Hn Hpi); lia).
  exists (pi + pl =? i). split; [apply contiguous_run; lia|].
  destruct (Z.eqb_spec (pi + pl) i); [by exists pi, pl|].
  intros j l Hj Heq. pose proof (bo_block _ _ Hm _ _ Hj).
  pose proof (Hmax j l Hj). destruct (decide (j = pi)) as [->|]; [congruence|].
  pose proof (bo_sep _ _ Hm _ _ _ _ Hj Hpi). lia.
Qed.

Lemma next_touches_run s i n :
  Inv s -> releasable s i n ->
  exists nt, match range_from (index_to_len s) (i + 1) with
             | Some (ni, _) => blocks_are_contiguous i n ni
             | None => ret false
             end s = Ret nt s
    /\ if nt then exists nl, range_from (index_to_len s) (i + 1) = Some (i + n, nl)
                    /\ index_to_len s !! (i + n) = Some nl
       else index_to_len s !! (i + n) = None.
Proof.
  intros Hs (Hi & Hi' & Hn & Hn' & Ht & Hf). pose proof (inv_blocks _ Hs) as Hm.
  pose proof (top_bounds (capacity s) (proj1 (inv_cap _ Hs))) as (? & ? & _).
  destruct (range_from _ (i + 1)) as [[ni nl]|] eqn:Hx; cycle 1.
  { exists false. split; [done|]. apply eq_None_not_Some. intros [l Hl].
    pose proof (range_from_None _ _ _ _ Hx Hl). lia. }
  apply range_from_Some in Hx as (Hni & Hlt & Hmin).
  destruct (bo_block _ _ Hm _ _ Hni) as (? & ? & ? & ? & ?).
  assert (i + n <= ni) by (destruct (block_apart _ _ _ _ _ _ _ _ Hm Hf Hn Hni); lia).
  exists (i + n =? ni). split; [apply contiguous_run; lia|].
  destruct (Z.eqb_spec (i + n) ni) as [->|]; [by exists nl|].
  apply eq_None_not_Some. intros [l Hl]. pose proof (Hmin _ _ Hl). lia.
Qed.

(** Once the block above is taken off the list, the range reaches to its end. *)
Lemma releasable_next s i n nl b' :
  Inv s -> releasable s i n -> index_to_len s !! (i + n) = Some nl ->
  let s1 := set_buckets b' (set_blocks (delete (i + n) (index_to_len s)) s) in
  releasable s1 i (n + nl) /\ index_to_len s1 !! (i + (n + nl)) = None
  /\ forall x, free s x <-> free s1 x \/ i + n <= x < i + (n + nl).
Proof.
  intros Hs (Hi & Hi' & Hn & Hn' & Ht & Hf) Hnl s1. pose proof (inv_blocks _ Hs) as Hm.
  destruct (bo_block _ _ Hm _ _ Hnl) as (? & ? & ? & ? & ?).
  destruct (fresh_next _ _ _ _ _ _ _ Hm (inv_bump _ Hs) Hf Hn Hnl) as [Hf1 Hfree].
  split; [|split; [|done]].
  - unfold releasable. split_and!; try done; simpl; try lia. zlia.
  - apply lookup_delete_None. right. apply eq_None_not_Some. intros [l Hl].
    pose proof (bo_sep _ _ Hm _ _ _ _ Hnl Hl). lia.
Qed.

Lemma freed_next s s1 i n nl s' :
  (forall x, free s x <-> free s1 x \/ i + n <= x < i + (n + nl)) -> 0 < n -> 0 < nl ->
  capacity s1 = capacity s -> bump_ptr s1 = bump_ptr s -> bump_end s1 = bump_end s ->
  freed s1 i (n + nl) s' -> freed s i n s'.
Proof.
  intros Hfree Hn Hnl Hc Hp He (? & ? & ? & ? & Hf'). split_and!; try congruence.
  intros x. rewrite Hf', Hfree. split; [intros [?|?]|intros [[?|?]|?]]; try tauto;
    try (right; lia).
  destruct (decide (x < i + n)); [right; lia|left; right; lia].
Qed.

End invariant.

(** Runs the arithmetic and the assertions at the front of the goal. *)
Ltac run32 :=
  repeat match goal with
  | |- context [bind (add32 ?a ?c) ?k ?s] =>
      rewrite (bind_run (add32 a c) k s _ _ (add32_run a c s ltac:(lia)))
  | |- context [bind (sub32 ?a ?c) ?k ?s] =>
      rewrite (bind_run (sub32 a c) k s _ _ (sub32_run a c s ltac:(lia)))
  | |- context [bind (rust_assert (?a mod ALIGN =? 0)) ?k ?s] =>
      rewrite (bind_run (rust_assert (a mod ALIGN =? 0)) k s tt s)
        by (apply assert_run, Z.eqb_eq; unfold ALIGN; zlia)
  end.

Section specifications.

Lemma merge_block_spec s i n :
  Inv s -> releasable s i n -> i <> bump_end s ->
  exists s', merge_block i n s = Ret tt s' /\ freed s i n s'.
Proof.
  intros Hs Hrel Hne. pose proof Hrel as (Hi & Hi' & Hn & Hn' & Ht & Hf).
  pose proof (top_bounds (capacity s) (proj1 (inv_cap _ Hs))) as (? & ? & _).
  unfold merge_block. rewrite (bind_run _ _ _ s s) by done. run32.
  destruct (prev_touches_run s i n Hs Hrel) as (pt & Hpt & HP).
  destruct (next_touches_run s i n Hs Hrel) as (nt & Hnt & HN).
  rewrite (bind_run _ _ _ _ _ Hpt), (bind_run _ _ _ _ _ Hnt). clear Hpt Hnt.
  destruct nt; [destruct HN as (nl & -> & Hnl)|].
  - destruct (bo_block _ _ (inv_blocks _ Hs) _ _ Hnl) as (? & ? & ? & ? & ?).
    destruct (take_block_run s (i + n) nl Hs Hnl) as (b' & Hrun & Hs1).
    destruct (releasable_next s i n nl b' Hs Hrel Hnl) as (Hrel1 & Hx1 & Hfree1).
    destruct pt; [destruct HP as (pi & pl & -> & Hp & Hpi)|].
    + destruct (bo_block _ _ (inv_blocks _ Hs) _ _ Hp) as (? & ? & ? & ? & ?).
      rewrite Hrun. run32.
      edestruct (finish_prev _ i (n + nl) pi pl (i + n + nl - pi) Hs1 Hrel1)
        as (s' & -> & Hfr); [|done|lia|done|].
      { simpl. rewrite lookup_delete_ne; [done|lia]. }
      exists s'. split; [done|]. by eapply freed_next.
    + edestruct (finish_insert _ i (n + nl) Hs1 Hrel1) as (s' & Hfin & Hfr); [|done..|].
      { simpl. intros j l [_ Hj]%lookup_delete_Some. by apply HP. }
      exists s'. split; [|by eapply freed_next].
      destruct (range_before (index_to_len s) i) as [[pi pl]|]; rewrite Hrun; run32;
        by replace (i + n + nl - i) with (n + nl) by lia.
  - destruct pt; [destruct HP as (pi & pl & -> & Hp & Hpi)|].
    + destruct (bo_block _ _ (inv_blocks _ Hs) _ _ Hp) as (? & ? & ? & ? & ?).
      edestruct (finish_prev s i n pi pl (i + n - pi) Hs Hrel) as (s' & Hfin & Hfr);
        [done|done|lia|done|].
      exists s'. split; [|done].
      by destruct (range_from (index_to_len s) (i + 1)) as [[ni nl]|]; run32.
    + edestruct (finish_insert s i n Hs Hrel) as (s' & Hfin & Hfr); [done..|].
      exists s'. split; [|done].
      by destruct (range_before (index_to_len s) i) as [[pi pl]|],
        (range_from (index_to_len s) (i + 1)) as [[ni nl]|].
Qed.

(** The three ways a range is freed: below the bump region, above it, or into
    the block list. *)
Definition released s i n s' : Prop :=
  Inv s' /\ capacity s' = capacity s /\ forall x, free s' x <-> free s x \/ i <= x < i + n.

Lemma dealloc_below z s i n :
  Inv s -> releasable s i n -> i + n = bump_ptr s ->
  exists s', dealloc_impl z i n s = Ret tt s' /\ released s i n s'.
Proof.
  intros Hs (Hi & Hi' & Hn & Hn' & Ht & Hf) He.
  pose proof (top_bounds (capacity s) (proj1 (inv_cap _ Hs))) as (? & ? & _).
  destruct (down_geometry _ _ _ _ i (inv_blocks _ Hs) (inv_bump _ Hs)) as [Hb Hfree];
    [lia|done|intros x ?; apply Hf; lia|].
  set (s1 := set_bump i (bump_end s) s).
  assert (Inv s1) as Hs1 by (split; [apply Hs|apply Hs|done|apply Hs]).
  destruct (absorb_last_spec s1 Hs1) as (s2 & Hr & Hs2 & ? & _ & _ & Hfree2).
  exists s2. split.
  - unfold dealloc_impl. run32. unfold bind at 1, get. rewrite (proj2 (Z.eqb_eq _ _)) by done.
    rewrite (bind_run _ _ _ tt s1) by done. rewrite (bind_run _ _ _ _ _ Hr).
    by apply check_integrity_run.
  - split_and!; [done|done|]. intros x. rewrite Hfree2. unfold free at 1. simpl.
    rewrite Hfree, He. done.
Qed.

Lemma dealloc_above z s i n :
  Inv s -> releasable s i n -> i + n <> bump_ptr s -> i = bump_end s ->
  exists s', dealloc_impl z i n s = Ret tt s' /\ released s i n s'
    /\ (index_to_len s !! (i + n) = None -> s' = set_bump (bump_ptr s) (i + n) s).
Proof.
  intros Hs (Hi & Hi' & Hn & Hn' & Ht & Hf) Hne ->.
  pose proof (top_bounds (capacity s) (proj1 (inv_cap _ Hs))) as (? & ? & _).
  unfold dealloc_impl. run32. unfold bind at 1, get. rewrite (proj2 (Z.eqb_neq _ _)) by done.
  rewrite Z.eqb_refl. set (e := bump_end s + n) in *.
  set (s1 := set_bump (bump_ptr s) e s). unfold put. rewrite (bind_run _ _ _ tt s1) by done.
  rewrite (bind_run (remove_block e) _ s1 (index_to_len s !! e)
    (set_blocks (delete e (index_to_len s)) s1)) by done.
  destruct (index_to_len s !! e) as [l|] eqn:Hl.
  - destruct (bo_block _ _ (inv_blocks _ Hs) _ _ Hl) as (? & ? & ? & ? & ?).
    destruct (up_absorb_geometry _ _ _ _ n l (inv_blocks _ Hs) (inv_bump _ Hs))
      as [Hb Hfree]; try done.
    destruct (remove_bucket_run (index_to_len s)
      (set_blocks (delete e (index_to_len s)) s1) e l (inv_buckets _ Hs) Hl) as (b' & Hr & ?).
    set (s2 := set_bump (bump_ptr s) (e + l)
      (set_buckets b' (set_blocks (delete e (index_to_len s)) s1))).
    assert (Inv s2) as Hs2
      by (split; [apply Hs|by apply blocks_ok_delete, Hs|done|done]).
    exists s2. split_and!; [|split_and!; [done|done|exact Hfree]|done].
    rewrite (bind_run _ _ _ tt s2); [by apply check_integrity_run|].
    rewrite (bind_run _ _ _ _ _ Hr). run32. done.
  - destruct (up_geometry _ _ _ _ n (inv_blocks _ Hs) (inv_bump _ Hs)) as [Hb Hfree];
      try done.
    rewrite delete_id by done. rewrite (bind_run _ _ _ tt s1) by done.
    assert (Inv s1) as Hs1 by (split; [apply Hs|apply Hs|done|apply Hs]).
    exists s1. split_and!; [|split_and!; [done|done|exact Hfree]|done]. by apply check_integrity_run.
Qed.

Lemma dealloc_apart z s i n :
  Inv s -> releasable s i n -> i + n <> bump_ptr s -> i <> bump_end s ->
  exists s', dealloc_impl z i n s = Ret tt s' /\ released s i n s'
    /\ bump_end s' = bump_end s /\ (bump_ptr s = 16 -> bump_ptr s' = 16).
Proof.
  intros Hs Hrel Hne Hne'. pose proof Hrel as (Hi & Hi' & Hn & Hn' & Ht & Hf).
  pose proof (top_bounds (capacity s) (proj1 (inv_cap _ Hs))) as (? & ? & _).
  destruct (merge_block_spec s i n Hs Hrel Hne') as (s1 & Hr1 & Hs1 & Hc1 & Hp1 & He1 & Hf1).
  destruct (absorb_last_spec s1 Hs1) as (s2 & Hr2 & Hs2 & ? & ? & Hp2 & Hf2).
  exists s2. split_and!.
  - unfold dealloc_impl. run32. unfold bind at 1, get.
    rewrite (proj2 (Z.eqb_neq _ _)) by done. rewrite (proj2 (Z.eqb_neq _ _)) by done.
    rewrite (bind_run _ _ _ _ _ Hr1), (bind_run _ _ _ _ _ Hr2).
    by apply check_integrity_run.
  - split_and!; [done|congruence|]. intros x. by rewrite Hf2.
  - congruence.
  - intros. apply Hp2. congruence.
Qed.

Lemma dealloc_spec z s i n :
  Inv s -> releasable s i n ->
  exists s', dealloc_impl z i n s = Ret tt s' /\ released s i n s'.
Proof.
  intros Hs Hrel. destruct (decide (i + n = bump_ptr s)); [by apply dealloc_below|].
  destruct (decide (i = bump_end s)).
  - destruct (dealloc_above z s i n) as (s' & ? & ? & _); eauto.
  - destruct (dealloc_apart z s i n) as (s' & ? & ? & _); eauto.
Qed.

(** *** Allocation *)

Lemma find_block_Some m b n i l :
  buckets_ok m b -> find_block n b = Some (i, l) -> m !! i = Some l /\ n <= l.
Proof.
  intros [_ Hb]. unfold find_block.
  destruct (first_such _ _) as [[len ixs]|] eqn:Hf; [|done]. simpl.
  apply (first_such_Some fst) in Hf as (Hin & Hp & _); [|apply sorted_entries_increasing].
  apply elem_of_sorted_entries in Hin. apply andb_true_iff in Hp as [Hp _].
  apply Z.leb_le in Hp.
  destruct (first_element ixs) as [j|] eqn:Hj; [|done]. simpl. intros [= <- <-].
  apply first_element_Some in Hj. split; [|done]. apply Hb, in_bucket_true. eauto.
Qed.

Lemma find_block_None m b n :
  buckets_ok m b -> find_block n b = None -> forall i l, m !! i = Some l -> l < n.
Proof.
  intros [Hne Hb]. unfold find_block. intros Hf i l Hi.
  apply Hb, in_bucket_true in Hi as (ixs & Hl & Hin). apply Z.nle_gt. intros Hnl.
  assert (ixs <> ∅) as Hnem by (by eapply Hne).
  destruct (first_such _ _) as [[len ixs']|] eqn:Hfs.
  - simpl in Hf. destruct (first_element ixs') eqn:Hfe; [done|].
    apply (first_such_Some fst) in Hfs as (_ & Hp & _); [|apply sorted_entries_increasing].
    apply andb_true_iff in Hp as [_ Hp]. apply bool_decide_eq_true in Hp.
    by apply first_element_None in Hfe.
  - apply (first_such_None _ _ (l, ixs)) in Hfs; [|by apply elem_of_sorted_entries].
    change ((n <=? l) && bool_decide (ixs <> ∅) = false) in Hfs.
    rewrite (proj2 (Z.leb_le _ _)), bool_decide_true in Hfs by done. done.
Qed.

(** Putting what is left of the bump region back: the free addresses stay the
    same, and the region is empty unless it began at the start of the heap. *)
Lemma put_back_spec z s :
  Inv s ->
  exists s2,
    (if ALIGN <=? bump_end s - bump_ptr s
     then insert_free_block z (bump_ptr s) (bump_end s - bump_ptr s) else ret tt)
      (set_bump ALIGN ALIGN s) = Ret tt s2
    /\ Inv s2 /\ capacity s2 = capacity s /\ (forall x, free s2 x <-> free s x)
    /\ bump_ptr s2 = 16
    /\ bump_end s2 = if decide (bump_ptr s = 16) then bump_end s else 16.
Proof.
  intros Hs. destruct (inv_bump _ Hs) as [Hr [Ha1 Ha2] Ht Hd Hab]. unfold ALIGN.
  set (s1 := set_bump 16 16 s). set (p := bump_ptr s) in *. set (e := bump_end s) in *.
  assert (Inv s1) as Hs1 by (split; [apply Hs|apply Hs| |apply Hs];
    split; simpl; [lia|done|lia|lia|done]).
  destruct (Z.leb_spec 16 (e - p)); cycle 1.
  { assert (p = e) as Hpe by zlia. exists s1. split_and!; try done.
    - intros x. unfold free, free_at. simpl. fold p e. intuition lia.
    - simpl. case_decide; lia. }
  assert (releasable s1 p (e - p)) as Hrel.
  { unfold releasable. split_and!; try done; simpl; try lia; [zlia|].
    intros x Hx [(i & l & Hi & Hix)|?]; [|lia]. simpl in Hi.
    destruct (Hd ltac:(lia) _ _ Hi); lia. }
  assert (forall s2, released s1 p (e - p) s2 -> Inv s2 /\ capacity s2 = capacity s
    /\ forall x, free s2 x <-> free s x) as Hrels.
  { intros s2 (? & ? & Hf2). split_and!; [done|done|]. intros x. rewrite Hf2.
    unfold free, free_at. simpl. fold p e. intuition lia. }
  unfold insert_free_block. run32. destruct (decide (p = 16)) as [Hp|Hp].
  - destruct (dealloc_above z s1 p (e - p)) as (s2 & Hr2 & Hrel2 & Hsame);
      [done|done|simpl; lia|done|].
    exists s2. destruct (Hrels _ Hrel2) as (? & ? & ?).
    assert (s2 = set_bump 16 (p + (e - p)) s1) as Heq.
    { apply Hsame. simpl. apply eq_None_not_Some. intros [l Hl].
      replace (p + (e - p)) with e in Hl by lia. apply Hab in Hl. lia. }
    split_and!; try done; rewrite Heq; simpl; lia.
  - destruct (dealloc_apart z s1 p (e - p)) as (s2 & Hr2 & Hrel2 & He2 & Hp2);
      [done|done|simpl; lia|done|].
    destruct (Hrels _ Hrel2) as (? & ? & ?). exists s2. split_and!; try done. by apply Hp2.
Qed.

(** Allocating the front of block [i] and making the rest the bump region. *)
Lemma take_geometry t m i l n :
  blocks_ok t m -> m !! i = Some l -> 0 < n <= l -> n mod 16 = 0 ->
  bump_ok t (delete i m) (i + n) (i + l)
  /\ forall x, free_at (delete i m) (i + n) (i + l) x
               <-> block_in m x /\ ~ (i <= x < i + n).
Proof.
  intros Hm Hi Hn Hn'. destruct (bo_block _ _ Hm _ _ Hi) as (? & ? & ? & ? & ?).
  assert (forall j lj, delete i m !! j = Some lj -> j + lj < i \/ i + l < j) as Hsep.
  { intros j lj [Hji Hj]%lookup_delete_Some.
    destruct (Z.lt_total i j) as [Hlt|[?|Hlt]]; [|done|].
    - right. by apply (bo_sep _ _ Hm _ _ _ _ Hi Hj).
    - left. by apply (bo_sep _ _ Hm _ _ _ _ Hj Hi). }
  split; [split|].
  - lia.
  - split; zlia.
  - by left.
  - intros _ j lj Hj. destruct (Hsep _ _ Hj); lia.
  - intros lj Hj. pose proof (Hsep _ _ Hj) as Hs'. destruct (Hsep _ _ Hj); [|lia].
    apply lookup_delete_Some in Hj as [_ Hj]. pose proof (bo_block _ _ Hm _ _ Hj). lia.
  - intros x. unfold free_at. rewrite (block_in_delete t m i l) by done.
    assert (i <= x < i + l -> block_in m x) by (exists i, l; done).
    split; [intros [?|?]|intros [??]]; [split; [tauto|lia]|split; [auto with lia|lia]|].
    destruct (decide (i <= x < i + l)); [right; lia|tauto].
Qed.

(** Nothing of length [n] is free in one piece when no block is that long and
    the bump region, at the start of the heap, is shorter. *)
Lemma no_run s n :
  Inv s -> bump_ptr s = 16 -> bump_end s < 16 + n ->
  (forall i l, index_to_len s !! i = Some l -> l < n) -> 0 < n ->
  forall a, ~ forall x, a <= x < a + n -> free s x.
Proof.
  intros Hs Hp He Hl Hn a Hrun. pose proof (inv_blocks _ Hs) as Hm.
  destruct (inv_bump _ Hs) as [Hr _ _ Hd Ha]. rewrite Hp in *.
  destruct (Hrun a ltac:(lia)) as [(i & l & Hi & Hx)|Hx].
  - pose proof (Hl _ _ Hi). pose proof (bo_block _ _ Hm _ _ Hi).
    destruct (Hrun (i + l) ltac:(lia)) as [(j & lj & Hj & Hx')|Hx'].
    + pose proof (bo_block _ _ Hm _ _ Hj).
      destruct (Z.lt_total i j) as [Hlt|[->|Hlt]]; [|simplify_eq; lia|].
      * pose proof (bo_sep _ _ Hm _ _ _ _ Hi Hj Hlt). lia.
      * pose proof (bo_sep _ _ Hm _ _ _ _ Hj Hi Hlt). lia.
    + destruct (Hd ltac:(lia) _ _ Hi); lia.
  - destruct (Hrun (bump_end s) ltac:(lia)) as [(j & lj & Hj & Hx')|Hx']; [|lia].
    pose proof (bo_block _ _ Hm _ _ Hj). destruct (Hd ltac:(lia) _ _ Hj); [lia|].
    assert (j = bump_end s) as -> by lia. pose proof (Ha _ Hj). lia.
Qed.

(** The addresses an allocation loses: those of a bump region at the start of
    the heap that is too short for it. *)
Definition lost s n x : Prop :=
  bump_end s < bump_ptr s + n /\ bump_ptr s = 16 /\ 16 <= x < bump_end s.

Definition allocated s n (r : option Z) s' : Prop :=
  Inv s' /\ capacity s' = capacity s
  /\ match r with
     | Some i => 16 <= i /\ i mod 16 = 0 /\ (forall x, i <= x < i + n -> free s x)
         /\ forall x, free s' x <-> free s x /\ ~ (i <= x < i + n) /\ ~ lost s n x
     | None => (forall x, free s' x <-> free s x)
         /\ forall a, ~ forall x, a <= x < a + n -> free s x
     end.

(** Of what is free after the bump region was put back, the blocks are all but
    the lost addresses. *)
Lemma lost_split s s2 n x :
  Inv s2 -> bump_ptr s2 = 16 ->
  bump_end s2 = (if decide (bump_ptr s = 16) then bump_end s else 16) ->
  bump_end s < bump_ptr s + n ->
  block_in (index_to_len s2) x <-> free s2 x /\ ~ lost s n x.
Proof.
  intros Hs2 Hp2 He2 Hslow. destruct (inv_bump _ Hs2) as [_ _ _ Hd _].
  unfold lost, free, free_at. rewrite Hp2 in *. split.
  - intros Hx. split; [by left|]. intros (_ & Hp & Hx').
    rewrite decide_True in He2 by done. destruct Hx as (i & l & Hi & Hix).
    pose proof (bo_block _ _ (inv_blocks _ Hs2) _ _ Hi).
    destruct (Hd ltac:(lia) _ _ Hi); lia.
  - intros [[?|Hx] Hnl]; [done|]. case_decide; [|lia]. exfalso. apply Hnl. lia.
Qed.

Lemma alloc_slow_spec z s n :
  Inv s -> 0 < n -> n mod 16 = 0 -> bump_end s < bump_ptr s + n ->
  exists r s', alloc_slow z n s = Ret r s' /\ allocated s n r s'.
Proof.
  intros Hs Hn Hn' Hslow. pose proof (bu_range _ _ _ _ (inv_bump _ Hs)) as Hr.
  unfold alloc_slow. rewrite (bind_run get _ s s s) by done. run32.
  unfold put. rewrite (bind_run _ _ _ tt (set_bump ALIGN ALIGN s)) by done.
  destruct (put_back_spec z s Hs) as (s2 & Hr2 & Hs2 & Hc2 & Hf2 & Hp2 & He2).
  rewrite (bind_run _ _ _ _ _ Hr2). rewrite (bind_run get _ s2 s2 s2) by done.
  pose proof (top_bounds (capacity s2) (proj1 (inv_cap _ Hs2))) as (? & ? & _).
  destruct (find_block n (len_to_indices s2)) as [[i l]|] eqn:Hfind.
  - destruct (find_block_Some _ _ _ _ _ (inv_buckets _ Hs2) Hfind) as [Hi Hl].
    destruct (bo_block _ _ (inv_blocks _ Hs2) _ _ Hi) as (? & ? & ? & ? & ?).
    destruct (take_geometry _ _ i l n (inv_blocks _ Hs2) Hi ltac:(lia) Hn') as [Hb3 Hf3].
    destruct (remove_bucket_run _ s2 i l (inv_buckets _ Hs2) Hi) as (b' & Hrm & Hb').
    set (s3 := set_bump (i + n) (i + l)
      (set_blocks (delete i (index_to_len s2)) (set_buckets b' s2))).
    assert (Inv s3) as Hs3
      by (split; [apply Hs2|by apply blocks_ok_delete, Hs2|done|done]).
    exists (Some i), s3. split; [|split_and!; [done|done|lia|done| |]].
    + run32. rewrite (bind_run _ _ _ _ _ Hrm).
      rewrite (bind_run _ _ _ (Some l) (set_blocks (delete i (index_to_len s2)) (set_buckets b' s2)))
        by (unfold remove_block, bind, get; simpl; by rewrite Hi).
      rewrite bool_decide_true by done. rewrite (bind_run _ _ _ tt _) by done. run32.
      rewrite (bind_run _ _ _ tt _) by (apply assert_run, negb_true_iff, Z.eqb_neq; lia).
      rewrite (bind_run _ _ _ tt _) by (apply assert_run, Z.leb_le; lia). run32.
      rewrite (bind_run _ _ _ tt s3) by done.
      rewrite (bind_run _ _ _ tt _) by (apply assert_run, negb_true_iff, Z.eqb_neq; lia).
      by rewrite (bind_run _ _ _ _ _ (check_integrity_run z s3 Hs3)).
    + intros x Hx. apply Hf2. left. exists i, l. split; [done|lia].
    + intros x. unfold free at 1. simpl. rewrite Hf3, <- Hf2.
      rewrite (lost_split s s2 n x) by done. tauto.
  - exists None, s2. split; [done|]. do 3 (split; [done|]).
    intros a Hrun. eapply (no_run s2 n Hs2 Hp2); [| |done|].
    + rewrite He2. case_decide; lia.
    + by eapply find_block_None, Hfind; apply Hs2.
    + intros x Hx. by apply Hf2, Hrun.
Qed.

Lemma fl_alloc_spec z s n :
  Inv s -> 0 < n -> n mod 16 = 0 ->
  exists r s', alloc_fast z n s = Ret r s' /\ allocated s n r s'.
Proof.
  intros Hs Hn Hn'. destruct (inv_bump _ Hs) as [Hr [Ha1 Ha2] Ht Hd Ha].
  pose proof (top_bounds (capacity s) (proj1 (inv_cap _ Hs))) as (? & ? & _).
  unfold alloc_fast, alloc_impl. run32.
  rewrite (bind_run _ _ _ tt s) by (apply assert_run, Z.ltb_lt; lia). run32.
  rewrite (bind_run get _ s s s) by done.
  destruct (decide (bump_ptr s + n <= bump_end s)) as [Hfast|Hslow]; cycle 1.
  - destruct (alloc_slow_spec z s n) as (r & s' & Hrun & ?); [done|done|done|lia|].
    exists r, s'. split; [|done]. unfold checked_add.
    destruct (_ <=? u32_MAX); [rewrite (proj2 (Z.leb_gt _ _)) by lia|];
      by rewrite (bind_run _ _ _ _ _ (check_integrity_run z s Hs)).
  - unfold checked_add, u32_MAX in *. rewrite (proj2 (Z.leb_le _ (2 ^ 32 - 1))) by lia.
    rewrite (proj2 (Z.leb_le _ _)) by lia.
    set (s1 := set_bump (bump_ptr s + n) (bump_end s) s).
    assert (Inv s1) as Hs1.
    { split; [apply Hs|apply Hs| |apply Hs]. split; simpl; [lia|split; [zlia|done]|done| |done].
      intros _ i l Hi. destruct (Hd ltac:(lia) _ _ Hi); lia. }
    exists (Some (bump_ptr s)), s1. split.
    + unfold put. rewrite (bind_run _ _ _ tt s1) by done.
      rewrite (bind_run _ _ _ tt s1) by (apply assert_run, negb_true_iff, Z.eqb_neq; lia).
      run32. by rewrite (bind_run _ _ _ _ _ (check_integrity_run z s1 Hs1)).
    + split_and!; [done|done|lia|done|intros x ?; right; lia|].
      intros x. unfold lost, free, free_at. simpl. split.
      * intros [Hx|Hx]; [|split_and!; [right|..]; lia].
        split_and!; [by left| |lia]. destruct Hx as (i & l & Hi & Hx).
        destruct (Hd ltac:(lia) _ _ Hi); lia.
      * intros ([?|?] & ? & _); [by left|right; lia].
Qed.

(** *** Rounding, growth and creation *)

Lemma land_align w v :
  4 <= w -> 0 <= v < 2 ^ w -> Z.land v (Z.ldiff (Z.ones w) (Z.ones 4)) = 16 * (v / 16).
Proof.
  intros Hw Hv.
  assert (Z.land v (Z.ldiff (Z.ones w) (Z.ones 4))
          = Z.ldiff (Z.land v (Z.ones w)) (Z.ones 4)) as ->.
  { apply Z.bits_inj'. intros k Hk.
    rewrite Z.land_spec, !Z.ldiff_spec, Z.land_spec. by rewrite andb_assoc. }
  rewrite Z.land_ones, Z.mod_small by lia. rewrite Z.ldiff_ones_r by lia.
  rewrite Z.shiftl_mul_pow2, Z.shiftr_div_pow2 by lia. change (2 ^ 4) with 16. lia.
Qed.

Lemma round_u32_spec v :
  0 <= v <= u32_MAX -> round_u32_down_to_pow2 v ALIGN = 16 * (v / 16).
Proof.
  intros. unfold round_u32_down_to_pow2.
  change (bit_not u32_MAX (ALIGN - 1)) with (Z.ldiff (Z.ones 32) (Z.ones 4)).
  apply land_align; unfold u32_MAX in *; lia.
Qed.

Lemma round_usize_spec v :
  0 <= v <= usize_MAX -> round_usize_down_to_pow2 v ALIGN = 16 * (v / 16).
Proof.
  intros. unfold round_usize_down_to_pow2.
  change (bit_not usize_MAX (ALIGN - 1)) with (Z.ldiff (Z.ones 64) (Z.ones 4)).
  apply land_align; unfold usize_MAX in *; lia.
Qed.

(** [u32::try_from(cap).unwrap_or(u32::MAX)]. *)
Lemma clamp_u32 cap :
  0 <= cap ->
  match try_from u32_MAX cap with Some c => c | None => u32_MAX end = Z.min cap u32_MAX.
Proof.
  intros. unfold try_from. rewrite (proj2 (Z.leb_le 0 cap)) by done. simpl.
  destruct (Z.leb_spec cap u32_MAX); lia.
Qed.

Lemma bump_ok_weaken t t' m p e : t <= t' -> bump_ok t m p e -> bump_ok t' m p e.
Proof. intros ? [? ? ? ? ?]. split; try done. lia. Qed.

Lemma blocks_ok_weaken t t' m : t <= t' -> blocks_ok t m -> blocks_ok t' m.
Proof.
  intros ? [Hb ?]. split; [|done]. intros i l Hi. destruct (Hb _ _ Hi) as (? & ? & ? & ? & ?).
  split_and!; try done. lia.
Qed.

Lemma free_bounds s x : Inv s -> free s x -> 16 <= x < top (capacity s).
Proof.
  intros Hs [(i & l & Hi & Hx)|Hx].
  - pose proof (bo_block _ _ (inv_blocks _ Hs) _ _ Hi). lia.
  - destruct (inv_bump _ Hs) as [? _ ? _ _]. lia.
Qed.

Lemma inv_grow s cap :
  Inv s -> capacity s <= cap <= usize_MAX -> Inv (set_capacity cap s).
Proof.
  intros [Hc Hm Hb Hk] Hle. assert (top (capacity s) <= top cap) by (unfold top; zlia).
  split; simpl; [lia|by eapply blocks_ok_weaken|by eapply bump_ok_weaken|done].
Qed.

Lemma add_capacity_spec z s additional :
  Inv s -> 0 <= additional ->
  exists s', add_capacity z additional s = Ret tt s' /\ Inv s'
    /\ capacity s' = Z.min (capacity s + additional) usize_MAX
    /\ forall x, free s' x
         <-> free s x \/ Z.max 16 (top (capacity s)) <= x < top (capacity s').
Proof.
  intros Hs Ha. pose proof (inv_cap _ Hs) as Hc.
  set (cap := saturating_add usize_MAX (capacity s) additional).
  assert (capacity s <= cap <= usize_MAX) as Hcap by (unfold cap, saturating_add; lia).
  pose proof (inv_grow s cap Hs Hcap) as Hs1. set (s1 := set_capacity cap s) in *.
  unfold add_capacity. rewrite (bind_run get _ s s s) by done. fold cap. unfold put.
  rewrite (bind_run _ _ _ tt s1) by done. rewrite round_usize_spec by done.
  assert (forall s', (Z.max 16 (top (capacity s)) >= top cap) -> s' = s1 ->
    Inv s' /\ capacity s' = Z.min (capacity s + additional) usize_MAX
    /\ forall x, free s' x <-> free s x \/ Z.max 16 (top (capacity s)) <= x < top (capacity s'))
    as Hsame.
  { intros s' Hge ->. split_and!; [done|done|]. intros x. simpl. split; [by left|].
    intros [?|?]; [done|lia]. }
  destruct (try_from u32_MAX (16 * (capacity s / 16))) as [old|] eqn:Hold; cycle 1.
  { exists s1. split; [done|]. apply Hsame; [|done].
    unfold try_from in Hold. rewrite (proj2 (Z.leb_le 0 _)) in Hold by zlia. simpl in Hold.
    destruct (Z.leb_spec (16 * (capacity s / 16)) u32_MAX); [done|].
    unfold top, u32_MAX in *. zlia. }
  apply try_from_Some in Hold as [-> Hold].
  rewrite clamp_u32, round_u32_spec by (unfold u32_MAX in *; lia).
  fold (top cap). set (index := if _ =? 0 then ALIGN else _).
  assert (index = Z.max 16 (top (capacity s))) as Hidx.
  { unfold index, ALIGN, top, u32_MAX in *. destruct (Z.eqb_spec (16 * (capacity s / 16)) 0); zlia. }
  destruct (Z.ltb_spec (top cap) index).
  { exists s1. split; [done|]. apply Hsame; [lia|done]. }
  pose proof (top_bounds (capacity s) ltac:(lia)) as (_ & _ & Hm1).
  pose proof (top_bounds cap ltac:(lia)) as (_ & _ & Hm2).
  assert (index mod 16 = 0) by (rewrite Hidx; zlia). run32.
  destruct (Z.eqb_spec (top cap - index) 0).
  { exists s1. split; [done|]. apply Hsame; [lia|done]. }
  destruct (dealloc_spec z s1 index (top cap - index) Hs1) as (s2 & Hr & ? & Hc2 & Hf2).
  { unfold releasable. split_and!; try done; simpl; try lia; [zlia|].
    intros x Hx Hfx. pose proof (free_bounds s x Hs Hfx). lia. }
  exists s2. split_and!; [done|done|by rewrite Hc2|]. intros x. rewrite Hf2, Hc2, Hidx.
  change (free s1 x) with (free s x). simpl. intuition lia.
Qed.

Lemma inv_empty cap e :
  0 <= cap <= usize_MAX -> 16 <= e -> e mod 16 = 0 -> e <= top cap \/ e = 16 ->
  Inv (mkFreeList cap ∅ ∅ 16 e).
Proof.
  intros. split; simpl; [done| | |].
  - split; intros ? ? *; by rewrite lookup_empty.
  - split; [lia|done|done| |]; intros *; by rewrite ?lookup_empty.
  - split; [apply map_Forall_empty|]. intros l i. rewrite lookup_empty.
    unfold in_bucket. by rewrite lookup_empty.
Qed.

Lemma new_spec z cap :
  0 <= cap <= usize_MAX ->
  exists s, new z cap = Ret tt s /\ Inv s /\ capacity s = cap
    /\ forall x, free s x <-> 16 <= x < top cap.
Proof.
  intros Hc. unfold new. rewrite clamp_u32 by lia.
  assert (saturating_sub (Z.min cap u32_MAX) ALIGN = Z.max (Z.min cap u32_MAX - 16) 0)
    as -> by done.
  rewrite round_u32_spec by (unfold u32_MAX in *; lia). unfold ALIGN.
  set (len := 16 * _). set (e := if 16 <=? len then 16 + len else 16).
  assert (e = Z.max 16 (top cap)) as He.
  { assert (len = Z.max 0 (top cap - 16)) as Hlen by (unfold len, top, u32_MAX; zlia).
    pose proof (top_bounds cap ltac:(lia)) as (? & _ & ?). unfold e.
    destruct (Z.leb_spec 16 len); clearbody len; zlia. }
  assert (Inv (mkFreeList cap ∅ ∅ 16 e)) as Hi.
  { pose proof (top_bounds cap ltac:(lia)) as (_ & _ & ?).
    apply inv_empty; [done|lia|rewrite He; zlia|lia]. }
  exists (mkFreeList cap ∅ ∅ 16 e). split_and!; [|done|done|].
  - rewrite <- (check_integrity_run z _ Hi). f_equal. unfold e. by destruct (16 <=? len).
  - intros x. unfold free, free_at, block_in. simpl. setoid_rewrite lookup_empty.
    split; [intros [(? & ? & ? & _)|?]; [done|lia]|right; lia].
Qed.

Lemma aligned_size_spec n :
  0 <= n -> aligned_size n = if n + 16 <=? u32_MAX then Some (16 * ((n + 15) / 16)) else None.
Proof.
  intros. unfold aligned_size, checked_add, ALIGN.
  destruct (Z.leb_spec (n + 16) u32_MAX); [|done].
  transitivity (Some (round_u32_down_to_pow2 (n + 16 - 1) ALIGN)); [done|].
  rewrite round_u32_spec by lia. by replace (n + 16 - 1) with (n + 15) by lia.
Qed.
End specifications.

(** ** The state machine

    A heap in use: the free list together with the blocks its client holds.
    The client frees what it holds, with the size it asked for. *)

Definition heap : Type := FreeList * gmap Z Z.
Implicit Types (live : gmap Z Z) (z : bool).

Inductive step z : heap -> heap -> Prop :=
| s_alloc s live n i s' :
    0 < n -> n mod 16 = 0 -> alloc_fast z n s = Ret (Some i) s' ->
    step z (s, live) (s', <[i := n]> live)
| s_alloc_full s live n s' :
    0 < n -> n mod 16 = 0 -> alloc_fast z n s = Ret None s' ->
    step z (s, live) (s', live)
| s_dealloc s live i n s' :
    live !! i = Some n -> dealloc_fast z i n s = Ret tt s' ->
    step z (s, live) (s', delete i live)
| s_grow s live additional s' :
    0 <= additional -> add_capacity z additional s = Ret tt s' ->
    step z (s, live) (s', live).

Definition reachable z (h : heap) : Prop :=
  exists cap s0, 0 <= cap <= usize_MAX /\ new z cap = Ret tt s0 /\ rtc (step z) (s0, ∅) h.

(** The blocks held are aligned, usable, not free and pairwise disjoint. *)
Record held s live : Prop := {
  held_block : forall i n, live !! i = Some n -> releasable s i n;
  held_apart : forall i n j k, live !! i = Some n -> live !! j = Some k -> i <> j ->
    i + n <= j \/ j + k <= i;
}.

Section machine.

Lemma dealloc_fast_spec z s i n :
  Inv s -> releasable s i n ->
  exists s', dealloc_fast z i n s = Ret tt s' /\ released s i n s'.
Proof.
  intros Hs Hrel. destruct (dealloc_spec z s i n Hs Hrel) as (s' & Hr & ?).
  destruct Hrel as (? & ? & ? & ? & _). exists s'. split; [|done].
  unfold dealloc_fast. by run32.
Qed.

Lemma releasable_frame s s' i n :
  releasable s i n -> capacity s <= capacity s' ->
  (forall x, i <= x < i + n -> free s' x -> free s x) -> releasable s' i n.
Proof.
  intros (? & ? & ? & ? & Ht & Hf) Hc Hx. split_and!; try done.
  - unfold top in *. zlia.
  - intros x Hin Hfx. apply (Hf x Hin). by apply Hx.
Qed.

Lemma held_alloc s s' live n i :
  Inv s -> held s live -> 0 < n -> n mod 16 = 0 -> allocated s n (Some i) s' ->
  held s' (<[i := n]> live).
Proof.
  intros Hs [Hb Ha] Hn Hn' (Hs' & Hc & Hi & Hi' & Hin & Hfree).
  assert (i + n <= top (capacity s)) as Htop.
  { pose proof (free_bounds s (i + n - 1) Hs (Hin (i + n - 1) ltac:(lia))). lia. }
  assert (forall j k, live !! j = Some k -> j + k <= i \/ i + n <= j) as Hap.
  { intros j k Hj. destruct (Hb _ _ Hj) as (_ & _ & Hk & _ & _ & Hf).
    destruct (decide (j + k <= i)) as [|H1]; [by left|].
    destruct (decide (i + n <= j)) as [|H2]; [by right|]. exfalso.
    apply (Hf (Z.max i j)); [lia|]. apply Hin. lia. }
  split.
  - intros j k [[-> ->]|[_ Hj]]%lookup_insert_Some.
    + split_and!; try done; [by rewrite Hc|]. intros x Hx Hfx. apply Hfree in Hfx. tauto.
    + eapply releasable_frame; [by apply Hb|lia|]. intros x _ Hfx. by apply Hfree.
  - intros j k j' k' [[<- <-]|[? Hj]]%lookup_insert_Some
      [[<- <-]|[? Hj']]%lookup_insert_Some Hne; [done| | |by eapply Ha].
    + destruct (Hap _ _ Hj'); lia.
    + destruct (Hap _ _ Hj); lia.
Qed.

Lemma held_dealloc s s' live i n :
  held s live -> live !! i = Some n -> released s i n s' -> held s' (delete i live).
Proof.
  intros [Hb Ha] Hi (Hs' & Hc & Hfree). split.
  - intros j k [Hne Hj]%lookup_delete_Some. eapply releasable_frame; [by apply Hb|lia|].
    intros x Hx [?|?]%Hfree; [done|]. destruct (Ha _ _ _ _ Hi Hj Hne); lia.
  - intros j k j' k' [? Hj]%lookup_delete_Some [? Hj']%lookup_delete_Some. by apply Ha.
Qed.

Definition good (h : heap) : Prop := Inv h.1 /\ held h.1 h.2.

Lemma step_good z h h' : good h -> step z h h' -> good h'.
Proof.
  intros [Hs Hh] Hst. destruct Hst as [s live n i s' Hn Hn' Hr|s live n s' Hn Hn' Hr
    |s live i n s' Hi Hr|s live a s' Ha Hr]; simpl in *.
  - destruct (fl_alloc_spec z s n Hs Hn Hn') as (r & s1 & Hr1 & Hal). rewrite Hr in Hr1. simplify_eq.
    split; [apply Hal|by eapply held_alloc].
  - destruct (fl_alloc_spec z s n Hs Hn Hn') as (r & s1 & Hr1 & Hal). rewrite Hr in Hr1.
    simplify_eq. destruct Hal as (Hi & Hc & Hf & _). split; [done|]. destruct Hh as [Hb Hap]. split; [|done]. intros i k Hik.
    eapply releasable_frame; [by apply Hb|simpl; lia|]. intros x _. apply Hf.
  - destruct (dealloc_fast_spec z s i n Hs) as (s1 & Hr1 & Hrel); [by apply Hh|].
    rewrite Hr in Hr1. simplify_eq. split; [apply Hrel|by eapply held_dealloc].
  - destruct (add_capacity_spec z s a Hs Ha) as (s1 & Hr1 & Hi & Hc & Hf). rewrite Hr in Hr1. simplify_eq.
    split; [done|]. destruct Hh as [Hb Hap]. split; [|done]. intros i k Hik.
    pose proof (inv_cap _ Hs). pose proof (Hb _ _ Hik) as (? & ? & ? & ? & ? & _).
    eapply releasable_frame; [by apply Hb|simpl; lia|]. simpl. intros x Hx [?|?]%Hf; [done|].
    lia.
Qed.

Lemma rtc_good z h h' : good h -> rtc (step z) h h' -> good h'.
Proof.
  intros Hg Hs. revert Hg. induction Hs as [|x y w Hxy _ IH]; [done|].
  intros Hx. apply IH. by eapply step_good.
Qed.

Lemma reachable_good z h : reachable z h -> good h.
Proof.
  intros (cap & s0 & Hc & Hn & Hs). eapply rtc_good; [|done].
  destruct (new_spec z cap Hc) as (s & Hn' & Hi & _). rewrite Hn in Hn'. simplify_eq.
  split; [done|].
  split; simpl; [intros i n|intros i n j k]; by rewrite lookup_empty.
Qed.
End machine.

(** ** Properties *)

Section properties.

(** C12. Memory safety of the GC heap's allocator.  In every state any
    sequence of allocations, deallocations and growth can reach, the blocks the
    client holds are 16-byte aligned, lie between address 16 and the capacity,
    are pairwise disjoint and share no address with free memory. *)
Theorem free_list_safe z s live :
  reachable z (s, live) ->
  (forall i n, live !! i = Some n ->
     16 <= i /\ i mod 16 = 0 /\ i + n <= capacity s
     /\ forall x, i <= x < i + n -> ~ free s x)
  /\ (forall i n j k, live !! i = Some n -> live !! j = Some k -> i <> j ->
        i + n <= j \/ j + k <= i).
Proof.
  intros [Hs [Hb Ha]]%reachable_good. simpl in *. split; [|done].
  intros i n Hi. destruct (Hb _ _ Hi) as (? & ? & ? & ? & ? & Hf).
  pose proof (top_bounds (capacity s) (proj1 (inv_cap _ Hs))).
  split_and!; [done|done|lia|exact Hf].
Qed.

(** No operation panics in a reachable state: no assertion fires, not
    even those of the [gc_zeal] integrity check, and no [u32] arithmetic
    overflows, whatever size is requested and whichever held block is freed. *)
Theorem free_list_total z s live :
  reachable z (s, live) ->
  (forall n, 0 < n -> n mod 16 = 0 -> exists r s', alloc_fast z n s = Ret r s')
  /\ (forall i n, live !! i = Some n -> exists s', dealloc_fast z i n s = Ret tt s')
  /\ (forall a, 0 <= a -> exists s', add_capacity z a s = Ret tt s')
  /\ check_integrity true s = Ret tt s.
Proof.
  intros [Hs Hh]%reachable_good. simpl in *. split_and!.
  - intros n Hn Hn'. destruct (fl_alloc_spec z s n Hs Hn Hn') as (r & s' & ? & _). eauto.
  - intros i n Hi. destruct (dealloc_fast_spec z s i n Hs) as (s' & ? & _); [by apply Hh|eauto].
  - intros a Ha. destruct (add_capacity_spec z s a Hs Ha) as (s' & ? & _). eauto.
  - by apply check_integrity_run.
Qed.

(** Allocation takes an aligned range out of the free addresses and
    nothing else, except for the addresses [lost] describes; it fails only when
    no [n] consecutive addresses are free, and then frees and loses nothing. *)
Theorem free_list_alloc_correct z s n :
  Inv s -> 0 < n -> n mod 16 = 0 ->
  exists r s', alloc_fast z n s = Ret r s' /\ Inv s' /\ capacity s' = capacity s
    /\ match r with
       | Some i => 16 <= i /\ i mod 16 = 0 /\ (forall x, i <= x < i + n -> free s x)
           /\ forall x, free s' x <-> free s x /\ ~ (i <= x < i + n) /\ ~ lost s n x
       | None => (forall x, free s' x <-> free s x)
           /\ forall a, ~ forall x, a <= x < a + n -> free s x
       end.
Proof. apply fl_alloc_spec. Qed.

(** Deallocating an aligned range that is not free adds exactly its
    addresses to the free ones, whichever blocks it is merged with, and keeps
    the blocks maximal, both indexes consistent and the bump region apart. *)
Theorem free_list_dealloc_correct z s i n :
  Inv s -> releasable s i n ->
  exists s', dealloc_fast z i n s = Ret tt s' /\ Inv s' /\ capacity s' = capacity s
    /\ forall x, free s' x <-> free s x \/ i <= x < i + n.
Proof. apply dealloc_fast_spec. Qed.

(** Growing adds exactly the usable addresses between the old and the
    new capacity, both rounded down to the alignment and capped at what a [u32]
    can address; repeated small growths therefore lose nothing. *)
Theorem free_list_grow_correct z s additional :
  Inv s -> 0 <= additional ->
  exists s', add_capacity z additional s = Ret tt s' /\ Inv s'
    /\ capacity s' = Z.min (capacity s + additional) usize_MAX
    /\ forall x, free s' x
         <-> free s x \/ Z.max 16 (top (capacity s)) <= x < top (capacity s').
Proof. apply add_capacity_spec. Qed.

(** When the bump region starts at the first address, is not empty
    and is too short for a request that some block satisfies, the slow path
    drops it: its addresses were free, are not part of the block handed out and
    are no longer free afterwards. *)
Theorem free_list_leak z s n i0 l0 :
  Inv s -> 0 < n -> n mod 16 = 0 ->
  bump_ptr s = 16 -> 16 < bump_end s < 16 + n ->
  index_to_len s !! i0 = Some l0 -> n <= l0 ->
  exists i s', alloc_fast z n s = Ret (Some i) s'
    /\ forall x, 16 <= x < bump_end s -> free s x /\ ~ free s' x /\ ~ (i <= x < i + n).
Proof.
  intros Hs Hn Hn' Hp He Hi0 Hl0.
  destruct (fl_alloc_spec z s n Hs Hn Hn') as ([i|] & s' & Hr & Hs' & Hc & Hal); cycle 1.
  { exfalso. apply (proj2 Hal i0). intros x Hx. left. exists i0, l0. split; [done|lia]. }
  destruct Hal as (? & ? & Hin & Hfree). exists i, s'. split; [done|]. intros x Hx.
  assert (free s x) by (right; lia).
  assert (lost s n x) as Hlost by (unfold lost; lia).
  split_and!; [done|rewrite Hfree; tauto|]. intros Hix.
  assert (i + n <= bump_end s \/ bump_end s < i + n) as [?|?] by lia; [lia|].
  destruct (Hin (bump_end s) ltac:(lia)) as [(j & l & Hj & Hjx)|?]; [|lia].
  destruct (inv_bump _ Hs) as [_ _ _ Hd Hab]. pose proof (bo_block _ _ (inv_blocks _ Hs) _ _ Hj).
  destruct (Hd ltac:(lia) _ _ Hj); [lia|]. assert (j = bump_end s) as -> by lia.
  pose proof (Hab _ Hj). lia.
Qed.
End properties.

(** ** Witnesses

    A heap of 80 bytes with every check on.  Two blocks are allocated, the first
    is freed, a request that is too long fails (which moves the bump region to
    the start of the heap), and the first block is allocated and freed again. *)

Definition s0 : FreeList :=
  match new true 80 with Ret _ s => s | _ => mkFreeList 0 ∅ ∅ 0 0 end.
Definition s1 : FreeList := after (alloc_fast true 16) s0.
Definition s2 : FreeList := after (alloc_fast true 16) s1.
Definition s3 : FreeList := after (dealloc_fast true 16 16) s2.
Definition s4 : FreeList := after (alloc_fast true 48) s3.
Definition s5 : FreeList := after (alloc_fast true 16) s4.
Definition s6 : FreeList := after (dealloc_fast true 16 16) s5.
Definition live2 : gmap Z Z := <[32 := 16]> (<[16 := 16]> ∅).

Lemma s2_reachable : reachable true (s2, live2).
Proof.
  exists 80, s0. split; [by vm_compute|]. split; [by vm_compute|].
  apply (rtc_l _ _ (s1, <[16 := 16]> ∅));
    [apply (s_alloc true s0 ∅ 16 16 s1); by vm_compute|].
  apply rtc_once, (s_alloc true s1 _ 16 32 s2); by vm_compute.
Qed.

Lemma s6_reachable : reachable true (s6, <[32 := 16]> ∅).
Proof.
  destruct s2_reachable as (cap & s & ? & ? & Hr). exists cap, s. split; [done|].
  split; [done|]. etransitivity; [exact Hr|].
  assert (delete 16 live2 = <[32 := 16]> ∅) as Hd by by vm_compute.
  assert (delete 16 (<[16 := 16]> (<[32 := 16]> ∅)) = <[32 := 16]> (∅ : gmap Z Z)) as Hd2
    by by vm_compute.
  apply (rtc_l _ _ (s3, <[32 := 16]> ∅));
    [rewrite <- Hd; apply (s_dealloc true s2 live2 16 16 s3); by vm_compute|].
  apply (rtc_l _ _ (s4, <[32 := 16]> ∅));
    [apply (s_alloc_full true s3 _ 48 s4); by vm_compute|].
  apply (rtc_l _ _ (s5, <[16 := 16]> (<[32 := 16]> ∅)));
    [apply (s_alloc true s4 _ 16 16 s5); by vm_compute|].
  apply (rtc_l _ _ (s6, delete 16 (<[16 := 16]> (<[32 := 16]> ∅))));
    [apply (s_dealloc true s5 _ 16 16 s6); by vm_compute|]. rewrite Hd2. apply rtc_refl.
Qed.

Lemma s2_inv : Inv s2.
Proof. apply (reachable_good true (s2, live2) s2_reachable). Qed.

Lemma s6_inv : Inv s6.
Proof. apply (reachable_good true (s6, _) s6_reachable). Qed.

Lemma free_list_safe_witness : ~ free s2 40 /\ (16 + 16 <= 32 \/ 32 + 16 <= 16).
Proof.
  destruct (free_list_safe true s2 live2 s2_reachable) as [Hb Ha]. split.
  - apply (Hb 32 16); [by vm_compute|lia].
  - apply (Ha 16 16 32 16); [by vm_compute|by vm_compute|lia].
Defined.

Lemma free_list_total_witness : exists s', dealloc_fast true 32 16 s2 = Ret tt s'.
Proof.
  destruct (free_list_total true s2 live2 s2_reachable) as (_ & Hd & _).
  apply Hd. by vm_compute.
Defined.

Lemma free_list_alloc_correct_witness :
  exists r s', alloc_fast true 32 s2 = Ret r s' /\ Inv s'.
Proof.
  destruct (free_list_alloc_correct true s2 32 s2_inv ltac:(lia) eq_refl)
    as (r & s' & Hr & Hi & _). eauto.
Defined.

Lemma free_list_dealloc_correct_witness :
  exists s', dealloc_fast true 32 16 s2 = Ret tt s' /\ free s' 40.
Proof.
  destruct (free_list_dealloc_correct true s2 32 16 s2_inv) as (s' & Hr & _ & _ & Hf).
  - apply (reachable_good true (s2, live2) s2_reachable). by vm_compute.
  - exists s'. split; [exact Hr|]. apply Hf. lia.
Defined.

Lemma free_list_grow_correct_witness :
  exists s', add_capacity true 20 s2 = Ret tt s' /\ free s' 90.
Proof.
  destruct (free_list_grow_correct true s2 20 s2_inv ltac:(lia)) as (s' & Hr & _ & Hc & Hf).
  exists s'. split; [exact Hr|]. apply Hf. right. rewrite Hc. clear.
  split; vm_compute; [discriminate|reflexivity].
Defined.

(** The 16 bytes that were just freed are gone after the next allocation. *)
Lemma free_list_leak_witness :
  exists i s', alloc_fast true 32 s6 = Ret (Some i) s' /\ free s6 20 /\ ~ free s' 20
    /\ ~ (i <= 20 < i + 32).
Proof.
  destruct (free_list_leak true s6 32 48 32 s6_inv ltac:(lia) eq_refl) as (i & s' & Hr & Hx);
    [by vm_compute..|].
  exists i, s'. split; [exact Hr|]. apply Hx. split; vm_compute; [discriminate|reflexivity].
Defined.
