(* ===== verification/Wmemcheck.v ===== *)
(** * Wmemcheck: the memory checker

    Models crates/wmemcheck/src/lib.rs: shadow metadata for each byte of a
    guest's linear memory, updated on [malloc] and [free] and consulted on every
    load and store.  The stack occupies the addresses below [max_stack_size],
    the heap those above. *)

From S2P Require Import Prelude.

(** ** Data *)

Inductive MemState := Unallocated | ValidToWrite | ValidToReadWrite.

#[export] Instance MemState_eq_dec : EqDecision MemState.
Proof. solve_decision. Defined.

Inductive AccessError :=
| DoubleMalloc (addr len : Z)
| InvalidRead (addr len : Z)
| InvalidWrite (addr len : Z)
| InvalidFree (addr : Z)
| OutOfBounds (addr len : Z).

Record Wmemcheck := mkWmemcheck {
  metadata : list MemState;
  mallocs : gmap Z Z;
  stack_pointer : Z;
  max_stack_size : Z;
  flag : bool;
}.

Abbreviation WM := (M Wmemcheck AccessError).

Definition set_metadata (md : list MemState) (s : Wmemcheck) : Wmemcheck :=
  mkWmemcheck md (mallocs s) (stack_pointer s) (max_stack_size s) (flag s).
Definition set_mallocs (ms : gmap Z Z) (s : Wmemcheck) : Wmemcheck :=
  mkWmemcheck (metadata s) ms (stack_pointer s) (max_stack_size s) (flag s).
Definition set_stack_pointer (sp : Z) (s : Wmemcheck) : Wmemcheck :=
  mkWmemcheck (metadata s) (mallocs s) sp (max_stack_size s) (flag s).
Definition set_max_stack_size (m : Z) (s : Wmemcheck) : Wmemcheck :=
  mkWmemcheck (metadata s) (mallocs s) (stack_pointer s) m (flag s).
Definition set_flag (b : bool) (s : Wmemcheck) : Wmemcheck :=
  mkWmemcheck (metadata s) (mallocs s) (stack_pointer s) (max_stack_size s) b.

(** ** Operations *)

Definition new (mem_size : Z) : Wmemcheck :=
  mkWmemcheck (replicate (Z.to_nat mem_size) Unallocated) ∅ 0 0 true.

(** [addr + len] on [usize]. *)
Definition add_usize (a b : Z) : WM Z := unwrap (checked_add usize_MAX a b).

(** A loop over [i..i + n] that returns as soon as [p] fails; an index out of
    range panics. *)
Fixpoint all_states (p : MemState -> bool) (i : Z) (n : nat) : WM bool :=
  match n with
  | O => ret true
  | S n =>
      s <- get ;;
      st <- unwrap (zget (metadata s) i) ;;
      if p st then all_states p (i + 1) n else ret false
  end.

(** A loop over [i..i + n] that stores [st]. *)
Fixpoint fill_states (st : MemState) (i : Z) (n : nat) : WM unit :=
  match n with
  | O => ret tt
  | S n =>
      s <- get ;;
      _ <- unwrap (zget (metadata s) i) ;;
      put (set_metadata (zset (metadata s) i st) s) ;;;
      fill_states st (i + 1) n
  end.

(** [addr..end] as a start and a number of steps. *)
Definition steps (start stop : Z) : nat := Z.to_nat (stop - start).

Definition is_in_bounds_heap (addr len : Z) : WM bool :=
  s <- get ;;
  if max_stack_size s <=? addr
  then e <- add_usize addr len ;; ret (e <=? zlen (metadata s))
  else ret false.

Definition is_in_bounds_stack (addr len : Z) : WM bool :=
  s <- get ;;
  if stack_pointer s <=? addr
  then e <- add_usize addr len ;; ret (e <? max_stack_size s)
  else ret false.

Definition is_unallocated (st : MemState) : bool :=
  match st with Unallocated => true | _ => false end.
Definition is_readable (st : MemState) : bool :=
  match st with ValidToReadWrite => true | _ => false end.

Definition malloc (addr len : Z) : WM unit :=
  ok <- is_in_bounds_heap addr len ;;
  if negb ok then fail (OutOfBounds addr len)
  else
    e <- add_usize addr len ;;
    fresh <- all_states is_unallocated addr (steps addr e) ;;
    if negb fresh then fail (DoubleMalloc addr len)
    else
      fill_states ValidToWrite addr (steps addr e) ;;;
      modify (fun s => set_mallocs (<[addr := len]> (mallocs s)) s).

(** [is_in_bounds_stack(..) || is_in_bounds_heap(..)]. *)
Definition in_bounds (addr len : Z) : WM bool :=
  st <- is_in_bounds_stack addr len ;;
  if st then ret true else is_in_bounds_heap addr len.

Definition read (addr len : Z) : WM unit :=
  s <- get ;;
  if negb (flag s) then ret tt
  else
    ok <- in_bounds addr len ;;
    if negb ok then fail (OutOfBounds addr len)
    else
      e <- add_usize addr len ;;
      valid <- all_states is_readable addr (steps addr e) ;;
      if valid then ret tt else fail (InvalidRead addr len).

Definition write (addr len : Z) : WM unit :=
  s <- get ;;
  if negb (flag s) then ret tt
  else
    ok <- in_bounds addr len ;;
    if negb ok then fail (OutOfBounds addr len)
    else
      e <- add_usize addr len ;;
      valid <- all_states (fun st => negb (is_unallocated st)) addr (steps addr e) ;;
      if valid then fill_states ValidToReadWrite addr (steps addr e)
      else fail (InvalidWrite addr len).

Definition free (addr : Z) : WM unit :=
  s <- get ;;
  match mallocs s !! addr with
  | None => fail (InvalidFree addr)
  | Some len =>
      e <- add_usize addr len ;;
      valid <- all_states (fun st => negb (is_unallocated st)) addr (steps addr e) ;;
      if negb valid then fail (InvalidFree addr)
      else
        modify (fun s => set_mallocs (delete addr (mallocs s)) s) ;;;
        fill_states Unallocated addr (steps addr e)
  end.

Definition update_stack_pointer (new_sp : Z) : WM unit :=
  s <- get ;;
  if max_stack_size s <? new_sp then
    len <- unwrap (checked_sub new_sp (stack_pointer s)) ;;
    fail (OutOfBounds (stack_pointer s) len)
  else
    (if new_sp <? stack_pointer s then
       e <- add_usize (stack_pointer s) 1 ;;
       fill_states ValidToReadWrite new_sp (steps new_sp e)
     else
       fill_states Unallocated (stack_pointer s) (steps (stack_pointer s) new_sp)) ;;;
    modify (set_stack_pointer new_sp).

Definition memcheck_on : WM unit := modify (set_flag true).
Definition memcheck_off : WM unit := modify (set_flag false).

(** The result of the inner call is dropped. *)
Definition set_stack_size (stack_size : Z) : WM unit :=
  m <- add_usize stack_size 1 ;;
  modify (set_max_stack_size m) ;;;
  modify (set_stack_pointer stack_size) ;;;
  or_else (update_stack_pointer 0) (fun _ => ret tt).

Definition update_mem_size (num_bytes : Z) : WM unit :=
  modify (fun s => set_metadata
    (metadata s ++ replicate (Z.to_nat num_bytes) Unallocated) s).

(** ** The shadow state and the invariant *)

Definition state_at (s : Wmemcheck) (x : Z) : option MemState := zget (metadata s) x.

(** Every byte of the range is in a state that satisfies [p]. *)
Definition range_all (s : Wmemcheck) (p : MemState -> bool) (a e : Z) : Prop :=
  forall x, a <= x < e -> exists st, state_at s x = Some st /\ p st = true.

(** [s'] is [s] with the bytes of the range in state [st]. *)
Definition range_set (s : Wmemcheck) (st : MemState) (a e : Z) (s' : Wmemcheck) : Prop :=
  (forall x, state_at s' x = if decide (a <= x < e) then Some st else state_at s x)
  /\ zlen (metadata s') = zlen (metadata s)
  /\ max_stack_size s' = max_stack_size s /\ flag s' = flag s.

Record Inv (s : Wmemcheck) : Prop := {
  inv_size : zlen (metadata s) <= usize_MAX;
  inv_stack : 0 <= stack_pointer s <= max_stack_size s;
  inv_fits : max_stack_size s < zlen (metadata s);
  inv_block : forall a l, mallocs s !! a = Some l ->
    max_stack_size s <= a /\ 0 <= l /\ a + l <= zlen (metadata s)
    /\ range_all s (fun st => negb (is_unallocated st)) a (a + l);
  inv_apart : forall a l b k, mallocs s !! a = Some l -> mallocs s !! b = Some k ->
    a <> b -> 0 < l -> 0 < k -> a + l <= b \/ b + k <= a;
}.

Section loops.

Lemma all_states_run p i n s :
  0 <= i -> i + Z.of_nat n <= zlen (metadata s) ->
  exists r, all_states p i n s = Ret r s
    /\ (r = true <-> range_all s p i (i + Z.of_nat n)).
Proof.
  revert i. induction n as [|n IH]; intros i Hi Hn.
  { exists true. split; [done|]. split; [|done]. intros _ x ?. lia. }
  destruct (proj2 (zget_is_Some (metadata s) i)) as [st Hst]; [lia|].
  simpl. unfold bind at 1, get. rewrite (bind_run _ _ _ _ _ (unwrap_run _ st s Hst)).
  destruct (p st) eqn:Hp.
  - destruct (IH (i + 1)) as (r & Hr & Hrr); [lia|lia|]. exists r. split; [done|].
    rewrite Hrr. split; intros Hall x Hx.
    + destruct (decide (x = i)) as [->|]; [exists st; done|]. apply Hall. lia.
    + apply Hall. lia.
  - exists false. split; [done|]. split; [done|]. intros Hall.
    destruct (Hall i) as (st' & Hst' & ?); [lia|]. unfold state_at in Hst'. congruence.
Qed.

Lemma fill_states_run st i n s :
  0 <= i -> i + Z.of_nat n <= zlen (metadata s) ->
  exists md', fill_states st i n s = Ret tt (set_metadata md' s)
    /\ range_set s st i (i + Z.of_nat n) (set_metadata md' s).
Proof.
  revert i s. induction n as [|n IH]; intros i s Hi Hn.
  { exists (metadata s). destruct s. split; [done|]. split; [|done].
    intros x. case_decide; [lia|done]. }
  destruct (proj2 (zget_is_Some (metadata s) i)) as [st0 Hst]; [lia|].
  simpl. unfold bind at 1, get. rewrite (bind_run _ _ _ _ _ (unwrap_run _ st0 s Hst)).
  unfold put. set (s1 := set_metadata (zset (metadata s) i st) s).
  rewrite (bind_run _ _ _ tt s1) by done.
  destruct (IH (i + 1) s1) as (md' & Hr & Hx & Hlen & ? & ?);
    [lia|unfold s1; simpl; rewrite zlen_zset; lia|].
  exists md'. rewrite Hr. split; [done|]. split_and!; [|unfold s1 in Hlen; simpl in *; by rewrite Hlen, zlen_zset|done|done].
  intros x. unfold state_at in *. simpl in *. rewrite Hx, zget_zset by lia.
  repeat case_decide; try done; lia.
Qed.

Lemma add_usize_run a b s : a + b <= usize_MAX -> add_usize a b s = Ret (a + b) s.
Proof. intros. apply unwrap_run. by apply checked_add_Some. Qed.

(** The same for a loop over [a..a + len]. *)
Lemma all_range p a len s :
  0 <= a -> 0 <= len -> a + len <= zlen (metadata s) ->
  exists r, all_states p a (steps a (a + len)) s = Ret r s
    /\ (r = true <-> range_all s p a (a + len)).
Proof.
  intros. unfold steps. replace (a + len - a) with len by lia.
  destruct (all_states_run p a (Z.to_nat len) s) as (r & ? & Hr); [lia|lia|].
  exists r. rewrite Z2Nat.id in Hr by done. done.
Qed.

Lemma fill_range st a len s :
  0 <= a -> 0 <= len -> a + len <= zlen (metadata s) ->
  exists md', fill_states st a (steps a (a + len)) s = Ret tt (set_metadata md' s)
    /\ range_set s st a (a + len) (set_metadata md' s).
Proof.
  intros. unfold steps. replace (a + len - a) with len by lia.
  destruct (fill_states_run st a (Z.to_nat len) s) as (r & ? & Hr); [lia|lia|].
  exists r. rewrite Z2Nat.id in Hr by done. done.
Qed.

(** What the bounds checks compute. *)
Definition on_heap s addr len : bool :=
  (max_stack_size s <=? addr) && (addr + len <=? zlen (metadata s)).
Definition on_stack s addr len : bool :=
  (stack_pointer s <=? addr) && (addr + len <? max_stack_size s).

Lemma heap_run s addr len :
  addr + len <= usize_MAX -> is_in_bounds_heap addr len s = Ret (on_heap s addr len) s.
Proof.
  intros. unfold is_in_bounds_heap, on_heap, bind at 1, get.
  destruct (max_stack_size s <=? addr); [|done].
  by rewrite (bind_run _ _ _ _ _ (add_usize_run _ _ _ ltac:(done))).
Qed.

Lemma stack_run s addr len :
  addr + len <= usize_MAX -> is_in_bounds_stack addr len s = Ret (on_stack s addr len) s.
Proof.
  intros. unfold is_in_bounds_stack, on_stack, bind at 1, get.
  destruct (stack_pointer s <=? addr); [|done].
  by rewrite (bind_run _ _ _ _ _ (add_usize_run _ _ _ ltac:(done))).
Qed.

Lemma in_bounds_run s addr len :
  addr + len <= usize_MAX ->
  in_bounds addr len s = Ret (on_stack s addr len || on_heap s addr len) s.
Proof.
  intros. unfold in_bounds. rewrite (bind_run _ _ _ _ _ (stack_run s addr len ltac:(done))).
  destruct (on_stack s addr len); [done|]. by apply heap_run.
Qed.

(** An access the checks admit lies in the metadata. *)
Lemma in_bounds_fits s addr len :
  Inv s -> on_stack s addr len || on_heap s addr len = true ->
  0 <= addr /\ addr + len <= zlen (metadata s).
Proof.
  intros [? ? ? _ _]. unfold on_stack, on_heap. intros [H|H]%orb_true_iff; simplify_bools; lia.
Qed.

Lemma range_all_set s st a e s' p b f :
  range_set s st a e s' -> p st = true -> range_all s p b f -> range_all s' p b f.
Proof.
  intros [Hx _] Hp Hall x Hin. rewrite Hx. case_decide; eauto.
Qed.

Lemma range_all_apart s st a e s' p b f :
  range_set s st a e s' -> range_all s p b f -> f <= a \/ e <= b -> range_all s' p b f.
Proof.
  intros [Hx _] Hall Hap x Hin. rewrite Hx. case_decide; [lia|]. by apply Hall.
Qed.

Lemma range_all_filled s st a e s' p :
  range_set s st a e s' -> p st = true -> range_all s' p a e.
Proof. intros [Hx _] Hp x Hin. rewrite Hx. case_decide; [eauto|lia]. Qed.
End loops.

(** ** The operations *)

Section operations.
Implicit Types s : Wmemcheck.

Abbreviation allocated := (fun st => negb (is_unallocated st)).

(** A fill that keeps every malloc'd byte allocated keeps the invariant. *)
Lemma inv_fill s st a e md sp :
  Inv s -> range_set s st a e (set_metadata md s) -> 0 <= sp <= max_stack_size s ->
  is_unallocated st = false \/ e <= max_stack_size s ->
  Inv (set_stack_pointer sp (set_metadata md s)).
Proof.
  intros [Hsz Hst Hf Hb Ha] Hr Hsp Hor. pose proof Hr as (_ & Hlen & _). simpl in Hlen.
  split; simpl; [lia|done|lia| |done].
  intros b l Hbl. destruct (Hb _ _ Hbl) as (? & ? & ? & Hall). split_and!; [done|done|lia|].
  assert (range_all (set_metadata md s) allocated b (b + l)); [|done].
  destruct Hor as [Hu|He].
  - eapply range_all_set; [done| |done]. by rewrite Hu.
  - eapply range_all_apart; [done|done|]. right. lia.
Qed.

Lemma malloc_spec s addr len :
  Inv s -> 0 <= len -> addr + len <= usize_MAX ->
  match malloc addr len s with
  | Ret _ s' => on_heap s addr len = true /\ range_all s is_unallocated addr (addr + len)
      /\ range_set s ValidToWrite addr (addr + len) s'
      /\ mallocs s' = <[addr := len]> (mallocs s) /\ Inv s'
  | Fail e s' => s' = s
      /\ if on_heap s addr len
         then e = DoubleMalloc addr len /\ ~ range_all s is_unallocated addr (addr + len)
         else e = OutOfBounds addr len
  | Panic => False
  end.
Proof.
  intros Hs Hlen Hmax. unfold malloc.
  rewrite (bind_run _ _ _ _ _ (heap_run s addr len Hmax)).
  destruct (on_heap s addr len) eqn:Hh; [simpl|done].
  destruct (in_bounds_fits s addr len Hs) as [H0 He]; [by rewrite Hh, orb_true_r|].
  rewrite (bind_run _ _ _ _ _ (add_usize_run _ _ _ Hmax)).
  destruct (all_range is_unallocated addr len s H0 Hlen He) as (r & Hr & Hrr).
  rewrite (bind_run _ _ _ _ _ Hr). destruct r; cycle 1.
  { simpl. split_and!; [done|done|]. intros Hall. by apply Hrr in Hall. }
  destruct (fill_range ValidToWrite addr len s H0 Hlen He) as (md & Hf & Hset).
  simpl. rewrite (bind_run _ _ _ _ _ Hf). unfold modify.
  assert (range_all s is_unallocated addr (addr + len)) as Hall by by apply Hrr.
  split_and!; [done|done|exact Hset|done|].
  assert (Inv (set_stack_pointer (stack_pointer s) (set_metadata md s))) as [? ? ? Hb' Ha']
    by (eapply inv_fill; [done|done|apply Hs|by left]).
  split; try done; simpl.
  - intros a l [[<- <-]|[_ Hal]]%lookup_insert_Some; [|by apply Hb'].
    unfold on_heap in Hh. simplify_bools. pose proof Hset as (_ & Hzl & _). simpl in Hzl.
    split_and!; [done|done|lia|]. by eapply range_all_filled.
  - assert (forall b k, mallocs s !! b = Some k -> 0 < len -> 0 < k ->
      addr + len <= b \/ b + k <= addr) as Hap.
    { intros b k Hbk ? ?. destruct (inv_block _ Hs _ _ Hbk) as (_ & _ & _ & Hbs).
      destruct (decide (addr + len <= b)); [by left|].
      destruct (decide (b + k <= addr)); [by right|]. exfalso.
      destruct (Hbs (Z.max addr b)) as (st & Hst & Hp); [lia|].
      destruct (Hall (Z.max addr b)) as (st' & Hst' & Hp'); [lia|].
      simplify_eq. by rewrite Hp' in Hp. }
    intros a l b k [[<- <-]|[? Hal]]%lookup_insert_Some
      [[<- <-]|[? Hbk]]%lookup_insert_Some Hne ? ?; [done|by apply Hap| |by eapply Ha'].
    destruct (Hap _ _ Hal); auto.
Qed.

(** [read] and [write] decide by the states of the bytes they touch. *)
Lemma read_spec s addr len :
  Inv s -> 0 <= len -> addr + len <= usize_MAX ->
  match read addr len s with
  | Ret _ s' => s' = s /\ (flag s = true ->
      on_stack s addr len || on_heap s addr len = true
      /\ range_all s is_readable addr (addr + len))
  | Fail e s' => s' = s /\ flag s = true
      /\ if on_stack s addr len || on_heap s addr len
         then e = InvalidRead addr len /\ ~ range_all s is_readable addr (addr + len)
         else e = OutOfBounds addr len
  | Panic => False
  end.
Proof.
  intros Hs Hlen Hmax. unfold read. unfold bind at 1, get.
  destruct (flag s); [simpl|by simpl].
  rewrite (bind_run _ _ _ _ _ (in_bounds_run s addr len Hmax)).
  destruct (_ || _) eqn:Hb; [simpl|done].
  destruct (in_bounds_fits s addr len Hs Hb) as [H0 He].
  rewrite (bind_run _ _ _ _ _ (add_usize_run _ _ _ Hmax)).
  destruct (all_range is_readable addr len s H0 Hlen He) as (r & Hr & Hrr).
  rewrite (bind_run _ _ _ _ _ Hr). destruct r; simpl.
  - split; [done|]. intros _. split; [done|]. by apply Hrr.
  - split_and!; [done..|]. intros Hall. by apply Hrr in Hall.
Qed.

Lemma write_spec s addr len :
  Inv s -> 0 <= len -> addr + len <= usize_MAX ->
  match write addr len s with
  | Ret _ s' => Inv s' /\ mallocs s' = mallocs s
      /\ if flag s
         then on_stack s addr len || on_heap s addr len = true
              /\ range_all s allocated addr (addr + len)
              /\ range_set s ValidToReadWrite addr (addr + len) s'
         else s' = s
  | Fail e s' => s' = s /\ flag s = true
      /\ if on_stack s addr len || on_heap s addr len
         then e = InvalidWrite addr len /\ ~ range_all s allocated addr (addr + len)
         else e = OutOfBounds addr len
  | Panic => False
  end.
Proof.
  intros Hs Hlen Hmax. unfold write. unfold bind at 1, get.
  destruct (flag s) eqn:Hfl; [simpl|by simpl].
  rewrite (bind_run _ _ _ _ _ (in_bounds_run s addr len Hmax)).
  destruct (_ || _) eqn:Hb; [simpl|done].
  destruct (in_bounds_fits s addr len Hs Hb) as [H0 He].
  rewrite (bind_run _ _ _ _ _ (add_usize_run _ _ _ Hmax)).
  destruct (all_range allocated addr len s H0 Hlen He) as (r & Hr & Hrr).
  rewrite (bind_run _ _ _ _ _ Hr). destruct r; simpl.
  - destruct (fill_range ValidToReadWrite addr len s H0 Hlen He) as (md & -> & Hset).
    split_and!; [|done|done|by apply Hrr|done].
    pose proof (inv_fill s _ _ _ md (stack_pointer s) Hs Hset (inv_stack _ Hs)) as Hi.
    destruct s. apply Hi. by left.
  - split_and!; [done..|]. intros Hall. by apply Hrr in Hall.
Qed.

Lemma wm_free_spec s a :
  Inv s ->
  match mallocs s !! a with
  | None => free a s = Fail (InvalidFree a) s
  | Some l => exists s', free a s = Ret tt s' /\ Inv s'
      /\ range_set s Unallocated a (a + l) s' /\ mallocs s' = delete a (mallocs s)
  end.
Proof.
  intros Hs. destruct (mallocs s !! a) as [l|] eqn:Hal;
    unfold free; unfold bind at 1, get; rewrite Hal; [|done].
  destruct (inv_block _ Hs _ _ Hal) as (Hm & Hl & He & Hall).
  pose proof (inv_stack _ Hs). pose proof (inv_size _ Hs).
  rewrite (bind_run _ _ _ _ _ (add_usize_run a l s ltac:(lia))).
  destruct (all_range allocated a l s ltac:(lia) Hl He) as (r & Hr & Hrr).
  rewrite (bind_run _ _ _ _ _ Hr). rewrite (proj2 Hrr Hall). simpl.
  unfold modify. set (s1 := set_mallocs (delete a (mallocs s)) s).
  rewrite (bind_run _ _ _ tt s1) by done.
  destruct (fill_range Unallocated a l s1 ltac:(lia) Hl He) as (md & Hf & Hset).
  exists (set_metadata md s1). rewrite Hf. split; [done|]. split; [|done].
  pose proof Hset as (_ & Hlen & _). simpl in Hlen.
  destruct Hs as [? ? ? Hb Ha]. split; simpl; [lia|done|lia| |].
  - intros b k [Hne Hbk]%lookup_delete_Some. destruct (Hb _ _ Hbk) as (? & ? & ? & Hbs).
    split_and!; [done|done|lia|].
    assert (range_all (set_metadata md s1) allocated b (b + k)); [|done].
    intros x Hx. rewrite (proj1 Hset). case_decide; [|by apply Hbs].
    destruct (Ha _ _ _ _ Hal Hbk Hne); lia.
  - intros b k b' k' [_ ?]%lookup_delete_Some [_ ?]%lookup_delete_Some. by apply Ha.
Qed.

Lemma update_stack_pointer_spec s new_sp :
  Inv s -> 0 <= new_sp ->
  match update_stack_pointer new_sp s with
  | Ret _ s' => Inv s' /\ mallocs s' = mallocs s /\ stack_pointer s' = new_sp
      /\ if new_sp <? stack_pointer s
         then range_set s ValidToReadWrite new_sp (stack_pointer s + 1) s'
         else range_set s Unallocated (stack_pointer s) new_sp s'
  | Fail e s' => s' = s /\ max_stack_size s < new_sp
  | Panic => False
  end.
Proof.
  intros Hs Hn. pose proof Hs as [? ? ? _ _]. unfold update_stack_pointer.
  unfold bind at 1, get. destruct (Z.ltb_spec (max_stack_size s) new_sp).
  { unfold checked_sub. by rewrite (proj2 (Z.leb_le _ _)) by lia. }
  destruct (Z.ltb_spec new_sp (stack_pointer s)).
  - destruct (fill_range ValidToReadWrite new_sp (stack_pointer s + 1 - new_sp) s)
      as (md & Hf & Hset); [lia..|].
    replace (new_sp + (stack_pointer s + 1 - new_sp)) with (stack_pointer s + 1) in * by lia.
    rewrite (bind_run _ _ _ tt (set_metadata md s)); cycle 1.
    { by rewrite (bind_run _ _ _ _ _ (add_usize_run (stack_pointer s) 1 s ltac:(lia))). }
    unfold modify. split_and!; [|done|done|exact Hset].
    eapply inv_fill; [done|done|lia|by left].
  - destruct (fill_range Unallocated (stack_pointer s) (new_sp - stack_pointer s) s)
      as (md & Hf & Hset); [lia..|].
    replace (stack_pointer s + (new_sp - stack_pointer s)) with new_sp in * by lia.
    rewrite (bind_run _ _ _ _ _ Hf). unfold modify.
    split_and!; [|done|done|exact Hset]. eapply inv_fill; [done|done|lia|by right].
Qed.

Lemma update_mem_size_inv s n s' :
  Inv s -> 0 <= n -> zlen (metadata s) + n <= usize_MAX ->
  update_mem_size n s = Ret tt s' ->
  Inv s' /\ mallocs s' = mallocs s
  /\ forall x st, state_at s x = Some st -> state_at s' x = Some st.
Proof.
  intros [? ? ? Hb Ha] Hn Hmax. unfold update_mem_size, modify. intros [= <-].
  assert (forall x st, state_at s x = Some st ->
    zget (metadata s ++ replicate (Z.to_nat n) Unallocated) x = Some st) as Hx.
  { intros x st Hst. unfold state_at in Hst. pose proof (zget_lt _ _ _ Hst).
    by rewrite zget_app_l by lia. }
  assert (zlen (metadata s ++ replicate (Z.to_nat n) Unallocated) = zlen (metadata s) + n)
    as Hlen by (rewrite zlen_app; unfold zlen at 2; rewrite length_replicate; lia).
  split; [|done]. split; simpl; [lia|done|lia| |done].
  intros a l Hal. destruct (Hb _ _ Hal) as (? & ? & ? & Hall). split_and!; [done|done|lia|].
  intros x Hin. destruct (Hall x Hin) as (st & Hst & ?). exists st. split; [|done].
  by apply Hx.
Qed.

(** A checker for a memory of [mem] bytes whose first [stack] bytes are the
    stack. *)
Definition start (mem stack : Z) : outcome Wmemcheck AccessError unit :=
  set_stack_size stack (new mem).

Lemma start_spec mem stack :
  0 <= stack -> stack + 1 < mem -> mem <= usize_MAX ->
  exists s, start mem stack = Ret tt s /\ Inv s /\ mallocs s = ∅
    /\ max_stack_size s = stack + 1 /\ stack_pointer s = 0 /\ zlen (metadata s) = mem.
Proof.
  intros Hst Hlt Hmax. unfold start, set_stack_size.
  rewrite (bind_run _ _ _ _ _ (add_usize_run stack 1 _ ltac:(lia))). unfold modify.
  set (s1 := set_stack_pointer stack (set_max_stack_size (stack + 1) (new mem))).
  rewrite !(bind_run _ _ _ tt _) by done. fold s1.
  assert (zlen (metadata s1) = mem) as Hlen
    by (unfold zlen; simpl; rewrite length_replicate; lia).
  assert (Inv s1) as Hs1.
  { split; try (rewrite Hlen); simpl; [done|lia|lia| |]; intros ? ? *; by rewrite lookup_empty. }
  pose proof (update_stack_pointer_spec s1 0 Hs1 ltac:(lia)) as Hu. unfold or_else.
  destruct (update_stack_pointer 0 s1) as [[] s2|e s2|]; [|simpl in Hu; lia|done].
  exists s2. destruct Hu as (? & ? & ? & Hset).
  assert (max_stack_size s2 = stack + 1 /\ zlen (metadata s2) = mem) as [??].
  { destruct (0 <? stack_pointer s1); destruct Hset as (_ & Hz & Hm & _);
      rewrite Hz, Hm; by rewrite Hlen. }
  done.
Qed.
End operations.

(** ** The state machine *)

Inductive step (s s' : Wmemcheck) : Prop :=
| s_malloc addr len r : 0 <= len -> addr + len <= usize_MAX ->
    (malloc addr len s = Ret tt s' \/ malloc addr len s = Fail r s') -> step s s'
| s_read addr len r : 0 <= len -> addr + len <= usize_MAX ->
    (read addr len s = Ret tt s' \/ read addr len s = Fail r s') -> step s s'
| s_write addr len r : 0 <= len -> addr + len <= usize_MAX ->
    (write addr len s = Ret tt s' \/ write addr len s = Fail r s') -> step s s'
| s_free addr r : (free addr s = Ret tt s' \/ free addr s = Fail r s') -> step s s'
| s_stack new_sp r : 0 <= new_sp ->
    (update_stack_pointer new_sp s = Ret tt s' \/ update_stack_pointer new_sp s = Fail r s') ->
    step s s'
| s_grow n : 0 <= n -> zlen (metadata s) + n <= usize_MAX ->
    update_mem_size n s = Ret tt s' -> step s s'
| s_on : memcheck_on s = Ret tt s' -> step s s'
| s_off : memcheck_off s = Ret tt s' -> step s s'.

Definition reachable (s : Wmemcheck) : Prop :=
  exists mem stack s0, 0 <= stack /\ stack + 1 < mem /\ mem <= usize_MAX
    /\ start mem stack = Ret tt s0 /\ rtc step s0 s.

Section machine.

Lemma step_inv s s' : Inv s -> step s s' -> Inv s'.
Proof.
  intros Hs [addr len r ? ? Hr|addr len r ? ? Hr|addr len r ? ? Hr|addr r Hr|sp r ? Hr
    |n ? ? Hr|Hr|Hr].
  - pose proof (malloc_spec s addr len Hs) as Hm.
    destruct Hr as [Hr|Hr]; rewrite Hr in Hm; [by apply Hm|by destruct Hm as [-> _]].
  - pose proof (read_spec s addr len Hs) as Hm.
    destruct Hr as [Hr|Hr]; rewrite Hr in Hm; by destruct Hm as [-> _].
  - pose proof (write_spec s addr len Hs) as Hm.
    destruct Hr as [Hr|Hr]; rewrite Hr in Hm; [by apply Hm|by destruct Hm as [-> _]].
  - pose proof (wm_free_spec s addr Hs) as Hm.
    destruct (mallocs s !! addr); [destruct Hm as (s1 & Hm & ? & _)|];
      destruct Hr as [Hr|Hr]; rewrite Hm in Hr; by simplify_eq.
  - pose proof (update_stack_pointer_spec s sp Hs) as Hm.
    destruct Hr as [Hr|Hr]; rewrite Hr in Hm; [by apply Hm|by destruct Hm as [-> _]].
  - by apply (update_mem_size_inv s n s').
  - injection Hr as <-. by destruct Hs.
  - injection Hr as <-. by destruct Hs.
Qed.

Lemma reachable_Inv s : reachable s -> Inv s.
Proof.
  intros (mem & stack & s0 & ? & ? & ? & Hst & Hs).
  assert (Inv s0) as Hi.
  { destruct (start_spec mem stack) as (s1 & Hst' & ? & _); [done..|].
    rewrite Hst in Hst'. by simplify_eq. }
  clear Hst. induction Hs as [|x y z Hxy _ IH]; [done|]. apply IH. by eapply step_inv.
Qed.
End machine.

(** ** Properties *)

Section properties.
Implicit Types s : Wmemcheck.

(** In every reachable state of the checker no operation panics, the
    recorded allocations lie on the heap, do not overlap and have every byte
    allocated, so that freeing any of them succeeds. *)
Theorem wmemcheck_reachable_total s :
  reachable s ->
  (forall a l b k, mallocs s !! a = Some l -> mallocs s !! b = Some k -> a <> b ->
     0 < l -> 0 < k -> a + l <= b \/ b + k <= a)
  /\ (forall a l, mallocs s !! a = Some l -> max_stack_size s <= a
        /\ exists s', free a s = Ret tt s')
  /\ (forall addr len, 0 <= len -> addr + len <= usize_MAX ->
        is_panic (malloc addr len s) = false /\ is_panic (read addr len s) = false
        /\ is_panic (write addr len s) = false)
  /\ (forall sp, 0 <= sp -> is_panic (update_stack_pointer sp s) = false).
Proof.
  intros Hs%reachable_Inv. split_and!.
  - apply Hs.
  - intros a l Hal. split; [by apply (inv_block _ Hs a l)|].
    pose proof (wm_free_spec s a Hs) as Hf. rewrite Hal in Hf.
    destruct Hf as (s' & ? & _). eauto.
  - intros addr len ? ?. pose proof (malloc_spec s addr len Hs).
    pose proof (read_spec s addr len Hs). pose proof (write_spec s addr len Hs).
    destruct (malloc addr len s), (read addr len s), (write addr len s); naive_solver.
  - intros sp ?. pose proof (update_stack_pointer_spec s sp Hs).
    by destruct (update_stack_pointer sp s); naive_solver.
Qed.

(** With checking on, a load is admitted exactly when it lies on the
    stack or the heap and every byte it touches is defined, a store exactly
    when every byte is allocated; a refused access changes nothing and an
    admitted store defines exactly the bytes it touches. *)
Theorem wmemcheck_access_correct s addr len :
  Inv s -> flag s = true -> 0 <= len -> addr + len <= usize_MAX ->
  let bounds := on_stack s addr len || on_heap s addr len in
  (read addr len s = Ret tt s
     <-> bounds = true /\ range_all s is_readable addr (addr + len))
  /\ match write addr len s with
     | Ret _ s' => bounds = true
         /\ range_all s (fun st => negb (is_unallocated st)) addr (addr + len)
         /\ range_set s ValidToReadWrite addr (addr + len) s'
     | Fail e s' => s' = s
         /\ if bounds then e = InvalidWrite addr len
              /\ ~ range_all s (fun st => negb (is_unallocated st)) addr (addr + len)
            else e = OutOfBounds addr len
     | Panic => False
     end.
Proof.
  intros Hs Hfl Hlen Hmax bounds. split.
  - pose proof (read_spec s addr len Hs Hlen Hmax) as Hr. fold bounds in Hr.
    destruct (read addr len s) as [[] s'|e s'|]; [| |done].
    + destruct Hr as [-> Hr]. split; [auto|done].
    + destruct Hr as (-> & _ & Hr). split; [done|]. intros [Hb Hall].
      rewrite Hb in Hr. by destruct Hr.
  - pose proof (write_spec s addr len Hs Hlen Hmax) as Hw. fold bounds in Hw.
    rewrite Hfl in Hw. destruct (write addr len s); [by destruct Hw as (_ & _ & ?)| |done].
    by destruct Hw as (-> & _ & ?).
Qed.

(** An allocation is admitted exactly when it lies on the heap and no
    byte of it is allocated already; its bytes become writable but undefined,
    so that a load of any of them is refused until it has been stored to.
    Freeing it again restores the state of every byte. *)
Theorem wmemcheck_malloc_free s addr len s1 :
  Inv s -> 0 <= len -> addr + len <= usize_MAX -> malloc addr len s = Ret tt s1 ->
  on_heap s addr len = true /\ range_all s is_unallocated addr (addr + len)
  /\ (forall x, addr <= x < addr + len -> flag s = true ->
        read x 1 s1 = Fail (InvalidRead x 1) s1)
  /\ exists s2, free addr s1 = Ret tt s2 /\ mallocs s2 = delete addr (mallocs s)
       /\ forall x, state_at s2 x = state_at s x.
Proof.
  intros Hs Hlen Hmax Hm. pose proof (malloc_spec s addr len Hs Hlen Hmax) as Hsp.
  rewrite Hm in Hsp. destruct Hsp as (Hh & Hall & Hset & Hms & Hs1).
  pose proof Hset as (Hx & Hzl & Hmx & Hfl). split_and!; [done|done| |].
  - intros x Hin Hflag. pose proof (inv_size _ Hs1).
    unfold on_heap in Hh. simplify_bools.
    pose proof (read_spec s1 x 1 Hs1 ltac:(lia) ltac:(lia)) as Hr.
    assert (~ range_all s1 is_readable x (x + 1)) as Hnr.
    { intros Hbad. destruct (Hbad x) as (st & Hst & Hp); [lia|].
      rewrite Hx, decide_True in Hst by lia. by simplify_eq. }
    assert (on_heap s1 x 1 = true) as Hh1.
    { unfold on_heap. rewrite Hmx, Hzl, !(proj2 (Z.leb_le _ _)) by lia. done. }
    rewrite Hh1, orb_true_r in Hr. destruct (read x 1 s1) as [[] s'|e s'|]; [| |done].
    + destruct Hr as [_ Hr]. exfalso. apply Hnr, Hr. congruence.
    + by destruct Hr as (-> & _ & -> & _).
  - pose proof (wm_free_spec s1 addr Hs1) as Hf. rewrite Hms, lookup_insert_eq in Hf.
    destruct Hf as (s2 & Hf & _ & Hset2 & Hms2). exists s2. split_and!; [done| |].
    + by rewrite Hms2, delete_insert_eq.
    + intros x. rewrite (proj1 Hset2), Hx. case_decide as Hin; [|done].
      destruct (Hall x Hin) as (st & -> & Hu). by destruct st.
Qed.

(** After a free, freeing the block again is refused, and so is every
    load or store that touches one of its bytes. *)
Theorem wmemcheck_use_after_free s a l :
  Inv s -> flag s = true -> mallocs s !! a = Some l ->
  exists s', free a s = Ret tt s' /\ Inv s'
    /\ free a s' = Fail (InvalidFree a) s'
    /\ forall addr len x, 0 <= len -> addr + len <= usize_MAX ->
         a <= x < a + l -> addr <= x < addr + len ->
         (exists e, read addr len s' = Fail e s') /\ exists e, write addr len s' = Fail e s'.
Proof.
  intros Hs Hfl Hal. pose proof (wm_free_spec s a Hs) as Hf. rewrite Hal in Hf.
  destruct Hf as (s' & Hf & Hs' & Hset & Hms). exists s'. split_and!; [done|done| |].
  - pose proof (wm_free_spec s' a Hs') as Hf'. by rewrite Hms, lookup_delete_eq in Hf'.
  - intros addr len x Hlen Hmax Hin Hx. pose proof Hset as (Hst & _ & _ & Hflag).
    assert (state_at s' x = Some Unallocated) as Hu by (by rewrite Hst, decide_True).
    assert (forall p, p Unallocated = false -> ~ range_all s' p addr (addr + len)) as Hno.
    { intros p Hp Hall. destruct (Hall x Hx) as (st & Hst' & Hp'). congruence. }
    split.
    + pose proof (read_spec s' addr len Hs' Hlen Hmax) as Hr.
      destruct (read addr len s') as [[] s1|e s1|]; [| |done].
      * destruct Hr as [_ Hr]. exfalso. eapply (Hno is_readable); [done|].
        apply Hr. congruence.
      * destruct Hr as (-> & _). eauto.
    + pose proof (write_spec s' addr len Hs' Hlen Hmax) as Hw.
      rewrite Hflag, Hfl in Hw.
      destruct (write addr len s') as [[] s1|e s1|]; [| |done].
      * destruct Hw as (_ & _ & _ & Hall & _). exfalso. by eapply Hno, Hall.
      * destruct Hw as (-> & _). eauto.
Qed.

(** When the stack pointer is at the end of the stack and moves down, the
    first byte of the heap is marked as defined along with the stack: a load of
    it is admitted although it was never allocated, and allocating it is
    refused as a double allocation. *)
Theorem wmemcheck_stack_pointer_marks_heap s new_sp :
  Inv s -> flag s = true -> stack_pointer s = max_stack_size s ->
  0 <= new_sp < stack_pointer s -> state_at s (max_stack_size s) = Some Unallocated ->
  exists s', update_stack_pointer new_sp s = Ret tt s'
    /\ read (max_stack_size s) 1 s' = Ret tt s'
    /\ malloc (max_stack_size s) 1 s' = Fail (DoubleMalloc (max_stack_size s) 1) s'.
Proof.
  intros Hs Hfl Hsp Hnew Hu. pose proof (update_stack_pointer_spec s new_sp Hs) as Hup.
  pose proof (inv_fits _ Hs). pose proof (inv_size _ Hs).
  destruct (update_stack_pointer new_sp s) as [[] s'|e s'|];
    [|destruct Hup as [-> ?]; lia|exfalso; apply Hup; lia].
  destruct Hup as (Hs' & _ & _ & Hset); [lia|]. rewrite (proj2 (Z.ltb_lt _ _)) in Hset by lia.
  exists s'. split; [done|]. destruct Hset as (Hst & Hzl & Hmx & Hflag).
  set (m := max_stack_size s) in *.
  assert (state_at s' m = Some ValidToReadWrite) as Hm by (by rewrite Hst, decide_True by lia).
  assert (on_heap s' m 1 = true) as Hh.
  { unfold on_heap. rewrite Hmx, Hzl, !(proj2 (Z.leb_le _ _)) by lia. done. }
  assert (forall p b, p ValidToReadWrite = b -> range_all s' p m (m + 1) <-> b = true) as Hra.
  { intros p b <-. split.
    - intros Hall. destruct (Hall m) as (st & ? & ?); [lia|]. congruence.
    - intros Hp x Hx. assert (x = m) as -> by lia. eauto. }
  split.
  - pose proof (read_spec s' m 1 Hs' ltac:(lia) ltac:(lia)) as Hr.
    rewrite Hh, orb_true_r in Hr. destruct (read m 1 s') as [[] s1|e s1|]; [| |done].
    + by destruct Hr as [-> _].
    + destruct Hr as (_ & _ & _ & Hbad). exfalso. apply Hbad. by apply (Hra _ true).
  - pose proof (malloc_spec s' m 1 Hs' ltac:(lia) ltac:(lia)) as Hr. rewrite Hh in Hr.
    destruct (malloc m 1 s') as [[] s1|e s1|]; [| |done].
    + destruct Hr as (_ & Hbad & _). by apply (Hra _ false) in Hbad.
    + by destruct Hr as (-> & -> & _).
Qed.
End properties.

(** ** Witnesses

    A memory of 32 bytes with a stack of 7 bytes, one allocation of 4 bytes of
    which the first has been written. *)

Definition w0 : Wmemcheck := after (set_stack_size 7) (new 32).
Definition w1 : Wmemcheck := after (malloc 10 4) w0.
Definition w2 : Wmemcheck := after (write 10 1) w1.
Definition w3 : Wmemcheck := after (update_stack_pointer 8) w0.

Lemma w2_reachable : reachable w2.
Proof.
  exists 32, 7, w0. do 3 (split; [by vm_compute|]). split; [by vm_compute|].
  apply (rtc_l _ _ w1).
  { apply (s_malloc _ _ 10 4 (InvalidFree 0)); [lia|by vm_compute|left; by vm_compute]. }
  apply rtc_once, (s_write _ _ 10 1 (InvalidFree 0)); [lia|by vm_compute|left; by vm_compute].
Qed.

Lemma w3_reachable : reachable w3.
Proof.
  exists 32, 7, w0. do 3 (split; [by vm_compute|]). split; [by vm_compute|].
  apply rtc_once, (s_stack _ _ 8 (InvalidFree 0)); [lia|left; by vm_compute].
Qed.

Lemma w2_inv : Inv w2.
Proof. apply reachable_Inv, w2_reachable. Qed.

Lemma wmemcheck_reachable_total_witness : exists s', free 10 w2 = Ret tt s'.
Proof.
  destruct (wmemcheck_reachable_total w2 w2_reachable) as (_ & Hf & _).
  apply (Hf 10 4). by vm_compute.
Defined.

Lemma wmemcheck_access_correct_witness :
  read 10 1 w2 = Ret tt w2 /\ read 10 2 w2 <> Ret tt w2.
Proof.
  assert (flag w2 = true) as Hfl by reflexivity. split.
  - destruct (wmemcheck_access_correct w2 10 1 w2_inv Hfl ltac:(lia)
      ltac:(vm_compute; discriminate)) as [[_ Hr] _].
    apply Hr. split; [reflexivity|]. intros x Hx. exists ValidToReadWrite.
    assert (x = 10) as -> by lia. split; reflexivity.
  - destruct (wmemcheck_access_correct w2 10 2 w2_inv Hfl ltac:(lia)
      ltac:(vm_compute; discriminate)) as [[Hr _] _].
    intros Hbad. destruct (Hr Hbad) as [_ Hall].
    destruct (Hall 11) as (st & Hst & Hp); [lia|]. vm_compute in Hst. injection Hst as <-.
    discriminate Hp.
Defined.

Lemma wmemcheck_malloc_free_witness :
  exists s2, free 20 (after (malloc 20 4) w2) = Ret tt s2
    /\ forall x, state_at s2 x = state_at w2 x.
Proof.
  destruct (wmemcheck_malloc_free w2 20 4 (after (malloc 20 4) w2) w2_inv)
    as (_ & _ & _ & s2 & Hf & _ & Hx); [lia|by vm_compute|by vm_compute|].
  exists s2. split; [exact Hf|exact Hx].
Defined.

Lemma wmemcheck_use_after_free_witness :
  exists s', free 10 w2 = Ret tt s' /\ exists e, read 10 1 s' = Fail e s'.
Proof.
  destruct (wmemcheck_use_after_free w2 10 4 w2_inv) as (s' & Hf & _ & _ & Hu);
    [by vm_compute|by vm_compute|].
  exists s'. split; [exact Hf|].
  apply (Hu 10 1 10); [lia|by vm_compute|lia|lia].
Defined.

Lemma wmemcheck_stack_pointer_marks_heap_witness :
  exists s', update_stack_pointer 0 w3 = Ret tt s' /\ read 8 1 s' = Ret tt s'.
Proof.
  destruct (wmemcheck_stack_pointer_marks_heap w3 0 (reachable_Inv w3 w3_reachable))
    as (s' & Hu & Hr & _); [by vm_compute..|].
  exists s'. split; [exact Hu|exact Hr].
Defined.
