(* ===== verification/IndexAllocator.v ===== *)
(** * IndexAllocator: slots of the pooling allocator

    Models crates/wasmtime/src/runtime/vm/instance/allocator/pooling/index_allocator.rs:
    the slots of a pool, the intrusive doubly linked list of the warm (used
    before, now unused) slots and one such list for each module's memory the
    warm slots were last used for.  The specification keeps one queue of warm
    slots in the order they were freed; the theorems show that the linked lists
    implement it.  The mutex around the state makes each operation atomic, so a
    run is a sequence of operations. *)

From S2P Require Import Prelude.

(** ** Data *)

(** [MemoryInModule(CompiledModuleId, DefinedMemoryIndex)]. *)
Definition MemoryInModule : Type := Z * Z.

Record List := mkList { head : option Z; tail : option Z }.
Record Link := mkLink { prev : option Z; next : option Z }.

Definition List_default : List := mkList None None.
Definition Link_default : Link := mkLink None None.

Record Unused := mkUnused {
  affinity : option MemoryInModule;
  bytes_resident : Z;
  affine_list_link : Link;
  unused_list_link : Link;
}.

Inductive SlotState :=
| Used (m : option MemoryInModule)
| UnusedCold
| UnusedWarm (u : Unused).

Inductive AllocMode := ForceAffineAndClear | AnySlot.

Record Inner := mkInner {
  max_unused_warm_slots : Z;
  unused_warm_slots : Z;
  warm : List;
  last_cold : Z;
  slot_state : list SlotState;
  module_affine : gmap MemoryInModule List;
  unused_bytes_resident : Z;
}.

(** Which of its two links a list goes through: the accessor functions passed
    to [List]'s methods. *)
Inductive accessor := AffineLink | WarmLink.

Definition link (w : accessor) (u : Unused) : Link :=
  match w with AffineLink => affine_list_link u | WarmLink => unused_list_link u end.

Definition set_link (w : accessor) (k : Link) (u : Unused) : Unused :=
  match w with
  | AffineLink => mkUnused (affinity u) (bytes_resident u) k (unused_list_link u)
  | WarmLink => mkUnused (affinity u) (bytes_resident u) (affine_list_link u) k
  end.

(** ** The linked lists *)

(** [states[i].unwrap_unused()]; [None] is a panic. *)
Definition unwrap_unused (states : list SlotState) (i : Z) : option Unused :=
  match zget states i with Some (UnusedWarm u) => Some u | _ => None end.

Definition update_link (w : accessor) (f : Link -> Link) (i : Z)
  (states : list SlotState) : option (list SlotState) :=
  u ← unwrap_unused states i;
  Some (zset states i (UnusedWarm (set_link w (f (link w u)) u))).

Definition set_next (n : option Z) (k : Link) : Link := mkLink (prev k) n.
Definition set_prev (p : option Z) (k : Link) : Link := mkLink p (next k).

Definition List_new (id : Z) : List := mkList (Some id) (Some id).

Definition List_append (w : accessor) (id : Z) (l : List) (states : list SlotState)
  : option (Link * List * list SlotState) :=
  match tail l with
  | Some t =>
      states ← update_link w (set_next (Some id)) t states;
      Some (mkLink (Some t) None, mkList (head l) (Some id), states)
  | None => Some (mkLink None None, mkList (Some id) (Some id), states)
  end.

Definition List_remove (w : accessor) (id : Z) (l : List) (states : list SlotState)
  : option (List * list SlotState) :=
  state ← unwrap_unused states id;
  let n := next (link w state) in
  let p := prev (link w state) in
  '(tl, states) ← match n with
                  | Some n => states ← update_link w (set_prev p) n states;
                              Some (tail l, states)
                  | None => Some (p, states)
                  end;
  '(hd, states) ← match p with
                  | Some p => states ← update_link w (set_next n) p states;
                              Some (head l, states)
                  | None => Some (n, states)
                  end;
  Some (mkList hd tl, states).

(** ** Operations *)

Abbreviation IM := (M Inner Empty_set).

Definition set_states (st : list SlotState) (s : Inner) : Inner :=
  mkInner (max_unused_warm_slots s) (unused_warm_slots s) (warm s) (last_cold s) st
    (module_affine s) (unused_bytes_resident s).
Definition set_warm (l : List) (s : Inner) : Inner :=
  mkInner (max_unused_warm_slots s) (unused_warm_slots s) l (last_cold s) (slot_state s)
    (module_affine s) (unused_bytes_resident s).
Definition set_warm_slots (n : Z) (s : Inner) : Inner :=
  mkInner (max_unused_warm_slots s) n (warm s) (last_cold s) (slot_state s)
    (module_affine s) (unused_bytes_resident s).
Definition set_last_cold (n : Z) (s : Inner) : Inner :=
  mkInner (max_unused_warm_slots s) (unused_warm_slots s) (warm s) n (slot_state s)
    (module_affine s) (unused_bytes_resident s).
Definition set_affine (m : gmap MemoryInModule List) (s : Inner) : Inner :=
  mkInner (max_unused_warm_slots s) (unused_warm_slots s) (warm s) (last_cold s)
    (slot_state s) m (unused_bytes_resident s).
Definition set_bytes (n : Z) (s : Inner) : Inner :=
  mkInner (max_unused_warm_slots s) (unused_warm_slots s) (warm s) (last_cold s)
    (slot_state s) (module_affine s) n.

Definition new (capacity max_unused_warm : Z) : Inner :=
  mkInner max_unused_warm 0 List_default 0
    (replicate (Z.to_nat capacity) UnusedCold) ∅ 0.

Definition is_empty (s : Inner) : bool :=
  negb (existsb (fun st => match st with Used _ => true | _ => false end) (slot_state s)).

Definition remove (slot : Z) : IM unit :=
  s <- get ;;
  n <- unwrap (checked_sub (unused_warm_slots s) 1) ;;
  put (set_warm_slots n s) ;;;
  s <- get ;;
  r <- unwrap (List_remove WarmLink slot (warm s) (slot_state s)) ;;
  put (set_states r.2 (set_warm r.1 s)) ;;;
  s <- get ;;
  u <- unwrap (unwrap_unused (slot_state s) slot) ;;
  match affinity u with
  | Some module =>
      l <- unwrap (module_affine s !! module) ;;
      r <- unwrap (List_remove AffineLink slot l (slot_state s)) ;;
      put (set_states r.2
        (set_affine (match head r.1 with
                     | None => delete module (module_affine s)
                     | Some _ => <[module := r.1]> (module_affine s)
                     end) s))
  | None => ret tt
  end.

Definition pick_affine (for_memory : option MemoryInModule) : IM (option Z) :=
  s <- get ;;
  match m ← for_memory; l ← module_affine s !! m; tail l with
  | Some i => remove i ;;; ret (Some i)
  | None => ret None
  end.

Definition pick_warm : IM (option Z) :=
  s <- get ;;
  match head (warm s) with
  | Some i => remove i ;;; ret (Some i)
  | None => ret None
  end.

Definition pick_cold : IM (option Z) :=
  s <- get ;;
  if last_cold s =? zlen (slot_state s) then ret None
  else
    n <- unwrap (checked_add u32_MAX (last_cold s) 1) ;;
    put (set_last_cold n s) ;;; ret (Some (last_cold s)).

(** [Option::or_else]. *)
Definition or_pick (m k : IM (option Z)) : IM (option Z) :=
  r <- m ;; match r with Some i => ret (Some i) | None => k end.

Definition alloc_ (for_memory : option MemoryInModule) (mode : AllocMode)
  : IM (option Z) :=
  r <- or_pick (pick_affine for_memory)
    (match mode with
     | AnySlot =>
         s <- get ;;
         if unused_warm_slots s <? max_unused_warm_slots s
         then or_pick pick_cold pick_warm
         else or_pick pick_warm
                (s <- get ;; rust_assert (max_unused_warm_slots s =? 0) ;;; pick_cold)
     | ForceAffineAndClear => ret None
     end) ;;
  match r with
  | None => ret None
  | Some slot_id =>
      s <- get ;;
      slot <- unwrap (zget (slot_state s) slot_id) ;;
      (match slot with
       | UnusedWarm u =>
           n <- unwrap (checked_sub (unused_bytes_resident s) (bytes_resident u)) ;;
           modify (set_bytes n)
       | _ => ret tt
       end) ;;;
      modify (fun s => set_states
        (zset (slot_state s) slot_id
           (Used (match mode with ForceAffineAndClear => None | AnySlot => for_memory end)))
        s) ;;;
      ret (Some slot_id)
  end.

Definition alloc (for_memory : option MemoryInModule) : IM (option Z) :=
  alloc_ for_memory AnySlot.

Definition alloc_affine_and_clear_affinity (m : MemoryInModule) : IM (option Z) :=
  alloc_ (Some m) ForceAffineAndClear.

Definition free (index bytes : Z) : IM unit :=
  s <- get ;;
  slot <- unwrap (zget (slot_state s) index) ;;
  match slot with
  | Used module_memory =>
      n <- unwrap (checked_add u32_MAX (unused_warm_slots s) 1) ;;
      r <- unwrap (List_append WarmLink index (warm s) (slot_state s)) ;;
      let '(unused_link, warm', states) := r : Link * List * list SlotState in
      put (set_states states (set_warm warm' (set_warm_slots n s))) ;;;
      s <- get ;;
      affine_link <-
        match module_memory with
        | Some module =>
            match module_affine s !! module with
            | Some l =>
                r <- unwrap (List_append AffineLink index l (slot_state s)) ;;
                let '(k, l', states) := r : Link * List * list SlotState in
                put (set_states states (set_affine (<[module := l']> (module_affine s)) s)) ;;;
                ret k
            | None =>
                put (set_affine (<[module := List_new index]> (module_affine s)) s) ;;;
                ret Link_default
            end
        | None => ret Link_default
        end ;;
      s <- get ;;
      n <- unwrap (checked_add usize_MAX (unused_bytes_resident s) bytes) ;;
      put (set_bytes n (set_states
        (zset (slot_state s) index
           (UnusedWarm (mkUnused module_memory bytes affine_link unused_link))) s))
  | _ => panic
  end.

(** [SimpleIndexAllocator] is the allocator without affinity. *)
Definition Simple_new (capacity : Z) : Inner := new capacity 0.
Definition Simple_alloc : IM (option Z) := alloc None.
Definition Simple_free (index bytes : Z) : IM unit := free index bytes.

(** ** Doubly linked lists

    [links g p l n]: following the links [g] the slots [l] are visited in order,
    with [p] before the first and [n] after the last. *)

Definition first (l : list Z) (n : option Z) : option Z :=
  match l with [] => n | i :: _ => Some i end.
Definition final (p : option Z) (l : list Z) : option Z :=
  match last l with Some i => Some i | None => p end.

Fixpoint links (g : Z -> option Link) (p : option Z) (l : list Z) (n : option Z) : Prop :=
  match l with
  | [] => True
  | i :: l => g i = Some (mkLink p (first l n)) /\ links g (Some i) l n
  end.

(** The list [L] holds the slots [l]. *)
Definition dll (g : Z -> option Link) (L : List) (l : list Z) : Prop :=
  head L = first l None /\ tail L = last l /\ links g None l None.

Section lists.
Implicit Types (g : Z -> option Link) (l : list Z) (p n : option Z) (i j : Z)
  (st : list SlotState) (w : accessor).

Lemma first_app l1 l2 n : first (l1 ++ l2) n = first l1 (first l2 n).
Proof. by destruct l1. Qed.

Lemma final_cons p i l : final p (i :: l) = final (Some i) l.
Proof. unfold final. rewrite last_cons. by destruct (last l). Qed.

Lemma links_app g p l1 l2 n :
  links g p (l1 ++ l2) n <-> links g p l1 (first l2 n) /\ links g (final p l1) l2 n.
Proof.
  revert p. induction l1 as [|i l1 IH]; intros p; simpl; [tauto|].
  rewrite IH, first_app, final_cons. tauto.
Qed.

Lemma links_ext g g' p l n :
  (forall i, i ∈ l -> g' i = g i) -> links g p l n -> links g' p l n.
Proof.
  revert p. induction l as [|i l IH]; intros p Hg; [done|]. simpl. intros [Hi Hl].
  split; [rewrite Hg by set_solver; done|]. apply IH; [set_solver|done].
Qed.

(** Changing what comes after the last slot, or before the first. *)
Lemma links_set_next g g' p l n n' :
  NoDup l ->
  (forall i, i ∈ l -> g' i = if decide (last l = Some i) then set_next n' <$> g i else g i) ->
  links g p l n -> links g' p l n'.
Proof.
  revert p. induction l as [|i l IH]; intros p Hnd Hg; [done|]. simpl. intros [Hi Hl].
  apply NoDup_cons in Hnd as [Hni Hnd]. split.
  - rewrite Hg, Hi by set_solver. destruct l as [|j l]; [by rewrite decide_True|].
    rewrite decide_False; [done|]. intros Hlast. apply Hni.
    change (last (j :: l) = Some i) in Hlast. apply last_Some in Hlast as [l' ->]. set_solver.
  - apply IH; [done| |done]. intros j Hj. rewrite Hg by set_solver.
    destruct l as [|k l]; [set_solver|]. done.
Qed.

Lemma links_set_prev g g' p p' l n :
  NoDup l ->
  (forall i, i ∈ l -> g' i = if decide (first l None = Some i) then set_prev p' <$> g i else g i) ->
  links g p l n -> links g' p' l n.
Proof.
  destruct l as [|i l]; [done|]. simpl. intros [Hni Hnd]%NoDup_cons Hg [Hi Hl]. split.
  - rewrite Hg, Hi by set_solver. by rewrite decide_True.
  - eapply links_ext; [|done]. intros j Hj. rewrite Hg by set_solver.
    rewrite decide_False; [done|]. intros [= ->]. done.
Qed.

(** *** Links in the slots *)

Definition link_of w st i : option Link := link w <$> unwrap_unused st i.

(** A slot without its links. *)
Definition erase (s : SlotState) : SlotState :=
  match s with
  | UnusedWarm u =>
      UnusedWarm (mkUnused (affinity u) (bytes_resident u) Link_default Link_default)
  | _ => s
  end.

(** Only links of the accessor [w] differ. *)
Definition relinked w st st' : Prop :=
  erase <$> st' = erase <$> st
  /\ forall w' i, w' <> w -> link_of w' st' i = link_of w' st i.

Lemma relinked_refl w st : relinked w st st.
Proof. done. Qed.

Lemma relinked_trans w st st' st'' :
  relinked w st st' -> relinked w st' st'' -> relinked w st st''.
Proof.
  intros [He Hl] [He' Hl']. split; [by rewrite He'|]. intros w' i Hne. by rewrite Hl', Hl.
Qed.

Lemma unwrap_unused_zset st i u j :
  0 <= i < zlen st ->
  unwrap_unused (zset st i (UnusedWarm u)) j
  = if decide (i = j) then Some u else unwrap_unused st j.
Proof. intros. unfold unwrap_unused. rewrite zget_zset by done. by case_decide. Qed.

Lemma unwrap_unused_lt st i u : unwrap_unused st i = Some u -> 0 <= i < zlen st.
Proof.
  unfold unwrap_unused. destruct (zget st i) eqn:Hz; [|done]. intros _. by eapply zget_lt.
Qed.

Lemma update_link_run w f i st k :
  link_of w st i = Some k ->
  exists st', update_link w f i st = Some st' /\ relinked w st st'
    /\ forall j, link_of w st' j = if decide (i = j) then Some (f k) else link_of w st j.
Proof.
  unfold link_of, update_link. destruct (unwrap_unused st i) as [u|] eqn:Hu; [|done].
  simpl. intros [= <-]. pose proof (unwrap_unused_lt _ _ _ Hu) as Hlt.
  eexists. split; [done|]. split; [split|].
  - unfold zset. rewrite list_fmap_insert. simpl. apply list_insert_id.
    unfold unwrap_unused in Hu. destruct (zget st i) as [[]|] eqn:Hz; try done.
    injection Hu as ->. apply zget_Some in Hz as [_ Hz].
    rewrite list_lookup_fmap, Hz. by destruct w.
  - intros w' j Hne. unfold link_of. rewrite unwrap_unused_zset by done.
    case_decide; [|done]. subst. rewrite Hu. by destruct w, w'.
  - intros j. rewrite unwrap_unused_zset by done. case_decide; [|done]. by destruct w.
Qed.

Lemma first_links g p l n i :
  links g p l n -> first l None = Some i -> is_Some (g i).
Proof. destruct l; simpl; [done|]. intros [? _] [= ->]. eauto. Qed.

Lemma last_links g p l n i : links g p l n -> last l = Some i -> is_Some (g i).
Proof.
  intros Hl [l' ->]%last_Some. apply links_app in Hl as [_ [? _]]. eauto.
Qed.

Lemma final_None l : final None l = last l.
Proof. unfold final. by destruct (last l). Qed.

Lemma last_app_snoc l1 l2 : last (l1 ++ l2) = final (last l1) l2.
Proof.
  unfold final. destruct l2 as [|i l2] using rev_ind; [by rewrite app_nil_r|].
  by rewrite app_assoc, !last_snoc.
Qed.

Lemma List_append_spec w id L st l :
  dll (link_of w st) L l -> NoDup l -> id ∉ l ->
  exists L' st', List_append w id L st = Some (mkLink (last l) None, L', st')
    /\ relinked w st st'
    /\ (forall j, j ∉ l -> link_of w st' j = link_of w st j)
    /\ forall g, (forall j, j ∈ l -> g j = link_of w st' j) ->
         g id = Some (mkLink (last l) None) -> dll g L' (l ++ [id]).
Proof.
  intros (Hh & Ht & Hl) Hnd Hid. unfold List_append. rewrite Ht.
  destruct (last l) as [t|] eqn:Hlast; cycle 1.
  { apply last_None in Hlast as ->. eexists _, _. split; [done|].
    split; [apply relinked_refl|]. split; [done|]. intros g _ Hg. by repeat split. }
  destruct (last_links _ _ _ _ _ Hl Hlast) as [k Hk].
  destruct (update_link_run w (set_next (Some id)) t st k Hk) as (st' & Hu & Hrel & Hlk).
  rewrite Hu. simpl. eexists _, _. split; [done|]. split; [done|]. split.
  - intros j Hj. rewrite Hlk. case_decide; [|done]. subst.
    apply last_Some in Hlast as [l' ->]. set_solver.
  - intros g Hg Hgid. split; [|split].
    + simpl. rewrite first_app, Hh. by destruct l.
    + by rewrite last_snoc.
    + apply links_app. simpl. rewrite final_None, Hlast. split; [|done].
      eapply (links_set_next _ _ _ _ None); [done| |exact Hl].
      intros j Hj. rewrite Hg, Hlk by done. rewrite Hlast.
      repeat case_decide; simplify_eq; [|done]. by rewrite Hk.
Qed.

(** The two halves of a removal: the slot after [id] gets its predecessor, the
    slot before it its successor; at the ends the list itself is adjusted. *)
Lemma remove_after w L st l1 id l2 :
  tail L = last (l1 ++ id :: l2) -> links (link_of w st) (Some id) l2 None ->
  exists st1, (match first l2 None with
      | Some n => states ← update_link w (set_prev (last l1)) n st; Some (tail L, states)
      | None => Some (last l1, st) end) = Some (last (l1 ++ l2), st1)
    /\ relinked w st st1
    /\ forall j, link_of w st1 j = if decide (first l2 None = Some j)
         then set_prev (last l1) <$> link_of w st j else link_of w st j.
Proof.
  intros Ht Hl2. destruct l2 as [|n l2]; simpl.
  - rewrite app_nil_r. exists st. done.
  - destruct Hl2 as [Hn _]. destruct (update_link_run w (set_prev (last l1)) n st _ Hn)
      as (st1 & -> & ? & Hlk). simpl. exists st1. split; [|split; [done|]].
    + by rewrite Ht, !last_app_snoc, !final_cons.
    + intros j. rewrite Hlk. repeat case_decide; simplify_eq; [|done]. by rewrite Hn.
Qed.

Lemma remove_before w L st l1 id l2 :
  head L = first (l1 ++ id :: l2) None -> links (link_of w st) None l1 (Some id) ->
  exists st2, (match last l1 with
      | Some p => states ← update_link w (set_next (first l2 None)) p st; Some (head L, states)
      | None => Some (first l2 None, st) end) = Some (first (l1 ++ l2) None, st2)
    /\ relinked w st st2
    /\ forall j, link_of w st2 j = if decide (last l1 = Some j)
         then set_next (first l2 None) <$> link_of w st j else link_of w st j.
Proof.
  intros Hh Hl1. destruct (last l1) as [p|] eqn:Hlast.
  - destruct (last_links _ _ _ _ _ Hl1 Hlast) as [k Hk].
    destruct (update_link_run w (set_next (first l2 None)) p st _ Hk) as (st2 & -> & ? & Hlk).
    simpl. exists st2. split; [|split; [done|]].
    + rewrite Hh, !first_app. by destruct l1.
    + intros j. rewrite Hlk. repeat case_decide; simplify_eq; [|done]. by rewrite Hk.
  - apply last_None in Hlast as ->. exists st. done.
Qed.

Lemma List_remove_spec w id L st l1 l2 :
  dll (link_of w st) L (l1 ++ id :: l2) -> NoDup (l1 ++ id :: l2) ->
  exists L' st', List_remove w id L st = Some (L', st')
    /\ relinked w st st'
    /\ (forall j, j ∉ l1 ++ l2 -> link_of w st' j = link_of w st j)
    /\ dll (link_of w st') L' (l1 ++ l2).
Proof.
  intros (Hh & Ht & Hl) Hnd. apply links_app in Hl as [Hl1 [Hi Hl2]].
  rewrite final_None in Hi. simpl in Hl1.
  apply NoDup_app in Hnd as (Hnd1 & Hdisj & [Hni Hnd2]%NoDup_cons).
  unfold List_remove. unfold link_of in Hi.
  destruct (unwrap_unused st id) as [u|]; [|done]. simpl in Hi. injection Hi as Hi.
  simpl. rewrite Hi. simpl.
  destruct (remove_after w L st l1 id l2 Ht Hl2) as (st1 & -> & Hrel1 & Hlk1).
  assert (forall j, j ∈ l1 -> link_of w st1 j = link_of w st j) as Hfr1.
  { intros j Hj. rewrite Hlk1. rewrite decide_False; [done|]. intros Hf.
    apply (Hdisj j Hj). destruct l2; simplify_eq/=. set_solver. }
  destruct (remove_before w L st1 l1 id l2 Hh) as (st2 & H2 & Hrel2 & Hlk2).
  { eapply links_ext; [|done]. done. }
  simpl. rewrite H2. simpl. eexists _, st2. split; [done|].
  split; [by eapply relinked_trans|]. split.
  - intros j Hj. rewrite Hlk2, Hlk1.
    rewrite decide_False by (intros [l' ->]%last_Some; set_solver).
    rewrite decide_False; [done|]. intros Hf. destruct l2; simplify_eq/=. set_solver.
  - split; [done|]. split; [done|]. apply links_app. rewrite final_None. split.
    + eapply (links_set_next _ _ _ _ (Some id)); [done| |exact Hl1].
      intros j Hj. rewrite Hlk2, Hfr1 by done. done.
    + eapply (links_set_prev _ _ (Some id)); [done| |exact Hl2].
      intros j Hj. rewrite Hlk2, Hlk1. rewrite (decide_False (P := last l1 = Some j)); [done|].
      intros [l' ->]%last_Some. apply (Hdisj j); set_solver.
Qed.
End lists.

(** ** The queue of warm slots *)

(** The affinity and the resident bytes of a warm slot. *)
Definition info (st : list SlotState) (i : Z) : option (option MemoryInModule * Z) :=
  (fun u => (affinity u, bytes_resident u)) <$> unwrap_unused st i.

Definition affine_to (st : list SlotState) (m : MemoryInModule) (i : Z) : bool :=
  bool_decide (fst <$> info st i = Some (Some m)).

Definition bytes_at (st : list SlotState) (i : Z) : Z :=
  match info st i with Some (_, n) => n | None => 0 end.

(** The warm slots of the queue last used for [m]. *)
Definition affine_queue (st : list SlotState) (m : MemoryInModule) (q : list Z) : list Z :=
  List.filter (affine_to st m) q.

(** The linked lists of [s] hold the queue [q]; [x] is a warm slot that has been
    taken off the lists but not yet marked as used. *)
Record rep (s : Inner) (q : list Z) (x : option Z) : Prop := {
  rep_size : zlen (slot_state s) <= u32_MAX;
  rep_max : 0 <= max_unused_warm_slots s;
  rep_nodup : NoDup q;
  rep_warm_iff : forall i, i ∈ q <-> is_Some (info (slot_state s) i) /\ x <> Some i;
  rep_warm : dll (link_of WarmLink (slot_state s)) (warm s) q;
  rep_affine : forall m,
    match module_affine s !! m with
    | Some l => affine_queue (slot_state s) m q <> []
        /\ dll (link_of AffineLink (slot_state s)) l (affine_queue (slot_state s) m q)
    | None => affine_queue (slot_state s) m q = []
    end;
  rep_count : unused_warm_slots s = zlen q;
  rep_cold : 0 <= last_cold s <= zlen (slot_state s)
    /\ forall i, zget (slot_state s) i = Some UnusedCold
                 <-> last_cold s <= i < zlen (slot_state s);
  rep_bytes : unused_bytes_resident s
    = total (bytes_at (slot_state s)) q
      + match x with Some i => bytes_at (slot_state s) i | None => 0 end;
  rep_nonneg : forall i, 0 <= bytes_at (slot_state s) i;
}.

Section queue.
Implicit Types (st : list SlotState) (q : list Z) (i j : Z) (m : MemoryInModule) (s : Inner).

Lemma erase_zget st st' i :
  erase <$> st' = erase <$> st -> erase <$> zget st' i = erase <$> zget st i.
Proof.
  intros He. unfold zget. destruct (0 <=? i); [|done].
  by rewrite <- !list_lookup_fmap, He.
Qed.

Lemma erase_zlen st st' : erase <$> st' = erase <$> st -> zlen st' = zlen st.
Proof. intros He%(f_equal length). rewrite !length_fmap in He. unfold zlen. lia. Qed.

Lemma info_erase st st' i : erase <$> st' = erase <$> st -> info st' i = info st i.
Proof.
  intros He%(erase_zget _ _ i). unfold info, unwrap_unused.
  destruct (zget st' i) as [[]|], (zget st i) as [[]|]; simplify_eq/=; try done.
  congruence.
Qed.

Lemma cold_erase st st' i :
  erase <$> st' = erase <$> st -> zget st' i = Some UnusedCold <-> zget st i = Some UnusedCold.
Proof.
  intros He%(erase_zget _ _ i).
  destruct (zget st' i) as [[]|], (zget st i) as [[]|]; simplify_eq/=; try done.
Qed.

Lemma affine_queue_ext st st' m q :
  (forall i, i ∈ q -> info st' i = info st i) -> affine_queue st' m q = affine_queue st m q.
Proof.
  intros Hi. apply filter_ext_in. intros i Hin%list_elem_of_In. unfold affine_to.
  by rewrite Hi.
Qed.

Lemma elem_of_affine_queue st m q i :
  i ∈ affine_queue st m q <-> i ∈ q /\ fst <$> info st i = Some (Some m).
Proof.
  unfold affine_queue. rewrite list_elem_of_In, filter_In, <- list_elem_of_In.
  unfold affine_to. by rewrite bool_decide_eq_true.
Qed.

Lemma affine_queue_nodup st m q : NoDup q -> NoDup (affine_queue st m q).
Proof. intros. rewrite NoDup_ListNoDup in *. by apply List.NoDup_filter. Qed.

Lemma affine_queue_split st m l1 i l2 :
  affine_queue st m (l1 ++ i :: l2)
  = affine_queue st m l1
    ++ (if affine_to st m i then i :: affine_queue st m l2 else affine_queue st m l2).
Proof. unfold affine_queue. by rewrite List.filter_app. Qed.

Lemma affine_queue_app st m l1 l2 :
  affine_queue st m (l1 ++ l2) = affine_queue st m l1 ++ affine_queue st m l2.
Proof. unfold affine_queue. by rewrite List.filter_app. Qed.

(** The lists in [aff] hold the slots of the queue by their affinity. *)
Definition affine_ok (st : list SlotState) (links_in : list SlotState)
  (aff : gmap MemoryInModule List) q : Prop :=
  forall m, match aff !! m with
    | Some l => affine_queue st m q <> []
        /\ dll (link_of AffineLink links_in) l (affine_queue st m q)
    | None => affine_queue st m q = []
    end.

(** Taking slot [i] off the lists. *)
Lemma rep_detach s l1 i l2 st' warm' aff' :
  rep s (l1 ++ i :: l2) None -> erase <$> st' = erase <$> slot_state s ->
  dll (link_of WarmLink st') warm' (l1 ++ l2) ->
  affine_ok (slot_state s) st' aff' (l1 ++ l2) ->
  rep (set_states st' (set_affine aff' (set_warm warm'
    (set_warm_slots (zlen (l1 ++ i :: l2) - 1) s)))) (l1 ++ l2) (Some i).
Proof.
  intros [Hsz Hmx Hnd Hiff _ _ Hc [Hcold Hci] Hb Hnn] He Hw Ha.
  assert (forall j, info st' j = info (slot_state s) j) as Hi by (intros; by apply info_erase).
  assert (forall j, bytes_at st' j = bytes_at (slot_state s) j) as Hby
    by (intros j; unfold bytes_at; by rewrite Hi).
  pose proof (erase_zlen _ _ He) as Hlen.
  assert (NoDup (l1 ++ l2) /\ i ∉ l1 ++ l2) as [Hnd' Hni].
  { rewrite <- Permutation_middle in Hnd. apply NoDup_cons in Hnd as [??]. done. }
  split; simpl; try done.
  - by rewrite Hlen.
  - intros j. rewrite Hi. split.
    + intros Hj. split; [apply Hiff; set_solver|]. intros [= ->]. done.
    + intros [Hs Hne]. assert (j ∈ l1 ++ i :: l2) as Hj by (by apply Hiff).
      assert (j <> i) by congruence. set_solver.
  - intros m. specialize (Ha m). rewrite (affine_queue_ext (slot_state s) st') by done.
    done.
  - rewrite !zlen_app, zlen_cons. lia.
  - rewrite Hlen. split; [done|]. intros j. rewrite (cold_erase _ _ _ He). apply Hci.
  - rewrite (total_ext _ (bytes_at (slot_state s))) by done. rewrite Hb, Hby.
    rewrite !total_app. simpl. lia.
  - intros j. by rewrite Hby.
Qed.

Lemma rep_affine_ok s q x :
  rep s q x -> affine_ok (slot_state s) (slot_state s) (module_affine s) q.
Proof. intros Hr m. apply (rep_affine _ _ _ Hr). Qed.

(** The affine lists after slot [i], affine to [m], left its list. *)
Lemma affine_ok_remove st st1 st2 aff l1 i l2 m L L' :
  NoDup (l1 ++ i :: l2) -> affine_ok st st1 aff (l1 ++ i :: l2) -> aff !! m = Some L ->
  fst <$> info st i = Some (Some m) ->
  dll (link_of AffineLink st2) L' (affine_queue st m l1 ++ affine_queue st m l2) ->
  (forall j, j ∉ affine_queue st m l1 ++ affine_queue st m l2 ->
     link_of AffineLink st2 j = link_of AffineLink st1 j) ->
  affine_ok st st2
    (match head L' with None => delete m aff | Some _ => <[m := L']> aff end) (l1 ++ l2).
Proof.
  intros Hnd Ha Hm Hi Hd Hfr m'.
  destruct (decide (m' = m)) as [->|Hne].
  - rewrite affine_queue_app. pose proof Hd as [Hh _].
    destruct (affine_queue st m l1 ++ affine_queue st m l2) as [|j r] eqn:Hq.
    + rewrite Hh. simpl. by rewrite lookup_delete_eq.
    + rewrite Hh. simpl. rewrite lookup_insert_eq. done.
  - assert (affine_queue st m' (l1 ++ i :: l2) = affine_queue st m' (l1 ++ l2)) as Hsame.
    { rewrite affine_queue_split, affine_queue_app. unfold affine_to.
      rewrite bool_decide_false; [done|]. congruence. }
    specialize (Ha m'). rewrite Hsame in Ha.
    assert ((match head L' with None => delete m aff | Some _ => <[m := L']> aff end) !! m'
            = aff !! m') as ->
      by (destruct (head L'); [by rewrite lookup_insert_ne|by rewrite lookup_delete_ne]).
    destruct (aff !! m') as [l|]; [|done]. destruct Ha as [? (? & ? & Hl)].
    split; [done|]. split; [done|]. split; [done|].
    eapply links_ext; [|exact Hl]. intros j [_ Hj]%elem_of_affine_queue. apply Hfr.
    rewrite <- affine_queue_app, elem_of_affine_queue. intros [_ Hj']. congruence.
Qed.

Lemma affine_ok_links st st1 st2 aff q :
  affine_ok st st1 aff q ->
  (forall j, j ∈ q -> link_of AffineLink st2 j = link_of AffineLink st1 j) ->
  affine_ok st st2 aff q.
Proof.
  intros Ha Hl m. specialize (Ha m). destruct (aff !! m); [|done].
  destruct Ha as [? (? & ? & Hlk)]. split; [done|]. split; [done|]. split; [done|].
  eapply links_ext; [|exact Hlk]. intros j [Hj _]%elem_of_affine_queue. by apply Hl.
Qed.

Lemma affine_ok_drop st st1 aff l1 i l2 :
  affine_ok st st1 aff (l1 ++ i :: l2) -> fst <$> info st i = Some None ->
  affine_ok st st1 aff (l1 ++ l2).
Proof.
  intros Ha Hi m. specialize (Ha m).
  assert (affine_queue st m (l1 ++ i :: l2) = affine_queue st m (l1 ++ l2)) as <-; [|done].
  rewrite affine_queue_split, affine_queue_app. unfold affine_to.
  rewrite bool_decide_false; [done|]. rewrite Hi. done.
Qed.

Lemma index_remove_spec s l1 i l2 :
  rep s (l1 ++ i :: l2) None ->
  exists s', remove i s = Ret tt s' /\ rep s' (l1 ++ l2) (Some i)
    /\ erase <$> slot_state s' = erase <$> slot_state s
    /\ max_unused_warm_slots s' = max_unused_warm_slots s /\ last_cold s' = last_cold s.
Proof.
  intros Hr. pose proof Hr as [Hsz _ Hnd Hiff Hw _ Hc _ _ _].
  assert (is_Some (info (slot_state s) i)) as [[a n] Hi] by (apply Hiff; set_solver).
  unfold remove. rewrite (bind_run get _ s s s) by done.
  assert (checked_sub (unused_warm_slots s) 1 = Some (zlen (l1 ++ i :: l2) - 1)) as Hsub.
  { apply checked_sub_Some. rewrite Hc, zlen_app, zlen_cons.
    pose proof (zlen_nonneg l1). pose proof (zlen_nonneg l2). lia. }
  rewrite (bind_run _ _ _ _ _ (unwrap_run _ _ s Hsub)).
  unfold put. set (s1 := set_warm_slots (zlen (l1 ++ i :: l2) - 1) s).
  rewrite (bind_run _ _ _ tt s1) by done. rewrite (bind_run get _ s1 s1 s1) by done.
  destruct (List_remove_spec WarmLink i (warm s) (slot_state s) l1 l2 Hw Hnd)
    as (W & st1 & HR1 & [He1 Ho1] & _ & Hd1).
  rewrite (bind_run _ _ _ _ _ (unwrap_run _ (W, st1) s1 HR1)). simpl.
  set (s2 := set_states st1 (set_warm W s1)).
  rewrite (bind_run _ _ _ tt s2) by done. rewrite (bind_run get _ s2 s2 s2) by done.
  assert (info st1 i = Some (a, n)) as Hi1 by (by rewrite (info_erase (slot_state s))).
  pose proof Hi1 as Hi1'. unfold info in Hi1'. destruct (unwrap_unused st1 i) as [u|] eqn:Hu; [|done].
  simpl in Hi1'. injection Hi1' as Hua Hun.
  rewrite (bind_run _ _ _ _ _ (unwrap_run _ u s2 Hu)). rewrite Hua.
  assert (affine_ok (slot_state s) st1 (module_affine s) (l1 ++ i :: l2)) as Haff.
  { eapply affine_ok_links; [by eapply rep_affine_ok|]. intros j _. by apply Ho1. }
  destruct a as [m|].
  - pose proof (Haff m) as Hm. rewrite affine_queue_split in Hm. unfold affine_to in Hm.
    rewrite bool_decide_true in Hm by (by rewrite Hi).
    destruct (module_affine s !! m) as [L|] eqn:HL; [|by destruct (affine_queue _ m l1)].
    destruct Hm as [_ HdL]. simpl. rewrite (bind_run _ _ _ _ _ (unwrap_run _ L s2 HL)).
    destruct (List_remove_spec AffineLink i L st1 _ _ HdL) as (L' & st2 & HR2 & [He2 Ho2] & Hf2 & Hd2).
    { pose proof (affine_queue_nodup (slot_state s) m _ Hnd) as Hn.
      rewrite affine_queue_split in Hn. unfold affine_to in Hn.
      by rewrite bool_decide_true in Hn by (by rewrite Hi). }
    rewrite (bind_run _ _ _ _ _ (unwrap_run _ (L', st2) s2 HR2)). simpl.
    eexists. split; [done|]. split; [|split; [by rewrite <- He1|done]].
    apply (rep_detach s l1 i l2 st2 W (match head L' with None => delete m (module_affine s)
      | Some _ => <[m := L']> (module_affine s) end)); [done|by rewrite He2| |].
    + destruct Hd1 as (? & ? & Hl). split; [done|]. split; [done|].
      eapply links_ext; [|exact Hl]. intros j _. by apply Ho2.
    + eapply (affine_ok_remove _ st1); try done. by rewrite Hi.
  - eexists. split; [done|]. split; [|done].
    apply (rep_detach s l1 i l2 st1 W (module_affine s)); [done|done|done|].
    eapply affine_ok_drop; [done|]. by rewrite Hi.
Qed.

(** *** What allocation picks, on the queue *)

Definition next_cold s : option Z :=
  if last_cold s =? zlen (slot_state s) then None else Some (last_cold s).

Definition affine_pick s q (mo : option MemoryInModule) : option Z :=
  m ← mo; last (affine_queue (slot_state s) m q).

Definition any_pick s q : option Z :=
  if zlen q <? max_unused_warm_slots s
  then match next_cold s with Some i => Some i | None => first q None end
  else match first q None with Some i => Some i | None => next_cold s end.

(** The most recently freed slot of the same memory; failing that, unless only
    such a slot will do, the least recently freed slot or a cold one. *)
Definition choose s q (mode : AllocMode) (mo : option MemoryInModule) : option Z :=
  match affine_pick s q mo with
  | Some i => Some i
  | None => match mode with ForceAffineAndClear => None | AnySlot => any_pick s q end
  end.

Definition without i q : list Z := List.filter (fun j => negb (j =? i)) q.

Lemma without_not i q : i ∉ q -> without i q = q.
Proof.
  intros Hi. unfold without. induction q as [|j q IH]; [done|]. simpl.
  rewrite (proj2 (Z.eqb_neq j i)) by set_solver. simpl. f_equal. apply IH. set_solver.
Qed.

Lemma without_split i l1 l2 : NoDup (l1 ++ i :: l2) -> without i (l1 ++ i :: l2) = l1 ++ l2.
Proof.
  intros Hnd. rewrite <- Permutation_middle in Hnd. apply NoDup_cons in Hnd as [Hni _].
  unfold without. rewrite List.filter_app. simpl. rewrite Z.eqb_refl. simpl.
  fold (without i l1) (without i l2). by rewrite !without_not by set_solver.
Qed.

Lemma info_use st i mm j :
  0 <= i < zlen st ->
  info (zset st i (Used mm)) j = if decide (i = j) then None else info st j.
Proof.
  intros. unfold info, unwrap_unused. rewrite zget_zset by done. by case_decide.
Qed.

Lemma link_use w st i mm j :
  0 <= i < zlen st -> i <> j -> link_of w (zset st i (Used mm)) j = link_of w st j.
Proof. intros. unfold link_of, unwrap_unused. by rewrite zget_zset_ne. Qed.

Lemma dll_ext g g' L l : (forall j, j ∈ l -> g' j = g j) -> dll g L l -> dll g' L l.
Proof. intros Hg (? & ? & ?). split; [done|]. split; [done|]. by eapply links_ext. Qed.

(** Marking a slot that is on no list as used. *)
Lemma rep_use s q x i mm c :
  rep s q x -> 0 <= i < zlen (slot_state s) -> i ∉ q -> x = None \/ x = Some i ->
  last_cold s <= c <= zlen (slot_state s) ->
  (forall j, zget (zset (slot_state s) i (Used mm)) j = Some UnusedCold
             <-> c <= j < zlen (slot_state s)) ->
  rep (set_bytes (total (bytes_at (slot_state s)) q)
    (set_last_cold c (set_states (zset (slot_state s) i (Used mm)) s))) q None.
Proof.
  intros [Hsz Hmx Hnd Hiff Hw Ha Hc [Hcold Hci] Hb Hnn] Hi Hni Hx Hcc Hcold'.
  set (st' := zset (slot_state s) i (Used mm)).
  assert (forall j, j ∈ q -> info st' j = info (slot_state s) j) as Hinfo.
  { intros j Hj. unfold st'. rewrite info_use by done. case_decide; [by subst|done]. }
  split; simpl; fold st'; try done.
  - unfold st'. by rewrite zlen_zset.
  - intros j. rewrite Hiff. unfold st'. rewrite info_use by done. case_decide as Hij.
    + subst j. split; [intros Hq|by intros [[] _]]. apply Hiff in Hq. done.
    + split; [intros [??]; done|]. intros [? _]. split; [done|].
      destruct Hx as [->| ->]; [done|congruence].
  - eapply dll_ext; [|exact Hw]. intros j Hj. apply link_use; [done|]. by intros ->.
  - intros m. specialize (Ha m). rewrite (affine_queue_ext (slot_state s) st') by done.
    destruct (module_affine s !! m); [|done]. destruct Ha as [? Ha]. split; [done|].
    eapply dll_ext; [|exact Ha]. intros j [Hj _]%elem_of_affine_queue.
    apply link_use; [done|]. by intros ->.
  - unfold st'. rewrite zlen_zset. split; [lia|]. done.
  - rewrite Z.add_0_r. apply total_ext. intros j Hj. unfold bytes_at. by rewrite Hinfo.
  - intros j. unfold bytes_at, st'. rewrite info_use by done. case_decide; [lia|]. apply Hnn.
Qed.

Lemma pick_affine_run s q mo :
  rep s q None ->
  pick_affine mo s
  = match affine_pick s q mo with
    | Some i => (remove i ;;; ret (Some i)) s
    | None => Ret None s
    end.
Proof.
  intros Hr. unfold pick_affine, affine_pick. rewrite (bind_run get _ s s s) by done.
  destruct mo as [m|]; [|done]. simpl. pose proof (rep_affine _ _ _ Hr m) as Ha.
  destruct (module_affine s !! m) as [l|]; simpl.
  - destruct Ha as [_ (_ & -> & _)]. by destruct (last _).
  - by rewrite Ha.
Qed.

Lemma pick_warm_run s q :
  rep s q None ->
  pick_warm s = match first q None with
                | Some i => (remove i ;;; ret (Some i)) s
                | None => Ret None s
                end.
Proof.
  intros Hr. unfold pick_warm. rewrite (bind_run get _ s s s) by done.
  rewrite (proj1 (rep_warm _ _ _ Hr)). by destruct (first q None).
Qed.

Lemma pick_cold_run s q :
  rep s q None ->
  pick_cold s = match next_cold s with
                | Some i => Ret (Some i) (set_last_cold (i + 1) s)
                | None => Ret None s
                end.
Proof.
  intros Hr. destruct (rep_cold _ _ _ Hr) as [Hc _]. pose proof (rep_size _ _ _ Hr).
  unfold pick_cold, next_cold. rewrite (bind_run get _ s s s) by done.
  destruct (Z.eqb_spec (last_cold s) (zlen (slot_state s))); [done|].
  assert (checked_add u32_MAX (last_cold s) 1 = Some (last_cold s + 1)) as Hadd
    by (apply checked_add_Some; lia).
  by rewrite (bind_run _ _ _ _ _ (unwrap_run _ _ s Hadd)).
Qed.

(** The slot picked: off the queue, or the next cold one. *)
Definition picked s q i s1 : Prop :=
  (exists l1 l2, q = l1 ++ i :: l2 /\ rep s1 (l1 ++ l2) (Some i)
     /\ erase <$> slot_state s1 = erase <$> slot_state s
     /\ max_unused_warm_slots s1 = max_unused_warm_slots s /\ last_cold s1 = last_cold s)
  \/ (next_cold s = Some i /\ s1 = set_last_cold (i + 1) s).

Lemma remove_picked s q i :
  rep s q None -> i ∈ q ->
  exists s1, (remove i ;;; ret (Some i)) s = Ret (Some i) s1 /\ picked s q i s1.
Proof.
  intros Hr (l1 & l2 & ->)%list_elem_of_split.
  destruct (index_remove_spec s l1 i l2 Hr) as (s1 & Hrun & ? & ? & ? & ?).
  exists s1. rewrite (bind_run _ _ _ _ _ Hrun). split; [done|]. left. by exists l1, l2.
Qed.

Lemma warm_picked s q :
  rep s q None ->
  match first q None with
  | Some i => exists s1, pick_warm s = Ret (Some i) s1 /\ picked s q i s1
  | None => pick_warm s = Ret None s
  end.
Proof.
  intros Hr. rewrite (pick_warm_run s q Hr). destruct q as [|i q]; simpl; [done|].
  apply remove_picked; [done|set_solver].
Qed.

Lemma cold_picked s q :
  rep s q None ->
  match next_cold s with
  | Some i => exists s1, pick_cold s = Ret (Some i) s1 /\ picked s q i s1
  | None => pick_cold s = Ret None s
  end.
Proof.
  intros Hr. rewrite (pick_cold_run s q Hr). destruct (next_cold s) eqn:Hc; [|done].
  eexists. split; [done|]. by right.
Qed.

Lemma pick_spec s q mode mo :
  rep s q None ->
  let code := or_pick (pick_affine mo)
    (match mode with
     | AnySlot =>
         s <- get ;;
         if unused_warm_slots s <? max_unused_warm_slots s
         then or_pick pick_cold pick_warm
         else or_pick pick_warm
                (s <- get ;; rust_assert (max_unused_warm_slots s =? 0) ;;; pick_cold)
     | ForceAffineAndClear => ret None
     end) in
  match choose s q mode mo with
  | Some i => exists s1, code s = Ret (Some i) s1 /\ picked s q i s1
  | None => code s = Ret None s
  end.
Proof.
  intros Hr code. unfold code, choose, or_pick. clear code.
  pose proof (pick_affine_run s q mo Hr) as Ha.
  destruct (affine_pick s q mo) as [i|] eqn:Hp.
  { destruct (remove_picked s q i Hr) as (s1 & Hrun & ?).
    - unfold affine_pick in Hp. destruct mo as [m|]; [|done]. simpl in Hp.
      apply last_Some in Hp as [l' Hq].
      assert (i ∈ affine_queue (slot_state s) m q) as []%elem_of_affine_queue
        by (rewrite Hq; set_solver). done.
    - exists s1. rewrite Hrun in Ha. by rewrite (bind_run _ _ _ _ _ Ha). }
  rewrite !(bind_run _ _ _ _ _ Ha). destruct mode; [done|].
  unfold any_pick. rewrite !(bind_run get _ s s s) by done.
  rewrite (rep_count _ _ _ Hr).
  pose proof (warm_picked s q Hr) as Hw. pose proof (cold_picked s q Hr) as Hc.
  destruct (Z.ltb_spec (zlen q) (max_unused_warm_slots s)) as [|Hge].
  - destruct (next_cold s) as [i|].
    + destruct Hc as (s1 & Hrun & ?). exists s1. by rewrite (bind_run _ _ _ _ _ Hrun).
    + rewrite !(bind_run _ _ _ _ _ Hc). exact Hw.
  - destruct (first q None) as [i|] eqn:Hf.
    + destruct Hw as (s1 & Hrun & ?). exists s1. by rewrite (bind_run _ _ _ _ _ Hrun).
    + rewrite !(bind_run _ _ _ _ _ Hw). rewrite !(bind_run get _ s s s) by done.
      assert (rust_assert (E := Empty_set) (max_unused_warm_slots s =? 0) s = Ret tt s) as Has.
      { apply assert_run, Z.eqb_eq. destruct q; [|done]. pose proof (rep_max _ _ _ Hr).
        unfold zlen in Hge. simpl in Hge. lia. }
      rewrite !(bind_run _ _ _ _ _ Has). exact Hc.
Qed.

(** *** Allocation *)

Definition new_affinity (mode : AllocMode) (mo : option MemoryInModule) :=
  match mode with ForceAffineAndClear => None | AnySlot => mo end.

(** What allocating slot [i] promises. *)
Definition allocated s q i mm s' : Prop :=
  rep s' (without i q) None
  /\ erase <$> slot_state s' = zset (erase <$> slot_state s) i (Used mm)
  /\ 0 <= i < zlen (slot_state s)
  /\ (forall mm', zget (slot_state s) i <> Some (Used mm'))
  /\ max_unused_warm_slots s' = max_unused_warm_slots s.

Lemma info_zget st i x : info st i = Some x -> exists u, zget st i = Some (UnusedWarm u)
  /\ x = (affinity u, bytes_resident u).
Proof.
  unfold info, unwrap_unused. destruct (zget st i) as [[]|]; try done.
  simpl. intros [= <-]. eauto.
Qed.

Lemma use_warm s q i mm s1 l1 l2 :
  rep s q None -> q = l1 ++ i :: l2 -> rep s1 (l1 ++ l2) (Some i) ->
  erase <$> slot_state s1 = erase <$> slot_state s ->
  max_unused_warm_slots s1 = max_unused_warm_slots s ->
  exists u n, zget (slot_state s1) i = Some (UnusedWarm u)
    /\ checked_sub (unused_bytes_resident s1) (bytes_resident u) = Some n
    /\ allocated s q i mm (set_states (zset (slot_state s1) i (Used mm)) (set_bytes n s1)).
Proof.
  intros Hr -> Hr1 He Hmax. pose proof (rep_nodup _ _ _ Hr) as Hnd.
  assert (is_Some (info (slot_state s) i)) as [x Hx]
    by (apply (rep_warm_iff _ _ _ Hr); set_solver).
  pose proof Hx as Hx1. rewrite <- (info_erase _ _ _ He) in Hx1.
  destruct (info_zget _ _ _ Hx1) as (u & Hz & ->). pose proof (zget_lt _ _ _ Hz) as Hlt.
  destruct (info_zget _ _ _ Hx) as (u0 & Hz0 & _).
  exists u, (total (bytes_at (slot_state s1)) (l1 ++ l2)). split; [done|]. split.
  { pose proof (rep_bytes _ _ _ Hr1) as Hb. unfold bytes_at at 2 in Hb. rewrite Hx1 in Hb.
    apply checked_sub_Some.
    pose proof (total_nonneg _ (l1 ++ l2) (rep_nonneg _ _ _ Hr1)). lia. }
  destruct (rep_cold _ _ _ Hr1) as [Hc Hci].
  unfold allocated. rewrite without_split by done. simpl. split_and!.
  - apply (rep_use s1 (l1 ++ l2) (Some i) i mm (last_cold s1)); try done; [ |by right|lia|].
    + rewrite <- Permutation_middle in Hnd. by apply NoDup_cons in Hnd as [??].
    + intros j. rewrite zget_zset by done. rewrite <- Hci. case_decide; [|done].
      subst. by rewrite Hz.
  - unfold zset. rewrite list_fmap_insert, He. done.
  - lia.
  - pose proof (erase_zlen _ _ He). lia.
  - intros mm'. by rewrite Hz0.
  - done.
Qed.

Lemma use_cold s q i mm :
  rep s q None -> next_cold s = Some i ->
  zget (slot_state s) i = Some UnusedCold
  /\ allocated s q i mm
       (set_states (zset (slot_state s) i (Used mm)) (set_last_cold (i + 1) s)).
Proof.
  intros Hr Hn. destruct (rep_cold _ _ _ Hr) as [Hc Hci]. unfold next_cold in Hn.
  destruct (Z.eqb_spec (last_cold s) (zlen (slot_state s))); [done|]. injection Hn as <-.
  assert (zget (slot_state s) (last_cold s) = Some UnusedCold) as Hz by (apply Hci; lia).
  split; [done|].
  assert (last_cold s ∉ q) as Hni.
  { intros [[x Hx] _]%(rep_warm_iff _ _ _ Hr). apply info_zget in Hx as (? & ? & _). congruence. }
  unfold allocated. rewrite without_not by done. split_and!.
  - pose proof (rep_bytes _ _ _ Hr) as Hb. rewrite Z.add_0_r in Hb.
    pose proof (rep_use s q None (last_cold s) mm (last_cold s + 1) Hr) as Hu.
    rewrite <- Hb in Hu. apply Hu; [lia|done|by left|lia|].
    intros j. rewrite zget_zset by lia. case_decide; [split; [done|lia]|].
    rewrite Hci. lia.
  - unfold zset. simpl. by rewrite list_fmap_insert.
  - lia.
  - lia.
  - intros mm'. by rewrite Hz.
  - done.
Qed.

Lemma index_alloc_spec s q mode mo :
  rep s q None ->
  match choose s q mode mo with
  | Some i => exists s', alloc_ mo mode s = Ret (Some i) s'
      /\ allocated s q i (new_affinity mode mo) s'
  | None => alloc_ mo mode s = Ret None s
  end.
Proof.
  intros Hr. pose proof (pick_spec s q mode mo Hr) as Hp. simpl in Hp. unfold alloc_.
  destruct (choose s q mode mo) as [i|]; [|by rewrite (bind_run _ _ _ _ _ Hp)].
  destruct Hp as (s1 & Hrun & Hpick). rewrite (bind_run _ _ _ _ _ Hrun). clear Hrun.
  rewrite (bind_run get _ s1 s1 s1) by done.
  destruct Hpick as [(l1 & l2 & Hq & Hr1 & He & Hmax & _)|[Hn ->]].
  - destruct (use_warm s q i (new_affinity mode mo) s1 l1 l2 Hr Hq Hr1 He Hmax)
      as (u & n & Hz & Hsub & Hal).
    eexists. split; [|exact Hal].
    rewrite (bind_run _ _ _ _ _ (unwrap_run _ _ s1 Hz)).
    rewrite (bind_run _ _ _ tt (set_bytes n s1)); [done|].
    by rewrite (bind_run _ _ _ _ _ (unwrap_run _ _ s1 Hsub)).
  - destruct (use_cold s q i (new_affinity mode mo) Hr Hn) as [Hz Hal].
    eexists. split; [|exact Hal]. by rewrite (bind_run _ _ _ _ _ (unwrap_run _ _ _ Hz)).
Qed.

(** *** Deallocation *)

Lemma zlen_bounded (l : list Z) n :
  NoDup l -> 0 <= n -> (forall x, x ∈ l -> 0 <= x < n) -> zlen l <= n.
Proof.
  intros Hnd Hn Hl. assert (l ⊆+ seqZ 0 n) as Hsub.
  { apply NoDup_submseteq; [done|]. intros x Hx%Hl. apply elem_of_seqZ. lia. }
  apply submseteq_length in Hsub. rewrite length_seqZ in Hsub. unfold zlen. lia.
Qed.

Lemma info_free st i mm n ka kw j :
  0 <= i < zlen st ->
  info (zset st i (UnusedWarm (mkUnused mm n ka kw))) j
  = if decide (i = j) then Some (mm, n) else info st j.
Proof. intros. unfold info. rewrite unwrap_unused_zset by done. by case_decide. Qed.

Lemma link_free w st i u j :
  0 <= i < zlen st ->
  link_of w (zset st i (UnusedWarm u)) j
  = if decide (i = j) then Some (link w u) else link_of w st j.
Proof. intros. unfold link_of. rewrite unwrap_unused_zset by done. by case_decide. Qed.

(** The slot [i] goes to the end of the queue. *)
Lemma rep_attach s q i mm n ka kw st2 warm' aff' :
  rep s q None -> zget (slot_state s) i = Some (Used mm) -> 0 <= n ->
  erase <$> st2 = erase <$> slot_state s ->
  let st3 := zset st2 i (UnusedWarm (mkUnused mm n ka kw)) in
  dll (link_of WarmLink st3) warm' (q ++ [i]) ->
  affine_ok st3 st3 aff' (q ++ [i]) ->
  rep (mkInner (max_unused_warm_slots s) (unused_warm_slots s + 1) warm' (last_cold s)
         st3 aff' (unused_bytes_resident s + n)) (q ++ [i]) None.
Proof.
  intros [Hsz Hmx Hnd Hiff Hw Ha Hc [Hcold Hci] Hb Hnn] Hz Hn He st3 Hw' Ha'.
  pose proof (zget_lt _ _ _ Hz) as Hlt. pose proof (erase_zlen _ _ He) as Hlen.
  assert (0 <= i < zlen st2) as Hlt2 by lia.
  assert (i ∉ q) as Hni.
  { intros [[x Hx] _]%Hiff. apply info_zget in Hx as (? & ? & _). congruence. }
  assert (forall j, info st3 j = if decide (i = j) then Some (mm, n)
                                 else info (slot_state s) j) as Hinfo.
  { intros j. unfold st3. rewrite info_free by done. case_decide; [done|].
    by apply info_erase. }
  split; simpl; try done.
  - unfold st3. by rewrite zlen_zset, Hlen.
  - apply NoDup_app. split_and!; [done| |apply NoDup_singleton]. set_solver.
  - intros j. rewrite Hinfo, elem_of_app, Hiff, list_elem_of_singleton. case_decide as Hij.
    + subst. split; [eauto|by right].
    + split; [intros [[? _]|?]; [done|congruence]|intros [? _]; by left].
  - rewrite Hc, zlen_app. unfold zlen. simpl. lia.
  - unfold st3. rewrite zlen_zset, Hlen. split; [done|]. intros j.
    rewrite zget_zset by done. case_decide as Hij.
    + subst. split; [done|]. rewrite <- Hci. congruence.
    + rewrite (cold_erase _ _ _ He). apply Hci.
  - rewrite Hb, total_app. simpl. unfold bytes_at at 3. rewrite Hinfo, decide_True by done.
    rewrite (total_ext (bytes_at st3) (bytes_at (slot_state s))); [lia|].
    intros j Hj. unfold bytes_at. rewrite Hinfo. case_decide; [by subst|done].
  - intros j. unfold bytes_at. rewrite Hinfo. case_decide; [done|]. apply Hnn.
Qed.

Lemma affine_queue_attach st st2 q i mm n ka kw m :
  0 <= i < zlen st2 -> i ∉ q -> erase <$> st2 = erase <$> st ->
  affine_queue (zset st2 i (UnusedWarm (mkUnused mm n ka kw))) m (q ++ [i])
  = affine_queue st m q ++ (if decide (mm = Some m) then [i] else []).
Proof.
  intros Hi Hni He. rewrite affine_queue_app. f_equal.
  - apply affine_queue_ext. intros j Hj. rewrite info_free by done.
    case_decide; [by subst|]. by apply info_erase.
  - unfold affine_queue. simpl. unfold affine_to. rewrite info_free, decide_True by done.
    simpl. case_bool_decide; case_decide; congruence.
Qed.

(** Other memories' lists do not notice a new slot. *)
Lemma affine_ok_other st st1 st2 aff q i mm n ka kw m :
  affine_ok st st1 aff q -> 0 <= i < zlen st2 -> i ∉ q -> erase <$> st2 = erase <$> st ->
  mm <> Some m ->
  (forall j, j ∈ affine_queue st m q -> link_of AffineLink st2 j = link_of AffineLink st1 j) ->
  let st3 := zset st2 i (UnusedWarm (mkUnused mm n ka kw)) in
  match aff !! m with
  | Some l => affine_queue st3 m (q ++ [i]) <> []
      /\ dll (link_of AffineLink st3) l (affine_queue st3 m (q ++ [i]))
  | None => affine_queue st3 m (q ++ [i]) = []
  end.
Proof.
  intros Ha Hi Hni He Hne Hl st3. unfold st3.
  rewrite (affine_queue_attach st) by done. rewrite decide_False, app_nil_r by done.
  specialize (Ha m). destruct (aff !! m); [|done]. destruct Ha as [? Ha]. split; [done|].
  eapply dll_ext; [|exact Ha]. intros j Hj. rewrite link_free by done.
  case_decide; [|by apply Hl]. subst. by apply elem_of_affine_queue in Hj as [? _].
Qed.

(** The part of [free] that maintains the affine lists. *)
Lemma free_affine s q i mm st1 s1 :
  rep s q None -> zget (slot_state s) i = Some (Used mm) -> i ∉ q ->
  relinked WarmLink (slot_state s) st1 -> slot_state s1 = st1 ->
  module_affine s1 = module_affine s ->
  exists ka st2 aff',
    (match mm with
     | Some module =>
         match module_affine s1 !! module with
         | Some l =>
             r <- unwrap (List_append AffineLink i l (slot_state s1)) ;;
             let '(k, l', states) := r : Link * List * list SlotState in
             put (set_states states (set_affine (<[module := l']> (module_affine s1)) s1)) ;;;
             ret k
         | None =>
             put (set_affine (<[module := List_new i]> (module_affine s1)) s1) ;;;
             ret Link_default
         end
     | None => ret Link_default
     end : IM Link) s1 = Ret ka (set_states st2 (set_affine aff' s1))
    /\ relinked AffineLink st1 st2
    /\ forall n kw, let st3 := zset st2 i (UnusedWarm (mkUnused mm n ka kw)) in
         affine_ok st3 st3 aff' (q ++ [i]).
Proof.
  intros Hr Hz Hni [He1 Ho1] Hs1 Haff. pose proof (zget_lt _ _ _ Hz) as Hlt.
  assert (0 <= i < zlen st1) as Hlt1 by (rewrite (erase_zlen _ _ He1); done).
  assert (affine_ok (slot_state s) st1 (module_affine s) q) as Ha.
  { eapply affine_ok_links; [by eapply rep_affine_ok|]. intros j _. by apply Ho1. }
  rewrite Hs1, Haff. destruct mm as [m|]; cycle 1.
  { exists Link_default, st1, (module_affine s). split.
    { destruct s1. simpl in *. by subst. }
    split; [apply relinked_refl|]. intros n kw st3 m.
    by apply (affine_ok_other (slot_state s) st1 st1). }
  pose proof (Ha m) as Ham. destruct (module_affine s !! m) as [L|] eqn:HL.
  - destruct Ham as [_ Hd].
    destruct (List_append_spec AffineLink i L st1 _ Hd) as (L' & st2 & HA & Hrel & Hfr & Hdll).
    { apply affine_queue_nodup, Hr. }
    { by intros [? _]%elem_of_affine_queue. }
    exists (mkLink (last (affine_queue (slot_state s) m q)) None), st2, (<[m := L']> (module_affine s)).
    split; [by rewrite (bind_run _ _ _ _ _ (unwrap_run _ _ s1 HA))|]. split; [done|].
    intros n kw st3 m'. pose proof Hrel as [He2 _].
    assert (0 <= i < zlen st2) by (rewrite (erase_zlen _ _ He2); done).
    assert (erase <$> st2 = erase <$> slot_state s) as He by (by rewrite He2).
    destruct (decide (m' = m)) as [->|Hne].
    + rewrite lookup_insert_eq. unfold st3. rewrite (affine_queue_attach (slot_state s)) by done.
      rewrite decide_True by done. split; [by destruct (affine_queue _ m q)|].
      apply Hdll; [intros j Hj|]; rewrite link_free by done; [|by rewrite decide_True].
      case_decide; [|done]. subst. by apply elem_of_affine_queue in Hj as [? _].
    + rewrite lookup_insert_ne by done.
      apply (affine_ok_other (slot_state s) st1 st2); try done; [congruence|].
      intros j [_ Hj]%elem_of_affine_queue. apply Hfr.
      intros [_ Hj']%elem_of_affine_queue. congruence.
  - exists Link_default, st1, (<[m := List_new i]> (module_affine s)). split.
    { destruct s1. simpl in *. by subst. }
    split; [apply relinked_refl|]. intros n kw st3 m'.
    destruct (decide (m' = m)) as [->|Hne].
    + rewrite lookup_insert_eq. unfold st3. rewrite (affine_queue_attach (slot_state s)) by done.
      rewrite Ham, decide_True by done. simpl. split; [done|]. split; [done|]. split; [done|].
      split; [|done]. by rewrite link_free, decide_True.
    + rewrite lookup_insert_ne by done.
      apply (affine_ok_other (slot_state s) st1 st1); try done. congruence.
Qed.

Lemma index_free_spec s q i mm n :
  rep s q None -> zget (slot_state s) i = Some (Used mm) -> 0 <= n ->
  unused_bytes_resident s + n <= usize_MAX ->
  exists s', free i n s = Ret tt s' /\ rep s' (q ++ [i]) None
    /\ erase <$> slot_state s'
       = zset (erase <$> slot_state s) i (UnusedWarm (mkUnused mm n Link_default Link_default))
    /\ max_unused_warm_slots s' = max_unused_warm_slots s.
Proof.
  intros Hr Hz Hn Hmax. pose proof (zget_lt _ _ _ Hz) as Hlt.
  pose proof Hr as [Hsz _ Hnd Hiff Hw _ Hc _ _ _].
  assert (i ∉ q) as Hni.
  { intros [[x Hx] _]%Hiff. apply info_zget in Hx as (? & ? & _). congruence. }
  assert (zlen (q ++ [i]) <= zlen (slot_state s)) as Hq.
  { apply zlen_bounded; [|lia|].
    - apply NoDup_app. split_and!; [done| |apply NoDup_singleton]. set_solver.
    - intros x [[[y Hx] _]%Hiff| ->%list_elem_of_singleton]%elem_of_app; [|lia].
      apply info_zget in Hx as (? & Hx%zget_lt & _). lia. }
  rewrite zlen_app in Hq. change (zlen [i]) with 1 in Hq.
  unfold free. rewrite (bind_run get _ s s s) by done.
  rewrite (bind_run _ _ _ _ _ (unwrap_run _ _ s Hz)).
  assert (checked_add u32_MAX (unused_warm_slots s) 1 = Some (unused_warm_slots s + 1)) as Hadd
    by (apply checked_add_Some; lia).
  rewrite (bind_run _ _ _ _ _ (unwrap_run _ _ s Hadd)).
  destruct (List_append_spec WarmLink i (warm s) (slot_state s) q Hw Hnd Hni)
    as (W & st1 & HA & Hrel1 & _ & Hdll).
  rewrite (bind_run _ _ _ _ _ (unwrap_run _ _ s HA)).
  set (s1 := set_states st1 (set_warm W (set_warm_slots (unused_warm_slots s + 1) s))).
  unfold put at 1. rewrite (bind_run _ _ _ tt s1) by done.
  rewrite (bind_run get _ s1 s1 s1) by done.
  destruct (free_affine s q i mm st1 s1 Hr Hz Hni Hrel1 eq_refl eq_refl)
    as (ka & st2 & aff' & Hrun & [He2 Ho2] & Haff).
  rewrite (bind_run _ _ _ _ _ Hrun). clear Hrun.
  set (s2 := set_states st2 (set_affine aff' s1)). rewrite (bind_run get _ s2 s2 s2) by done.
  assert (checked_add usize_MAX (unused_bytes_resident s2) n
          = Some (unused_bytes_resident s + n)) as Hadd2 by (by apply checked_add_Some).
  rewrite (bind_run _ _ _ _ _ (unwrap_run _ _ s2 Hadd2)).
  assert (erase <$> st2 = erase <$> slot_state s) as He by (by rewrite He2, (proj1 Hrel1)).
  assert (0 <= i < zlen st2) as Hlt2 by (rewrite (erase_zlen _ _ He); done).
  eexists. split; [done|]. split; [|split; [|done]].
  - apply (rep_attach s q i mm n ka (mkLink (last q) None) st2 W aff'); try done.
    apply Hdll.
    + intros j Hj. rewrite link_free by done. case_decide; [by subst|]. by apply Ho2.
    + by rewrite link_free, decide_True by done.
  - simpl. unfold zset. rewrite list_fmap_insert, He. done.
Qed.
End queue.

(** ** The specification

    One queue of warm slots instead of the linked lists: [sp_slots] says for each
    slot whether it is used, cold or warm (with default links), [sp_queue] lists
    the warm ones in the order they were freed. *)

Record Spec := mkSpec { sp_slots : list SlotState; sp_queue : list Z; sp_max : Z }.

Fixpoint cold_from (i : Z) (l : list SlotState) : option Z :=
  match l with
  | [] => None
  | UnusedCold :: _ => Some i
  | _ :: l => cold_from (i + 1) l
  end.

Definition sp_choose (a : Spec) (mode : AllocMode) (mo : option MemoryInModule) : option Z :=
  match (m ← mo; last (affine_queue (sp_slots a) m (sp_queue a))) with
  | Some i => Some i
  | None =>
      match mode with
      | ForceAffineAndClear => None
      | AnySlot =>
          let cold := cold_from 0 (sp_slots a) in
          let oldest := first (sp_queue a) None in
          if zlen (sp_queue a) <? sp_max a
          then match cold with Some i => Some i | None => oldest end
          else match oldest with Some i => Some i | None => cold end
      end
  end.

Inductive op :=
| OAlloc (mode : AllocMode) (mo : option MemoryInModule)
| OFree (i n : Z).

(** [None] is a client error: freeing a slot that is not in use, or more
    resident bytes than a [usize] can count. *)
Definition sp_op (o : op) (a : Spec) : option (option Z * Spec) :=
  match o with
  | OAlloc mode mo =>
      match sp_choose a mode mo with
      | Some i =>
          Some (Some i, mkSpec (zset (sp_slots a) i (Used (new_affinity mode mo)))
                          (without i (sp_queue a)) (sp_max a))
      | None => Some (None, a)
      end
  | OFree i n =>
      match zget (sp_slots a) i with
      | Some (Used mm) =>
          if (0 <=? n) && (total (bytes_at (sp_slots a)) (sp_queue a) + n <=? usize_MAX)
          then Some (None, mkSpec (zset (sp_slots a) i
                 (UnusedWarm (mkUnused mm n Link_default Link_default)))
                 (sp_queue a ++ [i]) (sp_max a))
          else None
      | _ => None
      end
  end.

Definition run_op (o : op) : IM (option Z) :=
  match o with
  | OAlloc AnySlot mo => alloc mo
  | OAlloc mode mo => alloc_ mo mode
  | OFree i n => free i n ;;; ret None
  end.

Fixpoint sp_ops (os : list op) (a : Spec) : option (list (option Z) * Spec) :=
  match os with
  | [] => Some ([], a)
  | o :: os =>
      '(r, a) ← sp_op o a;
      '(rs, a) ← sp_ops os a;
      Some (r :: rs, a)
  end.

Fixpoint run_ops (os : list op) : IM (list (option Z)) :=
  match os with
  | [] => ret []
  | o :: os => r <- run_op o ;; rs <- run_ops os ;; ret (r :: rs)
  end.

Record refines (s : Inner) (a : Spec) : Prop := {
  ref_rep : rep s (sp_queue a) None;
  ref_slots : sp_slots a = erase <$> slot_state s;
  ref_max : sp_max a = max_unused_warm_slots s;
}.

Definition sp_new (capacity max : Z) : Spec :=
  mkSpec (replicate (Z.to_nat capacity) UnusedCold) [] max.

Section refinement.
Implicit Types (s : Inner) (a : Spec).

Lemma erase_idem (st : list SlotState) : erase <$> (erase <$> st) = erase <$> st.
Proof.
  rewrite <- list_fmap_compose. apply list_fmap_ext. intros _ x _. by destruct x.
Qed.

Lemma info_erased (st : list SlotState) i : info (erase <$> st) i = info st i.
Proof. apply info_erase, erase_idem. Qed.

Lemma zget_fmap {A B} (f : A -> B) (l : list A) i : zget (f <$> l) i = f <$> zget l i.
Proof. unfold zget. destruct (0 <=? i); [|done]. by rewrite list_lookup_fmap. Qed.

(** The first cold slot, when those from [c] on are cold. *)
Lemma cold_from_spec (st : list SlotState) k c :
  k <= c <= k + zlen st ->
  (forall i, zget st i = Some UnusedCold <-> c <= k + i < k + zlen st) ->
  cold_from k st = if c =? k + zlen st then None else Some c.
Proof.
  revert k. induction st as [|x st IH]; intros k Hc Hi.
  { simpl. unfold zlen in *. simpl in *. by rewrite (proj2 (Z.eqb_eq _ _)) by lia. }
  rewrite zlen_cons in *. pose proof (zlen_nonneg st). pose proof (Hi 0) as H0.
  change (zget (x :: st) 0) with (Some x) in H0.
  destruct (decide (c = k)) as [->|Hne].
  - rewrite (proj2 (Z.eqb_neq _ _)) by lia.
    assert (x = UnusedCold) as ->; [|done].
    assert (Some x = Some UnusedCold) as [= ?] by (apply H0; lia). done.
  - assert (x <> UnusedCold) as Hx.
    { intros ->. assert (c <= k + 0 < k + (1 + zlen st)) by by apply H0. lia. }
    assert (cold_from k (x :: st) = cold_from (k + 1) st) as -> by by destruct x.
    rewrite IH; [|lia|].
    + by replace (k + 1 + zlen st) with (k + (1 + zlen st)) by lia.
    + intros i. destruct (decide (0 <= i)) as [Hnn|].
      * assert (zget st i = zget (x :: st) (i + 1)) as ->; [|rewrite Hi; lia].
        unfold zget. rewrite !(proj2 (Z.leb_le _ _)) by lia.
        by replace (Z.to_nat (i + 1)) with (S (Z.to_nat i)) by lia.
      * rewrite (proj2 (zget_None st i)) by lia. split; [done|lia].
Qed.

Lemma choose_refines s a mode mo :
  refines s a -> sp_choose a mode mo = choose s (sp_queue a) mode mo.
Proof.
  intros [Hr Hsl Hm]. unfold sp_choose, choose, affine_pick, any_pick.
  assert (forall m, affine_queue (sp_slots a) m (sp_queue a)
                    = affine_queue (slot_state s) m (sp_queue a)) as Hq.
  { intros m. apply affine_queue_ext. intros i _. rewrite Hsl. apply info_erased. }
  assert ((m ← mo; last (affine_queue (sp_slots a) m (sp_queue a)))
          = (m ← mo; last (affine_queue (slot_state s) m (sp_queue a)))) as ->
    by (destruct mo; simpl; [by rewrite Hq|done]).
  destruct (_ ≫= _); [done|]. destruct mode; [done|]. rewrite Hm.
  destruct (rep_cold _ _ _ Hr) as [Hc Hci].
  assert (zlen (sp_slots a) = zlen (slot_state s)) as Hlen
    by (rewrite Hsl; unfold zlen; by rewrite length_fmap).
  assert (cold_from 0 (sp_slots a) = next_cold s) as ->; [|done].
  rewrite (cold_from_spec _ 0 (last_cold s)); [by rewrite Hlen|lia|].
  intros i. rewrite Hlen, !Z.add_0_l, <- Hci, Hsl, zget_fmap.
  by destruct (zget (slot_state s) i) as [[]|].
Qed.

Lemma op_refines s a o r a' :
  refines s a -> sp_op o a = Some (r, a') ->
  exists s', run_op o s = Ret r s' /\ refines s' a'.
Proof.
  intros Href Hop. pose proof Href as [Hr Hsl Hm]. destruct o as [mode mo|i n]; simpl in Hop.
  - rewrite (choose_refines s a mode mo Href) in Hop.
    pose proof (index_alloc_spec s (sp_queue a) mode mo Hr) as Ha.
    assert (run_op (OAlloc mode mo) = alloc_ mo mode) as -> by by destruct mode.
    destruct (choose s (sp_queue a) mode mo) as [i|]; simplify_eq.
    + destruct Ha as (s' & Hrun & Hr' & He & _ & _ & Hmx). exists s'. split; [done|].
      split; simpl; [done|by rewrite He, Hsl|congruence].
    + exists s. done.
  - destruct (zget (sp_slots a) i) as [[mm| |]|] eqn:Hz; try done.
    assert (zget (slot_state s) i = Some (Used mm)) as Hz'.
    { rewrite Hsl, zget_fmap in Hz. destruct (zget (slot_state s) i) as [[]|]; naive_solver. }
    destruct (_ && _) eqn:Hb; [|done]. simplify_eq. simplify_bools.
    assert (total (bytes_at (sp_slots a)) (sp_queue a) = unused_bytes_resident s) as Ht.
    { rewrite (rep_bytes _ _ _ Hr), Z.add_0_r. apply total_ext. intros j _.
      unfold bytes_at. by rewrite Hsl, info_erased. }
    destruct (index_free_spec s (sp_queue a) i mm n Hr Hz') as (s' & Hrun & Hr' & He & Hmx);
      [done|lia|].
    exists s'. simpl. rewrite (bind_run _ _ _ _ _ Hrun). split; [done|].
    split; simpl; [done|by rewrite He, Hsl|congruence].
Qed.

Lemma ops_refine os s a rs a' :
  refines s a -> sp_ops os a = Some (rs, a') ->
  exists s', run_ops os s = Ret rs s' /\ refines s' a'.
Proof.
  revert s a rs. induction os as [|o os IH]; intros s a rs Href Hops; simpl in *.
  { simplify_eq. by exists s. }
  destruct (sp_op o a) as [[r a1]|] eqn:Ho; [|done]. simpl in Hops.
  destruct (sp_ops os a1) as [[rs1 a2]|] eqn:Hos; [|done]. simplify_eq/=.
  destruct (op_refines s a o r a1 Href Ho) as (s1 & Hr1 & Href1).
  destruct (IH s1 a1 rs1 Href1 Hos) as (s2 & Hr2 & Href2).
  exists s2. rewrite (bind_run _ _ _ _ _ Hr1), (bind_run _ _ _ _ _ Hr2). done.
Qed.

Lemma new_refines capacity max :
  0 <= capacity <= u32_MAX -> 0 <= max -> refines (new capacity max) (sp_new capacity max).
Proof.
  intros Hc Hm.
  assert (forall i, zget (replicate (Z.to_nat capacity) UnusedCold) i
                    = if decide (0 <= i < capacity) then Some UnusedCold else None) as Hz.
  { intros i. unfold zget. destruct (Z.leb_spec 0 i).
    - destruct (decide (0 <= i < capacity)).
      + apply lookup_replicate_2. lia.
      + apply lookup_replicate_None. lia.
    - by rewrite decide_False by lia. }
  assert (zlen (replicate (Z.to_nat capacity) UnusedCold) = capacity) as Hlen
    by (unfold zlen; rewrite length_replicate; lia).
  assert (forall i, info (replicate (Z.to_nat capacity) UnusedCold) i = None) as Hi.
  { intros i. unfold info, unwrap_unused. rewrite Hz. by case_decide. }
  split; simpl; [|by rewrite fmap_replicate|done]. split; simpl; rewrite ?Hlen; try done.
  - apply Hc.
  - apply NoDup_nil_2.
  - intros i. rewrite Hi. split; [by intros ?%elem_of_nil|by intros [[] _]].
  - split; [lia|]. intros i. rewrite Hz. case_decide; split; try done; lia.
  - intros i. unfold bytes_at. by rewrite Hi.
Qed.
End refinement.

(** ** Properties *)

Section properties.

(** C22. The linked lists implement the queue.  Any sequence of allocations
    and deallocations that frees only slots in use returns, without a panic,
    exactly the slots the specification picks: the most recently freed slot of
    the same memory first, then, depending on how many warm slots there are, a
    cold slot or the least recently freed one. *)
Theorem index_allocator_refines capacity max os rs a :
  0 <= capacity <= u32_MAX -> 0 <= max ->
  sp_ops os (sp_new capacity max) = Some (rs, a) ->
  exists s, run_ops os (new capacity max) = Ret rs s
    /\ erase <$> slot_state s = sp_slots a
    /\ unused_warm_slots s = zlen (sp_queue a)
    /\ unused_bytes_resident s = total (bytes_at (sp_slots a)) (sp_queue a).
Proof.
  intros Hc Hm Hops.
  destruct (ops_refine os _ _ rs a (new_refines capacity max Hc Hm) Hops) as (s & Hrun & Href).
  destruct Href as [Hr Hsl Hmx]. exists s. split_and!; [done|done|apply Hr|].
  rewrite (rep_bytes _ _ _ Hr), Z.add_0_r. apply total_ext. intros j _.
  unfold bytes_at. by rewrite Hsl, info_erased.
Qed.

(** Two clients never share a slot: whatever happened before, an
    allocation returns a slot that was not in use and is in use afterwards,
    changes the use of no other slot, and fails only when every slot is in
    use. *)
Theorem index_alloc_exclusive s q mo :
  rep s q None ->
  match alloc mo s with
  | Ret (Some i) s' => (exists q', rep s' q' None)
      /\ (forall mm, zget (slot_state s) i <> Some (Used mm))
      /\ zget (slot_state s') i = Some (Used mo)
      /\ forall j mm, j <> i ->
           zget (slot_state s') j = Some (Used mm) <-> zget (slot_state s) j = Some (Used mm)
  | Ret None s' => s' = s
      /\ forall i, 0 <= i < zlen (slot_state s) -> exists mm, zget (slot_state s) i = Some (Used mm)
  | _ => False
  end.
Proof.
  intros Hr. pose proof (index_alloc_spec s q AnySlot mo Hr) as Ha. unfold alloc.
  destruct (choose s q AnySlot mo) as [i|] eqn:Hch.
  - destruct Ha as (s' & -> & Hr' & He & Hi & Hnu & _).
    assert (forall j, erase <$> zget (slot_state s') j
      = if decide (i = j) then Some (Used mo) else erase <$> zget (slot_state s) j) as Hz.
    { intros j. rewrite <- !zget_fmap, He. rewrite zget_zset; [by case_decide|].
      unfold zlen. rewrite length_fmap. done. }
    split_and!; [eauto|done| |].
    + specialize (Hz i). rewrite decide_True in Hz by done.
      destruct (zget (slot_state s') i) as [[]|]; naive_solver.
    + intros j mm Hne. specialize (Hz j). rewrite decide_False in Hz by done.
      destruct (zget (slot_state s') j) as [[]|], (zget (slot_state s) j) as [[]|];
        simplify_eq/=; naive_solver.
  - rewrite Ha. split; [done|]. intros i Hi.
    unfold choose in Hch. destruct (affine_pick s q mo); [done|]. unfold any_pick in Hch.
    assert (first q None = None /\ next_cold s = None) as [Hq Hcold].
    { destruct (_ <? _), (next_cold s), (first q None); done. }
    destruct q; [|done]. destruct (rep_cold _ _ _ Hr) as [_ Hci].
    unfold next_cold in Hcold. destruct (Z.eqb_spec (last_cold s) (zlen (slot_state s))); [|done].
    destruct (proj2 (zget_is_Some (slot_state s) i) Hi) as [[mm| |u] Hz]; [eauto| |].
    + apply Hci in Hz. lia.
    + exfalso. assert (i ∈ []) as ?%elem_of_nil; [|done].
      apply (rep_warm_iff _ _ _ Hr). split; [|done]. unfold info, unwrap_unused.
      rewrite Hz. simpl. eauto.
Qed.
End properties.

(** ** Witnesses

    Three slots; two modules use a slot each and free it, then the first asks
    again and gets its old slot back. *)

Definition trace : list op :=
  [OAlloc AnySlot (Some (1, 0)); OAlloc AnySlot (Some (2, 0)); OFree 0 4096; OFree 1 0;
   OAlloc AnySlot (Some (1, 0)); OAlloc AnySlot (Some (3, 0)); OAlloc AnySlot None;
   OAlloc AnySlot None].

Lemma index_allocator_refines_witness :
  exists s, run_ops trace (new 3 5)
    = Ret [Some 0; Some 1; None; None; Some 0; Some 2; Some 1; None] s.
Proof.
  destruct (index_allocator_refines 3 5 trace
    [Some 0; Some 1; None; None; Some 0; Some 2; Some 1; None]
    (mkSpec [Used (Some (1, 0)); Used None; Used (Some (3, 0))] [] 5))
    as (s & Hrun & _); [by vm_compute|by vm_compute|by vm_compute|].
  exists s. exact Hrun.
Defined.

Lemma index_alloc_exclusive_witness :
  zget (slot_state (after (alloc (Some (1, 0))) (new 3 5))) 0 = Some (Used (Some (1, 0))).
Proof.
  pose proof (index_alloc_exclusive (new 3 5) [] (Some (1, 0))
    (ref_rep _ _ (new_refines 3 5 ltac:(by vm_compute) ltac:(by vm_compute)))) as H.
  change (alloc (Some (1, 0)) (new 3 5))
    with (Ret (E := Empty_set) (Some 0) (after (alloc (Some (1, 0))) (new 3 5))) in H.
  destruct H as (_ & _ & H & _). exact H.
Defined.
