(* ===== verification/SlabLayout.v ===== *)
(** * The layout of the memory pool

    Page-aligned byte counts (runtime/vm/byte_count.rs) and the slab of the
    pooling allocator's linear memories (pooling/memory_pool.rs): the constraints
    taken from the configuration, the layout [calculate] makes of them, with
    slots striped over protection keys, and the numbering of striped slots.

    Shown: no calculation overflows or panics where a layout is returned; an
    access that compiled code does not check (anywhere in the faulting region of
    a slot, or in the guard before it) stays inside the mapping and never reaches
    a memory of the same stripe; striped and plain slot numbers are in
    bijection.  The claim of the layout's own test that no more stripes are used
    than the guard needs is shown not to hold. *)

From S2P Require Import Prelude MemoryTypes.

(** The page size of the host is what the operating system says it is: a power
    of two. *)
Class Host := {
  host_page_size : Z;
  host_page_log2 : Z;
  host_page_size_pow2 : host_page_size = 2 ^ host_page_log2;
  host_page_log2_range : 0 <= host_page_log2 < 32;
}.

Program Definition host_4k : Host := {| host_page_size := 4096; host_page_log2 := 12 |}.
Next Obligation. done. Qed.
Next Obligation. lia. Qed.

Inductive PoolError :=
| ByteCountNotAligned (bytes : Z)
| RoundUp | ConvertU64 | AddOverflow | SubOverflow | MulOverflow | DivByZero | RemByZero
| MemoryExceedsReservation
| PoolConcurrencyLimitError (limit : Z)
| MinimumTooLarge | MpkDisabled | ImageUnavailable | LimitExceeded
| MaximumExceeded | IncompatibleTunables | OutOfMemory | LimiterError
| OsError.

(** [.expect(..)] of a [Result]. *)
Definition expect {S E A} (m : M S E A) : M S E A := or_else m (fun _ => panic).

(** ** Page-aligned byte counts *)

Module HostAlignedByteCount.
Section byte_count.
Context `{Host} {S : Type}.
Abbreviation R := (M S PoolError Z).

Definition new (bytes : Z) : R :=
  if bytes mod host_page_size =? 0 then ret bytes else fail (ByteCountNotAligned bytes).

Definition new_rounded_up (bytes : Z) : R :=
  match checked_add usize_MAX bytes (host_page_size - 1) with
  | Some v => ret (Z.land v (Z.lnot (host_page_size - 1)))
  | None => fail RoundUp
  end.

Definition new_rounded_up_u64 (bytes : Z) : R :=
  b <- ok_or (try_from usize_MAX bytes) ConvertU64 ;; new_rounded_up b.

Definition is_zero (self : Z) : bool := self =? 0.

Definition checked_add (self bytes : Z) : R := ok_or (checked_add usize_MAX self bytes) AddOverflow.
Definition checked_sub (self bytes : Z) : R := ok_or (checked_sub self bytes) SubOverflow.
Definition saturating_sub (self bytes : Z) : Z := saturating_sub self bytes.
Definition checked_mul (self scalar : Z) : R :=
  if self * scalar <=? usize_MAX then ret (self * scalar) else fail MulOverflow.
Definition checked_div (self divisor : Z) : R :=
  if divisor =? 0 then fail DivByZero else ret (self / divisor).
Definition checked_rem (self divisor : Z) : R :=
  if divisor =? 0 then fail RemByZero else ret (self mod divisor).
End byte_count.
End HostAlignedByteCount.

(** ** Constraints and layout *)

Record InstanceLimits := mkLimits { max_memory_size : Z; total_memories : Z }.
Record SlabConstraints := mkConstraints {
  expected_slot_bytes : Z;
  c_max_memory_bytes : Z;
  c_num_slots : Z;
  num_pkeys_available : Z;
  guard_bytes : Z;
  guard_before_slots : bool
}.

Record SlabLayout := mkLayout {
  num_slots : Z;
  slot_bytes : Z;
  max_memory_bytes : Z;
  pre_slab_guard_bytes : Z;
  post_slab_guard_bytes : Z;
  num_stripes : Z
}.

Section layout.
Context `{Host} {S : Type}.

Definition SlabConstraints_new (limits : InstanceLimits) (tunables : Tunables)
    (num_pkeys_available : Z) : M S PoolError SlabConstraints :=
  expected <- HostAlignedByteCount.new_rounded_up_u64 (memory_reservation tunables) ;;
  max <- HostAlignedByteCount.new_rounded_up (max_memory_size limits) ;;
  guard <- HostAlignedByteCount.new_rounded_up_u64 (memory_guard_size tunables) ;;
  ret (mkConstraints expected max (total_memories limits) num_pkeys_available guard
         (guard_before_linear_memory tunables)).

Definition total_slab_bytes (self : SlabLayout) : M S PoolError Z :=
  c <- HostAlignedByteCount.checked_mul (slot_bytes self) (num_slots self) ;;
  c <- HostAlignedByteCount.checked_add c (pre_slab_guard_bytes self) ;;
  HostAlignedByteCount.checked_add c (post_slab_guard_bytes self).

Definition bytes_to_next_stripe_slot (self : SlabLayout) : M S PoolError Z :=
  expect (HostAlignedByteCount.checked_mul (slot_bytes self) (num_stripes self)).

(** The number of stripes and the unrounded size of a slot. *)
Definition stripes_and_slot (c : SlabConstraints) (faulting_region_bytes : Z)
  : M S PoolError (Z * Z) :=
  if (guard_bytes c =? 0) || (c_max_memory_bytes c =? 0) || (c_num_slots c =? 0)
  then ret (1, faulting_region_bytes)
  else if num_pkeys_available c <? 2 then ret (1, faulting_region_bytes)
  else
    q <- expect (HostAlignedByteCount.checked_div faulting_region_bytes (c_max_memory_bytes c)) ;;
    r <- expect (HostAlignedByteCount.checked_rem faulting_region_bytes (c_max_memory_bytes c)) ;;
    needed_num_stripes <- unwrap (checked_add usize_MAX q (if r =? 0 then 0 else 1)) ;;
    rust_assert (0 <? needed_num_stripes) ;;;
    let num_stripes := Z.min (Z.min (num_pkeys_available c) needed_num_stripes) (c_num_slots c) in
    let needed_slot_bytes :=
      Z.max (if num_stripes =? 0 then faulting_region_bytes else faulting_region_bytes / num_stripes)
        (c_max_memory_bytes c) in
    rust_assert (c_max_memory_bytes c <=? needed_slot_bytes) ;;;
    ret (num_stripes, needed_slot_bytes).

Definition calculate (c : SlabConstraints) : M S PoolError SlabLayout :=
  let pre := if guard_before_slots c then guard_bytes c else 0 in
  faulting_region_bytes <-
    HostAlignedByteCount.checked_add (Z.max (expected_slot_bytes c) (c_max_memory_bytes c))
      (guard_bytes c) ;;
  r <- stripes_and_slot c faulting_region_bytes ;;
  slot_bytes <- HostAlignedByteCount.new_rounded_up r.2 ;;
  let post := HostAlignedByteCount.saturating_sub faulting_region_bytes slot_bytes in
  let layout := mkLayout (c_num_slots c) slot_bytes (c_max_memory_bytes c) pre post r.1 in
  total_slab_bytes layout ;;;
  ret layout.
End layout.

(** ** Striped slot numbers *)

Definition from_unstriped_slot_index (index num_stripes : Z) : option (Z * Z) :=
  n ← try_from u32_MAX num_stripes;
  if num_stripes =? 0 then None else Some (index mod num_stripes, index / n).

Definition as_unstriped_slot_index (self stripe num_stripes : Z) : option Z :=
  n ← try_from u32_MAX num_stripes;
  s ← try_from u32_MAX stripe;
  if self * n + s <=? u32_MAX then Some (self * n + s) else None.

(** [create_stripe]: how many of the slots stripe [i] has. *)
Definition stripe_slots (num_slots num_stripes i : Z) : Z :=
  num_slots / num_stripes + if i <? num_slots mod num_stripes then 1 else 0.

Example calculate_two_keys :
  calculate (H := host_4k) (S := unit) (mkConstraints (4 * 2 ^ 30) (2 ^ 30) 10 15 (2 * 2 ^ 30) true) tt =
  Ret (mkLayout 10 (2 ^ 30) (2 ^ 30) (2 * 2 ^ 30) (5 * 2 ^ 30) 6) tt.
Proof. vm_compute. reflexivity. Qed.

(** ** Alignment *)

Section aligned.
Context `{Host}.

(** The invariant of [HostAlignedByteCount]. *)
Definition aligned (b : Z) : Prop := (host_page_size | b) /\ 0 <= b <= usize_MAX.

Lemma page_pos : 0 < host_page_size.
Proof.
  rewrite host_page_size_pow2. pose proof host_page_log2_range as Hr. apply Z.pow_pos_nonneg; lia.
Qed.

Lemma page_nz : host_page_size <> 0.
Proof. pose proof page_pos. lia. Qed.

Lemma round_up_spec b : 0 <= b ->
  let r := Z.land (b + (host_page_size - 1)) (Z.lnot (host_page_size - 1)) in
  (host_page_size | r) /\ b <= r < b + host_page_size.
Proof.
  intros Hb. pose proof host_page_log2_range as Hk. pose proof page_pos as Hp.
  intros r. set (v := b + (host_page_size - 1)) in *.
  assert (r = v / host_page_size * host_page_size) as ->.
  { unfold r. rewrite <- Z.ldiff_land. rewrite host_page_size_pow2 at 1.
    rewrite Z.sub_1_r, <- (Z.ones_equiv host_page_log2), Z.ldiff_ones_r, Z.shiftr_div_pow2, Z.shiftl_mul_pow2 by lia.
    by rewrite host_page_size_pow2. }
  split; [apply Z.divide_factor_r|].
  pose proof (Z.div_mod v host_page_size page_nz).
  pose proof (Z.mod_pos_bound v host_page_size Hp). lia.
Qed.

Lemma new_rounded_up_run {S} b (s : S) : 0 <= b ->
  (exists r, HostAlignedByteCount.new_rounded_up b s = Ret r s /\ aligned r /\
     b <= r < b + host_page_size) \/
  HostAlignedByteCount.new_rounded_up b s = Fail RoundUp s.
Proof.
  intros Hb. unfold HostAlignedByteCount.new_rounded_up, checked_add.
  destruct (Z.leb_spec (b + (host_page_size - 1)) usize_MAX); [left|by right].
  destruct (round_up_spec b Hb) as [Hd Hr]. eexists. split; [done|]. split; [split; [done|]|done]. lia.
Qed.

(** Rounding an aligned count up keeps it. *)
Lemma aligned_next a b : (host_page_size | a) -> (host_page_size | b) -> b < a + host_page_size ->
  a <= b -> b = a.
Proof.
  intros [x ->] [y ->] ? ?. pose proof page_pos. f_equal. nia.
Qed.

Lemma aligned_0 : aligned 0.
Proof. split; [apply Z.divide_0_r|]. unfold usize_MAX. lia. Qed.

Lemma aligned_max a b : aligned a -> aligned b -> aligned (Z.max a b).
Proof. intros ? ?. destruct (Z.max_spec a b) as [[_ ->]|[_ ->]]; done. Qed.

Lemma aligned_add a b : aligned a -> aligned b -> a + b <= usize_MAX -> aligned (a + b).
Proof. intros [? ?] [? ?] ?. split; [by apply Z.divide_add_r|lia]. Qed.

Lemma aligned_saturating_sub a b :
  aligned a -> aligned b -> aligned (HostAlignedByteCount.saturating_sub a b).
Proof.
  intros [? ?] [? ?]. unfold HostAlignedByteCount.saturating_sub, saturating_sub.
  destruct (Z.max_spec (a - b) 0) as [[_ ->]|[? ->]]; [apply aligned_0|].
  split; [by apply Z.divide_sub_r|lia].
Qed.
End aligned.

(** ** The layout that is returned *)

(** The constraints [SlabConstraints_new] makes. *)
Record constraints_ok `{Host} (c : SlabConstraints) : Prop := {
  ok_expected : aligned (expected_slot_bytes c);
  ok_max : aligned (c_max_memory_bytes c);
  ok_guard : aligned (guard_bytes c);
  ok_slots : 0 <= c_num_slots c <= u32_MAX;
  ok_pkeys : 0 <= num_pkeys_available c
}.

(** How far beyond its start compiled code may reach into a slot unchecked. *)
Definition faulting (c : SlabConstraints) : Z :=
  Z.max (expected_slot_bytes c) (c_max_memory_bytes c) + guard_bytes c.

Record layout_ok `{Host} (c : SlabConstraints) (l : SlabLayout) : Prop := {
  lo_slots : num_slots l = c_num_slots c;
  lo_max : max_memory_bytes l = c_max_memory_bytes c;
  lo_slot_aligned : aligned (slot_bytes l);
  lo_pre : pre_slab_guard_bytes l = if guard_before_slots c then guard_bytes c else 0;
  lo_post : post_slab_guard_bytes l = Z.max (faulting c - slot_bytes l) 0;
  lo_fits : max_memory_bytes l <= slot_bytes l;
  lo_total : slot_bytes l * num_slots l + pre_slab_guard_bytes l + post_slab_guard_bytes l <= usize_MAX;
  lo_stripes : 1 <= num_stripes l;
  lo_stripes_pkeys : num_stripes l = 1 \/
    (num_stripes l <= num_pkeys_available c /\ num_stripes l <= c_num_slots c);
  lo_faulting : num_pkeys_available c <= host_page_size ->
    faulting c <= slot_bytes l * num_stripes l
}.

Section calculate.
Context `{Host} {S : Type} (c : SlabConstraints) (Hc : constraints_ok c).

(** A share of the faulting region, rounded up to a page: the shares cover it
    when there are at most as many as a page has bytes. *)
Lemma shares_cover F n s :
  (host_page_size | F) -> (host_page_size | s) -> 0 <= F -> 1 <= n <= host_page_size ->
  F / n <= s -> F <= s * n.
Proof.
  intros [f ->] [t ->] HF Hn Hs. pose proof page_pos.
  pose proof (Z.div_mod (f * host_page_size) n ltac:(lia)) as E.
  pose proof (Z.mod_pos_bound (f * host_page_size) n ltac:(lia)).
  set (q := f * host_page_size / n) in *. set (r := (f * host_page_size) mod n) in *.
  clearbody q r. assert (f * host_page_size < (t * n + 1) * host_page_size) by nia.
  assert (f <= t * n) by nia. nia.
Qed.

Lemma stripes_and_slot_run (s : S) : faulting c <= usize_MAX ->
  exists n b, stripes_and_slot c (faulting c) s = Ret (n, b) s /\
    1 <= n /\ 0 <= b <= usize_MAX /\ c_max_memory_bytes c <= b /\ faulting c / n <= b /\
    (n = 1 \/ (n <= num_pkeys_available c /\ n <= c_num_slots c)).
Proof.
  intros HF. destruct Hc as [[_ He] [_ Hm] [_ Hg] Hs Hk].
  assert (0 <= c_max_memory_bytes c <= faulting c) as Hmf by (unfold faulting; lia).
  unfold stripes_and_slot.
  destruct (Z.eqb_spec (guard_bytes c) 0) as [|Hg0]; simpl;
    [eexists _, _; split; [done|]; rewrite Z.div_1_r; lia|].
  destruct (Z.eqb_spec (c_max_memory_bytes c) 0) as [|Hm0]; simpl;
    [eexists _, _; split; [done|]; rewrite Z.div_1_r; lia|].
  destruct (Z.eqb_spec (c_num_slots c) 0) as [|Hs0]; simpl;
    [eexists _, _; split; [done|]; rewrite Z.div_1_r; lia|].
  destruct (Z.ltb_spec (num_pkeys_available c) 2);
    [eexists _, _; split; [done|]; rewrite Z.div_1_r; lia|].
  unfold HostAlignedByteCount.checked_div, HostAlignedByteCount.checked_rem.
  rewrite (proj2 (Z.eqb_neq _ _)) by done. unfold expect, or_else, bind, ret; simpl.
  set (m := c_max_memory_bytes c) in *. set (F := faulting c) in *.
  set (k := if F mod m =? 0 then 0 else 1). assert (0 <= k <= 1) as Hk1 by (unfold k; destruct (_ =? 0); lia).
  assert (1 <= F / m) by (apply Z.div_le_lower_bound; lia).
  assert (F / m <= F) by (apply Z.div_le_upper_bound; nia).
  assert (F / m + k <= usize_MAX) as Hadd.
  { destruct (decide (m = 1)) as [E|].
    - unfold k. rewrite E, Z.mod_1_r, Z.eqb_refl, Z.div_1_r. lia.
    - assert (F / m <= F / 2) by (apply Z.div_le_compat_l; lia).
      assert (F / 2 * 2 <= F) by (rewrite Z.mul_comm; apply Z.mul_div_le; lia). unfold usize_MAX in *. lia. }
  unfold checked_add. rewrite (proj2 (Z.leb_le _ _)) by done. simpl.
  rewrite (proj2 (Z.ltb_lt _ _)) by lia. simpl.
  set (n := Z.min (Z.min (num_pkeys_available c) (F / m + k)) (c_num_slots c)).
  assert (1 <= n) by lia. rewrite (proj2 (Z.eqb_neq n 0)) by lia.
  assert (0 <= F / n <= F) by (split; [apply Z.div_pos|apply Z.div_le_upper_bound]; nia).
  rewrite (proj2 (Z.leb_le _ _)) by lia. simpl. eexists _, _. split; [done|]. lia.
Qed.

Lemma calculate_run (s : S) :
  (exists l, calculate c s = Ret l s /\ layout_ok c l) \/ exists e, calculate c s = Fail e s.
Proof.
  destruct Hc as [He Hm Hg Hs Hk]. pose proof He as [_ ?]. pose proof Hm as [_ ?]. pose proof Hg as [_ ?].
  unfold calculate, bind, HostAlignedByteCount.checked_add, checked_add. fold (faulting c).
  destruct (Z.leb_spec (faulting c) usize_MAX) as [HF|]; simpl; [|right; eauto].
  destruct (stripes_and_slot_run s HF) as (n & b & -> & Hn & Hb & Hmb & Hfb & Hnk).
  cbn [fst snd]. destruct (new_rounded_up_run b s) as [(r & -> & Hr & Hbr)| ->]; [lia| |right; eauto].
  assert (aligned (faulting c)) as HFa by (unfold faulting; apply aligned_add; auto using aligned_max).
  pose proof (aligned_saturating_sub (faulting c) r HFa Hr) as [_ Hpost].
  unfold total_slab_bytes, bind, HostAlignedByteCount.checked_mul, HostAlignedByteCount.checked_add.
  cbn [slot_bytes num_slots pre_slab_guard_bytes post_slab_guard_bytes fst snd].
  destruct (Z.leb_spec (r * c_num_slots c) usize_MAX); simpl; [|right; eauto].
  unfold checked_add. destruct (Z.leb_spec (r * c_num_slots c + if guard_before_slots c then guard_bytes c else 0) usize_MAX);
    simpl; [|right; eauto].
  destruct (Z.leb_spec (r * c_num_slots c + (if guard_before_slots c then guard_bytes c else 0) +
    HostAlignedByteCount.saturating_sub (faulting c) r) usize_MAX); simpl; [left|right; eauto].
  eexists. split; [done|]. split; cbn [num_slots slot_bytes max_memory_bytes pre_slab_guard_bytes
    post_slab_guard_bytes num_stripes]; try done; try lia.
  intros Hpk. apply shares_cover; [apply HFa|apply Hr|apply HFa| |lia].
  pose proof page_pos. lia.
Qed.
End calculate.

(** ** Safety of unchecked accesses *)

(** Where slot [i] starts in the mapping ([MemoryPool::get_base]), and the
    length of the mapping. *)
Definition slot_base (l : SlabLayout) (i : Z) : Z := slot_bytes l * i + pre_slab_guard_bytes l.
Definition total_bytes (l : SlabLayout) : Z :=
  slot_bytes l * num_slots l + pre_slab_guard_bytes l + post_slab_guard_bytes l.

(** The memory of slot [j]: what can ever become accessible of it. *)
Definition in_memory (l : SlabLayout) (j x : Z) : Prop :=
  slot_base l j <= x < slot_base l j + max_memory_bytes l.

Lemma mul_step b n i j : 0 <= b -> 1 <= n -> j <> i -> j mod n = i mod n ->
  b * j <= b * i - b * n \/ b * i + b * n <= b * j.
Proof.
  intros Hb Hn Hne Em. pose proof (Z.div_mod i n ltac:(lia)). pose proof (Z.div_mod j n ltac:(lia)).
  rewrite Em in *. assert (j / n <> i / n) by congruence.
  assert (j = i + n * (j / n - i / n)) as Ej by lia.
  destruct (decide (j / n < i / n)).
  - left. assert (j <= i - n) by nia. nia.
  - right. assert (i + n <= j) by nia. nia.
Qed.

Lemma layout_no_oob `{Host} c l i x :
  constraints_ok c -> layout_ok c l -> num_pkeys_available c <= host_page_size ->
  0 <= i < num_slots l ->
  slot_base l i - pre_slab_guard_bytes l <= x < slot_base l i + faulting c ->
  0 <= x < total_bytes l /\
  forall j, 0 <= j < num_slots l -> j <> i -> j mod num_stripes l = i mod num_stripes l ->
    ~ in_memory l j x.
Proof.
  intros [[_ He] [_ Hm] [_ Hg] _ _] [Els Em [_ Hb] Epre Epost Hfit Htot Hst _ HF] Hpk Hi Hx.
  specialize (HF Hpk). unfold slot_base, total_bytes, in_memory in *. rewrite Epost.
  assert (0 <= pre_slab_guard_bytes l <= guard_bytes c) by (rewrite Epre; destruct (guard_before_slots c); lia).
  split.
  - assert (slot_bytes l * (i + 1) <= slot_bytes l * num_slots l) by nia. nia.
  - intros j Hj Hne Hmod [Hx1 Hx2]. unfold faulting in *.
    destruct (mul_step (slot_bytes l) (num_stripes l) i j) as [Hle|Hle]; [lia..| |]; unfold slot_base in *; lia.
Qed.

(** C28. The memory pool's layout makes unchecked accesses safe.  For all
    constraints, [calculate] returns an error or a layout and never panics; in a
    returned layout every address compiled code may touch without a check, from
    the guard before a slot to the end of its faulting region, lies inside the
    mapping and in no other memory of the slot's stripe, so that it hits the
    slot itself, a guard, or a slot under another protection key. *)
Theorem slab_layout_safe `{Host} (S : Type) c (s : S) :
  constraints_ok c -> num_pkeys_available c <= host_page_size ->
  match calculate c s with
  | Ret l s' => s' = s /\ max_memory_bytes l <= slot_bytes l /\ total_bytes l <= usize_MAX /\
      1 <= num_stripes l /\
      forall i x, 0 <= i < num_slots l ->
        slot_base l i - pre_slab_guard_bytes l <= x < slot_base l i + faulting c ->
        0 <= x < total_bytes l /\
        forall j, 0 <= j < num_slots l -> j <> i -> j mod num_stripes l = i mod num_stripes l ->
          ~ in_memory l j x
  | Fail _ s' => s' = s
  | Panic => False
  end.
Proof.
  intros Hc Hpk. destruct (calculate_run c Hc s) as [(l & -> & Hl)|[e ->]]; [|done].
  split; [done|]. split_and!; try apply Hl. intros. by apply (layout_no_oob c).
Qed.

(** Concrete constraints are aligned and in range. *)
Ltac check_constraints :=
  split; simpl; try (unfold u32_MAX; lia);
    (split; [apply Z.mod_divide; [simpl; lia|reflexivity]|simpl; unfold usize_MAX; lia]).

Definition example_constraints : SlabConstraints :=
  mkConstraints (4 * 2 ^ 30) (2 ^ 30) 10 15 (2 * 2 ^ 30) true.

Lemma example_constraints_ok : constraints_ok (H := host_4k) example_constraints.
Proof. check_constraints. Qed.

Lemma slab_layout_safe_witness :
  match calculate (H := host_4k) example_constraints tt with
  | Ret l s' => num_stripes l = 6
  | _ => False
  end /\
  match calculate (H := host_4k) example_constraints tt with
  | Ret l s' => s' = tt /\ max_memory_bytes l <= slot_bytes l /\ total_bytes l <= usize_MAX /\
      1 <= num_stripes l /\
      forall i x, 0 <= i < num_slots l ->
        slot_base l i - pre_slab_guard_bytes l <= x < slot_base l i + faulting example_constraints ->
        0 <= x < total_bytes l /\
        forall j, 0 <= j < num_slots l -> j <> i -> j mod num_stripes l = i mod num_stripes l ->
          ~ in_memory l j x
  | Fail _ s' => s' = tt
  | Panic => False
  end.
Proof.
  split; [vm_compute; reflexivity|].
  apply (slab_layout_safe (H := host_4k) unit example_constraints tt example_constraints_ok).
  simpl. lia.
Defined.

(** The unit test of the layout claims that no more stripes are
    used than the guard needs ([guard / max_memory + 2]), and that the stripes
    cover the faulting region for any number of protection keys.  Neither holds:
    a reservation much larger than the memories uses all the keys there are, and
    with more keys than a page has bytes the region can be a page short. *)
Theorem slab_test_claims_fail :
  (exists c l, constraints_ok (H := host_4k) c /\ calculate (H := host_4k) c tt = Ret l tt /\
     1 < num_pkeys_available c < 16 /\ guard_bytes c / c_max_memory_bytes c + 2 < num_stripes l) /\
  (exists c l, constraints_ok (H := host_4k) c /\ calculate (H := host_4k) c tt = Ret l tt /\
     slot_bytes l * num_stripes l < faulting c).
Proof.
  split.
  - exists (mkConstraints (4 * 2 ^ 30) (2 ^ 16) 64 15 (2 ^ 16) true). eexists.
    split; [|split; [vm_compute; reflexivity|vm_compute; auto]].
    check_constraints.
  - exists (mkConstraints (4097 * 4096) 4096 5000 4097 4096 true). eexists.
    split; [|split; [vm_compute; reflexivity|vm_compute; auto]].
    check_constraints.
Qed.

(** ** Striped and plain slot numbers *)

Section striped.
Context (slots n : Z) (Hslots : 0 <= slots <= u32_MAX) (Hn : 1 <= n <= u32_MAX).

Lemma stripe_slots_spec i k : 0 <= i < n -> 0 <= k ->
  k < stripe_slots slots n i <-> k * n + i < slots.
Proof.
  intros Hi Hk. unfold stripe_slots. pose proof (Z.div_mod slots n ltac:(lia)) as E.
  pose proof (Z.mod_pos_bound slots n ltac:(lia)). set (q := slots / n) in *. set (r := slots mod n) in *.
  clearbody q r. destruct (Z.ltb_spec i r); nia.
Qed.

Lemma from_unstriped_run index : 0 <= index < slots ->
  from_unstriped_slot_index index n = Some (index mod n, index / n) /\
  0 <= index mod n < n /\ 0 <= index / n < stripe_slots slots n (index mod n) /\
  as_unstriped_slot_index (index / n) (index mod n) n = Some index.
Proof.
  intros Hi. pose proof (Z.mod_pos_bound index n ltac:(lia)) as Hm.
  assert (0 <= index / n) as Hd by (apply Z.div_pos; lia).
  assert (index / n * n + index mod n = index) as E by (pose proof (Z.div_mod index n); lia).
  unfold from_unstriped_slot_index, as_unstriped_slot_index. rewrite !try_from_in by lia. simpl.
  rewrite (proj2 (Z.eqb_neq n 0)), E, (proj2 (Z.leb_le _ _)) by lia.
  split_and!; try done; try lia. apply stripe_slots_spec; [done|lia..].
Qed.

Lemma as_unstriped_run i k : 0 <= i < n -> 0 <= k < stripe_slots slots n i ->
  as_unstriped_slot_index k i n = Some (k * n + i) /\ 0 <= k * n + i < slots /\
  from_unstriped_slot_index (k * n + i) n = Some (i, k).
Proof.
  intros Hi [Hk Hlt]. apply stripe_slots_spec in Hlt; [|done..].
  unfold from_unstriped_slot_index, as_unstriped_slot_index. rewrite !try_from_in by lia. simpl.
  rewrite (proj2 (Z.leb_le _ _)), (proj2 (Z.eqb_neq n 0)) by lia.
  split_and!; try done; try nia. do 2 f_equal.
  - rewrite Z.add_comm, Z.mod_add by lia. apply Z.mod_small. lia.
  - rewrite Z.div_add_l by lia. rewrite Z.div_small by lia. lia.
Qed.
End striped.
