(* ===== verification/CowSlot.v ===== *)
(** * Copy-on-write memory slots

    runtime/vm/cow.rs: [MemoryImageSlot], the slot of a pooled linear memory
    that is instantiated with the image of a module, used by a guest and reset
    for the next one; runtime/vm/pagemap_disabled.rs and sys/unix/pagemap.rs
    (resetting with or without a scan for dirty pages), and the system calls of
    sys/unix/vm.rs and mmap.rs as their manuals describe them.

    A byte of the address space is a cell: its value, the value of the mapping
    under it (what [madvise(MADV_DONTNEED)] restores) and whether it can be read
    and written.  A system call may fail, and then leaves its range in any state.

    Shown: instantiating a clean slot gives exactly the bytes of the image with
    zeros around it, accessible exactly up to the accessible size; whatever the
    guest then wrote, resetting the slot and decommitting what it asks for makes
    it clean again; no operation touches a byte outside of the slot, writes to
    inaccessible memory or panics. *)

From S2P Require Import Prelude MemoryTypes SlabLayout.

(** ** The address space *)

Record cell := mkCell { value : Z; backing : Z; readwrite : bool }.

Record Space := mkSpace { cells : Z -> cell; calls : nat }.

(** The operating system, as far as its manuals say: whether call number [n]
    fails, and what it leaves in its range then; what decommitting does; and the
    scan for pages that were written since they were mapped.  The scan may stop
    early; the regions it reports do not overlap, and pages it passed over without
    reporting them are unchanged. *)
Class OS := {
  os_failure : nat -> option (Z -> cell -> cell);
  restores_original_mapping : bool;
  pagemap_scan : Space -> Z -> Z -> Z -> option (list (Z * Z) * Z);
  pagemap_scan_range s ptr len max regions walk_end :
    pagemap_scan s ptr len max = Some (regions, walk_end) ->
    ptr <= walk_end <= ptr + len /\ forall r, r ∈ regions -> ptr <= r.1 <= r.2 /\ r.2 <= walk_end;
  pagemap_scan_total s ptr len max regions walk_end :
    pagemap_scan s ptr len max = Some (regions, walk_end) ->
    total (fun r => r.2 - r.1) regions <= walk_end - ptr;
  pagemap_scan_clean s ptr len max regions walk_end x :
    pagemap_scan s ptr len max = Some (regions, walk_end) -> ptr <= x < walk_end ->
    (forall r, r ∈ regions -> ~ (r.1 <= x < r.2)) -> value (cells s x) = backing (cells s x);
}.

Definition in_range (start len x : Z) : bool := (start <=? x) && (x <? start + len).

Definition set_range (start len : Z) (f : Z -> cell -> cell) (m : Z -> cell) : Z -> cell :=
  fun x => if in_range start len x then f x (m x) else m x.

Section syscalls.
Context `{OS}.
Abbreviation SM := (M Space PoolError).

Definition syscall (start len : Z) (effect : Z -> cell -> cell) : SM unit :=
  fun s => match os_failure (calls s) with
           | None => Ret tt (mkSpace (set_range start len effect (cells s)) (S (calls s)))
           | Some junk => Fail OsError (mkSpace (set_range start len junk (cells s)) (S (calls s)))
           end.

(** [mprotect]. *)
Definition expose_existing_mapping (ptr len : Z) : SM unit :=
  syscall ptr len (fun _ c => mkCell (value c) (backing c) true).
Definition hide_existing_mapping (ptr len : Z) : SM unit :=
  syscall ptr len (fun _ c => mkCell (value c) (backing c) false).
(** [mmap] of anonymous memory without and with access, and of an image. *)
Definition erase_existing_mapping (ptr len : Z) : SM unit :=
  syscall ptr len (fun _ _ => mkCell 0 0 false).
Definition remap_as_zeros (ptr len : Z) : SM unit :=
  syscall ptr len (fun _ _ => mkCell 0 0 true).
Definition map_image (ptr len : Z) (source : Z -> Z) : SM unit :=
  syscall ptr len (fun x _ => mkCell (source (x - ptr)) (source (x - ptr)) true).
Definition decommit_pages (addr len : Z) : SM unit :=
  if len =? 0 then ret tt
  else syscall addr len (fun _ c =>
    if restores_original_mapping then mkCell (backing c) (backing c) (readwrite c) else mkCell 0 0 true).

(** A store through a slice: a fault on memory that cannot be written. *)
Definition write (ptr len : Z) (f : Z -> Z) : SM unit :=
  fun s => if forallb (fun x => readwrite (cells s x)) (seqZ ptr len)
           then Ret tt (mkSpace (set_range ptr len (fun x c => mkCell (f (x - ptr)) (backing c) (readwrite c))
                                   (cells s)) (calls s))
           else Panic.
End syscalls.

(** ** Images and slots *)

(** An image: its place in linear memory, its length, and its bytes, which the
    mapped file and the module's data both hold. *)
Record MemoryImage := mkImage { linear_memory_offset : Z; image_len : Z; image_bytes : Z -> Z }.

(** The slot; an [Arc<MemoryImage>] is a pointer into [images]. *)
Record MemoryImageSlot := mkSlot {
  base : Z;
  static_size : Z;
  image : option Z;
  accessible : Z;
  dirty : bool
}.

Definition create (base accessible static_size : Z) : MemoryImageSlot :=
  mkSlot base static_size None accessible false.

Definition set_image (i : option Z) (s : MemoryImageSlot) : MemoryImageSlot :=
  mkSlot (base s) (static_size s) i (accessible s) (dirty s).
Definition set_accessible (a : Z) (s : MemoryImageSlot) : MemoryImageSlot :=
  mkSlot (base s) (static_size s) (image s) a (dirty s).
Definition set_dirty (d : bool) (s : MemoryImageSlot) : MemoryImageSlot :=
  mkSlot (base s) (static_size s) (image s) (accessible s) d.

Section slot.
Context `{Host} `{OS} (images : Z -> MemoryImage).

(** A method of the slot, over the address space. *)
Abbreviation CM := (M (MemoryImageSlot * Space) PoolError).
Definition os {A} (m : M Space PoolError A) : CM A := zoom snd (fun s p => (p.1, s)) m.
Definition self {A} (f : MemoryImageSlot -> A) : CM A := fun p => Ret (f p.1) p.
Definition update (f : MemoryImageSlot -> MemoryImageSlot) : CM unit := fun p => Ret tt (f p.1, p.2).

Definition set_protection (start end_ : Z) (readwrite : bool) : CM unit :=
  len <- expect (HostAlignedByteCount.checked_sub end_ start) ;;
  static_size <- self static_size ;;
  rust_assert (end_ <=? static_size) ;;;
  if HostAlignedByteCount.is_zero len then ret tt
  else
    base <- self base ;;
    os (if readwrite then expose_existing_mapping (base + start) len
        else hide_existing_mapping (base + start) len).

Definition set_heap_limit (size_bytes : Z) : CM unit :=
  aligned <- HostAlignedByteCount.new_rounded_up size_bytes ;;
  static_size <- self static_size ;;
  rust_assert (size_bytes <=? static_size) ;;;
  rust_assert (aligned <=? static_size) ;;;
  accessible <- self accessible ;;
  if aligned <=? accessible then ret tt
  else
    set_protection accessible aligned true ;;;
    update (set_accessible aligned).

Definition remove_image : CM unit :=
  image <- self image ;;
  match image with
  | Some i =>
      base <- self base ;;
      os (remap_as_zeros (base + linear_memory_offset (images i)) (image_len (images i))) ;;;
      update (set_image None)
  | None => ret tt
  end.

(** [relies_on_vm] is the condition on the guard size and the memory type. *)
Definition relies_on_vm (ty : Memory.t) (mt : MemoryTunables.t) : bool :=
  (0 <? MemoryTunables.guard_size mt)
  || Memory.can_use_virtual_memory ty (MemoryTunables.tunables mt) host_page_log2.

Definition place_image (initial_size_bytes : Z) (maybe_image : option Z) : CM unit :=
  (match maybe_image with
   | Some i =>
       end_ <- expect (HostAlignedByteCount.checked_add (linear_memory_offset (images i))
                         (image_len (images i))) ;;
       rust_assert (end_ <=? initial_size_bytes) ;;;
       if HostAlignedByteCount.is_zero (image_len (images i)) then ret tt
       else base <- self base ;;
            os (map_image (base + linear_memory_offset (images i)) (image_len (images i))
                  (image_bytes (images i)))
   | None => ret tt
   end) ;;;
  update (set_image maybe_image).

(** The accessible size of [instantiate]: grown to the initial size, and shrunk to
    it where the code relies on inaccessible memory. *)
Definition resize (page_aligned : Z) (relies : bool) : CM unit :=
  acc <- self accessible ;;
  (if acc <? page_aligned then
     set_protection acc page_aligned true ;;; update (set_accessible page_aligned)
   else ret tt) ;;;
  acc <- self accessible ;;
  (if (page_aligned <? acc) && relies then
     set_protection page_aligned acc false ;;; update (set_accessible page_aligned)
   else ret tt).

Definition instantiate (initial_size_bytes : Z) (maybe_image : option Z) (relies : bool) : CM unit :=
  dirty <- self dirty ;;
  rust_assert (negb dirty) ;;;
  static_size <- self static_size ;;
  rust_assert (initial_size_bytes <=? static_size) ;;;
  page_aligned <- HostAlignedByteCount.new_rounded_up initial_size_bytes ;;
  image <- self image ;;
  let images_equal := bool_decide (image = maybe_image) in
  (if images_equal then ret tt else remove_image) ;;;
  resize page_aligned relies ;;;
  acc <- self accessible ;;
  rust_assert (initial_size_bytes <=? acc) ;;;
  rust_assert (page_aligned <=? acc) ;;;
  (if images_equal then ret tt else place_image initial_size_bytes maybe_image) ;;;
  update (set_dirty true).

Definition reset_with_anon_memory : CM unit :=
  static_size <- self static_size ;;
  if static_size =? 0 then
    image <- self image ;;
    rust_assert (bool_decide (image = None)) ;;;
    accessible <- self accessible ;;
    rust_assert (accessible =? 0)
  else
    base <- self base ;;
    os (erase_existing_mapping base static_size) ;;;
    update (fun s => set_accessible 0 (set_image None s)).

(** ** Resetting *)

(** Zeros before the image, its bytes, zeros after it, within the region. *)
Definition manually_reset_region (base_addr : Z) (img : MemoryImage) (ptr len : Z)
  : M Space PoolError unit :=
  let image_start := linear_memory_offset img in
  image_end <- unwrap (checked_add usize_MAX image_start (image_len img)) ;;
  region_start <- unwrap (checked_sub ptr base_addr) ;;
  p <-
    match checked_sub image_start region_start with
    | Some before =>
        let n := Z.min before len in
        write (base_addr + region_start) n (fun _ => 0) ;;;
        ret (if len - n =? 0 then None else Some (region_start + n, len - n))
    | None => ret (Some (region_start, len))
    end ;;
  match p with
  | None => ret tt
  | Some (region_start, len) =>
      rust_assert (image_start <=? region_start) ;;;
      q <-
        match checked_sub image_end region_start with
        | Some inside =>
            let n := Z.min inside len in
            write (base_addr + region_start) n
              (fun k => image_bytes img (region_start - image_start + k)) ;;;
            ret (if len - n =? 0 then None else Some (region_start + n, len - n))
        | None => ret (Some (region_start, len))
        end ;;
      match q with
      | None => ret tt
      | Some (region_start, len) =>
          rust_assert (image_end <=? region_start) ;;;
          write (base_addr + region_start) len (fun _ => 0)
      end
  end.

(** What [decommit] is called with is returned, with the bytes left resident. *)
Definition reset_pagemap_disabled (ptr len keep_resident : Z)
    (reset_manually : Z -> Z -> M Space PoolError unit) : M Space PoolError (Z * list (Z * Z)) :=
  let keep_resident := Z.min keep_resident len in
  reset_manually ptr keep_resident ;;;
  rest <- expect (HostAlignedByteCount.checked_sub len keep_resident) ;;
  ret (keep_resident, [(ptr + keep_resident, rest)]).

Fixpoint reset_regions (reset_manually : Z -> Z -> M Space PoolError unit) (regions : list (Z * Z))
  : M Space PoolError Z :=
  match regions with
  | [] => ret 0
  | r :: regions =>
      reset_manually r.1 (r.2 - r.1) ;;;
      n <- reset_regions reset_manually regions ;;
      ret (r.2 - r.1 + n)
  end.

Definition reset_with_pagemap (pagemap : bool) (ptr len keep_resident : Z)
    (reset_manually : Z -> Z -> M Space PoolError unit) : M Space PoolError (Z * list (Z * Z)) :=
  let keep_resident := Z.min keep_resident len in
  let pagemap := pagemap && negb (keep_resident =? 0) &&
                 negb ((keep_resident <=? host_page_size) && (len <=? host_page_size)) in
  if pagemap then
    s <- get ;;
    match pagemap_scan s ptr len (keep_resident / host_page_size) with
    | Some (regions, walk_end) =>
        bytes_resident <- reset_regions reset_manually regions ;;
        ret (bytes_resident, [(walk_end, len - (walk_end - ptr))])
    | None => reset_pagemap_disabled ptr len keep_resident reset_manually
    end
  else reset_pagemap_disabled ptr len keep_resident reset_manually.

Definition reset_with_original_mapping (pagemap : bool) (keep_resident : Z)
  : CM (Z * list (Z * Z)) :=
  rust_assert restores_original_mapping ;;;
  image <- self image ;;
  base <- self base ;;
  accessible <- self accessible ;;
  os (reset_with_pagemap pagemap base accessible keep_resident
        (match image with
         | Some i => manually_reset_region base (images i)
         | None => fun ptr len => write ptr len (fun _ => 0)
         end)).

Definition reset_all_memory_contents (pagemap : bool) (keep_resident : Z)
  : CM (Z * list (Z * Z)) :=
  if restores_original_mapping then reset_with_original_mapping pagemap keep_resident
  else reset_with_anon_memory ;;; ret (0, []).

Definition clear_and_remain_ready (pagemap : bool) (keep_resident : Z) : CM (Z * list (Z * Z)) :=
  dirty <- self dirty ;;
  rust_assert dirty ;;;
  r <- reset_all_memory_contents pagemap keep_resident ;;
  update (set_dirty false) ;;;
  ret r.
End slot.

(** ** What a slot should hold *)

Section spec.
Context `{Host} `{OS} (images : Z -> MemoryImage).

(** The byte of linear memory at [o]: the image with zeros around it. *)
Definition expected (img : option Z) (o : Z) : Z :=
  match img with
  | Some i => if in_range (linear_memory_offset (images i)) (image_len (images i)) o
              then image_bytes (images i) (o - linear_memory_offset (images i)) else 0
  | None => 0
  end.

(** The image is not empty and fits below [n]: modules have initializers only
    for memories with data, and [ModuleMemoryImages::new] makes only images that
    fit into the minimum size of their memory. *)
Definition image_below (img : option Z) (n : Z) : Prop :=
  match img with
  | Some i => 0 <= linear_memory_offset (images i) /\ 0 < image_len (images i) /\
              linear_memory_offset (images i) + image_len (images i) <= n
  | None => True
  end.

Record slot_wf (s : MemoryImageSlot) : Prop := {
  wf_static : aligned (static_size s);
  wf_accessible : aligned (accessible s);
  wf_limit : accessible s <= static_size s;
  wf_image : image_below (image s) (accessible s)
}.

(** Every byte of the slot is as it should be. *)
Definition pristine (s : MemoryImageSlot) (m : Z -> cell) : Prop :=
  forall o, 0 <= o < static_size s ->
    m (base s + o) = mkCell (expected (image s) o) (expected (image s) o) (o <? accessible s).

(** In use: the accessible bytes may have been written. *)
Definition mapped (s : MemoryImageSlot) (m : Z -> cell) : Prop :=
  forall o, 0 <= o < static_size s ->
    backing (m (base s + o)) = expected (image s) o /\
    readwrite (m (base s + o)) = (o <? accessible s) /\
    (accessible s <= o -> value (m (base s + o)) = expected (image s) o).

Definition clean (s : MemoryImageSlot) (m : Z -> cell) : Prop :=
  dirty s = false /\ slot_wf s /\ pristine s m.
Definition in_use (s : MemoryImageSlot) (m : Z -> cell) : Prop :=
  dirty s = true /\ slot_wf s /\ mapped s m.

(** The slot keeps its place, and nothing outside of it has changed. *)
Definition confined (s : MemoryImageSlot) (m : Z -> cell) (p : MemoryImageSlot * Space) : Prop :=
  base p.1 = base s /\ static_size p.1 = static_size s /\
  forall x, ~ (base s <= x < base s + static_size s) -> cells p.2 x = m x.

Lemma in_range_spec a n x : in_range a n x = true <-> a <= x < a + n.
Proof. unfold in_range. rewrite andb_true_iff, Z.leb_le, Z.ltb_lt. lia. Qed.

Lemma set_range_in a n f m x : a <= x < a + n -> set_range a n f m x = f x (m x).
Proof. intros Hx%in_range_spec. unfold set_range. by rewrite Hx. Qed.

Lemma set_range_out a n f m x : ~ (a <= x < a + n) -> set_range a n f m x = m x.
Proof.
  intros Hx. unfold set_range. destruct (in_range a n x) eqn:E; [|done].
  by apply in_range_spec in E.
Qed.

Lemma expected_out img n o : image_below img n -> n <= o -> expected img o = 0.
Proof.
  destruct img as [i|]; [|done]. simpl. intros Hi Ho.
  destruct (in_range _ _ o) eqn:E; [|done]. apply in_range_spec in E. lia.
Qed.

Lemma pristine_mapped s m : pristine s m -> mapped s m.
Proof. intros Hp o Ho. by rewrite Hp by done. Qed.

(** A system call on a part of the slot. *)
Lemma syscall_wp s sp start len f P Q :
  0 <= start -> 0 <= len -> start + len <= static_size s ->
  (forall sp', cells sp' = set_range (base s + start) len f (cells sp) -> P tt (s, sp')) ->
  (forall sp', confined s (cells sp) (s, sp') -> Q OsError (s, sp')) ->
  wp (os (syscall (base s + start) len f)) P Q (s, sp).
Proof.
  intros Hs Hl Hle HP HQ. unfold wp, os, zoom, syscall. simpl.
  destruct (os_failure _) as [junk|]; [apply HQ|by apply HP].
  split; [done|]. split; [done|]. intros x Hx. simpl. apply set_range_out. lia.
Qed.

Lemma self_wp {A} (f : MemoryImageSlot -> A) P Q p : P (f p.1) p -> wp (self f) P Q p.
Proof. done. Qed.
Lemma update_wp f P Q p : P tt (f p.1, p.2) -> wp (update f) P Q p.
Proof. done. Qed.

Lemma set_protection_wp s sp start end_ b P Q :
  0 <= start -> start <= end_ -> end_ <= static_size s ->
  (forall sp', (forall x, cells sp' x = if in_range (base s + start) (end_ - start) x
                                then mkCell (value (cells sp x)) (backing (cells sp x)) b
                                else cells sp x) -> P tt (s, sp')) ->
  (forall sp', confined s (cells sp) (s, sp') -> Q OsError (s, sp')) ->
  wp (set_protection start end_ b) P Q (s, sp).
Proof.
  intros Hs Hle Hst HP HQ. unfold set_protection. apply wp_bind.
  apply (wp_run _ _ _ _ (end_ - start) (s, sp)).
  { unfold expect, or_else, HostAlignedByteCount.checked_sub, checked_sub.
    by rewrite (proj2 (Z.leb_le _ _)) by done. }
  apply wp_bind, self_wp. apply wp_bind. apply (wp_run _ _ _ _ tt (s, sp)).
  { simpl. by rewrite (proj2 (Z.leb_le _ _)) by done. }
  unfold HostAlignedByteCount.is_zero. destruct (Z.eqb_spec (end_ - start) 0) as [E|].
  - apply (wp_run _ _ _ _ tt (s, sp)); [done|]. apply HP. intros x.
    destruct (in_range _ _ x) eqn:Ex; [|done]. apply in_range_spec in Ex. lia.
  - apply wp_bind, self_wp. simpl.
    assert (forall sp', cells sp' = set_range (base s + start) (end_ - start)
      (fun _ c => mkCell (value c) (backing c) b) (cells sp) -> P tt (s, sp')) as HP'.
    { intros sp' E. apply HP. intros x. by rewrite E. }
    destruct b; apply syscall_wp; try done; lia.
Qed.

Lemma confined_refl s sp : confined s (cells sp) (s, sp).
Proof. done. Qed.

Lemma confined_trans s sp s1 sp1 p :
  confined s (cells sp) (s1, sp1) -> confined s1 (cells sp1) p -> confined s (cells sp) p.
Proof.
  intros (E1 & E2 & E3) (F1 & F2 & F3). simpl in *. split; [congruence|]. split; [congruence|].
  intros x Hx. rewrite F3 by (rewrite E1, E2; done). auto.
Qed.

(** A postcondition of a confined operation of the slot [s]. *)
Definition does (s : MemoryImageSlot) (sp : Space) (P : MemoryImageSlot -> (Z -> cell) -> Prop)
    (p : MemoryImageSlot * Space) : Prop :=
  confined s (cells sp) p /\ P p.1 (cells p.2).

Lemma remove_image_wp s sp :
  slot_wf s -> pristine s (cells sp) ->
  wp (remove_image images)
    (fun _ => does s sp (fun s' m => s' = set_image None s /\ pristine s' m))
    (fun _ => confined s (cells sp)) (s, sp).
Proof.
  intros [_ _ Hlim Himg] Hp. unfold remove_image. apply wp_bind, self_wp. simpl.
  destruct (image s) as [i|] eqn:Ei.
  - simpl in Himg. apply wp_bind, self_wp. simpl. apply wp_bind. apply syscall_wp; [lia..| |done].
    intros sp' E. apply update_wp. split.
    + split; [done|]. split; [done|]. intros x Hx. simpl. rewrite E. apply set_range_out. lia.
    + split; [done|]. intros o Ho. simpl in *. rewrite E.
      destruct (decide (linear_memory_offset (images i) <= o <
        linear_memory_offset (images i) + image_len (images i))).
      * rewrite set_range_in by lia. by rewrite (proj2 (Z.ltb_lt _ _)) by lia.
      * rewrite set_range_out, Hp by lia. rewrite Ei. simpl.
        destruct (in_range _ _ o) eqn:Er; [|done]. by apply in_range_spec in Er.
  - apply (wp_run _ _ _ _ tt (s, sp)); [done|]. split; [apply confined_refl|].
    destruct s; simpl in *. by subst.
Qed.

Lemma set_accessible_wp s sp a :
  aligned a -> aligned (static_size s) -> 0 <= accessible s <= static_size s -> a <= static_size s ->
  image_below (image s) (Z.min a (accessible s)) -> pristine s (cells sp) ->
  wp (if accessible s <? a then set_protection (accessible s) a true ;;; update (set_accessible a)
      else set_protection a (accessible s) false ;;; update (set_accessible a))
    (fun _ => does s sp (fun s' m => s' = set_accessible a s /\ pristine s' m))
    (fun _ => confined s (cells sp)) (s, sp).
Proof.
  intros [_ Ha] _ Hacc Has Himg Hp.
  assert (forall b lo hi, lo = Z.min a (accessible s) -> hi = Z.max a (accessible s) ->
    b = (accessible s <? a) ->
    wp (set_protection lo hi b ;;; update (set_accessible a))
      (fun _ => does s sp (fun s' m => s' = set_accessible a s /\ pristine s' m))
      (fun _ => confined s (cells sp)) (s, sp)) as Hw.
  { intros b lo hi Elo Ehi Eb. apply wp_bind. apply set_protection_wp; [lia..| |done].
    intros sp' E. apply update_wp. split.
    - split; [done|]. split; [done|]. intros x Hx. simpl. rewrite E.
      destruct (in_range _ _ x) eqn:Er; [|done]. apply in_range_spec in Er. lia.
    - split; [done|]. intros o Ho. simpl in *. rewrite E.
      destruct (in_range _ _ _) eqn:Er; rewrite Hp by done; simpl.
      + apply in_range_spec in Er. f_equal. rewrite Eb.
        destruct (Z.ltb_spec (accessible s) a), (Z.ltb_spec o a); done || lia.
      + f_equal. assert (~ (base s + lo <= base s + o < base s + lo + (hi - lo)))
          by (intros Hr%in_range_spec; congruence).
        destruct (Z.ltb_spec o (accessible s)), (Z.ltb_spec o a); done || lia. }
  destruct (Z.ltb_spec (accessible s) a); apply Hw; lia.
Qed.

Lemma place_image_wp s sp n img :
  image s = None -> image_below img n -> n <= accessible s <= static_size s -> n <= usize_MAX ->
  pristine s (cells sp) ->
  wp (place_image images n img)
    (fun _ => does s sp (fun s' m => s' = set_image img s /\ pristine s' m))
    (fun _ => confined s (cells sp)) (s, sp).
Proof.
  intros Ei Himg Hn Hus Hp. unfold place_image. apply wp_bind.
  destruct img as [i|].
  2: { apply (wp_run _ _ _ _ tt (s, sp)); [done|]. apply update_wp. split; [done|].
       split; [done|]. intros o Ho. simpl. rewrite Hp by done. by rewrite Ei. }
  simpl in Himg. apply wp_bind. eapply (wp_run _ _ _ _ _ (s, sp)).
  { unfold expect, or_else, HostAlignedByteCount.checked_add, checked_add.
    by rewrite (proj2 (Z.leb_le _ _)) by lia. }
  apply wp_bind, (wp_run _ _ _ _ tt (s, sp)); [by rewrite (proj2 (Z.leb_le _ _)) by lia|].
  unfold HostAlignedByteCount.is_zero. destruct (Z.eqb_spec (image_len (images i)) 0) as [E0|].
  { apply (wp_run _ _ _ _ tt (s, sp)); [done|]. apply update_wp. split; [done|].
    split; [done|]. intros o Ho. simpl. rewrite Hp by done. rewrite Ei. simpl.
    destruct (in_range _ _ o) eqn:Er; [|done]. apply in_range_spec in Er. lia. }
  apply wp_bind, self_wp. simpl. apply syscall_wp; [lia..| |done].
  intros sp' E. apply update_wp. split.
  - split; [done|]. split; [done|]. intros x Hx. simpl. rewrite E. apply set_range_out. lia.
  - split; [done|]. intros o Ho. simpl in *. rewrite E.
    destruct (in_range (linear_memory_offset (images i)) (image_len (images i)) o) eqn:Er.
    + apply in_range_spec in Er. rewrite set_range_in by lia.
      replace (base s + o - (base s + linear_memory_offset (images i))) with
        (o - linear_memory_offset (images i)) by lia. by rewrite (proj2 (Z.ltb_lt _ _)) by lia.
    + assert (~ (linear_memory_offset (images i) <= o < linear_memory_offset (images i) + image_len (images i)))
        by (intros Hr%in_range_spec; congruence).
      rewrite set_range_out, Hp by lia. by rewrite Ei.
Qed.

Lemma image_below_mono img a b : image_below img a -> a <= b -> image_below img b.
Proof. destruct img; simpl; lia. Qed.

Lemma resize_wp s sp a relies :
  slot_wf s -> pristine s (cells sp) -> aligned a -> a <= static_size s -> image_below (image s) a ->
  wp (resize a relies)
    (fun _ => does s sp (fun s' m => exists b, s' = set_accessible b s /\ a <= b /\
       (relies = true \/ accessible s <= a -> b = a) /\ slot_wf s' /\ pristine s' m))
    (fun _ => confined s (cells sp)) (s, sp).
Proof.
  intros Hwf Hp Ha Has Himg. pose proof Hwf as [Hst [Hal Hacc] Hlim Himg'].
  assert (slot_wf (set_accessible a s)) as Hwfa by by (split).
  pose proof (set_accessible_wp s sp a Ha Hst ltac:(lia) Has) as Hset.
  unfold resize. apply wp_bind, self_wp, wp_bind. simpl.
  destruct (Z.ltb_spec (accessible s) a) as [Hlt|Hge].
  - eapply wp_mono; [apply Hset; [by rewrite Z.min_r by lia|done]| |done].
    intros _ [s' sp'] [Hconf [E Hp']]. simpl in E, Hp'. subst s'. simpl in *. apply wp_bind, self_wp. simpl.
    rewrite Z.ltb_irrefl. apply (wp_run _ _ _ _ tt (set_accessible a s, sp')); [done|].
    split; [done|]. by exists a.
  - apply (wp_run _ _ _ _ tt (s, sp)); [done|]. apply wp_bind, self_wp. simpl.
    destruct (Z.ltb_spec a (accessible s)) as [Hlt|]; [|].
    + destruct relies; simpl.
      * eapply wp_mono; [apply Hset; [by rewrite Z.min_l by lia|done]| |done].
        intros _ [s' sp'] [Hconf [E Hp']]. simpl in E, Hp'. subst s'. split; [done|]. by exists a.
      * apply (wp_run _ _ _ _ tt (s, sp)); [done|]. split; [done|]. exists (accessible s).
        destruct s; naive_solver lia.
    + apply (wp_run _ _ _ _ tt (s, sp)); [done|]. split; [done|]. exists (accessible s).
      assert (a = accessible s) by lia. destruct s; naive_solver lia.
Qed.

(** A slot as [instantiate] leaves it; [relies] also if no more was accessible. *)
Record instantiated (n : Z) (img : option Z) (relies : bool) (s : MemoryImageSlot) (m : Z -> cell) : Prop := {
  in_dirty : dirty s = true;
  in_image : image s = img;
  in_wf : slot_wf s;
  in_size : n <= accessible s;
  in_tight : relies = true -> accessible s < n + host_page_size;
  in_pristine : pristine s m
}.

Lemma instantiate_wp s sp n img relies :
  clean s (cells sp) -> 0 <= n <= static_size s -> image_below img n ->
  wp (instantiate images n img relies)
    (fun _ => does s sp (instantiated n img (relies || (accessible s <=? n)))) (fun _ => confined s (cells sp)) (s, sp).
Proof.
  intros (Hd & Hwf & Hp) Hn Himg. pose proof Hwf as [[Hst Hus] [Hal Hacc] Hlim Himg'].
  unfold instantiate. apply wp_bind, self_wp. simpl. rewrite Hd.
  apply wp_bind, (wp_run _ _ _ _ tt (s, sp)); [done|]. apply wp_bind, self_wp. simpl.
  apply wp_bind, (wp_run _ _ _ _ tt (s, sp)); [by rewrite (proj2 (Z.leb_le _ _)) by lia|].
  apply wp_bind. unfold wp at 1.
  destruct (new_rounded_up_run n (s, sp)) as [(a & -> & Ha & Hna)| ->]; [lia| |done].
  assert (a <= static_size s) as Has.
  { destruct (decide (a <= static_size s)); [done|].
    pose proof (aligned_next (static_size s) a Hst (proj1 Ha)). lia. }
  apply wp_bind, self_wp. simpl. apply wp_bind.
  set (eq := bool_decide (image s = img)).
  apply (wp_mono _ (fun _ => does s sp (fun s' m =>
    s' = set_image (if eq then image s else None) s /\ pristine s' m)) _ (fun _ => confined s (cells sp))).
  { destruct eq; [|by apply remove_image_wp].
    apply (wp_run _ _ _ _ tt (s, sp)); [done|]. split; [done|]. split; [by destruct s|done]. }
  2: done.
  intros _ [s1 sp1] [Hc1 [E1 Hp1]]. simpl in E1, Hp1. subst s1.
  assert (image_below (if eq then image s else None) a) as Hb1.
  { unfold eq. case_bool_decide; [|done]. subst img. by apply (image_below_mono _ n); [|lia]. }
  assert (slot_wf (set_image (if eq then image s else None) s)) as Hwf1.
  { split; simpl; try done. destruct eq; done. }
  apply wp_bind. eapply wp_mono; [by apply resize_wp| |].
  2: { intros e p Hc. by eapply confined_trans. }
  intros _ [s2 sp2] [Hc2 (b & E2 & Hab & Htight & Hwf2 & Hp2)]. simpl in E2, Hwf2, Hp2. subst s2.
  pose proof (confined_trans _ _ _ _ _ Hc1 Hc2) as Hc12.
  apply wp_bind, self_wp. simpl.
  set (s2 := set_accessible b (set_image (if eq then image s else None) s)) in *.
  apply wp_bind, (wp_run _ _ _ _ tt (s2, sp2)); [by rewrite (proj2 (Z.leb_le _ _)) by lia|].
  apply wp_bind, (wp_run _ _ _ _ tt (s2, sp2)); [by rewrite (proj2 (Z.leb_le _ _)) by lia|].
  apply wp_bind, (wp_mono _ (fun _ => does s2 sp2 (fun s' m => s' = set_image img s2 /\ pristine s' m))
    _ (fun _ => confined s2 (cells sp2))).
  { destruct eq eqn:Eeq.
    - apply bool_decide_eq_true in Eeq. apply (wp_run _ _ _ _ tt (s2, sp2)); [done|].
      split; [done|]. split; [unfold s2; simpl; by rewrite <- Eeq|done].
    - apply place_image_wp; try done; simpl.
      + split; [lia|]. apply Hwf2.
      + lia. }
  2: { intros e p Hc. by eapply confined_trans. }
  intros _ [s3 sp3] [Hc3 [E3 Hp3]]. simpl in E3, Hp3. subst s3. apply update_wp. simpl.
  pose proof (confined_trans _ _ _ _ _ Hc12 Hc3) as Hc13.
  split; [done|]. split; simpl; try done; try lia.
  - destruct Hwf2 as [? ? ? _]. split; simpl in *; try done. by apply (image_below_mono _ n); [|lia].
  - intros [Hr|Hr%Z.leb_le]%orb_prop; rewrite Htight by first [by left | right; simpl; lia]; lia.
Qed.

(** Failing calls change nothing: more than the manual of [mprotect] promises, for
    those who use memory after one. *)
Definition atomic_failures : Prop := forall n junk x c, os_failure n = Some junk -> junk x c = c.

Lemma set_protection_fail s sp start end_ b e p : atomic_failures ->
  set_protection start end_ b (s, sp) = Fail e p -> p.1 = s /\ forall x, cells p.2 x = cells sp x.
Proof.
  intros Hat. unfold set_protection, expect, or_else, HostAlignedByteCount.checked_sub, checked_sub, rust_assert, self,
    bind, ok_or. destruct (start <=? end_); [|done]. cbn [ret fst].
  destruct (end_ <=? static_size s); [|done]. cbn. destruct (HostAlignedByteCount.is_zero _); [done|].
  unfold os, zoom, expose_existing_mapping, hide_existing_mapping.
  destruct b; unfold syscall; cbn [snd fst]; (destruct (os_failure _) as [junk|] eqn:E; [|done]);
    intros [= <- <-]; (split; [done|]); intros x; cbn; unfold set_range; (destruct (in_range _ _ x); [|done]); by eapply Hat.
Qed.

Lemma set_heap_limit_wp s sp n :
  in_use s (cells sp) -> 0 <= n <= static_size s ->
  wp (set_heap_limit n)
    (fun _ => does s sp (fun s' m => in_use s' m /\ n <= accessible s' /\ accessible s <= accessible s' /\
       (accessible s' = accessible s \/ accessible s' < n + host_page_size) /\ image s' = image s /\
       forall o, 0 <= o < static_size s -> value (m (base s + o)) = value (cells sp (base s + o))))
    (fun _ p => confined s (cells sp) p /\ (atomic_failures -> p.1 = s /\ forall x, cells p.2 x = cells sp x)) (s, sp).
Proof.
  intros (Hd & Hwf & Hm) Hn. pose proof Hwf as [[Hst Hus] [Hal Hacc] Hlim Himg].
  unfold set_heap_limit. apply wp_bind. unfold wp at 1.
  destruct (new_rounded_up_run n (s, sp)) as [(a & -> & Ha & Hna)| ->]; [lia| |by split].
  assert (a <= static_size s) as Has.
  { destruct (decide (a <= static_size s)); [done|].
    pose proof (aligned_next (static_size s) a Hst (proj1 Ha)). lia. }
  apply wp_bind, self_wp. simpl.
  apply wp_bind, (wp_run _ _ _ _ tt (s, sp)); [by rewrite (proj2 (Z.leb_le _ _)) by lia|].
  apply wp_bind, (wp_run _ _ _ _ tt (s, sp)); [by rewrite (proj2 (Z.leb_le _ _)) by lia|].
  apply wp_bind, self_wp. simpl. destruct (Z.leb_spec a (accessible s)).
  { apply (wp_run _ _ _ _ tt (s, sp)); [done|]. split; [done|]. simpl. split_and!; try done; try lia. }
  apply wp_bind, wp_fail_eq. apply set_protection_wp; [lia..| |].
  2: { intros sp' Hc E. split; [done|]. intros Hat. by eapply set_protection_fail. }
  intros sp' E. apply update_wp. split.
  { split; [done|]. split; [done|]. intros x Hx. simpl. rewrite E.
    destruct (in_range _ _ x) eqn:Er; [|done]. apply in_range_spec in Er. lia. }
  simpl. split_and!; try lia; try done; try (right; lia).
  - split; [done|]. split; [split; simpl; try done; by apply (image_below_mono _ (accessible s)); [|lia]|].
    intros o Ho. simpl in *. destruct (Hm o Ho) as (Hb & Hr & Hv). rewrite E.
    destruct (in_range _ _ _) eqn:Er; simpl.
    + apply in_range_spec in Er. rewrite (proj2 (Z.ltb_lt o a)) by lia. split_and!; [done..|lia].
    + assert (~ (base s + accessible s <= base s + o < base s + accessible s + (a - accessible s)))
        by (intros Hin%in_range_spec; congruence).
      rewrite Hr. split_and!; [done| |intros; apply Hv; lia].
      destruct (Z.ltb_spec o (accessible s)), (Z.ltb_spec o a); done || lia.
  - intros o Ho. rewrite E. by destruct (in_range _ _ _).
Qed.

Lemma reset_with_anon_memory_wp s sp :
  slot_wf s ->
  wp reset_with_anon_memory
    (fun _ => does s sp (fun s' m => s' = set_accessible 0 (set_image None s) /\ slot_wf s' /\ pristine s' m))
    (fun _ => confined s (cells sp)) (s, sp).
Proof.
  intros Hwf. pose proof Hwf as [[Hst Hus] [Hal Hacc] Hlim Hbelow].
  assert (static_size s = 0 -> image s = None) as Himg.
  { intros E0. destruct (image s) as [i|]; [|done]. simpl in Hbelow. lia. }
  assert (slot_wf (set_accessible 0 (set_image None s))) as Hwf'
    by (split; simpl; [done|apply aligned_0|lia|done]).
  unfold reset_with_anon_memory. apply wp_bind, self_wp. simpl.
  destruct (Z.eqb_spec (static_size s) 0) as [E0|].
  - apply wp_bind, self_wp. simpl. rewrite Himg by done.
    apply wp_bind, (wp_run _ _ _ _ tt (s, sp)); [done|]. apply wp_bind, self_wp. simpl.
    apply (wp_run _ _ _ _ tt (s, sp)); [by rewrite (proj2 (Z.eqb_eq _ _)) by lia|].
    assert (s = set_accessible 0 (set_image None s)) as Es.
    { specialize (Himg E0). destruct s; unfold set_accessible, set_image; simpl in *; subst. f_equal. lia. }
    split; [done|]. simpl. rewrite <- Es. split; [done|]. split; [done|]. intros o Ho. lia.
  - apply wp_bind, self_wp. simpl. apply wp_bind. rewrite <- (Z.add_0_r (base s)).
    apply syscall_wp; [lia..| |done]. intros sp' E. apply update_wp. split.
    + split; [done|]. split; [done|]. intros x Hx. simpl. rewrite E. apply set_range_out. lia.
    + simpl. split; [done|]. split; [done|]. intros o Ho. simpl in *. rewrite E, set_range_in by lia.
      by rewrite (proj2 (Z.ltb_ge _ _)) by lia.
Qed.

(** ** Resetting *)

Lemma write_wp ptr len f (P : unit -> Space -> Prop) Q sp :
  (forall x, ptr <= x < ptr + len -> readwrite (cells sp x) = true) ->
  P tt (mkSpace (set_range ptr len (fun x c => mkCell (f (x - ptr)) (backing c) (readwrite c)) (cells sp))
          (calls sp)) ->
  wp (write ptr len f) P Q sp.
Proof.
  intros Hrw HP. unfold wp, write.
  destruct (forallb _ _) eqn:E; [done|]. apply not_true_iff_false in E. destruct E.
  apply forallb_elem. intros x Hx%elem_of_seqZ. apply Hrw. lia.
Qed.

(** [rm] writes the expected bytes into a region of the slot. *)
Definition resets (s : MemoryImageSlot) (rm : Z -> Z -> M Space PoolError unit) : Prop :=
  forall sp ptr len,
    base s <= ptr -> 0 <= len -> ptr + len <= base s + accessible s ->
    (forall x, ptr <= x < ptr + len -> readwrite (cells sp x) = true) ->
    wp (rm ptr len)
      (fun _ sp' => forall x, cells sp' x =
         if in_range ptr len x
         then mkCell (expected (image s) (x - base s)) (backing (cells sp x)) (readwrite (cells sp x))
         else cells sp x)
      (fun _ _ => False) sp.

Lemma reset_zeros s : image s = None -> resets s (fun ptr len => write ptr len (fun _ => 0)).
Proof.
  intros Ei sp ptr len _ _ _ Hrw. apply write_wp; [done|]. intros x. simpl. by rewrite Ei.
Qed.

(** The region from [ptr] is reset up to [a]. *)
Definition reset_upto (s : MemoryImageSlot) (sp : Space) (ptr a : Z) (sp' : Space) : Prop :=
  forall x, cells sp' x =
    if in_range ptr (a - ptr) x
    then mkCell (expected (image s) (x - base s)) (backing (cells sp x)) (readwrite (cells sp x))
    else cells sp x.

Lemma reset_upto_write s sp ptr a n f sp1 P Q :
  ptr <= a -> 0 <= n -> reset_upto s sp ptr a sp1 ->
  (forall x, ptr <= x < a + n -> readwrite (cells sp x) = true) ->
  (forall k, 0 <= k < n -> f k = expected (image s) (a + k - base s)) ->
  (forall sp2, reset_upto s sp ptr (a + n) sp2 -> P tt sp2) ->
  wp (write a n f) P Q sp1.
Proof.
  intros Ha Hn Hup Hrw Hf HP. apply write_wp.
  - intros x Hx. rewrite Hup. destruct (in_range _ _ x); simpl; apply Hrw; lia.
  - apply HP. intros x. simpl. unfold set_range.
    destruct (in_range a n x) eqn:E1; rewrite Hup.
    + apply in_range_spec in E1. rewrite (proj2 (in_range_spec ptr (a + n - ptr) x)) by lia.
      rewrite Hf by lia. replace (a + (x - a) - base s) with (x - base s) by lia.
      destruct (in_range ptr (a - ptr) x) eqn:E2; done.
    + assert (~ (a <= x < a + n)) as Hx by (intros Hr%in_range_spec; congruence).
      destruct (in_range ptr (a - ptr) x) eqn:E2.
      * apply in_range_spec in E2. by rewrite (proj2 (in_range_spec ptr (a + n - ptr) x)) by lia.
      * destruct (in_range ptr (a + n - ptr) x) eqn:E3; [|done].
        apply in_range_spec in E3. assert (in_range ptr (a - ptr) x = true); [|congruence].
        apply in_range_spec. lia.
Qed.

(** One of the two bounded writes of [manually_reset_region]: up to [lim]. *)
Lemma reset_part s sp ptr len a rem lim f sp1 :
  rem = ptr + len - a -> reset_upto s sp ptr a sp1 -> ptr <= a <= ptr + len ->
  (forall x, ptr <= x < ptr + len -> readwrite (cells sp x) = true) ->
  (forall k, 0 <= k < lim - (a - base s) -> f k = expected (image s) (a + k - base s)) ->
  wp (match checked_sub lim (a - base s) with
      | Some w =>
          let n := Z.min w rem in
          write (base s + (a - base s)) n f ;;;
          ret (if rem - n =? 0 then None else Some (a - base s + n, rem - n))
      | None => ret (Some (a - base s, rem))
      end)
    (fun p sp2 => (p = None /\ reset_upto s sp ptr (ptr + len) sp2) \/
       exists a', p = Some (a' - base s, ptr + len - a') /\ a <= a' <= ptr + len /\
       reset_upto s sp ptr a' sp2 /\ lim <= a' - base s)
    (fun _ _ => False) sp1.
Proof.
  intros -> Hup Ha Hrw Hf. unfold checked_sub. destruct (Z.leb_spec (a - base s) lim).
  - apply wp_bind. replace (base s + (a - base s)) with a by lia.
    set (n := Z.min _ _).
    apply (reset_upto_write s sp ptr a n f sp1); [lia|lia|done|intros; apply Hrw; lia| |].
    + intros k Hk. apply Hf. lia.
    + intros sp2 Hup2. eapply wp_run; [done|]. destruct (Z.eqb_spec (ptr + len - a - n) 0).
      * left. split; [done|]. by replace (ptr + len) with (a + n) by lia.
      * right. exists (a + n). split_and!; [|lia..|exact Hup2|lia]. do 2 f_equal; lia.
  - eapply wp_run; [done|]. right. exists a. split_and!; [done|lia..|done|lia].
Qed.

Lemma reset_upto_done s sp ptr len a sp1 : a = ptr + len ->
  reset_upto s sp ptr a sp1 ->
  forall x, cells sp1 x =
    if in_range ptr len x
    then mkCell (expected (image s) (x - base s)) (backing (cells sp x)) (readwrite (cells sp x))
    else cells sp x.
Proof. intros -> Hup x. rewrite Hup. by replace (ptr + len - ptr) with len by lia. Qed.

Lemma reset_image s i :
  slot_wf s -> image s = Some i -> resets s (manually_reset_region (base s) (images i)).
Proof.
  intros [_ [_ Hus] _ Himg] Ei sp ptr len Hptr Hlen Hend Hrw. rewrite Ei in Himg. simpl in Himg.
  set (im := images i) in *.
  assert (forall o, expected (image s) o =
    if in_range (linear_memory_offset im) (image_len im) o
    then image_bytes im (o - linear_memory_offset im) else 0) as Hexp by (by rewrite Ei).
  assert (forall o, o < linear_memory_offset im \/ linear_memory_offset im + image_len im <= o ->
    expected (image s) o = 0) as Hzero.
  { intros o Ho. rewrite Hexp. destruct (in_range _ _ o) eqn:Er; [|done]. apply in_range_spec in Er. lia. }
  assert (reset_upto s sp ptr ptr sp) as H0up.
  { intros x. destruct (in_range _ _ x) eqn:Er; [|done]. apply in_range_spec in Er. lia. }
  unfold manually_reset_region. apply wp_bind. eapply wp_run.
  { apply unwrap_run, checked_add_Some. split; [done|lia]. }
  apply wp_bind. eapply wp_run.
  { apply unwrap_run, checked_sub_Some. split; [done|lia]. }
  apply wp_bind. eapply wp_mono; [apply (reset_part s sp ptr len ptr); [lia|done|lia|done|]| |done].
  { intros k Hk. symmetry. apply Hzero. lia. }
  intros ? sp1 [[-> Hup]|(a & -> & Ha & Hup & Hge)]; simpl.
  { apply (wp_run _ _ _ _ tt sp1); [done|]. by apply (reset_upto_done _ _ _ _ (ptr + len)). }
  apply wp_bind, (wp_run _ _ _ _ tt sp1); [by rewrite (proj2 (Z.leb_le _ _)) by lia|].
  apply wp_bind. eapply wp_mono; [apply (reset_part s sp ptr len a); [done..|lia|done|]| |done].
  { intros k Hk. rewrite Hexp. rewrite (proj2 (in_range_spec _ _ _)) by lia. f_equal. lia. }
  intros ? sp2 [[-> Hup2]|(c & -> & Hc & Hup2 & Hge2)]; simpl.
  { apply (wp_run _ _ _ _ tt sp2); [done|]. by apply (reset_upto_done _ _ _ _ (ptr + len)). }
  apply wp_bind, (wp_run _ _ _ _ tt sp2); [by rewrite (proj2 (Z.leb_le _ _)) by lia|].
  replace (base s + (c - base s)) with c by lia.
  apply (reset_upto_write s sp ptr c (ptr + len - c) _ sp2); [lia|lia|done|intros; apply Hrw; lia| |].
  - intros k Hk. symmetry. apply Hzero. lia.
  - intros sp3 Hup3. by apply (reset_upto_done _ _ _ _ (c + (ptr + len - c))); [lia|].
Qed.

(** What a reset leaves: only accessible values change, and each becomes the
    expected one or is in a range that is to be decommitted. *)
Record reset_to (s : MemoryImageSlot) (sp : Space) (ds : list (Z * Z)) (sp' : Space) : Prop := {
  rt_outside x : ~ (base s <= x < base s + accessible s) -> cells sp' x = cells sp x;
  rt_same x : backing (cells sp' x) = backing (cells sp x) /\
              readwrite (cells sp' x) = readwrite (cells sp x);
  rt_value o : 0 <= o < accessible s ->
    value (cells sp' (base s + o)) = expected (image s) o \/
    exists d, d ∈ ds /\ d.1 <= base s + o < d.1 + d.2;
  rt_ranges d : d ∈ ds -> base s <= d.1 /\ 0 <= d.2 /\ d.1 + d.2 <= base s + accessible s
}.

Definition writable (s : MemoryImageSlot) (sp : Space) : Prop :=
  forall x, base s <= x < base s + accessible s -> readwrite (cells sp x) = true.

Lemma mapped_writable s sp : slot_wf s -> mapped s (cells sp) -> writable s sp.
Proof.
  intros [_ _ Hlim _] Hm x Hx. destruct (Hm (x - base s)) as (_ & Hr & _); [lia|].
  replace (base s + (x - base s)) with x in Hr by lia. rewrite Hr. apply Z.ltb_lt. lia.
Qed.

Lemma reset_pagemap_disabled_wp s sp rm keep :
  resets s rm -> writable s sp -> 0 <= accessible s -> 0 <= keep ->
  wp (reset_pagemap_disabled (base s) (accessible s) keep rm)
    (fun r sp' => 0 <= r.1 <= accessible s /\ reset_to s sp r.2 sp') (fun _ _ => False) sp.
Proof.
  intros Hrm Hrw Hacc Hk. unfold reset_pagemap_disabled. set (k := Z.min keep _).
  apply wp_bind. eapply wp_mono; [apply Hrm; [lia..|]| |done].
  { intros x Hx. apply Hrw. lia. }
  intros [] sp' E. simpl in E. apply wp_bind. apply (wp_run _ _ _ _ (accessible s - k) sp').
  { unfold expect, or_else, HostAlignedByteCount.checked_sub, checked_sub.
    by rewrite (proj2 (Z.leb_le _ _)) by lia. }
  eapply wp_run; [done|]. split; [simpl; lia|]. split; simpl.
  - intros x Hx. rewrite E. destruct (in_range _ _ x) eqn:Er; [|done]. apply in_range_spec in Er. lia.
  - intros x. rewrite E. by destruct (in_range _ _ x).
  - intros o Ho. rewrite E. destruct (in_range _ _ _) eqn:Er; simpl.
    + left. f_equal. lia.
    + right. eexists. split; [by apply list_elem_of_here|]. simpl.
      assert (~ (base s <= base s + o < base s + k)) by (intros Hin%in_range_spec; congruence). lia.
  - intros d Hd%list_elem_of_singleton. subst d. simpl. lia.
Qed.

Lemma reset_regions_wp s sp rm regions :
  resets s rm -> writable s sp ->
  (forall r, r ∈ regions -> base s <= r.1 <= r.2 /\ r.2 <= base s + accessible s) ->
  wp (reset_regions rm regions)
    (fun n sp' => n = total (fun r => r.2 - r.1) regions /\ 0 <= n /\
       forall x, cells sp' x = cells sp x /\ (forall r, r ∈ regions -> ~ (r.1 <= x < r.2)) \/
       base s <= x < base s + accessible s /\
       cells sp' x = mkCell (expected (image s) (x - base s)) (backing (cells sp x)) (readwrite (cells sp x)))
    (fun _ _ => False) sp.
Proof.
  intros Hrm Hrw Hin. induction regions as [|r regions IH] in sp, Hrw, Hin |- *; simpl.
  { eapply wp_run; [done|]. split_and!; [done..|]. intros x. left. split; [done|]. by intros r Hr%not_elem_of_nil. }
  pose proof (Hin r (list_elem_of_here _ _)) as Hr. apply wp_bind.
  eapply wp_mono; [apply Hrm; [lia..|]| |done]. { intros x Hx. apply Hrw. lia. }
  intros [] sp1 E. simpl in E. apply wp_bind. eapply wp_mono; [apply (IH sp1)| |done].
  - intros x Hx. rewrite E. specialize (Hrw x Hx). by destruct (in_range _ _ x).
  - intros r' Hr'. apply Hin. by apply list_elem_of_further.
  - intros n sp2 (-> & Hn & H2). eapply wp_run; [done|]. split_and!; [done|lia|]. intros x. specialize (H2 x). specialize (E x).
    destruct (in_range r.1 _ x) eqn:Er.
    + apply in_range_spec in Er. right. split; [lia|]. destruct H2 as [[-> _]|[_ ->]]; by rewrite E.
    + assert (~ (r.1 <= x < r.2)) by (intros Hx; rewrite (proj2 (in_range_spec _ _ _)) in Er; [done|lia]).
      rewrite E in H2. destruct H2 as [[-> Hno]|H2]; [left|by right]. split; [done|].
      intros r' [->|Hr']%elem_of_cons; [done|by apply Hno].
Qed.

Lemma reset_with_pagemap_wp s sp rm pagemap keep :
  resets s rm -> slot_wf s -> mapped s (cells sp) -> 0 <= keep ->
  wp (reset_with_pagemap pagemap (base s) (accessible s) keep rm)
    (fun r sp' => 0 <= r.1 <= accessible s /\ reset_to s sp r.2 sp') (fun _ _ => False) sp.
Proof.
  intros Hrm Hwf Hm Hk. pose proof (mapped_writable _ _ Hwf Hm) as Hrw.
  destruct Hwf as [_ [_ Hacc] Hlim _].
  assert (wp (reset_pagemap_disabled (base s) (accessible s) (Z.min keep (accessible s)) rm)
    (fun r sp' => 0 <= r.1 <= accessible s /\ reset_to s sp r.2 sp') (fun _ _ => False) sp) as Hdis
    by (apply reset_pagemap_disabled_wp; [done..|lia|lia]).
  unfold reset_with_pagemap. destruct (_ && _); [|done]. apply wp_bind. eapply wp_run; [done|].
  destruct (pagemap_scan _ _ _ _) as [[regions e]|] eqn:Escan; [|done].
  destruct (pagemap_scan_range _ _ _ _ _ _ Escan) as [He Hreg].
  apply wp_bind. eapply wp_mono; [apply (reset_regions_wp s)| |done]; [done..| |].
  { intros r Hr. specialize (Hreg r Hr). lia. }
  intros n sp' (-> & Hn & E). eapply wp_run; [done|]. simpl.
  split; [pose proof (pagemap_scan_total _ _ _ _ _ _ Escan); lia|]. split.
  - intros x Hx. by destruct (E x) as [[-> _]|[? _]].
  - intros x. by destruct (E x) as [[-> _]|[_ ->]].
  - intros o Ho. destruct (E (base s + o)) as [[-> Hno]|[_ ->]].
    + destruct (decide (base s + o < e)).
      * left. rewrite (pagemap_scan_clean _ _ _ _ _ _ (base s + o) Escan) by (done || lia).
        apply Hm. lia.
      * right. eexists. split; [by apply list_elem_of_here|]. simpl. lia.
    + left. simpl. f_equal. lia.
  - intros d Hd%list_elem_of_singleton. subst d. simpl. lia.
Qed.

(** A slot that was reset and waits for the ranges [ds] to be decommitted. *)
Record pending (s : MemoryImageSlot) (m : Z -> cell) (ds : list (Z * Z)) : Prop := {
  pd_dirty : dirty s = false;
  pd_wf : slot_wf s;
  pd_cell o : 0 <= o < static_size s ->
    backing (m (base s + o)) = expected (image s) o /\
    readwrite (m (base s + o)) = (o <? accessible s) /\
    (value (m (base s + o)) = expected (image s) o \/
     exists d, d ∈ ds /\ d.1 <= base s + o < d.1 + d.2)
}.

Lemma pending_clean s m : pending s m [] <-> clean s m.
Proof.
  split.
  - intros [Hd Hwf Hc]. split; [done|]. split; [done|]. intros o Ho.
    destruct (Hc o Ho) as (Hb & Hr & [Hv|(d & []%not_elem_of_nil & _)]).
    destruct (m (base s + o)). simpl in *. by subst.
  - intros (Hd & Hwf & Hp). split; [done..|]. intros o Ho. rewrite Hp by done. auto.
Qed.

Lemma pending_mono s m ds ds' : (forall d, d ∈ ds -> d ∈ ds') -> pending s m ds -> pending s m ds'.
Proof.
  intros Hsub [Hd Hwf Hc]. split; [done..|]. intros o Ho.
  destruct (Hc o Ho) as (Hb & Hr & [Hv|(d & Hin & Hx)]); eauto 10.
Qed.

(** Every address of the ranges [ds] is one of the slot's. *)
Definition within (s : MemoryImageSlot) (ds : list (Z * Z)) : Prop :=
  forall d, d ∈ ds -> base s <= d.1 /\ 0 <= d.2 /\ d.1 + d.2 <= base s + static_size s.

Definition decommitted (d : Z * Z) (m m' : Z -> cell) : Prop :=
  forall x, m' x = if in_range d.1 d.2 x then mkCell (backing (m x)) (backing (m x)) (readwrite (m x)) else m x.

Lemma pending_decommit s m d ds m' : pending s m (d :: ds) -> decommitted d m m' -> pending s m' ds.
Proof.
  intros [Hd Hwf Hc] Hm. split; [done..|]. intros o Ho. rewrite Hm.
  destruct (Hc o Ho) as (Hb & Hr & Hv). destruct (in_range _ _ _) eqn:Er; simpl; [by auto|].
  split_and!; try done. destruct Hv as [Hv|(d' & [->|Hin]%elem_of_cons & Hx)]; [by left| |by eauto].
  by apply in_range_spec in Hx; rewrite Hx in Er.
Qed.

Lemma decommit_pages_wp d sp : restores_original_mapping = true ->
  wp (decommit_pages d.1 d.2) (fun _ sp' => decommitted d (cells sp) (cells sp'))
    (fun _ sp' => forall x, ~ (d.1 <= x < d.1 + d.2) -> cells sp' x = cells sp x) sp.
Proof.
  intros Hr. unfold decommit_pages. destruct (Z.eqb_spec d.2 0) as [E|].
  - eapply wp_run; [done|]. intros x. destruct (in_range _ _ x) eqn:Ex; [|done].
    apply in_range_spec in Ex. lia.
  - unfold wp, syscall. rewrite Hr. destruct (os_failure _); simpl; [|done].
    intros x Hx. by apply set_range_out.
Qed.

(** A system operation inside a method of the slot. *)
Lemma os_wp {A} (m : M Space PoolError A) P Q s sp :
  wp m (fun a sp' => P a (s, sp')) (fun e sp' => Q e (s, sp')) sp -> wp (os m) P Q (s, sp).
Proof. unfold wp, os, zoom. simpl. by destruct (m sp). Qed.

Lemma reset_with_original_mapping_wp s sp pagemap keep :
  restores_original_mapping = true -> in_use s (cells sp) -> 0 <= keep ->
  wp (reset_with_original_mapping images pagemap keep)
    (fun r p => p.1 = s /\ 0 <= r.1 <= accessible s /\ reset_to s sp r.2 p.2) (fun _ _ => False) (s, sp).
Proof.
  intros Hr (Hd & Hwf & Hm) Hk. unfold reset_with_original_mapping. rewrite Hr.
  apply wp_bind, (wp_run _ _ _ _ tt (s, sp)); [done|]. do 3 apply wp_bind, self_wp. simpl.
  apply os_wp. eapply wp_mono; [apply reset_with_pagemap_wp; [|done..]| |done].
  - destruct (image s) as [i|] eqn:Ei; [by apply reset_image|by apply reset_zeros].
  - by intros r sp' Hto.
Qed.

(** After a reset nothing outside of the slot has changed, and what is left to
    do is to decommit the ranges it returned, all of them inside the slot. *)
Lemma clear_and_remain_ready_wp s sp pagemap keep :
  in_use s (cells sp) -> 0 <= keep ->
  wp (clear_and_remain_ready images pagemap keep)
    (fun r => does s sp (fun s' m => 0 <= r.1 <= static_size s /\ pending s' m r.2 /\ within s' r.2 /\
       (restores_original_mapping = false -> r.2 = [])))
    (fun _ => confined s (cells sp)) (s, sp).
Proof.
  intros Hin Hk. pose proof Hin as (Hd & Hwf & Hm). unfold clear_and_remain_ready.
  apply wp_bind, self_wp. simpl. rewrite Hd. apply wp_bind, (wp_run _ _ _ _ tt (s, sp)); [done|].
  apply wp_bind. unfold reset_all_memory_contents. destruct restores_original_mapping eqn:Hr.
  - eapply wp_mono; [by apply reset_with_original_mapping_wp| |done].
    intros r [s' sp'] (E & Hr1 & [Hout Hsame Hval Hran]). simpl in *. subst s'.
    apply wp_bind, update_wp. eapply wp_run; [done|]. pose proof (wf_limit _ Hwf).
    split; [|split; [simpl; lia|split_and!; [split|..]]]; simpl; try done.
    + split_and!; [done..|]. intros x Hx. apply Hout. lia.
    + by destruct Hwf.
    + intros o Ho. destruct (Hm o Ho) as (Hb & Hrw & Hv). destruct (Hsame (base s + o)) as [-> ->].
      split_and!; [done..|]. destruct (decide (o < accessible s)); [by apply Hval; lia|].
      left. rewrite Hout by lia. apply Hv. lia.
    + intros d Hdin. specialize (Hran d Hdin). simpl. lia.
  - apply wp_bind. eapply wp_mono; [by apply reset_with_anon_memory_wp| |done].
    intros [] [s' sp'] [Hconf (E & Hwf' & Hp)]. simpl in E, Hwf', Hp. subst s'.
    eapply wp_run; [done|]. apply wp_bind, update_wp. eapply wp_run; [done|].
    split; [done|]. simpl. destruct Hwf as [[_ ?] _ _ _].
    split_and!; [lia..| |by intros ? []%not_elem_of_nil|done].
    apply pending_clean. split; [done|]. split; [by destruct Hwf'|]. done.
Qed.

(** ** The life of a slot *)

Lemma confined_does s sp s1 sp1 P p :
  confined s (cells sp) (s1, sp1) -> does s1 sp1 P p -> does s sp P p.
Proof. intros Hc [Hc' HP]. split; [by eapply confined_trans|done]. Qed.

Lemma instantiated_in_use n img relies s m : instantiated n img relies s m -> in_use s m.
Proof. intros []. split_and!; [done..|]. by apply pristine_mapped. Qed.

Lemma mapped_store s m o v m' : mapped s m -> 0 <= o < accessible s ->
  (forall x, m' x = if x =? base s + o then mkCell v (backing (m x)) (readwrite (m x)) else m x) ->
  mapped s m'.
Proof.
  intros Hm Ho E o' Ho'. destruct (Hm o' Ho') as (Hb & Hr & Hv). rewrite E.
  destruct (Z.eqb_spec (base s + o') (base s + o)); [|done]. simpl. split_and!; try done. lia.
Qed.

(** What a guest can do with its memory: store a byte, which traps outside of the
    accessible part, and grow the memory. *)
Inductive guest_op := Store (o v : Z) | Grow (n : Z).

Definition guest_step (g : guest_op) : M (MemoryImageSlot * Space) PoolError unit :=
  match g with
  | Store o v =>
      accessible <- self accessible ;;
      base <- self base ;;
      if (0 <=? o) && (o <? accessible) then os (write (base + o) 1 (fun _ => v)) else ret tt
  | Grow n =>
      static_size <- self static_size ;;
      if (0 <=? n) && (n <=? static_size) then set_heap_limit n else ret tt
  end.

Fixpoint run_guest (gs : list guest_op) : M (MemoryImageSlot * Space) PoolError unit :=
  match gs with
  | [] => ret tt
  | g :: gs => guest_step g ;;; run_guest gs
  end.

Fixpoint decommit_all (ds : list (Z * Z)) : M Space PoolError unit :=
  match ds with
  | [] => ret tt
  | d :: ds => decommit_pages d.1 d.2 ;;; decommit_all ds
  end.

(** One tenant of a slot. *)
Definition tenancy (n : Z) (img : option Z) (relies : bool) (gs : list guest_op)
    (pagemap : bool) (keep_resident : Z) : M (MemoryImageSlot * Space) PoolError unit :=
  instantiate images n img relies ;;;
  run_guest gs ;;;
  r <- clear_and_remain_ready images pagemap keep_resident ;;
  os (decommit_all r.2).

Lemma guest_step_wp g s sp : in_use s (cells sp) ->
  wp (guest_step g) (fun _ => does s sp in_use) (fun _ => confined s (cells sp)) (s, sp).
Proof.
  intros Hin. pose proof Hin as (Hd & Hwf & Hm). pose proof (wf_limit _ Hwf).
  destruct g as [o v|n]; simpl.
  - do 2 apply wp_bind, self_wp. simpl. destruct (_ && _) eqn:Ho; [|by eapply wp_run].
    apply andb_prop in Ho as [Ho1%Z.leb_le Ho2%Z.ltb_lt]. apply os_wp, write_wp.
    + intros x Hx. apply (mapped_writable s); [done..|lia].
    + split; [split_and!; [done..|]; intros x Hx; simpl; apply set_range_out; lia|].
      split_and!; [done..|]. simpl. eapply (mapped_store _ _ o v _ Hm); [done|]. intros x.
      unfold set_range. destruct (Z.eqb_spec x (base s + o)) as [->|].
      * by rewrite (proj2 (in_range_spec _ _ _)) by lia.
      * destruct (in_range _ _ x) eqn:Er; [|done]. apply in_range_spec in Er. lia.
  - apply wp_bind, self_wp. simpl. destruct (_ && _) eqn:Hn; [|by eapply wp_run].
    apply andb_prop in Hn as [?%Z.leb_le ?%Z.leb_le].
    eapply wp_mono; [by apply set_heap_limit_wp| |by intros e p [? _]]. intros [] p [Hc (Hu & _)]. by split.
Qed.

Lemma run_guest_wp gs s sp : in_use s (cells sp) ->
  wp (run_guest gs) (fun _ => does s sp in_use) (fun _ => confined s (cells sp)) (s, sp).
Proof.
  induction gs as [|g gs IH] in s, sp |- *; intros Hin; simpl; [by eapply wp_run|].
  apply wp_bind. eapply wp_mono; [by apply guest_step_wp| |done].
  intros [] [s1 sp1] [Hc Hin1]. eapply wp_mono; [by apply IH| |].
  - intros [] p Hp. by eapply confined_does.
  - intros e p Hp. by eapply confined_trans.
Qed.

Lemma decommit_all_wp ds s sp :
  pending s (cells sp) ds -> within s ds -> (restores_original_mapping = false -> ds = []) ->
  wp (os (decommit_all ds)) (fun _ => does s sp clean) (fun _ => confined s (cells sp)) (s, sp).
Proof.
  intros Hp Hw Hr. apply os_wp. induction ds as [|d ds IH] in sp, Hp, Hw, Hr |- *; simpl.
  { eapply wp_run; [done|]. split; [done|]. by apply pending_clean. }
  assert (restores_original_mapping = true) as Hr' by (by destruct restores_original_mapping; [|specialize (Hr eq_refl)]).
  specialize (Hw d (list_elem_of_here _ _)) as Hd.
  assert (forall sp', (forall x, ~ (d.1 <= x < d.1 + d.2) -> cells sp' x = cells sp x) ->
    confined s (cells sp) (s, sp')) as Hconf.
  { intros sp' E. split_and!; [done..|]. intros x Hx. apply E. lia. }
  apply wp_bind. eapply wp_mono; [by apply decommit_pages_wp| |].
  2: { intros e sp' E. by apply Hconf. }
  intros [] sp1 Hd1. assert (confined s (cells sp) (s, sp1)) as Hc1.
  { apply Hconf. intros x Hx. rewrite Hd1. destruct (in_range _ _ x) eqn:Er; [|done].
    by apply in_range_spec in Er. }
  eapply wp_mono; [apply (IH sp1)| |].
  - by eapply pending_decommit.
  - intros d' Hd'. apply Hw. by apply list_elem_of_further.
  - congruence.
  - intros [] sp2 Hp2. by eapply confined_does.
  - intros e sp2 Hp2. by eapply confined_trans.
Qed.

(** Instantiating a clean slot of [static_size] bytes for an initial size
    [n] never panics; when no system call fails, the memory is then exactly the
    bytes of the image with zeros around them, backed by the same bytes, readable and
    writable exactly below an accessible size that is at least [n] and, where the
    code relies on faults, less than a page above it; nothing outside of the slot
    has changed, also when a call fails. *)
Theorem cow_instantiate_exact s sp n img relies :
  clean s (cells sp) -> 0 <= n <= static_size s -> image_below img n ->
  match instantiate images n img relies (s, sp) with
  | Ret _ (s', sp') =>
      confined s (cells sp) (s', sp') /\ dirty s' = true /\ image s' = img /\
      n <= accessible s' <= static_size s /\
      (relies = true -> accessible s' < n + host_page_size) /\
      forall o, 0 <= o < static_size s ->
        cells sp' (base s + o) = mkCell (expected img o) (expected img o) (o <? accessible s')
  | Fail _ p => confined s (cells sp) p
  | Panic => False
  end.
Proof.
  intros Hc Hn Himg. pose proof (instantiate_wp s sp n img relies Hc Hn Himg) as Hw.
  unfold wp in Hw. destruct (instantiate _ _ _ _ _) as [? [s' sp']|? p|]; [|done..].
  destruct Hw as [Hconf [Hd Hi Hwf Hs Ht Hp]]. simpl in *. split; [done|].
  destruct Hconf as (Eb & Es & Eo). simpl in *. split_and!; try done.
  - rewrite <- Es. apply Hwf.
  - intros ->. by apply Ht.
  - intros o Ho. rewrite <- Eb, Hp by (by rewrite Es). by rewrite Hi.
Qed.

(** C26.  A slot that was instantiated from a clean state, whatever the guest then
    stored and however it grew, that was reset, by writing the expected bytes, by
    the scan for dirty pages or by mapping fresh memory, and whose ranges were
    decommitted, is clean again: every byte is that of the image it remembers, so
    nothing of the guest is left.  No operation of the sequence panics or changes a
    byte outside of the slot. *)
Theorem cow_tenancy_clean s sp n img relies gs pagemap keep :
  clean s (cells sp) -> 0 <= n <= static_size s -> image_below img n -> 0 <= keep ->
  match tenancy n img relies gs pagemap keep (s, sp) with
  | Ret _ (s', sp') => confined s (cells sp) (s', sp') /\ clean s' (cells sp')
  | Fail _ p => confined s (cells sp) p
  | Panic => False
  end.
Proof.
  intros Hc Hn Himg Hk.
  assert (wp (tenancy n img relies gs pagemap keep) (fun _ => does s sp clean)
    (fun _ => confined s (cells sp)) (s, sp)) as Hw.
  { unfold tenancy. apply wp_bind. eapply wp_mono; [by apply instantiate_wp| |done].
    intros [] [s1 sp1] [Hc1 Hin%instantiated_in_use]. apply wp_bind.
    eapply wp_mono; [by apply run_guest_wp| |].
    2: { intros e p Hp. by eapply confined_trans. }
    intros [] [s2 sp2] [Hc2 Hin2]. pose proof (confined_trans _ _ _ _ _ Hc1 Hc2) as Hc12.
    apply wp_bind. eapply wp_mono; [by apply clear_and_remain_ready_wp| |].
    2: { intros e p Hp. by eapply confined_trans. }
    intros r [s3 sp3] [Hc3 (_ & Hp & Hw & Hr)]. pose proof (confined_trans _ _ _ _ _ Hc12 Hc3) as Hc13.
    eapply wp_mono; [by apply decommit_all_wp| |].
    - intros [] p Hp'. by eapply confined_does.
    - intros e p Hp'. by eapply confined_trans. }
  unfold wp in Hw. by destruct (tenancy _ _ _ _ _ _ _) as [? [s' sp']|? p|].
Qed.
End spec.

(** ** An instance *)

(** An operating system in which nothing fails, with Linux' decommit and no scan
    of dirty pages. *)
Program Definition os_ok : OS := {|
  os_failure := fun _ => None;
  restores_original_mapping := true;
  pagemap_scan := fun _ _ _ _ => None
|}.
Solve Obligations with done.
#[local] Existing Instance os_ok.

Definition image_3 (i : Z) : MemoryImage := mkImage 4096 4096 (fun k => k + i).
Definition slot_0 : MemoryImageSlot := create 65536 0 16384.
Definition space_0 : Space := mkSpace (fun _ => mkCell 0 0 false) 0.

Lemma slot_0_clean : clean (H := host_4k) image_3 slot_0 (cells space_0).
Proof.
  split; [done|]. split.
  - split; simpl; [| |lia|done];
      (split; [apply Z.mod_divide; [simpl; lia|reflexivity]|unfold usize_MAX; lia]).
  - intros o Ho. simpl in *. unfold space_0. simpl. f_equal. symmetry. apply Z.ltb_ge. lia.
Defined.

Lemma cow_instantiate_exact_witness :
  match instantiate (H := host_4k) image_3 12000 (Some 3) true (slot_0, space_0) with
  | Ret _ (s', sp') => accessible s' = 12288 /\ value (cells sp' (65536 + 4100)) = 7 /\
                       cells sp' (65536 + 12288) = mkCell 0 0 false
  | _ => False
  end /\
  match instantiate (H := host_4k) image_3 12000 (Some 3) true (slot_0, space_0) with
  | Ret _ (s', sp') =>
      confined slot_0 (cells space_0) (s', sp') /\ dirty s' = true /\ image s' = Some 3 /\
      12000 <= accessible s' <= static_size slot_0 /\
      (true = true -> accessible s' < 12000 + host_page_size (Host := host_4k)) /\
      forall o, 0 <= o < static_size slot_0 ->
        cells sp' (base slot_0 + o) =
        mkCell (expected image_3 (Some 3) o) (expected image_3 (Some 3) o) (o <? accessible s')
  | Fail _ p => confined slot_0 (cells space_0) p
  | Panic => False
  end.
Proof.
  split; [by vm_compute|].
  apply (cow_instantiate_exact (H := host_4k) image_3 slot_0 space_0 12000 (Some 3) true).
  - apply slot_0_clean.
  - by vm_compute.
  - by vm_compute.
Defined.

Lemma cow_tenancy_clean_witness :
  match tenancy (H := host_4k) image_3 8192 (Some 3) true [Store 4100 99; Grow 9000; Store 9999 5] false 4096
          (slot_0, space_0) with
  | Ret _ (s', sp') => accessible s' = 12288 /\ value (cells sp' (65536 + 4100)) = 7 /\
                       value (cells sp' (65536 + 9999)) = 0
  | _ => False
  end /\
  match tenancy (H := host_4k) image_3 8192 (Some 3) true [Store 4100 99; Grow 9000; Store 9999 5] false 4096
          (slot_0, space_0) with
  | Ret _ (s', sp') => confined slot_0 (cells space_0) (s', sp') /\ clean (H := host_4k) image_3 s' (cells sp')
  | Fail _ p => confined slot_0 (cells space_0) p
  | Panic => False
  end.
Proof.
  split; [by vm_compute|].
  apply (cow_tenancy_clean (H := host_4k) image_3 slot_0 space_0).
  - apply slot_0_clean.
  - by vm_compute.
  - by vm_compute.
  - lia.
Defined.
