(* ===== verification/Allocations.v ===== *)
(** * Allocations of linear memories

    The address space of mappings (runtime/vm/mmap.rs, sys/unix/mmap.rs) and the
    allocations behind [RuntimeLinearMemory] of runtime/vm/memory.rs: memories
    of mapped pages (memory/mmap.rs), of the system allocator
    (memory/malloc.rs) and in a slot of the pool (memory/static_.rs).

    They are instances of a class of operations; what LinearMemory.v needs
    of them are the laws of a second class, which each of them obeys: growing
    keeps the contents, adds zeros, moves the base only past the capacity,
    leaves what is not the memory's alone, never panics, and changes nothing
    that can be seen if a system call or an allocation fails. *)

From S2P Require Import Prelude MemoryTypes SlabLayout CowSlot.

(** ** The address space *)

(** The cells of CowSlot.v and the mappings in use, as addresses and lengths. *)
Record AddressSpace := mkAddressSpace { space : Space; mappings : list (Z * Z) }.

Definition cell_at (s : AddressSpace) (x : Z) : cell := cells (space s) x.
Definition disjoint_from (p len : Z) (m : Z * Z) : Prop := p + len <= m.1 \/ m.1 + m.2 <= p.

(** The operating system and the allocator: where the next mapping goes, if there
    is one; whether [try_new] fails.  Mappings are whole pages of the lower part
    of the address space, and new ones are disjoint from those in use. *)
Class Mapper `{Host} := {
  mmap_anonymous : AddressSpace -> Z -> option Z;
  out_of_memory : AddressSpace -> bool;
  mmap_anonymous_spec s len p : mmap_anonymous s len = Some p ->
    (host_page_size | p) /\ 65536 <= p /\ p + len <= 2 ^ 47 /\
    forall m, m ∈ mappings s -> disjoint_from p len m;
}.

Section address_space.
Context `{Host} `{OS} `{!Mapper}.
Abbreviation AM := (M AddressSpace PoolError).

Definition on_space {A} (m : M Space PoolError A) : AM A :=
  zoom space (fun sp s => mkAddressSpace sp (mappings s)) m.

(** A mapping without access, as [sys::Mmap::reserve] asks for. *)
Definition reserve (size : Z) : AM Z := fun s =>
  match mmap_anonymous s size with
  | Some p => Ret p (mkAddressSpace
      (mkSpace (set_range p size (fun _ _ => mkCell 0 0 false) (cells (space s))) (S (calls (space s))))
      ((p, size) :: mappings s))
  | None => Fail OsError s
  end.

Definition munmap (p size : Z) : AM unit := fun s =>
  Ret tt (mkAddressSpace
    (mkSpace (set_range p size (fun _ _ => mkCell 0 0 false) (cells (space s))) (S (calls (space s))))
    (filter (fun m => m <> (p, size)) (mappings s))).

(** [Arc::new] and [Box::new] that report failure. *)
Definition try_new : AM unit := fun s => if out_of_memory s then Fail OutOfMemory s else Ret tt s.

(** [dst.copy_from_slice(src)] on two disjoint slices. *)
Definition copy_from_slice (dst src len : Z) : AM unit := fun s =>
  if forallb (fun x => readwrite (cell_at s x)) (seqZ src len)
  then on_space (write dst len (fun k => value (cell_at s (src + k)))) s
  else Panic.
End address_space.

Module Mmap.
Record t := new { ptr : Z; len : Z }.

(** [empty_mmap]: an aligned address of a static. *)
Definition new_empty : t := new 4096 0.

Section mmap.
Context `{Host} `{OS} `{!Mapper}.
Abbreviation AM := (M AddressSpace PoolError).

Definition make_accessible (self : t) (start n : Z) : AM unit :=
  if HostAlignedByteCount.is_zero n then ret tt
  else
    end_ <- expect (HostAlignedByteCount.checked_add start n) ;;
    rust_assert (end_ <=? len self) ;;;
    on_space (expose_existing_mapping (ptr self + start) n).

Definition drop (self : t) : AM unit :=
  if len self =? 0 then ret tt else munmap (ptr self) (len self).

(** [accessible_reserved(ZERO, mapping_size)]. *)
Definition reserved (mapping_size : Z) : AM t :=
  if HostAlignedByteCount.is_zero mapping_size then ret new_empty
  else p <- reserve mapping_size ;; ret (new p mapping_size).
End mmap.
End Mmap.

(** ** What an allocation can do *)

(** [RuntimeLinearMemory]; [set_byte_size] panics by default, [base_mmap] is
    whether the base is of a mapping. *)
Class RuntimeLinearMemory (A : Type) := {
  byte_size : A -> Z;
  byte_capacity : A -> option Z;
  grow_to : Z -> M (A * AddressSpace) PoolError unit;
  base_ptr : A -> Z;
  base_mmap : bool;
  set_byte_size : Z -> option (A -> A);
  drop_alloc : A -> M AddressSpace PoolError unit;
}.

Section methods.
Context {A : Type}.
Definition self_ {B} (f : A -> B) : M (A * AddressSpace) PoolError B := fun p => Ret (f p.1) p.
Definition update_ (f : A -> A) : M (A * AddressSpace) PoolError unit := fun p => Ret tt (f p.1, p.2).
Definition on_os {B} (m : M AddressSpace PoolError B) : M (A * AddressSpace) PoolError B :=
  zoom snd (fun s p => (p.1, s)) m.
End methods.

(** ** Memories of mapped pages *)

Module MmapMemory.
Record t := mk {
  mmap : Mmap.t;
  len : Z;
  maximum : option Z;
  extra_to_reserve_on_growth : Z;
  pre_guard_size : Z;
  offset_guard_size : Z
}.

Definition set_mmap (m : Mmap.t) (self : t) : t :=
  mk m (len self) (maximum self) (extra_to_reserve_on_growth self) (pre_guard_size self) (offset_guard_size self).
Definition set_len (n : Z) (self : t) : t :=
  mk (mmap self) n (maximum self) (extra_to_reserve_on_growth self) (pre_guard_size self) (offset_guard_size self).

Section mmap_memory.
Context `{Host} `{OS} `{!Mapper}.
Abbreviation AM := (M AddressSpace PoolError).
Abbreviation MM := (M (t * AddressSpace) PoolError).

(** What is allocated at first and what is reserved when the memory grows. *)
Definition allocation (ty : Memory.t) (mt : MemoryTunables.t) (minimum : Z) : Z * Z :=
  let alloc_bytes := MemoryTunables.reservation mt in
  let extra := MemoryTunables.reservation_for_growth mt in
  if minimum <=? alloc_bytes then
    (alloc_bytes, match Memory.maximum_byte_size ty with
                  | Some max => if max <=? alloc_bytes then 0 else extra
                  | None => extra
                  end)
  else (saturating_add u64_MAX minimum extra, extra).

Definition new (ty : Memory.t) (mt : MemoryTunables.t) (minimum : Z) (maximum : option Z) : AM t :=
  offset_guard_bytes <- HostAlignedByteCount.new_rounded_up_u64 (MemoryTunables.guard_size mt) ;;
  let pre_guard_bytes :=
    if guard_before_linear_memory (MemoryTunables.tunables mt) then offset_guard_bytes else 0 in
  let (alloc_bytes, extra) := allocation ty mt minimum in
  alloc_bytes <- HostAlignedByteCount.new_rounded_up_u64 alloc_bytes ;;
  extra_to_reserve_on_growth <- HostAlignedByteCount.new_rounded_up_u64 extra ;;
  request_bytes <- HostAlignedByteCount.checked_add pre_guard_bytes alloc_bytes ;;
  request_bytes <- HostAlignedByteCount.checked_add request_bytes offset_guard_bytes ;;
  mmap <- Mmap.reserved request_bytes ;;
  on_err
    ((if 0 <? minimum then
        accessible <- HostAlignedByteCount.new_rounded_up minimum ;;
        Mmap.make_accessible mmap pre_guard_bytes accessible
      else ret tt) ;;;
     try_new)
    (Mmap.drop mmap) ;;;
  ret (mk mmap minimum maximum extra_to_reserve_on_growth pre_guard_bytes offset_guard_bytes).

Definition current_capacity (self : t) : option Z :=
  n ← checked_sub (Mmap.len (mmap self)) (offset_guard_size self);
  checked_sub n (pre_guard_size self).

Definition accessible (self : t) : M (t * AddressSpace) PoolError Z :=
  a <- expect (HostAlignedByteCount.new_rounded_up (len self)) ;;
  capacity <- unwrap (current_capacity self) ;;
  rust_assert (a <=? capacity) ;;;
  ret a.

(** The branch of [grow_to] that moves the memory to a new mapping. *)
Definition move_to (new_accessible : Z) : MM unit :=
  self <- self_ (fun m => m) ;;
  let pre := pre_guard_size self in
  request_bytes <- HostAlignedByteCount.checked_add pre new_accessible ;;
  request_bytes <- HostAlignedByteCount.checked_add request_bytes (extra_to_reserve_on_growth self) ;;
  request_bytes <- HostAlignedByteCount.checked_add request_bytes (offset_guard_size self) ;;
  new_mmap <- on_os (Mmap.reserved request_bytes) ;;
  on_os (on_err
    (Mmap.make_accessible new_mmap pre new_accessible ;;;
     end_ <- unwrap (checked_add usize_MAX pre (len self)) ;;
     rust_assert (end_ <=? Mmap.len (mmap self)) ;;;
     rust_assert (end_ <=? Mmap.len new_mmap) ;;;
     copy_from_slice (Mmap.ptr new_mmap + pre) (Mmap.ptr (mmap self) + pre) (len self) ;;;
     try_new)
    (Mmap.drop new_mmap)) ;;;
  update_ (set_mmap new_mmap) ;;;
  on_os (Mmap.drop (mmap self)).

(** The branch that stays in the mapping. *)
Definition extend_to (new_size new_accessible capacity : Z) : MM unit :=
  self <- self_ (fun m => m) ;;
  rust_assert (new_size <=? capacity) ;;;
  rust_assert (match maximum self with Some max => new_size <=? max | None => true end) ;;;
  accessible_ <- accessible self ;;
  match checked_sub new_accessible accessible_ with
  | Some difference =>
      start <- HostAlignedByteCount.checked_add (pre_guard_size self) accessible_ ;;
      on_os (Mmap.make_accessible (mmap self) start difference)
  | None => ret tt
  end.

Definition grow_to (new_size : Z) : MM unit :=
  new_accessible <- HostAlignedByteCount.new_rounded_up new_size ;;
  self <- self_ (fun m => m) ;;
  capacity <- unwrap (current_capacity self) ;;
  (if capacity <? new_accessible then move_to new_accessible else extend_to new_size new_accessible capacity) ;;;
  update_ (set_len new_size).

(** The base that [base] and [vmmemory] give to the rest of the runtime. *)
Definition base (self : t) : Z := Mmap.ptr (mmap self) + pre_guard_size self.
End mmap_memory.

#[global] Instance mmap_ops `{Host} `{OS} `{!Mapper} : RuntimeLinearMemory t := {
  byte_size := len;
  byte_capacity := current_capacity;
  grow_to := grow_to;
  base_ptr := base;
  base_mmap := true;
  set_byte_size := fun n => Some (set_len n);
  drop_alloc := fun self => Mmap.drop (mmap self);
}.
End MmapMemory.

(** ** Memories of the allocator *)

(** A [Vec<Align16>]: its buffer, and its capacity and length in elements. *)
Record Storage := mkStorage { s_ptr : Z; s_capacity : Z; s_len : Z }.

Definition ALIGN : Z := 16.

(** The allocator grows a buffer, in place or by moving it; what is behind the
    old bytes is anything. *)
Class Allocator `{Host} := {
  realloc : AddressSpace -> Z * Z -> Z -> option Z;
  fresh_bytes : AddressSpace -> Z -> Z;
  realloc_spec s old len p : realloc s old len = Some p -> 65536 <= p /\ p + len <= 2 ^ 47 /\
    forall m, m ∈ mappings s -> m <> old -> disjoint_from p len m;
}.

Module MallocMemory.
Record t := mk { storage : Storage; base : Z; byte_len : Z }.

Definition byte_size_to_element_len (byte_size : Z) : Z :=
  let rounded := Z.land (default usize_MAX (checked_add usize_MAX byte_size (ALIGN - 1))) (Z.lnot (ALIGN - 1)) in
  rounded / ALIGN.

Section malloc_memory.
Context `{Host} `{OS} `{!Allocator}.
Abbreviation VM := (M (Storage * AddressSpace) PoolError).

(** A buffer of [old] bytes becomes one of [len]. *)
Definition reallocate (old len : Z * Z) (s : AddressSpace) : AddressSpace :=
  mkAddressSpace
    (mkSpace (fun x => if in_range len.1 len.2 x then
                 mkCell (if x - len.1 <? old.2 then value (cell_at s (old.1 + (x - len.1))) else fresh_bytes s x) 0 true
               else if in_range old.1 old.2 x then mkCell 0 0 false else cell_at s x)
       (S (calls (space s))))
    (len :: filter (fun m => m <> old) (mappings s)).

(** [Vec::try_reserve]. *)
Definition try_reserve (additional : Z) : VM unit := fun p =>
  let (v, s) := p in
  if additional <=? s_capacity v - s_len v then Ret tt (v, s)
  else
    let cap := Z.max (Z.max (2 * s_capacity v) (s_len v + additional)) 4 in
    let old := (s_ptr v, ALIGN * s_capacity v) in
    if (s_len v + additional <=? usize_MAX) && (ALIGN * cap <=? 2 ^ 63 - 1) then
      match realloc s old (ALIGN * cap) with
      | Some ptr => Ret tt (mkStorage ptr cap (s_len v), reallocate old (ptr, ALIGN * cap) s)
      | None => Fail OutOfMemory (v, s)
      end
    else Fail OutOfMemory (v, s).

Definition grow_storage_to (new_len : Z) : VM unit :=
  v <- gets fst ;;
  rust_assert (s_len v <? new_len) ;;;
  rust_assert (new_len <=? s_capacity v) ;;;
  zoom snd (fun s p => (p.1, s))
    (on_space (write (s_ptr v + ALIGN * s_len v) (ALIGN * (new_len - s_len v)) (fun _ => 0))) ;;;
  modify (fun p => (mkStorage (s_ptr p.1) (s_capacity p.1) new_len, p.2)).

(** [Vec::new]; dropping one frees its buffer. *)
Definition empty_storage : Storage := mkStorage ALIGN 0 0.
Definition drop_storage (v : Storage) : M AddressSpace PoolError unit :=
  if s_capacity v =? 0 then ret tt else munmap (s_ptr v) (ALIGN * s_capacity v).

Definition new (mt : MemoryTunables.t) (minimum : Z) : M AddressSpace PoolError t :=
  if 0 <? MemoryTunables.guard_size mt then fail IncompatibleTunables
  else if 0 <? MemoryTunables.reservation mt then fail IncompatibleTunables
  else if memory_init_cow (MemoryTunables.tunables mt) then fail IncompatibleTunables
  else
    bytes <- ok_or (checked_add usize_MAX minimum (MemoryTunables.reservation_for_growth mt)) AddOverflow ;;
    v <- (fun s => match (try_reserve (byte_size_to_element_len bytes) ;;;
                          let initial_len := byte_size_to_element_len minimum in
                          (if 0 <? initial_len then grow_storage_to initial_len else ret tt) ;;;
                          gets fst) (empty_storage, s) with
                   | Ret v (_, s) => Ret v s
                   | Fail e (v, s) => (drop_storage v ;;; fail e) s
                   | Panic => Panic
                   end) ;;
    ret (mk v (s_ptr v) minimum).

Definition on_storage {A} (m : VM A) : M (t * AddressSpace) PoolError A :=
  zoom (fun p => (storage p.1, p.2)) (fun q p => (mk q.1 (base p.1) (byte_len p.1), q.2)) m.

Definition grow_to (new_size : Z) : M (t * AddressSpace) PoolError unit :=
  let new_element_len := byte_size_to_element_len new_size in
  len <- self_ (fun m => s_len (storage m)) ;;
  (if len <? new_element_len then
     on_storage (try_reserve (new_element_len - len)) ;;;
     on_storage (grow_storage_to new_element_len) ;;;
     update_ (fun m => mk (storage m) (s_ptr (storage m)) (byte_len m))
   else ret tt) ;;;
  update_ (fun m => mk (storage m) (base m) new_size).
End malloc_memory.

#[global] Instance malloc_ops `{Host} `{OS} `{!Allocator} : RuntimeLinearMemory t := {
  byte_size := byte_len;
  byte_capacity := fun self => Some (s_capacity (storage self) * ALIGN);
  grow_to := grow_to;
  base_ptr := base;
  base_mmap := false;
  set_byte_size := fun _ => None;
  drop_alloc := fun self => drop_storage (storage self);
}.
End MallocMemory.

(** ** Memories in a slot of the pool *)

Module StaticMemory.
Record t := mk { base : Z; capacity : Z; size : Z }.

Definition new (base base_capacity initial_size : Z) (maximum_size : option Z) : M AddressSpace PoolError t :=
  if base_capacity <? initial_size then fail MinimumTooLarge
  else
    let capacity := match maximum_size with
                    | Some max => if max <? base_capacity then max else base_capacity
                    | None => base_capacity
                    end in
    ret (mk base capacity initial_size).

#[global] Instance static_ops : RuntimeLinearMemory t := {
  byte_size := size;
  byte_capacity := fun self => Some (capacity self);
  grow_to := fun new_byte_size =>
    capacity <- self_ capacity ;;
    rust_assert (new_byte_size <=? capacity) ;;;
    update_ (fun self => mk (base self) (StaticMemory.capacity self) new_byte_size);
  base_ptr := base;
  base_mmap := true;
  set_byte_size := fun n => Some (fun self => mk (base self) (capacity self) n);
  drop_alloc := fun _ => ret tt;
}.
End StaticMemory.

(** ** What the allocations promise *)

(** The bytes of an address space that are in use, and what becomes of those that
    do not satisfy [own]: nothing. *)
Definition mapped_at (s : AddressSpace) (x : Z) : Prop := exists m, m ∈ mappings s /\ m.1 <= x < m.1 + m.2.

Definition frame (own : Z -> Prop) (s s' : AddressSpace) : Prop :=
  forall x, mapped_at s x -> ~ own x -> mapped_at s' x /\ cell_at s' x = cell_at s x.

(** Nothing outside of what is owned before and after has changed. *)
Definition isolated (own own' : Z -> Prop) (s s' : AddressSpace) : Prop :=
  frame own s s' /\ forall x, mapped_at s x -> ~ own x -> ~ own' x.

Record space_ok (s : AddressSpace) : Prop := {
  so_range m : m ∈ mappings s -> 65536 <= m.1 /\ 0 < m.2 /\ m.1 + m.2 <= 2 ^ 47;
  so_disjoint m m' : m ∈ mappings s -> m' ∈ mappings s -> m = m' \/ disjoint_from m.1 m.2 m';
  so_access x : readwrite (cell_at s x) = true -> mapped_at s x;
}.

(** The number of accessible bytes of whole pages. *)
Definition round_up `{Host} (b : Z) : Z := Z.land (b + (host_page_size - 1)) (Z.lnot (host_page_size - 1)).

Definition store (x v : Z) (s : AddressSpace) : AddressSpace :=
  mkAddressSpace (mkSpace (fun y => if y =? x then mkCell v (backing (cell_at s x)) (readwrite (cell_at s x))
                                    else cell_at s y) (calls (space s))) (mappings s).

(** The contents of [a] below [size], zeros up to [n], found at [a']. *)
Definition extends_contents (base base' size n : Z) (s s' : AddressSpace) : Prop :=
  forall o, 0 <= o < n -> value (cell_at s' (base' + o)) = if o <? size then value (cell_at s (base + o)) else 0.

(** The laws of an allocation: what is true of it at any time ([valid]), the
    addresses it owns, the inaccessible bytes behind its capacity, whether it grows by
    itself and up to where. *)
Class LinearMemoryLaws (A : Type) `{Host} `{OS} `{!RuntimeLinearMemory A} := {
  valid : A -> AddressSpace -> Prop;
  owns : A -> Z -> Prop;
  guard_of : A -> Z;
  limit : A -> option Z;
  growable : bool;
  valid_space a s : valid a s -> space_ok s;
  valid_size a s : valid a s -> exists cap, byte_capacity a = Some cap /\
    0 <= byte_size a <= cap /\ 0 <= guard_of a /\ 0 < base_ptr a /\ base_ptr a + cap + guard_of a <= 2 ^ 47;
  valid_readwrite a s o : valid a s -> 0 <= o < byte_size a -> readwrite (cell_at s (base_ptr a + o)) = true;
  valid_guard a s cap x : valid a s -> byte_capacity a = Some cap ->
    base_ptr a + cap <= x < base_ptr a + cap + guard_of a -> readwrite (cell_at s x) = false;
  owns_contents a s o : growable = true -> valid a s -> 0 <= o < byte_size a -> owns a (base_ptr a + o);
  valid_store a s o v : valid a s -> 0 <= o < byte_size a -> valid a (store (base_ptr a + o) v s);
  valid_ext a s s' : valid a s -> mappings s' = mappings s -> (forall x, cell_at s' x = cell_at s x) -> valid a s';
  grow_to_spec a s n cap : atomic_failures -> growable = true -> valid a s -> byte_capacity a = Some cap ->
    byte_size a <= n <= usize_MAX -> (forall mx, limit a = Some mx -> n <= mx) ->
    wp (grow_to n)
      (fun _ p => valid p.1 p.2 /\ byte_size p.1 = n /\ limit p.1 = limit a /\ guard_of p.1 = guard_of a /\
         (exists cap', byte_capacity p.1 = Some cap' /\ cap <= cap' /\
            (n <= cap -> base_ptr p.1 = base_ptr a /\ cap' = cap)) /\
         extends_contents (base_ptr a) (base_ptr p.1) (byte_size a) n s p.2 /\ isolated (owns a) (owns p.1) s p.2)
      (fun _ p => p.1 = a /\ valid a p.2 /\
         extends_contents (base_ptr a) (base_ptr a) (byte_size a) (byte_size a) s p.2 /\ frame (owns a) s p.2) (a, s);
  image_view a s cap o : base_mmap = true -> valid a s -> byte_capacity a = Some cap -> 0 <= o < cap ->
    readwrite (cell_at s (base_ptr a + o)) = (o <? round_up (byte_size a)) /\
    (byte_size a <= o -> value (cell_at s (base_ptr a + o)) = 0);
  image_resized a s s' n cap len : base_mmap = true -> valid a s -> byte_capacity a = Some cap ->
    byte_size a <= n <= cap -> cap <= len -> (growable = true -> len = cap) ->
    mappings s' = mappings s -> (forall x, ~ (base_ptr a <= x < base_ptr a + len) -> cell_at s' x = cell_at s x) ->
    (forall x, readwrite (cell_at s' x) = true -> mapped_at s' x) ->
    (forall o, 0 <= o < cap -> readwrite (cell_at s' (base_ptr a + o)) = (o <? round_up n)) ->
    (forall o, n <= o < cap -> value (cell_at s' (base_ptr a + o)) = 0) ->
    exists f, set_byte_size n = Some f /\ valid (f a) s' /\ byte_size (f a) = n /\ limit (f a) = limit a /\
      guard_of (f a) = guard_of a /\ base_ptr (f a) = base_ptr a /\ byte_capacity (f a) = Some cap /\
      (forall x, owns (f a) x <-> owns a x);
}.

(** ** Steps in the address space *)

Section steps.
Context `{Host} `{OS}.

Lemma round_up_bounds b : 0 <= b -> (host_page_size | round_up b) /\ b <= round_up b < b + host_page_size.
Proof. intros Hb. by apply round_up_spec. Qed.

Lemma round_up_unique b r : 0 <= b -> (host_page_size | r) -> b <= r < b + host_page_size -> r = round_up b.
Proof.
  intros Hb Hd Hr. destruct (round_up_bounds b Hb) as [Hd' Hr'].
  destruct (Z.le_gt_cases r (round_up b)); [symmetry; apply aligned_next|apply aligned_next]; done || lia.
Qed.

Lemma round_up_mono a b : 0 <= a <= b -> round_up a <= round_up b.
Proof.
  intros Hab. destruct (round_up_bounds a ltac:(lia)) as [[x Hx] Ha], (round_up_bounds b ltac:(lia)) as [[y Hy] Hb].
  pose proof page_pos. destruct (Z.le_gt_cases x y) as [?|Hgt]; [rewrite Hx, Hy; by apply Z.mul_le_mono_nonneg_r; lia|].
  pose proof (Z.mul_le_mono_nonneg_r (y + 1) x host_page_size). lia.
Qed.

Lemma round_up_aligned b : 0 <= b -> (host_page_size | b) -> round_up b = b.
Proof. intros. symmetry. pose proof page_pos. by apply round_up_unique; [..|lia]. Qed.

(** The bound below which a multiple of the page stays when rounded to pages. *)
Lemma round_up_le b c : 0 <= b -> (host_page_size | c) -> b <= c -> round_up b <= c.
Proof.
  intros Hb Hc Hle. rewrite <- (round_up_aligned c) by (done || lia). by apply round_up_mono.
Qed.

Lemma new_rounded_up_eq {S} b (s : S) : 0 <= b ->
  (HostAlignedByteCount.new_rounded_up b s = Ret (round_up b) s /\ aligned (round_up b)) \/
  HostAlignedByteCount.new_rounded_up b s = Fail RoundUp s.
Proof.
  intros Hb. destruct (new_rounded_up_run b s Hb) as [(r & -> & Ha & Hr)| ->]; [left|by right].
  by rewrite <- (round_up_unique b r Hb (proj1 Ha) Hr).
Qed.

Lemma rounded_up_wp {S} b P (Q : PoolError -> S -> Prop) p : 0 <= b ->
  (aligned (round_up b) -> P (round_up b) p) -> (forall e, Q e p) -> wp (HostAlignedByteCount.new_rounded_up b) P Q p.
Proof. intros Hb HP HQ. unfold wp. destruct (new_rounded_up_eq b p Hb) as [[-> Ha]| ->]; auto. Qed.

Lemma rounded_up_u64_wp {S} b P (Q : PoolError -> S -> Prop) p : 0 <= b ->
  (aligned (round_up b) -> P (round_up b) p) -> (forall e, Q e p) -> wp (HostAlignedByteCount.new_rounded_up_u64 b) P Q p.
Proof.
  intros Hb HP HQ. unfold HostAlignedByteCount.new_rounded_up_u64. apply wp_bind. unfold wp at 1, ok_or.
  destruct (try_from usize_MAX b) as [c|] eqn:E; [|apply HQ]. apply try_from_Some in E as [-> _]. by apply rounded_up_wp.
Qed.

Lemma checked_add_wp {S} a b P (Q : PoolError -> S -> Prop) p : P (a + b) p -> (forall e, Q e p) ->
  wp (HostAlignedByteCount.checked_add a b) P Q p.
Proof.
  intros HP HQ. unfold wp, HostAlignedByteCount.checked_add, checked_add. destruct (a + b <=? usize_MAX); [done|apply HQ].
Qed.

(** Only a range of mapped bytes changes. *)
Definition touched (p len : Z) (s s' : AddressSpace) : Prop :=
  mappings s' = mappings s /\ forall x, ~ (p <= x < p + len) -> cell_at s' x = cell_at s x.

Lemma space_ok_touched p len s s' : space_ok s -> touched p len s s' ->
  (forall x, p <= x < p + len -> mapped_at s x) -> space_ok s'.
Proof.
  intros [Hr Hd Ha] [Hm Hc] Hin. assert (forall x, mapped_at s' x <-> mapped_at s x) as Hmap.
  { intros x. unfold mapped_at. by rewrite Hm. }
  split; [intros m; rewrite Hm; apply Hr|intros m m'; rewrite Hm; apply Hd|].
  intros x Hx. apply Hmap. destruct (decide (p <= x < p + len)); [by apply Hin|].
  apply Ha. by rewrite <- Hc.
Qed.

Lemma frame_touched (own : Z -> Prop) p len s s' : touched p len s s' -> (forall x, p <= x < p + len -> own x) -> frame own s s'.
Proof.
  intros [Hm Hc] Hown x Hx Hnot. split; [unfold mapped_at; by rewrite Hm|]. apply Hc. intros Hin. by apply Hnot, Hown.
Qed.

Lemma mapped_frame_trans (own : Z -> Prop) s1 s2 s3 : frame own s1 s2 -> frame own s2 s3 -> frame own s1 s3.
Proof. intros H12 H23 x Hx Hn. destruct (H12 x Hx Hn) as [Hx2 E]. destruct (H23 x Hx2 Hn) as [? E']. split; [done|congruence]. Qed.

Lemma mapped_frame_refl own s s' : mappings s' = mappings s -> (forall x, cell_at s' x = cell_at s x) -> frame own s s'.
Proof. intros Hm Hc x Hx _. split; [unfold mapped_at; by rewrite Hm|apply Hc]. Qed.

Lemma valid_same_space s s' : space_ok s -> mappings s' = mappings s -> (forall x, cell_at s' x = cell_at s x) -> space_ok s'.
Proof. intros Hs Hm Hc. apply (space_ok_touched 0 0 s s' Hs); [by split|lia]. Qed.

Lemma store_touched x v s : touched x 1 s (store x v s).
Proof. split; [done|]. intros y Hy. unfold store, cell_at at 1. cbn. by rewrite (proj2 (Z.eqb_neq _ _)) by lia. Qed.

Lemma store_at x v s y : cell_at (store x v s) y =
  if y =? x then mkCell v (backing (cell_at s x)) (readwrite (cell_at s x)) else cell_at s y.
Proof. done. Qed.

(** A copy between two accessible ranges. *)
Lemma copy_wp dst src len s P Q : 0 <= len ->
  (forall o, 0 <= o < len -> readwrite (cell_at s (src + o)) = true /\ readwrite (cell_at s (dst + o)) = true) ->
  (forall s', mappings s' = mappings s -> (forall x, cell_at s' x = if in_range dst len x
     then mkCell (value (cell_at s (src + (x - dst)))) (backing (cell_at s x)) (readwrite (cell_at s x))
     else cell_at s x) -> P tt s') ->
  wp (copy_from_slice dst src len) P Q s.
Proof.
  intros Hlen Hrw HP. unfold wp, copy_from_slice.
  assert (forallb (fun x => readwrite (cell_at s x)) (seqZ src len) = true) as ->.
  { apply forallb_forall. intros x Hx%list_elem_of_In%elem_of_seqZ.
    replace x with (src + (x - src)) by lia. apply Hrw. lia. }
  unfold on_space, zoom, write.
  assert (forallb (fun x => readwrite (cells (space s) x)) (seqZ dst len) = true) as ->.
  { apply forallb_forall. intros x Hx%list_elem_of_In%elem_of_seqZ.
    replace x with (dst + (x - dst)) by lia. apply Hrw. lia. }
  by apply HP.
Qed.
End steps.

Section mapper_steps.
Context `{Host} `{OS} `{!Mapper}.

(** A new mapping, of bytes that were not in use. *)
Record reserved_at (n : Z) (m : Mmap.t) (s s' : AddressSpace) : Prop := {
  ra_len : Mmap.len m = n;
  ra_ptr : 0 < Mmap.ptr m /\ Mmap.ptr m + n <= 2 ^ 47;
  ra_mapped : 0 < n -> (Mmap.ptr m, n) ∈ mappings s';
  ra_fresh x : Mmap.ptr m <= x < Mmap.ptr m + n -> ~ mapped_at s x /\ cell_at s' x = mkCell 0 0 false;
  ra_others x : ~ (Mmap.ptr m <= x < Mmap.ptr m + n) -> cell_at s' x = cell_at s x;
  ra_mappings : mappings s' = if decide (0 < n) then (Mmap.ptr m, n) :: mappings s else mappings s;
  ra_space : space_ok s';
}.

Lemma reserved_wp n s : space_ok s -> 0 <= n ->
  wp (Mmap.reserved n) (fun m s' => reserved_at n m s s') (fun _ s' => s' = s) s.
Proof.
  intros Hs Hn. unfold Mmap.reserved, HostAlignedByteCount.is_zero. destruct (Z.eqb_spec n 0) as [->|Hne].
  { apply wp_ret. split; cbn; try done; lia. }
  unfold wp, bind, reserve. destruct (mmap_anonymous s n) as [p|] eqn:E; [|done].
  destruct (mmap_anonymous_spec _ _ _ E) as (_ & Hp & Hle & Hdis). cbn [ret].
  assert (forall x, p <= x < p + n -> ~ mapped_at s x) as Hfresh.
  { intros x Hx (m & Hm & Hin). destruct (Hdis m Hm); lia. }
  split; cbn [Mmap.len Mmap.ptr mappings space]; try done; try lia.
  - intros _. apply list_elem_of_here.
  - intros x Hx. split; [by apply Hfresh|]. unfold cell_at. cbn. by rewrite set_range_in.
  - intros x Hx. unfold cell_at. cbn. by rewrite set_range_out.
  - by rewrite decide_True by lia.
  - destruct Hs as [Hr Hd Ha]. split; cbn [mappings].
    + intros m [->|Hm]%elem_of_cons; [cbn; lia|by apply Hr].
    + intros m m' [->|Hm]%elem_of_cons [->|Hm']%elem_of_cons; [by left|right..|by apply Hd].
      * by apply Hdis.
      * destruct (Hdis m Hm); [by right|by left].
    + intros x Hx. unfold cell_at in Hx. cbn in Hx. destruct (decide (p <= x < p + n)).
      * by rewrite set_range_in in Hx by done.
      * rewrite set_range_out in Hx by done. destruct (Ha x Hx) as (m & Hm & ?). exists m. split; [|done].
        by apply elem_of_cons; right.
Qed.

(** Unmapping one of the mappings. *)
Record dropped (m : Mmap.t) (s s' : AddressSpace) : Prop := {
  dr_others x : ~ (Mmap.ptr m <= x < Mmap.ptr m + Mmap.len m) -> cell_at s' x = cell_at s x /\ (mapped_at s x -> mapped_at s' x);
  dr_gone x : Mmap.ptr m <= x < Mmap.ptr m + Mmap.len m -> readwrite (cell_at s' x) = false;
  dr_space : space_ok s';
  dr_mappings r : r ∈ mappings s' <-> r ∈ mappings s /\ (0 < Mmap.len m -> r <> (Mmap.ptr m, Mmap.len m));
}.

Lemma drop_wp m s Q : space_ok s -> 0 <= Mmap.len m -> (0 < Mmap.len m -> (Mmap.ptr m, Mmap.len m) ∈ mappings s) ->
  wp (Mmap.drop m) (fun _ s' => dropped m s s') Q s.
Proof.
  intros Hs Hlen Hm. unfold Mmap.drop. destruct (Z.eqb_spec (Mmap.len m) 0) as [E|Hne].
  { apply wp_ret. split; [by intros|intros; lia|done|]. intros r. split; [intros ?; split; [done|lia]|by intros [? _]]. }
  unfold wp, munmap. set (r := (Mmap.ptr m, Mmap.len m)). specialize (Hm ltac:(lia)). fold r in Hm.
  assert (forall x, ~ (Mmap.ptr m <= x < Mmap.ptr m + Mmap.len m) -> mapped_at s x ->
    exists m', m' ∈ filter (fun m => m <> r) (mappings s) /\ m'.1 <= x < m'.1 + m'.2) as Hkeep.
  { intros x Hx (m' & Hm' & Hin). exists m'. split; [|done]. apply list_elem_of_filter. split; [|done]. by intros ->. }
  split; unfold cell_at, mapped_at; cbn [space mappings cells].
  - intros x Hx. split; [by rewrite set_range_out|]. by apply Hkeep.
  - intros x Hx. by rewrite set_range_in.
  - destruct Hs as [Hr Hd Ha]. split; cbn [mappings].
    + intros m' [_ ?]%list_elem_of_filter. by apply Hr.
    + intros m' m'' [_ ?]%list_elem_of_filter [_ ?]%list_elem_of_filter. by apply Hd.
    + intros x Hx. unfold cell_at in Hx. cbn in Hx. destruct (decide (Mmap.ptr m <= x < Mmap.ptr m + Mmap.len m)).
      * by rewrite set_range_in in Hx by done.
      * rewrite set_range_out in Hx by done. by apply Hkeep, Ha.
  - intros r'. rewrite list_elem_of_filter. fold r. split; [by intros [? ?]|intros [? Hne']; split; [apply Hne'; lia|done]].
Qed.

Lemma make_accessible_wp m start n s P Q : atomic_failures -> 0 <= start -> 0 <= n -> start + n <= Mmap.len m <= usize_MAX ->
  (forall s', mappings s' = mappings s -> (forall x, cell_at s' x = if in_range (Mmap.ptr m + start) n x
     then mkCell (value (cell_at s x)) (backing (cell_at s x)) true else cell_at s x) -> P tt s') ->
  (forall s', mappings s' = mappings s -> (forall x, cell_at s' x = cell_at s x) -> Q OsError s') ->
  wp (Mmap.make_accessible m start n) P Q s.
Proof.
  intros Hat Hs Hn Hle HP HQ. unfold Mmap.make_accessible, HostAlignedByteCount.is_zero. destruct (Z.eqb_spec n 0) as [->|].
  { apply wp_ret, HP; [done|]. intros x. destruct (in_range _ 0 x) eqn:E; [|done]. apply in_range_spec in E. lia. }
  apply wp_bind, (wp_run _ _ _ _ (start + n) s).
  { unfold expect, or_else, HostAlignedByteCount.checked_add, checked_add. by rewrite (proj2 (Z.leb_le _ _)) by lia. }
  apply wp_bind, wp_assert; [apply Z.leb_le; lia|].
  unfold wp, on_space, zoom, expose_existing_mapping, syscall. destruct (os_failure _) as [junk|] eqn:E.
  - apply HQ; [done|]. intros x. unfold cell_at. cbn. unfold set_range. destruct (in_range _ _ x); [|done]. by eapply Hat.
  - apply HP; [done|]. intros x. unfold cell_at. cbn. unfold set_range. by destruct (in_range _ _ x).
Qed.

Lemma try_new_wp s P (Q : PoolError -> AddressSpace -> Prop) : P tt s -> Q OutOfMemory s -> wp try_new P Q s.
Proof. intros HP HQ. unfold wp, try_new. by destruct (out_of_memory s). Qed.
End mapper_steps.

(** ** Memories of mapped pages keep the promise *)

Module MmapLaws.
Import MmapMemory.
Section laws.
Context `{Host} `{OS} `{!Mapper}.

Definition capacity (self : t) : Z := Mmap.len (mmap self) - offset_guard_size self - pre_guard_size self.
Abbreviation start self := (Mmap.ptr (mmap self)).
Abbreviation total self := (Mmap.len (mmap self)).

Record valid (self : t) (s : AddressSpace) : Prop := {
  v_space : space_ok s;
  v_pre : aligned (pre_guard_size self);
  v_guard : aligned (offset_guard_size self);
  v_extra : aligned (extra_to_reserve_on_growth self);
  v_cap : (host_page_size | capacity self) /\ 0 <= capacity self;
  v_ptr : 0 < start self /\ start self + total self <= 2 ^ 47;
  v_mapped : 0 < total self -> (start self, total self) ∈ mappings s;
  v_len : 0 <= len self /\ round_up (len self) <= capacity self;
  v_rw x : start self <= x < start self + total self ->
    readwrite (cell_at s x) = in_range (base self) (round_up (len self)) x;
  v_zero o : len self <= o < capacity self -> value (cell_at s (base self + o)) = 0;
}.

Lemma capacity_run self s : valid self s -> current_capacity self = Some (capacity self).
Proof.
  intros [_ [_ ?] [_ ?] _ [_ ?] _ _ _ _ _]. unfold current_capacity, capacity in *.
  rewrite (proj2 (checked_sub_Some _ _ (total self - offset_guard_size self))) by lia. cbn.
  by apply checked_sub_Some; lia.
Qed.

Lemma base_range self s o : valid self s -> 0 <= o < capacity self -> start self <= base self + o < start self + total self.
Proof. intros [_ [_ ?] [_ ?] _ _ _ _ _ _ _]. unfold base, capacity. lia. Qed.

Lemma total_parts self : total self = pre_guard_size self + capacity self + offset_guard_size self.
Proof. unfold capacity. lia. Qed.

Lemma rw_at self s o : valid self s -> 0 <= o < capacity self ->
  readwrite (cell_at s (base self + o)) = (o <? round_up (len self)).
Proof.
  intros Hv Ho. rewrite (v_rw _ _ Hv) by by eapply base_range.
  destruct (in_range _ _ _) eqn:E.
  - apply in_range_spec in E. symmetry. apply Z.ltb_lt. lia.
  - symmetry. apply Z.ltb_ge. destruct (Z.le_gt_cases (round_up (len self)) o); [done|].
    assert (in_range (base self) (round_up (len self)) (base self + o) = true) by (apply in_range_spec; lia). congruence.
Qed.

(** A change inside the mapping that gives the memory the length [n]. *)
Lemma valid_resized self s s' n : valid self s -> 0 <= n -> round_up n <= capacity self ->
  mappings s' = mappings s -> space_ok s' ->
  (forall x, start self <= x < start self + total self ->
     readwrite (cell_at s' x) = in_range (base self) (round_up n) x) ->
  (forall o, n <= o < capacity self -> value (cell_at s' (base self + o)) = 0) -> valid (set_len n self) s'.
Proof.
  intros [? ? ? ? ? ? ? ? ? ?] Hn Hle Hm Hs Hrw Hz. split; try done. cbn. by rewrite Hm.
Qed.

Lemma accessible_wp self s P Q : valid self s -> P (round_up (len self)) (self, s) -> wp (accessible self) P Q (self, s).
Proof.
  intros Hv HP. pose proof (v_len _ _ Hv) as [Hl Hr]. pose proof (v_ptr _ _ Hv). pose proof (total_parts self).
  destruct (v_pre _ _ Hv), (v_guard _ _ Hv). unfold accessible. apply wp_bind.
  unfold wp at 1, expect, or_else, HostAlignedByteCount.new_rounded_up. fold (round_up (len self)).
  destruct (new_rounded_up_eq (len self) (self, s) Hl) as [[E _]|E]; unfold HostAlignedByteCount.new_rounded_up in E; rewrite E.
  - apply wp_bind, (wp_unwrap _ (capacity self)); [by eapply capacity_run|].
    apply wp_bind, wp_assert; [by apply Z.leb_le|]. by apply wp_ret.
  - unfold checked_add in E. destruct (Z.leb_spec (len self + (host_page_size - 1)) usize_MAX); [done|].
    exfalso. destruct (v_cap _ _ Hv). pose proof (round_up_bounds (len self) Hl). unfold usize_MAX in *.
    pose proof host_page_log2_range. rewrite host_page_size_pow2 in *.
    pose proof (Z.pow_lt_mono_r 2 host_page_log2 32). lia.
Qed.

Lemma on_os_wp {B} (m : M AddressSpace PoolError B) self s P Q :
  wp m (fun b s' => P b (self, s')) (fun e s' => Q e (self, s')) s -> wp (on_os m) P Q ((self, s) : t * AddressSpace).
Proof. unfold wp, on_os, zoom. cbn. by destruct (m s). Qed.

Section grow.
Context (Hat : atomic_failures) (self : t) (s : AddressSpace) (n : Z) (Hv : valid self s).
Context (Hn : len self <= n <= usize_MAX).

(** Nothing in use has changed. *)
Definition unchanged (p : t * AddressSpace) : Prop :=
  p.1 = self /\ space_ok p.2 /\ (forall r, r ∈ mappings s -> r ∈ mappings p.2) /\
  forall x, mapped_at s x -> cell_at p.2 x = cell_at s x.

Lemma own_mapped x : start self <= x < start self + total self -> mapped_at s x.
Proof. intros Hx. exists (start self, total self). split; [apply (v_mapped _ _ Hv); lia|done]. Qed.

Lemma unchanged_valid p : unchanged p -> valid self p.2.
Proof.
  intros (_ & Hs & Hm & Hc). pose proof Hv as []. split; try done.
  - intros Hpos. by apply Hm, v_mapped0.
  - intros x Hx. rewrite Hc by by apply own_mapped. by apply v_rw0.
  - intros o Ho. rewrite Hc; [by apply v_zero0|]. apply own_mapped, (base_range self s); [done|].
    pose proof (v_len _ _ Hv). lia.
Qed.

Lemma unchanged_same s' : mappings s' = mappings s -> (forall x, cell_at s' x = cell_at s x) -> unchanged (self, s').
Proof. intros Hm Hc. split_and!; [done|apply (valid_same_space s); [apply Hv|done..]|intros r; cbn; by rewrite Hm|by intros]. Qed.

Lemma extend_to_wp : (forall mx, maximum self = Some mx -> n <= mx) -> round_up n <= capacity self ->
  wp (extend_to n (round_up n) (capacity self))
    (fun _ p => p.1 = self /\ valid (set_len n self) p.2 /\ touched (base self) (capacity self) s p.2 /\
       forall x, value (cell_at p.2 x) = value (cell_at s x))
    (fun _ => unchanged) (self, s).
Proof.
  intros Hmax Hcap. pose proof (v_len _ _ Hv) as [Hl Hr]. pose proof (total_parts self).
  pose proof (v_ptr _ _ Hv). pose proof (v_pre _ _ Hv) as [_ ?]. pose proof (v_guard _ _ Hv) as [_ ?].
  destruct (round_up_bounds n ltac:(lia)) as [_ ?]. pose proof (round_up_mono (len self) n ltac:(lia)).
  destruct (round_up_bounds (len self) Hl) as [_ ?].
  unfold extend_to. apply wp_bind, (wp_run _ _ _ _ self (self, s)); [done|].
  apply wp_bind, wp_assert; [apply Z.leb_le; lia|].
  apply wp_bind, wp_assert; [destruct (maximum self); [by apply Z.leb_le, Hmax|done]|].
  apply wp_bind, accessible_wp; [done|]. rewrite (proj2 (checked_sub_Some _ _ (round_up n - round_up (len self)))) by lia.
  apply wp_bind, (wp_run _ _ _ _ (pre_guard_size self + round_up (len self)) (self, s)).
  { unfold HostAlignedByteCount.checked_add, checked_add. by rewrite (proj2 (Z.leb_le _ _)) by (unfold usize_MAX; lia). }
  apply on_os_wp, make_accessible_wp; [done|lia|lia|unfold usize_MAX; lia|..].
  2: { intros s' Hm Hc. by apply unchanged_same. }
  intros s' Hm Hc. set (d := round_up n - round_up (len self)) in *.
  assert (start self + (pre_guard_size self + round_up (len self)) = base self + round_up (len self)) as E by (unfold base; lia).
  rewrite E in Hc. assert (touched (base self) (capacity self) s s') as Ht.
  { split; [done|]. intros x Hx. rewrite Hc. destruct (in_range _ d x) eqn:Ed; [|done]. apply in_range_spec in Ed. lia. }
  assert (forall x, value (cell_at s' x) = value (cell_at s x)) as Hval by (intros x; rewrite Hc; by destruct (in_range _ _ _)).
  split_and!; try done. apply (valid_resized self s s'); try done; [lia|..].
  - apply (space_ok_touched (base self) (capacity self) s s'); [apply Hv|done|]. intros x Hx.
    exists (start self, total self). pose proof (base_range self s (x - base self) Hv). split; [apply (v_mapped _ _ Hv)|cbn]; lia.
  - intros x Hx. rewrite Hc. destruct (in_range (base self + _) d x) eqn:Ed; cbn [readwrite].
    + apply in_range_spec in Ed. symmetry. apply in_range_spec. lia.
    + rewrite (v_rw _ _ Hv) by done. assert (~ base self + round_up (len self) <= x < base self + round_up (len self) + d)
        by (intros ?%in_range_spec; congruence).
      apply eq_true_iff_eq. rewrite !in_range_spec. lia.
  - intros o Ho. rewrite Hval. apply (v_zero _ _ Hv). lia.
Qed.

(** The new mapping, before the old one goes. *)
Abbreviation total' := (pre_guard_size self + round_up n + extra_to_reserve_on_growth self + offset_guard_size self).
Abbreviation range' m x := (Mmap.ptr m <= x < Mmap.ptr m + total').

Record moved (m : Mmap.t) (s' : AddressSpace) : Prop := {
  mo_rw x : range' m x -> readwrite (cell_at s' x) = in_range (Mmap.ptr m + pre_guard_size self) (round_up n) x;
  mo_value o : 0 <= o < round_up n + extra_to_reserve_on_growth self ->
    value (cell_at s' (Mmap.ptr m + pre_guard_size self + o)) = if o <? len self then value (cell_at s (base self + o)) else 0;
}.

Definition in_new (m : Mmap.t) (s1 s' : AddressSpace) : Prop := touched (Mmap.ptr m) total' s1 s'.

Definition prepare (m : Mmap.t) : M AddressSpace PoolError unit :=
  Mmap.make_accessible m (pre_guard_size self) (round_up n) ;;;
  end_ <- unwrap (checked_add usize_MAX (pre_guard_size self) (len self)) ;;
  rust_assert (end_ <=? Mmap.len (mmap self)) ;;;
  rust_assert (end_ <=? Mmap.len m) ;;;
  copy_from_slice (Mmap.ptr m + pre_guard_size self) (Mmap.ptr (mmap self) + pre_guard_size self) (len self) ;;;
  try_new.

Lemma prepare_wp m s1 : reserved_at total' m s s1 ->
  wp (prepare m) (fun _ s' => moved m s' /\ in_new m s1 s') (fun _ s' => in_new m s1 s') s1.
Proof.
  intros [Hlen [Hp0 Hp1] Hmap Hfresh Hoth _ Hs1]. pose proof (v_len _ _ Hv) as [Hl Hr]. pose proof (total_parts self).
  pose proof (v_ptr _ _ Hv). pose proof (v_pre _ _ Hv) as [_ ?]. pose proof (v_guard _ _ Hv) as [_ ?].
  pose proof (v_extra _ _ Hv) as [_ ?]. destruct (round_up_bounds n ltac:(lia)) as [_ ?].
  destruct (round_up_bounds (len self) Hl) as [_ ?].
  assert (forall o, 0 <= o < len self -> ~ range' m (base self + o)) as Hold.
  { intros o Ho Hx. apply (Hfresh _ Hx), own_mapped, (base_range self s); [done|lia]. }
  unfold prepare. apply wp_bind, make_accessible_wp; [done|lia|lia|rewrite Hlen; unfold usize_MAX; lia|..].
  2: { intros s2 Hm Hc. split; [done|]. intros x _. apply Hc. }
  intros s2 Hm2 Hc2. set (dst := Mmap.ptr m + pre_guard_size self) in *.
  apply wp_bind, (wp_unwrap _ (pre_guard_size self + len self)); [apply checked_add_Some; unfold usize_MAX; lia|].
  apply wp_bind, wp_assert; [apply Z.leb_le; lia|]. apply wp_bind, wp_assert; [apply Z.leb_le; lia|].
  fold (base self). apply wp_bind, copy_wp; [lia|..].
  { intros o Ho. rewrite !Hc2. split.
    - destruct (in_range dst _ _); [done|]. rewrite Hoth by by apply Hold. rewrite (rw_at self s o Hv) by lia. apply Z.ltb_lt. lia.
    - by rewrite (proj2 (in_range_spec _ _ _)) by lia. }
  intros s3 Hm3 Hc3. assert (in_new m s1 s3) as Hin.
  { split; [congruence|]. intros x Hx. rewrite Hc3. destruct (in_range dst (len self) x) eqn:E.
    { apply in_range_spec in E. lia. }
    rewrite Hc2. destruct (in_range dst (round_up n) x) eqn:E2; [|done]. apply in_range_spec in E2. lia. }
  apply try_new_wp; [|done]. split; [|done]. split.
  - intros x Hx. fold dst. rewrite Hc3. assert (readwrite (cell_at s2 x) = in_range dst (round_up n) x) as E.
    { rewrite Hc2. destruct (in_range dst (round_up n) x); [done|]. by rewrite (proj2 (Hfresh x Hx)). }
    destruct (in_range dst (len self) x) eqn:El; [|done]. cbn [readwrite]. done.
  - intros o Ho. fold dst. rewrite Hc3. assert (range' m (dst + o)) as Hrange by lia. destruct (Hfresh _ Hrange) as [_ Hz].
    assert (value (cell_at s2 (dst + o)) = 0) as Hv2 by (rewrite Hc2; destruct (in_range _ _ _); by rewrite Hz).
    destruct (Z.ltb_spec o (len self)).
    + rewrite (proj2 (in_range_spec dst (len self) (dst + o))) by lia. cbn [value].
      replace (base self + (dst + o - dst)) with (base self + o) by lia. rewrite Hc2.
      destruct (in_range dst _ (base self + o)); cbn [value]; by rewrite Hoth by by apply Hold; lia.
    + destruct (in_range dst (len self) (dst + o)) eqn:E; [apply in_range_spec in E; lia|done].
Qed.

Section move.
Context (m : Mmap.t) (s1 : AddressSpace) (Hnew : reserved_at total' m s s1) (Hpos : capacity self < round_up n).

Lemma total_pos : 0 < total'.
Proof.
  destruct (v_pre _ _ Hv), (v_guard _ _ Hv), (v_extra _ _ Hv), (v_cap _ _ Hv). lia.
Qed.

Lemma new_fresh x : range' m x -> ~ mapped_at s x.
Proof. intros Hx. by apply (ra_fresh _ _ _ _ Hnew). Qed.

Lemma new_space s2 : in_new m s1 s2 -> space_ok s2.
Proof.
  intros Hin. apply (space_ok_touched (Mmap.ptr m) total' s1); [apply Hnew|done|]. intros x Hx.
  exists (Mmap.ptr m, total'). split; [apply (ra_mapped _ _ _ _ Hnew), total_pos|done].
Qed.

Lemma new_mappings s2 r : in_new m s1 s2 -> r ∈ mappings s2 <-> r = (Mmap.ptr m, total') \/ r ∈ mappings s.
Proof.
  intros [-> _]. rewrite (ra_mappings _ _ _ _ Hnew), decide_True by apply total_pos. apply elem_of_cons.
Qed.

Lemma new_differs r : r ∈ mappings s -> r <> (Mmap.ptr m, total').
Proof.
  intros Hr ->. destruct (so_range _ (v_space _ _ Hv) _ Hr) as (_ & Hp & _). cbn in Hp.
  apply (new_fresh (Mmap.ptr m)); [lia|]. exists (Mmap.ptr m, total'). split; [done|cbn; lia].
Qed.

Lemma new_outside s2 x : in_new m s1 s2 -> mapped_at s x -> cell_at s2 x = cell_at s x.
Proof.
  intros [_ Hc] Hx. assert (~ range' m x) by (intros Hr; by apply (new_fresh x)).
  rewrite Hc by done. by apply (ra_others _ _ _ _ Hnew).
Qed.

(** The new mapping goes again. *)
Lemma cancelled s2 s3 : in_new m s1 s2 -> dropped m s2 s3 -> unchanged (self, s3).
Proof.
  intros Hin Hd. pose proof (ra_len _ _ _ _ Hnew) as Hlen. split_and!; [done|apply Hd|..]; cbn [snd].
  - intros r Hr. apply (dr_mappings _ _ _ Hd). rewrite Hlen. split; [apply (new_mappings s2); auto|].
    intros _. by apply new_differs.
  - intros x Hx. rewrite (proj1 (dr_others _ _ _ Hd x ltac:(rewrite Hlen; intros Hr; by apply (new_fresh x)))).
    by apply new_outside.
Qed.

(** The old mapping goes, the new one has taken its place. *)
Lemma moved_valid s3 s4 : in_new m s1 s3 -> moved m s3 -> dropped (mmap self) s3 s4 ->
  let self' := set_len n (set_mmap m self) in
  valid self' s4 /\ capacity self' = round_up n + extra_to_reserve_on_growth self /\
  extends_contents (base self) (base self') (len self) n s s4 /\
  isolated (fun x => start self <= x < start self + total self) (fun x => range' m x) s s4.
Proof.
  intros Hin [Hrw Hval] Hd self'. pose proof (ra_len _ _ _ _ Hnew) as Hlen. pose proof total_pos as Htp.
  pose proof Hv as [Hsp Hpre Hgd Hex [Hcd Hc0] Hptr Hmp [Hl Hr] _ _]. pose proof (total_parts self) as Htot.
  destruct (round_up_bounds n ltac:(lia)) as [Hdn ?].
  assert (forall x, range' m x -> cell_at s4 x = cell_at s3 x) as Hsame.
  { intros x Hx. apply (dr_others _ _ _ Hd). intros Hx'. by apply (new_fresh x), own_mapped. }
  assert (capacity self' = round_up n + extra_to_reserve_on_growth self) as Hcap.
  { unfold capacity. cbn. rewrite Hlen. lia. }
  assert (forall o, 0 <= o < capacity self' -> value (cell_at s4 (base self' + o)) =
    if o <? len self then value (cell_at s (base self + o)) else 0) as Hcontents.
  { rewrite Hcap. intros o Ho. destruct Hpre as [_ ?], Hgd as [_ ?]. unfold base. cbn. rewrite Hsame by lia. by apply Hval. }
  destruct Hex as [Hed ?]. split_and!; [split|done|..].
  - apply Hd.
  - done.
  - done.
  - done.
  - rewrite Hcap. split; [by apply Z.divide_add_r|lia].
  - cbn. destruct (ra_ptr _ _ _ _ Hnew). rewrite Hlen. lia.
  - cbn. rewrite Hlen. intros _. apply (dr_mappings _ _ _ Hd). split; [apply (new_mappings s3); auto|].
    intros Hp E. by apply (new_differs (start self, total self)); [apply Hmp|].
  - cbn [len self' set_len]. rewrite Hcap. lia.
  - cbn [self' set_len set_mmap mmap len]. rewrite Hlen. intros x Hx. rewrite Hsame by done. by apply Hrw.
  - cbn [self' set_len len]. intros o Ho. rewrite Hcontents by lia. rewrite (proj2 (Z.ltb_ge _ _)) by lia. done.
  - intros o Ho. apply Hcontents. rewrite Hcap. lia.
  - split; [|intros x Hx _ Hr'; by apply (new_fresh x)].
    intros x Hx Hnot. destruct (dr_others _ _ _ Hd x Hnot) as [-> Hm']. split; [|by apply new_outside].
    apply Hm'. destruct Hx as (r & Hr' & ?). exists r. split; [apply (new_mappings s3); auto|done].
Qed.
End move.

(** The outcome of a growth. *)
Definition grown (p : t * AddressSpace) : Prop :=
  valid p.1 p.2 /\ len p.1 = n /\ maximum p.1 = maximum self /\
  offset_guard_size p.1 = offset_guard_size self /\ capacity self <= capacity p.1 /\
  (n <= capacity self -> base p.1 = base self /\ capacity p.1 = capacity self) /\
  extends_contents (base self) (base p.1) (len self) n s p.2 /\
  isolated (fun x => start self <= x < start self + total self) (fun x => start p.1 <= x < start p.1 + total p.1) s p.2.

Lemma move_to_wp : capacity self < round_up n ->
  wp (move_to (round_up n) ;;; update_ (set_len n)) (fun _ => grown) (fun _ => unchanged) (self, s).
Proof.
  intros Hlt. assert (unchanged (self, s)) as Hsame by by apply unchanged_same.
  pose proof (v_cap _ _ Hv) as [Hcd Hc0]. pose proof (total_parts self). pose proof (total_pos Hlt).
  apply wp_bind. unfold move_to. apply wp_bind, (wp_run _ _ _ _ self (self, s)); [done|]. cbn zeta.
  do 3 (apply wp_bind, checked_add_wp; [|done]).
  apply wp_bind, on_os_wp. eapply wp_mono; [apply reserved_wp; [apply Hv|lia]| |by intros e s' ->].
  intros m s1 Hnew. pose proof (ra_len _ _ _ _ Hnew) as Hlen. apply wp_bind, on_os_wp, wp_on_err.
  assert (forall s2 Q, in_new m s1 s2 -> wp (Mmap.drop m) (fun _ s3 => dropped m s2 s3) Q s2) as Hdrop.
  { intros s2 Q Hin. apply drop_wp; [by apply (new_space m s1 Hnew Hlt)|lia|].
    rewrite Hlen. intros _. apply (new_mappings m s1 Hnew Hlt); auto. }
  fold (prepare m). eapply wp_mono; [by apply prepare_wp| |].
  2: { intros e s2 Hin. eapply wp_mono; [by apply (Hdrop s2 (fun _ _ => False))| |done]. intros [] s3 Hd. by apply (cancelled m s1 Hnew Hlt s2). }
  intros [] s2 [Hmv Hin]. apply wp_bind. unfold wp, update_. cbn [fst snd].
  change (wp (on_os (Mmap.drop (mmap self))) (fun _ p => grown (set_len n p.1, p.2)) (fun _ => unchanged) (set_mmap m self, s2)).
  apply on_os_wp. destruct (v_pre _ _ Hv), (v_guard _ _ Hv).
  eapply wp_mono; [apply (drop_wp (mmap self) s2 (fun _ _ => False))| |done].
  - by apply (new_space m s1 Hnew Hlt).
  - lia.
  - intros Hp. apply (new_mappings m s1 Hnew Hlt s2); [done|]. right. by apply (v_mapped _ _ Hv).
  - intros [] s3 Hd. cbn [fst snd]. destruct (moved_valid m s1 Hnew Hlt s2 s3 Hin Hmv Hd) as (Hval & Hcap & Hcon & Hfr).
    destruct (v_extra _ _ Hv), (round_up_bounds n ltac:(pose proof (v_len _ _ Hv); lia)).
    split_and!; try done; [cbn [fst]; rewrite Hcap; lia| |by cbn; rewrite Hlen].
    intros Hle. exfalso. pose proof (round_up_le n (capacity self) ltac:(pose proof (v_len _ _ Hv); lia) Hcd Hle). lia.
Qed.

Lemma mmap_grow_to_wp : (forall mx, maximum self = Some mx -> n <= mx) ->
  wp (MmapMemory.grow_to n) (fun _ => grown) (fun _ => unchanged) (self, s).
Proof.
  intros Hmax. pose proof (v_len _ _ Hv) as [Hl Hr]. pose proof (v_cap _ _ Hv) as [Hcd Hc0].
  assert (unchanged (self, s)) as Hsame by by apply unchanged_same.
  unfold MmapMemory.grow_to. apply wp_bind. unfold wp at 1.
  destruct (new_rounded_up_eq n (self, s) ltac:(lia)) as [[-> _]| ->]; [|done].
  apply wp_bind, (wp_run _ _ _ _ self (self, s)); [done|].
  apply wp_bind, (wp_unwrap _ (capacity self)); [by eapply capacity_run|].
  destruct (Z.ltb_spec (capacity self) (round_up n)) as [Hlt|Hge]; [by apply move_to_wp|].
  apply wp_bind. eapply wp_mono; [by apply extend_to_wp| |done].
  intros [] [self' s'] (E & Hval & Ht & Hx). cbn in E, Hval, Ht, Hx.
  subst self'. unfold wp, update_. cbn [fst snd]. split_and!; try done.
  - intros o Ho. cbn. rewrite Hx. destruct (Z.ltb_spec o (len self)); [done|]. apply (v_zero _ _ Hv).
    destruct (round_up_bounds n ltac:(lia)). lia.
  - split; [|done]. eapply frame_touched; [exact Ht|]. intros x Hx'. pose proof (base_range self s (x - base self) Hv). lia.
Qed.
End grow.

Lemma mmap_store_valid self s o v : valid self s -> 0 <= o < len self -> valid self (store (base self + o) v s).
Proof.
  intros Hv Ho. pose proof (v_len _ _ Hv) as [? ?]. pose proof (round_up_bounds (len self) ltac:(lia)) as [_ ?].
  pose proof (base_range self s o Hv ltac:(lia)). pose proof Hv as [].
  split; try done.
  - apply (space_ok_touched (base self + o) 1 s); [done|apply store_touched|]. intros x Hx. apply (own_mapped self s Hv). lia.
  - intros x Hx. rewrite store_at. destruct (Z.eqb_spec x (base self + o)) as [->|]; [cbn|]; by apply v_rw0.
  - intros o' Ho'. rewrite store_at. rewrite (proj2 (Z.eqb_neq _ _)) by lia. by apply v_zero0.
Qed.

#[global] Program Instance mmap_laws : LinearMemoryLaws t := {
  Allocations.valid := valid;
  owns self x := start self <= x < start self + total self;
  guard_of := offset_guard_size;
  limit := maximum;
  growable := true;
}.
Next Obligation. intros a s Hv. apply Hv. Qed.
Next Obligation.
  intros a s Hv. exists (capacity a). split; [by eapply capacity_run|]. pose proof (v_len _ _ Hv) as [? ?].
  pose proof (v_ptr _ _ Hv). pose proof (total_parts a). destruct (v_pre _ _ Hv), (v_guard _ _ Hv).
  destruct (round_up_bounds (len a)); [done|]. cbn. unfold base. lia.
Qed.
Next Obligation.
  intros a s o Hv Ho. cbn in *. pose proof (v_len _ _ Hv) as [? ?]. destruct (round_up_bounds (len a)); [done|].
  rewrite (rw_at a s o Hv) by lia. apply Z.ltb_lt. lia.
Qed.
Next Obligation.
  intros a s cap x Hv. cbn. rewrite (capacity_run a s Hv). intros [= <-] Hx. pose proof (total_parts a).
  pose proof (v_len _ _ Hv) as [? ?]. destruct (v_pre _ _ Hv), (v_cap _ _ Hv). unfold base in Hx.
  rewrite (v_rw _ _ Hv) by lia. apply not_true_is_false. intros ?%in_range_spec. unfold base in *. lia.
Qed.
Next Obligation.
  intros a s o _ Hv Ho. pose proof (v_len _ _ Hv) as [? ?]. destruct (round_up_bounds (len a)); [done|].
  apply (base_range a s o Hv). cbn in Ho. lia.
Qed.
Next Obligation. intros a s o v Hv Ho. by apply mmap_store_valid. Qed.
Next Obligation.
  intros a s s' Hv Hm Hc. exact (unchanged_valid a s Hv (a, s') (unchanged_same a s Hv s' Hm Hc)).
Qed.
Next Obligation.
  intros a s n cap Hat _ Hv. cbn. rewrite (capacity_run a s Hv). intros [= <-] Hn Hmax.
  eapply wp_mono; [by apply (mmap_grow_to_wp Hat a s n Hv Hn)|..].
  - intros [] [a' s'] (Hv' & ? & ? & ? & ? & ? & ? & ?). cbn in *. split_and!; try done.
    exists (capacity a'). by rewrite (capacity_run a' s' Hv').
  - intros e p Hu. pose proof Hu as (E & _ & Hm & Hc). split_and!; [done|by apply (unchanged_valid a s Hv)|..].
    + intros o Ho. rewrite (proj2 (Z.ltb_lt _ _)) by lia. rewrite Hc; [done|]. apply (own_mapped a s Hv), (base_range a s); [done|].
      pose proof (v_len _ _ Hv) as [? ?]. destruct (round_up_bounds (len a)); [done|]. lia.
    + intros x Hx _. split; [|by apply Hc]. destruct Hx as (r & ? & ?). exists r. auto.
Qed.
Next Obligation.
  intros a s cap o _ Hv. cbn. rewrite (capacity_run a s Hv). intros [= <-] Ho. split; [by apply rw_at|].
  intros ?. apply (v_zero _ _ Hv). lia.
Qed.
Next Obligation.
  intros a s s' n cap n' _ Hv. cbn. rewrite (capacity_run a s Hv). intros [= <-] Hn Hle Hn' Hm Hout Hacc Hrw Hz.
  rewrite (Hn' eq_refl) in *. pose proof (v_len _ _ Hv) as [? ?]. destruct (v_cap _ _ Hv) as [Hcd ?].
  pose proof (round_up_le n (capacity a) ltac:(lia) Hcd ltac:(lia)) as Hru. exists (set_len n). split; [done|].
  assert (forall x, mapped_at s x -> mapped_at s' x) as Hmap by (intros x; unfold mapped_at; by rewrite Hm).
  assert (forall x, start a <= x < start a + total a -> ~ (base a <= x < base a + capacity a) ->
    readwrite (cell_at s' x) = false) as Hguards.
  { intros x Hx Hnot. rewrite Hout by done. rewrite (v_rw _ _ Hv) by done.
    apply not_true_is_false. intros ?%in_range_spec. lia. }
  assert (valid (set_len n a) s') as Hvalid.
  { apply (valid_resized a s s'); try done; [lia|..].
    - pose proof (v_space _ _ Hv) as []. split; [intros m; rewrite Hm; auto|intros m m'; rewrite Hm; auto|auto].
    - intros x Hx. destruct (decide (base a <= x < base a + capacity a)) as [Hin|Hnot].
      + replace x with (base a + (x - base a)) by lia. rewrite Hrw by lia. apply eq_true_iff_eq.
        rewrite Z.ltb_lt, in_range_spec. lia.
      + rewrite Hguards by done. symmetry. apply not_true_is_false. intros ?%in_range_spec. lia. }
  split_and!; try done. exact (capacity_run _ s' Hvalid).
Qed.

(** A new memory: zeros, accessible up to its size, in enough address space. *)
Record created (ty : Memory.t) (mt : MemoryTunables.t) (minimum : Z) (mx : option Z) (s : AddressSpace)
    (self : t) (s' : AddressSpace) : Prop := {
  cr_valid : valid self s';
  cr_len : len self = minimum;
  cr_maximum : maximum self = mx;
  cr_guard : MemoryTunables.guard_size mt <= offset_guard_size self;
  cr_reservation : MemoryTunables.reservation mt <= capacity self;
  cr_fits : minimum <= MemoryTunables.reservation mt -> capacity self = round_up (MemoryTunables.reservation mt);
  cr_zero o : 0 <= o < capacity self -> cell_at s' (base self + o) = mkCell 0 0 (o <? round_up minimum);
  cr_frame : frame (fun _ => False) s s';
  cr_fresh x : start self <= x < start self + total self -> ~ mapped_at s x;
}.

Lemma allocation_bounds ty mt minimum : MemoryTunables.valid mt -> 0 <= minimum <= u64_MAX ->
  let (alloc, extra) := allocation ty mt minimum in
  0 <= extra /\ minimum <= alloc /\ MemoryTunables.reservation mt <= alloc /\
  (minimum <= MemoryTunables.reservation mt -> alloc = MemoryTunables.reservation mt).
Proof.
  intros [? ? ? ?] ?. unfold allocation, saturating_add. destruct (Z.leb_spec minimum (MemoryTunables.reservation mt)).
  - destruct (Memory.maximum_byte_size ty) as [mx|]; [destruct (mx <=? _)|]; lia.
  - lia.
Qed.

Lemma reserved_frame n m s s' s2 : space_ok s -> reserved_at n m s s' -> touched (Mmap.ptr m) n s' s2 -> frame (fun _ => False) s s2.
Proof.
  intros Hs Hr [Hm Hc] x Hx _. assert (~ (Mmap.ptr m <= x < Mmap.ptr m + n)) as Hno.
  { intros Hin. by apply (ra_fresh _ _ _ _ Hr x Hin). }
  split; [|rewrite Hc by done; by apply (ra_others _ _ _ _ Hr)].
  destruct Hx as (r & Hr' & ?). exists r. split; [|done]. rewrite Hm, (ra_mappings _ _ _ _ Hr).
  case_decide; [by apply elem_of_cons; right|done].
Qed.

Lemma reserved_space n m s s' s2 : reserved_at n m s s' -> touched (Mmap.ptr m) n s' s2 -> space_ok s2.
Proof.
  intros Hr Ht. apply (space_ok_touched (Mmap.ptr m) n s'); [apply Hr|done|]. intros x Hx.
  exists (Mmap.ptr m, n). split; [apply (ra_mapped _ _ _ _ Hr); lia|done].
Qed.

Lemma reserved_drop_wp n m s s' s2 Q : 0 <= n -> space_ok s -> reserved_at n m s s' -> touched (Mmap.ptr m) n s' s2 ->
  wp (Mmap.drop m) (fun _ s3 => space_ok s3 /\ frame (fun _ => False) s s3) Q s2.
Proof.
  intros Hn Hs Hr Ht. pose proof (ra_len _ _ _ _ Hr) as Hlen.
  eapply wp_mono; [apply (drop_wp m s2 Q)| |done].
  - by eapply reserved_space.
  - lia.
  - rewrite Hlen, (proj1 Ht). apply (ra_mapped _ _ _ _ Hr).
  - intros [] s3 Hd. split; [apply Hd|]. intros x Hx Hf.
    destruct (reserved_frame n m s s' s2 Hs Hr Ht x Hx Hf) as [Hx2 <-].
    assert (~ (Mmap.ptr m <= x < Mmap.ptr m + Mmap.len m)) as Hno.
    { rewrite Hlen. intros Hin. by apply (ra_fresh _ _ _ _ Hr x Hin). }
    destruct (dr_others _ _ _ Hd x Hno). auto.
Qed.

Lemma new_created ty mt minimum mx s m s1 s2 pre guard alloc extra :
  space_ok s -> 0 <= minimum -> reserved_at (pre + round_up alloc + guard) m s s1 -> mappings s2 = mappings s1 ->
  (forall x, cell_at s2 x = if in_range (Mmap.ptr m + pre) (round_up minimum) x
     then mkCell (value (cell_at s1 x)) (backing (cell_at s1 x)) true else cell_at s1 x) ->
  touched (Mmap.ptr m) (pre + round_up alloc + guard) s1 s2 ->
  aligned pre -> aligned guard -> aligned (round_up alloc) -> aligned (round_up extra) ->
  MemoryTunables.guard_size mt <= guard -> 0 <= alloc -> minimum <= alloc -> MemoryTunables.reservation mt <= alloc ->
  (minimum <= MemoryTunables.reservation mt -> alloc = MemoryTunables.reservation mt) ->
  created ty mt minimum mx s (mk m minimum mx (round_up extra) pre guard) s2.
Proof.
  intros Hs Hmin Hr Hm Hc Ht [Hpd Hp0] [Hgd Hg0] [Had Ha0] Hex Hg Hal0 Hma Hra Hfits.
  pose proof (ra_len _ _ _ _ Hr) as Hlen. destruct (ra_ptr _ _ _ _ Hr) as [Hptr0 Hptr1].
  pose proof (round_up_mono minimum alloc ltac:(lia)) as Hmono. destruct (round_up_bounds minimum Hmin) as [_ Hmu].
  destruct (round_up_bounds alloc Hal0) as [_ Hau].
  set (self := mk m minimum mx (round_up extra) pre guard). assert (capacity self = round_up alloc) as Hcap.
  { unfold capacity. cbn. rewrite Hlen. lia. }
  assert (forall x, Mmap.ptr m <= x < Mmap.ptr m + Mmap.len m ->
    cell_at s2 x = mkCell 0 0 (in_range (Mmap.ptr m + pre) (round_up minimum) x)) as Hcell.
  { intros x Hx. rewrite Hlen in Hx. rewrite Hc, (proj2 (ra_fresh _ _ _ _ Hr x Hx)). by destruct (in_range _ _ _). }
  assert (forall o, 0 <= o < capacity self -> cell_at s2 (base self + o) = mkCell 0 0 (o <? round_up minimum)) as Hz.
  { rewrite Hcap. intros o Ho. unfold base. cbn. rewrite Hcell by lia. f_equal. apply eq_true_iff_eq.
    rewrite in_range_spec, Z.ltb_lt. lia. }
  split; try done; [split; try done|..].
  - by eapply reserved_space.
  - rewrite Hcap. split; [done|lia].
  - cbn. rewrite Hlen. lia.
  - cbn. rewrite Hm, Hlen. apply (ra_mapped _ _ _ _ Hr).
  - rewrite Hcap. cbn. lia.
  - intros x Hx. cbn in Hx. by rewrite Hcell by done.
  - intros o Ho. cbn in Ho. by rewrite Hz by lia.
  - rewrite Hcap. lia.
  - intros Hle. by rewrite Hcap, Hfits.
  - by eapply reserved_frame.
  - cbn. rewrite Hlen. intros x Hx. by apply (ra_fresh _ _ _ _ Hr x).
Qed.

Lemma mmap_new_wp ty mt minimum mx s : atomic_failures -> MemoryTunables.valid mt -> space_ok s -> 0 <= minimum <= usize_MAX ->
  wp (new ty mt minimum mx) (created ty mt minimum mx s) (fun _ s' => space_ok s' /\ frame (fun _ => False) s s') s.
Proof.
  intros Hat Hmt Hs Hmin. assert (space_ok s /\ frame (fun _ => False) s s) as Hsame by (split; [done|by apply mapped_frame_refl]).
  pose proof (allocation_bounds ty mt minimum Hmt Hmin) as Hal. pose proof (MemoryTunables.v_guard _ Hmt) as Hg0. pose proof (MemoryTunables.v_reservation _ Hmt).
  unfold new. apply wp_bind, rounded_up_u64_wp; [done|intros Hguard|done].
  destruct (round_up_bounds _ Hg0) as [_ Hgb]. set (guard := round_up (MemoryTunables.guard_size mt)) in *. cbn zeta.
  set (pre := if guard_before_linear_memory _ then guard else 0). assert (aligned pre) as Hpre.
  { unfold pre. destruct (guard_before_linear_memory _); [done|apply aligned_0]. }
  destruct (allocation ty mt minimum) as [alloc extra]. destruct Hal as (Hex & Hma & Hra & Hfits).
  apply wp_bind, rounded_up_u64_wp; [lia|intros Halloc|done]. apply wp_bind, rounded_up_u64_wp; [lia|intros Hextra|done].
  do 2 (apply wp_bind, checked_add_wp; [|done]). destruct Hpre as [Hpd Hp0], Hguard as [Hgd Hg1], Halloc as [Had Ha1].
  apply wp_bind. eapply wp_mono; [apply (reserved_wp (pre + round_up alloc + guard)); [done|lia]| |by intros e s' ->].
  intros m s1 Hr. pose proof (ra_len _ _ _ _ Hr) as Hlen. destruct (ra_ptr _ _ _ _ Hr) as [Hptr0 Hptr1].
  destruct (round_up_bounds alloc ltac:(lia)) as [_ Hru]. pose proof (round_up_mono minimum alloc ltac:(lia)) as Hmono.
  destruct (round_up_bounds minimum ltac:(lia)) as [_ Hmu].
  apply wp_bind, wp_on_err. assert (forall s2, touched (Mmap.ptr m) (pre + round_up alloc + guard) s1 s2 ->
    forall Q, wp (Mmap.drop m) (fun _ s3 => space_ok s3 /\ frame (fun _ => False) s s3) Q s2) as Hdrop.
  { intros s2 Ht Q. apply (reserved_drop_wp (pre + round_up alloc + guard) m s s1); (done || lia). }
  assert (touched (Mmap.ptr m) (pre + round_up alloc + guard) s1 s1) as Hrefl by done.
  assert (forall s2, mappings s2 = mappings s1 -> (forall x, cell_at s2 x =
      if in_range (Mmap.ptr m + pre) (round_up minimum) x then mkCell (value (cell_at s1 x)) (backing (cell_at s1 x)) true
      else cell_at s1 x) ->
    wp try_new (fun _ s3 => created ty mt minimum mx s (mk m minimum mx (round_up extra) pre guard) s3)
      (fun _ s' => wp (Mmap.drop m) (fun _ s3 => space_ok s3 /\ frame (fun _ => False) s s3)
         (fun _ s3 => space_ok s3 /\ frame (fun _ => False) s s3) s') s2) as Hdone.
  { intros s2 Hm Hc. assert (touched (Mmap.ptr m) (pre + round_up alloc + guard) s1 s2) as Ht.
    { split; [done|]. intros x Hx. rewrite Hc. destruct (in_range _ _ x) eqn:E; [|done]. apply in_range_spec in E. lia. }
    apply try_new_wp; [|by apply Hdrop]. apply (new_created ty mt minimum mx s m s1 s2 pre guard alloc extra); try done; lia. }
  destruct (Z.ltb_spec 0 minimum) as [Hpos|Hzero].
  - apply wp_bind, wp_bind, rounded_up_wp; [lia|intros _|intros _; by apply Hdrop].
    apply make_accessible_wp; [done|lia..|rewrite Hlen; unfold usize_MAX; lia| |].
    + intros s2 Hm Hc. by apply Hdone.
    + intros s2 Hm Hc. apply Hdrop. by split.
  - apply wp_bind, wp_ret, Hdone; [done|]. intros x. assert (minimum = 0) as -> by lia.
    destruct (in_range _ _ x) eqn:E; [|done]. apply in_range_spec in E.
    pose proof (round_up_le 0 0 ltac:(lia) ltac:(apply Z.divide_0_r) ltac:(lia)). lia.
Qed.
End laws.
End MmapLaws.

(** ** Memories of the allocator keep the promise *)

Module MallocLaws.
Import MallocMemory.
Section laws.
Context `{Host} `{OS} `{!Allocator}.

Abbreviation bytes v := (ALIGN * s_capacity v).
Definition in_buffer (v : Storage) (x : Z) : Prop := s_ptr v <= x < s_ptr v + bytes v.

(** The buffer of a vector. *)
Record buffer_ok (v : Storage) (s : AddressSpace) : Prop := {
  b_space : space_ok s;
  b_len : 0 <= s_len v <= s_capacity v;
  b_ptr : 0 < s_ptr v /\ s_ptr v + bytes v <= 2 ^ 47;
  b_mapped : 0 < s_capacity v -> (s_ptr v, bytes v) ∈ mappings s;
  b_rw x : in_buffer v x -> readwrite (cell_at s x) = true;
}.

Lemma buffer_mapped v s x : buffer_ok v s -> in_buffer v x -> mapped_at s x.
Proof.
  intros Hb Hx. exists (s_ptr v, bytes v). unfold in_buffer, ALIGN in *. split; [apply (b_mapped _ _ Hb); lia|done].
Qed.

(** The buffer grown to [cap] elements at [p], where the allocator put it. *)
Lemma reallocate_ok v s p cap : buffer_ok v s -> s_capacity v < cap ->
  realloc s (s_ptr v, bytes v) (ALIGN * cap) = Some p ->
  let v' := mkStorage p cap (s_len v) in let s' := reallocate (s_ptr v, bytes v) (p, ALIGN * cap) s in
  buffer_ok v' s' /\ (forall o, 0 <= o < bytes v -> value (cell_at s' (p + o)) = value (cell_at s (s_ptr v + o))) /\
  frame (in_buffer v) s s' /\ (forall x, mapped_at s x -> ~ in_buffer v x -> ~ in_buffer v' x).
Proof.
  intros Hb Hcap Hp v' s'. destruct (realloc_spec _ _ _ _ Hp) as (Hp0 & Hp1 & Hdis).
  pose proof Hb as [Hs Hl Hptr Hm Hrw]. unfold ALIGN in *.
  assert (forall x, p <= x < p + 16 * cap -> cell_at s' x =
    mkCell (if x - p <? 16 * s_capacity v then value (cell_at s (s_ptr v + (x - p))) else fresh_bytes s x) 0 true) as Hin.
  { intros x Hx. unfold s', reallocate, cell_at at 1. cbn. by rewrite (proj2 (in_range_spec _ _ _)) by done. }
  assert (forall x, ~ (p <= x < p + 16 * cap) -> cell_at s' x =
    if in_range (s_ptr v) (16 * s_capacity v) x then mkCell 0 0 false else cell_at s x) as Hout.
  { intros x Hx. unfold s', reallocate, cell_at at 1. cbn. destruct (in_range p _ x) eqn:E; [|done].
    by apply in_range_spec in E. }
  assert (forall m, m ∈ mappings s' <-> m = (p, 16 * cap) \/ (m ∈ mappings s /\ m <> (s_ptr v, 16 * s_capacity v))) as Hmem.
  { intros m. unfold s', reallocate. cbn. rewrite elem_of_cons, list_elem_of_filter. tauto. }
  assert (forall x, mapped_at s x -> ~ in_buffer v x -> mapped_at s' x /\ ~ (p <= x < p + 16 * cap)) as Hkeep.
  { intros x (m & Hin' & Hx) Hnot. assert (m <> (s_ptr v, 16 * s_capacity v)) as Hne by (by intros ->).
    split; [exists m; split; [apply Hmem; auto|done]|]. destruct (Hdis m Hin' Hne); lia. }
  destruct Hs as [Hr Hd Ha]. split_and!; [split|..].
  - split.
    + intros m [->|[? _]]%Hmem; [cbn; lia|auto].
    + intros m m' [->|[Hm1 Hn1]]%Hmem [->|[Hm2 Hn2]]%Hmem; [by left|right..|auto].
      * by apply Hdis.
      * destruct (Hdis m Hm1 Hn1); [by right|by left].
    + intros x Hx. destruct (decide (p <= x < p + 16 * cap)).
      { exists (p, 16 * cap). split; [apply Hmem; auto|done]. }
      rewrite Hout in Hx by done. destruct (in_range (s_ptr v) _ x) eqn:E; [done|].
      apply Hkeep; [auto|]. intros Hi%in_range_spec. change (in_range (s_ptr v) (16 * s_capacity v) x = true) in Hi. congruence.
  - cbn. lia.
  - cbn. unfold ALIGN. lia.
  - intros _. apply Hmem. by left.
  - intros x Hx. unfold in_buffer in Hx. cbn in Hx. by rewrite Hin by done.
  - intros o Ho. rewrite Hin by lia. cbn. rewrite (proj2 (Z.ltb_lt _ _)) by lia. do 3 f_equal. lia.
  - intros x Hx Hnot. destruct (Hkeep x Hx Hnot) as [? Hno]. split; [done|]. rewrite Hout by done.
    destruct (in_range (s_ptr v) _ x) eqn:E; [|done]. by apply in_range_spec in E.
  - intros x Hx Hnot. by apply Hkeep.
Qed.

Lemma try_reserve_wp add v s : buffer_ok v s -> 0 <= add ->
  wp (try_reserve add)
    (fun _ p => buffer_ok p.1 p.2 /\ s_len p.1 = s_len v /\ s_len v + add <= s_capacity p.1 /\ s_capacity v <= s_capacity p.1 /\
       (s_len v + add <= s_capacity v -> p.1 = v) /\
       (forall o, 0 <= o < bytes v -> value (cell_at p.2 (s_ptr p.1 + o)) = value (cell_at s (s_ptr v + o))) /\
       frame (in_buffer v) s p.2 /\ (forall x, mapped_at s x -> ~ in_buffer v x -> ~ in_buffer p.1 x))
    (fun _ p => p = (v, s)) (v, s).
Proof.
  intros Hb Hadd. unfold wp, try_reserve. destruct (Z.leb_spec add (s_capacity v - s_len v)).
  { cbn. split_and!; try done; try lia; by apply mapped_frame_refl. }
  set (cap := Z.max (Z.max (2 * s_capacity v) (s_len v + add)) 4). pose proof (b_len _ _ Hb).
  destruct (_ && _); [|done]. destruct (realloc s _ _) as [p|] eqn:E; [|done].
  destruct (reallocate_ok v s p cap Hb ltac:(lia) E) as (Hb' & Hval & Hfr & Hnew). cbn [fst snd s_len s_capacity s_ptr].
  split_and!; try done; lia.
Qed.

(** Growing the length writes zeros behind the old elements. *)
Lemma grow_storage_to_wp k v s Q : buffer_ok v s -> s_len v < k <= s_capacity v ->
  wp (grow_storage_to k)
    (fun _ p => p.1 = mkStorage (s_ptr v) (s_capacity v) k /\ buffer_ok p.1 p.2 /\
       (forall o, 0 <= o < bytes v -> value (cell_at p.2 (s_ptr v + o)) =
          if (ALIGN * s_len v <=? o) && (o <? ALIGN * k) then 0 else value (cell_at s (s_ptr v + o))) /\
       frame (in_buffer v) s p.2) Q (v, s).
Proof.
  intros Hb Hk. pose proof Hb as [Hs Hl Hptr Hm Hrw]. unfold ALIGN in *. unfold grow_storage_to.
  apply wp_bind, (wp_run _ _ _ _ v (v, s)); [done|]. apply wp_bind, wp_assert; [apply Z.ltb_lt; lia|].
  apply wp_bind, wp_assert; [apply Z.leb_le; lia|]. apply wp_bind. unfold wp at 1, zoom, on_space, zoom, write. cbn [snd].
  assert (forallb (fun x => readwrite (cells (space s) x)) (seqZ (s_ptr v + 16 * s_len v) (16 * (k - s_len v))) = true) as E.
  { apply forallb_forall. intros x Hx%list_elem_of_In%elem_of_seqZ. apply (Hrw x). unfold in_buffer, ALIGN. lia. }
  unfold ALIGN. rewrite E. cbn [fst snd].
  set (s' := mkAddressSpace _ (mappings s)). assert (touched (s_ptr v) (16 * s_capacity v) s s') as Ht.
  { split; [done|]. intros x Hx. unfold s', cell_at at 1. cbn. apply set_range_out. lia. }
  unfold wp, modify. cbn [fst snd s_ptr s_capacity]. split_and!; [done|split; cbn; try done|..].
  - apply (space_ok_touched (s_ptr v) (16 * s_capacity v) s); [done..|]. intros x Hx. by apply (buffer_mapped v).
  - lia.
  - intros x Hx. unfold s', cell_at. cbn. unfold set_range. destruct (in_range _ _ x); by apply Hrw.
  - intros o Ho. unfold s', cell_at at 1. cbn. unfold set_range. destruct (in_range _ _ _) eqn:Er; cbn.
    + apply in_range_spec in Er. rewrite (proj2 (Z.leb_le _ _)), (proj2 (Z.ltb_lt _ _)) by lia. done.
    + destruct (Z.leb_spec (16 * s_len v) o), (Z.ltb_spec o (16 * k)); try done. exfalso.
      assert (in_range (s_ptr v + 16 * s_len v) (16 * (k - s_len v)) (s_ptr v + o) = true) by (apply in_range_spec; lia). congruence.
  - by eapply frame_touched.
Qed.

Lemma elements_spec n : 0 <= n <= usize_MAX ->
  let e := byte_size_to_element_len n in
  0 <= e /\ ALIGN * e < n + ALIGN /\ ALIGN * e <= 2 ^ 64 - 16 /\ (n <= ALIGN * e \/ ALIGN * e = 2 ^ 64 - 16).
Proof.
  intros Hn. unfold byte_size_to_element_len, ALIGN.
  assert (forall x, 0 <= x -> Z.land x (Z.lnot (16 - 1)) / 16 = x / 16) as Hland.
  { intros x Hx. rewrite <- Z.ldiff_land. change (16 - 1) with (Z.ones 4).
    rewrite Z.ldiff_ones_r, Z.shiftr_div_pow2, Z.shiftl_mul_pow2 by lia. change (2 ^ 4) with 16. by rewrite Z.div_mul. }
  unfold checked_add. destruct (Z.leb_spec (n + (16 - 1)) usize_MAX); cbv [default from_option id]; rewrite Hland by (unfold usize_MAX in *; lia).
  - pose proof (Z.div_mod (n + (16 - 1)) 16). pose proof (Z.mod_pos_bound (n + (16 - 1)) 16). unfold usize_MAX in *. lia.
  - change (usize_MAX / 16) with (2 ^ 60 - 1). unfold usize_MAX in *. lia.
Qed.

Record valid (self : t) (s : AddressSpace) : Prop := {
  v_buffer : buffer_ok (storage self) s;
  v_base : base self = s_ptr (storage self);
  v_len : 0 <= byte_len self <= ALIGN * s_len (storage self);
  v_zero o : byte_len self <= o < ALIGN * s_len (storage self) -> value (cell_at s (base self + o)) = 0;
}.

Lemma on_storage_wp {A} (m : M (Storage * AddressSpace) PoolError A) self s P Q :
  wp m (fun a q => P a (mk q.1 (base self) (byte_len self), q.2)) (fun e q => Q e (mk q.1 (base self) (byte_len self), q.2))
    (storage self, s) -> wp (on_storage m) P Q (self, s).
Proof. unfold wp, on_storage, zoom. cbn. by destruct (m _). Qed.

Lemma malloc_grow_to_wp self s n : valid self s -> byte_len self <= n <= usize_MAX ->
  wp (grow_to n)
    (fun _ p => valid p.1 p.2 /\ byte_len p.1 = n /\ s_capacity (storage self) <= s_capacity (storage p.1) /\
       (n <= bytes (storage self) -> base p.1 = base self /\ s_capacity (storage p.1) = s_capacity (storage self)) /\
       extends_contents (base self) (base p.1) (byte_len self) n s p.2 /\
       isolated (in_buffer (storage self)) (in_buffer (storage p.1)) s p.2)
    (fun _ p => p = (self, s)) (self, s).
Proof.
  intros [Hb Hbase Hl Hz] Hn. destruct (elements_spec n ltac:(lia)) as (He0 & He1 & _ & He2).
  set (e := byte_size_to_element_len n) in *. pose proof (b_len _ _ Hb) as Hcap. pose proof (b_ptr _ _ Hb) as Hptr.
  unfold grow_to. fold e. apply wp_bind, (wp_run _ _ _ _ (s_len (storage self)) (self, s)); [done|].
  assert (e <= s_len (storage self) -> n <= ALIGN * e) as Hexact by (unfold ALIGN in *; lia).
  apply wp_bind. destruct (Z.ltb_spec (s_len (storage self)) e) as [Hlt|Hge].
  - apply wp_bind, on_storage_wp. eapply wp_mono; [by apply try_reserve_wp; [|lia]| |by intros ? p ->; destruct self].
    intros [] [v1 s1] (Hb1 & Hl1 & Hc1 & Hc2 & Hstay & Hval1 & Hf1 & Hnew1). cbn [fst snd] in *.
    apply wp_bind, on_storage_wp. cbn [storage]. eapply wp_mono; [apply (grow_storage_to_wp e v1 s1 (fun _ _ => False) Hb1); lia| |done].
    intros [] [v2 s2] (Ev2 & Hb2 & Hval2 & Hf2). cbn [fst snd storage base byte_len] in *. subst v2. cbn [s_ptr].
    pose proof (b_ptr _ _ Hb1). pose proof (b_len _ _ Hb1). unfold wp, update_. cbn [fst snd storage base byte_len s_ptr].
    assert (n <= ALIGN * e) as Hne by (destruct He2; [done|unfold ALIGN in *; lia]).
    assert (forall o, 0 <= o < ALIGN * e -> value (cell_at s2 (s_ptr v1 + o)) =
      if o <? byte_len self then value (cell_at s (base self + o)) else 0) as Hcon.
    { intros o Ho. rewrite Hval2 by (unfold ALIGN in *; lia). rewrite Hbase. destruct (Z.leb_spec (ALIGN * s_len v1) o).
      - rewrite (proj2 (Z.ltb_lt o _)), (proj2 (Z.ltb_ge o _)) by (unfold ALIGN in *; lia). done.
      - cbn [andb]. rewrite Hval1 by (unfold ALIGN in *; lia). destruct (Z.ltb_spec o (byte_len self)); [done|].
        rewrite <- Hbase. apply Hz. unfold ALIGN in *. lia. }
    split_and!; cbn [fst snd storage base byte_len s_ptr s_capacity s_len]; try done.
    + split; cbn [storage base byte_len s_len]; [done|done|lia|]. intros o Ho. rewrite Hcon by lia.
      by rewrite (proj2 (Z.ltb_ge _ _)) by lia.
    + intros Hle. assert (s_len (storage self) + (e - s_len (storage self)) <= s_capacity (storage self)) as Hfit
        by (unfold ALIGN in *; lia). by rewrite (Hstay Hfit).
    + intros o Ho. apply Hcon. lia.
    + split; [|exact Hnew1]. intros x Hx Hnot. destruct (Hf1 x Hx Hnot) as [Hx1 <-]. apply Hf2; auto.
  - apply wp_ret. unfold wp, update_. cbn [fst snd]. split_and!; try done.
    + split; cbn; [done|done|specialize (Hexact ltac:(lia)); unfold ALIGN in *; lia|]. intros o Ho. apply Hz. lia.
    + intros o Ho. cbn. destruct (Z.ltb_spec o (byte_len self)); [done|]. apply Hz. specialize (Hexact ltac:(lia)). unfold ALIGN in *. lia.
Qed.

Lemma malloc_store_valid self s o v : valid self s -> 0 <= o < byte_len self -> valid self (store (base self + o) v s).
Proof.
  intros [Hb Hbase Hl Hz] Ho. pose proof Hb as [Hs Hcap Hptr Hm Hrw]. unfold ALIGN in *. split; [split|..]; try done.
  - apply (space_ok_touched (base self + o) 1 s); [done|apply store_touched|]. intros x Hx.
    apply (buffer_mapped (storage self)); [done|]. unfold in_buffer, ALIGN. lia.
  - intros x Hx. rewrite store_at. destruct (Z.eqb_spec x (base self + o)) as [->|]; [cbn|]; by apply Hrw.
  - intros o' Ho'. rewrite store_at, (proj2 (Z.eqb_neq _ _)) by lia. by apply Hz.
Qed.

#[global] Program Instance malloc_laws : LinearMemoryLaws t := {
  Allocations.valid := valid;
  owns self := in_buffer (storage self);
  guard_of _ := 0;
  limit _ := None;
  growable := true;
}.
Next Obligation. intros a s [Hb _ _ _]. apply Hb. Qed.
Next Obligation.
  intros a s [Hb Hbase Hl Hz]. pose proof Hb as [Hs Hcap Hptr Hm Hrw]. cbn. unfold ALIGN in *.
  eexists. split; [done|]. lia.
Qed.
Next Obligation.
  intros a s o [Hb Hbase Hl Hz] Ho. pose proof Hb as [Hs Hcap Hptr Hm Hrw]. cbn in *. apply Hrw. unfold in_buffer, ALIGN in *. lia.
Qed.
Next Obligation. intros a s cap x _ _ Hx. cbn in *. lia. Qed.
Next Obligation.
  intros a s o _ [Hb Hbase Hl Hz] Ho. pose proof Hb as [Hs Hcap Hptr Hm Hrw]. cbn in *. unfold in_buffer, ALIGN in *. lia.
Qed.
Next Obligation. intros a s o v. apply malloc_store_valid. Qed.
Next Obligation.
  intros a s s' [[Hs Hcap Hptr Hmp Hrw] Hbase Hl Hz] Hm Hc. split; [split|..]; try done.
  - by apply (valid_same_space s).
  - by rewrite Hm.
  - intros x Hx. rewrite Hc. by apply Hrw.
  - intros o Ho. rewrite Hc. by apply Hz.
Qed.
Next Obligation.
  intros a s n cap _ _ Hv. cbn. intros [= <-] Hn _.
  eapply wp_mono; [by apply (malloc_grow_to_wp a s n Hv Hn)|..].
  - intros [] [a' s'] (Hv' & ? & ? & Hle & ? & ?). cbn in *. split_and!; try done.
    exists (s_capacity (storage a') * ALIGN). unfold ALIGN in *. split_and!; [done|lia|]. intros Hn'.
    destruct (Hle ltac:(lia)) as [-> ->]. done.
  - intros e p ->. cbn. split_and!; try done. intros o Ho. by rewrite (proj2 (Z.ltb_lt _ _)) by lia.
Qed.
Next Obligation. done. Qed.
Next Obligation. done. Qed.

(** A new memory: zeros. *)
Definition created (minimum : Z) (s : AddressSpace) (self : t) (s' : AddressSpace) : Prop :=
  valid self s' /\ byte_len self = minimum /\
  (forall o, 0 <= o < minimum -> value (cell_at s' (base self + o)) = 0) /\ frame (fun _ => False) s s' /\
  forall x, in_buffer (storage self) x -> ~ mapped_at s x.

Lemma empty_ok s : space_ok s -> buffer_ok empty_storage s.
Proof. intros Hs. split; cbn; try done; unfold in_buffer, ALIGN; cbn; lia. Qed.

Lemma frame_buffer v (own : Z -> Prop) s s' : s_capacity v = 0 -> frame (in_buffer v) s s' -> frame own s s'.
Proof. intros E Hf x Hx _. apply Hf; [done|]. unfold in_buffer, ALIGN. rewrite E. lia. Qed.

Lemma new_storage_wp elements initial s : space_ok s -> 0 <= initial <= elements ->
  wp (try_reserve elements ;;; (if 0 <? initial then grow_storage_to initial else ret tt) ;;; gets fst)
    (fun v p => p.1 = v /\ buffer_ok v p.2 /\ s_len v = initial /\
       (forall o, 0 <= o < ALIGN * initial -> value (cell_at p.2 (s_ptr v + o)) = 0) /\ frame (fun _ => False) s p.2 /\
       forall x, in_buffer v x -> ~ mapped_at s x)
    (fun _ p => p = (empty_storage, s)) (empty_storage, s).
Proof.
  intros Hs Hi. apply wp_bind. eapply wp_mono; [apply (try_reserve_wp elements _ s); [by apply empty_ok|lia]| |done].
  intros [] [v1 s1] (Hb1 & Hl1 & Hc1 & _ & _ & _ & Hf1 & Hnew). cbn [fst snd] in *. cbn in Hl1, Hc1.
  apply (frame_buffer empty_storage (fun _ => False)) in Hf1; [|done].
  assert (forall x, in_buffer v1 x -> ~ mapped_at s x) as Hfresh.
  { intros x Hx Hm. apply (Hnew x Hm); [|done]. unfold in_buffer, ALIGN. cbn. lia. }
  apply wp_bind. destruct (Z.ltb_spec 0 initial).
  - eapply wp_mono; [apply (grow_storage_to_wp initial v1 s1 (fun _ _ => False) Hb1); lia| |done].
    intros [] [v2 s2] (Ev2 & Hb2 & Hval & Hf2). cbn [fst snd s_ptr] in *. subst v2. unfold wp, gets. cbn [fst snd s_ptr s_len].
    pose proof (b_len _ _ Hb1). split_and!; try done.
    + intros o Ho. rewrite Hval by (unfold ALIGN in *; lia). rewrite Hl1.
      rewrite (proj2 (Z.leb_le _ _)), (proj2 (Z.ltb_lt _ _)) by (unfold ALIGN in *; lia). done.
    + intros x Hx Hno. destruct (Hf1 x Hx Hno) as [Hx1 <-]. apply Hf2; [done|]. apply Hnew; [done|].
      unfold in_buffer, ALIGN. cbn. lia.
  - apply wp_ret. unfold wp, gets. cbn [fst snd]. assert (initial = 0) as -> by lia. split_and!; try done. unfold ALIGN. lia.
Qed.

Lemma malloc_new_wp mt minimum s : MemoryTunables.valid mt -> space_ok s -> 0 <= minimum <= usize_MAX ->
  wp (new mt minimum) (fun self s' => created minimum s self s' /\
      MemoryTunables.guard_size mt = 0 /\ MemoryTunables.reservation mt = 0) (fun _ s' => s' = s) s.
Proof.
  intros [Hr Hg Hgr _] Hs Hmin. unfold new. destruct (Z.ltb_spec 0 (MemoryTunables.guard_size mt)); [done|].
  destruct (Z.ltb_spec 0 (MemoryTunables.reservation mt)); [done|]. destruct (memory_init_cow _); [done|].
  unfold checked_add, ok_or. destruct (Z.leb_spec (minimum + MemoryTunables.reservation_for_growth mt) usize_MAX); [|done].
  destruct (elements_spec minimum ltac:(lia)) as (Hm0 & Hm1 & Hm2 & Hm3).
  destruct (elements_spec (minimum + MemoryTunables.reservation_for_growth mt) ltac:(lia)) as (He0 & He1 & He2 & He3).
  set (elements := byte_size_to_element_len (minimum + MemoryTunables.reservation_for_growth mt)) in *. set (initial := byte_size_to_element_len minimum) in *.
  apply wp_bind, wp_ret, wp_bind.
  pose proof (new_storage_wp elements initial s Hs ltac:(unfold ALIGN in *; lia)) as Hw. unfold wp in Hw |- *. cbv zeta.
  change (byte_size_to_element_len (minimum + MemoryTunables.reservation_for_growth mt)) with elements.
  destruct (bind (try_reserve elements) _ (empty_storage, s)) as [v [v' s']|e p|]; [|by rewrite Hw|done].
  destruct Hw as (Ev & Hb & Hl & Hz & Hf & Hfresh). cbn [fst snd] in *. subst v'. cbn. pose proof (b_ptr _ _ Hb). pose proof (b_len _ _ Hb).
  assert (minimum <= ALIGN * initial) as Hfit by (unfold ALIGN in *; lia).
  split; [split_and!; try done; [split; cbn; rewrite ?Hl; try done; [lia|]|]|lia].
  - intros o Ho. apply Hz. lia.
  - intros o Ho. apply Hz. lia.
Qed.
End laws.
End MallocLaws.

(** ** Memories of the pool keep the promise

    Their pages are the slot's; without an image they do not grow. *)

Module StaticLaws.
Import StaticMemory.
Section laws.
Context `{Host} `{OS}.

Record valid (self : t) (s : AddressSpace) : Prop := {
  v_space : space_ok s;
  v_size : 0 <= size self <= capacity self;
  v_base : 0 < base self /\ base self + capacity self <= 2 ^ 47;
  v_rw o : 0 <= o < capacity self -> readwrite (cell_at s (base self + o)) = (o <? round_up (size self));
  v_zero o : size self <= o < capacity self -> value (cell_at s (base self + o)) = 0;
}.

#[global] Program Instance static_laws : LinearMemoryLaws t := {
  Allocations.valid := valid;
  owns _ _ := False;
  guard_of _ := 0;
  limit _ := None;
  growable := false;
}.
Next Obligation. intros a s Hv. apply Hv. Qed.
Next Obligation. intros a s [? ? ? _ _]. exists (capacity a). cbn. split; [done|lia]. Qed.
Next Obligation.
  intros a s o [_ ? _ Hrw _] Ho. cbn in *. destruct (round_up_bounds (size a)); [lia|]. rewrite Hrw by lia. apply Z.ltb_lt. lia.
Qed.
Next Obligation. intros a s cap x _ _ Hx. cbn in *. lia. Qed.
Next Obligation. done. Qed.
Next Obligation.
  intros a s o v [Hs Hsz Hb Hrw Hz] Ho. cbn in *. destruct (round_up_bounds (size a)) as [_ ?]; [lia|]. split; try done.
  - apply (space_ok_touched (base a + o) 1 s); [done|apply store_touched|]. intros x Hx. assert (x = base a + o) as -> by lia.
    apply (so_access _ Hs). rewrite Hrw by lia. apply Z.ltb_lt. lia.
  - intros o' Ho'. rewrite store_at. destruct (Z.eqb_spec (base a + o') (base a + o)) as [E|]; [cbn; rewrite <- E|]; by apply Hrw.
  - intros o' Ho'. rewrite store_at, (proj2 (Z.eqb_neq _ _)) by lia. by apply Hz.
Qed.
Next Obligation.
  intros a s s' [Hs Hsz Hb Hrw Hz] Hm Hc. split; try done.
  - by apply (valid_same_space s).
  - intros o Ho. rewrite Hc. by apply Hrw.
  - intros o Ho. rewrite Hc. by apply Hz.
Qed.
Next Obligation. done. Qed.
Next Obligation.
  intros a s cap o _ [_ _ _ Hrw Hz]. cbn. intros [= <-] Ho. split; [by apply Hrw|]. intros ?. apply Hz. lia.
Qed.
Next Obligation.
  intros a s s' n cap len _ [Hs Hsz Hb Hrw Hz]. cbn. intros [= <-] Hn Hle _ Hm Hout Hacc Hrw' Hz'. eexists. split; [done|].
  split_and!; try done. split; cbn; try done; [|lia].
  destruct Hs as [Hr Hd Ha]. split; [intros m; rewrite Hm; auto|intros m m'; rewrite Hm; auto|auto].
Qed.
End laws.
End StaticLaws.
