(* ===== verification/LinearMemory.v ===== *)
(** * Linear memories

    runtime/vm/memory.rs: the memory of an instance over one of the allocations of
    Allocations.v, with an optional copy-on-write image (CowSlot.v): the limits it
    is created with, its creation, its growth under the store's limiter, and
    the addresses a fault may be at.

    Shown, for any allocation that obeys its laws: growth never panics and, over
    the whole range of a 64-bit number of pages, never wraps around; it answers the old size,
    keeps the contents, adds zeros, leaves other mappings alone and moves the
    base only past the capacity of a memory that may move; a growth that fails,
    in the limits, the limiter, the allocator or any system call, changes nothing the guest
    can see.  MemorySafety.v draws from the invariant what compiled code relies
    on. *)

From S2P Require Import Prelude MemoryTypes SlabLayout CowSlot Allocations.

(** ** The memory of an instance *)

(** The store's limiter, as the embedder wrote it: to allow a growth or not, or to
    raise an error, and what to make of a failure. *)
Record Limiter := mkLimiter {
  memory_growing : Z -> Z -> option Z -> option bool;
  memory_grow_failed : PoolError -> bool
}.

(** The code of an error that is dropped or given to the limiter. *)
Definition catch {S E E' A} (m : M S E A) : M S E' (E + A) := fun s =>
  match m s with Ret a s' => Ret (inr a) s' | Fail e s' => Ret (inl e) s' | Panic => Panic end.

Section limits.
Context (ty : Memory.t) (limiter : option Limiter).

Definition usize_of (n : option Z) : option Z := b ← n; try_from usize_MAX b.

Definition absolute_max : Z := (0 - Memory.page_size ty) mod 2 ^ 64.

Definition memory_growing_ (current desired : Z) (maximum : option Z) : M AddressSpace PoolError bool :=
  match limiter with
  | Some l => ok_or (memory_growing l current desired maximum) LimiterError
  | None => ret true
  end.

Definition memory_grow_failed_ (e : PoolError) : M AddressSpace PoolError unit :=
  match limiter with
  | Some l => if memory_grow_failed l e then ret tt else fail LimiterError
  | None => ret tt
  end.

(** [Memory::limit_new]. *)
Definition limit_new : M AddressSpace PoolError (Z * option Z) :=
  let minimum := usize_of (Memory.minimum_byte_size ty) in
  let maximum := usize_of (Memory.maximum_byte_size ty) in
  allowed <- memory_growing_ 0 (default absolute_max minimum) maximum ;;
  if negb allowed then fail LimitExceeded
  else
    minimum <- ok_or minimum LimitExceeded ;;
    if negb (Memory.allow_growth_to ty minimum) then fail LimitExceeded
    else ret (minimum, maximum).
End limits.

Module LocalMemory.
Record t {A : Type} := mk {
  alloc : A;
  ty : Memory.t;
  memory_may_move : bool;
  memory_guard_size : Z;
  memory_reservation : Z;
  memory_image : option MemoryImageSlot
}.
#[global] Arguments t : clear implicits.
#[global] Arguments mk {A} _ _ _ _ _ _.

Section local_memory.
Context `{Host} `{OS} {A : Type} `{!RuntimeLinearMemory A} (images : Z -> MemoryImage).
Abbreviation AM := (M AddressSpace PoolError).
Abbreviation LM := (M (t A * AddressSpace) PoolError).

Definition set_alloc (a : A) (self : t A) : t A :=
  mk a (ty self) (memory_may_move self) (memory_guard_size self) (memory_reservation self) (memory_image self).
Definition set_memory_image (i : option MemoryImageSlot) (self : t A) : t A :=
  mk (alloc self) (ty self) (memory_may_move self) (memory_guard_size self) (memory_reservation self) i.

(** The slot of an image over the start of a new memory. *)
Definition image_slot (ty : Memory.t) (mt : MemoryTunables.t) (a : A) (image : Z) : AM (option MemoryImageSlot) :=
  if byte_size a mod host_page_size =? 0 then
    rust_assert base_mmap ;;;
    capacity <- unwrap (byte_capacity a) ;;
    fun s => match instantiate images (byte_size a) (Some image) (relies_on_vm ty mt)
                     (create (base_ptr a) (byte_size a) capacity, space s) with
             | Ret _ (slot, sp) => Ret (Some slot) (mkAddressSpace sp (mappings s))
             | Fail e (_, sp) => Fail e (mkAddressSpace sp (mappings s))
             | Panic => Panic
             end
  else ret None.

Definition new (ty : Memory.t) (mt : MemoryTunables.t) (a : A) (image : option Z) : AM (t A) :=
  slot <- on_err (match image with Some i => image_slot ty mt a i | None => ret None end) (drop_alloc a) ;;
  ret (mk a ty (Memory.memory_may_move ty mt) (MemoryTunables.guard_size mt) (MemoryTunables.reservation mt) slot).

Definition on_alloc {B} (m : M (A * AddressSpace) PoolError B) : LM B :=
  zoom (fun p => (alloc p.1, p.2)) (fun q p => (set_alloc q.1 p.1, q.2)) m.

(** A method of the slot of the image. *)
Definition on_image {B} (slot : MemoryImageSlot) (m : M (MemoryImageSlot * Space) PoolError B) : LM B :=
  zoom (fun p => (slot, space p.2))
    (fun q p => (set_memory_image (Some q.1) p.1, mkAddressSpace q.2 (mappings p.2))) m.

(** The closure of [grow]: what the limiter allowed, done. *)
Definition grow_allocation (new_byte_size : Z) (maximum : option Z) : LM unit :=
  self <- self_ (fun m => m) ;;
  capacity <- unwrap (byte_capacity (alloc self)) ;;
  (match maximum with
   | Some max => if max <? new_byte_size then fail MaximumExceeded else ret tt
   | None => ret tt
   end) ;;;
  if negb (memory_may_move self) && (capacity <? new_byte_size) then fail MaximumExceeded
  else
    match memory_image self with
    | Some slot =>
        if new_byte_size <=? capacity then
          on_image slot (set_heap_limit new_byte_size) ;;;
          set <- unwrap (set_byte_size new_byte_size) ;;
          on_alloc (update_ set)
        else
          rust_assert (memory_may_move self) ;;;
          update_ (set_memory_image None) ;;;
          on_alloc (grow_to new_byte_size)
    | None => on_alloc (grow_to new_byte_size)
    end.

Definition new_size (ty : Memory.t) (old delta_pages : Z) : Z :=
  let page_size := Memory.page_size ty in
  let delta := default usize_MAX (try_from usize_MAX delta_pages) in
  Z.min (saturating_add usize_MAX (Z.min (delta * page_size) usize_MAX) old) (absolute_max ty).

Definition grow (delta_pages : Z) (limiter : option Limiter) : LM (option (Z * Z)) :=
  self <- self_ (fun m => m) ;;
  let old_byte_size := byte_size (alloc self) in
  if delta_pages =? 0 then ret (Some (old_byte_size, old_byte_size))
  else
    let new_byte_size := new_size (ty self) old_byte_size delta_pages in
    let maximum := usize_of (Memory.maximum_byte_size (ty self)) in
    if negb (Memory.allow_growth_to (ty self) new_byte_size) then
      on_os (memory_grow_failed_ limiter LimitExceeded) ;;; ret None
    else
      allowed <- on_os (memory_growing_ limiter old_byte_size new_byte_size maximum) ;;
      if negb allowed then ret None
      else
        capacity <- unwrap (byte_capacity (alloc self)) ;;
        result <- catch (grow_allocation new_byte_size maximum) ;;
        match result with
        | inr _ =>
            after <- self_ (fun m => base_ptr (alloc m)) ;;
            (if new_byte_size <=? capacity then rust_assert (base_ptr (alloc self) =? after) else ret tt) ;;;
            ret (Some (old_byte_size, new_byte_size))
        | inl e => on_os (memory_grow_failed_ limiter e) ;;; ret None
        end.

(** The bytes that a fault may be at, as an address and a length. *)
Definition wasm_accessible (self : t A) : option (Z * Z) :=
  capacity ← byte_capacity (alloc self);
  Some (base_ptr (alloc self), Z.max capacity (memory_reservation self) + memory_guard_size self).
End local_memory.
End LocalMemory.

(** ** Creation *)

(** What [DefaultMemoryCreator] makes. *)
Inductive DynMemory :=
| DynMmap (m : LocalMemory.t MmapMemory.t)
| DynMalloc (m : LocalMemory.t MallocMemory.t).

Definition use_mmap (mt : MemoryTunables.t) : bool :=
  signals_based_traps (MemoryTunables.tunables mt) || (0 <? MemoryTunables.guard_size mt)
  || (0 <? MemoryTunables.reservation mt) || memory_init_cow (MemoryTunables.tunables mt).

Section creation.
Context `{Host} `{OS} `{!Mapper} `{!Allocator} (images : Z -> MemoryImage).
Abbreviation AM := (M AddressSpace PoolError).

(** [Memory::new_dynamic] of a memory that is not shared. *)
Definition new_dynamic (ty : Memory.t) (mt : MemoryTunables.t) (image : option Z) (limiter : option Limiter) : AM DynMemory :=
  p <- limit_new ty limiter ;;
  if use_mmap mt then
    a <- MmapMemory.new ty mt p.1 p.2 ;;
    on_err try_new (drop_alloc a) ;;;
    m <- LocalMemory.new images ty mt a image ;;
    ret (DynMmap m)
  else
    a <- MallocMemory.new mt p.1 ;;
    on_err try_new (drop_alloc a) ;;;
    m <- LocalMemory.new images ty mt a image ;;
    ret (DynMalloc m).

(** [Memory::new_static]: in a slot of the pool. *)
Definition new_static (ty : Memory.t) (mt : MemoryTunables.t) (base base_capacity : Z) (slot : MemoryImageSlot)
    (limiter : option Limiter) : AM (LocalMemory.t StaticMemory.t) :=
  p <- limit_new ty limiter ;;
  a <- StaticMemory.new base base_capacity p.1 p.2 ;;
  try_new ;;;
  m <- LocalMemory.new images ty mt a None ;;
  rust_assert (match LocalMemory.memory_image m with None => true | Some _ => false end) ;;;
  if Memory.shared ty then panic
  else ret (LocalMemory.mk (LocalMemory.alloc m) ty false (LocalMemory.memory_guard_size m)
              (LocalMemory.memory_reservation m) (Some slot)).
End creation.

(** ** The invariant *)

Section invariant.
Context `{Host} `{OS} {A : Type} `{!RuntimeLinearMemory A} `{!LinearMemoryLaws A} (images : Z -> MemoryImage).
Import LocalMemory.

(** An image over the memory: its slot covers the capacity and is accessible as
    far as the memory is. *)
Record image_ok (self : t A) (slot : MemoryImageSlot) (s : AddressSpace) : Prop := {
  im_mmap : base_mmap = true;
  im_base : base slot = base_ptr (alloc self);
  im_static cap : byte_capacity (alloc self) = Some cap -> cap <= static_size slot /\ (growable = true -> static_size slot = cap);
  im_mapped x : base slot <= x < base slot + static_size slot -> mapped_at s x;
  im_use : in_use images slot (cells (space s));
  im_accessible : accessible slot = round_up (byte_size (alloc self));
  im_moves : memory_may_move self = true -> growable = true;
}.

Record local_ok (self : t A) (s : AddressSpace) : Prop := {
  lo_alloc : valid (alloc self) s;
  lo_type : Memory.valid (ty self);
  lo_limit mx : limit (alloc self) = Some mx -> usize_of (Memory.maximum_byte_size (ty self)) = Some mx;
  lo_image : match memory_image self with None => growable = true | Some slot => image_ok self slot s end;
}.

(** Growing never touches what is not the memory's or its image's. *)
Definition local_owns (self : t A) (x : Z) : Prop :=
  owns (alloc self) x \/
  match memory_image self with Some slot => base slot <= x < base slot + static_size slot | None => False end.

Definition size (self : t A) : Z := byte_size (alloc self).
Definition start (self : t A) : Z := base_ptr (alloc self).
Definition cap (self : t A) : Z := default 0 (byte_capacity (alloc self)).

(** What the rest of the runtime knows of a memory that growth leaves as it is. *)
Definition same_config (self self' : t A) : Prop :=
  ty self' = ty self /\ memory_may_move self' = memory_may_move self /\
  memory_guard_size self' = memory_guard_size self /\ memory_reservation self' = memory_reservation self /\
  limit (alloc self') = limit (alloc self) /\ guard_of (alloc self') = guard_of (alloc self) /\ cap self <= cap self'.

(** Growth to [n] bytes. *)
Record grown_to (self : t A) (s : AddressSpace) (n : Z) (self' : t A) (s' : AddressSpace) : Prop := {
  gt_ok : local_ok self' s';
  gt_config : same_config self self';
  gt_size : size self' = n;
  gt_base : n <= cap self -> start self' = start self /\ cap self' = cap self;
  gt_contents : extends_contents (start self) (start self') (size self) n s s';
  gt_isolated : isolated (local_owns self) (local_owns self') s s';
}.

(** A failed growth may have given up the image, which is not read again. *)
Definition not_grown (self : t A) (s : AddressSpace) (self' : t A) (s' : AddressSpace) : Prop :=
  grown_to self s (size self) self' s' /\ alloc self' = alloc self.

Lemma cap_eq self s : local_ok self s -> byte_capacity (alloc self) = Some (cap self) /\
  0 <= size self <= cap self /\ 0 <= guard_of (alloc self) /\ 0 < start self /\ start self + cap self + guard_of (alloc self) <= 2 ^ 47.
Proof.
  intros Hok. destruct (valid_size _ _ (lo_alloc _ _ Hok)) as (c & E & ?). unfold cap, size, start. by rewrite E.
Qed.

Lemma local_owns_contents self s o : local_ok self s -> 0 <= o < size self -> local_owns self (start self + o).
Proof.
  intros Hok Ho. destruct (cap_eq self s Hok) as (Hcap & ? & _). unfold local_owns.
  pose proof (lo_image _ _ Hok) as Him. destruct (memory_image self) as [slot|].
  - right. destruct Him as [_ Hb Hst _ _ _ _]. destruct (Hst _ Hcap) as [? _]. rewrite Hb. unfold start, size in *. lia.
  - left. by apply (owns_contents (alloc self) s); [|apply Hok|].
Qed.

Lemma same_config_refl self : same_config self self.
Proof. repeat split; done || lia. Qed.

Lemma contents_refl b n s s' : (forall o, 0 <= o < n -> value (cell_at s' (b + o)) = value (cell_at s (b + o))) ->
  extends_contents b b n n s s'.
Proof. intros Hc o Ho. rewrite (proj2 (Z.ltb_lt _ _)) by lia. by apply Hc. Qed.

Lemma not_grown_refl self s : local_ok self s -> not_grown self s self s.
Proof.
  intros Hok. split; [|done]. split; [done|apply same_config_refl|done|done|by apply contents_refl|by split; [apply mapped_frame_refl|]].
Qed.

(** Changing nothing but giving up the image. *)
Lemma not_grown_frame self s self' s' : local_ok self' s' -> alloc self' = alloc self -> same_config self self' ->
  (forall o, 0 <= o < size self -> value (cell_at s' (start self + o)) = value (cell_at s (start self + o))) ->
  isolated (local_owns self) (local_owns self') s s' -> not_grown self s self' s'.
Proof.
  intros Hok Ha Hcfg Hc Hf. split; [|done]. split; try done.
  - unfold size. by rewrite Ha.
  - intros _. unfold start, cap. by rewrite Ha.
  - unfold start. rewrite Ha. by apply contents_refl.
Qed.

Lemma isolated_alloc self self' s s' : memory_image self' = None ->
  isolated (owns (alloc self)) (owns (alloc self')) s s' -> isolated (local_owns self) (local_owns self') s s'.
Proof.
  intros Hi [Hf Hn]. split; [intros x Hx Hno|intros x Hx Hno [Hx'|Hx']].
  - apply Hf; [done|]. intros ?. apply Hno. by left.
  - apply (Hn x Hx); [|done]. intros ?. apply Hno. by left.
  - by rewrite Hi in Hx'.
Qed.

(** ** Growth *)

Section grow.
Context (Hat : atomic_failures) (self : t A) (s : AddressSpace) (Hok : local_ok self s).

Lemma on_alloc_wp {B} (m : M (A * AddressSpace) PoolError B) (self' : t A) s' P Q :
  wp m (fun b q => P b (set_alloc q.1 self', q.2)) (fun e q => Q e (set_alloc q.1 self', q.2)) (alloc self', s') ->
  wp (on_alloc m) P Q (self', s').
Proof. unfold wp, on_alloc, zoom. cbn. by destruct (m _). Qed.

(** Without the image, the allocation grows by itself. *)
Lemma grow_alloc_wp n (self' : t A) : growable = true -> memory_image self' = None -> alloc self' = alloc self ->
  ty self' = ty self -> memory_may_move self' = memory_may_move self -> memory_guard_size self' = memory_guard_size self ->
  memory_reservation self' = memory_reservation self -> size self <= n <= usize_MAX ->
  (forall mx, usize_of (Memory.maximum_byte_size (ty self)) = Some mx -> n <= mx) ->
  wp (on_alloc (grow_to n)) (fun _ p => grown_to self s n p.1 p.2) (fun _ p => not_grown self s p.1 p.2) (self', s).
Proof.
  intros Hg Hi Ea Ety Emv Egd Ers Hn Hmax. destruct (cap_eq self s Hok) as (Hcap & _). apply on_alloc_wp. rewrite Ea.
  eapply wp_mono; [apply (grow_to_spec _ s n (cap self)); try done|..].
  - apply Hok.
  - intros mx Hm. apply Hmax. by apply (lo_limit _ _ Hok).
  - intros [] [a' s'] Hpost. cbn [fst snd] in *. destruct Hpost as (Hv & Hsz & Hlim & Hgd & (cap' & Ecap & Hle & Hstay) & Hcon & Hfr).
    assert (cap (set_alloc a' self') = cap') as Ec by (unfold cap; cbn; by rewrite Ecap).
    split; cbn [fst snd].
    + split; cbn; [done|rewrite Ety; apply Hok|intros mx; rewrite Hlim, Ety; apply (lo_limit _ _ Hok)|by rewrite Hi].
    + split_and!; try done. by rewrite Ec.
    + done.
    + intros Hle'. rewrite Ec. by apply Hstay.
    + done.
    + by apply isolated_alloc.
  - intros e [a' s'] (E & Hv & Hcon & Hfr). cbn [fst snd] in *. subst a'.
    apply not_grown_frame; [split|..]; cbn; rewrite ?Hi; try done.
    + rewrite Ety. apply Hok.
    + intros mx. rewrite Ety. apply (lo_limit _ _ Hok).
    + intros o Ho. rewrite Hcon by done. by rewrite (proj2 (Z.ltb_lt _ _)) by (unfold size in *; lia).
    + by apply isolated_alloc.
Qed.

(** Under an image the slot makes the bytes accessible. *)
Lemma grow_image_wp slot n : memory_image self = Some slot -> size self <= n <= cap self ->
  wp (on_image slot (set_heap_limit n) ;;; set <- unwrap (set_byte_size n) ;; on_alloc (update_ set))
    (fun _ p => grown_to self s n p.1 p.2) (fun _ p => not_grown self s p.1 p.2) (self, s).
Proof.
  intros Ei Hn. destruct (cap_eq self s Hok) as (Hcap & Hsz & _ & Hst & H47). pose proof (lo_image _ _ Hok) as Him. rewrite Ei in Him.
  destruct Him as [Hmm Hb Hstat Hmap Huse Hacc Hmv]. destruct (Hstat _ Hcap) as [Hle Hlen].
  apply wp_bind. unfold wp at 1, on_image, zoom. cbn [snd fst].
  pose proof (set_heap_limit_wp images slot (space s) n Huse ltac:(lia)) as Hw. unfold wp in Hw.
  destruct (set_heap_limit n (slot, space s)) as [[] [slot' sp']|e [slot' sp']|]; cbn [fst snd] in *; [|destruct Hw as [_ Hw]|done].
  - destruct Hw as [(Eb & Es & Hout) (Huse' & Hna & _ & Htight & Eimg & Hval)]. cbn [fst snd] in *.
    set (s' := mkAddressSpace sp' (mappings s)). destruct (round_up_bounds (size self)) as [_ ?]; [lia|].
    assert (accessible slot' = round_up n) as Hacc'.
    { destruct Huse' as (_ & [_ [Hal _] _ _] & _). apply round_up_unique; [lia|done|].
      unfold size in *. destruct Htight; lia. }
    assert (forall o, 0 <= o < static_size slot -> readwrite (cell_at s' (start self + o)) = (o <? round_up n)) as Hrw.
    { intros o Ho. destruct Huse' as (_ & _ & Hmd). destruct (Hmd o ltac:(lia)) as (_ & Hr & _).
      rewrite Hacc', Eb, Hb in Hr. exact Hr. }
    assert (forall o, 0 <= o < cap self -> value (cell_at s' (start self + o)) = value (cell_at s (start self + o))) as Hv'.
    { intros o Ho. specialize (Hval o ltac:(lia)). rewrite Hb in Hval. exact Hval. }
    destruct (image_resized (alloc self) s s' n (cap self) (static_size slot)) as (f & Ef & Hf1 & Hf2 & Hf3 & Hf4 & Hf5 & Hf6 & Hf7);
      try done; [apply Hok|intros x Hx; apply Hout; by rewrite Hb|..].
    { intros x Hx. destruct (decide (base slot <= x < base slot + static_size slot)) as [Hin|Hnot]; [by apply Hmap|].
      apply (so_access s); [apply (valid_space (alloc self)), Hok|]. rewrite <- Hx. unfold s', cell_at. cbn. by rewrite Hout. }
    { intros o Ho. apply Hrw. lia. }
    { intros o Ho. fold (start self). rewrite (Hv' o) by lia. apply (image_view (alloc self) s (cap self) o); try done; [apply Hok|lia|unfold size in *; lia]. }
    apply wp_bind, (wp_unwrap _ f); [done|]. apply on_alloc_wp. unfold wp, update_. cbn [fst snd alloc set_memory_image].
    assert (cap (set_alloc (f (alloc self)) (set_memory_image (Some slot') self)) = cap self) as Ecap.
    { unfold cap at 1. cbn. by rewrite Hf6. }
    assert (base slot' = base slot /\ static_size slot' = static_size slot) as [Eb' Es'] by done.
    split; cbn [fst snd].
    + split; cbn [alloc ty memory_image set_alloc set_memory_image]; [done|apply Hok|rewrite Hf3; apply Hok|].
      split; cbn [alloc ty memory_image memory_may_move set_alloc set_memory_image]; rewrite ?Eb', ?Es', ?Hf2, ?Hf5, ?Hf6; try done.
      by intros c [= <-].
    + split_and!; try done. by rewrite Ecap.
    + done.
    + by intros _.
    + intros o Ho. unfold start at 1. cbn. rewrite Hf5. fold (start self). rewrite Hv' by lia.
      destruct (Z.ltb_spec o (size self)); [done|].
      apply (image_view (alloc self) s (cap self) o); try done; [apply Hok|lia].
    + split; [intros x Hx Hnot; split; [done|]; apply Hout; intros Hin; apply Hnot; right; by rewrite Ei|].
      intros x Hx Hnot [Ho|Ho]; apply Hnot; [left; by apply Hf7|right]. cbn in Ho. by rewrite Ei, <- Eb', <- Es'.
  - destruct (Hw Hat) as [-> Hc]. apply not_grown_frame.
    + split; cbn [alloc ty memory_image set_memory_image]; [|apply Hok|apply Hok|].
      * by apply (valid_ext _ s); [apply Hok|..].
      * split; cbn [alloc ty memory_image memory_may_move set_memory_image]; try done.
        destruct Huse as (? & ? & Hmd). split_and!; [done|done|]. intros o Ho. destruct (Hmd o Ho) as (? & ? & ?).
        cbn [space]. by rewrite Hc.
    + done.
    + split_and!; done.
    + intros o Ho. unfold cell_at. cbn [space]. by rewrite Hc.
    + split; [by apply mapped_frame_refl|]. intros x Hx Hnot [Ho|Ho]; apply Hnot; [by left|right]. by rewrite Ei.
Qed.

Lemma grow_allocation_wp n maximum : maximum = usize_of (Memory.maximum_byte_size (ty self)) -> size self <= n <= usize_MAX ->
  wp (grow_allocation n maximum)
    (fun _ p => grown_to self s n p.1 p.2 /\ (forall mx, maximum = Some mx -> n <= mx) /\
       (n <= cap self \/ memory_may_move self = true))
    (fun _ p => not_grown self s p.1 p.2) (self, s).
Proof.
  intros Emax Hn. destruct (cap_eq self s Hok) as (Hcap & Hsz & _). pose proof (not_grown_refl self s Hok) as Hrefl.
  unfold grow_allocation. apply wp_bind, (wp_run _ _ _ _ self (self, s)); [done|].
  apply wp_bind, (wp_unwrap _ (cap self)); [done|]. apply wp_bind.
  apply (wp_mono _ (fun _ p => p = (self, s) /\ forall mx, maximum = Some mx -> n <= mx) _ (fun _ p => p = (self, s))).
  { destruct maximum as [mx|]; [destruct (Z.ltb_spec mx n)|]; [done|apply wp_ret; split; [done|intros ? [= <-]; lia]|by apply wp_ret]. }
  2: { by intros e p ->. }
  intros [] p [-> Hmax]. destruct (negb (memory_may_move self) && (cap self <? n)) eqn:Emv; [done|].
  assert (n <= cap self \/ memory_may_move self = true) as Hmove.
  { apply andb_false_iff in Emv as [?%negb_false_iff|?%Z.ltb_ge]; auto. }
  assert (forall mx, usize_of (Memory.maximum_byte_size (ty self)) = Some mx -> n <= mx) as Hmax' by by rewrite <- Emax.
  pose proof (lo_image _ _ Hok) as Him. destruct (memory_image self) as [slot|] eqn:Ei.
  - destruct (Z.leb_spec n (cap self)) as [Hle|Hgt].
    + eapply wp_mono; [apply (grow_image_wp slot); [done|lia]| |done]. intros [] p Hg. auto.
    + destruct Hmove as [?|Hm]; [lia|]. apply wp_bind, wp_assert; [done|]. apply wp_bind. unfold wp at 1, update_. cbn [fst snd].
      eapply wp_mono; [apply (grow_alloc_wp n (set_memory_image None self))|intros [] p Hg; auto|done]; try done.
      by apply Him.
  - eapply wp_mono; [by apply (grow_alloc_wp n self)|intros [] p Hg; auto|done].
Qed.

(** The new size: the sum where it is not beyond every memory. *)
Lemma new_size_spec delta : 0 < delta <= u64_MAX ->
  let n := new_size (ty self) (size self) delta in
  size self <= n <= usize_MAX /\
  (n <= 2 ^ 47 -> n = size self + delta * Memory.page_size (ty self)).
Proof.
  intros Hd n. destruct (cap_eq self s Hok) as (_ & Hsz & Hg & Hst & H47). pose proof (lo_type _ _ Hok) as Hty.
  unfold n, new_size, absolute_max. rewrite try_from_in by (unfold usize_MAX, u64_MAX in *; lia). cbn [default from_option id].
  set (p := Memory.page_size (ty self)). assert (1 <= p <= 65536) as Hp.
  { unfold p. destruct (Memory.page_size_cases _ Hty) as [-> | ->]; lia. }
  replace ((0 - p) mod 2 ^ 64) with (2 ^ 64 - p) by (apply (Z.mod_unique _ _ (-1)); lia).
  unfold saturating_add, usize_MAX, u64_MAX in *. assert (0 < delta * p) by nia. unfold from_option, id. lia.
Qed.

Lemma local_on_os_wp {B} (m : M AddressSpace PoolError B) (self' : t A) s' P Q :
  wp m (fun b s => P b (self', s)) (fun e s => Q e (self', s)) s' -> wp (on_os m) P Q (self', s').
Proof. unfold wp, on_os, zoom. cbn. by destruct (m s'). Qed.

Lemma memory_grow_failed_wp limiter e s' : wp (memory_grow_failed_ limiter e) (fun _ p => p = s') (fun _ p => p = s') s'.
Proof. unfold wp, memory_grow_failed_. destruct limiter as [l|]; [|done]. by destruct (memory_grow_failed l e). Qed.

Lemma memory_growing_wp limiter a b c s' : wp (memory_growing_ limiter a b c) (fun _ p => p = s') (fun _ p => p = s') s'.
Proof. unfold wp, memory_growing_. destruct limiter as [l|]; [|done]. by destruct (memory_growing l a b c). Qed.

Lemma catch_wp {S E E' B} (m : M S E B) (P : E + B -> S -> Prop) (Q : E' -> S -> Prop) p :
  wp m (fun a => P (inr a)) (fun e => P (inl e)) p -> wp (catch m) P Q p.
Proof. unfold wp, catch. by destruct (m p). Qed.

(** A growth that succeeds, by [delta] pages from the old size. *)
Definition grew (delta : Z) (r : Z * Z) (p : t A * AddressSpace) : Prop :=
  r = (size self, size self + delta * Memory.page_size (ty self)) /\ grown_to self s r.2 p.1 p.2 /\
  (0 < delta -> Memory.allow_growth_to (ty self) r.2 = true /\
     forall mx, Memory.maximum_byte_size (ty self) = Some mx -> r.2 <= mx) /\
  (memory_may_move self = false -> start p.1 = start self /\ cap p.1 = cap self).

Lemma usize_of_maximum mx : Memory.maximum_byte_size (ty self) = Some mx ->
  usize_of (Memory.maximum_byte_size (ty self)) = Some mx.
Proof.
  intros E. rewrite E. destruct (Memory.maximum_byte_size_Some _ (lo_type _ _ Hok) _ E) as (m & _ & ? & ?).
  unfold usize_of. cbn. apply try_from_in. unfold usize_MAX, u64_MAX in *. lia.
Qed.

Lemma grow_wp delta limiter : 0 <= delta <= u64_MAX ->
  wp (grow delta limiter)
    (fun r p => match r with Some r => grew delta r p | None => not_grown self s p.1 p.2 end)
    (fun _ p => not_grown self s p.1 p.2) (self, s).
Proof.
  intros Hd. pose proof (not_grown_refl self s Hok) as Hrefl. destruct (cap_eq self s Hok) as (Hcap & Hsz & Hgd & Hst & H47).
  unfold grow. apply wp_bind, (wp_run _ _ _ _ self (self, s)); [done|]. fold (size self). cbn zeta. destruct (Z.eqb_spec delta 0) as [->|Hne].
  { apply wp_ret. split_and!; cbn [fst snd]; try done; [f_equal; lia|apply Hrefl]. }
  destruct (new_size_spec delta ltac:(lia)) as [Hn Hexact]. set (n := new_size (ty self) (size self) delta) in *.
  destruct (Memory.allow_growth_to _ _) eqn:Eal; cbn [negb].
  2: { apply wp_bind, local_on_os_wp. eapply wp_mono; [apply memory_grow_failed_wp|by intros ? ? ->|by intros ? ? ->]. }
  apply wp_bind, local_on_os_wp. eapply wp_mono; [apply memory_growing_wp| |by intros ? ? ->]. intros allowed ? ->.
  destruct (negb allowed); [done|]. apply wp_bind, (wp_unwrap _ (cap self)); [done|].
  apply wp_bind, catch_wp. eapply wp_mono; [by apply (grow_allocation_wp n)|..].
  - intros [] [self' s'] (Hg & Hmax & Hmove). cbn [fst snd] in Hg. pose proof (gt_base _ _ _ _ _ Hg) as Hbase.
    destruct (cap_eq self' s' (gt_ok _ _ _ _ _ Hg)) as (_ & Hsz' & Hgd' & Hst' & H47').
    rewrite (gt_size _ _ _ _ _ Hg) in Hsz'.
    apply wp_bind, (wp_run _ _ _ _ (start self') (self', s')); [done|]. apply wp_bind.
    assert (grew delta (size self, n) (self', s')) as Hgrew.
    { unfold grew. rewrite <- Hexact by lia. cbn [fst snd]. split_and!; [done|done|..].
      - intros _. split; [done|]. intros mx Emx. by apply Hmax, usize_of_maximum.
      - intros Em. destruct Hmove as [Hle|?]; [by apply Hbase|congruence]. }
    destruct (Z.leb_spec n (cap self)) as [Hle|]; [|by apply wp_ret].
    apply wp_assert; [|by apply wp_ret]. apply Z.eqb_eq. fold (start self). symmetry. by apply Hbase.
  - intros e [self' s'] Hng. apply wp_bind, local_on_os_wp.
    eapply wp_mono; [apply memory_grow_failed_wp|by intros ? ? ->|by intros ? ? ->].
Qed.
End grow.
End invariant.

(** ** What a memory is created as *)

Section configured.
Context `{Host} `{OS} {A : Type} `{!RuntimeLinearMemory A} `{!LinearMemoryLaws A} (images : Z -> MemoryImage).
Context (ty : Memory.t) (mt : MemoryTunables.t).
Abbreviation t := (LocalMemory.t A).

(** A memory made for a type and a configuration: the compiler relies on these. *)
Record configured (self : t) : Prop := {
  cf_ty : LocalMemory.ty self = ty;
  cf_move : LocalMemory.memory_may_move self = Memory.memory_may_move ty mt;
  cf_guard_size : LocalMemory.memory_guard_size self = MemoryTunables.guard_size mt;
  cf_memory_reservation : LocalMemory.memory_reservation self = MemoryTunables.reservation mt;
  cf_guard : MemoryTunables.guard_size mt <= guard_of (LocalMemory.alloc self);
  cf_reservation : MemoryTunables.reservation mt <= cap self;
  cf_min : exists min, Memory.minimum_byte_size ty = Some min /\ min <= size self;
  cf_max mx : Memory.maximum_byte_size ty = Some mx -> size self <= mx;
  cf_pages : (Memory.page_size ty | size self);
  cf_allowed : Memory.allow_growth_to ty (size self) = true;
  cf_fixed min : base_mmap = true -> LocalMemory.memory_may_move self = false -> Memory.minimum_byte_size ty = Some min ->
    min <= MemoryTunables.reservation mt -> cap self <= round_up (MemoryTunables.reservation mt);
}.

Lemma configured_grown self s n self' s' : configured self -> grown_to images self s n self' s' -> size self <= n ->
  (Memory.page_size ty | n) -> Memory.allow_growth_to ty n = true ->
  (forall mx, Memory.maximum_byte_size ty = Some mx -> n <= mx) ->
  (LocalMemory.memory_may_move self = false -> cap self' = cap self) -> configured self'.
Proof.
  intros [Ety Emv Egd Ers Hg Hr (mn & Emn & Hmn) Hmax _ _ Hfix] [_ (E1 & E2 & E3 & E4 & E5 & E6 & Hle) Hsz _ _ _] Hn Hd Hal Hmx Hcap.
  split; [congruence..|by rewrite E6|lia| | |by rewrite Hsz|by rewrite Hsz|].
  - exists mn. split; [done|lia].
  - intros mx Hm. rewrite Hsz. by apply Hmx.
  - intros m Hb. rewrite E2. intros Em. rewrite (Hcap Em). by apply Hfix.
Qed.

Lemma configured_not_grown self s self' s' : configured self -> not_grown images self s self' s' -> configured self'.
Proof.
  intros Hc [Hg Ea]. apply (configured_grown self s _ self' s' Hc Hg); [lia|apply Hc|apply Hc|apply Hc|].
  intros _. unfold cap. by rewrite Ea.
Qed.

(** What growing a memory and storing to it keep, also when they fail. *)
Definition keeps (p q : t * AddressSpace) : Prop :=
  local_ok images q.1 q.2 /\ configured q.1 /\ isolated (local_owns p.1) (local_owns q.1) p.2 q.2 /\ size p.1 <= size q.1.

Lemma keeps_trans p q r : keeps p q -> keeps q r -> keeps p r.
Proof.
  intros (_ & _ & [Hf1 Hn1] & ?) (Hok & Hc & [Hf2 Hn2] & ?). split; [done|]. split; [done|]. split; [split|lia].
  - intros x Hx Hno. destruct (Hf1 x Hx Hno) as [Hx1 <-]. apply Hf2; auto.
  - intros x Hx Hno. destruct (Hf1 x Hx Hno) as [Hx1 _]. auto.
Qed.

Lemma grow_keeps p delta limiter : atomic_failures -> local_ok images p.1 p.2 -> configured p.1 -> 0 <= delta <= u64_MAX ->
  match LocalMemory.grow delta limiter p with Ret _ q | Fail _ q => keeps p q | Panic => False end.
Proof.
  destruct p as [self s]. cbn [fst snd]. intros Hat Hok Hc Hd.
  assert (forall q, not_grown images self s q.1 q.2 -> keeps (self, s) q) as Hng.
  { intros q Hn. pose proof (gt_size _ _ _ _ _ _ (proj1 Hn)).
    split_and!; [apply Hn|by eapply configured_not_grown|apply Hn|cbn; lia]. }
  pose proof (grow_wp images Hat self s Hok delta limiter Hd) as Hw. unfold wp in Hw.
  destruct (LocalMemory.grow delta limiter (self, s)) as [[r|] q|e q|]; auto.
  destruct Hw as (Er & Hg & Hmax & Hfix). pose proof (gt_size _ _ _ _ _ _ Hg) as Hsz.
  rewrite (cf_ty _ Hc) in *. subst r. cbn [fst snd] in *.
  assert (size self <= size self + delta * Memory.page_size ty) as Hle.
  { pose proof (Memory.page_size_cases _ (lo_type _ _ _ Hok)) as Hp. rewrite (cf_ty _ Hc) in Hp. nia. }
  split_and!; [apply Hg| |apply Hg|cbn; lia].
  apply (configured_grown self s _ q.1 q.2 Hc Hg Hle); [apply Z.divide_add_r; [apply Hc|apply Z.divide_factor_r]|..|by intros [_ ?]%Hfix];
    (destruct (decide (delta = 0)) as [->|]; [rewrite Z.mul_0_l, Z.add_0_r; apply Hc|apply Hmax; lia]).
Qed.

Lemma local_ok_store self s o v : local_ok images self s -> 0 <= o < size self ->
  local_ok images self (store (start self + o) v s).
Proof.
  intros [Ha Hty Hl Hi] Ho. split; try done; [by apply valid_store|].
  destruct (LocalMemory.memory_image self) as [slot|]; [|done]. destruct Hi as [? Hb Hs Hmap Huse Hacc ?].
  split; try done. destruct Huse as (Hd & Hwf & Hm). split_and!; [done|done|].
  destruct (round_up_bounds (size self)) as [_ ?]; [lia|].
  apply (mapped_store _ slot _ o v _ Hm); [unfold size in *; lia|]. intros x. cbn. unfold start. rewrite Hb.
  unfold cell_at. by destruct (Z.eqb_spec x (base_ptr (LocalMemory.alloc self) + o)) as [->|].
Qed.

Lemma store_keeps p o v : local_ok images p.1 p.2 -> configured p.1 -> 0 <= o < size p.1 ->
  keeps p (p.1, store (start p.1 + o) v p.2).
Proof.
  intros Hok Hc Ho. split_and!; [by apply local_ok_store|done| |done]. split; [|done]. intros x Hx Hno. split; [done|].
  cbn [snd]. rewrite store_at. destruct (Z.eqb_spec x (start p.1 + o)) as [->|]; [|done].
  exfalso. apply Hno. by apply (local_owns_contents images p.1 p.2).
Qed.
End configured.

(** ** Creating a memory *)

Section created.
Context `{Host} `{OS} `{!Mapper} `{!Allocator} (images : Z -> MemoryImage).
Context (Hat : atomic_failures) (ty : Memory.t) (mt : MemoryTunables.t).
Context (Hty : Memory.valid ty) (Hmt : MemoryTunables.valid mt).

Abbreviation nothing := (fun _ : Z => False).

Lemma limit_new_wp limiter s :
  wp (limit_new ty limiter) (fun p s' => s' = s /\ Memory.minimum_byte_size ty = Some p.1 /\ 0 <= p.1 <= usize_MAX /\
       Memory.allow_growth_to ty p.1 = true /\ p.2 = usize_of (Memory.maximum_byte_size ty)) (fun _ s' => s' = s) s.
Proof.
  unfold limit_new. apply wp_bind. eapply wp_mono; [apply memory_growing_wp| |by intros ? ? ->]. intros allowed ? ->.
  destruct (negb allowed); [done|]. apply wp_bind. unfold wp at 1, ok_or.
  destruct (Memory.minimum_byte_size ty) as [mn|] eqn:E; cbn; [|done].
  destruct (Memory.minimum_byte_size_Some _ Hty _ E) as [_ Hmn]. rewrite try_from_in by (unfold u64_MAX, usize_MAX in *; lia).
  cbn [ret]. destruct (Memory.allow_growth_to ty mn) eqn:Eal; [|done]. apply wp_ret. cbn [fst snd].
  split_and!; [done..|lia|unfold u64_MAX, usize_MAX in *; lia|done|done].
Qed.

Lemma minimum_pages minimum : Memory.minimum_byte_size ty = Some minimum -> (Memory.page_size ty | minimum).
Proof. intros [-> _]%checked_mul_Some. apply Z.divide_factor_r. Qed.

Lemma maximum_bounds minimum mx : Memory.minimum_byte_size ty = Some minimum -> Memory.maximum_byte_size ty = Some mx -> minimum <= mx.
Proof. intros En Ex. destruct (Memory.maximum_byte_size_Some _ Hty _ Ex) as (m & Em & ? & _). rewrite En in Em. injection Em as ->. lia. Qed.

(** Without an image. *)
Lemma plain_ok {A} `{!RuntimeLinearMemory A} `{!LinearMemoryLaws A} (a : A) s : growable = true -> valid a s ->
  (forall mx, limit a = Some mx -> usize_of (Memory.maximum_byte_size ty) = Some mx) ->
  local_ok images (LocalMemory.mk a ty (Memory.memory_may_move ty mt) (MemoryTunables.guard_size mt)
    (MemoryTunables.reservation mt) None) s.
Proof. intros Hg Hv Hl. by split. Qed.

Lemma mmap_configured (a : MmapMemory.t) s s' minimum mx slot : MmapLaws.created ty mt minimum mx s a s' ->
  Memory.minimum_byte_size ty = Some minimum -> Memory.allow_growth_to ty minimum = true ->
  configured ty mt (LocalMemory.mk a ty (Memory.memory_may_move ty mt) (MemoryTunables.guard_size mt)
    (MemoryTunables.reservation mt) slot).
Proof.
  intros [Hv Hlen _ Hg Hr Hfit _ _ _] Emin Hal.
  assert (byte_capacity a = Some (MmapLaws.capacity a)) as Ecap by (by eapply MmapLaws.capacity_run).
  split; unfold cap, size; cbn [LocalMemory.ty LocalMemory.memory_may_move LocalMemory.memory_guard_size
    LocalMemory.memory_reservation LocalMemory.alloc]; rewrite ?Ecap; try done.
  - exists minimum. split; [done|]. cbn. lia.
  - intros m Em. cbn. rewrite Hlen. by apply maximum_bounds.
  - cbn. rewrite Hlen. by apply minimum_pages.
  - cbn. by rewrite Hlen.
  - intros m _ _ Em Hle. cbn. rewrite Emin in Em. injection Em as <-. by rewrite Hfit.
Qed.

(** Under an image: its slot is instantiated over the new mapping. *)
Lemma image_slot_wp (a : MmapMemory.t) s s' minimum mx i : MmapLaws.created ty mt minimum mx s a s' ->
  0 <= minimum <= usize_MAX -> image_below images (Some i) minimum -> mx = usize_of (Memory.maximum_byte_size ty) ->
  wp (LocalMemory.image_slot images ty mt a i)
    (fun slot s2 => mappings s2 = mappings s' /\ touched (base_ptr a) (MmapLaws.capacity a) s' s2 /\
       match slot with
       | None => s2 = s'
       | Some slot => image slot = Some i /\ local_ok images (LocalMemory.mk a ty (Memory.memory_may_move ty mt)
             (MemoryTunables.guard_size mt) (MemoryTunables.reservation mt) (Some slot)) s2 /\
           forall o, 0 <= o < minimum -> value (cell_at s2 (base_ptr a + o)) = expected images (Some i) o
       end)
    (fun _ s2 => touched (base_ptr a) (MmapLaws.capacity a) s' s2) s'.
Proof.
  intros Hcr Hmin Himg Emx. pose proof Hcr as [Hv Hlen Hmx _ _ _ Hz _ _].
  pose proof (MmapLaws.v_cap _ _ Hv) as [Hcd Hc0]. pose proof (MmapLaws.v_len _ _ Hv) as [_ Hru].
  pose proof (MmapLaws.v_ptr _ _ Hv). pose proof (MmapLaws.total_parts a).
  pose proof (MmapLaws.v_pre _ _ Hv) as [_ ?]. pose proof (MmapLaws.v_guard _ _ Hv) as [_ ?].
  assert (byte_capacity a = Some (MmapLaws.capacity a)) as Ecap by (by eapply MmapLaws.capacity_run).
  unfold LocalMemory.image_slot. change (byte_size a) with (MmapMemory.len a). rewrite Hlen.
  destruct (Z.eqb_spec (minimum mod host_page_size) 0) as [Ed|]; [|by apply wp_ret].
  assert (host_page_size | minimum) as Hd by (by apply Z.mod_divide; [apply page_nz|]).
  rewrite Hlen in Hru. rewrite (round_up_aligned minimum) in * by (done || lia).
  apply wp_bind, wp_assert; [done|]. apply wp_bind, (wp_unwrap _ (MmapLaws.capacity a)); [done|].
  set (slot0 := create (base_ptr a) minimum (MmapLaws.capacity a)).
  assert (clean images slot0 (cells (space s'))) as Hclean.
  { split_and!; [done|split; cbn; try done; by split; [|unfold usize_MAX; lia]|].
    intros o Ho. cbn in *. by apply (Hz o). }
  pose proof (instantiate_wp images slot0 (space s') minimum (Some i) (relies_on_vm ty mt) Hclean ltac:(cbn; lia) Himg) as Hw.
  unfold wp in Hw |- *. destruct (instantiate images minimum (Some i) _ (slot0, space s')) as [[] [slot sp]|e [slot sp]|]; [| |done].
  2: { destruct Hw as (_ & _ & Hout). cbn in Hout. by split. }
  destruct Hw as [(Eb & Es & Hout) [Hdirty Ei Hwf Hsz Htight Hpr]]. cbn [fst snd] in *. cbn in Eb, Es, Hout, Htight.
  set (s2 := mkAddressSpace sp (mappings s')). assert (touched (base_ptr a) (MmapLaws.capacity a) s' s2) as Ht by (by split).
  assert (accessible slot = minimum) as Hacc.
  { rewrite Z.leb_refl, orb_true_r in Htight. destruct Hwf as [_ [Hal _] _ _]. apply aligned_next; [done|done|auto|done]. }
  assert (forall o, 0 <= o < MmapLaws.capacity a -> cell_at s2 (base_ptr a + o) =
    mkCell (expected images (Some i) o) (expected images (Some i) o) (o <? minimum)) as Hcells.
  { intros o Ho. specialize (Hpr o ltac:(lia)). rewrite Eb, Ei, Hacc in Hpr. exact Hpr. }
  split_and!; [done|done|done| |].
  - split; cbn [LocalMemory.alloc LocalMemory.ty LocalMemory.memory_image]; [|done| |].
    + destruct (image_resized a s' s2 minimum (MmapLaws.capacity a) (MmapLaws.capacity a)) as (f & Ef & Hf & _); try done.
      * cbn. lia.
      * intros x Hx. destruct (decide (base_ptr a <= x < base_ptr a + MmapLaws.capacity a)) as [Hin|Hnot].
        -- apply (MmapLaws.own_mapped a s' Hv). cbn in Hin. unfold MmapMemory.base in Hin. lia.
        -- apply (so_access s'); [apply Hv|]. rewrite <- Hx. symmetry. f_equal. by apply Ht.
      * intros o Ho. rewrite Hcells by done. by rewrite round_up_aligned by (done || lia).
      * intros o Ho. rewrite Hcells by lia. cbn [value]. apply (expected_out images (Some i) minimum); [done|lia].
      * injection Ef as <-. rewrite <- Hlen in Hf. destruct a. exact Hf.
    + cbn. by rewrite Hmx, Emx.
    + split; cbn [LocalMemory.alloc]; try done.
      * by rewrite Ecap; intros c [= <-]; lia.
      * intros x Hx. rewrite Eb, Es in Hx. apply (MmapLaws.own_mapped a s' Hv). cbn in Hx. unfold MmapMemory.base in Hx. lia.
      * split_and!; [done|done|by apply pristine_mapped].
      * change (byte_size a) with (MmapMemory.len a). rewrite Hlen, round_up_aligned; done || lia.
  - intros o Ho. by rewrite Hcells by lia.
Qed.

(** Giving a new memory up leaves what was there before. *)
Lemma drop_mmap_wp (a : MmapMemory.t) s s' s2 minimum mx Q : MmapLaws.created ty mt minimum mx s a s' ->
  touched (base_ptr a) (MmapLaws.capacity a) s' s2 ->
  wp (drop_alloc a) (fun _ s3 => space_ok s3 /\ frame nothing s s3) Q s2.
Proof.
  intros [Hv _ _ _ _ _ _ Hf Hfresh] [Hm Hc]. pose proof (MmapLaws.v_ptr _ _ Hv). pose proof (MmapLaws.total_parts a).
  pose proof (MmapLaws.v_pre _ _ Hv) as [_ ?]. pose proof (MmapLaws.v_guard _ _ Hv) as [_ ?]. pose proof (MmapLaws.v_cap _ _ Hv) as [_ ?].
  assert (forall x, base_ptr a <= x < base_ptr a + MmapLaws.capacity a -> Mmap.ptr (MmapMemory.mmap a) <= x <
    Mmap.ptr (MmapMemory.mmap a) + Mmap.len (MmapMemory.mmap a)) as Hin by (intros x; cbn; unfold MmapMemory.base; lia).
  eapply wp_mono; [apply (drop_wp (MmapMemory.mmap a) s2 Q)| |done].
  - apply (space_ok_touched (base_ptr a) (MmapLaws.capacity a) s'); [apply Hv|done|].
    intros x Hx. by apply (MmapLaws.own_mapped a s' Hv), Hin.
  - lia.
  - rewrite Hm. apply (MmapLaws.v_mapped _ _ Hv).
  - intros [] s3 Hd. split; [apply Hd|]. intros x Hx Hno. destruct (Hf x Hx Hno) as [Hx' <-].
    assert (~ (Mmap.ptr (MmapMemory.mmap a) <= x < Mmap.ptr (MmapMemory.mmap a) + Mmap.len (MmapMemory.mmap a))) as Hout
      by (intros Hin'; by apply (Hfresh x)).
    destruct (dr_others _ _ _ Hd x Hout) as [-> Hm3]. split; [|apply Hc; intros ?%Hin; done].
    apply Hm3. unfold mapped_at. by rewrite Hm.
Qed.

Lemma drop_malloc_wp (a : MallocMemory.t) s s' minimum Q : MallocLaws.created minimum s a s' ->
  wp (drop_alloc a) (fun _ s3 => space_ok s3 /\ frame nothing s s3) Q s'.
Proof.
  intros (Hv & _ & _ & Hf & Hfresh). pose proof (MallocLaws.v_buffer _ _ Hv) as [Hs Hl Hp Hm _].
  set (v := MallocMemory.storage a) in *. set (m := Mmap.new (s_ptr v) (ALIGN * s_capacity v)).
  assert (drop_alloc a = Mmap.drop m) as ->.
  { cbn. unfold MallocMemory.drop_storage, Mmap.drop. fold v. cbn. unfold ALIGN.
    destruct (Z.eqb_spec (s_capacity v) 0), (Z.eqb_spec (16 * s_capacity v) 0); done || lia. }
  unfold ALIGN in *. eapply wp_mono; [apply (drop_wp m s' Q); [done|cbn; lia|cbn; intros; apply Hm; lia]| |done].
  intros [] s3 Hd. split; [apply Hd|]. intros x Hx Hno. destruct (Hf x Hx Hno) as [Hx' <-].
  destruct (dr_others _ _ _ Hd x) as [? ?]; [|auto]. intros Hin. by apply (Hfresh x).
Qed.

(** What a new memory holds: its image, or zeros for the initializer to write to. *)
Definition shown_image {A} (m : LocalMemory.t A) (image : option Z) : option Z :=
  match LocalMemory.memory_image m with Some _ => image | None => None end.

Definition created_ok {A} `{!RuntimeLinearMemory A} `{!LinearMemoryLaws A} (image : option Z) (s : AddressSpace)
    (m : LocalMemory.t A) (s' : AddressSpace) : Prop :=
  local_ok images m s' /\ configured ty mt m /\ Memory.minimum_byte_size ty = Some (size m) /\ isolated nothing (local_owns m) s s' /\
  (forall slot, LocalMemory.memory_image m = Some slot -> CowSlot.image slot = image /\ image <> None) /\
  forall o, 0 <= o < size m ->
    value (cell_at s' (start m + o)) = expected images (shown_image m image) o.

Lemma mmap_created_ok (a : MmapMemory.t) s s1 s2 minimum mx slot image : MmapLaws.created ty mt minimum mx s a s1 ->
  Memory.minimum_byte_size ty = Some minimum -> Memory.allow_growth_to ty minimum = true ->
  mx = usize_of (Memory.maximum_byte_size ty) -> frame nothing s s2 ->
  match slot with
  | None => s2 = s1
  | Some slot => CowSlot.image slot = image /\ image <> None /\ local_ok images (LocalMemory.mk a ty
        (Memory.memory_may_move ty mt) (MemoryTunables.guard_size mt) (MemoryTunables.reservation mt) (Some slot)) s2 /\
      forall o, 0 <= o < minimum -> value (cell_at s2 (base_ptr a + o)) = expected images image o
  end ->
  created_ok image s (LocalMemory.mk a ty (Memory.memory_may_move ty mt) (MemoryTunables.guard_size mt)
    (MemoryTunables.reservation mt) slot) s2.
Proof.
  intros Hcr Emin Hal Emx Hf Hslot. pose proof Hcr as [Hv Hlen Hmx _ _ _ Hz _ Hfresh].
  destruct (MmapLaws.v_len _ _ Hv) as [? Hru]. rewrite Hlen in *. unfold created_ok.
  split_and!; [|by eapply mmap_configured|cbn; by rewrite Hlen|split; [done|]|..].
  - destruct slot as [slot|]; [apply Hslot|subst s2]. apply plain_ok; [done|done|]. cbn. by rewrite Hmx, Emx.
  - intros x Hx _ [Ho|Ho]; [by apply (Hfresh x)|]. destruct slot as [slot|]; [|done]. cbn in Ho.
    destruct Hslot as (_ & _ & [_ _ _ [_ Hb Hst _ _ _ _]] & _). cbn [LocalMemory.alloc] in *.
    destruct (Hst (MmapLaws.capacity a)) as [_ Hsz]; [by eapply MmapLaws.capacity_run|]. rewrite Hb, (Hsz eq_refl) in Ho.
    pose proof (MmapLaws.base_range a s1 (x - base_ptr a) Hv) as Hr. apply (Hfresh x); [|done]. cbn in Ho, Hr |- *. lia.
  - intros sl E. cbn in E. subst slot. split; apply Hslot.
  - unfold shown_image. cbn [LocalMemory.memory_image]. unfold size, start. cbn [LocalMemory.alloc]. cbn. rewrite Hlen.
    intros o Ho. destruct slot as [slot|]; [by apply Hslot|]. subst s2.
    destruct (round_up_bounds minimum); [lia|]. pose proof (MmapLaws.total_parts a). by rewrite (Hz o) by lia.
Qed.

Lemma malloc_created_ok (a : MallocMemory.t) s s1 minimum : MallocLaws.created minimum s a s1 ->
  Memory.minimum_byte_size ty = Some minimum -> Memory.allow_growth_to ty minimum = true -> MemoryTunables.guard_size mt = 0 -> MemoryTunables.reservation mt = 0 ->
  created_ok None s (LocalMemory.mk a ty (Memory.memory_may_move ty mt) (MemoryTunables.guard_size mt)
    (MemoryTunables.reservation mt) None) s1.
Proof.
  intros (Hv & Hlen & Hz & Hf & Hfresh) Emin Hal Eg Er. assert (valid a s1) as Hva by exact Hv. destruct (valid_size _ _ Hva) as (c & Ec & Hc & _). cbn in Ec, Hc.
  split_and!; [by apply plain_ok| |cbn; by rewrite Hlen| |done|].
  - split; unfold cap, size; cbn [LocalMemory.ty LocalMemory.memory_may_move LocalMemory.memory_guard_size
      LocalMemory.memory_reservation LocalMemory.alloc]; rewrite ?Eg, ?Er; try done.
    + cbn. injection Ec as <-. lia.
    + exists minimum. split; [done|]. cbn. lia.
    + intros m Em. cbn. rewrite Hlen. by apply maximum_bounds.
    + cbn. rewrite Hlen. by apply minimum_pages.
    + cbn. by rewrite Hlen.
  - split; [done|]. intros x Hx _ [Ho|Ho]; [by apply (Hfresh x)|done].
  - cbn. rewrite Hlen. intros o Ho. by apply Hz.
Qed.

(** Instantiating the image stays in the new mapping. *)
Lemma frame_nothing_touched (a : MmapMemory.t) s s1 s2 minimum mx : MmapLaws.created ty mt minimum mx s a s1 ->
  touched (base_ptr a) (MmapLaws.capacity a) s1 s2 -> frame nothing s s2.
Proof.
  intros [Hv _ _ _ _ _ _ Hf Hfresh] [Hm Hc] x Hx Hno. destruct (Hf x Hx Hno) as [Hx' <-].
  pose proof (MmapLaws.total_parts a). pose proof (MmapLaws.v_pre _ _ Hv) as [_ ?]. pose proof (MmapLaws.v_guard _ _ Hv) as [_ ?].
  split; [unfold mapped_at; by rewrite Hm|]. apply Hc. intros Hin. apply (Hfresh x); [|done]. cbn in Hin.
  unfold MmapMemory.base in *. lia.
Qed.

Lemma new_dynamic_wp image limiter s : space_ok s ->
  (forall i minimum, image = Some i -> Memory.minimum_byte_size ty = Some minimum ->
     memory_init_cow (MemoryTunables.tunables mt) = true /\ image_below images (Some i) minimum) ->
  wp (new_dynamic images ty mt image limiter)
    (fun m s' => match m with DynMmap m => created_ok image s m s' | DynMalloc m => created_ok image s m s' /\ use_mmap mt = false end)
    (fun _ s' => space_ok s' /\ frame nothing s s') s.
Proof.
  intros Hs Himage. assert (space_ok s /\ frame nothing s s) as Hsame by (split; [done|by apply mapped_frame_refl]).
  unfold new_dynamic. apply wp_bind. eapply wp_mono; [apply limit_new_wp| |by intros ? ? ->].
  intros [minimum mx] ? (-> & Emin & Hmin & Hal & Emx). cbn [fst snd] in *. destruct (use_mmap mt) eqn:Eu.
  - apply wp_bind. eapply wp_mono; [by apply MmapLaws.mmap_new_wp| |done]. intros a s1 Hcr.
    pose proof Hcr as [Hv Hlen Hmx _ _ _ Hz Hf Hfresh].
    assert (forall s2 Q, touched (base_ptr a) (MmapLaws.capacity a) s1 s2 ->
      wp (drop_alloc a) (fun _ s3 => space_ok s3 /\ frame nothing s s3) Q s2) as Hdrop by (intros; by eapply drop_mmap_wp).
    apply wp_bind, wp_on_err, try_new_wp; [|by apply Hdrop].
    apply wp_bind. unfold LocalMemory.new. apply wp_bind, wp_on_err.
    assert (limit a = usize_of (Memory.maximum_byte_size ty)) as Elim by (cbn; by rewrite Hmx).
    destruct image as [i|].
    + destruct (Himage i minimum eq_refl Emin) as [_ Himg].
      eapply wp_mono; [by apply (image_slot_wp a s s1 minimum mx i)| |].
      2: { intros e s2 Ht. by apply Hdrop. }
      intros slot s2 (Hm2 & Ht & Hslot). do 2 apply wp_ret.
      apply (mmap_created_ok a s s1 s2 minimum mx slot); [done..| |].
      * by eapply frame_nothing_touched.
      * destruct slot as [slot|]; [|done]. destruct Hslot as (? & ? & ?). by split_and!.
    + do 3 apply wp_ret. by apply (mmap_created_ok a s s1 s1 minimum mx None).
  - assert (image = None) as ->.
    { destruct image as [i|]; [|done]. destruct (Himage i minimum eq_refl Emin) as [Hcow _]. unfold use_mmap in Eu.
      rewrite Hcow, !orb_true_r in Eu. done. }
    apply wp_bind. eapply wp_mono; [by apply MallocLaws.malloc_new_wp| |by intros ? ? ->].
    intros a s1 (Hcr & Eg & Er). apply wp_bind, wp_on_err, try_new_wp; [|by eapply drop_malloc_wp].
    apply wp_bind. unfold LocalMemory.new. apply wp_bind, wp_on_err. do 3 apply wp_ret. split; [|done]. by apply (malloc_created_ok a s s1 minimum).
Qed.
End created.

(** ** The theorems *)



(** ** An instance *)

(** An operating system that maps above everything there is and never fails. *)
Definition top (s : AddressSpace) : Z := foldr (fun m t => Z.max (m.1 + m.2) t) 65536 (mappings s).

Definition bump (s : AddressSpace) (len : Z) : option Z :=
  let p := round_up (H := host_4k) (top s) in if p + len <=? 2 ^ 47 then Some p else None.

Lemma top_bound s : 65536 <= top s /\ forall m, m ∈ mappings s -> m.1 + m.2 <= top s.
Proof.
  unfold top. induction (mappings s) as [|m l [IH1 IH2]]; cbn; [by split; [|intros ? ?%elem_of_nil]|].
  split; [lia|]. intros m' [->|Hm]%elem_of_cons; [lia|]. specialize (IH2 _ Hm). lia.
Qed.

Lemma bump_spec s len p : bump s len = Some p ->
  (4096 | p) /\ 65536 <= p /\ p + len <= 2 ^ 47 /\ forall m, m ∈ mappings s -> disjoint_from p len m.
Proof.
  unfold bump. destruct (top_bound s) as [Ht Hm]. destruct (Z.leb_spec (round_up (H := host_4k) (top s) + len) (2 ^ 47)); [|done].
  intros [= <-]. destruct (round_up_bounds (H := host_4k) (top s)) as [Hd ?]; [lia|]. cbn in *. split_and!; [done|lia|lia|].
  intros m Hin. right. specialize (Hm m Hin). lia.
Qed.

#[local] Existing Instance host_4k.
#[local] Existing Instance os_ok.

Program Definition bump_mapper : Mapper := {| mmap_anonymous := bump; out_of_memory := fun _ => false |}.
Next Obligation. intros s len p E. by apply bump_spec. Qed.
#[local] Existing Instance bump_mapper.

Program Definition bump_allocator : Allocator := {|
  realloc := fun s _ len => bump s len;
  fresh_bytes := fun _ x => x mod 256
|}.
Next Obligation. intros s old len p (_ & ? & ? & Hd)%bump_spec. split_and!; [done|done|]. intros m Hm _. by apply Hd. Qed.
#[local] Existing Instance bump_allocator.

Lemma os_ok_atomic : atomic_failures.
Proof. intros n f E. done. Defined.

(** Bytes as pages, an image, a small reservation and memories that move. *)
Definition small_ty : Memory.t := Memory.mkMemory Idx64 (Memory.mkLimits 8192 (Some 40000)) false 0.
Definition small_mt : MemoryTunables.t :=
  MemoryTunables.new (mkTunables 12000 4096 8192 true 12000 4096 8192 true true true true false false false false true) LinearMemory.
Definition no_mappings : AddressSpace := mkAddressSpace space_0 [].

Lemma small_ty_valid : Memory.valid small_ty.
Proof.
  split; [by left|by vm_compute|by vm_compute|]. intros m [= <-]. by vm_compute.
Defined.

Lemma small_mt_valid : MemoryTunables.valid small_mt.
Proof. split; by vm_compute. Defined.

Lemma no_mappings_ok : space_ok no_mappings.
Proof. split; intros ?; [by intros ?%elem_of_nil|by intros ? ?%elem_of_nil|done]. Defined.

Lemma image_3_below i minimum : Some 3 = Some i -> Memory.minimum_byte_size small_ty = Some minimum ->
  memory_init_cow (MemoryTunables.tunables small_mt) = true /\ image_below image_3 (Some i) minimum.
Proof. intros [= <-] [= <-]. by vm_compute. Defined.

Definition create_small : M AddressSpace PoolError DynMemory := new_dynamic image_3 small_ty small_mt (Some 3) None.

(** The size, the base, the capacity and two bytes: of the image and behind it. *)
Definition view {A} `{!RuntimeLinearMemory A} (p : LocalMemory.t A * AddressSpace) : list Z :=
  [size p.1; start p.1; cap p.1; value (cell_at p.2 (start p.1 + 4100)); value (cell_at p.2 (start p.1 + 100))].


Definition no_memory : LocalMemory.t MmapMemory.t :=
  LocalMemory.mk (MmapMemory.mk Mmap.new_empty 0 None 0 0 0) small_ty false 0 0 None.

Definition small : LocalMemory.t MmapMemory.t * AddressSpace :=
  match create_small no_mappings with Ret (DynMmap m) s' => (m, s') | _ => (no_memory, no_mappings) end.

Lemma small_ok : local_ok image_3 small.1 small.2.
Proof.
  pose proof (new_dynamic_wp image_3 os_ok_atomic small_ty small_mt small_ty_valid small_mt_valid (Some 3) None
    no_mappings no_mappings_ok image_3_below : wp create_small _ _ _) as Hw.
  assert (size small.1 = 8192) as E by by vm_compute.
  unfold wp in Hw. unfold small in *. destruct (create_small no_mappings) as [[m|m] s'|e s'|]; [apply Hw|discriminate E..].
Qed.

