(* ===== verification/MemoryPool.v ===== *)
(** * The memory pool of the pooling allocator

    Models pooling/memory_pool.rs ([MemoryPool]: creation, allocation,
    deallocation, purging a module), pooling/decommit_queue.rs and the memory half
    of pooling.rs (the batching of decommits, [allocate_memory] and
    [deallocate_memory]), over the layout of SlabLayout.v, the index allocators of
    IndexAllocator.v, one for each stripe, and the slots of CowSlot.v.

    A memory handed out is its [MemoryImageSlot]; a request carries what the store
    and the module say about it.  The mutexes make each operation atomic.

    Shown: over every sequence of allocations, guest stores and growth,
    deallocations and purges, with system calls that fail at any point, no
    operation panics, no two live memories overlap, and a memory is handed out
    with exactly the bytes of its image and zeros, whatever was in its slot
    before; an allocation is refused for want of a slot only when every slot of the
    stripe is in use by a live memory. *)

From S2P Require Import Prelude MemoryTypes SlabLayout CowSlot IndexAllocator.

(** ** Data *)

Record Stripe := mkStripe { allocator : Inner; pkey : option Z }.

Inductive ImageSlot := Unmapped | Unknown | PreviouslyUsed (s : MemoryImageSlot).

Record MemoryPool := mkPool {
  mapping : Z;
  mapping_len : Z;
  stripes : list Stripe;
  image_slots : list ImageSlot;
  layout : SlabLayout;
  memories_per_instance : Z;
  keep_resident : Z;
  next_pkey : Z
}.

Record DecommitQueue := mkQueue {
  raw : list (Z * Z);
  queued : list (Z * MemoryImageSlot * Z)
}.
Definition DecommitQueue_default : DecommitQueue := mkQueue [] [].

(** The part of [PoolingInstanceAllocator] that concerns memories, with the
    address space. *)
Record World := mkWorld {
  memories : MemoryPool;
  decommit_queue : DecommitQueue;
  decommit_batch_size : Z;
  live_memories : Z;
  pagemap : bool;
  space : Space
}.

Definition set_stripes (l : list Stripe) (p : MemoryPool) : MemoryPool :=
  mkPool (mapping p) (mapping_len p) l (image_slots p) (layout p) (memories_per_instance p)
    (keep_resident p) (next_pkey p).
Definition set_image_slots (l : list ImageSlot) (p : MemoryPool) : MemoryPool :=
  mkPool (mapping p) (mapping_len p) (stripes p) l (layout p) (memories_per_instance p)
    (keep_resident p) (next_pkey p).
Definition set_next_pkey (n : Z) (p : MemoryPool) : MemoryPool :=
  mkPool (mapping p) (mapping_len p) (stripes p) (image_slots p) (layout p) (memories_per_instance p)
    (keep_resident p) n.

Definition on_pool (f : MemoryPool -> MemoryPool) (w : World) : World :=
  mkWorld (f (memories w)) (decommit_queue w) (decommit_batch_size w) (live_memories w) (pagemap w) (space w).
Definition set_queue (q : DecommitQueue) (w : World) : World :=
  mkWorld (memories w) q (decommit_batch_size w) (live_memories w) (pagemap w) (space w).
Definition set_live (n : Z) (w : World) : World :=
  mkWorld (memories w) (decommit_queue w) (decommit_batch_size w) n (pagemap w) (space w).
Definition set_space (sp : Space) (w : World) : World :=
  mkWorld (memories w) (decommit_queue w) (decommit_batch_size w) (live_memories w) (pagemap w) sp.

(** What an allocation request says: the stripe of the store's key, the type,
    the index of the memory in its module, the identity of the module, the image
    for the memory ([None] when making it failed), and whether the checks of
    [Memory::new_static], with the store's limiter, let the memory through. *)
Record Request := mkRequest {
  get_pkey : option Z;
  ty : Memory.t;
  memory_index : option Z;
  unique_id : option Z;
  memory_image : option (option Z);
  admitted : bool
}.

Inductive Enabled := Auto | Yes | No.

Record PoolConfig := mkConfig {
  limits : InstanceLimits;
  max_memories_per_module : Z;
  max_unused_warm : Z;
  linear_memory_keep_resident : Z;
  memory_protection_keys : Enabled
}.

Section pool.
Context `{Host} `{OS} (images : Z -> MemoryImage) (tunables : Tunables).
Abbreviation WM := (M World PoolError).

Definition pool {A} (f : MemoryPool -> A) : WM A := fun w => Ret (f (memories w)) w.
Definition on_space {A} (m : M Space PoolError A) : WM A := zoom space set_space m.

(** A method of a slot the caller owns; an error drops the slot. *)
Definition on_slot {A} (slot : MemoryImageSlot) (m : M (MemoryImageSlot * Space) PoolError A)
  : WM (A * MemoryImageSlot) :=
  fun w => match m (slot, space w) with
           | Ret a (slot', sp) => Ret (a, slot') (set_space sp w)
           | Fail e (_, sp) => Fail e (set_space sp w)
           | Panic => Panic
           end.

(** A method of the index allocator of a stripe. *)
Definition at_stripe {A} (i : Z) (m : M Inner Empty_set A) : WM A :=
  fun w =>
    match zget (stripes (memories w)) i with
    | Some st =>
        match m (allocator st) with
        | Ret a inner =>
            Ret a (on_pool (set_stripes (zset (stripes (memories w)) i (mkStripe inner (pkey st)))) w)
        | Fail e _ => match e with end
        | Panic => Panic
        end
    | None => Panic
    end.

(** ** Creation *)

(** The keys the processor has, [mpk::keys(..)], and whether it has any. *)
Definition pkeys_available (enabled : Enabled) (mpk_supported : bool) (keys : Z) : M Space PoolError Z :=
  match enabled with
  | Auto => ret (if mpk_supported then keys else 0)
  | Yes => if mpk_supported then ret keys else fail MpkDisabled
  | No => ret 0
  end.

(** [pkey.protect(region)] does not change what the memory holds. *)
Definition protect (ptr len : Z) : M Space PoolError unit := syscall ptr len (fun _ c => c).

Fixpoint stripe_mapping (n : nat) (mapping cursor : Z) (l : SlabLayout) : M Space PoolError Z :=
  match n with
  | O => ret cursor
  | S n =>
      protect (mapping + cursor) (slot_bytes l) ;;;
      cursor <- HostAlignedByteCount.checked_add cursor (slot_bytes l) ;;
      stripe_mapping n mapping cursor l
  end.

Definition create_stripe (c : SlabConstraints) (l : SlabLayout) (max_unused_warm num_pkeys i : Z) : Stripe :=
  mkStripe (IndexAllocator.new (stripe_slots (c_num_slots c) (num_stripes l) i) max_unused_warm)
    (if i <? num_pkeys then Some i else None).

(** The address [addr] of the new mapping is the system's choice. *)
Definition new (config : PoolConfig) (mpk_supported : bool) (keys addr : Z) : M Space PoolError MemoryPool :=
  (if memory_reservation tunables <? max_memory_size (limits config)
   then fail MemoryExceedsReservation else ret tt) ;;;
  pkeys <- pkeys_available (memory_protection_keys config) mpk_supported keys ;;
  constraints <- SlabConstraints_new (limits config) tunables pkeys ;;
  layout <- calculate constraints ;;
  total <- total_slab_bytes layout ;;
  erase_existing_mapping addr total ;;;
  (if 2 <=? num_stripes layout then
     rust_assert (num_stripes layout <=? pkeys) ;;;
     cursor <- stripe_mapping (Z.to_nat (c_num_slots constraints)) addr (pre_slab_guard_bytes layout) layout ;;
     end_ <- HostAlignedByteCount.checked_add cursor (post_slab_guard_bytes layout) ;;
     total <- total_slab_bytes layout ;;
     rust_assert (end_ =? total)
   else ret tt) ;;;
  rust_assert (0 <? num_stripes layout) ;;;
  keep <- HostAlignedByteCount.new_rounded_up (linear_memory_keep_resident config) ;;
  ret (mkPool addr total
         (create_stripe constraints layout (max_unused_warm config) pkeys <$> seqZ 0 (num_stripes layout))
         (replicate (Z.to_nat (c_num_slots constraints)) Unmapped)
         layout (max_memories_per_module config) keep 0).

(** ** Operations of the pool *)

(** The key a new store gets, by its stripe. *)
Definition next_available_pkey : WM (option Z) :=
  n <- pool next_pkey ;;
  stripes <- pool stripes ;;
  rust_assert (negb (zlen stripes =? 0)) ;;;
  modify (on_pool (set_next_pkey ((n + 1) mod 2 ^ 64))) ;;;
  stripe <- unwrap (zget stripes (n mod zlen stripes)) ;;
  rust_assert ((zlen stripes <? 2) || bool_decide (is_Some (pkey stripe))) ;;;
  ret (pkey stripe).

Definition validate_memory (memory : Memory.t) : WM unit :=
  l <- pool layout ;;
  min <- ok_or (Memory.minimum_byte_size memory) MinimumTooLarge ;;
  if max_memory_bytes l <? min then fail MinimumTooLarge
  else if Memory.shared memory then fail LimitExceeded
  else ret tt.

Definition is_empty : WM bool := pool (fun p => forallb (fun s => IndexAllocator.is_empty (allocator s)) (stripes p)).

Definition get_base (allocation_index : Z) : WM Z :=
  l <- pool layout ;;
  rust_assert (allocation_index <? num_slots l) ;;;
  offset <- expect (c <- HostAlignedByteCount.checked_mul (slot_bytes l) allocation_index ;;
                    HostAlignedByteCount.checked_add c (pre_slab_guard_bytes l)) ;;
  len <- pool mapping_len ;;
  rust_assert (offset <=? len) ;;;
  mapping <- pool mapping ;;
  ret (mapping + offset).

Definition replace_image_slot (allocation_index : Z) (s : ImageSlot) : WM ImageSlot :=
  slots <- pool image_slots ;;
  prev <- unwrap (zget slots allocation_index) ;;
  modify (on_pool (set_image_slots (zset slots allocation_index s))) ;;;
  ret prev.

Definition take_memory_image_slot (allocation_index : Z) : WM MemoryImageSlot :=
  prev <- replace_image_slot allocation_index Unknown ;;
  let '(maybe_slot, needs_reset) :=
    match prev with
    | Unmapped => (None, false)
    | Unknown => (None, true)
    | PreviouslyUsed state => (Some state, false)
    end in
  slot <- match maybe_slot with
          | Some slot => ret slot
          | None =>
              base <- get_base allocation_index ;;
              l <- pool layout ;;
              ret (create base 0 (max_memory_bytes l))
          end ;;
  if needs_reset : bool then
    r <- on_slot slot reset_with_anon_memory ;;
    ret r.2
  else ret slot.

Definition return_memory_image_slot (allocation_index : Z) (slot : option MemoryImageSlot) : WM unit :=
  new <- match slot with
         | Some slot => rust_assert (negb (dirty slot)) ;;; ret (PreviouslyUsed slot)
         | None => ret Unknown
         end ;;
  prev <- replace_image_slot allocation_index new ;;
  match prev with Unknown => ret tt | _ => panic end.

Definition affinity_of (request : Request) : option MemoryInModule :=
  mem_idx ← memory_index request;
  id ← unique_id request;
  Some (id, mem_idx).

(** [allocate] once it has an index. *)
Definition allocate_at (request : Request) (stripe_index striped : Z) : WM (Z * MemoryImageSlot) :=
  stripes <- pool stripes ;;
  allocation_index <- unwrap (as_unstriped_slot_index striped stripe_index (zlen stripes)) ;;
  l <- pool layout ;;
  let memory_tunables := MemoryTunables.new tunables LinearMemory in
  reach <- unwrap (checked_add u64_MAX (MemoryTunables.reservation memory_tunables)
                     (MemoryTunables.guard_size memory_tunables)) ;;
  step <- bytes_to_next_stripe_slot l ;;
  rust_assert (reach <=? step) ;;;
  get_base allocation_index ;;;
  slot <- take_memory_image_slot allocation_index ;;
  image <- match memory_index request with
           | Some _ => ok_or (memory_image request) ImageUnavailable
           | None => ret None
           end ;;
  initial_size <- unwrap (Memory.minimum_byte_size (ty request)) ;;
  initial_size <- unwrap (try_from usize_MAX initial_size) ;;
  r <- on_slot slot (instantiate images initial_size image
         (relies_on_vm (ty request) memory_tunables)) ;;
  if admitted request then ret (allocation_index, r.2) else fail LimitExceeded.

Definition allocate (request : Request) : WM (Z * MemoryImageSlot) :=
  stripe_index <- match get_pkey request with
                  | Some i => ret i
                  | None => stripes <- pool stripes ;; rust_assert (zlen stripes <? 2) ;;; ret 0
                  end ;;
  slot <- at_stripe stripe_index (IndexAllocator.alloc (affinity_of request)) ;;
  match slot with
  | None =>
      len <- at_stripe stripe_index (gets (fun s => zlen (slot_state s))) ;;
      fail (PoolConcurrencyLimitError len)
  | Some striped =>
      on_err (allocate_at request stripe_index striped)
        (at_stripe stripe_index (IndexAllocator.free striped 0))
  end.

Definition deallocate (allocation_index : Z) (image : option MemoryImageSlot) (bytes_resident : Z) : WM unit :=
  return_memory_image_slot allocation_index image ;;;
  stripes <- pool stripes ;;
  p <- unwrap (from_unstriped_slot_index allocation_index (zlen stripes)) ;;
  at_stripe p.1 (IndexAllocator.free p.2 bytes_resident).

(** The [while let] loop of [purge_module]; [fuel] bounds its turns. *)
Fixpoint purge_loop (fuel : nat) (stripe_index : Z) (m : MemoryInModule) : WM unit :=
  match fuel with
  | O => panic
  | S fuel =>
      id <- at_stripe stripe_index (alloc_affine_and_clear_affinity m) ;;
      match id with
      | None => ret tt
      | Some id =>
          stripes <- pool stripes ;;
          index <- unwrap (as_unstriped_slot_index id stripe_index (zlen stripes)) ;;
          slot <- attempt (take_memory_image_slot index) ;;
          (match slot with
           | Some slot =>
               r <- attempt (on_slot slot (remove_image images)) ;;
               match r with
               | Some r => return_memory_image_slot index (Some r.2)
               | None => ret tt
               end
           | None => ret tt
           end) ;;;
          at_stripe stripe_index (IndexAllocator.free id 0) ;;;
          purge_loop fuel stripe_index m
      end
  end.

Fixpoint for_each {A} (f : A -> WM unit) (l : list A) : WM unit :=
  match l with [] => ret tt | x :: l => f x ;;; for_each f l end.

(** As many turns as the stripe has slots, and one more to see that none is left. *)
Definition purge_module (module : Z) : WM unit :=
  n <- pool memories_per_instance ;;
  slots <- pool (fun p => num_slots (layout p)) ;;
  stripes <- pool stripes ;;
  for_each (fun stripe_index =>
    for_each (fun i => purge_loop (S (Z.to_nat slots)) stripe_index (module, i)) (seqZ 0 n))
    (seqZ 0 (zlen stripes)).

(** ** The decommit queue and the allocator *)

Definition append (q other : DecommitQueue) : DecommitQueue :=
  mkQueue (raw q ++ raw other) (queued q ++ queued other).
Definition raw_len (q : DecommitQueue) : Z := zlen (raw q).
Definition push_raw (ptr len : Z) (q : DecommitQueue) : DecommitQueue :=
  mkQueue (raw q ++ [(ptr, len)]) (queued q).
Definition push_memory (allocation_index : Z) (image : MemoryImageSlot) (bytes_resident : Z)
    (q : DecommitQueue) : DecommitQueue :=
  mkQueue (raw q) (queued q ++ [(allocation_index, image, bytes_resident)]).

Definition flush (q : DecommitQueue) : WM bool :=
  decommit_succeeded <- attempt (on_space (decommit_all (raw q))) ;;
  for_each (fun '(allocation_index, image, bytes_resident) =>
    deallocate allocation_index
      (match decommit_succeeded with Some _ => Some image | None => None end) bytes_resident)
    (queued q) ;;;
  ret (match queued q with [] => false | _ => true end).

Definition flush_decommit_queue : WM bool :=
  w <- get ;;
  modify (set_queue DecommitQueue_default) ;;;
  flush (decommit_queue w).

Definition merge_or_flush (local_queue : DecommitQueue) : WM unit :=
  w <- get ;;
  if (raw_len local_queue =? 0) || (decommit_batch_size w <=? raw_len local_queue)
  then flush local_queue ;;; ret tt
  else
    let shared_queue := append (decommit_queue w) local_queue in
    modify (set_queue shared_queue) ;;;
    if decommit_batch_size w <=? raw_len shared_queue then flush_decommit_queue ;;; ret tt
    else ret tt.

Definition allocate_memory (request : Request) : WM (Z * MemoryImageSlot) :=
  result <- or_else (allocate request) (fun e =>
    match e with
    | PoolConcurrencyLimitError _ =>
        freed <- flush_decommit_queue ;;
        if freed : bool then allocate request else fail e
    | _ => fail e
    end) ;;
  modify (fun w => set_live ((live_memories w + 1) mod 2 ^ 64) w) ;;;
  ret result.

Definition deallocate_memory (allocation_index : Z) (memory : MemoryImageSlot) : WM unit :=
  w <- get ;;
  rust_assert (0 <? live_memories w) ;;;
  modify (set_live (live_memories w - 1)) ;;;
  bytes_resident <- attempt (on_slot memory
    (clear_and_remain_ready images (pagemap w) (keep_resident (memories w)))) ;;
  match bytes_resident with
  | Some (n, ranges, image) =>
      let queue := foldl (fun q r => push_raw r.1 r.2 q) DecommitQueue_default ranges in
      merge_or_flush (push_memory allocation_index image n queue)
  | None => deallocate allocation_index None 0
  end.
End pool.

(** ** The index allocators

    What the pool relies on of IndexAllocator.v, on the slots without their links. *)

Definition view (s : Inner) : list SlotState := erase <$> slot_state s.
Definition good (s : Inner) : Prop := exists q, rep s q None.

Lemma zlen_view s : zlen (view s) = zlen (slot_state s).
Proof. unfold zlen, view. by rewrite length_fmap. Qed.

Lemma view_used s i mm : zget (view s) i = Some (Used mm) <-> zget (slot_state s) i = Some (Used mm).
Proof. unfold view. rewrite zget_fmap. destruct (zget (slot_state s) i) as [[]|]; naive_solver. Qed.

Lemma info_view s i : info (slot_state s) i = info (view s) i.
Proof. unfold view. by rewrite info_erased. Qed.

Lemma inner_alloc s mode mo : good s ->
  exists r s', alloc_ mo mode s = Ret r s' /\
  match r with
  | Some i => good s' /\ view s' = zset (view s) i (Used (new_affinity mode mo)) /\
      0 <= i < zlen (view s) /\ (forall mm, zget (view s) i <> Some (Used mm)) /\
      (mode = ForceAffineAndClear -> exists m, mo = Some m /\ affine_to (view s) m i = true)
  | None => s' = s /\
      (mode = AnySlot -> forall i, 0 <= i < zlen (view s) -> exists mm, zget (view s) i = Some (Used mm)) /\
      (forall m, mo = Some m -> forall i, affine_to (view s) m i = false)
  end.
Proof.
  intros [q Hr]. pose proof (index_alloc_spec s q mode mo Hr) as Ha.
  destruct (choose s q mode mo) as [i|] eqn:Hch.
  - destruct Ha as (s' & -> & Hr' & He & Hi & Hnu & _). exists (Some i), s'. split; [done|].
    rewrite zlen_view. split; [by eexists|]. split; [done|]. split; [done|]. split.
    + intros mm. rewrite view_used. apply Hnu.
    + intros ->. unfold choose, affine_pick in Hch. destruct mo as [m|]; [|done]. simpl in Hch.
      destruct (last _) eqn:El; [|done]. simplify_eq. exists m. split; [done|].
      apply last_Some_elem_of, elem_of_affine_queue in El as [_ Haf].
      unfold affine_to. rewrite <- info_view. by apply bool_decide_eq_true.
  - exists None, s. split; [done|]. split; [done|]. split.
    2: { intros m -> i. unfold choose, affine_pick in Hch. simpl in Hch.
         destruct (last (affine_queue (slot_state s) m q)) eqn:El; [done|]. apply last_None in El.
         destruct (affine_to (view s) m i) eqn:Ea; [|done].
         assert (i ∈ affine_queue (slot_state s) m q) as Hin; [|rewrite El in Hin; by apply not_elem_of_nil in Hin].
         unfold affine_to in Ea. rewrite <- info_view in Ea. apply bool_decide_eq_true in Ea.
         apply elem_of_affine_queue. split; [|done]. apply (rep_warm_iff _ _ _ Hr). split; [|done].
         destruct (info (slot_state s) i); [by eexists|done]. }
    intros ->. pose proof (index_alloc_exclusive s q mo Hr) as Hex. unfold alloc in Hex. rewrite Ha in Hex.
    intros i Hi. rewrite zlen_view in Hi. destruct Hex as [_ Hex].
    destruct (Hex i Hi) as [mm Hmm]. exists mm. by apply view_used.
Qed.

Lemma total_bound {A} (f : A -> Z) l B : (forall x, f x <= B) -> total f l <= B * zlen l.
Proof.
  intros Hf. induction l as [|x l IH]; simpl; [unfold zlen; simpl; lia|].
  rewrite zlen_cons. specialize (Hf x). lia.
Qed.

Lemma inner_free s i mm n B : good s -> zget (view s) i = Some (Used mm) -> 0 <= n <= B ->
  (forall k, bytes_at (view s) k <= B) -> B * zlen (view s) <= usize_MAX ->
  exists s', free i n s = Ret tt s' /\ good s' /\
    view s' = zset (view s) i (UnusedWarm (mkUnused mm n Link_default Link_default)).
Proof.
  intros [q Hr] Hi Hn HB Hmax. apply view_used in Hi. rewrite zlen_view in Hmax.
  assert (zlen (q ++ [i]) <= zlen (slot_state s)) as Hlen.
  { pose proof (rep_warm_iff _ _ _ Hr) as Hiff. apply zlen_bounded; [|apply zlen_nonneg|].
    - apply NoDup_app. split_and!; [apply Hr| |apply NoDup_singleton].
      intros x [[y Hy] _]%Hiff ->%list_elem_of_singleton. apply info_zget in Hy as (? & ? & _). congruence.
    - intros x [Hx|Hx]%elem_of_app.
      + apply Hiff in Hx as [[y Hy] _]. apply info_zget in Hy as (? & Hz & _). by eapply zget_lt.
      + apply list_elem_of_singleton in Hx as ->. by eapply zget_lt. }
  assert (unused_bytes_resident s + n <= usize_MAX) as Hsum.
  { rewrite (rep_bytes _ _ _ Hr), Z.add_0_r. rewrite zlen_app in Hlen. unfold zlen at 2 in Hlen. simpl in Hlen.
    assert (total (bytes_at (slot_state s)) q <= B * zlen q).
    { apply total_bound. intros x. specialize (HB x). unfold bytes_at in *. by rewrite info_view. }
    nia. }
  destruct (index_free_spec s q i mm n Hr Hi (proj1 Hn) Hsum) as (s' & Hf & Hr' & He & _).
  exists s'. split_and!; [done|by eexists|done].
Qed.

(** ** The pool as a whole *)

Section invariant.
Context `{Host} `{OS} (images : Z -> MemoryImage) (tunables : Tunables).
Implicit Types (p : MemoryPool) (w : World) (a i : Z).

(** The state of slot [a] in the index allocator of its stripe. *)
Definition slot_view p a : option SlotState :=
  st ← zget (stripes p) (a mod zlen (stripes p));
  zget (view (allocator st)) (a / zlen (stripes p)).
Definition used p a : Prop := exists mm, slot_view p a = Some (Used mm).
Definition affine_slot (m : MemoryInModule) (o : option SlotState) : bool :=
  match o with Some (UnusedWarm u) => bool_decide (affinity u = Some m) | _ => false end.
Definition in_pool p a : Prop := 0 <= a < num_slots (layout p).

Record stripe_ok (l : SlabLayout) i (st : Stripe) : Prop := {
  sk_good : good (allocator st);
  sk_len : zlen (view (allocator st)) = stripe_slots (num_slots l) (num_stripes l) i;
  sk_bytes k : bytes_at (view (allocator st)) k <= max_memory_bytes l;
  sk_pkey : pkey st = Some i \/ (pkey st = None /\ num_stripes l < 2)
}.

Record pool_ok p : Prop := {
  po_slots : 0 <= num_slots (layout p) <= u32_MAX;
  po_stripes : 1 <= num_stripes (layout p) <= u32_MAX;
  po_max : aligned (max_memory_bytes (layout p));
  po_fits : max_memory_bytes (layout p) <= slot_bytes (layout p);
  po_pre : 0 <= pre_slab_guard_bytes (layout p);
  po_total : slot_bytes (layout p) * num_slots (layout p) + pre_slab_guard_bytes (layout p) <= mapping_len p;
  po_mapping : mapping_len p <= usize_MAX;
  po_reach : 0 <= memory_reservation tunables + memory_guard_size tunables
             <= slot_bytes (layout p) * num_stripes (layout p);
  po_step : slot_bytes (layout p) * num_stripes (layout p) <= usize_MAX;
  po_keep : 0 <= keep_resident p;
  po_len : zlen (stripes p) = num_stripes (layout p);
  po_image_slots : zlen (image_slots p) = num_slots (layout p);
  po_each i st : zget (stripes p) i = Some st -> stripe_ok (layout p) i st
}.

(** What never changes. *)
Record fixed p p' : Prop := {
  fx_mapping : mapping p' = mapping p;
  fx_len : mapping_len p' = mapping_len p;
  fx_layout : layout p' = layout p;
  fx_instance : memories_per_instance p' = memories_per_instance p;
  fx_keep : keep_resident p' = keep_resident p
}.

Lemma fixed_refl p : fixed p p.
Proof. done. Qed.
Lemma fixed_trans p1 p2 p3 : fixed p1 p2 -> fixed p2 p3 -> fixed p1 p3.
Proof. intros [] []. split; congruence. Qed.

(** Slot [a] is now in state [v], and that is all. *)
Record reslot p a (v : SlotState) p' : Prop := {
  rs_ok : pool_ok p';
  rs_fixed : fixed p p';
  rs_images : image_slots p' = image_slots p;
  rs_view b : in_pool p b -> slot_view p' b = if decide (b = a) then Some v else slot_view p b
}.

Lemma pool_ok_ext p p' : pool_ok p -> fixed p p' ->
  zlen (stripes p') = zlen (stripes p) -> zlen (image_slots p') = zlen (image_slots p) ->
  (forall i st, zget (stripes p') i = Some st -> stripe_ok (layout p) i st) -> pool_ok p'.
Proof.
  intros [] [E1 E2 E3 E4 E5] Hs Hi Heach. split; rewrite ?E1, ?E2, ?E3, ?E4, ?E5; try done.
  - by rewrite Hs.
  - by rewrite Hi.
Qed.

Lemma bytes_at_zset st k v B : 0 <= k < zlen st -> (forall j, bytes_at st j <= B) ->
  match v with UnusedWarm u => bytes_resident u <= B | _ => 0 <= B end ->
  forall j, bytes_at (zset st k v) j <= B.
Proof.
  intros Hk HB Hv j. specialize (HB j). unfold bytes_at, info, unwrap_unused in *.
  rewrite zget_zset by done. case_decide; [|done]. by destruct v.
Qed.

Lemma stripe_update p i st inner k v :
  pool_ok p -> zget (stripes p) i = Some st -> good inner ->
  view inner = zset (view (allocator st)) k v -> 0 <= k < zlen (view (allocator st)) ->
  match v with UnusedWarm u => bytes_resident u <= max_memory_bytes (layout p) | _ => True end ->
  reslot p (k * zlen (stripes p) + i) v (set_stripes (zset (stripes p) i (mkStripe inner (pkey st))) p).
Proof.
  intros Hok Hst Hgood Hview Hk Hv. pose proof (zget_lt _ _ _ Hst) as Hi.
  pose proof (po_each _ Hok _ _ Hst) as [_ Hlen Hby Hpk]. pose proof (po_max _ Hok) as [_ Hm].
  split; [|done|done|].
  - apply (pool_ok_ext p); try done; simpl; [by rewrite zlen_zset|].
    intros j st'. rewrite zget_zset by done. case_decide as Ej; [|by apply Hok].
    intros [= <-]. subst j. split; simpl; [done| | |done].
    + by rewrite Hview, zlen_zset.
    + rewrite Hview. apply bytes_at_zset; [done..|]. destruct v; lia.
  - intros b Hb. unfold slot_view. simpl. rewrite zlen_zset. set (n := zlen (stripes p)) in *.
    pose proof (Z.mod_pos_bound b n ltac:(lia)). pose proof (Z.div_mod b n ltac:(lia)).
    rewrite zget_zset by done. case_decide as Ei.
    + simpl. rewrite Hview, zget_zset by done. subst i. rewrite Hst. simpl.
      case_decide; case_decide; try done; try nia.
    + rewrite decide_False; [done|]. intros E. destruct Ei. subst b. rewrite Z.add_comm, Z.mod_add by lia.
      by rewrite Z.mod_small by lia.
Qed.

Lemma stripe_get p i : pool_ok p -> 0 <= i < num_stripes (layout p) -> exists st, zget (stripes p) i = Some st.
Proof. intros Hok Hi. apply zget_is_Some. by rewrite (po_len _ Hok). Qed.

Lemma slot_view_at p i k st : pool_ok p -> zget (stripes p) i = Some st -> 0 <= k ->
  slot_view p (k * zlen (stripes p) + i) = zget (view (allocator st)) k.
Proof.
  intros Hok Hst Hk. pose proof (zget_lt _ _ _ Hst) as Hi. unfold slot_view.
  rewrite Z.add_comm, Z.mod_add, Z.mod_small by lia. rewrite Hst. simpl.
  rewrite Z.add_comm, Z.div_add_l, Z.div_small by lia. f_equal. lia.
Qed.

Lemma stripe_alloc_wp w i mode mo :
  pool_ok (memories w) -> 0 <= i < num_stripes (layout (memories w)) ->
  wp (at_stripe i (alloc_ mo mode))
    (fun r w' =>
       match r with
       | Some k => exists a p', w' = on_pool (fun _ => p') w /\ in_pool (memories w) a /\
           as_unstriped_slot_index k i (zlen (stripes (memories w))) = Some a /\
           a = k * zlen (stripes (memories w)) + i /\ 0 <= k /\
           ~ used (memories w) a /\ reslot (memories w) a (Used (new_affinity mode mo)) p' /\
           (mode = ForceAffineAndClear -> exists m u, mo = Some m /\
              slot_view (memories w) a = Some (UnusedWarm u) /\ affinity u = Some m)
       | None => w' = w /\ (mode = AnySlot -> forall a, in_pool (memories w) a ->
           a mod zlen (stripes (memories w)) = i -> used (memories w) a) /\
           (forall m, mo = Some m -> forall a, a mod zlen (stripes (memories w)) = i ->
              affine_slot m (slot_view (memories w) a) = false)
       end) (fun _ _ => False) w.
Proof.
  intros Hok Hi. set (p := memories w) in *. destruct (stripe_get p i Hok Hi) as [st Hst].
  pose proof (po_each _ Hok _ _ Hst) as [Hg Hlen _ _].
  destruct (inner_alloc (allocator st) mode mo Hg) as (r & s' & Hrun & Hr).
  unfold wp, at_stripe. fold p. rewrite Hst, Hrun. destruct r as [k|].
  - destruct Hr as (Hg' & Hv & Hk & Hnu & Hforce). rewrite Hlen in Hk.
    destruct (as_unstriped_run (num_slots (layout p)) (num_stripes (layout p)) (po_slots _ Hok)
      (po_stripes _ Hok) i k Hi Hk) as (Ha & Hra & _). rewrite <- (po_len _ Hok) in Ha, Hra.
    eexists (k * zlen (stripes p) + i), _. split; [done|]. rewrite <- Hlen in Hk.
    assert (slot_view p (k * zlen (stripes p) + i) = zget (view (allocator st)) k) as Hsv
      by (apply slot_view_at; [done..|lia]).
    split_and!; try done; try lia.
    + intros [mm Hmm]. rewrite Hsv in Hmm. by apply (Hnu mm).
    + by apply stripe_update.
    + intros ->. destruct (Hforce eq_refl) as (m & -> & Haf%bool_decide_eq_true).
      rewrite Hsv. unfold info, unwrap_unused in Haf.
      destruct (zget (view (allocator st)) k) as [[]|]; try done. simpl in Haf. simplify_eq. eauto.
  - destruct Hr as (-> & Hall & Haff). split; [|split].
    + unfold zset. replace (mkStripe (allocator st) (pkey st)) with st by (by destruct st).
      rewrite list_insert_id by (by apply zget_Some in Hst as [_ ?]). by destruct w as [[] ? ? ? ? ?].
    + intros -> a Ha Hmod.
      destruct (from_unstriped_run (num_slots (layout p)) (num_stripes (layout p)) (po_slots _ Hok)
        (po_stripes _ Hok) a Ha) as (_ & _ & Hk & _). rewrite <- (po_len _ Hok), Hmod, (po_len _ Hok), <- Hlen in Hk.
      destruct (Hall eq_refl _ Hk) as [mm Hmm]. exists mm. unfold slot_view. fold p. rewrite Hmod, Hst. simpl.
      by rewrite (po_len _ Hok).
    + intros m -> a Hmod. specialize (Haff m eq_refl (a / zlen (stripes p))).
      unfold slot_view, affine_to, info, unwrap_unused in *. fold p. rewrite Hmod, Hst. simpl.
      destruct (zget (view (allocator st)) (a / zlen (stripes p))) as [[]|]; try done. simpl in *.
      apply bool_decide_eq_false in Haff. apply bool_decide_eq_false. congruence.
Qed.

Lemma stripe_free_wp w i k n mm :
  pool_ok (memories w) -> 0 <= i < num_stripes (layout (memories w)) -> 0 <= k ->
  slot_view (memories w) (k * zlen (stripes (memories w)) + i) = Some (Used mm) ->
  0 <= n <= max_memory_bytes (layout (memories w)) ->
  wp (at_stripe i (IndexAllocator.free k n))
    (fun _ w' => exists p', w' = on_pool (fun _ => p') w /\
       reslot (memories w) (k * zlen (stripes (memories w)) + i)
         (UnusedWarm (mkUnused mm n Link_default Link_default)) p')
    (fun _ _ => False) w.
Proof.
  intros Hok Hi Hk Hsv Hn. set (p := memories w) in *. destruct (stripe_get p i Hok Hi) as [st Hst].
  rewrite (slot_view_at p i k st) in Hsv by done.
  pose proof (po_each _ Hok _ _ Hst) as [Hg Hlen Hby _].
  destruct (inner_free (allocator st) k mm n (max_memory_bytes (layout p)) Hg Hsv Hn Hby) as (s' & Hrun & Hg' & Hv).
  { rewrite Hlen. pose proof (po_total _ Hok). pose proof (po_mapping _ Hok). pose proof (po_pre _ Hok).
    pose proof (po_fits _ Hok). pose proof (po_slots _ Hok). pose proof (po_stripes _ Hok).
    pose proof (po_max _ Hok) as [_ ?].
    assert (stripe_slots (num_slots (layout p)) (num_stripes (layout p)) i <= num_slots (layout p)) as Hle.
    { set (c := stripe_slots _ _ _). destruct (decide (c <= 0)); [lia|].
      assert (c - 1 < c) as Hc by lia. apply stripe_slots_spec in Hc; [nia|done|done|lia]. }
    nia. }
  unfold wp, at_stripe. fold p. rewrite Hst, Hrun. eexists. split; [done|].
  apply stripe_update; try done; [by eapply zget_lt|apply Hn].
Qed.

(** ** Ownership

    Every slot that is in use has an owner: an operation that is running, a live
    memory, or one of two decommit queues (the shared one, [false], and the one of
    the deallocation that is running, [true]) with the bytes it left resident. *)

Inductive owner := Taken | Live (s : MemoryImageSlot) | Queued (k : bool) (s : MemoryImageSlot) (n : Z).

Definition region p a (x : Z) : Prop :=
  mapping p + slot_base (layout p) a <= x < mapping p + slot_base (layout p) a + max_memory_bytes (layout p).

Definition placed p a (s : MemoryImageSlot) : Prop :=
  base s = mapping p + slot_base (layout p) a /\ static_size s = max_memory_bytes (layout p).

Definition slot_ok p (m : Z -> cell) a (sl : ImageSlot) : Prop :=
  match sl with
  | Unmapped => forall x, region p a x -> m x = mkCell 0 0 false
  | Unknown => True
  | PreviouslyUsed s => placed p a s /\ clean images s m
  end.

Abbreviation Ranges := (bool -> list (Z * Z)).

Definition entry p (m : Z -> cell) (raws : Ranges) (sound : bool -> bool) a (o : option owner)
    (sl : ImageSlot) : Prop :=
  match o with
  | None | Some Taken => slot_ok p m a sl
  | Some (Live s) => sl = Unknown /\ placed p a s /\ in_use images s m
  | Some (Queued k s n) => sl = Unknown /\ placed p a s /\ 0 <= n <= max_memory_bytes (layout p) /\
      (sound k = true -> pending images s m (raws k))
  end.

Record Inv p (m : Z -> cell) (own : gmap Z owner) (raws : Ranges) (sound : bool -> bool) : Prop := {
  iv_ok : pool_ok p;
  iv_range a : is_Some (own !! a) -> in_pool p a;
  iv_used a : in_pool p a -> used p a <-> is_Some (own !! a);
  iv_entry a sl : zget (image_slots p) a = Some sl -> entry p m raws sound a (own !! a) sl;
  iv_raw (k : bool) d : d ∈ raws k -> exists a s n, own !! a = Some (Queued k s n) /\ within s [d];
  iv_zero : restores_original_mapping = false -> forall k : bool, raws k = []
}.

Lemma region_disjoint p a b x : pool_ok p -> a <> b -> region p a x -> ~ region p b x.
Proof.
  intros Hok Hne. pose proof (po_fits _ Hok). pose proof (po_max _ Hok) as [_ ?].
  unfold region, slot_base. intros Ha Hb. destruct (decide (a < b)); nia.
Qed.

Lemma in_use_ext s (m m' : Z -> cell) : (forall o, 0 <= o < static_size s -> m' (base s + o) = m (base s + o)) ->
  in_use images s m -> in_use images s m'.
Proof. intros E (Hd & Hwf & Hm). split_and!; [done..|]. intros o Ho. rewrite E by done. by apply Hm. Qed.

Lemma pending_ext s (m m' : Z -> cell) ds :
  (forall o, 0 <= o < static_size s -> m' (base s + o) = m (base s + o)) ->
  pending images s m ds -> pending images s m' ds.
Proof. intros E [Hd Hwf Hm]. split; [done..|]. intros o Ho. rewrite E by done. by apply Hm. Qed.

Lemma placed_region p a s o : placed p a s -> 0 <= o < static_size s -> region p a (base s + o).
Proof. intros [-> ->] Ho. unfold region. lia. Qed.

Lemma placed_fixed p p' a s : fixed p p' -> placed p a s <-> placed p' a s.
Proof. intros [E1 E2 E3 E4 E5]. unfold placed. by rewrite E1, E3. Qed.

Lemma region_fixed p p' a x : fixed p p' -> region p a x <-> region p' a x.
Proof. intros [E1 E2 E3 E4 E5]. unfold region. by rewrite E1, E3. Qed.

(** An entry depends only on the bytes of its slot. *)
Lemma entry_ext p p' m m' (raws raws' : Ranges) (sound sound' : bool -> bool) a o sl :
  fixed p p' -> (forall x, region p a x -> m' x = m x) ->
  (forall (k : bool) s n, o = Some (Queued k s n) ->
     (forall d, d ∈ raws k -> d ∈ raws' k) /\ (sound' k = true -> sound k = true)) ->
  entry p m raws sound a o sl -> entry p' m' raws' sound' a o sl.
Proof.
  intros Hf Hm Hk. pose proof Hf as [_ _ El _ _].
  assert (slot_ok p m a sl -> slot_ok p' m' a sl) as Hs.
  { destruct sl as [| |s]; simpl; [|done|].
    - intros Hz x Hx%(region_fixed _ _ _ _ Hf). rewrite Hm by done. by apply Hz.
    - intros [Hp Hc]. split; [by apply (placed_fixed p)|]. apply pending_clean.
      apply pending_clean in Hc. eapply pending_ext; [|done]. intros o' Ho. by apply Hm, placed_region. }
  destruct o as [[|s|k s n]|]; simpl; try done.
  - intros (-> & Hp & Hi). split_and!; [done|by apply (placed_fixed p)|].
    eapply in_use_ext; [|done]. intros o' Ho. by apply Hm, placed_region.
  - destruct (Hk k s n eq_refl) as [Hsub Hsd]. rewrite El.
    intros (-> & Hp & Hn & Hpd). split_and!; try done; try lia; [by apply (placed_fixed p)|].
    intros Hso. apply (pending_mono _ _ _ (raws k)); [done|]. eapply pending_ext; [|auto].
    intros o' Ho. by apply Hm, placed_region.
Qed.

(** Changing one slot: its owner, its state, its bytes. *)
Lemma Inv_update p m own (raws raws' : Ranges) sound a o' p' m' :
  Inv p m own raws sound -> in_pool p a -> pool_ok p' -> fixed p p' ->
  (forall b, in_pool p b -> b <> a -> slot_view p' b = slot_view p b /\
     zget (image_slots p') b = zget (image_slots p) b) ->
  (forall x, ~ region p a x -> m' x = m x) ->
  (used p' a <-> is_Some o') ->
  (forall sl, zget (image_slots p') a = Some sl -> entry p' m' raws' sound a o' sl) ->
  (forall (k : bool) d, d ∈ raws k -> d ∈ raws' k) ->
  (forall (k : bool) d, d ∈ raws' k -> (d ∈ raws k /\ forall s n, own !! a <> Some (Queued k s n)) \/
     exists s n, o' = Some (Queued k s n) /\ within s [d]) ->
  (restores_original_mapping = false -> forall k : bool, raws' k = []) ->
  Inv p' m' (partial_alter (fun _ => o') a own) raws' sound.
Proof.
  intros HI Ha Hok' Hf Hoth Hm Hu He Hsub Hraw Hz. pose proof HI as [Hok Hr Hused Hent Hiraw _].
  pose proof Hf as [_ _ El _ _].
  assert (forall b, in_pool p' b <-> in_pool p b) as Hin by (intros b; unfold in_pool; by rewrite El).
  split; [done| | | | |done].
  - intros b. rewrite Hin. destruct (decide (b = a)) as [->|]; [done|].
    rewrite lookup_partial_alter_ne by done. apply Hr.
  - intros b Hb%Hin. destruct (decide (b = a)) as [->|Hne]; [by rewrite lookup_partial_alter_eq|].
    rewrite lookup_partial_alter_ne by done. unfold used. rewrite (proj1 (Hoth b Hb Hne)). by apply Hused.
  - intros b sl Hsl. destruct (decide (b = a)) as [->|Hne]; [rewrite lookup_partial_alter_eq; auto|].
    rewrite lookup_partial_alter_ne by done.
    assert (in_pool p b) as Hb.
    { apply Hin. apply zget_lt in Hsl. by rewrite (po_image_slots _ Hok') in Hsl. }
    rewrite (proj2 (Hoth b Hb Hne)) in Hsl. apply (entry_ext p p' m m' raws raws' sound sound); eauto.
    intros x Hx. apply Hm. intros Hx'. by apply (region_disjoint p a b x Hok).
  - intros k d Hd. destruct (Hraw k d Hd) as [[Hd' Hno]|(s & n & Ho & Hw)].
    + destruct (Hiraw k d Hd') as (b & s & n & Hb & Hw). exists b, s, n. split; [|done].
      destruct (decide (b = a)) as [->|]; [by destruct (Hno s n)|]. by rewrite lookup_partial_alter_ne.
    + exists a, s, n. by rewrite lookup_partial_alter_eq.
Qed.

(** The same for an owner that has nothing left to decommit. *)
Lemma Inv_step p m own raws sound a o' p' m' :
  Inv p m own raws sound -> in_pool p a -> pool_ok p' -> fixed p p' ->
  (forall b, in_pool p b -> b <> a -> slot_view p' b = slot_view p b /\
     zget (image_slots p') b = zget (image_slots p) b) ->
  (forall x, ~ region p a x -> m' x = m x) ->
  (used p' a <-> is_Some o') ->
  (forall sl, zget (image_slots p') a = Some sl -> entry p' m' raws sound a o' sl) ->
  (forall (k : bool) s n, own !! a = Some (Queued k s n) -> raws k = []) ->
  Inv p' m' (partial_alter (fun _ => o') a own) raws sound.
Proof.
  intros HI Ha Hok' Hf Hoth Hm Hu He Hk. eapply Inv_update; eauto; [|by destruct HI].
  intros k d Hd. left. split; [done|]. intros s n Hq. rewrite (Hk _ _ _ Hq) in Hd. by apply not_elem_of_nil in Hd.
Qed.

(** ** Operations keep the ownership *)

Definition INV w (own : gmap Z owner) (raws : Ranges) (sound : bool -> bool) : Prop :=
  Inv (memories w) (cells (space w)) own raws sound.

(** An operation of the pool changes only the pool and the address space, and no
    byte of a live memory. *)
Record frame w w' (own : gmap Z owner) : Prop := {
  fr_fixed : fixed (memories w) (memories w');
  fr_queue : decommit_queue w' = decommit_queue w;
  fr_batch : decommit_batch_size w' = decommit_batch_size w;
  fr_live : live_memories w' = live_memories w;
  fr_pagemap : pagemap w' = pagemap w;
  fr_keeps b s x : own !! b = Some (Live s) -> region (memories w) b x ->
    cells (space w') x = cells (space w) x
}.

Lemma frame_refl w own : frame w w own.
Proof. done. Qed.

Lemma frame_trans w1 w2 w3 (own own' : gmap Z owner) :
  frame w1 w2 own -> (forall b s, own !! b = Some (Live s) -> own' !! b = Some (Live s)) ->
  frame w2 w3 own' -> frame w1 w3 own.
Proof.
  intros [F1 Q1 B1 L1 P1 K1] Hl [F2 Q2 B2 L2 P2 K2]. split; try congruence.
  - by eapply fixed_trans.
  - intros b s x Hb Hx. rewrite <- (K1 b s x) by done. apply (K2 b s); [auto|].
    by apply (region_fixed _ _ _ _ F1).
Qed.

Lemma frame_pool w p' own : fixed (memories w) p' -> frame w (on_pool (fun _ => p') w) own.
Proof. done. Qed.

Lemma live_insert (own : gmap Z owner) a o : (forall s, own !! a <> Some (Live s)) ->
  forall b s, own !! b = Some (Live s) -> <[a:=o]> own !! b = Some (Live s).
Proof. intros Hn b s Hb. rewrite lookup_insert_ne; [done|]. intros ->. by destruct (Hn s). Qed.

Lemma live_delete (own : gmap Z owner) a : (forall s, own !! a <> Some (Live s)) ->
  forall b s, own !! b = Some (Live s) -> delete a own !! b = Some (Live s).
Proof. intros Hn b s Hb. rewrite lookup_delete_ne; [done|]. intros ->. by destruct (Hn s). Qed.

Section ops.
Context (raws : Ranges) (sound : bool -> bool).
Implicit Types (own : gmap Z owner).

Lemma pool_alloc_wp w own i mode mo :
  INV w own raws sound -> 0 <= i < num_stripes (layout (memories w)) ->
  wp (at_stripe i (alloc_ mo mode))
    (fun r w' =>
       match r with
       | Some k => exists a, own !! a = None /\ in_pool (memories w) a /\
           as_unstriped_slot_index k i (zlen (stripes (memories w))) = Some a /\
           a = k * zlen (stripes (memories w)) + i /\ 0 <= k /\
           frame w w' own /\ INV w' (<[a := Taken]> own) raws sound /\ space w' = space w /\
           slot_view (memories w') a = Some (Used (new_affinity mode mo)) /\
           (forall b, in_pool (memories w) b -> b <> a -> slot_view (memories w') b = slot_view (memories w) b) /\
           (mode = ForceAffineAndClear -> exists m u, mo = Some m /\
              slot_view (memories w) a = Some (UnusedWarm u) /\ affinity u = Some m)
       | None => w' = w /\ (mode = AnySlot -> forall a, in_pool (memories w) a ->
           a mod zlen (stripes (memories w)) = i -> is_Some (own !! a)) /\
           (forall m, mo = Some m -> forall a, a mod zlen (stripes (memories w)) = i ->
              affine_slot m (slot_view (memories w) a) = false)
       end) (fun _ _ => False) w.
Proof.
  intros HI Hi. eapply wp_mono; [apply stripe_alloc_wp; [apply HI|done]| |done].
  intros [k|] w' Hr.
  - destruct Hr as (a & p' & -> & Ha & Hix & Ea & Hk & Hnu & [Hok' Hf Him Hv] & Hforce). exists a.
    assert (own !! a = None) as Hnone.
    { apply eq_None_not_Some. intros Hs. apply Hnu. by apply (iv_used _ _ _ _ _ HI). }
    assert (slot_view p' a = Some (Used (new_affinity mode mo))) as Hva by (rewrite Hv, decide_True; done).
    split_and!; try done.
    + eapply Inv_step; try done; simpl.
      * intros b Hb Hne. rewrite Him, Hv, decide_False by done. done.
      * split; [by eauto|]. intros _. by eexists.
      * intros sl Hsl. rewrite Him in Hsl. pose proof (iv_entry _ _ _ _ _ HI a sl Hsl) as He.
        rewrite Hnone in He. eapply (entry_ext (memories w) p' _ _ raws raws sound sound a (Some Taken)); done.
      * intros k' s n. by rewrite Hnone.
    + simpl. intros b Hb Hne. by rewrite Hv, decide_False.
  - destruct Hr as (-> & Hall & Haff). split; [done|]. split; [|done]. intros Hm a Ha Hmod.
    apply (iv_used _ _ _ _ _ HI); [done|]. by apply Hall.
Qed.

Lemma pool_free_wp w own i k n mm :
  let a := k * zlen (stripes (memories w)) + i in
  INV w own raws sound -> 0 <= i < num_stripes (layout (memories w)) -> 0 <= k ->
  own !! a = Some Taken -> slot_view (memories w) a = Some (Used mm) ->
  0 <= n <= max_memory_bytes (layout (memories w)) ->
  wp (at_stripe i (IndexAllocator.free k n))
    (fun _ w' => frame w w' own /\ INV w' (delete a own) raws sound /\ space w' = space w /\
       slot_view (memories w') a = Some (UnusedWarm (mkUnused mm n Link_default Link_default)) /\
       (forall b, in_pool (memories w) b -> b <> a -> slot_view (memories w') b = slot_view (memories w) b))
    (fun _ _ => False) w.
Proof.
  intros a HI Hi Hk Hown Hsv Hn. assert (in_pool (memories w) a) as Ha by (apply (iv_range _ _ _ _ _ HI); eauto).
  eapply wp_mono; [by apply (stripe_free_wp w i k n mm); [apply HI|..]| |done].
  intros [] w' (p' & -> & [Hok' Hf Him Hv]). fold a in Hv. simpl.
  assert (slot_view p' a = Some (UnusedWarm (mkUnused mm n Link_default Link_default))) as Hva
    by (rewrite Hv, decide_True; done).
  split_and!; try done.
  - eapply Inv_step; try done; simpl.
    + intros b Hb Hne. rewrite Him, Hv, decide_False by done. done.
    + split; [intros [mm' E]; congruence|by intros []].
    + intros sl Hsl. rewrite Him in Hsl. pose proof (iv_entry _ _ _ _ _ HI a sl Hsl) as He.
      rewrite Hown in He. eapply (entry_ext (memories w) p' _ _ raws raws sound sound a None); done.
    + intros k' s n'. by rewrite Hown.
  - intros b Hb Hne. by rewrite Hv, decide_False.
Qed.

Lemma taken_view w own a : INV w own raws sound -> is_Some (own !! a) ->
  in_pool (memories w) a /\ exists mm, slot_view (memories w) a = Some (Used mm).
Proof.
  intros HI Ha. pose proof (iv_range _ _ _ _ _ HI a Ha) as Hin. split; [done|].
  by apply (iv_used _ _ _ _ _ HI).
Qed.

Lemma get_base_wp w a P Q : pool_ok (memories w) -> in_pool (memories w) a ->
  P (mapping (memories w) + slot_base (layout (memories w)) a) w -> wp (get_base a) P Q w.
Proof.
  intros Hok [Ha0 Ha] HP. pose proof (po_total _ Hok). pose proof (po_mapping _ Hok).
  pose proof (po_pre _ Hok). pose proof (po_fits _ Hok). pose proof (po_max _ Hok) as [_ ?].
  set (l := layout (memories w)) in *. assert (slot_bytes l * a <= slot_bytes l * num_slots l) by nia.
  unfold get_base. apply wp_bind. eapply wp_run; [done|]. fold l.
  apply wp_bind, wp_assert; [by apply Z.ltb_lt|]. apply wp_bind. eapply wp_run.
  { unfold expect, or_else, bind, HostAlignedByteCount.checked_mul, HostAlignedByteCount.checked_add, checked_add.
    rewrite (proj2 (Z.leb_le (slot_bytes l * a) _)) by lia. simpl.
    rewrite (proj2 (Z.leb_le (slot_bytes l * a + _) _)) by lia. done. }
  apply wp_bind. eapply wp_run; [done|]. apply wp_bind, wp_assert; [apply Z.leb_le; lia|].
  apply wp_bind. eapply wp_run; [done|]. by apply wp_ret.
Qed.

(** Replacing the recorded state of a slot the operation owns. *)
Lemma replace_image_slot_wp w own a sl' : INV w own raws sound -> own !! a = Some Taken ->
  slot_ok (memories w) (cells (space w)) a sl' ->
  wp (replace_image_slot a sl')
    (fun sl w' => slot_ok (memories w) (cells (space w)) a sl /\ zget (image_slots (memories w)) a = Some sl /\
       frame w w' own /\ INV w' own raws sound /\
       space w' = space w /\ zget (image_slots (memories w')) a = Some sl' /\ stripes (memories w') = stripes (memories w))
    (fun _ _ => False) w.
Proof.
  intros HI Hown Hsl'. pose proof (iv_ok _ _ _ _ _ HI) as Hok.
  assert (in_pool (memories w) a) as Ha by (apply (iv_range _ _ _ _ _ HI); eauto).
  assert (0 <= a < zlen (image_slots (memories w))) as Hlt by (by rewrite (po_image_slots _ Hok)).
  destruct (proj2 (zget_is_Some _ _) Hlt) as [sl Hsl].
  unfold replace_image_slot. apply wp_bind. eapply wp_run; [done|]. apply wp_bind. eapply wp_unwrap; [done|].
  apply wp_bind. eapply wp_run; [done|]. apply wp_ret. simpl.
  pose proof (iv_entry _ _ _ _ _ HI a sl Hsl) as He. rewrite Hown in He. simpl in He.
  split; [done|]. split; [done|]. split; [done|]. split.
  - unfold INV. erewrite <- (partial_alter_self own a). eapply Inv_step; try done; simpl.
    + apply (pool_ok_ext (memories w)); try done; simpl; [by rewrite zlen_zset|]. apply Hok.
    + intros b Hb Hne. by rewrite zget_zset_ne.
    + by apply (iv_used _ _ _ _ _ HI).
    + intros sl1. rewrite zget_zset_eq, Hown by done. intros [= <-]. done.
    + intros k s n. by rewrite Hown.
  - by rewrite zget_zset_eq.
Qed.

(** While an operation owns slot [a]: the pool knows nothing about it. *)
Record holding w own a w' : Prop := {
  hd_frame : frame w w' own;
  hd_inv : INV w' own raws sound;
  hd_stripes : stripes (memories w') = stripes (memories w);
  hd_unknown : zget (image_slots (memories w')) a = Some Unknown
}.

Lemma holding_trans w1 w2 w3 own a : holding w1 own a w2 -> holding w2 own a w3 -> holding w1 own a w3.
Proof.
  intros [F1 _ S1 _] [F2 I2 S2 U2]. split; [by eapply frame_trans|done|congruence|done].
Qed.

(** A method of the slot stays inside of it. *)
Lemma on_slot_wp {A} w own a s (m : M (MemoryImageSlot * Space) PoolError A) R :
  INV w own raws sound -> own !! a = Some Taken -> zget (image_slots (memories w)) a = Some Unknown ->
  placed (memories w) a s ->
  wp m (fun r => does s (space w) (R r)) (fun _ => confined s (cells (space w))) (s, space w) ->
  wp (on_slot s m)
    (fun r w' => holding w own a w' /\ placed (memories w') a r.2 /\ R r.1 r.2 (cells (space w')))
    (fun _ w' => holding w own a w') w.
Proof.
  intros HI Hown Hun [Hb Hst] Hm.
  assert (forall s' sp', confined s (cells (space w)) (s', sp') -> holding w own a (set_space sp' w)) as Hh.
  { intros s' sp' (_ & _ & E). simpl in E.
    assert (forall x, ~ region (memories w) a x -> cells sp' x = cells (space w) x) as Hx.
    { intros x Hx. apply E. unfold region in Hx. by rewrite Hb, Hst. }
    split; try done.
    - split; try done. simpl. intros b s1 x Hl Hr. apply Hx.
      assert (b <> a) by congruence. eapply region_disjoint; [apply HI|done|done].
    - unfold INV. erewrite <- (partial_alter_self own a). eapply Inv_step; try done; simpl.
      + apply (iv_range _ _ _ _ _ HI). eauto.
      + apply HI.
      + by apply (iv_used _ _ _ _ _ HI), (iv_range _ _ _ _ _ HI); eauto.
      + intros sl. rewrite Hun, Hown. intros [= <-]. done.
      + intros k s1 n. by rewrite Hown. }
  unfold wp, on_slot in *. destruct (m (s, space w)) as [r [s' sp']|e [s' sp']|]; [|by eauto|done].
  destruct Hm as [Hc HR]. split; [by eauto|]. split; [|done]. destruct Hc as (E1 & E2 & _). simpl in *.
  split; simpl; congruence.
Qed.

Lemma created_clean w a (m : Z -> cell) : pool_ok (memories w) ->
  (forall x, region (memories w) a x -> m x = mkCell 0 0 false) ->
  clean images (create (mapping (memories w) + slot_base (layout (memories w)) a) 0
                  (max_memory_bytes (layout (memories w)))) m.
Proof.
  intros Hok Hz. pose proof (po_max _ Hok) as [? ?]. split; [done|]. split.
  - split; simpl; [done|apply aligned_0|lia|done].
  - intros o Ho. simpl in *. rewrite Hz by (unfold region; lia). by rewrite (proj2 (Z.ltb_ge _ _)) by lia.
Qed.

(** Taking a slot gives a clean one: remembered, never used, or mapped afresh. *)
Lemma take_memory_image_slot_wp w own a : INV w own raws sound -> own !! a = Some Taken ->
  wp (take_memory_image_slot a)
    (fun s w' => holding w own a w' /\ placed (memories w') a s /\ clean images s (cells (space w')))
    (fun _ w' => holding w own a w') w.
Proof.
  intros HI Hown. unfold take_memory_image_slot. apply wp_bind.
  eapply wp_mono; [by apply (replace_image_slot_wp w own a)| |done].
  intros sl w1 (Hsl & _ & F1 & I1 & Esp & Hun & Est). rewrite <- Esp in Hsl.
  assert (holding w own a w1) as Hh1 by by (split).
  pose proof (fr_fixed _ _ _ F1) as Hf. assert (pool_ok (memories w1)) as Hok1 by apply I1.
  assert (in_pool (memories w1) a) as Ha by (apply (iv_range _ _ _ _ _ I1); eauto).
  destruct sl as [| |s]; simpl.
  - apply wp_bind, wp_bind, get_base_wp; [done..|]. apply wp_bind. eapply wp_run; [done|]. apply wp_ret, wp_ret.
    split; [done|]. split; [done|]. apply created_clean; [done|]. intros x Hx. apply Hsl.
    by apply (region_fixed _ _ _ _ Hf).
  - apply wp_bind, wp_bind, get_base_wp; [done..|]. apply wp_bind. eapply wp_run; [done|]. apply wp_ret.
    set (s := create _ _ _). assert (slot_wf images s) as Hwf.
    { destruct (po_max _ Hok1). split; simpl; [done|apply aligned_0|lia|done]. }
    apply wp_bind. eapply wp_mono.
    + apply (on_slot_wp w1 own a s reset_with_anon_memory); [done..|].
      by apply (reset_with_anon_memory_wp images s (space w1)).
    + intros [u s'] w2 (Hh2 & Hp & E & Hwf' & Hpr). apply wp_ret. simpl in *.
      split; [by eapply holding_trans|]. split; [done|]. split_and!; try done. by rewrite E.
    + intros e w2 Hh2. by eapply holding_trans.
  - destruct Hsl as [Hp Hc]. apply wp_bind, wp_ret, wp_ret. split; [done|].
    split; [by apply (placed_fixed _ _ _ _ Hf)|done].
Qed.

Lemma return_memory_image_slot_wp w own a image : INV w own raws sound -> own !! a = Some Taken ->
  zget (image_slots (memories w)) a = Some Unknown ->
  (forall s, image = Some s -> placed (memories w) a s /\ clean images s (cells (space w))) ->
  wp (return_memory_image_slot a image)
    (fun _ w' => frame w w' own /\ INV w' own raws sound /\ space w' = space w /\
       stripes (memories w') = stripes (memories w)) (fun _ _ => False) w.
Proof.
  intros HI Hown Hun Him. unfold return_memory_image_slot. apply wp_bind.
  apply (wp_run _ _ _ _ (match image with Some s => PreviouslyUsed s | None => Unknown end) w).
  { destruct image as [s|]; [|done]. destruct (Him s eq_refl) as [_ (Hd & _)]. by rewrite Hd. }
  apply wp_bind. eapply wp_mono; [apply (replace_image_slot_wp w own a); [done..|]| |done].
  { destruct image; [by apply Him|done]. }
  intros sl w' (_ & Hsl & F & I & Esp & _ & Est). rewrite Hun in Hsl. simplify_eq. by apply wp_ret.
Qed.

(** ** Allocation *)

(** What a new memory is: exactly the bytes of its image, and zeros. *)
Definition fresh_memory p (m : Z -> cell) (req : Request) a (s : MemoryImageSlot) : Prop :=
  placed p a s /\ exists n img,
    Memory.minimum_byte_size (ty req) = Some n /\
    img = (match memory_index req with Some _ => default None (memory_image req) | None => None end) /\
    n <= accessible s <= max_memory_bytes (layout p) /\ in_use images s m /\
    forall o, 0 <= o < max_memory_bytes (layout p) ->
      m (base s + o) = mkCell (expected images img o) (expected images img o) (o <? accessible s).

(** What the engine checks before it allocates: the type fits the pool, images
    fit their memory and keys come from the pool. *)
Record request_ok p (req : Request) : Prop := {
  ro_size : exists n, Memory.minimum_byte_size (ty req) = Some n /\ 0 <= n <= max_memory_bytes (layout p) /\
    forall i, memory_image req = Some (Some i) -> image_below images (Some i) n;
  ro_pkey : match get_pkey req with
            | Some i => 0 <= i < num_stripes (layout p)
            | None => num_stripes (layout p) < 2
            end
}.

Lemma allocate_at_wp w own req i k a :
  INV w own raws sound -> request_ok (memories w) req -> own !! a = Some Taken ->
  as_unstriped_slot_index k i (zlen (stripes (memories w))) = Some a ->
  wp (allocate_at images tunables req i k)
    (fun r w' => r.1 = a /\ holding w own a w' /\ fresh_memory (memories w') (cells (space w')) req a r.2)
    (fun _ w' => frame w w' own /\ INV w' own raws sound) w.
Proof.
  intros HI [(n & Hn & Hmax & Himg) _] Hown Hix. pose proof (iv_ok _ _ _ _ _ HI) as Hok.
  assert (in_pool (memories w) a) as Ha by (apply (iv_range _ _ _ _ _ HI); eauto).
  assert (forall w', holding w own a w' -> frame w w' own /\ INV w' own raws sound) as Hfail by (by intros ? []).
  pose proof (po_reach _ Hok). pose proof (po_step _ Hok). pose proof (po_max _ Hok) as [_ Hus].
  unfold allocate_at. apply wp_bind. eapply wp_run; [done|]. apply wp_bind. eapply wp_unwrap; [done|].
  apply wp_bind. eapply wp_run; [done|]. apply wp_bind. eapply wp_unwrap.
  { apply checked_add_Some. split; [done|]. change u64_MAX with usize_MAX. cbn. lia. }
  apply wp_bind. eapply wp_run.
  { unfold bytes_to_next_stripe_slot, expect, or_else, HostAlignedByteCount.checked_mul.
    rewrite (proj2 (Z.leb_le _ _)) by done. done. }
  apply wp_bind, wp_assert; [apply Z.leb_le; cbn; lia|]. apply wp_bind, get_base_wp; [done..|].
  apply wp_bind. eapply wp_mono; [by apply (take_memory_image_slot_wp w own a)| |eauto].
  intros s w1 (Hh1 & Hp1 & Hc1). pose proof Hh1 as [F1 I1 _ U1].
  set (img := match memory_index req with Some _ => default None (memory_image req) | None => None end).
  assert (image_below images img n) as Hbelow.
  { unfold img. destruct (memory_index req); [|done].
    destruct (memory_image req) as [[j|]|] eqn:Ei; simpl; try done. by apply (Himg j). }
  apply wp_bind, (wp_mono _ (fun im w' => im = img /\ w' = w1) _ (fun _ w' => w' = w1)).
  { unfold img. destruct (memory_index req); [|by apply wp_ret]. by destruct (memory_image req). }
  2: { intros e w' ->. eauto. }
  intros im w' [-> ->]. apply wp_bind. eapply wp_unwrap; [done|].
  apply wp_bind. eapply wp_unwrap; [apply try_from_in; lia|]. apply wp_bind. eapply wp_mono.
  - eapply (on_slot_wp w1 own a s); [done..|]. apply instantiate_wp; [done| |done].
    destruct Hp1 as [_ ->]. rewrite (fx_layout _ _ (fr_fixed _ _ _ F1)). done.
  - intros [u s'] w2 (Hh2 & Hp2 & [Hd Hi Hwf Hs Ht Hpr]). simpl in *.
    pose proof (holding_trans _ _ _ _ _ Hh1 Hh2) as Hh. destruct (admitted req); [|exact (Hfail w2 Hh)].
    apply wp_ret. simpl. split; [done|]. split; [done|]. split; [done|]. exists n, img.
    pose proof Hp2 as [_ Est]. rewrite <- Est.
    split; [done|]. split; [done|]. split; [split; [done|apply Hwf]|].
    split; [by split_and!; [..|apply pristine_mapped]|].
    intros o Ho. rewrite Hpr by done. by rewrite Hi.
  - intros e w2 Hh2. apply Hfail. by eapply holding_trans.
Qed.

Lemma allocate_wp w own req :
  INV w own raws sound -> request_ok (memories w) req ->
  wp (allocate images tunables req)
    (fun r w' => own !! r.1 = None /\ frame w w' own /\ INV w' (<[r.1 := Live r.2]> own) raws sound /\
       fresh_memory (memories w') (cells (space w')) req r.1 r.2)
    (fun e w' => frame w w' own /\ INV w' own raws sound) w.
Proof.
  intros HI Hreq. pose proof (iv_ok _ _ _ _ _ HI) as Hok. pose proof (po_max _ Hok) as [_ Hm0].
  set (i := default 0 (get_pkey req)).
  assert (0 <= i < num_stripes (layout (memories w))) as Hi.
  { unfold i. pose proof (ro_pkey _ _ Hreq) as Hpk. destruct (get_pkey req); [done|].
    pose proof (po_stripes _ Hok). simpl. lia. }
  unfold allocate. apply wp_bind, (wp_run _ _ _ _ i w).
  { unfold i. pose proof (ro_pkey _ _ Hreq) as Hpk. destruct (get_pkey req); [done|].
    unfold bind, pool. rewrite (po_len _ Hok), (proj2 (Z.ltb_lt _ _)) by done. done. }
  apply wp_bind. eapply wp_mono; [by apply (pool_alloc_wp w own i AnySlot)| |done].
  intros [k|] w1 Hr.
  - destruct Hr as (a & Hnone & Ha & Hix & Ea & Hk & F1 & I1 & _).
    assert (forall s, own !! a <> Some (Live s)) as Hnl by (intros s; by rewrite Hnone).
    pose proof (fr_fixed _ _ _ F1) as Hf. pose proof (fx_layout _ _ Hf) as El.
    assert (zlen (stripes (memories w)) = zlen (stripes (memories w1))) as Elen.
    { rewrite (po_len _ Hok), (po_len _ (iv_ok _ _ _ _ _ I1)). by rewrite El. }
    apply wp_on_err. eapply wp_mono.
    + eapply (allocate_at_wp w1 (<[a := Taken]> own) req i k a); [done| |by rewrite lookup_insert_eq|by rewrite <- Elen].
      destruct Hreq. split; by rewrite El.
    + intros [a' s] w2 (Ea' & [F2 I2 _ U2] & Hfresh). simpl in *. subst a'. split; [done|].
      split; [by eapply frame_trans; [|by apply live_insert|]|]. split; [|done].
      rewrite <- (insert_insert_eq own a (Live s) Taken). eapply Inv_step; try done; simpl.
      * by apply (iv_range _ _ _ _ _ I2); rewrite lookup_insert_eq.
      * apply I2.
      * rewrite (iv_used _ _ _ _ _ I2), lookup_insert_eq by
          (apply (iv_range _ _ _ _ _ I2); by rewrite lookup_insert_eq). done.
      * intros sl. rewrite U2. intros [= <-]. simpl. destruct Hfresh as (? & ? & ? & ? & ? & ? & ? & ?). done.
      * intros k' s' n. by rewrite lookup_insert_eq.
    + intros e w2 [F2 I2].
      assert (frame w w2 own) as F12 by (by eapply frame_trans; [|by apply live_insert|]).
      pose proof (fx_layout _ _ (fr_fixed _ _ _ F12)) as El2.
      assert (zlen (stripes (memories w)) = zlen (stripes (memories w2))) as Elen2.
      { rewrite (po_len _ Hok), (po_len _ (iv_ok _ _ _ _ _ I2)). by rewrite El2. }
      destruct (taken_view w2 _ a I2) as [_ [mm Hv]]; [by rewrite lookup_insert_eq|].
      rewrite Elen2 in Ea. subst a.
      eapply wp_mono; [eapply (pool_free_wp w2); [done|by rewrite El2|done|by rewrite lookup_insert_eq|done|rewrite El2; lia]| |done].
      intros [] w3 (F3 & I3 & _). split.
      * eapply frame_trans; [done| |done]. by apply live_insert.
      * rewrite delete_insert_eq, delete_id in I3 by done. done.
  - destruct Hr as [-> _]. apply wp_bind. unfold wp at 1, at_stripe.
    destruct (stripe_get (memories w) i Hok Hi) as [st Hst]. rewrite Hst. simpl.
    unfold zset. replace (mkStripe (allocator st) (pkey st)) with st by (by destruct st).
    rewrite list_insert_id by (by apply zget_Some in Hst as [_ ?]). by destruct w as [[] ? ? ? ? ?].
Qed.

(** *** When a slot is refused

    Of the errors of [allocate], only the one of the index allocator is that the
    limit is reached. *)

Definition limit_reached (e : PoolError) : bool :=
  match e with PoolConcurrencyLimitError _ => true | _ => false end.

Definition avoids {S A} (m : M S PoolError A) : Prop :=
  forall s e s', m s = Fail e s' -> limit_reached e = false.

Lemma avoids_bind {S A B} (m : M S PoolError A) (f : A -> M S PoolError B) :
  avoids m -> (forall x, avoids (f x)) -> avoids (bind m f).
Proof.
  intros Hm Hf s e s'. unfold bind. destruct (m s) as [x s1|e1 s1|] eqn:E; [apply Hf| |done].
  intros [= <- <-]. by apply (Hm s e1 s1).
Qed.

Lemma avoids_on_slot {A} s (m : M (MemoryImageSlot * Space) PoolError A) : avoids m -> avoids (on_slot s m).
Proof.
  intros Hm w e w'. unfold on_slot. destruct (m (s, space w)) as [? []|e1 [s1 sp]|] eqn:E; try done.
  intros [= <- <-]. by apply (Hm _ _ _ E).
Qed.

Lemma avoids_os {A} (m : M Space PoolError A) : avoids m -> avoids (os m).
Proof.
  intros Hm [s sp] e p. unfold os, zoom. simpl. destruct (m sp) as [| |] eqn:E; try done.
  intros [= <- <-]. by apply (Hm _ _ _ E).
Qed.

Lemma avoids_syscall x n f : avoids (syscall x n f).
Proof. intros sp e sp'. unfold syscall. destruct (os_failure _); [|done]. by intros [= <- <-]. Qed.

Lemma avoids_expect {S A} (m : M S PoolError A) : avoids (expect m).
Proof. intros s e s'. unfold expect, or_else. by destruct (m s). Qed.

Lemma avoids_ok_or {S A} (o : option A) e : limit_reached e = false -> avoids (S := S) (ok_or o e).
Proof. intros He s e' s'. destruct o; [done|]. by intros [= <- <-]. Qed.

Lemma avoids_unwrap {S A} (o : option A) : avoids (S := S) (unwrap o).
Proof. by destruct o; intros ? ? ?. Qed.
Lemma avoids_assert {S} (b : bool) : avoids (S := S) (rust_assert b).
Proof. by destruct b; intros ? ? ?. Qed.

Lemma avoids_round_up {S} n : avoids (S := S) (HostAlignedByteCount.new_rounded_up n).
Proof. intros s e s'. unfold HostAlignedByteCount.new_rounded_up. destruct (checked_add _ _ _); [done|]. by intros [= <- <-]. Qed.

(** Computations that never fail, by evaluation. *)
Ltac avoids :=
  repeat
    match goal with
    | |- avoids (bind _ _) => apply avoids_bind; [|intros ?]
    | |- avoids (expect _) => apply avoids_expect
    | |- avoids (HostAlignedByteCount.new_rounded_up _) => apply avoids_round_up
    | |- avoids (syscall _ _ _) => apply avoids_syscall
    | |- avoids (os _) => apply avoids_os
    | |- avoids (on_slot _ _) => apply avoids_on_slot
    | |- avoids (ok_or _ _) => apply avoids_ok_or; reflexivity
    | |- avoids (if ?b then _ else _) => destruct b
    | |- avoids (match ?b with _ => _ end) => destruct b
    | |- avoids (unwrap ?o) => apply avoids_unwrap
    | |- avoids (rust_assert ?b) => apply avoids_assert
    | |- avoids (fail _) => intros ? ? ? [= <- <-]; reflexivity
    | |- avoids ?m =>
        match m with
        | ret _ => idtac | panic => idtac | self _ => idtac | update _ => idtac | pool _ => idtac
        | modify _ => idtac
        end; intros ? ? ?; discriminate
    end.

Lemma avoids_anon : avoids reset_with_anon_memory.
Proof. unfold reset_with_anon_memory, erase_existing_mapping. avoids. Qed.

Lemma avoids_protection x y b : avoids (set_protection x y b).
Proof. unfold set_protection, expose_existing_mapping, hide_existing_mapping. avoids. Qed.

Lemma avoids_instantiate n img r : avoids (instantiate images n img r).
Proof.
  unfold instantiate, remove_image, resize, place_image, remap_as_zeros, map_image.
  avoids; apply avoids_protection.
Qed.

Lemma avoids_base a : avoids (get_base a).
Proof. unfold get_base. avoids. Qed.

Lemma avoids_allocate_at req i k : avoids (allocate_at images tunables req i k).
Proof.
  unfold allocate_at, take_memory_image_slot, replace_image_slot, bytes_to_next_stripe_slot.
  avoids; first [apply avoids_anon | apply avoids_instantiate | apply avoids_base].
Qed.

Lemma allocate_limit w own req n w' :
  INV w own raws sound -> request_ok (memories w) req ->
  allocate images tunables req w = Fail (PoolConcurrencyLimitError n) w' ->
  forall a, in_pool (memories w) a ->
    a mod num_stripes (layout (memories w)) = default 0 (get_pkey req) -> is_Some (own !! a).
Proof.
  intros HI Hreq Hrun a Ha Hmod. pose proof (iv_ok _ _ _ _ _ HI) as Hok.
  set (i := default 0 (get_pkey req)) in *.
  assert (0 <= i < num_stripes (layout (memories w))) as Hi.
  { rewrite <- Hmod. apply Z.mod_pos_bound. pose proof (po_stripes _ Hok). lia. }
  pose proof (pool_alloc_wp w own i AnySlot (affinity_of req) HI Hi) as Hw. unfold wp in Hw.
  unfold allocate in Hrun. rewrite (bind_run _ _ w i w) in Hrun.
  2: { unfold i in *. pose proof (ro_pkey _ _ Hreq) as Hpk. destruct (get_pkey req); [done|].
       unfold bind, pool. rewrite (po_len _ Hok), (proj2 (Z.ltb_lt _ _)) by done. done. }
  unfold bind at 1 in Hrun. unfold IndexAllocator.alloc in Hrun.
  destruct (at_stripe i _ w) as [[k|] w1|e w1|]; [|by destruct Hw as [_ [Hw _]]; rewrite (po_len _ Hok) in Hw; auto|done..].
  unfold on_err in Hrun. destruct (allocate_at _ _ _ _ _ _) as [|e w2|] eqn:Eat; [done| |done].
  apply avoids_allocate_at in Eat. destruct (at_stripe i (free k 0) w2); [..|done]; by simplify_eq.
Qed.

(** ** Deallocation *)

Lemma deallocate_wp w own a image n : INV w own raws sound -> own !! a = Some Taken ->
  zget (image_slots (memories w)) a = Some Unknown ->
  (forall s, image = Some s -> placed (memories w) a s /\ clean images s (cells (space w))) ->
  0 <= n <= max_memory_bytes (layout (memories w)) ->
  wp (deallocate a image n) (fun _ w' => frame w w' own /\ INV w' (delete a own) raws sound) (fun _ _ => False) w.
Proof.
  intros HI Hown Hun Him Hn. unfold deallocate. apply wp_bind.
  eapply wp_mono; [by apply (return_memory_image_slot_wp w own a)| |done].
  intros [] w1 (F1 & I1 & _ & _). apply wp_bind. eapply wp_run; [done|].
  pose proof (iv_ok _ _ _ _ _ I1) as Hok. destruct (taken_view w1 own a I1) as [Ha [mm Hv]]; [by eauto|].
  destruct (from_unstriped_run _ _ (po_slots _ Hok) (po_stripes _ Hok) a Ha) as (Hfrom & Hi & Hk & _).
  rewrite <- (po_len _ Hok) in Hfrom, Hk, Hi. apply wp_bind. eapply wp_unwrap; [done|]. cbn [fst snd].
  assert (a / zlen (stripes (memories w1)) * zlen (stripes (memories w1)) + a mod zlen (stripes (memories w1)) = a) as Ea.
  { pose proof (Z.div_mod a (zlen (stripes (memories w1)))). lia. }
  eapply wp_mono; [eapply (pool_free_wp w1 own); rewrite ?Ea; [done| |lia|done|done|]| |done].
  - by rewrite <- (po_len _ Hok).
  - by rewrite (fx_layout _ _ (fr_fixed _ _ _ F1)).
  - intros [] w2 (F2 & I2 & _). rewrite Ea in I2. split; [by eapply frame_trans|done].
Qed.
End ops.

(** *** Decommitting *)

Definition upd {A} (k : bool) (v : A) (f : bool -> A) : bool -> A := fun j => if Bool.eqb j k then v else f j.

Lemma upd_eq {A} (k : bool) (v : A) f : upd k v f k = v.
Proof. unfold upd. by rewrite Bool.eqb_reflx. Qed.
Lemma upd_ne {A} (j k : bool) (v : A) f : j <> k -> upd k v f j = f j.
Proof. intros Hne. unfold upd. destruct (Bool.eqb j k) eqn:E; [|done]. by apply Bool.eqb_prop in E. Qed.

(** The bytes of a queue's ranges belong to slots of that queue. *)
Lemma raw_region p m own raws sound (k : bool) d b x :
  Inv p m own raws sound -> d ∈ raws k -> in_pool p b -> (forall s n, own !! b <> Some (Queued k s n)) ->
  region p b x -> ~ (d.1 <= x < d.1 + d.2).
Proof.
  intros HI Hd Hb Hnq Hx Hdx. destruct (iv_raw _ _ _ _ _ HI k d Hd) as (a & s & n & Ha & Hw).
  assert (a <> b) as Hne by (intros ->; by eapply Hnq).
  assert (in_pool p a) as Hin by (apply (iv_range _ _ _ _ _ HI); eauto).
  pose proof (iv_ok _ _ _ _ _ HI) as Hok. unfold in_pool in Hin. rewrite <- (po_image_slots _ Hok) in Hin.
  destruct (proj2 (zget_is_Some _ _) Hin) as [sl Hsl].
  pose proof (iv_entry _ _ _ _ _ HI a sl Hsl) as He. rewrite Ha in He. destruct He as (_ & [Eb Es] & _).
  specialize (Hw d (list_elem_of_here _ _)). apply (region_disjoint p a b x Hok Hne); [|done].
  unfold region. rewrite <- Eb, <- Es. lia.
Qed.

Lemma queued_dec (own : gmap Z owner) a (k : bool) :
  (exists s n, own !! a = Some (Queued k s n)) \/ forall s n, own !! a <> Some (Queued k s n).
Proof.
  destruct (own !! a) as [[| |j s n]|]; try (by right).
  destruct (decide (j = k)) as [->|]; [by eauto|]. right. congruence.
Qed.

(** Entries of other owners do not see a change inside one of the ranges. *)
Lemma entry_other p m own (raws raws' : Ranges) (sound sound' : bool -> bool) (k : bool) d a sl m' :
  Inv p m own raws sound -> d ∈ raws k -> (forall x, ~ (d.1 <= x < d.1 + d.2) -> m' x = m x) ->
  (forall j, j <> k -> raws' j = raws j /\ sound' j = sound j) ->
  zget (image_slots p) a = Some sl -> (forall s n, own !! a <> Some (Queued k s n)) ->
  entry p m' raws' sound' a (own !! a) sl.
Proof.
  intros HI Hd Hm Hj Hsl Hnq. pose proof (iv_ok _ _ _ _ _ HI) as Hok.
  assert (in_pool p a) as Ha by (apply zget_lt in Hsl; by rewrite (po_image_slots _ Hok) in Hsl).
  apply (entry_ext p p m m' raws raws' sound sound'); [done| | |by apply HI].
  - intros x Hx. by apply Hm, (raw_region p m own raws sound k d a x).
  - intros j s n Eo. assert (j <> k) as Hne by (intros ->; by apply (Hnq s n)).
    destruct (Hj j Hne) as [-> ->]. done.
Qed.

Lemma Inv_decommit p m own raws sound (k : bool) d ds m' :
  Inv p m own raws sound -> raws k = d :: ds -> decommitted d m m' ->
  Inv p m' own (upd k ds raws) sound.
Proof.
  intros HI Hk Hd. pose proof HI as [Hok Hr Hu He Hraw Hz].
  assert (d ∈ raws k) as Hin by (rewrite Hk; apply list_elem_of_here). split; try done.
  - intros a sl Hsl. destruct (queued_dec own a k) as [(s & n & Eo)|Hnq].
    + specialize (He a sl Hsl). rewrite Eo in *. destruct He as (? & ? & ? & Hpd).
      split; [done|]. split; [done|]. split; [done|]. intros Hs. rewrite upd_eq.
      eapply pending_decommit; [|done]. rewrite <- Hk. auto.
    + eapply (entry_other p m own raws _ sound); try done.
      * intros x Hx. rewrite Hd. destruct (in_range _ _ x) eqn:Er; [|done]. by apply in_range_spec in Er.
      * intros j Hj. by rewrite upd_ne.
  - intros j d'. destruct (decide (j = k)) as [->|]; [rewrite upd_eq|rewrite upd_ne by done; apply Hraw].
    intros Hin'. apply Hraw. rewrite Hk. by apply list_elem_of_further.
  - intros Hr' j. specialize (Hz Hr' k). by rewrite Hk in Hz.
Qed.

Lemma Inv_decommit_fail p m own raws sound (k : bool) d m' :
  Inv p m own raws sound -> d ∈ raws k -> (forall x, ~ (d.1 <= x < d.1 + d.2) -> m' x = m x) ->
  Inv p m' own (upd k [] raws) (upd k false sound).
Proof.
  intros HI Hin Hd. pose proof HI as [Hok Hr Hu He Hraw Hz]. split; try done.
  - intros a sl Hsl. destruct (queued_dec own a k) as [(s & n & Eo)|Hnq].
    + specialize (He a sl Hsl). rewrite Eo in *. destruct He as (? & ? & ? & _).
      split; [done|]. split; [done|]. split; [done|]. by rewrite upd_eq.
    + eapply (entry_other p m own raws _ sound); try done. intros j Hj. by rewrite !upd_ne.
  - intros j d'. destruct (decide (j = k)) as [->|]; [rewrite upd_eq; by intros ?%not_elem_of_nil|].
    rewrite upd_ne by done. apply Hraw.
  - intros Hr' j. destruct (decide (j = k)) as [->|]; [by rewrite upd_eq|]. rewrite upd_ne by done. by apply Hz.
Qed.

(** Ranges and soundness matter only pointwise, and only where there are entries. *)
Lemma Inv_ext p m own (raws raws' : Ranges) (sound sound' : bool -> bool) :
  Inv p m own raws sound -> (forall k : bool, raws' k = raws k) ->
  (forall k : bool, sound' k = sound k \/ forall a s n, own !! a <> Some (Queued k s n)) ->
  Inv p m own raws' sound'.
Proof.
  intros HI Er Es. pose proof HI as [Hok Hr Hu He Hraw Hz]. split; try done.
  - intros a sl Hsl. apply (entry_ext p p m m raws raws' sound sound'); [done|done| |by apply He].
    intros k s n Eo. rewrite Er. split; [done|]. destruct (Es k) as [->|Hn]; [done|]. by destruct (Hn a s n).
  - intros k d. rewrite Er. apply Hraw.
  - intros Hr' k. rewrite Er. by apply Hz.
Qed.

Lemma decommit_all_raw_wp w own raws sound (k : bool) ds :
  INV w own raws sound -> raws k = ds ->
  wp (on_space (decommit_all ds))
    (fun _ w' => frame w w' own /\ INV w' own (upd k [] raws) sound)
    (fun _ w' => frame w w' own /\ INV w' own (upd k [] raws) (upd k false sound)) w.
Proof.
  intros HI Hk. unfold wp, on_space, zoom. induction ds as [|d ds IH] in w, raws, HI, Hk |- *; simpl.
  { destruct w. split; [done|]. eapply Inv_ext; [done| |by left].
    intros j. destruct (decide (j = k)) as [->|]; [by rewrite upd_eq|by rewrite upd_ne]. }
  assert (d ∈ raws k) as Hin by (rewrite Hk; apply list_elem_of_here).
  assert (restores_original_mapping = true) as Hr.
  { destruct restores_original_mapping eqn:E; [done|]. pose proof (iv_zero _ _ _ _ _ HI E k). congruence. }
  assert (forall sp', (forall x, ~ (d.1 <= x < d.1 + d.2) -> cells sp' x = cells (space w) x) ->
    frame w (set_space sp' w) own) as Hfr.
  { intros sp' E. split; try done. intros b s x Hb Hx. simpl. apply E.
    eapply (raw_region _ _ own raws sound k d b); try done.
    - apply (iv_range _ _ _ _ _ HI). eauto.
    - intros s' n'. congruence. }
  pose proof (decommit_pages_wp d (space w) Hr) as Hd. unfold wp in Hd. unfold bind.
  destruct (decommit_pages _ _ _) as [[] sp1|e sp1|]; [| |done].
  - assert (forall x, ~ (d.1 <= x < d.1 + d.2) -> cells sp1 x = cells (space w) x) as Hout.
    { intros x Hx. rewrite Hd. destruct (in_range _ _ x) eqn:Er; [|done]. by apply in_range_spec in Er. }
    pose proof (Hfr sp1 Hout) as F1.
    assert (INV (set_space sp1 w) own (upd k ds raws) sound) as I1 by (by eapply Inv_decommit).
    specialize (IH (set_space sp1 w) (upd k ds raws) I1 (upd_eq _ _ _)). simpl in IH.
    assert (forall j, upd k [] raws j = upd k [] (upd k ds raws) j) as Eu.
    { intros j. destruct (decide (j = k)) as [->|]; [by rewrite !upd_eq|by rewrite !upd_ne]. }
    destruct (decommit_all ds sp1) as [? sp2|? sp2|]; [| |done]; destruct IH as [F2 I2];
      (split; [by eapply frame_trans|]); (eapply Inv_ext; [exact I2|exact Eu|by left]).
  - split; [by apply Hfr|]. by eapply Inv_decommit_fail.
Qed.

(** *** Flushing a queue *)

Definition keep_owner (k : bool) (o : owner) : option owner :=
  match o with Queued j _ _ => if Bool.eqb j k then None else Some o | _ => Some o end.
Definition drop_queued (k : bool) (own : gmap Z owner) : gmap Z owner := omap (keep_owner k) own.

Definition lists (own : gmap Z owner) (k : bool) (l : list (Z * MemoryImageSlot * Z)) : Prop :=
  NoDup (l.*1.*1) /\ forall a s n, (a, s, n) ∈ l <-> own !! a = Some (Queued k s n).

Lemma lookup_drop_queued k (own : gmap Z owner) a : drop_queued k own !! a = own !! a ≫= keep_owner k.
Proof. apply lookup_omap. Qed.

Lemma drop_queued_none k own : lists own k [] -> drop_queued k own = own.
Proof.
  intros [_ Hl]. apply map_eq. intros a. rewrite lookup_drop_queued.
  destruct (own !! a) as [[| |j s n]|] eqn:Eo; simpl; try done.
  destruct (Bool.eqb j k) eqn:E; [|done]. apply Bool.eqb_prop in E as ->.
  apply Hl in Eo. by apply not_elem_of_nil in Eo.
Qed.

Lemma lists_cons own k a s n l : lists own k ((a, s, n) :: l) ->
  own !! a = Some (Queued k s n) /\ lists (delete a own) k l /\ drop_queued k (delete a own) = drop_queued k own.
Proof.
  intros [[Hni Hnd]%NoDup_cons Hl]. simpl in *.
  assert (own !! a = Some (Queued k s n)) as Ha by (apply Hl, list_elem_of_here).
  split; [done|]. split; [split; [done|]|].
  - intros b s' n'. rewrite lookup_delete_Some. split.
    + intros Hb. split; [|by apply Hl, list_elem_of_further]. intros ->. apply Hni.
      apply (list_elem_of_fmap_2 fst _ (b, s')), (list_elem_of_fmap_2 fst _ (b, s', n')); done.
    + intros [Hne Hb]. apply Hl in Hb as [?|?]%elem_of_cons; [by simplify_eq|done].
  - apply map_eq. intros b. rewrite !lookup_drop_queued. destruct (decide (a = b)) as [<-|].
    + rewrite lookup_delete_eq, Ha. simpl. by rewrite Bool.eqb_reflx.
    + by rewrite lookup_delete_ne.
Qed.

Lemma take_queued w own raws sound k a s n :
  INV w own raws sound -> own !! a = Some (Queued k s n) -> raws k = [] ->
  INV w (<[a := Taken]> own) raws sound /\ zget (image_slots (memories w)) a = Some Unknown /\
  placed (memories w) a s /\ 0 <= n <= max_memory_bytes (layout (memories w)) /\
  (sound k = true -> clean images s (cells (space w))).
Proof.
  intros HI Ha Hk. pose proof (iv_ok _ _ _ _ _ HI) as Hok.
  assert (in_pool (memories w) a) as Hin by (apply (iv_range _ _ _ _ _ HI); eauto).
  pose proof Hin as Hin'. unfold in_pool in Hin'. rewrite <- (po_image_slots _ Hok) in Hin'.
  destruct (proj2 (zget_is_Some _ _) Hin') as [sl Hsl].
  pose proof (iv_entry _ _ _ _ _ HI a sl Hsl) as He. rewrite Ha in He. destruct He as (-> & Hp & Hn & Hpd).
  split; [|split_and!; try done; try lia].
  - eapply Inv_step; try done.
    + rewrite (iv_used _ _ _ _ _ HI) by done. rewrite Ha. split; by eexists.
    + intros sl. rewrite Hsl. by intros [= <-].
    + intros j s' n'. rewrite Ha. by intros [= <- <- <-].
  - intros Hs. apply pending_clean. rewrite <- Hk. auto.
Qed.

Lemma restore_wp w own raws sound k (ok : bool) l :
  INV w own raws sound -> raws k = [] -> lists own k l -> (ok = true -> sound k = true) ->
  wp (for_each (fun '(a, image, n) => deallocate a (if ok then Some image else None) n) l)
    (fun _ w' => frame w w' own /\ INV w' (drop_queued k own) raws sound) (fun _ _ => False) w.
Proof.
  intros HI Hk Hl Hok. induction l as [|[[a s] n] l IH] in w, own, HI, Hl |- *; simpl.
  { apply wp_ret. split; [done|]. by rewrite drop_queued_none. }
  destruct (lists_cons _ _ _ _ _ _ Hl) as (Ha & Hl' & Ed).
  destruct (take_queued w own raws sound k a s n HI Ha Hk) as (I1 & Hun & Hp & Hn & Hc).
  apply wp_bind. eapply wp_mono; [apply (deallocate_wp raws sound w (<[a := Taken]> own) a)| |done]; try done.
  - by rewrite lookup_insert_eq.
  - intros s' Es. destruct ok; [|done]. simplify_eq. auto.
  - intros [] w1 [F1 I1']. rewrite delete_insert_eq in I1'.
    assert (frame w w1 own) as F1'.
    { eapply frame_trans; [apply frame_refl| |exact F1]. apply live_insert. intros s'. by rewrite Ha. }
    eapply wp_mono; [by apply (IH w1 (delete a own))| |done].
    intros [] w2 [F2 I2]. rewrite Ed in I2. split; [|done].
    eapply frame_trans; [done| |done]. apply live_delete. intros s'. by rewrite Ha.
Qed.

Lemma flush_wp w own raws sound (k : bool) q :
  INV w own raws sound -> raws k = raw q -> sound k = true -> lists own k (queued q) ->
  wp (flush q)
    (fun r w' => r = negb (bool_decide (queued q = [])) /\ frame w w' own /\
       INV w' (drop_queued k own) (upd k [] raws) sound) (fun _ _ => False) w.
Proof.
  intros HI Hk Hs Hl. unfold flush. apply wp_bind, wp_attempt.
  assert (forall w1 sound' (ok : bool), (sound' = sound \/ sound' = upd k false sound) ->
    (ok = true -> sound' k = true) -> frame w w1 own -> INV w1 own (upd k [] raws) sound' ->
    wp (for_each (fun '(a, image, n) => deallocate a (if ok then Some image else None) n) (queued q) ;;;
        ret (match queued q with [] => false | _ => true end))
      (fun r w' => r = negb (bool_decide (queued q = [])) /\ frame w w' own /\
         INV w' (drop_queued k own) (upd k [] raws) sound) (fun _ _ => False) w1) as Hrest.
  { intros w1 sound' ok Hs' Hok F1 I1. apply wp_bind.
    eapply wp_mono; [apply (restore_wp w1 own (upd k [] raws) sound' k ok); try done; apply upd_eq| |done].
    intros [] w2 [F2 I2]. apply wp_ret. split; [by destruct (queued q)|].
    split; [by eapply frame_trans|]. eapply Inv_ext; [exact I2|done|]. intros j.
    destruct (decide (j = k)) as [->|].
    - right. intros a s n. rewrite lookup_drop_queued. destruct (own !! a) as [[| |j' s' n']|]; try done.
      simpl. destruct (Bool.eqb j' k) eqn:E; [done|]. intros [= -> _ _]. by rewrite Bool.eqb_reflx in E.
    - left. destruct Hs' as [->| ->]; [done|]. by rewrite upd_ne. }
  eapply wp_mono; [by apply (decommit_all_raw_wp w own raws sound k)| |].
  - intros [] w1 [F1 I1]. apply (Hrest w1 sound true); auto.
  - intros e w1 [F1 I1]. apply (Hrest w1 (upd k false sound) false); auto. done.
Qed.

(** ** Between operations *)

(** Like [frame], but the shared queue may have changed. *)
Definition quiet w w' (own : gmap Z owner) : Prop :=
  frame (set_queue DecommitQueue_default w) (set_queue DecommitQueue_default w') own.

Lemma frame_quiet w w' own : frame w w' own -> quiet w w' own.
Proof. by intros []. Qed.

Definition queue_raws w : Ranges := fun k => if k then [] else raw (decommit_queue w).

(** No operation is running, except one that holds slot [t]. *)
Record Rest w (own : gmap Z owner) (t : option Z) : Prop := {
  re_inv : INV w own (queue_raws w) (fun _ => true);
  re_lists : lists own false (queued (decommit_queue w));
  re_local a s n : own !! a <> Some (Queued true s n);
  re_taken a : own !! a = Some Taken <-> t = Some a
}.

Definition same_live (own own' : gmap Z owner) : Prop :=
  forall a s, own' !! a = Some (Live s) <-> own !! a = Some (Live s).

Lemma drop_live k own : same_live own (drop_queued k own).
Proof.
  intros a s. rewrite lookup_drop_queued. destruct (own !! a) as [[| |j s' n]|]; try done. simpl.
  by destruct (Bool.eqb j k).
Qed.

Lemma drop_taken k own a : drop_queued k own !! a = Some Taken <-> own !! a = Some Taken.
Proof.
  rewrite lookup_drop_queued. destruct (own !! a) as [[| |j s' n]|]; try done. simpl.
  by destruct (Bool.eqb j k).
Qed.

Lemma drop_queued_other j k own a s n :
  drop_queued k own !! a = Some (Queued j s n) -> j <> k /\ own !! a = Some (Queued j s n).
Proof.
  rewrite lookup_drop_queued. destruct (own !! a) as [[| |j' s' n']|]; try done. simpl.
  destruct (Bool.eqb j' k) eqn:E; [done|]. intros [= -> -> ->]. split; [|done].
  intros ->. by rewrite Bool.eqb_reflx in E.
Qed.

Lemma lists_nil own k : (forall a s n, own !! a <> Some (Queued k s n)) -> lists own k [].
Proof.
  intros Hn. split; [apply NoDup_nil_2|]. intros a s n. split; [by intros ?%not_elem_of_nil|].
  intros E. by destruct (Hn _ _ _ E).
Qed.

Lemma flush_decommit_queue_wp w own t : Rest w own t ->
  wp flush_decommit_queue
    (fun r w' => r = negb (bool_decide (queued (decommit_queue w) = [])) /\ quiet w w' own /\
       Rest w' (drop_queued false own) t) (fun _ _ => False) w.
Proof.
  intros [HI Hl Hloc Ht]. unfold flush_decommit_queue. apply wp_bind. eapply wp_run; [done|].
  apply wp_bind. eapply wp_run; [done|].
  eapply wp_mono; [by apply (flush_wp (set_queue DecommitQueue_default w) own (queue_raws w) (fun _ => true) false)| |done].
  intros r w' (-> & F & I). split; [done|]. pose proof (fr_queue _ _ _ F) as Eq. simpl in Eq.
  split; [by apply frame_quiet in F|]. split.
  - eapply Inv_ext; [exact I| |by left]. unfold queue_raws. rewrite Eq. by intros [].
  - rewrite Eq. apply lists_nil. intros a s n [? _]%drop_queued_other. done.
  - intros a s n [_ E]%drop_queued_other. by apply (Hloc a s n).
  - intros a. by rewrite drop_taken.
Qed.

Lemma give_queued w own raws sound a k s n ds :
  INV w own raws sound -> own !! a = Some Taken -> zget (image_slots (memories w)) a = Some Unknown ->
  placed (memories w) a s -> pending images s (cells (space w)) ds -> within s ds ->
  (restores_original_mapping = false -> ds = []) -> 0 <= n <= max_memory_bytes (layout (memories w)) ->
  INV w (<[a := Queued k s n]> own) (upd k (raws k ++ ds) raws) sound.
Proof.
  intros HI Ha Hun Hp Hpd Hw Hz Hn. pose proof (iv_range _ _ _ _ _ HI a (ex_intro _ _ Ha)) as Hin.
  eapply Inv_update; try done.
  - apply HI.
  - rewrite (iv_used _ _ _ _ _ HI), Ha by done. split; by eexists.
  - intros sl. rewrite Hun. intros [= <-]. simpl. split_and!; try done; try lia. intros _. rewrite upd_eq.
    eapply pending_mono; [|done]. intros d Hd. apply elem_of_app. by right.
  - intros j d Hd. destruct (decide (j = k)) as [->|]; [rewrite upd_eq|by rewrite upd_ne].
    apply elem_of_app. by left.
  - intros j d. destruct (decide (j = k)) as [->|].
    + rewrite upd_eq. intros [Hd|Hd]%elem_of_app.
      * left. split; [done|]. intros s' n'. by rewrite Ha.
      * right. exists s, n. split; [done|]. intros d' ->%list_elem_of_singleton. by apply Hw.
    + rewrite upd_ne by done. left. split; [done|]. intros s' n'. by rewrite Ha.
  - intros Hr j. pose proof (iv_zero _ _ _ _ _ HI Hr) as Hzero. destruct (decide (j = k)) as [->|].
    + rewrite upd_eq, Hzero, Hz by done. done.
    + by rewrite upd_ne, Hzero.
Qed.

Lemma taken_live (own : gmap Z owner) a o : own !! a = Some Taken -> (forall s, o <> Live s) ->
  same_live own (<[a := o]> own).
Proof.
  intros Ha Ho b s. destruct (decide (a = b)) as [<-|].
  - rewrite lookup_insert_eq, Ha. split; [|done]. intros [= E]. by destruct (Ho s).
  - by rewrite lookup_insert_ne.
Qed.

(** Handing a reset slot to a queue: the one of the deallocation, which is flushed
    at once, or the shared one. *)
Section hand_over.
Context w own a (s : MemoryImageSlot) (n : Z) (ds : list (Z * Z)) (HR : Rest w own (Some a)).
Context (Hun : zget (image_slots (memories w)) a = Some Unknown) (Hp : placed (memories w) a s).
Context (Hpd : pending images s (cells (space w)) ds) (Hw : within s ds).
Context (Hz : restores_original_mapping = false -> ds = []).
Context (Hn : 0 <= n <= max_memory_bytes (layout (memories w))).

Lemma handed_taken : own !! a = Some Taken.
Proof. by apply (re_taken _ _ _ HR). Qed.

Lemma handed_not_taken k b : <[a := Queued k s n]> own !! b <> Some Taken.
Proof.
  destruct (decide (a = b)) as [<-|]; [by rewrite lookup_insert_eq|].
  rewrite lookup_insert_ne by done. intros E. apply (re_taken _ _ _ HR) in E. congruence.
Qed.

Lemma handed_live k : same_live own (<[a := Queued k s n]> own).
Proof. apply taken_live; [apply handed_taken|done]. Qed.

Lemma flush_local_wp :
  wp (flush (mkQueue ds [(a, s, n)]))
    (fun _ w' => exists own', Rest w' own' None /\ same_live own own' /\ quiet w w' own) (fun _ _ => False) w.
Proof.
  destruct HR as [HI [Hnd Hl] Hloc Ht]. pose proof handed_taken as Ha.
  pose proof (give_queued w own _ _ a true s n ds HI Ha Hun Hp Hpd Hw Hz Hn) as I1. simpl in I1.
  eapply wp_mono; [eapply (flush_wp w _ _ _ true); [exact I1|apply upd_eq|done|]| |done].
  { split; [apply NoDup_singleton|]. simpl. intros b s' n'. destruct (decide (a = b)) as [<-|Hne].
    - rewrite lookup_insert_eq, list_elem_of_singleton. naive_solver.
    - rewrite lookup_insert_ne, list_elem_of_singleton by done. split; [by intros [=]|].
      intros E. by destruct (Hloc b s' n'). }
  intros r w1 (_ & F & I2). exists (drop_queued true (<[a:=Queued true s n]> own)).
  pose proof (fr_queue _ _ _ F) as Eq. split; [split|split].
  - eapply Inv_ext; [exact I2| |by left]. unfold queue_raws. rewrite Eq. by intros [].
  - rewrite Eq. split; [done|]. intros b s' n'. rewrite Hl, lookup_drop_queued.
    destruct (decide (a = b)) as [<-|]; [rewrite Ha, lookup_insert_eq; naive_solver|]. rewrite lookup_insert_ne by done.
    by destruct (own !! b) as [[| |[] s1 n1]|].
  - by intros b s' n' [? _]%drop_queued_other.
  - intros b. rewrite drop_taken. split; [by intros ?%handed_not_taken|done].
  - intros b s'. rewrite (drop_live true _ b s'). apply handed_live.
  - apply frame_quiet. eapply frame_trans; [apply frame_refl| |exact F].
    apply live_insert. intros s'. by rewrite Ha.
Qed.

Lemma append_rest :
  Rest (set_queue (append (decommit_queue w) (mkQueue ds [(a, s, n)])) w) (<[a := Queued false s n]> own) None.
Proof.
  destruct HR as [HI [Hnd Hl] Hloc Ht]. pose proof handed_taken as Ha.
  pose proof (give_queued w own _ _ a false s n ds HI Ha Hun Hp Hpd Hw Hz Hn) as I1. simpl in I1. split.
  - eapply Inv_ext; [exact I1| |by left]. by intros [].
  - simpl. split.
    + rewrite !fmap_app. apply NoDup_app. split; [done|]. split; [|apply NoDup_singleton].
      intros b Hb ->%list_elem_of_singleton. apply list_elem_of_fmap in Hb as ([b' s'] & Eb & Hb).
      apply list_elem_of_fmap in Hb as ([[b2 s2] n2] & E2 & Hb). simplify_eq/=.
      apply Hl in Hb. congruence.
    + intros b s' n'. rewrite elem_of_app, list_elem_of_singleton, Hl.
      destruct (decide (a = b)) as [<-|]; [rewrite lookup_insert_eq, Ha; naive_solver|].
      rewrite lookup_insert_ne by done. naive_solver.
  - intros b s' n'. destruct (decide (a = b)) as [<-|]; [by rewrite lookup_insert_eq|].
    rewrite lookup_insert_ne by done. apply Hloc.
  - intros b. split; [by intros ?%handed_not_taken|done].
Qed.

Lemma merge_or_flush_wp :
  wp (merge_or_flush (mkQueue ds [(a, s, n)]))
    (fun _ w' => exists own', Rest w' own' None /\ same_live own own' /\ quiet w w' own) (fun _ _ => False) w.
Proof.
  unfold merge_or_flush. apply wp_bind. eapply wp_run; [done|]. destruct (_ || _).
  { apply wp_bind. eapply wp_mono; [apply flush_local_wp| |done]. intros r w' Hr. by apply wp_ret. }
  apply wp_bind. eapply wp_run; [done|]. pose proof append_rest as HR1. pose proof (handed_live false) as Hsl.
  destruct (_ <=? _).
  2: { apply wp_ret. eexists. split; [exact HR1|]. by split. }
  apply wp_bind.
  eapply wp_mono; [by apply flush_decommit_queue_wp| |done].
  intros r w2 (_ & Q & R2). apply wp_ret. eexists. split; [done|]. split.
  - intros b s'. rewrite (drop_live false _ b s'). apply Hsl.
  - eapply frame_trans; [apply frame_refl| |exact Q]. apply live_insert. intros s'. by rewrite handed_taken.
Qed.
End hand_over.

(** ** Allocating and deallocating memories *)

Lemma Rest_same w w' own t : Rest w own t -> frame w w' own ->
  INV w' own (queue_raws w) (fun _ => true) -> Rest w' own t.
Proof.
  intros [_ Hl Hloc Ht] F I. pose proof (fr_queue _ _ _ F) as Eq. split; [|by rewrite Eq|done..].
  eapply Inv_ext; [exact I| |by left]. intros k. unfold queue_raws. by rewrite Eq.
Qed.

Lemma Rest_owner w w' own t a o t' : Rest w own t -> frame w w' own ->
  INV w' (<[a := o]> own) (queue_raws w) (fun _ => true) ->
  (forall k s n, own !! a <> Some (Queued k s n)) -> (forall k s n, o <> Queued k s n) ->
  (forall b, <[a := o]> own !! b = Some Taken <-> t' = Some b) ->
  Rest w' (<[a := o]> own) t'.
Proof.
  intros [_ [Hnd Hl] Hloc Ht] F I Ha Ho Ht'. pose proof (fr_queue _ _ _ F) as Eq. split; [| | |done].
  - eapply Inv_ext; [exact I| |by left]. intros k. unfold queue_raws. by rewrite Eq.
  - rewrite Eq. split; [done|]. intros b s n. rewrite Hl. destruct (decide (a = b)) as [<-|].
    + rewrite lookup_insert_eq. split; [by intros ?%Ha|]. intros [= E]. by destruct (Ho false s n).
    + by rewrite lookup_insert_ne.
  - intros b s n. destruct (decide (a = b)) as [<-|]; [rewrite lookup_insert_eq|by rewrite lookup_insert_ne].
    intros [= E]. by destruct (Ho true s n).
Qed.

Lemma Rest_delete w w' own a : Rest w own None -> decommit_queue w' = decommit_queue w ->
  (forall k s n, own !! a <> Some (Queued k s n)) ->
  INV w' (delete a own) (queue_raws w) (fun _ => true) -> Rest w' (delete a own) None.
Proof.
  intros [_ [Hnd Hl] Hloc Ht] Eq Ha I. split.
  - eapply Inv_ext; [exact I| |by left]. intros k. unfold queue_raws. by rewrite Eq.
  - rewrite Eq. split; [done|]. intros b s' n. rewrite Hl, lookup_delete_Some.
    split; [|by intros []]. intros E. split; [|done]. intros <-. by apply Ha in E.
  - intros b s' n. rewrite lookup_delete_Some. intros [_ E]. by apply (Hloc b s' n).
  - intros b. rewrite lookup_delete_Some. split; [intros [_ E]; by apply Ht in E|done].
Qed.

Lemma request_ok_fixed p p' req : fixed p p' -> request_ok p req -> request_ok p' req.
Proof. intros [_ _ El _ _] [Hs Hp]. split; by rewrite El. Qed.

Lemma allocate_rest_wp w own req : Rest w own None -> request_ok (memories w) req ->
  wp (allocate images tunables req)
    (fun r w' => own !! r.1 = None /\ frame w w' own /\ Rest w' (<[r.1 := Live r.2]> own) None /\
       fresh_memory (memories w') (cells (space w')) req r.1 r.2)
    (fun e w' => frame w w' own /\ Rest w' own None) w.
Proof.
  intros HR Hreq. pose proof HR as [HI _ _ Ht]. eapply wp_mono; [by eapply allocate_wp| |].
  - intros [a s] w' (Hnone & F & I & Hf). simpl in *. split_and!; try done.
    eapply Rest_owner; [done..| | |]; [intros k s' n; by rewrite Hnone|done|].
    intros b. destruct (decide (a = b)) as [<-|]; [by rewrite lookup_insert_eq|].
    rewrite lookup_insert_ne by done. apply Ht.
  - intros e w' [F I]. split; [done|]. by eapply Rest_same.
Qed.

(** Every slot of the stripe is in use by a live memory. *)
Definition stripe_full p (own : gmap Z owner) (req : Request) : Prop :=
  forall a, in_pool p a -> a mod num_stripes (layout p) = default 0 (get_pkey req) ->
    exists s, own !! a = Some (Live s).

Lemma limit_full w own req n w' : Rest w own None -> request_ok (memories w) req ->
  (forall a s n, own !! a <> Some (Queued false s n)) ->
  allocate images tunables req w = Fail (PoolConcurrencyLimitError n) w' -> stripe_full (memories w) own req.
Proof.
  intros [HI Hl Hloc Ht] Hreq Hnq Hrun a Ha Hmod.
  destruct (allocate_limit _ _ w own req n w' HI Hreq Hrun a Ha Hmod) as [[|s|[] s m] Ho]; [|by eauto|..].
  - by apply Ht in Ho.
  - by destruct (Hloc a s m).
  - by destruct (Hnq a s m).
Qed.

Lemma stripe_full_ext p p' own own' req : fixed p p' -> same_live own own' ->
  stripe_full p' own' req -> stripe_full p own req.
Proof.
  intros [_ _ El _ _] Hs Hf a Ha Hmod. unfold stripe_full, in_pool in *. rewrite El in Hf.
  destruct (Hf a Ha Hmod) as [s Hs']. exists s. by apply Hs.
Qed.

Definition allocated_memory w (own : gmap Z owner) req (r : Z * MemoryImageSlot) w' : Prop :=
  exists own', own' !! r.1 = None /\ same_live own own' /\ quiet w w' own /\
    Rest w' (<[r.1 := Live r.2]> own') None /\ fresh_memory (memories w') (cells (space w')) req r.1 r.2.

Lemma allocate_retry_wp w own req : Rest w own None -> request_ok (memories w) req ->
  wp (or_else (allocate images tunables req) (fun e =>
        match e with
        | PoolConcurrencyLimitError _ =>
            freed <- flush_decommit_queue ;; if freed : bool then allocate images tunables req else fail e
        | _ => fail e
        end))
    (allocated_memory w own req)
    (fun e w' => exists own', same_live own own' /\ quiet w w' own /\ Rest w' own' None /\
       (limit_reached e = true -> stripe_full (memories w) own req)) w.
Proof.
  intros HR Hreq. pose proof (allocate_rest_wp w own req HR Hreq) as Ha.
  unfold wp at 1, or_else. unfold wp in Ha. destruct (allocate _ _ _ w) as [r w1|e w1|] eqn:E1; [|destruct Ha as [F R]|done].
  - destruct Ha as (Hn & F & R & Hf). exists own. split_and!; try done. by apply frame_quiet.
  - assert (limit_reached e = false \/ exists n, e = PoolConcurrencyLimitError n) as [He|[n ->]]
      by (destruct e; eauto).
    { destruct e; try done; exists own; (split_and!; [done|by apply frame_quiet|done|done]). }
    apply wp_bind. eapply wp_mono; [by apply (flush_decommit_queue_wp w1 own None)| |done].
    intros r w2 (-> & Q & R2). pose proof (drop_live false own) as Hsl.
    assert (quiet w w2 own) as Q2 by (eapply frame_trans; [by apply frame_quiet|done|done]).
    case_bool_decide as Eq; simpl.
    + exists (drop_queued false own). split_and!; [done..|]. intros _. eapply limit_full; [done..| |exact E1].
      intros a s m Hq. destruct R as [_ [_ Hl] _ _]. rewrite Eq in Hl. apply Hl in Hq. by apply not_elem_of_nil in Hq.
    + pose proof (request_ok_fixed _ _ req (fr_fixed _ _ _ Q2) Hreq) as Hreq2. simpl in Hreq2.
      pose proof (allocate_rest_wp w2 _ req R2 Hreq2) as Ha. unfold wp in *.
      assert (forall w3, frame w2 w3 (drop_queued false own) -> quiet w w3 own) as Q3.
      { intros w3 F3. eapply frame_trans; [done| |by apply frame_quiet]. intros b s Hb. by apply Hsl. }
      destruct (allocate _ _ _ w2) as [r w3|e w3|] eqn:E2; [| |done].
      * destruct Ha as (Hn & F3 & R3 & Hf). exists (drop_queued false own). split_and!; auto.
      * destruct Ha as [F3 R3]. exists (drop_queued false own). split_and!; auto. intros He.
        destruct e; try done. eapply (stripe_full_ext _ (memories w2)); [apply (fr_fixed _ _ _ Q2)|done|].
        eapply limit_full; [done..| |exact E2]. intros a s m [? _]%drop_queued_other. done.
Qed.

Lemma take_live w own raws sound a s :
  INV w own raws sound -> own !! a = Some (Live s) ->
  INV w (<[a := Taken]> own) raws sound /\ zget (image_slots (memories w)) a = Some Unknown /\
  placed (memories w) a s /\ in_use images s (cells (space w)).
Proof.
  intros HI Ha. pose proof (iv_ok _ _ _ _ _ HI) as Hok.
  assert (in_pool (memories w) a) as Hin by (apply (iv_range _ _ _ _ _ HI); eauto).
  pose proof Hin as Hin'. unfold in_pool in Hin'. rewrite <- (po_image_slots _ Hok) in Hin'.
  destruct (proj2 (zget_is_Some _ _) Hin') as [sl Hsl].
  pose proof (iv_entry _ _ _ _ _ HI a sl Hsl) as He. rewrite Ha in He. destruct He as (-> & Hp & Hu).
  split; [|done]. eapply Inv_step; try done.
  - rewrite (iv_used _ _ _ _ _ HI) by done. rewrite Ha. split; by eexists.
  - intros sl. rewrite Hsl. by intros [= <-].
  - intros j s' n'. by rewrite Ha.
Qed.

Lemma push_ranges ranges q :
  foldl (fun q r => push_raw r.1 r.2 q) q ranges = mkQueue (raw q ++ ranges) (queued q).
Proof.
  induction ranges as [|[x y] l IH] in q |- *; simpl; [destruct q; by rewrite app_nil_r|].
  rewrite IH. simpl. by rewrite <- app_assoc.
Qed.

Lemma deallocate_memory_wp w own a s : Rest w own None -> own !! a = Some (Live s) -> 0 < live_memories w ->
  wp (deallocate_memory images a s)
    (fun _ w' => exists own', Rest w' own' None /\ same_live (delete a own) own' /\
       quiet (set_live (live_memories w - 1) w) w' (delete a own)) (fun _ _ => False) w.
Proof.
  intros HR Ha Hlive. pose proof HR as [HI _ _ Ht]. destruct (take_live w own _ _ a s HI Ha) as (I1 & Hun & Hp & Hu).
  unfold deallocate_memory. apply wp_bind. eapply wp_run; [done|]. apply wp_bind, wp_assert; [by apply Z.ltb_lt|].
  apply wp_bind. eapply wp_run; [done|]. set (w1 := set_live _ w). set (own1 := <[a := Taken]> own) in *.
  assert (own1 !! a = Some Taken) as Ha1 by apply lookup_insert_eq.
  assert (Rest w1 own1 (Some a)) as HR1.
  { eapply (Rest_owner w1 w1 own None); [by destruct HR|done|done| |done|]; [intros k s' n; by rewrite Ha|].
    intros b. destruct (decide (a = b)) as [<-|]; [by rewrite lookup_insert_eq|].
    rewrite lookup_insert_ne, Ht by done. naive_solver. }
  assert (same_live (delete a own) own1) as Hsl.
  { intros b s'. unfold own1. destruct (decide (a = b)) as [<-|].
    - by rewrite lookup_insert_eq, lookup_delete_eq.
    - by rewrite lookup_insert_ne, lookup_delete_ne. }
  assert (forall w', frame w1 w' own1 -> quiet w1 w' (delete a own)) as Hq.
  { intros w' F. apply frame_quiet. eapply frame_trans; [apply frame_refl| |done]. intros b s' Hb. by apply Hsl. }
  apply wp_bind, wp_attempt. eapply wp_mono.
  - eapply (on_slot_wp _ _ w1 own1 a s); [by apply HR1|done..|]. apply clear_and_remain_ready_wp; [done|].
    apply (po_keep _ (iv_ok _ _ _ _ _ I1)).
  - intros [[n ranges] s'] w2 ([F2 I2 _ U2] & Hp2 & Hn & Hpd & Hw & Hz). simpl in *.
    rewrite push_ranges. unfold push_memory. simpl.
    assert (Rest w2 own1 (Some a)) as HR2 by (by eapply Rest_same).
    eapply wp_mono; [eapply (merge_or_flush_wp w2 own1 a s' n ranges); try done| |done].
    + rewrite (fx_layout _ _ (fr_fixed _ _ _ F2)). destruct Hp as [_ Es]. unfold w1. simpl. by rewrite <- Es.
    + intros [] w3 (own' & R3 & Hsl3 & Q3). exists own'. split; [done|]. split.
      * intros b s1. rewrite (Hsl3 b s1). apply Hsl.
      * eapply frame_trans; [by apply Hq| |exact Q3]. intros b s1 Hb. by apply Hsl.
  - intros e w2 [F2 I2 _ U2].
    eapply wp_mono; [eapply (deallocate_wp _ _ w2 own1 a None 0); [done..|]| |done].
    { pose proof (po_max _ (iv_ok _ _ _ _ _ I2)) as [_ ?]. lia. }
    intros [] w3 [F3 I3]. exists (delete a own). split; [|split; [done|]].
    + unfold own1 in I3. rewrite delete_insert_eq in I3.
      apply (Rest_delete w w3 own a HR); [|by rewrite Ha|done].
      by rewrite (fr_queue _ _ _ F3), (fr_queue _ _ _ F2).
    + eapply frame_trans; [by apply Hq| |by apply frame_quiet]. intros b s1 Hb. by apply Hsl.
Qed.
End invariant.
