(* ===== verification/PoolSystem.v ===== *)
(** * The pool over its whole life

    Purging a module and creating the pool (memory_pool.rs [purge_module] and
    [new]) with the invariant of MemoryPool.v, the clients of the pool as sequences
    of operations, and the theorems about every such sequence. *)

From S2P Require Import Prelude MemoryTypes SlabLayout CowSlot IndexAllocator MemoryPool.

Lemma wp_assoc {S E A B C} (m : M S E A) (f : A -> M S E B) (g : B -> M S E C) P Q s :
  wp (x <- (y <- m ;; f y) ;; g x) P Q s -> wp (y <- m ;; x <- f y ;; g x) P Q s.
Proof. unfold wp, bind. by destruct (m s). Qed.

Section purge.
Context `{Host} `{OS} (images : Z -> MemoryImage) (tunables : Tunables).
Implicit Types (p : MemoryPool) (w : World) (a i : Z) (own : gmap Z owner).

Abbreviation INV := (INV images tunables).
Abbreviation Rest := (Rest images tunables).

(** ** Purging a module *)

(** How many slots were last used for the memory [m]: what a turn of the loop
    makes smaller. *)
Definition affine_count p (m : MemoryInModule) : nat :=
  length (List.filter (fun a => affine_slot m (slot_view p a)) (seqZ 0 (num_slots (layout p)))).

Lemma filter_shrinks (f g : Z -> bool) l a : (forall x, x ∈ l -> g x = true -> f x = true) ->
  a ∈ l -> f a = true -> g a = false ->
  (length (List.filter g l) < length (List.filter f l))%nat.
Proof.
  intros Hfg. assert (forall l', (forall x, x ∈ l' -> x ∈ l) ->
    (length (List.filter g l') <= length (List.filter f l'))%nat) as Hle.
  { intros l'. induction l' as [|x l' IH]; intros Hsub; simpl; [done|].
    assert (g x = true -> f x = true) by (apply Hfg, Hsub, list_elem_of_here).
    assert (forall y, y ∈ l' -> y ∈ l) as Hs' by (intros; by apply Hsub, list_elem_of_further).
    specialize (IH Hs'). destruct (g x), (f x); simpl; naive_solver lia. }
  assert (forall l', (forall x, x ∈ l' -> x ∈ l) -> a ∈ l' -> f a = true -> g a = false ->
    (length (List.filter g l') < length (List.filter f l'))%nat) as Hlt.
  { intros l' Hsub Hin Hfa Hga. apply list_elem_of_split in Hin as (l1 & l2 & ->).
    rewrite !List.filter_app, !length_app. simpl. rewrite Hfa, Hga. simpl.
    pose proof (Hle l1 ltac:(intros; apply Hsub; set_solver)).
    pose proof (Hle l2 ltac:(intros; apply Hsub; set_solver)). lia. }
  by apply Hlt.
Qed.

(** No slot became affine to a memory. *)
Definition no_new_affinity w w' : Prop :=
  forall b m, in_pool (memories w) b -> affine_slot m (slot_view (memories w') b) = true ->
    affine_slot m (slot_view (memories w) b) = true.

Lemma in_pool_fixed p p' a : fixed p p' -> in_pool p a <-> in_pool p' a.
Proof. intros [_ _ El _ _]. unfold in_pool. by rewrite El. Qed.

Lemma no_new_affinity_trans w1 w2 w3 : fixed (memories w1) (memories w2) ->
  no_new_affinity w1 w2 -> no_new_affinity w2 w3 -> no_new_affinity w1 w3.
Proof. intros Hf H12 H23 b m Hb Hm. apply H12; [done|]. apply H23; [|done]. by apply (in_pool_fixed _ _ _ Hf). Qed.

(** The slot is given back without its image, or forgotten. *)
Lemma purge_slot_wp w own raws sound a :
  INV w own raws sound -> own !! a = Some Taken ->
  wp (slot <- attempt (take_memory_image_slot a) ;;
      match slot with
      | Some slot =>
          r <- attempt (on_slot slot (remove_image images)) ;;
          match r with
          | Some r => return_memory_image_slot a (Some r.2)
          | None => ret tt
          end
      | None => ret tt
      end)
    (fun _ w' => frame w w' own /\ INV w' own raws sound /\ stripes (memories w') = stripes (memories w))
    (fun _ _ => False) w.
Proof.
  intros HI Ha. apply wp_bind, wp_attempt. eapply wp_mono; [by eapply take_memory_image_slot_wp| |].
  2: { intros e w1 []. by apply wp_ret. }
  intros s w1 (Hh1 & Hp1 & (Hd & Hwf & Hpr)). pose proof Hh1 as [F1 I1 S1 U1].
  apply wp_bind, wp_attempt. eapply wp_mono.
  - eapply (on_slot_wp images tunables raws sound w1 own a s); [done..|]. by apply remove_image_wp.
  - intros [u s'] w2 (Hh2 & Hp2 & E & Hpr2). simpl in *. pose proof (holding_trans _ _ _ _ _ _ _ _ _ Hh1 Hh2) as [F I S U].
    eapply wp_mono; [eapply (return_memory_image_slot_wp images tunables raws sound w2 own a); [done..|]| |done].
    + intros s1 [= <-]. split; [done|]. split; [by rewrite E|]. split; [|done]. rewrite E.
      destruct Hwf. by split.
    + intros [] w3 (F3 & I3 & _ & S3). split; [by eapply frame_trans|]. split; [done|]. congruence.
  - intros e w2 Hh2. pose proof (holding_trans _ _ _ _ _ _ _ _ _ Hh1 Hh2) as []. by apply wp_ret.
Qed.

Lemma slot_view_ext p p' a : stripes p' = stripes p -> slot_view p' a = slot_view p a.
Proof. intros E. unfold slot_view. by rewrite E. Qed.

Lemma purge_loop_wp fuel w own i m :
  Rest w own None -> 0 <= i < num_stripes (layout (memories w)) -> (affine_count (memories w) m < fuel)%nat ->
  wp (purge_loop images fuel i m)
    (fun _ w' => frame w w' own /\ Rest w' own None /\ no_new_affinity w w' /\
       forall a, in_pool (memories w) a -> a mod num_stripes (layout (memories w)) = i ->
         affine_slot m (slot_view (memories w') a) = false)
    (fun _ _ => False) w.
Proof.
  induction fuel as [|fuel IH] in w |- *; intros HR Hi Hfuel; [lia|]. simpl. pose proof HR as [HI _ _ _].
  pose proof (iv_ok _ _ _ _ _ _ _ HI) as Hok. apply wp_bind.
  eapply wp_mono; [by eapply (pool_alloc_wp images tunables _ _ w own i ForceAffineAndClear)| |done].
  intros [k|] w1 Hr.
  2: { destruct Hr as (-> & _ & Haff). apply wp_ret. split; [done|]. split; [done|]. split; [by intros ?|].
       intros a Ha Hmod. apply Haff; [done|]. by rewrite (po_len _ _ Hok). }
  destruct Hr as (a & Hnone & Ha & Hix & Ea & Hk & F1 & I1 & _ & Hv1 & Hvo1 & Hforce).
  destruct (Hforce eq_refl) as (m' & u & [= <-] & Hvu & Hau).
  assert (forall s, own !! a <> Some (Live s)) as Hnl by (intros s; by rewrite Hnone).
  assert (zlen (stripes (memories w1)) = zlen (stripes (memories w))) as Elen.
  { rewrite (po_len _ _ Hok), (po_len _ _ (iv_ok _ _ _ _ _ _ _ I1)).
    by rewrite (fx_layout _ _ (fr_fixed _ _ _ F1)). }
  apply wp_bind. eapply wp_run; [done|]. apply wp_bind. eapply wp_unwrap; [by rewrite Elen|].
  apply wp_assoc, wp_bind.
  eapply wp_mono; [by eapply (purge_slot_wp w1 (<[a := Taken]> own) _ _ a I1); apply lookup_insert_eq| |done].
  intros [] w2 (F2 & I2 & S2).
  assert (frame w w2 own) as F12 by (by eapply frame_trans; [|by apply live_insert|]).
  pose proof (fx_layout _ _ (fr_fixed _ _ _ F12)) as El2.
  rewrite <- Elen, <- S2 in Ea. pose proof (po_max _ _ (iv_ok _ _ _ _ _ _ _ I2)) as [_ ?]. subst a.
  rewrite <- (slot_view_ext _ _ _ S2) in Hv1. apply wp_bind.
  eapply wp_mono; [eapply (pool_free_wp images tunables _ _ w2); [exact I2|by rewrite El2|done|apply lookup_insert_eq|exact Hv1|lia]| |done].
  set (a := k * zlen (stripes (memories w2)) + i) in *.
  intros [] w3 (F3 & I3 & _ & Hv3 & Hvo3). rewrite delete_insert_eq, delete_id in I3 by done.
  assert (frame w w3 own) as F13 by (eapply frame_trans; [done| |done]; by apply live_insert).
  pose proof (fx_layout _ _ (fr_fixed _ _ _ F13)) as El3.
  assert (Rest w3 own None) as HR3 by (by eapply Rest_same).
  assert (forall b, in_pool (memories w) b -> b <> a -> slot_view (memories w3) b = slot_view (memories w) b) as Hvo.
  { intros b Hb Hne. rewrite Hvo3; [|by apply (in_pool_fixed _ _ _ (fr_fixed _ _ _ F12))|done].
    rewrite (slot_view_ext _ _ _ S2). by apply Hvo1. }
  assert (no_new_affinity w w3) as Hnn.
  { intros b m' Hb. destruct (decide (b = a)) as [->|]; [by rewrite Hv3|by rewrite Hvo]. }
  assert ((affine_count (memories w3) m < affine_count (memories w) m)%nat) as Hlt.
  { unfold affine_count. rewrite El3. apply (filter_shrinks _ _ _ a).
    - intros b Hb%elem_of_seqZ. apply Hnn. unfold in_pool. lia.
    - apply elem_of_seqZ. unfold in_pool in Ha. lia.
    - rewrite Hvu. simpl. by apply bool_decide_eq_true.
    - by rewrite Hv3. }
  eapply wp_mono; [eapply (IH w3 HR3); [by rewrite El3|lia]| |done].
  intros [] w4 (F4 & R4 & Hn4 & Hd4). split; [by eapply frame_trans|]. split; [done|].
  split; [by eapply no_new_affinity_trans; [apply (fr_fixed _ _ _ F13)|..]|].
  intros b Hb Hmod. apply Hd4; [by apply (in_pool_fixed _ _ _ (fr_fixed _ _ _ F13))|by rewrite El3].
Qed.

Lemma affine_count_bound p m : 0 <= num_slots (layout p) ->
  (affine_count p m < S (Z.to_nat (num_slots (layout p))))%nat.
Proof.
  intros Hn. unfold affine_count. pose proof (List.filter_length_le (fun a => affine_slot m (slot_view p a))
    (seqZ 0 (num_slots (layout p)))) as Hle. rewrite length_seqZ in Hle. lia.
Qed.

(** A loop whose turns keep [I], add nothing new, and make [D] true for good. *)
Lemma for_each_wp {A} (f : A -> M World PoolError unit) l (I : World -> Prop)
    (mono : World -> World -> Prop) (D : A -> World -> Prop) w :
  (forall w1 w2 w3, I w1 -> I w2 -> mono w1 w2 -> mono w2 w3 -> mono w1 w3) -> (forall w, mono w w) ->
  (forall x w1 w2, I w1 -> I w2 -> mono w1 w2 -> D x w1 -> D x w2) ->
  (forall x w, x ∈ l -> I w -> wp (f x) (fun _ w' => I w' /\ mono w w' /\ D x w') (fun _ _ => False) w) ->
  I w -> wp (for_each f l) (fun _ w' => I w' /\ mono w w' /\ forall x, x ∈ l -> D x w') (fun _ _ => False) w.
Proof.
  intros Htr Hrf Hst Hf. induction l as [|x l IH] in w, Hf |- *; intros HI; simpl.
  { apply wp_ret. split; [done|]. split; [done|]. by intros x ?%not_elem_of_nil. }
  apply wp_bind. eapply wp_mono; [apply Hf; [apply list_elem_of_here|done]| |done].
  intros [] w1 (I1 & M1 & D1). eapply wp_mono; [apply IH; [|done]| |done].
  { intros y w' Hy. apply Hf. by apply list_elem_of_further. }
  intros [] w2 (I2 & M2 & D2). split; [done|]. split; [by apply (Htr w w1 w2)|].
  intros y [->|Hy]%elem_of_cons; [by apply (Hst _ w1 w2)|by apply D2].
Qed.

(** Purging terminates, and leaves no slot for the module's memories. *)
Lemma purge_module_wp w own module :
  Rest w own None ->
  wp (purge_module images module)
    (fun _ w' => frame w w' own /\ Rest w' own None /\
       forall a j, in_pool (memories w) a -> 0 <= j < memories_per_instance (memories w) ->
         affine_slot (module, j) (slot_view (memories w') a) = false) (fun _ _ => False) w.
Proof.
  intros HR. pose proof (iv_ok _ _ _ _ _ _ _ (re_inv _ _ _ _ _ HR)) as Hok.
  pose proof (po_stripes _ _ Hok). pose proof (po_slots _ _ Hok).
  set (l := layout (memories w)) in *. set (n := memories_per_instance (memories w)).
  set (I := fun w' => frame w w' own /\ Rest w' own None).
  set (D := fun i j w' => forall a, in_pool (memories w) a -> a mod num_stripes l = i ->
    affine_slot (module, j) (slot_view (memories w') a) = false).
  assert (forall w1 w2 w3, I w1 -> I w2 -> no_new_affinity w1 w2 -> no_new_affinity w2 w3 ->
    no_new_affinity w1 w3) as Htr.
  { intros w1 w2 w3 [F1 _] [F2 _]. apply no_new_affinity_trans.
    destruct (fr_fixed _ _ _ F1), (fr_fixed _ _ _ F2). split; congruence. }
  assert (forall i j w1 w2, I w1 -> I w2 -> no_new_affinity w1 w2 -> D i j w1 -> D i j w2) as Hst.
  { intros i j w1 w2 [F1 _] _ Hn HD a Ha Hmod. specialize (HD a Ha Hmod).
    destruct (affine_slot _ (slot_view (memories w2) a)) eqn:E; [|done].
    apply Hn in E; [congruence|]. by apply (in_pool_fixed _ _ _ (fr_fixed _ _ _ F1)). }
  assert (forall i j w1, 0 <= i < num_stripes l -> I w1 ->
    wp (purge_loop images (S (Z.to_nat (num_slots l))) i (module, j))
      (fun _ w' => I w' /\ no_new_affinity w1 w' /\ D i j w') (fun _ _ => False) w1) as Hturn.
  { intros i j w1 Hi [F1 R1]. pose proof (fx_layout _ _ (fr_fixed _ _ _ F1)) as El. fold l in El.
    eapply wp_mono; [apply (purge_loop_wp _ w1 own i (module, j) R1)| |done].
    - by rewrite El.
    - rewrite <- El. apply affine_count_bound. rewrite El. lia.
    - intros [] w2 (F2 & R2 & Hn & HD). split; [split; [by eapply frame_trans|done]|]. split; [done|].
      intros a Ha Hmod. apply HD; [by apply (in_pool_fixed _ _ _ (fr_fixed _ _ _ F1))|by rewrite El]. }
  unfold purge_module. do 3 (apply wp_bind; eapply wp_run; [done|]).
  rewrite (po_len _ _ Hok). fold l n.
  eapply wp_mono; [apply (for_each_wp _ _ I no_new_affinity (fun i w' => forall j, 0 <= j < n -> D i j w'))| |done].
  - exact Htr.
  - by intros ? ? ?.
  - intros i w1 w2 I1 I2 Hn HD j Hj. by apply (Hst i j w1 w2), HD.
  - intros i w1 Hi%elem_of_seqZ I1.
    eapply wp_mono; [apply (for_each_wp _ _ I no_new_affinity (D i)); [exact Htr|by intros ? ? ?|by apply Hst| |done]| |done].
    + intros j w2 _ I2. apply Hturn; [lia|done].
    + intros [] w2 (I2 & M2 & HD). split; [done|]. split; [done|]. intros j Hj. apply HD, elem_of_seqZ. lia.
  - by split.
  - intros [] w' ([F R] & _ & HD). split; [done|]. split; [done|]. intros a j Ha Hj.
    apply (HD (a mod num_stripes l)); [|done..]. apply elem_of_seqZ.
    pose proof (Z.mod_pos_bound a (num_stripes l) ltac:(lia)). lia.
Qed.
End purge.

(** ** Creating the pool *)

Section creation.
Context `{Host} `{OS} (images : Z -> MemoryImage) (tunables : Tunables).

(** The settings, as integers of their types; the keys of the processor are fewer
    than the bytes of a page. *)
Record config_ok (config : PoolConfig) (keys : Z) : Prop := {
  cf_max : 0 <= max_memory_size (limits config);
  cf_total : 0 <= total_memories (limits config) <= u32_MAX;
  cf_warm : 0 <= max_unused_warm config;
  cf_resident : 0 <= linear_memory_keep_resident config;
  cf_reservation : 0 <= memory_reservation tunables;
  cf_guard : 0 <= memory_guard_size tunables;
  cf_keys : 0 <= keys <= host_page_size
}.

Lemma new_rounded_up_wp {S} n P Q (s : S) : 0 <= n ->
  (forall r, aligned r -> n <= r -> P r s) -> (forall e, Q e s) ->
  wp (HostAlignedByteCount.new_rounded_up n) P Q s.
Proof.
  intros Hn HP HQ. unfold wp. destruct (new_rounded_up_run n s Hn) as [(r & -> & Ha & Hr)| ->]; [|done].
  apply HP; [done|lia].
Qed.

Lemma new_rounded_up_u64_wp {S} n P Q (s : S) : 0 <= n ->
  (forall r, aligned r -> n <= r -> P r s) -> (forall e, Q e s) ->
  wp (HostAlignedByteCount.new_rounded_up_u64 n) P Q s.
Proof.
  intros Hn HP HQ. unfold HostAlignedByteCount.new_rounded_up_u64. apply wp_bind.
  destruct (try_from usize_MAX n) as [m|] eqn:E; [|apply HQ].
  apply try_from_Some in E as [-> _]. by apply new_rounded_up_wp.
Qed.

Lemma constraints_wp {S} config keys pkeys (s : S) : config_ok config keys -> 0 <= pkeys ->
  wp (SlabConstraints_new (limits config) tunables pkeys)
    (fun c s' => s' = s /\ constraints_ok c /\ memory_reservation tunables <= expected_slot_bytes c /\
       memory_guard_size tunables <= guard_bytes c /\ num_pkeys_available c = pkeys /\
       c_num_slots c = total_memories (limits config))
    (fun _ _ => True) s.
Proof.
  intros [] Hk. unfold SlabConstraints_new.
  apply wp_bind, new_rounded_up_u64_wp; [done| |done]. intros e He1 He2.
  apply wp_bind, new_rounded_up_wp; [done| |done]. intros m Hm1 Hm2.
  apply wp_bind, new_rounded_up_u64_wp; [done| |done]. intros g Hg1 Hg2.
  apply wp_ret. by split_and!; [..|split].
Qed.

(** Striping the mapping changes no byte and ends at the end of the slots. *)
Lemma stripe_mapping_wp n addr cursor l sp :
  0 <= slot_bytes l -> 0 <= cursor -> cursor + slot_bytes l * Z.of_nat n <= usize_MAX ->
  wp (stripe_mapping n addr cursor l)
    (fun c sp' => c = cursor + slot_bytes l * Z.of_nat n /\ forall x, cells sp' x = cells sp x)
    (fun _ _ => True) sp.
Proof.
  intros Hb. induction n as [|n IH] in cursor, sp |- *; intros Hc Hle; simpl; [apply wp_ret; split; [lia|done]|].
  apply wp_bind. unfold wp at 1, protect, syscall. destruct (os_failure _); [done|].
  apply wp_bind. eapply wp_run.
  { unfold HostAlignedByteCount.checked_add, checked_add. by rewrite (proj2 (Z.leb_le _ _)) by lia. }
  eapply wp_mono; [apply IH; lia| |done]. intros c sp' [-> E]. split; [lia|]. intros x. rewrite E. simpl.
  unfold set_range. by destruct (in_range _ _ x).
Qed.

Lemma zget_replicate {A} (n : Z) (x y : A) i : zget (replicate (Z.to_nat n) x) i = Some y -> y = x.
Proof. intros [_ Hl]%zget_Some. by apply lookup_replicate in Hl as [-> _]. Qed.

Lemma zget_fmap_seqZ {A} (f : Z -> A) n i x : zget (f <$> seqZ 0 n) i = Some x -> x = f i /\ 0 <= i < n.
Proof.
  intros [Hi Hl]%zget_Some. rewrite list_lookup_fmap in Hl.
  apply fmap_Some in Hl as (y & Hy & ->).
  apply lookup_seqZ in Hy as [-> Hy]. rewrite Z2Nat.id in * by done. done.
Qed.

Lemma new_stripe_ok c l max_warm pkeys i : constraints_ok c -> layout_ok c l -> 0 <= max_warm ->
  num_pkeys_available c = pkeys -> 0 <= i < num_stripes l ->
  stripe_ok l i (create_stripe c l max_warm pkeys i).
Proof.
  intros Hc Hl Hw Hp Hi. pose proof (ok_slots _ Hc) as Hs. rewrite <- (lo_slots _ _ Hl) in Hs.
  pose proof (lo_stripes _ _ Hl). pose proof (ok_max _ Hc) as [_ Hm]. rewrite <- (lo_max _ _ Hl) in Hm.
  set (cap := stripe_slots (num_slots l) (num_stripes l) i).
  assert (0 <= cap <= u32_MAX) as Hcap.
  { unfold cap, stripe_slots. assert (0 <= num_slots l / num_stripes l) by (apply Z.div_pos; lia).
    pose proof (Z.div_mod (num_slots l) (num_stripes l) ltac:(lia)).
    pose proof (Z.mod_pos_bound (num_slots l) (num_stripes l) ltac:(lia)).
    destruct (Z.ltb_spec i (num_slots l mod num_stripes l)); nia. }
  unfold create_stripe. rewrite <- (lo_slots _ _ Hl). fold cap.
  destruct (new_refines cap max_warm Hcap Hw) as [Hrep _ _].
  assert (view (IndexAllocator.new cap max_warm) = replicate (Z.to_nat cap) UnusedCold) as Hsl
    by (unfold view; simpl; by rewrite fmap_replicate).
  split; simpl.
  - by eexists.
  - fold cap. rewrite Hsl. unfold zlen. rewrite length_replicate. lia.
  - intros k. unfold bytes_at, info, unwrap_unused. rewrite Hsl.
    destruct (zget (replicate _ _) k) as [v|] eqn:E; [|simpl; lia].
    apply zget_replicate in E as ->. simpl. lia.
  - destruct (Z.ltb_spec i pkeys); [by left|]. right. split; [done|].
    destruct (lo_stripes_pkeys _ _ Hl) as [->|[? _]]; lia.
Qed.

(** A new pool, in an otherwise idle allocator, has no owners. *)
Definition start (p : MemoryPool) (batch : Z) (pagemap : bool) (sp : Space) : World :=
  mkWorld p DecommitQueue_default batch 0 pagemap sp.

(** The pool a layout describes, over a fresh mapping. *)
Lemma start_rest config keys pkeys c l keep addr total batch pm sp :
  config_ok config keys -> constraints_ok c -> layout_ok c l ->
  memory_reservation tunables <= expected_slot_bytes c -> memory_guard_size tunables <= guard_bytes c ->
  num_pkeys_available c = pkeys -> pkeys <= keys -> aligned keep -> total = total_bytes l ->
  (forall x, addr <= x < addr + total -> cells sp x = mkCell 0 0 false) ->
  Rest images tunables (start (mkPool addr total
     (create_stripe c l (max_unused_warm config) pkeys <$> seqZ 0 (num_stripes l))
     (replicate (Z.to_nat (c_num_slots c)) Unmapped) l (max_memories_per_module config) keep 0) batch pm sp) ∅ None.
Proof.
  intros [] Hc Hl Hres Hgd Hpk Hkeys [_ Hkeep] -> Hz. pose proof Hl as [Es Em [_ Hb] Epre Epost Hfit Htot Hst Hsp HF].
  pose proof (ok_slots _ Hc) as Hslots. pose proof (ok_max _ Hc) as Hmax. pose proof (ok_guard _ Hc) as [_ Hg].
  pose proof (ok_expected _ Hc) as [_ He]. rewrite <- Em in Hmax. pose proof Hmax as [_ Hmax'].
  assert (0 <= pre_slab_guard_bytes l) as Hpre by (rewrite Epre; destruct (guard_before_slots c); lia).
  assert (0 <= post_slab_guard_bytes l) as Hpost by (rewrite Epost; lia).
  specialize (HF ltac:(lia)). unfold faulting in HF. rewrite <- Em in HF.
  assert (slot_bytes l * num_stripes l <= usize_MAX) as Hstep.
  { destruct Hsp as [->|[_ Hn]]; [lia|]. rewrite <- Es in Hn. nia. }
  set (p := mkPool _ _ _ _ _ _ _ _). assert (pool_ok tunables p) as Hok.
  { unfold p, total_bytes. split; simpl; try done; try lia.
    - destruct Hsp as [->|[_ Hn]]; unfold u32_MAX in *; lia.
    - unfold zlen. rewrite length_fmap, length_seqZ. lia.
    - unfold zlen. rewrite length_replicate. lia.
    - intros i st Hst'. apply zget_fmap_seqZ in Hst' as [-> Hi]. by apply new_stripe_ok. }
  split; [split| |done|done]; try done.
  - by intros a [].
  - intros a Ha. split; [|by intros []]. intros [mm Hmm]. unfold slot_view in Hmm.
    change (memories _) with p in Hmm. destruct (zget (stripes p) (a mod zlen (stripes p))) as [st|] eqn:E; [|done]. simpl in Hmm.
    apply zget_fmap_seqZ in E as [-> Hi]. simpl in Hmm. unfold view, IndexAllocator.new in Hmm. simpl in Hmm.
    rewrite fmap_replicate in Hmm. by apply zget_replicate in Hmm.
  - intros a sl Hsl. change (memories _) with p in *. pose proof (zget_lt _ _ _ Hsl) as Ha.
    rewrite (po_image_slots _ _ Hok) in Ha.
    apply zget_replicate in Hsl as ->. rewrite lookup_empty. intros x Hx. apply Hz. unfold region, slot_base, total_bytes in *.
    simpl in *. nia.
  - by intros [] d ?%not_elem_of_nil.
  - by intros _ [].
  - by apply lists_nil.
Qed.

Lemma total_slab_wp l P Q (sp : Space) : 0 <= slot_bytes l * num_slots l -> 0 <= pre_slab_guard_bytes l ->
  0 <= post_slab_guard_bytes l -> total_bytes l <= usize_MAX -> P (total_bytes l) sp ->
  wp (total_slab_bytes l) P Q sp.
Proof.
  intros H1 H2 H3 Ht HP. unfold total_bytes in *. unfold total_slab_bytes, HostAlignedByteCount.checked_mul.
  rewrite (proj2 (Z.leb_le _ _)) by lia. apply wp_bind, wp_ret. apply wp_bind.
  unfold HostAlignedByteCount.checked_add, checked_add. rewrite (proj2 (Z.leb_le _ _)) by lia. apply wp_ret.
  by rewrite (proj2 (Z.leb_le _ _)) by lia.
Qed.

Lemma new_wp config mpk keys addr sp : config_ok config keys ->
  wp (new tunables config mpk keys addr)
    (fun p sp' => forall batch pm, Rest images tunables (start p batch pm sp') ∅ None)
    (fun _ _ => True) sp.
Proof.
  intros Hcf. unfold new. apply wp_bind, (wp_mono _ (fun _ sp' => sp' = sp) _ (fun _ _ => True)); [by destruct (_ <? _)| |done].
  intros [] sp0 ->. apply wp_bind, (wp_mono _ (fun k sp' => sp' = sp /\ 0 <= k <= keys) _ (fun _ _ => True)); [| |done].
  { pose proof (cf_keys _ _ Hcf). destruct (memory_protection_keys config), mpk; simpl; try done; split; (done || lia). }
  intros pkeys sp0 [-> Hpk]. apply wp_bind. eapply wp_mono; [by eapply (constraints_wp config keys pkeys); [|lia]| |done].
  intros c sp0 (-> & Hc & Hres & Hgd & Ek & Es). apply wp_bind. unfold wp at 1.
  destruct (calculate_run c Hc sp) as [(l & -> & Hl)|[e ->]]; [|done].
  pose proof Hl as [Esl Em [_ Hb] Epre Epost Hfit Htot Hst Hsp HF]. pose proof (ok_guard _ Hc) as [_ Hg].
  assert (0 <= pre_slab_guard_bytes l) as Hpre by (rewrite Epre; destruct (guard_before_slots c); lia).
  assert (0 <= post_slab_guard_bytes l) as Hpost by (rewrite Epost; lia).
  pose proof (ok_slots _ Hc) as Hslots. rewrite <- Esl in Hslots.
  assert (0 <= slot_bytes l * num_slots l) as Hmul by nia.
  apply wp_bind, total_slab_wp; [done..|].
  apply wp_bind. unfold wp at 1, erase_existing_mapping, syscall. destruct (os_failure _); [done|].
  set (sp1 := mkSpace _ _).
  apply wp_bind, (wp_mono _ (fun _ sp' => forall x, cells sp' x = cells sp1 x) _ (fun _ _ => True)); [| |done].
  { destruct (Z.leb_spec 2 (num_stripes l)); [|by apply wp_ret].
    apply wp_bind, wp_assert; [apply Z.leb_le; rewrite <- Ek; destruct Hsp; lia|].
    apply wp_bind. rewrite <- Esl. eapply wp_mono; [apply stripe_mapping_wp; [lia|done|]| |done].
    { rewrite Z2Nat.id by lia. lia. }
    intros cur sp2 [-> E2]. rewrite Z2Nat.id by lia. apply wp_bind. eapply wp_run.
    { unfold HostAlignedByteCount.checked_add, checked_add. by rewrite (proj2 (Z.leb_le _ _)) by lia. }
    apply wp_bind, total_slab_wp; [done..|]. apply wp_assert; [|done]. apply Z.eqb_eq. unfold total_bytes. lia. }
  intros [] sp2 E2. apply wp_bind, wp_assert; [apply Z.ltb_lt; lia|].
  apply wp_bind, new_rounded_up_wp; [apply Hcf| |done]. intros keep Hkeep _. apply wp_ret.
  intros batch pm. eapply (start_rest config keys pkeys); try done; [lia|].
  intros x Hx. rewrite E2. simpl. by rewrite set_range_in.
Qed.
End creation.

(** ** Clients *)

Section clients.
Context `{Host} `{OS} (images : Z -> MemoryImage) (tunables : Tunables).
Implicit Types (w : World) (own : gmap Z owner) (live : gmap Z MemoryImageSlot).

Abbreviation Rest := (Rest images tunables).

Definition with_pkey (k : option Z) (req : Request) : Request :=
  mkRequest k (ty req) (memory_index req) (unique_id req) (memory_image req) (admitted req).

(** A store asks for its key, the type of the memory is validated, and the memory
    is allocated. *)
Definition allocate_for_store (req : Request) : M World PoolError (Z * MemoryImageSlot) :=
  validate_memory (ty req) ;;;
  k <- next_available_pkey ;;
  allocate_memory images tunables (with_pkey k req).

Inductive client_op :=
| Allocate (req : Request)
| Guest (a : Z) (g : guest_op)
| Deallocate (a : Z)
| Purge (module : Z).

(** The allocator and the live memories, by their index.  An allocation that fails
    leaves its client without a memory; a growth that fails ends the run. *)
Definition client_step (op : client_op) : M (World * gmap Z MemoryImageSlot) PoolError unit :=
  fun '(w, live) =>
    match op with
    | Allocate req =>
        match allocate_for_store req w with
        | Ret (a, s) w' => Ret tt (w', <[a := s]> live)
        | Fail _ w' => Ret tt (w', live)
        | Panic => Panic
        end
    | Guest a g =>
        match live !! a with
        | Some s =>
            match guest_step g (s, space w) with
            | Ret _ (s', sp) => Ret tt (set_space sp w, <[a := s']> live)
            | Fail e (s', sp) => Fail e (set_space sp w, <[a := s']> live)
            | Panic => Panic
            end
        | None => Ret tt (w, live)
        end
    | Deallocate a =>
        match live !! a with
        | Some s =>
            match deallocate_memory images a s w with
            | Ret _ w' => Ret tt (w', delete a live)
            | Fail e w' => Fail e (w', delete a live)
            | Panic => Panic
            end
        | None => Ret tt (w, live)
        end
    | Purge module =>
        match purge_module images module w with
        | Ret _ w' => Ret tt (w', live)
        | Fail e w' => Fail e (w', live)
        | Panic => Panic
        end
    end.

Fixpoint run_client (ops : list client_op) : M (World * gmap Z MemoryImageSlot) PoolError unit :=
  match ops with
  | [] => ret tt
  | op :: ops => client_step op ;;; run_client ops
  end.

(** Types have unsigned limits, and [ModuleMemoryImages::new] makes only images that
    fit the minimum size of their memory. *)
Record request_valid (req : Request) : Prop := {
  rv_type : Memory.valid (ty req);
  rv_image i n : memory_image req = Some (Some i) -> Memory.minimum_byte_size (ty req) = Some n ->
    image_below images (Some i) n
}.
Definition op_valid (op : client_op) : Prop :=
  match op with Allocate req => request_valid req | _ => True end.

(** The live memories are those the clients hold, and are counted. *)
Definition sys_inv (sys : World * gmap Z MemoryImageSlot) : Prop :=
  exists own, Rest sys.1 own None /\
    (forall a s, own !! a = Some (Live s) <-> sys.2 !! a = Some s) /\
    live_memories sys.1 = Z.of_nat (size sys.2).

(** No byte of a live memory has changed. *)
Definition untouched live w w' : Prop :=
  forall a s o, live !! a = Some s -> 0 <= o < static_size s ->
    cells (space w') (base s + o) = cells (space w) (base s + o).

Lemma sys_placed w own live a s : Rest w own None ->
  (forall a s, own !! a = Some (Live s) <-> live !! a = Some s) -> live !! a = Some s ->
  in_pool (memories w) a /\ placed (memories w) a s /\ in_use images s (cells (space w)).
Proof.
  intros [HI _ _ _] Hlive Ha%Hlive. split; [apply (iv_range _ _ _ _ _ _ _ HI); eauto|].
  by destruct (take_live images tunables w own _ _ a s HI Ha) as (_ & _ & ? & ?).
Qed.

Lemma frame_untouched w w' own live : Rest w own None ->
  (forall a s, own !! a = Some (Live s) <-> live !! a = Some s) -> quiet w w' own -> untouched live w w'.
Proof.
  intros HR Hlive Q a s o Ha Ho. destruct (sys_placed w own live a s HR Hlive Ha) as (_ & Hp & _).
  apply (fr_keeps _ _ _ Q a s); [by apply Hlive|]. by apply (placed_region (memories w)).
Qed.

Lemma live_bound w own live : Rest w own None ->
  (forall a s, own !! a = Some (Live s) <-> live !! a = Some s) -> Z.of_nat (size live) <= u32_MAX.
Proof.
  intros HR Hlive. pose proof (iv_ok _ _ _ _ _ _ _ (re_inv _ _ _ _ _ HR)) as Hok.
  pose proof (po_slots _ _ Hok) as Hs.
  assert (zlen ((map_to_list live).*1) <= num_slots (layout (memories w))) as Hle.
  { apply zlen_bounded; [apply NoDup_fst_map_to_list|lia|]. intros a ([b s] & -> & Hb)%list_elem_of_fmap.
    apply elem_of_map_to_list in Hb. by destruct (sys_placed w own live b s HR Hlive Hb). }
  unfold zlen in Hle. rewrite length_fmap, length_map_to_list in Hle. lia.
Qed.

Lemma next_available_pkey_wp w own t : Rest w own t ->
  wp next_available_pkey
    (fun k w' => frame w w' own /\ Rest w' own t /\ space w' = space w /\
       match k with
       | Some i => 0 <= i < num_stripes (layout (memories w))
       | None => num_stripes (layout (memories w)) < 2
       end) (fun _ _ => False) w.
Proof.
  intros HR. pose proof (iv_ok _ _ _ _ _ _ _ (re_inv _ _ _ _ _ HR)) as Hok.
  pose proof (po_stripes _ _ Hok) as Hs. pose proof (po_len _ _ Hok) as Hlen.
  unfold next_available_pkey. do 2 (apply wp_bind; eapply wp_run; [done|]).
  apply wp_bind, wp_assert; [rewrite (proj2 (Z.eqb_neq _ _)); [done|lia]|]. apply wp_bind. eapply wp_run; [done|].
  pose proof (Z.mod_pos_bound (next_pkey (memories w)) (zlen (stripes (memories w))) ltac:(lia)) as Hm.
  destruct (proj2 (zget_is_Some (stripes (memories w)) _) Hm) as [st Hst].
  apply wp_bind. eapply wp_unwrap; [done|]. pose proof (sk_pkey _ _ _ (po_each _ _ Hok _ _ Hst)) as Hpk.
  apply wp_bind, wp_assert.
  { destruct Hpk as [->|[-> Hlt]]; [by rewrite orb_true_r|]. by rewrite Hlen, (proj2 (Z.ltb_lt _ _)). }
  apply wp_ret. split; [done|]. split.
  - destruct HR as [[] Hl Hloc Ht]. split; try done. split; try done. by destruct Hok; split.
  - split; [done|]. destruct Hpk as [->|[-> ?]]; [|done]. by rewrite <- Hlen.
Qed.

Lemma validate_memory_wp w req : request_valid req ->
  wp (validate_memory (ty req))
    (fun _ w' => w' = w /\ forall k, match k with
       | Some i => 0 <= i < num_stripes (layout (memories w))
       | None => num_stripes (layout (memories w)) < 2
       end -> request_ok images (memories w) (with_pkey k req))
    (fun e w' => w' = w /\ limit_reached e = false) w.
Proof.
  intros [Hty Himg]. unfold validate_memory. apply wp_bind. eapply wp_run; [done|]. apply wp_bind.
  destruct (Memory.minimum_byte_size (ty req)) as [n|] eqn:En; [|done]. apply wp_ret.
  destruct (Z.ltb_spec (max_memory_bytes (layout (memories w))) n); [done|]. destruct (Memory.shared _); [done|].
  apply wp_ret. split; [done|]. intros k Hk. split; [|done]. exists n. simpl. split; [done|].
  split; [|intros i Hi; by apply (Himg i n)]. destruct (Memory.minimum_byte_size_Some _ Hty n En). lia.
Qed.

(** Some stripe has no slot that is not in use by a live memory. *)
Definition some_stripe_full w live : Prop :=
  exists k, 0 <= k < num_stripes (layout (memories w)) /\
    forall a, in_pool (memories w) a -> a mod num_stripes (layout (memories w)) = k -> is_Some (live !! a).

Lemma sys_inv_insert w w' own' live a s : Rest w' (<[a := Live s]> own') None -> own' !! a = None ->
  (forall b t, own' !! b = Some (Live t) <-> live !! b = Some t) -> Z.of_nat (size live) <= u32_MAX ->
  live_memories w' = (Z.of_nat (size live) + 1) mod 2 ^ 64 ->
  live !! a = None /\ sys_inv (w', <[a := s]> live).
Proof.
  intros HR Hnone Hlive Hb Hc.
  assert (live !! a = None) as Ha.
  { apply eq_None_not_Some. intros [t Ht%Hlive]. congruence. }
  split; [done|]. exists (<[a := Live s]> own'). split; [done|]. split; simpl.
  - intros b t. destruct (decide (a = b)) as [<-|]; [rewrite !lookup_insert_eq; naive_solver|].
    by rewrite !lookup_insert_ne.
  - rewrite map_size_insert_None, Hc by done. rewrite Z.mod_small; unfold u32_MAX in *; lia.
Qed.

(** What allocating for a store does to a system at rest. *)
Lemma allocate_for_store_wp w live req : sys_inv (w, live) -> request_valid req ->
  wp (allocate_for_store req)
    (fun r w' => live !! r.1 = None /\ fresh_memory images (memories w') (cells (space w')) req r.1 r.2 /\
       untouched live w w' /\ sys_inv (w', <[r.1 := r.2]> live))
    (fun e w' => untouched live w w' /\ sys_inv (w', live) /\
       (limit_reached e = true -> some_stripe_full w live)) w.
Proof.
  intros (own & HR & Hlive & Hcount) Hreq. simpl in *. pose proof (live_bound w own live HR Hlive) as Hbound.
  unfold allocate_for_store. apply wp_bind. eapply wp_mono; [by apply validate_memory_wp| |].
  2: { intros e w' [-> He]. split; [by intros ?|]. split; [by exists own|]. by rewrite He. }
  intros [] w' [-> Hok]. apply wp_bind. eapply wp_mono; [by apply (next_available_pkey_wp w own None)| |done].
  intros k w1 (F1 & R1 & Esp & Hk). specialize (Hok k Hk).
  pose proof (request_ok_fixed images _ _ _ (fr_fixed _ _ _ F1) Hok) as Hok1.
  assert (forall w2, quiet w1 w2 own -> quiet w w2 own) as Hq
    by (intros w2 Q2; eapply frame_trans; [by apply frame_quiet| |exact Q2]; done).
  unfold allocate_memory. apply wp_bind. eapply wp_mono; [by apply (allocate_retry_wp images tunables w1 own)| |].
  - intros [a s] w2 (own' & Hnone & Hsl & Q2 & R2 & Hf). simpl in *. apply wp_bind. eapply wp_run; [done|].
    apply wp_ret. set (w3 := set_live _ w2).
    destruct (sys_inv_insert w w3 own' live a s) as [Ha Hinv]; try done.
    + by destruct R2.
    + intros b t. rewrite (Hsl b t). apply Hlive.
    + unfold w3. pose proof (fr_live _ _ _ Q2) as E2. simpl in *. by rewrite E2, (fr_live _ _ _ F1), Hcount.
    + split; [done|]. split; [done|]. split; [|done].
      intros b t o Hb Ho. by apply (frame_untouched w w2 own live HR Hlive (Hq w2 Q2) b t o).
  - intros e w2 (own' & Hsl & Q2 & R2 & Hfull). specialize (Hq w2 Q2).
    split; [by apply (frame_untouched w w2 own)|]. split.
    + exists own'. split; [done|]. pose proof (fr_live _ _ _ Q2) as E2. simpl in *.
      split; [|by rewrite E2, (fr_live _ _ _ F1)].
      intros b t. rewrite (Hsl b t). apply Hlive.
    + intros He. specialize (Hfull He). pose proof (fx_layout _ _ (fr_fixed _ _ _ F1)) as El.
      exists (default 0 k). split.
      * pose proof (po_stripes _ _ (iv_ok _ _ _ _ _ _ _ (re_inv _ _ _ _ _ HR))). destruct k; simpl; [done|lia].
      * intros a Ha Hmod. unfold stripe_full, in_pool in *. rewrite El in Hfull.
        destruct (Hfull a Ha Hmod) as [t Ht]. exists t. by apply Hlive.
Qed.

(** A guest's operation stays in its memory. *)
Lemma guest_inv w live a s g : sys_inv (w, live) -> live !! a = Some s ->
  match guest_step g (s, space w) with
  | Ret _ (s', sp) => sys_inv (set_space sp w, <[a := s']> live)
  | Fail _ _ => True
  | Panic => False
  end.
Proof.
  intros (own & HR & Hlive & Hcount) Ha. simpl in *. destruct (sys_placed w own live a s HR Hlive Ha) as (Hin & Hp & Hu).
  pose proof (guest_step_wp images g s (space w) Hu) as Hw. unfold wp in Hw.
  destruct (guest_step g (s, space w)) as [u [s' sp]|? ?|]; [|done|done]. destruct Hw as [(Eb & Es & Eo) Hu']. simpl in *.
  assert (own !! a = Some (Live s)) as Hown by (by apply Hlive). pose proof HR as [HI [Hnd Hl] Hloc Ht].
  exists (<[a := Live s']> own). split; [split|split]; simpl.
  - eapply Inv_step; try done; [apply HI| | | |].
    + intros x Hx. apply Eo. destruct Hp as [-> ->]. done.
    + rewrite (iv_used _ _ _ _ _ _ _ HI), Hown by done. split; by eexists.
    + intros sl Hsl. simpl in Hsl.
      destruct (take_live images tunables w own _ _ a s HI Hown) as (_ & Hun & _). rewrite Hun in Hsl.
      simplify_eq. split; [done|]. split; [|done]. destruct Hp. split; simpl; congruence.
    + intros k t n. by rewrite Hown.
  - split; [done|]. intros b t n. rewrite Hl. destruct (decide (a = b)) as [<-|]; [|by rewrite lookup_insert_ne].
    rewrite lookup_insert_eq, Hown. by split.
  - intros b t n. destruct (decide (a = b)) as [<-|]; [by rewrite lookup_insert_eq|].
    rewrite lookup_insert_ne by done. apply Hloc.
  - intros b. destruct (decide (a = b)) as [<-|]; [by rewrite lookup_insert_eq|].
    rewrite lookup_insert_ne by done. apply Ht.
  - intros b t. destruct (decide (a = b)) as [<-|]; [rewrite !lookup_insert_eq; naive_solver|].
    by rewrite !lookup_insert_ne.
  - by rewrite map_size_insert_Some.
Qed.

Lemma deallocate_inv w live a s : sys_inv (w, live) -> live !! a = Some s ->
  wp (deallocate_memory images a s) (fun _ w' => sys_inv (w', delete a live)) (fun _ _ => False) w.
Proof.
  intros (own & HR & Hlive & Hcount) Ha. simpl in *.
  assert (size live = S (size (delete a live))) as Hsz by (by rewrite map_size_delete_Some, Nat.succ_pred by
    (done || (intros E; apply map_size_empty_inv in E; by rewrite E in Ha))).
  eapply wp_mono; [apply (deallocate_memory_wp images tunables w own a s HR)| |done]; [by apply Hlive|lia|].
  intros [] w' (own' & R & Hsl & Q). exists own'. split; [done|]. split; simpl.
  - intros b t. rewrite (Hsl b t), !lookup_delete_Some, Hlive. done.
  - pose proof (fr_live _ _ _ Q) as E. simpl in E. lia.
Qed.

Lemma client_step_inv op sys : sys_inv sys -> op_valid op ->
  wp (client_step op) (fun _ => sys_inv) (fun _ _ => True) sys.
Proof.
  destruct sys as [w live]. intros HI Hop. unfold wp, client_step. destruct op as [req|a g|a|module].
  - pose proof (allocate_for_store_wp w live req HI Hop) as Hw. unfold wp in Hw.
    destruct (allocate_for_store req w) as [[a s] w'|e w'|]; [apply Hw|apply Hw|done].
  - destruct (live !! a) as [s|] eqn:Ha; [|done]. pose proof (guest_inv w live a s g HI Ha) as Hw.
    by destruct (guest_step g _) as [? []|? []|].
  - destruct (live !! a) as [s|] eqn:Ha; [|done]. pose proof (deallocate_inv w live a s HI Ha) as Hw.
    unfold wp in Hw. by destruct (deallocate_memory _ _ _ _).
  - destruct HI as (own & HR & Hlive & Hcount). simpl in *.
    pose proof (purge_module_wp images tunables w own module HR) as Hw. unfold wp in Hw.
    destruct (purge_module _ _ _) as [? w'|? w'|]; [|done..]. destruct Hw as (F & R & _).
    exists own. split; [done|]. split; [done|]. simpl. by rewrite (fr_live _ _ _ F).
Qed.

Lemma run_client_inv ops sys : sys_inv sys -> Forall op_valid ops ->
  wp (run_client ops) (fun _ => sys_inv) (fun _ _ => True) sys.
Proof.
  intros HI Hops. induction Hops as [|op ops Hop _ IH] in sys, HI |- *; simpl; [done|].
  apply wp_bind. eapply wp_mono; [by apply client_step_inv| |done]. intros [] sys' HI'. by apply IH.
Qed.

(** [P] holds whenever a pool was created, however its system calls fail, and its
    clients did [ops]; nothing of it panics. *)
Definition after_every_run (config : PoolConfig) (mpk : bool) (keys addr : Z) (sp : Space)
    (batch : Z) (pagemap : bool) (ops : list client_op)
    (P : World -> gmap Z MemoryImageSlot -> Prop) : Prop :=
  match new tunables config mpk keys addr sp with
  | Ret p sp1 =>
      match run_client ops (start p batch pagemap sp1, ∅) with
      | Ret _ (w, live) => P w live
      | Fail _ _ => True
      | Panic => False
      end
  | Fail _ _ => True
  | Panic => False
  end.

Lemma every_run config mpk keys addr sp batch pm ops P :
  config_ok tunables config keys -> Forall op_valid ops ->
  (forall w live, sys_inv (w, live) -> P w live) -> after_every_run config mpk keys addr sp batch pm ops P.
Proof.
  intros Hcf Hops HP. unfold after_every_run.
  pose proof (new_wp images tunables config mpk keys addr sp Hcf) as Hw. unfold wp in Hw.
  destruct (new _ _ _ _ _ _) as [p sp1| |]; [|done..].
  assert (sys_inv (start p batch pm sp1, ∅)) as HI.
  { exists ∅. split; [by apply Hw|]. split; [|done]. intros a s. by rewrite !lookup_empty. }
  pose proof (run_client_inv ops _ HI Hops) as Hr. unfold wp in Hr.
  destruct (run_client _ _) as [? [w live]| |]; [by apply HP|done..].
Qed.



(** C35.  No slot is lost: after any such sequence an allocation is refused for
    want of a slot only when every slot of some stripe, the one of the store's
    protection key, is held by a live memory; slots that wait in the decommit
    queue are flushed and handed out. *)
Theorem pool_refuses_only_when_full config mpk keys addr sp batch pm ops :
  config_ok tunables config keys -> Forall op_valid ops ->
  after_every_run config mpk keys addr sp batch pm ops (fun w live =>
    forall req, request_valid req ->
      match allocate_for_store req w with
      | Fail (PoolConcurrencyLimitError _) _ => some_stripe_full w live
      | _ => True
      end).
Proof.
  intros Hcf Hops. apply every_run; [done..|]. intros w live HI req Hreq.
  pose proof (allocate_for_store_wp w live req HI Hreq) as Hw. unfold wp in Hw.
  destruct (allocate_for_store req w) as [|e w'|]; [done| |done].
  destruct Hw as (_ & _ & Hfull). destruct e; try done. by apply Hfull.
Qed.

(** Purging a module ends, without a panic, after as many turns as there
    are slots to visit: afterwards no slot is kept for a memory of the module, and
    no byte of a live memory has changed. *)
Theorem pool_purge_complete config mpk keys addr sp batch pm ops :
  config_ok tunables config keys -> Forall op_valid ops ->
  after_every_run config mpk keys addr sp batch pm ops (fun w live =>
    forall module,
      match purge_module images module w with
      | Ret _ w' => untouched live w w' /\
          forall a j, in_pool (memories w) a -> 0 <= j < memories_per_instance (memories w) ->
            affine_slot (module, j) (slot_view (memories w') a) = false
      | _ => False
      end).
Proof.
  intros Hcf Hops. apply every_run; [done..|]. intros w live (own & HR & Hlive & _) module. simpl in *.
  pose proof (purge_module_wp images tunables w own module HR) as Hw. unfold wp in Hw.
  destruct (purge_module _ _ _) as [? w'| |]; [|done..]. destruct Hw as (F & _ & Haff).
  split; [|done]. by apply (frame_untouched w w' own live HR Hlive), frame_quiet.
Qed.
End clients.

(** ** Witnesses

    A pool with room for one memory of 64 KiB.  A first module's guest writes into
    its memory and is gone; its slot waits in the decommit queue, is flushed for the
    next request, and holds the bytes of the image again. *)

#[local] Existing Instance os_ok.
Abbreviation mem_images := image_3.

Definition small_tunables : Tunables :=
  mkTunables 65536 4096 0 true 65536 4096 0 true true true true false false false false true.
Definition small_config : PoolConfig := mkConfig (mkLimits 65536 1) 1 1 0 No.
Definition request_3 : Request :=
  mkRequest None (Memory.mkMemory Idx32 (Memory.mkLimits 1 None) false 16) (Some 0) (Some 7) (Some (Some 3)) true.
Definition tenant : list client_op :=
  [Allocate request_3; Guest 0 (Store 4100 99); Deallocate 0].

Lemma small_config_ok : config_ok (H := host_4k) small_tunables small_config 0.
Proof. split; simpl; unfold u32_MAX; lia. Defined.

Lemma request_3_valid : request_valid mem_images request_3.
Proof.
  split.
  - split; simpl; [by right|done|done|done].
  - intros i n [= <-] Hn. vm_compute in Hn. injection Hn as <-. vm_compute. intuition discriminate.
Defined.

Lemma tenant_valid : Forall (op_valid mem_images) tenant.
Proof. constructor; [exact request_3_valid|repeat constructor]. Defined.

(** The run, on concrete numbers: the second tenant sees the image. *)
Example tenants_run :
  match new (H := host_4k) small_tunables small_config false 0 1048576 (mkSpace (fun _ => mkCell 0 0 false) 0) with
  | Ret p sp1 =>
      match (run_client (H := host_4k) mem_images small_tunables (tenant ++ [Allocate request_3]))
              (start p 4 false sp1, ∅) with
      | Ret _ (w, live) =>
          match live !! 0 with
          | Some s => value (cells (space w) (base s + 4100)) = 7 /\ live_memories w = 1
          | None => False
          end
      | _ => False
      end
  | _ => False
  end.
Proof. vm_compute. split; reflexivity. Qed.



Lemma pool_refuses_only_when_full_witness :
  after_every_run (H := host_4k) mem_images small_tunables small_config false 0 1048576
    (mkSpace (fun _ => mkCell 0 0 false) 0) 4 false tenant (fun w live =>
    forall req, request_valid mem_images req ->
      match allocate_for_store (H := host_4k) mem_images small_tunables req w with
      | Fail (PoolConcurrencyLimitError _) _ => some_stripe_full w live
      | _ => True
      end).
Proof.
  apply (pool_refuses_only_when_full (H := host_4k) mem_images small_tunables).
  - apply small_config_ok.
  - apply tenant_valid.
Defined.

Lemma pool_purge_complete_witness :
  after_every_run (H := host_4k) mem_images small_tunables small_config false 0 1048576
    (mkSpace (fun _ => mkCell 0 0 false) 0) 4 false tenant (fun w live =>
    forall module,
      match purge_module mem_images module w with
      | Ret _ w' => untouched live w w' /\
          forall a j, in_pool (memories w) a -> 0 <= j < memories_per_instance (memories w) ->
            affine_slot (module, j) (slot_view (memories w') a) = false
      | _ => False
      end).
Proof.
  apply (pool_purge_complete (H := host_4k) mem_images small_tunables).
  - apply small_config_ok.
  - apply tenant_valid.
Defined.
