(* ===== verification/BitSet.v ===== *)
(** * Bit sets

    [ScalarBitSet] and [CompoundBitSet] of cranelift/bitset, over a storage
    integer of [w] bits (the source instantiates it with [u8] to [u128]): a
    scalar is a [Z] in [0, 2^w), a compound set a boxed slice of scalars with
    the largest element cached. *)

From S2P Require Import Prelude TryVec.

(** ** Storage integers

    The operators of [ScalarBitSetStorage] with Rust's overflow checks
    ([None] is a panic), and the standard library's bit counts. *)

Section scalar.
Context (w : Z).

Definition shl (x n : Z) : option Z :=
  if n <? w then Some (Z.shiftl x n mod 2 ^ w) else None.
Definition add (x y : Z) : option Z := checked_add (2 ^ w - 1) x y.
Definition sub (x y : Z) : option Z := checked_sub x y.
Definition not (x : Z) : Z := Z.lxor x (Z.ones w).

(** The positions of the ones, in increasing order. *)
Definition ones_of (x : Z) : list Z :=
  filter (fun i => Z.testbit x i = true) (seqZ 0 w).

Definition count_ones (x : Z) : Z := zlen (ones_of x).
Definition trailing_zeros (x : Z) : Z := default w (head (ones_of x)).
Definition leading_zeros (x : Z) : Z :=
  match last (ones_of x) with Some m => w - 1 - m | None => w end.

(** ** ScalarBitSet *)

Definition ScalarBitSet : Type := Z.

Definition new : ScalarBitSet := 0.

Definition scalar_capacity : Z := w.

Definition from_range (lo hi : Z) : option ScalarBitSet :=
  if negb (lo <=? hi) then None
  else if negb (hi <=? scalar_capacity) then None
  else
    let one := 1 in
    hi_rng ← (if 1 <=? hi then
                a ← shl one (hi - 1);
                b ← shl one (hi - 1);
                c ← sub b one;
                add a c
              else Some 0);
    d ← shl one lo;
    lo_rng ← sub d one;
    sub hi_rng lo_rng.

Definition scalar_len (self : ScalarBitSet) : Z := count_ones self.

Definition scalar_is_empty (self : ScalarBitSet) : bool := self =? 0.

Definition scalar_contains (self : ScalarBitSet) (i : Z) : option bool :=
  if i <? scalar_capacity then
    bit ← shl 1 i; Some (negb (Z.land self bit =? 0))
  else None.

(** The operations on [&mut self] return the new set with their result. *)
Definition scalar_insert (self : ScalarBitSet) (i : Z) : option (bool * ScalarBitSet) :=
  present ← scalar_contains self i;
  bit ← shl 1 i;
  Some (negb present, Z.lor self bit).

Definition scalar_remove (self : ScalarBitSet) (i : Z) : option (bool * ScalarBitSet) :=
  was_present ← scalar_contains self i;
  bit ← shl 1 i;
  Some (was_present, Z.land self (not bit)).

Definition scalar_clear (self : ScalarBitSet) : ScalarBitSet := 0.

Definition scalar_min (self : ScalarBitSet) : option Z :=
  if self =? 0 then None else Some (trailing_zeros self).

Definition scalar_max (self : ScalarBitSet) : option Z :=
  if self =? 0 then None else Some (scalar_capacity - leading_zeros self - 1).

(** The outer option is a panic of [remove]. *)
Definition pop_min (self : ScalarBitSet) : option (option Z * ScalarBitSet) :=
  match scalar_min self with
  | None => Some (None, self)
  | Some min => r ← scalar_remove self min; Some (Some min, r.2)
  end.

Definition pop_max (self : ScalarBitSet) : option (option Z * ScalarBitSet) :=
  match scalar_max self with
  | None => Some (None, self)
  | Some max => r ← scalar_remove self max; Some (Some max, r.2)
  end.

(** The items of [Iter]: [next] is [pop_min]; at most [w] of them. *)
Fixpoint drain_min (fuel : nat) (self : ScalarBitSet) : option (list Z) :=
  match fuel with
  | O => Some []
  | S fuel =>
      r ← pop_min self;
      match r.1 with
      | None => Some []
      | Some i => rest ← drain_min fuel r.2; Some (i :: rest)
      end
  end.
Definition scalar_iter (self : ScalarBitSet) : option (list Z) :=
  drain_min (S (Z.to_nat w)) self.
End scalar.

(** Strictly increasing lists with the same elements are equal. *)
Lemma sorted_lt_ext (l k : list Z) :
  StronglySorted Z.lt l -> StronglySorted Z.lt k -> (forall x, x ∈ l <-> x ∈ k) -> l = k.
Proof.
  intros Hl. revert k. induction Hl as [|a l Hl IH Ha]; intros k Hk Heq.
  { destruct k as [|b k]; [done|]. specialize (Heq b). set_solver. }
  destruct Hk as [|b k Hk Hb]; [specialize (Heq a); set_solver|].
  rewrite Forall_forall in Ha, Hb. assert (a = b) as ->.
  { pose proof (proj1 (Heq a)) as Ha'. pose proof (proj2 (Heq b)) as Hb'.
    destruct (elem_of_cons k a b) as [Hc _], (elem_of_cons l b a) as [Hd _].
    destruct Hc as [?|Hak]; [apply Ha'; left|done|].
    destruct Hd as [?|Hbl]; [apply Hb'; left|done|].
    apply Ha in Hbl. apply Hb in Hak. lia. }
  f_equal. apply IH; [done|]. intros x. specialize (Heq x).
  rewrite !elem_of_cons in Heq. split; intros Hx.
  - destruct (proj1 Heq) as [->|?]; [by right| |done]. apply Ha in Hx. lia.
  - destruct (proj2 Heq) as [->|?]; [by right| |done]. apply Hb in Hx. lia.
Qed.

Section scalar_lemmas.
Context (w : Z) (Hw : 0 < w).

Definition scalar_wf (x : Z) : Prop := 0 <= x < 2 ^ w.

Lemma testbit_high x i : scalar_wf x -> w <= i -> Z.testbit x i = false.
Proof.
  intros [H0 Hx] Hi. destruct (decide (x = 0)) as [->|]; [apply Z.bits_0|].
  apply Z.bits_above_log2; [done|]. apply Z.log2_lt_pow2 in Hx; lia.
Qed.

Lemma scalar_wf_bits x : (forall i, w <= i -> Z.testbit x i = false) -> 0 <= x -> scalar_wf x.
Proof.
  intros Hb H0. split; [done|]. destruct (decide (x = 0)) as [->|]; [lia|].
  apply Z.log2_lt_pow2; [lia|]. destruct (decide (Z.log2 x < w)); [done|].
  pose proof (Hb (Z.log2 x) ltac:(lia)) as Hf. rewrite Z.bit_log2 in Hf by lia. done.
Qed.

Lemma elem_of_ones x i : i ∈ ones_of w x <-> 0 <= i < w /\ Z.testbit x i = true.
Proof.
  unfold ones_of. rewrite list_elem_of_filter, elem_of_seqZ. intuition lia.
Qed.

Lemma ones_nil x : scalar_wf x -> ones_of w x = [] <-> x = 0.
Proof.
  intros Hx. split.
  - intros Hn. apply Z.bits_inj_0. intros i.
    destruct (decide (0 <= i)); [|apply Z.testbit_neg_r; lia].
    destruct (decide (i < w)); [|apply testbit_high; [done|lia]].
    destruct (Z.testbit x i) eqn:Hi; [|done].
    assert (i ∈ ones_of w x) as Hin by by apply elem_of_ones.
    rewrite Hn in Hin. set_solver.
  - intros ->. unfold ones_of. induction (seqZ 0 w) as [|a l IH]; [done|].
    rewrite filter_cons_False; [done|]. by rewrite Z.bits_0.
Qed.

Lemma seqZ_sorted m n : StronglySorted Z.lt (seqZ m n).
Proof.
  unfold seqZ. generalize (Z.to_nat n) as k. intros k. generalize 0%nat as a.
  induction k as [|k IH]; intros a; simpl; constructor; [apply IH|].
  apply Forall_fmap, Forall_forall. intros b Hb%elem_of_seq. simpl. lia.
Qed.

Lemma ones_sorted x : StronglySorted Z.lt (ones_of w x).
Proof.
  unfold ones_of. induction (seqZ_sorted 0 w) as [|a l Hs IH Ha]; [constructor|].
  destruct (decide (Z.testbit x a = true)).
  - rewrite filter_cons_True by done. constructor; [done|].
    rewrite Forall_forall in Ha |- *. intros b [_ Hb]%list_elem_of_filter. by apply Ha.
  - by rewrite filter_cons_False.
Qed.

Lemma shl_one i : 0 <= i < w -> shl w 1 i = Some (2 ^ i).
Proof.
  intros Hi. unfold shl. rewrite (proj2 (Z.ltb_lt _ _)) by lia. f_equal.
  rewrite Z.shiftl_1_l. apply Z.mod_small. split; [lia|]. apply Z.pow_lt_mono_r; lia.
Qed.

Lemma land_pow2 x i : 0 <= i -> negb (Z.land x (2 ^ i) =? 0) = Z.testbit x i.
Proof.
  intros Hi. destruct (Z.testbit x i) eqn:Hb.
  - apply negb_true_iff, Z.eqb_neq. intros H0.
    assert (Z.testbit (Z.land x (2 ^ i)) i = true) as Ht
      by by rewrite Z.land_spec, Hb, Z.pow2_bits_true.
    by rewrite H0, Z.bits_0 in Ht.
  - apply negb_false_iff, Z.eqb_eq, Z.bits_inj_0. intros j.
    rewrite Z.land_spec, Z.pow2_bits_eqb by done.
    destruct (Z.eqb_spec i j) as [->|]; [by rewrite Hb|apply andb_false_r].
Qed.

Lemma scalar_contains_run x i : 0 <= i < w -> scalar_contains w x i = Some (Z.testbit x i).
Proof.
  intros Hi. unfold scalar_contains, scalar_capacity.
  rewrite (proj2 (Z.ltb_lt _ _)), shl_one by lia. simpl. by rewrite land_pow2 by lia.
Qed.

(** The sets [insert] and [remove] leave. *)
Definition with_bit (x i : Z) : Z := Z.lor x (2 ^ i).
Definition without_bit (x i : Z) : Z := Z.land x (not w (2 ^ i)).

Lemma scalar_insert_run x i : 0 <= i < w ->
  scalar_insert w x i = Some (negb (Z.testbit x i), with_bit x i).
Proof.
  intros Hi. unfold scalar_insert. rewrite scalar_contains_run by done. simpl.
  by rewrite shl_one.
Qed.

Lemma scalar_remove_run x i : 0 <= i < w ->
  scalar_remove w x i = Some (Z.testbit x i, without_bit x i).
Proof.
  intros Hi. unfold scalar_remove. rewrite scalar_contains_run by done. simpl.
  by rewrite shl_one.
Qed.

Lemma with_bit_spec x i j : 0 <= i ->
  Z.testbit (with_bit x i) j = (i =? j) || Z.testbit x j.
Proof.
  intros. unfold with_bit. by rewrite Z.lor_spec, Z.pow2_bits_eqb, orb_comm.
Qed.

Lemma without_bit_spec x i j : 0 <= i -> 0 <= j < w ->
  Z.testbit (without_bit x i) j = negb (i =? j) && Z.testbit x j.
Proof.
  intros. unfold without_bit, not. rewrite Z.land_spec, Z.lxor_spec, Z.pow2_bits_eqb by lia.
  rewrite Z.ones_spec_low by lia. by rewrite andb_comm, xorb_true_r.
Qed.

Lemma with_bit_wf x i : scalar_wf x -> 0 <= i < w -> scalar_wf (with_bit x i).
Proof.
  intros Hx Hi. apply scalar_wf_bits.
  - intros j Hj. rewrite with_bit_spec by lia. rewrite testbit_high by done.
    by rewrite (proj2 (Z.eqb_neq _ _)) by lia.
  - apply Z.lor_nonneg. destruct Hx. split; lia.
Qed.

Lemma without_bit_wf x i : scalar_wf x -> scalar_wf (without_bit x i).
Proof.
  intros Hx. apply scalar_wf_bits.
  - intros j Hj. unfold without_bit. rewrite Z.land_spec, testbit_high by done. done.
  - apply Z.land_nonneg. left. by destruct Hx.
Qed.

(** *** Extrema and iteration *)

Lemma scalar_max_spec x : scalar_wf x -> scalar_max w x = last (ones_of w x).
Proof.
  intros Hx. unfold scalar_max, leading_zeros, scalar_capacity.
  destruct (Z.eqb_spec x 0) as [H0|H0].
  - by rewrite (proj2 (ones_nil x Hx) H0).
  - destruct (last (ones_of w x)) as [m|] eqn:Hl; [f_equal; lia|].
    apply last_None, (ones_nil x Hx) in Hl. done.
Qed.

Lemma scalar_min_spec x : scalar_wf x -> scalar_min w x = head (ones_of w x).
Proof.
  intros Hx. unfold scalar_min, trailing_zeros. destruct (Z.eqb_spec x 0) as [H0|H0].
  - by rewrite (proj2 (ones_nil x Hx) H0).
  - destruct (ones_of w x) eqn:Hl; [|done]. apply (ones_nil x Hx) in Hl. done.
Qed.

(** Taking the least one away leaves the rest of the list. *)
Lemma ones_without_head x i l : ones_of w x = i :: l -> ones_of w (without_bit x i) = l.
Proof.
  intros Ho. pose proof (ones_sorted x) as Hs. rewrite Ho in Hs.
  apply StronglySorted_inv in Hs as [Hs Hi]. rewrite Forall_forall in Hi.
  apply sorted_lt_ext; [apply ones_sorted|done|]. intros j.
  assert (0 <= i < w) as Hiw.
  { apply (elem_of_ones x). rewrite Ho. left. }
  assert (j ∈ ones_of w x <-> j = i \/ j ∈ l) as Hj by by rewrite Ho, elem_of_cons.
  rewrite elem_of_ones in Hj |- *. split.
  - intros [Hjw Hb]. rewrite without_bit_spec in Hb by lia.
    apply andb_true_iff in Hb as [Hne Hb]. simplify_bools.
    destruct (proj1 Hj) as [->|?]; [by split|done|done].
  - intros Hjl. destruct (proj2 Hj) as [Hjw Hb]; [by right|]. split; [done|].
    rewrite without_bit_spec by lia. apply Hi in Hjl.
    by rewrite (proj2 (Z.eqb_neq _ _)), Hb by lia.
Qed.

Lemma drain_min_run fuel x :
  scalar_wf x -> (length (ones_of w x) < fuel)%nat -> drain_min w fuel x = Some (ones_of w x).
Proof.
  revert x. induction fuel as [|fuel IH]; intros x Hx Hf; [lia|].
  simpl. unfold pop_min. rewrite scalar_min_spec by done.
  destruct (ones_of w x) as [|i l] eqn:Ho; simpl; [done|].
  assert (0 <= i < w) as Hiw.
  { apply (elem_of_ones x). rewrite Ho. left. }
  rewrite scalar_remove_run by done. simpl.
  rewrite IH; [by rewrite (ones_without_head _ _ l)|by apply without_bit_wf|].
  rewrite (ones_without_head _ _ l) by done. simpl in Hf. lia.
Qed.

Lemma scalar_iter_run x : scalar_wf x -> scalar_iter w x = Some (ones_of w x).
Proof.
  intros Hx. apply drain_min_run; [done|]. unfold ones_of.
  pose proof (length_filter (fun i => Z.testbit x i = true) (seqZ 0 w)) as Hl.
  rewrite length_seqZ in Hl. lia.
Qed.

Lemma pow2_sub_bits lo hi j : 0 <= lo <= hi ->
  Z.testbit (2 ^ hi - 2 ^ lo) j = (lo <=? j) && (j <? hi).
Proof.
  intros Hlh. replace (2 ^ hi - 2 ^ lo) with (Z.shiftl (Z.ones (hi - lo)) lo).
  2:{ rewrite Z.shiftl_mul_pow2, Z.ones_equiv by lia.
      rewrite Z.mul_pred_l, <- Z.pow_add_r by lia. f_equal. f_equal. lia. }
  destruct (decide (0 <= j)) as [Hj|Hj].
  2:{ rewrite Z.testbit_neg_r by lia. by rewrite (proj2 (Z.leb_gt _ _)) by lia. }
  rewrite Z.shiftl_spec by done. destruct (Z.leb_spec lo j); simpl.
  - destruct (Z.ltb_spec j hi); [apply Z.ones_spec_low; lia|apply Z.ones_spec_high; lia].
  - apply Z.testbit_neg_r. lia.
Qed.

(** [from_range lo hi] builds the set of exactly the elements from [lo]
    to [hi - 1] for every range with [lo] below the capacity, panics when [lo]
    is above [hi] or [hi] above the capacity, and also panics (the shift by
    [lo] overflows) on the empty range at the capacity, which its documentation
    allows. *)
Theorem scalar_from_range_correct lo hi :
  0 <= lo -> 0 <= hi ->
  (lo <= hi -> hi <= w -> lo < w ->
   exists x, from_range w lo hi = Some x /\ scalar_wf x /\
     forall j, Z.testbit x j = (lo <=? j) && (j <? hi)) /\
  (hi < lo \/ w < hi -> from_range w lo hi = None) /\
  from_range w w w = None.
Proof.
  intros H0 H1. unfold from_range, scalar_capacity. split_and!.
  - intros Hlh Hhw Hlw. exists (2 ^ hi - 2 ^ lo).
    assert (2 ^ lo <= 2 ^ hi) by (apply Z.pow_le_mono_r; lia).
    assert (2 ^ hi <= 2 ^ w) by (apply Z.pow_le_mono_r; lia).
    assert (0 < 2 ^ lo) by (apply Z.pow_pos_nonneg; lia).
    split_and!; [|split; lia|intros j; apply pow2_sub_bits; lia].
    rewrite !(proj2 (Z.leb_le _ _)) by done. simpl. rewrite shl_one by lia.
    assert ((if 1 <=? hi
             then a ← shl w 1 (hi - 1); b ← shl w 1 (hi - 1); c ← sub b 1; add w a c
             else Some 0) = Some (2 ^ hi - 1)) as ->.
    { destruct (Z.leb_spec 1 hi); [|by replace hi with 0 by lia].
      rewrite shl_one by lia. simpl. assert (0 < 2 ^ (hi - 1)) by (apply Z.pow_pos_nonneg; lia).
      assert (2 ^ hi = 2 * 2 ^ (hi - 1)) as Hp
        by (rewrite <- Z.pow_succ_r by lia; f_equal; lia).
      rewrite (proj2 (checked_sub_Some _ _ _)) by (split; [reflexivity|lia]). simpl.
      unfold add. rewrite (proj2 (checked_add_Some _ _ _ (2 ^ hi - 1))) by lia. done. }
    simpl. unfold sub. rewrite (proj2 (checked_sub_Some _ _ (2 ^ lo - 1))) by lia. simpl.
    apply checked_sub_Some. lia.
  - intros [Hbad|Hbad].
    + by rewrite (proj2 (Z.leb_gt lo hi)) by done.
    + destruct (lo <=? hi); [|done]. simpl. by rewrite (proj2 (Z.leb_gt hi w)) by done.
  - rewrite Z.leb_refl. simpl. rewrite (proj2 (Z.leb_le 1 w)) by lia.
    rewrite (shl_one (w - 1)) by lia. simpl. destruct (sub _ 1); [|done]. simpl.
    destruct (add w _ _); [|done]. simpl. unfold shl. by rewrite Z.ltb_irrefl.
Qed.
End scalar_lemmas.

Lemma scalar_from_range_correct_witness :
  (exists x, from_range 8 3 6 = Some x /\ forall j, Z.testbit x j = (3 <=? j) && (j <? 6)) /\
  from_range 64 64 64 = None.
Proof.
  split.
  - destruct (scalar_from_range_correct 8 ltac:(lia) 3 6) as (Hr & _); [lia|lia|].
    destruct Hr as (x & Hx & _ & Hb); [lia|lia|lia|]. exists x. split; [exact Hx|exact Hb].
  - apply (scalar_from_range_correct 64 ltac:(lia) 0 0); lia.
Defined.

(** ** CompoundBitSet *)

Record CompoundBitSet := { elems : list ScalarBitSet; max : option Z }.

Section compound.
Context (w : Z) `{Allocator}.

Definition BITS_PER_SCALAR : Z := w.

Definition isize_MAX : Z := 2 ^ 63 - 1.

Definition default_set : CompoundBitSet := {| elems := []; max := None |}.

Definition len (self : CompoundBitSet) : Z := total (scalar_len w) (elems self).

Definition set_capacity (self : CompoundBitSet) : Z := zlen (elems self) * BITS_PER_SCALAR.

Definition is_empty (self : CompoundBitSet) : bool := len self =? 0.

Definition word_and_bit (i : Z) : Z * Z := (i / BITS_PER_SCALAR, i mod BITS_PER_SCALAR).

(** [None] is the failed [debug_assert!]. *)
Definition elem (word bit : Z) : option Z :=
  if bit <? BITS_PER_SCALAR then Some (word * BITS_PER_SCALAR + bit) else None.

Definition contains (self : CompoundBitSet) (i : Z) : option bool :=
  let '(word, bit) := word_and_bit i in
  if word <? zlen (elems self) then
    sub ← zget (elems self) word; scalar_contains w sub bit
  else Some false.

(** [mem::take] empties [self.elems] before the allocations that can fail. *)
Definition try_ensure_capacity (n : Z) : M CompoundBitSet unit unit :=
  match checked_sub n 1 with
  | None => ret tt
  | Some n =>
      let '(word, _) := word_and_bit n in
      self <- get ;;
      if word <? zlen (elems self) then ret tt
      else
        rust_assert (word <? isize_MAX) ;;;
        let delta := word - zlen (elems self) in
        let to_grow := delta + 1 in
        let to_grow := Z.max to_grow (zlen (elems self)) in
        let to_grow := Z.max to_grow 4 in
        put {| elems := []; max := max self |} ;;;
        new_elems <- ok_or (reserve_exact (from_boxed_slice (elems self)) to_grow) tt ;;
        new_elems <- ok_or (try_extend new_elems (replicate (Z.to_nat to_grow) new)) tt ;;
        boxed <- ok_or (into_boxed_slice new_elems) tt ;;
        modify (fun self => {| elems := boxed; max := max self |})
  end.

(** [.unwrap()] of the result. *)
Definition ensure_capacity (n : Z) : M CompoundBitSet Empty_set unit :=
  or_else (try_ensure_capacity n) (fun _ => panic).

Definition try_with_capacity (capacity : Z) : outcome CompoundBitSet unit unit :=
  try_ensure_capacity capacity default_set.

Definition insert (i : Z) : M CompoundBitSet Empty_set bool :=
  n <- unwrap (checked_add usize_MAX i 1) ;;
  ensure_capacity n ;;;
  let '(word, bit) := word_and_bit i in
  self <- get ;;
  sub <- unwrap (zget (elems self) word) ;;
  r <- unwrap (scalar_insert w sub bit) ;;
  let '(is_new, sub) := r in
  put {| elems := zset (elems self) word sub; max := max self |} ;;;
  i <- unwrap (try_from u32_MAX i) ;;
  modify (fun self => {| elems := elems self;
                         max := Some (from_option (fun m => Z.max m i) i (max self)) |}) ;;;
  ret is_new.

(** The [filter_map(..).next()] of [update_max], from the last word down. *)
Fixpoint last_element (word : Z) (rev_elems : list ScalarBitSet) : option (option Z) :=
  match rev_elems with
  | [] => Some None
  | sub :: rev_elems =>
      match scalar_max w sub with
      | None => last_element (word - 1) rev_elems
      | Some bit => e ← elem word bit; e ← try_from u32_MAX e; Some (Some e)
      end
  end.

Definition update_max (word_of_old_max : Z) : M CompoundBitSet Empty_set unit :=
  self <- get ;;
  rust_assert (word_of_old_max + 1 <=? zlen (elems self)) ;;;
  m <- unwrap (last_element word_of_old_max
                 (reverse (take (Z.to_nat (word_of_old_max + 1)) (elems self)))) ;;
  put {| elems := elems self; max := m |}.

Definition get_max (self : CompoundBitSet) : option Z := max self.

Definition remove (i : Z) : M CompoundBitSet Empty_set bool :=
  let '(word, bit) := word_and_bit i in
  self <- get ;;
  if word <? zlen (elems self) then
    sub <- unwrap (zget (elems self) word) ;;
    r <- unwrap (scalar_remove w sub bit) ;;
    let '(was_present, sub) := r in
    put {| elems := zset (elems self) word sub; max := max self |} ;;;
    self <- get ;;
    (if was_present && bool_decide (get_max self = Some i)
     then update_max word else ret tt) ;;;
    ret was_present
  else ret false.

Definition pop : M CompoundBitSet Empty_set (option Z) :=
  self <- get ;;
  match get_max self with
  | None => ret None
  | Some m => remove m ;;; ret (Some m)
  end.

Definition clear : M CompoundBitSet Empty_set unit :=
  self <- get ;;
  match get_max self with
  | None => ret tt
  | Some m =>
      let '(word, _) := word_and_bit m in
      rust_assert (word + 1 <=? zlen (elems self)) ;;;
      rust_assert (forallb scalar_is_empty (drop (Z.to_nat (word + 1)) (elems self))) ;;;
      put {| elems := replicate (Z.to_nat (word + 1)) new ++
                      drop (Z.to_nat (word + 1)) (elems self);
             max := None |}
  end.

(** The items of [Iter]: word by word, the elements of its scalar. *)
Fixpoint iter_words (word : Z) (subs : list ScalarBitSet) : option (list Z) :=
  match subs with
  | [] => Some []
  | sub :: subs =>
      bits ← scalar_iter w sub;
      items ← mapM (elem word) bits;
      rest ← iter_words (word + 1) subs;
      Some (items ++ rest)
  end.
Definition iter (self : CompoundBitSet) : option (list Z) := iter_words 0 (elems self).

Definition iter_scalars (self : CompoundBitSet) : list ScalarBitSet :=
  let nwords := match max self with Some n => 1 + n / BITS_PER_SCALAR | None => 0 end in
  take (Z.to_nat nwords) (elems self).
End compound.

(** *** The set a slice of scalars denotes *)

Section compound_lemmas.
Context (w : Z) (Hw : 0 < w).
Implicit Types (l : list ScalarBitSet) (x y : ScalarBitSet).

Definition bit_at (l : list ScalarBitSet) (i : Z) : bool :=
  match zget l (i / w) with Some x => Z.testbit x (i mod w) | None => false end.

Lemma mod_range i : 0 <= i mod w < w.
Proof. apply Z.mod_pos_bound. done. Qed.

Lemma word_bit_inv k j : 0 <= j < w -> (k * w + j) / w = k /\ (k * w + j) mod w = j.
Proof.
  intros Hj. rewrite Z.add_comm. split.
  - rewrite Z.div_add by lia. rewrite Z.div_small by lia. lia.
  - rewrite Z.mod_add by lia. by apply Z.mod_small.
Qed.

Lemma word_bit_eq i k : i / w = k -> i = k * w + i mod w.
Proof. intros <-. pose proof (Z_div_mod_eq_full i w). lia. Qed.

Lemma same_word_eqb i j : j / w = i / w -> (i mod w =? j mod w) = (i =? j).
Proof.
  intros Hd. pose proof (word_bit_eq i _ eq_refl) as Hi.
  pose proof (word_bit_eq j _ eq_refl) as Hj. rewrite Hd in Hj.
  destruct (Z.eqb_spec (i mod w) (j mod w)), (Z.eqb_spec i j); try done; [lia|].
  subst. done.
Qed.

Lemma bit_at_zset l k x i : 0 <= k < zlen l ->
  bit_at (zset l k x) i = if decide (i / w = k) then Z.testbit x (i mod w) else bit_at l i.
Proof.
  intros Hk. unfold bit_at. rewrite zget_zset by done.
  destruct (decide (k = i / w)), (decide (i / w = k)); congruence.
Qed.

Lemma bit_at_true l i : bit_at l i = true ->
  0 <= i /\ exists x, zget l (i / w) = Some x /\ Z.testbit x (i mod w) = true.
Proof.
  unfold bit_at. destruct (zget l (i / w)) as [x|] eqn:Hx; [|done]. intros Hb.
  split; [|eauto]. apply zget_lt in Hx as [Hx _].
  pose proof (Z_div_mod_eq_full i w). pose proof (mod_range i). nia.
Qed.

Lemma bit_at_zeros l n i : bit_at (l ++ replicate n 0) i = bit_at l i.
Proof.
  unfold bit_at. destruct (zget l (i / w)) as [x|] eqn:Hx.
  - by rewrite zget_app_l, Hx by (eapply zget_lt in Hx; lia).
  - destruct (zget (l ++ _) (i / w)) as [x|] eqn:Hy; [|done].
    apply zget_Some in Hy as [H0 Hy]. apply lookup_app_Some in Hy as [Hy|[_ Hy]].
    + by rewrite (proj2 (zget_Some _ _ _) (conj H0 Hy)) in Hx.
    + apply lookup_replicate in Hy as [-> _]. apply Z.bits_0.
Qed.

Lemma bit_at_nil i : bit_at [] i = false.
Proof. unfold bit_at. by rewrite (proj2 (zget_None [] _)) by (unfold zlen; simpl; lia). Qed.

Lemma bit_at_snoc l x i :
  bit_at (l ++ [x]) i = if decide (i / w = zlen l) then Z.testbit x (i mod w) else bit_at l i.
Proof. unfold bit_at. rewrite zget_snoc. by destruct (decide _). Qed.

Lemma bit_at_cons x l i :
  0 <= i -> bit_at (x :: l) i = if i <? w then Z.testbit x i else bit_at l (i - w).
Proof.
  intros Hi. unfold bit_at. destruct (Z.ltb_spec i w).
  - rewrite Z.div_small, Z.mod_small by lia. done.
  - assert (i / w = (i - w) / w + 1) as ->
      by (rewrite <- Z.div_add by lia; f_equal; lia).
    assert (i mod w = (i - w) mod w) as ->
      by (rewrite <- (Z.mod_add (i - w) 1) by lia; f_equal; lia).
    assert (0 <= (i - w) / w) by (apply Z.div_pos; lia).
    unfold zget. rewrite !(proj2 (Z.leb_le _ _)) by lia.
    by replace (Z.to_nat ((i - w) / w + 1)) with (S (Z.to_nat ((i - w) / w))) by lia.
Qed.

(** The largest element of a slice. *)
Definition is_max (l : list ScalarBitSet) (m : option Z) : Prop :=
  match m with
  | None => forall i, bit_at l i = false
  | Some m => bit_at l m = true /\ in_u32 m /\ forall i, bit_at l i = true -> i <= m
  end.

Lemma last_ones x m : last (ones_of w x) = Some m ->
  0 <= m < w /\ Z.testbit x m = true /\ forall j, 0 <= j < w -> Z.testbit x j = true -> j <= m.
Proof.
  intros Hl. pose proof (last_Some_elem_of _ _ Hl) as Hm%elem_of_ones.
  split; [apply Hm|]. split; [apply Hm|]. intros j Hj Hb.
  apply last_Some in Hl as [l' Hl]. pose proof (ones_sorted w x) as Hs. rewrite Hl in Hs.
  assert (j ∈ ones_of w x) as Hin by by apply elem_of_ones.
  rewrite Hl in Hin. apply elem_of_app in Hin as [Hin| ->%list_elem_of_singleton]; [|lia].
  apply Z.lt_le_incl. eapply StronglySorted_app_1_elem_of; [done|done|set_solver].
Qed.

Lemma last_element_run l :
  Forall (scalar_wf w) l -> (forall i, bit_at l i = true -> i <= u32_MAX) ->
  exists m, last_element w (zlen l - 1) (reverse l) = Some m /\ is_max l m.
Proof.
  induction l as [|x l IH] using rev_ind; intros Hwf Hu.
  { exists None. split; [done|]. intros i. apply bit_at_nil. }
  apply Forall_app in Hwf as [Hwf Hx]. apply Forall_inv in Hx.
  rewrite reverse_snoc. simpl. rewrite zlen_app, zlen_cons.
  replace (zlen l + (1 + zlen []) - 1) with (zlen l) by (unfold zlen; simpl; lia).
  rewrite (scalar_max_spec w Hw) by done. destruct (last (ones_of w x)) as [bit|] eqn:Hl.
  - apply last_ones in Hl as (Hb & Ht & Hmax). unfold elem, BITS_PER_SCALAR.
    rewrite (proj2 (Z.ltb_lt _ _)) by lia. simpl.
    destruct (word_bit_inv (zlen l) bit Hb) as [Hdiv Hmod].
    assert (bit_at (l ++ [x]) (zlen l * w + bit) = true) as Hat.
    { rewrite bit_at_snoc, Hdiv, Hmod. by rewrite decide_True. }
    pose proof (Hu _ Hat). pose proof (zlen_nonneg l).
    rewrite try_from_in by nia. simpl. eexists. split; [done|].
    split; [done|]. split; [unfold in_u32; nia|]. intros i Hi.
    rewrite bit_at_snoc in Hi. pose proof (mod_range i). case_decide as Hiw.
    + rewrite (word_bit_eq i _ Hiw). specialize (Hmax _ (mod_range i) Hi). lia.
    + apply bit_at_true in Hi as (_ & y & Hy & _). apply zget_lt in Hy.
      pose proof (word_bit_eq i _ eq_refl). nia.
  - destruct IH as (m & Hm & Hmax); [done| |].
    { intros i Hi. apply Hu. rewrite bit_at_snoc. case_decide as Hiw; [|done].
      apply bit_at_true in Hi as (_ & y & Hy & _). apply zget_lt in Hy. lia. }
    exists m. split; [done|].
    assert (Heq : forall i, bit_at (l ++ [x]) i = bit_at l i).
    { intros i. rewrite bit_at_snoc. case_decide as Hiw; [|done].
      apply last_None, ones_nil in Hl as ->; [|done..]. rewrite Z.bits_0. symmetry.
      unfold bit_at. by rewrite (proj2 (zget_None _ _)) by lia. }
    destruct m; simpl in *; setoid_rewrite Heq; done.
Qed.

(** *** The operations on a well-formed set *)

Definition bits_wf (b : CompoundBitSet) : Prop :=
  Forall (scalar_wf w) (elems b) /\ is_max (elems b) (max b).

Definition has (b : CompoundBitSet) (i : Z) : bool := bit_at (elems b) i.

Lemma default_wf : bits_wf default_set.
Proof. split; [constructor|]. intros i. apply bit_at_nil. Qed.

Lemma has_u32 b i : bits_wf b -> has b i = true -> in_u32 i.
Proof.
  intros [_ Hm] Hi. pose proof (bit_at_true _ _ Hi) as [H0 _]. unfold is_max, has in *.
  destruct (max b) as [m|]; [|by rewrite Hm in Hi].
  destruct Hm as (_ & [_ Hu] & Hm). apply Hm in Hi. split; lia.
Qed.

Lemma word_lt l i : 0 <= i -> i / w < zlen l -> is_Some (zget l (i / w)).
Proof. intros. apply zget_is_Some. split; [apply Z.div_pos; lia|done]. Qed.

Lemma contains_run b i : 0 <= i -> contains w b i = Some (has b i).
Proof.
  intros Hi. unfold contains, word_and_bit, BITS_PER_SCALAR, has, bit_at.
  destruct (Z.ltb_spec (i / w) (zlen (elems b))) as [Hlt|Hge].
  - destruct (word_lt _ _ Hi Hlt) as [x Hx]. rewrite Hx. simpl.
    apply scalar_contains_run; [done|]. apply mod_range.
  - by rewrite (proj2 (zget_None _ _)) by lia.
Qed.

Section growing.
Context `{Allocator}.

(** What growing leaves on success: zeros after the old words. *)
Lemma try_ensure_capacity_Ret n b b' :
  try_ensure_capacity w n b = Ret tt b' ->
  max b' = max b /\ (exists k, elems b' = elems b ++ replicate k 0) /\
  (0 < n -> (n - 1) / w < zlen (elems b')).
Proof.
  unfold try_ensure_capacity. destruct (checked_sub n 1) as [n'|] eqn:Hn.
  2:{ intros [= <-]. split; [done|]. split; [exists 0%nat; by rewrite app_nil_r|].
      intros H0. by rewrite (proj2 (checked_sub_Some n 1 (n - 1))) in Hn by lia. }
  apply checked_sub_Some in Hn as [-> Hn]. unfold word_and_bit, BITS_PER_SCALAR.
  intros (self & b1 & [= <- <-] & Hr)%bind_Ret.
  destruct (Z.ltb_spec ((n - 1) / w) (zlen (elems b))) as [Hlt|Hge].
  { injection Hr as <-. split; [done|]. split; [exists 0%nat; by rewrite app_nil_r|done]. }
  apply bind_Ret in Hr as (u & b1 & Ha & Hr).
  assert (b1 = b) as -> by (unfold rust_assert in Ha; case_match; by inversion Ha).
  apply bind_Ret in Hr as (u' & b2 & [= _ <-] & Hr). cbv zeta in Hr.
  set (to_grow := Z.max _ 4) in Hr.
  destruct (reserve_exact _ to_grow) as [v1|] eqn:H1; [|done].
  apply bind_Ret in Hr as (? & ? & [= <- <-] & Hr).
  destruct (try_extend v1 _) as [v2|] eqn:H2; [|done].
  apply bind_Ret in Hr as (? & ? & [= <- <-] & Hr).
  destruct (into_boxed_slice v2) as [boxed|] eqn:H3; [|done].
  apply bind_Ret in Hr as (? & ? & [= <- <-] & Hr). injection Hr as <-. simpl.
  apply into_boxed_slice_Some in H3 as ->. apply try_extend_Some in H2 as ->.
  apply reserve_exact_Some in H1 as [-> _]. simpl.
  split; [done|]. split; [by eexists|]. intros _. rewrite zlen_app.
  unfold zlen at 2. rewrite length_replicate. lia.
Qed.

(** There is always memory. *)
Definition memory_suffices : Prop :=
  (forall cap required, is_Some (grow cap required)) /\ forall cap n, shrink cap n = true.

Lemma try_ensure_capacity_total n b :
  memory_suffices -> (n - 1) / w < isize_MAX ->
  exists b', try_ensure_capacity w n b = Ret tt b'.
Proof.
  intros [Hgrow Hshrink] Hn. unfold try_ensure_capacity.
  destruct (checked_sub n 1) as [n'|] eqn:Hsub; [|by eexists].
  apply checked_sub_Some in Hsub as [-> _]. unfold word_and_bit, BITS_PER_SCALAR.
  erewrite bind_run by reflexivity.
  destruct (_ <? zlen (elems b)) eqn:Hlt; [by eexists|].
  erewrite bind_run by (by apply assert_run, Z.ltb_lt).
  erewrite bind_run by reflexivity. cbv zeta. set (to_grow := Z.max _ 4).
  destruct (reserve_exact _ to_grow) as [v1|] eqn:H1.
  2:{ exfalso. revert H1. unfold reserve_exact. case_match; [done|].
      by destruct (Hgrow (capacity (from_boxed_slice (elems b)))
        (zlen (TryVec.elems (from_boxed_slice (elems b))) + to_grow)) as [? ->]. }
  erewrite bind_run by reflexivity.
  destruct (try_extend v1 _) as [v2|] eqn:H2.
  2:{ exfalso. revert H2. unfold try_extend. destruct (reserve v1 _) as [v|] eqn:Hr.
      - rewrite push_items_in_capacity; [done|]. apply reserve_Some in Hr. lia.
      - exfalso. revert Hr. unfold reserve. case_match; [done|].
        by destruct (Hgrow (capacity v1) (zlen (TryVec.elems v1) + zlen
          (replicate (Z.to_nat to_grow) new))) as [? ->]. }
  erewrite bind_run by reflexivity.
  destruct (into_boxed_slice v2) as [boxed|] eqn:H3.
  2:{ exfalso. revert H3. unfold into_boxed_slice, shrink_to_fit. rewrite Hshrink.
      by repeat case_match. }
  by eexists.
Qed.

Lemma ensure_capacity_run i b :
  memory_suffices -> bits_wf b -> in_u32 i ->
  exists b', ensure_capacity w (i + 1) b = Ret tt b' /\ bits_wf b' /\
    max b' = max b /\ (forall j, has b' j = has b j) /\ i / w < zlen (elems b').
Proof.
  intros Hmem [Hwf Hmax] [H0 Hi].
  destruct (try_ensure_capacity_total (i + 1) b Hmem) as [b' Hb'].
  { replace (i + 1 - 1) with i by lia. unfold isize_MAX, u32_MAX in *.
    apply Z.div_lt_upper_bound; [done|]. nia. }
  exists b'. pose proof (try_ensure_capacity_Ret _ _ _ Hb') as (Hm & [k Hk] & Hlen).
  specialize (Hlen ltac:(lia)). replace (i + 1 - 1) with i in Hlen by lia.
  assert (Hhas : forall j, has b' j = has b j).
  { intros j. unfold has. rewrite Hk. apply bit_at_zeros. }
  split; [unfold ensure_capacity, or_else; by rewrite Hb'|].
  split_and!; try done. split.
  - rewrite Hk. apply Forall_app. split; [done|]. apply Forall_replicate.
    unfold scalar_wf. pose proof (Z.pow_pos_nonneg 2 w). lia.
  - rewrite Hm. unfold is_max in *. destruct (max b); unfold has in Hhas;
      setoid_rewrite Hhas; done.
Qed.

Lemma insert_run i b :
  memory_suffices -> bits_wf b -> in_u32 i ->
  exists b', insert w i b = Ret (negb (has b i)) b' /\ bits_wf b' /\
    forall j, has b' j = (i =? j) || has b j.
Proof.
  intros Hmem Hb Hi. destruct (ensure_capacity_run i b Hmem Hb Hi)
    as (b1 & Hrun & [Hwf Hmax] & Hm & Hhas & Hlen). destruct Hi as [H0 Hi].
  unfold insert. erewrite bind_run.
  2:{ apply unwrap_run, checked_add_Some. split; [done|].
      unfold u32_MAX, usize_MAX in *. lia. }
  erewrite bind_run by exact Hrun. unfold word_and_bit, BITS_PER_SCALAR.
  erewrite bind_run by reflexivity.
  destruct (word_lt _ _ H0 Hlen) as [x Hx].
  erewrite bind_run by (apply unwrap_run; exact Hx).
  erewrite bind_run by (apply unwrap_run, scalar_insert_run; [done|apply mod_range]).
  cbv beta iota. erewrite bind_run by reflexivity.
  erewrite bind_run by (apply unwrap_run, try_from_in; split; done).
  erewrite bind_run by reflexivity.
  pose proof (zget_lt _ _ _ Hx) as Hwl.
  assert (has b i = Z.testbit x (i mod w)) as <-.
  { rewrite <- Hhas. unfold has, bit_at. by rewrite Hx. }
  eexists. split; [reflexivity|].
  assert (Hset : forall j, bit_at (zset (elems b1) (i / w) (with_bit x (i mod w))) j =
                      (i =? j) || has b j).
  { intros j. rewrite bit_at_zset by done. rewrite <- Hhas. unfold has.
    destruct (decide (j / w = i / w)) as [Hw'|Hw'].
    - rewrite with_bit_spec by apply mod_range.
      unfold bit_at. rewrite Hw', Hx. f_equal. by apply same_word_eqb.
    - destruct (Z.eqb_spec i j); [by subst|done]. }
  split; [|exact Hset]. simpl. split.
  - apply Forall_insert; [done|]. apply with_bit_wf; [done| |apply mod_range].
    rewrite Forall_lookup in Hwf. apply zget_Some in Hx as [_ Hx]. by eapply Hwf.
  - simpl. rewrite Hm. rewrite Hm in Hmax. unfold is_max in *.
    assert (forall j, has b j = true -> from_option (fun m => j <= m) False (max b)) as Hle.
    { intros j Hj. rewrite <- Hhas in Hj. unfold has in Hj.
      destruct (max b); simpl; [by apply Hmax|]. by rewrite Hmax in Hj. }
    setoid_rewrite Hset. split; [|split].
    + destruct (max b) as [m|]; simpl; [|by rewrite Z.eqb_refl].
      destruct Hmax as (Hm1 & _). destruct (Z.max_spec m i) as [[? ->]|[? ->]];
        [by rewrite Z.eqb_refl|]. fold (has b1 m) in Hm1. rewrite Hhas in Hm1.
      rewrite Hm1. apply orb_true_r.
    + destruct (max b) as [m|]; simpl; [|done]. destruct Hmax as (_ & Hu & _).
      unfold in_u32 in *. lia.
    + intros j [Hij|Hj]%orb_true_iff.
      * apply Z.eqb_eq in Hij as <-. destruct (max b); simpl; lia.
      * apply Hle in Hj. destruct (max b); simpl in *; [lia|done].
Qed.
End growing.

Lemma bit_at_take l k j :
  0 <= k -> bit_at (take (Z.to_nat k) l) j = (j / w <? k) && bit_at l j.
Proof.
  intros Hk. unfold bit_at, zget. destruct (Z.leb_spec 0 (j / w)).
  - destruct (Z.ltb_spec (j / w) k).
    + by rewrite lookup_take_lt by lia.
    + by rewrite lookup_take_ge by lia.
  - by rewrite andb_false_r.
Qed.

(** Removing an element that is the maximum recomputes the maximum. *)
Lemma update_max_run l m0 k :
  Forall (scalar_wf w) l -> (forall j, bit_at l j = true -> j <= u32_MAX /\ j / w <= k) ->
  0 <= k < zlen l ->
  exists m, update_max w k {| elems := l; max := m0 |} = Ret tt {| elems := l; max := m |} /\
    is_max l m.
Proof.
  intros Hwf Hj Hk. unfold update_max. erewrite bind_run by reflexivity. simpl.
  erewrite bind_run by (apply assert_run, Z.leb_le; lia).
  assert (Htake : forall j, bit_at (take (Z.to_nat (k + 1)) l) j = bit_at l j).
  { intros j. rewrite bit_at_take by lia. destruct (bit_at l j) eqn:Hb;
      [|apply andb_false_r]. apply Hj in Hb as [_ Hb].
    by rewrite (proj2 (Z.ltb_lt _ _)) by lia. }
  destruct (last_element_run (take (Z.to_nat (k + 1)) l)) as (m & Hm & Hmax).
  { by apply Forall_take. }
  { intros i. rewrite Htake. apply Hj. }
  replace (zlen (take (Z.to_nat (k + 1)) l) - 1) with k in Hm.
  2:{ unfold zlen in *. rewrite length_take. lia. }
  exists m. erewrite bind_run by (apply unwrap_run; exact Hm). split; [done|].
  unfold is_max in *. destruct m; setoid_rewrite Htake in Hmax; done.
Qed.

Lemma remove_run i b :
  bits_wf b -> 0 <= i ->
  exists b', remove w i b = Ret (has b i) b' /\ bits_wf b' /\
    forall j, has b' j = negb (i =? j) && has b j.
Proof.
  intros [Hwf Hmax] H0. pose proof (mod_range i) as Hmod.
  unfold remove, word_and_bit, BITS_PER_SCALAR. erewrite bind_run by reflexivity.
  destruct (Z.ltb_spec (i / w) (zlen (elems b))) as [Hlt|Hge].
  2:{ assert (has b i = false) as Hno.
      { unfold has, bit_at. by rewrite (proj2 (zget_None _ _)) by lia. }
      exists b. rewrite Hno. split; [done|]. split; [by split|]. intros j.
      destruct (Z.eqb_spec i j) as [<-|]; [by rewrite Hno|done]. }
  destruct (word_lt _ _ H0 Hlt) as [x Hx]. pose proof (zget_lt _ _ _ Hx) as Hwl.
  erewrite bind_run by (apply unwrap_run; exact Hx).
  erewrite bind_run by (apply unwrap_run, scalar_remove_run; done).
  cbv beta iota. do 2 erewrite bind_run by reflexivity.
  assert (has b i = Z.testbit x (i mod w)) as <- by by unfold has, bit_at; rewrite Hx.
  set (l := zset (elems b) (i / w) (without_bit w x (i mod w))).
  assert (Hset : forall j, bit_at l j = negb (i =? j) && has b j).
  { intros j. unfold l. rewrite bit_at_zset by done. unfold has.
    destruct (decide (j / w = i / w)) as [Hw'|Hw'].
    - pose proof (mod_range j). rewrite without_bit_spec by lia.
      unfold bit_at. rewrite Hw', Hx. f_equal. f_equal. by apply same_word_eqb.
    - destruct (Z.eqb_spec i j); [by subst|done]. }
  assert (Forall (scalar_wf w) l) as Hwf'.
  { apply Forall_insert; [done|]. apply without_bit_wf; [done|].
    rewrite Forall_lookup in Hwf. apply zget_Some in Hx as [_ Hx]. by eapply Hwf. }
  unfold get_max. simpl. destruct (has b i && bool_decide (max b = Some i)) eqn:Hc.
  - apply andb_true_iff in Hc as [Hi Hmi]. apply bool_decide_eq_true in Hmi.
    rewrite Hmi in Hmax. destruct Hmax as (_ & [_ Hu] & Hle).
    destruct (update_max_run l (max b) (i / w)) as (m & Hrun & Hm); [done| | |].
    + intros j. rewrite Hset. intros [_ Hj]%andb_true_iff. apply Hle in Hj.
      split; [lia|]. apply Z.div_le_mono; lia.
    + unfold l. rewrite zlen_zset. lia.
    + erewrite bind_run by exact Hrun. rewrite Hi. eexists. split; [reflexivity|].
      split; [by split|done].
  - erewrite bind_run by reflexivity. eexists. split; [reflexivity|].
    split; [|done]. split; [done|]. simpl. unfold is_max in *.
    destruct (max b) as [m|]; setoid_rewrite Hset; unfold has in *.
    + destruct Hmax as (Hm & Hu & Hle). split_and!; [|done|].
      * rewrite Hm, andb_true_r. apply negb_true_iff, Z.eqb_neq. intros ->.
        rewrite Hm, bool_decide_eq_true_2 in Hc by done. done.
      * intros j [_ Hj]%andb_true_iff. by apply Hle.
    + intros j. rewrite Hmax. apply andb_false_r.
Qed.

Lemma has_none_zero l x k :
  Forall (scalar_wf w) l -> zget l k = Some x ->
  (forall j, bit_at l j = true -> j / w < k) -> x = 0.
Proof.
  intros Hwf Hx Hj. assert (scalar_wf w x) as Hxw.
  { rewrite Forall_lookup in Hwf. apply zget_Some in Hx as [_ Hx]. by eapply Hwf. }
  apply (ones_nil w Hw x Hxw). destruct (ones_of w x) as [|i ?] eqn:Ho; [done|].
  assert (i ∈ ones_of w x) as [Hi Ht]%elem_of_ones by (rewrite Ho; left).
  destruct (word_bit_inv k i Hi) as [Hd Hm].
  assert (bit_at l (k * w + i) = true) as Hat%Hj.
  { unfold bit_at. by rewrite Hd, Hm, Hx. }
  lia.
Qed.

Lemma clear_run b : bits_wf b ->
  exists b', clear w b = Ret tt b' /\ bits_wf b' /\ forall j, has b' j = false.
Proof.
  intros [Hwf Hmax]. unfold clear, get_max. erewrite bind_run by reflexivity.
  unfold is_max in Hmax. destruct (max b) as [m|] eqn:Hm.
  2:{ exists b. split; [done|]. split; [|done]. split; [done|]. by rewrite Hm. }
  destruct Hmax as (Hhas & [H0 _] & Hle). unfold word_and_bit, BITS_PER_SCALAR.
  apply bit_at_true in Hhas as (_ & x & Hx & _). apply zget_lt in Hx.
  set (n := Z.to_nat (m / w + 1)).
  assert (drop n (elems b) = replicate (length (elems b) - n) 0) as Hdrop.
  { apply list_eq_same_length with (length (elems b) - n)%nat.
    - by rewrite length_replicate.
    - by rewrite length_drop.
    - intros k x' y Hk Hx' Hy. apply lookup_replicate in Hy as [-> _].
      rewrite lookup_drop in Hx'. eapply (has_none_zero (elems b) x' (Z.of_nat (n + k)));
        [done|by rewrite zget_of_nat|].
      intros j Hj%Hle. pose proof (Z.div_le_mono j m w ltac:(lia) Hj). lia. }
  erewrite bind_run by (apply assert_run, Z.leb_le; lia).
  erewrite bind_run.
  2:{ apply assert_run, forallb_elem. rewrite Hdrop. intros y Hy.
      apply elem_of_replicate in Hy as [-> _]. done. }
  eexists. split; [reflexivity|]. rewrite Hdrop, <- replicate_add.
  assert (Hz : forall k j, bit_at (replicate k new) j = false).
  { intros k j. change (replicate k new) with ([] ++ replicate k 0).
    rewrite bit_at_zeros. apply bit_at_nil. }
  split; [split|]; simpl; [|intros j; apply Hz|intros j; apply Hz].
  apply Forall_replicate. unfold scalar_wf, new. pose proof (Z.pow_pos_nonneg 2 w). lia.
Qed.

Lemma mapM_elem k bits : (forall i, i ∈ bits -> i < w) ->
  mapM (elem w k) bits = Some ((fun i => k * w + i) <$> bits).
Proof.
  intros Hb. induction bits as [|i bits IH]; [done|].
  assert (elem w k i = Some (k * w + i)) as Hi.
  { unfold elem, BITS_PER_SCALAR. by rewrite (proj2 (Z.ltb_lt _ _)) by (apply Hb; left). }
  rewrite fmap_cons. simpl. rewrite Hi. simpl.
  rewrite IH; [done|]. intros j Hj. apply Hb. by right.
Qed.

(** The iterator yields the elements in increasing order, [len] of them. *)
Lemma iter_words_run k l : Forall (scalar_wf w) l ->
  exists items, iter_words w k l = Some items /\ StronglySorted Z.lt items /\
    (forall i, i ∈ items <-> k * w <= i /\ bit_at l (i - k * w) = true) /\
    zlen items = total (scalar_len w) l.
Proof.
  revert k. induction l as [|x l IH]; intros k Hwf.
  { exists []. split; [done|]. split; [constructor|]. split; [|done].
    intros i. rewrite bit_at_nil. split; [set_solver|]. by intros [_ ?]. }
  apply Forall_cons in Hwf as [Hx Hwf].
  destruct (IH (k + 1) Hwf) as (rest & Hrest & Hs & Hin & Hlen).
  exists (((fun i => k * w + i) <$> ones_of w x) ++ rest). simpl.
  rewrite scalar_iter_run by done. simpl.
  rewrite mapM_elem by (intros i Hi%elem_of_ones; lia). simpl. rewrite Hrest.
  split; [done|]. split; [|split].
  - apply StronglySorted_app. split; [|split; [|done]].
    + intros a b Ha Hb. apply list_elem_of_fmap in Ha as (i & -> & Hi%elem_of_ones).
      apply Hin in Hb. nia.
    + clear -Hw. induction (ones_sorted w x) as [|a m Hm IH Ha]; [constructor|].
      rewrite fmap_cons. constructor; [done|]. apply Forall_fmap.
      eapply Forall_impl; [done|]. simpl. intros. lia.
  - intros i. rewrite elem_of_app, list_elem_of_fmap, Hin.
    setoid_rewrite elem_of_ones. split.
    + intros [(j & -> & Hj & Hb)|[Hi Hb]].
      * split; [lia|]. replace (k * w + j - k * w) with j by lia.
        rewrite bit_at_cons by lia. by rewrite (proj2 (Z.ltb_lt _ _)) by lia.
      * split; [nia|]. rewrite bit_at_cons by nia.
        rewrite (proj2 (Z.ltb_ge _ _)) by nia. rewrite <- Hb. f_equal. lia.
    + intros [Hi Hb]. rewrite bit_at_cons in Hb by lia.
      destruct (Z.ltb_spec (i - k * w) w) as [Hlt|Hge].
      * left. exists (i - k * w). split; [lia|]. split; [lia|done].
      * right. split; [nia|]. rewrite <- Hb. f_equal. lia.
  - rewrite zlen_app. unfold zlen at 1. rewrite length_fmap. rewrite Hlen. done.
Qed.

Lemma iter_run b : bits_wf b ->
  exists items, iter w b = Some items /\ StronglySorted Z.lt items /\
    (forall i, i ∈ items <-> has b i = true) /\ zlen items = len w b.
Proof.
  intros [Hwf _]. destruct (iter_words_run 0 (elems b) Hwf) as (items & Hi & Hs & Hin & Hl).
  exists items. split_and!; try done. intros i. rewrite Hin, Z.mul_0_l, Z.sub_0_r.
  unfold has. split; [by intros [_ ?]|]. intros Hb. split; [|done].
  by apply bit_at_true in Hb as [? _].
Qed.

(** The words [iter_scalars] yields hold all elements. *)
Lemma iter_scalars_bits b j : bits_wf b -> bit_at (iter_scalars w b) j = has b j.
Proof.
  intros [Hwf Hmax]. unfold iter_scalars, BITS_PER_SCALAR, has, is_max in *.
  destruct (max b) as [m|].
  - destruct Hmax as (_ & [H0 _] & Hle). rewrite bit_at_take by (pose proof
      (Z.div_pos m w); lia). destruct (bit_at (elems b) j) eqn:Hj; [|apply andb_false_r].
    apply Hle in Hj. pose proof (Z.div_le_mono j m w Hw Hj).
    by rewrite (proj2 (Z.ltb_lt _ _)) by lia.
  - rewrite Hmax. apply bit_at_nil.
Qed.
End compound_lemmas.

(** ** The specification: finite sets of integers *)

Inductive op := Insert (i : Z) | Remove (i : Z) | Pop | Clear.
Inductive out := OBool (b : bool) | OElem (e : option Z) | OUnit.

Definition max_of (l : list Z) : option Z :=
  foldr (fun x acc => Some (from_option (Z.max x) x acc)) None l.

(** The greatest element. *)
Definition set_max (s : gset Z) : option Z := max_of (elements s).

Definition spec_step (o : op) (s : gset Z) : out * gset Z :=
  match o with
  | Insert i => (OBool (bool_decide (i ∉ s)), {[i]} ∪ s)
  | Remove i => (OBool (bool_decide (i ∈ s)), s ∖ {[i]})
  | Pop => match set_max s with
           | Some m => (OElem (Some m), s ∖ {[m]})
           | None => (OElem None, s)
           end
  | Clear => (OUnit, ∅)
  end.

Fixpoint spec_run (ops : list op) (s : gset Z) : list out * gset Z :=
  match ops with
  | [] => ([], s)
  | o :: ops => let '(r, s) := spec_step o s in
                let '(rs, s) := spec_run ops s in (r :: rs, s)
  end.

Definition op_ok (o : op) : Prop :=
  match o with Insert i | Remove i => in_u32 i | Pop | Clear => True end.

Lemma max_of_spec l :
  match max_of l with
  | None => l = []
  | Some m => m ∈ l /\ forall x, x ∈ l -> x <= m
  end.
Proof.
  induction l as [|a l IH]; [done|]. simpl. fold (max_of l).
  destruct (max_of l) as [m|]; simpl.
  - destruct IH as [Hm Hle]. split.
    + destruct (Z.max_spec a m) as [[_ ->]|[_ ->]]; [by right|left].
    + intros x [->|Hx]%elem_of_cons; [lia|]. specialize (Hle x Hx). lia.
  - subst. split; [left|]. intros x [->|Hx]%elem_of_cons; [lia|set_solver].
Qed.

Section refinement.
Context (w : Z) (Hw : 0 < w) `{Allocator}.

Definition run_op (o : op) : M CompoundBitSet Empty_set out :=
  match o with
  | Insert i => b <- insert w i ;; ret (OBool b)
  | Remove i => b <- remove w i ;; ret (OBool b)
  | Pop => e <- pop w ;; ret (OElem e)
  | Clear => clear w ;;; ret OUnit
  end.

Fixpoint run_ops (ops : list op) : M CompoundBitSet Empty_set (list out) :=
  match ops with
  | [] => ret []
  | o :: ops => r <- run_op o ;; rs <- run_ops ops ;; ret (r :: rs)
  end.

Definition denotes (b : CompoundBitSet) (s : gset Z) : Prop :=
  bits_wf w b /\ forall i, i ∈ s <-> has w b i = true.

Lemma denotes_dec b s i : denotes b s -> has w b i = bool_decide (i ∈ s).
Proof.
  intros [_ Hs]. specialize (Hs i). destruct (has w b i); case_bool_decide; naive_solver.
Qed.

Lemma denotes_max b s : denotes b s -> get_max b = set_max s.
Proof.
  intros [[_ Hmax] Hs]. unfold get_max, set_max, is_max, has in *.
  pose proof (max_of_spec (elements s)) as Hm.
  assert (Hel : forall x, x ∈ elements s <-> bit_at w (elems b) x = true)
    by (intros x; rewrite elem_of_elements; apply Hs).
  destruct (max b) as [m|], (max_of (elements s)) as [m'|]; [|exfalso..|done].
  - destruct Hmax as (H1 & _ & H2), Hm as [H3 H4]. f_equal.
    apply Hel in H1. apply H4 in H1. apply Hel, H2 in H3. lia.
  - destruct Hmax as (H1 & _). apply Hel in H1. rewrite Hm in H1. set_solver.
  - destruct Hm as [H3 _]. apply Hel in H3. by rewrite Hmax in H3.
Qed.

Lemma run_op_refines o b s :
  memory_suffices -> op_ok o -> denotes b s ->
  exists b', run_op o b = Ret (spec_step o s).1 b' /\ denotes b' (spec_step o s).2.
Proof.
  intros Hmem Hok Hd. pose proof Hd as [Hwf Hs]. destruct o as [i|i| |]; simpl in *.
  - destruct (insert_run w Hw i b Hmem Hwf Hok) as (b' & Hrun & Hwf' & Hh).
    exists b'. erewrite bind_run by exact Hrun. rewrite (denotes_dec b s) by done.
    rewrite bool_decide_not. split; [done|]. split; [done|]. intros j.
    rewrite Hh, elem_of_union, elem_of_singleton, orb_true_iff, Z.eqb_eq, Hs.
    intuition congruence.
  - destruct (remove_run w Hw i b Hwf) as (b' & Hrun & Hwf' & Hh); [apply Hok|].
    exists b'. erewrite bind_run by exact Hrun. rewrite (denotes_dec b s) by done.
    split; [done|]. split; [done|]. intros j.
    rewrite Hh, elem_of_difference, elem_of_singleton, andb_true_iff, negb_true_iff,
      Z.eqb_neq, Hs. intuition congruence.
  - rewrite <- (denotes_max b s) by done. unfold pop.
    destruct (get_max b) as [m|] eqn:Hm; simpl.
    2:{ exists b. split; [|done]. unfold bind, get. by rewrite Hm. }
    assert (in_u32 m) as Hu.
    { destruct Hwf as [_ Hmax]. unfold get_max in Hm. rewrite Hm in Hmax. apply Hmax. }
    destruct (remove_run w Hw m b Hwf) as (b' & Hrun & Hwf' & Hh); [apply Hu|].
    exists b'. split; [unfold bind, get; rewrite Hm, Hrun; done|].
    split; [done|]. intros j.
    rewrite Hh, elem_of_difference, elem_of_singleton, andb_true_iff, negb_true_iff,
      Z.eqb_neq, Hs. intuition congruence.
  - destruct (clear_run w Hw b Hwf) as (b' & Hrun & Hwf' & Hh).
    exists b'. erewrite bind_run by exact Hrun. split; [done|]. split; [done|].
    intros j. rewrite Hh. set_solver.
Qed.

Lemma run_ops_refines ops b s :
  memory_suffices -> Forall op_ok ops -> denotes b s ->
  exists b', run_ops ops b = Ret (spec_run ops s).1 b' /\ denotes b' (spec_run ops s).2.
Proof.
  intros Hmem Hok. revert b s. induction Hok as [|o ops Ho Hok IH]; intros b s Hd.
  { by exists b. }
  destruct (run_op_refines o b s Hmem Ho Hd) as (b1 & Hrun & Hd1).
  simpl. destruct (spec_step o s) as [r s1]. simpl in *.
  destruct (IH b1 s1 Hd1) as (b2 & Hrun2 & Hd2).
  destruct (spec_run ops s1) as [rs s2]. simpl in *. exists b2.
  erewrite bind_run by exact Hrun. by erewrite bind_run by exact Hrun2.
Qed.


(** When growing the set fails for lack of memory the error is returned,
    but the elements have been taken out of the set while the cached maximum
    stays: nothing is contained any more, popping returns the stale maximum
    again and again without changing the set, and clearing panics. *)
Theorem bitset_oom_loses_elements n b m b' :
  try_ensure_capacity w n b = Fail tt b' -> max b = Some m -> 0 <= m ->
  get_max b' = Some m /\
  (forall i, contains w b' i = Some false \/ i < 0) /\
  pop w b' = Ret (Some m) b' /\
  clear w b' = Panic.
Proof.
  intros Hf Hm H0. assert (b' = {| elems := []; max := Some m |}) as ->.
  { rewrite <- Hm. revert Hf. unfold try_ensure_capacity. destruct (checked_sub n 1); [|done].
    destruct (word_and_bit _ _). unfold bind, get, put, rust_assert, ok_or, modify, ret, fail.
    repeat case_match; intros; simplify_eq/=; done. }
  assert (Hword : 0 <= m / w) by (apply Z.div_pos; lia).
  split; [done|]. split; [|split].
  - intros i. destruct (decide (0 <= i)); [left|right; lia].
    rewrite contains_run by done. unfold has. simpl. by rewrite bit_at_nil.
  - unfold pop, remove, get_max, bind, get, word_and_bit, BITS_PER_SCALAR. simpl.
    by rewrite (proj2 (Z.ltb_ge _ _)) by (unfold zlen; simpl; lia).
  - unfold clear, get_max, bind, get, word_and_bit, BITS_PER_SCALAR, rust_assert. simpl.
    by rewrite (proj2 (Z.leb_gt _ _)) by (unfold zlen; simpl; lia).
Qed.
End refinement.

(** An allocator that never fails, and one with room for eight words. *)
#[local, refine] Instance unlimited : Allocator :=
  {| grow := fun _ required => Some required; shrink := fun _ _ => true |}.
Proof. intros cap required cap' [= <-]. lia. Defined.


Lemma bitset_oom_loses_elements_witness :
  exists b b', insert (H := amortized 8) 8 5 default_set = Ret true b /\
    try_ensure_capacity (H := amortized 8) 8 1000 b = Fail tt b' /\
    contains 8 b' 5 = Some false /\ pop 8 b' = Ret (Some 5) b' /\ clear 8 b' = Panic.
Proof.
  eexists _, _. split; [vm_compute; reflexivity|]. split; [vm_compute; reflexivity|].
  pose (b := {| elems := [32; 0; 0; 0]; max := Some 5 |}).
  pose (b' := {| elems := []; max := Some 5 |}).
  destruct (bitset_oom_loses_elements (H := amortized 8) 8 ltac:(lia) 1000 b 5 b')
    as (_ & Hc & Hp & Hcl).
  - vm_compute. reflexivity.
  - reflexivity.
  - discriminate.
  - split; [|split; [exact Hp|exact Hcl]].
    destruct (Hc 5) as [Hc'|Hc']; [exact Hc'|lia].
Defined.
