(* ===== verification/Sections.v ===== *)
(** * Sections of a compiled artifact

    What the metadata sections of a compiled artifact are built from and read
    with: the [object] crate's little-endian integers, byte slices and section
    writer (a third-party interface, the class [ObjectCrate] with its
    documented laws), and the standard library's [binary_search_by_key] (its
    loop and the contract proved of it). *)

From S2P Require Import Prelude.
From stdpp Require Export strings.

(** Strings come with their own scope; integers stay the default. *)
Open Scope Z_scope.

(** ** Bytes

    A byte is a [Z] in [0, 255]. *)

(** [u32::to_le_bytes]. *)
Definition u32_to_le_bytes (z : Z) : list Z :=
  [z mod 256; z / 2 ^ 8 mod 256; z / 2 ^ 16 mod 256; z / 2 ^ 24 mod 256].

Definition u32_from_le_bytes (b0 b1 b2 b3 : Z) : Z :=
  b0 + 2 ^ 8 * b1 + 2 ^ 16 * b2 + 2 ^ 24 * b3.

Lemma u32_le_bytes_roundtrip z : in_u32 z ->
  u32_from_le_bytes (z mod 256) (z / 2 ^ 8 mod 256) (z / 2 ^ 16 mod 256)
    (z / 2 ^ 24 mod 256) = z.
Proof.
  unfold in_u32, u32_MAX, u32_from_le_bytes.
  change (2 ^ 32) with 4294967296. change (2 ^ 8) with 256.
  change (2 ^ 16) with 65536. change (2 ^ 24) with 16777216. intros Hz.
  pose proof (Z_div_mod_eq_full z 256).
  pose proof (Z_div_mod_eq_full (z / 256) 256) as H1.
  pose proof (Z_div_mod_eq_full (z / 65536) 256) as H2.
  rewrite Z.div_div in H1, H2 by lia. change (256 * 256) with 65536 in H1.
  change (65536 * 256) with 16777216 in H2.
  rewrite (Z.mod_small (z / 16777216)); [lia|].
  split; [apply Z.div_pos; lia|apply Z.div_lt_upper_bound; lia].
Qed.

(** ** The [object] crate

    [U32] is [object::U32<LittleEndian>].  Reading takes a prefix of the bytes
    and returns the rest; [None] is the [Err(())] of a short input. *)

Class ObjectCrate := {
  U32 : Type;
  U32_new : Z -> U32;
  U32_get : U32 -> Z;
  (** [Bytes::read::<U32<LittleEndian>>]. *)
  read_U32 : list Z -> option (U32 * list Z);
  (** [object::slice_from_bytes::<U32<LittleEndian>>]. *)
  slice_from_bytes : list Z -> Z -> option (list U32 * list Z);
  (** [object::slice_from_all_bytes::<U32<LittleEndian>>]. *)
  slice_from_all_bytes : list Z -> option (list U32);
  (** [object::bytes_of_slice]. *)
  bytes_of_slice : list U32 -> list Z;
  (** [object::write::Object] and its sections. *)
  Object : Type;
  SectionId : Type;
  segment_name_data : Object -> list Z;
  add_section : Object -> list Z -> string -> SectionId * Object;
  append_section_data : Object -> SectionId -> list Z -> Z -> Object;
  (** What a reader of the written object finds. *)
  section_data : Object -> SectionId -> list Z;
  section_by_name : Object -> string -> option SectionId;

  U32_get_new z : in_u32 z -> U32_get (U32_new z) = z;
  U32_get_range u : in_u32 (U32_get u);
  bytes_of_slice_new z : bytes_of_slice [U32_new z] = u32_to_le_bytes z;
  read_U32_iff d u r :
    read_U32 d = Some (u, r) <-> d = bytes_of_slice [u] ++ r;
  slice_from_bytes_iff d n us r :
    slice_from_bytes d n = Some (us, r) <-> d = bytes_of_slice us ++ r /\ zlen us = n;
  slice_from_all_bytes_iff d us :
    slice_from_all_bytes d = Some us <-> d = bytes_of_slice us;
  add_section_data o seg name : let '(id, o') := add_section o seg name in
    section_data o' id = [];
  add_section_name o seg name : section_by_name o name = None ->
    let '(id, o') := add_section o seg name in section_by_name o' name = Some id;
  append_section_data_eq o id d name : section_by_name o name = Some id ->
    section_data (append_section_data o id d 1) id = section_data o id ++ d;
  append_section_data_name o id d name :
    section_by_name (append_section_data o id d 1) name = section_by_name o name;
}.

Section reading.
Context `{ObjectCrate}.

Lemma read_U32_new z r : read_U32 (u32_to_le_bytes z ++ r) = Some (U32_new z, r).
Proof. apply read_U32_iff. by rewrite bytes_of_slice_new. Qed.

Lemma slice_from_bytes_app us n r :
  zlen us = n -> slice_from_bytes (bytes_of_slice us ++ r) n = Some (us, r).
Proof. intros. by apply slice_from_bytes_iff. Qed.

Lemma slice_from_bytes_all us n :
  zlen us = n -> slice_from_bytes (bytes_of_slice us) n = Some (us, []).
Proof. intros. apply slice_from_bytes_iff. by rewrite app_nil_r. Qed.

Lemma slice_from_all_bytes_all us : slice_from_all_bytes (bytes_of_slice us) = Some us.
Proof. by apply slice_from_all_bytes_iff. Qed.

(** The values of a slice of [U32]. *)
Definition values (us : list U32) : list Z := U32_get <$> us.

Lemma values_new zs : Forall in_u32 zs -> values (U32_new <$> zs) = zs.
Proof.
  unfold values. induction 1 as [|z zs Hz _ IH]; [done|].
  rewrite !fmap_cons. by rewrite U32_get_new, IH.
Qed.

Lemma values_app us vs : values (us ++ vs) = values us ++ values vs.
Proof. apply fmap_app. Qed.

Lemma zlen_values us : zlen (values us) = zlen us.
Proof. unfold zlen, values. by rewrite length_fmap. Qed.

Lemma zget_values us i : zget (values us) i = U32_get <$> zget us i.
Proof. unfold zget, values. destruct (0 <=? i); [by rewrite list_lookup_fmap|done]. Qed.
End reading.

(** The bytes of a section of a written object, by name. *)
Definition section_bytes `{ObjectCrate} (o : Object) (name : string) : option (list Z) :=
  section_data o <$> section_by_name o name.

(** Writing the pieces of a section one after the other. *)
Definition write_pieces `{ObjectCrate} (o : Object) (id : SectionId)
  (pieces : list (list Z)) : Object :=
  fold_left (fun o d => append_section_data o id d 1) pieces o.
Arguments write_pieces : simpl never.

Lemma write_pieces_name `{ObjectCrate} pieces o id name :
  section_by_name (write_pieces o id pieces) name = section_by_name o name.
Proof.
  unfold write_pieces. revert o. induction pieces as [|d pieces IH]; intros o; simpl;
    [done|]. by rewrite IH, append_section_data_name.
Qed.

Lemma write_pieces_data `{ObjectCrate} pieces o id name :
  section_by_name o name = Some id ->
  section_data (write_pieces o id pieces) id = section_data o id ++ concat pieces.
Proof.
  unfold write_pieces. revert o.
  induction pieces as [|d pieces IH]; intros o Hn; simpl; [by rewrite app_nil_r|].
  rewrite IH by (by rewrite append_section_data_name).
  by rewrite (append_section_data_eq _ _ _ name), <- app_assoc.
Qed.

(** A section added under a fresh name holds what was appended to it. *)
Lemma added_section_bytes `{ObjectCrate} o seg name pieces :
  section_by_name o name = None ->
  section_bytes (write_pieces (add_section o seg name).2 (add_section o seg name).1
    pieces) name = Some (concat pieces).
Proof.
  intros Hn. pose proof (add_section_data o seg name) as Hd.
  pose proof (add_section_name o seg name Hn) as Hname.
  destruct (add_section o seg name) as [id o']. simpl in *.
  unfold section_bytes. rewrite write_pieces_name, Hname. simpl.
  by rewrite (write_pieces_data _ _ _ name), Hd.
Qed.

(** ** A concrete [object] crate

    [U32] is four bytes, an object a list of named sections. *)

Record u32le := Le { le0 : Z; le1 : Z; le2 : Z; le3 : Z }.

Definition le_bytes (u : u32le) : list Z := [le0 u; le1 u; le2 u; le3 u].

(** A concrete integer keeps its bytes in range. *)
Definition le_new (z : Z) : u32le :=
  Le (z mod 256) (z / 2 ^ 8 mod 256) (z / 2 ^ 16 mod 256) (z / 2 ^ 24 mod 256).

Definition le_get (u : u32le) : Z :=
  u32_from_le_bytes (le0 u mod 256) (le1 u mod 256) (le2 u mod 256) (le3 u mod 256).

Fixpoint le_slice (d : list Z) (n : nat) {struct n} : option (list u32le * list Z) :=
  match n, d with
  | O, _ => Some ([], d)
  | S n, b0 :: b1 :: b2 :: b3 :: d =>
      match le_slice d n with
      | Some (us, r) => Some (Le b0 b1 b2 b3 :: us, r)
      | None => None
      end
  | _, _ => None
  end.

Definition le_slice_all (d : list Z) : option (list u32le) :=
  match le_slice d (Nat.div (length d) 4) with Some (us, []) => Some us | _ => None end.

Lemma le_slice_iff d n us r :
  le_slice d n = Some (us, r) <-> d = (us ≫= le_bytes) ++ r /\ length us = n.
Proof.
  revert d us. induction n as [|n IH]; intros d us.
  { simpl. split; [by intros [= <- <-]|]. intros [-> Hn]. by destruct us. }
  split.
  - destruct d as [|b0 [|b1 [|b2 [|b3 d]]]]; try done. simpl.
    destruct (le_slice d n) as [[us' r']|] eqn:Hd; intros [= <- <-].
    apply IH in Hd as [-> <-]. done.
  - intros [-> Hn]. destruct us as [|[b0 b1 b2 b3] us]; [done|].
    injection Hn as Hn. simpl. by rewrite (proj2 (IH _ us)).
Qed.

Abbreviation objects := (list (string * list Z)).


Definition append_at (o : objects) (i : nat) (d : list Z) : objects :=
  alter (fun s => (s.1, s.2 ++ d)) i o.

Fixpoint find_name (o : objects) (name : string) : option nat :=
  match o with
  | [] => None
  | (n, _) :: o => if String.eqb n name then Some O else S <$> find_name o name
  end.

Lemma find_name_snoc o name d :
  find_name o name = None -> find_name (o ++ [(name, d)]) name = Some (length o).
Proof.
  induction o as [|[n d'] o IH]; simpl; intros Hn; [by rewrite String.eqb_refl|].
  destruct (String.eqb n name); [done|].
  destruct (find_name o name); [done|]. by rewrite IH.
Qed.

Lemma find_name_append o i d name : find_name (append_at o i d) name = find_name o name.
Proof.
  revert i. induction o as [|[n d'] o IH]; intros [|i]; try done.
  change (append_at ((n, d') :: o) (S i) d) with ((n, d') :: append_at o i d).
  simpl. by rewrite IH.
Qed.

Definition data_at (o : objects) (i : nat) : list Z :=
  match o !! i with Some s => s.2 | None => [] end.

Lemma data_at_new (o : objects) name : data_at (o ++ [(name, [])]) (length o) = [].
Proof. unfold data_at. by rewrite lookup_app_r, Nat.sub_diag by lia. Qed.

Lemma data_at_append o i d :
  (i < length o)%nat -> data_at (append_at o i d) i = data_at o i ++ d.
Proof.
  intros [[n d'] Hi]%lookup_lt_is_Some. unfold data_at, append_at.
  by rewrite list_lookup_alter_eq, Hi.
Qed.

Lemma find_name_lt o name i : find_name o name = Some i -> (i < length o)%nat.
Proof.
  revert i. induction o as [|[n d] o IH]; simpl; intros i Hi; [done|].
  destruct (String.eqb n name); [simplify_eq; lia|].
  destruct (find_name o name) as [j|]; simplify_eq/=. specialize (IH j eq_refl). lia.
Qed.

Lemma bytes_range (b : Z) : 0 <= b mod 256 <= 255.
Proof. pose proof (Z.mod_pos_bound b 256). lia. Qed.

Lemma le_get_range u : in_u32 (le_get u).
Proof.
  unfold in_u32, u32_MAX, le_get, u32_from_le_bytes.
  pose proof (bytes_range (le0 u)). pose proof (bytes_range (le1 u)).
  pose proof (bytes_range (le2 u)). pose proof (bytes_range (le3 u)). lia.
Qed.

Lemma le_get_new z : in_u32 z -> le_get (le_new z) = z.
Proof.
  intros. unfold le_get, le_new. cbn [le0 le1 le2 le3].
  rewrite !Z.mod_mod by done. by apply u32_le_bytes_roundtrip.
Qed.

Definition le_slice_checked (d : list Z) (n : Z) : option (list u32le * list Z) :=
  if 0 <=? n then le_slice d (Z.to_nat n) else None.

Lemma le_slice_checked_iff d n us r :
  le_slice_checked d n = Some (us, r) <-> d = (us ≫= le_bytes) ++ r /\ zlen us = n.
Proof.
  unfold le_slice_checked, zlen. destruct (Z.leb_spec 0 n).
  - rewrite le_slice_iff. naive_solver lia.
  - split; [done|]. intros [_ ?]. lia.
Qed.

Lemma le_slice_all_iff d us : le_slice_all d = Some us <-> d = us ≫= le_bytes.
Proof.
  unfold le_slice_all.
  assert (Hlen : forall us : list u32le, length (us ≫= le_bytes) = (4 * length us)%nat).
  { intros l. induction l as [|u l IH]; [done|].
    rewrite bind_cons, length_app, IH. simpl. lia. }
  split.
  - destruct (le_slice _ _) as [[us' [|]]|] eqn:Hs; intros [= <-].
    apply le_slice_iff in Hs as [-> _]. by rewrite app_nil_r.
  - intros ->. rewrite Hlen, Nat.mul_comm, Nat.div_mul by done.
    by rewrite (proj2 (le_slice_iff _ _ us [])) by (by rewrite app_nil_r).
Qed.

#[export, refine] Instance concrete_object : ObjectCrate := {
  U32 := u32le;
  U32_new := le_new;
  U32_get := le_get;
  read_U32 d := match le_slice d 1 with Some ([u], r) => Some (u, r) | _ => None end;
  slice_from_bytes := le_slice_checked;
  slice_from_all_bytes := le_slice_all;
  bytes_of_slice us := us ≫= le_bytes;
  Object := objects;
  SectionId := nat;
  segment_name_data _ := [];
  add_section o _ name := (length o, o ++ [(name, [])]);
  append_section_data o i d _ := append_at o i d;
  section_data := data_at;
  section_by_name := find_name;
}.
Proof.
  - apply le_get_new.
  - apply le_get_range.
  - done.
  - intros d u r. destruct (le_slice d 1) as [[us r']|] eqn:Hd.
    + apply le_slice_iff in Hd as [-> Hl]. destruct us as [|u' [|]]; try done.
      destruct u, u'. simpl. naive_solver.
    + split; [done|]. intros ->.
      by rewrite (proj2 (le_slice_iff _ _ [u] r)) in Hd.
  - apply le_slice_checked_iff.
  - apply le_slice_all_iff.
  - intros o _ name. apply data_at_new.
  - intros o _ name. apply find_name_snoc.
  - intros o i d name Hi. by eapply data_at_append, find_name_lt.
  - intros. apply find_name_append.
Defined.

(** An object without sections. *)
Definition empty_object : Object := ([] : objects).

(** ** Binary search

    [slice::binary_search_by_key] of the standard library, with the key
    function already applied: the loop narrows [base .. base + size] and the
    last comparison decides. *)

Inductive search_result := Ok (i : Z) | Err (i : Z).

Fixpoint search_loop (fuel : nat) (l : list Z) (key base size : Z) : Z :=
  match fuel with
  | O => base
  | S fuel =>
      if 1 <? size then
        let half := size / 2 in
        let mid := base + half in
        let base := if key <? default 0 (zget l mid) then base else mid in
        search_loop fuel l key base (size - half)
      else base
  end.

Definition binary_search (l : list Z) (key : Z) : search_result :=
  if zlen l =? 0 then Err 0
  else
    let base := search_loop (length l) l key 0 (zlen l) in
    let x := default 0 (zget l base) in
    if x =? key then Ok base else Err (base + (if x <? key then 1 else 0)).

(** [.ok()]. *)
Definition search_ok (r : search_result) : option Z :=
  match r with Ok i => Some i | Err _ => None end.

(** The keys are in non-decreasing order. *)
Definition ascending (l : list Z) : Prop :=
  forall i j x y, zget l i = Some x -> zget l j = Some y -> i <= j -> x <= y.

Section search.
Context (l : list Z) (key : Z) (Hasc : ascending l).

(** What the loop maintains: the window is inside the slice, everything after
    it is above the key and, once the window has moved, its first element is
    not above the key. *)
Definition window (base size : Z) : Prop :=
  0 <= base /\ 1 <= size /\ base + size <= zlen l /\
  (forall i x, zget l i = Some x -> base + size <= i -> key < x) /\
  (0 < base -> forall x, zget l base = Some x -> x <= key).

Lemma search_loop_window fuel base size :
  window base size -> size <= Z.of_nat fuel ->
  window (search_loop fuel l key base size) 1.
Proof.
  revert base size. induction fuel as [|fuel IH]; intros base size Hw Hf.
  { destruct Hw. lia. }
  destruct Hw as (Hb & Hs & Hl & Hhi & Hlo). simpl.
  destruct (Z.ltb_spec 1 size); [|by replace 1 with size by lia].
  assert (1 <= size / 2 < size) as [Hh1 Hh2].
  { split; [apply Z.div_le_lower_bound; lia|apply Z.div_lt; lia]. }
  destruct (proj2 (zget_is_Some l (base + size / 2))) as [m Hm]; [lia|].
  rewrite Hm. simpl. pose proof (Z.mul_div_le size 2 ltac:(lia)).
  destruct (Z.ltb_spec key m); apply IH; try lia.
  - repeat split; try lia; [|done]. intros i x Hi Hbi.
    pose proof (Hasc _ _ _ _ Hm Hi ltac:(lia)). lia.
  - repeat split; try lia.
    + intros i x Hi Hbi. apply (Hhi i x Hi). lia.
    + intros _ x Hx. naive_solver lia.
Qed.

Lemma binary_search_spec :
  match binary_search l key with
  | Ok i => zget l i = Some key
  | Err i => 0 <= i <= zlen l /\
             (forall j x, zget l j = Some x -> j < i -> x < key) /\
             (forall j x, zget l j = Some x -> i <= j -> key < x)
  end.
Proof.
  unfold binary_search. destruct (Z.eqb_spec (zlen l) 0) as [H0|H0].
  { split; [lia|]. split; intros j x Hj; apply zget_lt in Hj; lia. }
  pose proof (zlen_nonneg l).
  assert (window (search_loop (length l) l key 0 (zlen l)) 1) as Hw.
  { apply search_loop_window; [|unfold zlen; lia]. repeat split; try lia.
    intros i x Hi. apply zget_lt in Hi. lia. }
  revert Hw. generalize (search_loop (length l) l key 0 (zlen l)) as b.
  intros b (Hb & _ & Hl & Hhi & Hlo).
  destruct (proj2 (zget_is_Some l b)) as [x Hx]; [lia|]. rewrite Hx. simpl.
  destruct (Z.eqb_spec x key) as [->|Hne]; [done|].
  destruct (Z.ltb_spec x key) as [Hlt|Hge].
  - split; [lia|]. split; intros j y Hj Hjb.
    + pose proof (Hasc _ _ _ _ Hj Hx ltac:(lia)). lia.
    + by apply (Hhi j).
  - assert (b = 0) as ->.
    { destruct (decide (0 < b)); [|lia]. specialize (Hlo ltac:(done) x Hx). lia. }
    split; [lia|]. split; intros j y Hj Hjb.
    + apply zget_lt in Hj. lia.
    + pose proof (Hasc _ _ _ _ Hx Hj ltac:(lia)). lia.
Qed.

(** A key is found exactly when it is there. *)
Lemma binary_search_ok :
  match search_ok (binary_search l key) with
  | Some i => zget l i = Some key
  | None => key ∉ l
  end.
Proof.
  pose proof binary_search_spec as Hs. destruct (binary_search l key) as [i|i]; simpl;
    [done|]. destruct Hs as (Hi & Hlt & Hgt).
  intros [j Hj]%list_elem_of_lookup. rewrite <- zget_of_nat in Hj.
  destruct (decide (Z.of_nat j < i)); [specialize (Hlt _ _ Hj)|specialize (Hgt _ _ Hj)];
    lia.
Qed.
End search.

Lemma ascending_Sorted l : Sorted Z.le l -> ascending l.
Proof.
  intros Hs%Sorted_StronglySorted; [|intros x y z; lia].
  intros i j x y [Hi Hx]%zget_Some [Hj Hy]%zget_Some Hij.
  assert (Hn : (Z.to_nat i <= Z.to_nat j)%nat) by lia. revert Hx Hy Hn.
  generalize (Z.to_nat i) (Z.to_nat j). clear i j Hi Hj Hij.
  induction Hs as [|a l Hs IH Ha]; intros i j Hx Hy Hn; [done|].
  destruct i as [|i], j as [|j]; simplify_eq/=; try lia.
  - rewrite Forall_lookup in Ha. eauto.
  - apply (IH i j); auto with lia.
Qed.

(** ** The layout of the text section

    The builders of the sections are fed one function after the other: its
    range [start .. end] and, per entry, an offset from [start].  The callers'
    contract: functions in increasing order, entries sorted and inside their
    function, everything below 4 GiB. *)

Fixpoint ordered_in (lo hi : Z) (ps : list Z) : Prop :=
  match ps with
  | [] => lo <= hi
  | p :: ps => lo <= p /\ ordered_in p hi ps
  end.

Fixpoint layout_ok (last : Z) (funcs : list (Z * Z * list Z)) : Prop :=
  match funcs with
  | [] => True
  | (s, e, offs) :: funcs =>
      last <= s /\ ordered_in s e (Z.add s <$> offs) /\ e <= u32_MAX /\ layout_ok e funcs
  end.

Definition func_positions (f : Z * Z * list Z) : list Z := Z.add f.1.1 <$> f.2.

(** The text offsets of all entries. *)
Definition positions_of (funcs : list (Z * Z * list Z)) : list Z :=
  funcs ≫= func_positions.

Lemma ordered_in_bounds lo hi ps p : ordered_in lo hi ps -> p ∈ ps -> lo <= p <= hi.
Proof.
  revert lo. induction ps as [|q ps IH]; intros lo; simpl; [set_solver|].
  intros [Hq Ho] [->|Hp]%elem_of_cons.
  - split; [done|]. clear -Ho. revert q Ho.
    induction ps as [|r ps IH]; intros q; simpl; [done|]. intros [? Ho]%id.
    specialize (IH _ Ho). lia.
  - specialize (IH _ Ho Hp). lia.
Qed.

Lemma ordered_in_le lo hi ps : ordered_in lo hi ps -> lo <= hi.
Proof.
  revert lo. induction ps as [|q ps IH]; intros lo; simpl; [done|].
  intros [? Ho]. specialize (IH _ Ho). lia.
Qed.

Lemma ordered_in_Sorted lo hi ps : ordered_in lo hi ps -> Sorted Z.le ps.
Proof.
  revert lo. induction ps as [|q ps IH]; intros lo; simpl; [constructor|].
  intros [? Ho]. constructor; [by eapply IH|]. destruct ps as [|r ps]; constructor.
  by destruct Ho.
Qed.

Lemma Sorted_le_app l1 l2 :
  Sorted Z.le l1 -> Sorted Z.le l2 -> (forall x y, x ∈ l1 -> y ∈ l2 -> x <= y) ->
  Sorted Z.le (l1 ++ l2).
Proof.
  intros H1 H2 H12. induction H1 as [|x l1 H1 IH Hx]; simpl; [done|].
  constructor; [apply IH; set_solver|].
  destruct l1 as [|y l1]; simpl; [|inversion Hx; by constructor].
  destruct l2 as [|y l2]; constructor. apply H12; set_solver.
Qed.

Lemma positions_of_cons f funcs :
  positions_of (f :: funcs) = func_positions f ++ positions_of funcs.
Proof. done. Qed.

Lemma positions_of_bounds last funcs p :
  layout_ok last funcs -> p ∈ positions_of funcs -> last <= p <= u32_MAX.
Proof.
  revert last. induction funcs as [|[[s e] offs] funcs IH]; intros last; [set_solver|].
  intros (Hs & Ho & He & Hl). rewrite positions_of_cons. intros Hp. apply elem_of_app in Hp as [Hp|Hp].
  - apply (ordered_in_bounds _ _ _ _ Ho) in Hp. lia.
  - apply (IH _ Hl) in Hp. apply ordered_in_le in Ho. lia.
Qed.

Lemma positions_of_Sorted last funcs :
  layout_ok last funcs -> Sorted Z.le (positions_of funcs).
Proof.
  revert last. induction funcs as [|[[s e] offs] funcs IH]; intros last; [constructor|].
  intros (Hs & Ho & He & Hl). rewrite positions_of_cons. apply Sorted_le_app; [by eapply ordered_in_Sorted|by eapply IH|].
  intros x y Hx Hy. apply (ordered_in_bounds _ _ _ _ Ho) in Hx.
  apply (positions_of_bounds _ _ _ Hl) in Hy. lia.
Qed.

Lemma positions_of_u32 funcs : layout_ok 0 funcs -> Forall in_u32 (positions_of funcs).
Proof. intros Hl. apply Forall_forall. intros p. by apply positions_of_bounds. Qed.

(** In a list of pairs with distinct first components, the first determines
    the second. *)
Lemma NoDup_fst_unique {A B} (l : list (A * B)) x y1 y2 :
  NoDup l.*1 -> (x, y1) ∈ l -> (x, y2) ∈ l -> y1 = y2.
Proof.
  intros Hnd [i Hi]%list_elem_of_lookup [j Hj]%list_elem_of_lookup.
  assert (i = j); [|naive_solver].
  eapply (NoDup_lookup l.*1); [done|by rewrite list_lookup_fmap, Hi|].
  by rewrite list_lookup_fmap, Hj.
Qed.
