(* ===== verification/TrapEncoding.v ===== *)
(** * The trap section

    [environ::trap_encoding] and [environ::compile::trap_encoding]: the trap
    codes and their byte encoding, the builder of the [.wasmtime.traps] section
    and the lookups the runtime makes in it when a native instruction faults.
    The fallible functions return [None] in the source: they are computations
    of [M unit unit], where [Fail tt] is [None] and a failed [debug_assert!] or
    [unwrap] is [Panic]. *)

From S2P Require Import Prelude Sections.

(** ** Traps *)

Inductive Trap :=
  | StackOverflow | MemoryOutOfBounds | HeapMisaligned | TableOutOfBounds
  | IndirectCallToNull | BadSignature | IntegerOverflow | IntegerDivisionByZero
  | BadConversionToInteger | UnreachableCodeReached | Interrupt | OutOfFuel
  | AtomicWaitNonSharedMemory | NullReference | ArrayOutOfBounds
  | AllocationTooLarge | CastFailure | CannotEnterComponent | NoAsyncResult
  | UnhandledTag | ContinuationAlreadyConsumed | DisabledOpcode | AsyncDeadlock
  | CannotLeaveComponent | CannotBlockSyncTask | InvalidChar
  | DebugAssertStringEncodingFinished | DebugAssertEqualCodeUnits
  | DebugAssertPointerAligned | DebugAssertUpperBitsUnset | StringOutOfBounds
  | ListOutOfBounds | InvalidDiscriminant | UnalignedPointer
  | TaskCancelNotCancelled | TaskCancelOrReturnTwice | SubtaskCancelAfterTerminal
  | TaskReturnInvalid | WaitableSetDropHasWaiters | SubtaskDropNotResolved
  | ThreadNewIndirectInvalidType | ThreadNewIndirectUninitialized
  | BackpressureOverflow | UnsupportedCallbackCode | CannotResumeThread
  | ConcurrentFutureStreamOp | ReferenceCountOverflow | StreamOpTooBig.

#[export] Instance Trap_eq_dec : EqDecision Trap.
Proof. solve_decision. Defined.

(** The variants in the order they are declared. *)
Definition all_traps : list Trap := [
  StackOverflow; MemoryOutOfBounds; HeapMisaligned; TableOutOfBounds;
  IndirectCallToNull; BadSignature; IntegerOverflow; IntegerDivisionByZero;
  BadConversionToInteger; UnreachableCodeReached; Interrupt; OutOfFuel;
  AtomicWaitNonSharedMemory; NullReference; ArrayOutOfBounds; AllocationTooLarge;
  CastFailure; CannotEnterComponent; NoAsyncResult; UnhandledTag;
  ContinuationAlreadyConsumed; DisabledOpcode; AsyncDeadlock; CannotLeaveComponent;
  CannotBlockSyncTask; InvalidChar; DebugAssertStringEncodingFinished;
  DebugAssertEqualCodeUnits; DebugAssertPointerAligned; DebugAssertUpperBitsUnset;
  StringOutOfBounds; ListOutOfBounds; InvalidDiscriminant; UnalignedPointer;
  TaskCancelNotCancelled; TaskCancelOrReturnTwice; SubtaskCancelAfterTerminal;
  TaskReturnInvalid; WaitableSetDropHasWaiters; SubtaskDropNotResolved;
  ThreadNewIndirectInvalidType; ThreadNewIndirectUninitialized;
  BackpressureOverflow; UnsupportedCallbackCode; CannotResumeThread;
  ConcurrentFutureStreamOp; ReferenceCountOverflow; StreamOpTooBig].

(** [trap as u8]: the discriminant is the position of the variant. *)
Definition Trap_as_u8 (trap : Trap) : Z :=
  match trap with
  | StackOverflow => 0 | MemoryOutOfBounds => 1 | HeapMisaligned => 2
  | TableOutOfBounds => 3 | IndirectCallToNull => 4 | BadSignature => 5
  | IntegerOverflow => 6 | IntegerDivisionByZero => 7 | BadConversionToInteger => 8
  | UnreachableCodeReached => 9 | Interrupt => 10 | OutOfFuel => 11
  | AtomicWaitNonSharedMemory => 12 | NullReference => 13 | ArrayOutOfBounds => 14
  | AllocationTooLarge => 15 | CastFailure => 16 | CannotEnterComponent => 17
  | NoAsyncResult => 18 | UnhandledTag => 19 | ContinuationAlreadyConsumed => 20
  | DisabledOpcode => 21 | AsyncDeadlock => 22 | CannotLeaveComponent => 23
  | CannotBlockSyncTask => 24 | InvalidChar => 25
  | DebugAssertStringEncodingFinished => 26 | DebugAssertEqualCodeUnits => 27
  | DebugAssertPointerAligned => 28 | DebugAssertUpperBitsUnset => 29
  | StringOutOfBounds => 30 | ListOutOfBounds => 31 | InvalidDiscriminant => 32
  | UnalignedPointer => 33 | TaskCancelNotCancelled => 34
  | TaskCancelOrReturnTwice => 35 | SubtaskCancelAfterTerminal => 36
  | TaskReturnInvalid => 37 | WaitableSetDropHasWaiters => 38
  | SubtaskDropNotResolved => 39 | ThreadNewIndirectInvalidType => 40
  | ThreadNewIndirectUninitialized => 41 | BackpressureOverflow => 42
  | UnsupportedCallbackCode => 43 | CannotResumeThread => 44
  | ConcurrentFutureStreamOp => 45 | ReferenceCountOverflow => 46
  | StreamOpTooBig => 47
  end.

(** One [if byte == Trap::X as u8] per variant. *)
Definition Trap_from_u8 (byte : Z) : option Trap :=
  List.find (fun trap => byte =? Trap_as_u8 trap) all_traps.

(** The text of [Display]. *)
Definition Trap_fmt (trap : Trap) : string :=
  String.append "wasm trap: " match trap with
  | StackOverflow => "call stack exhausted"
  | MemoryOutOfBounds => "out of bounds memory access"
  | HeapMisaligned => "unaligned atomic"
  | TableOutOfBounds => "undefined element: out of bounds table access"
  | IndirectCallToNull => "uninitialized element"
  | BadSignature => "indirect call type mismatch"
  | IntegerOverflow => "integer overflow"
  | IntegerDivisionByZero => "integer divide by zero"
  | BadConversionToInteger => "invalid conversion to integer"
  | UnreachableCodeReached => "wasm `unreachable` instruction executed"
  | Interrupt => "interrupt"
  | OutOfFuel => "all fuel consumed by WebAssembly"
  | AtomicWaitNonSharedMemory => "atomic wait on non-shared memory"
  | NullReference => "null reference"
  | ArrayOutOfBounds => "out of bounds array access"
  | AllocationTooLarge => "allocation size too large"
  | CastFailure => "cast failure"
  | CannotEnterComponent => "cannot enter component instance"
  | NoAsyncResult => "async-lifted export failed to produce a result"
  | UnhandledTag => "unhandled tag"
  | ContinuationAlreadyConsumed => "continuation already consumed"
  | DisabledOpcode => "pulley opcode disabled at compile time was executed"
  | AsyncDeadlock => "deadlock detected: event loop cannot make further progress"
  | CannotLeaveComponent => "cannot leave component instance"
  | CannotBlockSyncTask => "cannot block a synchronous task before returning"
  | InvalidChar => "invalid `char` bit pattern"
  | DebugAssertStringEncodingFinished => "should have finished string encoding"
  | DebugAssertEqualCodeUnits => "code units should be equal"
  | DebugAssertPointerAligned => "pointer should be aligned"
  | DebugAssertUpperBitsUnset => "upper bits should be unset"
  | StringOutOfBounds => "string content out-of-bounds"
  | ListOutOfBounds => "list content out-of-bounds"
  | InvalidDiscriminant => "invalid variant discriminant"
  | UnalignedPointer => "unaligned pointer"
  | TaskCancelNotCancelled => "`task.cancel` called by task which has not been cancelled"
  | TaskCancelOrReturnTwice => "`task.return` or `task.cancel` called more than once for current task"
  | SubtaskCancelAfterTerminal => "`subtask.cancel` called after terminal status delivered"
  | TaskReturnInvalid => "invalid `task.return` signature and/or options for current task"
  | WaitableSetDropHasWaiters => "cannot drop waitable set with waiters"
  | SubtaskDropNotResolved => "cannot drop a subtask which has not yet resolved"
  | ThreadNewIndirectInvalidType => "start function does not match expected type (currently only `(i32) -> ()` is supported)"
  | ThreadNewIndirectUninitialized => "the start function index points to an uninitialized function"
  | BackpressureOverflow => "backpressure counter overflow"
  | UnsupportedCallbackCode => "unsupported callback code"
  | CannotResumeThread => "cannot resume thread which is not suspended"
  | ConcurrentFutureStreamOp => "cannot have concurrent operations active on a future/stream"
  | ReferenceCountOverflow => "reference count overflow"
  | StreamOpTooBig => "stream read/write count too large"
  end.

Lemma Trap_from_as_u8 trap : Trap_from_u8 (Trap_as_u8 trap) = Some trap.
Proof. by destruct trap. Qed.

Lemma Trap_from_u8_Some byte trap : Trap_from_u8 byte = Some trap -> byte = Trap_as_u8 trap.
Proof. intros [_ Hb]%List.find_some. by apply Z.eqb_eq in Hb. Qed.

Lemma Trap_as_u8_range trap : 0 <= Trap_as_u8 trap < 48.
Proof. destruct trap; simpl; lia. Qed.

Lemma Trap_fmt_inj trap trap' : Trap_fmt trap = Trap_fmt trap' -> trap = trap'.
Proof.
  set (find_fmt s := List.find (fun t => String.eqb (Trap_fmt t) s) all_traps).
  assert (Hf : forall t, find_fmt (Trap_fmt t) = Some t) by (intros []; reflexivity).
  intros He. pose proof (Hf trap) as H. rewrite He, Hf in H. by injection H.
Qed.

(** ** Compiled traps *)

Inductive CompiledTrap :=
| Normal (trap : Trap)
| InternalAssert
| GcHeapCorrupt.

#[export] Instance CompiledTrap_eq_dec : EqDecision CompiledTrap.
Proof. solve_decision. Defined.

(** [None] is a failed [debug_assert_ne!]. *)
Definition as_u8 (t : CompiledTrap) : option Z :=
  match t with
  | Normal trap =>
      let ret := Trap_as_u8 trap in
      if ret =? 0xFF then None else if ret =? 0xFE then None else Some ret
  | InternalAssert => Some 0xFF
  | GcHeapCorrupt => Some 0xFE
  end.

Definition from_u8 (byte : Z) : option CompiledTrap :=
  if byte =? 0xFF then Some InternalAssert
  else if byte =? 0xFE then Some GcHeapCorrupt
  else Normal <$> Trap_from_u8 byte.

Record TrapInformation := { code_offset : Z; trap_code : CompiledTrap }.

(** The byte of a trap, whose assertions always hold. *)
Definition trap_byte (t : CompiledTrap) : Z :=
  match t with
  | Normal trap => Trap_as_u8 trap
  | InternalAssert => 0xFF
  | GcHeapCorrupt => 0xFE
  end.

Lemma as_u8_total t : as_u8 t = Some (trap_byte t).
Proof.
  destruct t as [trap| |]; simpl; [|done..]. pose proof (Trap_as_u8_range trap).
  rewrite !(proj2 (Z.eqb_neq _ _)) by lia. done.
Qed.

Lemma from_u8_byte t : from_u8 (trap_byte t) = Some t.
Proof.
  unfold from_u8. destruct t as [trap| |]; simpl; [|done..].
  pose proof (Trap_as_u8_range trap). rewrite !(proj2 (Z.eqb_neq _ _)) by lia.
  by rewrite Trap_from_as_u8.
Qed.

Lemma from_u8_Some byte t : from_u8 byte = Some t -> byte = trap_byte t.
Proof.
  unfold from_u8. destruct (Z.eqb_spec byte 0xFF); [by intros [= <-]|].
  destruct (Z.eqb_spec byte 0xFE); [by intros [= <-]|].
  destruct (Trap_from_u8 byte) eqn:Hb; intros [= <-]. by apply Trap_from_u8_Some.
Qed.

(** Every compiled trap has a byte (the assertions of the encoder never
    fail), decoding the byte gives the trap back, a byte decodes only to the
    trap that encodes to it, and every byte below the number of traps is used:
    the encoding is a bijection onto the bytes the decoder accepts.  Distinct
    traps also have distinct messages. *)
Theorem trap_code_roundtrip :
  (forall t, exists byte, as_u8 t = Some byte /\ in_u8 byte /\ from_u8 byte = Some t) /\
  (forall byte t, from_u8 byte = Some t -> as_u8 t = Some byte) /\
  (forall byte, 0 <= byte < zlen all_traps -> is_Some (from_u8 byte)) /\
  (forall trap trap', Trap_fmt trap = Trap_fmt trap' -> trap = trap').
Proof.
  split_and!.
  - intros t. exists (trap_byte t). rewrite as_u8_total, from_u8_byte.
    split_and!; [done| |done]. unfold in_u8, u8_MAX.
    destruct t as [trap| |]; simpl; try lia. pose proof (Trap_as_u8_range trap). lia.
  - intros byte t ->%from_u8_Some. apply as_u8_total.
  - intros byte Hb. unfold from_u8. do 2 (case_match; [done|]).
    assert (exists trap, Trap_as_u8 trap = byte) as [trap <-];
      [|by rewrite Trap_from_as_u8].
    destruct (proj2 (zget_is_Some all_traps byte) Hb) as [trap Ht]. exists trap.
    assert (forallb (fun i => bool_decide (Trap_as_u8 <$> zget all_traps i = Some i))
              (Z.of_nat <$> seq 0 (length all_traps)) = true) as Hall by by vm_compute.
    rewrite forallb_elem in Hall. specialize (Hall byte).
    rewrite Ht in Hall. apply (inj Some). apply bool_decide_eq_true in Hall; [done|].
    apply list_elem_of_fmap. exists (Z.to_nat byte). unfold zlen in Hb.
    split; [lia|]. apply elem_of_seq. lia.
  - apply Trap_fmt_inj.
Qed.

(** ** The builder and the lookups *)

Definition ELF_WASMTIME_TRAPS : string := ".wasmtime.traps".

Section trap_section.
Context `{ObjectCrate}.

Record TrapEncodingBuilder := {
  offsets : list U32;
  traps : list Z;
  last_offset : Z;
}.

Definition TrapEncodingBuilder_default : TrapEncodingBuilder :=
  {| offsets := []; traps := []; last_offset := 0 |}.

(** The loop of [push]. *)
Fixpoint push_loop (func_start : Z) (infos : list TrapInformation)
  : M TrapEncodingBuilder Empty_set unit :=
  match infos with
  | [] => ret tt
  | info :: infos =>
      pos <- unwrap (checked_add u32_MAX func_start (code_offset info)) ;;
      self <- get ;;
      rust_assert (last_offset self <=? pos) ;;;
      byte <- unwrap (as_u8 (trap_code info)) ;;
      put {| offsets := offsets self ++ [U32_new pos];
             traps := traps self ++ [byte];
             last_offset := pos |} ;;;
      push_loop func_start infos
  end.

Definition push (func : Z * Z) (infos : list TrapInformation)
  : M TrapEncodingBuilder Empty_set unit :=
  func_start <- unwrap (try_from u32_MAX func.1) ;;
  func_end <- unwrap (try_from u32_MAX func.2) ;;
  self <- get ;;
  rust_assert (last_offset self <=? func_start) ;;;
  push_loop func_start infos ;;;
  modify (fun self => {| offsets := offsets self; traps := traps self;
                         last_offset := func_end |}).

Definition append_to (self : TrapEncodingBuilder) : M Object Empty_set unit :=
  obj <- get ;;
  let '(section, obj) := add_section obj (segment_name_data obj) ELF_WASMTIME_TRAPS in
  amt <- unwrap (try_from u32_MAX (zlen (traps self))) ;;
  put (write_pieces obj section
         [u32_to_le_bytes amt; bytes_of_slice (offsets self); traps self]).

Definition parse (section : list Z) : M unit unit (list U32 * list Z) :=
  r <- ok_or (read_U32 section) tt ;; let '(count, section) := r in
  count <- ok_or (try_from usize_MAX (U32_get count)) tt ;;
  r <- ok_or (slice_from_bytes section count) tt ;; let '(offsets, traps) := r in
  rust_assert (zlen traps =? count) ;;;
  ret (offsets, traps).

Definition lookup_trap_code (section : list Z) (offset : Z) : M unit unit CompiledTrap :=
  r <- parse section ;; let '(offsets, traps) := r in
  offset <- ok_or (try_from u32_MAX offset) tt ;;
  index <- ok_or (search_ok (binary_search (values offsets) offset)) tt ;;
  rust_assert (index <? zlen traps) ;;;
  byte <- ok_or (zget traps index) tt ;;
  let trap := from_u8 byte in
  rust_assert (bool_decide (is_Some trap)) ;;;
  ok_or trap tt.

(** The items of the iterator, [unwrap] of every byte included. *)
Fixpoint iterate_items (items : list (U32 * Z)) : M unit unit (list (Z * CompiledTrap)) :=
  match items with
  | [] => ret []
  | (offset, trap) :: items =>
      trap <- unwrap (from_u8 trap) ;;
      rest <- iterate_items items ;;
      ret ((U32_get offset, trap) :: rest)
  end.

Definition iterate_traps (section : list Z) : M unit unit (list (Z * CompiledTrap)) :=
  r <- parse section ;; let '(offsets, traps) := r in
  iterate_items (zip offsets traps).

(** *** The functions of a compilation, in the order they are laid out *)

Definition Func : Type := (Z * Z) * list TrapInformation.

Definition func_layout (f : Func) : Z * Z * list Z := (f.1, code_offset <$> f.2).

(** What the section is to record: text offset and trap code, in order. *)
Definition func_entries (f : Func) : list (Z * CompiledTrap) :=
  (fun info => (f.1.1 + code_offset info, trap_code info)) <$> f.2.
Definition entries (funcs : list Func) : list (Z * CompiledTrap) := funcs ≫= func_entries.

Fixpoint push_all (funcs : list Func) : M TrapEncodingBuilder Empty_set unit :=
  match funcs with
  | [] => ret tt
  | (func, infos) :: funcs => push func infos ;;; push_all funcs
  end.

(** The bytes of the section after building it into an object. *)
Definition built_section (funcs : list Func) (o : Object) : option (list Z) :=
  match push_all funcs TrapEncodingBuilder_default with
  | Ret _ b =>
      match append_to b o with
      | Ret _ o' => section_bytes o' ELF_WASMTIME_TRAPS
      | _ => None
      end
  | _ => None
  end.

Implicit Types (b : TrapEncodingBuilder) (f : Func) (o : Object).

(** What pushing a run of entries appends. *)
Definition extended b (es : list (Z * CompiledTrap)) (last : Z) : TrapEncodingBuilder :=
  {| offsets := offsets b ++ (U32_new <$> es.*1);
     traps := traps b ++ (trap_byte <$> es.*2);
     last_offset := last |}.

Lemma trap_extended_app b es1 es2 l1 l2 :
  extended (extended b es1 l1) es2 l2 = extended b (es1 ++ es2) l2.
Proof. unfold extended. simpl. by rewrite !fmap_app, !app_assoc. Qed.

Lemma trap_extended_nil b : extended b [] (last_offset b) = b.
Proof. unfold extended. simpl. rewrite !app_nil_r. by destruct b. Qed.

Lemma trap_push_loop_run s e infos b lo :
  last_offset b <= lo -> e <= u32_MAX ->
  ordered_in lo e (Z.add s <$> (code_offset <$> infos)) ->
  exists last, push_loop s infos b =
    Ret tt (extended b (func_entries ((s, e), infos)) last).
Proof.
  revert b lo. induction infos as [|info infos IH]; intros b lo Hlo He Ho.
  { exists (last_offset b). by rewrite trap_extended_nil. }
  destruct Ho as [Hp Ho]. pose proof (ordered_in_le _ _ _ Ho) as Hpe.
  set (pos := s + code_offset info) in *.
  edestruct (IH (extended b [(pos, trap_code info)] pos) pos) as [last Hrun];
    [simpl; lia|done|done|].
  exists last. simpl. rewrite trap_extended_app in Hrun.
  erewrite bind_run by (apply unwrap_run, checked_add_Some; split; [reflexivity|lia]).
  erewrite bind_run by reflexivity. rewrite (bind_run _ _ _ tt b)
    by (apply assert_run, Z.leb_le; fold pos; lia).
  erewrite bind_run by (apply unwrap_run, as_u8_total).
  erewrite bind_run by reflexivity. apply Hrun.
Qed.

Lemma trap_push_run s e infos b :
  0 <= last_offset b <= s -> e <= u32_MAX ->
  ordered_in s e (Z.add s <$> (code_offset <$> infos)) ->
  push (s, e) infos b = Ret tt (extended b (func_entries ((s, e), infos)) e).
Proof.
  intros Hs He Ho. pose proof (ordered_in_le _ _ _ Ho) as Hse. unfold push. simpl.
  erewrite bind_run by (apply unwrap_run, try_from_in; lia).
  erewrite bind_run by (apply unwrap_run, try_from_in; lia).
  erewrite bind_run by reflexivity.
  erewrite bind_run by (apply assert_run, Z.leb_le; lia).
  destruct (trap_push_loop_run s e infos b s) as [last Hrun]; [lia|done|done|].
  by erewrite bind_run by apply Hrun.
Qed.

Lemma trap_push_all_run funcs b :
  0 <= last_offset b -> layout_ok (last_offset b) (func_layout <$> funcs) ->
  exists last, push_all funcs b = Ret tt (extended b (entries funcs) last).
Proof.
  revert b. induction funcs as [|[[s e] infos] funcs IH]; intros b H0 Hl.
  { exists (last_offset b). by rewrite trap_extended_nil. }
  destruct Hl as (Hs & Ho & He & Hl). pose proof (ordered_in_le _ _ _ Ho).
  destruct (IH (extended b (func_entries ((s, e), infos)) e)) as [last Hrun];
    [simpl; lia|done|].
  exists last. rewrite trap_extended_app in Hrun. simpl.
  erewrite bind_run by (apply trap_push_run; [lia|done|done]). apply Hrun.
Qed.

Lemma trap_entries_positions funcs : (entries funcs).*1 = positions_of (func_layout <$> funcs).
Proof.
  induction funcs as [|f funcs IH]; [done|].
  rewrite fmap_cons, positions_of_cons, <- IH.
  change (entries (f :: funcs)) with (func_entries f ++ entries funcs).
  rewrite fmap_app. f_equal. unfold func_entries, func_positions. simpl.
  by rewrite <- !list_fmap_compose.
Qed.

(** The bytes [append_to] writes. *)
Definition encoded (es : list (Z * CompiledTrap)) : list Z :=
  u32_to_le_bytes (zlen es) ++ bytes_of_slice (U32_new <$> es.*1) ++ (trap_byte <$> es.*2).

Lemma trap_built_section_encoded funcs o :
  layout_ok 0 (func_layout <$> funcs) -> zlen (entries funcs) <= u32_MAX ->
  section_by_name o ELF_WASMTIME_TRAPS = None ->
  built_section funcs o = Some (encoded (entries funcs)).
Proof.
  intros Hl Hn Ho. unfold built_section.
  destruct (trap_push_all_run funcs TrapEncodingBuilder_default) as [last ->]; [done|done|].
  unfold append_to. erewrite bind_run by reflexivity.
  pose proof (added_section_bytes o (segment_name_data o) ELF_WASMTIME_TRAPS) as Hadd.
  destruct (add_section o _ _) as [id o'] eqn:Hid. simpl.
  assert (zlen (trap_byte <$> (entries funcs).*2) = zlen (entries funcs)) as Hlen.
  { unfold zlen. by rewrite !length_fmap. }
  erewrite bind_run.
  2:{ apply unwrap_run, try_from_in. rewrite Hlen. pose proof (zlen_nonneg (entries funcs)).
      lia. }
  simpl in Hadd |- *. rewrite Hadd by done. simpl. unfold encoded.
  by rewrite Hlen, app_nil_r.
Qed.

Lemma trap_parse_encoded es :
  zlen es <= u32_MAX ->
  parse (encoded es) tt = Ret (U32_new <$> es.*1, trap_byte <$> es.*2) tt.
Proof.
  intros Hn. pose proof (zlen_nonneg es). unfold parse, encoded. rewrite read_U32_new.
  erewrite bind_run by reflexivity. simpl.
  rewrite U32_get_new by (unfold in_u32; lia).
  rewrite try_from_in by (unfold u32_MAX, usize_MAX in *; lia).
  erewrite bind_run by reflexivity.
  rewrite slice_from_bytes_app by (unfold zlen; by rewrite !length_fmap).
  erewrite bind_run by reflexivity. simpl.
  erewrite bind_run; [done|]. apply assert_run, Z.eqb_eq. unfold zlen.
  by rewrite !length_fmap.
Qed.

Lemma iterate_items_run es :
  Forall in_u32 es.*1 ->
  iterate_items (zip (U32_new <$> es.*1) (trap_byte <$> es.*2)) tt = Ret es tt.
Proof.
  induction es as [|[p t] es IH]; simpl; [done|].
  intros [Hp Hes]%Forall_cons.
  erewrite bind_run by (apply unwrap_run, from_u8_byte).
  erewrite bind_run by (by apply IH). by rewrite U32_get_new.
Qed.

Lemma entries_u32 funcs :
  layout_ok 0 (func_layout <$> funcs) -> Forall in_u32 (entries funcs).*1.
Proof. intros. rewrite trap_entries_positions. by apply positions_of_u32. Qed.

(** An exact lookup among the recorded entries. *)
Lemma trap_lookup_run es off :
  zlen es <= u32_MAX -> Forall in_u32 es.*1 -> Sorted Z.le es.*1 ->
  match lookup_trap_code (encoded es) off tt with
  | Ret t _ => (off, t) ∈ es
  | Fail _ _ => forall t, (off, t) ∉ es
  | Panic => False
  end.
Proof.
  intros Hn Hu Hs. unfold lookup_trap_code. erewrite bind_run by by apply trap_parse_encoded.
  cbv beta iota zeta. rewrite values_new by done.
  destruct (try_from u32_MAX off) as [off'|] eqn:Hoff; simpl.
  2:{ intros t Ht. apply (list_elem_of_fmap_2 fst) in Ht. rewrite Forall_forall in Hu.
      apply Hu in Ht. by rewrite try_from_in in Hoff. }
  erewrite bind_run by reflexivity. apply try_from_Some in Hoff as [-> Hoff].
  pose proof (binary_search_ok es.*1 off (ascending_Sorted _ Hs)) as Hb.
  destruct (search_ok _) as [i|]; simpl.
  2:{ intros t Ht. by apply Hb, (list_elem_of_fmap_2 fst _ _ Ht). }
  erewrite bind_run by reflexivity.
  apply zget_Some in Hb as [Hi Hb]. apply list_lookup_fmap_Some in Hb as ([p t] & -> & Ht).
  simpl. assert (zget (trap_byte <$> es.*2) i = Some (trap_byte t)) as Hz.
  { apply zget_Some. split; [done|]. by rewrite !list_lookup_fmap, Ht. }
  erewrite bind_run by (apply assert_run, Z.ltb_lt; by eapply zget_lt).
  rewrite Hz. erewrite bind_run by reflexivity. rewrite from_u8_byte.
  erewrite bind_run by (by apply assert_run, bool_decide_eq_true). simpl.
  by eapply list_elem_of_lookup_2.
Qed.

(** C38. For functions laid out in order, with their traps sorted and inside
    them, building the trap section never panics, and looking an offset up in
    the bytes of the section returns a trap code exactly when a trap was
    recorded at that offset: a code recorded there, and the one recorded when
    no two traps share the offset.  No lookup panics, whatever the offset.
    Iterating over the section yields exactly the recorded traps, in increasing
    order of their offsets in the text section. *)
Theorem trap_lookup_correct funcs o :
  layout_ok 0 (func_layout <$> funcs) -> zlen (entries funcs) <= u32_MAX ->
  section_by_name o ELF_WASMTIME_TRAPS = None ->
  exists bytes, built_section funcs o = Some bytes /\
    (forall off,
       match lookup_trap_code bytes off tt with
       | Ret t _ => (off, t) ∈ entries funcs
       | Fail _ _ => forall t, (off, t) ∉ entries funcs
       | Panic => False
       end) /\
    (NoDup (entries funcs).*1 -> forall off t, (off, t) ∈ entries funcs ->
       lookup_trap_code bytes off tt = Ret t tt) /\
    iterate_traps bytes tt = Ret (entries funcs) tt /\
    Sorted Z.le (entries funcs).*1.
Proof.
  intros Hl Hn Ho. exists (encoded (entries funcs)). split; [by apply trap_built_section_encoded|].
  assert (forall off, match lookup_trap_code (encoded (entries funcs)) off tt with
       | Ret t _ => (off, t) ∈ entries funcs
       | Fail _ _ => forall t, (off, t) ∉ entries funcs
       | Panic => False
       end) as Hlook.
  { intros off. apply trap_lookup_run; [done|by apply entries_u32|].
    rewrite trap_entries_positions. by eapply positions_of_Sorted. }
  split; [done|]. split; [|split].
  - intros Hnd off t Ht. specialize (Hlook off).
    destruct (lookup_trap_code _ off tt) as [t' []|[] []|]; [|by destruct (Hlook t)|done].
    f_equal. by eapply NoDup_fst_unique.
  - unfold iterate_traps. erewrite bind_run by by apply trap_parse_encoded.
    by apply iterate_items_run, entries_u32.
  - rewrite trap_entries_positions. by eapply positions_of_Sorted.
Qed.

End trap_section.

(** Two functions with three traps. *)
Definition example_funcs : list Func :=
  [((0, 16), [{| code_offset := 4; trap_code := Normal StackOverflow |};
              {| code_offset := 8; trap_code := GcHeapCorrupt |}]);
   ((32, 64), [{| code_offset := 20; trap_code := Normal StreamOpTooBig |}])].

Lemma trap_lookup_correct_witness :
  exists bytes, built_section example_funcs empty_object = Some bytes /\
    lookup_trap_code bytes 52 tt = Ret (Normal StreamOpTooBig) tt /\
    lookup_trap_code bytes 53 tt = Fail tt tt /\
    iterate_traps bytes tt = Ret [(4, Normal StackOverflow); (8, GcHeapCorrupt);
                                  (52, Normal StreamOpTooBig)] tt.
Proof.
  destruct (trap_lookup_correct example_funcs empty_object)
    as (bytes & Hb & _ & Hlook & Hit & _).
  - vm_compute. repeat split; discriminate.
  - discriminate.
  - reflexivity.
  - exists bytes. split; [exact Hb|]. split.
    + apply Hlook; [|vm_compute; set_solver].
      apply (bool_decide_unpack _). vm_compute. exact I.
    + split; [injection Hb as <-; reflexivity|exact Hit].
Defined.
