(* ===== verification/AddressMap.v ===== *)
(** * The address map section

    [environ::address_map] and [environ::compile::address_map]: source
    positions, the builder of the [.wasmtime.addrmap] section, which drops the
    entries that repeat the position before them, and the runtime's lookup of
    the source position that covers an offset of the text section. *)

From S2P Require Import Prelude Sections.

(** ** Positions *)

(** A [u32]; [u32::MAX] is the null position. *)
Record FilePos := MkFilePos { file_pos : Z }.

#[export] Instance FilePos_eq_dec : EqDecision FilePos.
Proof. solve_decision. Defined.

(** [None] is the failed [assert!]. *)
Definition FilePos_new (pos : Z) : option FilePos :=
  if pos =? u32_MAX then None else Some (MkFilePos pos).

Definition FilePos_none : FilePos := MkFilePos u32_MAX.

Definition is_none (self : FilePos) : bool := bool_decide (self = FilePos_none).

Definition file_offset (self : FilePos) : option Z :=
  if file_pos self =? u32_MAX then None else Some (file_pos self).

Definition FilePos_default : FilePos := FilePos_none.

Record InstructionAddressMap := { srcloc : FilePos; code_offset : Z }.

(** The encoding the builder uses is the integer inside. *)
Lemma file_offset_raw p : default u32_MAX (file_offset p) = file_pos p.
Proof. unfold file_offset. destruct (Z.eqb_spec (file_pos p) u32_MAX); [done|done]. Qed.

Lemma file_offset_none p : file_offset p = None <-> is_none p = true.
Proof.
  unfold file_offset, is_none. rewrite bool_decide_eq_true.
  destruct p as [p]. simpl. destruct (Z.eqb_spec p u32_MAX) as [->|Hne]; [done|].
  split; [done|]. by intros [= ?].
Qed.

Lemma file_offset_new pos p : FilePos_new pos = Some p -> file_offset p = Some pos.
Proof.
  unfold FilePos_new, file_offset. destruct (Z.eqb_spec pos u32_MAX); intros [= <-].
  simpl. by rewrite (proj2 (Z.eqb_neq _ _)).
Qed.

(** Program counters relative to a component and to a module. *)
Record ComponentPC := MkComponentPC { component_pc : Z }.
Record ModulePC := MkModulePC { module_pc : Z }.

Definition to_module_pc (self : ComponentPC) (wasm_module_offset : Z) : option ModulePC :=
  offset ← try_from u32_MAX wasm_module_offset;
  pc ← checked_sub (component_pc self) offset;
  Some (MkModulePC pc).

Lemma to_module_pc_Some c off m :
  to_module_pc c off = Some m <->
  0 <= off <= u32_MAX /\ off <= component_pc c /\ component_pc c = module_pc m + off.
Proof.
  unfold to_module_pc. destruct c as [c], m as [m]. simpl.
  destruct (try_from u32_MAX off) as [off'|] eqn:Ht; simpl.
  - apply try_from_Some in Ht as [-> Ht].
    destruct (checked_sub c off) as [pc|] eqn:Hs; simpl.
    + apply checked_sub_Some in Hs as [-> Hs]. split; [intros [= <-]; lia|].
      intros (_ & _ & ->). by replace (m + off - off) with m by lia.
    + split; [done|]. intros (_ & Hle & Heq).
      by rewrite (proj2 (checked_sub_Some c off (c - off))) in Hs.
  - split; [done|]. intros (Hr & _). by rewrite try_from_in in Ht.
Qed.

(** ** The builder and the lookups *)

Definition ELF_WASMTIME_ADDRMAP : string := ".wasmtime.addrmap".

Section address_map.
Context `{ObjectCrate}.

Record AddressMapSection := {
  offsets : list U32;
  positions : list U32;
  last_offset : Z;
}.

Definition AddressMapSection_default : AddressMapSection :=
  {| offsets := []; positions := []; last_offset := 0 |}.

(** The loop of [push], with its [last_srcloc]. *)
Fixpoint push_loop (func_start : Z) (last_srcloc : option Z)
  (instrs : list InstructionAddressMap) : M AddressMapSection Empty_set unit :=
  match instrs with
  | [] => ret tt
  | map :: instrs =>
      pos <- unwrap (checked_add u32_MAX func_start (code_offset map)) ;;
      self <- get ;;
      rust_assert (last_offset self <=? pos) ;;;
      put {| offsets := offsets self; positions := positions self; last_offset := pos |} ;;;
      let srcloc := default u32_MAX (file_offset (srcloc map)) in
      if bool_decide (Some srcloc = last_srcloc)
      then push_loop func_start last_srcloc instrs
      else
        self <- get ;;
        put {| offsets := offsets self ++ [U32_new pos];
               positions := positions self ++ [U32_new srcloc];
               last_offset := last_offset self |} ;;;
        push_loop func_start (Some srcloc) instrs
  end.

Definition push (func : Z * Z) (instrs : list InstructionAddressMap)
  : M AddressMapSection Empty_set unit :=
  func_start <- unwrap (try_from u32_MAX func.1) ;;
  func_end <- unwrap (try_from u32_MAX func.2) ;;
  push_loop func_start None instrs ;;;
  modify (fun self => {| offsets := offsets self; positions := positions self;
                         last_offset := func_end |}).

Definition append_to (self : AddressMapSection) : M Object Empty_set unit :=
  obj <- get ;;
  let '(section, obj) := add_section obj (segment_name_data obj) ELF_WASMTIME_ADDRMAP in
  amt <- unwrap (try_from u32_MAX (zlen (offsets self))) ;;
  put (write_pieces obj section
         [u32_to_le_bytes amt; bytes_of_slice (offsets self);
          bytes_of_slice (positions self)]).

Definition parse_address_map (section : list Z) : M unit unit (list U32 * list U32) :=
  r <- ok_or (read_U32 section) tt ;; let '(count, section) := r in
  count <- ok_or (try_from usize_MAX (U32_get count)) tt ;;
  r <- ok_or (slice_from_bytes section count) tt ;; let '(offsets, section) := r in
  r <- ok_or (slice_from_bytes section count) tt ;; let '(positions, section) := r in
  rust_assert (zlen section =? 0) ;;;
  ret (offsets, positions).

Definition lookup_file_pos (section : list Z) (offset : Z) : M unit unit FilePos :=
  r <- parse_address_map section ;; let '(offsets, positions) := r in
  offset <- ok_or (try_from u32_MAX offset) tt ;;
  index <- match binary_search (values offsets) offset with
           | Ok i => ret i
           | Err n => if n =? 0 then fail tt else ret (n - 1)
           end ;;
  pos <- ok_or (zget positions index) tt ;;
  ret (MkFilePos (U32_get pos)).

Definition iterate_address_map (section : list Z) : M unit unit (list (Z * FilePos)) :=
  r <- parse_address_map section ;; let '(offsets, positions) := r in
  ret (zip (values offsets) (MkFilePos <$> values positions)).

(** *** The functions of a compilation, in the order they are laid out *)

Definition Func : Type := (Z * Z) * list InstructionAddressMap.

Definition func_layout (f : Func) : Z * Z * list Z := (f.1, code_offset <$> f.2).

(** Every instruction with its text offset and source position. *)
Definition func_entries (f : Func) : list (Z * FilePos) :=
  (fun i => (f.1.1 + code_offset i, srcloc i)) <$> f.2.
Definition entries (funcs : list Func) : list (Z * FilePos) := funcs ≫= func_entries.

(** The entries that are kept: those whose position differs from the one
    before, [last], in the same function. *)
Fixpoint compress (last : option FilePos) (es : list (Z * FilePos)) : list (Z * FilePos) :=
  match es with
  | [] => []
  | (p, s) :: es =>
      if bool_decide (Some s = last) then compress last es
      else (p, s) :: compress (Some s) es
  end.
Definition recorded (funcs : list Func) : list (Z * FilePos) :=
  funcs ≫= fun f => compress None (func_entries f).

Fixpoint push_all (funcs : list Func) : M AddressMapSection Empty_set unit :=
  match funcs with
  | [] => ret tt
  | (func, instrs) :: funcs => push func instrs ;;; push_all funcs
  end.

(** The bytes of the section after building it into an object. *)
Definition built_section (funcs : list Func) (o : Object) : option (list Z) :=
  match push_all funcs AddressMapSection_default with
  | Ret _ b =>
      match append_to b o with
      | Ret _ o' => section_bytes o' ELF_WASMTIME_ADDRMAP
      | _ => None
      end
  | _ => None
  end.

(** A source position that covers [off]: that of an instruction with the
    greatest offset not above [off]. *)
Definition covers (es : list (Z * FilePos)) (off : Z) (s : FilePos) : Prop :=
  exists p, (p, s) ∈ es /\ p <= off /\
    forall p' s', (p', s') ∈ es -> p' <= off -> p' <= p.

(** *** Dropping repeated positions keeps what covers an offset *)

(** [kept all rec]: [rec] is [all] without entries that repeat the position of
    the last one kept. *)
Inductive kept : list (Z * FilePos) -> list (Z * FilePos) -> Prop :=
| kept_nil : kept [] []
| kept_push all rec e : kept all rec -> kept (all ++ [e]) (rec ++ [e])
| kept_drop all rec q p s :
    kept all rec -> last rec = Some (q, s) -> kept (all ++ [(p, s)]) rec.

Lemma kept_compress es all rec l :
  kept all rec -> (forall s, l = Some s -> exists q, last rec = Some (q, s)) ->
  kept (all ++ es) (rec ++ compress l es).
Proof.
  revert all rec l. induction es as [|[p s] es IH]; intros all rec l Hk Hl.
  { by rewrite !app_nil_r. }
  simpl. case_bool_decide as Hs.
  - destruct (Hl s) as [q Hq]; [done|].
    replace (all ++ (p, s) :: es) with ((all ++ [(p, s)]) ++ es) by by rewrite <- app_assoc.
    apply IH; [by eapply kept_drop|done].
  - replace (all ++ (p, s) :: es) with ((all ++ [(p, s)]) ++ es) by by rewrite <- app_assoc.
    replace (rec ++ (p, s) :: compress (Some s) es)
      with ((rec ++ [(p, s)]) ++ compress (Some s) es) by by rewrite <- app_assoc.
    apply IH; [by constructor|]. intros s' [= <-]. exists p. by rewrite last_snoc.
Qed.

Lemma kept_recorded funcs : kept (entries funcs) (recorded funcs).
Proof.
  unfold entries, recorded.
  enough (forall all rec, kept all rec -> kept (all ++ (funcs ≫= func_entries))
    (rec ++ (funcs ≫= fun f => compress None (func_entries f)))) as Hgen
    by by apply (Hgen [] []), kept_nil.
  induction funcs as [|f funcs IH]; intros all rec Hk; [by rewrite !app_nil_r|].
  rewrite !bind_cons, !app_assoc. by apply IH, kept_compress.
Qed.

Lemma kept_subset all rec e : kept all rec -> e ∈ rec -> e ∈ all.
Proof. induction 1; set_solver. Qed.

Lemma kept_sublist all rec : kept all rec -> rec `sublist_of` all.
Proof.
  induction 1; [done|by apply sublist_app|].
  by apply sublist_inserts_r.
Qed.

Definition sorted_offsets (es : list (Z * FilePos)) : Prop :=
  forall l1 p s l2, es = l1 ++ (p, s) :: l2 -> forall q t, (q, t) ∈ l1 -> q <= p.

Lemma sorted_offsets_Sorted es : Sorted Z.le es.*1 -> sorted_offsets es.
Proof.
  intros Hs l1 p s l2 -> q t Hq. apply Sorted_StronglySorted in Hs; [|intros x y z; lia].
  rewrite fmap_app in Hs. simpl in Hs.
  apply (list_elem_of_fmap_2 fst) in Hq. simpl in Hq.
  by eapply StronglySorted_app_1_elem_of; [exact Hs|..|apply elem_of_cons; left].
Qed.

Lemma sorted_offsets_snoc es e : sorted_offsets (es ++ [e]) -> sorted_offsets es.
Proof.
  intros Hs l1 p s l2 ->. apply (Hs l1 p s (l2 ++ [e])). by rewrite <- app_assoc.
Qed.

Lemma snoc_split {A} (l r1 r2 : list A) (e x : A) :
  l ++ [e] = r1 ++ x :: r2 ->
  (r2 = [] /\ e = x /\ l = r1) \/ exists r2', r2 = r2' ++ [e] /\ l = r1 ++ x :: r2'.
Proof.
  induction r2 as [|e' r2' _] using rev_ind; intros He.
  - left. apply app_inj_tail in He as [-> ->]. done.
  - right. exists r2'. rewrite app_comm_cons, app_assoc in He.
    apply app_inj_tail in He as [-> ->]. done.
Qed.

(** The last kept entry not above [off] has the position that covers [off]. *)
Lemma kept_covers all rec off r1 q s r2 :
  kept all rec -> sorted_offsets all -> rec = r1 ++ (q, s) :: r2 -> q <= off ->
  (forall p t, (p, t) ∈ r2 -> off < p) -> covers all off s.
Proof.
  intros Hk. revert r1 q s r2.
  induction Hk as [|all rec [p s0] Hk IH|all rec q0 p s0 Hk IH Hlast];
    intros r1 q s r2 Hs Hr Hq Hhi; [by destruct r1| |].
  - pose proof Hs as Hs'. apply sorted_offsets_snoc in Hs'.
    apply snoc_split in Hr as [(-> & [= <- <-] & ->)|(r2' & -> & ->)].
    + exists p. split; [set_solver|]. split; [done|].
      intros p' s' [Hin|Hin%list_elem_of_singleton]%elem_of_app _; [|simplify_eq; lia].
      by eapply (Hs all p s0 []).
    + destruct (IH r1 q s r2') as (p1 & Hin & Hle & Hmax); [done..| |].
      { intros p' t Hp. apply (Hhi p' t). set_solver. }
      exists p1. split; [set_solver|]. split; [done|].
      intros p' s' [?|Hin'%list_elem_of_singleton]%elem_of_app Hle'; [by eapply Hmax|].
      simplify_eq. assert (off < p) by (apply (Hhi p s0); set_solver). lia.
  - pose proof Hs as Hs'. apply sorted_offsets_snoc in Hs'.
    destruct (IH r1 q s r2) as (p1 & Hin & Hle & Hmax); [done..|].
    destruct (decide (p <= off)) as [Hp|Hp].
    + assert ((q0, s0) ∈ all) as Hq0.
      { eapply kept_subset; [done|]. by eapply last_Some_elem_of. }
      assert (q0 <= p) as Hqp by by eapply (Hs all p s0 []).
      assert (r2 = []) as ->.
      { destruct r2 as [|e' r2' _] using rev_ind; [done|]. subst rec.
        rewrite app_comm_cons, app_assoc, last_snoc in Hlast. simplify_eq.
        assert (off < q0) by (apply (Hhi q0 s0); set_solver). lia. }
      subst rec. rewrite last_snoc in Hlast. simplify_eq.
      exists p. split; [set_solver|]. split; [done|].
      intros p' s' [Hin'|Hin'%list_elem_of_singleton]%elem_of_app _; [|simplify_eq; lia].
      by eapply (Hs all p s0 []).
    + exists p1. split; [set_solver|]. split; [done|].
      intros p' s' [?|Hin'%list_elem_of_singleton]%elem_of_app Hle'; [by eapply Hmax|].
      simplify_eq. lia.
Qed.

(** When every kept entry is above [off], every entry is. *)
Lemma kept_above all rec off :
  kept all rec -> sorted_offsets all -> (forall p t, (p, t) ∈ rec -> off < p) ->
  forall p t, (p, t) ∈ all -> off < p.
Proof.
  induction 1 as [|all rec e Hk IH|all rec q p s Hk IH Hlast]; intros Hs Hhi p' t Hp.
  - set_solver.
  - apply elem_of_app in Hp as [Hp|Hp%list_elem_of_singleton].
    + eapply IH; [by eapply sorted_offsets_snoc| |done]. set_solver.
    + apply (Hhi p' t). set_solver.
  - assert ((q, s) ∈ rec) as Hq by by eapply last_Some_elem_of.
    apply elem_of_app in Hp as [Hp|Hp%list_elem_of_singleton].
    + eapply IH; [by eapply sorted_offsets_snoc|done|done].
    + simplify_eq. assert (q <= p) by (eapply (Hs all p s []); [done|by eapply kept_subset]).
      specialize (Hhi _ _ Hq). lia.
Qed.

(** *** Running the builder *)

Implicit Types (b : AddressMapSection) (f : Func) (o : Object).

Definition extended b (es : list (Z * FilePos)) (last : Z) : AddressMapSection :=
  {| offsets := offsets b ++ (U32_new <$> es.*1);
     positions := positions b ++ (U32_new <$> (file_pos <$> es.*2));
     last_offset := last |}.

Lemma addrmap_extended_app b es1 es2 l1 l2 :
  extended (extended b es1 l1) es2 l2 = extended b (es1 ++ es2) l2.
Proof. unfold extended. simpl. by rewrite !fmap_app, !app_assoc. Qed.

Lemma addrmap_extended_nil b last :
  extended b [] last = {| offsets := offsets b; positions := positions b;
                          last_offset := last |}.
Proof. unfold extended. simpl. by rewrite !app_nil_r. Qed.

Lemma Some_file_pos s l :
  bool_decide (Some (file_pos s) = file_pos <$> l) = bool_decide (Some s = l).
Proof.
  apply bool_decide_ext. destruct l as [[t]|], s as [s]; simpl; naive_solver.
Qed.

Lemma addrmap_push_loop_run s e l instrs b lo :
  last_offset b <= lo -> e <= u32_MAX ->
  ordered_in lo e (Z.add s <$> (code_offset <$> instrs)) ->
  exists last, push_loop s (file_pos <$> l) instrs b =
    Ret tt (extended b (compress l (func_entries ((s, e), instrs))) last).
Proof.
  revert b lo l. induction instrs as [|map instrs IH]; intros b lo l Hlo He Ho.
  { exists (last_offset b). rewrite addrmap_extended_nil. by destruct b. }
  destruct Ho as [Hp Ho]. pose proof (ordered_in_le _ _ _ Ho) as Hpe.
  set (pos := s + code_offset map) in *.
  cbn [push_loop].
  erewrite bind_run by (apply unwrap_run, checked_add_Some; split; [reflexivity|lia]).
  fold pos. erewrite bind_run by reflexivity.
  rewrite (bind_run _ _ _ tt b) by (apply assert_run, Z.leb_le; lia).
  erewrite bind_run by reflexivity. rewrite file_offset_raw, Some_file_pos.
  change (func_entries (s, e, map :: instrs))
    with ((pos, srcloc map) :: func_entries (s, e, instrs)). cbn [compress].
  case_bool_decide.
  - edestruct (IH (extended b [] pos) pos l) as [last Hrun]; [simpl; lia|done|done|].
    exists last. rewrite addrmap_extended_app, addrmap_extended_nil in Hrun. apply Hrun.
  - edestruct (IH (extended b [(pos, srcloc map)] pos) pos (Some (srcloc map)))
      as [last Hrun]; [simpl; lia|done|done|].
    exists last. rewrite addrmap_extended_app in Hrun. do 2 erewrite bind_run by reflexivity.
    apply Hrun.
Qed.

Lemma addrmap_push_run s e instrs b :
  0 <= last_offset b <= s -> e <= u32_MAX ->
  ordered_in s e (Z.add s <$> (code_offset <$> instrs)) ->
  push (s, e) instrs b =
    Ret tt (extended b (compress None (func_entries ((s, e), instrs))) e).
Proof.
  intros Hs He Ho. pose proof (ordered_in_le _ _ _ Ho) as Hse. unfold push. simpl.
  erewrite bind_run by (apply unwrap_run, try_from_in; lia).
  erewrite bind_run by (apply unwrap_run, try_from_in; lia).
  destruct (addrmap_push_loop_run s e None instrs b s) as [last Hrun]; [lia|done|done|].
  by erewrite bind_run by apply Hrun.
Qed.

Lemma addrmap_push_all_run funcs b :
  0 <= last_offset b -> layout_ok (last_offset b) (func_layout <$> funcs) ->
  exists last, push_all funcs b = Ret tt (extended b (recorded funcs) last).
Proof.
  revert b. induction funcs as [|[[s e] instrs] funcs IH]; intros b H0 Hl.
  { exists (last_offset b). rewrite addrmap_extended_nil. by destruct b. }
  destruct Hl as (Hs & Ho & He & Hl). pose proof (ordered_in_le _ _ _ Ho).
  destruct (IH (extended b (compress None (func_entries ((s, e), instrs))) e))
    as [last Hrun]; [simpl; lia|done|].
  exists last. rewrite addrmap_extended_app in Hrun. cbn [push_all].
  erewrite bind_run by (apply addrmap_push_run; [lia|done|done]). apply Hrun.
Qed.

Lemma addrmap_entries_positions funcs : (entries funcs).*1 = positions_of (func_layout <$> funcs).
Proof.
  induction funcs as [|f funcs IH]; [done|].
  rewrite fmap_cons, positions_of_cons, <- IH.
  change (entries (f :: funcs)) with (func_entries f ++ entries funcs).
  rewrite fmap_app. f_equal. unfold func_entries, func_positions. simpl.
  by rewrite <- !list_fmap_compose.
Qed.

(** The functions a compilation lays out, their positions being [u32]s. *)
Definition funcs_ok (funcs : list Func) : Prop :=
  layout_ok 0 (func_layout <$> funcs) /\
  Forall (fun e => in_u32 (file_pos e.2)) (entries funcs) /\
  zlen (recorded funcs) <= u32_MAX.

Section built.
Context (funcs : list Func) (Hok : funcs_ok funcs).

Lemma entries_sorted : sorted_offsets (entries funcs).
Proof.
  apply sorted_offsets_Sorted. rewrite addrmap_entries_positions.
  eapply positions_of_Sorted, Hok.
Qed.

Lemma recorded_keys : Forall in_u32 (recorded funcs).*1 /\
  Forall in_u32 (file_pos <$> (recorded funcs).*2).
Proof.
  destruct Hok as (Hl & Hpos & _).
  assert (Hsub : forall e, e ∈ recorded funcs -> in_u32 e.1 /\ in_u32 (file_pos e.2)).
  { intros e He. apply (kept_subset _ _ _ (kept_recorded funcs)) in He. split.
    - pose proof (positions_of_u32 _ Hl) as Hu. rewrite <- addrmap_entries_positions in Hu.
      rewrite Forall_fmap, Forall_forall in Hu. by apply Hu.
    - rewrite Forall_forall in Hpos. by apply Hpos. }
  split; rewrite !Forall_fmap, Forall_forall; intros e He; by apply Hsub.
Qed.

Lemma recorded_Sorted : Sorted Z.le (recorded funcs).*1.
Proof.
  apply StronglySorted_Sorted.
  assert (StronglySorted Z.le (entries funcs).*1) as Hs.
  { apply Sorted_StronglySorted; [intros x y z; lia|].
    rewrite addrmap_entries_positions. eapply positions_of_Sorted, Hok. }
  revert Hs. pose proof (kept_recorded funcs) as Hk. revert Hk.
  generalize (entries funcs) (recorded funcs).
  induction 1 as [|all rec e Hk IH|all rec q p s Hk IH Hlast]; [done| |];
    rewrite !fmap_app; intros Hs; apply StronglySorted_app in Hs as (Hall & Hlt & _).
  - apply StronglySorted_app. split; [|split; [by apply IH|repeat constructor]].
    intros x y Hx Hy. apply Hall; [|done].
    apply list_elem_of_fmap in Hx as (e' & -> & Hx). apply list_elem_of_fmap_2.
    by eapply kept_subset.
  - by apply IH.
Qed.

(** The bytes [append_to] writes. *)
Definition encoded (es : list (Z * FilePos)) : list Z :=
  u32_to_le_bytes (zlen es) ++ bytes_of_slice (U32_new <$> es.*1) ++
  bytes_of_slice (U32_new <$> (file_pos <$> es.*2)).

Lemma addrmap_built_section_encoded o :
  section_by_name o ELF_WASMTIME_ADDRMAP = None ->
  built_section funcs o = Some (encoded (recorded funcs)).
Proof.
  destruct Hok as (Hl & _ & Hn). intros Ho. unfold built_section.
  destruct (addrmap_push_all_run funcs AddressMapSection_default) as [last ->]; [done|done|].
  unfold append_to. erewrite bind_run by reflexivity.
  pose proof (added_section_bytes o (segment_name_data o) ELF_WASMTIME_ADDRMAP) as Hadd.
  destruct (add_section o _ _) as [id o'] eqn:Hid. simpl.
  assert (zlen (U32_new <$> (recorded funcs).*1) = zlen (recorded funcs)) as Hlen.
  { unfold zlen. by rewrite !length_fmap. }
  erewrite bind_run.
  2:{ apply unwrap_run, try_from_in. rewrite Hlen.
      pose proof (zlen_nonneg (recorded funcs)). lia. }
  simpl in Hadd |- *. rewrite Hadd by done. simpl. unfold encoded.
  by rewrite Hlen, app_nil_r.
Qed.

Lemma addrmap_parse_encoded :
  parse_address_map (encoded (recorded funcs)) tt =
    Ret (U32_new <$> (recorded funcs).*1, U32_new <$> (file_pos <$> (recorded funcs).*2)) tt.
Proof.
  destruct Hok as (_ & _ & Hn). pose proof (zlen_nonneg (recorded funcs)).
  unfold parse_address_map, encoded. rewrite read_U32_new.
  erewrite bind_run by reflexivity. cbv beta iota zeta.
  rewrite U32_get_new by (unfold in_u32; lia).
  rewrite try_from_in by (unfold u32_MAX, usize_MAX in *; lia).
  erewrite bind_run by reflexivity.
  rewrite slice_from_bytes_app by (unfold zlen; by rewrite !length_fmap).
  erewrite bind_run by reflexivity. cbv beta iota zeta.
  rewrite slice_from_bytes_all by (unfold zlen; by rewrite !length_fmap).
  by erewrite bind_run by reflexivity.
Qed.
End built.

Lemma addrmap_lookup_run funcs off :
  funcs_ok funcs -> in_u32 off ->
  match lookup_file_pos (encoded (recorded funcs)) off tt with
  | Ret s _ => covers (entries funcs) off s
  | Fail _ _ => forall p s, (p, s) ∈ entries funcs -> off < p
  | Panic => False
  end.
Proof.
  intros Hok Hoff. unfold lookup_file_pos. erewrite bind_run by by apply addrmap_parse_encoded.
  cbv beta iota zeta. destruct (recorded_keys funcs Hok) as [Hk1 Hk2].
  rewrite values_new by done. rewrite try_from_in by done.
  erewrite bind_run by reflexivity.
  set (rec := recorded funcs) in *.
  assert (Hget : forall i p s, rec !! i = Some (p, s) -> zget rec.*1 (Z.of_nat i) = Some p /\
    zget (U32_new <$> (file_pos <$> rec.*2)) (Z.of_nat i) = Some (U32_new (file_pos s)) /\
    MkFilePos (U32_get (U32_new (file_pos s))) = s).
  { intros i p s Hi. rewrite !zget_of_nat, !list_lookup_fmap, Hi. simpl. split_and!; try done.
    rewrite U32_get_new; [by destruct s|]. rewrite Forall_fmap, Forall_fmap in Hk2.
    rewrite Forall_lookup in Hk2. apply (Hk2 _ _ Hi). }
  pose proof (binary_search_spec rec.*1 off (ascending_Sorted _ (recorded_Sorted funcs Hok)))
    as Hb. pose proof (kept_recorded funcs) as Hk. pose proof (entries_sorted funcs Hok) as Hs.
  fold rec in Hk. destruct (binary_search rec.*1 off) as [i|n].
  - apply zget_Some in Hb as [Hi Hb]. apply list_lookup_fmap_Some in Hb as ([p s] & -> & Hps).
    destruct (Hget _ _ _ Hps) as (_ & Hz & He). rewrite Z2Nat.id in Hz by done.
    erewrite bind_run by reflexivity. rewrite Hz. simpl. rewrite He.
    exists p. split; [|split; [done|by intros]].
    eapply kept_subset; [done|]. by eapply list_elem_of_lookup_2.
  - destruct Hb as (Hn & Hlt & Hgt). destruct (Z.eqb_spec n 0) as [->|Hn0].
    + simpl. intros p s Hps. eapply kept_above; [done|done| |exact Hps].
      intros q t [j Hj]%list_elem_of_lookup. destruct (Hget _ _ _ Hj) as (Hz & _).
      eapply Hgt; [done|lia].
    + erewrite bind_run by reflexivity.
      destruct (lookup_lt_is_Some_2 rec (Z.to_nat (n - 1))) as [[q s] Hqs].
      { unfold zlen in Hn. rewrite length_fmap in Hn. lia. }
      destruct (Hget _ _ _ Hqs) as (Hq & Hz & He). rewrite Z2Nat.id in Hq, Hz by lia.
      rewrite Hz. simpl. rewrite He.
      eapply (kept_covers _ _ _ (take (Z.to_nat (n - 1)) rec) q s
                (drop (S (Z.to_nat (n - 1))) rec)); [done|done| | |].
      * symmetry. by apply take_drop_middle.
      * apply Z.lt_le_incl. eapply Hlt; [done|lia].
      * intros p t [j Hj]%list_elem_of_lookup. rewrite lookup_drop in Hj.
        destruct (Hget _ _ _ Hj) as (Hp & _). eapply Hgt; [done|lia].
Qed.

(** C39. For functions laid out in order, with their instructions sorted and
    inside them, building the address map never panics, and looking up an
    offset of the text section returns the source position of an instruction
    with the greatest offset not above it, although repeated positions are
    dropped from the section; it returns nothing exactly when every instruction
    starts after the offset (or the offset does not fit 32 bits). *)
Theorem addrmap_lookup_correct funcs o :
  funcs_ok funcs -> section_by_name o ELF_WASMTIME_ADDRMAP = None ->
  exists bytes, built_section funcs o = Some bytes /\
    forall off, 0 <= off ->
      match lookup_file_pos bytes off tt with
      | Ret s _ => off <= u32_MAX /\ covers (entries funcs) off s
      | Fail _ _ => u32_MAX < off \/ forall p s, (p, s) ∈ entries funcs -> off < p
      | Panic => False
      end.
Proof.
  intros Hok Ho. exists (encoded (recorded funcs)).
  split; [by apply addrmap_built_section_encoded|]. intros off Hoff.
  destruct (decide (off <= u32_MAX)) as [Hle|Hgt].
  - pose proof (addrmap_lookup_run funcs off Hok ltac:(done)) as Hlook.
    destruct (lookup_file_pos _ off tt); [by split|by right|done].
  - unfold lookup_file_pos. erewrite bind_run by by apply addrmap_parse_encoded.
    cbv beta iota zeta. destruct (try_from u32_MAX off) eqn:Ht; simpl; [|left; lia].
    apply try_from_Some in Ht. lia.
Qed.

(** Iterating over the section that was built yields the recorded
    entries in increasing order of offset: per function, the instructions whose
    source position differs from that of the instruction before them. *)
Theorem addrmap_iterate_roundtrip funcs o :
  funcs_ok funcs -> section_by_name o ELF_WASMTIME_ADDRMAP = None ->
  exists bytes, built_section funcs o = Some bytes /\
    iterate_address_map bytes tt = Ret (recorded funcs) tt /\
    Sorted Z.le (recorded funcs).*1 /\ recorded funcs `sublist_of` entries funcs.
Proof.
  intros Hok Ho. exists (encoded (recorded funcs)).
  split; [by apply addrmap_built_section_encoded|].
  split; [|split; [by apply recorded_Sorted|by apply kept_sublist, kept_recorded]].
  unfold iterate_address_map. erewrite bind_run by by apply addrmap_parse_encoded.
  cbv beta iota zeta. destruct (recorded_keys funcs Hok) as [Hk1 Hk2].
  rewrite !values_new by done. unfold ret. f_equal.
  generalize (recorded funcs). intros rec.
  induction rec as [|[p [s]] rec IH]; simpl; [done|]. by f_equal.
Qed.
End address_map.

(** Two functions; the second instruction repeats the position of the first. *)
Definition example_funcs : list Func :=
  [((0, 16), [{| srcloc := MkFilePos 7; code_offset := 0 |};
              {| srcloc := MkFilePos 7; code_offset := 4 |};
              {| srcloc := FilePos_none; code_offset := 8 |}]);
   ((32, 64), [{| srcloc := MkFilePos 9; code_offset := 2 |}])].

Lemma addrmap_example_funcs_ok : funcs_ok example_funcs.
Proof.
  split; [vm_compute; repeat split; discriminate|]. split; [|vm_compute; discriminate].
  repeat constructor; vm_compute; discriminate.
Qed.

Lemma addrmap_lookup_correct_witness :
  exists bytes, built_section example_funcs empty_object = Some bytes /\
    lookup_file_pos bytes 5 tt = Ret (MkFilePos 7) tt /\
    covers (entries example_funcs) 5 (MkFilePos 7).
Proof.
  destruct (addrmap_lookup_correct example_funcs empty_object) as (bytes & Hb & Hlook).
  - exact addrmap_example_funcs_ok.
  - reflexivity.
  - exists bytes. specialize (Hlook 5 ltac:(discriminate)).
    assert (Hl : lookup_file_pos bytes 5 tt = Ret (MkFilePos 7) tt)
      by (injection Hb as <-; vm_compute; reflexivity).
    rewrite Hl in Hlook. split; [exact Hb|]. split; [exact Hl|exact (proj2 Hlook)].
Defined.

Lemma addrmap_iterate_roundtrip_witness :
  exists bytes, built_section example_funcs empty_object = Some bytes /\
    iterate_address_map bytes tt =
      Ret [(0, MkFilePos 7); (8, FilePos_none); (34, MkFilePos 9)] tt.
Proof.
  destruct (addrmap_iterate_roundtrip example_funcs empty_object) as (bytes & Hb & Hit & _).
  - exact addrmap_example_funcs_ok.
  - reflexivity.
  - exists bytes. split; [exact Hb|exact Hit].
Defined.
