(* ===== verification/StackMap.v ===== *)
(** * The stack map section

    [environ::stack_map] and [environ::compile::stack_maps]: for every safepoint
    of the compiled code, the size of its frame and the bit set of the frame's
    words that hold live GC references.  The builder of the
    [.wasmtime.stackmap] section, and the lookups the collector makes in it. *)

From S2P Require Import Sections Prelude TryVec BitSet.

Definition ELF_WASMTIME_STACK_MAP : string := ".wasmtime.stackmap".

Section stack_maps.
Context `{ObjectCrate} `{Allocator}.

(** ** The builder *)

Record StackMapSection := {
  pcs : list U32;
  pointers_to_stack_map : list U32;
  stack_map_data : list U32;
  last_offset : Z;
}.

Definition StackMapSection_default : StackMapSection :=
  {| pcs := []; pointers_to_stack_map := []; stack_map_data := []; last_offset := 0 |}.

(** The loop that fills the bit set of a frame. *)
Fixpoint insert_offsets (frame_offsets : list Z) : M CompoundBitSet Empty_set unit :=
  match frame_offsets with
  | [] => ret tt
  | offset :: frame_offsets =>
      rust_assert (offset mod 4 =? 0) ;;;
      insert 32 (offset / 4) ;;;
      insert_offsets frame_offsets
  end.

(** The [CompoundBitSet::<u32>] of a frame: a local of [push]. *)
Definition frame_bits (frame_offsets : list Z) : option CompoundBitSet :=
  match insert_offsets frame_offsets default_set with
  | Ret _ bits => Some bits
  | _ => None
  end.

Definition push (code_offset frame_size : Z) (frame_offsets : list Z)
  : M StackMapSection Empty_set unit :=
  code_offset <- unwrap (try_from u32_MAX code_offset) ;;
  self <- get ;;
  rust_assert (last_offset self <=? code_offset) ;;;
  put {| pcs := pcs self; pointers_to_stack_map := pointers_to_stack_map self;
         stack_map_data := stack_map_data self; last_offset := code_offset |} ;;;
  if zlen frame_offsets =? 0 then ret tt
  else
    self <- get ;;
    pointer <- unwrap (try_from u32_MAX (zlen (stack_map_data self))) ;;
    bits <- unwrap (frame_bits frame_offsets) ;;
    let count := zlen (iter_scalars 32 bits) in
    put {| pcs := pcs self ++ [U32_new code_offset];
           pointers_to_stack_map := pointers_to_stack_map self ++ [U32_new pointer];
           stack_map_data := stack_map_data self ++ [U32_new frame_size] ++
             [U32_new (count mod 2 ^ 32)] ++ (U32_new <$> iter_scalars 32 bits);
           last_offset := last_offset self |}.

Definition append_to (self : StackMapSection) : M Object Empty_set unit :=
  if zlen (pcs self) =? 0 then ret tt
  else
    obj <- get ;;
    let '(section, obj) :=
      add_section obj (segment_name_data obj) ELF_WASMTIME_STACK_MAP in
    amt <- unwrap (try_from u32_MAX (zlen (pcs self))) ;;
    put (write_pieces obj section
           [u32_to_le_bytes amt; bytes_of_slice (pcs self);
            bytes_of_slice (pointers_to_stack_map self);
            bytes_of_slice (stack_map_data self)]).

(** ** The reader *)

Record Parsed := {
  p_pcs : list U32;
  p_pointers_to_stack_map : list U32;
  p_stack_map_data : list U32;
}.

Record StackMap := { frame_size : Z; data : list U32 }.

Definition parse (section : list Z) : M unit unit Parsed :=
  r <- ok_or (read_U32 section) tt ;; let '(pc_count, section) := r in
  pc_count <- ok_or (try_from usize_MAX (U32_get pc_count)) tt ;;
  r <- ok_or (slice_from_bytes section pc_count) tt ;; let '(pcs, section) := r in
  r <- ok_or (slice_from_bytes section pc_count) tt ;;
  let '(pointers_to_stack_map, section) := r in
  stack_map_data <- ok_or (slice_from_all_bytes section) tt ;;
  ret {| p_pcs := pcs; p_pointers_to_stack_map := pointers_to_stack_map;
         p_stack_map_data := stack_map_data |}.

(** [slice.get(from..)], [slice.get(..n)] and [slice.split_first()]. *)
Definition get_from {A} (l : list A) (from : Z) : option (list A) :=
  if from <=? zlen l then Some (drop (Z.to_nat from) l) else None.
Definition get_to {A} (l : list A) (n : Z) : option (list A) :=
  if n <=? zlen l then Some (take (Z.to_nat n) l) else None.
Definition split_first {A} (l : list A) : option (A * list A) :=
  match l with [] => None | x :: l => Some (x, l) end.

(** The stack map of the [i]th pc. *)
Definition get_map (self : Parsed) (i : Z) : M unit unit StackMap :=
  pointer <- unwrap (zget (p_pointers_to_stack_map self) i) ;;
  data <- ok_or (get_from (p_stack_map_data self) (U32_get pointer)) tt ;;
  r <- ok_or (split_first data) tt ;; let '(frame_size, data) := r in
  r <- ok_or (split_first data) tt ;; let '(count, data) := r in
  data <- ok_or (get_to data (U32_get count)) tt ;;
  ret {| frame_size := U32_get frame_size; data := data |}.

Definition lookup_pc (self : Parsed) (pc : Z) : M unit unit StackMap :=
  pc_index <- ok_or (search_ok (binary_search (values (p_pcs self)) pc)) tt ;;
  get_map self pc_index.

(** [StackMap::lookup]. *)
Definition lookup (pc : Z) (section : list Z) : M unit unit StackMap :=
  self <- parse section ;;
  lookup_pc self pc.

(** The items of [into_iter]; [None] from [get] is unwrapped. *)
Fixpoint iter_from (self : Parsed) (i : Z) (pcs : list U32)
  : M unit unit (list (Z * StackMap)) :=
  match pcs with
  | [] => ret []
  | pc :: pcs =>
      m <- or_else (get_map self i) (fun _ => panic) ;;
      rest <- iter_from self (i + 1) pcs ;;
      ret ((U32_get pc, m) :: rest)
  end.

(** [StackMap::iter]. *)
Definition iter_maps (section : list Z) : M unit unit (list (Z * StackMap)) :=
  self <- parse section ;;
  iter_from self 0 (p_pcs self).

Definition checked_mul (max a b : Z) : option Z :=
  if a * b <=? max then Some (a * b) else None.

(** The positions of the ones, word by word ([None] is an overflow). *)
Fixpoint bit_positions (i : Z) (data : list U32) : option (list Z) :=
  match data with
  | [] => Some []
  | word :: data =>
      bits ← scalar_iter 32 (U32_get word);
      items ← mapM (fun bit => base ← checked_mul u32_MAX (i mod 2 ^ 32) 32;
                               checked_add u32_MAX base bit) bits;
      rest ← bit_positions (i + 1) data;
      Some (items ++ rest)
  end.

Definition offsets (self : StackMap) : option (list Z) :=
  positions ← bit_positions 0 (data self);
  mapM (fun pos => checked_mul u32_MAX pos 4) positions.

(** Addresses are integers; the assertion compares the offset in the frame. *)
Definition sp (self : StackMap) (fp : Z) : Z := fp - frame_size self.

Definition live_gc_refs (self : StackMap) (sp : Z) : option (list Z) :=
  offs ← offsets self;
  mapM (fun i => let ptr_to_gc_ref := sp + i in
                 if ptr_to_gc_ref - sp <? frame_size self then Some ptr_to_gc_ref else None)
    offs.

(** ** Safepoints

    The safepoints of a compilation, in order: code offset, frame size and
    offsets of the live references. *)

Definition Safepoint : Type := Z * Z * list Z.

Fixpoint push_all (maps : list Safepoint) : M StackMapSection Empty_set unit :=
  match maps with
  | [] => ret tt
  | (pc, fs, offs) :: maps => push pc fs offs ;;; push_all maps
  end.

Definition built_object (maps : list Safepoint) (o : Object) : option Object :=
  match push_all maps StackMapSection_default with
  | Ret _ b => match append_to b o with Ret _ o' => Some o' | _ => None end
  | _ => None
  end.

Definition offset_ok (o : Z) : Prop := in_u32 o /\ o mod 4 = 0.

Fixpoint ordered_maps (last : Z) (maps : list Safepoint) : Prop :=
  match maps with
  | [] => True
  | (pc, fs, offs) :: maps =>
      last <= pc <= u32_MAX /\ in_u32 fs /\ Forall offset_ok offs /\ ordered_maps pc maps
  end.

(** How many words the data of a safepoint takes at most. *)
Definition map_words (m : Safepoint) : Z :=
  match max_of m.2 with Some o => 3 + o / 128 | None => 0 end.

Definition maps_ok (maps : list Safepoint) : Prop :=
  ordered_maps 0 maps /\ total map_words maps <= u32_MAX.

(** What a stack map must say of a safepoint: its frame size, and its offsets
    in increasing order; [live_gc_refs] then yields the addresses. *)
Definition describes (sm : StackMap) (fs : Z) (offs : list Z) : Prop :=
  frame_size sm = fs /\
  exists l, offsets sm = Some l /\ StronglySorted Z.lt l /\ (forall x, x ∈ l <-> x ∈ offs) /\
    forall sp, Forall (fun o => o < fs) offs -> live_gc_refs sm sp = Some (Z.add sp <$> l).

(** ** The bit set of a frame *)

Lemma insert_offsets_run offs b :
  memory_suffices -> bits_wf 32 b -> Forall offset_ok offs ->
  exists b', insert_offsets offs b = Ret tt b' /\ bits_wf 32 b' /\
    forall j, has 32 b' j = true <-> has 32 b j = true \/ exists o, o ∈ offs /\ j = o / 4.
Proof.
  intros Hmem Hwf Hoffs. revert b Hwf.
  induction Hoffs as [|o offs [Hu Ho] Hoffs IH]; intros b Hwf.
  { exists b. split; [done|]. split; [done|]. intros j. set_solver. }
  assert (in_u32 (o / 4)) as Hu4.
  { unfold in_u32 in *. split; [apply Z.div_pos; lia|]. apply Z.div_le_upper_bound; lia. }
  destruct (insert_run 32 ltac:(lia) (o / 4) b Hmem Hwf Hu4) as (b1 & Hrun & Hwf1 & Hh).
  destruct (IH b1 Hwf1) as (b2 & Hrun2 & Hwf2 & Hh2).
  exists b2. split; [|split; [done|]].
  - simpl. erewrite bind_run by (by apply assert_run, Z.eqb_eq).
    by erewrite bind_run by exact Hrun.
  - intros j. rewrite Hh2, Hh, orb_true_iff, Z.eqb_eq.
    setoid_rewrite elem_of_cons. naive_solver.
Qed.

Lemma frame_bits_run offs :
  memory_suffices -> Forall offset_ok offs ->
  exists bits, frame_bits offs = Some bits /\ bits_wf 32 bits /\
    forall j, has 32 bits j = true <-> exists o, o ∈ offs /\ j = o / 4.
Proof.
  intros Hmem Hoffs. destruct (insert_offsets_run offs default_set Hmem) as (b & Hrun & Hwf & Hh);
    [by apply default_wf|done|].
  exists b. unfold frame_bits. rewrite Hrun. split; [done|]. split; [done|].
  intros j. rewrite Hh. unfold has at 1. simpl. rewrite bit_at_nil by lia. naive_solver.
Qed.

(** ** The entries of the section *)

(** Code offset, frame size and words of the bit set. *)
Definition entry : Type := Z * Z * list Z.

Definition entry_data (e : entry) : list Z := e.1.2 :: zlen e.2 :: e.2.
Definition entries_data (es : list entry) : list Z := es ≫= entry_data.

Fixpoint pointers (start : Z) (es : list entry) : list Z :=
  match es with
  | [] => []
  | e :: es => start :: pointers (start + zlen (entry_data e)) es
  end.

(** An entry that records a safepoint. *)
Definition records (m : Safepoint) (e : entry) : Prop :=
  m.1 = e.1 /\ Forall (scalar_wf 32) e.2 /\ 2 + zlen e.2 <= map_words m /\
  forall j, bit_at 32 e.2 j = true <-> exists o, o ∈ m.2 /\ j = o / 4.

Definition nonempty (m : Safepoint) : Prop := m.2 <> [].
#[local] Instance nonempty_dec m : Decision (nonempty m).
Proof. unfold nonempty. apply _. Defined.

Definition extended (b : StackMapSection) (es : list entry) (last : Z) : StackMapSection :=
  {| pcs := pcs b ++ (U32_new <$> ((fun e => e.1.1) <$> es));
     pointers_to_stack_map := pointers_to_stack_map b ++
       (U32_new <$> pointers (zlen (stack_map_data b)) es);
     stack_map_data := stack_map_data b ++ (U32_new <$> entries_data es);
     last_offset := last |}.

Lemma stackmap_extended_nil b last :
  extended b [] last = {| pcs := pcs b; pointers_to_stack_map := pointers_to_stack_map b;
    stack_map_data := stack_map_data b; last_offset := last |}.
Proof. unfold extended, entries_data. simpl. by rewrite !app_nil_r. Qed.

Lemma stackmap_extended_app b e es l1 l2 :
  extended (extended b [e] l1) es l2 = extended b (e :: es) l2.
Proof.
  unfold extended, entries_data. simpl. rewrite !app_nil_r, <- !app_assoc. simpl.
  f_equal.
  - do 4 f_equal. rewrite zlen_app. f_equal. unfold zlen. simpl. by rewrite length_fmap.
  - by rewrite <- fmap_app.
Qed.

Lemma iter_scalars_len bits offs m :
  bits_wf 32 bits -> (forall j, has 32 bits j = true <-> exists o, o ∈ offs /\ j = o / 4) ->
  Forall offset_ok offs -> max_of offs = Some m ->
  zlen (iter_scalars 32 bits) <= 1 + m / 128.
Proof.
  intros [_ Hmax] Hh Hoffs Hm. unfold iter_scalars, BITS_PER_SCALAR.
  pose proof (max_of_spec offs) as Hspec. rewrite Hm in Hspec. destruct Hspec as [Hin Hle].
  rewrite Forall_forall in Hoffs. pose proof (Hoffs m Hin) as [[Hm0 _] _].
  pose proof (Z.div_pos m 128 Hm0 ltac:(lia)). unfold is_max in Hmax.
  destruct (max bits) as [x|]; [|unfold zlen; simpl; lia].
  destruct Hmax as (Hx & _). fold (has 32 bits x) in Hx. apply Hh in Hx as (o & Ho & ->).
  assert (0 <= o) by (apply Hoffs in Ho; apply Ho). apply Hle in Ho.
  unfold zlen. rewrite length_take, Z.div_div by lia.
  assert (o / (4 * 32) <= m / 128) by (apply Z.div_le_mono; lia). lia.
Qed.

Lemma stackmap_push_run pc fs offs b :
  memory_suffices -> 0 <= last_offset b <= pc -> pc <= u32_MAX -> in_u32 fs ->
  Forall offset_ok offs -> zlen (stack_map_data b) + map_words (pc, fs, offs) <= u32_MAX ->
  exists es, push pc fs offs b = Ret tt (extended b es pc) /\
    Forall2 records (filter nonempty [(pc, fs, offs)]) es.
Proof.
  intros Hmem Hpc Hpc' Hfs Hoffs Hsize. unfold push.
  erewrite bind_run by (apply unwrap_run, try_from_in; lia).
  erewrite bind_run by reflexivity.
  erewrite bind_run by (apply assert_run, Z.leb_le; lia).
  erewrite bind_run by reflexivity.
  destruct offs as [|o0 offs0] eqn:Heq.
  { exists []. rewrite filter_cons_False by (unfold nonempty; naive_solver).
    rewrite stackmap_extended_nil. split; [done|constructor]. }
  rewrite <- Heq in *. assert (offs <> []) as Hne by by subst.
  assert ((zlen offs =? 0) = false) as ->.
  { apply Z.eqb_neq. subst. rewrite zlen_cons. pose proof (zlen_nonneg offs0). lia. }
  erewrite bind_run by reflexivity. simpl.
  destruct (max_of offs) as [m|] eqn:Hm.
  2:{ pose proof (max_of_spec offs) as Hs. rewrite Hm in Hs. done. }
  assert (map_words (pc, fs, offs) = 3 + m / 128) as Hmw by (unfold map_words; simpl; by rewrite Hm).
  assert (0 <= m) as Hm0.
  { pose proof (max_of_spec offs) as Hs. rewrite Hm in Hs. destruct Hs as [Hin _].
    rewrite Forall_forall in Hoffs. apply Hoffs in Hin. apply Hin. }
  pose proof (Z.div_pos m 128 Hm0 ltac:(lia)). pose proof (zlen_nonneg (stack_map_data b)).
  erewrite bind_run by (apply unwrap_run, try_from_in; lia).
  destruct (frame_bits_run offs Hmem Hoffs) as (bits & Hbits & Hwf & Hh).
  erewrite bind_run by (apply unwrap_run; exact Hbits). cbv zeta.
  pose proof (iter_scalars_len bits offs m Hwf Hh Hoffs Hm) as Hlen.
  pose proof (zlen_nonneg (iter_scalars 32 bits)).
  exists [(pc, fs, iter_scalars 32 bits)]. split.
  - unfold put, extended, entries_data, entry_data. simpl. rewrite app_nil_r.
    rewrite Z.mod_small by (unfold u32_MAX in *; lia). done.
  - rewrite filter_cons_True by done. rewrite filter_nil. constructor; [|constructor].
    split; [done|]. split; [|split].
    + simpl. apply Forall_take, Hwf.
    + rewrite Hmw. transitivity (2 + (1 + m / 128)); [|lia].
      apply Z.add_le_mono_l. exact Hlen.
    + intros j. simpl. rewrite iter_scalars_bits by done. apply Hh.
Qed.

Lemma total_map_words_nonneg maps :
  (forall m, m ∈ maps -> Forall offset_ok m.2) -> 0 <= total map_words maps.
Proof.
  induction maps as [|m maps IH]; intros Hok; simpl; [done|].
  assert (0 <= map_words m).
  { unfold map_words. pose proof (max_of_spec m.2) as Hs.
    destruct (max_of m.2) as [o|]; [|done]. destruct Hs as [Hin _].
    assert (0 <= o) by (eapply Forall_forall in Hin; [|apply Hok; left]; apply Hin).
    pose proof (Z.div_pos o 128). lia. }
  specialize (IH ltac:(intros; apply Hok; by right)). lia.
Qed.

Lemma ordered_maps_offsets last maps m :
  ordered_maps last maps -> m ∈ maps -> Forall offset_ok m.2.
Proof.
  revert last. induction maps as [|[[pc fs] offs] maps IH]; intros last; [set_solver|].
  intros (_ & _ & Ho & Hr) [->|Hm]%elem_of_cons; [done|by eapply IH].
Qed.

Lemma records_size ms es :
  Forall2 records ms es -> zlen (entries_data es) <= total map_words ms.
Proof.
  induction 1 as [|m e ms es (_ & _ & Hl & _) _ IH]; [done|].
  unfold entries_data. rewrite bind_cons, zlen_app. unfold entry_data at 1.
  rewrite !zlen_cons. simpl. unfold entries_data in IH. lia.
Qed.

Lemma stackmap_push_all_run maps b :
  memory_suffices -> 0 <= last_offset b -> ordered_maps (last_offset b) maps ->
  zlen (stack_map_data b) + total map_words maps <= u32_MAX ->
  exists es last, push_all maps b = Ret tt (extended b es last) /\
    Forall2 records (filter nonempty maps) es.
Proof.
  intros Hmem. revert b. induction maps as [|[[pc fs] offs] maps IH]; intros b H0' Hord Hsize.
  { exists [], (last_offset b). rewrite stackmap_extended_nil. split; [by destruct b|constructor]. }
  destruct Hord as (Hpc & Hfs & Hoffs & Hord). simpl in Hsize.
  assert (0 <= total map_words maps) as Hnn.
  { apply total_map_words_nonneg. intros m Hm. by eapply ordered_maps_offsets. }
  destruct (stackmap_push_run pc fs offs b Hmem) as (es1 & Hrun & Hrec); [lia|lia|done|done|lia|].
  pose proof (records_size _ _ Hrec) as Hsz.
  assert (total map_words (filter nonempty [(pc, fs, offs)]) <= map_words (pc, fs, offs)) as Hle.
  { destruct (decide (nonempty (pc, fs, offs))) as [Hn|Hn].
    - rewrite filter_cons_True by done. rewrite filter_nil. simpl. lia.
    - rewrite filter_cons_False by done. rewrite filter_nil. simpl.
      unfold nonempty in Hn. simpl in Hn. destruct offs; [done|].
      exfalso. apply Hn. done. }
  destruct (IH (extended b es1 pc)) as (es2 & last & Hrun2 & Hrec2).
  - simpl. lia.
  - done.
  - simpl. rewrite zlen_app. unfold zlen at 2. rewrite length_fmap.
    unfold zlen in Hsz at 1. lia.
  - exists (es1 ++ es2), last. split.
    + simpl. erewrite bind_run by exact Hrun. rewrite Hrun2. f_equal.
      apply Forall2_length in Hrec.
      assert (length es1 <= 1)%nat as Hf by (rewrite <- Hrec; apply (length_filter nonempty)).
      destruct es1 as [|e1 [|]]; [|apply stackmap_extended_app|simpl in Hf; lia].
      by rewrite stackmap_extended_nil.
    + change ((pc, fs, offs) :: maps) with ([(pc, fs, offs)] ++ maps).
      rewrite filter_app. by apply Forall2_app.
Qed.

(** ** Reading an entry back *)

Lemma pointers_lookup start es i e :
  es !! i = Some e ->
  pointers start es !! i = Some (start + zlen (entries_data (take i es))).
Proof.
  revert start i. induction es as [|e' es IH]; intros start [|i] He; try done.
  - simpl. by rewrite Z.add_0_r.
  - simpl in He. change (pointers start (e' :: es) !! S i)
      with (pointers (start + zlen (entry_data e')) es !! i).
    rewrite (IH _ i) by done. f_equal. cbn [take]. unfold entries_data. rewrite bind_cons, zlen_app. lia.
Qed.

Lemma length_pointers start es : length (pointers start es) = length es.
Proof. revert start. induction es; intros start; simpl; auto. Qed.

Lemma entries_data_split es i e :
  es !! i = Some e ->
  entries_data es = entries_data (take i es) ++ entry_data e ++ entries_data (drop (S i) es).
Proof.
  intros He. rewrite <- (take_drop_middle es i e He) at 1.
  unfold entries_data. by rewrite bind_app, bind_cons.
Qed.

Definition parsed (es : list entry) : Parsed :=
  {| p_pcs := U32_new <$> ((fun e => e.1.1) <$> es);
     p_pointers_to_stack_map := U32_new <$> pointers 0 es;
     p_stack_map_data := U32_new <$> entries_data es |}.

(** The values of the entries fit their width. *)
Definition entry_ok (e : entry) : Prop :=
  in_u32 e.1.1 /\ in_u32 e.1.2 /\ Forall (scalar_wf 32) e.2.

Lemma scalar_u32 x : scalar_wf 32 x -> in_u32 x.
Proof. unfold scalar_wf, in_u32, u32_MAX. lia. Qed.

Lemma get_map_run es i e :
  zlen (entries_data es) <= u32_MAX -> es !! i = Some e -> entry_ok e ->
  get_map (parsed es) (Z.of_nat i) tt =
    Ret {| frame_size := e.1.2; data := U32_new <$> e.2 |} tt.
Proof.
  intros Hsz He (_ & Hfs & _). unfold get_map.
  pose proof (zlen_nonneg (entries_data (take i es))) as H0'.
  pose proof (entries_data_split es i e He) as Hsplit.
  assert (zlen (entries_data es) = zlen (entries_data (take i es)) + (2 + zlen e.2) +
            zlen (entries_data (drop (S i) es))) as Hlen.
  { rewrite Hsplit at 1. rewrite !zlen_app. unfold entry_data at 1. rewrite !zlen_cons. lia. }
  pose proof (zlen_nonneg (entries_data (drop (S i) es))). pose proof (zlen_nonneg e.2).
  erewrite bind_run.
  2:{ apply unwrap_run. simpl. rewrite zget_of_nat, list_lookup_fmap.
      by rewrite (pointers_lookup _ _ _ e). }
  rewrite U32_get_new by (unfold in_u32; lia). rewrite Z.add_0_l. cbn [p_stack_map_data parsed].
  assert (get_from (U32_new <$> entries_data es) (zlen (entries_data (take i es))) =
    Some (U32_new e.1.2 :: U32_new (zlen e.2) :: (U32_new <$> e.2) ++
          (U32_new <$> entries_data (drop (S i) es)))) as ->.
  { unfold get_from. rewrite (proj2 (Z.leb_le _ _)).
    - rewrite <- fmap_drop, Hsplit. unfold zlen at 1. rewrite Nat2Z.id, drop_app_length.
      by rewrite fmap_app.
    - unfold zlen at 2. rewrite length_fmap. fold (zlen (entries_data es)). lia. }
  do 3 (erewrite bind_run by reflexivity; cbv beta iota zeta).
  rewrite !U32_get_new by (unfold in_u32 in *; lia).
  unfold get_to. rewrite (proj2 (Z.leb_le _ _)).
  - erewrite bind_run by reflexivity. unfold ret. f_equal. f_equal.
    unfold zlen. rewrite Nat2Z.id, take_app_length'; [done|]. by rewrite length_fmap.
  - unfold zlen. rewrite length_app, !length_fmap. lia.
Qed.

Lemma mapM_fmap {A B} (f : A -> option B) (g : A -> B) l :
  (forall x, x ∈ l -> f x = Some (g x)) -> mapM f l = Some (g <$> l).
Proof.
  intros Hf. induction l as [|x l IH]; [done|]. rewrite fmap_cons. simpl.
  rewrite Hf by left. simpl. rewrite IH; [done|]. intros y Hy. apply Hf. by right.
Qed.

Lemma bit_positions_run k ws :
  0 <= k -> Forall (scalar_wf 32) ws ->
  (forall j, 0 <= j -> bit_at 32 ws j = true -> k * 32 + j <= u32_MAX) ->
  bit_positions k (U32_new <$> ws) = iter_words 32 k ws.
Proof.
  revert k. induction ws as [|x ws IH]; intros k Hk Hwf Hj; [done|].
  apply Forall_cons in Hwf as [Hx Hwf]. rewrite fmap_cons. simpl.
  rewrite U32_get_new by by apply scalar_u32.
  rewrite scalar_iter_run by done. simpl.
  assert (forall bit, bit ∈ ones_of 32 x -> 0 <= bit < 32 /\ k * 32 + bit <= u32_MAX) as Hb.
  { intros bit [Hb Ht]%elem_of_ones. split; [done|]. apply Hj; [lia|].
    rewrite bit_at_cons by lia. by rewrite (proj2 (Z.ltb_lt _ _)) by lia. }
  rewrite (mapM_fmap _ (fun i => k * 32 + i)).
  2:{ intros bit Hbit. destruct (Hb _ Hbit). unfold checked_mul.
      unfold u32_MAX in *. rewrite Z.mod_small by lia.
      rewrite (proj2 (Z.leb_le _ _)) by lia. simpl. apply checked_add_Some. lia. }
  rewrite (mapM_elem 32 k) by (intros bit Hbit; apply Hb in Hbit; lia). simpl.
  rewrite (IH (k + 1)); [done|lia|done|].
  intros j Hj0 Hbj. replace ((k + 1) * 32 + j) with (k * 32 + (32 + j)) by lia.
  apply Hj; [lia|]. rewrite bit_at_cons by lia. rewrite (proj2 (Z.ltb_ge _ _)) by lia.
  rewrite <- Hbj. f_equal. lia.
Qed.

Lemma offset_div4 o : offset_ok o -> o / 4 * 4 = o.
Proof. intros [_ Ho]. pose proof (Z_div_mod_eq_full o 4). lia. Qed.

(** The stack map of an entry describes the safepoint it records. *)
Lemma records_describes pc fs offs e :
  records (pc, fs, offs) e -> Forall offset_ok offs ->
  describes {| frame_size := e.1.2; data := U32_new <$> e.2 |} fs offs.
Proof.
  intros (He & Hwf & _ & Hbits) Hoffs. destruct e as [[pc' fs'] ws]. simplify_eq/=.
  split; [done|]. rewrite Forall_forall in Hoffs.
  assert (Hle : forall j, bit_at 32 ws j = true -> 0 <= j /\ j * 4 <= u32_MAX).
  { intros j (o & Ho & ->)%Hbits. apply Hoffs in Ho. pose proof (offset_div4 o Ho).
    destruct Ho as [[? ?] _]. split; [apply Z.div_pos; lia|lia]. }
  destruct (iter_words_run 32 ltac:(lia) 0 ws Hwf) as (items & Hit & Hs & Hin & _).
  assert (Hin' : forall j, j ∈ items <-> exists o, o ∈ offs /\ j = o / 4).
  { intros j. rewrite Hin, Z.mul_0_l, Z.sub_0_r, Hbits. split; [by intros [_ ?]|].
    intros Hx. split; [|done]. by apply Hbits, Hle in Hx as [? _]. }
  assert (offsets {| frame_size := fs'; data := U32_new <$> ws |} =
            Some ((fun j => j * 4) <$> items)) as Hoff.
  { unfold offsets. simpl. rewrite bit_positions_run; [|done|done|].
    - rewrite Hit. simpl. apply mapM_fmap. intros j Hj. unfold checked_mul.
      apply Hin', Hbits, Hle in Hj as [_ Hj]. by rewrite (proj2 (Z.leb_le _ _)).
    - intros j _ [? ?]%Hle. lia. }
  assert (forall x, x ∈ (fun j => j * 4) <$> items <-> x ∈ offs) as Hmem.
  { intros x. rewrite list_elem_of_fmap. setoid_rewrite Hin'. split.
    - intros (j & -> & o & Ho & ->). by rewrite offset_div4 by by apply Hoffs.
    - intros Hx. exists (x / 4). rewrite offset_div4 by by apply Hoffs. naive_solver. }
  exists ((fun j => j * 4) <$> items). split; [done|]. split; [|split; [done|]].
  - clear -Hs. induction Hs as [|a l _ IH Ha]; [constructor|].
    rewrite fmap_cons. constructor; [done|]. apply Forall_fmap.
    eapply Forall_impl; [done|]. simpl. intros. lia.
  - intros sp Hfs. unfold live_gc_refs. rewrite Hoff. simpl. apply mapM_fmap.
    intros x Hx. apply Hmem in Hx. rewrite Forall_forall in Hfs. specialize (Hfs x Hx).
    by rewrite (proj2 (Z.ltb_lt _ _)) by lia.
Qed.

Definition encoded (es : list entry) : list Z :=
  u32_to_le_bytes (zlen es) ++ bytes_of_slice (p_pcs (parsed es)) ++
  bytes_of_slice (p_pointers_to_stack_map (parsed es)) ++
  bytes_of_slice (p_stack_map_data (parsed es)).

Lemma stackmap_parse_encoded es : zlen es <= u32_MAX -> parse (encoded es) tt = Ret (parsed es) tt.
Proof.
  intros Hn. pose proof (zlen_nonneg es). unfold parse, encoded. rewrite read_U32_new.
  erewrite bind_run by reflexivity. cbv beta iota zeta.
  rewrite U32_get_new by (unfold in_u32; lia).
  rewrite try_from_in by (unfold u32_MAX, usize_MAX in *; lia).
  erewrite bind_run by reflexivity.
  rewrite slice_from_bytes_app by (unfold zlen; simpl; by rewrite !length_fmap).
  erewrite bind_run by reflexivity. cbv beta iota zeta.
  rewrite slice_from_bytes_app
    by (unfold zlen; simpl; by rewrite length_fmap, length_pointers).
  erewrite bind_run by reflexivity. cbv beta iota zeta.
  rewrite slice_from_all_bytes_all. by erewrite bind_run by reflexivity.
Qed.

(** The builder as a whole: the entries it records. *)
Lemma built_object_run maps o :
  memory_suffices -> maps_ok maps -> section_by_name o ELF_WASMTIME_STACK_MAP = None ->
  exists es, Forall2 records (filter nonempty maps) es /\
    zlen es <= u32_MAX /\ zlen (entries_data es) <= u32_MAX /\
    match es with
    | [] => built_object maps o = Some o
    | _ :: _ => exists o', built_object maps o = Some o' /\
                 section_bytes o' ELF_WASMTIME_STACK_MAP = Some (encoded es)
    end.
Proof.
  intros Hmem [Hord Hsz] Ho.
  destruct (stackmap_push_all_run maps StackMapSection_default Hmem) as (es & last & Hrun & Hrec);
    [done|done|done|].
  assert (zlen (entries_data es) <= u32_MAX) as Hdata.
  { pose proof (records_size _ _ Hrec) as Hr.
    assert (total map_words (filter nonempty maps) <= total map_words maps); [|lia].
    assert (forall m, m ∈ maps -> Forall offset_ok m.2) as Hoff
      by (intros m; by apply (ordered_maps_offsets 0)).
    clear -Hoff. induction maps as [|m maps IH]; [done|].
    specialize (IH ltac:(intros; apply Hoff; by right)).
    pose proof (total_map_words_nonneg [m] ltac:(intros ? ->%list_elem_of_singleton; apply Hoff;
      left)) as Hm. simpl in Hm.
    destruct (decide (nonempty m)).
    - rewrite filter_cons_True by done. simpl. lia.
    - rewrite filter_cons_False by done. simpl. lia. }
  assert (zlen es <= zlen (entries_data es)) as Hes.
  { clear. unfold entries_data. induction es as [|e es IH]; [done|].
    rewrite bind_cons, zlen_app, zlen_cons. unfold entry_data at 1.
    rewrite !zlen_cons. pose proof (zlen_nonneg e.2). lia. }
  exists es. split; [done|]. split; [lia|]. split; [done|].
  unfold built_object. rewrite Hrun. unfold append_to.
  destruct es as [|e es']; [done|].
  rewrite (proj2 (Z.eqb_neq _ _)).
  2:{ unfold zlen. simpl. lia. }
  erewrite bind_run by reflexivity.
  pose proof (added_section_bytes o (segment_name_data o) ELF_WASMTIME_STACK_MAP) as Hadd.
  destruct (add_section o _ _) as [id o'] eqn:Hid.
  assert (zlen (pcs (extended StackMapSection_default (e :: es') last)) = zlen (e :: es'))
    as Hlen by (unfold zlen; simpl; by rewrite !length_fmap).
  erewrite bind_run.
  2:{ apply unwrap_run, try_from_in. rewrite Hlen. pose proof (zlen_nonneg (e :: es')). lia. }
  eexists. split; [reflexivity|]. cbn [fst snd] in Hadd. rewrite Hadd by done.
  rewrite Hlen. cbn [concat]. by rewrite app_nil_r.
Qed.

Lemma records_nonempty maps es pc fs offs :
  Forall2 records (filter nonempty maps) es -> (pc, fs, offs) ∈ maps -> offs <> [] ->
  exists e, e ∈ es /\ records (pc, fs, offs) e.
Proof.
  intros Hrec Hin Hne.
  assert ((pc, fs, offs) ∈ filter nonempty maps) as Hf by by apply list_elem_of_filter.
  apply list_elem_of_lookup in Hf as [i Hi].
  destruct (Forall2_lookup_l _ _ _ _ _ Hrec Hi) as (e & He & Hr). exists e.
  split; [by eapply list_elem_of_lookup_2|done].
Qed.

Lemma records_sorted last maps es :
  ordered_maps last maps -> Forall2 records (filter nonempty maps) es ->
  Sorted Z.le ((fun e => e.1.1) <$> es) /\ forall e, e ∈ es -> last <= e.1.1.
Proof.
  revert last es. induction maps as [|[[pc fs] offs] maps IH]; intros last es Hord Hrec.
  { apply Forall2_nil_inv_l in Hrec as ->. split; [constructor|set_solver]. }
  destruct Hord as (Hpc & _ & _ & Hord).
  destruct (decide (nonempty (pc, fs, offs))) as [Hn|Hn].
  - rewrite filter_cons_True in Hrec by done.
    apply Forall2_cons_inv_l in Hrec as (e & es' & (He & _) & Hrec & ->).
    destruct (IH _ _ Hord Hrec) as [Hs Hle]. simpl in He. rewrite fmap_cons.
    split.
    + constructor; [done|]. destruct es' as [|e' es']; constructor. simpl.
      rewrite <- He. simpl. apply Hle. left.
    + intros e' [->|He']%elem_of_cons; [rewrite <- He; simpl; lia|].
      apply Hle in He'. lia.
  - rewrite filter_cons_False in Hrec by done. destruct (IH _ _ Hord Hrec) as [Hs Hle].
    split; [done|]. intros e He. apply Hle in He. lia.
Qed.

Lemma ordered_maps_in last maps m :
  ordered_maps last maps -> 0 <= last -> m ∈ maps -> in_u32 m.1.1 /\ in_u32 m.1.2.
Proof.
  revert last. induction maps as [|[[pc fs] offs] maps IH]; intros last; [set_solver|].
  intros (Hpc & Hfs & _ & Hr) H0' [->|Hm]%elem_of_cons; [unfold in_u32 in *; simpl; lia|].
  eapply IH; [done|lia|done].
Qed.

Lemma stackmap_lookup_run maps es pc :
  ordered_maps 0 maps -> Forall2 records (filter nonempty maps) es ->
  zlen es <= u32_MAX -> zlen (entries_data es) <= u32_MAX ->
  match lookup pc (encoded es) tt with
  | Ret sm _ => exists fs offs, (pc, fs, offs) ∈ maps /\ offs <> [] /\ describes sm fs offs
  | Fail _ _ => forall fs offs, (pc, fs, offs) ∈ maps -> offs = []
  | Panic => False
  end.
Proof.
  intros Hord Hrec Hes Hdata. destruct (records_sorted 0 maps es Hord Hrec) as [Hsort _].
  assert (Hin : forall i e, es !! i = Some e -> exists m, m ∈ maps /\ nonempty m /\
            records m e /\ entry_ok e).
  { intros i e He. destruct (Forall2_lookup_r _ _ _ _ _ Hrec He) as (m & Hm & Hr).
    apply list_elem_of_lookup_2, list_elem_of_filter in Hm as [Hn Hm].
    exists m. split_and!; try done. pose proof (ordered_maps_in 0 maps m Hord) as Hu.
    destruct Hr as (He' & Hwf & _). unfold entry_ok. rewrite <- He'. split_and!;
      [apply Hu; [lia|done]..|done]. }
  unfold lookup. erewrite bind_run by by apply stackmap_parse_encoded.
  unfold lookup_pc. cbn [p_pcs parsed]. rewrite values_new.
  2:{ apply Forall_fmap, Forall_forall. intros e [i He]%list_elem_of_lookup.
      destruct (Hin i e He) as (_ & _ & _ & _ & Hu & _). done. }
  pose proof (binary_search_ok _ pc (ascending_Sorted _ Hsort)) as Hb.
  destruct (search_ok _) as [i|].
  - erewrite bind_run by reflexivity. apply zget_Some in Hb as [Hi Hb].
    apply list_lookup_fmap_Some in Hb as (e & -> & He).
    rewrite <- (Z2Nat.id i) by done.
    destruct (Hin _ e He) as ([[pc fs] offs] & Hm & Hn & Hr & Heok).
    rewrite (get_map_run es _ e) by done. exists fs, offs.
    assert (e.1.1 = pc) as -> by (destruct Hr as (Hr & _); by rewrite <- Hr).
    split_and!; try done. eapply records_describes; [done|].
    by apply (ordered_maps_offsets _ _ _ Hord Hm).
  - simpl. intros fs offs Hm. destruct (decide (offs = [])) as [|Hne]; [done|].
    destruct (records_nonempty _ _ _ _ _ Hrec Hm Hne) as (e & He & Hr & _).
    exfalso. apply Hb. apply list_elem_of_fmap. exists e. by rewrite <- Hr.
Qed.

(** C37. For safepoints in order of their code offsets, with 4-aligned
    reference offsets, building the stack map section never panics; it is left
    out when no frame holds a reference, and otherwise looking a code offset
    up in its bytes returns a stack map exactly when a safepoint with live
    references was recorded there.  The map has the frame size of such a
    safepoint and lists exactly its reference offsets, in increasing order and
    once each; when they are inside the frame the addresses of the live
    references are computed without a failed assertion.  No lookup panics. *)
Theorem stack_map_lookup_correct maps o :
  memory_suffices -> maps_ok maps -> section_by_name o ELF_WASMTIME_STACK_MAP = None ->
  exists o', built_object maps o = Some o' /\
    ((forall m, m ∈ maps -> m.2 = []) /\ o' = o \/
     exists bytes, section_bytes o' ELF_WASMTIME_STACK_MAP = Some bytes /\
       forall pc, match lookup pc bytes tt with
                  | Ret sm _ => exists fs offs, (pc, fs, offs) ∈ maps /\ offs <> [] /\
                                  describes sm fs offs
                  | Fail _ _ => forall fs offs, (pc, fs, offs) ∈ maps -> offs = []
                  | Panic => False
                  end).
Proof.
  intros Hmem Hok Ho.
  destruct (built_object_run maps o Hmem Hok Ho) as (es & Hrec & Hes & Hdata & Hbuilt).
  destruct es as [|e0 es0].
  { exists o. split; [done|]. left. split; [|done]. intros m Hm.
    destruct (decide (m.2 = [])) as [|Hne]; [done|]. destruct m as [[pc fs] offs].
    destruct (records_nonempty _ _ _ _ _ Hrec Hm Hne) as (e & He & _). set_solver. }
  destruct Hbuilt as (o' & Ho' & Hbytes). exists o'. split; [done|]. right.
  exists (encoded (e0 :: es0)). split; [done|]. intros pc.
  by apply (stackmap_lookup_run maps (e0 :: es0) pc (proj1 Hok)).
Qed.
End stack_maps.

(** A safepoint without references between two with some. *)
#[local, refine] Instance unlimited_memory : Allocator :=
  {| grow := fun _ required => Some required; shrink := fun _ _ => true |}.
Proof. intros cap required cap' [= <-]. lia. Defined.

Definition example_maps : list Safepoint :=
  [(4, 200, [180; 0; 4; 20]); (40, 16, []); (64, 24, [8])].

Lemma stack_map_lookup_correct_witness :
  exists o' bytes sm, built_object example_maps empty_object = Some o' /\
    section_bytes o' ELF_WASMTIME_STACK_MAP = Some bytes /\
    lookup 4 bytes tt = Ret sm tt /\ offsets sm = Some [0; 4; 20; 180] /\
    lookup 40 bytes tt = Fail tt tt.
Proof.
  destruct (stack_map_lookup_correct example_maps empty_object) as (o' & Ho' & Hcase).
  - split; [intros; eexists; reflexivity|reflexivity].
  - split; [|vm_compute; discriminate].
    repeat first [split|constructor]; vm_compute; discriminate.
  - reflexivity.
  - destruct Hcase as [[Hnone _]|(bytes & Hb & Hlook)].
    + specialize (Hnone (64, 24, [8])). discriminate Hnone.
      right. right. left.
    + clear Hlook. exists o', bytes.
      exists {| frame_size := 200; data := U32_new <$> [35; 8192] |}.
      split; [exact Ho'|]. split; [exact Hb|].
      vm_compute in Ho'. injection Ho' as <-. vm_compute in Hb. injection Hb as <-.
      split; [reflexivity|]. split; reflexivity.
Defined.
