(* ===== verification/ExceptionTable.v ===== *)
(** * The exception table section

    [wasmtime_unwinder::exception_table]: the builder that turns the call-site
    metadata of compiled functions into six parallel arrays, its serialization,
    and the lookups the unwinder makes when an exception is thrown. *)

From S2P Require Import Sections Prelude.

(** ** Call sites, as the code generator reports them *)

Inductive ExceptionContextLoc := SPOffset (offset : Z) | GPR (reg : Z).

Inductive FinalizedMachExceptionHandler :=
| Tag (tag offset : Z)
| Default (offset : Z)
| Context (loc : ExceptionContextLoc).

Record FinalizedMachCallSite := {
  ret_addr : Z;
  frame_offset : option Z;
  exception_handlers : list FinalizedMachExceptionHandler;
}.

(** ** Handlers, as the unwinder reads them *)

Record ExceptionHandler := {
  tag : option Z;
  context_sp_offset : option Z;
  handler_offset : Z;
}.

Definition option_from_u32 (value : Z) : option Z :=
  if value =? u32_MAX then None else Some value.

(** The errors of [parse]. *)
Inductive ParseError :=
| CallsiteCountPrefix | HandlerCountPrefix | CountOverflow
| CallsitesSlice | FrameOffsetsSlice | RangesSlice | TagsSlice | ContextsSlice
| HandlersSlice | UnexpectedData.

(** [&l[a..b]]; [None] is the panic of a range out of bounds. *)
Definition slice {A} (l : list A) (a b : Z) : option (list A) :=
  if (a <=? b) && (b <=? zlen l)
  then Some (take (Z.to_nat (b - a)) (drop (Z.to_nat a) l)) else None.

Section exception_table.
Context `{ObjectCrate}.

(** ** The builder *)

Record ExceptionTableBuilder := {
  callsites : list U32;
  frame_offsets : list U32;
  ranges : list U32;
  tags : list U32;
  contexts : list U32;
  handlers : list U32;
  last_start_offset : Z;
}.

Definition ExceptionTableBuilder_default : ExceptionTableBuilder :=
  {| callsites := []; frame_offsets := []; ranges := []; tags := []; contexts := [];
     handlers := []; last_start_offset := 0 |}.

(** One handler item: parallel entries in [tags], [contexts] and [handlers]. *)
Definition push_handler (t context h : Z) : M ExceptionTableBuilder Empty_set unit :=
  modify (fun self =>
    {| callsites := callsites self; frame_offsets := frame_offsets self;
       ranges := ranges self;
       tags := tags self ++ [U32_new t];
       contexts := contexts self ++ [U32_new context];
       handlers := handlers self ++ [U32_new h];
       last_start_offset := last_start_offset self |}).

(** The loop over the handlers of a call site, with its [context]. *)
Fixpoint add_handlers (start_offset context : Z)
  (items : list FinalizedMachExceptionHandler) : M ExceptionTableBuilder Empty_set unit :=
  match items with
  | [] => ret tt
  | Tag tag offset :: items =>
      h <- unwrap (checked_add u32_MAX offset start_offset) ;;
      push_handler tag context h ;;;
      add_handlers start_offset context items
  | Default offset :: items =>
      h <- unwrap (checked_add u32_MAX offset start_offset) ;;
      push_handler u32_MAX context h ;;;
      add_handlers start_offset context items
  | Context (SPOffset offset) :: items => add_handlers start_offset offset items
  | Context (GPR _) :: _ => panic
  end.

(** The body of the loop over call sites. *)
Definition add_call_site (start_offset : Z) (call_site : FinalizedMachCallSite)
  : M ExceptionTableBuilder Empty_set unit :=
  ret_addr <- unwrap (checked_add u32_MAX (ret_addr call_site) start_offset) ;;
  self <- get ;;
  start_idx <- unwrap (try_from u32_MAX (zlen (tags self))) ;;
  add_handlers start_offset u32_MAX (exception_handlers call_site) ;;;
  self <- get ;;
  end_idx <- unwrap (try_from u32_MAX (zlen (tags self))) ;;
  if start_idx <? end_idx then
    put {| callsites := callsites self ++ [U32_new ret_addr];
           frame_offsets := frame_offsets self ++
             [U32_new (default u32_MAX (frame_offset call_site))];
           ranges := ranges self ++ [U32_new end_idx];
           tags := tags self; contexts := contexts self; handlers := handlers self;
           last_start_offset := last_start_offset self |}
  else ret tt.

Fixpoint add_call_sites (start_offset : Z) (call_sites : list FinalizedMachCallSite)
  : M ExceptionTableBuilder Empty_set unit :=
  match call_sites with
  | [] => ret tt
  | call_site :: call_sites =>
      add_call_site start_offset call_site ;;; add_call_sites start_offset call_sites
  end.

Definition add_func (start_offset : Z) (call_sites : list FinalizedMachCallSite)
  : M ExceptionTableBuilder Empty_set unit :=
  self <- get ;;
  rust_assert (last_start_offset self <=? start_offset) ;;;
  put {| callsites := callsites self; frame_offsets := frame_offsets self;
         ranges := ranges self; tags := tags self; contexts := contexts self;
         handlers := handlers self; last_start_offset := start_offset |} ;;;
  add_call_sites start_offset call_sites.

(** The slices [serialize] hands to its closure, in order ([None] is the panic
    of a count over 32 bits). *)
Definition serialize (self : ExceptionTableBuilder) : option (list (list Z)) :=
  callsite_count ← try_from u32_MAX (zlen (callsites self));
  handler_count ← try_from u32_MAX (zlen (handlers self));
  Some [u32_to_le_bytes callsite_count; u32_to_le_bytes handler_count;
        bytes_of_slice (callsites self); bytes_of_slice (frame_offsets self);
        bytes_of_slice (ranges self); bytes_of_slice (tags self);
        bytes_of_slice (contexts self); bytes_of_slice (handlers self)].

Definition to_vec (self : ExceptionTableBuilder) : option (list Z) :=
  @concat Z <$> serialize self.

(** ** The table *)

Record ExceptionTable := {
  t_callsites : list U32;
  t_ranges : list U32;
  t_frame_offsets : list U32;
  t_tags : list U32;
  t_contexts : list U32;
  t_handlers : list U32;
}.

Definition parse (data : list Z) : M unit ParseError ExceptionTable :=
  r <- ok_or (read_U32 data) CallsiteCountPrefix ;; let '(callsite_count, data) := r in
  callsite_count <- ok_or (try_from usize_MAX (U32_get callsite_count)) CountOverflow ;;
  r <- ok_or (read_U32 data) HandlerCountPrefix ;; let '(handler_count, data) := r in
  handler_count <- ok_or (try_from usize_MAX (U32_get handler_count)) CountOverflow ;;
  r <- ok_or (slice_from_bytes data callsite_count) CallsitesSlice ;;
  let '(callsites, data) := r in
  r <- ok_or (slice_from_bytes data callsite_count) FrameOffsetsSlice ;;
  let '(frame_offsets, data) := r in
  r <- ok_or (slice_from_bytes data callsite_count) RangesSlice ;;
  let '(ranges, data) := r in
  r <- ok_or (slice_from_bytes data handler_count) TagsSlice ;;
  let '(tags, data) := r in
  r <- ok_or (slice_from_bytes data handler_count) ContextsSlice ;;
  let '(contexts, data) := r in
  r <- ok_or (slice_from_bytes data handler_count) HandlersSlice ;;
  let '(handlers, data) := r in
  if negb (zlen data =? 0) then fail UnexpectedData
  else ret {| t_callsites := callsites; t_ranges := ranges; t_frame_offsets := frame_offsets;
              t_tags := tags; t_contexts := contexts; t_handlers := handlers |}.

(** The readers index and slice the arrays: [None] is a panic. *)
Definition tags_contexts_handlers_for_callsite (self : ExceptionTable) (idx : Z)
  : option (list U32 * list U32 * list U32) :=
  end_idx ← U32_get <$> zget (t_ranges self) idx;
  start_idx ← (if 0 <? idx then U32_get <$> zget (t_ranges self) (idx - 1) else Some 0);
  start_idx ← try_from usize_MAX start_idx;
  end_idx ← try_from usize_MAX end_idx;
  tags ← slice (t_tags self) start_idx end_idx;
  contexts ← slice (t_contexts self) start_idx end_idx;
  handlers ← slice (t_handlers self) start_idx end_idx;
  Some (tags, contexts, handlers).

Definition handlers_for_callsite (self : ExceptionTable) (idx : Z)
  : option (list ExceptionHandler) :=
  r ← tags_contexts_handlers_for_callsite self idx;
  let '(tags, contexts, handlers) := r in
  Some ((fun p : U32 * U32 * U32 => let '(tag, context, handler) := p in
           {| tag := option_from_u32 (U32_get tag);
              context_sp_offset := option_from_u32 (U32_get context);
              handler_offset := U32_get handler |})
        <$> zip (zip tags contexts) handlers).

Definition lookup_pc (self : ExceptionTable) (pc : Z)
  : option (option Z * list ExceptionHandler) :=
  match search_ok (binary_search (values (t_callsites self)) pc) with
  | None => Some (None, [])
  | Some idx =>
      offset ← zget (t_frame_offsets self) idx;
      items ← handlers_for_callsite self idx;
      Some (option_from_u32 (U32_get offset), items)
  end.

(** The outer option is a panic, the inner the result. *)
Definition lookup_pc_tag (self : ExceptionTable) (pc tag : Z) : option (option (Z * Z)) :=
  match search_ok (binary_search (values (t_callsites self)) pc) with
  | None => Some None
  | Some callsite_idx =>
      offset ← zget (t_frame_offsets self) callsite_idx;
      let frame_offset := default 0 (option_from_u32 (U32_get offset)) in
      r ← tags_contexts_handlers_for_callsite self callsite_idx;
      let '(tags, _, handlers) := r in
      match search_ok (binary_search (values tags) tag) with
      | Some handler_idx =>
          h ← zget handlers handler_idx; Some (Some (frame_offset, U32_get h))
      | None =>
          if bool_decide (U32_get <$> last tags = Some u32_MAX)
          then h ← last handlers; Some (Some (frame_offset, U32_get h))
          else Some None
      end
  end.

Fixpoint iter_from (self : ExceptionTable) (i : Z) (pcs : list U32)
  : option (list (Z * option Z * list ExceptionHandler)) :=
  match pcs with
  | [] => Some []
  | pc :: pcs =>
      offset ← zget (t_frame_offsets self) i;
      items ← handlers_for_callsite self i;
      rest ← iter_from self (i + 1) pcs;
      Some ((U32_get pc, option_from_u32 (U32_get offset), items) :: rest)
  end.
Definition into_iter (self : ExceptionTable)
  : option (list (Z * option Z * list ExceptionHandler)) :=
  iter_from self 0 (t_callsites self).

(** ** What is recorded

    The handlers of a call site, with the context in force at each, and the
    call sites of the functions of a compilation that have handlers. *)

Definition Func : Type := Z * list FinalizedMachCallSite.
#[local] Abbreviation site := (Z * option Z * list ExceptionHandler)%type.

Fixpoint expand (start : Z) (context : option Z) (items : list FinalizedMachExceptionHandler)
  : list ExceptionHandler :=
  match items with
  | [] => []
  | Tag t o :: items =>
      {| tag := Some t; context_sp_offset := context; handler_offset := o + start |}
        :: expand start context items
  | Default o :: items =>
      {| tag := None; context_sp_offset := context; handler_offset := o + start |}
        :: expand start context items
  | Context (SPOffset c) :: items => expand start (Some c) items
  | Context (GPR _) :: items => expand start context items
  end.

Definition site_of (start : Z) (cs : FinalizedMachCallSite) : list site :=
  match expand start None (exception_handlers cs) with
  | [] => []
  | hs => [(ret_addr cs + start, frame_offset cs, hs)]
  end.

Definition sites (funcs : list Func) : list site :=
  funcs ≫= fun f => f.2 ≫= site_of f.1.

(** *** Well-formed input

    Values fit 32 bits, [u32::MAX] being taken for "none"; contexts are on the
    stack; functions are in order. *)

Definition below_max (z : Z) : Prop := 0 <= z < u32_MAX.

Definition item_ok (start : Z) (i : FinalizedMachExceptionHandler) : Prop :=
  match i with
  | Tag t o => below_max t /\ 0 <= o /\ o + start <= u32_MAX
  | Default o => 0 <= o /\ o + start <= u32_MAX
  | Context (SPOffset c) => below_max c
  | Context (GPR _) => False
  end.

Definition call_site_ok (start : Z) (cs : FinalizedMachCallSite) : Prop :=
  0 <= ret_addr cs /\ ret_addr cs + start <= u32_MAX /\
  (forall f, frame_offset cs = Some f -> below_max f) /\
  Forall (item_ok start) (exception_handlers cs).

Fixpoint ordered_funcs (last : Z) (funcs : list Func) : Prop :=
  match funcs with
  | [] => True
  | (start, css) :: funcs =>
      last <= start /\ Forall (call_site_ok start) css /\ ordered_funcs start funcs
  end.

Definition all_handlers (ss : list site) : list ExceptionHandler := ss ≫= snd.

Definition funcs_ok (funcs : list Func) : Prop :=
  ordered_funcs 0 funcs /\ zlen (all_handlers (sites funcs)) <= u32_MAX /\
  Sorted Z.le ((fun s : site => s.1.1) <$> sites funcs).

(** *** The arrays of a list of sites *)

Definition to_u32 (o : option Z) : Z := default u32_MAX o.

Fixpoint ends (start : Z) (ss : list site) : list Z :=
  match ss with
  | [] => []
  | s :: ss => (start + zlen s.2) :: ends (start + zlen s.2) ss
  end.

Definition tag_words (hs : list ExceptionHandler) : list U32 :=
  (fun h => U32_new (to_u32 (tag h))) <$> hs.
Definition context_words (hs : list ExceptionHandler) : list U32 :=
  (fun h => U32_new (to_u32 (context_sp_offset h))) <$> hs.
Definition handler_words (hs : list ExceptionHandler) : list U32 :=
  (fun h => U32_new (handler_offset h)) <$> hs.

Implicit Types (b : ExceptionTableBuilder) (ss : list site) (hs : list ExceptionHandler).

(** The builder after more handlers of the current call site. *)
Definition with_handlers b hs : ExceptionTableBuilder :=
  {| callsites := callsites b; frame_offsets := frame_offsets b; ranges := ranges b;
     tags := tags b ++ tag_words hs; contexts := contexts b ++ context_words hs;
     handlers := handlers b ++ handler_words hs;
     last_start_offset := last_start_offset b |}.

(** The builder after more call sites. *)
Definition extended b ss (last : Z) : ExceptionTableBuilder :=
  {| callsites := callsites b ++ ((fun s : site => U32_new s.1.1) <$> ss);
     frame_offsets := frame_offsets b ++ ((fun s : site => U32_new (to_u32 s.1.2)) <$> ss);
     ranges := ranges b ++ (U32_new <$> ends (zlen (tags b)) ss);
     tags := tags b ++ tag_words (all_handlers ss);
     contexts := contexts b ++ context_words (all_handlers ss);
     handlers := handlers b ++ handler_words (all_handlers ss);
     last_start_offset := last |}.

Lemma with_handlers_nil b : with_handlers b [] = b.
Proof. unfold with_handlers. simpl. rewrite !app_nil_r. by destruct b. Qed.

Lemma with_handlers_cons b h hs :
  with_handlers (with_handlers b [h]) hs = with_handlers b (h :: hs).
Proof. unfold with_handlers. simpl. by rewrite <- !app_assoc. Qed.

Lemma exc_extended_nil b last :
  extended b [] last =
    {| callsites := callsites b; frame_offsets := frame_offsets b; ranges := ranges b;
       tags := tags b; contexts := contexts b; handlers := handlers b;
       last_start_offset := last |}.
Proof. unfold extended. simpl. by rewrite !app_nil_r. Qed.

Lemma ends_app start ss1 ss2 :
  ends start (ss1 ++ ss2) = ends start ss1 ++ ends (start + zlen (all_handlers ss1)) ss2.
Proof.
  revert start. induction ss1 as [|s ss1 IH]; intros start; simpl.
  - by rewrite Z.add_0_r.
  - rewrite IH. do 3 f_equal. unfold all_handlers. rewrite zlen_app. lia.
Qed.

Lemma exc_extended_app b ss1 ss2 l1 l2 :
  extended (extended b ss1 l1) ss2 l2 = extended b (ss1 ++ ss2) l2.
Proof.
  unfold extended, tag_words, context_words, handler_words, all_handlers. simpl.
  rewrite ends_app, bind_app, !fmap_app, !app_assoc. do 4 f_equal. f_equal.
  rewrite zlen_app. f_equal. unfold zlen. by rewrite length_fmap.
Qed.

Lemma add_handlers_run start c items b :
  Forall (item_ok start) items -> (forall x, c = Some x -> below_max x) ->
  add_handlers start (to_u32 c) items b = Ret tt (with_handlers b (expand start c items)).
Proof.
  intros Hok. revert c b. induction Hok as [|i items Hi Hok IH]; intros c b Hc.
  { by rewrite with_handlers_nil. }
  destruct i as [t o|o|[x|r]]; simpl in Hi; [| |by apply (IH (Some x)); naive_solver|done];
    cbn [add_handlers];
    (erewrite bind_run by (apply unwrap_run, checked_add_Some; split; [reflexivity|lia]));
    (erewrite bind_run by reflexivity); rewrite IH by done; cbn [expand];
    rewrite <- with_handlers_cons; done.
Qed.

Lemma zlen_tag_words hs : zlen (tag_words hs) = zlen hs.
Proof. unfold zlen, tag_words. by rewrite length_fmap. Qed.

Lemma add_call_site_run start cs b :
  call_site_ok start cs ->
  zlen (tags b) + zlen (all_handlers (site_of start cs)) <= u32_MAX ->
  add_call_site start cs b = Ret tt (extended b (site_of start cs) (last_start_offset b)).
Proof.
  intros (H0 & Hr & Hf & Hitems) Hsz. unfold add_call_site.
  pose proof (zlen_nonneg (tags b)).
  pose proof (zlen_nonneg (all_handlers (site_of start cs))).
  erewrite bind_run by (apply unwrap_run, checked_add_Some; split; [reflexivity|lia]).
  erewrite bind_run by reflexivity.
  erewrite bind_run by (apply unwrap_run, try_from_in; lia).
  erewrite bind_run by (apply (add_handlers_run _ None); [done|naive_solver]).
  erewrite bind_run by reflexivity. cbn [tags with_handlers].
  assert (all_handlers (site_of start cs) = expand start None (exception_handlers cs)) as Hall.
  { unfold site_of, all_handlers. destruct (expand _ _ _) eqn:He; [done|]. simpl.
    by rewrite app_nil_r. }
  rewrite Hall in Hsz. rewrite zlen_app, zlen_tag_words.
  erewrite bind_run by (apply unwrap_run, try_from_in; rewrite <- Hall in *; lia).
  unfold site_of. destruct (expand start None (exception_handlers cs)) as [|h hs] eqn:He.
  - rewrite (proj2 (Z.ltb_ge _ _)) by (unfold zlen; simpl; lia).
    rewrite with_handlers_nil, exc_extended_nil. by destruct b.
  - rewrite (proj2 (Z.ltb_lt _ _)).
    2:{ rewrite zlen_cons. pose proof (zlen_nonneg hs). lia. }
    unfold put, with_handlers, extended, all_handlers. cbn. by rewrite app_nil_r.
Qed.

Lemma add_call_sites_run start css b :
  Forall (call_site_ok start) css ->
  zlen (tags b) + zlen (all_handlers (css ≫= site_of start)) <= u32_MAX ->
  add_call_sites start css b =
    Ret tt (extended b (css ≫= site_of start) (last_start_offset b)).
Proof.
  intros Hok. revert b. induction Hok as [|cs css Hcs Hok IH]; intros b Hsz.
  { rewrite exc_extended_nil. by destruct b. }
  rewrite bind_cons in Hsz |- *. unfold all_handlers in Hsz.
  rewrite bind_app, zlen_app in Hsz. fold (all_handlers (site_of start cs)) in Hsz.
  fold (all_handlers (css ≫= site_of start)) in Hsz.
  pose proof (zlen_nonneg (all_handlers (css ≫= site_of start))).
  cbn [add_call_sites]. erewrite bind_run by (apply add_call_site_run; [done|lia]).
  rewrite IH.
  - by rewrite exc_extended_app.
  - cbn [tags extended]. rewrite zlen_app, zlen_tag_words. lia.
Qed.

Fixpoint add_funcs (funcs : list Func) : M ExceptionTableBuilder Empty_set unit :=
  match funcs with
  | [] => ret tt
  | (start, css) :: funcs => add_func start css ;;; add_funcs funcs
  end.

Lemma add_funcs_run funcs b :
  ordered_funcs (last_start_offset b) funcs ->
  zlen (tags b) + zlen (all_handlers (sites funcs)) <= u32_MAX ->
  exists last, add_funcs funcs b = Ret tt (extended b (sites funcs) last).
Proof.
  revert b. induction funcs as [|[start css] funcs IH]; intros b Hord Hsz.
  { exists (last_start_offset b). rewrite exc_extended_nil. by destruct b. }
  destruct Hord as (Hs & Hok & Hord).
  change (sites ((start, css) :: funcs)) with ((css ≫= site_of start) ++ sites funcs) in *.
  unfold all_handlers in Hsz. rewrite bind_app, zlen_app in Hsz.
  fold (all_handlers (css ≫= site_of start)) (all_handlers (sites funcs)) in Hsz.
  pose proof (zlen_nonneg (all_handlers (sites funcs))).
  set (b1 := extended b [] start).
  destruct (IH (extended b1 (css ≫= site_of start) start)) as [last Hlast].
  - done.
  - cbn [tags extended b1]. rewrite !zlen_app, !zlen_tag_words.
    change (zlen (all_handlers [])) with 0. lia.
  - exists last. cbn [add_funcs]. unfold add_func at 1. unfold bind at 1.
    erewrite bind_run by reflexivity.
    erewrite bind_run by (by apply assert_run, Z.leb_le).
    erewrite bind_run by reflexivity. rewrite <- exc_extended_nil. fold b1.
    rewrite add_call_sites_run; [|done|].
    + rewrite exc_extended_app in Hlast. unfold b1 in Hlast |- *.
      rewrite exc_extended_app in Hlast |- *. simpl in Hlast |- *.
      cbn [last_start_offset extended]. by rewrite Hlast, exc_extended_app.
    + cbn [tags extended b1]. rewrite zlen_app, zlen_tag_words.
      change (zlen (all_handlers [])) with 0. lia.
Qed.

(** ** Reading the table back *)

Definition table ss : ExceptionTable :=
  {| t_callsites := (fun s : site => U32_new s.1.1) <$> ss;
     t_ranges := U32_new <$> ends 0 ss;
     t_frame_offsets := (fun s : site => U32_new (to_u32 s.1.2)) <$> ss;
     t_tags := tag_words (all_handlers ss);
     t_contexts := context_words (all_handlers ss);
     t_handlers := handler_words (all_handlers ss) |}.

Definition encoded ss : list Z :=
  u32_to_le_bytes (zlen ss) ++ u32_to_le_bytes (zlen (all_handlers ss)) ++
  bytes_of_slice (t_callsites (table ss)) ++ bytes_of_slice (t_frame_offsets (table ss)) ++
  bytes_of_slice (t_ranges (table ss)) ++ bytes_of_slice (t_tags (table ss)) ++
  bytes_of_slice (t_contexts (table ss)) ++ bytes_of_slice (t_handlers (table ss)).

Lemma length_ends start ss : length (ends start ss) = length ss.
Proof. revert start. induction ss; intros start; simpl; auto. Qed.

Lemma exc_parse_encoded ss :
  zlen ss <= u32_MAX -> zlen (all_handlers ss) <= u32_MAX ->
  parse (encoded ss) tt = Ret (table ss) tt.
Proof.
  intros Hn Hh. pose proof (zlen_nonneg ss). pose proof (zlen_nonneg (all_handlers ss)).
  unfold parse, encoded. rewrite read_U32_new.
  erewrite bind_run by reflexivity. cbv beta iota zeta.
  rewrite U32_get_new, try_from_in by (unfold in_u32, u32_MAX, usize_MAX in *; lia).
  erewrite bind_run by reflexivity. rewrite read_U32_new.
  erewrite bind_run by reflexivity. cbv beta iota zeta.
  rewrite U32_get_new, try_from_in by (unfold in_u32, u32_MAX, usize_MAX in *; lia).
  erewrite bind_run by reflexivity.
  do 5 (rewrite slice_from_bytes_app
    by (unfold zlen, table, tag_words, context_words; cbn;
        by rewrite !length_fmap, ?length_ends);
    erewrite bind_run by reflexivity; cbv beta iota zeta).
  rewrite slice_from_bytes_all
    by (unfold zlen, table, handler_words; cbn; by rewrite !length_fmap).
  by erewrite bind_run by reflexivity.
Qed.

Definition built_table (funcs : list Func) : option (list Z) :=
  match add_funcs funcs ExceptionTableBuilder_default with
  | Ret _ b => to_vec b
  | _ => None
  end.

Lemma sites_handlers ss : Forall (fun s : site => s.2 <> []) ss ->
  zlen ss <= zlen (all_handlers ss).
Proof.
  induction 1 as [|s ss Hs _ IH]; [done|]. unfold all_handlers in *.
  rewrite bind_cons, zlen_app, zlen_cons. destruct s.2 as [|h hs] eqn:He; [done|].
  rewrite zlen_cons. pose proof (zlen_nonneg hs). lia.
Qed.

Lemma sites_nonempty funcs : Forall (fun s : site => s.2 <> []) (sites funcs).
Proof.
  apply Forall_forall. intros s (f & Hs & _)%list_elem_of_bind.
  apply list_elem_of_bind in Hs as (cs & Hs & _). unfold site_of in Hs.
  destruct (expand _ _ _); [set_solver|]. apply list_elem_of_singleton in Hs as ->. done.
Qed.

Lemma built_table_encoded funcs :
  funcs_ok funcs -> built_table funcs = Some (encoded (sites funcs)).
Proof.
  intros (Hord & Hsz & _). unfold built_table.
  destruct (add_funcs_run funcs ExceptionTableBuilder_default) as [last ->]; [done|done|].
  pose proof (sites_handlers _ (sites_nonempty funcs)) as Hle.
  pose proof (zlen_nonneg (sites funcs)). pose proof (zlen_nonneg (all_handlers (sites funcs))).
  unfold to_vec, serialize. cbn [callsites handlers extended ExceptionTableBuilder_default].
  assert (zlen ([] ++ ((fun s : site => U32_new s.1.1) <$> sites funcs)) = zlen (sites funcs))
    as -> by (unfold zlen; simpl; by rewrite length_fmap).
  assert (zlen ([] ++ handler_words (all_handlers (sites funcs))) =
    zlen (all_handlers (sites funcs))) as ->
    by (unfold zlen, handler_words; simpl; by rewrite length_fmap).
  rewrite !try_from_in by lia. cbn. by rewrite app_nil_r.
Qed.

(** *** One call site of the table *)

Lemma ends_lookup start ss i s :
  ss !! i = Some s ->
  ends start ss !! i = Some (start + zlen (all_handlers (take i ss)) + zlen s.2).
Proof.
  revert start i. induction ss as [|s' ss IH]; intros start [|i] Hs; try done.
  - injection Hs as ->. cbn. by rewrite Z.add_0_r.
  - simpl in Hs. change (ends start (s' :: ss) !! S i) with (ends (start + zlen s'.2) ss !! i).
    rewrite (IH _ i) by done. f_equal. cbn [take]. unfold all_handlers.
    rewrite bind_cons, zlen_app. lia.
Qed.

Lemma all_handlers_split ss i s :
  ss !! i = Some s ->
  all_handlers ss = all_handlers (take i ss) ++ s.2 ++ all_handlers (drop (S i) ss).
Proof.
  intros Hs. rewrite <- (take_drop_middle ss i s Hs) at 1.
  unfold all_handlers. by rewrite bind_app, bind_cons.
Qed.

Lemma slice_fmap {B} (f : ExceptionHandler -> B) pre mid post :
  slice (f <$> (pre ++ mid ++ post)) (zlen pre) (zlen pre + zlen mid) = Some (f <$> mid).
Proof.
  unfold slice. pose proof (zlen_nonneg mid).
  rewrite !(proj2 (Z.leb_le _ _)).
  - simpl. f_equal. rewrite <- fmap_drop, <- fmap_take. f_equal.
    unfold zlen. rewrite Nat2Z.id, drop_app_length.
    replace (Z.to_nat _) with (length mid) by lia. by rewrite take_app_length.
  - unfold zlen. rewrite length_fmap, !length_app. lia.
  - lia.
Qed.

(** The reader of a call site takes its slices of the arrays. *)
Lemma site_slices ss i s :
  zlen (all_handlers ss) <= u32_MAX -> ss !! i = Some s ->
  tags_contexts_handlers_for_callsite (table ss) (Z.of_nat i) =
    Some (tag_words s.2, context_words s.2, handler_words s.2).
Proof.
  intros Hsz Hs. pose proof (all_handlers_split ss i s Hs) as Hsplit.
  pose proof (zlen_nonneg (all_handlers (take i ss))).
  pose proof (zlen_nonneg (all_handlers (drop (S i) ss))). pose proof (zlen_nonneg s.2).
  assert (zlen (all_handlers ss) = zlen (all_handlers (take i ss)) + zlen s.2 +
            zlen (all_handlers (drop (S i) ss))) as Hlen
    by (rewrite Hsplit at 1; rewrite !zlen_app; lia).
  unfold tags_contexts_handlers_for_callsite. cbn [t_ranges table].
  rewrite !zget_of_nat, list_lookup_fmap, (ends_lookup 0 ss i s Hs). simpl.
  rewrite U32_get_new by (unfold in_u32; lia).
  assert ((if 0 <? Z.of_nat i
           then U32_get <$> zget (U32_new <$> ends 0 ss) (Z.of_nat i - 1) else Some 0) =
          Some (zlen (all_handlers (take i ss)))) as ->.
  { destruct i as [|i]; [done|]. rewrite (proj2 (Z.ltb_lt _ _)) by lia.
    replace (Z.of_nat (S i) - 1) with (Z.of_nat i) by lia.
    destruct (lookup_lt_is_Some_2 ss i) as [s' Hs'].
    { apply lookup_lt_Some in Hs. lia. }
    rewrite zget_of_nat, list_lookup_fmap, (ends_lookup 0 ss i s' Hs'). simpl.
    assert (all_handlers (take (S i) ss) = all_handlers (take i ss) ++ s'.2) as Htake.
    { rewrite (take_S_r _ _ s') by done. unfold all_handlers. rewrite bind_app. simpl.
      by rewrite app_nil_r. }
    rewrite Htake, zlen_app in *. rewrite U32_get_new; [done|].
    pose proof (zlen_nonneg (all_handlers (take i ss))). pose proof (zlen_nonneg s'.2).
    unfold in_u32. lia. }
  simpl. rewrite !try_from_in by (unfold u32_MAX, usize_MAX in *; lia). simpl.
  unfold tag_words, context_words, handler_words. rewrite Hsplit, !slice_fmap. simpl.
  done.
Qed.

(** The values a handler can carry. *)
Definition handler_ok (h : ExceptionHandler) : Prop :=
  (forall t, tag h = Some t -> below_max t) /\
  (forall c, context_sp_offset h = Some c -> below_max c) /\ in_u32 (handler_offset h).

Definition site_ok (s : site) : Prop :=
  in_u32 s.1.1 /\ (forall f, s.1.2 = Some f -> below_max f) /\ Forall handler_ok s.2.

Lemma option_u32_roundtrip o :
  (forall x, o = Some x -> below_max x) -> option_from_u32 (U32_get (U32_new (to_u32 o))) = o.
Proof.
  intros Ho. unfold option_from_u32. destruct o as [x|]; simpl.
  - destruct (Ho x eq_refl) as [H0 Hx]. rewrite U32_get_new by (unfold in_u32; lia).
    by rewrite (proj2 (Z.eqb_neq _ _)) by lia.
  - rewrite U32_get_new by (unfold in_u32, u32_MAX; lia). by rewrite Z.eqb_refl.
Qed.

Lemma handlers_run ss i s :
  zlen (all_handlers ss) <= u32_MAX -> ss !! i = Some s -> site_ok s ->
  handlers_for_callsite (table ss) (Z.of_nat i) = Some s.2.
Proof.
  intros Hsz Hs (_ & _ & Hok). unfold handlers_for_callsite.
  rewrite (site_slices ss i s) by done. simpl. f_equal.
  unfold tag_words, context_words, handler_words.
  induction Hok as [|h hs (Ht & Hc & Hh) _ IH]; [done|].
  rewrite !fmap_cons. simpl. rewrite !option_u32_roundtrip, U32_get_new by done.
  f_equal; [by destruct h|apply IH].
Qed.

Lemma frame_offset_run ss i s :
  ss !! i = Some s -> site_ok s ->
  exists u, zget (t_frame_offsets (table ss)) (Z.of_nat i) = Some u /\
    option_from_u32 (U32_get u) = s.1.2.
Proof.
  intros Hs (_ & Hf & _). exists (U32_new (to_u32 s.1.2)).
  cbn [t_frame_offsets table]. rewrite zget_of_nat, list_lookup_fmap, Hs.
  split; [done|]. by apply option_u32_roundtrip.
Qed.

Lemma expand_ok start c items :
  Forall (item_ok start) items -> 0 <= start -> (forall x, c = Some x -> below_max x) ->
  Forall handler_ok (expand start c items).
Proof.
  intros Hok H0. revert c. induction Hok as [|i items Hi Hok IH]; intros c Hc; [constructor|].
  destruct i as [t o|o|[x|r]]; simpl in *; [| |by apply IH; naive_solver|done];
    (constructor; [|by apply IH]); (split; [|split; [done|]]); simpl;
    try (unfold in_u32; lia); naive_solver.
Qed.

Lemma sites_ok last funcs :
  0 <= last -> ordered_funcs last funcs -> Forall site_ok (sites funcs).
Proof.
  revert last. induction funcs as [|[start css] funcs IH]; intros last H0 Hord; [constructor|].
  destruct Hord as (Hs & Hok & Hord). unfold sites. rewrite bind_cons.
  apply Forall_app. split; [|by apply (IH start); [lia|]]. simpl.
  apply Forall_forall. intros s (cs & Hin & Hcs)%list_elem_of_bind.
  rewrite Forall_forall in Hok. destruct (Hok cs Hcs) as (Hr0 & Hr & Hf & Hitems).
  unfold site_of in Hin. destruct (expand _ _ _) eqn:He; [set_solver|].
  apply list_elem_of_singleton in Hin as ->. split; [unfold in_u32; simpl; lia|].
  split; [done|]. simpl. rewrite <- He. apply expand_ok; [done|lia|done].
Qed.

Lemma iter_from_run ss k l :
  zlen (all_handlers ss) <= u32_MAX -> Forall site_ok ss -> l = drop k ss ->
  iter_from (table ss) (Z.of_nat k) ((fun s : site => U32_new s.1.1) <$> l) = Some l.
Proof.
  intros Hsz Hok. revert k. induction l as [|s l IH]; intros k Hl; [done|].
  assert (ss !! k = Some s) as Hs.
  { rewrite <- (Nat.add_0_r k), <- lookup_drop, <- Hl. done. }
  assert (site_ok s) as Hsok by (rewrite Forall_lookup in Hok; by eapply Hok).
  rewrite fmap_cons. cbn [iter_from].
  destruct (frame_offset_run ss k s Hs Hsok) as (u & -> & Hu). simpl.
  rewrite (handlers_run ss k s) by done. simpl.
  replace (Z.of_nat k + 1) with (Z.of_nat (S k)) by lia. rewrite IH.
  - simpl. rewrite Hu, U32_get_new by apply Hsok. by destruct s as [[pc f] hs].
  - rewrite (drop_S _ s) in Hl by done. by injection Hl.
Qed.

(** The call sites of a compilation, found by their return address. *)
Lemma callsite_search funcs pc :
  funcs_ok funcs ->
  match search_ok (binary_search (values (t_callsites (table (sites funcs)))) pc) with
  | Some i => 0 <= i /\ exists s, sites funcs !! Z.to_nat i = Some s /\ s.1.1 = pc
  | None => forall f hs, (pc, f, hs) ∉ sites funcs
  end.
Proof.
  intros (Hord & _ & Hsort). pose proof (sites_ok 0 funcs ltac:(lia) Hord) as Hok.
  assert (values (t_callsites (table (sites funcs))) =
            (fun s : site => s.1.1) <$> sites funcs) as ->.
  { cbn [t_callsites table]. clear -Hok. induction Hok as [|s ss Hs _ IH]; [done|].
    unfold values in *. rewrite !fmap_cons, U32_get_new by apply Hs. by rewrite IH. }
  pose proof (binary_search_ok _ pc (ascending_Sorted _ Hsort)) as Hb.
  destruct (search_ok _) as [i|].
  - apply zget_Some in Hb as [Hi Hb]. split; [done|].
    apply list_lookup_fmap_Some in Hb as (s & -> & Hs). by exists s.
  - intros f hs Hin. apply Hb, list_elem_of_fmap. by exists (pc, f, hs).
Qed.


(** What a lookup by tag must return for the handlers [hs] of a call site. *)
Definition tag_result (f : option Z) (hs : list ExceptionHandler) (t : Z)
  (r : option (Z * Z)) : Prop :=
  match r with
  | Some (fo, offset) =>
      fo = default 0 f /\ exists h, h ∈ hs /\ handler_offset h = offset /\
        (tag h = Some t \/ tag h = None /\ forall h', h' ∈ hs -> tag h' <> Some t)
  | None => forall h, h ∈ hs -> tag h <> Some t /\ tag h <> None
  end.

Definition tags_sorted (s : site) : Prop := Sorted Z.le ((fun h => to_u32 (tag h)) <$> s.2).

Lemma tag_words_values hs :
  Forall handler_ok hs -> values (tag_words hs) = (fun h => to_u32 (tag h)) <$> hs.
Proof.
  unfold values, tag_words. induction 1 as [|h hs (Ht & _) _ IH]; [done|].
  rewrite !fmap_cons, IH. rewrite U32_get_new; [done|].
  unfold to_u32. destruct (tag h) as [x|] eqn:Hx; simpl; [|unfold in_u32, u32_MAX; lia].
  destruct (Ht x eq_refl). unfold in_u32. lia.
Qed.

Lemma to_u32_tag t o : below_max t -> (forall x, o = Some x -> below_max x) ->
  to_u32 o = t -> o = Some t.
Proof. intros [_ Ht] Ho <-. destruct o as [x|]; [done|]. simpl in Ht. lia. Qed.

Lemma to_u32_none o : (forall x, o = Some x -> below_max x) -> to_u32 o = u32_MAX -> o = None.
Proof.
  intros Ho. destruct o as [x|]; [|done]. simpl. intros ->.
  destruct (Ho _ eq_refl). lia.
Qed.

(** The largest tag is the last: without a catch-all there, there is none. *)
Lemma sorted_last_none hs h :
  Sorted Z.le ((fun h => to_u32 (tag h)) <$> hs) -> Forall handler_ok hs ->
  h ∈ hs -> tag h = None -> exists h', last hs = Some h' /\ tag h' = None.
Proof.
  intros Hs Hok Hin Hh. destruct (last hs) as [h'|] eqn:Hl.
  2:{ apply last_None in Hl as ->. set_solver. }
  exists h'. split; [done|]. rewrite Forall_forall in Hok.
  apply to_u32_none; [apply Hok; by apply last_Some_elem_of|].
  apply last_Some in Hl as [l ->]. rewrite fmap_app in Hs.
  apply elem_of_app in Hin as [Hin|Hin%list_elem_of_singleton].
  2:{ subst. by rewrite Hh. }
  assert (to_u32 (tag h) <= to_u32 (tag h')) as Hle.
  { apply Sorted_StronglySorted in Hs; [|intros x y z; lia].
    eapply StronglySorted_app_1_elem_of; [exact Hs| |left].
    by apply (list_elem_of_fmap_2 (fun h => to_u32 (tag h))). }
  rewrite Hh in Hle. simpl in Hle. unfold to_u32 in *.
  destruct (tag h') as [x|] eqn:Hx; [|done]. simpl in *.
  destruct (Hok h') as (Ht & _); [set_solver|]. destruct (Ht x Hx). lia.
Qed.

Lemma tag_search_run f hs t :
  Sorted Z.le ((fun h => to_u32 (tag h)) <$> hs) -> Forall handler_ok hs -> below_max t ->
  exists r, tag_result f hs t r /\
    match search_ok (binary_search (values (tag_words hs)) t) with
    | Some i => h ← zget (handler_words hs) i; Some (Some (default 0 f, U32_get h))
    | None =>
        if bool_decide (U32_get <$> last (tag_words hs) = Some u32_MAX)
        then h ← last (handler_words hs); Some (Some (default 0 f, U32_get h))
        else Some None
    end = Some r.
Proof.
  intros Hs Hok Ht. rewrite tag_words_values by done.
  pose proof (binary_search_ok _ t (ascending_Sorted _ Hs)) as Hb.
  assert (Hhok : forall h, h ∈ hs -> handler_ok h) by by apply Forall_forall.
  assert (Hget : forall h, h ∈ hs -> U32_get (U32_new (handler_offset h)) = handler_offset h).
  { intros h Hh. apply U32_get_new, Hhok, Hh. }
  destruct (search_ok _) as [i|].
  - apply zget_Some in Hb as [Hi Hb]. apply list_lookup_fmap_Some in Hb as (h & -> & Hh).
    pose proof (list_elem_of_lookup_2 _ _ _ Hh) as Hin.
    exists (Some (default 0 f, handler_offset h)). split.
    + split; [done|]. exists h. split; [done|]. split; [done|]. left.
      apply to_u32_tag; [done|apply Hhok, Hin|done].
    + unfold handler_words. rewrite (proj2 (zget_Some _ _ (U32_new (handler_offset h)))).
      * simpl. by rewrite Hget.
      * split; [done|]. by rewrite list_lookup_fmap, Hh.
  - assert (Hno : forall h, h ∈ hs -> tag h <> Some t).
    { intros h Hh He. apply Hb, list_elem_of_fmap. exists h. by rewrite He. }
    unfold tag_words, handler_words. rewrite !fmap_last.
    case_bool_decide as Hlast.
    + destruct (last hs) as [h|] eqn:Hl; [|done]. simpl in *.
      pose proof (last_Some_elem_of _ _ Hl) as Hin.
      exists (Some (default 0 f, handler_offset h)). rewrite Hget by done. split; [|done].
      split; [done|]. exists h. split; [done|]. split; [done|]. right. split; [|done].
      injection Hlast as Hlast. destruct (Hhok h Hin) as (Hth & _).
      rewrite U32_get_new in Hlast; [by apply to_u32_none|].
      unfold to_u32. destruct (tag h) as [x|]; simpl; [|unfold in_u32, u32_MAX; lia].
      destruct (Hth x eq_refl). unfold in_u32. lia.
    + exists None. split; [|done]. intros h Hh. split; [by apply Hno|]. intros Hnone.
      destruct (sorted_last_none hs h Hs Hok Hh Hnone) as (h' & Hl & Hh').
      apply Hlast. rewrite Hl. simpl. rewrite Hh'. simpl.
      by rewrite U32_get_new by (unfold in_u32, u32_MAX; lia).
Qed.

(** When moreover the tags of every call site are sorted (the catch-all
    last), the lookup by return address and tag never panics and returns, for a
    call site recorded at that address, the handler of that tag, or the
    catch-all handler when the tag has none, with the frame offset; it returns
    nothing only when the call site has neither, or when there is no such call
    site. *)
Theorem exception_tag_lookup_correct funcs :
  funcs_ok funcs -> Forall tags_sorted (sites funcs) ->
  exists bytes t, built_table funcs = Some bytes /\ parse bytes tt = Ret t tt /\
    forall pc tg, below_max tg ->
      match lookup_pc_tag t pc tg with
      | Some r => (exists f hs, (pc, f, hs) ∈ sites funcs /\ tag_result f hs tg r) \/
                  (r = None /\ forall f hs, (pc, f, hs) ∉ sites funcs)
      | None => False
      end.
Proof.
  intros Hf Hsorted. pose proof Hf as (Hord & Hsz & _).
  exists (encoded (sites funcs)), (table (sites funcs)).
  pose proof (sites_handlers _ (sites_nonempty funcs)) as Hle.
  pose proof (sites_ok 0 funcs ltac:(lia) Hord) as Hok.
  split; [by apply built_table_encoded|]. split; [apply exc_parse_encoded; lia|].
  intros pc tg Htg. unfold lookup_pc_tag.
  pose proof (callsite_search funcs pc Hf) as Hs.
  destruct (search_ok _) as [i|]; [|by right].
  destruct Hs as (Hi & s & Hs & Hpc). rewrite <- (Z2Nat.id i) by done.
  assert (site_ok s) as Hsok by (rewrite Forall_lookup in Hok; by eapply Hok).
  assert (tags_sorted s) as Hss by (rewrite Forall_lookup in Hsorted; by eapply Hsorted).
  destruct (frame_offset_run _ _ s Hs Hsok) as (u & -> & Hu). simpl.
  rewrite (site_slices _ _ s) by done. simpl. rewrite Hu.
  destruct (tag_search_run s.1.2 s.2 tg Hss) as (r & Hr & ->); [apply Hsok|done|].
  left. exists s.1.2, s.2. split; [|done]. rewrite <- Hpc.
  eapply list_elem_of_lookup_2. rewrite Hs. by destruct s as [[? ?] ?].
Qed.
End exception_table.

(** The example of the source's unit test: three handlers, none, a catch-all. *)
Definition example_funcs : list Func :=
  [(0x100, [{| ret_addr := 0x10; frame_offset := None;
               exception_handlers := [Tag 1 0x20; Tag 2 0x30; Default 0x40] |};
            {| ret_addr := 0x48; frame_offset := None; exception_handlers := [] |};
            {| ret_addr := 0x50; frame_offset := Some 0x20;
               exception_handlers := [Context (SPOffset 8); Default 0x60] |}])].

Lemma exc_example_funcs_ok : funcs_ok example_funcs.
Proof.
  split; [|split; [vm_compute; discriminate|]].
  - split; [done|]. split; [|exact I].
    repeat constructor; try discriminate; simpl in *; simplify_eq; unfold u32_MAX; lia.
  - repeat constructor. discriminate.
Qed.


Lemma exception_tag_lookup_correct_witness :
  exists bytes t, built_table example_funcs = Some bytes /\ parse bytes tt = Ret t tt /\
    lookup_pc_tag t 0x110 2 = Some (Some (0, 0x130)) /\
    lookup_pc_tag t 0x150 2 = Some (Some (0x20, 0x160)).
Proof.
  destruct (exception_tag_lookup_correct example_funcs exc_example_funcs_ok)
    as (bytes & t & Hb & Hp & _).
  - repeat constructor; discriminate.
  - exists bytes, t. split; [exact Hb|]. split; [exact Hp|].
    assert (Hp' : parse bytes tt = Ret (table (sites example_funcs)) tt)
      by (injection Hb as <-; reflexivity).
    rewrite Hp' in Hp. injection Hp as <-. split; reflexivity.
Defined.

(** Two handlers whose tags are not in order. *)
Definition unsorted_funcs : list Func :=
  [(0, [{| ret_addr := 0x10; frame_offset := None;
           exception_handlers := [Tag 5 0x20; Tag 1 0x30] |}])].

(** The builder keeps the handlers of a call site in the order given, which
    need not be that of their tags; the lookup by tag, a binary search, then
    misses a handler that the table lists for the call site. *)
Theorem exception_tag_lookup_unsorted :
  exists bytes t hs, built_table unsorted_funcs = Some bytes /\ parse bytes tt = Ret t tt /\
    lookup_pc t 0x10 = Some (None, hs) /\ (exists h, h ∈ hs /\ tag h = Some 5) /\
    lookup_pc_tag t 0x10 5 = Some None.
Proof.
  eexists _, _, _. split; [reflexivity|]. split; [reflexivity|]. split; [reflexivity|].
  split; [|reflexivity]. eexists. split; [left|reflexivity].
Qed.
