(* ===== verification/DivConst.v ===== *)
(** * Magic numbers for division by constants

    cranelift/codegen/src/opts/div_const.rs: [magic_u32], [magic_u64],
    [magic_s32] and [magic_s64] compute the multiplier and the shift that
    replace a division by a constant.  The 32- and 64-bit functions are the
    same code at two widths, so both are instances of one definition at the
    width [W].  Arithmetic is checked: an overflow of [+], [-] or [*] and a
    failed [debug_assert_ne!] are [None]; so is a loop that runs out of fuel.

    Shown: for every divisor the functions accept, the loops stop within
    their fuel, no operation overflows, and the numbers they return satisfy the
    contract [magic_ok_u] ([magic_ok_s]) from which the quotient follows
    ([magic_quotient], [magic_quotient_neg]). *)

From S2P Require Import Prelude.

(** ** Checked arithmetic at a width *)

Definition add_w (w a b : Z) : option Z := if a + b <? 2 ^ w then Some (a + b) else None.
Definition mul_w (w a b : Z) : option Z := if a * b <? 2 ^ w then Some (a * b) else None.
Definition div_w (a b : Z) : option Z := if b =? 0 then None else Some (a / b).
Definition rem_w (a b : Z) : option Z := if b =? 0 then None else Some (a mod b).
(** The named [wrapping_*] operations, and the cast to an unsigned type. *)
Definition wrap (w z : Z) : Z := z mod 2 ^ w.
(** The cast of a [w]-bit pattern to the signed type of that width. *)
Definition swrap (w z : Z) : Z := (z + 2 ^ (w - 1)) mod 2 ^ w - 2 ^ (w - 1).

Lemma add_w_Some w a b : a + b < 2 ^ w -> add_w w a b = Some (a + b).
Proof. intros. unfold add_w. by rewrite (proj2 (Z.ltb_lt _ _)). Qed.

Lemma mul_w_Some w a b : a * b < 2 ^ w -> mul_w w a b = Some (a * b).
Proof. intros. unfold mul_w. by rewrite (proj2 (Z.ltb_lt _ _)). Qed.

Lemma div_w_Some a b : b <> 0 -> div_w a b = Some (a / b).
Proof. intros. unfold div_w. by rewrite (proj2 (Z.eqb_neq _ _)). Qed.

Lemma rem_w_Some a b : b <> 0 -> rem_w a b = Some (a mod b).
Proof. intros. unfold rem_w. by rewrite (proj2 (Z.eqb_neq _ _)). Qed.

Lemma sub_Some a b : b <= a -> checked_sub a b = Some (a - b).
Proof. intros. by apply checked_sub_Some. Qed.

(** Runs the next step of an [option] computation. *)
Ltac obind := cbn [mbind option_bind].

Lemma wrap_small w z : 0 <= z < 2 ^ w -> wrap w z = z.
Proof. apply Z.mod_small. Qed.

(** ** Unsigned division *)

Record MU := mkMU { mu_mul_by : Z; mu_do_add : bool; mu_shift_by : Z }.

(** The mutable variables of [magic_u32]. *)
Record ustate := mkU {
  u_p : Z; u_q1 : Z; u_r1 : Z; u_q2 : Z; u_r2 : Z; u_do_add : bool
}.

Section magic_u.
Variable W : Z.

(** One turn of the loop; the flag says that it breaks. *)
Definition magic_u_step (d nc : Z) (s : ustate) : option (bool * ustate) :=
  p ← add_w 31 (u_p s) 1;
  t1 ← checked_sub nc (u_r1 s);
  qr1 ← (if t1 <=? u_r1 s
         then Some (wrap W (wrap W (2 * u_q1 s) + 1),
                    wrap W (wrap W (2 * u_r1 s) - nc))
         else r1 ← mul_w W 2 (u_r1 s); Some (wrap W (2 * u_q1 s), r1));
  t2 ← add_w W (u_r2 s) 1;
  t3 ← checked_sub d (u_r2 s);
  qr2 ← (if t3 <=? t2 then
           let do_add := if 2 ^ (W - 1) - 1 <=? u_q2 s then true else u_do_add s in
           m ← mul_w W 2 (u_q2 s);
           q2 ← add_w W m 1;
           Some (q2, wrap W (wrap W (wrap W (2 * u_r2 s) + 1) - d), do_add)
         else
           let do_add := if 2 ^ (W - 1) <=? u_q2 s then true else u_do_add s in
           m ← mul_w W 2 (u_r2 s);
           r2 ← add_w W m 1;
           Some (wrap W (2 * u_q2 s), r2, do_add));
  let '(q1, r1) := qr1 in
  let '(q2, r2, do_add) := qr2 in
  t4 ← checked_sub d 1;
  delta ← checked_sub t4 r2;
  let continue := (p <? 2 * W) && ((q1 <? delta) || ((q1 =? delta) && (r1 =? 0))) in
  Some (negb continue, mkU p q1 r1 q2 r2 do_add).

Fixpoint magic_u_loop (fuel : nat) (d nc : Z) (s : ustate) : option ustate :=
  match fuel with
  | O => None
  | S fuel =>
      r ← magic_u_step d nc s;
      let '(stop, s') := r in
      if (stop : bool) then Some s' else magic_u_loop fuel d nc s'
  end.

Definition magic_u_fuel : nat := Z.to_nat (2 * W).

Definition magic_u (d : Z) : option MU :=
  if (d =? 0) || (d =? 1) then None else
  t ← rem_w (wrap W (- d)) d;
  nc ← checked_sub (2 ^ W - 1) t;
  q1 ← div_w (2 ^ (W - 1)) nc;
  t1 ← mul_w W q1 nc;
  r1 ← checked_sub (2 ^ (W - 1)) t1;
  q2 ← div_w (2 ^ (W - 1) - 1) d;
  t2 ← mul_w W q2 d;
  r2 ← checked_sub (2 ^ (W - 1) - 1) t2;
  s ← magic_u_loop magic_u_fuel d nc (mkU (W - 1) q1 r1 q2 r2 false);
  mul_by ← add_w W (u_q2 s) 1;
  Some (mkMU mul_by (u_do_add s) (u_p s - W)).
End magic_u.

Definition magic_u32 : Z -> option MU := magic_u 32.
Definition magic_u64 : Z -> option MU := magic_u 64.

(** ** Signed division *)

Record MS := mkMS { ms_mul_by : Z; ms_shift_by : Z }.

Record sstate := mkS { s_p : Z; s_q1 : Z; s_r1 : Z; s_q2 : Z; s_r2 : Z }.

Section magic_s.
Variable W : Z.

(** Doubling of a quotient and its remainder, the two halves of the body. *)
Definition magic_s_double (c q r : Z) : option (Z * Z) :=
  q ← mul_w W 2 q;
  r ← mul_w W 2 r;
  if c <=? r then q' ← add_w W q 1; r' ← checked_sub r c; Some (q', r')
  else Some (q, r).

Definition magic_s_step (ad anc : Z) (s : sstate) : option (bool * sstate) :=
  p ← add_w 31 (s_p s) 1;
  qr1 ← magic_s_double anc (s_q1 s) (s_r1 s);
  qr2 ← magic_s_double ad (s_q2 s) (s_r2 s);
  let '(q1, r1) := qr1 in
  let '(q2, r2) := qr2 in
  delta ← checked_sub ad r2;
  let continue := (q1 <? delta) || ((q1 =? delta) && (r1 =? 0)) in
  Some (negb continue, mkS p q1 r1 q2 r2).

Fixpoint magic_s_loop (fuel : nat) (ad anc : Z) (s : sstate) : option sstate :=
  match fuel with
  | O => None
  | S fuel =>
      r ← magic_s_step ad anc s;
      let '(stop, s') := r in
      if (stop : bool) then Some s' else magic_s_loop fuel ad anc s'
  end.

Definition magic_s_fuel : nat := Z.to_nat (2 * W).

Definition magic_s (d : Z) : option MS :=
  if (d =? -1) || (d =? 0) || (d =? 1) then None else
  let two31 := 2 ^ (W - 1) in
  let ad := wrap W (Z.abs d) in
  t ← add_w W two31 (Z.shiftr (wrap W d) (W - 1));
  t1 ← checked_sub t 1;
  t2 ← rem_w t ad;
  let anc := wrap W (t1 - t2) in
  q1 ← div_w two31 anc;
  m1 ← mul_w W q1 anc;
  r1 ← checked_sub two31 m1;
  q2 ← div_w two31 ad;
  m2 ← mul_w W q2 ad;
  r2 ← checked_sub two31 m2;
  s ← magic_s_loop magic_s_fuel ad anc (mkS (W - 1) q1 r1 q2 r2);
  m ← add_w W (s_q2 s) 1;
  Some (mkMS (swrap W (if d <? 0 then wrap W (- m) else m)) (s_p s - W)).
End magic_s.

Definition magic_s32 : Z -> option MS := magic_s 32.
Definition magic_s64 : Z -> option MS := magic_s 64.

(** Values the unit tests of the source expect. *)
Example magic_u32_7 : magic_u32 7 = Some (mkMU 0x24924925 true 3).
Proof. vm_compute. reflexivity. Qed.
Example magic_u64_7 : magic_u64 7 = Some (mkMU 0x2492492492492493 true 3).
Proof. vm_compute. reflexivity. Qed.
Example magic_s32_7 : magic_s32 7 = Some (mkMS (-0x6DB6DB6D) 2).
Proof. vm_compute. reflexivity. Qed.
Example magic_s64_m7 : magic_s64 (-7) = Some (mkMS (-0x4924924924924925) 1).
Proof. vm_compute. reflexivity. Qed.

(** ** Arithmetic of the loops

    Both loops maintain quotient and remainder of a power of two [P] by a
    constant while [P] doubles. *)

Lemma double_div P c : 0 < c -> 0 <= P ->
  (c - P mod c <= P mod c ->
     2 * P / c = 2 * (P / c) + 1 /\ (2 * P) mod c = 2 * (P mod c) - c) /\
  (P mod c < c - P mod c ->
     2 * P / c = 2 * (P / c) /\ (2 * P) mod c = 2 * (P mod c)).
Proof.
  intros Hc HP. pose proof (Z.div_mod P c ltac:(lia)) as E.
  pose proof (Z.mod_pos_bound P c Hc).
  split; intros.
  - assert (2 * P = c * (2 * (P / c) + 1) + (2 * (P mod c) - c)) as E' by lia.
    split; symmetry; [eapply Z.div_unique_pos|eapply Z.mod_unique_pos];
      try exact E'; lia.
  - assert (2 * P = c * (2 * (P / c)) + 2 * (P mod c)) as E' by lia.
    split; symmetry; [eapply Z.div_unique_pos|eapply Z.mod_unique_pos];
      try exact E'; lia.
Qed.

Lemma double_pred_div P d : 0 < d -> 0 < P ->
  (d - (P - 1) mod d <= (P - 1) mod d + 1 ->
     (2 * P - 1) / d = 2 * ((P - 1) / d) + 1 /\
     (2 * P - 1) mod d = 2 * ((P - 1) mod d) + 1 - d) /\
  ((P - 1) mod d + 1 < d - (P - 1) mod d ->
     (2 * P - 1) / d = 2 * ((P - 1) / d) /\
     (2 * P - 1) mod d = 2 * ((P - 1) mod d) + 1).
Proof.
  intros Hd HP. pose proof (Z.div_mod (P - 1) d ltac:(lia)) as E.
  pose proof (Z.mod_pos_bound (P - 1) d Hd).
  split; intros.
  - assert (2 * P - 1 = d * (2 * ((P - 1) / d) + 1) + (2 * ((P - 1) mod d) + 1 - d))
      as E' by lia.
    split; symmetry; [eapply Z.div_unique_pos|eapply Z.mod_unique_pos];
      try exact E'; lia.
  - assert (2 * P - 1 = d * (2 * ((P - 1) / d)) + (2 * ((P - 1) mod d) + 1)) as E'
      by lia.
    split; symmetry; [eapply Z.div_unique_pos|eapply Z.mod_unique_pos];
      try exact E'; lia.
Qed.

(** The test of both loops compares [P] with [c * delta] through the quotient
    and remainder of [P] by [c]. *)
Lemma loop_test P c delta : 0 < c -> 0 <= P ->
  (P / c <? delta) || ((P / c =? delta) && (P mod c =? 0)) = true <-> P <= c * delta.
Proof.
  intros Hc HP. pose proof (Z.div_mod P c ltac:(lia)) as E.
  pose proof (Z.mod_pos_bound P c Hc).
  rewrite orb_true_iff, andb_true_iff, Z.ltb_lt, !Z.eqb_eq. split; [nia|].
  intros. destruct (Z.lt_trichotomy (P / c) delta) as [|[Heq|]]; [by left|right|nia].
  split; [done|]. rewrite Heq in E. lia.
Qed.

(** ** The contract of magic numbers

    [m] with [m * d = 2^p + delta] multiplies to the quotient of every
    numerator below [T], provided [delta] is small against [nc], the largest
    number below [T] that is one less than a multiple of [d]. *)

Definition largest_full (T d : Z) : Z := d * (T / d) - 1.

Lemma largest_full_mod T d : d <> 0 -> largest_full T d = T - 1 - T mod d.
Proof. intros. unfold largest_full. pose proof (Z.div_mod T d). lia. Qed.

Lemma magic_bound T d P m delta n :
  2 <= d <= T -> 0 <= delta -> largest_full T d * delta < P -> 0 < P ->
  m * d = P + delta -> 0 <= n < T -> n / d * P <= n * m < (n / d + 1) * P.
Proof.
  intros Hd Hdelta Hnc HP Hm Hn.
  pose proof (Z.div_mod n d ltac:(lia)) as En. pose proof (Z.mod_pos_bound n d ltac:(lia)).
  pose proof (Z.div_mod T d ltac:(lia)) as ET. pose proof (Z.mod_pos_bound T d ltac:(lia)).
  unfold largest_full in *. set (q := n / d) in *. set (Q := T / d) in *.
  assert (0 <= q) by (apply Z.div_pos; lia).
  assert (1 <= Q) by (apply Z.div_le_lower_bound; lia).
  assert (q <= Q) by (apply Z.div_le_mono; lia).
  assert (n * m * d = n * P + n * delta) as Enm by nia.
  split; [nia|].
  assert (n * delta < ((q + 1) * d - n) * P) as Hlt; [|nia].
  clearbody q Q. set (r := n mod d) in *. clearbody r.
  destruct (Z.eq_dec q Q) as [Heq|].
  - assert (r + 1 <= d - 1) by nia. assert (d <= d * Q) by nia.
    assert ((r + 1) * delta <= (d * Q - 1) * delta)
      by (apply Z.mul_le_mono_nonneg_r; lia).
    assert (2 * P <= (d - r) * P) by (apply Z.mul_le_mono_nonneg_r; lia). nia.
  - assert (n <= d * Q - 1) by nia. assert (1 <= (q + 1) * d - n) by nia. nia.
Qed.

Lemma magic_quotient T d P m delta n :
  2 <= d <= T -> 0 <= delta -> largest_full T d * delta < P -> 0 < P ->
  m * d = P + delta -> 0 <= n < T -> n * m / P = n / d.
Proof.
  intros. pose proof (magic_bound T d P m delta n) as Hb.
  symmetry. apply (Z.div_unique_pos _ _ _ (n * m - n / d * P)); nia.
Qed.

(** For a negative numerator [-a] the product is rounded down, one below the
    truncated quotient. *)
Lemma magic_quotient_neg T d P m delta a :
  2 <= d <= T -> 0 < delta -> largest_full T d * delta < P -> 0 < P ->
  m * d = P + delta -> 0 < a -> a < T \/ (a = T /\ T mod d <> d - 1) \/ a * delta <= P ->
  - a * m / P = - (a / d) - 1.
Proof.
  intros Hd Hdelta Hnc HP Hm Ha Hcase.
  pose proof (Z.div_mod a d ltac:(lia)) as Ea. pose proof (Z.mod_pos_bound a d ltac:(lia)).
  assert (a / d * P < a * m <= (a / d + 1) * P) as Hb.
  { split; [nia|]. destruct Hcase as [|[[-> ]|]].
    - pose proof (magic_bound T d P m delta a). lia.
    - unfold largest_full in *. set (Q := T / d) in *.
      assert (1 <= Q) by (apply Z.div_le_lower_bound; lia).
      set (r := T mod d) in *. clearbody Q r.
      assert (r + 1 <= d - 1) by lia. assert (d <= d * Q) by nia.
      assert ((r + 1) * delta <= (d * Q - 1) * delta)
        by (apply Z.mul_le_mono_nonneg_r; lia).
      assert (2 * P <= (d - r) * P) by (apply Z.mul_le_mono_nonneg_r; lia).
      assert (T * m * d = T * P + T * delta) by nia. nia.
    - assert (a * m * d = a * P + a * delta) by nia. nia. }
  symmetry. apply (Z.div_unique_pos _ _ _ (- a * m + (a / d + 1) * P)); nia.
Qed.

(** ** The unsigned loop *)

Section unsigned.
Context (W d : Z) (HW : 3 <= W <= 64) (Hd : 2 <= d < 2 ^ W).

Abbreviation B := (2 ^ W).
Abbreviation half := (2 ^ (W - 1)).
Abbreviation nc := (largest_full (2 ^ W) d).

Lemma pow_W : 2 ^ W = 2 * 2 ^ (W - 1).
Proof. rewrite <- Z.pow_succ_r by lia. f_equal. lia. Qed.

Lemma half_ge : 4 <= half.
Proof. pose proof (Z.pow_le_mono_r 2 2 (W - 1)). lia. Qed.

Lemma nc_bounds : half <= nc < B /\ d <= nc + 1.
Proof.
  pose proof pow_W. unfold largest_full.
  pose proof (Z.div_mod B d ltac:(lia)). pose proof (Z.mod_pos_bound B d ltac:(lia)).
  assert (1 <= B / d) by (apply Z.div_le_lower_bound; lia). nia.
Qed.

(** What the variables hold when [p] is [u_p s]. *)
Definition inv_u (s : ustate) : Prop :=
  let P := 2 ^ u_p s in
  u_q1 s = wrap W (P / nc) /\ u_r1 s = P mod nc /\
  u_q2 s = wrap W ((P - 1) / d) /\ u_r2 s = (P - 1) mod d /\
  u_do_add s = (B <=? (P - 1) / d + 1).

(** How far the multiplier of [P] exceeds [P / d]. *)
Definition delta_u (P : Z) : Z := d - 1 - (P - 1) mod d.

Lemma delta_u_spec P : 0 < P ->
  ((P - 1) / d + 1) * d = P + delta_u P /\ 0 <= delta_u P < d.
Proof.
  intros. unfold delta_u. pose proof (Z.div_mod (P - 1) d ltac:(lia)).
  pose proof (Z.mod_pos_bound (P - 1) d ltac:(lia)). lia.
Qed.

(** States from which another turn is safe. *)
Definition can_step (P : Z) : Prop :=
  (P - 1) / d + 1 < B /\
  (d - (P - 1) mod d <= (P - 1) mod d + 1 -> 2 * ((P - 1) / d) + 2 < B).

Lemma wrap_double q : wrap W (2 * wrap W q) = wrap W (2 * q).
Proof. unfold wrap. by rewrite Z.mul_mod_idemp_r by lia. Qed.

Lemma wrap_add_l a b : wrap W (wrap W a + b) = wrap W (a + b).
Proof. unfold wrap. by rewrite Z.add_mod_idemp_l by lia. Qed.

Lemma wrap_sub_l a b : wrap W (wrap W a - b) = wrap W (a - b).
Proof. unfold wrap. by rewrite Zminus_mod_idemp_l. Qed.

(** The half of the body that doubles [P / nc]. *)
Lemma step_q1 P q1 r1 :
  0 < P -> q1 = wrap W (P / nc) -> r1 = P mod nc ->
  (if nc - r1 <=? r1
   then Some (wrap W (wrap W (2 * q1) + 1), wrap W (wrap W (2 * r1) - nc))
   else r1' ← mul_w W 2 r1; Some (wrap W (2 * q1), r1'))
  = Some (wrap W (2 * P / nc), (2 * P) mod nc).
Proof.
  intros HP -> ->. pose proof nc_bounds as [? _]. pose proof half_ge.
  destruct (double_div P nc) as [Hge Hlt]; [lia..|].
  pose proof (Z.mod_pos_bound P nc ltac:(lia)).
  destruct (Z.leb_spec (nc - P mod nc) (P mod nc)).
  - destruct Hge as [-> ->]; [done|].
    rewrite wrap_double, wrap_add_l, wrap_sub_l. do 2 f_equal.
    apply wrap_small. lia.
  - destruct Hlt as [-> ->]; [done|]. pose proof pow_W.
    rewrite mul_w_Some by lia. obind. by rewrite wrap_double.
Qed.

(** The half that doubles [(P - 1) / d] and notices when it leaves the width. *)
Lemma step_q2 P q2 r2 do_add :
  0 < P -> can_step P -> q2 = wrap W ((P - 1) / d) -> r2 = (P - 1) mod d ->
  do_add = (B <=? (P - 1) / d + 1) ->
  (if d - r2 <=? r2 + 1 then
     let do_add' := if half - 1 <=? q2 then true else do_add in
     m ← mul_w W 2 q2; q2' ← add_w W m 1;
     Some (q2', wrap W (wrap W (wrap W (2 * r2) + 1) - d), do_add')
   else
     let do_add' := if half <=? q2 then true else do_add in
     m ← mul_w W 2 r2; r2' ← add_w W m 1; Some (wrap W (2 * q2), r2', do_add'))
  = Some (wrap W ((2 * P - 1) / d), (2 * P - 1) mod d,
          (B <=? (2 * P - 1) / d + 1)).
Proof.
  intros HP [Hlt Hodd] -> -> ->. pose proof pow_W as EB. pose proof half_ge.
  destruct (double_pred_div P d) as [Hge Hlt']; [lia..|].
  pose proof (Z.mod_pos_bound (P - 1) d ltac:(lia)).
  assert (0 <= (P - 1) / d) by (apply Z.div_pos; lia).
  rewrite (wrap_small W ((P - 1) / d)) by lia.
  rewrite (proj2 (Z.leb_gt B _)) by lia.
  destruct (Z.leb_spec (d - (P - 1) mod d) ((P - 1) mod d + 1)).
  - destruct Hge as [-> ->]; [done|]. specialize (Hodd ltac:(done)).
    cbv zeta. rewrite mul_w_Some by lia. obind. rewrite add_w_Some by lia. obind.
    rewrite wrap_add_l, wrap_sub_l, !wrap_small by lia.
    rewrite (proj2 (Z.leb_gt _ _)), (proj2 (Z.leb_gt _ _)) by lia. done.
  - destruct Hlt' as [-> ->]; [done|].
    cbv zeta. rewrite mul_w_Some by lia. obind. rewrite add_w_Some by lia. obind.
    do 2 f_equal.
    destruct (Z.leb_spec half ((P - 1) / d)), (Z.leb_spec B (2 * ((P - 1) / d) + 1));
      done || lia.
Qed.

(** A turn of the loop doubles [P] and tests it. *)
Lemma magic_u_step_run s :
  W - 1 <= u_p s < 2 * W -> inv_u s -> can_step (2 ^ u_p s) ->
  let P := 2 ^ (u_p s + 1) in
  exists stop s', magic_u_step W d nc s = Some (stop, s') /\
    u_p s' = u_p s + 1 /\ inv_u s' /\
    stop = negb ((u_p s + 1 <? 2 * W) &&
                 ((wrap W (P / nc) <? delta_u P) ||
                  ((wrap W (P / nc) =? delta_u P) && (P mod nc =? 0)))).
Proof.
  intros Hp (E1 & E2 & E3 & E4 & E5) Hcan. cbv zeta.
  assert (0 < 2 ^ u_p s) as HP by (apply Z.pow_pos_nonneg; lia).
  assert (2 ^ (u_p s + 1) = 2 * 2 ^ u_p s) as EP by (rewrite Z.pow_add_r; lia).
  pose proof nc_bounds as [? _]. pose proof half_ge. pose proof pow_W.
  pose proof (Z.mod_pos_bound (2 ^ u_p s) nc ltac:(lia)).
  pose proof (Z.mod_pos_bound (2 ^ u_p s - 1) d ltac:(lia)).
  pose proof (Z.mod_pos_bound (2 * 2 ^ u_p s - 1) d ltac:(lia)).
  unfold magic_u_step.
  rewrite (add_w_Some 31) by lia. obind. rewrite (sub_Some nc) by lia. obind.
  rewrite (step_q1 (2 ^ u_p s)) by done. obind.
  rewrite (add_w_Some W (u_r2 s)) by lia. obind.
  rewrite (sub_Some d (u_r2 s)) by lia. obind.
  pose proof (step_q2 (2 ^ u_p s) _ _ _ HP Hcan E3 E4 E5) as Hq2.
  cbv zeta in Hq2. cbv zeta. rewrite Hq2. obind. cbv beta iota.
  rewrite (sub_Some d 1) by lia. obind. rewrite sub_Some by lia. obind.
  do 2 eexists. split; [done|]. rewrite EP. cbn [u_p].
  split; [done|]. split; [|done].
  unfold inv_u. cbn [u_p u_q1 u_r1 u_q2 u_r2 u_do_add]. rewrite EP. done.
Qed.

(** The quotient [P / nc] leaves the width only for one divisor, [half + 1],
    and there only in the last turn but one. *)
Lemma wide_q1 p :
  0 <= p < 2 * W -> B <= 2 ^ p / nc -> 2 ^ p = half * B /\ nc = half /\ d = half + 1.
Proof.
  intros Hp Hq. pose proof nc_bounds as [[? ?] ?]. pose proof half_ge. pose proof pow_W.
  assert (nc * B <= 2 ^ p) as Hle.
  { pose proof (Z.mul_div_le (2 ^ p) nc). nia. }
  assert (2 ^ p <= half * B) as Hup.
  { rewrite <- Z.pow_add_r by lia. apply Z.pow_le_mono_r; lia. }
  assert (nc = half) as Enc by nia. rewrite Enc in *. split_and!; [lia|done|].
  assert (d * (B / d) = half + 1) as Ed by (unfold largest_full in Enc; lia).
  pose proof (Z.div_mod B d ltac:(lia)). pose proof (Z.mod_pos_bound B d ltac:(lia)).
  destruct (Z.eq_dec (B / d) 1) as [E|]; [rewrite E in Ed; lia|].
  assert (1 <= B / d) by (apply Z.div_le_lower_bound; lia). nia.
Qed.

Lemma continue_can_step p :
  0 <= p < 2 * W -> B <= 2 ^ p / nc \/ 2 ^ p <= nc * delta_u (2 ^ p) ->
  can_step (2 ^ p).
Proof.
  intros Hp [Hq|Hc]; pose proof nc_bounds as [[? ?] ?]; pose proof half_ge;
    pose proof pow_W.
  - destruct (wide_q1 p Hp Hq) as (EP & _ & Ed).
    assert (half * (2 * half) - 1 = (half + 1) * (2 * half - 2) + 1) as E by ring.
    unfold can_step. rewrite EP, Ed, pow_W.
    rewrite <- (Z.div_unique_pos _ (half + 1) _ 1 ltac:(lia) E).
    rewrite <- (Z.mod_unique_pos _ (half + 1) _ 1 ltac:(lia) E). lia.
  - assert (0 < 2 ^ p) as HP by (apply Z.pow_pos_nonneg; lia).
    destruct (delta_u_spec (2 ^ p) HP) as [E ?].
    unfold can_step. unfold delta_u in *.
    set (Q := (2 ^ p - 1) / d) in *. set (r := (2 ^ p - 1) mod d) in *.
    clearbody Q r. split; [|intros]; nia.
Qed.

Lemma stop_delta p :
  0 <= p <= 2 * W ->
  (p <? 2 * W) && ((wrap W (2 ^ p / nc) <? delta_u (2 ^ p)) ||
    ((wrap W (2 ^ p / nc) =? delta_u (2 ^ p)) && (2 ^ p mod nc =? 0))) = false ->
  nc * delta_u (2 ^ p) < 2 ^ p.
Proof.
  intros Hp Htest. pose proof nc_bounds as [[? ?] ?]. pose proof half_ge. pose proof pow_W.
  assert (0 < 2 ^ p) as HP by (apply Z.pow_pos_nonneg; lia).
  destruct (delta_u_spec (2 ^ p) HP) as [_ ?].
  destruct (Z.ltb_spec p (2 * W)); simpl in Htest.
  - destruct (decide (B <= 2 ^ p / nc)) as [Hq|].
    + destruct (wide_q1 p) as (EP & Enc & _); [lia|done|].
      rewrite Enc. nia.
    + assert (0 <= 2 ^ p / nc) by (apply Z.div_pos; lia).
      rewrite wrap_small in Htest by lia.
      apply Z.nle_gt. intros Hle%loop_test; [|lia..]. congruence.
  - assert (2 ^ p = B * B) as EP; [|nia].
    rewrite <- Z.pow_add_r by lia. f_equal. lia.
Qed.

(** What the loop leaves: a multiplier in range, close enough to [P / d]. *)
Definition final_u (P : Z) : Prop :=
  nc * delta_u P < P /\ (P - 1) / d + 1 < 2 * B /\ wrap W ((P - 1) / d) <> B - 1.

Lemma can_step_final P : 0 < P -> can_step P ->
  (2 * P - 1) / d + 1 < 2 * B /\ wrap W ((2 * P - 1) / d) <> B - 1.
Proof.
  intros HP [H1 H2]. pose proof pow_W as EB. pose proof half_ge.
  destruct (double_pred_div P d) as [Hodd Heven]; [lia..|].
  assert (0 <= (P - 1) / d) by (apply Z.div_pos; lia).
  destruct (decide (d - (P - 1) mod d <= (P - 1) mod d + 1)) as [Hc|Hc].
  - destruct (Hodd Hc) as [-> _]. specialize (H2 Hc).
    rewrite wrap_small by lia. lia.
  - destruct Heven as [-> _]; [lia|]. split; [lia|].
    unfold wrap. rewrite EB, Z.mul_mod_distr_l by lia. lia.
Qed.

Lemma magic_u_loop_run fuel s :
  W - 1 <= u_p s < 2 * W -> 2 * W - u_p s <= Z.of_nat fuel -> inv_u s ->
  can_step (2 ^ u_p s) ->
  exists s', magic_u_loop W fuel d nc s = Some s' /\ W <= u_p s' <= 2 * W /\
    inv_u s' /\ final_u (2 ^ u_p s').
Proof.
  revert s. induction fuel as [|fuel IH]; intros s Hp Hf Hinv Hcan; [lia|].
  destruct (magic_u_step_run s Hp Hinv Hcan) as (stop & s' & Hs & Hp' & Hinv' & Hstop).
  simpl. rewrite Hs. simpl.
  assert (2 ^ u_p s' = 2 * 2 ^ u_p s) as EP by (rewrite Hp', Z.pow_add_r; lia).
  assert (0 < 2 ^ u_p s) as HP by (apply Z.pow_pos_nonneg; lia).
  rewrite <- Hp' in Hstop.
  destruct stop.
  - exists s'. split; [done|]. split; [lia|]. split; [done|].
    split; [apply stop_delta; [lia|by apply negb_true_iff]|].
    rewrite EP. by apply can_step_final.
  - symmetry in Hstop. apply negb_false_iff, andb_true_iff in Hstop as [Hlt Htest].
    apply Z.ltb_lt in Hlt. apply IH; [lia..|done|].
    apply continue_can_step; [lia|].
    destruct (decide (B <= 2 ^ u_p s' / nc)); [by left|right].
    pose proof nc_bounds as [[? ?] ?]. pose proof half_ge.
    assert (0 <= 2 ^ u_p s' / nc) by (apply Z.div_pos; lia).
    rewrite wrap_small in Htest by lia. apply loop_test in Htest; [done|lia..].
Qed.

(** The first values: [P] is [half], whose quotient by [d] is small. *)
Lemma can_step_init : can_step half.
Proof.
  pose proof half_ge. pose proof pow_W. unfold can_step.
  assert ((half - 1) / d <= (half - 1) / 2)
    by (apply Z.div_le_compat_l; lia).
  assert (2 * ((half - 1) / 2) <= half - 1) by (apply Z.mul_div_le; lia). lia.
Qed.

End unsigned.

(** The contract of [magic_u32] and [magic_u64]: the multiplier [m], of one bit
    more than the width, is [mul_by] with [do_add] for its top bit; the shift is
    in range for the code that applies it. *)
Definition magic_ok_u (W d : Z) (r : MU) : Prop :=
  exists p m delta,
    mu_shift_by r = p - W /\ mu_do_add r = (2 ^ W <=? m) /\
    mu_mul_by r = (if mu_do_add r then m - 2 ^ W else m) /\
    W <= p <= 2 * W /\ (2 ^ W <= m -> W < p) /\ (p = 2 * W -> 2 ^ W <= m) /\
    0 < m < 2 * 2 ^ W /\ m * d = 2 ^ p + delta /\ 0 <= delta /\
    largest_full (2 ^ W) d * delta < 2 ^ p.

Lemma final_u_ok W d s :
  3 <= W <= 64 -> 2 <= d < 2 ^ W -> W <= u_p s <= 2 * W -> inv_u W d s ->
  final_u W d (2 ^ u_p s) ->
  exists mul_by, add_w W (u_q2 s) 1 = Some mul_by /\
    magic_ok_u W d (mkMU mul_by (u_do_add s) (u_p s - W)).
Proof.
  intros HW Hd Hp (_ & _ & E3 & _ & E5) (Hnc & Hm & Hw).
  pose proof (half_ge W HW). pose proof (pow_W W HW).
  assert (0 < 2 ^ u_p s) as HP by (apply Z.pow_pos_nonneg; lia).
  destruct (delta_u_spec W d HW Hd (2 ^ u_p s) HP) as [Em Hdelta].
  set (Q := (2 ^ u_p s - 1) / d) in *.
  assert (0 <= Q) by (apply Z.div_pos; lia).
  assert (0 <= wrap W Q < 2 ^ W) by (apply Z.mod_pos_bound; lia).
  exists (wrap W Q + 1). rewrite E3. split; [apply add_w_Some; lia|].
  exists (u_p s), (Q + 1), (delta_u d (2 ^ u_p s)). cbn [mu_shift_by mu_do_add mu_mul_by].
  rewrite E5. split_and!; try done; try lia.
  - destruct (Z.leb_spec (2 ^ W) (Q + 1)) as [Hle|Hlt].
    + assert (Q <> 2 ^ W - 1) as Hne.
      { intros HQ. apply Hw. rewrite HQ. apply wrap_small. lia. }
      assert (wrap W Q = Q - 2 ^ W) as ->; [|lia].
      symmetry. apply (Z.mod_unique_pos _ _ 1); lia.
    + rewrite wrap_small; lia.
  - intros Hle. destruct (decide (u_p s = W)) as [E|]; [|lia].
    rewrite E in *. nia.
  - intros E. assert (2 ^ u_p s = 2 ^ W * 2 ^ W) as EP
      by (rewrite <- Z.pow_add_r by lia; f_equal; lia). nia.
Qed.

Lemma magic_u_init W d :
  3 <= W <= 64 -> 2 <= d < 2 ^ W ->
  exists s, inv_u W d s /\ u_p s = W - 1 /\
    magic_u W d = (r ← magic_u_loop W (magic_u_fuel W) d (largest_full (2 ^ W) d) s;
                   mul_by ← add_w W (u_q2 r) 1;
                   Some (mkMU mul_by (u_do_add r) (u_p r - W))).
Proof.
  intros HW Hd. pose proof (half_ge W HW). pose proof (pow_W W HW).
  pose proof (nc_bounds W d HW Hd) as [? _].
  set (hf := 2 ^ (W - 1)) in *.
  exists (mkU (W - 1) (hf / largest_full (2 ^ W) d) (hf mod largest_full (2 ^ W) d)
            ((hf - 1) / d) ((hf - 1) mod d) false).
  split_and!; [|done|].
  - unfold inv_u. cbn [u_p u_q1 u_r1 u_q2 u_r2 u_do_add]. fold hf.
    assert (0 <= hf / largest_full (2 ^ W) d <= hf)
      by (split; [apply Z.div_pos; lia|apply Z.div_le_upper_bound; nia]).
    assert (0 <= (hf - 1) / d <= hf - 1)
      by (split; [apply Z.div_pos; lia|apply Z.div_le_upper_bound; nia]).
    rewrite !wrap_small by lia. rewrite (proj2 (Z.leb_gt _ _)) by lia. done.
  - unfold magic_u. fold hf.
    rewrite (proj2 (Z.eqb_neq d 0)), (proj2 (Z.eqb_neq d 1)) by lia. cbn [orb].
    assert (wrap W (- d) mod d = 2 ^ W mod d) as Et.
    { unfold wrap. rewrite <- (Z.mod_unique_pos (- d) _ (-1) (2 ^ W - d)) by lia.
      rewrite <- (Z.mul_1_l d) at 1. rewrite <- Z.add_opp_r, <- Z.mul_opp_l.
      apply Z.mod_add. lia. }
    rewrite rem_w_Some, Et by lia. obind.
    pose proof (Z.mod_pos_bound (2 ^ W) d ltac:(lia)).
    rewrite sub_Some, <- largest_full_mod by lia. obind.
    set (nc := largest_full (2 ^ W) d) in *.
    pose proof (Z.mul_div_le hf nc ltac:(lia)).
    pose proof (Z.mul_div_le (hf - 1) d ltac:(lia)).
    rewrite (div_w_Some hf nc) by lia. obind. rewrite mul_w_Some by lia. obind.
    rewrite sub_Some by lia. obind. rewrite (div_w_Some (hf - 1)) by lia. obind.
    rewrite mul_w_Some by lia. obind. rewrite sub_Some by lia. obind.
    by rewrite !(Z.mul_comm (_ / _)), <- !Z.mod_eq by lia.
Qed.

Lemma magic_u_run W d :
  3 <= W <= 64 -> 2 <= d < 2 ^ W ->
  exists r, magic_u W d = Some r /\ magic_ok_u W d r.
Proof.
  intros HW Hd. destruct (magic_u_init W d HW Hd) as (s & Hinv & Hp & ->).
  destruct (magic_u_loop_run W d HW Hd (magic_u_fuel W) s) as (s' & -> & Hp' & Hinv' & Hf).
  - lia.
  - unfold magic_u_fuel. lia.
  - done.
  - rewrite Hp. by apply can_step_init.
  - destruct (final_u_ok W d s' HW Hd Hp' Hinv' Hf) as (mul_by & Hadd & Hok).
    obind. rewrite Hadd. obind. eauto.
Qed.

(** ** The signed loop *)

Lemma pow2_not_pred k W : 0 <= k -> 3 <= W -> 2 ^ k <> 2 ^ (W - 1) - 1.
Proof.
  intros Hk HW E.
  assert (2 ^ (W - 1) = 2 * (2 * 2 ^ (W - 3))) as EW.
  { replace (W - 1) with (2 + (W - 3)) by lia. rewrite Z.pow_add_r by lia. lia. }
  assert (0 < 2 ^ (W - 3)) by (apply Z.pow_pos_nonneg; lia).
  destruct (decide (k = 0)) as [->|]; [lia|].
  assert (2 ^ k = 2 * 2 ^ (k - 1)) as Ek
    by (rewrite <- Z.pow_succ_r by lia; f_equal; lia). lia.
Qed.

Lemma odd_divides_pow2 a k : 0 <= k -> Z.odd a = true -> (a | 2 ^ k) -> (a | 1).
Proof.
  intros Hk Hodd. revert k Hk. apply (natlike_ind (fun k => (a | 2 ^ k) -> (a | 1))).
  - by rewrite Z.pow_0_r.
  - intros k Hk IH Hdiv. apply IH. rewrite Z.pow_succ_r in Hdiv by done.
    apply Z.gauss in Hdiv; [done|].
    apply Z.odd_spec in Hodd as [b ->]. rewrite Z.gcd_comm.
    rewrite Z.add_comm, (Z.mul_comm 2 b), Z.gcd_add_mult_diag_r. apply Z.gcd_1_r.
Qed.

Section signed.
Context (W ad t : Z) (HW : 3 <= W <= 64).
Context (Had : 2 <= ad <= 2 ^ (W - 1)).
Context (Ht : t = 2 ^ (W - 1) \/ t = 2 ^ (W - 1) + 1).

Abbreviation B := (2 ^ W).
Abbreviation half := (2 ^ (W - 1)).
Abbreviation anc := (largest_full t ad).

Lemma anc_bounds : half <= 2 * anc /\ anc <= half /\ ad <= anc + 1.
Proof.
  pose proof (half_ge W HW). unfold largest_full.
  assert (half = 2 * 2 ^ (W - 2)) by (rewrite <- Z.pow_succ_r by lia; f_equal; lia).
  pose proof (Z.div_mod t ad ltac:(lia)). pose proof (Z.mod_pos_bound t ad ltac:(lia)).
  assert (1 <= t / ad) by (apply Z.div_le_lower_bound; lia). nia.
Qed.

(** A divisor of a power of two does not divide [half + 1]. *)
Lemma anc_power p : 0 <= p -> 2 ^ p mod ad = 0 -> anc < half.
Proof.
  intros Hp Hdiv%Z.mod_divide; [|lia].
  pose proof (half_ge W HW). pose proof anc_bounds as (_ & Hle & _).
  destruct (decide (anc = half)) as [E|]; [exfalso|lia].
  assert (ad * (t / ad) = half + 1) as Et by (unfold largest_full in E; lia).
  assert (half = 2 * 2 ^ (W - 2)) as Eh
    by (rewrite <- Z.pow_succ_r by lia; f_equal; lia).
  assert (Z.odd ad = true) as Hodd.
  { rewrite <- Z.negb_even. apply negb_true_iff.
    destruct (Z.even ad) eqn:Heven; [|done].
    apply Z.even_spec in Heven as [x Hx]. rewrite Hx in Et.
    exfalso. revert Et. rewrite Eh. lia. }
  apply (odd_divides_pow2 ad p Hp Hodd), Z.divide_1_r in Hdiv. lia.
Qed.

Definition inv_s (s : sstate) : Prop :=
  let P := 2 ^ s_p s in
  s_q1 s = P / anc /\ s_r1 s = P mod anc /\ s_q2 s = P / ad /\ s_r2 s = P mod ad.

Definition delta_s (P : Z) : Z := ad - P mod ad.

Lemma delta_s_spec P : 0 <= P -> (P / ad + 1) * ad = P + delta_s P /\ 1 <= delta_s P <= ad.
Proof.
  intros. unfold delta_s. pose proof (Z.div_mod P ad ltac:(lia)).
  pose proof (Z.mod_pos_bound P ad ltac:(lia)). lia.
Qed.

Definition can_step_s (P : Z) : Prop :=
  2 * (P / anc) + 1 < B /\ 2 * P / ad + 1 < B.

Lemma can_step_s_init : can_step_s half.
Proof.
  pose proof (half_ge W HW). pose proof (pow_W W HW). pose proof anc_bounds as (? & ? & ?).
  assert (half / anc <= 2) by (apply Z.div_le_upper_bound; lia).
  assert (2 * half / ad <= half) by (apply Z.div_le_upper_bound; nia).
  unfold can_step_s. lia.
Qed.

(** While the loop goes on, both quotients leave room for another doubling. *)
Lemma continue_can_step_s p :
  W - 1 <= p -> 2 ^ p <= anc * delta_s (2 ^ p) -> can_step_s (2 ^ p) /\ p < 2 * W - 1.
Proof.
  intros Hp Hc. pose proof (half_ge W HW). pose proof (pow_W W HW) as EB.
  pose proof anc_bounds as (? & ? & ?).
  assert (0 < 2 ^ p) as HP by (apply Z.pow_pos_nonneg; lia).
  destruct (delta_s_spec (2 ^ p)) as [Em Hdelta]; [lia|].
  split; [split|].
  - assert (2 ^ p / anc <= delta_s (2 ^ p)) by (apply Z.div_le_upper_bound; lia).
    destruct (decide (2 ^ p / anc = half)) as [Eq|]; [exfalso|lia].
    assert (delta_s (2 ^ p) = half /\ ad = half) as [Ed Ea] by lia.
    assert (2 ^ p mod ad = 0) as Hz by (unfold delta_s in *; lia).
    pose proof (anc_power p ltac:(lia) Hz).
    assert (anc = half - 1) as Eanc by lia.
    assert (2 ^ p = half * 2 ^ (p - (W - 1))) as Ep
      by (rewrite <- Z.pow_add_r by lia; f_equal; lia).
    pose proof (Z.mul_div_le (2 ^ p) anc ltac:(lia)).
    apply (pow2_not_pred (p - (W - 1)) W); [lia..|].
    apply (Z.mul_reg_l _ _ half); [lia|]. rewrite <- Ep.
    rewrite Eq, Ed, Eanc in *. lia.
  - destruct (double_div (2 ^ p) ad) as [Hge Hlt]; [lia..|].
    set (Q := 2 ^ p / ad) in *.
    destruct (decide (2 ^ p mod ad = 0)) as [Hz|].
    + pose proof (anc_power p ltac:(lia) Hz).
      destruct Hlt as [-> _]; [lia|]. unfold delta_s in *. nia.
    + assert (delta_s (2 ^ p) <= ad - 1)
        by (unfold delta_s; pose proof (Z.mod_pos_bound (2 ^ p) ad); lia).
      assert (Q + 1 <= half - 1) by nia.
      destruct (decide (ad - 2 ^ p mod ad <= 2 ^ p mod ad)) as [Hd|Hd];
        [destruct (Hge Hd) as [-> _]|destruct Hlt as [-> _]]; lia.
  - assert (2 ^ p <= 2 ^ (2 * (W - 1))) as Hle.
    { replace (2 * (W - 1)) with ((W - 1) + (W - 1)) by lia.
      rewrite Z.pow_add_r by lia. nia. }
    apply Z.pow_le_mono_r_iff in Hle; lia.
Qed.

Lemma magic_s_double_run c P q r :
  0 < c <= half -> 0 < P -> q = P / c -> r = P mod c -> 2 * P / c < B ->
  magic_s_double W c q r = Some (2 * P / c, (2 * P) mod c).
Proof.
  intros Hc HP -> -> Hlt. pose proof (pow_W W HW).
  destruct (double_div P c) as [Hge Hle]; [lia..|].
  pose proof (Z.mod_pos_bound P c ltac:(lia)). unfold magic_s_double.
  destruct (decide (c - P mod c <= P mod c)) as [Hd|Hd].
  - destruct (Hge Hd) as [E1 E2]. rewrite E1 in *. rewrite E2.
    rewrite mul_w_Some by lia. obind. rewrite mul_w_Some by lia. obind.
    rewrite (proj2 (Z.leb_le _ _)) by lia. rewrite add_w_Some by lia. obind.
    by rewrite sub_Some by lia.
  - destruct Hle as [E1 E2]; [lia|]. rewrite E1 in *. rewrite E2.
    rewrite mul_w_Some by lia. obind. rewrite mul_w_Some by lia. obind.
    by rewrite (proj2 (Z.leb_gt _ _)) by lia.
Qed.

Lemma magic_s_step_run s :
  W - 1 <= s_p s < 2 * W -> inv_s s -> can_step_s (2 ^ s_p s) ->
  let P := 2 ^ (s_p s + 1) in
  exists s', magic_s_step W ad anc s =
      Some (negb ((P / anc <? delta_s P) || ((P / anc =? delta_s P) && (P mod anc =? 0))), s') /\
    s_p s' = s_p s + 1 /\ inv_s s'.
Proof.
  intros Hp (E1 & E2 & E3 & E4) [Hq1 Hq2]. cbv zeta.
  pose proof (half_ge W HW). pose proof (pow_W W HW). pose proof anc_bounds as (? & ? & ?).
  assert (0 < 2 ^ s_p s) as HP by (apply Z.pow_pos_nonneg; lia).
  assert (2 ^ (s_p s + 1) = 2 * 2 ^ s_p s) as EP by (rewrite Z.pow_add_r; lia).
  assert (2 * 2 ^ s_p s / anc < B) as Hlt.
  { destruct (double_div (2 ^ s_p s) anc) as [Hge Hle]; [lia..|].
    destruct (decide (anc - 2 ^ s_p s mod anc <= 2 ^ s_p s mod anc)) as [Hd|Hd];
      [destruct (Hge Hd) as [-> _]|destruct Hle as [-> _]]; lia. }
  unfold magic_s_step. rewrite add_w_Some by lia. obind.
  rewrite (magic_s_double_run anc (2 ^ s_p s)) by (done || lia). obind.
  rewrite (magic_s_double_run ad (2 ^ s_p s)) by (done || lia). obind.
  pose proof (Z.mod_pos_bound (2 * 2 ^ s_p s) ad ltac:(lia)).
  cbv beta iota. rewrite sub_Some by lia. obind. rewrite EP.
  eexists. split; [done|]. cbn [s_p]. split; [done|].
  unfold inv_s. cbn [s_p s_q1 s_r1 s_q2 s_r2]. by rewrite EP.
Qed.

Lemma magic_s_loop_run fuel s :
  W - 1 <= s_p s < 2 * W - 1 -> 2 * W - s_p s <= Z.of_nat fuel -> inv_s s ->
  can_step_s (2 ^ s_p s) ->
  exists s', magic_s_loop W fuel ad anc s = Some s' /\ W <= s_p s' < 2 * W /\ inv_s s' /\
    anc * delta_s (2 ^ s_p s') < 2 ^ s_p s' /\ 2 ^ s_p s' / ad + 1 < B.
Proof.
  revert s. induction fuel as [|fuel IH]; intros s Hp Hf Hinv Hcan; [lia|].
  destruct (magic_s_step_run s ltac:(lia) Hinv Hcan) as (s' & Hs & Hp' & Hinv').
  simpl. rewrite Hs. clear Hs. rewrite <- Hp'.
  assert (2 ^ s_p s' = 2 * 2 ^ s_p s) as EP by (rewrite Hp', Z.pow_add_r; lia).
  assert (0 < 2 ^ s_p s) as HP by (apply Z.pow_pos_nonneg; lia).
  pose proof anc_bounds as (? & ? & ?). pose proof (half_ge W HW).
  cbn [mbind option_bind].
  pose proof (loop_test (2 ^ s_p s') anc (delta_s (2 ^ s_p s')) ltac:(lia) ltac:(lia)) as Ht'.
  destruct (_ || _); cbn [negb].
  - destruct (continue_can_step_s (s_p s')) as [??]; [lia|by apply Ht'|].
    apply IH; [lia..|done|done].
  - exists s'. split; [done|]. split; [lia|]. split; [done|]. split.
    + apply Z.nle_gt. intros Hle. by apply Ht' in Hle.
    + rewrite EP. apply Hcan.
Qed.
End signed.

(** The contract of [magic_s32] and [magic_s64], on absolute values: [m] is the
    multiplier of [|d|], stored with the sign of [d] in [mul_by]. *)
Definition magic_ok_s (W d : Z) (r : MS) : Prop :=
  exists p m,
    let delta := Z.abs d - 2 ^ p mod Z.abs d in
    ms_shift_by r = p - W /\ ms_mul_by r = swrap W (if d <? 0 then - m else m) /\
    W <= p < 2 * W /\ 0 < m < 2 ^ W /\ m * Z.abs d = 2 ^ p + delta /\
    largest_full (2 ^ (W - 1) + if d <? 0 then 1 else 0) (Z.abs d) * delta < 2 ^ p.

Lemma swrap_wrap W z : swrap W (wrap W z) = swrap W z.
Proof.
  unfold swrap, wrap. by rewrite Zplus_mod_idemp_l.
Qed.

Lemma sign_bit W d : 1 <= W -> - 2 ^ (W - 1) <= d < 2 ^ (W - 1) ->
  Z.shiftr (wrap W d) (W - 1) = if d <? 0 then 1 else 0.
Proof.
  intros HW Hd. assert (2 ^ W = 2 * 2 ^ (W - 1)) as EB
    by (rewrite <- Z.pow_succ_r by lia; f_equal; lia).
  rewrite Z.shiftr_div_pow2 by lia. destruct (Z.ltb_spec d 0).
  - assert (wrap W d = d + 2 ^ W) as ->
      by (symmetry; apply (Z.mod_unique_pos _ _ (-1)); lia).
    symmetry. apply (Z.div_unique_pos _ _ _ (d + 2 ^ (W - 1))); lia.
  - rewrite wrap_small by lia. apply Z.div_small. lia.
Qed.

Lemma magic_s_init W d :
  3 <= W <= 64 -> - 2 ^ (W - 1) <= d < 2 ^ (W - 1) -> 2 <= Z.abs d ->
  let t := 2 ^ (W - 1) + if d <? 0 then 1 else 0 in
  exists s, inv_s (Z.abs d) t s /\ s_p s = W - 1 /\
    magic_s W d = (r ← magic_s_loop W (magic_s_fuel W) (Z.abs d) (largest_full t (Z.abs d)) s;
                   m ← add_w W (s_q2 r) 1;
                   Some (mkMS (swrap W (if d <? 0 then wrap W (- m) else m)) (s_p r - W))).
Proof.
  intros HW Hd Had. cbv zeta. pose proof (half_ge W HW). pose proof (pow_W W HW).
  set (hf := 2 ^ (W - 1)) in *. set (t := hf + if d <? 0 then 1 else 0).
  assert (t = hf \/ t = hf + 1) as Ht by (unfold t; destruct (d <? 0); lia).
  assert (Z.abs d <= hf) as Hle by lia.
  pose proof (anc_bounds W (Z.abs d) t HW ltac:(lia) Ht) as (Ha1 & Ha2 & Ha3).
  fold hf in Ha1, Ha2. set (anc := largest_full t (Z.abs d)) in *.
  exists (mkS (W - 1) (hf / anc) (hf mod anc) (hf / Z.abs d) (hf mod Z.abs d)).
  split_and!; [done|done|]. unfold magic_s. fold hf.
  rewrite (proj2 (Z.eqb_neq d (-1))), (proj2 (Z.eqb_neq d 0)), (proj2 (Z.eqb_neq d 1)) by lia.
  cbn [orb]. rewrite sign_bit by lia. fold t.
  rewrite (wrap_small W (Z.abs d)) by lia.
  rewrite (add_w_Some W hf) by (fold t; lia). obind. fold t.
  rewrite (sub_Some t 1) by lia. obind. rewrite rem_w_Some by lia. obind.
  rewrite <- largest_full_mod by lia. fold anc. rewrite (wrap_small W anc) by lia.
  pose proof (Z.mul_div_le hf anc ltac:(lia)).
  pose proof (Z.mul_div_le hf (Z.abs d) ltac:(lia)).
  rewrite (div_w_Some hf anc) by lia. obind. rewrite mul_w_Some by lia. obind.
  rewrite sub_Some by lia. obind. rewrite (div_w_Some hf) by lia. obind.
  rewrite mul_w_Some by lia. obind. rewrite sub_Some by lia. obind.
  by rewrite !(Z.mul_comm (_ / _)), <- !Z.mod_eq by lia.
Qed.

Lemma magic_s_run W d :
  3 <= W <= 64 -> - 2 ^ (W - 1) <= d < 2 ^ (W - 1) -> 2 <= Z.abs d ->
  exists r, magic_s W d = Some r /\ magic_ok_s W d r.
Proof.
  intros HW Hd Had. destruct (magic_s_init W d HW Hd Had) as (s & Hinv & Hp & ->).
  set (t := 2 ^ (W - 1) + if d <? 0 then 1 else 0) in *.
  assert (t = 2 ^ (W - 1) \/ t = 2 ^ (W - 1) + 1) as Ht by (unfold t; destruct (d <? 0); lia).
  assert (2 <= Z.abs d <= 2 ^ (W - 1)) as Had' by lia.
  destruct (magic_s_loop_run W (Z.abs d) t HW Had' Ht (magic_s_fuel W) s)
    as (s' & -> & Hp' & (_ & _ & Eq & _) & Hnc & Hlt).
  - lia.
  - unfold magic_s_fuel. lia.
  - done.
  - rewrite Hp. by apply can_step_s_init.
  - obind. assert (0 < 2 ^ s_p s') as HP by (apply Z.pow_pos_nonneg; lia).
    assert (0 <= 2 ^ s_p s' / Z.abs d) by (apply Z.div_pos; lia).
    destruct (delta_s_spec W (Z.abs d) HW Had' (2 ^ s_p s')) as [Em ?]; [lia|].
    rewrite Eq, add_w_Some by lia. obind. eexists. split; [done|].
    exists (s_p s'), (2 ^ s_p s' / Z.abs d + 1). cbv zeta. cbn [ms_shift_by ms_mul_by].
    split_and!; try done; try lia. by destruct (d <? 0); rewrite ?swrap_wrap.
Qed.

(** C33. The magic-number functions are total on the divisors they accept
    (at least 2 in absolute value): the four loops break within their fuel, no
    addition, subtraction or multiplication overflows (also not for the divisor
    whose quotient [q1] wraps, nor for the most negative one), and the results
    satisfy the contract that turns the multiplication into a division. *)
Theorem magic_total :
  (forall d, 2 <= d < 2 ^ 32 -> exists r, magic_u32 d = Some r /\ magic_ok_u 32 d r) /\
  (forall d, 2 <= d < 2 ^ 64 -> exists r, magic_u64 d = Some r /\ magic_ok_u 64 d r) /\
  (forall d, - 2 ^ 31 <= d < 2 ^ 31 -> 2 <= Z.abs d ->
     exists r, magic_s32 d = Some r /\ magic_ok_s 32 d r) /\
  (forall d, - 2 ^ 63 <= d < 2 ^ 63 -> 2 <= Z.abs d ->
     exists r, magic_s64 d = Some r /\ magic_ok_s 64 d r).
Proof.
  split_and!; intros; (apply magic_u_run || apply magic_s_run); lia.
Qed.

Lemma magic_total_witness :
  (2 <= 2 ^ 31 + 1 < 2 ^ 32) /\
  exists r, magic_u32 (2 ^ 31 + 1) = Some r /\ magic_ok_u 32 (2 ^ 31 + 1) r.
Proof. split; [lia|]. apply (proj1 magic_total). lia. Defined.
