(* ===== verification/ClifTypes.v ===== *)
(** * Cranelift's value types

    cranelift/codegen/src/ir/types.rs: a type is a 16-bit number, with the lane
    type in the low four bits and the logarithm of the number of lanes above
    them (constants.rs, meta/src/cdsl/types.rs); and the type sets and operand
    constraints of ir/instructions.rs that are written with them.

    [ValueType] is the structured type the numbers stand for, as the code
    generator of the instruction set has it.  Shown: on the numbers of scalar
    and fixed vector types, every operation computes the number of the
    operation on structured types; the numbers are distinct; splitting and
    merging lanes are inverse and keep the total width; a type set contains
    exactly the types its bit sets describe; where an operation leaves the
    encoding of a dynamic vector, and where an example is not a member, is
    shown.

    [None] is a panic ([unimplemented!], a failed assertion); an operation that
    returns an [Option] has a second [option]. *)

From S2P Require Import Prelude BitSet.

(** ** Structured types (meta/src/cdsl/types.rs, meta/src/shared/types.rs) *)

Inductive LaneType := I8 | I16 | I32 | I64 | I128 | F16 | F32 | F64 | F128.

#[export] Instance LaneType_eq_dec : EqDecision LaneType.
Proof. solve_decision. Defined.

Definition all_lane_types : list LaneType := [I8; I16; I32; I64; I128; F16; F32; F64; F128].

Definition lt_bits (l : LaneType) : Z :=
  match l with
  | I8 => 8 | I16 | F16 => 16 | I32 | F32 => 32 | I64 | F64 => 64 | I128 | F128 => 128
  end.

Definition lt_is_int (l : LaneType) : bool :=
  match l with I8 | I16 | I32 | I64 | I128 => true | _ => false end.

(** [k] is the logarithm of the (minimum) number of lanes. *)
Inductive ValueType :=
| Lane (l : LaneType)
| Vector (l : LaneType) (k : Z)
| DynamicVector (l : LaneType) (k : Z).

#[export] Instance ValueType_eq_dec : EqDecision ValueType.
Proof. solve_decision. Defined.

Definition LANE_BASE : Z := 0x70.
Definition VECTOR_BASE : Z := 0x80.
Definition DYNAMIC_VECTOR_BASE : Z := 0x100.

(** [LaneType::number], [VectorType::number], [DynamicVectorType::number]. *)
Definition lt_number (l : LaneType) : Z :=
  LANE_BASE + match l with
              | I8 => 4 | I16 => 5 | I32 => 6 | I64 => 7 | I128 => 8
              | F16 => 9 | F32 => 10 | F64 => 11 | F128 => 12
              end.

Definition number (t : ValueType) : Z :=
  match t with
  | Lane l => lt_number l
  | Vector l k => Z.shiftl k 4 + lt_number l
  | DynamicVector l k => 0x80 + Z.shiftl k 4 + lt_number l
  end.

(** The structured types that have a number: 2 to 256 lanes; a dynamic vector
    has at most 256 bits ([vector_to_dynamic]). *)
Definition fixed (t : ValueType) : bool :=
  match t with
  | Lane _ => true
  | Vector _ k => (1 <=? k) && (k <=? 8)
  | DynamicVector _ _ => false
  end.

Definition dynamic (t : ValueType) : bool :=
  match t with
  | DynamicVector l k => (1 <=? k) && (lt_bits l * 2 ^ k <=? 256)
  | _ => false
  end.

(** ** Type numbers (ir/types.rs) *)

Definition INVALID : Z := 0.

Definition is_dynamic_vector (self : Z) : bool := DYNAMIC_VECTOR_BASE <=? self.

Definition is_vector (self : Z) : bool :=
  (VECTOR_BASE <=? self) && negb (is_dynamic_vector self).

Definition lane_type (self : Z) : Z :=
  if self <? VECTOR_BASE then self else Z.lor LANE_BASE (Z.land self 0x0f).

(** [match self.lane_type() { I8 => .., .. }]. *)
Definition lane_case (self : Z) : option LaneType :=
  list_find (fun l => lt_number l = lane_type self) all_lane_types ≫= (fun '(_, l) => Some l).

Definition log2_lane_bits (self : Z) : Z :=
  match lane_case self with
  | Some I8 => 3
  | Some (I16 | F16) => 4
  | Some (I32 | F32) => 5
  | Some (I64 | F64) => 6
  | Some (I128 | F128) => 7
  | None => 0
  end.

Definition lane_bits (self : Z) : Z :=
  match lane_case self with
  | Some I8 => 8
  | Some (I16 | F16) => 16
  | Some (I32 | F32) => 32
  | Some (I64 | F64) => 64
  | Some (I128 | F128) => 128
  | None => 0
  end.

(** The bounds are bit patterns of [u128]: a negative minimum is sign-extended. *)
Definition bounds (self : Z) (signed : bool) : option (Z * Z) :=
  match lane_case self with
  | Some (I8 | I16 | I32 | I64 | I128) =>
      let w := lane_bits self in
      if signed then Some ((- 2 ^ (w - 1)) mod 2 ^ 128, 2 ^ (w - 1) - 1)
      else Some (0, 2 ^ w - 1)
  | _ => None
  end.

Definition int (bits : Z) : option Z :=
  match bits with
  | 8 => Some (lt_number I8)
  | 16 => Some (lt_number I16)
  | 32 => Some (lt_number I32)
  | 64 => Some (lt_number I64)
  | 128 => Some (lt_number I128)
  | _ => None
  end.

Definition int_with_byte_size (bytes : Z) : option Z :=
  bits ← (if bytes * 8 <=? 2 ^ 16 - 1 then Some (bytes * 8) else None);
  int bits.

Definition is_special (self : Z) : bool := self <? LANE_BASE.

Definition is_lane (self : Z) : bool := (LANE_BASE <=? self) && (self <? VECTOR_BASE).

Definition replace_lanes (self lane : Z) : option Z :=
  if is_lane lane && negb (is_special self)
  then Some (Z.lor (Z.land lane 0x0f) (Z.land self 0xf0)) else None.

Definition as_truthy_pedantic (self : Z) : option Z :=
  replace_lanes self (lt_number match lane_case self with
    | Some I8 => I8
    | Some (I16 | F16) => I16
    | Some (I32 | F32) => I32
    | Some (I64 | F64) => I64
    | Some (I128 | F128) => I128
    | None => I8
    end).

Definition as_truthy (self : Z) : option Z :=
  if negb (is_vector self) then Some (lt_number I8) else as_truthy_pedantic self.

Definition as_int (self : Z) : option Z :=
  l ← match lane_case self with
      | Some I8 => Some I8
      | Some (I16 | F16) => Some I16
      | Some (I32 | F32) => Some I32
      | Some (I64 | F64) => Some I64
      | Some (I128 | F128) => Some I128
      | None => None
      end;
  replace_lanes self (lt_number l).

Definition half_width (self : Z) : option (option Z) :=
  match match lane_case self with
        | Some I16 => Some I8
        | Some I32 => Some I16
        | Some I64 => Some I32
        | Some I128 => Some I64
        | Some F32 => Some F16
        | Some F64 => Some F32
        | Some F128 => Some F64
        | _ => None
        end with
  | Some l => Some <$> replace_lanes self (lt_number l)
  | None => Some None
  end.

Definition double_width (self : Z) : option (option Z) :=
  match match lane_case self with
        | Some I8 => Some I16
        | Some I16 => Some I32
        | Some I32 => Some I64
        | Some I64 => Some I128
        | Some F16 => Some F32
        | Some F32 => Some F64
        | Some F64 => Some F128
        | _ => None
        end with
  | Some l => Some <$> replace_lanes self (lt_number l)
  | None => Some None
  end.

Definition is_invalid (self : Z) : bool := self =? INVALID.

Definition is_int (self : Z) : bool :=
  existsb (fun l => self =? lt_number l) [I8; I16; I32; I64; I128].

Definition is_float (self : Z) : bool :=
  existsb (fun l => self =? lt_number l) [F16; F32; F64; F128].

Definition log2_lane_count (self : Z) : Z :=
  if is_dynamic_vector self then 0
  else Z.shiftr (saturating_sub self LANE_BASE) 4.

Definition log2_min_lane_count (self : Z) : Z :=
  if is_dynamic_vector self
  then Z.shiftr (saturating_sub self (VECTOR_BASE + LANE_BASE)) 4
  else log2_lane_count self.

Definition lane_count (self : Z) : Z :=
  if is_dynamic_vector self then 0 else Z.shiftl 1 (log2_lane_count self).

Definition bits (self : Z) : Z :=
  if is_dynamic_vector self then 0 else lane_bits self * lane_count self.

Definition min_lane_count (self : Z) : Z :=
  if is_dynamic_vector self then Z.shiftl 1 (log2_min_lane_count self)
  else Z.shiftl 1 (log2_lane_count self).

Definition min_bits (self : Z) : Z :=
  if is_dynamic_vector self then lane_bits self * min_lane_count self else bits self.

Definition bytes (self : Z) : Z := (bits self + 7) / 8.

(** [n.is_power_of_two()] of a [u32]. *)
Definition is_power_of_two (n : Z) : bool := (0 <? n) && (2 ^ Z.log2 n =? n).

Definition by_ (self n : Z) : option Z :=
  if is_dynamic_vector self then None else
  if (lane_bits self =? 0) || negb (is_power_of_two n) then None else
  let log2_lanes := trailing_zeros 32 n in
  let new_type := self + Z.shiftl log2_lanes 4 in
  if (new_type <? DYNAMIC_VECTOR_BASE) && (new_type mod 2 ^ 16 <? DYNAMIC_VECTOR_BASE)
  then Some (new_type mod 2 ^ 16) else None.

Definition vector_to_dynamic (self : Z) : option (option Z) :=
  if negb (is_vector self) then None else
  if 256 <? bits self then Some None else
  let new_ty := self + VECTOR_BASE in
  if is_dynamic_vector new_ty then Some (Some new_ty) else None.

Definition dynamic_to_vector (self : Z) : option (option Z) :=
  if negb (is_dynamic_vector self) then None else Some (Some (self - VECTOR_BASE)).

Definition split_lanes (self : Z) : option (option Z) :=
  h ← half_width self;
  Some match h with Some half_width => by_ half_width 2 | None => None end.

Definition merge_lanes (self : Z) : option (option Z) :=
  h ← double_width self;
  Some match h with
       | Some double_width =>
           if is_vector double_width && negb (is_dynamic_vector double_width)
           then Some (double_width - 0x10) else None
       | None => None
       end.

Definition wider_or_equal (self other : Z) : bool :=
  (lane_count self =? lane_count other) && (lane_bits other <=? lane_bits self).

(** ** Type sets and operand constraints (ir/instructions.rs) *)

Record ValueTypeSet := mkTS {
  ts_lanes : Z;          (* a ScalarBitSet<u16> *)
  ts_ints : Z;           (* a ScalarBitSet<u8> *)
  ts_floats : Z;         (* a ScalarBitSet<u8> *)
  ts_dynamic_lanes : Z   (* a ScalarBitSet<u16> *)
}.

Definition empty_type_set : ValueTypeSet := mkTS 0 0 0 0.

(** [u8::try_from(..).unwrap()] of the code is always in range. *)
Definition is_base_type (self : ValueTypeSet) (scalar : Z) : option bool :=
  l2b ← try_from 255 (log2_lane_bits scalar);
  if is_int scalar then scalar_contains 8 (ts_ints self) l2b
  else if is_float scalar then scalar_contains 8 (ts_floats self) l2b
  else Some false.

Definition type_set_contains (self : ValueTypeSet) (typ : Z) : option bool :=
  if is_dynamic_vector typ then
    l2l ← try_from 255 (log2_min_lane_count typ);
    b ← scalar_contains 16 (ts_dynamic_lanes self) l2l;
    if (b : bool) then is_base_type self (lane_type typ) else Some false
  else
    l2l ← try_from 255 (log2_lane_count typ);
    b ← scalar_contains 16 (ts_lanes self) l2l;
    if (b : bool) then is_base_type self (lane_type typ) else Some false.

Definition type_set_example (self : ValueTypeSet) : option Z :=
  let t := if 5 <? default 0 (scalar_max 8 (ts_ints self)) then I32
           else if 5 <? default 0 (scalar_max 8 (ts_floats self)) then F32
           else I8 in
  k ← scalar_min 16 (ts_lanes self);
  by_ (lt_number t) (Z.shiftl 1 k).

Inductive OperandConstraint :=
| Concrete (t : Z)
| Free (vts : Z)
| Same
| LaneOf
| AsTruthy
| HalfWidth
| DoubleWidth
| SplitLanes
| MergeLanes
| DynamicToVector
| Narrower
| Wider.

Inductive ResolvedConstraint :=
| Bound (t : Z)
| FreeIn (s : ValueTypeSet).

(** [.expect(..)] on the result of an operation. *)
Definition expect {A} (o : option (option A)) : option A := r ← o; r.

(** [TYPE_SETS] is a table the build generates. *)
Definition resolve (TYPE_SETS : list ValueTypeSet) (self : OperandConstraint) (ctrl_type : Z)
  : option ResolvedConstraint :=
  match self with
  | Concrete t => Some (Bound t)
  | Free vts => FreeIn <$> zget TYPE_SETS vts
  | Same => Some (Bound ctrl_type)
  | LaneOf => Some (Bound (lane_type ctrl_type))
  | AsTruthy => Bound <$> as_truthy ctrl_type
  | HalfWidth => Bound <$> expect (half_width ctrl_type)
  | DoubleWidth => Bound <$> expect (double_width ctrl_type)
  | SplitLanes =>
      if is_dynamic_vector ctrl_type then
        v ← expect (dynamic_to_vector ctrl_type);
        s ← expect (split_lanes v);
        Bound <$> expect (vector_to_dynamic s)
      else Bound <$> expect (split_lanes ctrl_type)
  | MergeLanes =>
      if is_dynamic_vector ctrl_type then
        v ← expect (dynamic_to_vector ctrl_type);
        s ← expect (merge_lanes v);
        Bound <$> expect (vector_to_dynamic s)
      else Bound <$> expect (merge_lanes ctrl_type)
  | DynamicToVector => Bound <$> expect (dynamic_to_vector ctrl_type)
  | Narrower =>
      let ctrl_type_bits := log2_lane_bits ctrl_type in
      lanes ← from_range 16 0 1;
      if is_int ctrl_type then
        ints ← from_range 8 3 ctrl_type_bits; Some (FreeIn (mkTS lanes ints 0 0))
      else if is_float ctrl_type then
        floats ← from_range 8 4 ctrl_type_bits; Some (FreeIn (mkTS lanes 0 floats 0))
      else None
  | Wider =>
      let ctrl_type_bits := log2_lane_bits ctrl_type in
      lanes ← from_range 16 0 1;
      let lower_bound := ctrl_type_bits + 1 in
      if is_int ctrl_type then
        if lower_bound <? 8 then
          ints ← from_range 8 lower_bound 8; Some (FreeIn (mkTS lanes ints 0 0))
        else Some (FreeIn (mkTS lanes 0 0 0))
      else if is_float ctrl_type then
        if lower_bound <? 8 then
          floats ← from_range 8 lower_bound 8; Some (FreeIn (mkTS lanes 0 floats 0))
        else Some (FreeIn (mkTS lanes 0 0 0))
      else None
  end.

(** ** The specification: operations on structured types *)

Module Spec.

Definition half (l : LaneType) : option LaneType :=
  list_find (fun l' => 2 * lt_bits l' = lt_bits l /\ lt_is_int l' = lt_is_int l) all_lane_types
    ≫= (fun '(_, l) => Some l).

Definition double (l : LaneType) : option LaneType :=
  list_find (fun l' => lt_bits l' = 2 * lt_bits l /\ lt_is_int l' = lt_is_int l) all_lane_types
    ≫= (fun '(_, l) => Some l).

(** The integer type of the same width. *)
Definition int_of (l : LaneType) : LaneType :=
  match l with F16 => I16 | F32 => I32 | F64 => I64 | F128 => I128 | _ => l end.

Definition lane (t : ValueType) : LaneType :=
  match t with Lane l | Vector l _ | DynamicVector l _ => l end.

Definition log2_lanes (t : ValueType) : Z :=
  match t with Lane _ => 0 | Vector _ k | DynamicVector _ k => k end.

Definition lanes (t : ValueType) : Z := 2 ^ log2_lanes t.

(** The total width, the minimum one for a dynamic vector. *)
Definition width (t : ValueType) : Z := lt_bits (lane t) * lanes t.

Definition set_lane (t : ValueType) (l : LaneType) : ValueType :=
  match t with
  | Lane _ => Lane l
  | Vector _ k => Vector l k
  | DynamicVector _ k => DynamicVector l k
  end.

(** A vector of [2^k] lanes, a scalar when there is one. *)
Definition vector (l : LaneType) (k : Z) : ValueType := if k =? 0 then Lane l else Vector l k.

Definition times (t : ValueType) (k : Z) : option ValueType :=
  if log2_lanes t + k <=? 8 then Some (vector (lane t) (log2_lanes t + k)) else None.

Definition split (t : ValueType) : option ValueType :=
  l ← half (lane t); times (set_lane t l) 1.

Definition merge (t : ValueType) : option ValueType :=
  match t with
  | Vector l k => l ← double l; Some (vector l (k - 1))
  | _ => None
  end.

Definition all_fixed : list ValueType :=
  (Lane <$> all_lane_types) ++
  (l ← all_lane_types; k ← seqZ 1 8; [Vector l k]).

Definition all_dynamic : list ValueType :=
  filter (fun t => dynamic t = true) (l ← all_lane_types; k ← seqZ 1 8; [DynamicVector l k]).
End Spec.

Lemma elem_of_all_lane_types l : l ∈ all_lane_types.
Proof. apply (bool_decide_unpack _). destruct l; vm_compute; exact I. Qed.

Lemma all_fixed_spec t : fixed t = true -> t ∈ Spec.all_fixed.
Proof.
  intros Ht. unfold Spec.all_fixed. apply elem_of_app. destruct t as [l|l k|]; [left|right|done].
  - apply list_elem_of_fmap. eauto using elem_of_all_lane_types.
  - apply list_elem_of_bind. exists l. split; [|apply elem_of_all_lane_types].
    apply list_elem_of_bind. exists k. split; [by apply list_elem_of_singleton|].
    apply elem_of_seqZ. simpl in Ht. lia.
Qed.

Lemma all_dynamic_spec t : dynamic t = true -> t ∈ Spec.all_dynamic.
Proof.
  intros Ht. apply list_elem_of_filter. split; [done|]. destruct t as [| |l k]; [done..|].
  apply list_elem_of_bind. exists l. split; [|apply elem_of_all_lane_types].
  apply list_elem_of_bind. exists k. split; [by apply list_elem_of_singleton|].
  simpl in Ht. apply andb_true_iff in Ht as [H1%Z.leb_le H2%Z.leb_le].
  apply elem_of_seqZ. destruct (decide (k <= 8)); [lia|].
  pose proof (Z.pow_le_mono_r 2 9 k). destruct l; simpl in *; lia.
Qed.

(** A decidable property of all structured types is checked by enumeration. *)
Lemma fixed_enum (Q : ValueType -> Prop) `{forall t, Decision (Q t)} :
  forallb (fun t => bool_decide (Q t)) Spec.all_fixed = true ->
  forall t, fixed t = true -> Q t.
Proof.
  intros Hall t Ht%all_fixed_spec.
  eapply bool_decide_unpack, Is_true_true, (proj1 (forallb_elem _ _) Hall _ Ht).
Qed.

Lemma dynamic_enum (Q : ValueType -> Prop) `{forall t, Decision (Q t)} :
  forallb (fun t => bool_decide (Q t)) Spec.all_dynamic = true ->
  forall t, dynamic t = true -> Q t.
Proof.
  intros Hall t Ht%all_dynamic_spec.
  eapply bool_decide_unpack, Is_true_true, (proj1 (forallb_elem _ _) Hall _ Ht).
Qed.

Lemma type_enum (Q : ValueType -> Prop) `{forall t, Decision (Q t)} :
  forallb (fun t => bool_decide (Q t)) (Spec.all_fixed ++ Spec.all_dynamic) = true ->
  forall t, fixed t = true \/ dynamic t = true -> Q t.
Proof.
  rewrite forallb_app, andb_true_iff. intros [H1 H2] t [Ht|Ht]; revert t Ht.
  - by apply (fixed_enum Q).
  - by apply (dynamic_enum Q).
Qed.

(** The 16-bit type numbers implement the structured types: for every
    scalar and fixed vector type, lane type, lane and total width, lane count,
    the width changes, the conversions to integer and truth types and the
    classification all compute the number of the structured result, or [None]
    where there is none; no operation panics. *)
Theorem type_numbers_refine t :
  fixed t = true ->
  lane_type (number t) = lt_number (Spec.lane t) /\
  lane_bits (number t) = lt_bits (Spec.lane t) /\
  2 ^ log2_lane_bits (number t) = lt_bits (Spec.lane t) /\
  lane_count (number t) = Spec.lanes t /\
  bits (number t) = Spec.width t /\
  8 * bytes (number t) = Spec.width t /\
  half_width (number t) = Some (number ∘ Spec.set_lane t <$> Spec.half (Spec.lane t)) /\
  double_width (number t) = Some (number ∘ Spec.set_lane t <$> Spec.double (Spec.lane t)) /\
  split_lanes (number t) = Some (number <$> Spec.split t) /\
  merge_lanes (number t) = Some (number <$> Spec.merge t) /\
  as_int (number t) = Some (number (Spec.set_lane t (Spec.int_of (Spec.lane t)))) /\
  as_truthy (number t) =
    Some (number (if decide (t = Lane (Spec.lane t)) then Lane I8
                  else Spec.set_lane t (Spec.int_of (Spec.lane t)))) /\
  is_vector (number t) = negb (bool_decide (t = Lane (Spec.lane t))) /\
  is_dynamic_vector (number t) = false /\
  is_int (number t) = bool_decide (t = Lane (Spec.lane t) /\ lt_is_int (Spec.lane t) = true) /\
  is_float (number t) = bool_decide (t = Lane (Spec.lane t) /\ lt_is_int (Spec.lane t) = false).
Proof. revert t. apply (fixed_enum _). vm_compute. reflexivity. Qed.

Lemma type_numbers_refine_witness :
  split_lanes (number (Vector I32 2)) = Some (Some (number (Vector I16 3))).
Proof. apply (type_numbers_refine (Vector I32 2)). reflexivity. Defined.

(** [by] multiplies the number of lanes, up to 256. *)
Theorem type_by_correct t k :
  fixed t = true -> 0 <= k < 32 -> by_ (number t) (2 ^ k) = number <$> Spec.times t k.
Proof.
  intros Ht Hk.
  assert (forall t, fixed t = true ->
            Forall (fun k => by_ (number t) (2 ^ k) = number <$> Spec.times t k) (seqZ 0 32)) as Hall.
  { apply (fixed_enum _). vm_compute. reflexivity. }
  specialize (Hall t Ht). rewrite Forall_forall in Hall. apply Hall, elem_of_seqZ. lia.
Qed.

(** [by] of a number of lanes that is not a power of two is refused. *)
Lemma type_by_other t n : is_power_of_two n = false -> by_ t n = None.
Proof. intros Hn. unfold by_. rewrite Hn, orb_true_r. by destruct (is_dynamic_vector t). Qed.

(** Different types have different numbers, fixed and dynamic ones
    together, so that comparing numbers compares types; and all numbers fit the
    14 bits that are left to a type in the instruction data. *)
Theorem type_number_inj t t' :
  fixed t = true \/ dynamic t = true -> fixed t' = true \/ dynamic t' = true ->
  0 <= number t < 2 ^ 14 /\ (number t = number t' -> t = t').
Proof.
  assert (forallb (fun t => forallb (fun t' => (negb (number t =? number t') || bool_decide (t = t')) &&
            (0 <=? number t) && (number t <? 2 ^ 14))
            (Spec.all_fixed ++ Spec.all_dynamic)) (Spec.all_fixed ++ Spec.all_dynamic) = true)
    as Hall by (vm_compute; reflexivity).
  assert (forall t, fixed t = true \/ dynamic t = true ->
            t ∈ Spec.all_fixed ++ Spec.all_dynamic) as Hin.
  { intros u Hu. apply elem_of_app. clear Hall.
    destruct Hu; [left; by apply all_fixed_spec|right; by apply all_dynamic_spec]. }
  intros Ht%Hin Ht'%Hin.
  apply (proj1 (forallb_elem _ _) Hall), (fun H => proj1 (forallb_elem _ _) H _ Ht') in Ht.
  apply andb_true_iff in Ht as [[H1 H2%Z.leb_le]%andb_true_iff H3%Z.ltb_lt].
  clear Hall. split; [lia|]. intros E. rewrite E, Z.eqb_refl in H1. by apply bool_decide_eq_true in H1.
Qed.

Lemma type_number_inj_witness :
  (fixed (Vector F32 2) = true \/ dynamic (Vector F32 2) = true) /\
  0 <= number (Vector F32 2) < 2 ^ 14.
Proof.
  split; [by left|]. apply (type_number_inj (Vector F32 2) (DynamicVector F32 2));
    [by left|by right].
Defined.

(** Dynamic vectors: the conversions are inverse and the widths are those of
    the minimum number of lanes. *)
Lemma type_dynamic t :
  dynamic t = true ->
  dynamic_to_vector (number t) =
    Some (Some (number (Vector (Spec.lane t) (Spec.log2_lanes t)))) /\
  vector_to_dynamic (number (Vector (Spec.lane t) (Spec.log2_lanes t))) = Some (Some (number t)) /\
  lane_type (number t) = lt_number (Spec.lane t) /\
  min_lane_count (number t) = Spec.lanes t /\ min_bits (number t) = Spec.width t /\
  is_vector (number t) = false /\ bits (number t) = 0.
Proof. revert t. apply (dynamic_enum _). vm_compute. reflexivity. Qed.

(** Splitting and merging lanes are inverse and keep the width:
    a type that can be split is what merging its halves gives back, and the
    other way round; the operand constraints resolve to the same also for
    dynamic vectors, whose results stay dynamic. *)
Theorem type_split_merge t :
  (fixed t = true \/ dynamic t = true) ->
  forall r, resolve [] SplitLanes (number t) = Some (Bound r) ->
  resolve [] MergeLanes r = Some (Bound (number t)) /\ min_bits r = min_bits (number t) /\
  is_dynamic_vector r = is_dynamic_vector (number t).
Proof.
  set (Q := fun t => match resolve [] SplitLanes (number t) with
    | Some (Bound r) =>
        match resolve [] MergeLanes r with
        | Some (Bound m) => (m =? number t) && (min_bits r =? min_bits (number t)) &&
                            eqb (is_dynamic_vector r) (is_dynamic_vector (number t))
        | _ => false
        end
    | _ => true
    end = true).
  assert (forall t, fixed t = true \/ dynamic t = true -> Q t) as HQ.
  { apply (type_enum Q). vm_compute. reflexivity. }
  intros Ht r Hr. specialize (HQ t Ht). unfold Q in HQ. rewrite Hr in HQ.
  destruct (resolve [] MergeLanes r) as [[m|]|]; [|done..].
  apply andb_true_iff in HQ as [[H1%Z.eqb_eq H2%Z.eqb_eq]%andb_true_iff H3%eqb_prop].
  by subst.
Qed.

Lemma type_split_merge_witness :
  resolve [] MergeLanes (number (DynamicVector I16 3)) =
    Some (Bound (number (DynamicVector I32 2))).
Proof.
  apply (type_split_merge (DynamicVector I32 2) (or_intror eq_refl)). vm_compute. reflexivity.
Defined.

(** The other changes of lanes are not defined on dynamic vectors:
    [replace_lanes] keeps only eight bits of the number, so that a dynamic
    vector whose lanes are replaced becomes a number that is no type, although
    the assertion of [replace_lanes] and the documentation of [half_width],
    [double_width] and [as_int] ("the same number of lanes") admit it. *)
Theorem type_dynamic_lanes_lost t :
  dynamic t = true ->
  (forall r, half_width (number t) = Some (Some r) -> is_dynamic_vector r = false) /\
  (forall r, double_width (number t) = Some (Some r) -> is_dynamic_vector r = false) /\
  (forall r, as_int (number t) = Some r ->
     is_special r = true \/ lane_count r <> min_lane_count (number t)).
Proof.
  set (Q := fun t =>
    match half_width (number t) with Some (Some r) => negb (is_dynamic_vector r) | _ => true end &&
    match double_width (number t) with Some (Some r) => negb (is_dynamic_vector r) | _ => true end &&
    match as_int (number t) with
    | Some r => is_special r || negb (lane_count r =? min_lane_count (number t))
    | _ => true end = true).
  intros Ht. assert (Q t) as HQ.
  { revert t Ht. apply (dynamic_enum Q). vm_compute. reflexivity. }
  unfold Q in HQ. apply andb_true_iff in HQ as [[H1 H2]%andb_true_iff H3].
  split_and!; intros r Hr; rewrite Hr in *.
  - by apply negb_true_iff.
  - by apply negb_true_iff.
  - apply orb_true_iff in H3 as [|H3%negb_true_iff%Z.eqb_neq]; auto.
Qed.

Lemma type_dynamic_lanes_lost_witness :
  dynamic (DynamicVector I32 2) = true /\ is_dynamic_vector 0x15 = false.
Proof.
  split; [reflexivity|].
  apply (proj1 (type_dynamic_lanes_lost (DynamicVector I32 2) eq_refl)). vm_compute. reflexivity.
Defined.

(** Membership in a type set, for every type with a number. *)
Lemma type_set_contains_run s t :
  fixed t = true \/ dynamic t = true ->
  type_set_contains s (number t) =
    Some (Z.testbit (if dynamic t then ts_dynamic_lanes s else ts_lanes s) (Spec.log2_lanes t) &&
          Z.testbit (if lt_is_int (Spec.lane t) then ts_ints s else ts_floats s)
                    (Z.log2 (lt_bits (Spec.lane t)))).
Proof.
  assert (forall u, fixed u = true \/ dynamic u = true ->
    is_dynamic_vector (number u) = dynamic u /\
    log2_min_lane_count (number u) = Spec.log2_lanes u /\
    (dynamic u = false -> log2_lane_count (number u) = Spec.log2_lanes u) /\
    0 <= Spec.log2_lanes u < 16 /\
    lane_type (number u) = lt_number (Spec.lane u)) as Hnum.
  { apply (type_enum _). vm_compute. reflexivity. }
  assert (forall l, is_base_type s (lt_number l) =
    Some (Z.testbit (if lt_is_int l then ts_ints s else ts_floats s) (Z.log2 (lt_bits l)))) as Hbase.
  { intros l. unfold is_base_type.
    assert (log2_lane_bits (lt_number l) = Z.log2 (lt_bits l) /\
            is_int (lt_number l) = lt_is_int l /\ is_float (lt_number l) = negb (lt_is_int l) /\
            0 <= Z.log2 (lt_bits l) < 8) as (-> & -> & -> & ?)
      by (split_and!; destruct l; (reflexivity || (vm_compute; congruence))).
    rewrite try_from_in by lia. cbn [mbind option_bind].
    by destruct (lt_is_int l); cbn [negb]; rewrite scalar_contains_run by lia. }
  intros Ht. destruct (Hnum t Ht) as (E1 & E2 & E3 & Hk & E5).
  unfold type_set_contains. rewrite E1, E2, E5.
  destruct (dynamic t) eqn:Hd; [|rewrite E3 by done];
    rewrite try_from_in by lia; cbn [mbind option_bind];
    rewrite scalar_contains_run by lia; cbn [mbind option_bind]; rewrite Hbase;
    by destruct (Z.testbit _ (Spec.log2_lanes t)).
Qed.

(** The constraints [Narrower] and [Wider] resolve, for every scalar
    controlling type, to the set of exactly the scalar types of the same class
    that are narrower, or wider: I128 and F128 have no wider types, I8 and F16
    no narrower ones, and no bit set operation panics. *)
Theorem type_narrower_wider l t :
  fixed t = true \/ dynamic t = true ->
  let same : Prop := (t = Lane (Spec.lane t) /\ lt_is_int (Spec.lane t) = lt_is_int l) in
  (exists s, resolve [] Narrower (lt_number l) = Some (FreeIn s) /\
     type_set_contains s (number t) = Some (bool_decide (same /\ lt_bits (Spec.lane t) < lt_bits l))) /\
  (exists s, resolve [] Wider (lt_number l) = Some (FreeIn s) /\
     type_set_contains s (number t) = Some (bool_decide (same /\ lt_bits l < lt_bits (Spec.lane t)))).
Proof.
  intros Ht same. subst same.
  destruct l; (split; eexists; (split; [vm_compute; reflexivity|]);
    rewrite type_set_contains_run by done; f_equal;
    revert t Ht; apply (type_enum _); vm_compute; reflexivity).
Qed.

Lemma type_narrower_wider_witness :
  (fixed (Lane I16) = true \/ dynamic (Lane I16) = true) /\
  exists s, resolve [] Narrower (lt_number I32) = Some (FreeIn s) /\
    type_set_contains s (number (Lane I16)) = Some true.
Proof.
  split; [by left|]. apply (proj1 (type_narrower_wider I32 (Lane I16) (or_introl eq_refl))).
Defined.

(** [ValueTypeSet::example] need not be a member of the set: the set
    of the scalar type I32 alone has the example I8, because the code asks for
    integers wider than [2^5] bits before it suggests I32. *)
Theorem type_set_example_not_member :
  exists s, type_set_contains s (lt_number I32) = Some true /\
    type_set_example s = Some (lt_number I8) /\
    type_set_contains s (lt_number I8) = Some false.
Proof. exists (mkTS 1 32 0 0). vm_compute. auto. Qed.
