(* ===== verification/CondCodes.v ===== *)
(** * Condition codes

    cranelift/codegen/src/ir/condcodes.rs, with the comparisons of the CLIF
    interpreter (cranelift/interpreter/src/step.rs: the closure [cmp] of [icmp],
    and [fcmp]) as their meaning.  An integer comparison is decided by the
    signed and the unsigned values of its operands; a floating point comparison
    by the one of four ways in which its operands relate.

    Shown: the complement of a code gives the opposite result, the swapped code
    the result on swapped operands, for every pair of operands; removing
    equality or signedness does what it says; the fourteen floating point codes
    are exactly the relations that are neither always false nor always true;
    the textual forms parse back. *)

From stdpp Require Import strings.
From S2P Require Import Prelude.

(** ** Integer condition codes *)

Inductive IntCC :=
| Equal
| NotEqual
| SignedLessThan
| SignedGreaterThanOrEqual
| SignedGreaterThan
| SignedLessThanOrEqual
| UnsignedLessThan
| UnsignedGreaterThanOrEqual
| UnsignedGreaterThan
| UnsignedLessThanOrEqual.

#[export] Instance IntCC_eq_dec : EqDecision IntCC.
Proof. solve_decision. Defined.

(** [trait CondCode]: the operations every kind of code has, and the documented
    laws they keep with respect to the comparison [cmp cc x y]. *)
Class CondCode (CC V : Type) (cmp : CC -> V -> V -> bool) := {
  complement : CC -> CC;
  swap_args : CC -> CC;
  complement_ok cc x y : cmp (complement cc) x y = negb (cmp cc x y);
  swap_args_ok cc x y : cmp (swap_args cc) y x = cmp cc x y
}.

Definition int_complement (self : IntCC) : IntCC :=
  match self with
  | Equal => NotEqual
  | NotEqual => Equal
  | SignedLessThan => SignedGreaterThanOrEqual
  | SignedGreaterThanOrEqual => SignedLessThan
  | SignedGreaterThan => SignedLessThanOrEqual
  | SignedLessThanOrEqual => SignedGreaterThan
  | UnsignedLessThan => UnsignedGreaterThanOrEqual
  | UnsignedGreaterThanOrEqual => UnsignedLessThan
  | UnsignedGreaterThan => UnsignedLessThanOrEqual
  | UnsignedLessThanOrEqual => UnsignedGreaterThan
  end.

Definition int_swap_args (self : IntCC) : IntCC :=
  match self with
  | Equal => Equal
  | NotEqual => NotEqual
  | SignedGreaterThan => SignedLessThan
  | SignedGreaterThanOrEqual => SignedLessThanOrEqual
  | SignedLessThan => SignedGreaterThan
  | SignedLessThanOrEqual => SignedGreaterThanOrEqual
  | UnsignedGreaterThan => UnsignedLessThan
  | UnsignedGreaterThanOrEqual => UnsignedLessThanOrEqual
  | UnsignedLessThan => UnsignedGreaterThan
  | UnsignedLessThanOrEqual => UnsignedGreaterThanOrEqual
  end.

Definition int_all : list IntCC :=
  [Equal; NotEqual; SignedLessThan; SignedGreaterThanOrEqual; SignedGreaterThan;
   SignedLessThanOrEqual; UnsignedLessThan; UnsignedGreaterThanOrEqual;
   UnsignedGreaterThan; UnsignedLessThanOrEqual].

Definition without_equal (self : IntCC) : IntCC :=
  match self with
  | SignedGreaterThan | SignedGreaterThanOrEqual => SignedGreaterThan
  | SignedLessThan | SignedLessThanOrEqual => SignedLessThan
  | UnsignedGreaterThan | UnsignedGreaterThanOrEqual => UnsignedGreaterThan
  | UnsignedLessThan | UnsignedLessThanOrEqual => UnsignedLessThan
  | _ => self
  end.

Definition unsigned (self : IntCC) : IntCC :=
  match self with
  | SignedGreaterThan | UnsignedGreaterThan => UnsignedGreaterThan
  | SignedGreaterThanOrEqual | UnsignedGreaterThanOrEqual => UnsignedGreaterThanOrEqual
  | SignedLessThan | UnsignedLessThan => UnsignedLessThan
  | SignedLessThanOrEqual | UnsignedLessThanOrEqual => UnsignedLessThanOrEqual
  | _ => self
  end.

Definition to_static_str (self : IntCC) : string :=
  match self with
  | Equal => "eq"
  | NotEqual => "ne"
  | SignedGreaterThan => "sgt"
  | SignedGreaterThanOrEqual => "sge"
  | SignedLessThan => "slt"
  | SignedLessThanOrEqual => "sle"
  | UnsignedGreaterThan => "ugt"
  | UnsignedGreaterThanOrEqual => "uge"
  | UnsignedLessThan => "ult"
  | UnsignedLessThanOrEqual => "ule"
  end.

Definition int_from_str (s : string) : option IntCC :=
  if String.eqb s "eq" then Some Equal
  else if String.eqb s "ne" then Some NotEqual
  else if String.eqb s "sge" then Some SignedGreaterThanOrEqual
  else if String.eqb s "sgt" then Some SignedGreaterThan
  else if String.eqb s "sle" then Some SignedLessThanOrEqual
  else if String.eqb s "slt" then Some SignedLessThan
  else if String.eqb s "uge" then Some UnsignedGreaterThanOrEqual
  else if String.eqb s "ugt" then Some UnsignedGreaterThan
  else if String.eqb s "ule" then Some UnsignedLessThanOrEqual
  else if String.eqb s "ult" then Some UnsignedLessThan
  else None.

(** The closure [cmp] of the interpreter's [icmp], on the signed values [a] and
    [b] of operands of width [w]. *)
Definition int_cmp (w : Z) (code : IntCC) (a b : Z) : bool :=
  match code with
  | Equal => a =? b
  | NotEqual => negb (a =? b)
  | SignedGreaterThan => b <? a
  | SignedGreaterThanOrEqual => b <=? a
  | SignedLessThan => a <? b
  | SignedLessThanOrEqual => a <=? b
  | UnsignedGreaterThan => b mod 2 ^ w <? a mod 2 ^ w
  | UnsignedGreaterThanOrEqual => b mod 2 ^ w <=? a mod 2 ^ w
  | UnsignedLessThan => a mod 2 ^ w <? b mod 2 ^ w
  | UnsignedLessThanOrEqual => a mod 2 ^ w <=? b mod 2 ^ w
  end.

(** ** Floating point condition codes *)

Inductive FloatCC :=
| Ordered
| Unordered
| FEqual
| FNotEqual
| OrderedNotEqual
| UnorderedOrEqual
| LessThan
| LessThanOrEqual
| GreaterThan
| GreaterThanOrEqual
| UnorderedOrLessThan
| UnorderedOrLessThanOrEqual
| UnorderedOrGreaterThan
| UnorderedOrGreaterThanOrEqual.

#[export] Instance FloatCC_eq_dec : EqDecision FloatCC.
Proof. solve_decision. Defined.

Definition float_all : list FloatCC :=
  [Ordered; Unordered; FEqual; FNotEqual; OrderedNotEqual; UnorderedOrEqual; LessThan;
   LessThanOrEqual; GreaterThan; GreaterThanOrEqual; UnorderedOrLessThan;
   UnorderedOrLessThanOrEqual; UnorderedOrGreaterThan; UnorderedOrGreaterThanOrEqual].

Definition float_complement (self : FloatCC) : FloatCC :=
  match self with
  | Ordered => Unordered
  | Unordered => Ordered
  | FEqual => FNotEqual
  | FNotEqual => FEqual
  | OrderedNotEqual => UnorderedOrEqual
  | UnorderedOrEqual => OrderedNotEqual
  | LessThan => UnorderedOrGreaterThanOrEqual
  | LessThanOrEqual => UnorderedOrGreaterThan
  | GreaterThan => UnorderedOrLessThanOrEqual
  | GreaterThanOrEqual => UnorderedOrLessThan
  | UnorderedOrLessThan => GreaterThanOrEqual
  | UnorderedOrLessThanOrEqual => GreaterThan
  | UnorderedOrGreaterThan => LessThanOrEqual
  | UnorderedOrGreaterThanOrEqual => LessThan
  end.

Definition float_swap_args (self : FloatCC) : FloatCC :=
  match self with
  | Ordered => Ordered
  | Unordered => Unordered
  | FEqual => FEqual
  | FNotEqual => FNotEqual
  | OrderedNotEqual => OrderedNotEqual
  | UnorderedOrEqual => UnorderedOrEqual
  | LessThan => GreaterThan
  | LessThanOrEqual => GreaterThanOrEqual
  | GreaterThan => LessThan
  | GreaterThanOrEqual => LessThanOrEqual
  | UnorderedOrLessThan => UnorderedOrGreaterThan
  | UnorderedOrLessThanOrEqual => UnorderedOrGreaterThanOrEqual
  | UnorderedOrGreaterThan => UnorderedOrLessThan
  | UnorderedOrGreaterThanOrEqual => UnorderedOrLessThanOrEqual
  end.

Definition float_to_str (self : FloatCC) : string :=
  match self with
  | Ordered => "ord"
  | Unordered => "uno"
  | FEqual => "eq"
  | FNotEqual => "ne"
  | OrderedNotEqual => "one"
  | UnorderedOrEqual => "ueq"
  | LessThan => "lt"
  | LessThanOrEqual => "le"
  | GreaterThan => "gt"
  | GreaterThanOrEqual => "ge"
  | UnorderedOrLessThan => "ult"
  | UnorderedOrLessThanOrEqual => "ule"
  | UnorderedOrGreaterThan => "ugt"
  | UnorderedOrGreaterThanOrEqual => "uge"
  end.

Definition float_from_str (s : string) : option FloatCC :=
  if String.eqb s "ord" then Some Ordered
  else if String.eqb s "uno" then Some Unordered
  else if String.eqb s "eq" then Some FEqual
  else if String.eqb s "ne" then Some FNotEqual
  else if String.eqb s "one" then Some OrderedNotEqual
  else if String.eqb s "ueq" then Some UnorderedOrEqual
  else if String.eqb s "lt" then Some LessThan
  else if String.eqb s "le" then Some LessThanOrEqual
  else if String.eqb s "gt" then Some GreaterThan
  else if String.eqb s "ge" then Some GreaterThanOrEqual
  else if String.eqb s "ult" then Some UnorderedOrLessThan
  else if String.eqb s "ule" then Some UnorderedOrLessThanOrEqual
  else if String.eqb s "ugt" then Some UnorderedOrGreaterThan
  else if String.eqb s "uge" then Some UnorderedOrGreaterThanOrEqual
  else None.

(** The four ways in which two floating point values relate: the documentation
    of [FloatCC]. *)
Inductive relation := UN | EQ | LT | GT.

Definition flip (r : relation) : relation :=
  match r with LT => GT | GT => LT | _ => r end.

(** [fcmp] of the interpreter; [==], [<], [>], [<=], [>=] are false on
    unordered operands and [uno] says that they are unordered. *)
Definition fcmp (code : FloatCC) (r : relation) : bool :=
  let eq := match r with EQ => true | _ => false end in
  let lt := match r with LT => true | _ => false end in
  let gt := match r with GT => true | _ => false end in
  let le := match r with LT | EQ => true | _ => false end in
  let ge := match r with GT | EQ => true | _ => false end in
  let uno := match r with UN => true | _ => false end in
  match code with
  | Ordered => eq || lt || gt
  | Unordered => uno
  | FEqual => eq
  | FNotEqual => lt || gt || uno
  | OrderedNotEqual => lt || gt
  | UnorderedOrEqual => eq || uno
  | LessThan => lt
  | LessThanOrEqual => le
  | GreaterThan => gt
  | GreaterThanOrEqual => ge
  | UnorderedOrLessThan => uno || lt
  | UnorderedOrLessThanOrEqual => uno || le
  | UnorderedOrGreaterThan => uno || gt
  | UnorderedOrGreaterThanOrEqual => uno || ge
  end.

(** ** The laws *)

(** Decides a statement about Boolean comparisons of integers. *)
Ltac compare_cases :=
  repeat match goal with
  | |- context [?a =? ?b] => destruct (Z.eqb_spec a b)
  | |- context [?a <? ?b] => destruct (Z.ltb_spec a b)
  | |- context [?a <=? ?b] => destruct (Z.leb_spec a b)
  end; simpl; try done; lia.

#[export] Program Instance IntCC_CondCode w : CondCode IntCC Z (int_cmp w) := {
  complement := int_complement;
  swap_args := int_swap_args
}.
Next Obligation. intros w cc x y. destruct cc; simpl; compare_cases. Qed.
Next Obligation. intros w cc x y. destruct cc; simpl; compare_cases. Qed.

(** A pair of floating point values, seen through their relation, as the class
    wants it: [rel x y] is how [x] relates to [y]. *)
Section float.
Context {V : Type} (rel : V -> V -> relation).
Hypothesis rel_flip : forall x y, rel y x = flip (rel x y).

Lemma float_complement_ok cc x y :
  fcmp (float_complement cc) (rel x y) = negb (fcmp cc (rel x y)).
Proof. by destruct cc, (rel x y). Qed.

Lemma float_swap_args_ok cc x y : fcmp (float_swap_args cc) (rel y x) = fcmp cc (rel x y).
Proof using rel_flip. rewrite rel_flip. by destruct cc, (rel x y). Qed.

Definition FloatCC_CondCode : CondCode FloatCC V (fun cc x y => fcmp cc (rel x y)) :=
  {| complement := float_complement; swap_args := float_swap_args;
     complement_ok := float_complement_ok; swap_args_ok := float_swap_args_ok |}.
End float.

(** What every instance of the class then has. *)
Section condcode.
Context {CC V : Type} {cmp : CC -> V -> V -> bool} `{CondCode CC V cmp}.

Lemma complement_complement cc x y : cmp (complement (complement cc)) x y = cmp cc x y.
Proof. by rewrite !complement_ok, negb_involutive. Qed.

Lemma swap_args_complement cc x y :
  cmp (swap_args (complement cc)) x y = cmp (complement (swap_args cc)) x y.
Proof. by rewrite complement_ok, !swap_args_ok, complement_ok. Qed.
End condcode.

(** For every width and every pair of operands, the integer
    condition codes obey what their documentation says: the complement decides
    the opposite, the swapped code decides the same of the swapped operands,
    [without_equal] drops exactly the case of equal operands, and [unsigned]
    compares the unsigned values. *)
Lemma intcc_laws w cc x y :
  - 2 ^ (w - 1) <= x < 2 ^ (w - 1) -> - 2 ^ (w - 1) <= y < 2 ^ (w - 1) -> 0 < w ->
  int_cmp w (int_complement cc) x y = negb (int_cmp w cc x y) /\
  int_cmp w (int_swap_args cc) y x = int_cmp w cc x y /\
  (cc <> Equal -> cc <> NotEqual ->
     int_cmp w (without_equal cc) x y = int_cmp w cc x y && negb (x =? y)) /\
  int_cmp w (unsigned cc) x y =
    int_cmp w cc (if decide (unsigned cc = cc) then x else x mod 2 ^ w)
                 (if decide (unsigned cc = cc) then y else y mod 2 ^ w).
Proof.
  intros Hx Hy Hw. split_and!.
  - apply (@complement_ok _ _ _ (IntCC_CondCode w)).
  - apply (@swap_args_ok _ _ _ (IntCC_CondCode w)).
  - intros H1 H2.
    assert (x mod 2 ^ w = y mod 2 ^ w -> x = y) as Hinj.
    { assert (2 ^ w = 2 * 2 ^ (w - 1)) as EB
        by (rewrite <- Z.pow_succ_r by lia; f_equal; lia).
      intros E.
      pose proof (Z.div_mod x (2 ^ w) ltac:(lia)) as Ex.
      pose proof (Z.div_mod y (2 ^ w) ltac:(lia)) as Ey.
      assert (forall z, - 2 ^ (w - 1) <= z < 2 ^ (w - 1) -> z / 2 ^ w = -1 \/ z / 2 ^ w = 0) as Hq.
      { intros z Hz. pose proof (Z.div_le_lower_bound z (2 ^ w) (-1)).
        pose proof (Z.div_lt_upper_bound z (2 ^ w) 1). lia. }
      destruct (Hq x Hx) as [E1|E1], (Hq y Hy) as [E2|E2]; rewrite E1 in Ex; rewrite E2 in Ey; lia. }
    assert (x = y -> x mod 2 ^ w = y mod 2 ^ w) by congruence.
    destruct cc; simpl; try done; compare_cases.
  - destruct cc; simpl; try done.
Qed.

(** The fourteen floating point codes decide by the relation of the
    operands alone, complement and swapping obey their documentation, and every
    set of relations that is neither empty nor everything has exactly one code. *)
Lemma floatcc_laws :
  (forall cc r, fcmp (float_complement cc) r = negb (fcmp cc r)) /\
  (forall cc r, fcmp (float_swap_args cc) (flip r) = fcmp cc r) /\
  (forall f : relation -> bool,
     (exists r, f r = true) -> (exists r, f r = false) ->
     exists cc, cc ∈ float_all /\ (forall r, fcmp cc r = f r) /\
       forall cc', (forall r, fcmp cc' r = f r) -> cc' = cc).
Proof.
  split_and!; [by intros [] []..|].
  intros f [t Ht] [u Hu].
  assert (forall P : FloatCC -> Prop, Exists P float_all -> exists cc, cc ∈ float_all /\ P cc)
    as Hex by (intros P HP; by apply Exists_exists).
  apply Hex. destruct (f UN) eqn:E1, (f EQ) eqn:E2, (f LT) eqn:E3, (f GT) eqn:E4;
    try (exfalso; destruct t, u; congruence);
    unfold float_all;
    repeat (first [ apply Exists_cons_hd; split;
        [intros []; simpl; congruence
        |intros cc' Hcc; pose proof (Hcc UN); pose proof (Hcc EQ); pose proof (Hcc LT);
         pose proof (Hcc GT); destruct cc'; simpl in *; congruence]
      | apply Exists_cons_tl]).
Qed.

(** The textual forms of both kinds of codes parse back to the code,
    and nothing else parses. *)
Theorem condcode_str_roundtrip :
  (forall cc, int_from_str (to_static_str cc) = Some cc) /\
  (forall s cc, int_from_str s = Some cc -> s = to_static_str cc) /\
  (forall cc, float_from_str (float_to_str cc) = Some cc) /\
  (forall s cc, float_from_str s = Some cc -> s = float_to_str cc).
Proof.
  split_and!; [by intros []| |by intros []|];
    intros s cc; unfold int_from_str, float_from_str;
    repeat match goal with
    | |- (if String.eqb s ?t then _ else _) = _ -> _ =>
        destruct (String.eqb_spec s t) as [->|_]; [by intros [= <-]|]
    end; done.
Qed.

(** The condition codes obey what their documentation says.  For every
    width and every pair of integers, the complement decides the opposite, the
    swapped code decides the same of the swapped operands, [without_equal] drops
    exactly the case of equal operands, and [unsigned] compares the unsigned
    values.  The fourteen floating point codes decide by the relation of the
    operands alone, with the same laws, and every set of relations that is
    neither empty nor everything has exactly one code. *)
Theorem condcodes_correct w cc x y :
  - 2 ^ (w - 1) <= x < 2 ^ (w - 1) -> - 2 ^ (w - 1) <= y < 2 ^ (w - 1) -> 0 < w ->
  (int_cmp w (int_complement cc) x y = negb (int_cmp w cc x y) /\
   int_cmp w (int_swap_args cc) y x = int_cmp w cc x y /\
   (cc <> Equal -> cc <> NotEqual ->
      int_cmp w (without_equal cc) x y = int_cmp w cc x y && negb (x =? y)) /\
   int_cmp w (unsigned cc) x y =
     int_cmp w cc (if decide (unsigned cc = cc) then x else x mod 2 ^ w)
                  (if decide (unsigned cc = cc) then y else y mod 2 ^ w)) /\
  (forall cc r, fcmp (float_complement cc) r = negb (fcmp cc r)) /\
  (forall cc r, fcmp (float_swap_args cc) (flip r) = fcmp cc r) /\
  (forall f : relation -> bool,
     (exists r, f r = true) -> (exists r, f r = false) ->
     exists cc, cc ∈ float_all /\ (forall r, fcmp cc r = f r) /\
       forall cc', (forall r, fcmp cc' r = f r) -> cc' = cc).
Proof.
  intros Hx Hy Hw. split; [by apply intcc_laws|apply floatcc_laws].
Qed.

Lemma condcodes_correct_witness :
  int_cmp 8 (int_complement UnsignedLessThan) (-1) 1 = negb (int_cmp 8 UnsignedLessThan (-1) 1).
Proof. apply (condcodes_correct 8 UnsignedLessThan (-1) 1); lia. Defined.
