(* ===== verification/ClifValue.v ===== *)
(** * Values of the CLIF interpreter

    cranelift/interpreter/src/value.rs ([DataValueExt] for [DataValue]) and the
    lane functions of step.rs ([extractlanes], [vectorizelanes], [unary_arith],
    [binary_arith], [binary_pairwise], [splat], [shift_amt], [bitselect]): the
    reference meaning of Cranelift's integer instructions.

    An integer value is [VI l n], of the integer type [l] with the signed value
    [n]; a vector is [VV bytes] (V16, V32, V64 or V128 by its length).  The
    floating point variants are not modelled.  Types are the structured types of
    ClifTypes.v.  Bytes are in little-endian order, as on the hosts that are
    considered.

    Shown: every operation on well-formed operands of one type returns a
    well-formed value of that type, or one of the two division errors; what
    each operation computes, as arithmetic modulo the width; the conversions
    between widths; extracting lanes and putting them together are inverse, and
    lane-wise operations act on every lane. *)

From S2P Require Import BitSet.
From S2P Require Import Prelude ClifTypes DivConst CondCodes.

(** ** Results *)

Inductive ValueTypeClass := ClassInteger | ClassBoolean | ClassFloat | ClassVector.

Inductive ValueError :=
| InvalidType (c : ValueTypeClass) (t : ValueType)
| InvalidValue (t : ValueType)
| InvalidDataValueCast
| IntegerDivisionByZero
| IntegerOverflow.

(** [Unimplemented] is [unimplemented!()] and every other panic. *)
Inductive ValueResult (A : Type) :=
| Ok (a : A)
| Err (e : ValueError)
| Unimplemented.
Arguments Ok {A} a.
Arguments Err {A} e.
Arguments Unimplemented {A}.

#[export] Instance ValueResult_ret : MRet ValueResult := @Ok.
#[export] Instance ValueResult_bind : MBind ValueResult := fun A B f m =>
  match m with Ok a => f a | Err e => Err e | Unimplemented => Unimplemented end.

(** [.collect::<ValueResult<_>>()]. *)
Fixpoint collect {A} (l : list (ValueResult A)) : ValueResult (list A) :=
  match l with
  | [] => Ok []
  | r :: l => a ← r; l' ← collect l; Ok (a :: l')
  end.

(** ** Data values (codegen/src/data_value.rs) *)

Inductive DataValue :=
| VI (l : LaneType) (n : Z)
| VV (bytes : list Z).

#[export] Instance DataValue_eq_dec : EqDecision DataValue.
Proof. solve_decision. Defined.

(** The type tests of types.rs on structured types. *)
Definition vt_is_vector (t : ValueType) : bool :=
  match t with Vector _ _ => true | _ => false end.
Definition vt_is_int (t : ValueType) : bool :=
  match t with Lane l => lt_is_int l | _ => false end.
Definition vt_bytes (t : ValueType) : Z := Spec.width t / 8.

Definition ty (self : DataValue) : ValueType :=
  match self with
  | VI l _ => Lane l
  | VV b => Vector I8 (Z.log2 (zlen b))
  end.

Definition from_integer (imm : Z) (t : ValueType) : ValueResult DataValue :=
  match t with
  | Lane l => if lt_is_int l then Ok (VI l (swrap (lt_bits l) imm)) else Err InvalidDataValueCast
  | _ => Err InvalidDataValueCast
  end.

(** [n.to_ne_bytes()]: the [k] low bytes of [n]. *)
Fixpoint to_le_bytes (k : nat) (n : Z) : list Z :=
  match k with
  | O => []
  | S k => n mod 256 :: to_le_bytes k (Z.shiftr n 8)
  end.

Module DataValueExt.

Definition int (n : Z) (t : ValueType) : ValueResult DataValue :=
  if vt_is_vector t then
    if (vt_bytes t =? 8) || (vt_bytes t =? 16)
    then Ok (VV (to_le_bytes (Z.to_nat (vt_bytes t)) n))
    else Err (InvalidType ClassVector t)
  else if vt_is_int t then
    match from_integer n t with Err _ => Err (InvalidValue t) | r => r end
  else Err (InvalidType ClassInteger t).

Definition into_int_signed (self : DataValue) : ValueResult Z :=
  match self with
  | VI _ n => Ok n
  | VV _ => Err (InvalidType ClassInteger (ty self))
  end.

Definition into_int_unsigned (self : DataValue) : ValueResult Z :=
  match self with
  | VI l n => Ok (wrap (lt_bits l) n)
  | VV _ => Err (InvalidType ClassInteger (ty self))
  end.

Definition bool_ (b vec_elem : bool) (t : ValueType) : ValueResult DataValue :=
  match t with
  | Lane l => if lt_is_int l
              then Ok (VI l (if b then if vec_elem then -1 else 1 else 0))
              else Unimplemented
  | _ => Unimplemented
  end.

Definition into_bool (self : DataValue) : ValueResult bool :=
  match self with
  | VI _ n => Ok (negb (n =? 0))
  | VV _ => Err (InvalidType ClassBoolean (ty self))
  end.

Definition vector (v : list Z) (t : ValueType) : ValueResult DataValue :=
  if vt_is_vector t && existsb (Z.eqb (vt_bytes t)) [2; 4; 8; 16]
  then Ok (VV (take (Z.to_nat (vt_bytes t)) v)) else Unimplemented.

(** Shorter vectors are padded with zeros. *)
Definition into_array (self : DataValue) : ValueResult (list Z) :=
  match self with
  | VV b => Ok (b ++ replicate (16 - length b) 0)
  | VI _ _ => Err (InvalidType ClassVector (ty self))
  end.

Inductive ValueConversionKind :=
| Exact (t : ValueType)
| Truncate (t : ValueType)
| ExtractUpper (t : ValueType)
| SignExtend (t : ValueType)
| ZeroExtend (t : ValueType)
| ToBoolean
| Mask (t : ValueType).

(** A conversion that is not one of the listed cases is [unimplemented!]; the
    masks of [Truncate] and [ExtractUpper] are shifts of an [i128], which
    overflow for a type of 128 bits or one wider than the value. *)
Definition convert (self : DataValue) (kind : ValueConversionKind) : ValueResult DataValue :=
  match kind with
  | Exact t =>
      if vt_is_int (ty self) && vt_is_int t
      then n ← into_int_signed self; from_integer n t
      else Unimplemented
  | Truncate t =>
      if vt_is_int t && (vt_bytes t * 8 <? 128) then
        n ← into_int_signed self;
        from_integer (Z.land n (Z.shiftl 1 (vt_bytes t * 8) - 1)) t
      else Unimplemented
  | ExtractUpper t =>
      let shift_amt := vt_bytes (ty self) * 8 - vt_bytes t * 8 in
      if vt_is_int t && (vt_bytes t * 8 <? 128) && (0 <=? shift_amt) then
        let mask := Z.shiftl 1 (vt_bytes t * 8) - 1 in
        let shifted_mask := swrap 128 (Z.shiftl mask shift_amt) in
        n ← into_int_signed self;
        from_integer (Z.shiftr (Z.land n shifted_mask) shift_amt) t
      else Unimplemented
  | SignExtend t =>
      match self, t with
      | VI l n, Lane l' =>
          if lt_is_int l && lt_is_int l' && (lt_bits l <? lt_bits l')
          then Ok (VI l' n) else Unimplemented
      | _, _ => Unimplemented
      end
  | ZeroExtend t =>
      match self, t with
      | VI l n, Lane l' =>
          if lt_is_int l && lt_is_int l' && (lt_bits l <? lt_bits l')
          then Ok (VI l' (wrap (lt_bits l) n))
          else if decide (ty self = t) then Ok self else Unimplemented
      | _, _ => if decide (ty self = t) then Ok self else Unimplemented
      end
  | ToBoolean =>
      match self with
      | VI _ n => Ok (VI I8 (if n =? 0 then 0 else 1))
      | VV _ => Unimplemented
      end
  | Mask t =>
      b ← into_bool self;
      match bool_ b true t with Ok v => Ok v | _ => Unimplemented end
  end.

Definition concat (self other : DataValue) : ValueResult DataValue :=
  match self, other with
  | VI I64 lhs, VI I64 rhs =>
      Ok (VI I128 (swrap 128 (Z.lor (wrap 64 lhs) (Z.shiftl (wrap 64 rhs) 64))))
  | _, _ => Unimplemented
  end.

Definition is_zero (self : DataValue) : ValueResult bool :=
  match self with
  | VI _ n => Ok (n =? 0)
  | VV _ => Err (InvalidType ClassFloat (ty self))
  end.

(** The derived [PartialOrd]: by variant, then by content. *)
Definition variant (self : DataValue) : Z :=
  match self with
  | VI I8 _ => 0 | VI I16 _ => 1 | VI I32 _ => 2 | VI I64 _ => 3 | VI I128 _ => 4
  | VI _ _ => 5
  | VV b => 13 - Z.log2 (zlen b)
  end.

Fixpoint lex_lt (a b : list Z) : bool :=
  match a, b with
  | x :: a, y :: b => (x <? y) || ((x =? y) && lex_lt a b)
  | [], _ :: _ => true
  | _, [] => false
  end.

Definition lt (a b : DataValue) : bool :=
  (variant a <? variant b) ||
  ((variant a =? variant b) &&
   match a, b with
   | VI _ x, VI _ y => x <? y
   | VV x, VV y => lex_lt x y
   | _, _ => false
   end).

Definition umax (self other : DataValue) : ValueResult DataValue :=
  lhs ← into_int_unsigned self; rhs ← into_int_unsigned other;
  Ok (if rhs <? lhs then self else other).
Definition smax (self other : DataValue) : ValueResult DataValue :=
  Ok (if lt other self then self else other).
Definition umin (self other : DataValue) : ValueResult DataValue :=
  lhs ← into_int_unsigned self; rhs ← into_int_unsigned other;
  Ok (if lhs <? rhs then self else other).
Definition smin (self other : DataValue) : ValueResult DataValue :=
  Ok (if lt self other then self else other).

(** [unary_match!] and [binary_match!]: the operation at the width of the
    operands, which must agree in type. *)
Definition unary_match (f : Z -> Z -> Z) (self : DataValue) : ValueResult DataValue :=
  match self with
  | VI l a => if lt_is_int l then Ok (VI l (f (lt_bits l) a)) else Unimplemented
  | VV _ => Unimplemented
  end.

Definition binary_match {A} (f : Z -> Z -> Z -> A) (self other : DataValue)
  : ValueResult (LaneType * A) :=
  match self, other with
  | VI l a, VI l' b =>
      if decide (l = l') then
        if lt_is_int l then Ok (l, f (lt_bits l) a b) else Unimplemented
      else Unimplemented
  | _, _ => Unimplemented
  end.

Definition binary_val (f : Z -> Z -> Z -> Z) (self other : DataValue) : ValueResult DataValue :=
  r ← binary_match f self other; Ok (VI r.1 r.2).

Definition add := binary_val (fun w a b => swrap w (a + b)).
Definition sub := binary_val (fun w a b => swrap w (a - b)).
Definition mul := binary_val (fun w a b => swrap w (a * b)).

(** [DataValueExt::int(1i128 << (bits - 1), ty)]: the most negative value. *)
Definition min_value (self : DataValue) : ValueResult DataValue :=
  int (swrap 128 (Z.shiftl 1 (Spec.width (ty self) - 1))) (ty self).

Definition sdiv (self other : DataValue) : ValueResult DataValue :=
  denominator ← into_int_signed other;
  min ← min_value self;
  if bool_decide (self = min) && (denominator =? -1) then Err IntegerOverflow else
  if denominator =? 0 then Err IntegerDivisionByZero else
  binary_val (fun w a b => Z.quot a b) self other.

Definition udiv (self other : DataValue) : ValueResult DataValue :=
  denominator ← into_int_unsigned other;
  if denominator =? 0 then Err IntegerDivisionByZero else
  binary_val (fun w a b => swrap w (wrap w a / wrap w b)) self other.

Definition srem (self other : DataValue) : ValueResult DataValue :=
  denominator ← into_int_signed other;
  min ← min_value self;
  if bool_decide (self = min) && (denominator =? -1) then Err IntegerOverflow else
  if denominator =? 0 then Err IntegerDivisionByZero else
  binary_val (fun w a b => Z.rem a b) self other.

Definition urem (self other : DataValue) : ValueResult DataValue :=
  denominator ← into_int_unsigned other;
  if denominator =? 0 then Err IntegerDivisionByZero else
  binary_val (fun w a b => swrap w (wrap w a mod wrap w b)) self other.

(** Whether a signed or unsigned value of width [w] is out of range. *)
Definition s_over (w z : Z) : bool := negb (swrap w z =? z).
Definition u_over (w z : Z) : bool := negb (wrap w z =? z).

Definition checked (r : ValueResult (LaneType * option Z)) : ValueResult (option DataValue) :=
  p ← r; Ok (option_map (VI p.1) p.2).

Definition sadd_checked (self other : DataValue) : ValueResult (option DataValue) :=
  checked (binary_match (fun w a b => if s_over w (a + b) then None else Some (a + b)) self other).
Definition uadd_checked (self other : DataValue) : ValueResult (option DataValue) :=
  checked (binary_match (fun w a b =>
    let s := wrap w a + wrap w b in if u_over w s then None else Some (swrap w s)) self other).

Definition pair_val (r : ValueResult (LaneType * (Z * bool))) : ValueResult (DataValue * bool) :=
  p ← r; Ok (VI p.1 p.2.1, p.2.2).

Definition s_overflowing (op : Z -> Z -> Z) (self other : DataValue) :=
  pair_val (binary_match (fun w a b => (swrap w (op a b), s_over w (op a b))) self other).
Definition u_overflowing (op : Z -> Z -> Z) (self other : DataValue) :=
  pair_val (binary_match (fun w a b =>
    let s := op (wrap w a) (wrap w b) in (swrap w s, u_over w s)) self other).

Definition sadd_overflow := s_overflowing Z.add.
Definition uadd_overflow := u_overflowing Z.add.
Definition ssub_overflow := s_overflowing Z.sub.
Definition usub_overflow := u_overflowing Z.sub.
Definition smul_overflow := s_overflowing Z.mul.
Definition umul_overflow := u_overflowing Z.mul.

Definition s_sat (w z : Z) : Z := Z.max (- 2 ^ (w - 1)) (Z.min z (2 ^ (w - 1) - 1)).
Definition u_sat (w z : Z) : Z := Z.max 0 (Z.min z (2 ^ w - 1)).

Definition sadd_sat := binary_val (fun w a b => s_sat w (a + b)).
Definition uadd_sat := binary_val (fun w a b => swrap w (u_sat w (wrap w a + wrap w b))).
Definition ssub_sat := binary_val (fun w a b => s_sat w (a - b)).
Definition usub_sat := binary_val (fun w a b => swrap w (u_sat w (wrap w a - wrap w b))).

(** The amount of a shift is converted to an [i32] and taken modulo the width. *)
Definition shift_match (f : Z -> Z -> Z -> Z) (self other : DataValue) : ValueResult DataValue :=
  amt ← convert other (Exact (Lane I32));
  match self, amt with
  | VI l a, VI _ b =>
      if lt_is_int l then Ok (VI l (f (lt_bits l) a (wrap 32 b mod lt_bits l))) else Unimplemented
  | _, _ => Unimplemented
  end.

Definition shl := shift_match (fun w a k => swrap w (Z.shiftl a k)).
Definition ushr := shift_match (fun w a k => swrap w (Z.shiftr (wrap w a) k)).
Definition sshr := shift_match (fun w a k => Z.shiftr a k).
Definition rotl := shift_match (fun w a k =>
  swrap w (Z.lor (Z.shiftl (wrap w a) k) (Z.shiftr (wrap w a) (w - k)))).
Definition rotr := shift_match (fun w a k =>
  swrap w (Z.lor (Z.shiftr (wrap w a) k) (Z.shiftl (wrap w a) (w - k)))).

(** [bitop!]: integers of one type, and vectors of 8 or 16 bytes. *)
Definition bitop (f : Z -> Z -> Z) (self other : DataValue) : ValueResult DataValue :=
  match self, other with
  | VI _ _, VI _ _ => binary_val (fun _ => f) self other
  | VV a, VV b =>
      if (zlen a =? zlen b) && ((zlen a =? 8) || (zlen a =? 16))
      then Ok (VV (zip_with f a b)) else Unimplemented
  | _, _ => Unimplemented
  end.

Definition and := bitop Z.land.
Definition or := bitop Z.lor.
Definition xor := bitop Z.lxor.

Definition not (self : DataValue) : ValueResult DataValue :=
  match self with
  | VI l a => unary_match (fun _ a => Z.lnot a) self
  | VV a => if (zlen a =? 8) || (zlen a =? 16)
            then Ok (VV ((fun b => wrap 8 (Z.lnot b)) <$> a)) else Unimplemented
  end.

(** The counts fit every integer type, so the [try_from] of the code succeeds. *)
Definition count_ones := unary_match (fun w a => BitSet.count_ones w (wrap w a)).
Definition leading_ones := unary_match (fun w a => BitSet.leading_zeros w (wrap w (Z.lnot a))).
Definition leading_zeros := unary_match (fun w a => BitSet.leading_zeros w (wrap w a)).
Definition trailing_zeros := unary_match (fun w a => BitSet.trailing_zeros w (wrap w a)).

(** The low [k] bits of [a] in reverse order. *)
Fixpoint rev_bits (k : nat) (a : Z) : Z :=
  match k with
  | O => 0
  | S k => Z.shiftl (a mod 2) (Z.of_nat k) + rev_bits k (Z.shiftr a 1)
  end.

(** The low [k] bytes of [a] in reverse order. *)
Fixpoint rev_bytes (k : nat) (a : Z) : Z :=
  match k with
  | O => 0
  | S k => Z.shiftl (a mod 256) (8 * Z.of_nat k) + rev_bytes k (Z.shiftr a 8)
  end.

Definition reverse_bits := unary_match (fun w a => swrap w (rev_bits (Z.to_nat w) a)).

Definition swap_bytes (self : DataValue) : ValueResult DataValue :=
  match self with
  | VI I8 _ => Unimplemented
  | _ => unary_match (fun w a => swrap w (rev_bytes (Z.to_nat (w / 8)) a)) self
  end.

End DataValueExt.
Import DataValueExt.

(** ** Lanes (interpreter/src/step.rs) *)

Fixpoint from_le_bytes (b : list Z) : Z :=
  match b with
  | [] => 0
  | x :: b => x + Z.shiftl (from_le_bytes b) 8
  end.

(** The number of bytes of a lane; wider lanes and, in this model, lanes that
    are not integers are not supported. *)
Definition iterations (l : LaneType) : ValueResult nat :=
  match l with
  | I8 => Ok 1%nat
  | I16 => Ok 2%nat
  | I32 => Ok 4%nat
  | I64 => Ok 8%nat
  | _ => Unimplemented
  end.

Definition read_lane (x : list Z) (it : nat) (l : LaneType) (i : nat) : ValueResult DataValue :=
  if (i * it + it <=? length x)%nat
  then DataValueExt.int (from_le_bytes (take it (drop (i * it) x))) (Lane l)
  else Unimplemented.

Definition extractlanes (x : DataValue) (vector_type : ValueType) : ValueResult (list DataValue) :=
  if vt_is_vector (ty x) then
    it ← iterations (Spec.lane vector_type);
    b ← into_array x;
    collect (read_lane b it (Spec.lane vector_type) <$> seq 0 (Z.to_nat (Spec.lanes vector_type)))
  else Ok [x].

Fixpoint write_lanes (l : LaneType) (it : nat) (x : list DataValue) (written : list Z)
  : ValueResult (list Z) :=
  match x with
  | [] => Ok (written ++ replicate (16 - length written) 0)
  | val :: x =>
      v ← convert val (Exact (Lane (Spec.int_of l)));
      lane_val ← into_int_unsigned v;
      if (length written + it <=? 16)%nat
      then write_lanes l it x (written ++ to_le_bytes it lane_val)
      else Unimplemented
  end.

Definition vectorizelanes_all (x : list DataValue) (vector_type : ValueType)
  : ValueResult DataValue :=
  it ← iterations (Spec.lane vector_type);
  result ← write_lanes (Spec.lane vector_type) it x [];
  vector result vector_type.

Definition vectorizelanes (x : list DataValue) (vector_type : ValueType) : ValueResult DataValue :=
  match x with
  | [v] => Ok v
  | _ => vectorizelanes_all x vector_type
  end.

Definition fold_vector (v : DataValue) (t : ValueType) (init : DataValue)
    (op : DataValue -> DataValue -> ValueResult DataValue) : ValueResult DataValue :=
  lanes ← extractlanes v t;
  foldl (fun acc lane => a ← acc; op a lane) (Ok init) lanes.

Definition unary_arith (x : DataValue) (vector_type : ValueType)
    (op : DataValue -> ValueResult DataValue) : ValueResult DataValue :=
  arg ← extractlanes x vector_type;
  result ← collect (op <$> arg);
  vectorizelanes result vector_type.

Definition binary_arith (x y : DataValue) (vector_type : ValueType)
    (op : DataValue -> DataValue -> ValueResult DataValue) : ValueResult DataValue :=
  arg0 ← extractlanes x vector_type;
  arg1 ← extractlanes y vector_type;
  result ← collect (zip_with op arg0 arg1);
  vectorizelanes result vector_type.

(** [op] on the pairs of neighbours; [pair[1]] of an odd chunk is out of range. *)
Fixpoint chunks2 (op : DataValue -> DataValue -> ValueResult DataValue) (l : list DataValue)
  : list (ValueResult DataValue) :=
  match l with
  | a :: b :: l => op a b :: chunks2 op l
  | [_] => [Unimplemented]
  | [] => []
  end.

Definition binary_pairwise (x y : DataValue) (vector_type : ValueType)
    (op : DataValue -> DataValue -> ValueResult DataValue) : ValueResult DataValue :=
  arg0 ← extractlanes x vector_type;
  arg1 ← extractlanes y vector_type;
  result ← collect (chunks2 op arg0 ++ chunks2 op arg1);
  vectorizelanes result vector_type.

Definition bitselect (c x y : DataValue) : ValueResult DataValue :=
  mask_x ← DataValueExt.and c x;
  nc ← DataValueExt.not c;
  mask_y ← DataValueExt.and nc y;
  DataValueExt.or mask_x mask_y.

Definition splat (t : ValueType) (val : DataValue) : ValueResult DataValue :=
  vectorizelanes (replicate (Z.to_nat (Spec.lanes t)) val) t.

(** The shift amount as a value of the type of the shifted one. *)
Definition shift_amt (t : ValueType) (val : DataValue) : ValueResult DataValue :=
  v ← convert val (Exact (Lane (Spec.lane t)));
  splat t v.

(** ** Well-formed values *)

Definition in_signed (w n : Z) : Prop := - 2 ^ (w - 1) <= n < 2 ^ (w - 1).

Definition well_formed (v : DataValue) : Prop :=
  match v with
  | VI l n => lt_is_int l = true /\ in_signed (lt_bits l) n
  | VV b => length b ∈ [2; 4; 8; 16]%nat /\ Forall (fun x => 0 <= x < 256) b
  end.

(** [v] is a value of the type [t]: an integer, or a vector of integer lanes
    of at most 64 bits and at most 128 bits in all. *)
Definition vector_ok (t : ValueType) : bool :=
  match t with
  | Vector l k => lt_is_int l && (lt_bits l <=? 64) && (1 <=? k) && (Spec.width t <=? 128)
  | _ => false
  end.

Definition has_type (v : DataValue) (t : ValueType) : Prop :=
  well_formed v /\
  match v with
  | VI l _ => t = Lane l
  | VV b => vector_ok t = true /\ zlen b = vt_bytes t
  end.

(** ** Arithmetic at a width *)

Lemma lt_bits_pos l : 1 < lt_bits l.
Proof. destruct l; simpl; lia. Qed.

Section width.
Context (w : Z) (Hw : 1 <= w).

Lemma pow_width : 2 ^ w = 2 * 2 ^ (w - 1) /\ 0 < 2 ^ (w - 1).
Proof.
  split; [rewrite <- Z.pow_succ_r by lia; f_equal; lia|]. apply Z.pow_pos_nonneg; lia.
Qed.

Lemma swrap_in z : in_signed w (swrap w z).
Proof.
  destruct pow_width. unfold in_signed, swrap.
  pose proof (Z.mod_pos_bound (z + 2 ^ (w - 1)) (2 ^ w) ltac:(lia)). lia.
Qed.

Lemma swrap_small z : in_signed w z -> swrap w z = z.
Proof.
  destruct pow_width. unfold in_signed, swrap. intros. rewrite Z.mod_small by lia. lia.
Qed.

Lemma wrap_range z : 0 <= wrap w z < 2 ^ w.
Proof. destruct pow_width. apply Z.mod_pos_bound. lia. Qed.

(** Both casts keep the bit pattern. *)
Lemma wrap_swrap z : wrap w (swrap w z) = wrap w z.
Proof.
  destruct pow_width. unfold wrap, swrap.
  rewrite Zminus_mod_idemp_l. f_equal. lia.
Qed.

Lemma swrap_eq x y : wrap w x = wrap w y -> swrap w x = swrap w y.
Proof.
  unfold swrap, wrap. intros E.
  rewrite <- (Zplus_mod_idemp_l x), <- (Zplus_mod_idemp_l y). by rewrite E.
Qed.

Lemma wrap_inj x y : in_signed w x -> in_signed w y -> wrap w x = wrap w y -> x = y.
Proof. intros Hx Hy E%swrap_eq. by rewrite !swrap_small in E. Qed.

(** The unsigned value from the signed one. *)
Lemma wrap_signed z : in_signed w z -> wrap w z = if z <? 0 then z + 2 ^ w else z.
Proof.
  destruct pow_width. unfold in_signed, wrap. intros Hz. destruct (Z.ltb_spec z 0).
  - symmetry. apply (Z.mod_unique_pos _ _ (-1)); lia.
  - apply Z.mod_small. lia.
Qed.

Lemma swrap_unsigned z : 0 <= z < 2 ^ w ->
  swrap w z = if z <? 2 ^ (w - 1) then z else z - 2 ^ w.
Proof.
  destruct pow_width. intros Hz. destruct (Z.ltb_spec z (2 ^ (w - 1))).
  - apply swrap_small. unfold in_signed. lia.
  - apply wrap_inj; [apply swrap_in|unfold in_signed; lia|].
    rewrite wrap_swrap. unfold wrap. rewrite (Z.mod_small z) by lia.
    apply (Z.mod_unique_pos _ _ (-1)); lia.
Qed.
End width.

Create HintDb clif.
#[export] Hint Resolve swrap_in : clif.

(** ** Ranges of the operations *)

(** A signed value is one whose bits above the sign agree with it. *)
Lemma in_signed_shiftr w z : 1 <= w ->
  in_signed w z <-> Z.shiftr z (w - 1) = 0 \/ Z.shiftr z (w - 1) = -1.
Proof.
  intros Hw. destruct (pow_width w Hw). rewrite Z.shiftr_div_pow2 by lia. unfold in_signed. split.
  - intros Hz. destruct (decide (0 <= z)); [left; apply Z.div_small; lia|right].
    symmetry. apply (Z.div_unique_pos _ _ _ (z + 2 ^ (w - 1))); lia.
  - pose proof (Z.div_mod z (2 ^ (w - 1)) ltac:(lia)).
    pose proof (Z.mod_pos_bound z (2 ^ (w - 1)) ltac:(lia)). intros [E|E]; rewrite E in *; lia.
Qed.

Lemma in_signed_bitop f w a b :
  (forall x y n, Z.shiftr (f x y) n = f (Z.shiftr x n) (Z.shiftr y n)) ->
  (forall x y, (x = 0 \/ x = -1) -> (y = 0 \/ y = -1) -> f x y = 0 \/ f x y = -1) ->
  1 <= w -> in_signed w a -> in_signed w b -> in_signed w (f a b).
Proof.
  intros Hshift Hf Hw. rewrite !in_signed_shiftr by done. rewrite Hshift. auto.
Qed.

Lemma in_signed_lnot w a : 1 <= w -> in_signed w a -> in_signed w (Z.lnot a).
Proof. unfold in_signed, Z.lnot. lia. Qed.

Lemma in_signed_shr w a k : 1 <= w -> 0 <= k -> in_signed w a -> in_signed w (Z.shiftr a k).
Proof.
  intros Hw Hk. rewrite !in_signed_shiftr by done.
  rewrite !Z.shiftr_shiftr, Z.add_comm, <- Z.shiftr_shiftr by lia.
  assert (Z.shiftr (-1) k = -1) as E.
  { rewrite Z.shiftr_div_pow2 by done. assert (0 < 2 ^ k) by (apply Z.pow_pos_nonneg; lia).
    symmetry. apply (Z.div_unique_pos _ _ _ (2 ^ k - 1)); lia. }
  intros [->| ->]; rewrite ?Z.shiftr_0_l, ?E; auto.
Qed.

Lemma in_signed_quot w a b : 1 <= w -> in_signed w a -> b <> 0 ->
  ~ (a = - 2 ^ (w - 1) /\ b = -1) -> in_signed w (Z.quot a b).
Proof.
  intros Hw Ha Hb Hov. destruct (pow_width w Hw). unfold in_signed in *.
  pose proof (Z.quot_abs a b Hb) as Eq.
  assert (Z.quot (Z.abs a) (Z.abs b) <= Z.abs a) as Hle.
  { rewrite Z.quot_div_nonneg by lia. assert (1 <= Z.abs b) by lia.
    assert (0 <= Z.abs a) by lia. apply Z.div_le_upper_bound; [lia|].
    generalize dependent (Z.abs a). generalize dependent (Z.abs b). intros; nia. }
  destruct (decide (a = - 2 ^ (w - 1))) as [->|]; [|lia].
  assert (b <> -1) as Hb1 by naive_solver.
  destruct (decide (0 < b)) as [Hpos|].
  - rewrite Z.quot_opp_l, Z.quot_div_nonneg by lia.
    assert (0 <= 2 ^ (w - 1) / b <= 2 ^ (w - 1)); [|lia].
    split; [apply Z.div_pos; lia|apply Z.div_le_upper_bound; nia].
  - replace b with (- - b) by lia. rewrite Z.quot_opp_opp, Z.quot_div_nonneg by lia.
    split; [pose proof (Z.div_pos (2 ^ (w - 1)) (- b)); lia|].
    apply Z.div_lt_upper_bound; nia.
Qed.

Lemma in_signed_rem w a b : 1 <= w -> in_signed w a -> in_signed w b -> b <> 0 ->
  in_signed w (Z.rem a b).
Proof.
  intros Hw Ha Hb Hb0. unfold in_signed in *. pose proof (Z.rem_bound_abs a b Hb0).
  pose proof (Z.rem_sign_mul a b Hb0).
  destruct (decide (0 <= a)); [pose proof (Z.rem_nonneg a b)|pose proof (Z.rem_nonpos a b)]; lia.
Qed.

Lemma in_signed_sat w z : 1 <= w -> in_signed w (s_sat w z).
Proof. intros Hw. destruct (pow_width w Hw). unfold in_signed, s_sat. lia. Qed.

(** A number of bits is in the range of its type. *)
Lemma in_signed_count l n : 0 <= n <= lt_bits l -> in_signed (lt_bits l) n.
Proof. unfold in_signed. destruct l; simpl; lia. Qed.

(** ** Bytes *)

Lemma length_to_le_bytes k n : length (to_le_bytes k n) = k.
Proof. revert n. induction k; simpl; auto. Qed.

Lemma to_le_bytes_range k n : Forall (fun x => 0 <= x < 256) (to_le_bytes k n).
Proof. revert n. induction k; simpl; constructor; auto using Z.mod_pos_bound with lia. Qed.

Lemma from_to_le_bytes k n : from_le_bytes (to_le_bytes k n) = n mod 2 ^ (8 * Z.of_nat k).
Proof.
  revert n. induction k as [|k IH]; intros n; cbn [to_le_bytes from_le_bytes]; [by rewrite Z.mod_1_r|].
  rewrite IH, Z.shiftl_mul_pow2, Z.shiftr_div_pow2 by lia.
  replace (8 * Z.of_nat (S k)) with (8 + 8 * Z.of_nat k) by lia.
  rewrite Z.pow_add_r by lia. rewrite Z.rem_mul_r; [|lia|apply Z.pow_pos_nonneg; lia].
  change (2 ^ 8) with 256. lia.
Qed.

Lemma from_le_bytes_range b : Forall (fun x => 0 <= x < 256) b ->
  0 <= from_le_bytes b < 2 ^ (8 * zlen b).
Proof.
  induction 1 as [|x b Hx Hb IH]; cbn [from_le_bytes]; [by vm_compute|].
  rewrite zlen_cons, Z.shiftl_mul_pow2 by lia.
  replace (8 * (1 + zlen b)) with (8 + 8 * zlen b) by lia.
  pose proof (zlen_nonneg b). rewrite Z.pow_add_r by lia. lia.
Qed.

Lemma to_from_le_bytes b : Forall (fun x => 0 <= x < 256) b ->
  to_le_bytes (length b) (from_le_bytes b) = b.
Proof.
  induction 1 as [|x b Hx Hb IH]; cbn [from_le_bytes to_le_bytes length]; [done|].
  rewrite Z.shiftl_mul_pow2, Z.shiftr_div_pow2 by lia. change (2 ^ 8) with 256.
  f_equal.
  - rewrite Z_mod_plus_full. apply Z.mod_small. lia.
  - rewrite Z.div_add, Z.div_small by lia. done.
Qed.

Lemma to_le_bytes_mod k n m : n mod 2 ^ (8 * Z.of_nat k) = m mod 2 ^ (8 * Z.of_nat k) ->
  to_le_bytes k n = to_le_bytes k m.
Proof.
  intros E. rewrite <- (to_from_le_bytes (to_le_bytes k n)), <- (to_from_le_bytes (to_le_bytes k m))
    by apply to_le_bytes_range.
  by rewrite !length_to_le_bytes, !from_to_le_bytes, E.
Qed.

(** ** Extracting and assembling lanes *)

Fixpoint chunk (n it : nat) (b : list Z) : list (list Z) :=
  match n with
  | O => []
  | S n => take it b :: chunk n it (drop it b)
  end.

Lemma chunk_seq n it b : (fun i => take it (drop (i * it) b)) <$> seq 0 n = chunk n it b.
Proof.
  revert b. induction n as [|n IH]; intros b; [done|]. simpl. f_equal.
  rewrite <- fmap_S_seq, <- list_fmap_compose, <- IH.
  apply list_fmap_ext. intros i j _. simpl. by rewrite drop_drop.
Qed.

Lemma concat_chunk n it b : length b = (n * it)%nat -> List.concat (chunk n it b) = b.
Proof.
  revert b. induction n as [|n IH]; intros b Hb; simpl in *.
  - by apply nil_length_inv in Hb.
  - rewrite IH by (rewrite length_drop; lia). apply take_drop.
Qed.

Lemma chunk_concat n it ls rest :
  length ls = n -> Forall (fun c => length c = it) ls -> chunk n it (List.concat ls ++ rest) = ls.
Proof.
  intros <-. induction 1 as [|c ls Hc _ IH]; [done|]. simpl.
  rewrite <- (assoc_L (++)). f_equal.
  - rewrite <- Hc. by rewrite take_app_length.
  - rewrite <- Hc, drop_app_length. rewrite Hc. apply IH.
Qed.

Lemma chunk_length n it b : length b = (n * it)%nat -> Forall (fun c => length c = it) (chunk n it b).
Proof.
  revert b. induction n as [|n IH]; intros b Hb; simpl in *; constructor.
  - rewrite length_take. lia.
  - apply IH. rewrite length_drop. lia.
Qed.

Lemma length_chunk n it b : length (chunk n it b) = n.
Proof. revert b. induction n; simpl; auto. Qed.

Lemma chunk_Forall P n it b : Forall P b -> Forall (Forall P) (chunk n it b).
Proof.
  revert b. induction n as [|n IH]; intros b Hb; simpl; constructor;
    auto using Forall_take, Forall_drop.
Qed.

Lemma collect_Ok {A} (l : list A) : collect (Ok <$> l) = Ok l.
Proof. induction l as [|a l IH]; [done|]. rewrite fmap_cons. cbn [collect]. by rewrite IH. Qed.

Lemma collect_forall2 {A B} (f : A -> ValueResult B) (l : list A) (k : list B) :
  Forall2 (fun a b => f a = Ok b) l k -> collect (f <$> l) = Ok k.
Proof.
  induction 1 as [|a b l k E _ IH]; [done|]. rewrite fmap_cons. cbn [collect]. by rewrite E, IH.
Qed.

(** The lane of a chunk of bytes, and the bytes of a lane. *)
Definition lane_of (l : LaneType) (c : list Z) : DataValue := VI l (swrap (lt_bits l) (from_le_bytes c)).
Definition bytes_of (it : nat) (v : DataValue) : list Z :=
  match v with VI _ n => to_le_bytes it n | VV b => b end.

(** A vector type: [n] lanes of [it] bytes. *)
Record shape (t : ValueType) (l : LaneType) (n it : nat) : Prop := {
  sh_lane : Spec.lane t = l;
  sh_int : lt_is_int l = true;
  sh_it : iterations l = Ok it;
  sh_bits : lt_bits l = 8 * Z.of_nat it;
  sh_lanes : Spec.lanes t = Z.of_nat n;
  sh_bytes : vt_bytes t = Z.of_nat (n * it);
  sh_fits : (n * it)%nat ∈ [2; 4; 8; 16]%nat;
  sh_multi : (2 <= n)%nat;
  sh_vector : vt_is_vector t = true;
  sh_ok : vector_ok t = true
}.

Lemma vector_shape t : vector_ok t = true -> exists l n it, shape t l n it.
Proof.
  intros Hok. generalize Hok. destruct t as [|l k|]; simpl; [done| |done].
  rewrite !andb_true_iff, !Z.leb_le. intros [[[Hint Hb] Hk] Hw].
  assert (1 <= k <= 4) as Hk4.
  { split; [done|]. unfold Spec.width, Spec.lanes in Hw. simpl in Hw.
    destruct (decide (k <= 4)); [done|]. pose proof (Z.pow_le_mono_r 2 5 k).
    destruct l; simpl in *; lia. }
  exists l, (Z.to_nat (2 ^ k)), (Z.to_nat (lt_bits l / 8)).
  assert (k = 1 \/ k = 2 \/ k = 3 \/ k = 4) as [->|[->|[->| ->]]] by lia;
    destruct l; try done; try (exfalso; vm_compute in Hw; by apply Hw);
    try (exfalso; vm_compute in Hb; by apply Hb);
    (split; first [reflexivity | vm_compute; lia | apply (bool_decide_unpack _); vm_compute; exact I]).
Qed.

Section lanes.
Context {t l n it} (Hsh : shape t l n it).

Lemma lane_of_typed c : Forall (fun x => 0 <= x < 256) c -> has_type (lane_of l c) (Lane l).
Proof.
  intros. destruct Hsh. pose proof (lt_bits_pos l).
  split; [|done]. split; [done|]. apply swrap_in. lia.
Qed.

Lemma from_integer_lane z : DataValueExt.int z (Lane l) = Ok (VI l (swrap (lt_bits l) z)).
Proof. destruct Hsh. unfold DataValueExt.int. simpl. by rewrite sh_int0. Qed.

Lemma read_lane_run b i : (length b <= 16)%nat -> (i < n)%nat -> length b = (n * it)%nat ->
  read_lane (b ++ replicate (16 - length b) 0) it l i = Ok (lane_of l (take it (drop (i * it) b))).
Proof.
  intros Hb Hi Hlen. unfold read_lane.
  assert (i * it + it <= n * it)%nat by nia.
  rewrite (proj2 (Nat.leb_le _ _)) by (rewrite length_app; lia).
  rewrite from_integer_lane, drop_app_le, take_app_le by (rewrite ?length_drop; lia). done.
Qed.

Lemma extractlanes_run b :
  has_type (VV b) t -> extractlanes (VV b) t = Ok (lane_of l <$> chunk n it b).
Proof.
  intros [[Hlen Hb] [_ Hz]]. destruct Hsh.
  assert (length b = (n * it)%nat) as Hbl by (unfold zlen in Hz; lia).
  assert (length b <= 16)%nat by (rewrite Hbl; set_solver by lia).
  unfold extractlanes. simpl. rewrite sh_lane0, sh_it0, sh_lanes0, Nat2Z.id. simpl.
  rewrite <- chunk_seq, <- list_fmap_compose.
  apply collect_forall2, Forall2_fmap_r, Forall_Forall2_diag, Forall_forall.
  intros i Hi%elem_of_seq. apply read_lane_run; lia.
Qed.

Lemma write_lanes_run vs acc :
  Forall (fun v => has_type v (Lane l)) vs -> (length acc + length vs * it <= 16)%nat ->
  write_lanes l it vs acc =
    Ok ((acc ++ List.concat (bytes_of it <$> vs)) ++
        replicate (16 - length (acc ++ List.concat (bytes_of it <$> vs))) 0).
Proof.
  intros Hvs. revert acc. induction Hvs as [|v vs Hv _ IH]; intros acc Hlen; simpl.
  { by rewrite app_nil_r. }
  destruct Hsh. destruct v as [l' z|b]; destruct Hv as [Hwf Hty]; [|by destruct Hty].
  injection Hty as <-. simpl in Hwf. destruct Hwf as [_ Hz].
  assert (Spec.int_of l = l) as -> by (by destruct l). rewrite sh_int0. simpl.
  pose proof (lt_bits_pos l). rewrite sh_int0, swrap_small by (done || lia). simpl.
  rewrite (proj2 (Nat.leb_le _ _)) by (simpl in Hlen; lia).
  rewrite IH by (rewrite length_app, length_to_le_bytes; simpl in Hlen; lia).
  assert (to_le_bytes it (wrap (lt_bits l) z) = to_le_bytes it z) as ->.
  { apply to_le_bytes_mod. rewrite <- sh_bits0. unfold wrap. by rewrite Zmod_mod. }
  by rewrite <- !(assoc_L (++)).
Qed.

Lemma bytes_of_shape vs : Forall (fun v => has_type v (Lane l)) vs -> length vs = n ->
  Forall (fun c => length c = it) (bytes_of it <$> vs) /\
  Forall (fun x => 0 <= x < 256) (List.concat (bytes_of it <$> vs)) /\
  length (List.concat (bytes_of it <$> vs)) = (n * it)%nat.
Proof.
  clear Hsh. intros Hvs <-. induction Hvs as [|v vs Hv _ IH]; [done|].
  destruct IH as (IH1 & IH2 & IH3). destruct v as [l' z|b]; [|by destruct Hv as [_ [? _]]].
  cbn [bytes_of length fmap list_fmap List.concat].
  rewrite length_app, length_to_le_bytes, IH3. split_and!; [| |lia].
  - constructor; [apply length_to_le_bytes|done].
  - apply Forall_app. split; [apply to_le_bytes_range|done].
Qed.

Lemma vectorizelanes_run vs : Forall (fun v => has_type v (Lane l)) vs -> length vs = n ->
  vectorizelanes vs t = Ok (VV (List.concat (bytes_of it <$> vs))) /\
  has_type (VV (List.concat (bytes_of it <$> vs))) t.
Proof.
  intros Hvs Hn. destruct (bytes_of_shape vs Hvs Hn) as (H1 & H2 & H3).
  destruct Hsh. split.
  - assert (vectorizelanes vs t = vectorizelanes_all vs t) as ->.
    { destruct vs as [|? [|]]; simpl in *; (done || lia). }
    unfold vectorizelanes_all. rewrite sh_lane0, sh_it0. simpl.
    assert (length vs * it <= 16)%nat by (rewrite Hn; set_solver by lia).
    rewrite write_lanes_run by (done || (simpl; lia)). simpl. unfold vector.
    rewrite sh_vector0, sh_bytes0. simpl.
    assert (existsb (Z.eqb (Z.of_nat (n * it))) [2; 4; 8; 16] = true) as Hex.
    { apply existsb_exists. exists (Z.of_nat (n * it)). split; [|apply Z.eqb_refl].
      apply list_elem_of_In. revert sh_fits0. clear. rewrite !elem_of_cons, !elem_of_nil. lia. }
    simpl in Hex. rewrite Hex, Nat2Z.id. by rewrite take_app_length'.
  - split; [split; [by rewrite H3|done]|]. split.
    + done.
    + unfold zlen. by rewrite H3.
Qed.
End lanes.

(** A scalar integer type or a supported vector type. *)
Definition type_ok (t : ValueType) : bool :=
  match t with Lane l => lt_is_int l | _ => vector_ok t end.

Abbreviation lane_ty t := (Lane (Spec.lane t)).

(** The bytes of a lane read back give the lane. *)
Lemma lane_of_bytes l it v :
  has_type v (Lane l) -> lt_bits l = 8 * Z.of_nat it -> lane_of l (bytes_of it v) = v.
Proof.
  intros [Hwf Hty] Hb. destruct v as [l' z|b]; [|by destruct Hty].
  injection Hty as <-. destruct Hwf as [_ Hz]. pose proof (lt_bits_pos l). unfold lane_of. simpl.
  rewrite from_to_le_bytes, <- Hb. fold (wrap (lt_bits l) z). rewrite swrap_wrap.
  by rewrite swrap_small by (done || lia).
Qed.

Lemma extract_typed t v : type_ok t = true -> has_type v t ->
  exists lanes, extractlanes v t = Ok lanes /\ zlen lanes = Spec.lanes t /\
    Forall (fun x => has_type x (lane_ty t)) lanes /\ vectorizelanes lanes t = Ok v.
Proof.
  intros Ht Hv. destruct v as [l z|b].
  { destruct Hv as [Hwf ->]. exists [VI l z]. split; [done|]. split; [done|].
    split; [|done]. constructor; [done|constructor]. }
  assert (vector_ok t = true) as Hok by apply Hv.
  destruct (vector_shape t Hok) as (l & n & it & Hsh). pose proof Hsh as [].
  assert (length b = (n * it)%nat) as Hb by (destruct Hv as [_ [_ Hz]]; unfold zlen in Hz; lia).
  assert (Forall (fun x => 0 <= x < 256) b) as Hrange by apply Hv.
  exists (lane_of l <$> chunk n it b).
  assert (Forall (fun x => has_type x (Lane l)) (lane_of l <$> chunk n it b)) as Hty.
  { apply Forall_fmap. eapply Forall_impl; [by apply chunk_Forall|].
    intros c Hc. by apply (lane_of_typed Hsh). }
  rewrite sh_lane0. split_and!; [by apply (extractlanes_run Hsh)| |done|].
  - unfold zlen. by rewrite length_fmap, length_chunk.
  - destruct (vectorizelanes_run Hsh (lane_of l <$> chunk n it b)) as [-> _];
      [done|by rewrite length_fmap, length_chunk|].
    do 2 f_equal. rewrite <- (concat_chunk n it b) at 2 by done. f_equal.
    rewrite <- list_fmap_compose. rewrite <- (list_fmap_id (chunk n it b)) at 2.
    apply list_fmap_ext. intros i c Hc. simpl.
    assert (length c = it /\ Forall (fun x => 0 <= x < 256) c) as [Hlen Hcr].
    { apply list_elem_of_lookup_2 in Hc. split.
      - eapply Forall_forall in Hc; [exact Hc|by apply chunk_length].
      - eapply Forall_forall in Hc; [exact Hc|by apply chunk_Forall]. }
    rewrite <- (to_from_le_bytes c) at 2 by done. rewrite Hlen.
    apply to_le_bytes_mod. rewrite <- sh_bits0. pose proof (lt_bits_pos l).
    apply (wrap_swrap (lt_bits l)). lia.
Qed.

Lemma vectorize_typed t lanes : type_ok t = true -> zlen lanes = Spec.lanes t ->
  Forall (fun x => has_type x (lane_ty t)) lanes ->
  exists v, vectorizelanes lanes t = Ok v /\ has_type v t /\ extractlanes v t = Ok lanes.
Proof.
  intros Ht Hlen Hty. destruct (decide (vector_ok t = true)) as [Hok|Hno].
  - destruct (vector_shape t Hok) as (l & n & it & Hsh). pose proof Hsh as [].
    rewrite sh_lane0 in Hty.
    assert (length lanes = n) as Hn by (unfold zlen in Hlen; lia).
    destruct (vectorizelanes_run Hsh lanes Hty Hn) as [-> Hv].
    eexists. split; [done|]. split; [done|]. rewrite (extractlanes_run Hsh) by done.
    destruct (bytes_of_shape (n := n) (it := it) lanes Hty Hn) as (Hit & _ & _).
    rewrite <- (app_nil_r (List.concat _)), chunk_concat by (rewrite ?length_fmap; done).
    f_equal. rewrite <- list_fmap_compose. rewrite <- (list_fmap_id lanes) at 2.
    apply list_fmap_ext. intros i v' Hv'. apply (lane_of_bytes l it).
    + eapply (Forall_lookup_1 (fun x => has_type x (Lane l))); [exact Hty|exact Hv'].
    + done.
  - destruct t as [l| |]; [|done..]. simpl in *. unfold Spec.lanes in Hlen. simpl in Hlen.
    destruct lanes as [|v [|]]; unfold zlen in Hlen; simpl in Hlen; [lia| |lia].
    exists v. inversion_clear Hty. split_and!; [done..|].
    destruct v; [done|]. destruct H as [_ [? _]]. done.
Qed.

(** Vectors and lists of lanes correspond: the lanes of a vector are as
    many as its type says and of the lane type, putting them together gives the
    vector back, and lanes put together are extracted again unchanged. *)
Theorem lanes_roundtrip t :
  vector_ok t = true ->
  (forall v, has_type v t ->
     exists lanes, extractlanes v t = Ok lanes /\ zlen lanes = Spec.lanes t /\
       Forall (fun x => has_type x (lane_ty t)) lanes /\ vectorizelanes lanes t = Ok v) /\
  (forall lanes, zlen lanes = Spec.lanes t -> Forall (fun x => has_type x (lane_ty t)) lanes ->
     exists v, vectorizelanes lanes t = Ok v /\ has_type v t /\ extractlanes v t = Ok lanes).
Proof.
  intros Ht. assert (type_ok t = true) by (by destruct t).
  split; intros; [by apply extract_typed|by apply vectorize_typed].
Qed.

Lemma lanes_roundtrip_witness :
  exists v, vectorizelanes [VI I32 (-1); VI I32 5] (Vector I32 1) = Ok v /\
    has_type v (Vector I32 1) /\ extractlanes v (Vector I32 1) = Ok [VI I32 (-1); VI I32 5].
Proof.
  apply (lanes_roundtrip (Vector I32 1) eq_refl); [reflexivity|].
  repeat constructor; unfold in_signed; simpl; lia.
Defined.

(** What a lane-wise operation does with its lanes. *)
Lemma collect_typed {A} (P : DataValue -> Prop) (f : A -> ValueResult DataValue) (l : list A) :
  Forall (fun a => exists r, f a = Ok r /\ P r) l ->
  exists rs, collect (f <$> l) = Ok rs /\ Forall P rs /\ Forall2 (fun a r => f a = Ok r) l rs.
Proof.
  induction 1 as [|a l (r & E & Hr) _ (rs & IH1 & IH2 & IH3)]; [by exists []|].
  exists (r :: rs). rewrite fmap_cons. cbn [collect]. rewrite E, IH1. auto.
Qed.

Lemma unary_arith_typed t op x :
  type_ok t = true -> has_type x t ->
  (forall v, has_type v (lane_ty t) -> exists r, op v = Ok r /\ has_type r (lane_ty t)) ->
  exists r xs rs, unary_arith x t op = Ok r /\ has_type r t /\
    extractlanes x t = Ok xs /\ extractlanes r t = Ok rs /\ Forall2 (fun v u => op v = Ok u) xs rs.
Proof.
  intros Ht Hx Hop. destruct (extract_typed t x Ht Hx) as (xs & Ex & Hlx & Hxs & _).
  destruct (collect_typed (fun u => has_type u (lane_ty t)) op xs) as (rs & Ec & Hrs & Hall).
  { eapply Forall_impl; [exact Hxs|]. auto. }
  destruct (vectorize_typed t rs Ht) as (r & Er & Hr & Er').
  { apply Forall2_length in Hall. unfold zlen in *. lia. } { done. }
  exists r, xs, rs. split_and!; try done. unfold unary_arith. rewrite Ex. simpl.
  rewrite Ec. done.
Qed.

Lemma binary_arith_typed t op x y :
  type_ok t = true -> has_type x t -> has_type y t ->
  (forall u v, has_type u (lane_ty t) -> has_type v (lane_ty t) ->
     exists r, op u v = Ok r /\ has_type r (lane_ty t)) ->
  exists r xs ys rs, binary_arith x y t op = Ok r /\ has_type r t /\
    extractlanes x t = Ok xs /\ extractlanes y t = Ok ys /\ extractlanes r t = Ok rs /\
    Forall2 (fun p u => op p.1 p.2 = Ok u) (zip xs ys) rs.
Proof.
  intros Ht Hx Hy Hop.
  destruct (extract_typed t x Ht Hx) as (xs & Ex & Hlx & Hxs & _).
  destruct (extract_typed t y Ht Hy) as (ys & Ey & Hly & Hys & _).
  assert (length xs = length ys) as Hl by (unfold zlen in *; lia).
  destruct (collect_typed (fun u => has_type u (lane_ty t)) (fun p => op p.1 p.2) (zip xs ys))
    as (rs & Ec & Hrs & Hall).
  { apply Forall_forall. intros [u v] Hin. simpl.
    rewrite Forall_forall in Hxs, Hys. apply Hop; [apply Hxs|apply Hys];
      [by apply elem_of_zip_l in Hin|by apply elem_of_zip_r in Hin]. }
  destruct (vectorize_typed t rs Ht) as (r & Er & Hr & Er').
  { apply Forall2_length in Hall. rewrite length_zip_with in Hall. unfold zlen in *. lia. } { done. }
  exists r, xs, ys, rs. split_and!; try done. unfold binary_arith. rewrite Ex. simpl. rewrite Ey. simpl.
  assert (zip_with op xs ys = (fun p => op p.1 p.2) <$> zip xs ys) as ->
    by (rewrite zip_with_zip; apply list_fmap_ext; by intros _ [??] _).
  rewrite Ec. done.
Qed.
