(* ===== verification/ConstExpr.v ===== *)
(** * Constant expressions

    The expressions that initialize globals, tables and segments:
    [ConstOp] and [const_eval] of environ/src/types.rs, the evaluator of
    runtime/vm/const_expr.rs in a build without the [gc] feature, where the
    allocating operations are errors.  The globals and the functions of the
    instance are what [get_exported_global] and [get_exported_func] return for
    them.

    Shown: an expression that validation accepts evaluates to a value of its type, with
    no error and no panic; the compile-time evaluation and the fast path of the
    evaluator agree with the evaluation loop. *)

From S2P Require Import Prelude DivConst ClifTypes ClifValue.

Inductive WasmHeapTopType := TopExtern | TopAny | TopFunc | TopExn | TopCont.

#[export] Instance WasmHeapTopType_eq_dec : EqDecision WasmHeapTopType.
Proof. solve_decision. Defined.

Inductive ConstOp :=
| I32Const (i : Z) | I64Const (i : Z) | F32Const (f : Z) | F64Const (f : Z) | V128Const (v : Z)
| GlobalGet (g : nat)
| RefI31
| RefNull (ty : WasmHeapTopType)
| RefFunc (f : Z)
| I32Add | I32Sub | I32Mul | I64Add | I64Sub | I64Mul
| StructNew (struct_type_index : Z) | StructNewDefault (struct_type_index : Z)
| ArrayNew (array_type_index : Z) | ArrayNewDefault (array_type_index : Z)
| ArrayNewFixed (array_type_index array_size : Z)
| ExternConvertAny | AnyConvertExtern.

#[export] Instance ConstOp_eq_dec : EqDecision ConstOp.
Proof. solve_decision. Defined.

(** [ConstExpr { ops }]. *)
Definition ConstExpr := list ConstOp.

(** References are pointers; without collector only functions and nulls occur. *)
Inductive Val :=
| VI32 (i : Z) | VI64 (i : Z) | VF32 (f : Z) | VF64 (f : Z) | VV128 (v : Z)
| VFuncRef (f : option Z)
| VExternRef (r : option Z) | VAnyRef (r : option Z) | VExnRef (r : option Z) | VContRef (r : option Z).

Definition null_top (top : WasmHeapTopType) : Val :=
  match top with
  | TopFunc => VFuncRef None
  | TopExtern => VExternRef None
  | TopAny => VAnyRef None
  | TopExn => VExnRef None
  | TopCont => VContRef None
  end.

Inductive GlobalConstValue := GI32 (i : Z) | GI64 (i : Z) | GF32 (f : Z) | GF64 (f : Z) | GV128 (v : Z).

Definition const_eval (ops : ConstExpr) : option GlobalConstValue :=
  match ops with
  | [I32Const x] => Some (GI32 x)
  | [I64Const x] => Some (GI64 x)
  | [F32Const x] => Some (GF32 x)
  | [F64Const x] => Some (GF64 x)
  | [V128Const x] => Some (GV128 x)
  | _ => None
  end.

Definition provably_nonzero_i32 (ops : ConstExpr) : bool :=
  match const_eval ops with Some (GI32 x) => negb (x =? 0) | _ => false end.

(** ** The evaluator *)

Inductive ConstExprError := EmptyStack | NotOneValue | GcNotSupported.

Abbreviation EM := (M (list Val) ConstExprError).

(** [unwrap_i32] and its like panic on another type. *)
Definition unwrap_i32 (v : Val) : EM Z := match v with VI32 i => ret i | _ => panic end.
Definition unwrap_i64 (v : Val) : EM Z := match v with VI64 i => ret i | _ => panic end.

(** The stack, its top first. *)
Definition push (v : Val) : EM unit := modify (cons v).
Definition pop : EM Val :=
  fun stack => match stack with v :: stack => Ret v stack | [] => Fail EmptyStack [] end.

(** What the instance holds: its globals and the pointers of its functions. *)
Record ConstEvalContext := mkContext { globals : list Val; func_ref : Z -> Z }.

Section eval.
Context (context : ConstEvalContext).

Definition global_get (g : nat) : EM Val := unwrap (globals context !! g).
Definition ref_func (f : Z) : EM Val := ret (VFuncRef (Some (func_ref context f))).

Definition binary32 (op : Z -> Z -> Z) : EM unit :=
  b <- pop ;; b <- unwrap_i32 b ;; a <- pop ;; a <- unwrap_i32 a ;; push (VI32 (swrap 32 (op a b))).
Definition binary64 (op : Z -> Z -> Z) : EM unit :=
  b <- pop ;; b <- unwrap_i64 b ;; a <- pop ;; a <- unwrap_i64 a ;; push (VI64 (swrap 64 (op a b))).

Definition eval_op (op : ConstOp) : EM unit :=
  match op with
  | I32Const i => push (VI32 i)
  | I64Const i => push (VI64 i)
  | F32Const f => push (VF32 f)
  | F64Const f => push (VF64 f)
  | V128Const v => push (VV128 v)
  | GlobalGet g => v <- global_get g ;; push v
  | RefNull ty => push (null_top ty)
  | RefFunc f => v <- ref_func f ;; push v
  | RefI31 => panic
  | I32Add => binary32 Z.add
  | I32Sub => binary32 Z.sub
  | I32Mul => binary32 Z.mul
  | I64Add => binary64 Z.add
  | I64Sub => binary64 Z.sub
  | I64Mul => binary64 Z.mul
  | StructNew _ | StructNewDefault _ | ArrayNew _ | ArrayNewDefault _ | ArrayNewFixed _ _
  | ExternConvertAny | AnyConvertExtern => fail GcNotSupported
  end.

Fixpoint eval_ops (ops : ConstExpr) : EM unit :=
  match ops with [] => ret tt | op :: ops => eval_op op ;;; eval_ops ops end.

Definition eval_loop (ops : ConstExpr) : EM Val :=
  put [] ;;;
  eval_ops ops ;;;
  stack <- get ;;
  match stack with [v] => ret v | _ => fail NotOneValue end.

Definition try_simple (ops : ConstExpr) : option Val :=
  match const_eval ops with
  | Some (GI32 i) => Some (VI32 i)
  | Some (GI64 i) => Some (VI64 i)
  | Some (GF32 f) => Some (VF32 f)
  | Some (GF64 f) => Some (VF64 f)
  | Some (GV128 v) => Some (VV128 v)
  | None => None
  end.

(** [eval]; [eval_int] differs in being called for integers only. *)
Definition eval (ops : ConstExpr) : EM Val :=
  match try_simple ops with Some v => ret v | None => eval_loop ops end.
Definition eval_int : ConstExpr -> EM Val := eval.

(** What evaluating says to the callers, which do not look at the stack. *)
Definition result_of (ops : ConstExpr) (stack : list Val) : outcome unit ConstExprError Val :=
  match eval ops stack with Ret v _ => Ret v tt | Fail e _ => Fail e tt | Panic => Panic end.
End eval.

(** ** Types *)

Inductive ValType := TyI32 | TyI64 | TyF32 | TyF64 | TyV128 | TyRef (top : WasmHeapTopType).

#[export] Instance ValType_eq_dec : EqDecision ValType.
Proof. solve_decision. Defined.

Definition val_type (v : Val) : ValType :=
  match v with
  | VI32 _ => TyI32 | VI64 _ => TyI64 | VF32 _ => TyF32 | VF64 _ => TyF64 | VV128 _ => TyV128
  | VFuncRef _ => TyRef TopFunc | VExternRef _ => TyRef TopExtern | VAnyRef _ => TyRef TopAny
  | VExnRef _ => TyRef TopExn | VContRef _ => TyRef TopCont
  end.

(** Integers in their ranges. *)
Definition val_ok (v : Val) : Prop :=
  match v with VI32 i => in_signed 32 i | VI64 i => in_signed 64 i | _ => True end.

(** Validation: the types on the stack after an operation. *)
Definition op_type (gs : list ValType) (op : ConstOp) (stack : list ValType) : option (list ValType) :=
  match op with
  | I32Const i => if bool_decide (- 2 ^ 31 <= i < 2 ^ 31) then Some (TyI32 :: stack) else None
  | I64Const i => if bool_decide (- 2 ^ 63 <= i < 2 ^ 63) then Some (TyI64 :: stack) else None
  | F32Const _ => Some (TyF32 :: stack)
  | F64Const _ => Some (TyF64 :: stack)
  | V128Const _ => Some (TyV128 :: stack)
  | GlobalGet g => t ← gs !! g; Some (t :: stack)
  | RefNull top => Some (TyRef top :: stack)
  | RefFunc _ => Some (TyRef TopFunc :: stack)
  | I32Add | I32Sub | I32Mul =>
      match stack with TyI32 :: TyI32 :: stack => Some (TyI32 :: stack) | _ => None end
  | I64Add | I64Sub | I64Mul =>
      match stack with TyI64 :: TyI64 :: stack => Some (TyI64 :: stack) | _ => None end
  | _ => None
  end.

Fixpoint ops_type (gs : list ValType) (ops : ConstExpr) (stack : list ValType) : option (list ValType) :=
  match ops with [] => Some stack | op :: ops => stack ← op_type gs op stack; ops_type gs ops stack end.

Definition expr_type (gs : list ValType) (ops : ConstExpr) : option ValType :=
  match ops_type gs ops [] with Some [t] => Some t | _ => None end.

(** A stack of values of the given types. *)
Definition typed (stack : list Val) (ts : list ValType) : Prop :=
  Forall2 (fun v t => val_type v = t /\ val_ok v) stack ts.

Section soundness.
Context (context : ConstEvalContext) (gs : list ValType) (Hgs : typed (globals context) gs).

Lemma push_typed v t stack ts : val_type v = t -> val_ok v -> typed stack ts ->
  wp (push v) (fun _ stack' => typed stack' (t :: ts)) (fun _ _ => False) stack.
Proof. intros. by constructor. Qed.

Lemma binary32_typed op stack ts : typed stack (TyI32 :: TyI32 :: ts) ->
  wp (binary32 op) (fun _ stack' => typed stack' (TyI32 :: ts)) (fun _ _ => False) stack.
Proof.
  intros (b & s1 & [Hb _] & (a & s2 & [Ha _] & Hs & ->)%Forall2_cons_inv_r & ->)%Forall2_cons_inv_r.
  destruct a, b; try done. constructor; [|done]. split; [done|]. apply swrap_in. lia.
Qed.

Lemma binary64_typed op stack ts : typed stack (TyI64 :: TyI64 :: ts) ->
  wp (binary64 op) (fun _ stack' => typed stack' (TyI64 :: ts)) (fun _ _ => False) stack.
Proof.
  intros (b & s1 & [Hb _] & (a & s2 & [Ha _] & Hs & ->)%Forall2_cons_inv_r & ->)%Forall2_cons_inv_r.
  destruct a, b; try done. constructor; [|done]. split; [done|]. apply swrap_in. lia.
Qed.

Lemma eval_op_typed op stack ts ts' : typed stack ts -> op_type gs op ts = Some ts' ->
  wp (eval_op context op) (fun _ stack' => typed stack' ts') (fun _ _ => False) stack.
Proof.
  intros Hs Ht. destruct op; simpl in Ht; try done.
  1-2: case_bool_decide; [|done]; injection Ht as <-; by apply push_typed.
  1-3: injection Ht as <-; by apply push_typed.
  - destruct (gs !! g) as [t|] eqn:Eg; [|done]. injection Ht as <-.
    destruct (Forall2_lookup_r _ _ _ _ _ Hgs Eg) as (v & Ev & Hv & Hok).
    apply wp_bind. unfold global_get. rewrite Ev. by apply push_typed.
  - injection Ht as <-. apply push_typed; [by destruct ty..|done].
  - injection Ht as <-. apply wp_bind, wp_ret. by apply push_typed.
  - destruct ts as [|[] [|[] ts]]; try done. injection Ht as <-. by apply binary32_typed.
  - destruct ts as [|[] [|[] ts]]; try done. injection Ht as <-. by apply binary32_typed.
  - destruct ts as [|[] [|[] ts]]; try done. injection Ht as <-. by apply binary32_typed.
  - destruct ts as [|[] [|[] ts]]; try done. injection Ht as <-. by apply binary64_typed.
  - destruct ts as [|[] [|[] ts]]; try done. injection Ht as <-. by apply binary64_typed.
  - destruct ts as [|[] [|[] ts]]; try done. injection Ht as <-. by apply binary64_typed.
Qed.

Lemma eval_ops_typed ops stack ts ts' : typed stack ts -> ops_type gs ops ts = Some ts' ->
  wp (eval_ops context ops) (fun _ stack' => typed stack' ts') (fun _ _ => False) stack.
Proof.
  revert stack ts. induction ops as [|op ops IH]; intros stack ts Hs Ht; [by injection Ht as <-|].
  simpl in Ht. destruct (op_type gs op ts) as [ts1|] eqn:E; [|done].
  apply wp_bind. eapply wp_mono; [by eapply eval_op_typed| |done]. intros [] stack1 Hs1. by eapply IH.
Qed.

Lemma eval_loop_typed ops t stack : expr_type gs ops = Some t ->
  wp (eval_loop context ops) (fun v _ => val_type v = t /\ val_ok v) (fun _ _ => False) stack.
Proof.
  unfold expr_type. destruct (ops_type gs ops []) as [[|t' [|]]|] eqn:E; try done. intros [= ->].
  unfold eval_loop. apply wp_bind, (wp_run _ _ _ _ tt []); [done|]. apply wp_bind.
  eapply wp_mono; [apply (eval_ops_typed ops [] []); [constructor|exact E]| |done].
  intros [] stack' (v & s & Hv & ->%Forall2_nil_inv_r & ->)%Forall2_cons_inv_r. done.
Qed.
End soundness.

(** The fast path says what the loop says. *)
Lemma try_simple_loop context ops v stack : try_simple ops = Some v ->
  eval_loop context ops stack = Ret v [v].
Proof.
  unfold try_simple, const_eval. destruct ops as [|op [|]]; try done; destruct op; try done; by intros [= <-].
Qed.

(** The stack that was there before does not matter. *)
Lemma result_of_loop context ops stack :
  result_of context ops stack =
    match eval_loop context ops [] with Ret v _ => Ret v tt | Fail e _ => Fail e tt | Panic => Panic end.
Proof.
  unfold result_of, eval. destruct (try_simple ops) as [v|] eqn:E; [by rewrite (try_simple_loop context ops v [] E)|].
  reflexivity.
Qed.

(** An expression that validation accepts, in an instance whose globals have their types,
    evaluates without an error and without a panic to a value of its type; the
    fast path for single constants gives what the loop over the operations gives;
    and what is known at compile time to be a nonzero integer is one. *)
Theorem const_expr_sound context gs ops t stack : typed (globals context) gs -> expr_type gs ops = Some t ->
  (exists v, result_of context ops stack = Ret v tt /\ val_type v = t /\ val_ok v /\
     (provably_nonzero_i32 ops = true -> exists i, v = VI32 i /\ i <> 0)) /\
  (forall v, try_simple ops = Some v -> eval_loop context ops stack = Ret v [v]).
Proof.
  intros Hg Ht. split; [|intros v; by apply try_simple_loop]. rewrite result_of_loop.
  pose proof (eval_loop_typed context gs Hg ops t [] Ht) as Hw. unfold wp in Hw.
  destruct (eval_loop context ops []) as [v s|e s|] eqn:E; [|done..]. exists v.
  destruct Hw. split_and!; [done..|]. unfold provably_nonzero_i32.
  destruct (const_eval ops) as [[i| | | |]|] eqn:Ec; try done. intros Hi%negb_true_iff%Z.eqb_neq. exists i. split; [|done].
  rewrite (try_simple_loop context ops (VI32 i) []) in E; [by injection E as <-|]. unfold try_simple. by rewrite Ec.
Qed.

Definition two_globals : ConstEvalContext := mkContext [VI32 7; VFuncRef (Some 4096)] (fun f => 8192 + 32 * f).

Lemma const_expr_sound_witness :
  let ops := [I32Const (2 ^ 31 - 1); GlobalGet 0; I32Add] in
  (exists v, result_of two_globals ops [] = Ret v tt /\ val_type v = TyI32 /\ val_ok v /\
     (provably_nonzero_i32 ops = true -> exists i, v = VI32 i /\ i <> 0)) /\
  (forall v, try_simple ops = Some v -> eval_loop two_globals ops [] = Ret v [v]).
Proof.
  apply (const_expr_sound two_globals [TyI32; TyRef TopFunc] [I32Const (2 ^ 31 - 1); GlobalGet 0; I32Add] TyI32 []).
  - repeat constructor; done.
  - reflexivity.
Defined.

(** The sum wraps. *)
Example const_expr_wraps : result_of two_globals [I32Const (2 ^ 31 - 1); GlobalGet 0; I32Add] [] = Ret (VI32 (- 2 ^ 31 + 6)) tt.
Proof. reflexivity. Qed.
