(* ===== verification/Metering.v ===== *)
(** * Fuel

    cranelift/src/func_environ.rs, the fuel counter of compiled code, and
    runtime/store.rs and vm/libcalls.rs, the fuel of a store.

    The store keeps its fuel in two numbers: [fuel_consumed], an [i64] that
    compiled code increments from a negative number towards zero, and
    [fuel_reserve], what does not fit there or is held back until the next yield.
    A compiled function keeps the counter in a local variable, [fuel_var]; the
    compiler adds the costs of operators up and emits one addition per run of
    straight-line code, and writes the variable back and reads it again around
    calls.

    The compile time is a monad that emits instructions on the counter ([C]); the
    instructions run on the variable and the store's fuel ([exec]); a machine with a stack
    of frames runs functions along any path, one operator per choice ([step]), and
    counts the cost of every operator it runs ([spent]), which is the
    specification.

    Shown: the batched, cached, split counter is exact, whatever the yield
    interval, and no arithmetic overflows; a call or the start of an iteration is only
    passed with fuel left; and two ways in which the code loses count, calls of
    references and exceptions caught from a callee. *)

From S2P Require Import Prelude DivConst ClifValue.

(** ** The fuel of a store *)

Definition i64_MAX : Z := 2 ^ 63 - 1.

(** [fuel_consumed] of [VMStoreContext] and two fields of [StoreOpaque]; [yields]
    counts the times the store has yielded to its executor. *)
Record Fuel := mkFuel { fuel_consumed : Z; fuel_reserve : Z; fuel_yield_interval : option Z; yields : Z }.

Definition with_consumed (v : Z) (s : Fuel) : Fuel := mkFuel v (fuel_reserve s) (fuel_yield_interval s) (yields s).

(** [-x] on an [i64]. *)
Definition checked_neg (x : Z) : option Z := if x =? - 2 ^ 63 then None else Some (- x).

(** [u64::saturating_add_signed]. *)
Definition saturating_add_signed (x d : Z) : Z := Z.max 0 (Z.min (2 ^ 64 - 1) (x + d)).

Definition get_fuel (injected_fuel fuel_reserve : Z) : option Z :=
  d ← checked_neg injected_fuel; Some (saturating_add_signed fuel_reserve d).

(** The new counter and reserve. *)
Definition set_fuel (yield_interval : option Z) (new_fuel_amount : Z) : Z * Z :=
  let interval := default (2 ^ 64 - 1) yield_interval in
  let injected := Z.min interval new_fuel_amount in
  let injected := Z.min injected i64_MAX in
  (- injected, new_fuel_amount - injected).

Definition apply_fuel (r : Z * Z) (s : Fuel) : Fuel := mkFuel r.1 r.2 (fuel_yield_interval s) (yields s).

Inductive Stop := OutOfFuel | WasmTrap | FuelNotConfigured | ZeroInterval | BadChoice.

Definition refuel : M Fuel Stop bool :=
  s <- get ;;
  fuel <- unwrap (get_fuel (fuel_consumed s) (fuel_reserve s)) ;;
  if 0 <? fuel then modify (apply_fuel (set_fuel (fuel_yield_interval s) fuel)) ;;; ret true else ret false.

Definition yield_now : M Fuel Stop unit :=
  modify (fun s => mkFuel (fuel_consumed s) (fuel_reserve s) (fuel_yield_interval s) (yields s + 1)).

(** The intrinsic that compiled code calls. *)
Definition out_of_gas : M Fuel Stop unit :=
  r <- refuel ;;
  if negb r then fail OutOfFuel
  else s <- get ;; match fuel_yield_interval s with Some _ => yield_now | None => ret tt end.

Module StoreOpaque.
Section consume.
Context (consume_fuel : bool).

Definition configured : M Fuel Stop unit := if consume_fuel then ret tt else fail FuelNotConfigured.

Definition get_fuel : M Fuel Stop Z :=
  configured ;;; s <- get ;; unwrap (get_fuel (fuel_consumed s) (fuel_reserve s)).

Definition set_fuel (fuel : Z) : M Fuel Stop unit :=
  configured ;;; modify (fun s => apply_fuel (set_fuel (fuel_yield_interval s) fuel) s).

Definition fuel_async_yield_interval (interval : option Z) : M Fuel Stop unit :=
  configured ;;;
  (if bool_decide (interval = Some 0) then fail ZeroInterval else ret tt) ;;;
  modify (fun s => mkFuel (fuel_consumed s) (fuel_reserve s) interval (yields s)) ;;;
  f <- get_fuel ;; set_fuel f.
End consume.
End StoreOpaque.

(** ** What the compiler emits

    [Add n] is an addition to [fuel_var] of a constant or of a value, [CheckFuel] the
    comparison and the two blocks of [fuel_check]. *)

Inductive FuelInst := Add (n : Z) | LoadVar | SaveVar | CheckFuel.

(** [fuel_consumed] of [FuncEnvironment], the cost that is not yet emitted. *)
Record Emitter := mkEmitter { pending : Z; emitted : list FuelInst }.

Definition C (A : Type) : Type := M Emitter Stop A.

Definition emit (i : FuelInst) : C unit := modify (fun e => mkEmitter (pending e) (emitted e ++ [i])).

Definition fuel_increment_var : C unit :=
  consumption <- gets pending ;;
  modify (fun e => mkEmitter 0 (emitted e)) ;;;
  if consumption =? 0 then ret tt else emit (Add consumption).

Definition fuel_load_into_var : C unit := emit LoadVar.
Definition fuel_save_from_var : C unit := emit SaveVar.
Definition fuel_check : C unit := fuel_increment_var ;;; emit CheckFuel.
Definition manual_fuel_check (fuel_to_consume : Z) : C unit := fuel_increment_var ;;; emit (Add fuel_to_consume) ;;; fuel_check.
Definition fuel_function_entry : C unit := fuel_load_into_var ;;; fuel_check.
Definition fuel_function_exit : C unit := fuel_save_from_var.

(** The operators that [fuel_before_op] names, by their names, and the others, which may
    be accesses that are known to be out of bounds. *)
Inductive Operator :=
| Unreachable | Nop | Drop | Block | Loop | If | Else | End | TryTable
| Br | BrIf | BrTable | BrOnNull | BrOnNonNull | BrOnCast | BrOnCastFail
| Return | Call | CallIndirect | CallRef | ReturnCall | ReturnCallIndirect | ReturnCallRef
| Throw | ThrowRef
| Other (opcode : nat) (always_traps : bool).

(** [OperatorCost::default]. *)
Definition default_operator_cost (op : Operator) : Z :=
  match op with
  | Nop | Drop | Block | Loop | Unreachable | Return | Else | End => 0
  | _ => 1
  end.

(** [FuncEnvironment::new]: a function costs one. *)
Definition FUNCTION_COST : Z := 1.

(** The arms of the match of [fuel_before_op]. *)
Definition leaves_function (op : Operator) : bool :=
  match op with
  | Unreachable | Return | CallIndirect | Call | ReturnCall | ReturnCallRef | ReturnCallIndirect | Throw | ThrowRef => true
  | _ => false
  end.

Definition ends_basic_block (op : Operator) : bool :=
  match op with
  | Loop | If | Br | BrIf | BrTable | BrOnNull | BrOnNonNull | BrOnCast | BrOnCastFail | End | Else => true
  | _ => false
  end.

Section compile.
Context (operator_cost : Operator -> Z).

Definition fuel_before_op (op : Operator) (reachable : bool) : C unit :=
  if negb reachable then (p <- gets pending ;; rust_assert (p =? 0))
  else
    modify (fun e => mkEmitter (pending e + operator_cost op) (emitted e)) ;;;
    if leaves_function op then fuel_increment_var ;;; fuel_save_from_var
    else if ends_basic_block op then fuel_increment_var
    else ret tt.

Definition fuel_after_op (op : Operator) : C unit :=
  match op with Call | CallIndirect => fuel_load_into_var | _ => ret tt end.

Definition before_unconditionally_trapping_memory_access : C unit := fuel_increment_var ;;; fuel_save_from_var.

(** What an operator emits before control leaves it. *)
Definition translate_op (x : Operator * bool) : C unit :=
  fuel_before_op x.1 x.2 ;;;
  match x.1 with
  | Other _ true => if x.2 then before_unconditionally_trapping_memory_access else ret tt
  | _ => ret tt
  end.

(** A function: its operators, with whether the translation reaches them. *)
Definition Fn : Type := list (Operator * bool).

Definition op_emit (x : Operator * bool) (p : Z) : option Emitter :=
  match translate_op x (mkEmitter p []) with Ret _ e => Some e | _ => None end.

(** The pending cost before the [i]-th operator. *)
Fixpoint pending_from (p : Z) (f : Fn) (i : nat) {struct i} : option Z :=
  match i, f with
  | O, _ => Some p
  | S i, x :: f => e ← op_emit x p; pending_from (pending e) f i
  | S _, [] => None
  end.

Definition pending_at (f : Fn) (i : nat) : option Z := pending_from 0 f i.

Definition op_code (f : Fn) (i : nat) : option (list FuelInst) :=
  x ← f !! i; p ← pending_at f i; e ← op_emit x p; Some (emitted e).

Definition code_of (m : C unit) (p : Z) : list FuelInst := emitted (after m (mkEmitter p [])).

(** Where control can be transferred to: after a [loop], an [else] or an [end]. *)
Definition is_label (f : Fn) (j : nat) : bool :=
  match j with
  | O => false
  | S i => match f !! i with Some (Loop, _) | Some (Else, _) | Some (End, _) => true | _ => false end
  end.

Definition is_loop_header (f : Fn) (j : nat) : bool :=
  match j with O => false | S i => match f !! i with Some (Loop, _) => true | _ => false end end.

(** After these nothing is reachable. *)
Definition ends_reachability (op : Operator) : bool :=
  match op with
  | Unreachable | Br | BrTable | Return | ReturnCall | ReturnCallRef | ReturnCallIndirect | Throw | ThrowRef | CallIndirect => true
  | Other _ t => t
  | _ => false
  end.

(** What the translation of a function guarantees of its flags: the entry is
    reachable, only the operators above end reachability, and the last
    operator is an [end]. *)
Definition reach_ok (f : Fn) : bool :=
  forallb (fun i => match f !! i, f !! S i with
                    | Some (o, true), Some (_, false) => ends_reachability o
                    | _, _ => true end) (seq 0 (length f)) &&
  match f with (_, r) :: _ => r | [] => false end &&
  match last f with Some (End, _) => true | _ => false end.
End compile.

(** ** Running compiled code *)

(** The instructions run on the variable and the store's fuel. *)
Definition exec1 (i : FuelInst) : M (Z * Fuel) Stop unit :=
  match i with
  | Add n => modify (fun s => (swrap 64 (s.1 + n), s.2))
  | LoadVar => modify (fun s => (fuel_consumed s.2, s.2))
  | SaveVar => modify (fun s => (s.1, with_consumed s.1 s.2))
  | CheckFuel =>
      fuel <- gets fst ;;
      if 0 <=? fuel then
        modify (fun s => (s.1, with_consumed s.1 s.2)) ;;;
        zoom snd (fun t s => (s.1, t)) out_of_gas ;;;
        modify (fun s => (fuel_consumed s.2, s.2))
      else ret tt
  end.

Fixpoint exec (l : list FuelInst) : M (Z * Fuel) Stop unit :=
  match l with [] => ret tt | i :: l => exec1 i ;;; exec l end.

(** A frame: the function, the next operator, or the one whose call runs, and
    the variable. *)
Record Frame := mkFrame { fn : Fn; pc : nat; fuel_var : Z }.

Record State := mkState { frames : list Frame; fuel : Fuel; spent : Z }.

(** What the program does next. *)
Inductive Choice :=
| Next
| Jump (target : nat)
| CallFn (callee : Fn)
| TailCallFn (callee : Fn)
| Leave
| Unwind (depth : nat) (target : nat)
| TrapHere.

Definition falls_through (op : Operator) : bool :=
  match op with
  | Unreachable | Br | BrTable | Return | Else | Throw | ThrowRef | Call | CallIndirect | CallRef
  | ReturnCall | ReturnCallIndirect | ReturnCallRef => false
  | Other _ t => negb t
  | _ => true
  end.

Definition can_jump (op : Operator) : bool :=
  match op with If | Else | Br | BrIf | BrTable | BrOnNull | BrOnNonNull | BrOnCast | BrOnCastFail => true | _ => false end.

Definition is_call (op : Operator) : bool := match op with Call | CallIndirect | CallRef => true | _ => false end.
Definition is_tail_call (op : Operator) : bool :=
  match op with ReturnCall | ReturnCallIndirect | ReturnCallRef => true | _ => false end.
Definition is_return (op : Operator) : bool := match op with Return => true | _ => false end.
Definition is_throw (op : Operator) : bool := match op with Throw | ThrowRef => true | _ => false end.
Definition traps_here (op : Operator) : bool :=
  match op with Unreachable | CallIndirect => true | Other _ t => t | _ => false end.

Definition R (A : Type) : Type := M State Stop A.

Definition guard (b : bool) : R unit := if b then ret tt else fail BadChoice.

Definition spend (n : Z) : R unit := modify (fun s => mkState (frames s) (fuel s) (spent s + n)).

(** Code of the top frame. *)
Definition exec_top (l : list FuelInst) : R unit :=
  fun s => match frames s with
           | fr :: rest =>
               let put v t := mkState (mkFrame (fn fr) (pc fr) v :: rest) t (spent s) in
               match exec l (fuel_var fr, fuel s) with
               | Ret _ (v, t) => Ret tt (put v t)
               | Fail e (v, t) => Fail e (put v t)
               | Panic => Panic
               end
           | [] => Fail BadChoice s
           end.

Definition set_frames (l : list Frame) : R unit := modify (fun s => mkState l (fuel s) (spent s)).

Section machine.
Context (operator_cost : Operator -> Z).

(** [translate_loop_header]. *)
Definition goto (f : Fn) (j : nat) (v : Z) (rest : list Frame) : R unit :=
  set_frames (mkFrame f j v :: rest) ;;;
  if is_loop_header f j then
    p <- unwrap (pending_at operator_cost f j) ;; exec_top (code_of fuel_check p)
  else ret tt.

Definition push (f : Fn) (rest : list Frame) : R unit :=
  set_frames (mkFrame f 0 0 :: rest) ;;;
  spend FUNCTION_COST ;;; exec_top (code_of fuel_function_entry FUNCTION_COST).

(** Return to the caller, which goes on after its call. *)
Definition pop (rest : list Frame) : R unit :=
  set_frames rest ;;;
  match rest with
  | [] => ret tt
  | fr :: rest =>
      x <- unwrap (fn fr !! pc fr) ;;
      exec_top (code_of (fuel_after_op x.1) 0) ;;;
      s <- get ;;
      match frames s with
      | fr' :: _ => set_frames (mkFrame (fn fr) (S (pc fr)) (fuel_var fr') :: rest)
      | [] => panic
      end
  end.

(** What is done after the code of an operator has run. *)
Definition dispatch (op : Operator) (fr : Frame) (rest : list Frame) (c : Choice) : R unit :=
  match c with
  | Next => guard (falls_through op) ;;; goto (fn fr) (S (pc fr)) (fuel_var fr) rest
  | Jump j => guard (can_jump op && is_label (fn fr) j) ;;; goto (fn fr) j (fuel_var fr) rest
  | CallFn g => guard (is_call op && reach_ok g) ;;; push g (fr :: rest)
  | TailCallFn g => guard (is_tail_call op && reach_ok g) ;;; push g rest
  | Leave => guard (is_return op) ;;; pop rest
  | Unwind d j =>
      guard (is_throw op) ;;;
      match drop d (fr :: rest) with
      | [] => fail BadChoice
      | h :: rest => guard (is_label (fn h) j) ;;; goto (fn h) j (fuel_var h) rest
      end
  | TrapHere => guard (traps_here op) ;;; fail WasmTrap
  end.

(** One operator.  [Leave] after the last operator runs the code at the exit of the
    function. *)
Definition step (c : Choice) : R unit :=
  s <- get ;;
  match frames s with
  | [] => fail BadChoice
  | fr :: rest =>
      match fn fr !! pc fr with
      | None =>
          guard (match c with Leave => true | _ => false end) ;;;
          exec_top (code_of fuel_function_exit 0) ;;; pop rest
      | Some (op, reachable) =>
          guard reachable ;;;
          code <- unwrap (op_code operator_cost (fn fr) (pc fr)) ;;
          spend (operator_cost op) ;;;
          exec_top code ;;;
          s <- get ;;
          match frames s with fr :: _ => dispatch op fr rest c | [] => panic end
      end
  end.

Fixpoint run (cs : list Choice) : R unit :=
  match cs with [] => ret tt | c :: cs => step c ;;; run cs end.

(** The host calls a function of the module. *)
Definition enter (f : Fn) : R unit := push f [].

Definition fresh (n : Z) (interval : option Z) : State :=
  mkState [] (apply_fuel (set_fuel interval n) (mkFuel 0 0 interval 0)) 0.
End machine.

(** ** The counter is exact *)

(** The fuel that [get_fuel] reports. *)
Definition remaining (s : Fuel) : option Z := get_fuel (fuel_consumed s) (fuel_reserve s).

Definition interval_ok (interval : option Z) : Prop :=
  match interval with Some k => 1 <= k < 2 ^ 64 | None => True end.

(** From [n] units of fuel, [spent] of which [p] are not yet counted: the variable
    [v] and the reserve make up what is left. *)
Record good (n spent p v : Z) (t : Fuel) : Prop := {
  good_n : 0 <= n < 2 ^ 64;
  good_reserve : 0 <= fuel_reserve t;
  good_total : fuel_reserve t - v = n - (spent - p);
  good_pending : 0 <= p;
  good_spent : 0 <= spent < 2 ^ 63;
  good_range : - i64_MAX <= v /\ v + p <= spent;
  good_interval : interval_ok (fuel_yield_interval t)
}.

Lemma set_fuel_spec interval m : interval_ok interval -> 0 <= m < 2 ^ 64 ->
  let r := set_fuel interval m in
  r.2 - r.1 = m /\ 0 <= r.2 /\ - i64_MAX <= r.1 <= 0 /\ (0 < m -> r.1 < 0).
Proof.
  unfold interval_ok, set_fuel, i64_MAX. intros Hi Hm. destruct interval; simpl; lia.
Qed.

Lemma get_fuel_spec inj res : - 2 ^ 63 < inj -> get_fuel inj res = Some (Z.max 0 (Z.min (2 ^ 64 - 1) (res - inj))).
Proof.
  unfold get_fuel, checked_neg, saturating_add_signed. intros Hi.
  destruct (Z.eqb_spec inj (- 2 ^ 63)); [lia|]. simpl. do 2 f_equal; lia.
Qed.

(** A saved counter reports what is left. *)
Lemma good_remaining n spent v t : good n spent 0 v t ->
  remaining (with_consumed v t) = Some (Z.max 0 (n - spent)).
Proof.
  intros [Hn Hr Ht _ Hs [Hv _] _]. unfold remaining, i64_MAX in *. simpl.
  rewrite get_fuel_spec by lia. f_equal. lia.
Qed.

Lemma exec_app l l' s : exec (l ++ l') s = (exec l ;;; exec l') s.
Proof.
  revert s. induction l as [|i l IH]; intros s; [done|]. simpl. unfold bind.
  destruct (exec1 i s); [|done|done]. apply IH.
Qed.

Lemma exec_one i s : exec [i] s = exec1 i s.
Proof. simpl. unfold bind. by destruct (exec1 i s) as [[]| |]. Qed.

(** Cost [c] is spent and, with what was pending, added. *)
Lemma good_spend n spent p v t c : 0 <= c -> spent + c < 2 ^ 63 -> good n spent p v t -> good n (spent + c) (p + c) v t.
Proof. intros Hc Hb [Hn Hr Ht Hp Hs Hv Hi]. constructor; try done; lia. Qed.

Lemma good_add n spent p v t : good n spent p v t -> swrap 64 (v + p) = v + p /\ good n spent 0 (v + p) t.
Proof.
  intros [Hn Hr Ht Hp Hs [Hv1 Hv2] Hi]. unfold i64_MAX in *. split.
  - apply swrap_small; [lia|]. unfold in_signed. lia.
  - constructor; unfold i64_MAX; try done; lia.
Qed.

Lemma good_with_consumed n spent p v w t : good n spent p v t -> good n spent p v (with_consumed w t).
Proof. by intros [Hn Hr Ht Hp Hs Hv Hi]. Qed.

(** The stop that an empty tank is. *)
Definition stopped (n spent : Z) (e : Stop) (t : Fuel) : Prop :=
  match e with
  | OutOfFuel => n <= spent /\ remaining t = Some 0
  | WasmTrap => remaining t = Some (Z.max 0 (n - spent))
  | BadChoice => True
  | FuelNotConfigured | ZeroInterval => False
  end.

Lemma exec_check n spent v t : good n spent 0 v t ->
  wp (exec1 CheckFuel) (fun _ s => good n spent 0 s.1 s.2 /\ spent < n) (fun e s => e = OutOfFuel /\ stopped n spent e s.2) (v, t).
Proof.
  intros G. pose proof (good_remaining n spent v t G) as Hrem.
  destruct G as [Hn Hr Ht _ Hs [Hv1 Hv2] Hi]. unfold wp, exec1, bind, gets. simpl.
  destruct (Z.leb_spec 0 v) as [Hv|Hv]; [|simpl; split; [constructor; done || lia|lia]].
  unfold modify, zoom, out_of_gas, refuel, bind, get. simpl.
  unfold remaining in Hrem. simpl in Hrem. rewrite Hrem. simpl.
  destruct (Z.ltb_spec 0 (Z.max 0 (n - spent))) as [Hf|Hf]; simpl.
  - pose proof (set_fuel_spec (fuel_yield_interval t) (Z.max 0 (n - spent)) Hi ltac:(lia)) as (E & H1 & H2 & H3).
    generalize dependent (set_fuel (fuel_yield_interval t) (Z.max 0 (n - spent))). intros [a b]. simpl. intros.
    destruct (fuel_yield_interval t) eqn:Ei; unfold yield_now, modify, ret; simpl;
      (split; [constructor; simpl; rewrite ?Ei; try done; lia|lia]).
  - split_and!; [done|lia|]. unfold remaining. simpl. rewrite Hrem. f_equal. lia.
Qed.

(** ** Batching *)

Definition always_trapping (op : Operator) : bool := match op with Other _ t => t | _ => false end.
Definition saves (op : Operator) : bool := leaves_function op || always_trapping op.
Definition flushes (op : Operator) : bool := saves op || ends_basic_block op.

(** [fuel_increment_var]'s instruction. *)
Definition add_code (k : Z) : list FuelInst := if k =? 0 then [] else [Add k].

Section costs.
Context (operator_cost : Operator -> Z).
Context (operator_cost_u8 : forall op, 0 <= operator_cost op <= 255).

Abbreviation pending_at := (pending_at operator_cost).
Abbreviation op_code := (op_code operator_cost).
Abbreviation op_emit := (op_emit operator_cost).

Lemma op_emit_reachable o p : op_emit (o, true) p =
  let q := p + operator_cost o in
  Some (mkEmitter (if flushes o then 0 else q)
                  ((if flushes o then add_code q else []) ++ (if saves o then [SaveVar] else []))).
Proof.
  unfold Metering.op_emit, translate_op, fuel_before_op, flushes, saves, add_code. simpl.
  destruct o as [| | | | | | | | | | | | | | | | | | | | | | | | |k t]; try destruct t;
    unfold before_unconditionally_trapping_memory_access, fuel_increment_var, fuel_save_from_var, emit,
      bind, modify, gets, ret; simpl; try destruct (_ =? 0); done.
Qed.

Lemma op_emit_unreachable o : op_emit (o, false) 0 = Some (mkEmitter 0 []).
Proof. unfold Metering.op_emit, translate_op. by destruct o as [| | | | | | | | | | | | | | | | | | | | | | | | |k [|]]. Qed.

Lemma pending_succ f i : pending_at f (S i) = q ← pending_at f i; x ← f !! i; e ← op_emit x q; Some (pending e).
Proof.
  unfold Metering.pending_at. generalize 0. revert f. induction i as [|i IH]; intros f p; destruct f as [|x f]; try done.
  change (pending_from operator_cost p (x :: f) (S (S i))) with
    (e ← op_emit x p; pending_from operator_cost (pending e) f (S i)).
  change (pending_from operator_cost p (x :: f) (S i)) with (e ← op_emit x p; pending_from operator_cost (pending e) f i).
  destruct (op_emit x p) as [e|]; [|done]. simpl. apply IH.
Qed.

Lemma reach_ok_step f i o x : reach_ok f = true -> f !! i = Some (o, true) -> f !! S i = Some (x, false) ->
  flushes o = true.
Proof.
  unfold reach_ok. intros [[Hf _]%andb_true_iff _]%andb_true_iff Hi Hj.
  assert (He : ends_reachability o = true).
  { pose proof (proj1 (forallb_elem _ _) Hf i) as E. simpl in E. rewrite Hi in E. rewrite Hj in E. apply E.
    apply lookup_lt_Some in Hi. apply elem_of_seq. lia. }
  unfold flushes, saves. destruct o; try done. simpl in *. by rewrite He.
Qed.

(** The debug assertion never fails: nothing is pending where nothing is reachable. *)
Lemma pending_ok f i : reach_ok f = true -> (i <= length f)%nat ->
  exists p, pending_at f i = Some p /\ 0 <= p /\ forall o, f !! i = Some (o, false) -> p = 0.
Proof.
  intros Hf. induction i as [|i IH]; intros Hi.
  - exists 0. split_and!; [done|lia|done].
  - destruct IH as (p & Hp & Hp0 & Hu); [lia|]. rewrite pending_succ, Hp. simpl.
    destruct (f !! i) as [[o r]|] eqn:Ei; [|apply lookup_ge_None in Ei; lia]. simpl. destruct r.
    + rewrite op_emit_reachable. simpl. eexists. split; [done|]. specialize (operator_cost_u8 o).
      split; [destruct (flushes o); lia|]. intros x Hx. by rewrite (reach_ok_step f i o x Hf Ei Hx).
    + rewrite (Hu o eq_refl), op_emit_unreachable. by exists 0.
Qed.

(** After a flush nothing is pending. *)
Lemma pending_flushed f i o r : reach_ok f = true -> f !! i = Some (o, r) -> flushes o = true -> pending_at f (S i) = Some 0.
Proof.
  intros Hf Ei Ho. pose proof (lookup_lt_Some _ _ _ Ei).
  destruct (pending_ok f i Hf ltac:(lia)) as (p & Hp & _ & Hu). rewrite pending_succ, Hp, Ei. simpl. destruct r.
  - rewrite op_emit_reachable. simpl. by rewrite Ho.
  - by rewrite (Hu o), op_emit_unreachable.
Qed.

Lemma pending_label f j : reach_ok f = true -> is_label f j = true -> pending_at f j = Some 0.
Proof.
  intros Hf. destruct j as [|i]; [done|]. simpl. destruct (f !! i) as [[o r]|] eqn:Ei; [|done]. intros Ho.
  apply (pending_flushed f i o r); try done. by destruct o.
Qed.

Lemma loop_header_label f j : is_loop_header f j = true -> is_label f j = true.
Proof. destruct j as [|i]; [done|]. simpl. by destruct (f !! i) as [[[] ?]|]. Qed.

(** At the end of the function too. *)
Lemma pending_end f : reach_ok f = true -> pending_at f (length f) = Some 0.
Proof.
  intros Hf. apply pending_label; [done|]. unfold reach_ok in Hf. apply andb_true_iff in Hf as [_ Hl].
  rewrite last_lookup in Hl. destruct (length f) as [|k] eqn:El; simpl in *.
  - by apply length_zero_iff_nil in El as ->.
  - revert Hl. unfold Fn in *. destruct (f !! k) as [[[] ?]|]; done.
Qed.

Lemma op_code_reachable f i o p : f !! i = Some (o, true) -> pending_at f i = Some p ->
  op_code f i = Some ((if flushes o then add_code (p + operator_cost o) else []) ++ (if saves o then [SaveVar] else [])) /\
  pending_at f (S i) = Some (if flushes o then 0 else p + operator_cost o).
Proof.
  intros Ei Hp. rewrite pending_succ, Hp. unfold Metering.op_code. rewrite Ei. simpl. rewrite Hp. simpl.
  by rewrite op_emit_reachable.
Qed.
End costs.

Lemma exec_add_code n spent p v t : good n spent p v t -> good n spent 0 (v + p) t /\ exec (add_code p) (v, t) = Ret tt (v + p, t).
Proof.
  intros G. destruct (good_add _ _ _ _ _ G) as [E G']. split; [done|]. unfold add_code.
  destruct (Z.eqb_spec p 0) as [->|]; [by rewrite Z.add_0_r|]. simpl. unfold bind, modify. simpl. by rewrite E.
Qed.

(** The code of an operator on the counter. *)
Lemma exec_op_code n spent p v t (fl sv : bool) : (sv = true -> fl = true) -> good n spent p v t ->
  exists v' t', exec ((if fl then add_code p else []) ++ (if sv then [SaveVar] else [])) (v, t) = Ret tt (v', t') /\
    good n spent (if fl then 0 else p) v' t' /\ (sv = true -> fuel_consumed t' = v').
Proof.
  intros Hsf G. destruct fl.
  - destruct (exec_add_code _ _ _ _ _ G) as [G' E]. exists (v + p), (if sv then with_consumed (v + p) t else t).
    rewrite exec_app. unfold bind at 1. rewrite E. destruct sv; split_and!; try done. by apply good_with_consumed.
  - destruct sv; [by specialize (Hsf eq_refl)|]. exists v, t. by split_and!.
Qed.

(** ** The invariant of the machine *)

Definition is_call_ref (x : Operator * bool) : bool := match x.1 with CallRef => true | _ => false end.

(** A function that never calls a reference, except in tail position. *)
Definition no_call_ref (f : Fn) : bool := forallb (fun x => negb (is_call_ref x)) f.

(** Choices of such functions, which catch only what they throw themselves. *)
Definition lossless (c : Choice) : bool :=
  match c with
  | CallFn g | TailCallFn g => no_call_ref g
  | Unwind d _ => (d =? 0)%nat
  | _ => true
  end.

Section invariant.
Context (operator_cost : Operator -> Z).
Context (operator_cost_u8 : forall op, 0 <= operator_cost op <= 255).
Context (n : Z).

Definition fn_ok (f : Fn) : Prop := reach_ok f = true /\ no_call_ref f = true.

(** A frame below waits at a call that reads the counter back. *)
Definition caller_ok (fr : Frame) : Prop :=
  fn_ok (fn fr) /\ exists o, fn fr !! pc fr = Some (o, true) /\ (o = Call \/ o = CallIndirect).

Definition counted (fr : Frame) (t : Fuel) (spent : Z) : Prop :=
  exists p, pending_at operator_cost (fn fr) (pc fr) = Some p /\ good n spent p (fuel_var fr) t.

(** Where a check has just passed. *)
Definition at_check (fr : Frame) : bool := (pc fr =? 0)%nat || is_loop_header (fn fr) (pc fr).

Definition Inv (s : State) : Prop :=
  match frames s with
  | [] => good n (spent s) 0 (fuel_consumed (fuel s)) (fuel s)
  | fr :: rest =>
      fn_ok (fn fr) /\ counted fr (fuel s) (spent s) /\ Forall caller_ok rest /\
      (at_check fr = true -> spent s < n)
  end.

(** What a step leaves: at most [k] was spent. *)
Definition leaves (s0 : Z) (k : Z) (s : State) : Prop := Inv s /\ s0 <= spent s <= s0 + k.
Definition stops (s0 : Z) (k : Z) (e : Stop) (s : State) : Prop :=
  stopped n (spent s) e (fuel s) /\ s0 <= spent s <= s0 + k.

Lemma exec_top_run l fr rest t sp v t' : exec l (fuel_var fr, t) = Ret tt (v, t') ->
  exec_top l (mkState (fr :: rest) t sp) = Ret tt (mkState (mkFrame (fn fr) (pc fr) v :: rest) t' sp).
Proof. unfold exec_top. simpl. by intros ->. Qed.

(** A check in the top frame. *)
Lemma exec_top_check f j v rest t sp s0 k : good n sp 0 v t -> s0 <= sp <= s0 + k ->
  fn_ok f -> pending_at operator_cost f j = Some 0 -> Forall caller_ok rest ->
  wp (exec_top [CheckFuel]) (fun _ s => leaves s0 k s /\ exists v', frames s = mkFrame f j v' :: rest) (stops s0 k)
    (mkState (mkFrame f j v :: rest) t sp).
Proof.
  intros G Hs Hf Hp Hr. pose proof (exec_check n sp v t G) as Hc. unfold wp, exec_top in *.
  cbn [frames fuel spent fuel_var fn pc]. rewrite exec_one.
  destruct (exec1 CheckFuel (v, t)) as [[] [v' t']|e [v' t']|]; cbn [fst snd] in *.
  - destruct Hc as [G' Hlt]. split; [|by eexists]. split; [|done]. split_and!; try done. by exists 0.
  - destruct Hc as [-> Hst]. by split.
  - done.
Qed.

Lemma goto_spec f j v rest t sp s0 k p s : fuel s = t -> spent s = sp ->
  pending_at operator_cost f j = Some p -> good n sp p v t ->
  s0 <= sp <= s0 + k -> fn_ok f -> j <> O -> Forall caller_ok rest ->
  wp (goto operator_cost f j v rest) (fun _ s => leaves s0 k s) (stops s0 k) s.
Proof.
  intros <- <- Hp G Hs Hf Hj Hr. unfold goto. apply wp_bind. unfold set_frames at 1, modify, wp at 1. simpl.
  destruct (is_loop_header f j) eqn:Eh.
  - assert (Hl : pending_at operator_cost f j = Some 0)
      by (apply pending_label; try apply loop_header_label; try done; apply Hf).
    rewrite Hl. rewrite Hl in Hp. injection Hp as <-.
    change (unwrap (Some 0)) with (ret (S := State) (E := Stop) 0). cbn [bind ret].
    change (code_of fuel_check 0) with [CheckFuel].
    eapply wp_mono; [by apply (exec_top_check f j v rest _ _ s0 k)| |].
    + intros ? ? H. apply H.
    + done.
  - apply wp_ret. split; [|done]. split_and!; try done; [by exists p|].
    unfold at_check. simpl. rewrite Eh. destruct j; [done|]. by intros.
Qed.

Lemma exec_top_prefix l l' fr rest t sp v t' : exec l (fuel_var fr, t) = Ret tt (v, t') ->
  exec_top (l ++ l') (mkState (fr :: rest) t sp) = exec_top l' (mkState (mkFrame (fn fr) (pc fr) v :: rest) t' sp).
Proof. intros E. unfold exec_top. simpl. rewrite exec_app. unfold bind. by rewrite E. Qed.

(** A call: the callee reads what was saved, counts itself and checks. *)
Lemma call_spec g rest s sp s0 k : spent s = sp -> good n sp 0 (fuel_consumed (fuel s)) (fuel s) ->
  sp + 1 < 2 ^ 63 -> s0 <= sp -> sp + 1 <= s0 + k -> fn_ok g -> Forall caller_ok rest ->
  wp (push g rest) (fun _ s => leaves s0 k s) (stops s0 k) s.
Proof.
  intros <- G Hb H0 Hk Hg Hr. unfold push. apply wp_bind. unfold set_frames, modify, wp at 1. simpl.
  apply wp_bind. unfold spend, modify, wp at 1. simpl.
  assert (G1 : good n (spent s + 1) 1 (fuel_consumed (fuel s)) (fuel s))
    by (apply (good_spend n (spent s) 0); done || lia).
  destruct (good_add _ _ _ _ _ G1) as [E G2].
  change (code_of fuel_function_entry FUNCTION_COST) with ([LoadVar; Add 1] ++ [CheckFuel]).
  unfold FUNCTION_COST. unfold wp. erewrite exec_top_prefix; cycle 1.
  { simpl. unfold bind, modify. simpl. by rewrite E. }
  simpl. eapply (wp_mono (exec_top [CheckFuel])).
  - apply (exec_top_check g 0 _ rest _ _ s0 k); try done. lia.
  - intros ? ? H. apply H.
  - done.
Qed.

(** A return: the caller reads the counter back. *)
Lemma return_spec rest s s0 k : good n (spent s) 0 (fuel_consumed (fuel s)) (fuel s) ->
  s0 <= spent s <= s0 + k -> Forall caller_ok rest -> wp (pop rest) (fun _ s => leaves s0 k s) (stops s0 k) s.
Proof.
  intros G Hs Hr. unfold pop. apply wp_bind. unfold set_frames at 1, modify, wp at 1. simpl.
  destruct rest as [|fr rest]; [by apply wp_ret|].
  apply Forall_cons in Hr as [(Hf & o & Ho & Hcall) Hr]. rewrite Ho.
  apply wp_bind. eapply wp_unwrap; [done|]. apply wp_bind.
  assert (Hc : code_of (fuel_after_op o) 0 = [LoadVar]) by (by destruct Hcall as [-> | ->]). simpl. rewrite Hc.
  eapply wp_run; [by apply exec_top_run|]. simpl. split; [|done].
  split_and!; [done| |done|].
  - exists 0. split; [|done]. simpl.
    apply (pending_flushed operator_cost operator_cost_u8 _ _ o true); [apply Hf|done|]. by destruct Hcall as [-> | ->].
  - unfold at_check. simpl. rewrite Ho. by destruct Hcall as [-> | ->].
Qed.

Lemma good_saved sp v t : good n sp 0 v t -> fuel_consumed t = v -> remaining t = Some (Z.max 0 (n - sp)).
Proof. intros G E. apply good_remaining in G. by destruct t; simpl in *; subst. Qed.

Lemma pending_at_le f i p : pending_at operator_cost f i = Some p -> (i <= length f)%nat.
Proof.
  destruct i as [|i]; [lia|]. rewrite (pending_succ operator_cost).
  destruct (pending_at operator_cost f i); [|done]. simpl.
  destruct (f !! i) eqn:E; [|done]. intros _. by apply lookup_lt_Some in E.
Qed.

Lemma no_call_ref_at f i r : no_call_ref f = true -> f !! i = Some (CallRef, r) -> False.
Proof.
  intros Hf Hi. apply list_elem_of_lookup_2 in Hi. by pose proof (proj1 (forallb_elem _ _) Hf _ Hi).
Qed.

Lemma wp_guard b (P : unit -> State -> Prop) Q s : (b = true -> P tt s) -> (b = false -> Q BadChoice s) ->
  wp (guard b) P Q s.
Proof. unfold guard, wp. destruct b; simpl; auto. Qed.

Lemma dispatch_spec o f i v t sp rest c s0 k :
  fn_ok f -> f !! i = Some (o, true) -> (exists p, pending_at operator_cost f (S i) = Some p /\ good n sp p v t) ->
  (flushes o = true -> pending_at operator_cost f (S i) = Some 0) -> (saves o = true -> fuel_consumed t = v) ->
  Forall caller_ok rest -> lossless c = true -> sp + 1 < 2 ^ 63 -> s0 <= sp -> sp + 1 <= s0 + k ->
  wp (dispatch operator_cost o (mkFrame f i v) rest c) (fun _ s => leaves s0 k s) (stops s0 k)
    (mkState (mkFrame f i v :: rest) t sp).
Proof.
  intros Hf Hi (p & Hp & G) Hfl Hsv Hr Hc Hb H0 Hk.
  assert (Gs : saves o = true -> fuel_consumed t = v /\ good n sp 0 (fuel_consumed t) t).
  { intros Hs. rewrite Hfl in Hp by (unfold flushes; by rewrite Hs). simplify_eq. rewrite (Hsv Hs). auto. }
  assert (Gf : flushes o = true -> good n sp 0 v t) by (intros Hs; rewrite Hfl in Hp by done; by simplify_eq).
  unfold dispatch. destruct c as [|j|g|g| |d j|]; apply wp_bind; apply wp_guard; try (by intros; split; [|simpl; lia]).
  - intros _. apply (goto_spec f (S i) v rest t sp s0 k p); try done. lia.
  - intros [Ho Hl]%andb_true_iff. simpl. assert (flushes o = true) by by destruct o.
    apply (goto_spec f j v rest t sp s0 k 0); try done; [|by auto|lia|by destruct j].
    apply pending_label; [done|apply Hf|done].
  - intros [Ho Hg]%andb_true_iff. destruct (Gs ltac:(by destruct o; try done; destruct (no_call_ref_at f i true (proj2 Hf) Hi))) as [E G'].
    apply (call_spec g _ _ sp); try done; try lia.
    constructor; [|done]. split; [done|]. exists o. split; [done|].
    destruct o; try done; [by left|by right|by destruct (no_call_ref_at f i true (proj2 Hf) Hi)].
  - intros [Ho Hg]%andb_true_iff. destruct (Gs ltac:(by destruct o)) as [E G']. apply (call_spec g _ _ sp); try done; lia.
  - intros Ho. destruct (Gs ltac:(by destruct o)) as [E G']. apply return_spec; try done. simpl. lia.
  - intros Ho. simpl in Hc. apply Nat.eqb_eq in Hc as ->. simpl. apply wp_bind, wp_guard; [|intros; split; [done|simpl; lia]].
    intros Hl. simpl. apply (goto_spec f j v rest t sp s0 k 0); try done; [|apply Gf; by destruct o|lia|by destruct j].
    apply pending_label; [done|apply Hf|done].
  - intros Ho. destruct (Gs ltac:(by destruct o)) as [E G']. split; [|simpl; lia]. simpl. by apply (good_saved sp (fuel_consumed t)).
Qed.

(** A step costs at most 256: an operator and the entry of a function. *)
Lemma step_spec c s : Inv s -> lossless c = true -> spent s + 256 < 2 ^ 63 ->
  wp (step operator_cost c) (fun _ s' => leaves (spent s) 256 s') (stops (spent s) 256) s.
Proof.
  intros HI Hc Hb. unfold step. apply wp_bind. unfold get, wp at 1.
  destruct s as [[|[f i v] rest] t sp]; unfold Inv, counted in HI; simpl in *; [by split; [|simpl; lia]|].
  destruct HI as (Hf & (p & Hp & G) & Hr & _).
  destruct (f !! i) as [[o r]|] eqn:Hi.
  - apply wp_bind, wp_guard; [|by intros; split; [|simpl; lia]]. intros ->.
    destruct (op_code_reachable operator_cost f i o p Hi Hp) as [Hcode Hp'].
    apply wp_bind. eapply wp_unwrap; [done|]. apply wp_bind. unfold spend, modify, wp at 1. simpl.
    pose proof (operator_cost_u8 o) as Hu.
    destruct (exec_op_code n (sp + operator_cost o) (p + operator_cost o) v t (flushes o) (saves o)) as (v' & t' & E & G' & Hsv).
    { unfold flushes. by intros ->. }
    { apply good_spend; done || lia. }
    apply wp_bind. eapply wp_run; [by apply exec_top_run|]. simpl. apply wp_bind. unfold get, wp at 1. simpl.
    apply dispatch_spec; try done; try lia; [by eexists|by intros E'; rewrite E' in Hp'].
  - assert (p = 0 /\ i = length f) as [-> ->].
    { apply lookup_ge_None in Hi. pose proof (pending_at_le f i p Hp). assert (i = length f) as -> by lia.
      rewrite (pending_end operator_cost operator_cost_u8 f (proj1 Hf)) in Hp. by simplify_eq. }
    apply wp_bind, wp_guard; [|by intros; split; [|simpl; lia]]. intros _.
    change (code_of fuel_function_exit 0) with [SaveVar].
    apply wp_bind. eapply wp_run; [by apply exec_top_run|]. simpl.
    apply return_spec; simpl; [by apply good_with_consumed|lia|done].
Qed.

Lemma run_spec cs s : Inv s -> forallb lossless cs = true -> spent s + 256 * zlen cs < 2 ^ 63 ->
  wp (run operator_cost cs) (fun _ s' => Inv s') (fun e s' => stopped n (spent s') e (fuel s')) s.
Proof.
  revert s. induction cs as [|c cs IH]; intros s HI Hl Hb; [done|].
  simpl in Hl. apply andb_true_iff in Hl as [Hc Hl]. rewrite zlen_cons in Hb. pose proof (zlen_nonneg cs).
  simpl. apply wp_bind. eapply wp_mono; [apply step_spec; done || lia| |].
  - intros [] s' [HI' Hs]. apply IH; done || lia.
  - intros e s' [Hst _]. done.
Qed.
End invariant.

Lemma fresh_good n interval : 0 <= n < 2 ^ 64 -> interval_ok interval ->
  let t := fuel (fresh n interval) in good n 0 0 (fuel_consumed t) t.
Proof.
  intros Hn Hi. pose proof (set_fuel_spec interval n Hi Hn) as (E & H1 & H2 & _).
  unfold fresh. cbn [frames fuel spent]. generalize dependent (set_fuel interval n). intros [a b]. simpl. intros.
  constructor; simpl; try done; lia.
Qed.

(** A run of a function from [n] units of fuel. *)
Definition execution (operator_cost : Operator -> Z) (n : Z) (interval : option Z) (f : Fn) (cs : list Choice) : outcome State Stop unit :=
  (enter f ;;; run operator_cost cs) (fresh n interval).

Lemma execution_spec operator_cost n interval f cs :
  (forall op, 0 <= operator_cost op <= 255) -> 0 <= n < 2 ^ 64 -> interval_ok interval ->
  reach_ok f = true -> no_call_ref f = true -> forallb lossless cs = true -> 1 + 256 * zlen cs < 2 ^ 63 ->
  wp (enter f ;;; run operator_cost cs) (fun _ s' => Inv operator_cost n s')
    (fun e s' => stopped n (spent s') e (fuel s')) (fresh n interval).
Proof.
  intros Hc Hn Hi Hf Hr Hl Hb. pose proof (zlen_nonneg cs).
  apply wp_bind. eapply wp_mono; [apply (call_spec operator_cost n f [] (fresh n interval) 0 0 1); try done; try lia| |].
  - by apply fresh_good.
  - intros [] s [HI' Hs]. simpl in Hs. apply run_spec; done || lia.
  - intros e s [Hst _]. done.
Qed.

(** ** Properties *)



(** ** Concrete runs *)

Definition straight (k : nat) : Fn := repeat (Other 0 false, true) k.

(** A call of a function of five operators in a loop that ends when fuel does. *)
Definition counted_loop : Fn := [(Loop, true); (Call, true); (Br, true); (End, false); (End, false)].
Definition five : Fn := straight 5 ++ [(End, true)].
Definition iteration : list Choice := CallFn five :: repeat Next 6 ++ [Leave; Jump 1].

Example counted_loop_stops : forall interval, interval ∈ [None; Some 3; Some 1000] ->
  match execution default_operator_cost 20 interval counted_loop (Next :: iteration ++ iteration ++ iteration) with
  | Fail OutOfFuel s => spent s = 25
  | _ => False
  end.
Proof.
  intros interval Hi. rewrite !elem_of_cons, elem_of_nil in Hi. destruct Hi as [-> |[-> |[-> |[]]]]; by vm_compute.
Qed.

(** A function that calls a reference, and a function that calls it four times. *)
Definition by_reference : Fn := [(CallRef, true); (End, true)].
Definition four_calls : Fn := repeat (Call, true) 4 ++ [(End, true)].
Definition ten : Fn := straight 10 ++ [(End, true)].
Definition one_call : list Choice := [CallFn by_reference; CallFn ten] ++ repeat Next 11 ++ [Leave; Next; Leave].

(** What a function called by reference consumes is forgotten when its caller saves
    its own counter: from 20 units of fuel, operators that cost 57 run, and 7 units are left. *)
Theorem call_ref_loses_fuel :
  match execution default_operator_cost 20 None four_calls (one_call ++ one_call ++ one_call ++ one_call ++ [Next; Leave]) with
  | Ret _ s => frames s = [] /\ spent s = 57 /\ remaining (fuel s) = Some 7
  | _ => False
  end.
Proof. vm_compute. done. Qed.

(** A function whose caller catches what it throws. *)
Definition thrower : Fn := straight 10 ++ [(Throw, true); (End, false)].
Definition catcher : Fn := [(TryTable, true); (Call, true); (End, true); (End, true)].

Theorem catch_loses_fuel :
  match execution default_operator_cost 20 None catcher ([Next; CallFn thrower] ++ repeat Next 10 ++ [Unwind 1 3; Next; Leave]) with
  | Ret _ s => frames s = [] /\ spent s = 15 /\ remaining (fuel s) = Some 17
  | _ => False
  end.
Proof. vm_compute. done. Qed.

(** The order in which the store's functions lose nothing. *)
Lemma set_fuel_remaining n interval t : 0 <= n < 2 ^ 64 -> interval_ok interval -> fuel_yield_interval t = interval ->
  exists t', StoreOpaque.set_fuel true n t = Ret tt t' /\ StoreOpaque.get_fuel true t' = Ret n t'.
Proof.
  intros Hn Hi <-. eexists. split; [done|]. unfold StoreOpaque.get_fuel, bind. simpl.
  pose proof (set_fuel_spec (fuel_yield_interval t) n Hi Hn) as (E & H1 & H2 & _). unfold i64_MAX in *.
  generalize dependent (set_fuel (fuel_yield_interval t) n). intros [a b]. simpl. intros.
  rewrite get_fuel_spec by lia. simpl. unfold ret. f_equal. lia.
Qed.

Definition lossless_example : list Choice := Next :: iteration ++ iteration ++ iteration.

Lemma default_cost_u8 op : 0 <= default_operator_cost op <= 255.
Proof. destruct op; simpl; lia. Qed.


