(* ===== verification/Epoch.v ===== *)
(** * Epochs

    cranelift/src/func_environ.rs, the epoch checks of compiled code;
    runtime/store.rs and vm/libcalls.rs, the deadline of a store and the hook that
    runs when it has passed.

    The engine's counter only other threads advance; the store keeps a
    deadline in the context that compiled code reads; a compiled function caches
    it in a variable, compares the counter with the cache first and reads the
    deadline again only when the cache has passed.

    The hook answers the new deadline to compiled code, as a number whose largest
    value means that the host wants to unwind.

    Shown: the cached check does what a check of the deadline itself would, as
    long as the host never brings the deadline forward while a function runs; and what
    happens when it does, and when the new deadline is the value that means
    unwinding. *)

From S2P Require Import Prelude.

Definition u64_MAX : Z := 2 ^ 64 - 1.

Inductive UpdateDeadline := Interrupt | Continue (delta : Z) | Yield (delta : Z) | YieldCustom (delta : Z).

Inductive EpochStop := InterruptTrap | CallbackError | NotAsync.

(** The engine's counter; the deadline in [VMStoreContext]; the variable
    [epoch_deadline_var]; how often the hook has run, and yielded. *)
Record Epochs := mkEpochs {
  current_epoch : Z;
  epoch_deadline : Z;
  epoch_deadline_var : Z;
  hooks : Z;
  yielded : Z
}.

Definition with_deadline (d : Z) (s : Epochs) : Epochs :=
  mkEpochs (current_epoch s) d (epoch_deadline_var s) (hooks s) (yielded s).
Definition with_var (d : Z) (s : Epochs) : Epochs :=
  mkEpochs (current_epoch s) (epoch_deadline s) d (hooks s) (yielded s).

Definition E (A : Type) : Type := M Epochs EpochStop A.

(** [fetch_add]. *)
Definition increment_epoch : E unit :=
  modify (fun s => mkEpochs ((current_epoch s + 1) mod 2 ^ 64) (epoch_deadline s) (epoch_deadline_var s) (hooks s) (yielded s)).

Definition set_epoch_deadline (delta : Z) : E unit :=
  s <- get ;;
  d <- unwrap (checked_add u64_MAX (current_epoch s) delta) ;;
  modify (with_deadline d).

Definition get_epoch_deadline : E Z := gets epoch_deadline.

Definition yield_now : E unit :=
  modify (fun s => mkEpochs (current_epoch s) (epoch_deadline s) (epoch_deadline_var s) (hooks s) (yielded s + 1)).

Section hook.
(** The embedder's callback, which sees the counter and the deadline, and whether the store runs asynchronously. *)
Context (epoch_deadline_behavior : option (Z -> Z -> option UpdateDeadline)) (asynchronous : bool).

Definition new_epoch_updated_deadline : E UpdateDeadline :=
  s <- get ;;
  match epoch_deadline_behavior with
  | Some callback => ok_or (callback (current_epoch s) (epoch_deadline s)) CallbackError
  | None => ret Interrupt
  end.

Definition require_async : E unit := if asynchronous then ret tt else fail NotAsync.

Definition new_epoch : E Z :=
  modify (fun s => mkEpochs (current_epoch s) (epoch_deadline s) (epoch_deadline_var s) (hooks s + 1) (yielded s)) ;;;
  update <- new_epoch_updated_deadline ;;
  delta <- match update with
           | Interrupt => fail InterruptTrap
           | Continue delta => ret delta
           | Yield delta | YieldCustom delta => require_async ;;; yield_now ;;; ret delta
           end ;;
  set_epoch_deadline delta ;;;
  get_epoch_deadline.

Definition SENTINEL : Z := u64_MAX.

(** [maybe_catch_unwind] and the trampoline of the hook: a result that is the
    sentinel is an unwind that has no reason. *)
Definition call_new_epoch : E Z :=
  d <- new_epoch ;; rust_assert (negb (d =? SENTINEL)) ;;; ret d.

(** ** Compiled code *)

(** [epoch_check_cached] goes on to the block of [k] when the counter has
    reached the variable. *)
Definition epoch_check_cached (cur_epoch_value : Z) (k : E unit) : E unit :=
  epoch_deadline <- gets epoch_deadline_var ;;
  if epoch_deadline <=? cur_epoch_value then k else ret tt.

Definition epoch_check_full (cur_epoch_value : Z) : E unit :=
  deadline <- gets epoch_deadline ;;
  modify (with_var deadline) ;;;
  epoch_check_cached cur_epoch_value (
    new_deadline <- call_new_epoch ;;
    modify (with_var new_deadline)).

Definition epoch_check : E unit :=
  cur_epoch_value <- gets current_epoch ;;
  epoch_check_cached cur_epoch_value (epoch_check_full cur_epoch_value).

Definition epoch_function_entry : E unit :=
  cur_epoch_value <- gets current_epoch ;; epoch_check_full cur_epoch_value.

(** What happens while a function runs: the engine's counter advances, the function
    reaches a check, and the host, called from it, sets the deadline. *)
Inductive Event := Tick | CheckPoint | HostSets (delta : Z).

Definition react (e : Event) : E unit :=
  match e with Tick => increment_epoch | CheckPoint => epoch_check | HostSets delta => set_epoch_deadline delta end.

Fixpoint runs (l : list Event) : E unit := match l with [] => ret tt | e :: l => react e ;;; runs l end.

Definition function (l : list Event) : E unit := epoch_function_entry ;;; runs l.

(** ** The specification: a check of the deadline itself *)

Definition precise_check : E unit :=
  s <- get ;; if epoch_deadline s <=? current_epoch s then call_new_epoch ;;; ret tt else ret tt.

Definition precise (e : Event) : E unit :=
  match e with Tick => increment_epoch | CheckPoint => precise_check | HostSets delta => set_epoch_deadline delta end.

Fixpoint precise_runs (l : list Event) : E unit := match l with [] => ret tt | e :: l => precise e ;;; precise_runs l end.

(** The variable aside. *)
Definition same (s t : Epochs) : Prop :=
  current_epoch s = current_epoch t /\ epoch_deadline s = epoch_deadline t /\ hooks s = hooks t /\ yielded s = yielded t.

(** The cache is not ahead of the deadline. *)
Definition behind (s : Epochs) : Prop := epoch_deadline_var s <= epoch_deadline s.

Definition agree {A} (P : Epochs -> Prop) (x y : outcome Epochs EpochStop A) : Prop :=
  match x, y with
  | Ret a s, Ret b t => a = b /\ same s t /\ P s
  | Fail e s, Fail e' t => e = e' /\ same s t
  | Panic, Panic => True
  | _, _ => False
  end.

(** The host, if it sets the deadline, sets none before the cached one. *)
Fixpoint never_lowers (l : list Event) (s : Epochs) : bool :=
  match l with
  | [] => true
  | e :: l =>
      match e with HostSets delta => epoch_deadline_var s <=? current_epoch s + delta | _ => true end &&
      match react e s with Ret _ s' => never_lowers l s' | _ => true end
  end.

(** ** Lemmas *)

Lemma agree_bind {A B} (P Q : Epochs -> Prop) (m m' : E A) (k k' : A -> E B) s t :
  agree P (m s) (m' t) -> (forall a s t, same s t -> P s -> agree Q (k a s) (k' a t)) ->
  agree Q (bind m k s) (bind m' k' t).
Proof.
  unfold bind, agree. intros Hm Hk. destruct (m s) as [a s'| |], (m' t) as [b t'| |]; try done.
  destruct Hm as (-> & Hs & HP). by apply Hk.
Qed.

Lemma same_deadline s t d : same s t -> same (with_var d s) t.
Proof. done. Qed.

(** The hook neither reads nor writes the variable, and answers the deadline. *)
Lemma call_new_epoch_agree v s t : same s t -> epoch_deadline_var s = v ->
  match call_new_epoch s, call_new_epoch t with
  | Ret d s', Ret d' t' => d = d' /\ same s' t' /\ epoch_deadline_var s' = v /\ epoch_deadline s' = d
  | Fail e s', Fail e' t' => e = e' /\ same s' t'
  | Panic, Panic => True
  | _, _ => False
  end.
Proof.
  destruct s as [c d v' h y], t as [c2 d2 w h2 y2]. intros (E1 & E2 & E3 & E4) Ev. simpl in *. subst.
  unfold call_new_epoch, new_epoch, new_epoch_updated_deadline, set_epoch_deadline, require_async, yield_now,
    get_epoch_deadline, bind, modify, get, gets, ok_or, fail. simpl.
  destruct epoch_deadline_behavior as [cb|]; [|done]. simpl.
  destruct (cb c2 d2) as [[|delta|delta|delta]|]; simpl; try done; try destruct asynchronous; simpl; try done;
    destruct (checked_add u64_MAX c2 delta) as [d'|]; simpl; try done; destruct (d' =? SENTINEL); simpl; done.
Qed.

Lemma full_agree s t : same s t -> agree behind (epoch_check_full (current_epoch s) s) (precise_check t).
Proof.
  intros Hs. destruct Hs as (E1 & E2 & E3 & E4).
  unfold epoch_check_full, precise_check, epoch_check_cached, bind, gets, modify, get. simpl. rewrite E1, E2.
  destruct (epoch_deadline t <=? current_epoch t) eqn:El; simpl.
  - pose proof (call_new_epoch_agree _ (with_var (epoch_deadline t) s) t (conj E1 (conj E2 (conj E3 E4))) eq_refl) as H.
    destruct (call_new_epoch (with_var _ s)) as [d s'| |], (call_new_epoch t) as [d' t'| |]; try done.
    destruct H as (-> & Hs & _ & Hd). split; [done|]. split; [exact Hs|]. unfold behind. simpl. lia.
  - split; [done|]. split; [done|]. unfold behind. simpl. lia.
Qed.

Lemma check_agree s t : same s t -> behind s -> agree behind (epoch_check s) (precise_check t).
Proof.
  intros Hs Hb. unfold epoch_check, epoch_check_cached, bind, gets.
  destruct (Z.leb_spec (epoch_deadline_var s) (current_epoch s)); [by apply full_agree|].
  destruct Hs as (E1 & E2 & E3 & E4). unfold precise_check, behind, bind, get in *. simpl.
  destruct (Z.leb_spec (epoch_deadline t) (current_epoch t)); [lia|done].
Qed.

Lemma host_agree delta s t : same s t -> epoch_deadline_var s <= current_epoch s + delta ->
  agree behind (set_epoch_deadline delta s) (set_epoch_deadline delta t).
Proof.
  intros (E1 & E2 & E3 & E4) Hd. unfold set_epoch_deadline, bind, get, modify. simpl. rewrite E1.
  destruct (checked_add u64_MAX (current_epoch t) delta) as [d|] eqn:Ed; [|done].
  apply checked_add_Some in Ed as [-> _]. simpl. split_and!; try done. unfold behind. simpl. lia.
Qed.

Lemma runs_agree l s t : same s t -> behind s -> never_lowers l s = true -> agree behind (runs l s) (precise_runs l t).
Proof.
  revert s t. induction l as [|e l IH]; intros s t Hs Hb Hl; [done|].
  simpl in Hl. apply andb_true_iff in Hl as [He Hl]. simpl.
  assert (Hr : agree behind (react e s) (precise e t)).
  { destruct e as [| |delta]; simpl.
    - destruct Hs as (E1 & E2 & E3 & E4). unfold increment_epoch, modify. simpl.
      split_and!; try done. simpl. by rewrite E1.
    - by apply check_agree.
    - apply host_agree; [done|]. lia. }
  unfold bind. unfold agree in Hr. destruct (react e s) as [[] s'| |], (precise e t) as [[] t'| |]; try done.
  destruct Hr as (_ & Hs' & Hb'). by apply IH.
Qed.

(** C19. The cached deadline is never visible: along any events of a function (the
    engine's counter advances, checks, the host setting a deadline that is not before the cached
    one), the checks of compiled code run the hook, stop, yield, leave the deadline and
    panic exactly as a check of the store's deadline at the same places would. *)
Theorem cached_check_equivalent l s :
  match epoch_function_entry s with Ret _ s' => never_lowers l s' | _ => true end = true ->
  agree behind (function l s) ((precise_check ;;; precise_runs l) s).
Proof.
  intros Hl. unfold function, bind. assert (Hs : same s s) by done.
  pose proof (full_agree s s Hs) as H. change (epoch_check_full (current_epoch s) s) with (epoch_function_entry s) in H.
  unfold agree in H. destruct (epoch_function_entry s) as [[] s'| |], (precise_check s) as [[] t'| |]; try done.
  destruct H as (_ & Hs' & Hb). by apply runs_agree.
Qed.
End hook.

(** ** Concrete runs *)

Definition start (deadline : Z) : Epochs := mkEpochs 0 deadline 0 0 0.

(** A host that is called in a loop and brings the deadline forward: the loop goes on
    past it, until the deadline that was there when the loop's function was entered. *)
Theorem lowered_deadline_missed :
  let l := [CheckPoint; HostSets 1; Tick; Tick; Tick; CheckPoint] in
  (exists s, function None false l (start 1000) = Ret tt s /\ hooks s = 0) /\
  (exists s, (precise_check None false ;;; precise_runs None false l) (start 1000) = Fail InterruptTrap s /\ hooks s = 1).
Proof. split; eexists; by split. Qed.

(** A callback that puts the deadline as far as it goes. *)
Theorem largest_deadline_is_unwind :
  function (Some (fun _ _ => Some (Continue u64_MAX))) false [] (start 0) = Panic /\
  exists s, function (Some (fun _ _ => Some (Continue (u64_MAX - 1)))) false [] (start 0) = Ret tt s.
Proof. split; [done|by eexists]. Qed.

Definition example_events : list Event := [Tick; CheckPoint; HostSets 5; Tick; Tick; CheckPoint; Tick; CheckPoint].

Lemma cached_check_equivalent_witness :
  agree behind (function (Some (fun _ _ => Some (Yield 3))) true example_events (start 2))
    ((precise_check (Some (fun _ _ => Some (Yield 3))) true ;;; precise_runs (Some (fun _ _ => Some (Yield 3))) true example_events) (start 2)).
Proof. apply (cached_check_equivalent (Some (fun _ _ => Some (Yield 3))) true example_events (start 2)). reflexivity. Defined.
