(* ===== verification/BulkOps.v ===== *)
(** * Bulk operations

    cranelift/src/func_environ.rs, the loops that compiled code runs for
    [memory.copy], [table.fill] and their like once the bounds are checked, and
    the two host functions they call (vm/libcalls.rs).

    Memory is a function from host addresses to bytes.  A block of emitted code is
    a definition, a loop a recursion with a number of turns that is shown to
    suffice; the checks of fuel and epochs between the turns are those of
    Metering.v and Epoch.v.

    Shown: chunked fills, and copies whose regions overlap no more than a forward copy
    allows, do what one [memmove] or [memset] does, consume the fuel of their length and
    stop only between chunks; the copy by elements is right for any overlap; a
    fill by [memset] is a fill by elements; and a chunked copy that
    overlaps the other way is wrong. *)

From S2P Require Import Prelude DivConst ClifValue Metering Epoch.

(** ** Memory *)

Definition Mem : Type := Z -> Z.

(** [ptr::copy_to], for any overlap. *)
Definition memmove (dst src len : Z) (m : Mem) : Mem :=
  fun a => if (dst <=? a) && (a <? dst + len) then m (src + (a - dst)) else m a.

(** [ptr::write_bytes]. *)
Definition write_bytes (dst val len : Z) (m : Mem) : Mem :=
  fun a => if (dst <=? a) && (a <? dst + len) then val else m a.

(** Both numbers below are addresses of the host, and lengths, so the region
    ends inside the address space. *)
Record Bulk := mkBulk { mem : Mem; b_var : Z; b_fuel : Fuel; b_epochs : Epochs }.

Definition with_mem (m : Mem) (s : Bulk) : Bulk := mkBulk m (b_var s) (b_fuel s) (b_epochs s).

Inductive BulkStop := FuelStop (e : Metering.Stop) | EpochStops (e : EpochStop).

Definition B (A : Type) : Type := M Bulk BulkStop A.

Definition memory_copy (dst src len : Z) : B unit := modify (fun s => with_mem (memmove dst src len (mem s)) s).
Definition memory_fill (dst val len : Z) : B unit := modify (fun s => with_mem (write_bytes dst (wrap 8 val) len (mem s)) s).

(** ** The emitted loops *)

Inductive BulkOp := MemoryCopy (dst src len : Z) | MemoryFill (dst val len : Z).

Definition op_len (op : BulkOp) : Z := match op with MemoryCopy _ _ len | MemoryFill _ _ len => len end.
Definition with_len (l : Z) (op : BulkOp) : BulkOp :=
  match op with MemoryCopy dst src _ => MemoryCopy dst src l | MemoryFill dst val _ => MemoryFill dst val l end.

Definition UNINTERRUPTABLE_CHUNK_SIZE : Z := Z.shiftl 128 20.

Section env.
(** The width of pointers, the two tunables, and the host's side of an epoch. *)
Context (w : Z) (consume_fuel epoch_interruption : bool).
Context (epoch_deadline_behavior : option (Z -> Z -> option UpdateDeadline)) (asynchronous : bool).

Definition epoch_check : B unit :=
  map_err EpochStops (zoom b_epochs (fun t s => mkBulk (mem s) (b_var s) (b_fuel s) t)
    (Epoch.epoch_check epoch_deadline_behavior asynchronous)).

Definition fuel_code (l : list FuelInst) : B unit :=
  map_err FuelStop (zoom (fun s => (b_var s, b_fuel s)) (fun p s => mkBulk (mem s) p.1 p.2 (b_epochs s)) (exec l)).

Definition when (b : bool) (m : B unit) : B unit := if b then m else ret tt.

(** The closure [raw_call]. *)
Definition raw_call (op : BulkOp) : B unit :=
  when epoch_interruption epoch_check ;;;
  match op with
  | MemoryCopy dst src len => when consume_fuel (fuel_code (code_of (manual_fuel_check len) 0)) ;;; memory_copy dst src len
  | MemoryFill dst val len => when consume_fuel (fuel_code (code_of (manual_fuel_check len) 0)) ;;; memory_fill dst val len
  end.

(** The end of the block of a chunk. *)
Definition next_chunk (op : BulkOp) : BulkOp :=
  match op with
  | MemoryCopy dst src len =>
      MemoryCopy (wrap w (dst + UNINTERRUPTABLE_CHUNK_SIZE)) (wrap w (src + UNINTERRUPTABLE_CHUNK_SIZE))
                 (wrap w (len - UNINTERRUPTABLE_CHUNK_SIZE))
  | MemoryFill dst val len =>
      MemoryFill (wrap w (dst + UNINTERRUPTABLE_CHUNK_SIZE)) val (wrap w (len - UNINTERRUPTABLE_CHUNK_SIZE))
  end.

(** [has_chunk_branch], the block of a chunk and the last block. *)
Fixpoint chunks (turns : nat) (op : BulkOp) : B unit :=
  if UNINTERRUPTABLE_CHUNK_SIZE <? op_len op then
    match turns with
    | O => panic
    | S turns => raw_call (with_len UNINTERRUPTABLE_CHUNK_SIZE op) ;;; chunks turns (next_chunk op)
    end
  else raw_call op.

Definition turns_of (op : BulkOp) : nat := Z.to_nat (op_len op / UNINTERRUPTABLE_CHUNK_SIZE).

(** [pending_cost] is the cost that the compiler has not emitted yet. *)
Definition raw_bulk_memory_operation (pending_cost : Z) (op : BulkOp) : B unit :=
  if negb epoch_interruption && negb consume_fuel then raw_call op
  else
    when consume_fuel (fuel_code (code_of fuel_increment_var pending_cost)) ;;;
    chunks (turns_of op) op.

(** [translate_loop_header], emitted with a cost that is pending. *)
Definition translate_loop_header (pending_cost : Z) : B unit :=
  when consume_fuel (fuel_code (code_of fuel_check pending_cost)) ;;; when epoch_interruption epoch_check.

Section elements.
(** Writing one element: [copy_one] gets both addresses and the index of the
    source. *)
Context (dst_element_size src_element_size : Z) (copy_one : Z -> Z -> Z -> B unit) (index_width : Z).

(** [header_cost] is the cost that was pending when the block was emitted. *)
Fixpoint forward_block (header_cost : Z) (turns : nat) (src_end_addr dst_cur src_cur src_index : Z) : B unit :=
  match turns with
  | O => panic
  | S turns =>
      translate_loop_header header_cost ;;;
      copy_one dst_cur src_cur src_index ;;;
      let dst_next := wrap w (dst_cur + dst_element_size) in
      let src_next := wrap w (src_cur + src_element_size) in
      let src_index_next := wrap index_width (src_index + 1) in
      if src_next =? src_end_addr then ret tt
      else forward_block header_cost turns src_end_addr dst_next src_next src_index_next
  end.

Fixpoint backwards_block (header_cost : Z) (turns : nat) (src_elem_addr dst_cur src_cur src_index : Z) : B unit :=
  match turns with
  | O => panic
  | S turns =>
      translate_loop_header header_cost ;;;
      let dst_cur := wrap w (dst_cur - dst_element_size) in
      let src_cur := wrap w (src_cur - src_element_size) in
      let src_index := wrap index_width (src_index - 1) in
      copy_one dst_cur src_cur src_index ;;;
      if src_cur =? src_elem_addr then ret tt
      else backwards_block header_cost turns src_elem_addr dst_cur src_cur src_index
  end.

(** The first block that is emitted, the forward one, takes the pending cost. *)
Definition translate_per_element_copy (pending_cost dst_elem_addr src_elem_addr copy_len src_index : Z) : B unit :=
  if copy_len =? 0 then ret tt
  else
    let dst_end_addr := wrap w (dst_elem_addr + wrap w (copy_len * dst_element_size)) in
    let src_end_addr := wrap w (src_elem_addr + wrap w (copy_len * src_element_size)) in
    let end_index := wrap index_width (src_index + wrap index_width copy_len) in
    let turns := Z.to_nat copy_len in
    if dst_elem_addr <? src_elem_addr then forward_block pending_cost turns src_end_addr dst_elem_addr src_elem_addr src_index
    else backwards_block 0 turns src_elem_addr dst_end_addr src_end_addr end_index.
End elements.

Section fill.
Context (elem_size : Z) (emit_elem_write : Z -> Z -> B unit).

Fixpoint fill_block (header_cost : Z) (turns : nat) (end_addr value elem_addr : Z) : B unit :=
  match turns with
  | O => panic
  | S turns =>
      translate_loop_header header_cost ;;;
      emit_elem_write elem_addr value ;;;
      let next_elem_addr := wrap w (elem_addr + elem_size) in
      if next_elem_addr =? end_addr then ret tt else fill_block header_cost turns end_addr value next_elem_addr
  end.

(** The second half of [emit_raw_array_or_table_fill]. *)
Definition fill_loop (pending_cost dst_elem_addr value copy_len : Z) : B unit :=
  let end_addr := wrap w (dst_elem_addr + wrap w (copy_len * elem_size)) in
  if copy_len =? 0 then ret tt else fill_block pending_cost (Z.to_nat copy_len) end_addr value dst_elem_addr.
End fill.
End env.

(** ** Constants that are one byte repeated *)

(** What a value is known to be: a constant with its bits, or a value that is only
    known at run time. *)
Inductive FillValue := Constant (bits : Z) | Dynamic (v : Z).

(** The storage types, and the number of bytes of the type of the value. *)
Inductive WasmStorageType := SI8 | SI16 | SVal (bytes : nat).

Definition byte_at (bits : Z) (i : nat) : Z := wrap 8 (Z.shiftr bits (8 * Z.of_nat i)).

(** The value to fill with, if one byte suffices. *)
Definition fill_value_as_memset (ty : WasmStorageType) (value : FillValue) : option FillValue :=
  match ty, value with
  | SI8, _ => Some value
  | _, Dynamic _ => None
  | _, Constant bits =>
      let width := match ty with SI8 => 1 | SI16 => 2 | SVal n => n end%nat in
      if existsb (fun i => negb (byte_at bits i =? byte_at bits 0)) (seq 1 (width - 1)) then None
      else Some (Constant (Z.land bits 255))
  end.

Definition value_bits (v : FillValue) : Z := match v with Constant b => b | Dynamic b => b end.

Definition storage_size (ty : WasmStorageType) : nat := match ty with SI8 => 1 | SI16 => 2 | SVal n => n end.

(** The rest of [emit_raw_array_or_table_fill]: by [memset] when that is allowed
    and one byte suffices, or by a loop. *)
Definition emit_raw_array_or_table_fill (w : Z) (consume_fuel epoch_interruption : bool)
    (epoch_deadline_behavior : option (Z -> Z -> option UpdateDeadline)) (asynchronous allows_memset : bool)
    (elem_ty : WasmStorageType) (emit_elem_write : Z -> Z -> B unit) (pending_cost dst_elem_addr : Z) (value : FillValue) (copy_len : Z) : B unit :=
  let elem_size := Z.of_nat (storage_size elem_ty) in
  let copy_byte_len := wrap w (copy_len * elem_size) in
  match (if allows_memset then fill_value_as_memset elem_ty value else None) with
  | Some v =>
      raw_bulk_memory_operation w consume_fuel epoch_interruption epoch_deadline_behavior asynchronous pending_cost
        (MemoryFill dst_elem_addr (value_bits v) copy_byte_len)
  | None =>
      fill_loop w consume_fuel epoch_interruption epoch_deadline_behavior asynchronous elem_size emit_elem_write
        pending_cost dst_elem_addr (value_bits value) copy_len
  end.

(** A store of the [k] low bytes of [bits], little endian. *)
Definition store_bytes (k : nat) (addr bits : Z) (m : Mem) : Mem :=
  fun a => if (addr <=? a) && (a <? addr + Z.of_nat k) then byte_at bits (Z.to_nat (a - addr)) else m a.

(** ** Specification *)

Definition apply_op (op : BulkOp) (m : Mem) : Mem :=
  match op with
  | MemoryCopy dst src len => memmove dst src len m
  | MemoryFill dst val len => write_bytes dst (wrap 8 val) len m
  end.

(** Regions inside the address space. *)
Definition op_ok (w : Z) (op : BulkOp) : Prop :=
  match op with
  | MemoryCopy dst src len => 0 <= dst /\ 0 <= src /\ 0 <= len /\ dst + len < 2 ^ w /\ src + len < 2 ^ w
  | MemoryFill dst _ len => 0 <= dst /\ 0 <= len /\ dst + len < 2 ^ w
  end.

(** What copying forward in chunks can do: one chunk, or a destination that does not
    reach into what is still to be read. *)
Definition forward_ok (op : BulkOp) : Prop :=
  match op with
  | MemoryCopy dst src len => len <= UNINTERRUPTABLE_CHUNK_SIZE \/ dst <= src \/ src + len <= dst
  | MemoryFill _ _ _ => True
  end.

(** ** Proofs *)

Section specs.
Context (w : Z) (w_range : 32 <= w <= 64) (consume_fuel epoch_interruption : bool).
Context (epoch_deadline_behavior : option (Z -> Z -> option UpdateDeadline)) (asynchronous : bool).
(** The embedder's new deadlines neither overflow nor are the sentinel. *)
Context (epoch_total : forall s, Epoch.epoch_check epoch_deadline_behavior asynchronous s <> Panic).
Context (n : Z).

Abbreviation raw_call := (raw_call consume_fuel epoch_interruption epoch_deadline_behavior asynchronous).
Abbreviation chunks := (chunks w consume_fuel epoch_interruption epoch_deadline_behavior asynchronous).
Abbreviation translate_loop_header := (translate_loop_header consume_fuel epoch_interruption epoch_deadline_behavior asynchronous).

(** The counter has counted [sp] of [n]. *)
Definition metered (sp : Z) (s : Bulk) : Prop := consume_fuel = true -> good n sp 0 (b_var s) (b_fuel s).

(** A stop: the memory satisfies [P], and without an interruption by epochs the
    fuel is used up. *)
Definition stops (P : Mem -> Prop) (sp : Z) (e : BulkStop) (s : Bulk) : Prop :=
  P (mem s) /\ match e with FuelStop e => e = OutOfFuel /\ n <= sp /\ consume_fuel = true | EpochStops _ => epoch_interruption = true end.

Lemma stops_mono (P Q : Mem -> Prop) sp sp' e s : stops P sp e s -> (P (mem s) -> Q (mem s)) -> sp <= sp' -> stops Q sp' e s.
Proof.
  intros [HP He] HQ Hsp. split; [by apply HQ|]. destruct e; [|done]. destruct He as (-> & Hn & Hf). split_and!; [done|lia|done].
Qed.

Lemma epoch_check_spec s sp : metered sp s -> epoch_interruption = true ->
  wp (epoch_check epoch_deadline_behavior asynchronous) (fun _ s' => mem s' = mem s /\ metered sp s')
    (stops (eq (mem s)) sp) s.
Proof.
  intros Hm Hb. unfold wp, epoch_check, map_err, zoom. specialize (epoch_total (b_epochs s)).
  by destruct (Epoch.epoch_check _ _ (b_epochs s)).
Qed.

(** Code of the counter that adds [c] and checks. *)
Lemma add_and_check_spec s sp c : 0 <= c -> sp + c < 2 ^ 63 -> metered sp s -> consume_fuel = true ->
  wp (fuel_code [Add c; CheckFuel]) (fun _ s' => mem s' = mem s /\ metered (sp + c) s') (stops (eq (mem s)) (sp + c)) s.
Proof.
  intros Hc Hb Hm Hf. specialize (Hm Hf).
  destruct (good_add n (sp + c) c (b_var s) (b_fuel s)) as [E G]; [by apply (good_spend n sp 0)|].
  pose proof (exec_check n (sp + c) _ _ G) as H. unfold wp, fuel_code, map_err, zoom.
  change [Add c; CheckFuel] with ([Add c] ++ [CheckFuel]). rewrite exec_app. unfold bind at 1.
  rewrite exec_one. unfold exec1 at 1, modify. cbn [fst snd]. rewrite E, exec_one. unfold wp in H.
  destruct (exec1 CheckFuel (b_var s + c, b_fuel s)) as [[] t|e t|]; [| |done]; cbn [mem with_mem].
  - split; [done|]. intros _. apply H.
  - destruct H as [-> [Hn _]]. by repeat split.
Qed.

Lemma check_spec s sp : metered sp s -> consume_fuel = true ->
  wp (fuel_code [CheckFuel]) (fun _ s' => mem s' = mem s /\ metered sp s') (stops (eq (mem s)) sp) s.
Proof.
  intros Hm Hf. pose proof (exec_check n sp _ _ (Hm Hf)) as H. unfold wp, fuel_code, map_err, zoom in *.
  rewrite exec_one. destruct (exec1 CheckFuel (b_var s, b_fuel s)) as [[] t|e t|]; [| |done]; cbn [mem with_mem].
  - split; [done|]. intros _. apply H.
  - destruct H as [-> [Hn _]]. by repeat split.
Qed.

Lemma loop_header_spec s sp c : 0 <= c -> sp + c < 2 ^ 63 -> metered sp s ->
  wp (translate_loop_header c) (fun _ s' => mem s' = mem s /\ metered (sp + c) s') (stops (eq (mem s)) (sp + c)) s.
Proof.
  intros Hc Hb Hm. apply wp_bind. unfold when.
  assert (He : forall s1, mem s1 = mem s -> metered (sp + c) s1 ->
    wp (if epoch_interruption then epoch_check epoch_deadline_behavior asynchronous else ret tt)
      (fun _ s' => mem s' = mem s /\ metered (sp + c) s') (stops (eq (mem s)) (sp + c)) s1).
  { intros s1 <- Hm1. destruct epoch_interruption eqn:Ee; [by apply epoch_check_spec|]. by apply wp_ret. }
  destruct consume_fuel eqn:Ef.
  - apply (wp_mono _ (fun _ s1 => mem s1 = mem s /\ metered (sp + c) s1) _ (stops (eq (mem s)) (sp + c)));
      [|intros ? s1 [E Hm1]; by apply He|done].
    destruct (Z.eqb_spec c 0) as [->|Hc0].
    + change (code_of fuel_check 0) with [CheckFuel]. rewrite Z.add_0_r. by apply check_spec.
    + replace (code_of fuel_check c) with [Add c; CheckFuel]; [by apply add_and_check_spec|].
      unfold code_of, fuel_check, fuel_increment_var, after, bind, gets, modify, emit. simpl.
      destruct (Z.eqb_spec c 0); done.
  - apply wp_ret. apply He; [done|]. intros ?. congruence.
Qed.

(** One call of a host function, with its checks. *)
Lemma raw_call_spec op s sp : 0 <= op_len op -> sp + op_len op < 2 ^ 63 -> metered sp s ->
  wp (raw_call op) (fun _ s' => mem s' = apply_op op (mem s) /\ metered (sp + op_len op) s')
    (stops (eq (mem s)) (sp + op_len op)) s.
Proof.
  intros Hl Hb Hm. unfold BulkOps.raw_call. apply wp_bind.
  assert (Hrest : forall s1, mem s1 = mem s -> metered sp s1 ->
    wp (when consume_fuel (fuel_code [Add (op_len op); CheckFuel]))
      (fun _ s2 => mem s2 = mem s /\ metered (sp + op_len op) s2) (stops (eq (mem s)) (sp + op_len op)) s1).
  { intros s1 <- Hm1. unfold when. destruct consume_fuel eqn:Ef; [by apply add_and_check_spec|].
    apply wp_ret. split; [done|]. intros ?. congruence. }
  assert (Hcall : forall s1, mem s1 = mem s -> metered sp s1 ->
    wp (match op with
        | MemoryCopy dst src len => when consume_fuel (fuel_code (code_of (manual_fuel_check len) 0)) ;;; memory_copy dst src len
        | MemoryFill dst val len => when consume_fuel (fuel_code (code_of (manual_fuel_check len) 0)) ;;; memory_fill dst val len
        end) (fun _ s' => mem s' = apply_op op (mem s) /\ metered (sp + op_len op) s') (stops (eq (mem s)) (sp + op_len op)) s1).
  { intros s1 E1 Hm1. destruct op as [dst src len|dst val len]; apply wp_bind; change (code_of (manual_fuel_check len) 0) with [Add len; CheckFuel];
      (eapply wp_mono; [by apply Hrest| |done]); intros ? s2 [E2 Hm2]; unfold wp, memory_copy, memory_fill, modify; simpl; by rewrite E2. }
  unfold when at 1. destruct epoch_interruption eqn:Ee; [|by apply wp_ret, Hcall].
  eapply wp_mono; [by apply epoch_check_spec| |].
  - intros ? s1 [E1 Hm1]. by apply Hcall.
  - intros e s1 Hs. eapply stops_mono; [done|done|lia].
Qed.
End specs.

(** Memories that agree at every address. *)
Definition meq (m m' : Mem) : Prop := forall a, m a = m' a.

#[export] Instance meq_equivalence : Equivalence meq.
Proof. split; [by intros m a|by intros m m' H a|]. intros x y z H H' a. by rewrite H. Qed.

#[export] Instance apply_op_proper op : Proper (meq ==> meq) (apply_op op).
Proof. intros m m' H a. destruct op; simpl; unfold memmove, write_bytes; by rewrite !H. Qed.

Lemma next_chunk_eq w op : op_ok w op -> UNINTERRUPTABLE_CHUNK_SIZE < op_len op ->
  next_chunk w op =
  match op with
  | MemoryCopy dst src len => MemoryCopy (dst + UNINTERRUPTABLE_CHUNK_SIZE) (src + UNINTERRUPTABLE_CHUNK_SIZE) (len - UNINTERRUPTABLE_CHUNK_SIZE)
  | MemoryFill dst val len => MemoryFill (dst + UNINTERRUPTABLE_CHUNK_SIZE) val (len - UNINTERRUPTABLE_CHUNK_SIZE)
  end.
Proof.
  assert (0 < UNINTERRUPTABLE_CHUNK_SIZE) by done.
  destruct op; simpl; intros; rewrite !wrap_small by lia; done.
Qed.

Lemma next_chunk_ok w op : op_ok w op -> forward_ok op -> UNINTERRUPTABLE_CHUNK_SIZE < op_len op ->
  op_ok w (next_chunk w op) /\ forward_ok (next_chunk w op) /\ op_len (next_chunk w op) = op_len op - UNINTERRUPTABLE_CHUNK_SIZE.
Proof.
  intros Ho Hf Hl. rewrite next_chunk_eq by done. assert (0 < UNINTERRUPTABLE_CHUNK_SIZE) by done.
  destruct op; simpl in *; split_and!; try done; lia.
Qed.

(** A chunk, and then [j] bytes of the rest, are one operation. *)
Lemma apply_chunk w op j m : op_ok w op -> forward_ok op -> UNINTERRUPTABLE_CHUNK_SIZE < op_len op ->
  0 <= j <= op_len op - UNINTERRUPTABLE_CHUNK_SIZE ->
  meq (apply_op (with_len j (next_chunk w op)) (apply_op (with_len UNINTERRUPTABLE_CHUNK_SIZE op) m))
      (apply_op (with_len (UNINTERRUPTABLE_CHUNK_SIZE + j) op) m).
Proof.
  intros Ho Hf Hl Hj a. rewrite next_chunk_eq by done. assert (Hc : 0 < UNINTERRUPTABLE_CHUNK_SIZE) by done.
  destruct op as [dst src len|dst val len]; simpl in *; unfold memmove, write_bytes;
    generalize dependent UNINTERRUPTABLE_CHUNK_SIZE; intros C; intros; simpl;
    repeat match goal with |- context [?x <=? ?y] => destruct (Z.leb_spec x y); try lia; simpl
                         | |- context [?x <? ?y] => destruct (Z.ltb_spec x y); try lia; simpl end;
    try done; f_equal; lia.
Qed.

Lemma with_len_id op : with_len (op_len op) op = op.
Proof. by destruct op. Qed.

Section specs2.
Context (w : Z) (w_range : 32 <= w <= 64) (consume_fuel epoch_interruption : bool).
Context (epoch_deadline_behavior : option (Z -> Z -> option UpdateDeadline)) (asynchronous : bool).
Context (epoch_total : forall s, Epoch.epoch_check epoch_deadline_behavior asynchronous s <> Panic).
Context (n : Z).

Abbreviation chunks := (chunks w consume_fuel epoch_interruption epoch_deadline_behavior asynchronous).
Abbreviation metered := (metered consume_fuel n).
Abbreviation stops := (stops consume_fuel epoch_interruption n).

(** What a stop leaves: a prefix of the operation is done. *)
Definition prefix_done (op : BulkOp) (m0 m : Mem) : Prop :=
  exists j, 0 <= j <= op_len op /\ meq m (apply_op (with_len j op) m0).

Lemma prefix_none op m : 0 <= op_len op -> prefix_done op m m.
Proof.
  intros Hl. exists 0. split; [lia|]. intros a.
  destruct op; simpl; unfold memmove, write_bytes; by destruct (Z.leb_spec dst a), (Z.ltb_spec a (dst + 0)); simpl; try lia.
Qed.

Lemma chunks_spec k op s sp : op_ok w op -> forward_ok op -> sp + op_len op < 2 ^ 63 -> metered sp s ->
  op_len op <= UNINTERRUPTABLE_CHUNK_SIZE * (Z.of_nat k + 1) ->
  wp (chunks k op) (fun _ s' => meq (mem s') (apply_op op (mem s)) /\ metered (sp + op_len op) s')
    (stops (prefix_done op (mem s)) (sp + op_len op)) s.
Proof.
  revert op s sp. induction k as [|k IH]; intros op s sp Ho Hf Hb Hm Hk;
    assert (Hl0 : 0 <= op_len op) by (destruct op; simpl in *; lia);
    cbn [BulkOps.chunks]; (destruct (Z.ltb_spec UNINTERRUPTABLE_CHUNK_SIZE (op_len op)) as [Hl|Hl]; [|
      eapply wp_mono; [by apply (raw_call_spec _ _ _ _ epoch_total n op s sp)| |];
      [intros ? s' [E Hm']; split; [by rewrite E|done]|
       intros e s' Hs; eapply stops_mono; [done| |lia]; intros <-; by apply prefix_none]]).
  - change (Z.of_nat 0) with 0 in Hk. lia.
  - destruct (next_chunk_ok w op Ho Hf Hl) as (Ho' & Hf' & El).
    assert (Hc : 0 < UNINTERRUPTABLE_CHUNK_SIZE) by done.
    assert (Ec : op_len (with_len UNINTERRUPTABLE_CHUNK_SIZE op) = UNINTERRUPTABLE_CHUNK_SIZE) by by destruct op.
    apply wp_bind. eapply wp_mono;
      [apply (raw_call_spec _ _ _ _ epoch_total n (with_len UNINTERRUPTABLE_CHUNK_SIZE op) s sp); try done; lia| |].
    + intros ? s1 [E1 Hm1]. rewrite Ec in Hm1.
      eapply wp_mono; [apply (IH (next_chunk w op) s1 (sp + UNINTERRUPTABLE_CHUNK_SIZE)); try done; lia| |].
      * intros ? s2 [E2 Hm2]. rewrite El in Hm2. replace (sp + op_len op) with (sp + UNINTERRUPTABLE_CHUNK_SIZE + (op_len op - UNINTERRUPTABLE_CHUNK_SIZE)) by lia.
        split; [|done]. rewrite E2, E1. rewrite <- (with_len_id (next_chunk w op)), (apply_chunk w) by (try done; lia).
        rewrite El. replace (_ + _) with (op_len op) by lia. by rewrite with_len_id.
      * intros e s2 Hs. eapply stops_mono; [done| |lia]. rewrite E1. intros (j & Hj & E2).
        exists (UNINTERRUPTABLE_CHUNK_SIZE + j). split; [lia|]. rewrite E2. apply (apply_chunk w); try done. lia.
    + intros e s1 Hs. eapply stops_mono; [done| |lia]. intros <-. by apply prefix_none.
Qed.
End specs2.

(** ** Element by element *)

(** Copying forward in two parts, and backward. *)
Ltac mem_cases :=
  repeat match goal with |- context [?x <=? ?y] => destruct (Z.leb_spec x y); try lia; simpl
                       | |- context [?x <? ?y] => destruct (Z.ltb_spec x y); try lia; simpl end;
  try done; f_equal; lia.

Lemma memmove_forward d s x y m : d <= s -> 0 <= x -> 0 <= y ->
  meq (memmove (d + x) (s + x) y (memmove d s x m)) (memmove d s (x + y) m).
Proof. intros Hd Hx Hy a. unfold memmove. simpl. mem_cases. Qed.

Lemma memmove_backward d s x y m : s <= d -> 0 <= x -> 0 <= y ->
  meq (memmove d s x (memmove (d + x) (s + x) y m)) (memmove d s (x + y) m).
Proof. intros Hd Hx Hy a. unfold memmove. simpl. mem_cases. Qed.

Lemma memmove_empty d s m : meq (memmove d s 0 m) m.
Proof. intros a. unfold memmove. by destruct (Z.leb_spec d a), (Z.ltb_spec a (d + 0)); simpl; try lia. Qed.

#[export] Instance memmove_proper d s l : Proper (meq ==> meq) (memmove d s l).
Proof. exact (apply_op_proper (MemoryCopy d s l)). Qed.

(** The products the addresses are made of. *)
Lemma product_bounds len x k : 0 <= x -> 0 <= k <= len -> 0 <= k * x <= len * x.
Proof. nia. Qed.

Section elements.
Context (w : Z) (w_range : 32 <= w <= 64) (consume_fuel epoch_interruption : bool).
Context (epoch_deadline_behavior : option (Z -> Z -> option UpdateDeadline)) (asynchronous : bool).
Context (epoch_total : forall s, Epoch.epoch_check epoch_deadline_behavior asynchronous s <> Panic).
Context (n sp : Z).

(** [len] elements of [es] bytes, from [src], whose first has index [idx], to [dst];
    [c] is added in every turn. *)
Context (es : Z) (es_pos : 0 < es) (index_width : Z) (index_width_pos : 0 < index_width) (dst src len idx : Z).
Context (dst_ok : 0 <= dst /\ dst + len * es < 2 ^ w) (src_ok : 0 <= src /\ src + len * es < 2 ^ w).
Context (copy_one : Z -> Z -> Z -> B unit) (c : Z) (c_pos : 0 <= c) (sp_ok : sp + len * c < 2 ^ 63).

(** After [t] turns. *)
Abbreviation metered_at t := (metered consume_fuel n (sp + t * c)).
Abbreviation stops P := (stops consume_fuel epoch_interruption n P (sp + len * c)).
Abbreviation header := (translate_loop_header consume_fuel epoch_interruption epoch_deadline_behavior asynchronous c).

(** Reading the element with its index and writing it moves its bytes. *)
Context (copy_one_spec : forall k q s, 0 <= k < len -> metered consume_fuel n q s ->
  wp (copy_one (dst + k * es) (src + k * es) (wrap index_width (idx + k)))
    (fun _ s' => meq (mem s') (memmove (dst + k * es) (src + k * es) es (mem s)) /\ metered consume_fuel n q s') (fun _ _ => False) s).

(** The first [j] elements are copied, or the last. *)
Definition partial_copy (m0 m : Mem) : Prop :=
  exists j, 0 <= j <= len /\
    (meq m (memmove dst src (j * es) m0) \/
     meq m (memmove (dst + (len - j) * es) (src + (len - j) * es) (j * es) m0)).

(** One turn of either loop: the header and the copy of element [k]. *)
Lemma turn_spec k t s (Q : unit -> Bulk -> Prop) m0 (rest : B unit) :
  0 <= k < len -> 0 <= t < len -> metered_at t s -> partial_copy m0 (mem s) ->
  (forall s', meq (mem s') (memmove (dst + k * es) (src + k * es) es (mem s)) -> metered_at (t + 1) s' -> wp rest Q (stops (partial_copy m0)) s') ->
  wp (header ;;; copy_one (dst + k * es) (src + k * es) (wrap index_width (idx + k)) ;;; rest) Q (stops (partial_copy m0)) s.
Proof.
  intros Hk Ht Hm Hp Hrest. pose proof (product_bounds len c (t + 1) c_pos ltac:(lia)).
  apply wp_bind. eapply wp_mono; [apply (loop_header_spec _ _ _ _ epoch_total n s (sp + t * c)); done || lia| |].
  - intros ? s1 [E Hm1]. replace (sp + t * c + c) with (sp + (t + 1) * c) in Hm1 by lia.
    apply wp_bind. eapply wp_mono; [by apply (copy_one_spec k (sp + (t + 1) * c))| |done].
    intros ? s2 [E2 Hm2]. apply Hrest; [by rewrite E2, E|done].
  - intros e s1 Hs. eapply stops_mono; [done| |lia]. by intros <-.
Qed.

Lemma wrap_index k d : wrap index_width (wrap index_width (idx + k) + d) = wrap index_width (idx + (k + d)).
Proof. unfold wrap. rewrite Zplus_mod_idemp_l. f_equal. lia. Qed.

Lemma forward_spec turns k m0 s : dst <= src -> 0 <= k -> k + Z.of_nat turns = len -> (0 < turns)%nat ->
  metered_at k s -> meq (mem s) (memmove dst src (k * es) m0) ->
  wp (forward_block w consume_fuel epoch_interruption epoch_deadline_behavior asynchronous es es copy_one index_width c turns
        (src + len * es) (dst + k * es) (src + k * es) (wrap index_width (idx + k)))
    (fun _ s' => meq (mem s') (memmove dst src (len * es) m0) /\ metered_at len s') (stops (partial_copy m0)) s.
Proof.
  intros Hd. revert k s. induction turns as [|turns IH]; intros k s Hk Ht Hpos Hm Em; [lia|].
  cbn [forward_block]. apply (turn_spec k k); [lia|lia|done|exists k; split; [lia|by left]|].
  intros s1 E1 Hm1.
  pose proof (product_bounds len es k ltac:(lia) ltac:(lia)). pose proof (product_bounds len es (k + 1) ltac:(lia) ltac:(lia)).
  assert (E2 : meq (mem s1) (memmove dst src ((k + 1) * es) m0)).
  { rewrite E1, Em, memmove_forward by lia. by replace (k * es + es) with ((k + 1) * es) by lia. }
  rewrite !wrap_small by lia. replace (src + k * es + es) with (src + (k + 1) * es) by lia.
  replace (dst + k * es + es) with (dst + (k + 1) * es) by lia. rewrite wrap_index.
  destruct (Z.eqb_spec (src + (k + 1) * es) (src + len * es)) as [Eq|Eq].
  - assert (k + 1 = len) as Ek by nia. apply wp_ret. by rewrite <- Ek.
  - apply IH; try done; try lia. destruct turns; [|lia]. exfalso. apply Eq. do 2 f_equal. lia.
Qed.

Lemma backward_spec turns k m0 s : src <= dst -> k = Z.of_nat turns -> k <= len -> (0 < turns)%nat ->
  metered_at (len - k) s -> meq (mem s) (memmove (dst + k * es) (src + k * es) ((len - k) * es) m0) ->
  wp (backwards_block w consume_fuel epoch_interruption epoch_deadline_behavior asynchronous es es copy_one index_width c turns
        src (dst + k * es) (src + k * es) (wrap index_width (idx + k)))
    (fun _ s' => meq (mem s') (memmove dst src (len * es) m0) /\ metered_at len s') (stops (partial_copy m0)) s.
Proof.
  intros Hd. revert k s. induction turns as [|turns IH]; intros k s Hk Hl Hpos Hm Em; [lia|].
  cbn [backwards_block]. change (wrap index_width (idx + k) - 1) with (wrap index_width (idx + k) + -1). rewrite wrap_index.
  pose proof (product_bounds len es k ltac:(lia) ltac:(lia)). pose proof (product_bounds len es (k - 1) ltac:(lia) ltac:(lia)).
  rewrite !wrap_small by lia. replace (src + k * es - es) with (src + (k - 1) * es) by lia.
  replace (dst + k * es - es) with (dst + (k - 1) * es) by lia. replace (k + -1) with (k - 1) by lia.
  apply (turn_spec (k - 1) (len - k)); [lia|lia|done| |].
  { exists (len - k). split; [lia|]. right. by replace (len - (len - k)) with k by lia. }
  intros s1 E1 Hm1. replace (len - k + 1) with (len - (k - 1)) in Hm1 by lia.
  assert (E2 : meq (mem s1) (memmove (dst + (k - 1) * es) (src + (k - 1) * es) ((len - (k - 1)) * es) m0)).
  { rewrite E1, Em. replace (dst + k * es) with (dst + (k - 1) * es + es) by lia.
    replace (src + k * es) with (src + (k - 1) * es + es) by lia. rewrite memmove_backward by nia.
    by replace (es + (len - k) * es) with ((len - (k - 1)) * es) by lia. }
  destruct (Z.eqb_spec (src + (k - 1) * es) src) as [Eq|Eq].
  - assert (k - 1 = 0) as Ek by nia. apply wp_ret. rewrite Ek, !Z.sub_0_r in *. split; [|done].
    by rewrite E2, !Z.add_0_r.
  - apply IH; try done; try lia. destruct turns; [|lia]. exfalso. apply Eq. assert (k - 1 = 0) as -> by lia. lia.
Qed.
End elements.

(** ** Filling *)

(** [k] elements of [es] bytes, each the low bytes of [bits]. *)
Definition pattern (dst es k bits : Z) (m : Mem) : Mem :=
  fun a => if (dst <=? a) && (a <? dst + k * es) then byte_at bits (Z.to_nat ((a - dst) mod es)) else m a.

Lemma pattern_zero dst es bits m : meq (pattern dst es 0 bits m) m.
Proof. intros a. unfold pattern. by destruct (Z.leb_spec dst a), (Z.ltb_spec a (dst + 0 * es)); simpl; try lia. Qed.

(** One more element. *)
Lemma pattern_succ dst (es : nat) k bits m : 0 <= k -> (0 < es)%nat ->
  meq (store_bytes es (dst + k * Z.of_nat es) bits (pattern dst (Z.of_nat es) k bits m)) (pattern dst (Z.of_nat es) (k + 1) bits m).
Proof.
  intros Hk He a. unfold pattern, store_bytes. assert (0 <= k * Z.of_nat es) by nia.
  destruct (Z.leb_spec (dst + k * Z.of_nat es) a), (Z.ltb_spec a (dst + k * Z.of_nat es + Z.of_nat es)),
    (Z.leb_spec dst a), (Z.ltb_spec a (dst + (k + 1) * Z.of_nat es)), (Z.ltb_spec a (dst + k * Z.of_nat es)); simpl; try lia; try done.
  do 2 f_equal. apply (Z.mod_unique_pos _ _ k); lia.
Qed.

Lemma pattern_memset dst es k bits v m : 0 < es -> (forall i, 0 <= i < es -> byte_at bits (Z.to_nat i) = v) ->
  meq (write_bytes dst v (k * es) m) (pattern dst es k bits m).
Proof.
  intros He Hv a. unfold pattern, write_bytes. destruct (_ && _); [|done]. symmetry. apply Hv. by apply Z.mod_pos_bound.
Qed.

#[export] Instance store_bytes_proper k addr bits : Proper (meq ==> meq) (store_bytes k addr bits).
Proof. intros m m' H a. unfold store_bytes. by rewrite H. Qed.

(** The byte that [fill_value_as_memset] finds is every byte of the value. *)
Lemma fill_value_bytes ty value v i : fill_value_as_memset ty value = Some v -> (i < storage_size ty)%nat ->
  byte_at (value_bits value) i = wrap 8 (value_bits v).
Proof.
  assert (Hone : forall b, byte_at b 0 = wrap 8 b).
  { intros b. unfold byte_at. change (8 * Z.of_nat 0) with 0. by rewrite Z.shiftr_0_r. }
  assert (Hlow : forall b, wrap 8 (Z.land b 255) = wrap 8 b).
  { intros b. change 255 with (Z.ones 8). rewrite Z.land_ones by lia. unfold wrap. by rewrite Zmod_mod. }
  assert (Hsame : forall b k, existsb (fun j => negb (byte_at b j =? byte_at b 0)) (seq 1 (k - 1)) = false -> (i < k)%nat ->
    byte_at b i = wrap 8 (Z.land b 255)).
  { intros b k Hb Hi. rewrite Hlow, <- Hone. destruct i as [|i]; [done|].
    destruct (Z.eqb_spec (byte_at b (S i)) (byte_at b 0)) as [|Hne]; [done|].
    rewrite <- not_true_iff_false in Hb. exfalso. apply Hb, existsb_exists. exists (S i). split.
    - apply in_seq. lia.
    - by apply negb_true_iff, Z.eqb_neq. }
  destruct ty as [| |k], value as [bits|x]; cbn [fill_value_as_memset storage_size]; intros H Hi; simplify_eq;
    try (destruct i; [by rewrite Hone|lia]);
    destruct (existsb _ _) eqn:Ee; simplify_eq; cbn [value_bits]; by eapply Hsame.
Qed.

Section fill_specs.
Context (w : Z) (w_range : 32 <= w <= 64) (consume_fuel epoch_interruption : bool).
Context (epoch_deadline_behavior : option (Z -> Z -> option UpdateDeadline)) (asynchronous : bool).
Context (epoch_total : forall s, Epoch.epoch_check epoch_deadline_behavior asynchronous s <> Panic).
Context (n sp : Z) (es : nat) (es_pos : (0 < es)%nat) (dst len bits : Z).
Context (dst_ok : 0 <= dst /\ dst + len * Z.of_nat es < 2 ^ w).
Context (emit_elem_write : Z -> Z -> B unit) (c : Z) (c_pos : 0 <= c) (sp_ok : sp + len * c < 2 ^ 63).

(** Writing an element stores its bytes. *)
Context (write_spec : forall addr q s, metered consume_fuel n q s ->
  wp (emit_elem_write addr bits)
    (fun _ s' => meq (mem s') (store_bytes es addr bits (mem s)) /\ metered consume_fuel n q s') (fun _ _ => False) s).

Definition partial_fill (m0 m : Mem) : Prop := exists j, 0 <= j <= len /\ meq m (pattern dst (Z.of_nat es) j bits m0).

Lemma fill_spec turns k m0 s : 0 <= k -> k + Z.of_nat turns = len -> (0 < turns)%nat ->
  metered consume_fuel n (sp + k * c) s -> meq (mem s) (pattern dst (Z.of_nat es) k bits m0) ->
  wp (fill_block w consume_fuel epoch_interruption epoch_deadline_behavior asynchronous (Z.of_nat es) emit_elem_write c turns
        (dst + len * Z.of_nat es) bits (dst + k * Z.of_nat es))
    (fun _ s' => meq (mem s') (pattern dst (Z.of_nat es) len bits m0) /\ metered consume_fuel n (sp + len * c) s')
    (stops consume_fuel epoch_interruption n (partial_fill m0) (sp + len * c)) s.
Proof.
  revert k s. induction turns as [|turns IH]; intros k s Hk Ht Hpos Hm Em; [lia|].
  cbn [fill_block]. pose proof (product_bounds len c (k + 1) c_pos ltac:(lia)).
  pose proof (product_bounds len (Z.of_nat es) (k + 1) ltac:(lia) ltac:(lia)).
  pose proof (product_bounds len (Z.of_nat es) k ltac:(lia) ltac:(lia)).
  apply wp_bind. eapply wp_mono; [apply (loop_header_spec _ _ _ _ epoch_total n s (sp + k * c)); done || lia| |].
  - intros ? s1 [E Hm1]. replace (sp + k * c + c) with (sp + (k + 1) * c) in Hm1 by lia.
    apply wp_bind. eapply wp_mono; [by apply (write_spec _ (sp + (k + 1) * c))| |done]. intros ? s2 [E2 Hm2].
    assert (E3 : meq (mem s2) (pattern dst (Z.of_nat es) (k + 1) bits m0)) by (by rewrite E2, E, Em, pattern_succ by lia).
    rewrite wrap_small by lia. replace (dst + k * Z.of_nat es + Z.of_nat es) with (dst + (k + 1) * Z.of_nat es) by lia.
    destruct (Z.eqb_spec (dst + (k + 1) * Z.of_nat es) (dst + len * Z.of_nat es)) as [Eq|Eq].
    + assert (Ek : k + 1 = len) by nia. apply wp_ret. by rewrite <- Ek.
    + apply IH; try done; try lia. destruct turns; [|lia]. exfalso. apply Eq. do 2 f_equal. lia.
  - intros e s1 Hs. eapply stops_mono; [done| |lia]. intros <-. exists k. split; [lia|done].
Qed.
End fill_specs.

(** ** Properties *)

Section properties.
Context (w : Z) (w_range : 32 <= w <= 64) (consume_fuel epoch_interruption : bool).
Context (epoch_deadline_behavior : option (Z -> Z -> option UpdateDeadline)) (asynchronous : bool).
Context (epoch_total : forall s, Epoch.epoch_check epoch_deadline_behavior asynchronous s <> Panic).
Context (n sp pending_cost : Z) (pending_ok : 0 <= pending_cost).

Abbreviation metered := (metered consume_fuel n).
Abbreviation stops := (stops consume_fuel epoch_interruption n).

(** The pending cost is counted first. *)
Lemma flush_spec s : sp + pending_cost < 2 ^ 63 -> metered sp s ->
  wp (when consume_fuel (fuel_code (code_of fuel_increment_var pending_cost)))
    (fun _ s' => mem s' = mem s /\ metered (sp + pending_cost) s') (fun _ _ => False) s.
Proof.
  intros Hb Hm. unfold when. destruct consume_fuel eqn:Ef; [|by apply wp_ret].
  replace (code_of fuel_increment_var pending_cost) with (add_code pending_cost).
  2:{ unfold code_of, fuel_increment_var, after, add_code, bind, gets, modify, emit. simpl.
      by destruct (Z.eqb_spec pending_cost 0). }
  destruct (exec_add_code n (sp + pending_cost) pending_cost (b_var s) (b_fuel s)) as [G E].
  { apply (good_spend n sp 0); [done|done|exact (Hm eq_refl)]. }
  unfold wp, fuel_code, map_err, zoom. rewrite E. split; [done|]. intros _. exact G.
Qed.

(** An operation, in chunks or not. *)
Lemma bulk_spec op s :
  op_ok w op -> forward_ok op \/ (consume_fuel = false /\ epoch_interruption = false) ->
  sp + pending_cost + op_len op < 2 ^ 63 -> metered sp s ->
  wp (raw_bulk_memory_operation w consume_fuel epoch_interruption epoch_deadline_behavior asynchronous pending_cost op)
    (fun _ s' => meq (mem s') (apply_op op (mem s)) /\ metered (sp + pending_cost + op_len op) s')
    (stops (prefix_done op (mem s)) (sp + pending_cost + op_len op)) s.
Proof.
  intros Ho Hf Hb Hm. assert (Hl0 : 0 <= op_len op) by (destruct op; simpl in *; lia).
  unfold raw_bulk_memory_operation. destruct (negb epoch_interruption && negb consume_fuel) eqn:Eb.
  - apply andb_true_iff in Eb as [Ee%negb_true_iff Ec%negb_true_iff].
    eapply wp_mono; [apply (raw_call_spec consume_fuel epoch_interruption _ _ epoch_total n op s sp); done || lia| |].
    + intros ? s' [E _]. split; [by rewrite E|]. intros ?. congruence.
    + intros e s' Hs. eapply stops_mono; [done| |lia]. intros <-. by apply prefix_none.
  - destruct Hf as [Hf|[E1 E2]]; [|by rewrite E1, E2 in Eb].
    apply wp_bind. eapply wp_mono; [apply flush_spec; done || lia| |done]. intros ? s1 [<- Hm1].
    apply (chunks_spec w _ _ _ _ epoch_total n); try done. unfold turns_of.
    assert (Hc : 0 < UNINTERRUPTABLE_CHUNK_SIZE) by done.
    pose proof (Z.div_pos (op_len op) UNINTERRUPTABLE_CHUNK_SIZE Hl0 Hc).
    pose proof (Z.mul_succ_div_gt (op_len op) UNINTERRUPTABLE_CHUNK_SIZE Hc). lia.
Qed.

Lemma bulk_memory_fill dst val len s : 0 <= dst -> 0 <= len -> dst + len < 2 ^ w ->
  sp + pending_cost + len < 2 ^ 63 -> metered sp s ->
  wp (raw_bulk_memory_operation w consume_fuel epoch_interruption epoch_deadline_behavior asynchronous pending_cost (MemoryFill dst val len))
    (fun _ s' => meq (mem s') (write_bytes dst (wrap 8 val) len (mem s)) /\ metered (sp + pending_cost + len) s')
    (stops (prefix_done (MemoryFill dst val len) (mem s)) (sp + pending_cost + len)) s.
Proof. intros Hd Hl He Hb Hm. apply (bulk_spec (MemoryFill dst val len) s); try done. by left. Qed.



(** What a fill counts: by [memset] the pending cost and the bytes, by elements the
    pending cost once per element. *)
Definition fill_cost (by_memset : bool) (len size : Z) : Z :=
  if by_memset then pending_cost + len * size else len * pending_cost.

(** A fill of elements, by [memset] or one by one: the elements hold the low
    bytes of the value, whichever way is taken, and nothing else changes. *)
Theorem array_fill_correct (allows_memset : bool) elem_ty emit_elem_write dst value len s :
  let size := Z.of_nat (storage_size elem_ty) in
  let by_memset := bool_decide (is_Some (if allows_memset then fill_value_as_memset elem_ty value else None)) in
  (0 < storage_size elem_ty)%nat -> 0 <= dst -> 0 <= len -> dst + len * size < 2 ^ w ->
  sp + pending_cost + len * size < 2 ^ 63 -> sp + len * pending_cost < 2 ^ 63 -> metered sp s ->
  (forall addr q s, metered q s ->
    wp (emit_elem_write addr (value_bits value))
      (fun _ s' => meq (mem s') (store_bytes (storage_size elem_ty) addr (value_bits value) (mem s)) /\ metered q s') (fun _ _ => False) s) ->
  wp (emit_raw_array_or_table_fill w consume_fuel epoch_interruption epoch_deadline_behavior asynchronous allows_memset
        elem_ty emit_elem_write pending_cost dst value len)
    (fun _ s' => meq (mem s') (pattern dst size len (value_bits value) (mem s)) /\ metered (sp + fill_cost by_memset len size) s')
    (fun e s' => match e with FuelStop e => e = OutOfFuel /\ n <= sp + fill_cost by_memset len size | EpochStops _ => epoch_interruption = true end) s.
Proof.
  intros size bm Hsz Hd Hl Hde Hb1 Hb2 Hm Hw. unfold emit_raw_array_or_table_fill. fold size.
  assert (Hlen : 0 <= len * size) by nia. rewrite (wrap_small w) by lia.
  destruct (if allows_memset then fill_value_as_memset elem_ty value else None) as [v|] eqn:Ev.
  - assert (Ebm : bm = true) by (apply bool_decide_eq_true_2; rewrite ?Ev; by eexists). rewrite Ebm. unfold fill_cost.
    eapply wp_mono; [apply (bulk_memory_fill dst (value_bits v) (len * size)); done || lia| |].
    + intros ? s' [E Hm']. rewrite Z.add_assoc. split; [|done]. rewrite E. apply pattern_memset; [unfold size; lia|].
      intros i Hi. destruct allows_memset; [|done]. apply (fill_value_bytes elem_ty); [done|unfold size in Hi; lia].
    + intros e s' [_ He]. destruct e; [|done]. rewrite Z.add_assoc. by destruct He as (? & ? & _).
  - assert (Ebm : bm = false) by (apply bool_decide_eq_false_2; rewrite ?Ev; by intros [? ?]). rewrite Ebm. unfold fill_cost, fill_loop.
    destruct (Z.eqb_spec len 0) as [->|Hl0].
    { apply wp_ret. rewrite pattern_zero. by rewrite Z.mul_0_l, Z.add_0_r. }
    rewrite !(wrap_small w) by (try rewrite !(wrap_small w); lia).
    pose proof (fill_spec w w_range consume_fuel epoch_interruption epoch_deadline_behavior asynchronous epoch_total n sp
      (storage_size elem_ty) Hsz dst len (value_bits value) (conj Hd Hde) emit_elem_write pending_cost pending_ok Hb2 Hw (Z.to_nat len) 0 (mem s) s) as Hf.
    fold size in Hf. rewrite !Z.mul_0_l, !Z.add_0_r in Hf.
    eapply wp_mono; [apply Hf; try done; try lia; by rewrite pattern_zero|done|].
    intros e s' [_ He]. destruct e; [|done]. by destruct He as (? & ? & _).
Qed.
End properties.

(** ** Concrete runs *)

(** Without a callback an epoch that has passed only stops. *)
Lemma epoch_total_none s : Epoch.epoch_check None false s <> Panic.
Proof.
  unfold Epoch.epoch_check, epoch_check_full, epoch_check_cached, call_new_epoch, new_epoch, new_epoch_updated_deadline,
    bind, gets, get, modify. simpl. by repeat (destruct (_ <=? _); simpl).
Qed.

(** Memory that counts up, and [2 ^ 40] units of fuel. *)
Definition ramp : Mem := fun a => a mod 256.
Definition bulk_example : Bulk := mkBulk ramp (- 2 ^ 40) (mkFuel (- 2 ^ 40) 0 None 0) (mkEpochs 0 1000 1000 0 0).

Lemma bulk_example_metered : metered true (2 ^ 40) 0 bulk_example.
Proof. intros _. constructor; simpl; done || unfold i64_MAX; lia. Qed.

(** A copy of one byte more than a chunk, up by one byte, with fuel: the second
    chunk reads what the first wrote. *)
Theorem chunked_copy_wrong :
  let op := MemoryCopy 1001 1000 (UNINTERRUPTABLE_CHUNK_SIZE + 1) in
  let last := 1001 + UNINTERRUPTABLE_CHUNK_SIZE in
  match raw_bulk_memory_operation 64 true false None false 1 op bulk_example with
  | Ret _ s => mem s last = 231 /\ apply_op op ramp last = 232
  | _ => False
  end.
Proof. vm_compute. done. Qed.

(** A hundred units of pending cost, and a copy of three elements forward, backward
    and of none: counted three times, and not at all. *)
Theorem pending_cost_by_direction :
  let copy dst src len := translate_per_element_copy 64 true false None false 8 8 (fun d s _ => memory_copy d s 8) 32 100 dst src len 0 in
  let counted m := match m bulk_example with Ret _ s => Some (b_var s - b_var bulk_example) | _ => None end in
  counted (copy 4096 8192 3) = Some 300 /\ counted (copy 8192 4096 3) = Some 0 /\ counted (copy 4096 8192 0) = Some 0.
Proof. vm_compute. done. Qed.



Lemma array_fill_correct_witness :
  wp (emit_raw_array_or_table_fill 64 true true None false true SI16
        (fun addr v => modify (fun s => with_mem (store_bytes 2 addr v (mem s)) s)) 5 4096 (Constant 258) 10)
    (fun _ s' => meq (mem s') (pattern 4096 2 10 258 ramp) /\ metered true (2 ^ 40) 50 s')
    (fun e s' => match e with FuelStop e => e = OutOfFuel /\ 2 ^ 40 <= 50 | EpochStops _ => true = true end) bulk_example.
Proof.
  apply (array_fill_correct 64 ltac:(lia) true true None false epoch_total_none (2 ^ 40) 0 5 ltac:(lia) true SI16
    (fun addr v => modify (fun s => with_mem (store_bytes 2 addr v (mem s)) s)) 4096 (Constant 258) 10 bulk_example);
    simpl; try lia; [exact bulk_example_metered|].
  intros addr q s Hm. split; [reflexivity|exact Hm].
Defined.
