(* ===== verification/MemoryInit.v ===== *)
(** * The initialization of memories

    The active data segments of a module: how the translation records them and
    tries to turn them into one image per memory at compile time
    ([try_static_init] of environ/src/compile/module_environ.rs), the walk over
    either form ([init_memory] of environ/src/module.rs) and instantiation, which
    writes them (runtime/vm/instance/allocator.rs), unless a copy-on-write image is
    there already (see CowSlot.v).

    Shown: whatever the segments, the images are aligned and inside the minimum size
    of their memories, and instantiation leaves exactly the bytes that writing the
    segments one after the other leaves; nothing panics while the data stay within
    4GiB; with a generous configuration of dense images it does. *)

From S2P Require Import Prelude MemoryTypes DivConst ClifTypes ClifValue ConstExpr.

(** ** The module *)

Record MemoryInitializer := mkInitializer {
  memory_index : nat;
  offset : ConstExpr;
  data : Z * Z
}.

Record StaticMemoryInitializer := mkStaticInit { s_offset : Z; s_data : Z * Z }.

Inductive MemoryInitialization :=
| Segmented (list : list MemoryInitializer)
| StaticMap (map : list (option StaticMemoryInitializer)).

(** The parts of a [ModuleTranslation] that memories are initialized from. *)
Record ModuleTranslation := mkTranslation {
  memories : list Memory.t;
  num_imported_memories : nat;
  memory_initialization : MemoryInitialization;
  t_data : list (list Z);
  total_data : Z;
  data_align : option Z
}.

Inductive InitError := TooMuchData | MemoryInitOutOfBounds.

(** [Range::len]. *)
Definition range_len (r : Z * Z) : Z := Z.max 0 (r.2 - r.1).

(** [defined_memory_index]. *)
Definition defined_memory_index (t : ModuleTranslation) (i : nat) : option nat :=
  if bool_decide (i < num_imported_memories t)%nat then None else Some (i - num_imported_memories t)%nat.

(** The data section: an active segment. *)
Definition mk_range (len total : Z) : option (Z * Z) :=
  size ← try_from u32_MAX len; end_ ← checked_add u32_MAX total size; Some (total, end_).

Definition active_segment (index : nat) (offset_expr : ConstExpr) (bytes : list Z) : M ModuleTranslation InitError unit :=
  t <- get ;;
  range <- ok_or (mk_range (zlen bytes) (total_data t)) TooMuchData ;;
  match memory_initialization t with
  | Segmented initializers =>
      put (mkTranslation (memories t) (num_imported_memories t)
             (Segmented (initializers ++ [mkInitializer index offset_expr range]))
             (t_data t ++ [bytes]) (total_data t + (range.2 - range.1)) (data_align t))
  | StaticMap _ => panic
  end.

(** ** The walk over the initializers *)

Record InitMemory (S : Type) := mkInitMemory {
  memory_size_in_bytes : nat -> M S Empty_set (option Z);
  eval_offset : nat -> ConstExpr -> M S Empty_set (option Z);
  write : nat -> StaticMemoryInitializer -> M S Empty_set bool
}.
#[global] Arguments memory_size_in_bytes {S} _ _.
#[global] Arguments eval_offset {S} _ _ _.
#[global] Arguments write {S} _ _ _.
#[global] Arguments mkInitMemory {S} _ _ _.

Section walk.
Context {S : Type} (state : InitMemory S).
Abbreviation W := (M S Empty_set).

Fixpoint init_segments (initializers : list MemoryInitializer) : W bool :=
  match initializers with
  | [] => ret true
  | i :: initializers =>
      start <- eval_offset state (memory_index i) (offset i) ;;
      match start with
      | None => ret false
      | Some start =>
          match checked_add u64_MAX start (range_len (data i)) with
          | None => ret false
          | Some end_ =>
              size <- memory_size_in_bytes state (memory_index i) ;;
              if (match size with Some max => max <? end_ | None => false end) then ret false
              else
                result <- write state (memory_index i) (mkStaticInit start (data i)) ;;
                if result then init_segments initializers else ret false
          end
      end
  end.

Fixpoint init_static (index : nat) (map : list (option StaticMemoryInitializer)) : W bool :=
  match map with
  | [] => ret true
  | None :: map => init_static (Datatypes.S index) map
  | Some init :: map =>
      result <- write state index init ;;
      if result then init_static (Datatypes.S index) map else ret false
  end.

Definition init_memory (i : MemoryInitialization) : W bool :=
  match i with Segmented list => init_segments list | StaticMap map => init_static 0 map end.
End walk.

(** ** At compile time *)

Record MemoryInfo := mkInfo {
  data_size : Z;
  min_addr : Z;
  max_addr : Z;
  segments : list (nat * StaticMemoryInitializer)
}.

Record CompileTime := mkCompileTime { info : list MemoryInfo; idx : nat }.

Section compile_time.
Context (t : ModuleTranslation).
Abbreviation C := (M CompileTime Empty_set).

Definition compile_time_offset (index : nat) (expr : ConstExpr) : C (option Z) :=
  memory <- unwrap (memories t !! index) ;;
  ret (match expr, Memory.idx_type memory with
       | [I32Const offset], Idx32 => Some (wrap 32 offset)
       | [I64Const offset], Idx64 => Some (wrap 64 offset)
       | _, _ => None
       end).

Definition add_segment (data_len : Z) (idx : nat) (init : StaticMemoryInitializer) (i : MemoryInfo) : option MemoryInfo :=
  size ← checked_add u64_MAX (data_size i) data_len;
  end_ ← checked_add u64_MAX (s_offset init) data_len;
  Some (mkInfo size (Z.min (min_addr i) (s_offset init)) (Z.max (max_addr i) end_) (segments i ++ [(idx, init)])).

Definition compile_time_write (index : nat) (init : StaticMemoryInitializer) : C bool :=
  match defined_memory_index t index with
  | None => ret false
  | Some _ =>
      s <- get ;;
      i <- unwrap (info s !! index) ;;
      data_len <- unwrap (checked_sub (s_data init).2 (s_data init).1) ;;
      (if 0 <? data_len then
         i <- unwrap (add_segment data_len (idx s) init i) ;;
         put (mkCompileTime (<[index := i]> (info s)) (idx s))
       else ret tt) ;;;
      modify (fun s => mkCompileTime (info s) (Datatypes.S (idx s))) ;;;
      ret true
  end.

Definition InitMemoryAtCompileTime : InitMemory CompileTime :=
  mkInitMemory (fun index => memory <- unwrap (memories t !! index) ;; ret (Memory.minimum_byte_size memory))
    compile_time_offset compile_time_write.
End compile_time.

Definition no_info : MemoryInfo := mkInfo 0 u64_MAX 0 [].

(** Whether the images are worth making. *)
Fixpoint dense_enough (page_size max_image_size_always_allowed : Z) (ms : list Memory.t) (infos : list MemoryInfo) : option bool :=
  match ms, infos with
  | m :: ms, i :: infos =>
      if 0 <? data_size i then
        image_size ← checked_sub (max_addr i) (min_addr i);
        if Memory.page_size m <? page_size then Some false
        else if (image_size <? Z.min (data_size i * 2) u64_MAX) || (image_size <? max_image_size_always_allowed)
        then dense_enough page_size max_image_size_always_allowed ms infos
        else Some false
      else dense_enough page_size max_image_size_always_allowed ms infos
  | _, _ => Some true
  end.

Section image.
Context (datas : list (list Z)).

(** One segment copied into the image: [resize] and [extend_from_slice], or
    [splice] where the image is long enough. *)
Definition copy_segment (min : Z) (segment : nat * StaticMemoryInitializer) (image : list Z) : option (list Z) :=
  bytes ← datas !! segment.1;
  if negb (zlen bytes =? range_len (s_data segment.2)) then None
  else
    relative ← checked_sub (s_offset segment.2) min;
    offset ← try_from usize_MAX relative;
    let offset := Z.to_nat offset in
    Some (if (length image <? offset)%nat then image ++ replicate (offset - length image) 0 ++ bytes
          else take offset image ++ bytes ++ drop ((offset + length bytes) `min` length image) image).

Fixpoint copy_segments (min : Z) (l : list (nat * StaticMemoryInitializer)) (image : list Z) : option (list Z) :=
  match l with
  | [] => Some image
  | segment :: l => image ← copy_segment min segment image; copy_segments min l image
  end.
End image.

Definition nonzero (b : Z) : Prop := b <> 0.

(** [position] and [rposition] of a nonzero byte. *)
Definition position (l : list Z) : option nat := fst <$> list_find nonzero l.
Definition rposition (l : list Z) : option nat :=
  (fun p => length l - 1 - p.1)%nat <$> list_find nonzero (reverse l).

Definition trim_end (image : list Z) : list Z :=
  match rposition image with Some i => take (i + 1) image | None => image end.
Definition trim_start (image : list Z) (offset : Z) : list Z * Z :=
  match position image with Some i => (drop i image, offset + Z.of_nat i) | None => (image, offset) end.

(** What is pushed for one memory: its new data, its offset and its length. *)
Definition memory_image (datas : list (list Z)) (page_size : Z) (i : MemoryInfo) : option (list (list Z) * Z * Z) :=
  let empty := bool_decide (segments i = []) in
  extent ← (if empty then Some 0 else checked_sub (max_addr i) (min_addr i));
  image ← copy_segments datas (min_addr i) (segments i) [];
  if negb (zlen image =? extent) then None
  else
    let image := trim_end image in
    let '(image, offset) := trim_start image (if empty then 0 else min_addr i) in
    let front := offset mod page_size in
    let padding n := if n =? 0 then [] else [replicate (Z.to_nat n) 0] in
    let offset := offset - front in
    let len := zlen image + front in
    let back := if len mod page_size =? 0 then 0 else page_size - len mod page_size in
    let len := len + back in
    if (offset mod page_size =? 0) && (len mod page_size =? 0)
    then Some (padding front ++ [image] ++ padding back, offset, len)
    else None.

Fixpoint memory_images (datas : list (list Z)) (page_size module_data_size : Z) (infos : list MemoryInfo)
  : option (list (list Z) * list (option StaticMemoryInitializer) * Z) :=
  match infos with
  | [] => Some ([], [], module_data_size)
  | i :: infos =>
      '(pushed, offset, len) ← memory_image datas page_size i;
      len ← try_from u32_MAX len;
      end_ ← checked_add u32_MAX module_data_size len;
      let init := if 0 <? len then Some (mkStaticInit offset (module_data_size, end_)) else None in
      '(rest, map, total) ← memory_images datas page_size end_ infos;
      Some (pushed ++ rest, init :: map, total)
  end.

Definition try_static_init (page_size max_image_size_always_allowed : Z) : M ModuleTranslation Empty_set unit := fun t =>
  match memory_initialization t with
  | StaticMap _ => Ret tt t
  | Segmented _ =>
      match init_memory (InitMemoryAtCompileTime t) (memory_initialization t)
              (mkCompileTime (replicate (length (memories t)) no_info) 0) with
      | Ret true s =>
          match dense_enough page_size max_image_size_always_allowed (memories t) (info s) with
          | Some true =>
              match memory_images (t_data t) page_size 0 (info s) with
              | Some (datas, map, _) =>
                  Ret tt (mkTranslation (memories t) (num_imported_memories t) (StaticMap map) datas
                            (total_data t) (Some page_size))
              | None => Panic
              end
          | Some false => Ret tt t
          | None => Panic
          end
      | Ret false _ => Ret tt t
      | Fail e _ => match e with end
      | Panic => Panic
      end
  end.

(** ** At instantiation *)

(** A memory of the instance: its bytes, and whether they are still to be
    initialized. *)
Record InstanceMemory := mkMemory { bytes : list Z; needs_init : bool }.

Section instantiation.
Context (t : ModuleTranslation) (context : ConstEvalContext).
Abbreviation I := (M (list InstanceMemory) Empty_set).

Definition get_index (val : Val) (ty : IndexType) : option Z :=
  match ty, val with
  | Idx32, VI32 i => Some (wrap 32 i)
  | Idx64, VI64 i => Some (wrap 64 i)
  | _, _ => None
  end.

(** [wasm_data]: a slice of the data section, all data of the module in order. *)
Definition wasm_data (r : Z * Z) : option (list Z) :=
  let section := concat (t_data t) in
  if (0 <=? r.1) && (r.1 <=? r.2) && (r.2 <=? zlen section)
  then Some (take (Z.to_nat (r.2 - r.1)) (drop (Z.to_nat r.1) section)) else None.

Definition instantiation_offset (index : nat) (expr : ConstExpr) : I (option Z) :=
  fun ms =>
    match result_of context expr [] with
    | Ret val _ =>
        match memories t !! index ≫= (fun m => get_index val (Memory.idx_type m)) with
        | Some i => Ret (Some i) ms
        | None => Panic
        end
    | Fail _ _ => Ret None ms
    | Panic => Panic
    end.

Definition instantiation_write (index : nat) (init : StaticMemoryInitializer) : I bool :=
  ms <- get ;;
  memory <- unwrap (ms !! index) ;;
  if negb (bool_decide (defined_memory_index t index = None)) && negb (needs_init memory) then ret true
  else
    src <- unwrap (wasm_data (s_data init)) ;;
    offset <- unwrap (try_from usize_MAX (s_offset init)) ;;
    end_ <- unwrap (checked_add usize_MAX offset (zlen src)) ;;
    rust_assert (end_ <=? zlen (bytes memory)) ;;;
    put (<[index := mkMemory (list_inserts (Z.to_nat offset) src (bytes memory)) (needs_init memory)]> ms) ;;;
    ret true.

Definition InitMemoryAtInstantiation : InitMemory (list InstanceMemory) :=
  mkInitMemory (fun index => ms <- get ;; memory <- unwrap (ms !! index) ;; ret (Some (zlen (bytes memory))))
    instantiation_offset instantiation_write.

Definition initialize_memories : M (list InstanceMemory) InitError unit := fun ms =>
  match init_memory InitMemoryAtInstantiation (memory_initialization t) ms with
  | Ret true ms => Ret tt ms
  | Ret false ms => Fail MemoryInitOutOfBounds ms
  | Fail e _ => match e with end
  | Panic => Panic
  end.
End instantiation.

(** ** Bytes *)

Section bytes.
Implicit Types (l z : list Z) (i a n : nat).

(** The byte at [a] of zeros with [l] written at [i]. *)
Definition byte_at i l a : Z := if (i <=? a)%nat then default 0 (l !! (a - i)%nat) else 0.

Lemma byte_at_inserts i l z a : (i + length l <= length z)%nat ->
  (list_inserts i l z) !! a =
    if decide (i <= a < i + length l)%nat then l !! (a - i)%nat else z !! a.
Proof.
  intros Hle. case_decide as Ha.
  - by rewrite list_lookup_inserts by lia.
  - destruct (decide (a < i)%nat); [by rewrite list_lookup_inserts_lt by lia|].
    by rewrite list_lookup_inserts_ge by lia.
Qed.

Lemma zeros_inserts i l n a : (i + length l <= n)%nat -> (a < n)%nat ->
  (list_inserts i l (replicate n 0)) !! a = Some (byte_at i l a).
Proof.
  intros Hle Ha. rewrite byte_at_inserts by (rewrite length_replicate; lia). unfold byte_at. case_decide as Hc.
  - rewrite (proj2 (Nat.leb_le _ _)) by lia. destruct (l !! (a - i)%nat) eqn:E; [done|].
    apply lookup_ge_None in E. lia.
  - rewrite lookup_replicate_2 by lia. destruct (Nat.leb_spec i a); [|done].
    by rewrite lookup_ge_None_2 by lia.
Qed.

Lemma zeros_inserts_eq i l i' l' n : (i + length l <= n)%nat -> (i' + length l' <= n)%nat ->
  (forall a, byte_at i l a = byte_at i' l' a) ->
  list_inserts i l (replicate n 0) = list_inserts i' l' (replicate n 0).
Proof.
  intros Hl Hl' Heq. apply list_eq. intros a. destruct (decide (a < n)%nat) as [Ha|Ha].
  - by rewrite !zeros_inserts by lia; rewrite Heq.
  - by rewrite !lookup_ge_None_2 by (rewrite length_inserts, length_replicate; lia).
Qed.

Lemma byte_at_ge i l a : (i + length l <= a)%nat -> byte_at i l a = 0.
Proof. intros. unfold byte_at. rewrite lookup_ge_None_2 by lia. by destruct (_ <=? _)%nat. Qed.

Lemma byte_at_app i l l' a : byte_at i (l ++ l') a = if decide (a < i + length l)%nat then byte_at i l a else byte_at (i + length l) l' a.
Proof.
  unfold byte_at. case_decide as Ha.
  - destruct (Nat.leb_spec i a); [|done]. by rewrite lookup_app_l by lia.
  - rewrite !(proj2 (Nat.leb_le _ _)) by lia. rewrite lookup_app_r by lia. do 2 f_equal. lia.
Qed.

Lemma byte_at_zeros i n a : byte_at i (replicate n 0) a = 0.
Proof.
  unfold byte_at. destruct (_ <=? _)%nat; [|done]. destruct (decide (a - i < n)%nat).
  - by rewrite lookup_replicate_2.
  - by rewrite lookup_ge_None_2 by (rewrite length_replicate; lia).
Qed.

(** Trimming and padding with zeros changes no byte. *)
Lemma byte_at_trim_end i l a : byte_at i (trim_end l) a = byte_at i l a.
Proof.
  unfold trim_end, rposition. destruct (list_find nonzero (reverse l)) as [[k y]|] eqn:E; [|done]. cbn [fmap option_fmap option_map fst].
  apply list_find_Some in E as (Hk & _ & Hz). set (r := (length l - 1 - k)%nat).
  pose proof (lookup_lt_Some _ _ _ Hk) as Hlen. rewrite length_reverse in Hlen.
  unfold byte_at. destruct (_ <=? _)%nat; [|done]. destruct (decide (a - i < r + 1)%nat) as [Ha|Ha].
  - by rewrite lookup_take_lt by lia.
  - rewrite lookup_take_ge by lia. destruct (l !! (a - i)%nat) as [b|] eqn:Eb; [|done]. simpl.
    pose proof (lookup_lt_Some _ _ _ Eb). destruct (decide (b = 0)) as [->|Hb]; [done|].
    exfalso. apply (Hz (length l - 1 - (a - i))%nat b); [|unfold r in Ha; lia|exact Hb].
    rewrite reverse_lookup by lia. rewrite <- Eb. f_equal. lia.
Qed.

Lemma trim_end_length l : (length (trim_end l) <= length l)%nat.
Proof. unfold trim_end. destruct (rposition l); [rewrite length_take; lia|lia]. Qed.

Lemma byte_at_drop_zeros i l k a : (forall j, (j < k)%nat -> default 0 (l !! j) = 0) ->
  byte_at (i + k) (drop k l) a = byte_at i l a.
Proof.
  intros Hz. unfold byte_at. destruct (Nat.leb_spec (i + k) a).
  - rewrite (proj2 (Nat.leb_le _ _)) by lia. rewrite lookup_drop. do 2 f_equal. lia.
  - destruct (Nat.leb_spec i a); [|done]. symmetry. apply Hz. lia.
Qed.

Lemma trim_start_spec l off : 0 <= off ->
  let '(l', off') := trim_start l off in
  off <= off' /\ off' + zlen l' = off + zlen l /\
  forall a, byte_at (Z.to_nat off') l' a = byte_at (Z.to_nat off) l a.
Proof.
  intros Hoff. unfold trim_start, position. destruct (list_find nonzero l) as [[k y]|] eqn:E; [|done].
  cbn [fmap option_fmap option_map fst]. apply list_find_Some in E as (Hk & _ & Hz).
  apply lookup_lt_Some in Hk. split; [lia|]. split; [unfold zlen; rewrite length_drop; lia|]. intros a.
  replace (Z.to_nat (off + Z.of_nat k)) with (Z.to_nat off + k)%nat by lia. apply byte_at_drop_zeros.
  intros j Hj. destruct (l !! j) as [b|] eqn:Eb; [|done]. simpl. destruct (decide (b = 0)); [done|]. by destruct (Hz j b Eb Hj).
Qed.

Lemma byte_at_pad i l front back a : (front <= i)%nat ->
  byte_at (i - front) (replicate front 0 ++ l ++ replicate back 0) a = byte_at i l a.
Proof.
  intros Hf. rewrite !byte_at_app, length_replicate. replace (i - front + front)%nat with i by lia.
  repeat case_decide; rewrite ?byte_at_zeros; [|done|].
  - unfold byte_at. by rewrite (proj2 (Nat.leb_gt _ _)) by lia.
  - by rewrite byte_at_ge by lia.
Qed.
End bytes.

(** ** Copying segments *)

(** Segments written to a memory one after the other. *)
Definition apply_segment (datas : list (list Z)) (segment : nat * StaticMemoryInitializer) (z : list Z) : list Z :=
  list_inserts (Z.to_nat (s_offset segment.2)) (default [] (datas !! segment.1)) z.
Definition apply_segments (datas : list (list Z)) (l : list (nat * StaticMemoryInitializer)) (z : list Z) : list Z :=
  foldl (fun z segment => apply_segment datas segment z) z l.

(** A segment with its data, between the addresses [min] and [max]. *)
Definition segment_ok (datas : list (list Z)) (min max : Z) (segment : nat * StaticMemoryInitializer) : Prop :=
  exists d, datas !! segment.1 = Some d /\ zlen d = range_len (s_data segment.2) /\
    0 < zlen d /\ 0 <= min <= s_offset segment.2 /\ s_offset segment.2 + zlen d <= max <= u64_MAX.

(** Where the segments written so far end. *)
Definition ends (datas : list (list Z)) (l : list (nat * StaticMemoryInitializer)) (min : Z) : Z :=
  foldl (fun e segment => Z.max e (s_offset segment.2 + zlen (default [] (datas !! segment.1)))) min l.

Section copy.
Context (datas : list (list Z)) (min max : Z) (n : nat) (Hn : max <= Z.of_nat n).

Lemma apply_segment_length segment z : length (apply_segment datas segment z) = length z.
Proof. apply length_inserts. Qed.

Lemma copy_segment_ok segment image : segment_ok datas min max segment -> min + zlen image <= max ->
  exists image', copy_segment datas min segment image = Some image' /\
    min + zlen image' = Z.max (min + zlen image) (s_offset segment.2 + zlen (default [] (datas !! segment.1))) /\
    min + zlen image' <= max /\
    apply_segment datas segment (list_inserts (Z.to_nat min) image (replicate n 0)) =
      list_inserts (Z.to_nat min) image' (replicate n 0).
Proof.
  intros (d & Ed & Hlen & Hd & Hmin & Hmax) Him. unfold copy_segment. rewrite Ed. cbn [mbind option_bind].
  rewrite <- Hlen, Z.eqb_refl. cbn [negb]. set (o := s_offset segment.2) in *.
  rewrite (proj2 (checked_sub_Some o min (o - min))) by lia. cbn [mbind option_bind].
  unfold zlen in *. rewrite try_from_in by (unfold usize_MAX, u64_MAX in *; lia). cbn [mbind option_bind].
  set (r := Z.to_nat (o - min)). eexists. split; [done|]. change (default [] (Some d)) with d.
  assert (Z.of_nat (length (if (length image <? r)%nat then image ++ replicate (r - length image) 0 ++ d
    else take r image ++ d ++ drop ((r + length d) `min` length image) image)) =
    Z.max (Z.of_nat (length image)) (Z.of_nat (r + length d))) as El.
  { destruct (Nat.ltb_spec (length image) r); rewrite !length_app; [rewrite length_replicate; lia|].
    rewrite length_take, length_drop. lia. }
  rewrite El. split_and!; [lia|lia|].
  assert (Z.to_nat o = (Z.to_nat min + r)%nat) as Eo by lia.
  unfold apply_segment. fold o. rewrite Ed, Eo. change (default [] (Some d)) with d.
  apply list_eq. intros a.
  rewrite byte_at_inserts by (rewrite length_inserts, length_replicate; lia).
  destruct (decide (a < n)%nat) as [Ha|Ha].
  2: { case_decide; [lia|]. by rewrite !lookup_ge_None_2 by (rewrite length_inserts, length_replicate; lia). }
  rewrite !zeros_inserts by lia.
  destruct (Nat.ltb_spec (length image) r) as [Hr|Hr]; rewrite !byte_at_app, ?length_replicate, ?length_take.
  - case_decide as H1.
    + rewrite !decide_False by lia. unfold byte_at. rewrite (proj2 (Nat.leb_le _ _)) by lia.
      replace (a - (Z.to_nat min + length image + (r - length image)))%nat with (a - (Z.to_nat min + r))%nat by lia.
      destruct (d !! _) eqn:E; [done|]. apply lookup_ge_None in E. lia.
    + repeat case_decide; try lia; rewrite ?byte_at_zeros; try done; f_equal; rewrite !byte_at_ge by lia; done.
  - rewrite Nat.min_l by lia. case_decide as H1.
    + rewrite !decide_False, decide_True by lia. unfold byte_at. rewrite (proj2 (Nat.leb_le _ _)) by lia.
      destruct (d !! _) eqn:E; [done|]. apply lookup_ge_None in E. lia.
    + f_equal. destruct (decide (a < Z.to_nat min + r)%nat) as [H2|H2].
      * unfold byte_at. destruct (_ <=? _)%nat eqn:E; [|done]. apply Nat.leb_le in E. by rewrite lookup_take_lt by lia.
      * rewrite decide_False by lia. unfold byte_at. rewrite !(proj2 (Nat.leb_le _ _)) by lia. rewrite lookup_drop.
        destruct (decide (r + length d <= length image)%nat).
        -- do 2 f_equal. lia.
        -- by rewrite !lookup_ge_None_2 by lia.
Qed.

Lemma copy_segments_ok l image : Forall (segment_ok datas min max) l -> min + zlen image <= max ->
  exists image', copy_segments datas min l image = Some image' /\
    min + zlen image' = ends datas l (min + zlen image) /\ min + zlen image' <= max /\
    apply_segments datas l (list_inserts (Z.to_nat min) image (replicate n 0)) =
      list_inserts (Z.to_nat min) image' (replicate n 0).
Proof.
  intros Hl. revert image. induction Hl as [|segment l Hs _ IH]; intros image Him.
  { exists image. by cbn. }
  destruct (copy_segment_ok segment image Hs Him) as (image1 & E1 & Hl1 & Hm1 & Ha1).
  destruct (IH image1 Hm1) as (image' & E & Hlen & Hm & Ha). exists image'. cbn [copy_segments apply_segments foldl ends].
  rewrite E1. cbn [mbind option_bind]. split; [done|]. split; [by rewrite Hlen, Hl1|]. split; [done|].
  rewrite Ha1. exact Ha.
Qed.
End copy.

(** ** The walk at compile time *)

(** What the data section of a module gives: data one after the other, not more than a
    32-bit offset reaches. *)
Record translation_ok (t : ModuleTranslation) : Prop := {
  tr_total : total_data t = zlen (concat (t_data t));
  tr_max : total_data t <= u32_MAX;
  tr_ranges : forall l, memory_initialization t = Segmented l ->
    length l = length (t_data t) /\
    forall k i d, l !! k = Some i -> t_data t !! k = Some d ->
      (memory_index i < length (memories t))%nat /\
      data i = (zlen (concat (take k (t_data t))), zlen (concat (take k (t_data t))) + zlen d);
}.

Lemma concat_take_S (ds : list (list Z)) k d : ds !! k = Some d ->
  concat (take (S k) ds) = concat (take k ds) ++ d.
Proof. intros Hk. rewrite (take_S_r _ _ _ Hk), concat_app. cbn [concat]. by rewrite app_nil_r. Qed.

Lemma concat_split (ds : list (list Z)) k d : ds !! k = Some d ->
  concat ds = concat (take k ds) ++ d ++ concat (drop (S k) ds).
Proof.
  intros Hk. rewrite <- (take_drop_middle ds k d Hk) at 1. rewrite concat_app. cbn [concat]. done.
Qed.

(** Recording a segment keeps the translation in order. *)
Lemma active_segment_ok index expr bs t : translation_ok t -> (index < length (memories t))%nat ->
  (exists l, memory_initialization t = Segmented l) ->
  wp (active_segment index expr bs)
    (fun _ t' => translation_ok t' /\ t_data t' = t_data t ++ [bs] /\ exists l, memory_initialization t' = Segmented l)
    (fun e t' => e = TooMuchData /\ t' = t) t.
Proof.
  intros [Ht Hm Hr] Hi [l El]. unfold active_segment. apply wp_bind, (wp_run _ _ _ _ t t); [done|].
  apply wp_bind. unfold wp, ok_or, mk_range. destruct (try_from u32_MAX (zlen bs)) as [n|] eqn:En; [|done].
  apply try_from_Some in En as [-> _]. cbn [mbind option_bind].
  destruct (checked_add u32_MAX (total_data t) (zlen bs)) as [e|] eqn:Ee; [|done].
  apply checked_add_Some in Ee as [-> He]. cbn [mbind option_bind ret]. rewrite El. cbn [put fst snd].
  destruct (Hr l El) as [Hlen Hk]. split_and!; [|done|by eexists]. split; cbn [total_data t_data memory_initialization memories].
  - rewrite concat_app. cbn [concat]. rewrite app_nil_r, zlen_app. lia.
  - lia.
  - intros l' [= <-]. split; [rewrite !length_app; simpl; lia|]. intros k i d H1 H2.
    apply lookup_snoc_Some in H1, H2. destruct H1 as [[? H1]|[-> <-]], H2 as [[? H2]|[E2 <-]]; try lia.
    + rewrite take_app_le by lia. by apply Hk.
    + rewrite Hlen, take_app_length. cbn [memory_index data]. split; [done|]. f_equal; lia.
Qed.

Lemma ends_base datas l b : 0 <= b -> ends datas l b = Z.max b (ends datas l 0) /\ 0 <= ends datas l 0.
Proof.
  revert b. induction l as [|x l IH]; intros b Hb; cbn [ends foldl]; [lia|].
  destruct (IH (Z.max b (s_offset x.2 + zlen (default [] (datas !! x.1)))) ltac:(lia)) as [E1 H0].
  destruct (IH (Z.max 0 (s_offset x.2 + zlen (default [] (datas !! x.1)))) ltac:(lia)) as [E2 _].
  unfold ends in *. lia.
Qed.

Lemma ends_snoc datas l x b : ends datas (l ++ [x]) b =
  Z.max (ends datas l b) (s_offset x.2 + zlen (default [] (datas !! x.1))).
Proof. unfold ends. by rewrite foldl_app. Qed.

Lemma segment_ok_widen datas min max min' max' x : segment_ok datas min max x -> 0 <= min' <= min -> max <= max' <= u64_MAX ->
  segment_ok datas min' max' x.
Proof. intros (d & ? & ? & ? & ? & ?) ? ?. exists d. split_and!; try done; lia. Qed.

Section compile.
Context (t : ModuleTranslation) (l : list MemoryInitializer).
Context (Ht : translation_ok t) (Hl : memory_initialization t = Segmented l).
Abbreviation datas := (t_data t).

(** The data of segment [k]. *)
Lemma wasm_data_segment k i d : l !! k = Some i -> datas !! k = Some d -> wasm_data t (data i) = Some d.
Proof.
  intros Hk Hd. destruct (tr_ranges t Ht l Hl) as [_ Hr]. destruct (Hr k i d Hk Hd) as [_ ->].
  unfold wasm_data. cbn [fst snd]. set (p := concat (take k datas)).
  pose proof (concat_split datas k d Hd) as E. fold p in E. rewrite E.
  pose proof (zlen_nonneg p). pose proof (zlen_nonneg d). pose proof (zlen_nonneg (concat (drop (S k) datas))).
  rewrite !zlen_app, !(proj2 (Z.leb_le _ _)) by lia. cbn [andb]. f_equal.
  replace (Z.to_nat (zlen p)) with (length p) by (unfold zlen; lia). rewrite drop_app_length.
  replace (Z.to_nat (zlen p + zlen d - zlen p)) with (length d) by (unfold zlen; lia). apply take_app_length.
Qed.

(** One memory's information. *)
Record memory_info_ok (index : nat) (m : Memory.t) (i : MemoryInfo) : Prop := {
  mi_segments : Forall (segment_ok datas (min_addr i) (max_addr i)) (segments i);
  mi_range : 0 <= min_addr i /\ max_addr i <= u64_MAX;
  mi_none : segments i = [] -> i = no_info;
  mi_some : segments i <> [] -> 0 < data_size i /\ min_addr i < max_addr i /\ defined_memory_index t index <> None;
  mi_size : 0 <= data_size i;
  mi_ends : ends datas (segments i) 0 = max_addr i;
  mi_min : forall n, Memory.minimum_byte_size m = Some n -> segments i <> [] -> max_addr i <= n;
}.

Record info_ok (k : nat) (s : CompileTime) : Prop := {
  io_idx : idx s = k;
  io_length : length (info s) = length (memories t);
  io_size : total data_size (info s) <= zlen (concat (take k datas));
  io_memories : forall index m i, memories t !! index = Some m -> info s !! index = Some i -> memory_info_ok index m i;
}.

Lemma info_ok_start : info_ok 0 (mkCompileTime (replicate (length (memories t)) no_info) 0).
Proof.
  split; cbn [idx info]; [done|by rewrite length_replicate| |].
  - rewrite total_zero; [done|]. by intros x [-> _]%elem_of_replicate.
  - intros index m i _ [-> _]%lookup_replicate. by split.
Qed.

(** The list of a memory's segments after another one is written. *)
Definition with_segment (k index : nat) (init : StaticMemoryInitializer) (d : list Z) (j : nat)
    (segs : list (nat * StaticMemoryInitializer)) : list (nat * StaticMemoryInitializer) :=
  if bool_decide (j = index) && (0 <? zlen d) then segs ++ [(k, init)] else segs.

Lemma add_segment_ok k index m i d start range : memory_info_ok index m i ->
  datas !! k = Some d -> range.2 - range.1 = zlen d -> 0 < zlen d -> 0 <= start -> start + zlen d <= u64_MAX ->
  data_size i <= u32_MAX -> zlen d <= u32_MAX ->
  (forall n, Memory.minimum_byte_size m = Some n -> start + zlen d <= n) -> defined_memory_index t index <> None ->
  exists i', add_segment (zlen d) k (mkStaticInit start range) i = Some i' /\ memory_info_ok index m i' /\
    data_size i' = data_size i + zlen d /\ segments i' = segments i ++ [(k, mkStaticInit start range)].
Proof.
  intros [Hs Hr Hnone Hsome H0 He Hmin] Hd Hrange Hpos Hstart Hend Hsz Hdz Hm Hdef.
  assert (data_size i + zlen d <= u64_MAX) by (unfold u32_MAX, u64_MAX in *; lia).
  unfold add_segment. rewrite (proj2 (checked_add_Some u64_MAX (data_size i) (zlen d) (data_size i + zlen d))) by done.
  cbn [mbind option_bind s_offset]. rewrite (proj2 (checked_add_Some _ _ _ (start + zlen d))) by lia. cbn [mbind option_bind].
  eexists. split; [done|]. split; [|done].
  assert (segments i = [] -> min_addr i = u64_MAX /\ max_addr i = 0) as Hn by (by intros ->%Hnone).
  split; cbn [segments min_addr max_addr data_size].
  - apply Forall_app. split.
    + eapply Forall_impl; [exact Hs|]. intros x Hx. eapply segment_ok_widen; [exact Hx|lia|lia].
    + apply Forall_singleton. exists d. cbn [fst snd s_offset s_data]. unfold range_len. split_and!; try done; lia.
  - lia.
  - by destruct (segments i).
  - intros _. split; [lia|]. split; [|done]. lia.
  - lia.
  - rewrite ends_snoc, He. cbn [fst snd s_offset]. rewrite Hd. cbn [default]. done.
  - intros n E _. specialize (Hm n E). destruct (segments i) as [|x xs] eqn:Es.
    + destruct (Hn eq_refl). lia.
    + assert (max_addr i <= n) by (apply Hmin; [done|done]). lia.
Qed.

Lemma total_member {A} (f : A -> Z) (xs : list A) n x : Forall (fun x => 0 <= f x) xs -> xs !! n = Some x -> f x <= total f xs.
Proof.
  intros H. revert n. induction H as [|y ys Hy Hys IH]; intros [|n]; simpl; try done.
  - intros [= ->]. assert (0 <= total f ys) by (clear -Hys; induction Hys; simpl; lia). lia.
  - intros ?%IH. lia.
Qed.

Lemma info_nonneg s k : info_ok k s -> Forall (fun i => 0 <= data_size i) (info s).
Proof.
  intros [_ Hlen _ Hm]. apply Forall_lookup. intros index i Hi. destruct (memories t !! index) as [m|] eqn:Em.
  - by destruct (Hm index m i Em Hi).
  - apply lookup_ge_None in Em. apply lookup_lt_Some in Hi. lia.
Qed.

Lemma total_data_size s k : info_ok k s -> 0 <= total data_size (info s) <= u32_MAX.
Proof.
  intros Hs. pose proof (info_nonneg s k Hs) as Hn. destruct Hs as [_ _ Hsz _]. split.
  - clear -Hn. induction Hn; simpl; lia.
  - pose proof (tr_max t Ht) as H1. rewrite (tr_total t Ht) in H1.
    assert (zlen (concat (take k datas)) <= zlen (concat datas)).
    { rewrite <- (take_drop k datas) at 2. rewrite concat_app, zlen_app. pose proof (zlen_nonneg (concat (drop k datas))). lia. }
    lia.
Qed.

Lemma compile_time_write_ok k s i d m start : info_ok k s -> l !! k = Some i -> datas !! k = Some d ->
  memories t !! memory_index i = Some m -> 0 <= start -> start + zlen d <= u64_MAX ->
  (forall n, Memory.minimum_byte_size m = Some n -> start + zlen d <= n) ->
  match compile_time_write t (memory_index i) (mkStaticInit start (data i)) s with
  | Ret true s' => defined_memory_index t (memory_index i) <> None /\ info_ok (S k) s' /\
      forall j im, info s !! j = Some im -> exists im', info s' !! j = Some im' /\
        segments im' = with_segment k (memory_index i) (mkStaticInit start (data i)) d j (segments im)
  | Ret false s' => True
  | _ => False
  end.
Proof.
  intros Hs Hk Hd Hm Hstart Hend Hmin. pose proof Hs as [Hidx Hlen Hsz Hmem].
  destruct (tr_ranges t Ht l Hl) as [_ Hr]. destruct (Hr k i d Hk Hd) as [_ Hdata].
  assert ((data i).2 - (data i).1 = zlen d) as Hrange by (rewrite Hdata; simpl; lia).
  pose proof (zlen_nonneg d) as Hd0.
  assert (zlen (concat (take (S k) datas)) = zlen (concat (take k datas)) + zlen d) as HS.
  { by rewrite (concat_take_S _ _ _ Hd), zlen_app. }
  unfold compile_time_write. destruct (defined_memory_index t (memory_index i)) as [di|] eqn:Edef; [|done].
  destruct (info s !! memory_index i) as [im|] eqn:Eim.
  2: { apply lookup_ge_None in Eim. apply lookup_lt_Some in Hm. lia. }
  unfold bind, get. rewrite Eim. cbn [unwrap ret s_data].
  rewrite (proj2 (checked_sub_Some _ _ (zlen d))) by lia. cbn [unwrap ret].
  destruct (Z.ltb_spec 0 (zlen d)) as [Hpos|Hzero].
  - pose proof (total_data_size s k Hs) as Htot. pose proof (total_member _ _ _ _ (info_nonneg s k Hs) Eim) as Hsi.
    assert (zlen d <= u32_MAX) as Hdz.
    { pose proof (tr_max t Ht) as H1. rewrite (tr_total t Ht), (concat_split datas k d Hd), !zlen_app in H1.
      pose proof (zlen_nonneg (concat (take k datas))). pose proof (zlen_nonneg (concat (drop (S k) datas))). lia. }
    destruct (add_segment_ok k (memory_index i) m im d start (data i)) as (im' & Ea & Hok & Hds & Hsg);
      [by apply Hmem|done|done|lia..|done| |].
    { by rewrite Edef. }
    rewrite Hidx, Ea. cbn [unwrap ret put modify info idx]. split; [done|]. split; [split; cbn [idx info]|].
    + done.
    + by rewrite length_insert.
    + rewrite (total_insert _ _ _ _ _ Eim), Hds, HS. lia.
    + intros j m' i' Hj. rewrite list_lookup_insert_Some. intros [(<- & -> & _)|[_ Hi']]; [|by apply Hmem].
      by simplify_eq.
    + intros j im0 Hj. unfold with_segment. rewrite (proj2 (Z.ltb_lt _ _) Hpos), andb_true_r.
      rewrite list_lookup_insert. destruct (decide (memory_index i = j)) as [<-|Hne].
      * exists im'. rewrite decide_True by (split; [done|by eapply lookup_lt_Some]). rewrite bool_decide_true by done.
        simplify_eq. done.
      * exists im0. rewrite decide_False by naive_solver. by rewrite bool_decide_false by done.
  - assert (zlen d = 0) as Hz by lia. cbn [modify put ret info idx]. split; [done|]. split; [split; cbn [idx info]|].
    + by rewrite Hidx.
    + done.
    + lia.
    + done.
    + intros j im0 Hj. exists im0. split; [done|]. unfold with_segment. by rewrite Hz, andb_false_r.
Qed.
End compile.

(** One step of the walk at compile time: it gives up, or collects the segment. *)
Lemma compile_step t l k i r s : translation_ok t -> memory_initialization t = Segmented l ->
  drop k l = i :: r -> info_ok t k s ->
  (exists s', init_segments (InitMemoryAtCompileTime t) (i :: r) s = Ret false s') \/
  exists start d m s2, l !! k = Some i /\ t_data t !! k = Some d /\ memories t !! memory_index i = Some m /\
    range_len (data i) = zlen d /\
    compile_time_offset t (memory_index i) (offset i) s = Ret (Some start) s /\ 0 <= start /\ start + zlen d <= u64_MAX /\
    (forall n, Memory.minimum_byte_size m = Some n -> start + zlen d <= n) /\
    info_ok t (S k) s2 /\
    (forall j im, info s !! j = Some im -> exists im', info s2 !! j = Some im' /\
       segments im' = with_segment k (memory_index i) (mkStaticInit start (data i)) d j (segments im)) /\
    init_segments (InitMemoryAtCompileTime t) (i :: r) s = init_segments (InitMemoryAtCompileTime t) r s2.
Proof.
  intros Ht Hl Hr Hs.
  assert (l !! k = Some i) as Hk by (by rewrite <- (Nat.add_0_r k), <- lookup_drop, Hr).
  destruct (tr_ranges t Ht l Hl) as [Hlen Hrg].
  destruct (lookup_lt_is_Some_2 (t_data t) k) as [d Hd]; [rewrite <- Hlen; by eapply lookup_lt_Some|].
  destruct (Hrg k i d Hk Hd) as [Hidx Hdata].
  assert (range_len (data i) = zlen d) as Hrl by (rewrite Hdata; unfold range_len; cbn; pose proof (zlen_nonneg d); lia).
  destruct (lookup_lt_is_Some_2 (memories t) (memory_index i) Hidx) as [m Em].
  cbn [init_segments]. unfold bind at 1 4. cbn [eval_offset InitMemoryAtCompileTime].
  destruct (compile_time_offset t (memory_index i) (offset i) s) as [[start|] s1|[]|] eqn:Eo; [|by left; eexists|].
  2: { revert Eo. unfold compile_time_offset, bind. rewrite Em. done. }
  assert (s1 = s /\ 0 <= start) as [-> Hst].
  { revert Eo. unfold compile_time_offset, bind. rewrite Em. cbn [unwrap ret]. intros [= E ->]. split; [done|].
    destruct (offset i) as [|op [|]]; try done; [|by destruct op].
    destruct op, (Memory.idx_type m); try done; injection E as <-; apply wrap_range; lia. }
  rewrite Hrl. destruct (checked_add u64_MAX start (zlen d)) as [e|] eqn:Ee; [|by left; eexists].
  apply checked_add_Some in Ee as [-> Hend].
  cbn [memory_size_in_bytes write InitMemoryAtCompileTime]. unfold bind. rewrite Em. cbn [unwrap ret].
  destruct (match Memory.minimum_byte_size m with Some max => max <? start + zlen d | None => false end) eqn:Emin; [by left; eexists|].
  assert (forall n, Memory.minimum_byte_size m = Some n -> start + zlen d <= n) as Hmin.
  { intros n E. rewrite E in Emin. apply Z.ltb_ge in Emin. lia. }
  pose proof (compile_time_write_ok t l Ht Hl k s i d m start Hs Hk Hd Em Hst Hend Hmin) as Hcw.
  destruct (compile_time_write t (memory_index i) (mkStaticInit start (data i)) s) as [[|] s2|[]|]; [|by left; eexists|done].
  destruct Hcw as (_ & Hs2 & Hseg). right. exists start, d, m, s2. by split_and!.
Qed.

Lemma drop_tail {A} k (l : list A) x r : drop k l = x :: r -> drop (S k) l = r.
Proof. intros E. by rewrite <- Nat.add_1_r, <- drop_drop, E. Qed.

(** The walk at compile time alone. *)
Lemma init_segments_info t l : translation_ok t -> memory_initialization t = Segmented l ->
  forall r s k, drop k l = r -> info_ok t k s ->
  match init_segments (InitMemoryAtCompileTime t) r s with
  | Ret true s' => info_ok t (k + length r) s'
  | Ret false _ => True
  | _ => False
  end.
Proof.
  intros Ht Hl r. induction r as [|i r IH]; intros s k Hr Hs.
  { cbn [init_segments ret length]. by rewrite Nat.add_0_r. }
  destruct (compile_step t l k i r s Ht Hl Hr Hs) as [[s' ->]|(? & ? & ? & s2 & _ & _ & _ & _ & _ & _ & _ & _ & Hs2 & _ & ->)]; [done|].
  cbn [length]. rewrite Nat.add_succ_r. by apply (IH s2 (S k)); [eapply drop_tail|].
Qed.

(** ** Compile time against instantiation *)

(** Memories before their initialization: those the module defines are zeros, and
    none is smaller than its minimum. *)
Definition fresh (t : ModuleTranslation) (ms : list InstanceMemory) : Prop :=
  length ms = length (memories t) /\
  forall j m rt, memories t !! j = Some m -> ms !! j = Some rt ->
    needs_init rt = true /\ zlen (bytes rt) <= usize_MAX /\
    (exists n, Memory.minimum_byte_size m = Some n /\ n <= zlen (bytes rt)) /\
    (defined_memory_index t j <> None -> bytes rt = replicate (length (bytes rt)) 0).

Section simulation.
Context (t : ModuleTranslation) (l : list MemoryInitializer) (context : ConstEvalContext).
Context (Ht : translation_ok t) (Hl : memory_initialization t = Segmented l).
Context (ms0 : list InstanceMemory) (Hfresh : fresh t ms0).
Abbreviation datas := (t_data t).
Abbreviation CT := (InitMemoryAtCompileTime t).
Abbreviation RT := (InitMemoryAtInstantiation t context).

(** The memories after the segments collected so far. *)
Definition written (infos : list MemoryInfo) (ms : list InstanceMemory) : Prop :=
  length ms = length ms0 /\
  forall j im rt0, infos !! j = Some im -> ms0 !! j = Some rt0 ->
    ms !! j = Some (mkMemory (apply_segments datas (segments im) (bytes rt0)) true).

Lemma offset_agrees index expr s start s' ms : compile_time_offset t index expr s = Ret (Some start) s' ->
  s' = s /\ 0 <= start <= u64_MAX /\ instantiation_offset t context index expr ms = Ret (Some start) ms.
Proof.
  unfold compile_time_offset, bind, unwrap, instantiation_offset. destruct (memories t !! index) as [m|]; [|done].
  cbn [ret]. intros [= E ->]. split; [done|].
  destruct expr as [|op [|op2 expr]]; try done; [|by destruct op].
  destruct op, (Memory.idx_type m) eqn:Ei; try done; injection E as <-; unfold result_of, eval; cbn [try_simple const_eval ret mbind option_bind get_index];
    rewrite Ei; cbn [get_index]; (split; [|done]).
  - pose proof (wrap_range 32 ltac:(lia) i). unfold u64_MAX. lia.
  - pose proof (wrap_range 64 ltac:(lia) i). unfold u64_MAX. lia.
Qed.

Lemma apply_segments_length segs z : length (apply_segments datas segs z) = length z.
Proof. revert z. induction segs as [|x segs IH]; intros z; [done|]. cbn. unfold apply_segments in IH. by rewrite IH, apply_segment_length. Qed.

Lemma apply_segments_snoc segs x z :
  apply_segments datas (segs ++ [x]) z = apply_segment datas x (apply_segments datas segs z).
Proof. unfold apply_segments. by rewrite foldl_app. Qed.

Lemma instantiation_write_agrees k i d start infos ms rt0 im : l !! k = Some i -> datas !! k = Some d ->
  0 <= start -> written infos ms -> infos !! memory_index i = Some im -> ms0 !! memory_index i = Some rt0 ->
  start + zlen d <= zlen (bytes rt0) -> zlen (bytes rt0) <= usize_MAX ->
  instantiation_write t (memory_index i) (mkStaticInit start (data i)) ms =
    Ret true (<[memory_index i := mkMemory (list_inserts (Z.to_nat start) d (apply_segments datas (segments im) (bytes rt0))) true]> ms).
Proof.
  intros Hk Hd Hs [_ Hw] Him Hrt Hend Hmax. unfold instantiation_write, bind, get. cbn [ret].
  rewrite (Hw _ _ _ Him Hrt). cbn [unwrap ret needs_init negb]. rewrite andb_false_r.
  cbn [s_data s_offset]. rewrite (wasm_data_segment t l Ht Hl k i d Hk Hd). cbn [unwrap ret].
  pose proof (zlen_nonneg d). rewrite try_from_in by lia. cbn [unwrap ret].
  rewrite (proj2 (checked_add_Some usize_MAX start (zlen d) (start + zlen d))) by lia. cbn [unwrap ret bytes].
  assert (zlen (apply_segments datas (segments im) (bytes rt0)) = zlen (bytes rt0)) as ->.
  { unfold zlen. by rewrite apply_segments_length. }
  rewrite (proj2 (Z.leb_le _ _)) by lia. reflexivity.
Qed.

(** Writing a segment that was collected. *)
Lemma written_step k i d start s s2 ms rt0 im : written (info s) ms -> info_ok t k s -> info_ok t (S k) s2 -> datas !! k = Some d ->
  ms0 !! memory_index i = Some rt0 -> info s !! memory_index i = Some im ->
  (forall j im, info s !! j = Some im -> exists im', info s2 !! j = Some im' /\
     segments im' = with_segment k (memory_index i) (mkStaticInit start (data i)) d j (segments im)) ->
  written (info s2)
    (<[memory_index i := mkMemory (list_inserts (Z.to_nat start) d (apply_segments datas (segments im) (bytes rt0))) true]> ms).
Proof.
  intros Hw Hs Hs2 Hd Ert Eim Hseg. pose proof (proj2 Hw _ _ _ Eim Ert) as Ems.
  split; [by rewrite length_insert, (proj1 Hw)|]. intros j im2 rtj Ej Ertj.
  destruct (lookup_lt_is_Some_2 (info s) j) as [imj Eimj].
  { rewrite (io_length _ _ _ Hs), <- (io_length _ _ _ Hs2). by eapply lookup_lt_Some. }
  destruct (Hseg j imj Eimj) as (im' & Ej' & Esg). rewrite Ej in Ej'. injection Ej' as <-. rewrite Esg.
  unfold with_segment. case_bool_decide as Hj.
  - subst j. simplify_eq. rewrite list_lookup_insert_eq by (by eapply lookup_lt_Some). cbn [andb]. do 2 f_equal.
    destruct (Z.ltb_spec 0 (zlen d)) as [Hp|Hz].
    + rewrite apply_segments_snoc. unfold apply_segment. cbn [fst snd s_offset]. by rewrite Hd.
    + destruct d; [done|unfold zlen in Hz; simpl in Hz; lia].
  - rewrite list_lookup_insert_ne by done. by apply (proj2 Hw).
Qed.

(** A walk that succeeds at compile time succeeds at instantiation, and writes what
    was collected. *)
Lemma init_segments_agree r s k ms : drop k l = r -> info_ok t k s -> written (info s) ms ->
  match init_segments CT r s with
  | Ret true s' => info_ok t (k + length r) s' /\
      exists ms', init_segments RT r ms = Ret true ms' /\ written (info s') ms'
  | Ret false _ => True
  | _ => False
  end.
Proof.
  revert s k ms. induction r as [|i r IH]; intros s k ms Hr Hs Hw.
  { cbn [init_segments ret length]. rewrite Nat.add_0_r. eauto. }
  destruct (compile_step t l k i r s Ht Hl Hr Hs) as
    [[s' ->]|(start & d & m & s2 & Hk & Hd & Em & Hrl & Eo & Hst & Hend & Hmin & Hs2 & Hseg & ->)]; [done|].
  pose proof (lookup_lt_Some _ _ _ Em) as Hidx.
  destruct (lookup_lt_is_Some_2 ms0 (memory_index i)) as [rt0 Ert]; [by rewrite (proj1 Hfresh)|].
  destruct (lookup_lt_is_Some_2 (info s) (memory_index i)) as [im Eim]; [by rewrite (io_length _ _ _ Hs)|].
  destruct (proj2 Hfresh _ _ _ Em Ert) as (Hni & Hus & (n & En & Hn) & _). specialize (Hmin n En).
  pose proof (proj2 Hw _ _ _ Eim Ert) as Ems. pose proof (zlen_nonneg d) as Hd0.
  destruct (offset_agrees _ _ _ _ _ ms Eo) as (_ & _ & Ero).
  pose proof (instantiation_write_agrees k i d start (info s) ms rt0 im Hk Hd Hst Hw Eim Ert ltac:(lia) Hus) as Hiw.
  set (ms1 := <[memory_index i := _]> ms) in Hiw.
  assert (written (info s2) ms1) as Hw1 by (by apply (written_step k i d start s s2 ms rt0 im)).
  specialize (IH s2 (S k) ms1 (drop_tail _ _ _ _ Hr) Hs2 Hw1).
  destruct (init_segments CT r s2) as [[|] s3|?|]; [|done..]. destruct IH as [Hs3 (ms3 & E3 & Hw3)].
  split; [cbn [length]; by rewrite Nat.add_succ_r|]. exists ms3. split; [|done].
  cbn [init_segments]. unfold bind at 1. cbn [eval_offset InitMemoryAtInstantiation]. rewrite Ero, Hrl.
  rewrite (proj2 (checked_add_Some u64_MAX start (zlen d) (start + zlen d))) by lia.
  unfold bind at 1. cbn [memory_size_in_bytes InitMemoryAtInstantiation]. unfold bind at 1 2, get. rewrite Ems. cbn [unwrap ret bytes].
  assert (zlen (apply_segments datas (segments im) (bytes rt0)) = zlen (bytes rt0)) as ->.
  { unfold zlen. by rewrite apply_segments_length. }
  rewrite (proj2 (Z.ltb_ge _ _)) by lia. unfold bind at 1. cbn [write InitMemoryAtInstantiation]. by rewrite Hiw.
Qed.
End simulation.

(** ** The images *)

Definition padding (n : Z) : list (list Z) := if n =? 0 then [] else [replicate (Z.to_nat n) 0].

Lemma concat_padding n : 0 <= n -> concat (padding n) = replicate (Z.to_nat n) 0.
Proof.
  intros. unfold padding. destruct (Z.eqb_spec n 0) as [-> |]; [done|]. cbn [concat]. by rewrite app_nil_r.
Qed.

(** Rounding a range out to whole pages. *)
Lemma round_range page off len : 0 < page -> 0 <= off -> 0 <= len ->
  let front := off mod page in
  let len1 := len + front in
  let back := if len1 mod page =? 0 then 0 else page - len1 mod page in
  0 <= front < page /\ 0 <= back < page /\ (page | off - front) /\ (page | len1 + back) /\ front <= off.
Proof.
  intros Hp Ho Hl front len1 back. unfold front, back.
  pose proof (Z.mod_pos_bound off page Hp). pose proof (Z.mod_pos_bound len1 page Hp).
  pose proof (Z.mod_le off page Ho Hp).
  split; [done|]. split; [destruct (Z.eqb_spec (len1 mod page) 0); lia|]. split; [|split; [|done]].
  - exists (off / page). pose proof (Z.div_mod off page). lia.
  - destruct (Z.eqb_spec (len1 mod page) 0) as [E|E].
    + rewrite Z.add_0_r. by apply Z.mod_divide; [lia|].
    + exists (len1 / page + 1). pose proof (Z.div_mod len1 page ltac:(lia)) as Hd. rewrite Z.mul_add_distr_r, Z.mul_1_l, (Z.mul_comm (len1 / page)). clearbody len1. clear back. lia.
Qed.

Lemma aligned_le page x y n : 0 < page -> (page | x) -> (page | y) -> (page | n) -> x + y < n + page -> x + y <= n.
Proof.
  intros Hp [a ->] [b ->] [c ->] H. assert (a + b < c + 1) by (apply (Z.mul_lt_mono_pos_r page); lia).
  rewrite <- Z.mul_add_distr_r. apply Z.mul_le_mono_nonneg_r; lia.
Qed.

Section images.
Context (t : ModuleTranslation) (page : Z) (Hpage : 0 < page).
Abbreviation datas := (t_data t).

(** The image of a memory: whole pages in the memory, and the bytes of its segments. *)
Definition image_ok (m : Memory.t) (im : MemoryInfo) (image : list Z) (off : Z) : Prop :=
  0 <= off /\ (page | off) /\ (page | zlen image) /\
  (segments im = [] -> image = []) /\
  zlen image <= Z.max 0 (max_addr im - min_addr im) + 2 * page /\
  (forall n, Memory.minimum_byte_size m = Some n -> (page | n) -> segments im <> [] -> off + zlen image <= n) /\
  forall n : nat, max_addr im <= Z.of_nat n -> off + zlen image <= Z.of_nat n ->
    apply_segments datas (segments im) (replicate n 0) = list_inserts (Z.to_nat off) image (replicate n 0).

Lemma round_image_ok m im image off min : 0 <= off ->
  (segments im = [] -> image = [] /\ off = 0) -> min <= off -> off + zlen image <= max_addr im \/ segments im = [] ->
  (segments im <> [] -> min = min_addr im) ->
  (forall n, Memory.minimum_byte_size m = Some n -> segments im <> [] -> max_addr im <= n) ->
  (forall n : nat, max_addr im <= Z.of_nat n ->
    apply_segments datas (segments im) (replicate n 0) = list_inserts (Z.to_nat off) image (replicate n 0)) ->
  let front := off mod page in
  let len := zlen image + front in
  let back := if len mod page =? 0 then 0 else page - len mod page in
  image_ok m im (concat (padding front ++ [image] ++ padding back)) (off - front) /\
  zlen (concat (padding front ++ [image] ++ padding back)) = len + back.
Proof.
  intros Hoff Hempty Hmin Hmax Hm Hn Happ front len back.
  assert (0 <= front < page /\ 0 <= back < page /\ (page | off - front) /\ (page | len + back) /\ front <= off)
    as (Hf & Hb & Hd1 & Hd2 & Hfo) by exact (round_range page off (zlen image) Hpage Hoff (zlen_nonneg _)).
  rewrite !concat_app, !concat_padding by lia. cbn [concat]. rewrite app_nil_r.
  assert (zlen (replicate (Z.to_nat front) 0 ++ image ++ replicate (Z.to_nat back) 0) = len + back) as El.
  { rewrite !zlen_app. unfold zlen. rewrite !length_replicate. unfold len, zlen. lia. }
  split; [|exact El]. split; [lia|]. rewrite El. split; [done|]. split; [done|].
  pose proof (zlen_nonneg image) as H0. split_and!.
  - intros E. destruct (Hempty E) as [Ei Eo]. assert (front = 0) as Ef by (unfold front; rewrite Eo; by apply Z.mod_0_l; lia).
    assert (back = 0) as Ebk by (unfold back, len; rewrite Ef, Ei; done). by rewrite Ef, Ebk, Ei.
  - destruct (decide (segments im = [])) as [E|E].
    + destruct (Hempty E) as [Ei Eo]. unfold len. rewrite Ei. unfold zlen. simpl. lia.
    + destruct Hmax as [Hmax|]; [|done]. specialize (Hm E). unfold len. lia.
  - intros n En Hdn Hs. destruct Hmax as [Hmax|]; [|done]. specialize (Hn n En Hs).
    apply (aligned_le page); try done. unfold len. lia.
  - intros n Hmx Hle. rewrite Happ by done. apply zeros_inserts_eq.
    + unfold zlen in *. destruct Hmax as [|E]; [lia|]. destruct (Hempty E) as [-> ->]. simpl. lia.
    + unfold zlen in *. lia.
    + intros a. replace (Z.to_nat (off - front)) with (Z.to_nat off - Z.to_nat front)%nat by lia. rewrite byte_at_pad; [done|lia].
Qed.

Lemma memory_image_ok index m im : memory_info_ok t index m im ->
  exists pushed off len, memory_image datas page im = Some (pushed, off, len) /\ len = zlen (concat pushed) /\
    image_ok m im (concat pushed) off.
Proof.
  intros [Hs Hr Hnone Hsome H0 He Hmin]. unfold memory_image.
  assert (exists image, copy_segments datas (min_addr im) (segments im) [] = Some image /\
    (if bool_decide (segments im = []) then Some 0 else checked_sub (max_addr im) (min_addr im)) = Some (zlen image) /\
    (segments im = [] -> image = []) /\
    (segments im <> [] -> min_addr im + zlen image = max_addr im) /\
    forall n : nat, max_addr im <= Z.of_nat n ->
      apply_segments datas (segments im) (replicate n 0) = list_inserts (Z.to_nat (min_addr im)) image (replicate n 0))
    as (image & -> & -> & Hie & Hil & Hia).
  { destruct (decide (segments im = [])) as [E|E].
    - exists []. rewrite E, bool_decide_true by done. cbn. split_and!; try done.
    - destruct (Hsome E) as (_ & Hlt & _).
      destruct (copy_segments_ok datas (min_addr im) (max_addr im) (Z.to_nat (max_addr im)) ltac:(lia) (segments im) [] Hs
        ltac:(unfold zlen; simpl; lia)) as (image & Ei & Hl & Hmx & _).
      replace (min_addr im + zlen []) with (min_addr im) in Hl by (unfold zlen; simpl; lia).
      destruct (ends_base datas (segments im) (min_addr im) ltac:(lia)) as [Eb _]. rewrite Eb, He in Hl.
      exists image. rewrite bool_decide_false by done. split; [done|]. split; [apply checked_sub_Some; lia|].
      split; [done|]. split; [intros _; lia|]. intros n Hn.
      destruct (copy_segments_ok datas (min_addr im) (max_addr im) n Hn (segments im) [] Hs
        ltac:(unfold zlen; simpl; lia)) as (image' & Ei' & _ & _ & Ha). rewrite Ei in Ei'. injection Ei' as <-.
      rewrite <- Ha. by destruct (Z.to_nat (min_addr im)). }
  cbn [mbind option_bind]. rewrite Z.eqb_refl. cbn [negb].
  set (off0 := if bool_decide (segments im = []) then 0 else min_addr im).
  assert (0 <= off0) as Hoff0 by (unfold off0; case_bool_decide; lia).
  pose proof (trim_start_spec (trim_end image) off0 Hoff0) as Htrim. unfold off0 in Htrim |- *.
  destruct (trim_start (trim_end image) _) as [image' off] eqn:Et. fold off0 in Htrim, Et.
  destruct Htrim as (Hoff & Hlen & Hbytes).
  assert (zlen (trim_end image) <= zlen image) as Hte by (unfold zlen; pose proof (trim_end_length image); lia).
  assert (segments im = [] -> image' = [] /\ off = 0) as Hem.
  { intros E. specialize (Hie E). unfold off0 in Et. rewrite bool_decide_true in Et by done. subst image. by injection Et as <- <-. }
  destruct (round_image_ok m im image' off off0) as [Hok El]; try done.
  - lia.
  - destruct (decide (segments im = [])) as [|E]; [by right|left]. specialize (Hil E).
    unfold off0 in Hlen. rewrite bool_decide_false in Hlen by done. lia.
  - intros E. unfold off0. by rewrite bool_decide_false.
  - intros n Hn. rewrite (Hia n Hn). destruct (decide (segments im = [])) as [E|E].
    + destruct (Hem E) as [-> ->]. rewrite (Hie E). by destruct (Z.to_nat (min_addr im)).
    + specialize (Hil E). unfold off0 in *. rewrite bool_decide_false in * by done.
      apply zeros_inserts_eq; [unfold zlen in *; lia..|]. intros a. by rewrite Hbytes, byte_at_trim_end.
  - destruct (round_range page off (zlen image') Hpage ltac:(lia) (zlen_nonneg _)) as (_ & _ & Hd1 & Hd2 & _).
    rewrite (proj2 (Z.eqb_eq ((off - off mod page) mod page) 0)) by (by apply Z.mod_divide; [lia|]).
    rewrite (proj2 (Z.eqb_eq ((zlen image' + off mod page + _) mod page) 0)) by (by apply Z.mod_divide; [lia|]).
    cbn [andb]. do 3 eexists. split; [done|]. unfold padding in El. by rewrite El.
Qed.
End images.

(** ** All memories *)

Section all_images.
Context (t : ModuleTranslation) (page : Z) (Hpage : 0 < page).
Abbreviation datas := (t_data t).

Definition weight (im : MemoryInfo) : Z := Z.max 0 (max_addr im - min_addr im) + 2 * page.

(** The initializer made for a memory, with its image in the data section. *)
Definition initializer_ok (section : list Z) (start : Z) (m : Memory.t) (im : MemoryInfo) (init : option StaticMemoryInitializer) : Prop :=
  exists image off pre post, image_ok t page m im image off /\ section = pre ++ image ++ post /\
    init = if 0 <? zlen image then Some (mkStaticInit off (start + zlen pre, start + zlen pre + zlen image)) else None.

Lemma memory_images_ok infos k start : 0 <= start -> start + total weight infos <= u32_MAX ->
  (forall j im, infos !! j = Some im -> exists m, memories t !! (k + j)%nat = Some m /\ memory_info_ok t (k + j) m im) ->
  exists pushed map, memory_images datas page start infos = Some (pushed, map, start + zlen (concat pushed)) /\
    length map = length infos /\
    forall j im m, infos !! j = Some im -> memories t !! (k + j)%nat = Some m ->
      exists init, map !! j = Some init /\ initializer_ok (concat pushed) start m im init.
Proof.
  revert k start. induction infos as [|im infos IH]; intros k start H0 Htot Hinfo.
  { exists [], []. cbn. split; [do 2 f_equal; unfold zlen; simpl; lia|done]. }
  assert (0 <= total weight infos) as Hw0 by (apply total_nonneg; unfold weight; lia).
  cbn [total] in Htot.
  destruct (Hinfo 0%nat im eq_refl) as (m & Em & Hm). rewrite Nat.add_0_r in Em, Hm.
  destruct (memory_image_ok t page Hpage k m im Hm) as (p & off & len & Ei & Elen & Hok).
  pose proof Hok as (Hoff & _ & _ & _ & Hlen & _). fold (weight im) in Hlen. pose proof (zlen_nonneg (concat p)) as Hp0.
  destruct (IH (S k) (start + len)) as (pushed & map & Er & Hl & Hmap); [lia|lia| |].
  { intros j im' Hj. rewrite Nat.add_succ_comm. by apply Hinfo. }
  cbn [memory_images]. rewrite Ei. cbn [mbind option_bind].
  rewrite try_from_in by lia. cbn [mbind option_bind].
  rewrite (proj2 (checked_add_Some u32_MAX start len (start + len))) by lia. cbn [mbind option_bind]. rewrite Er. cbn [mbind option_bind].
  do 2 eexists. split; [rewrite concat_app, zlen_app; do 2 f_equal; lia|]. split; [simpl; by rewrite Hl|].
  intros [|j] im' m' Hj Ej.
  - injection Hj as <-. rewrite Nat.add_0_r in Ej. simplify_eq. eexists. split; [done|].
    exists (concat p), off, [], (concat pushed). rewrite concat_app. split; [done|]. split; [done|].
    change (zlen []) with 0. rewrite Z.add_0_r. done.
  - rewrite Nat.add_succ_r in Ej. destruct (Hmap j im' m' Hj Ej) as (init & Einit & image & off' & pre & post & Himg & Esec & ->).
    eexists. split; [exact Einit|]. exists image, off', (concat p ++ pre), post.
    rewrite concat_app, Esec, <- app_assoc, zlen_app, <- Elen. split_and!; try done.
    by rewrite (Z.add_assoc start).
Qed.

(** What passes the test of density has a bounded weight and pages that are the
    memory's. *)
Lemma dense_enough_ok max_allowed infos k : 0 <= max_allowed ->
  (forall j im, infos !! j = Some im -> exists m, memories t !! (k + j)%nat = Some m /\ memory_info_ok t (k + j) m im) ->
  length (drop k (memories t)) = length infos ->
  match dense_enough page max_allowed (drop k (memories t)) infos with
  | Some true => total weight infos <= 2 * total data_size infos + Z.of_nat (length infos) * (max_allowed + 2 * page) /\
      forall j im m, infos !! j = Some im -> memories t !! (k + j)%nat = Some m -> segments im <> [] -> page <= Memory.page_size m
  | Some false => True
  | None => False
  end.
Proof.
  intros Hmax. revert k. induction infos as [|im infos IH]; intros k Hinfo Hlen.
  { destruct (drop k (memories t)); [|done]. cbn. split; [lia|done]. }
  destruct (drop k (memories t)) as [|m ms] eqn:Ed; [done|].
  assert (memories t !! k = Some m) as Em by (by rewrite <- (Nat.add_0_r k), <- lookup_drop, Ed).
  assert (drop (S k) (memories t) = ms) as Ed' by (by rewrite <- Nat.add_1_r, <- drop_drop, Ed).
  destruct (Hinfo 0%nat im eq_refl) as (m' & Em' & [Hs Hr Hnone Hsome H0 He Hmin]). rewrite Nat.add_0_r in Em'.
  assert (m = m') as -> by congruence. specialize (IH (S k)). rewrite Ed' in IH.
  lapply IH; [clear IH; intros IH|intros j im' Hj; rewrite Nat.add_succ_comm; by apply Hinfo].
  lapply IH; [clear IH; intros IH|by injection Hlen].
  cbn [dense_enough total length].
  assert ((segments im <> [] -> page <= Memory.page_size m') ->
    weight im <= 2 * data_size im + (max_allowed + 2 * page) ->
    match dense_enough page max_allowed ms infos with
    | Some true => weight im + total weight infos <= 2 * (data_size im + total data_size infos) + Z.of_nat (S (length infos)) * (max_allowed + 2 * page) /\
        forall j im0 m, (im :: infos) !! j = Some im0 -> memories t !! (k + j)%nat = Some m -> segments im0 <> [] -> page <= Memory.page_size m
    | Some false => True
    | None => False
    end) as Hgo.
  { intros Hps Hwt. destruct (dense_enough page max_allowed ms infos) as [[|]|]; [|done..]. destruct IH as [Ht Hp]. split; [lia|].
    intros [|j] im0 m0 Hj Ej.
    - injection Hj as <-. rewrite Nat.add_0_r in Ej. simplify_eq. done.
    - rewrite Nat.add_succ_r in Ej. exact (Hp j im0 m0 Hj Ej). }
  destruct (Z.ltb_spec 0 (data_size im)) as [Hd|Hd].
  - assert (segments im <> []) as Hne by (intros E; rewrite (Hnone E) in Hd; done).
    destruct (Hsome Hne) as (_ & Hlt & _). rewrite (proj2 (checked_sub_Some _ _ (max_addr im - min_addr im))) by lia.
    cbn [mbind option_bind]. destruct (Z.ltb_spec (Memory.page_size m') page); [done|].
    destruct (_ || _) eqn:Eo; [|done]. apply Hgo; [done|]. unfold weight.
    apply orb_true_iff in Eo. rewrite !Z.ltb_lt in Eo. lia.
  - destruct (decide (segments im = [])) as [E|E]; [|destruct (Hsome E); lia].
    apply Hgo; [done|]. rewrite (Hnone E). unfold weight, no_info. cbn [max_addr min_addr data_size]. unfold u64_MAX. lia.
Qed.
End all_images.

(** ** Instantiation from images *)

(** The memories an instance starts with when the module has images: as before, or
    with the image mapped already. *)
Definition prepared (t' : ModuleTranslation) (ms ms' : list InstanceMemory) : Prop :=
  length ms' = length ms /\
  forall j rt rt', ms !! j = Some rt -> ms' !! j = Some rt' ->
    rt' = rt \/
    exists map, memory_initialization t' = StaticMap map /\ defined_memory_index t' j <> None /\ needs_init rt' = false /\
      bytes rt' = match map !! j with
                  | Some (Some init) => list_inserts (Z.to_nat (s_offset init)) (default [] (wasm_data t' (s_data init))) (bytes rt)
                  | _ => bytes rt
                  end.

Lemma wasm_data_slice t pre image post a : concat (t_data t) = pre ++ image ++ post -> a = zlen pre ->
  wasm_data t (a, a + zlen image) = Some image.
Proof.
  intros E ->. unfold wasm_data. cbn [fst snd]. rewrite E.
  pose proof (zlen_nonneg pre). pose proof (zlen_nonneg image). pose proof (zlen_nonneg post).
  rewrite !zlen_app, !(proj2 (Z.leb_le _ _)) by lia. cbn [andb]. f_equal.
  replace (Z.to_nat (zlen pre)) with (length pre) by (unfold zlen; lia). rewrite drop_app_length.
  replace (Z.to_nat (zlen pre + zlen image - zlen pre)) with (length image) by (unfold zlen; lia). apply take_app_length.
Qed.

Section static.
Context (t t' : ModuleTranslation) (page : Z) (context : ConstEvalContext) (map : list (option StaticMemoryInitializer)).
Context (infos : list MemoryInfo) (ms ms' : list InstanceMemory).
Context (Hmem : memories t' = memories t) (Himp : num_imported_memories t' = num_imported_memories t).
Context (Hmap : memory_initialization t' = StaticMap map) (Hlen : length map = length (memories t)).
Context (Hinfos : length infos = length (memories t)).
Context (Hinfo : forall j m im, memories t !! j = Some m -> infos !! j = Some im -> memory_info_ok t j m im).
Context (Hinit : forall j m im, memories t !! j = Some m -> infos !! j = Some im ->
  exists init, map !! j = Some init /\ initializer_ok t page (concat (t_data t')) 0 m im init).
Context (Hpages : forall j m im, memories t !! j = Some m -> infos !! j = Some im -> segments im <> [] ->
  forall n, Memory.minimum_byte_size m = Some n -> (page | n)).
Context (Hfresh : fresh t ms) (Hprep : prepared t' ms ms').
Abbreviation RT := (InitMemoryAtInstantiation t' context).

(** What a memory holds in the end. *)
Definition final (j : nat) : option (list Z) :=
  rt ← ms !! j; im ← infos !! j; Some (apply_segments (t_data t) (segments im) (bytes rt)).

Lemma defined_same j : defined_memory_index t' j = defined_memory_index t j.
Proof. unfold defined_memory_index. by rewrite Himp. Qed.

(** One memory: what its initializer does, if it has one. *)
Lemma static_write j init rt' : map !! j = Some init -> ms' !! j = Some rt' ->
  match init with
  | None => Some (bytes rt') = final j
  | Some init => forall cur, cur !! j = Some rt' -> exists rt2,
      instantiation_write t' j init cur = Ret true (<[j := rt2]> cur) /\ Some (bytes rt2) = final j
  end.
Proof.
  intros Ej Ert'. destruct Hfresh as [Hl Hf]. destruct Hprep as [Hl' Hp].
  pose proof (lookup_lt_Some _ _ _ Ej) as Hj. rewrite Hlen in Hj.
  destruct (lookup_lt_is_Some_2 (memories t) j Hj) as [m Em].
  destruct (lookup_lt_is_Some_2 infos j) as [im Eim]; [lia|].
  destruct (lookup_lt_is_Some_2 ms j) as [rt Ert]; [lia|].
  destruct (Hf j m rt Em Ert) as (Hni & Hus & (n & En & Hn) & Hz).
  destruct (Hinit j m im Em Eim) as (init' & Ej' & image & off & pre & post & Hok & Esec & Einit). simplify_eq.
  pose proof (Hinfo j m im Em Eim) as [Hs Hr Hnone Hsome H0 He Hmin].
  destruct Hok as (Hoff & Ho1 & Ho2 & Hempty & _ & Hbound & Happ).
  unfold final. rewrite Ert, Eim. cbn [mbind option_bind].
  specialize (Hp j rt rt' Ert Ert'). rewrite Hmap in Hp.
  rewrite Z.add_0_l in *. pose proof (wasm_data_slice t' pre image post _ Esec eq_refl) as Hwd.
  destruct (Z.ltb_spec 0 (zlen image)) as [Hpos|Hzero].
  - assert (segments im <> []) as Hne by (intros E; rewrite (Hempty E) in Hpos; done).
    destruct (Hsome Hne) as (_ & _ & Hdef). specialize (Hz Hdef).
    specialize (Hbound n En (Hpages j m im Em Eim Hne n En) Hne). specialize (Hmin n En Hne).
    assert (apply_segments (t_data t) (segments im) (bytes rt) = list_inserts (Z.to_nat off) image (bytes rt)) as ->.
    { rewrite Hz. apply Happ; unfold zlen in *; lia. }
    intros cur Ecur. unfold instantiation_write, bind, get. rewrite Ecur. cbn [unwrap ret]. rewrite defined_same.
    rewrite bool_decide_false by done. cbn [negb andb].
    destruct Hp as [-> |(map' & [= <-] & _ & Hf' & Hb)].
    + rewrite Hni. cbn [negb s_data s_offset]. rewrite Hwd. cbn [unwrap ret].
      rewrite try_from_in by (unfold usize_MAX in *; lia). cbn [unwrap ret].
      rewrite (proj2 (checked_add_Some usize_MAX off (zlen image) (off + zlen image))) by lia. cbn [unwrap ret].
      rewrite (proj2 (Z.leb_le _ _)) by lia. cbn [rust_assert ret put]. eexists. split; [reflexivity|done].
    + rewrite Hf'. cbn [negb ret]. exists rt'. rewrite list_insert_id by done. split; [done|].
      rewrite Hb, Ej. cbn [s_offset s_data]. by rewrite Hwd.
  - assert (image = []) as -> by (destruct image; [done|unfold zlen in Hzero; simpl in Hzero; lia]).
    assert (apply_segments (t_data t) (segments im) (bytes rt) = bytes rt) as ->.
    { destruct (decide (segments im = [])) as [-> |Hne]; [done|].
      destruct (Hsome Hne) as (_ & _ & Hdef). specialize (Hz Hdef). specialize (Hmin n En Hne).
      specialize (Hbound n En (Hpages j m im Em Eim Hne n En) Hne).
      rewrite Hz, Happ by (unfold zlen in *; simpl in *; lia). by destruct (Z.to_nat off). }
    destruct Hp as [-> |(map' & [= <-] & _ & Hf' & Hb)]; [done|]. by rewrite Hb, Ej.
Qed.

Lemma init_static_ok r k cur : drop k map = r -> length cur = length ms' ->
  (forall j, (j < k)%nat -> bytes <$> cur !! j = final j) ->
  (forall j, (k <= j)%nat -> cur !! j = ms' !! j) ->
  exists cur', init_static RT k r cur = Ret true cur' /\ forall j, bytes <$> cur' !! j = final j.
Proof.
  destruct Hfresh as [Hl _]. destruct Hprep as [Hl' _].
  revert k cur. induction r as [|init r IH]; intros k cur Hr Hcl Hlo Hhi.
  { exists cur. split; [done|]. intros j. destruct (decide (j < k)%nat); [by apply Hlo|].
    assert (length map <= k)%nat as Hk by (apply (f_equal length) in Hr; rewrite length_drop in Hr; simpl in Hr; lia).
    unfold final. rewrite (lookup_ge_None_2 cur), (lookup_ge_None_2 ms) by lia. done. }
  assert (map !! k = Some init) as Ek by (by rewrite <- (Nat.add_0_r k), <- lookup_drop, Hr).
  assert (drop (S k) map = r) as Hr' by (by rewrite <- Nat.add_1_r, <- drop_drop, Hr).
  pose proof (lookup_lt_Some _ _ _ Ek) as Hk.
  destruct (lookup_lt_is_Some_2 ms' k) as [rt' Ert']; [lia|].
  pose proof (static_write k init rt' Ek Ert') as Hw.
  assert (cur !! k = Some rt') as Ecur by (by rewrite Hhi).
  destruct init as [init|]; cbn [init_static].
  - destruct (Hw cur Ecur) as (rt2 & E2 & Hf2). unfold bind. cbn [write InitMemoryAtInstantiation]. rewrite E2.
    apply IH; [done|by rewrite length_insert| |].
    + intros j Hj. destruct (decide (j = k)) as [-> |].
      * by rewrite list_lookup_insert_eq by lia.
      * rewrite list_lookup_insert_ne by done. apply Hlo. lia.
    + intros j Hj. rewrite list_lookup_insert_ne by lia. apply Hhi. lia.
  - apply IH; [done..| |].
    + intros j Hj. destruct (decide (j = k)) as [-> |]; [by rewrite Ecur|]. apply Hlo. lia.
    + intros j Hj. apply Hhi. lia.
Qed.
End static.

(** ** The theorem *)

Lemma page_size_multiple k m : Memory.valid m -> 0 <= k -> 2 ^ k <= Memory.page_size m -> (2 ^ k | Memory.page_size m).
Proof.
  intros Hv Hk. destruct (Memory.page_size_cases m Hv) as [-> | ->]; intros Hle.
  - assert (k = 0) as ->; [|by exists 1]. destruct (decide (k = 0)); [done|].
    pose proof (Z.pow_le_mono_r 2 1 k ltac:(lia) ltac:(lia)). lia.
  - assert (k <= 16) as H16.
    { apply Z.le_ngt. intros ?. pose proof (Z.pow_le_mono_r 2 17 k ltac:(lia) ltac:(lia)). lia. }
    exists (2 ^ (16 - k)). rewrite <- Z.pow_add_r by lia. replace (16 - k + k) with 16 by lia. done.
Qed.

(** Reading a memory of an instance. *)
Definition contents_of (ms : list InstanceMemory) : list (list Z) := bytes <$> ms.

Lemma try_static_init_ok t k max_allowed : translation_ok t -> Forall Memory.valid (memories t) -> 0 <= k -> 0 <= max_allowed ->
  2 * total_data t + Z.of_nat (length (memories t)) * (max_allowed + 2 * 2 ^ k) <= u32_MAX ->
  match try_static_init (2 ^ k) max_allowed t with
  | Ret _ t' => t' = t \/ exists l map infos,
      memory_initialization t = Segmented l /\ memory_initialization t' = StaticMap map /\
      init_segments (InitMemoryAtCompileTime t) l (mkCompileTime (replicate (length (memories t)) no_info) 0) = Ret true infos /\
      memories t' = memories t /\ num_imported_memories t' = num_imported_memories t /\
      length map = length (memories t) /\ info_ok t (length l) infos /\
      (forall j m im, memories t !! j = Some m -> info infos !! j = Some im ->
         exists init, map !! j = Some init /\ initializer_ok t (2 ^ k) (concat (t_data t')) 0 m im init) /\
      (forall j m im, memories t !! j = Some m -> info infos !! j = Some im -> segments im <> [] ->
         forall n, Memory.minimum_byte_size m = Some n -> (2 ^ k | n))
  | _ => False
  end.
Proof.
  intros Ht Hv Hk Hmax Hsmall. assert (0 < 2 ^ k) as Hpage by (by apply Z.pow_pos_nonneg; lia).
  unfold try_static_init. destruct (memory_initialization t) as [l|] eqn:El; [|by left].
  cbn [init_memory]. set (s0 := mkCompileTime _ _).
  pose proof (init_segments_info t l Ht El l s0 0 eq_refl (info_ok_start t)) as Hwalk.
  destruct (init_segments _ l s0) as [[|] s|[]|] eqn:Ew; [|by left|done].
  pose proof Hwalk as [_ Hlen Hsz Hmem].
  assert (forall j im, info s !! j = Some im -> exists m, memories t !! (0 + j)%nat = Some m /\ memory_info_ok t (0 + j) m im) as Hinfo.
  { intros j im Hj. destruct (lookup_lt_is_Some_2 (memories t) j) as [m Em]; [rewrite <- Hlen; by eapply lookup_lt_Some|].
    exists m. split; [done|]. by apply Hmem. }
  pose proof (dense_enough_ok t (2 ^ k) max_allowed (info s) 0 Hmax Hinfo) as Hd. rewrite drop_0 in Hd. specialize (Hd (eq_sym Hlen)).
  destruct (dense_enough (2 ^ k) max_allowed (memories t) (info s)) as [[|]|]; [|by left|done].
  destruct Hd as [Hwt Hps]. pose proof (total_data_size t Ht s _ Hwalk) as Htd.
  assert (total data_size (info s) <= total_data t) as Htot.
  { rewrite (tr_total t Ht). destruct (tr_ranges t Ht l El) as [El2 _]. rewrite take_ge in Hsz by (simpl; lia). done. }
  destruct (memory_images_ok t (2 ^ k) Hpage (info s) 0 0 ltac:(lia) ltac:(lia) Hinfo) as (pushed & map & -> & Hml & Hmap).
  right. exists l, map, s. cbn [memory_initialization memories num_imported_memories t_data]. split_and!; try done; [by rewrite Hml| |].
  - intros j m im Em Eim. by apply (Hmap j im m Eim).
  - intros j m im Em Eim Hne n [-> _]%checked_mul_Some. apply Z.divide_mul_r. apply page_size_multiple; [|done|].
    + by eapply Forall_lookup_1.
    + by apply (Hps j im m Eim Em).
Qed.

(** C7. Turning data segments into images at compile time, for any module and any
    configuration within 4GiB of data and images: it never panics; and if it is done, then instantiating from the
    images, whether they are copied or mapped already, succeeds and leaves in every memory exactly the bytes that
    instantiating from the segments leaves, which then succeeds too.  Each image is whole
    host pages inside the minimum size of its memory. *)
Theorem static_init_equivalent t k max_allowed context ms : translation_ok t -> Forall Memory.valid (memories t) ->
  0 <= k -> 0 <= max_allowed ->
  2 * total_data t + Z.of_nat (length (memories t)) * (max_allowed + 2 * 2 ^ k) <= u32_MAX -> fresh t ms ->
  match try_static_init (2 ^ k) max_allowed t with
  | Ret _ t' => t' = t \/ exists map, memory_initialization t' = StaticMap map /\
      (forall j m init, memories t !! j = Some m -> map !! j = Some (Some init) ->
         (2 ^ k | s_offset init) /\ (2 ^ k | range_len (s_data init)) /\
         forall n, Memory.minimum_byte_size m = Some n -> s_offset init + range_len (s_data init) <= n) /\
      exists r, initialize_memories t context ms = Ret tt r /\
        forall ms', prepared t' ms ms' ->
          exists r', initialize_memories t' context ms' = Ret tt r' /\ contents_of r' = contents_of r
  | _ => False
  end.
Proof.
  intros Ht Hv Hk Hmax Hsmall Hf. pose proof (try_static_init_ok t k max_allowed Ht Hv Hk Hmax Hsmall) as H.
  destruct (try_static_init (2 ^ k) max_allowed t) as [[] t'|[]|]; [|done].
  destruct H as [-> |(l & map & s & El & Emap & Ew & Hmem & Himp & Hml & Hs & Hinit & Hpages)]; [by left|right].
  exists map. split; [done|]. pose proof Hs as [_ Hlen _ Hinfo]. pose proof (Z.pow_pos_nonneg 2 k ltac:(lia) Hk) as Hpage. split.
  { intros j m init Em Ej. destruct (lookup_lt_is_Some_2 (info s) j) as [im Eim]; [rewrite Hlen; by eapply lookup_lt_Some|].
    destruct (Hinit j m im Em Eim) as (init' & Ej' & image & off & pre & post & (_ & Ho & Hi & Hnone & _ & Hb & _) & _ & ->).
    rewrite Ej in Ej'. destruct (Z.ltb_spec 0 (zlen image)) as [Hp|]; [|done]. injection Ej' as ->. cbn [s_offset s_data].
    assert (range_len (0 + zlen pre, 0 + zlen pre + zlen image) = zlen image) as -> by (unfold range_len; cbn; lia).
    split_and!; try done. intros n En. assert (segments im <> []) as Hne by (intros E; by rewrite (Hnone E) in Hp).
    apply Hb; [done| |done]. by apply (Hpages j m im Em Eim Hne). }
  assert (written t ms (info (mkCompileTime (replicate (length (memories t)) no_info) 0)) ms) as Hw0.
  { split; [done|]. cbn [info]. intros j im rt [-> _]%lookup_replicate Ert. rewrite Ert. f_equal.
    destruct (lookup_lt_is_Some_2 (memories t) j) as [m Em]; [rewrite <- (proj1 Hf); by eapply lookup_lt_Some|].
    destruct rt as [bs ni]. destruct (proj2 Hf j m _ Em Ert) as (Hni & _). cbn in Hni. by subst ni. }
  pose proof (init_segments_agree t l context Ht El ms Hf l _ 0 ms eq_refl (info_ok_start t) Hw0) as Ha.
  rewrite Ew in Ha. destruct Ha as [_ (r & Er & Hr)]. exists r. unfold initialize_memories. rewrite El, Emap. cbn [init_memory]. rewrite Er.
  split; [done|]. intros ms' Hp.
  destruct (init_static_ok t t' (2 ^ k) context map (info s) ms ms' Himp Emap Hml Hlen Hinfo Hinit Hpages Hf Hp map 0 ms')
    as (r' & Er' & Hfin); [done|done|lia|done|]. rewrite Er'. exists r'. split; [done|].
  apply list_eq. intros j. unfold contents_of. rewrite !list_lookup_fmap, Hfin. unfold final.
  destruct (ms !! j) as [rt|] eqn:Ert.
  - destruct (lookup_lt_is_Some_2 (info s) j) as [im Eim]; [rewrite Hlen, <- (proj1 Hf); by eapply lookup_lt_Some|].
    rewrite Eim, (proj2 Hr _ _ _ Eim Ert). done.
  - apply lookup_ge_None in Ert. by rewrite (lookup_ge_None_2 r) by (rewrite (proj1 Hr); done).
Qed.

(** ** A module *)

(** Two segments in a memory of one page, the second over the end of the first. *)
Definition one_memory : Memory.t := Memory.mkMemory Idx32 (Memory.mkLimits 1 None) false 16.
Definition two_segments : ModuleTranslation :=
  match (active_segment 0 [I32Const 4097] [0; 1; 2; 3] ;;; active_segment 0 [I32Const 4100] [9; 8; 0])
          (mkTranslation [one_memory] 0 (Segmented []) [] 0 None) with
  | Ret _ t => t
  | _ => mkTranslation [] 0 (Segmented []) [] 0 None
  end.
Definition no_context : ConstEvalContext := mkContext [] (fun f => f).
Definition zero_page (ni : bool) : InstanceMemory := mkMemory (replicate (Z.to_nat 65536) 0) ni.

(** The image is one page, at the page of its first nonzero byte. *)
Example two_segments_image :
  match try_static_init 4096 1048576 two_segments with
  | Ret _ t' => memory_initialization t' = StaticMap [Some (mkStaticInit 4096 (0, 4096))] /\
      length <$> t_data t' = [2; 4; 4090]%nat /\ data_align t' = Some 4096 /\ t_data t' !! 1%nat = Some [1; 2; 9; 8]
  | _ => False
  end.
Proof. vm_compute. repeat split. Qed.

Lemma two_segments_ok : translation_ok two_segments.
Proof.
  split; [done|done|]. intros l [= <-]. split; [done|]. intros [|[|k]] i d; try done; intros [= <-] [= <-];
    (split; [by apply Nat.ltb_lt|reflexivity]).
Defined.

Lemma static_init_equivalent_witness :
  match try_static_init (2 ^ 12) 1048576 two_segments with
  | Ret _ t' => t' = two_segments \/ exists map, memory_initialization t' = StaticMap map /\
      (forall j m init, memories two_segments !! j = Some m -> map !! j = Some (Some init) ->
         (2 ^ 12 | s_offset init) /\ (2 ^ 12 | range_len (s_data init)) /\
         forall n, Memory.minimum_byte_size m = Some n -> s_offset init + range_len (s_data init) <= n) /\
      exists r, initialize_memories two_segments no_context [zero_page true] = Ret tt r /\
        forall ms', prepared t' [zero_page true] ms' ->
          exists r', initialize_memories t' no_context ms' = Ret tt r' /\ contents_of r' = contents_of r
  | _ => False
  end.
Proof.
  apply (static_init_equivalent two_segments 12 1048576 no_context [zero_page true]).
  - exact two_segments_ok.
  - constructor; [|constructor]. split; [by right|done|done|done].
  - done.
  - done.
  - vm_compute. discriminate.
  - split; [reflexivity|]. intros [|j] m rt; [|done]. intros [= <-] [= <-]. split; [reflexivity|].
    split; [unfold zlen; cbn [bytes zero_page]; rewrite length_replicate; unfold usize_MAX; lia|].
    split; [exists 65536; split; [reflexivity|unfold zlen; cbn [bytes zero_page]; rewrite length_replicate; lia]|].
    intros _. cbn [bytes zero_page]. by rewrite length_replicate.
Defined.

(** The test of density is about bytes, not pages: three bytes, one in each of three pages, are
    sparse. *)
Example every_page_is_sparse :
  dense_enough 4096 0 [one_memory] [mkInfo 3 4095 8193 []] = Some false.
Proof. reflexivity. Qed.

(** ** Too large an image

    A memory of 4GiB with its first and its last byte initialized, under a configuration
    that always allows images of memories of that size: the image's length is no
    [u32]. *)
Definition full_memory : Memory.t := Memory.mkMemory Idx32 (Memory.mkLimits 65536 None) false 16.
Definition first_and_last : ModuleTranslation :=
  mkTranslation [full_memory] 0
    (Segmented [mkInitializer 0 [I32Const 0] (0, 1); mkInitializer 0 [I32Const (-1)] (1, 2)]) [[1]; [1]] 2 None.

Lemma first_and_last_ok : translation_ok first_and_last.
Proof.
  split; [done|done|]. intros l [= <-]. split; [done|]. intros [|[|k]] i d; try done; intros [= <-] [= <-];
    (split; [by apply Nat.ltb_lt|reflexivity]).
Qed.

Definition first_and_last_info : MemoryInfo :=
  mkInfo 2 0 (2 ^ 32) [(0%nat, mkStaticInit 0 (0, 1)); (1%nat, mkStaticInit (2 ^ 32 - 1) (1, 2))].

Lemma first_and_last_image pushed off len : memory_image (t_data first_and_last) 4096 first_and_last_info = Some (pushed, off, len) ->
  2 ^ 32 <= len.
Proof.
  intros E. set (l := match memory_initialization first_and_last with Segmented l => l | _ => [] end).
  pose proof (init_segments_info first_and_last l first_and_last_ok eq_refl l _ 0 eq_refl (info_ok_start _)) as H.
  assert (init_segments (InitMemoryAtCompileTime first_and_last) l (mkCompileTime (replicate 1 no_info) 0) =
    Ret true (mkCompileTime [first_and_last_info] 2)) as Ew by (vm_compute; reflexivity).
  cbn [length memories first_and_last] in H. rewrite Ew in H. destruct H as [_ _ _ Hm].
  destruct (memory_image_ok first_and_last 4096 eq_refl 0 full_memory first_and_last_info (Hm 0%nat _ _ eq_refl eq_refl))
    as (p & o & n & E' & En & (Ho & _ & _ & _ & _ & Hb & Happ)).
  rewrite E in E'. injection E' as <- <- <-. specialize (Hb (2 ^ 32) eq_refl ltac:(by exists (2 ^ 20)) ltac:(done)).
  assert (exists N : nat, Z.of_nat N = 2 ^ 32) as [N HN] by (exists (Z.to_nat (2 ^ 32)); by apply Z2Nat.id).
  specialize (Happ N ltac:(rewrite HN; done) ltac:(lia)). pose proof (zlen_nonneg (concat pushed)) as Hp0.
  assert (forall a : nat, (a < N)%nat -> byte_at (Z.to_nat off) (concat pushed) a =
    if decide (a = 0%nat \/ Z.of_nat a = 2 ^ 32 - 1) then 1 else 0) as Hbyte.
  { intros a Ha. apply (inj Some). rewrite <- (zeros_inserts _ _ N) by (unfold zlen in *; lia). rewrite <- Happ.
    unfold apply_segments, first_and_last_info. cbn [segments foldl]. unfold apply_segment. cbn [fst snd s_offset t_data first_and_last].
    rewrite byte_at_inserts by (rewrite length_inserts, length_replicate; cbn; lia).
    cbn [lookup list_lookup default from_option length id].
    case_decide as H1.
    - rewrite decide_True by lia. replace (a - Z.to_nat (2 ^ 32 - 1))%nat with 0%nat by lia. done.
    - rewrite byte_at_inserts by (rewrite length_replicate; cbn; lia). cbn [length]. case_decide as H2.
      + rewrite decide_True by lia. by replace (a - Z.to_nat 0)%nat with 0%nat by lia.
      + rewrite decide_False by lia. by rewrite lookup_replicate_2 by done. }
  pose proof (Hbyte 0%nat ltac:(lia)) as H0. rewrite decide_True in H0 by (by left).
  assert (off = 0) as ->.
  { unfold byte_at in H0. destruct (Nat.leb_spec (Z.to_nat off) 0); [lia|done]. }
  pose proof (Hbyte (Z.to_nat (2 ^ 32 - 1)) ltac:(lia)) as H1. rewrite decide_True in H1 by lia.
  assert (~ (length (concat pushed) <= Z.to_nat (2 ^ 32 - 1)))%nat.
  { intros Hle. rewrite byte_at_ge in H1 by lia. done. }
  rewrite En. unfold zlen. lia.
Qed.

(** A module that could be instantiated from its segments cannot be compiled. *)
Lemma static_init_panics : try_static_init 4096 (2 ^ 33) first_and_last = Panic.
Proof.
  unfold try_static_init. cbn [memory_initialization first_and_last init_memory].
  assert (init_segments (InitMemoryAtCompileTime first_and_last) [mkInitializer 0 [I32Const 0] (0, 1); mkInitializer 0 [I32Const (-1)] (1, 2)]
    (mkCompileTime (replicate (length (memories first_and_last)) no_info) 0) =
    Ret true (mkCompileTime [first_and_last_info] 2)) as Ew by (vm_compute; reflexivity).
  fold first_and_last. rewrite Ew. cbn [info memories first_and_last]. 
  assert (dense_enough 4096 (2 ^ 33) [full_memory] [first_and_last_info] = Some true) as -> by reflexivity.
  cbn [memory_images].
  destruct (memory_image (t_data first_and_last) 4096 first_and_last_info) as [[[pushed off] len]|] eqn:E.
  - apply first_and_last_image in E. cbn [mbind option_bind]. unfold try_from.
    rewrite (proj2 (Z.leb_gt len u32_MAX)) by (unfold u32_MAX; lia). by rewrite andb_false_r.
  - done.
Qed.
