(* ===== verification/TableInit.v ===== *)
(** * The initialization of tables

    The initial values and active element segments of a module: how they are
    turned into lists of functions at compile time
    ([try_func_table_init] of environ/src/compile/module_environ.rs), instantiation, which
    applies what is left (runtime/vm/instance/allocator.rs), and the reading of an
    element that has not been initialized yet (runtime/vm/instance.rs).

    A store keeps the tables of all instances; the tables of the module are locations
    of it, imported ones possibly the same location twice.  An element is not
    initialized or holds a reference.

    Shown: whatever the module, applying all of it at instantiation and applying
    what the compiler left while elements are initialized as they are read is
    the same: the same elements in all tables of the store, and the same failure with the same
    elements written before it, and no panic. *)

From S2P Require Import Prelude DivConst ClifTypes ClifValue ConstExpr.

(** ** The module *)

Inductive IndexTy := IxI32 | IxI64.

Record TableDef := mkTableDef { idx_type : IndexTy; limits_min : Z; top : WasmHeapTopType }.

(** Indices of functions; the reserved one is a null. *)
Definition reserved_value : Z := u32_MAX.

Inductive TableInitialValue := Null (precomputed : list Z) | Expr (expr : ConstExpr).

Inductive TableSegmentElements := Functions (indices : list Z) | Expressions (exprs : list ConstExpr).

Record TableSegment := mkSegment { table_index : nat; offset : ConstExpr; elements : TableSegmentElements }.

Definition elements_len (e : TableSegmentElements) : Z :=
  match e with Functions s => zlen s | Expressions exprs => zlen exprs end.

(** The parts of a [Module] that tables are initialized from. *)
Record ModuleTables := mkModule {
  tables : list TableDef;
  num_imported_tables : nat;
  initial_values : list TableInitialValue;
  segments : list TableSegment
}.

Definition defined_table_index (m : ModuleTables) (i : nat) : option nat :=
  if bool_decide (i < num_imported_tables m)%nat then None else Some (i - num_imported_tables m)%nat.

Definition u64_MAX : Z := 2 ^ 64 - 1.

(** ** At compile time *)

Definition MAX_FUNC_TABLE_SIZE : Z := 1024 * 1024.

(** The first loop. *)
Definition convert_initial (init : TableInitialValue) (table : TableDef) : TableInitialValue :=
  if MAX_FUNC_TABLE_SIZE <? limits_min table then init
  else match init with
       | Expr [RefFunc f] => Null (replicate (Z.to_nat (limits_min table)) f)
       | _ => init
       end.

Fixpoint convert_initials (inits : list TableInitialValue) (defined : list TableDef) : list TableInitialValue :=
  match inits, defined with
  | init :: inits, table :: defined => convert_initial init table :: convert_initials inits defined
  | inits, _ => inits
  end.

Definition static_offset (e : ConstExpr) : option Z :=
  match e with
  | [I32Const offset] => Some (wrap 32 offset)
  | [I64Const offset] => Some (wrap 64 offset)
  | _ => None
  end.

(** The list made long enough, and the segment copied into it. *)
Definition copy_functions (precomputed indices : list Z) (offset : nat) : list Z :=
  let top := (offset + length indices)%nat in
  let precomputed := if (length precomputed <? top)%nat then precomputed ++ replicate (top - length precomputed) reserved_value else precomputed in
  take offset precomputed ++ indices ++ drop top precomputed.

(** One turn of the second loop: [None] leaves the loop. *)
Definition static_segment (m : ModuleTables) (inits : list TableInitialValue) (segment : TableSegment) : option (list TableInitialValue) :=
  defined_index ← defined_table_index m (table_index segment);
  offset ← static_offset (offset segment);
  top_ ← checked_add u64_MAX offset (elements_len (elements segment));
  table ← tables m !! table_index segment;
  if (limits_min table <? top_) || (MAX_FUNC_TABLE_SIZE <? top_) then None
  else if negb (bool_decide (top table = TopFunc)) then None
  else match elements segment with
       | Expressions _ => None
       | Functions indices =>
           init ← inits !! defined_index;
           match init with
           | Expr _ => None
           | Null precomputed => Some (<[defined_index := Null (copy_functions precomputed indices (Z.to_nat offset))]> inits)
           end
       end.

Fixpoint static_segments (m : ModuleTables) (inits : list TableInitialValue) (segs : list TableSegment)
  : list TableInitialValue * list TableSegment :=
  match segs with
  | [] => (inits, [])
  | segment :: rest =>
      match static_segment m inits segment with
      | Some inits => static_segments m inits rest
      | None => (inits, segs)
      end
  end.

Definition try_func_table_init (m : ModuleTables) : ModuleTables :=
  let inits := convert_initials (initial_values m) (drop (num_imported_tables m) (tables m)) in
  let '(inits, segs) := static_segments m inits (segments m) in
  mkModule (tables m) (num_imported_tables m) inits segs.

(** ** At instantiation *)

(** An element that is [None] is initialized when it is read. *)
Abbreviation RtTable := (list (option Val)).

Inductive TableTrap := TableOutOfBounds | EvalFailed (e : ConstExprError).

Abbreviation I := (M (list RtTable) TableTrap).

Section instantiation.
Context (m : ModuleTables) (context : ConstEvalContext).
(** The locations of imported tables, and that of the first defined one. *)
Context (imports : list nat) (base : nat).

Definition location (i : nat) : option nat :=
  match defined_table_index m i with Some d => Some (base + d)%nat | None => imports !! i end.

Definition eval_const (e : ConstExpr) : I Val := fun s =>
  match result_of context e [] with Ret v _ => Ret v s | Fail e _ => Fail (EvalFailed e) s | Panic => Panic end.

(** [ref_], which does not know continuations. *)
Definition ref_ (v : Val) : option Val :=
  match v with VI32 _ | VI64 _ | VF32 _ | VF64 _ | VV128 _ | VContRef _ => None | v => Some v end.

Definition get_index (v : Val) (ty : IndexTy) : option Z :=
  match v, ty with VI32 i, IxI32 => Some (wrap 32 i) | VI64 i, IxI64 => Some (wrap 64 i) | _, _ => None end.

Definition get_table (loc : nat) : I RtTable := s <- get ;; unwrap (s !! loc).
Definition put_table (loc : nat) (t : RtTable) : I unit := modify (fun s => <[loc := t]> s).

(** [Table::size_]. *)
Definition size_ (loc : nat) : I Z := t <- get_table loc ;; ret (zlen t).

(** [Table::set_]; the value is of the type of the table, which is not one of continuations. *)
Definition set_ (loc : nat) (i : nat) (v : Val) : I unit :=
  t <- get_table loc ;;
  if (i <? length t)%nat then put_table loc (<[i := Some v]> t) else fail TableOutOfBounds.

(** [Table::_fill]. *)
Fixpoint fill_from (loc i : nat) (v : Val) (len : nat) : I unit :=
  match len with O => ret tt | S len => set_ loc i v ;;; fill_from loc (S i) v len end.

Definition _fill (loc dst : nat) (v : Val) (len : Z) : I unit :=
  end_ <- ok_or (checked_add u64_MAX (Z.of_nat dst) len) TableOutOfBounds ;;
  size <- size_ loc ;;
  if size <? end_ then fail TableOutOfBounds else fill_from loc dst v (Z.to_nat len).

(** [get_func_ref], and [get_exported_func] which unwraps what it answers. *)
Definition get_func_ref (f : Z) : option Z := if f =? reserved_value then None else Some (func_ref context f).
Definition get_exported_func (f : Z) : I Z := unwrap (get_func_ref f).

Fixpoint initial_values_from (d : nat) (inits : list TableInitialValue) : I unit :=
  match inits with
  | [] => ret tt
  | Null _ :: inits => initial_values_from (S d) inits
  | Expr expr :: inits =>
      init <- eval_const expr ;;
      init <- unwrap (ref_ init) ;;
      size <- size_ (base + d) ;;
      _fill (base + d) 0 init size ;;;
      initial_values_from (S d) inits
  end.

(** The positions of a segment and its elements, one after the other. *)
Fixpoint set_functions (loc i : nat) (funcs : list Z) : I unit :=
  match funcs with
  | [] => ret tt
  | f :: funcs =>
      func <- get_exported_func f ;;
      set_ loc i (VFuncRef (Some func)) ;;;
      set_functions loc (S i) funcs
  end.
Fixpoint set_expressions (loc i : nat) (exprs : list ConstExpr) : I unit :=
  match exprs with
  | [] => ret tt
  | expr :: exprs =>
      val <- eval_const expr ;;
      val <- unwrap (ref_ val) ;;
      set_ loc i val ;;;
      set_expressions loc (S i) exprs
  end.

Definition init_segment (segment : TableSegment) : I unit :=
  start <- eval_const (offset segment) ;;
  table <- unwrap (tables m !! table_index segment) ;;
  start <- unwrap (get_index start (idx_type table)) ;;
  end_ <- ok_or (checked_add u64_MAX start (elements_len (elements segment))) TableOutOfBounds ;;
  loc <- unwrap (location (table_index segment)) ;;
  size <- size_ loc ;;
  if size <? end_ then fail TableOutOfBounds
  else match elements segment with
       | Functions funcs => set_functions loc (Z.to_nat start) funcs
       | Expressions exprs => set_expressions loc (Z.to_nat start) exprs
       end.

Fixpoint init_segments (segs : list TableSegment) : I unit :=
  match segs with [] => ret tt | segment :: segs => init_segment segment ;;; init_segments segs end.

Definition initialize_tables : I unit := initial_values_from 0 (initial_values m) ;;; init_segments (segments m).

(** ** Reading *)

(** What the tables of other instances initialize their elements with. *)
Context (others : nat -> nat -> option Z).

(** [get_defined_table_with_lazy_init] at one element: what is then there; [None] is [unreachable!]. *)
Definition lazy_init (inits : list TableInitialValue) (loc i : nat) (cell : option Val) : option Val :=
  match cell with
  | Some v => Some v
  | None =>
      match (if (base <=? loc)%nat then inits !! (loc - base)%nat else None) with
      | Some (Null precomputed) => Some (VFuncRef (f ← precomputed !! i; get_func_ref f))
      | Some (Expr _) => None
      | None => Some (VFuncRef (others loc i))
      end
  end.

(** The outer option says whether there is such an element. *)
Definition read (s : list RtTable) (loc i : nat) : option (option Val) :=
  t ← s !! loc; cell ← t !! i; Some (lazy_init (initial_values m) loc i cell).
End instantiation.
#[global] Arguments lazy_init : simpl never.

(** ** What validation has established

    There are no initial values and segments for tables of continuations, other than
    nulls by default: [ref_] would panic. *)

Definition index_val_type (ty : IndexTy) : ValType := match ty with IxI32 => TyI32 | IxI64 => TyI64 end.

Definition init_valid (gs : list ValType) (init : TableInitialValue) (table : TableDef) : Prop :=
  match init with
  | Null precomputed => precomputed = []
  | Expr expr => expr_type gs expr = Some (TyRef (top table)) /\ top table <> TopCont /\ forall f, expr = [RefFunc f] -> f <> reserved_value
  end.

Definition segment_valid (gs : list ValType) (m : ModuleTables) (segment : TableSegment) : Prop :=
  exists table, tables m !! table_index segment = Some table /\
    expr_type gs (offset segment) = Some (index_val_type (idx_type table)) /\
    match elements segment with
    | Functions funcs => top table = TopFunc /\ Forall (fun f => f <> reserved_value) funcs
    | Expressions exprs => top table <> TopCont /\ Forall (fun e => expr_type gs e = Some (TyRef (top table))) exprs
    end.

Record valid (gs : list ValType) (m : ModuleTables) : Prop := {
  valid_imports : (num_imported_tables m <= length (tables m))%nat;
  valid_inits : Forall2 (init_valid gs) (initial_values m) (drop (num_imported_tables m) (tables m));
  valid_segments : Forall (segment_valid gs m) (segments m)
}.

(** A table as it is created: functions are initialized lazily. *)
Definition fresh (table : TableDef) (t : RtTable) : Prop :=
  t = replicate (length t) (if bool_decide (top table = TopFunc) then None else Some (null_top (top table))) /\
  zlen t = limits_min table /\ limits_min table <= u64_MAX.

(** The store before instantiation: imported tables are those of other instances. *)
Record linked (m : ModuleTables) (imports : list nat) (base : nat) (s : list RtTable) : Prop := {
  linked_imports : length imports = num_imported_tables m;
  linked_before : Forall (fun loc => (loc < base)%nat) imports;
  linked_defined : (base <= length s)%nat /\
    Forall2 fresh (drop (num_imported_tables m) (tables m)) (take (length (tables m) - num_imported_tables m) (drop base s))
}.

(** ** Runs of single accesses *)

Lemma get_table_run loc s t : s !! loc = Some t -> get_table loc s = Ret t s.
Proof. intros E. by apply (unwrap_run (s !! loc)). Qed.

Lemma set_run loc i v s t : s !! loc = Some t ->
  set_ loc i v s = if (i <? length t)%nat then Ret tt (<[loc := <[i := Some v]> t]> s) else Fail TableOutOfBounds s.
Proof. intros E. unfold set_. rewrite (bind_run _ _ _ _ _ (get_table_run _ _ _ E)). by destruct (i <? length t)%nat. Qed.

Lemma size_run loc s t : s !! loc = Some t -> size_ loc s = Ret (zlen t) s.
Proof. intros E. unfold size_. by rewrite (bind_run _ _ _ _ _ (get_table_run _ _ _ E)). Qed.

Lemma fill_from_run loc v s t i len : s !! loc = Some t -> (i + len = length t)%nat ->
  fill_from loc i v len s = Ret tt (<[loc := take i t ++ replicate len (Some v)]> s).
Proof.
  revert s t i. induction len as [|len IH]; intros s t i E Hi; simpl.
  - by rewrite take_ge, app_nil_r, list_insert_id by (rewrite ?take_ge, ?app_nil_r by lia; done || lia).
  - erewrite bind_run by (rewrite (set_run _ _ _ _ _ E), (proj2 (Nat.ltb_lt _ _)) by lia; reflexivity).
    erewrite IH; [|apply list_lookup_insert_eq; by eapply lookup_lt_Some|rewrite length_insert; lia].
    rewrite list_insert_insert_eq. do 2 f_equal.
    rewrite (take_S_r _ _ (Some v)), <- (assoc app), take_insert_ge by (apply list_lookup_insert_eq || lia; lia). done.
Qed.

(** The whole of a table. *)
Lemma fill_run loc v s t : s !! loc = Some t -> zlen t <= u64_MAX ->
  _fill loc 0 v (zlen t) s = Ret tt (<[loc := replicate (length t) (Some v)]> s).
Proof.
  intros E Hmax. unfold _fill.
  assert (Ha : checked_add u64_MAX (Z.of_nat 0) (zlen t) = Some (zlen t)) by (apply checked_add_Some; lia).
  rewrite Ha. erewrite bind_run by reflexivity. rewrite (bind_run _ _ _ _ _ (size_run _ _ _ E)), Z.ltb_irrefl.
  unfold zlen. rewrite Nat2Z.id. by rewrite (fill_from_run _ _ _ t).
Qed.

(** ** The elements as they are read *)

Section contents.
Context (context : ConstEvalContext) (base : nat) (others : nat -> nat -> option Z).
Abbreviation lazy_init := (lazy_init context base others).

Definition row (inits : list TableInitialValue) (loc : nat) (t : RtTable) : list (option Val) :=
  imap (fun i cell => lazy_init inits loc i cell) t.

Definition contents (inits : list TableInitialValue) (s : list RtTable) : list (list (option Val)) :=
  imap (fun loc t => row inits loc t) s.

Lemma contents_lookup inits s loc : contents inits s !! loc = row inits loc <$> s !! loc.
Proof. unfold contents. by rewrite list_lookup_imap. Qed.

Lemma row_lookup inits loc t i : row inits loc t !! i = lazy_init inits loc i <$> t !! i.
Proof. unfold row. by rewrite list_lookup_imap. Qed.

Lemma row_length inits loc t : length (row inits loc t) = length t.
Proof. apply length_imap. Qed.

Lemma imap_insert {A B} (f : nat -> A -> B) l i x : imap f (<[i := x]> l) = <[i := f i x]> (imap f l).
Proof.
  apply list_eq. intros j. rewrite list_lookup_imap, !list_lookup_insert, length_imap, list_lookup_imap.
  by case_decide as Hj; [destruct Hj as [<- _]|].
Qed.

Lemma row_insert inits loc t i v : row inits loc (<[i := Some v]> t) = <[i := Some v]> (row inits loc t).
Proof. apply (imap_insert (fun i cell => lazy_init inits loc i cell)). Qed.

Lemma contents_insert inits s loc t : contents inits (<[loc := t]> s) = <[loc := row inits loc t]> (contents inits s).
Proof. apply (imap_insert (fun loc t => row inits loc t)). Qed.

(** Equal contents, all of them initialized or initialized when read, of so many tables. *)
Definition same (n : nat) (P Q : list TableInitialValue) (s s' : list RtTable) : Prop :=
  contents P s = contents Q s' /\ Forall (Forall is_Some) (contents P s) /\ length s = n.

Lemma same_lookup n P Q s s' loc : same n P Q s s' -> (loc < n)%nat ->
  exists t t', s !! loc = Some t /\ s' !! loc = Some t' /\
    row P loc t = row Q loc t' /\ Forall is_Some (row P loc t) /\ length t = length t'.
Proof.
  intros (E & HF & <-) [t Et]%lookup_lt_is_Some.
  pose proof (contents_lookup P s loc) as E1. pose proof (contents_lookup Q s' loc) as E2.
  rewrite <- E, E1, Et in E2. rewrite Et in E1. destruct (s' !! loc) as [t'|]; [|done]. simpl in *. injection E2 as E2.
  exists t, t'. split_and!; [done..|by eapply Forall_lookup_1|].
  by rewrite <- (row_length P loc), E2, row_length.
Qed.

(** Two computations with the same result from stores of the same contents, and no panic. *)
Definition sim (n : nat) (P Q : list TableInitialValue) {A} (m1 m2 : I A) : Prop := forall s s', same n P Q s s' ->
  match m1 s, m2 s' with
  | Ret a s1, Ret a' s1' => a = a' /\ same n P Q s1 s1'
  | Fail e s1, Fail e' s1' => e = e' /\ same n P Q s1 s1'
  | _, _ => False
  end.

Lemma sim_ret n P Q {A} (a : A) : sim n P Q (ret a) (ret a).
Proof. by intros s s' Hs. Qed.

Lemma sim_fail n P Q {A} e : sim n P Q (fail e : I A) (fail e).
Proof. by intros s s' Hs. Qed.

Lemma sim_bind n P Q {A B} (m1 m2 : I A) (k1 k2 : A -> I B) :
  sim n P Q m1 m2 -> (forall a, sim n P Q (k1 a) (k2 a)) -> sim n P Q (bind m1 k1) (bind m2 k2).
Proof.
  intros Hm Hk s s' Hs. unfold bind. specialize (Hm s s' Hs).
  destruct (m1 s), (m2 s'); try done. destruct Hm as [<- Hs1]. by apply Hk.
Qed.

(** A computation that only looks. *)
Lemma sim_pure n P Q {A B} (m0 : I A) (k1 k2 : A -> I B) a :
  (forall s, m0 s = Ret a s) -> sim n P Q (k1 a) (k2 a) -> sim n P Q (bind m0 k1) (bind m0 k2).
Proof. intros Hm Hk s s' Hs. unfold bind. rewrite !Hm. by apply Hk. Qed.

Lemma sim_size n P Q loc : (loc < n)%nat -> sim n P Q (size_ loc) (size_ loc).
Proof.
  intros Hloc s s' Hs. destruct (same_lookup _ _ _ _ _ _ Hs Hloc) as (t & t' & E & E' & _ & _ & Hl).
  rewrite (size_run _ _ _ E), (size_run _ _ _ E'). split; [unfold zlen; by rewrite Hl|done].
Qed.

Lemma sim_set n P Q loc i v : (loc < n)%nat -> sim n P Q (set_ loc i v) (set_ loc i v).
Proof.
  intros Hloc s s' Hs. destruct (same_lookup _ _ _ _ _ _ Hs Hloc) as (t & t' & E & E' & Hr & HF & Hl).
  rewrite (set_run _ _ _ _ _ E), (set_run _ _ _ _ _ E'), <- Hl.
  destruct (i <? length t)%nat; [|done]. split; [done|]. destruct Hs as (Hc & HA & Hn).
  split; [by rewrite !contents_insert, !row_insert, Hc, Hr|]. split; [|by rewrite length_insert].
  rewrite contents_insert, row_insert. apply Forall_insert; [done|]. by apply Forall_insert.
Qed.
End contents.

(** ** Segments at instantiation *)

Section segments.
Context (context : ConstEvalContext) (gs : list ValType) (Hgs : typed (globals context) gs).
Context (imports : list nat) (base : nat) (others : nat -> nat -> option Z).
Abbreviation sim := (sim context base others).

Lemma eval_const_typed e t : expr_type gs e = Some t ->
  exists v, val_type v = t /\ val_ok v /\ forall s, eval_const context e s = Ret v s.
Proof.
  intros Ht. pose proof (eval_loop_typed context gs Hgs e t [] Ht) as Hw. unfold wp in Hw.
  unfold eval_const. rewrite result_of_loop. destruct (eval_loop context e []) as [v| |]; [|done..].
  exists v. by destruct Hw.
Qed.

Lemma ref_typed v t : val_type v = TyRef t -> t <> TopCont -> ref_ v = Some v.
Proof. destruct v; try done. by intros [= <-]. Qed.

(** What an expression of a reference type evaluates to. *)
Lemma eval_ref_typed e t : expr_type gs e = Some (TyRef t) -> t <> TopCont ->
  exists v, val_type v = TyRef t /\ ref_ v = Some v /\ forall s, eval_const context e s = Ret v s.
Proof. intros (v & Hv & _ & He)%eval_const_typed Ht. exists v. eauto using ref_typed. Qed.

Lemma get_exported_func_run f s : f <> reserved_value -> get_exported_func context f s = Ret (func_ref context f) s.
Proof. intros Hf. unfold get_exported_func, get_func_ref. by rewrite (proj2 (Z.eqb_neq _ _) Hf). Qed.

Lemma get_index_typed v ty : val_type v = index_val_type ty -> exists start, get_index v ty = Some start /\ 0 <= start.
Proof.
  destruct v, ty; try done; intros _; eexists; (split; [reflexivity|]); by apply Z.mod_pos_bound.
Qed.

Lemma sim_set_functions n P Q loc i funcs : (loc < n)%nat -> Forall (fun f => f <> reserved_value) funcs ->
  sim n P Q (set_functions context loc i funcs) (set_functions context loc i funcs).
Proof.
  intros Hloc HF. revert i. induction HF as [|f funcs Hf _ IH]; intros i; [apply sim_ret|].
  simpl. eapply sim_pure; [intros; by apply get_exported_func_run|]. apply sim_bind; [by apply sim_set|]. intros []. apply IH.
Qed.

Lemma sim_set_expressions n P Q loc i exprs t : (loc < n)%nat -> t <> TopCont -> Forall (fun e => expr_type gs e = Some (TyRef t)) exprs ->
  sim n P Q (set_expressions context loc i exprs) (set_expressions context loc i exprs).
Proof.
  intros Hloc Hcont He. revert i. induction He as [|e exprs He _ IH]; intros i; [apply sim_ret|]. simpl.
  destruct (eval_ref_typed e t He Hcont) as (v & _ & Hv & Hev). eapply sim_pure; [exact Hev|].
  eapply sim_pure; [intros; by rewrite Hv|]. apply sim_bind; [by apply sim_set|]. intros []. apply IH.
Qed.

Lemma location_lt m s i table : valid gs m -> linked m imports base s -> tables m !! i = Some table ->
  exists loc, location m imports base i = Some loc /\ (loc < length s)%nat.
Proof.
  intros Hm Hl Ht. destruct (linked_defined _ _ _ _ Hl) as [Hb Hd%Forall2_length].
  rewrite length_drop, length_take, length_drop in Hd. apply lookup_lt_Some in Ht.
  pose proof (linked_imports _ _ _ _ Hl). unfold location, defined_table_index. case_bool_decide.
  - destruct (lookup_lt_is_Some_2 imports i) as [loc E]; [lia|]. exists loc. split; [done|].
    pose proof (Forall_lookup_1 _ _ _ _ (linked_before _ _ _ _ Hl) E). simpl in *. lia.
  - eexists. split; [done|]. lia.
Qed.

Lemma sim_init_segment m s P Q segment : valid gs m -> linked m imports base s -> segment_valid gs m segment ->
  sim (length s) P Q (init_segment m context imports base segment) (init_segment m context imports base segment).
Proof.
  intros Hm Hl (table & Ht & Hoff & He). unfold init_segment.
  destruct (eval_const_typed _ _ Hoff) as (v & Hv & _ & Hev). eapply sim_pure; [exact Hev|].
  eapply sim_pure; [intros; by rewrite Ht|]. destruct (get_index_typed _ _ Hv) as (start & Hs & _).
  eapply sim_pure; [intros; by rewrite Hs|]. destruct (location_lt m s _ _ Hm Hl Ht) as (loc & Eloc & Hloc).
  destruct (checked_add u64_MAX start (elements_len (elements segment))) as [end_|]; [|by intros s1 s1' Hs1].
  eapply sim_pure; [done|]. eapply sim_pure; [intros; by rewrite Eloc|]. apply sim_bind; [by apply sim_size|].
  intros size. destruct (size <? end_); [apply sim_fail|]. destruct (elements segment).
  - destruct He. by apply sim_set_functions.
  - destruct He. by eapply sim_set_expressions.
Qed.

Lemma sim_init_segments m s P Q segs : valid gs m -> linked m imports base s -> Forall (segment_valid gs m) segs ->
  sim (length s) P Q (init_segments m context imports base segs) (init_segments m context imports base segs).
Proof.
  intros Hm Hl. induction 1 as [|segment segs Hseg _ IH]; [apply sim_ret|]. simpl.
  apply sim_bind; [by apply sim_init_segment|]. by intros [].
Qed.
End segments.

(** ** Initial values *)

Section initial.
Context (context : ConstEvalContext) (gs : list ValType) (Hgs : typed (globals context) gs).
Context (base : nat) (others : nat -> nat -> option Z).
Abbreviation row := (row context base others).
Abbreviation lazy_init := (lazy_init context base others).

(** A table after the turn of the first loop for it. *)
Definition initialized (init : TableInitialValue) (t : RtTable) : RtTable :=
  match init with
  | Null _ => t
  | Expr expr => replicate (length t) (match result_of context expr [] with Ret v _ => Some v | _ => None end)
  end.

Definition init_typed (init : TableInitialValue) : Prop :=
  match init with Null _ => True | Expr expr => exists t, expr_type gs expr = Some (TyRef t) /\ t <> TopCont end.

Lemma initial_values_run inits : forall d before ts after, Forall init_typed inits -> Forall (fun t => zlen t <= u64_MAX) ts ->
  length before = (base + d)%nat -> length ts = length inits ->
  initial_values_from context base d inits (before ++ ts ++ after) = Ret tt (before ++ zip_with initialized inits ts ++ after).
Proof.
  induction inits as [|init inits IH]; intros d before [|t ts] after HF HM Hb Ht; try done.
  apply Forall_cons in HF as [Hi HF'], HM as [Hmax HM]. injection Ht as Ht. simpl.
  rewrite (cons_middle t), (cons_middle (initialized init t)), (assoc app), (assoc app before).
  destruct init as [p|expr]; [apply IH; [done|done|rewrite length_app; simpl; lia|done]|].
  destruct Hi as (ty & Hty & Hcont). destruct (eval_ref_typed _ _ Hgs _ _ Hty Hcont) as (v & _ & Hv & Hev).
  rewrite (bind_run _ _ _ _ _ (Hev _)), (bind_run _ _ _ v _ (unwrap_run _ _ _ Hv)).
  assert (result_of context expr [] = Ret v tt) as Hr.
  { specialize (Hev []). unfold eval_const in Hev. destruct (result_of context expr []) as [? []| |]; congruence. }
  assert (E : ((before ++ [t]) ++ ts ++ after) !! (base + d)%nat = Some t).
  { rewrite <- (assoc app), <- Hb. by apply list_lookup_middle. }
  rewrite (bind_run _ _ _ _ _ (size_run _ _ _ E)). erewrite bind_run; [apply IH; [done|done| |done]|].
  - rewrite length_app. simpl. lia.
  - rewrite (fill_run _ _ _ _ E Hmax), <- Hb, <- (assoc app).
    unfold initialized. rewrite Hr. f_equal.
    rewrite (insert_app_r_alt before _ (length before)) by lia. by rewrite Nat.sub_diag, <- (assoc app).
Qed.

Lemma lazy_init_defined inits d i cell : lazy_init inits (base + d) i cell =
  match cell with
  | Some v => Some v
  | None => match inits !! d with
            | Some (Null precomputed) => Some (VFuncRef (f ← precomputed !! i; get_func_ref context f))
            | Some (Expr _) => None
            | None => Some (VFuncRef (others (base + d) i))
            end
  end.
Proof.
  unfold TableInit.lazy_init. rewrite (proj2 (Nat.leb_le _ _)) by lia. by replace (base + d - base)%nat with d by lia.
Qed.

(** Tables of other instances, before the defined ones or after them. *)
Lemma lazy_init_other inits loc i cell : (loc < base \/ base + length inits <= loc)%nat ->
  lazy_init inits loc i cell = Some (default (VFuncRef (others loc i)) cell).
Proof.
  intros H. unfold TableInit.lazy_init. destruct cell as [v|]; [done|]. case Nat.leb_spec; [|done].
  intros. rewrite lookup_ge_None_2 by lia. done.
Qed.

Lemma convert_initial_cases init table : convert_initial init table = init \/
  exists f, init = Expr [RefFunc f] /\ convert_initial init table = Null (replicate (Z.to_nat (limits_min table)) f).
Proof.
  unfold convert_initial. destruct (_ <? _); [by left|]. destruct init as [|[|[] [|]]]; try by left. right. eauto.
Qed.

(** The elements of a table are the same whether it is filled with a function or
    the compiler makes an image of it. *)
Lemma convert_row P Q d init table t : P !! d = Some init -> Q !! d = Some (convert_initial init table) ->
  init_valid gs init table -> fresh table t ->
  row P (base + d) (initialized init t) = row Q (base + d) (initialized (convert_initial init table) t) /\
  Forall is_Some (row P (base + d) (initialized init t)).
Proof.
  intros HP HQ Hv [Ht Hl].
  assert (Forall is_Some (row P (base + d) (initialized init t))) as HS.
  { apply Forall_lookup. intros i o. rewrite row_lookup. destruct (initialized init t !! i) as [cell|] eqn:E; [|done].
    simpl. rewrite lazy_init_defined, HP. intros [= <-]. destruct cell as [v|]; [done|]. destruct init as [p|e]; [done|].
    apply lookup_replicate in E as [E _]. destruct Hv as [Hv _].
    destruct (eval_const_typed _ _ Hgs _ _ Hv) as (v & _ & _ & Hev). specialize (Hev []). unfold eval_const in Hev.
    by destruct (result_of context e []). }
  split; [|done]. apply list_eq. intros i. rewrite !row_lookup.
  destruct (convert_initial_cases init table) as [E|(f & -> & E)]; rewrite E in *.
  - destruct (initialized init t !! i); [|done]. simpl. by rewrite !lazy_init_defined, HP, HQ.
  - destruct Hv as ([= Hf] & _ & Hr). simpl. rewrite Ht, <- Hf, bool_decide_eq_true_2, length_replicate by done.
    destruct (decide (i < length t)%nat); [|by rewrite !lookup_ge_None_2 by (rewrite length_replicate; lia)].
    rewrite !lookup_replicate_2 by done. simpl. rewrite !lazy_init_defined, HQ.
    rewrite lookup_replicate_2 by (unfold zlen in Hl; lia). simpl. unfold TableInit.get_func_ref.
    rewrite (proj2 (Z.eqb_neq _ _)); [done|]. by apply Hr.
Qed.

Lemma convert_initials_zip inits defined : length inits = length defined ->
  convert_initials inits defined = zip_with convert_initial inits defined.
Proof.
  revert defined. induction inits as [|init inits IH]; intros [|table defined] H; try done.
  injection H as H. simpl. by rewrite IH.
Qed.

Lemma convert_typed init table : init_valid gs init table -> init_typed init /\ init_typed (convert_initial init table).
Proof.
  intros Hv. assert (init_typed init) as Hi by (destruct init; [done|destruct Hv as (He & Hc & _); by eexists]).
  split; [done|]. by destruct (convert_initial_cases init table) as [->|(f & _ & ->)].
Qed.

Lemma app_cases {A} (l1 l2 l3 : list A) k x : (l1 ++ l2 ++ l3) !! k = Some x ->
  ((k < length l1)%nat /\ l1 !! k = Some x) \/
  (exists d, k = (length l1 + d)%nat /\ (d < length l2)%nat /\ l2 !! d = Some x) \/
  ((length l1 + length l2 <= k)%nat /\ l3 !! (k - length l1 - length l2)%nat = Some x).
Proof.
  intros [H|[Hk [H|[Hk2 H]]%lookup_app_Some]]%lookup_app_Some.
  - left. split; [by eapply lookup_lt_Some|done].
  - right; left. exists (k - length l1)%nat. split_and!; [lia|by eapply lookup_lt_Some|done].
  - right; right. split; [lia|done].
Qed.

Lemma other_row P Q loc t : length P = length Q -> (loc < base \/ base + length P <= loc)%nat ->
  row P loc t = row Q loc t /\ Forall is_Some (row P loc t).
Proof.
  intros HPQ Hloc. split.
  - apply list_eq. intros i. rewrite !row_lookup. destruct (t !! i); [|done]. simpl. by rewrite !lazy_init_other by lia.
  - apply Forall_lookup. intros i o. rewrite row_lookup. destruct (t !! i); [|done]. simpl.
    rewrite lazy_init_other by lia. by intros [= <-].
Qed.

(** Stores of the same contents, table by table. *)
Lemma same_rows P Q s s' : length s = length s' ->
  (forall loc t t', s !! loc = Some t -> s' !! loc = Some t' -> row P loc t = row Q loc t' /\ Forall is_Some (row P loc t)) ->
  same context base others (length s) P Q s s'.
Proof.
  intros HL Hrow. split_and!; [| |done].
  - eapply list_eq_same_length; [reflexivity|unfold contents; by rewrite !length_imap|].
    intros loc r1 r2 _. rewrite !contents_lookup. intros (t1 & E1 & ->)%fmap_Some (t2 & E2 & ->)%fmap_Some. by apply Hrow.
  - apply Forall_lookup. intros loc r. rewrite contents_lookup. intros (t1 & E1 & ->)%fmap_Some.
    destruct (lookup_lt_is_Some_2 s' loc) as [t2 E2]; [rewrite <- HL; by eapply lookup_lt_Some|].
    by apply (Hrow loc t1 t2).
Qed.

(** After the first loops. *)
Lemma initial_same P defined before ts after : length before = base ->
  Forall2 (init_valid gs) P defined -> Forall2 fresh defined ts ->
  let Q := zip_with convert_initial P defined in
  same context base others (length (before ++ ts ++ after)) P Q
    (before ++ zip_with initialized P ts ++ after) (before ++ zip_with initialized Q ts ++ after).
Proof.
  intros Hb HV HF Q. pose proof (Forall2_length _ _ _ HV) as HlP. pose proof (Forall2_length _ _ _ HF) as Hlt.
  assert (length Q = length P) as HlQ by (unfold Q; rewrite length_zip_with; lia).
  replace (length (before ++ ts ++ after)) with (length (before ++ zip_with initialized P ts ++ after))
    by (rewrite !length_app, length_zip_with; lia).
  apply same_rows; [rewrite !length_app, !length_zip_with; lia|].
  intros loc t1 t2 H1 H2. apply app_cases in H1, H2. rewrite !length_zip_with, Hb in H1, H2.
  destruct H1 as [[Hk1 H1]|[(d & -> & Hd & H1)|[Hk1 H1]]], H2 as [[Hk2 H2]|[(d' & E & Hd' & H2)|[Hk2 H2]]]; try lia.
  - assert (t2 = t1) as -> by congruence. apply other_row; lia.
  - assert (d' = d) as -> by lia. rewrite lookup_zip_with in H1, H2.
    destruct (P !! d) as [init|] eqn:EP, (ts !! d) as [t|] eqn:Et; try done. simpl in H1.
    destruct (Q !! d) as [init'|] eqn:EQ; [|done]. simpl in H2. injection H1 as <-. injection H2 as <-.
    destruct (Forall2_lookup_l _ _ _ _ _ HV EP) as (table & Etab & Hv).
    destruct (Forall2_lookup_l _ _ _ _ _ HF Etab) as (t' & Et' & Hfr). assert (t' = t) as -> by congruence.
    unfold Q in EQ. rewrite lookup_zip_with, EP, Etab in EQ. injection EQ as <-.
    apply (convert_row P Q d init table t); [done| |done..]. unfold Q. by rewrite lookup_zip_with, EP, Etab.
  - assert (t2 = t1) as ->; [|apply other_row; lia].
    replace (length Q `min` length ts)%nat with (length P `min` length ts)%nat in H2 by lia. congruence.
Qed.
End initial.

(** ** Segments applied by the compiler *)

Section static.
Context (context : ConstEvalContext) (gs : list ValType) (Hgs : typed (globals context) gs).
Context (m : ModuleTables) (imports : list nat) (base : nat) (others : nat -> nat -> option Z).
Abbreviation row := (row context base others).
Abbreviation contents := (contents context base others).
Abbreviation same := (same context base others).

(** The tables that have an image are not initialized. *)
Definition imaged (Q : list TableInitialValue) (s : list RtTable) : Prop :=
  forall d p table, Q !! d = Some (Null p) -> tables m !! (num_imported_tables m + d)%nat = Some table -> top table = TopFunc ->
    exists k, s !! (base + d)%nat = Some (replicate k None) /\ Z.of_nat k = limits_min table.

Lemma set_functions_run loc i funcs s t : s !! loc = Some t -> (i + length funcs <= length t)%nat ->
  Forall (fun f => f <> reserved_value) funcs ->
  set_functions context loc i funcs s =
    Ret tt (<[loc := list_inserts i ((fun f => Some (VFuncRef (Some (func_ref context f)))) <$> funcs) t]> s).
Proof.
  intros E Hlen HF. revert i s t E Hlen. induction HF as [|f funcs Hf _ IH]; intros i s t E Hlen; simpl in *.
  - by rewrite list_insert_id.
  - rewrite (bind_run _ _ _ _ _ (get_exported_func_run _ _ _ Hf)).
    erewrite bind_run by (rewrite (set_run _ _ _ _ _ E), (proj2 (Nat.ltb_lt _ _)) by lia; reflexivity).
    erewrite IH; [|apply list_lookup_insert_eq; by eapply lookup_lt_Some|rewrite length_insert; lia].
    by rewrite list_insert_insert_eq, list_insert_inserts_lt by lia.
Qed.

(** The image read at an index: what was copied, or what it was before. *)
Lemma copy_functions_lookup p funcs off i :
  (f ← copy_functions p funcs off !! i; get_func_ref context f) =
    (f ← (if bool_decide (off <= i < off + length funcs)%nat then funcs !! (i - off)%nat else p !! i); get_func_ref context f).
Proof.
  unfold copy_functions. set (p' := if (_ <? _)%nat then _ else _).
  assert (off + length funcs <= length p')%nat as Hp'.
  { unfold p'. case Nat.ltb_spec; [|done]. intros. rewrite length_app, length_replicate. lia. }
  assert ((f ← p' !! i; get_func_ref context f) = (f ← p !! i; get_func_ref context f)) as Hread.
  { unfold p'. case Nat.ltb_spec; [|done]. intros Hlt. destruct (p !! i) as [f|] eqn:E; [by rewrite (lookup_app_l_Some _ _ _ _ E)|].
    rewrite lookup_app, E. destruct (replicate _ _ !! _) eqn:Er; [|done]. by apply lookup_replicate in Er as [-> _]. }
  case_bool_decide as Hi.
  - rewrite lookup_app_r, lookup_app_l by (rewrite length_take; lia). f_equal. f_equal. rewrite length_take. lia.
  - destruct (decide (i < off)%nat).
    + rewrite lookup_app_l, lookup_take_lt by (rewrite ?length_take; lia). exact Hread.
    + rewrite !lookup_app_r, lookup_drop by (rewrite ?length_take; lia). rewrite <- Hread. f_equal. f_equal. rewrite length_take. lia.
Qed.

(** The row of a table with an image. *)
Lemma imaged_row Q d p k i : Q !! d = Some (Null p) ->
  row Q (base + d) (replicate k None) !! i =
    if bool_decide (i < k)%nat then Some (Some (VFuncRef (f ← p !! i; get_func_ref context f))) else None.
Proof.
  intros HQ. rewrite row_lookup. case_bool_decide.
  - rewrite lookup_replicate_2 by done. simpl. by rewrite lazy_init_defined, HQ.
  - by rewrite lookup_ge_None_2 by (rewrite length_replicate; lia).
Qed.

(** Copying into the image is what writing the functions is. *)
Lemma copied_row P Q d p k funcs off t : Q !! d = Some (Null p) -> (off + length funcs <= k)%nat -> length t = k ->
  Forall (fun f => f <> reserved_value) funcs ->
  row P (base + d) t = row Q (base + d) (replicate k None) ->
  row P (base + d) (list_inserts off ((fun f => Some (VFuncRef (Some (func_ref context f)))) <$> funcs) t) =
    row (<[d := Null (copy_functions p funcs off)]> Q) (base + d) (replicate k None).
Proof.
  intros HQ Hoff Hk HF Hrow. apply list_eq. intros i.
  erewrite imaged_row by (apply list_lookup_insert_eq; by eapply lookup_lt_Some). rewrite copy_functions_lookup.
  pose proof (imaged_row Q d p k i HQ) as Hi. rewrite <- Hrow in Hi. rewrite row_lookup in *.
  case_bool_decide as Hik.
  - case_bool_decide as Hoi.
    + rewrite list_lookup_inserts, list_lookup_fmap by (rewrite ?length_fmap; lia).
      destruct (lookup_lt_is_Some_2 funcs (i - off)) as [f Ef]; [lia|]. rewrite Ef. simpl.
      pose proof (Forall_lookup_1 _ _ _ _ HF Ef) as Hf. unfold get_func_ref. by rewrite (proj2 (Z.eqb_neq _ _) Hf).
    + destruct (decide (i < off)%nat); [by rewrite list_lookup_inserts_lt|].
      by rewrite list_lookup_inserts_ge by (rewrite length_fmap; lia).
  - by rewrite lookup_ge_None_2 by (rewrite length_inserts; lia).
Qed.

(** The offset of a static segment is what its expression evaluates to. *)
Lemma static_offset_run e off ty : static_offset e = Some off -> expr_type gs e = Some (index_val_type ty) ->
  exists v, (forall s, eval_const context e s = Ret v s) /\ get_index v ty = Some off /\ 0 <= off.
Proof.
  unfold static_offset. destruct e as [|[] [|]]; try done; intros [= <-]; unfold expr_type; simpl;
    case_bool_decide; destruct ty; try done; intros _; (eexists; split_and!; [reflexivity|reflexivity|by apply Z.mod_pos_bound]).
Qed.

(** What the compiler has checked when it applies a segment. *)
Lemma static_segment_Some Q segment Q' : static_segment m Q segment = Some Q' ->
  exists d off top_ table funcs p, defined_table_index m (table_index segment) = Some d /\
    static_offset (offset segment) = Some off /\ checked_add u64_MAX off (elements_len (elements segment)) = Some top_ /\
    tables m !! table_index segment = Some table /\ top_ <= limits_min table /\ top table = TopFunc /\
    elements segment = Functions funcs /\ Q !! d = Some (Null p) /\
    Q' = <[d := Null (copy_functions p funcs (Z.to_nat off))]> Q.
Proof.
  unfold static_segment. intros H. unfold mbind, option_bind in H.
  destruct (defined_table_index m _) as [d|]; [|done]. destruct (static_offset _) as [off|]; [|done].
  destruct (checked_add u64_MAX off (elements_len (elements segment))) as [top_|] eqn:Et; [|done]. destruct (tables m !! _) as [table|]; [|done].
  destruct (_ || _) eqn:Eb; [done|]. apply orb_false_iff in Eb as [Eb%Z.ltb_ge _].
  destruct (bool_decide (top table = TopFunc)) eqn:Ef; [|done]. apply bool_decide_eq_true in Ef.
  destruct (elements segment) as [funcs|]; [|done]. destruct (Q !! d) as [[p|]|] eqn:Eq; try done.
  injection H as <-. exists d, off, top_, table, funcs, p. done.
Qed.

Lemma imaged_insert Q s d p p' : imaged Q s -> Q !! d = Some (Null p) -> imaged (<[d := Null p']> Q) s.
Proof.
  intros Him HQ d2 p2 table2 H. apply list_lookup_insert_Some in H as [(<- & _ & _)|[_ H]]; [by apply (Him d p)|by apply (Him d2 p2)].
Qed.

(** Another image for one table. *)
Lemma contents_image Q s d p : (d < length Q)%nat ->
  contents (<[d := Null p]> Q) s =
    match s !! (base + d)%nat with
    | Some t => <[(base + d)%nat := row (<[d := Null p]> Q) (base + d) t]> (contents Q s)
    | None => contents Q s
    end.
Proof.
  intros Hd. apply list_eq. intros loc. rewrite contents_lookup.
  assert (forall t, (loc <> base + d)%nat -> row (<[d := Null p]> Q) loc t = row Q loc t) as Hne.
  { intros t Hne. apply imap_ext. intros i cell _. unfold lazy_init.
    destruct cell; [done|]. case Nat.leb_spec; [|done]. intros. rewrite list_lookup_insert_ne; [done|lia]. }
  destruct (decide (loc = base + d)%nat) as [->|Hloc].
  - destruct (s !! _) eqn:E; simpl; [|by rewrite contents_lookup, E].
    rewrite list_lookup_insert_eq; [done|]. unfold contents. rewrite length_imap. by eapply lookup_lt_Some.
  - replace (row (<[d := Null p]> Q) loc <$> s !! loc) with (contents Q s !! loc)
      by (rewrite contents_lookup; destruct (s !! loc); simpl; by rewrite ?Hne).
    destruct (s !! (base + d)%nat); [|done]. by rewrite list_lookup_insert_ne.
Qed.

Lemma static_segment_run n P Q s s' segment Q' : segment_valid gs m segment -> imaged Q s' -> same n P Q s s' ->
  static_segment m Q segment = Some Q' ->
  exists s1, init_segment m context imports base segment s = Ret tt s1 /\ same n P Q' s1 s' /\ imaged Q' s'.
Proof.
  intros (table & Ht & Hoff & Hseg) Him Hs H.
  apply static_segment_Some in H as (d & off & top_ & table' & funcs & p & Hd & Ho & Htop & Ht' & Hmin & Hf & He & HQ & ->).
  assert (table' = table) as -> by congruence. rewrite He in *. destruct Hseg as [_ HF].
  assert (table_index segment = num_imported_tables m + d)%nat as Hidx.
  { unfold defined_table_index in Hd. case_bool_decide; [done|]. injection Hd as <-. lia. }
  rewrite Hidx in Ht. destruct (Him d p table HQ Ht Hf) as (k & Es' & Hk).
  destruct (static_offset_run _ _ _ Ho Hoff) as (v & Hev & Hi & Hoff0).
  apply checked_add_Some in Htop as [-> Hmax]. simpl in Hmin, Hmax.
  destruct (lookup_lt_is_Some_2 s (base + d)) as [t Et].
  { destruct Hs as (Hc & _ & _). apply lookup_lt_Some in Es'. apply (f_equal length) in Hc.
    unfold contents in Hc. rewrite !length_imap in Hc. lia. }
  pose proof (same_lookup context base others n P Q s s' (base + d) Hs) as (t2 & t2' & E2 & E2' & Hrow & HFt & Hlen).
  { destruct Hs as (_ & _ & <-). by eapply lookup_lt_Some. }
  assert (t2 = t) as -> by congruence. assert (t2' = replicate k None) as -> by congruence. rewrite length_replicate in Hlen.
  assert (init_segment m context imports base segment s = Ret tt
    (<[(base + d)%nat := list_inserts (Z.to_nat off) ((fun f => Some (VFuncRef (Some (func_ref context f)))) <$> funcs) t]> s)) as Hrun.
  { unfold init_segment. rewrite (bind_run _ _ _ _ _ (Hev s)), Hidx.
    rewrite (bind_run _ _ _ _ _ (unwrap_run _ _ s Ht)), (bind_run _ _ _ _ _ (unwrap_run _ _ s Hi)), He.
    assert (Hadd : checked_add u64_MAX off (elements_len (Functions funcs)) = Some (off + zlen funcs)) by (by apply checked_add_Some).
    assert (Hloc : location m imports base (num_imported_tables m + d) = Some (base + d)%nat).
    { unfold location. by rewrite <- Hidx, Hd. }
    rewrite Hadd. erewrite bind_run by reflexivity. rewrite (bind_run _ _ _ _ _ (unwrap_run _ _ s Hloc)).
    rewrite (bind_run _ _ _ _ _ (size_run _ _ _ Et)), (proj2 (Z.ltb_ge _ _)) by (unfold zlen in *; lia).
    apply set_functions_run; [done| |done]. unfold zlen in *. lia. }
  eexists. split; [exact Hrun|]. split; [|by eapply imaged_insert]. destruct Hs as (Hc & HA & Hn).
  assert (Hd' : (d < length Q)%nat) by (by eapply lookup_lt_Some).
  assert (HR : contents P (<[(base + d)%nat := list_inserts (Z.to_nat off) ((fun f => Some (VFuncRef (Some (func_ref context f)))) <$> funcs) t]> s)
    = <[(base + d)%nat := row (<[d := Null (copy_functions p funcs (Z.to_nat off))]> Q) (base + d) (replicate k None)]> (contents P s)).
  { rewrite contents_insert. f_equal. apply copied_row; [done|unfold zlen in *; lia|done..]. }
  split; [rewrite HR, contents_image, Es', Hc by done; done|]. split; [|by rewrite length_insert].
  rewrite HR. apply Forall_insert; [done|]. apply Forall_lookup. intros i o.
  erewrite imaged_row by (by apply list_lookup_insert_eq). case_bool_decide; [|done]. by intros [= <-].
Qed.

Lemma static_segments_run n P Q s s' segs : Forall (segment_valid gs m) segs -> imaged Q s' -> same n P Q s s' ->
  let '(Q', rest) := static_segments m Q segs in
  exists s1, init_segments m context imports base segs s = init_segments m context imports base rest s1 /\
    same n P Q' s1 s' /\ Forall (segment_valid gs m) rest.
Proof.
  intros HV. revert Q s. induction HV as [|segment segs Hseg HV IH]; intros Q s Him Hs; simpl; [by eauto|].
  destruct (static_segment m Q segment) as [Q1|] eqn:E.
  - destruct (static_segment_run _ _ _ _ _ _ _ Hseg Him Hs E) as (s1 & Hrun & Hs1 & Him1).
    specialize (IH Q1 s1 Him1 Hs1). destruct (static_segments m Q1 segs) as [Q' rest].
    destruct IH as (s2 & Hr & ?). exists s2. split; [|done]. by rewrite (bind_run _ _ _ _ _ Hrun).
  - exists s. split_and!; [done|done|by constructor].
Qed.
End static.

(** ** The whole of it *)

Section whole.
Context (context : ConstEvalContext) (gs : list ValType) (Hgs : typed (globals context) gs).
Context (m : ModuleTables) (imports : list nat) (base : nat) (others : nat -> nat -> option Z) (s : list RtTable).
Context (Hm : valid gs m) (Hl : linked m imports base s).

Lemma read_contents m0 s0 loc i :
  read m0 context base others s0 loc i = (r ← contents context base others (initial_values m0) s0 !! loc; r !! i).
Proof.
  unfold read. rewrite contents_lookup. destruct (s0 !! loc) as [t|]; [|done]. simpl. rewrite row_lookup. by destruct (t !! i).
Qed.

Lemma same_read n m1 m2 s1 s2 loc i : same context base others n (initial_values m1) (initial_values m2) s1 s2 ->
  read m1 context base others s1 loc i = read m2 context base others s2 loc i /\ read m1 context base others s1 loc i <> Some None.
Proof.
  intros (Hc & HA & _). rewrite !read_contents, <- Hc. split; [done|].
  destruct (contents context base others (initial_values m1) s1 !! loc) as [r|] eqn:E; [|done]. simpl. intros Hr.
  pose proof (Forall_lookup_1 _ _ _ _ HA E) as Hrow. by destruct (Forall_lookup_1 _ _ _ _ Hrow Hr).
Qed.

(** The initial values, with and without the compiler's images. *)
Lemma initial_values_same : exists s1 s1',
  initial_values_from context base 0 (initial_values m) s = Ret tt s1 /\
  (let Q := convert_initials (initial_values m) (drop (num_imported_tables m) (tables m)) in
   initial_values_from context base 0 Q s = Ret tt s1' /\
   same context base others (length s) (initial_values m) Q s1 s1' /\ imaged m base Q s1').
Proof.
  destruct (linked_defined _ _ _ _ Hl) as [Hb Hfresh]. pose proof (valid_inits _ _ Hm) as HV.
  set (P := initial_values m) in *. set (defined := drop _ (tables m)) in *.
  set (ts := take _ (drop base s)) in *. set (before := take base s).
  assert (exists after, s = before ++ ts ++ after) as [after Hs].
  { eexists. unfold before, ts. by rewrite !take_drop. }
  assert (length before = base) as Hbefore by (unfold before; rewrite length_take; lia).
  rewrite convert_initials_zip by (by eapply Forall2_length).
  assert (length ts = length P) as Hts by (rewrite <- (Forall2_length _ _ _ Hfresh); symmetry; by eapply Forall2_length).
  pose proof (Forall2_length _ _ _ HV) as Hdef.
  exists (before ++ zip_with (initialized context) P ts ++ after),
    (before ++ zip_with (initialized context) (zip_with convert_initial P defined) ts ++ after).
  assert (HT : Forall (init_typed gs) P /\ Forall (init_typed gs) (zip_with convert_initial P defined)).
  { clear -HV. induction HV as [|init table P defined Hv _ [IH1 IH2]]; [done|].
    apply convert_typed in Hv as [??]. split; by constructor. }
  assert (HM : Forall (fun t => zlen t <= u64_MAX) ts).
  { clear -Hfresh. induction Hfresh as [|table t ? ? [_ Ht]]; constructor; [lia|done]. }
  destruct HT as [HT1 HT2]. split; [|split_and!].
  - rewrite Hs at 1. by apply (initial_values_run context gs); rewrite ?Nat.add_0_r.
  - rewrite Hs at 1. apply (initial_values_run context gs); rewrite ?length_zip_with; (done || lia).
  - rewrite Hs. by apply (initial_same context gs Hgs).
  - intros d p table HQ Ht Hf. rewrite lookup_app_r by lia. replace (base + d - length before)%nat with d by lia.
    rewrite lookup_app_l by (rewrite !length_zip_with; apply lookup_lt_Some in HQ; rewrite length_zip_with in HQ; lia).
    rewrite lookup_zip_with, HQ. rewrite <- lookup_drop in Ht. fold defined in Ht.
    destruct (Forall2_lookup_l _ _ _ _ _ Hfresh Ht) as (t & Et & Hrep & Hlen). rewrite Et. simpl.
    exists (length t). split; [|by destruct Hlen]. f_equal.
    rewrite Hrep at 1. by rewrite bool_decide_eq_true_2.
Qed.

(** The images do not matter to the first loop. *)
Lemma initial_values_image Q d p p' : Q !! d = Some (Null p) ->
  forall d0 s0, initial_values_from context base d0 (<[d := Null p']> Q) s0 = initial_values_from context base d0 Q s0.
Proof.
  revert d. induction Q as [|init Q IH]; intros [|d] HQ d0 s0; try done; simpl in *; [by injection HQ as ->|].
  destruct init; [by apply IH|]. unfold bind. destruct (eval_const context expr s0) as [v s1| |]; [|done..].
  destruct (unwrap (ref_ v) s1) as [r s2| |]; [|done..]. destruct (size_ _ s2) as [size s3| |]; [|done..].
  destruct (_fill _ 0 r size s3); [|done..]. by apply IH.
Qed.

Lemma initial_values_static segs : forall Q d0 s0,
  initial_values_from context base d0 (static_segments m Q segs).1 s0 = initial_values_from context base d0 Q s0.
Proof.
  induction segs as [|segment segs IH]; intros Q d0 s0; [done|]. simpl.
  destruct (static_segment m Q segment) as [Q1|] eqn:E; [|done]. rewrite IH.
  apply static_segment_Some in E as (d & off & top_ & table & funcs & p & _ & _ & _ & _ & _ & _ & _ & HQ & ->).
  by eapply initial_values_image.
Qed.
End whole.


(** Two tables, one imported and one defined and filled with a function; a
    segment that is applied statically, and one that starts at a global. *)
Definition example_module : ModuleTables := mkModule
  [mkTableDef IxI32 2 TopFunc; mkTableDef IxI32 4 TopFunc] 1
  [Expr [RefFunc 3]]
  [mkSegment 1 [I32Const 1] (Functions [5; 6]); mkSegment 0 [GlobalGet 0] (Functions [7])].

Definition example_store : list RtTable := [[None; Some (VFuncRef None)]; [None; None; None; None]].

Definition example_context (start : Z) : ConstEvalContext := mkContext [VI32 start] (fun f => 4096 + 32 * f).


(** The last segment is out of bounds: the tables stay as the first one left them. *)
Example out_of_bounds_segment :
  initialize_tables (try_func_table_init example_module) (example_context 2) [0%nat] 1 example_store =
    Fail TableOutOfBounds [[None; Some (VFuncRef None)]; [None; None; None; None]] /\
  read (try_func_table_init example_module) (example_context 2) 1 (fun _ _ => Some 100) example_store 1 2 =
    Some (Some (VFuncRef (Some (4096 + 32 * 6)))).
Proof. split; reflexivity. Qed.

(** The initial value of a table of continuations, which is valid, panics. *)
Example continuation_panics : let m := mkModule [mkTableDef IxI32 1 TopCont] 0 [Expr [RefNull TopCont]] [] in
  expr_type [] [RefNull TopCont] = Some (TyRef TopCont) /\
  initialize_tables m (example_context 0) [] 0 [[Some (VContRef None)]] = Panic.
Proof. split; reflexivity. Qed.
