(* ===== verification/ClifOps.v ===== *)
(** * The integer operations of the CLIF interpreter: typing and meaning

    Over the definitions of ClifValue.v.  Every operation on well-formed
    operands of one integer type returns a well-formed value of that type (or,
    for the divisions, exactly the documented errors), and computes what the
    documentation of the instruction says of the unsigned or signed values. *)

From S2P Require Import BitSet.
From S2P Require Import Prelude ClifTypes DivConst CondCodes ClifValue.
Import DataValueExt.

(** ** Typing *)

Definition typed1 (op : DataValue -> ValueResult DataValue) : Prop :=
  forall l v, has_type v (Lane l) -> exists r, op v = Ok r /\ has_type r (Lane l).

Definition typed2 (op : DataValue -> DataValue -> ValueResult DataValue) : Prop :=
  forall l u v, has_type u (Lane l) -> has_type v (Lane l) ->
  exists r, op u v = Ok r /\ has_type r (Lane l).

Lemma has_type_lane v l : has_type v (Lane l) ->
  exists n, v = VI l n /\ lt_is_int l = true /\ in_signed (lt_bits l) n.
Proof.
  intros [Hwf Hty]. destruct v as [l' n|b]; [|by destruct Hty].
  injection Hty as <-. exists n. by destruct Hwf.
Qed.

Lemma has_type_intro l n : lt_is_int l = true -> in_signed (lt_bits l) n -> has_type (VI l n) (Lane l).
Proof. intros. split; [by split|done]. Qed.

Lemma unary_match_typed f :
  (forall l a, lt_is_int l = true -> in_signed (lt_bits l) a -> in_signed (lt_bits l) (f (lt_bits l) a)) ->
  typed1 (unary_match f).
Proof.
  intros Hf l v (n & -> & Hl & Hn)%has_type_lane. eexists. simpl. rewrite Hl.
  split; [done|]. apply has_type_intro; auto.
Qed.

Lemma binary_val_run f l a b : lt_is_int l = true ->
  binary_val f (VI l a) (VI l b) = Ok (VI l (f (lt_bits l) a b)).
Proof. intros Hl. unfold binary_val, binary_match. rewrite decide_True by done. by rewrite Hl. Qed.

Lemma binary_val_typed f :
  (forall l a b, lt_is_int l = true -> in_signed (lt_bits l) a -> in_signed (lt_bits l) b ->
     in_signed (lt_bits l) (f (lt_bits l) a b)) ->
  typed2 (binary_val f).
Proof.
  intros Hf l u v (a & -> & Hl & Ha)%has_type_lane (b & -> & _ & Hb)%has_type_lane.
  rewrite binary_val_run by done. eexists. split; [done|]. apply has_type_intro; auto.
Qed.

(** The amount of a shift is taken modulo the width, whatever its sign. *)
Lemma shift_amount l b : lt_is_int l = true ->
  wrap 32 (swrap 32 b) mod lt_bits l = b mod lt_bits l.
Proof.
  intros Hl. rewrite wrap_swrap by lia. unfold wrap. apply Z.mod_mod_divide.
  destruct l; try done; [exists (2 ^ 29)|exists (2 ^ 28)|exists (2 ^ 27)|exists (2 ^ 26)|exists (2 ^ 25)];
    reflexivity.
Qed.

Lemma shift_match_run f l a l' b : lt_is_int l = true -> lt_is_int l' = true ->
  shift_match f (VI l a) (VI l' b) = Ok (VI l (f (lt_bits l) a (b mod lt_bits l))).
Proof.
  intros Hl Hl'. unfold shift_match. cbn [convert ty vt_is_int into_int_signed from_integer].
  rewrite Hl'. cbn -[swrap wrap]. rewrite Hl. by rewrite shift_amount.
Qed.

Lemma shift_match_typed f :
  (forall l a k, lt_is_int l = true -> in_signed (lt_bits l) a -> 0 <= k < lt_bits l ->
     in_signed (lt_bits l) (f (lt_bits l) a k)) ->
  typed2 (shift_match f).
Proof.
  intros Hf l u v (a & -> & Hl & Ha)%has_type_lane (b & -> & _ & Hb)%has_type_lane.
  rewrite shift_match_run by done. eexists. split; [done|]. apply has_type_intro; [done|].
  apply Hf; [done..|]. pose proof (lt_bits_pos l). apply Z.mod_pos_bound. lia.
Qed.

Lemma swrap_in_lane l z : in_signed (lt_bits l) (swrap (lt_bits l) z).
Proof. pose proof (lt_bits_pos l). apply swrap_in. lia. Qed.
#[export] Hint Resolve swrap_in_lane has_type_intro : clif.

(** The positions of the ones of a pattern. *)
Lemma ones_bounds w x : 0 <= w -> 0 <= BitSet.count_ones w x <= w /\
  0 <= BitSet.leading_zeros w x <= w /\ 0 <= BitSet.trailing_zeros w x <= w.
Proof.
  intros Hw. split_and!.
  - unfold BitSet.count_ones. apply zlen_nonneg.
  - unfold BitSet.count_ones, ones_of, zlen.
    pose proof (length_filter (fun i => Z.testbit x i = true) (seqZ 0 w)) as Hle.
    rewrite length_seqZ in Hle. lia.
  - unfold BitSet.leading_zeros. destruct (last (ones_of w x)) as [m|] eqn:E; [|done].
    assert (m ∈ ones_of w x) as Hm by (apply last_Some_elem_of in E; done).
    unfold ones_of in Hm. apply list_elem_of_filter in Hm as [_ Hm%elem_of_seqZ]. lia.
  - unfold BitSet.leading_zeros. destruct (last (ones_of w x)) as [m|] eqn:E; [|done].
    assert (m ∈ ones_of w x) as Hm by (apply last_Some_elem_of in E; done).
    unfold ones_of in Hm. apply list_elem_of_filter in Hm as [_ Hm%elem_of_seqZ]. lia.
  - unfold BitSet.trailing_zeros. destruct (ones_of w x) as [|m k] eqn:E; simpl; [lia|].
    assert (m ∈ ones_of w x) as Hm by (rewrite E; left).
    unfold ones_of in Hm. apply list_elem_of_filter in Hm as [_ Hm%elem_of_seqZ]. lia.
  - unfold BitSet.trailing_zeros. destruct (ones_of w x) as [|m k] eqn:E; simpl; [lia|].
    assert (m ∈ ones_of w x) as Hm by (rewrite E; left).
    unfold ones_of in Hm. apply list_elem_of_filter in Hm as [_ Hm%elem_of_seqZ]. lia.
Qed.

Lemma bitop_val f u v l : has_type u (Lane l) -> has_type v (Lane l) ->
  bitop f u v = binary_val (fun _ => f) u v.
Proof. by intros (a & -> & _)%has_type_lane (b & -> & _)%has_type_lane. Qed.

Lemma bitop_typed f :
  (forall x y n, Z.shiftr (f x y) n = f (Z.shiftr x n) (Z.shiftr y n)) ->
  (forall x y, (x = 0 \/ x = -1) -> (y = 0 \/ y = -1) -> f x y = 0 \/ f x y = -1) ->
  typed2 (bitop f).
Proof.
  intros H1 H2 l u v Hu Hv. rewrite (bitop_val f u v l) by done.
  apply binary_val_typed; [|done..]. intros. apply in_signed_bitop; try done.
  pose proof (lt_bits_pos l0). lia.
Qed.

(** One of two operands. *)
Lemma choice_typed (c : bool) u v l : has_type u (Lane l) -> has_type v (Lane l) ->
  exists r, Ok (if c then u else v) = Ok r /\ has_type r (Lane l).
Proof. intros. eexists. split; [done|]. by destruct c. Qed.

Lemma minmax_typed : typed2 umax /\ typed2 smax /\ typed2 umin /\ typed2 smin.
Proof.
  split_and!; intros l u v Hu Hv; unfold umax, smax, umin, smin; try by apply choice_typed.
  - pose proof Hu as (a & -> & _)%has_type_lane. pose proof Hv as (b & -> & _)%has_type_lane.
    cbn -[wrap]. by apply choice_typed.
  - pose proof Hu as (a & -> & _)%has_type_lane. pose proof Hv as (b & -> & _)%has_type_lane.
    cbn -[wrap]. by apply choice_typed.
Qed.

Lemma arith_typed :
  typed2 add /\ typed2 sub /\ typed2 mul /\ typed2 sadd_sat /\ typed2 uadd_sat /\
  typed2 ssub_sat /\ typed2 usub_sat.
Proof.
  split_and!; apply binary_val_typed; intros l a b _ _ _; auto with clif;
    apply in_signed_sat; pose proof (lt_bits_pos l); lia.
Qed.

Lemma shifts_typed : typed2 shl /\ typed2 ushr /\ typed2 sshr /\ typed2 rotl /\ typed2 rotr.
Proof.
  split_and!; apply shift_match_typed; intros l a k _ Ha Hk; auto with clif.
  apply in_signed_shr; [pose proof (lt_bits_pos l); lia|lia|done].
Qed.

Lemma bitops_typed :
  typed2 DataValueExt.and /\ typed2 DataValueExt.or /\ typed2 DataValueExt.xor /\
  typed1 DataValueExt.not.
Proof.
  split_and!; [apply bitop_typed..|].
  - intros. apply Z.shiftr_land.
  - intros x y [->| ->] [->| ->]; auto.
  - intros. apply Z.shiftr_lor.
  - intros x y [->| ->] [->| ->]; auto.
  - intros. apply Z.shiftr_lxor.
  - intros x y [->| ->] [->| ->]; auto.
  - intros l v Hv. pose proof Hv as (a & -> & _)%has_type_lane. apply unary_match_typed; [|done].
    intros. apply in_signed_lnot; [pose proof (lt_bits_pos l0); lia|done].
Qed.

Lemma counts_typed :
  typed1 count_ones /\ typed1 leading_ones /\ typed1 leading_zeros /\ typed1 trailing_zeros /\
  typed1 reverse_bits.
Proof.
  split_and!; apply unary_match_typed; intros l a _ _; auto with clif;
    apply in_signed_count, ones_bounds; pose proof (lt_bits_pos l); lia.
Qed.

(** ** Divisions *)

Lemma min_value_run l a : lt_is_int l = true -> min_value (VI l a) = Ok (VI l (- 2 ^ (lt_bits l - 1))).
Proof. intros Hl. by destruct l. Qed.

Lemma sdiv_run l a b : lt_is_int l = true ->
  sdiv (VI l a) (VI l b) =
    if bool_decide (a = - 2 ^ (lt_bits l - 1)) && (b =? -1) then Err IntegerOverflow
    else if b =? 0 then Err IntegerDivisionByZero else Ok (VI l (Z.quot a b)).
Proof.
  intros Hl. unfold sdiv. cbn [into_int_signed mbind ValueResult_bind].
  rewrite min_value_run by done. cbn [mbind ValueResult_bind].
  rewrite (bool_decide_ext (VI l a = VI l _) (a = - 2 ^ (lt_bits l - 1))) by naive_solver.
  destruct (_ && _); [done|]. destruct (b =? 0); [done|]. by rewrite binary_val_run.
Qed.

Lemma srem_run l a b : lt_is_int l = true ->
  srem (VI l a) (VI l b) =
    if bool_decide (a = - 2 ^ (lt_bits l - 1)) && (b =? -1) then Err IntegerOverflow
    else if b =? 0 then Err IntegerDivisionByZero else Ok (VI l (Z.rem a b)).
Proof.
  intros Hl. unfold srem. cbn [into_int_signed mbind ValueResult_bind].
  rewrite min_value_run by done. cbn [mbind ValueResult_bind].
  rewrite (bool_decide_ext (VI l a = VI l _) (a = - 2 ^ (lt_bits l - 1))) by naive_solver.
  destruct (_ && _); [done|]. destruct (b =? 0); [done|]. by rewrite binary_val_run.
Qed.

(** The value of type [l] with the unsigned value [u]. *)
Definition uval (l : LaneType) (u : Z) : DataValue := VI l (swrap (lt_bits l) u).

Lemma wrap_zero l b : in_signed (lt_bits l) b -> (wrap (lt_bits l) b =? 0) = (b =? 0).
Proof.
  intros Hb. pose proof (lt_bits_pos l). rewrite wrap_signed by (done || lia).
  unfold in_signed in Hb. destruct (pow_width (lt_bits l)); [lia|].
  destruct (Z.ltb_spec b 0); [|done].
  rewrite (proj2 (Z.eqb_neq _ _)), (proj2 (Z.eqb_neq _ _)) by lia. done.
Qed.

Lemma udiv_run l a b : lt_is_int l = true -> in_signed (lt_bits l) b ->
  udiv (VI l a) (VI l b) =
    if b =? 0 then Err IntegerDivisionByZero
    else Ok (uval l (wrap (lt_bits l) a / wrap (lt_bits l) b)).
Proof.
  intros Hl Hb. unfold udiv. cbn [into_int_unsigned mbind ValueResult_bind]. rewrite wrap_zero by done.
  destruct (b =? 0); [done|]. by rewrite binary_val_run.
Qed.

Lemma urem_run l a b : lt_is_int l = true -> in_signed (lt_bits l) b ->
  urem (VI l a) (VI l b) =
    if b =? 0 then Err IntegerDivisionByZero
    else Ok (uval l (wrap (lt_bits l) a mod wrap (lt_bits l) b)).
Proof.
  intros Hl Hb. unfold urem. cbn [into_int_unsigned mbind ValueResult_bind]. rewrite wrap_zero by done.
  destruct (b =? 0); [done|]. by rewrite binary_val_run.
Qed.

(** ** Arithmetic on unsigned values *)

Lemma uval_mod l x y : wrap (lt_bits l) x = wrap (lt_bits l) y -> VI l (swrap (lt_bits l) x) = uval l y.
Proof. intros E. unfold uval. f_equal. by apply swrap_eq. Qed.

Lemma uval_range l u : 0 <= u < 2 ^ lt_bits l -> wrap (lt_bits l) (swrap (lt_bits l) u) = u.
Proof. intros. pose proof (lt_bits_pos l). rewrite wrap_swrap, wrap_small by lia. done. Qed.

Lemma wrap_add w a b : wrap w (a + b) = wrap w (wrap w a + wrap w b).
Proof. unfold wrap. by rewrite Zplus_mod. Qed.
Lemma wrap_sub w a b : wrap w (a - b) = wrap w (wrap w a - wrap w b).
Proof. unfold wrap. by rewrite Zminus_mod. Qed.
Lemma wrap_mul w a b : wrap w (a * b) = wrap w (wrap w a * wrap w b).
Proof. unfold wrap. by rewrite Zmult_mod. Qed.
Lemma wrap_wrap w a : wrap w (wrap w a) = wrap w a.
Proof. unfold wrap. by rewrite Zmod_mod. Qed.

(** The arithmetic of the interpreter is the documented one: for every
    integer type and all operands, addition, subtraction and multiplication are
    those of the unsigned values modulo the width; the shifts take the amount
    modulo the width and multiply or divide by the power of two, the unsigned
    shift the unsigned value and the signed one the signed value, rounding
    down; the saturating operations clamp the exact result. *)
Theorem interp_arith_meaning l a b :
  lt_is_int l = true -> in_signed (lt_bits l) a -> in_signed (lt_bits l) b ->
  let w := lt_bits l in
  let ua := wrap w a in
  let ub := wrap w b in
  let k := b mod w in
  add (VI l a) (VI l b) = Ok (uval l ((ua + ub) mod 2 ^ w)) /\
  sub (VI l a) (VI l b) = Ok (uval l ((ua - ub) mod 2 ^ w)) /\
  mul (VI l a) (VI l b) = Ok (uval l ((ua * ub) mod 2 ^ w)) /\
  shl (VI l a) (VI l b) = Ok (uval l ((ua * 2 ^ k) mod 2 ^ w)) /\
  ushr (VI l a) (VI l b) = Ok (uval l (ua / 2 ^ k)) /\
  sshr (VI l a) (VI l b) = Ok (VI l (a / 2 ^ k)) /\
  uadd_sat (VI l a) (VI l b) = Ok (uval l (Z.min (ua + ub) (2 ^ w - 1))) /\
  usub_sat (VI l a) (VI l b) = Ok (uval l (Z.max (ua - ub) 0)) /\
  sadd_sat (VI l a) (VI l b) = Ok (VI l (Z.max (- 2 ^ (w - 1)) (Z.min (a + b) (2 ^ (w - 1) - 1)))) /\
  ssub_sat (VI l a) (VI l b) = Ok (VI l (Z.max (- 2 ^ (w - 1)) (Z.min (a - b) (2 ^ (w - 1) - 1)))).
Proof.
  intros Hl Ha Hb. cbv zeta. pose proof (lt_bits_pos l).
  pose proof (wrap_range (lt_bits l) ltac:(lia) a). pose proof (wrap_range (lt_bits l) ltac:(lia) b).
  pose proof (Z.mod_pos_bound b (lt_bits l) ltac:(lia)).
  unfold add, sub, mul, shl, ushr, sshr, uadd_sat, usub_sat, sadd_sat, ssub_sat.
  rewrite !binary_val_run, !shift_match_run by done.
  split_and!; try done; try (f_equal; apply uval_mod; fold (wrap (lt_bits l) (wrap (lt_bits l) a)));
    rewrite <- ?wrap_add, <- ?wrap_sub, <- ?wrap_mul.
  - change (_ mod 2 ^ lt_bits l) with (wrap (lt_bits l) (wrap (lt_bits l) a + wrap (lt_bits l) b)).
    by rewrite wrap_wrap, <- wrap_add.
  - change (_ mod 2 ^ lt_bits l) with (wrap (lt_bits l) (wrap (lt_bits l) a - wrap (lt_bits l) b)).
    by rewrite wrap_wrap, <- wrap_sub.
  - change (_ mod 2 ^ lt_bits l) with (wrap (lt_bits l) (wrap (lt_bits l) a * wrap (lt_bits l) b)).
    by rewrite wrap_wrap, <- wrap_mul.
  - change (_ mod 2 ^ lt_bits l) with
      (wrap (lt_bits l) (wrap (lt_bits l) a * 2 ^ (b mod lt_bits l))).
    rewrite wrap_wrap, Z.shiftl_mul_pow2 by lia.
    by rewrite (wrap_mul _ (wrap _ a)), wrap_wrap, <- wrap_mul.
  - by rewrite Z.shiftr_div_pow2 by lia.
  - by rewrite Z.shiftr_div_pow2 by lia.
  - f_equal. unfold u_sat. lia.
  - f_equal. unfold u_sat. lia.
Qed.

Lemma interp_arith_meaning_witness : add (VI I8 127) (VI I8 1) = Ok (uval I8 128).
Proof. apply (interp_arith_meaning I8 127 1); [reflexivity|unfold in_signed; simpl; lia..]. Defined.

(** The overflow flags are exact: the flag of a signed (unsigned)
    addition, subtraction or multiplication is set exactly when the exact result
    on signed (unsigned) values is out of the range of the type, the value is the
    wrapped result in any case, and the checked additions return the exact sum
    or nothing. *)
Theorem interp_overflow_exact l a b :
  lt_is_int l = true -> in_signed (lt_bits l) a -> in_signed (lt_bits l) b ->
  let w := lt_bits l in
  let ua := wrap w a in
  let ub := wrap w b in
  let sfits z := bool_decide (in_signed w z) in
  let ufits z := bool_decide (0 <= z < 2 ^ w) in
  sadd_overflow (VI l a) (VI l b) = Ok (VI l (swrap w (a + b)), negb (sfits (a + b))) /\
  ssub_overflow (VI l a) (VI l b) = Ok (VI l (swrap w (a - b)), negb (sfits (a - b))) /\
  smul_overflow (VI l a) (VI l b) = Ok (VI l (swrap w (a * b)), negb (sfits (a * b))) /\
  uadd_overflow (VI l a) (VI l b) = Ok (uval l (ua + ub), negb (ufits (ua + ub))) /\
  usub_overflow (VI l a) (VI l b) = Ok (uval l (ua - ub), negb (ufits (ua - ub))) /\
  umul_overflow (VI l a) (VI l b) = Ok (uval l (ua * ub), negb (ufits (ua * ub))) /\
  sadd_checked (VI l a) (VI l b) = Ok (if sfits (a + b) then Some (VI l (a + b)) else None) /\
  uadd_checked (VI l a) (VI l b) = Ok (if ufits (ua + ub) then Some (uval l (ua + ub)) else None).
Proof.
  intros Hl Ha Hb. cbv zeta. pose proof (lt_bits_pos l).
  assert (forall z, s_over (lt_bits l) z = negb (bool_decide (in_signed (lt_bits l) z))) as Hs.
  { intros z. unfold s_over. f_equal. case_bool_decide as Hz.
    - rewrite swrap_small by (done || lia). apply Z.eqb_refl.
    - apply Z.eqb_neq. intros E. apply Hz. rewrite <- E. apply swrap_in_lane. }
  assert (forall z, u_over (lt_bits l) z = negb (bool_decide (0 <= z < 2 ^ lt_bits l))) as Hu.
  { intros z. unfold u_over. f_equal. case_bool_decide as Hz.
    - rewrite wrap_small by done. apply Z.eqb_refl.
    - apply Z.eqb_neq. intros E. apply Hz. rewrite <- E. apply wrap_range. lia. }
  unfold sadd_overflow, ssub_overflow, smul_overflow, uadd_overflow, usub_overflow, umul_overflow,
    s_overflowing, u_overflowing, sadd_checked, uadd_checked, binary_match.
  rewrite !decide_True, !Hl by done. cbn [pair_val checked mbind ValueResult_bind fst snd option_map].
  rewrite !Hs, !Hu. split_and!; try done; f_equal; by case_bool_decide.
Qed.

Lemma interp_overflow_exact_witness :
  uadd_overflow (VI I8 (-1)) (VI I8 1) = Ok (uval I8 256, true).
Proof. apply (interp_overflow_exact I8 (-1) 1); [reflexivity|unfold in_signed; simpl; lia..]. Defined.

(** ** Bits *)

Lemma wrap_testbit w x i : 0 <= i < w -> Z.testbit (wrap w x) i = Z.testbit x i.
Proof. intros. unfold wrap. by rewrite Z.mod_pow2_bits_low by lia. Qed.

Lemma wrap_testbit_high w x i : 0 <= w <= i -> Z.testbit (wrap w x) i = false.
Proof. intros. unfold wrap. by rewrite Z.mod_pow2_bits_high by lia. Qed.

Lemma rev_bits_range k a : 0 <= DataValueExt.rev_bits k a < 2 ^ Z.of_nat k.
Proof.
  revert a. induction k as [|k IH]; intros a; cbn [DataValueExt.rev_bits]; [lia|].
  specialize (IH (Z.shiftr a 1)). pose proof (Z.mod_pos_bound a 2 ltac:(lia)).
  rewrite Z.shiftl_mul_pow2, Nat2Z.inj_succ, Z.pow_succ_r by lia. nia.
Qed.

Lemma rev_bits_testbit k a i : 0 <= i < Z.of_nat k ->
  Z.testbit (DataValueExt.rev_bits k a) i = Z.testbit a (Z.of_nat k - 1 - i).
Proof.
  revert a. induction k as [|k IH]; intros a Hi; cbn [DataValueExt.rev_bits]; [lia|].
  pose proof (rev_bits_range k (Z.shiftr a 1)) as Hr.
  set (r := DataValueExt.rev_bits k (Z.shiftr a 1)) in *.
  assert (Z.shiftl (a mod 2) (Z.of_nat k) + r = Z.lor (Z.shiftl (a mod 2) (Z.of_nat k)) r) as ->.
  { rewrite <- Z.lxor_lor, Z.add_nocarry_lxor; [done| |].
    all: apply Z.bits_inj_0; intros j; rewrite Z.land_spec;
      destruct (decide (0 <= j)); [|by rewrite !Z.testbit_neg_r by lia];
      destruct (decide (j < Z.of_nat k));
      [by rewrite Z.shiftl_spec_low by lia|
       rewrite <- (Z.mod_small r (2 ^ Z.of_nat k)), Z.mod_pow2_bits_high by lia;
       by rewrite andb_false_r]. }
  rewrite Z.lor_spec. destruct (decide (i < Z.of_nat k)).
  - rewrite Z.shiftl_spec_low by lia. unfold r. rewrite IH by lia. simpl.
    rewrite Z.shiftr_spec by lia. f_equal. lia.
  - assert (i = Z.of_nat k) as -> by lia.
    rewrite <- (Z.mod_small r (2 ^ Z.of_nat k)), Z.mod_pow2_bits_high, orb_false_r by lia.
    rewrite Z.shiftl_spec, Z.sub_diag by lia. replace (Z.of_nat (S k) - 1 - Z.of_nat k) with 0 by lia.
    rewrite <- (Z.mod_pow2_bits_low a 1 0) by lia. done.
Qed.

Lemma rev_bytes_range k a : 0 <= DataValueExt.rev_bytes k a < 2 ^ (8 * Z.of_nat k).
Proof.
  revert a. induction k as [|k IH]; intros a; cbn [DataValueExt.rev_bytes]; [lia|].
  specialize (IH (Z.shiftr a 8)). pose proof (Z.mod_pos_bound a 256 ltac:(lia)).
  replace (8 * Z.of_nat (S k)) with (8 + 8 * Z.of_nat k) by lia.
  rewrite Z.shiftl_mul_pow2, Z.pow_add_r by lia. change (2 ^ 8) with 256. nia.
Qed.

(** Reversing the bytes reverses the list of bytes. *)
Lemma rev_bytes_list k a :
  DataValueExt.rev_bytes k a = from_le_bytes (reverse (to_le_bytes k a)).
Proof.
  assert (forall b x, from_le_bytes (b ++ [x]) = from_le_bytes b + x * 2 ^ (8 * zlen b)) as Hsnoc.
  { induction b as [|y b IH]; intros x; cbn [app from_le_bytes].
    - rewrite Z.shiftl_0_l. change (zlen []) with 0. lia.
    - rewrite IH, zlen_cons, !Z.shiftl_mul_pow2 by lia.
      replace (8 * (1 + zlen b)) with (8 + 8 * zlen b) by lia.
      pose proof (zlen_nonneg b). rewrite Z.pow_add_r by lia. lia. }
  revert a. induction k as [|k IH]; intros a; cbn [DataValueExt.rev_bytes to_le_bytes]; [done|].
  rewrite reverse_cons, Hsnoc, <- IH, Z.shiftl_mul_pow2 by lia.
  unfold zlen. rewrite length_reverse, length_to_le_bytes. lia.
Qed.

Lemma last_ones_log2 w x : 0 < x < 2 ^ w -> 0 <= w -> last (ones_of w x) = Some (Z.log2 x).
Proof.
  intros Hx Hw. destruct (Z.eq_dec w 0) as [->|]; [simpl in Hx; lia|].
  destruct (last (ones_of w x)) as [m|] eqn:E.
  - f_equal. assert (m ∈ ones_of w x) as Hin by by apply last_Some_elem_of in E.
    apply elem_of_ones in Hin as [Hr Hb].
    pose proof (Z.log2_nonneg x). pose proof (Z.log2_lt_pow2 x w ltac:(lia)).
    assert (m <= Z.log2 x).
    { destruct (decide (m <= Z.log2 x)); [done|]. rewrite Z.bits_above_log2 in Hb by lia. done. }
    assert (Z.log2 x ∈ ones_of w x) as Hl.
    { apply elem_of_ones. split; [lia|]. apply Z.bit_log2. lia. }
    pose proof (ones_sorted w x) as Hs. apply last_Some in E as [k Ek]. rewrite Ek in Hl, Hs.
    apply elem_of_app in Hl as [Hl|Hl%list_elem_of_singleton]; [|done].
    apply StronglySorted_app in Hs as (Hs & _ & _).
    specialize (Hs _ m Hl ltac:(left)). lia.
  - apply last_None in E. apply (ones_nil w) in E; [lia|lia|unfold scalar_wf; lia].
Qed.

(** A value given by the bits of its unsigned value. *)
Definition with_bits (l : LaneType) (f : Z -> bool) (r : ValueResult DataValue) : Prop :=
  exists u, r = Ok (uval l u) /\ 0 <= u < 2 ^ lt_bits l /\
    forall i, 0 <= i < lt_bits l -> Z.testbit u i = f i.

Lemma with_bits_intro l f z :
  (forall i, 0 <= i < lt_bits l -> Z.testbit z i = f i) ->
  with_bits l f (Ok (VI l (swrap (lt_bits l) z))).
Proof.
  intros Hf. pose proof (lt_bits_pos l). exists (wrap (lt_bits l) z).
  unfold uval. rewrite swrap_wrap. split; [done|]. split; [apply wrap_range; lia|].
  intros i Hi. rewrite wrap_testbit by lia. auto.
Qed.

Lemma with_bits_signed l f z : in_signed (lt_bits l) z ->
  (forall i, 0 <= i < lt_bits l -> Z.testbit z i = f i) -> with_bits l f (Ok (VI l z)).
Proof.
  intros Hz Hf. pose proof (lt_bits_pos l).
  rewrite <- (swrap_small (lt_bits l) ltac:(lia) z Hz). by apply with_bits_intro.
Qed.

Lemma bitop_bits f g l a b :
  lt_is_int l = true -> in_signed (lt_bits l) a -> in_signed (lt_bits l) b ->
  typed2 (bitop f) -> (forall x y i, Z.testbit (f x y) i = g (Z.testbit x i) (Z.testbit y i)) ->
  with_bits l (fun i => g (Z.testbit (wrap (lt_bits l) a) i) (Z.testbit (wrap (lt_bits l) b) i))
    (bitop f (VI l a) (VI l b)).
Proof.
  intros Hl Ha Hb Hty Hbit.
  destruct (Hty l (VI l a) (VI l b)) as (r & Er & Hr); [by apply has_type_intro..|].
  rewrite Er. cbn [bitop] in Er. rewrite binary_val_run in Er by done. injection Er as <-.
  apply has_type_lane in Hr as (n & [= <-] & _ & Hn). apply with_bits_signed; [done|].
  intros i Hi. by rewrite Hbit, !wrap_testbit.
Qed.

Lemma rot_bits w ua k i : 0 <= ua < 2 ^ w -> 0 <= k < w -> 0 <= i < w ->
  Z.testbit (Z.lor (Z.shiftl ua k) (Z.shiftr ua (w - k))) i = Z.testbit ua ((i - k) mod w).
Proof.
  intros Hu Hk Hi. rewrite Z.lor_spec, Z.shiftr_spec by lia.
  destruct (decide (i < k)).
  - rewrite Z.shiftl_spec_low by lia. cbn [orb]. f_equal.
    apply (Z.mod_unique_pos _ _ (-1)); lia.
  - rewrite Z.shiftl_spec_high by lia. rewrite (Z.mod_small (i - k)) by lia.
    rewrite <- (Z.mod_small ua (2 ^ w)) at 2 by lia.
    by rewrite Z.mod_pow2_bits_high, orb_false_r by lia.
Qed.

(** The bit instructions of the interpreter move and count the bits of
    the unsigned value as documented: rotations by the amount modulo the width,
    reversal of bits and of bytes, the logical operations bit by bit, and the
    counts of leading zeros, trailing zeros and ones. *)
Theorem interp_bits_meaning l a b :
  lt_is_int l = true -> in_signed (lt_bits l) a -> in_signed (lt_bits l) b ->
  let w := lt_bits l in
  let bit x i := Z.testbit (wrap w x) i in
  let k := b mod w in
  with_bits l (fun i => bit a ((i - k) mod w)) (rotl (VI l a) (VI l b)) /\
  with_bits l (fun i => bit a ((i + k) mod w)) (rotr (VI l a) (VI l b)) /\
  with_bits l (fun i => bit a (w - 1 - i)) (reverse_bits (VI l a)) /\
  with_bits l (fun i => bit a i && bit b i) (DataValueExt.and (VI l a) (VI l b)) /\
  with_bits l (fun i => bit a i || bit b i) (DataValueExt.or (VI l a) (VI l b)) /\
  with_bits l (fun i => xorb (bit a i) (bit b i)) (DataValueExt.xor (VI l a) (VI l b)) /\
  with_bits l (fun i => negb (bit a i)) (DataValueExt.not (VI l a)) /\
  leading_zeros (VI l a) =
    Ok (VI l (if wrap w a =? 0 then w else w - 1 - Z.log2 (wrap w a))) /\
  count_ones (VI l a) = Ok (VI l (zlen (filter (fun i => bit a i = true) (seqZ 0 w)))) /\
  (l <> I8 -> exists r, swap_bytes (VI l a) = Ok (uval l r) /\
     to_le_bytes (Z.to_nat (w / 8)) r = reverse (to_le_bytes (Z.to_nat (w / 8)) a)).
Proof.
  intros Hl Ha Hb. cbv zeta. pose proof (lt_bits_pos l) as Hw.
  pose proof (Z.mod_pos_bound b (lt_bits l) ltac:(lia)) as Hk.
  pose proof (wrap_range (lt_bits l) ltac:(lia) a) as Hu.
  destruct bitops_typed as (Tand & Tor & Txor & Tnot).
  split_and!.
  - unfold rotl. rewrite shift_match_run by done. apply with_bits_intro. intros. by apply rot_bits.
  - unfold rotr. rewrite shift_match_run by done. apply with_bits_intro. intros i Hi.
    rewrite Z.lor_comm. destruct (decide (b mod lt_bits l = 0)) as [->|].
    + rewrite Z.sub_0_r, Z.lor_spec, Z.shiftr_0_r, Z.shiftl_spec_low by lia.
      rewrite Z.add_0_r, Z.mod_small by lia. done.
    + replace (b mod lt_bits l) with (lt_bits l - (lt_bits l - b mod lt_bits l)) at 2 by lia.
      rewrite rot_bits by lia. f_equal.
      replace (i - (lt_bits l - b mod lt_bits l)) with (i + b mod lt_bits l + -1 * lt_bits l) by lia.
      apply Z_mod_plus_full.
  - unfold reverse_bits, unary_match. rewrite Hl. apply with_bits_intro. intros i Hi.
    rewrite rev_bits_testbit by lia. rewrite Z2Nat.id by lia. rewrite wrap_testbit by lia. done.
  - by apply bitop_bits, Z.land_spec.
  - by apply bitop_bits, Z.lor_spec.
  - by apply bitop_bits, Z.lxor_spec.
  - simpl. rewrite Hl. apply with_bits_signed; [apply in_signed_lnot; (done || lia)|].
    intros i Hi. by rewrite Z.lnot_spec, wrap_testbit by lia.
  - unfold leading_zeros, unary_match. rewrite Hl. do 2 f_equal. unfold BitSet.leading_zeros.
    destruct (Z.eqb_spec (wrap (lt_bits l) a) 0) as [->|].
    + rewrite (proj2 (ones_nil (lt_bits l) ltac:(lia) 0 ltac:(unfold scalar_wf; lia))); done.
    + rewrite last_ones_log2 by lia. done.
  - unfold count_ones, unary_match. rewrite Hl. done.
  - intros H8.
    assert (swap_bytes (VI l a) =
      Ok (uval l (DataValueExt.rev_bytes (Z.to_nat (lt_bits l / 8)) a))) as -> by (by destruct l).
    eexists. split; [done|]. rewrite rev_bytes_list.
    rewrite <- (length_to_le_bytes (Z.to_nat (lt_bits l / 8)) a) at 1.
    rewrite <- (length_reverse (to_le_bytes _ a)). apply to_from_le_bytes, Forall_reverse, to_le_bytes_range.
Qed.

Lemma interp_bits_meaning_witness :
  leading_zeros (VI I16 1) = Ok (VI I16 15).
Proof. apply (interp_bits_meaning I16 1 0); [reflexivity|unfold in_signed; simpl; lia..]. Defined.
