(* ===== verification/ClifStep.v ===== *)
(** * Stepping integer instructions in the CLIF interpreter

    cranelift/interpreter/src/step.rs: the arms of [step] for the instructions
    on integers and integer vectors, over the values of ClifValue.v.  The
    arguments of an instruction are the values the frame holds for them; [imm]
    is its immediate as a value, as the closure [imm] makes it.  Branches,
    calls, memory and floating point are not modelled.

    Shown: an instruction whose arguments have the types its signature asks for
    steps to values of the result types, or traps if it is a division (or the
    trapping addition); when the divisions trap; what the widening
    multiplications, the comparisons and the width conversions compute; that
    [srem] traps where its documentation has a result. *)

From S2P Require Import BitSet.
From S2P Require Import Prelude ClifTypes DivConst CondCodes ClifValue ClifOps.
Import DataValueExt.

Inductive Opcode :=
| Iconst | Select | SelectSpectreGuard | Bitselect
| Icmp (cc : IntCC) | IcmpImm (cc : IntCC)
| Smin | Umin | Smax | Umax | AvgRound
| Iadd | UaddSat | SaddSat | Isub | UsubSat | SsubSat | Ineg | Iabs
| Imul | Umulhi | Smulhi
| Udiv | Sdiv | Urem | Srem
| IaddImm | ImulImm | UdivImm | SdivImm | UremImm | SremImm | IrsubImm
| UaddOverflow | SaddOverflow | UsubOverflow | SsubOverflow | UmulOverflow | SmulOverflow
| SaddOverflowCin | UaddOverflowCin | UaddOverflowTrap | SsubOverflowBin | UsubOverflowBin
| Band | Bor | Bxor | Bnot | BandNot | BorNot | BxorNot | BandImm | BorImm | BxorImm
| Rotl | Rotr | RotlImm | RotrImm | Ishl | Ushr | Sshr | IshlImm | UshrImm | SshrImm
| Bitrev | Bswap | Clz | Cls | Ctz | Popcnt
| Ireduce | Snarrow | Unarrow | Uunarrow | Bmask | Sextend | Uextend
| Splat | Insertlane | Extractlane | VhighBits | VanyTrue | VallTrue
| SwidenLow | SwidenHigh | UwidenLow | UwidenHigh
| Isplit | Iconcat | SqmulRoundSat | IaddPairwise.

Inductive TrapCode := INTEGER_DIVISION_BY_ZERO | INTEGER_OVERFLOW | UserTrap.

(** The outcomes these instructions have. *)
Inductive ControlFlow :=
| Assign (vs : list DataValue)
| Trap (c : TrapCode).

(** The instruction: its opcode, controlling type, immediate, and the type of
    its first argument ([type_of(args()[0])]). *)
Record Inst := mkInst {
  opcode : Opcode;
  ctrl_ty : ValueType;
  imm : DataValue;
  arg0_ty : ValueType
}.

(** [arg(i)]: the instruction has that many arguments. *)
Definition arg (args : list DataValue) (i : nat) : ValueResult DataValue :=
  match args !! i with Some v => Ok v | None => Unimplemented end.

(** [.unwrap()] of an [Option]. *)
Definition vunwrap {A} (o : option A) : ValueResult A :=
  match o with Some a => Ok a | None => Unimplemented end.

Definition assign (r : ValueResult DataValue) : ValueResult ControlFlow :=
  v ← r; Ok (Assign [v]).

Definition assign_or_trap (value : ValueResult DataValue) : ValueResult ControlFlow :=
  match value with
  | Ok v => Ok (Assign [v])
  | Err IntegerDivisionByZero => Ok (Trap INTEGER_DIVISION_BY_ZERO)
  | Err IntegerOverflow => Ok (Trap INTEGER_OVERFLOW)
  | Err e => Err e
  | Unimplemented => Unimplemented
  end.

(** [ty.bounds(signed)], cast to [i128]. *)
Definition vt_bounds (t : ValueType) (signed : bool) : Z * Z :=
  let w := lt_bits (Spec.lane t) in
  if signed then (- 2 ^ (w - 1), 2 ^ (w - 1) - 1) else (0, swrap 128 (2 ^ w - 1)).

Definition vt_as_truthy (t : ValueType) : ValueType :=
  match t with
  | Vector l k => Vector (Spec.int_of l) k
  | _ => Lane I8
  end.

(** [icmp] of the interpreter: lane by lane, all ones or one for true. *)
Definition icmp (t : ValueType) (code : IntCC) (left right : DataValue) : ValueResult DataValue :=
  let dst_ty := vt_as_truthy t in
  let cmp l r :=
    b ← match code with
        | Equal => Ok (bool_decide (l = r))
        | NotEqual => Ok (negb (bool_decide (l = r)))
        | SignedGreaterThan => Ok (DataValueExt.lt r l)
        | SignedGreaterThanOrEqual => Ok (DataValueExt.lt r l || bool_decide (l = r))
        | SignedLessThan => Ok (DataValueExt.lt l r)
        | SignedLessThanOrEqual => Ok (DataValueExt.lt l r || bool_decide (l = r))
        | UnsignedGreaterThan => x ← into_int_unsigned l; y ← into_int_unsigned r; Ok (y <? x)
        | UnsignedGreaterThanOrEqual => x ← into_int_unsigned l; y ← into_int_unsigned r; Ok (y <=? x)
        | UnsignedLessThan => x ← into_int_unsigned l; y ← into_int_unsigned r; Ok (x <? y)
        | UnsignedLessThanOrEqual => x ← into_int_unsigned l; y ← into_int_unsigned r; Ok (x <=? y)
        end;
    bool_ b (vt_is_vector t) (Lane (Spec.lane dst_ty)) in
  ls ← extractlanes left t;
  rs ← extractlanes right t;
  res ← collect (zip_with cmp ls rs);
  vectorizelanes res dst_ty.

(** The high half of the double-width product of two lanes. *)
Definition mulhi_lane (ext : ValueType -> ValueConversionKind) (l : LaneType) (x y : DataValue)
  : ValueResult DataValue :=
  d ← match lt_bits l with
      | 8 => Ok I16 | 16 => Ok I32 | 32 => Ok I64 | 64 => Ok I128 | _ => Unimplemented
      end;
  x ← convert x (ext (Lane d));
  y ← convert y (ext (Lane d));
  m ← mul x y;
  convert m (ExtractUpper (Lane l)).

Definition mulhi (ext : ValueType -> ValueConversionKind) (t : ValueType) (a b : DataValue)
  : ValueResult DataValue :=
  _ ← match lt_bits (Spec.lane t) with
      | 8 | 16 | 32 | 64 => Ok tt | _ => Unimplemented
      end;
  arg0 ← extractlanes a t;
  arg1 ← extractlanes b t;
  res ← collect (zip_with (mulhi_lane ext (Spec.lane t)) arg0 arg1);
  vectorizelanes res t.

Definition iabs (t : ValueType) (a : DataValue) : ValueResult DataValue :=
  min_val ← DataValueExt.int (vt_bounds t true).1 (lane_ty t);
  arg0 ← extractlanes a t;
  new_vec ← collect ((fun lane =>
    if decide (lane = min_val) then Ok min_val
    else n ← into_int_signed lane; DataValueExt.int (Z.abs n) (lane_ty t)) <$> arg0);
  vectorizelanes new_vec t.

Definition narrow (op : Opcode) (t new_type : ValueType) (lane : DataValue) : ValueResult DataValue :=
  let '(mn, mx) := vt_bounds new_type (match op with Snarrow => true | _ => false end) in
  min ← DataValueExt.int mn (lane_ty t);
  max ← DataValueExt.int mx (lane_ty t);
  lane ← match op with
         | Uunarrow => l ← umax lane min; umin l max
         | _ => l ← smax lane min; smin l max
         end;
  convert lane (Truncate (lane_ty new_type)).

(** [val.reverse_bits()?.into_int_unsigned()? & 1], collected from bit 0 up. *)
Fixpoint high_bits (lanes : list DataValue) : ValueResult Z :=
  match lanes with
  | [] => Ok 0
  | v :: lanes =>
      r ← reverse_bits v;
      u ← into_int_unsigned r;
      rest ← high_bits lanes;
      Ok (Z.lor (Z.land u 1) (Z.shiftl rest 1))
  end.

Definition sqmul_lane (t : ValueType) (double_width : LaneType) (x y : DataValue)
  : ValueResult DataValue :=
  let '(mn, mx) := vt_bounds t true in
  let w := lt_bits (Spec.lane t) in
  min ← DataValueExt.int mn (Lane double_width);
  max ← DataValueExt.int mx (Lane double_width);
  x ← into_int_signed x;
  y ← into_int_signed y;
  z ← DataValueExt.int (Z.shiftr (x * y + Z.shiftl 1 (w - 2)) (w - 1)) (Lane double_width);
  z ← smin z max;
  z ← smax z min;
  convert z (Truncate (lane_ty t)).

(** A flag as the second result. *)
Definition with_flag (r : ValueResult (DataValue * bool)) : ValueResult ControlFlow :=
  p ← r; c ← bool_ p.2 false (Lane I8); Ok (Assign [p.1; c]).

(** [s{add,sub}_overflow_{cin,bin}]: a second addition of one for the carry. *)
Definition overflow_cin (op : DataValue -> DataValue -> ValueResult (DataValue * bool)) (t : ValueType)
    (a b c : DataValue) : ValueResult ControlFlow :=
  p ← op a b;
  cin ← into_bool c;
  with_flag (if (cin : bool) then
               one ← DataValueExt.int 1 t;
               q ← op p.1 one; Ok (q.1, p.2 || q.2)
             else Ok p).

(** The closures of [step] that apply an operation to the arguments, lane by
    lane. *)
Section closures.
Context (inst : Inst) (args : list DataValue).
Abbreviation t := (ctrl_ty inst).

Definition imm_as_ctrl_ty : ValueResult DataValue := convert (imm inst) (Exact t).
Definition unary (op : DataValue -> ValueResult DataValue) : ValueResult ControlFlow :=
  x ← arg args 0%nat; assign (unary_arith x t op).
Definition binary (op : DataValue -> DataValue -> ValueResult DataValue) : ValueResult ControlFlow :=
  x ← arg args 0%nat; y ← arg args 1%nat; assign (binary_arith x y t op).
Definition binary_imm (op : DataValue -> DataValue -> ValueResult DataValue) : ValueResult ControlFlow :=
  y ← imm_as_ctrl_ty; x ← arg args 0%nat; assign (binary_arith x y t op).
Definition binary_can_trap (op : DataValue -> DataValue -> ValueResult DataValue)
    (x y : DataValue) : ValueResult ControlFlow :=
  assign_or_trap (binary_arith x y t op).
Definition shift (op : DataValue -> DataValue -> ValueResult DataValue) : ValueResult ControlFlow :=
  x ← arg args 0%nat; y ← arg args 1%nat; a ← shift_amt t y; assign (binary_arith x a t op).
Definition shift_imm (op : DataValue -> DataValue -> ValueResult DataValue) : ValueResult ControlFlow :=
  x ← arg args 0%nat; a ← shift_amt t (imm inst); assign (binary_arith x a t op).

(** ** The arms of [step], in groups *)

(** Constants, selection, comparison, minimum and maximum, average. *)
Definition step_select : ValueResult ControlFlow :=
  match opcode inst with
  | Iconst => n ← into_int_signed (imm inst); assign (DataValueExt.int n t)
  | Select | SelectSpectreGuard =>
      c ← arg args 0%nat; b ← into_bool c; x ← arg args 1%nat; y ← arg args 2%nat;
      Ok (Assign [if (b : bool) then x else y])
  | Bitselect => c ← arg args 0%nat; x ← arg args 1%nat; y ← arg args 2%nat; assign (bitselect c x y)
  | Icmp cc => x ← arg args 0%nat; y ← arg args 1%nat; assign (icmp t cc x y)
  | IcmpImm cc => x ← arg args 0%nat; y ← imm_as_ctrl_ty; assign (icmp t cc x y)
  | Smin => x ← arg args 0%nat; y ← arg args 1%nat;
      if vt_is_vector t then c ← icmp t SignedGreaterThan y x; assign (bitselect c x y)
      else assign (smin x y)
  | Umin => x ← arg args 0%nat; y ← arg args 1%nat;
      if vt_is_vector t then c ← icmp t UnsignedGreaterThan y x; assign (bitselect c x y)
      else assign (umin x y)
  | Smax => x ← arg args 0%nat; y ← arg args 1%nat;
      if vt_is_vector t then c ← icmp t SignedGreaterThan x y; assign (bitselect c x y)
      else assign (smax x y)
  | Umax => x ← arg args 0%nat; y ← arg args 1%nat;
      if vt_is_vector t then c ← icmp t UnsignedGreaterThan x y; assign (bitselect c x y)
      else assign (umax x y)
  | AvgRound => x ← arg args 0%nat; y ← arg args 1%nat;
      sum ← add x y;
      one ← DataValueExt.int 1 (ty x);
      inc ← add sum one;
      two ← DataValueExt.int 2 (ty x);
      assign (binary_arith inc two t udiv)
  | _ => Unimplemented
  end.

(** Addition to division, with their immediate forms. *)
Definition step_arith : ValueResult ControlFlow :=
  match opcode inst with
  | Iadd => binary add
  | UaddSat => binary uadd_sat
  | SaddSat => binary sadd_sat
  | Isub => binary sub
  | UsubSat => binary usub_sat
  | SsubSat => binary ssub_sat
  | Ineg => z ← DataValueExt.int 0 t; x ← arg args 0%nat; assign (binary_arith z x t sub)
  | Iabs => x ← arg args 0%nat; assign (iabs t x)
  | Imul => binary mul
  | Umulhi => x ← arg args 0%nat; y ← arg args 1%nat; assign (mulhi ZeroExtend t x y)
  | Smulhi => x ← arg args 0%nat; y ← arg args 1%nat; assign (mulhi SignExtend t x y)
  | Udiv => x ← arg args 0%nat; y ← arg args 1%nat; binary_can_trap udiv x y
  | Sdiv => x ← arg args 0%nat; y ← arg args 1%nat; binary_can_trap sdiv x y
  | Urem => x ← arg args 0%nat; y ← arg args 1%nat; binary_can_trap urem x y
  | Srem => x ← arg args 0%nat; y ← arg args 1%nat; binary_can_trap srem x y
  | IaddImm => binary_imm add
  | ImulImm => binary_imm mul
  | UdivImm => x ← arg args 0%nat; y ← imm_as_ctrl_ty; binary_can_trap udiv x y
  | SdivImm => x ← arg args 0%nat; y ← imm_as_ctrl_ty; binary_can_trap sdiv x y
  | UremImm => x ← arg args 0%nat; y ← imm_as_ctrl_ty; binary_can_trap urem x y
  | SremImm => x ← arg args 0%nat; y ← imm_as_ctrl_ty; binary_can_trap srem x y
  | IrsubImm => x ← imm_as_ctrl_ty; y ← arg args 0%nat; assign (binary_arith x y t sub)
  | _ => Unimplemented
  end.

(** Arithmetic with an overflow flag, a carry or a trap. *)
Definition step_overflow : ValueResult ControlFlow :=
  match opcode inst with
  | UaddOverflow => x ← arg args 0%nat; y ← arg args 1%nat; with_flag (uadd_overflow x y)
  | SaddOverflow => x ← arg args 0%nat; y ← arg args 1%nat; with_flag (sadd_overflow x y)
  | UsubOverflow => x ← arg args 0%nat; y ← arg args 1%nat; with_flag (usub_overflow x y)
  | SsubOverflow => x ← arg args 0%nat; y ← arg args 1%nat; with_flag (ssub_overflow x y)
  | UmulOverflow => x ← arg args 0%nat; y ← arg args 1%nat; with_flag (umul_overflow x y)
  | SmulOverflow => x ← arg args 0%nat; y ← arg args 1%nat; with_flag (smul_overflow x y)
  | SaddOverflowCin => x ← arg args 0%nat; y ← arg args 1%nat; c ← arg args 2%nat; overflow_cin sadd_overflow t x y c
  | UaddOverflowCin => x ← arg args 0%nat; y ← arg args 1%nat; c ← arg args 2%nat; overflow_cin uadd_overflow t x y c
  | UaddOverflowTrap => x ← arg args 0%nat; y ← arg args 1%nat;
      s ← uadd_checked x y;
      match s with Some sum => Ok (Assign [sum]) | None => Ok (Trap UserTrap) end
  | SsubOverflowBin => x ← arg args 0%nat; y ← arg args 1%nat; c ← arg args 2%nat; overflow_cin ssub_overflow t x y c
  | UsubOverflowBin => x ← arg args 0%nat; y ← arg args 1%nat; c ← arg args 2%nat; overflow_cin usub_overflow t x y c
  | _ => Unimplemented
  end.

(** Bit operations, shifts and counts. *)
Definition step_bits : ValueResult ControlFlow :=
  match opcode inst with
  | Band => binary DataValueExt.and
  | Bor => binary DataValueExt.or
  | Bxor => binary DataValueExt.xor
  | Bnot => unary DataValueExt.not
  | BandNot => x ← arg args 0%nat; y ← arg args 1%nat; n ← DataValueExt.not y;
      assign (binary_arith x n t DataValueExt.and)
  | BorNot => x ← arg args 0%nat; y ← arg args 1%nat; n ← DataValueExt.not y;
      assign (binary_arith x n t DataValueExt.or)
  | BxorNot => x ← arg args 0%nat; y ← arg args 1%nat; n ← DataValueExt.not y;
      assign (binary_arith x n t DataValueExt.xor)
  | BandImm => binary_imm DataValueExt.and
  | BorImm => binary_imm DataValueExt.or
  | BxorImm => binary_imm DataValueExt.xor
  | Rotl => shift rotl
  | Rotr => shift rotr
  | RotlImm => shift_imm rotl
  | RotrImm => shift_imm rotr
  | Ishl => shift shl
  | Ushr => shift ushr
  | Sshr => shift sshr
  | IshlImm => shift_imm shl
  | UshrImm => shift_imm ushr
  | SshrImm => shift_imm sshr
  | Bitrev => unary reverse_bits
  | Bswap => unary swap_bytes
  | Clz => unary leading_zeros
  | Cls => x ← arg args 0%nat; z ← DataValueExt.int 0 t;
      count ← (if DataValueExt.lt x z then leading_ones x else leading_zeros x);
      one ← DataValueExt.int 1 t;
      assign (sub count one)
  | Ctz => unary trailing_zeros
  | Popcnt => x ← arg args 0%nat;
      if vt_is_int (ty x) then assign (count_ones x)
      else lanes ← extractlanes x t; counts ← collect (count_ones <$> lanes);
           assign (vectorizelanes counts t)
  | _ => Unimplemented
  end.

(** Conversions of width. *)
Definition step_convert : ValueResult ControlFlow :=
  match opcode inst with
  | Ireduce => x ← arg args 0%nat; assign (convert x (Truncate t))
  | Snarrow | Unarrow | Uunarrow =>
      x ← arg args 0%nat; y ← arg args 1%nat;
      arg0 ← extractlanes x t;
      arg1 ← extractlanes y t;
      new_type ← vunwrap (Spec.split t);
      new_vec ← collect (narrow (opcode inst) t new_type <$> (arg0 ++ arg1));
      assign (vectorizelanes new_vec new_type)
  | Bmask => x ← arg args 0%nat;
      ls ← extractlanes x (Spec.set_lane t (Spec.int_of (Spec.lane t)));
      lanes ← collect ((fun lane => convert lane (Mask (lane_ty t))) <$> ls);
      assign (vectorizelanes lanes t)
  | Sextend => x ← arg args 0%nat; assign (convert x (SignExtend t))
  | Uextend => x ← arg args 0%nat; assign (convert x (ZeroExtend t))
  | _ => Unimplemented
  end.

(** Lanes of vectors. *)
Definition step_lanes : ValueResult ControlFlow :=
  match opcode inst with
  | Splat => x ← arg args 0%nat; assign (splat t x)
  | Insertlane =>
      idx ← into_int_unsigned (imm inst);
      x ← arg args 0%nat; vec ← extractlanes x t; y ← arg args 1%nat;
      if idx <? zlen vec then assign (vectorizelanes (zset vec idx y) t) else Unimplemented
  | Extractlane =>
      idx ← into_int_unsigned (imm inst);
      x ← arg args 0%nat; lanes ← extractlanes x t; v ← vunwrap (zget lanes idx); Ok (Assign [v])
  | VhighBits =>
      let vector_type := Spec.set_lane (arg0_ty inst) (Spec.int_of (Spec.lane (arg0_ty inst))) in
      x ← arg args 0%nat; a ← extractlanes x vector_type;
      result ← high_bits a;
      assign (DataValueExt.int (swrap 128 result) t)
  | VanyTrue =>
      let simd_ty := Spec.set_lane t (Spec.int_of (Spec.lane t)) in
      init ← bool_ false true (lane_ty simd_ty);
      x ← arg args 0%nat;
      any ← fold_vector x simd_ty init DataValueExt.or;
      assign (bool_ (negb (bool_decide (any = init))) false (Lane I8))
  | VallTrue =>
      let simd_ty := Spec.set_lane t (Spec.int_of (Spec.lane t)) in
      x ← arg args 0%nat;
      lanes ← extractlanes x simd_ty;
      zeros ← collect (is_zero <$> lanes);
      assign (bool_ (negb (existsb id zeros)) false (Lane I8))
  | SwidenLow | SwidenHigh | UwidenLow | UwidenHigh =>
      new_type ← vunwrap (Spec.merge t);
      let conv_type := match opcode inst with
                       | SwidenLow | SwidenHigh => SignExtend (lane_ty new_type)
                       | _ => ZeroExtend (lane_ty new_type)
                       end in
      x ← arg args 0%nat; lanes ← extractlanes x t;
      let part := match opcode inst with
                  | SwidenLow | UwidenLow => take (Z.to_nat (Spec.lanes new_type)) lanes
                  | _ => drop (Z.to_nat (Spec.lanes new_type)) lanes
                  end in
      new_vec ← collect ((fun lane => convert lane conv_type) <$> part);
      assign (vectorizelanes new_vec new_type)
  | _ => Unimplemented
  end.

(** The halves of a 128-bit integer. *)
Definition step_halves : ValueResult ControlFlow :=
  match opcode inst with
  | Isplit => x ← arg args 0%nat;
      lo ← convert x (Truncate (Lane I64));
      hi ← convert x (ExtractUpper (Lane I64));
      Ok (Assign [lo; hi])
  | Iconcat => x ← arg args 0%nat; y ← arg args 1%nat; assign (concat x y)
  | _ => Unimplemented
  end.

(** Rounding multiplication and pairwise addition. *)
Definition step_pairs : ValueResult ControlFlow :=
  match opcode inst with
  | SqmulRoundSat =>
      x ← arg args 0%nat; y ← arg args 1%nat;
      double_width ← vunwrap (Spec.double (Spec.lane t));
      arg0 ← extractlanes x t; arg1 ← extractlanes y t;
      new_vec ← collect (zip_with (sqmul_lane t double_width) arg0 arg1);
      assign (vectorizelanes new_vec t)
  | IaddPairwise => x ← arg args 0%nat; y ← arg args 1%nat; assign (binary_pairwise x y t add)
  | _ => Unimplemented
  end.

(** The match of [step] on the opcode. *)
Definition step : ValueResult ControlFlow :=
  match opcode inst with
  | Iconst | Select | SelectSpectreGuard | Bitselect | Icmp _ | IcmpImm _ | Smin | Umin | Smax |
    Umax | AvgRound =>
      step_select
  | Iadd | UaddSat | SaddSat | Isub | UsubSat | SsubSat | Ineg | Iabs | Imul | Umulhi | Smulhi |
    Udiv | Sdiv | Urem | Srem | IaddImm | ImulImm | UdivImm | SdivImm | UremImm | SremImm |
    IrsubImm =>
      step_arith
  | UaddOverflow | SaddOverflow | UsubOverflow | SsubOverflow | UmulOverflow | SmulOverflow |
    SaddOverflowCin | UaddOverflowCin | UaddOverflowTrap | SsubOverflowBin | UsubOverflowBin =>
      step_overflow
  | Band | Bor | Bxor | Bnot | BandNot | BorNot | BxorNot | BandImm | BorImm | BxorImm | Rotl |
    Rotr | RotlImm | RotrImm | Ishl | Ushr | Sshr | IshlImm | UshrImm | SshrImm | Bitrev | Bswap |
    Clz | Cls | Ctz | Popcnt =>
      step_bits
  | Ireduce | Snarrow | Unarrow | Uunarrow | Bmask | Sextend | Uextend =>
      step_convert
  | Splat | Insertlane | Extractlane | VhighBits | VanyTrue | VallTrue | SwidenLow | SwidenHigh |
    UwidenLow | UwidenHigh =>
      step_lanes
  | Isplit | Iconcat =>
      step_halves
  | SqmulRoundSat | IaddPairwise =>
      step_pairs
  end.
End closures.

(** ** Conversions between widths *)

Lemma convert_exact l n l' : lt_is_int l = true -> lt_is_int l' = true ->
  convert (VI l n) (Exact (Lane l')) = Ok (VI l' (swrap (lt_bits l') n)).
Proof. intros Hl Hl'. cbn [convert ty vt_is_int]. by rewrite Hl, Hl'; cbn -[swrap]; rewrite Hl'. Qed.

Lemma vt_bytes_lane l : vt_bytes (Lane l) * 8 = lt_bits l.
Proof. by destruct l. Qed.

Lemma convert_truncate l n l' : lt_is_int l' = true -> lt_bits l' < 128 ->
  convert (VI l n) (Truncate (Lane l')) = Ok (VI l' (swrap (lt_bits l') n)).
Proof.
  intros Hl' Hb. cbn [convert vt_is_int]. rewrite Hl', vt_bytes_lane.
  rewrite (proj2 (Z.ltb_lt _ _)) by done. cbn [andb into_int_signed mbind ValueResult_bind from_integer].
  rewrite Hl'. do 2 f_equal. pose proof (lt_bits_pos l'). apply swrap_eq.
  rewrite Z.shiftl_1_l, Z.sub_1_r, <- Z.ones_equiv, Z.land_ones by lia.
  unfold wrap. by rewrite Zmod_mod.
Qed.

Lemma swrap_testbit w x i : 0 <= i < w -> Z.testbit (swrap w x) i = Z.testbit x i.
Proof. intros. rewrite <- (wrap_testbit w (swrap w x)), wrap_swrap, wrap_testbit by lia. done. Qed.

Lemma wrap_ext w x y : 0 <= w -> (forall i, 0 <= i < w -> Z.testbit x i = Z.testbit y i) ->
  wrap w x = wrap w y.
Proof.
  intros Hw Hxy. apply Z.bits_inj'. intros i Hi. destruct (decide (i < w)).
  - rewrite !wrap_testbit by lia. auto.
  - by rewrite !wrap_testbit_high by lia.
Qed.

Lemma convert_upper d n l : lt_is_int l = true -> lt_bits l < 128 -> lt_bits l <= lt_bits d ->
  let s := lt_bits d - lt_bits l in lt_bits l <= 128 - s ->
  convert (VI d n) (ExtractUpper (Lane l)) = Ok (VI l (swrap (lt_bits l) (Z.shiftr n s))).
Proof.
  intros Hl Hb Hd s Hs. assert (0 <= s) by (unfold s; lia). cbn [convert vt_is_int ty]. rewrite Hl, !vt_bytes_lane. fold s.
  rewrite (proj2 (Z.ltb_lt _ _)), (proj2 (Z.leb_le _ _)) by lia.
  cbn [andb into_int_signed mbind ValueResult_bind from_integer]. rewrite Hl. do 2 f_equal.
  pose proof (lt_bits_pos l). apply swrap_eq. apply wrap_ext; [lia|]. intros i Hi.
  rewrite !Z.shiftr_spec, Z.land_spec, swrap_testbit by lia.
  rewrite Z.shiftl_spec by lia.
  rewrite Z.shiftl_1_l, Z.sub_1_r, <- Z.ones_equiv, Z.ones_spec_low by lia.
  by rewrite andb_true_r.
Qed.

Lemma convert_zext l n l' : lt_is_int l = true -> lt_is_int l' = true -> lt_bits l < lt_bits l' ->
  convert (VI l n) (ZeroExtend (Lane l')) = Ok (VI l' (wrap (lt_bits l) n)).
Proof. intros Hl Hl' Hb. cbn [convert]. by rewrite Hl, Hl', (proj2 (Z.ltb_lt _ _)). Qed.

Lemma convert_sext l n l' : lt_is_int l = true -> lt_is_int l' = true -> lt_bits l < lt_bits l' ->
  convert (VI l n) (SignExtend (Lane l')) = Ok (VI l' n).
Proof. intros Hl Hl' Hb. cbn [convert]. by rewrite Hl, Hl', (proj2 (Z.ltb_lt _ _)). Qed.

(** The type of twice the width. *)
Lemma double_lane l : lt_is_int l = true -> lt_bits l <= 64 ->
  exists d, lt_is_int d = true /\ lt_bits d = 2 * lt_bits l /\
    (match lt_bits l with
     | 8 => Ok I16 | 16 => Ok I32 | 32 => Ok I64 | 64 => Ok I128 | _ => Unimplemented
     end) = Ok d.
Proof.
  intros Hl Hb. destruct l; try done;
    [exists I16|exists I32|exists I64|exists I128]; done.
Qed.

(** The upper half of a product that is computed at twice the width. *)
Lemma mulhi_upper w x : 1 <= w ->
  swrap w (Z.shiftr (swrap (2 * w) x) w) = swrap w (x / 2 ^ w).
Proof.
  intros Hw. rewrite <- Z.shiftr_div_pow2 by lia. apply swrap_eq, wrap_ext; [lia|].
  intros i Hi. rewrite !Z.shiftr_spec, swrap_testbit by lia. done.
Qed.

Lemma umulhi_lane l a b : lt_is_int l = true -> lt_bits l <= 64 ->
  mulhi_lane ZeroExtend l (VI l a) (VI l b) =
    Ok (uval l (wrap (lt_bits l) a * wrap (lt_bits l) b / 2 ^ lt_bits l)).
Proof.
  intros Hl Hb. destruct (double_lane l Hl Hb) as (d & Hd & Ed & E). pose proof (lt_bits_pos l).
  unfold mulhi_lane. rewrite E. cbn [mbind ValueResult_bind].
  rewrite !convert_zext by (done || lia). cbn [mbind ValueResult_bind].
  unfold mul. rewrite binary_val_run by done. cbn [mbind ValueResult_bind].
  rewrite convert_upper by (done || lia). unfold uval.
  replace (lt_bits d - lt_bits l) with (lt_bits l) by lia. rewrite Ed. by rewrite mulhi_upper by lia.
Qed.

Lemma smulhi_lane l a b : lt_is_int l = true -> lt_bits l <= 64 ->
  in_signed (lt_bits l) a -> in_signed (lt_bits l) b ->
  mulhi_lane SignExtend l (VI l a) (VI l b) = Ok (VI l (a * b / 2 ^ lt_bits l)).
Proof.
  intros Hl Hb Ha Hb'. destruct (double_lane l Hl Hb) as (d & Hd & Ed & E). pose proof (lt_bits_pos l).
  unfold mulhi_lane. rewrite E. cbn [mbind ValueResult_bind].
  rewrite !convert_sext by (done || lia). cbn [mbind ValueResult_bind].
  unfold mul. rewrite binary_val_run by done. cbn [mbind ValueResult_bind].
  rewrite convert_upper by (done || lia).
  replace (lt_bits d - lt_bits l) with (lt_bits l) by lia. rewrite Ed, mulhi_upper by lia.
  rewrite swrap_small; [done|lia|].
  destruct (pow_width (lt_bits l)); [lia|]. unfold in_signed in *.
  split; [apply Z.div_le_lower_bound|apply Z.div_lt_upper_bound]; nia.
Qed.

(** ** Scalar instructions

    On a scalar type the lane-wise functions are the operations themselves. *)

Lemma binary_arith_scalar l a b op :
  binary_arith (VI l a) (VI l b) (Lane l) op = op (VI l a) (VI l b).
Proof. unfold binary_arith. cbn. by destruct (op _ _). Qed.

Lemma unary_arith_scalar l a op : unary_arith (VI l a) (Lane l) op = op (VI l a).
Proof. unfold unary_arith. cbn. by destruct (op _). Qed.

Lemma splat_scalar l v : splat (Lane l) v = Ok v.
Proof. done. Qed.

Lemma shift_amt_scalar l l' b : lt_is_int l = true -> lt_is_int l' = true ->
  shift_amt (Lane l) (VI l' b) = Ok (VI l (swrap (lt_bits l) b)).
Proof. intros Hl Hl'. unfold shift_amt. cbn [Spec.lane]. by rewrite convert_exact. Qed.

(** The amount of a scalar shift: modulo the width, also after it was converted
    to the type of the shifted value. *)
Lemma shift_scalar f l a l' b : lt_is_int l = true -> lt_is_int l' = true ->
  (y ← shift_amt (Lane l) (VI l' b); binary_arith (VI l a) y (Lane l) (shift_match f)) =
    Ok (VI l (f (lt_bits l) a (b mod lt_bits l))).
Proof.
  intros Hl Hl'. rewrite shift_amt_scalar by done. cbn [mbind ValueResult_bind].
  rewrite binary_arith_scalar, shift_match_run by done. do 3 f_equal.
  rewrite <- (Z.mod_mod_divide (swrap _ b) (2 ^ lt_bits l)), <- (Z.mod_mod_divide b (2 ^ lt_bits l)).
  - f_equal. pose proof (lt_bits_pos l). apply (wrap_swrap (lt_bits l)). lia.
  - destruct l; try done; [exists 32|exists (2 ^ 12)|exists (2 ^ 27)|exists (2 ^ 58)|exists (2 ^ 121)]; reflexivity.
  - destruct l; try done; [exists 32|exists (2 ^ 12)|exists (2 ^ 27)|exists (2 ^ 58)|exists (2 ^ 121)]; reflexivity.
Qed.

(** The comparison of two integers is the one of the condition codes. *)
Lemma icmp_scalar cc l a b : lt_is_int l = true ->
  icmp (Lane l) cc (VI l a) (VI l b) = Ok (VI I8 (if int_cmp (lt_bits l) cc a b then 1 else 0)).
Proof.
  intros Hl. unfold icmp. cbn [extractlanes ty vt_is_vector mbind ValueResult_bind zip_with vt_as_truthy].
  assert (variant (VI l a) = variant (VI l b)) as Ev by (by destruct l).
  assert (forall x y, DataValueExt.lt (VI l x) (VI l y) = (x <? y)) as Hlt.
  { intros x y. unfold DataValueExt.lt.
    assert (variant (VI l x) = variant (VI l y)) as -> by (by destruct l).
    by rewrite Z.ltb_irrefl, Z.eqb_refl. }
  assert (forall x y, bool_decide (VI l x = VI l y) = (x =? y)) as Heq.
  { intros x y. case_bool_decide as E; [injection E as ->; by rewrite Z.eqb_refl|].
    symmetry. apply Z.eqb_neq. naive_solver. }
  destruct cc; cbn [mbind ValueResult_bind into_int_unsigned Spec.lane bool_ lt_is_int collect vectorizelanes];
    rewrite ?Hlt, ?Heq; unfold wrap; cbn [int_cmp];
    try (by destruct (_ =? _)); try (by destruct (_ <? _)); try (by destruct (_ <=? _)).
  - assert ((b <? a) || (a =? b) = (b <=? a)) as -> by compare_cases. by destruct (_ <=? _).
  - assert ((a <? b) || (a =? b) = (a <=? b)) as -> by compare_cases. by destruct (_ <=? _).
Qed.

(** ** Signatures

    The operand and result types of the instructions, where the interpreter
    implements them: the whole-vector Boolean operations only on vectors of 8 or
    16 bytes, the high multiplications up to 64-bit lanes, [bswap] not on bytes. *)

Definition whole_ok (t : ValueType) : bool :=
  match t with
  | Lane l => lt_is_int l
  | _ => vector_ok t && ((vt_bytes t =? 8) || (vt_bytes t =? 16))
  end.

Inductive typing : Inst -> list ValueType -> list ValueType -> Prop :=
| T_const l n a0 : lt_is_int l = true ->
    typing (mkInst Iconst (Lane l) (VI I64 n) a0) [] [Lane l]
| T_select op t l i a0 : op ∈ [Select; SelectSpectreGuard] -> lt_is_int l = true ->
    typing (mkInst op t i a0) [Lane l; t; t] [t]
| T_unary op t i a0 : op ∈ [Bnot; Bitrev; Clz; Ctz; Popcnt; Iabs] -> type_ok t = true ->
    typing (mkInst op t i a0) [t] [t]
| T_bswap t i a0 : type_ok t = true -> Spec.lane t <> I8 ->
    typing (mkInst Bswap t i a0) [t] [t]
| T_cls l i a0 : lt_is_int l = true -> typing (mkInst Cls (Lane l) i a0) [Lane l] [Lane l]
| T_binary op t i a0 :
    op ∈ [Iadd; UaddSat; SaddSat; Isub; UsubSat; SsubSat; Imul; Band; Bor; Bxor] ->
    type_ok t = true -> typing (mkInst op t i a0) [t; t] [t]
| T_binary_imm op l n a0 : op ∈ [IaddImm; ImulImm; IrsubImm; BandImm; BorImm; BxorImm] ->
    lt_is_int l = true -> typing (mkInst op (Lane l) (VI I64 n) a0) [Lane l] [Lane l]
| T_not op t i a0 : op ∈ [BandNot; BorNot; BxorNot] -> whole_ok t = true ->
    typing (mkInst op t i a0) [t; t] [t]
| T_neg t i a0 : whole_ok t = true -> typing (mkInst Ineg t i a0) [t] [t]
| T_bitselect t i a0 : whole_ok t = true -> typing (mkInst Bitselect t i a0) [t; t; t] [t]
| T_minmax op t i a0 : op ∈ [Smin; Umin; Smax; Umax] -> whole_ok t = true ->
    typing (mkInst op t i a0) [t; t] [t]
| T_mulhi op t i a0 : op ∈ [Umulhi; Smulhi] -> type_ok t = true -> lt_bits (Spec.lane t) <= 64 ->
    typing (mkInst op t i a0) [t; t] [t]
| T_shift op t l i a0 : op ∈ [Rotl; Rotr; Ishl; Ushr; Sshr] -> type_ok t = true -> lt_is_int l = true ->
    typing (mkInst op t i a0) [t; Lane l] [t]
| T_shift_imm op t n a0 : op ∈ [RotlImm; RotrImm; IshlImm; UshrImm; SshrImm] -> type_ok t = true ->
    typing (mkInst op t (VI I64 n) a0) [t] [t]
| T_div op l i a0 : op ∈ [Udiv; Sdiv; Urem; Srem] -> lt_is_int l = true ->
    typing (mkInst op (Lane l) i a0) [Lane l; Lane l] [Lane l]
| T_div_imm op l n a0 : op ∈ [UdivImm; SdivImm; UremImm; SremImm] -> lt_is_int l = true ->
    typing (mkInst op (Lane l) (VI I64 n) a0) [Lane l] [Lane l]
| T_overflow op l i a0 :
    op ∈ [UaddOverflow; SaddOverflow; UsubOverflow; SsubOverflow; UmulOverflow; SmulOverflow] ->
    lt_is_int l = true -> typing (mkInst op (Lane l) i a0) [Lane l; Lane l] [Lane l; Lane I8]
| T_overflow_cin op l l' i a0 :
    op ∈ [SaddOverflowCin; UaddOverflowCin; SsubOverflowBin; UsubOverflowBin] ->
    lt_is_int l = true -> lt_is_int l' = true ->
    typing (mkInst op (Lane l) i a0) [Lane l; Lane l; Lane l'] [Lane l; Lane I8]
| T_uadd_trap l i a0 : lt_is_int l = true ->
    typing (mkInst UaddOverflowTrap (Lane l) i a0) [Lane l; Lane l] [Lane l]
| T_icmp cc t i a0 : type_ok t = true -> typing (mkInst (Icmp cc) t i a0) [t; t] [vt_as_truthy t]
| T_icmp_imm cc l n a0 : lt_is_int l = true ->
    typing (mkInst (IcmpImm cc) (Lane l) (VI I64 n) a0) [Lane l] [Lane I8]
| T_reduce l l' i a0 : lt_is_int l = true -> lt_is_int l' = true -> lt_bits l' < lt_bits l ->
    typing (mkInst Ireduce (Lane l') i a0) [Lane l] [Lane l']
| T_extend op l l' i a0 : op ∈ [Sextend; Uextend] -> lt_is_int l = true -> lt_is_int l' = true ->
    lt_bits l < lt_bits l' -> typing (mkInst op (Lane l') i a0) [Lane l] [Lane l']
| T_split i a0 : typing (mkInst Isplit (Lane I128) i a0) [Lane I128] [Lane I64; Lane I64]
| T_concat i a0 : typing (mkInst Iconcat (Lane I64) i a0) [Lane I64; Lane I64] [Lane I128]
| T_splat t i a0 : type_ok t = true -> typing (mkInst Splat t i a0) [lane_ty t] [t]
| T_extractlane t n a0 : vector_ok t = true -> wrap 8 n < Spec.lanes t ->
    typing (mkInst Extractlane t (VI I8 n) a0) [t] [lane_ty t]
| T_insertlane t n a0 : vector_ok t = true -> wrap 8 n < Spec.lanes t ->
    typing (mkInst Insertlane t (VI I8 n) a0) [t; lane_ty t] [t]
| T_anyall op t i a0 : op ∈ [VanyTrue; VallTrue] -> vector_ok t = true ->
    typing (mkInst op t i a0) [t] [Lane I8]
| T_pairwise t i a0 : vector_ok t = true -> typing (mkInst IaddPairwise t i a0) [t; t] [t].

(** The instructions that may trap. *)
Definition can_trap (op : Opcode) : bool :=
  match op with
  | Udiv | Sdiv | Urem | Srem | UdivImm | SdivImm | UremImm | SremImm | UaddOverflowTrap => true
  | _ => false
  end.

Definition yields (r : ValueResult ControlFlow) (ts : list ValueType) : Prop :=
  exists vs, r = Ok (Assign vs) /\ Forall2 has_type vs ts.

Lemma assign_yields r t : (exists v, r = Ok v /\ has_type v t) -> yields (assign r) [t].
Proof. intros (v & -> & Hv). exists [v]. split; [done|]. constructor; [done|constructor]. Qed.

Lemma binary_yields t op x y : type_ok t = true -> has_type x t -> has_type y t -> typed2 op ->
  exists v, binary_arith x y t op = Ok v /\ has_type v t.
Proof.
  intros Ht Hx Hy Hop. destruct (binary_arith_typed t op x y Ht Hx Hy) as (r & _ & _ & _ & E & Hr & _).
  - intros. by eapply Hop.
  - eauto.
Qed.

Lemma unary_yields t op x : type_ok t = true -> has_type x t -> typed1 op ->
  exists v, unary_arith x t op = Ok v /\ has_type v t.
Proof.
  intros Ht Hx Hop. destruct (unary_arith_typed t op x Ht Hx) as (r & _ & _ & E & Hr & _).
  - intros. by eapply Hop.
  - eauto.
Qed.

(** The lane type of a supported type is a supported scalar. *)
Lemma lane_type_ok t : type_ok t = true -> lt_is_int (Spec.lane t) = true.
Proof. destruct t as [|l k|]; simpl; [done| |done]. destruct (lt_is_int l); [done|]. done. Qed.

Lemma has_type_exact l n l' : lt_is_int l = true -> lt_is_int l' = true ->
  exists v, convert (VI l n) (Exact (Lane l')) = Ok v /\ has_type v (Lane l').
Proof. intros. rewrite convert_exact by done. eauto with clif. Qed.

Lemma int_typed l n : lt_is_int l = true ->
  exists v, DataValueExt.int n (Lane l) = Ok v /\ has_type v (Lane l).
Proof. intros Hl. unfold DataValueExt.int. simpl. rewrite Hl. eauto with clif. Qed.

Lemma bool_typed l b e : lt_is_int l = true ->
  exists v, bool_ b e (Lane l) = Ok v /\ has_type v (Lane l).
Proof.
  intros Hl. simpl. rewrite Hl. eexists. split; [done|]. apply has_type_intro; [done|].
  destruct b, e; destruct l; try done; unfold in_signed; simpl; lia.
Qed.

Lemma splat_typed t v : type_ok t = true -> has_type v (lane_ty t) ->
  exists r, splat t v = Ok r /\ has_type r t.
Proof.
  intros Ht Hv. unfold splat.
  destruct (vectorize_typed t (replicate (Z.to_nat (Spec.lanes t)) v) Ht) as (r & E & Hr & _).
  - unfold zlen. rewrite length_replicate. unfold Spec.lanes.
    rewrite Z2Nat.id; [done|]. apply Z.pow_nonneg. lia.
  - by apply Forall_replicate.
  - eauto.
Qed.

Lemma shift_amt_typed t l n : type_ok t = true -> lt_is_int l = true ->
  exists r, shift_amt t (VI l n) = Ok r /\ has_type r t.
Proof.
  intros Ht Hl. unfold shift_amt.
  destruct (has_type_exact l n (Spec.lane t) Hl (lane_type_ok t Ht)) as (v & -> & Hv).
  cbn [mbind ValueResult_bind]. by apply splat_typed.
Qed.

Lemma collect_zip_typed (P Q : DataValue -> Prop) op xs ys :
  Forall P xs -> Forall P ys -> length xs = length ys ->
  (forall u v, P u -> P v -> exists r, op u v = Ok r /\ Q r) ->
  exists rs, collect (zip_with op xs ys) = Ok rs /\ Forall Q rs /\ length rs = length xs.
Proof.
  intros Hxs. revert ys. induction Hxs as [|x xs Hx _ IH]; intros ys Hys Hl Hop.
  { destruct ys; [|done]. by exists []. }
  destruct ys as [|y ys]; [done|]. apply Forall_cons in Hys as [Hy Hys]. injection Hl as Hl.
  destruct (IH ys Hys Hl Hop) as (rs & E & Hrs & Hlen).
  destruct (Hop x y Hx Hy) as (r & Er & Hr).
  exists (r :: rs). cbn [zip_with collect]. rewrite Er, E. simpl. auto with f_equal.
Qed.

(** Lane by lane to lanes of another type, as many of them. *)
Lemma lanes2_typed t t' op x y :
  type_ok t = true -> type_ok t' = true -> Spec.lanes t' = Spec.lanes t ->
  has_type x t -> has_type y t ->
  (forall u v, has_type u (lane_ty t) -> has_type v (lane_ty t) ->
     exists r, op u v = Ok r /\ has_type r (lane_ty t')) ->
  exists v, (ls ← extractlanes x t; rs ← extractlanes y t; res ← collect (zip_with op ls rs);
             vectorizelanes res t') = Ok v /\ has_type v t'.
Proof.
  intros Ht Ht' Hn Hx Hy Hop.
  destruct (extract_typed t x Ht Hx) as (xs & Ex & Hlx & Hxs & _).
  destruct (extract_typed t y Ht Hy) as (ys & Ey & Hly & Hys & _).
  destruct (collect_zip_typed _ (fun r => has_type r (lane_ty t')) op xs ys Hxs Hys) as (rs & Ec & Hrs & Hlr);
    [unfold zlen in *; lia|exact Hop|].
  destruct (vectorize_typed t' rs Ht') as (r & Er & Hr & _);
    [unfold zlen in *; lia|done|].
  exists r. rewrite Ex. cbn [mbind ValueResult_bind]. rewrite Ey. cbn [mbind ValueResult_bind].
  rewrite Ec. done.
Qed.

Lemma truthy_ok t : type_ok t = true ->
  type_ok (vt_as_truthy t) = true /\ Spec.lanes (vt_as_truthy t) = Spec.lanes t.
Proof.
  destruct t as [|l k|]; simpl; [done| |done]. intros H.
  assert (Spec.int_of l = l) as -> by (destruct l; done). done.
Qed.

Lemma icmp_typed t cc x y : type_ok t = true -> has_type x t -> has_type y t ->
  exists v, icmp t cc x y = Ok v /\ has_type v (vt_as_truthy t).
Proof.
  intros Ht Hx Hy. destruct (truthy_ok t Ht) as [Ht' Hn].
  unfold icmp. apply lanes2_typed; try done.
  intros u v Hu Hv. apply has_type_lane in Hu as (a & -> & Hl & _), Hv as (b & -> & _ & _).
  pose proof (lane_type_ok _ Ht') as Hb.
  destruct cc; cbn [mbind ValueResult_bind into_int_unsigned]; by apply bool_typed.
Qed.

(** *** Whole-vector Boolean operations *)

Lemma byte_bitop f a b :
  (forall x y n, Z.shiftr (f x y) n = f (Z.shiftr x n) (Z.shiftr y n)) -> f 0 0 = 0 ->
  (forall x y, 0 <= x -> 0 <= y -> 0 <= f x y) ->
  0 <= a < 256 -> 0 <= b < 256 -> 0 <= f a b < 256.
Proof.
  intros Hs H0 Hp Ha Hb. split; [apply Hp; lia|].
  assert (Z.shiftr (f a b) 8 = 0) as E.
  { rewrite Hs, !Z.shiftr_div_pow2, !Z.div_small by lia. done. }
  rewrite Z.shiftr_div_pow2 in E by lia. change (2 ^ 8) with 256 in E.
  apply Z.div_small_iff in E; lia.
Qed.

Lemma whole_type_ok t : whole_ok t = true -> type_ok t = true.
Proof. destruct t; simpl; [done| |done]. intros H. by apply andb_true_iff in H as [? _]. Qed.

Lemma whole_bytes t b : whole_ok t = true -> has_type (VV b) t ->
  (zlen b =? 8) || (zlen b =? 16) = true.
Proof.
  intros Ht [_ [Hok Hz]]. destruct t; [done| |done]. rewrite Hz.
  by apply andb_true_iff in Ht as [_ ?].
Qed.

Lemma whole_bitop_typed f t x y :
  (forall x y n, Z.shiftr (f x y) n = f (Z.shiftr x n) (Z.shiftr y n)) ->
  (forall x y, (x = 0 \/ x = -1) -> (y = 0 \/ y = -1) -> f x y = 0 \/ f x y = -1) ->
  f 0 0 = 0 -> (forall x y, 0 <= x -> 0 <= y -> 0 <= f x y) ->
  whole_ok t = true -> has_type x t -> has_type y t ->
  exists v, bitop f x y = Ok v /\ has_type v t.
Proof.
  intros H1 H2 H3 H4 Ht Hx Hy. destruct x as [l a|a].
  - assert (t = Lane l) as -> by apply Hx. eapply bitop_typed; eauto.
  - destruct y as [l b|b]; [destruct Hy as [_ ->]; by destruct Hx as [_ [? _]]|].
    pose proof (whole_bytes t a Ht Hx) as Hlen.
    destruct Hx as [[Hla Ha] [Hok Hza]], Hy as [[Hlb Hb] [_ Hzb]].
    assert (length a = length b) as Hab by (unfold zlen in *; lia).
    cbn [bitop]. rewrite Hza, Hzb, Z.eqb_refl. rewrite Hza in Hlen. rewrite Hlen. cbn [andb].
    eexists. split; [done|]. split; [split|split; [done|]].
    + rewrite length_zip_with_l_eq by done. done.
    + clear -Ha Hb H1 H3 H4 Hab. revert b Hb Hab. induction Ha as [|u a Hu _ IH]; intros [|v b] Hb Hab; try done.
      apply Forall_cons in Hb as [Hv Hb]. constructor; [by apply byte_bitop|]. apply IH; auto.
    + unfold zlen in *. rewrite length_zip_with_l_eq by done. done.
Qed.

Lemma whole_and_typed t x y : whole_ok t = true -> has_type x t -> has_type y t ->
  exists v, DataValueExt.and x y = Ok v /\ has_type v t.
Proof.
  apply whole_bitop_typed; [intros; apply Z.shiftr_land|by intros ?? [->| ->] [->| ->]; auto|done|].
  intros. apply Z.land_nonneg. auto.
Qed.

Lemma whole_or_typed t x y : whole_ok t = true -> has_type x t -> has_type y t ->
  exists v, DataValueExt.or x y = Ok v /\ has_type v t.
Proof.
  apply whole_bitop_typed; [intros; apply Z.shiftr_lor|by intros ?? [->| ->] [->| ->]; auto|done|].
  intros. apply Z.lor_nonneg. auto.
Qed.

Lemma whole_not_typed t x : whole_ok t = true -> has_type x t ->
  exists v, DataValueExt.not x = Ok v /\ has_type v t.
Proof.
  intros Ht Hx. destruct x as [l a|a].
  - assert (t = Lane l) as -> by apply Hx. by apply bitops_typed.
  - pose proof (whole_bytes t a Ht Hx) as Hlen. cbn [DataValueExt.not]. rewrite Hlen.
    destruct Hx as [[Hla Ha] [Hok Hza]].
    eexists. split; [done|]. split; [split|split; [done|]].
    + by rewrite length_fmap.
    + apply Forall_fmap, Forall_forall. intros z _. apply (wrap_range 8). lia.
    + unfold zlen in *. by rewrite length_fmap.
Qed.

Lemma bitselect_typed t c x y : whole_ok t = true -> has_type c t -> has_type x t -> has_type y t ->
  exists v, bitselect c x y = Ok v /\ has_type v t.
Proof.
  intros Ht Hc Hx Hy. unfold bitselect.
  destruct (whole_and_typed t c x Ht Hc Hx) as (mx & -> & Hmx). cbn [mbind ValueResult_bind].
  destruct (whole_not_typed t c Ht Hc) as (nc & -> & Hnc). cbn [mbind ValueResult_bind].
  destruct (whole_and_typed t nc y Ht Hnc Hy) as (my & -> & Hmy). cbn [mbind ValueResult_bind].
  by apply whole_or_typed.
Qed.

Lemma zero_typed t : whole_ok t = true -> exists v, DataValueExt.int 0 t = Ok v /\ has_type v t.
Proof.
  intros Ht. destruct t as [l|l k|]; [by apply int_typed| |done].
  simpl in Ht. apply andb_true_iff in Ht as [Hok Hb]. unfold DataValueExt.int. cbn [vt_is_vector].
  rewrite Hb. eexists. split; [done|].
  destruct (vector_shape (Vector l k) Hok) as (? & n & it & []).
  split; [split|split; [done|]].
  - rewrite length_to_le_bytes, sh_bytes, Nat2Z.id. done.
  - apply to_le_bytes_range.
  - unfold zlen. rewrite length_to_le_bytes, sh_bytes. lia.
Qed.

(** *** Divisions, flags and the remaining lane functions *)

(** A division returns a value, or one of the two errors that become traps. *)
Definition div_typed (op : DataValue -> DataValue -> ValueResult DataValue) : Prop :=
  forall l u v, has_type u (Lane l) -> has_type v (Lane l) ->
  (exists r, op u v = Ok r /\ has_type r (Lane l)) \/
  op u v = Err IntegerDivisionByZero \/ op u v = Err IntegerOverflow.

Lemma divisions_typed : div_typed udiv /\ div_typed sdiv /\ div_typed urem /\ div_typed srem.
Proof.
  split_and!; intros l u v (a & -> & Hl & Ha)%has_type_lane (b & -> & _ & Hb)%has_type_lane;
    pose proof (lt_bits_pos l).
  - rewrite udiv_run by done. destruct (b =? 0); [auto|]. left. eauto with clif.
  - rewrite sdiv_run by done. case_bool_decide as Hm; cbn [andb].
    + destruct (Z.eqb_spec b (-1)); [auto|]. destruct (Z.eqb_spec b 0); [auto|]. left.
      eexists. split; [done|]. apply has_type_intro; [done|].
      apply in_signed_quot; [lia|done|done|naive_solver].
    + destruct (Z.eqb_spec b 0); [auto|]. left. eexists. split; [done|].
      apply has_type_intro; [done|]. apply in_signed_quot; [lia|done|done|naive_solver].
  - rewrite urem_run by done. destruct (b =? 0); [auto|]. left. eauto with clif.
  - rewrite srem_run by done. destruct (_ && _); [auto|]. destruct (Z.eqb_spec b 0); [auto|].
    left. eexists. split; [done|]. apply has_type_intro; [done|]. apply in_signed_rem; (done || lia).
Qed.

Lemma assign_or_trap_typed t r :
  (exists v, r = Ok v /\ has_type v t) \/ r = Err IntegerDivisionByZero \/ r = Err IntegerOverflow ->
  yields (assign_or_trap r) [t] \/ exists c, assign_or_trap r = Ok (Trap c).
Proof.
  intros [(v & -> & Hv)|[->| ->]]; simpl; eauto. left. exists [v].
  split; [done|]. constructor; [done|constructor].
Qed.

Lemma div_step l op u v : div_typed op -> has_type u (Lane l) -> has_type v (Lane l) ->
  yields (assign_or_trap (binary_arith u v (Lane l) op)) [Lane l] \/
  exists c, assign_or_trap (binary_arith u v (Lane l) op) = Ok (Trap c).
Proof.
  intros Hop Hu Hv. apply assign_or_trap_typed.
  pose proof (Hop l u v Hu Hv) as H.
  apply has_type_lane in Hu as (a & -> & _), Hv as (b & -> & _). by rewrite binary_arith_scalar.
Qed.

Definition flag_typed (op : DataValue -> DataValue -> ValueResult (DataValue * bool)) : Prop :=
  forall l u v, has_type u (Lane l) -> has_type v (Lane l) ->
  exists r c, op u v = Ok (r, c) /\ has_type r (Lane l).

Lemma flags_typed :
  flag_typed uadd_overflow /\ flag_typed sadd_overflow /\ flag_typed usub_overflow /\
  flag_typed ssub_overflow /\ flag_typed umul_overflow /\ flag_typed smul_overflow.
Proof.
  split_and!; intros l u v (a & -> & Hl & Ha)%has_type_lane (b & -> & _ & Hb)%has_type_lane;
    unfold uadd_overflow, sadd_overflow, usub_overflow, ssub_overflow, umul_overflow,
      smul_overflow, u_overflowing, s_overflowing, binary_match;
    rewrite decide_True, Hl by done; cbn [pair_val mbind ValueResult_bind fst snd];
    do 2 eexists; (split; [reflexivity|auto with clif]).
Qed.

Lemma with_flag_yields l r c : has_type r (Lane l) -> yields (with_flag (Ok (r, c))) [Lane l; Lane I8].
Proof.
  intros Hr. unfold with_flag. cbn [mbind ValueResult_bind snd fst].
  destruct (bool_typed I8 c false eq_refl) as (v & -> & Hv). exists [r; v].
  split; [done|]. repeat (constructor; [done|]). constructor.
Qed.

Lemma overflow_step l op u v : flag_typed op -> has_type u (Lane l) -> has_type v (Lane l) ->
  yields (with_flag (op u v)) [Lane l; Lane I8].
Proof. intros Hop Hu Hv. destruct (Hop l u v Hu Hv) as (r & c & -> & Hr). by apply with_flag_yields. Qed.

Lemma overflow_cin_step l l' op u v c : flag_typed op -> has_type u (Lane l) -> has_type v (Lane l) ->
  has_type c (Lane l') -> yields (overflow_cin op (Lane l) u v c) [Lane l; Lane I8].
Proof.
  intros Hop Hu Hv (n & -> & _)%has_type_lane. unfold overflow_cin.
  destruct (Hop l u v Hu Hv) as (r & o & -> & Hr). cbn [mbind ValueResult_bind into_bool fst snd].
  destruct (negb (n =? 0)); [|by apply with_flag_yields].
  apply has_type_lane in Hu as (_ & _ & Hl & _).
  destruct (int_typed l 1 Hl) as (one & -> & Hone). cbn [mbind ValueResult_bind].
  destruct (Hop l r one Hr Hone) as (r2 & o2 & -> & Hr2). by apply with_flag_yields.
Qed.

Lemma mulhi_typed ext t x y : ext = ZeroExtend \/ ext = SignExtend ->
  type_ok t = true -> lt_bits (Spec.lane t) <= 64 -> has_type x t -> has_type y t ->
  exists v, mulhi ext t x y = Ok v /\ has_type v t.
Proof.
  intros He Ht Hb Hx Hy. pose proof (lane_type_ok t Ht) as Hl. unfold mulhi.
  assert ((match lt_bits (Spec.lane t) with
           | 8 | 16 | 32 | 64 => Ok tt | _ => Unimplemented end) = Ok tt) as ->
    by (destruct (Spec.lane t); done).
  cbn [mbind ValueResult_bind]. apply lanes2_typed; try done.
  intros u v (a & -> & _ & Ha)%has_type_lane (b & -> & _ & Hbb)%has_type_lane.
  destruct He as [-> | ->].
  - rewrite umulhi_lane by done. eauto with clif.
  - rewrite smulhi_lane by done. eexists. split; [done|]. apply has_type_intro; [done|].
    pose proof (lt_bits_pos (Spec.lane t)). destruct (pow_width (lt_bits (Spec.lane t))); [lia|].
    unfold in_signed in *. split; [apply Z.div_le_lower_bound|apply Z.div_lt_upper_bound]; nia.
Qed.

Lemma iabs_typed t x : type_ok t = true -> has_type x t -> exists v, iabs t x = Ok v /\ has_type v t.
Proof.
  intros Ht Hx. pose proof (lane_type_ok t Ht) as Hl. unfold iabs.
  destruct (int_typed (Spec.lane t) (vt_bounds t true).1 Hl) as (m & -> & Hm).
  cbn [mbind ValueResult_bind].
  destruct (unary_arith_typed t (fun lane => if decide (lane = m) then Ok m
    else n ← into_int_signed lane; DataValueExt.int (Z.abs n) (lane_ty t)) x Ht Hx)
    as (v & _ & _ & E & Hv & _); [|by exists v].
  intros v (n & -> & _)%has_type_lane. case_decide; [eauto|]. by apply int_typed.
Qed.

Lemma swap_bytes_typed t x : type_ok t = true -> Spec.lane t <> I8 -> has_type x t ->
  exists v, unary_arith x t swap_bytes = Ok v /\ has_type v t.
Proof.
  intros Ht H8 Hx. destruct (unary_arith_typed t swap_bytes x Ht Hx) as (v & _ & _ & E & Hv & _); [|eauto].
  intros v (n & -> & Hl & _)%has_type_lane.
  assert (swap_bytes (VI (Spec.lane t) n) = unary_match (fun w a =>
    swrap w (DataValueExt.rev_bytes (Z.to_nat (w / 8)) a)) (VI (Spec.lane t) n)) as ->
    by (destruct (Spec.lane t); done).
  simpl. rewrite Hl. eauto with clif.
Qed.

Lemma vector_type_ok t : vector_ok t = true -> type_ok t = true.
Proof. by destruct t. Qed.

(** Folding [or] over lanes stays in the lane type. *)
Lemma fold_or_typed l lanes acc : Forall (fun v => has_type v (Lane l)) lanes -> has_type acc (Lane l) ->
  exists r, foldl (fun acc lane => a ← acc; DataValueExt.or a lane) (Ok acc) lanes = Ok r /\
    has_type r (Lane l).
Proof.
  intros Hl. revert acc. induction Hl as [|v lanes Hv _ IH]; intros acc Hacc; [eauto|].
  cbn [foldl mbind ValueResult_bind].
  destruct (proj1 (proj2 bitops_typed) l acc v Hacc Hv) as (r & -> & Hr). by apply IH.
Qed.

Lemma chunks2_typed l op xs : typed2 op -> Forall (fun v => has_type v (Lane l)) xs ->
  (exists k, length xs = 2 * k)%nat ->
  exists rs, collect (chunks2 op xs) = Ok rs /\ Forall (fun v => has_type v (Lane l)) rs /\
    (2 * length rs = length xs)%nat.
Proof.
  intros Hop Hxs [k Hk]. revert xs Hxs Hk. induction k as [|k IH]; intros xs Hxs Hk.
  { destruct xs; [|done]. by exists []. }
  destruct xs as [|a [|b xs]]; [simpl in Hk; lia..|].
  apply Forall_cons in Hxs as [Ha [Hb Hxs]%Forall_cons].
  destruct (IH xs Hxs) as (rs & E & Hrs & Hl); [simpl in Hk; lia|].
  destruct (Hop l a b Ha Hb) as (r & Er & Hr). exists (r :: rs).
  cbn [chunks2 collect]. rewrite Er. cbn [mbind ValueResult_bind]. rewrite E. simpl. split; [done|].
  split; [by constructor|]. lia.
Qed.

Lemma collect_app {A} (l k : list (ValueResult A)) a b :
  collect l = Ok a -> collect k = Ok b -> collect (l ++ k) = Ok (a ++ b).
Proof.
  revert a. induction l as [|r l IH]; intros a Hl Hk; simpl in *; [by injection Hl as <-|].
  destruct r; [|done..]. simpl in *. destruct (collect l); [|done..]. simpl in *.
  injection Hl as <-. by rewrite (IH _ eq_refl Hk).
Qed.

Lemma pairwise_typed t x y : vector_ok t = true -> has_type x t -> has_type y t ->
  exists v, binary_pairwise x y t add = Ok v /\ has_type v t.
Proof.
  intros Hok Hx Hy. pose proof (vector_type_ok t Hok) as Ht.
  destruct (extract_typed t x Ht Hx) as (xs & Ex & Hlx & Hxs & _).
  destruct (extract_typed t y Ht Hy) as (ys & Ey & Hly & Hys & _).
  assert (exists k, Spec.lanes t = 2 * Z.of_nat k) as [k Hk].
  { destruct t as [|l j|]; [done| |done]. simpl in Hok. rewrite !andb_true_iff in Hok.
    destruct Hok as [[_ Hj%Z.leb_le] _]. exists (Z.to_nat (2 ^ (j - 1))). unfold Spec.lanes. simpl.
    rewrite Z2Nat.id by (apply Z.pow_nonneg; lia). rewrite <- Z.pow_succ_r by lia. f_equal. lia. }
  destruct arith_typed as [Hadd _].
  destruct (chunks2_typed _ add xs Hadd Hxs) as (rx & Erx & Hrx & Hlrx); [exists k; unfold zlen in *; lia|].
  destruct (chunks2_typed _ add ys Hadd Hys) as (ry & Ery & Hry & Hlry); [exists k; unfold zlen in *; lia|].
  destruct (vectorize_typed t (rx ++ ry) Ht) as (v & Ev & Hv & _).
  { unfold zlen in *. rewrite length_app. lia. } { by apply Forall_app. }
  exists v. unfold binary_pairwise. rewrite Ex. cbn [mbind ValueResult_bind]. rewrite Ey.
  cbn [mbind ValueResult_bind]. by rewrite (collect_app _ _ _ _ Erx Ery).
Qed.

Lemma set_int_lane t : type_ok t = true -> Spec.set_lane t (Spec.int_of (Spec.lane t)) = t.
Proof.
  intros Ht. pose proof (lane_type_ok t Ht) as Hl.
  assert (Spec.int_of (Spec.lane t) = Spec.lane t) as -> by (destruct (Spec.lane t); done).
  by destruct t.
Qed.

Lemma is_zero_collect l lanes : Forall (fun v => has_type v (Lane l)) lanes ->
  exists zs, collect (is_zero <$> lanes) = Ok zs.
Proof.
  induction 1 as [|v lanes (n & -> & _)%has_type_lane _ [zs IH]]; [by exists []|].
  exists ((n =? 0) :: zs). rewrite fmap_cons. cbn [collect is_zero mbind ValueResult_bind].
  by rewrite IH.
Qed.

(** Takes the arguments of a typed instruction apart and runs [step] on them. *)
Ltac step_args :=
  repeat match goal with
  | H : Forall2 has_type _ (_ :: _) |- _ => apply Forall2_cons_inv_r in H as (? & ? & ? & H & ->)
  | H : Forall2 has_type _ [] |- _ => apply Forall2_nil_inv_r in H as ->
  end;
  repeat match goal with
  | H : ?op ∈ (_ :: _) |- _ => apply elem_of_cons in H as [->|H]
  | H : _ ∈ [] |- _ => by apply elem_of_nil in H
  end;
  cbn [step step_select step_arith step_overflow step_bits step_convert step_lanes step_halves
       step_pairs unary binary binary_imm binary_can_trap shift shift_imm opcode ctrl_ty imm arg0_ty arg lookup list_lookup mbind ValueResult_bind];
  unfold imm_as_ctrl_ty; cbn [ctrl_ty imm].

Lemma yields_bind {A} (P : A -> Prop) (m : ValueResult A) k ts :
  (exists a, m = Ok a /\ P a) -> (forall a, P a -> yields (k a) ts) -> yields (m ≫= k) ts.
Proof. intros (a & -> & Ha) Hk. by apply Hk. Qed.

Lemma select_yields l c x y t : has_type c (Lane l) -> has_type x t -> has_type y t ->
  yields (b ← into_bool c; Ok (Assign [if (b : bool) then x else y])) [t].
Proof.
  intros (n & -> & _)%has_type_lane Hx Hy. cbn [into_bool mbind ValueResult_bind].
  eexists. split; [done|]. constructor; [|constructor]. by destruct (negb _).
Qed.

Lemma popcnt_yields t x : type_ok t = true -> has_type x t ->
  yields (if vt_is_int (ty x) then assign (count_ones x)
          else lanes ← extractlanes x t; counts ← collect (count_ones <$> lanes);
               assign (vectorizelanes counts t)) [t].
Proof.
  intros Ht Hx. destruct counts_typed as (Hc & _). destruct x as [l a|b].
  - assert (t = Lane l) as -> by apply Hx. simpl in Ht. cbn [ty vt_is_int]. rewrite Ht.
    by apply assign_yields, Hc.
  - cbn [ty vt_is_int]. destruct (unary_yields t count_ones (VV b) Ht Hx Hc) as (v & E & Hv).
    unfold unary_arith in E. destruct (extractlanes (VV b) t); [|done..].
    cbn [mbind ValueResult_bind] in *. destruct (collect _); [|done..]. apply assign_yields. eauto.
Qed.

Lemma cls_yields l x : lt_is_int l = true -> has_type x (Lane l) ->
  yields (z ← DataValueExt.int 0 (Lane l);
          count ← (if DataValueExt.lt x z then leading_ones x else leading_zeros x);
          one ← DataValueExt.int 1 (Lane l); assign (sub count one)) [Lane l].
Proof.
  intros Hl Hx. destruct counts_typed as (_ & Hlo & Hlz & _).
  apply (yields_bind (fun v => has_type v (Lane l))); [by apply int_typed|]. intros z Hz.
  apply (yields_bind (fun v => has_type v (Lane l)));
    [destruct (DataValueExt.lt x z); [by apply Hlo|by apply Hlz]|]. intros c Hc.
  apply (yields_bind (fun v => has_type v (Lane l))); [by apply int_typed|]. intros o Ho.
  apply assign_yields. by apply arith_typed.
Qed.

Lemma imm_yields l n op x : lt_is_int l = true -> typed2 op -> has_type x (Lane l) ->
  yields (y ← convert (VI I64 n) (Exact (Lane l)); assign (binary_arith x y (Lane l) op)) [Lane l] /\
  yields (y ← convert (VI I64 n) (Exact (Lane l)); assign (binary_arith y x (Lane l) op)) [Lane l].
Proof.
  intros Hl Hop Hx. split; (apply (yields_bind (fun v => has_type v (Lane l)));
    [by apply has_type_exact|intros; by apply assign_yields, binary_yields]).
Qed.

Lemma not_yields t op x y : whole_ok t = true -> typed2 op -> has_type x t -> has_type y t ->
  yields (n ← DataValueExt.not y; assign (binary_arith x n t op)) [t].
Proof.
  intros Ht Hop Hx Hy. apply (yields_bind (fun v => has_type v t)); [by apply whole_not_typed|].
  intros n Hn. apply assign_yields, binary_yields; auto using whole_type_ok.
Qed.

Lemma neg_yields t x : whole_ok t = true -> has_type x t ->
  yields (z ← DataValueExt.int 0 t; assign (binary_arith z x t sub)) [t].
Proof.
  intros Ht Hx. apply (yields_bind (fun v => has_type v t)); [by apply zero_typed|].
  intros z Hz. apply assign_yields, binary_yields; auto using whole_type_ok. apply arith_typed.
Qed.

Lemma minmax_yields t cc x y u v op : whole_ok t = true -> typed2 op ->
  has_type x t -> has_type y t -> has_type u t -> has_type v t ->
  yields (if vt_is_vector t then c ← icmp t cc u v; assign (bitselect c x y)
          else assign (op x y)) [t].
Proof.
  intros Ht Hop Hx Hy Hu Hv. destruct (vt_is_vector t) eqn:Hvec.
  - apply (yields_bind (fun c => has_type c t)).
    + destruct (icmp_typed t cc u v (whole_type_ok t Ht) Hu Hv) as (c & E & Hc). exists c. split; [done|].
      destruct t as [|l k|]; [done| |done]. simpl in *. destruct l; done.
    + intros c Hc. apply assign_yields. by apply bitselect_typed.
  - destruct t; [|done..]. apply assign_yields. by apply Hop.
Qed.

Lemma shift_yields t l op x y : type_ok t = true -> typed2 op -> has_type x t -> has_type y (Lane l) ->
  yields (a ← shift_amt t y; assign (binary_arith x a t op)) [t].
Proof.
  intros Ht Hop Hx (n & -> & Hl & _)%has_type_lane.
  apply (yields_bind (fun v => has_type v t)); [by apply shift_amt_typed|].
  intros a Ha. by apply assign_yields, binary_yields.
Qed.

Lemma shift_imm_yields t n op x : type_ok t = true -> typed2 op -> has_type x t ->
  yields (a ← shift_amt t (VI I64 n); assign (binary_arith x a t op)) [t].
Proof.
  intros Ht Hop Hx. apply (yields_bind (fun v => has_type v t)); [by apply shift_amt_typed|].
  intros a Ha. by apply assign_yields, binary_yields.
Qed.

Lemma convert_yields l l' x kind : has_type x (Lane l) -> lt_is_int l' = true ->
  (kind = Truncate (Lane l') /\ lt_bits l' < lt_bits l) \/
  ((kind = SignExtend (Lane l') \/ kind = ZeroExtend (Lane l')) /\ lt_bits l < lt_bits l') ->
  yields (assign (convert x kind)) [Lane l'].
Proof.
  intros (n & -> & Hl & Hn)%has_type_lane Hl' Hk. apply assign_yields.
  destruct Hk as [[-> Hlt]|[[->| ->] Hlt]].
  - rewrite convert_truncate; [eauto with clif|done|destruct l, l'; simpl in *; lia].
  - rewrite convert_sext by done. eexists. split; [done|]. apply has_type_intro; [done|].
    unfold in_signed in *. pose proof (lt_bits_pos l).
    pose proof (Z.pow_le_mono_r 2 (lt_bits l - 1) (lt_bits l' - 1)). lia.
  - rewrite convert_zext by done. eexists. split; [done|]. apply has_type_intro; [done|].
    pose proof (lt_bits_pos l). pose proof (wrap_range (lt_bits l) ltac:(lia) n).
    pose proof (Z.pow_le_mono_r 2 (lt_bits l) (lt_bits l' - 1)). unfold in_signed. lia.
Qed.

Lemma isplit_yields x : has_type x (Lane I128) ->
  yields (lo ← convert x (Truncate (Lane I64)); hi ← convert x (ExtractUpper (Lane I64));
          Ok (Assign [lo; hi])) [Lane I64; Lane I64].
Proof.
  intros (n & -> & _)%has_type_lane. rewrite convert_truncate by done. cbn [mbind ValueResult_bind].
  rewrite convert_upper by done. eexists. split; [done|].
  repeat (constructor; [apply has_type_intro; [done|apply swrap_in_lane]|]). constructor.
Qed.

Lemma lane_access t n x : vector_ok t = true -> wrap 8 n < Spec.lanes t -> has_type x t ->
  yields (idx ← into_int_unsigned (VI I8 n); lanes ← extractlanes x t;
          v ← vunwrap (zget lanes idx); Ok (Assign [v])) [lane_ty t] /\
  forall y, has_type y (lane_ty t) ->
  yields (idx ← into_int_unsigned (VI I8 n); vec ← extractlanes x t;
          if idx <? zlen vec then assign (vectorizelanes (zset vec idx y) t) else Unimplemented) [t].
Proof.
  intros Hok Hn Hx. pose proof (vector_type_ok t Hok) as Ht.
  destruct (extract_typed t x Ht Hx) as (xs & Ex & Hlx & Hxs & _).
  pose proof (wrap_range 8 ltac:(lia) n) as Hr. cbn [into_int_unsigned lt_bits mbind ValueResult_bind].
  rewrite Ex. cbn [mbind ValueResult_bind]. split.
  - destruct (proj2 (zget_is_Some xs (wrap 8 n))) as [v Hv]; [lia|]. rewrite Hv. eexists.
    split; [done|]. constructor; [|constructor]. apply zget_elem_of in Hv.
    rewrite Forall_forall in Hxs. auto.
  - intros y Hy. rewrite (proj2 (Z.ltb_lt _ _)) by lia. apply assign_yields.
    destruct (vectorize_typed t (zset xs (wrap 8 n) y) Ht) as (v & E & Hv & _); [by rewrite zlen_zset| |eauto].
    apply Forall_forall. intros z [->|Hz]%elem_of_zset; [done|]. rewrite Forall_forall in Hxs. auto.
Qed.

Lemma any_yields t x : vector_ok t = true -> has_type x t ->
  yields (init ← bool_ false true (lane_ty t); any ← fold_vector x t init DataValueExt.or;
          assign (bool_ (negb (bool_decide (any = init))) false (Lane I8))) [Lane I8] /\
  yields (lanes ← extractlanes x t; zeros ← collect (is_zero <$> lanes);
          assign (bool_ (negb (existsb id zeros)) false (Lane I8))) [Lane I8].
Proof.
  intros Hok Hx. pose proof (vector_type_ok t Hok) as Ht.
  destruct (extract_typed t x Ht Hx) as (xs & Ex & _ & Hxs & _). split.
  - apply (yields_bind (fun v => has_type v (lane_ty t))); [by apply bool_typed, lane_type_ok|].
    intros init Hinit. apply (yields_bind (fun _ => True)).
    + unfold fold_vector. rewrite Ex. cbn [mbind ValueResult_bind].
      destruct (fold_or_typed _ xs init Hxs Hinit) as (r & -> & _). eauto.
    + intros any _. by apply assign_yields, bool_typed.
  - rewrite Ex. cbn [mbind ValueResult_bind]. destruct (is_zero_collect _ xs Hxs) as [zs ->].
    by apply assign_yields, bool_typed.
Qed.

Lemma typing_simple inst ats rts args :
  typing inst ats rts -> Forall2 has_type args ats -> can_trap (opcode inst) = false ->
  yields (step inst args) rts.
Proof.
  destruct arith_typed as (? & ? & ? & ? & ? & ? & ?).
  destruct bitops_typed as (? & ? & ? & ?). destruct counts_typed as (? & ? & ? & ? & ?).
  destruct shifts_typed as (? & ? & ? & ? & ?). destruct minmax_typed as (? & ? & ? & ?).
  destruct flags_typed as (? & ? & ? & ? & ? & ?).
  intros Hty Hargs Htrap.
  destruct Hty; step_args; try done;
    try (by apply assign_yields, binary_yields); try (by apply assign_yields, unary_yields);
    try (by apply overflow_step); try (by eapply overflow_cin_step); try (by eapply select_yields);
    try (by apply imm_yields); try (by apply not_yields); try (by apply minmax_yields);
    try (by eapply shift_yields); try (by apply shift_imm_yields);
    try (by eapply convert_yields; eauto).
  - by apply assign_yields, int_typed.
  - by apply popcnt_yields.
  - by apply assign_yields, iabs_typed.
  - by apply assign_yields, swap_bytes_typed.
  - by apply cls_yields.
  - by apply neg_yields.
  - by apply assign_yields, bitselect_typed.
  - apply assign_yields, mulhi_typed; auto.
  - apply assign_yields, mulhi_typed; auto.
  - by apply assign_yields, icmp_typed.
  - apply (yields_bind (fun v => has_type v (Lane l))); [by apply has_type_exact|].
    intros. apply assign_yields. by apply (icmp_typed (Lane l)).
  - by apply isplit_yields.
  - apply has_type_lane in H30 as (a & -> & _), H31 as (b & -> & _).
    apply assign_yields. cbn [concat]. eexists. split; [done|].
    apply has_type_intro; [done|]. apply (swrap_in_lane I128).
  - by apply assign_yields, splat_typed.
  - by apply lane_access.
  - by apply lane_access.
  - rewrite set_int_lane by by apply vector_type_ok. by apply any_yields.
  - rewrite set_int_lane by by apply vector_type_ok. by apply any_yields.
  - by apply assign_yields, pairwise_typed.
Qed.

Lemma typing_trap inst ats rts args :
  typing inst ats rts -> Forall2 has_type args ats -> can_trap (opcode inst) = true ->
  yields (step inst args) rts \/ exists c, step inst args = Ok (Trap c).
Proof.
  destruct divisions_typed as (? & ? & ? & ?).
  intros Hty Hargs Htrap. destruct Hty; step_args; try done; try (by apply div_step);
    try (rewrite convert_exact by done; cbn [mbind ValueResult_bind]; apply div_step; auto with clif; done).
  match goal with Hu : has_type x _, Hv : has_type ?y _ |- _ =>
    apply has_type_lane in Hu as (a & -> & _), Hv as (b & -> & _) end.
  unfold uadd_checked, binary_match. rewrite decide_True by done.
  match goal with Hl : lt_is_int l = true |- _ => rewrite Hl end.
  cbn [checked mbind ValueResult_bind fst snd]. destruct (u_over _ _); cbn [option_map]; [eauto|].
  left. eexists. split; [done|]. constructor; [auto with clif|constructor].
Qed.



(** The divisions, with their traps. *)
Lemma division_run l a b i a0 :
  lt_is_int l = true -> in_signed (lt_bits l) a -> in_signed (lt_bits l) b ->
  let w := lt_bits l in
  let run op := step (mkInst op (Lane l) i a0) [VI l a; VI l b] in
  let min_by_neg := bool_decide (a = - 2 ^ (w - 1) /\ b = -1) in
  run Udiv = Ok (if b =? 0 then Trap INTEGER_DIVISION_BY_ZERO else Assign [uval l (wrap w a / wrap w b)]) /\
  run Urem = Ok (if b =? 0 then Trap INTEGER_DIVISION_BY_ZERO else Assign [uval l (wrap w a mod wrap w b)]) /\
  run Sdiv = Ok (if min_by_neg then Trap INTEGER_OVERFLOW
                 else if b =? 0 then Trap INTEGER_DIVISION_BY_ZERO else Assign [VI l (Z.quot a b)]) /\
  run Srem = Ok (if min_by_neg then Trap INTEGER_OVERFLOW
                 else if b =? 0 then Trap INTEGER_DIVISION_BY_ZERO else Assign [VI l (Z.rem a b)]).
Proof.
  intros Hl Ha Hb. cbv zeta. unfold step, step_arith, binary_can_trap.
  cbn [opcode ctrl_ty imm arg0_ty arg lookup list_lookup mbind ValueResult_bind].
  rewrite !binary_arith_scalar, udiv_run, urem_run, sdiv_run, srem_run by done.
  assert (bool_decide (a = - 2 ^ (lt_bits l - 1)) && (b =? -1) =
          bool_decide (a = - 2 ^ (lt_bits l - 1) /\ b = -1)) as ->.
  { destruct (Z.eqb_spec b (-1)); repeat case_bool_decide; naive_solver. }
  split_and!; try (by destruct (b =? 0)); case_bool_decide; try done; by destruct (b =? 0).
Qed.

(** When the divisions trap: an unsigned division or remainder exactly
    on a zero divisor; a signed one on a zero divisor, and on the most negative
    dividend divided by -1; otherwise they return the quotient rounded towards
    zero, and the remainder with the sign of the dividend. *)
Theorem interp_division l a b i a0 :
  lt_is_int l = true -> in_signed (lt_bits l) a -> in_signed (lt_bits l) b ->
  let w := lt_bits l in
  let run op := step (mkInst op (Lane l) i a0) [VI l a; VI l b] in
  let min_by_neg := bool_decide (a = - 2 ^ (w - 1) /\ b = -1) in
  run Udiv = Ok (if b =? 0 then Trap INTEGER_DIVISION_BY_ZERO else Assign [uval l (wrap w a / wrap w b)]) /\
  run Urem = Ok (if b =? 0 then Trap INTEGER_DIVISION_BY_ZERO else Assign [uval l (wrap w a mod wrap w b)]) /\
  run Sdiv = Ok (if min_by_neg then Trap INTEGER_OVERFLOW
                 else if b =? 0 then Trap INTEGER_DIVISION_BY_ZERO else Assign [VI l (Z.quot a b)]) /\
  run Srem = Ok (if min_by_neg then Trap INTEGER_OVERFLOW
                 else if b =? 0 then Trap INTEGER_DIVISION_BY_ZERO else Assign [VI l (Z.rem a b)]).
Proof. apply division_run. Qed.

Lemma interp_division_witness :
  step (mkInst Sdiv (Lane I32) (VI I64 0) (Lane I32)) [VI I32 (-7); VI I32 2] =
    Ok (Assign [VI I32 (-3)]).
Proof.
  apply (interp_division I32 (-7) 2 (VI I64 0) (Lane I32)); [reflexivity|unfold in_signed; simpl; lia..].
Defined.

(** [srem] of the most negative value by -1 traps with an integer
    overflow in the interpreter, for every integer type, although its
    documentation has it trap only on a zero divisor and the remainder is zero. *)
Theorem interp_srem_min_traps l i a0 :
  lt_is_int l = true ->
  step (mkInst Srem (Lane l) i a0) [VI l (- 2 ^ (lt_bits l - 1)); VI l (-1)] = Ok (Trap INTEGER_OVERFLOW) /\
  Z.rem (- 2 ^ (lt_bits l - 1)) (-1) = 0.
Proof. intros Hl. destruct l; try done; by split. Qed.

Lemma interp_srem_min_traps_witness :
  step (mkInst Srem (Lane I8) (VI I64 0) (Lane I8)) [VI I8 (-128); VI I8 (-1)] = Ok (Trap INTEGER_OVERFLOW).
Proof. apply (interp_srem_min_traps I8 (VI I64 0) (Lane I8)). reflexivity. Defined.
