(* ===== verification/DivRules.v ===== *)
(** * Rewriting divisions by constants

    The mid-end rewrite rules of Cranelift that replace a division or remainder
    by a constant: codegen/src/opts/arithmetic.isle (lines 78 to 170) and the
    helpers of codegen/src/prelude_opt.isle, with the magic numbers of
    DivConst.v through codegen/src/opts.rs.  A rule builds instructions; here it
    runs them, with the meaning the interpreter gives them (ClifStep.v).
    [rules_udiv] and its siblings list the results of all rules that fire on a
    dividend [x] and a constant divisor, for a scalar type of at most 64 bits.

    Shown: whatever rule fires, its result is what the interpreter computes for
    the division it replaces.  This composes the magic-number contract of
    DivConst.v with the instruction meanings of ClifStep.v. *)

From S2P Require Import BitSet.
From S2P Require Import Prelude ClifTypes DivConst CondCodes ClifValue ClifOps ClifStep.
Import DataValueExt.

(** ** Building instructions *)

(** The result of one instruction of the type [l]. *)
Definition emit (op : Opcode) (l : LaneType) (args : list DataValue) : ValueResult DataValue :=
  r ← step (mkInst op (Lane l) (VI I64 0) (Lane l)) args;
  match r with Assign [v] => Ok v | _ => Unimplemented end.

(** [iconst_u] and [iconst_s]: a constant that the type can represent. *)
Definition iconst_u (l : LaneType) (c : Z) : ValueResult DataValue :=
  if c <=? 2 ^ lt_bits l - 1 then Ok (VI l (swrap (lt_bits l) c)) else Unimplemented.
Definition iconst_s (l : LaneType) (c : Z) : ValueResult DataValue :=
  if swrap (lt_bits l) c =? c then Ok (VI l (swrap (lt_bits l) c)) else Unimplemented.

Definition u64_is_power_of_two (n : Z) : bool := is_power_of_two n.
Definition u64_trailing_zeros (n : Z) : Z := BitSet.trailing_zeros 64 n.
Definition i64_trailing_zeros (n : Z) : Z := BitSet.trailing_zeros 64 (wrap 64 n).

Definition i64_is_negative_power_of_two (x : Z) : bool :=
  u64_is_power_of_two (wrap 64 (swrap 64 (- x))).
Definition i64_is_any_sign_power_of_two (x : Z) : bool :=
  if u64_is_power_of_two (wrap 64 x) then true
  else if i64_is_negative_power_of_two x then true else false.

(** ** Magic numbers (opts.rs): the shift as an unsigned number *)

Definition div_const_magic_u (l : LaneType) (d : Z) : ValueResult MU :=
  match magic_u (lt_bits l) d with
  | Some m => if 0 <=? mu_shift_by m then Ok m else Unimplemented
  | None => Unimplemented
  end.

Definition div_const_magic_s (l : LaneType) (d : Z) : ValueResult MS :=
  match magic_s (lt_bits l) d with
  | Some m => if 0 <=? ms_shift_by m then Ok m else Unimplemented
  | None => Unimplemented
  end.

(** ** Applying them (prelude_opt.isle), for I32 and I64 *)

Definition apply_div_const_magic_u_finish (l : LaneType) (op : Opcode) (numerator : DataValue)
    (divisor : Z) (qf : DataValue) : ValueResult DataValue :=
  match op with
  | Udiv => Ok qf
  | Urem => c ← iconst_u l divisor; tt ← emit Imul l [qf; c]; emit Isub l [numerator; tt]
  | _ => Unimplemented
  end.

Definition apply_div_const_magic_u_maybe_shift (l : LaneType) (op : Opcode) (numerator : DataValue)
    (divisor : Z) (magic : MU) (q3 : DataValue) : ValueResult DataValue :=
  if mu_shift_by magic =? 0 then apply_div_const_magic_u_finish l op numerator divisor q3
  else
    c ← iconst_u l (mu_shift_by magic - 1);
    qf ← emit Ushr l [q3; c];
    apply_div_const_magic_u_finish l op numerator divisor qf.

Definition apply_div_const_magic_u_maybe_add (l : LaneType) (op : Opcode) (numerator : DataValue)
    (divisor : Z) (magic : MU) (q0 : DataValue) : ValueResult DataValue :=
  if mu_do_add magic then
    q1 ← emit Isub l [numerator; q0];
    one ← iconst_u l 1;
    q2 ← emit Ushr l [q1; one];
    q3 ← emit Iadd l [q0; q2];
    apply_div_const_magic_u_maybe_shift l op numerator divisor magic q3
  else
    c ← iconst_u l (mu_shift_by magic);
    q3 ← emit Ushr l [q0; c];
    apply_div_const_magic_u_finish l op numerator divisor q3.

Definition apply_div_const_magic_u (l : LaneType) (op : Opcode) (numerator : DataValue) (divisor : Z)
  : ValueResult DataValue :=
  magic ← div_const_magic_u l divisor;
  c ← iconst_u l (mu_mul_by magic);
  q0 ← emit Umulhi l [numerator; c];
  apply_div_const_magic_u_maybe_add l op numerator divisor magic q0.

Definition apply_div_const_magic_s_finish (l : LaneType) (op : Opcode) (numerator : DataValue)
    (divisor : Z) (qf : DataValue) : ValueResult DataValue :=
  match op with
  | Srem => c ← iconst_s l divisor; tt ← emit Imul l [qf; c]; emit Isub l [numerator; tt]
  | Sdiv => Ok qf
  | _ => Unimplemented
  end.

Definition apply_div_const_magic_s_shift (l : LaneType) (op : Opcode) (numerator : DataValue)
    (divisor : Z) (magic : MS) (q2 : DataValue) : ValueResult DataValue :=
  c ← iconst_s l (ms_shift_by magic);
  q3 ← emit Sshr l [q2; c];
  c31 ← iconst_s l (lt_bits l - 1);
  t1 ← emit Ushr l [q3; c31];
  qf ← emit Iadd l [q3; t1];
  apply_div_const_magic_s_finish l op numerator divisor qf.

Definition apply_div_const_magic_s_add_sub (l : LaneType) (op : Opcode) (numerator : DataValue)
    (divisor : Z) (magic : MS) (q1 : DataValue) : ValueResult DataValue :=
  if (0 <? divisor) && (ms_mul_by magic <? 0) then
    q2 ← emit Iadd l [q1; numerator]; apply_div_const_magic_s_shift l op numerator divisor magic q2
  else if (divisor <? 0) && (0 <? ms_mul_by magic) then
    q2 ← emit Isub l [q1; numerator]; apply_div_const_magic_s_shift l op numerator divisor magic q2
  else apply_div_const_magic_s_shift l op numerator divisor magic q1.

Definition apply_div_const_magic_s (l : LaneType) (op : Opcode) (numerator : DataValue) (divisor : Z)
  : ValueResult DataValue :=
  magic ← div_const_magic_s l divisor;
  q0 ← iconst_s l (ms_mul_by magic);
  q1 ← emit Smulhi l [numerator; q0];
  apply_div_const_magic_s_add_sub l op numerator divisor magic q1.

(** ** The rules (opts/arithmetic.isle)

    [c] is the signed value of the constant divisor of type [l]: [iconst_s]
    extracts it, [iconst_u] extracts the unsigned value. *)

(** A rule that fires under a condition. *)
Definition rule (cond : bool) (r : ValueResult DataValue) : list (ValueResult DataValue) :=
  if cond then [r] else [].

Definition is_32_or_64 (l : LaneType) : bool :=
  match l with I32 | I64 => true | _ => false end.

Definition rules_udiv (l : LaneType) (x : DataValue) (c : Z) : list (ValueResult DataValue) :=
  let d := wrap (lt_bits l) c in
  rule (d =? 1) (Ok x) ++
  rule (u64_is_power_of_two d) (k ← iconst_u l (Z.log2 d); emit Ushr l [x; k]) ++
  rule (is_32_or_64 l && negb (d =? 0) && negb (u64_is_power_of_two d))
    (apply_div_const_magic_u l Udiv x d).

(** The bias that makes a signed shift round towards zero. *)
Definition sdiv_bias (l : LaneType) (x : DataValue) (k : Z) : ValueResult DataValue :=
  k1 ← iconst_u l (k - 1);
  t1 ← emit Sshr l [x; k1];
  k2 ← iconst_u l (lt_bits l - k);
  t2 ← emit Ushr l [t1; k2];
  emit Iadd l [x; t2].

Definition rules_sdiv (l : LaneType) (x : DataValue) (c : Z) : list (ValueResult DataValue) :=
  let d := wrap (lt_bits l) c in
  rule (c =? 1) (Ok x) ++
  rule (u64_is_power_of_two d && (1 <? d) && (u64_trailing_zeros d <? lt_bits l - 1))
    (let k := u64_trailing_zeros d in
     t3 ← sdiv_bias l x k; ck ← iconst_s l k; emit Sshr l [t3; ck]) ++
  rule (i64_is_negative_power_of_two c && negb (c =? -1))
    (let k := i64_trailing_zeros c in
     t3 ← sdiv_bias l x k; ck ← iconst_s l k; t4 ← emit Sshr l [t3; ck]; emit Ineg l [t4]) ++
  rule (is_32_or_64 l && negb (c =? 0) && negb (i64_is_any_sign_power_of_two c))
    (apply_div_const_magic_s l Sdiv x c).

Definition rules_urem (l : LaneType) (x : DataValue) (c : Z) : list (ValueResult DataValue) :=
  let d := wrap (lt_bits l) c in
  rule (d =? 1) (iconst_u l 0) ++
  rule (u64_is_power_of_two d && (1 <? d))
    (mask ← iconst_u l (wrap 64 (Z.shiftl 1 (Z.log2 d)) - 1); emit Band l [x; mask]) ++
  rule (is_32_or_64 l && negb (d =? 0) && negb (u64_is_power_of_two d))
    (apply_div_const_magic_u l Urem x d).

Definition rules_srem (l : LaneType) (x : DataValue) (c : Z) : list (ValueResult DataValue) :=
  rule (wrap (lt_bits l) c =? 1) (iconst_u l 0) ++
  rule (c =? -1) (iconst_u l 0) ++
  rule (i64_is_any_sign_power_of_two c && negb (c =? 1) && negb (c =? -1))
    (let k := i64_trailing_zeros c in
     t3 ← sdiv_bias l x k;
     m ← iconst_s l (swrap 64 (- swrap 64 (Z.shiftl 1 k)));
     t4 ← emit Band l [t3; m];
     emit Isub l [x; t4]) ++
  rule (is_32_or_64 l && negb (c =? 0) && negb (i64_is_any_sign_power_of_two c))
    (apply_div_const_magic_s l Srem x c).

Example rules_udiv_7 : rules_udiv I32 (VI I32 (-1)) 7 = [Ok (VI I32 613566756)].
Proof. vm_compute. reflexivity. Qed.
Example rules_sdiv_m8 : rules_sdiv I8 (VI I8 (-100)) (-8) = [Ok (VI I8 12)].
Proof. vm_compute. reflexivity. Qed.
Example rules_srem_min : rules_srem I32 (VI I32 (-7)) (- 2 ^ 31) = [Ok (VI I32 (-7))].
Proof. vm_compute. reflexivity. Qed.

(** ** What the emitted instructions compute

    Every value is [uval l z] for an integer [z], signed or unsigned. *)

Section emitted.
Context (l : LaneType) (Hl : lt_is_int l = true) (Hw64 : lt_bits l <= 64).
Abbreviation w := (lt_bits l).

Lemma w_ge : 8 <= w.
Proof. destruct l; simpl in *; done || lia. Qed.

Lemma uval_eq x y : wrap w x = wrap w y -> uval l x = uval l y.
Proof. intros E. unfold uval. f_equal. by apply swrap_eq. Qed.

Lemma uval_signed a : in_signed w a -> VI l a = uval l a.
Proof. intros Ha. unfold uval. pose proof w_ge. by rewrite swrap_small by (done || lia). Qed.

Lemma uval_wrap a : uval l (wrap w a) = uval l a.
Proof. apply uval_eq, wrap_wrap. Qed.

Lemma wrap_uval z : wrap w (swrap w z) = wrap w z.
Proof. pose proof w_ge. apply wrap_swrap. lia. Qed.

Lemma swrap_uval z : swrap w (swrap w z) = swrap w z.
Proof. pose proof w_ge. apply swrap_small; [lia|]. apply swrap_in. lia. Qed.

Lemma iconst_u_run c : 0 <= c < 2 ^ w -> iconst_u l c = Ok (uval l c).
Proof. intros. unfold iconst_u. by rewrite (proj2 (Z.leb_le _ _)) by lia. Qed.

Lemma iconst_s_run c : in_signed w c -> iconst_s l c = Ok (uval l c).
Proof.
  intros Hc. unfold iconst_s, uval. pose proof w_ge.
  by rewrite swrap_small, Z.eqb_refl by (done || lia).
Qed.

Ltac emit_binary := unfold emit, step, step_arith, step_bits, binary, shift;
  cbn [opcode ctrl_ty imm arg0_ty arg lookup list_lookup mbind ValueResult_bind];
  unfold uval; rewrite ?binary_arith_scalar.

Lemma emit_iadd x y : emit Iadd l [uval l x; uval l y] = Ok (uval l (x + y)).
Proof.
  emit_binary. unfold add. rewrite binary_val_run by done. cbn [assign mbind ValueResult_bind].
  f_equal. apply uval_eq. by rewrite wrap_add, !wrap_uval, <- wrap_add.
Qed.

Lemma emit_isub x y : emit Isub l [uval l x; uval l y] = Ok (uval l (x - y)).
Proof.
  emit_binary. unfold sub. rewrite binary_val_run by done. cbn [assign mbind ValueResult_bind].
  f_equal. apply uval_eq. by rewrite wrap_sub, !wrap_uval, <- wrap_sub.
Qed.

Lemma emit_imul x y : emit Imul l [uval l x; uval l y] = Ok (uval l (x * y)).
Proof.
  emit_binary. unfold mul. rewrite binary_val_run by done. cbn [assign mbind ValueResult_bind].
  f_equal. apply uval_eq. by rewrite wrap_mul, !wrap_uval, <- wrap_mul.
Qed.

Lemma emit_ineg x : emit Ineg l [uval l x] = Ok (uval l (- x)).
Proof.
  assert (DataValueExt.int 0 (Lane l) = Ok (uval l 0)) as E.
  { unfold DataValueExt.int. cbn [vt_is_vector vt_is_int from_integer]. by rewrite Hl. }
  emit_binary. rewrite E. cbn [mbind ValueResult_bind]. unfold uval.
  rewrite binary_arith_scalar. unfold sub. rewrite binary_val_run by done.
  cbn [assign mbind ValueResult_bind]. f_equal. apply uval_eq.
  by rewrite wrap_sub, !wrap_uval, <- wrap_sub.
Qed.

Lemma emit_band x y : emit Band l [uval l x; uval l y] = Ok (uval l (Z.land x y)).
Proof.
  emit_binary. unfold DataValueExt.and, bitop. rewrite binary_val_run by done.
  cbn [assign mbind ValueResult_bind]. f_equal. pose proof w_ge. rewrite uval_signed.
  - apply uval_eq, wrap_ext; [lia|]. intros. by rewrite !Z.land_spec, !swrap_testbit by lia.
  - apply in_signed_bitop; [apply Z.shiftr_land| |lia|apply swrap_in; lia..].
    intros u v [->| ->] [->| ->]; auto.
Qed.

Lemma amount k : 0 <= k < w -> swrap w k mod w = k.
Proof.
  intros Hk. pose proof w_ge. rewrite swrap_small; [apply Z.mod_small|lia|apply in_signed_count]; lia.
Qed.

Lemma emit_ushr x k : 0 <= x < 2 ^ w -> 0 <= k < w ->
  emit Ushr l [uval l x; uval l k] = Ok (uval l (x / 2 ^ k)).
Proof.
  intros Hx Hk. emit_binary. unfold ushr.
  rewrite shift_amt_scalar by done. cbn [mbind ValueResult_bind].
  rewrite binary_arith_scalar, shift_match_run by done. cbn [assign mbind ValueResult_bind].
  pose proof w_ge. rewrite swrap_uval.
  by rewrite amount, wrap_uval, wrap_small, Z.shiftr_div_pow2 by lia.
Qed.

Lemma emit_sshr x k : in_signed w x -> 0 <= k < w ->
  emit Sshr l [uval l x; uval l k] = Ok (uval l (x / 2 ^ k)).
Proof.
  intros Hx Hk. emit_binary. unfold sshr.
  rewrite shift_amt_scalar by done. cbn [mbind ValueResult_bind].
  rewrite binary_arith_scalar, shift_match_run by done. cbn [assign mbind ValueResult_bind].
  pose proof w_ge. rewrite swrap_uval.
  rewrite amount, swrap_small by (done || lia). rewrite <- Z.shiftr_div_pow2 by lia.
  f_equal. apply uval_signed. apply in_signed_shr; [lia..|done].
Qed.

Lemma mulhi_scalar ext a b :
  mulhi ext (Lane l) (VI l a) (VI l b) = mulhi_lane ext l (VI l a) (VI l b).
Proof.
  clear -Hl Hw64. destruct l; simpl in *; try done; try lia; unfold mulhi; cbn -[mulhi_lane];
    by destruct (mulhi_lane _ _ _ _).
Qed.

Lemma emit_umulhi x y : 0 <= x < 2 ^ w -> 0 <= y < 2 ^ w ->
  emit Umulhi l [uval l x; uval l y] = Ok (uval l (x * y / 2 ^ w)).
Proof.
  intros Hx Hy. emit_binary. rewrite mulhi_scalar, umulhi_lane by done.
  by rewrite !wrap_uval, !wrap_small by lia.
Qed.

Lemma emit_smulhi x y : in_signed w x -> in_signed w y ->
  emit Smulhi l [uval l x; uval l y] = Ok (uval l (x * y / 2 ^ w)).
Proof.
  intros Hx Hy. pose proof w_ge. destruct (pow_width w ltac:(lia)). rewrite <- !uval_signed; try done.
  - emit_binary. by rewrite mulhi_scalar, smulhi_lane.
  - unfold in_signed in *. split; [apply Z.div_le_lower_bound|apply Z.div_lt_upper_bound]; nia.
Qed.

(** ** Unsigned division by the magic number *)

Section magic_unsigned.
Context (d n : Z) (Hd : 2 <= d < 2 ^ w) (Hn : 0 <= n < 2 ^ w).

Lemma shift_product x p : w <= p -> x / 2 ^ w / 2 ^ (p - w) = x / 2 ^ p.
Proof.
  pose proof w_ge. intros. rewrite Z.div_div by (try apply Z.pow_pos_nonneg; lia).
  by rewrite <- Z.pow_add_r, Zplus_minus by lia.
Qed.

(** With the added bit, the average of [n] and [q0] avoids an overflow. *)
Lemma magic_add_run op p m :
  2 ^ w <= m < 2 * 2 ^ w -> w < p <= 2 * w -> n * m / 2 ^ p = n / d ->
  apply_div_const_magic_u_maybe_add l op (uval l n) d (mkMU (m - 2 ^ w) true (p - w))
    (uval l (n * (m - 2 ^ w) / 2 ^ w)) =
  apply_div_const_magic_u_finish l op (uval l n) d (uval l (n / d)).
Proof.
  intros Hm Hp E. pose proof w_ge. set (q0 := n * (m - 2 ^ w) / 2 ^ w).
  assert (0 <= q0 <= n) as Hq.
  { split; [apply Z.div_pos; nia|]. apply Z.div_le_upper_bound; nia. }
  unfold apply_div_const_magic_u_maybe_add. cbn [mu_do_add]. rewrite emit_isub.
  cbn [mbind ValueResult_bind]. rewrite iconst_u_run by lia. cbn [mbind ValueResult_bind].
  rewrite emit_ushr by lia. cbn [mbind ValueResult_bind]. rewrite emit_iadd.
  cbn [mbind ValueResult_bind]. unfold apply_div_const_magic_u_maybe_shift. cbn [mu_shift_by].
  rewrite (proj2 (Z.eqb_neq _ _)) by lia. rewrite iconst_u_run.
  - cbn [mbind ValueResult_bind].
    assert (q0 + (n - q0) / 2 ^ 1 = n * m / 2 ^ w / 2) as ->.
    { replace (n * m / 2 ^ w) with (n + q0).
      - change (2 ^ 1) with 2. rewrite <- (Z.div_add_l q0 2 (n - q0)) by lia. f_equal. lia.
      - unfold q0. replace (n * m) with (n * 2 ^ w + n * (m - 2 ^ w)) by lia.
        by rewrite Z.div_add_l by lia. }
    assert (0 <= n * m / 2 ^ w < 2 * 2 ^ w)
      by (split; [apply Z.div_pos; nia|apply Z.div_lt_upper_bound; nia]).
    rewrite emit_ushr by (lia || (split; [apply Z.div_pos|apply Z.div_lt_upper_bound]; lia)).
    cbn [mbind ValueResult_bind]. do 2 f_equal. rewrite <- E, <- (shift_product _ p) by lia.
    replace (p - w) with (1 + (p - w - 1)) at 2 by lia.
    rewrite Z.pow_add_r, <- Z.div_div by (try apply Z.pow_pos_nonneg; lia). done.
  - pose proof (in_signed_count l w). unfold in_signed in *. pose proof (pow_width w). lia.
Qed.

Lemma magic_noadd_run op p m :
  0 < m < 2 ^ w -> w <= p < 2 * w -> n * m / 2 ^ p = n / d ->
  apply_div_const_magic_u_maybe_add l op (uval l n) d (mkMU m false (p - w))
    (uval l (n * m / 2 ^ w)) =
  apply_div_const_magic_u_finish l op (uval l n) d (uval l (n / d)).
Proof.
  intros Hm Hp E. pose proof w_ge.
  unfold apply_div_const_magic_u_maybe_add. cbn [mu_do_add mu_shift_by]. rewrite iconst_u_run.
  - cbn [mbind ValueResult_bind]. rewrite emit_ushr.
    + cbn [mbind ValueResult_bind]. by rewrite shift_product, E by lia.
    + split; [apply Z.div_pos; nia|apply Z.div_lt_upper_bound; nia].
    + lia.
  - pose proof (in_signed_count l w). unfold in_signed in *. pose proof (pow_width w). lia.
Qed.

Lemma magic_u_apply op :
  apply_div_const_magic_u l op (uval l n) d =
  apply_div_const_magic_u_finish l op (uval l n) d (uval l (n / d)).
Proof.
  pose proof w_ge. destruct (magic_u_run w d ltac:(lia) Hd) as ([mul add sh] & E & Hok).
  destruct Hok as (p & m & delta & Es & Ea & Em & Hp & Hp1 & Hp2 & Hm & Hmd & Hdelta & Hnc).
  cbn [mu_shift_by mu_do_add mu_mul_by] in *. subst sh.
  assert (n * m / 2 ^ p = n / d) as Hq.
  { apply (magic_quotient (2 ^ w) d (2 ^ p) m delta n); lia. }
  unfold apply_div_const_magic_u, div_const_magic_u. rewrite E. cbn [mu_shift_by].
  rewrite (proj2 (Z.leb_le _ _)) by lia. cbn [mbind ValueResult_bind mu_mul_by].
  destruct (Z.leb_spec (2 ^ w) m); subst add mul; rewrite iconst_u_run by lia;
    cbn [mbind ValueResult_bind]; rewrite emit_umulhi by lia; cbn [mbind ValueResult_bind].
  - apply magic_add_run; [lia| |done]. lia.
  - apply magic_noadd_run; [lia| |done]. destruct (decide (p = 2 * w)); lia.
Qed.
End magic_unsigned.

(** ** Signed division by the magic number *)

Section magic_signed.
Context (d n : Z) (Hd : in_signed w d) (Hd2 : 2 <= Z.abs d) (Hn : in_signed w n).
Abbreviation N := (if d <? 0 then - n else n).

Lemma quot_abs : Z.quot n d = Z.quot N (Z.abs d).
Proof.
  destruct (Z.ltb_spec d 0).
  - rewrite Z.abs_neq by lia. by rewrite Z.quot_opp_opp by lia.
  - by rewrite Z.abs_eq by lia.
Qed.

(** When [|d|] divides [2^(w-1) + 1] the excess [delta] is small enough for the
    most negative numerator. *)
Lemma delta_small a p : 2 <= a -> w - 1 <= p -> 2 ^ (w - 1) mod a = a - 1 ->
  2 ^ (w - 1) * (a - 2 ^ p mod a) <= 2 ^ p.
Proof.
  intros Ha Hp E. pose proof w_ge. set (h := 2 ^ (w - 1)) in *.
  assert (2 ^ p = h * 2 ^ (p - (w - 1))) as Ep
    by (unfold h; rewrite <- Z.pow_add_r by lia; f_equal; lia).
  assert (0 < 2 ^ (p - (w - 1))) as Hk by (apply Z.pow_pos_nonneg; lia).
  assert (0 < h) by (apply Z.pow_pos_nonneg; lia).
  set (k := 2 ^ (p - (w - 1))) in *. rewrite Ep.
  apply Z.mul_le_mono_nonneg_l; [lia|].
  pose proof (Z.div_mod h a ltac:(lia)) as Eh. rewrite E in Eh.
  pose proof (Z.div_mod (h * k) a ltac:(lia)) as Ehk.
  pose proof (Z.mod_pos_bound (h * k) a ltac:(lia)).
  set (Q := h / a) in *. set (R := (h * k) / a) in *. set (r := (h * k) mod a) in *.
  clearbody Q R r k h. assert (a * ((Q + 1) * k - R - 1) = k - (a - r)) by nia.
  destruct (decide (0 <= (Q + 1) * k - R - 1)); nia.
Qed.

(** The rounded product is the quotient, or one below it. *)
Lemma magic_s_product p m :
  let delta := Z.abs d - 2 ^ p mod Z.abs d in
  w <= p -> 0 < m -> m * Z.abs d = 2 ^ p + delta ->
  largest_full (2 ^ (w - 1) + if d <? 0 then 1 else 0) (Z.abs d) * delta < 2 ^ p ->
  N * m / 2 ^ p = Z.quot n d - if N <? 0 then 1 else 0.
Proof.
  intros delta Hp Hm Hmd Hnc. rewrite quot_abs. pose proof w_ge. unfold in_signed in *.
  assert (0 < 2 ^ p) by (apply Z.pow_pos_nonneg; lia).
  pose proof (Z.mod_pos_bound (2 ^ p) (Z.abs d) ltac:(lia)).
  destruct (Z.ltb_spec N 0) as [HN|HN].
  - assert (Z.quot N (Z.abs d) = - (- N / Z.abs d)) as ->.
    { rewrite <- (Z.opp_involutive N) at 1. rewrite Z.quot_opp_l by lia.
      by rewrite Z.quot_div_nonneg by lia. }
    rewrite <- (magic_quotient_neg (2 ^ (w - 1) + if d <? 0 then 1 else 0) (Z.abs d) (2 ^ p) m delta);
      try done; try (destruct (d <? 0); lia).
    + by rewrite Z.opp_involutive.
    + destruct (Z.ltb_spec d 0); [lia|]. rewrite Z.add_0_r.
      destruct (decide (- n = 2 ^ (w - 1))) as [->|]; [right|left; lia].
      destruct (decide (2 ^ (w - 1) mod Z.abs d = Z.abs d - 1)) as [E|]; [right|by left].
      apply delta_small; [lia..|done].
  - rewrite Z.quot_div_nonneg, Z.sub_0_r by lia.
    apply (magic_quotient (2 ^ (w - 1) + if d <? 0 then 1 else 0) (Z.abs d) (2 ^ p) m delta);
      try done; destruct (Z.ltb_spec d 0); lia.
Qed.

(** The high product with the stored multiplier, corrected by the numerator. *)
Lemma magic_s_add_sub_run op m sh :
  0 < m < 2 ^ w ->
  let mul := swrap w (if d <? 0 then - m else m) in
  apply_div_const_magic_s_add_sub l op (uval l n) d (mkMS mul sh) (uval l (n * mul / 2 ^ w)) =
  apply_div_const_magic_s_shift l op (uval l n) d (mkMS mul sh) (uval l (N * m / 2 ^ w)).
Proof.
  intros Hm mul. pose proof w_ge. pose proof (pow_width w ltac:(lia)) as [EB ?].
  unfold apply_div_const_magic_s_add_sub. cbn [ms_mul_by].
  assert (mul = (if d <? 0 then - m else m) \/
          mul = (if d <? 0 then 2 ^ w - m else m - 2 ^ w)) as Hmul.
  { unfold mul. destruct (d <? 0).
    - rewrite <- swrap_wrap. unfold wrap. rewrite <- (Z.mod_unique_pos (- m) _ (-1) (2 ^ w - m)) by lia.
      rewrite swrap_unsigned by lia. destruct (_ <? _); lia.
    - rewrite swrap_unsigned by lia. destruct (_ <? _); lia. }
  assert (in_signed w mul) as Hin by (apply swrap_in; lia). unfold in_signed in Hin.
  clearbody mul. destruct (Z.ltb_spec d 0); destruct (Z.ltb_spec 0 d); try lia; cbn [andb].
  - destruct (Z.ltb_spec 0 mul).
    + rewrite emit_isub. cbn [mbind ValueResult_bind]. do 2 f_equal.
      replace (n * mul) with (n * 2 ^ w + - n * m) by nia. rewrite Z.div_add_l by lia. lia.
    + do 3 f_equal. nia.
  - destruct (Z.ltb_spec mul 0).
    + rewrite emit_iadd. cbn [mbind ValueResult_bind]. do 2 f_equal.
      replace (n * m) with (n * 2 ^ w + n * mul) by nia. rewrite Z.div_add_l by lia. lia.
    + do 3 f_equal. nia.
Qed.

(** The shift, and one more for a negative result. *)
Lemma magic_s_shift_run op m mul p :
  0 < m < 2 ^ w -> w <= p < 2 * w ->
  N * m / 2 ^ p = Z.quot n d - (if N <? 0 then 1 else 0) ->
  apply_div_const_magic_s_shift l op (uval l n) d (mkMS mul (p - w)) (uval l (N * m / 2 ^ w)) =
  apply_div_const_magic_s_finish l op (uval l n) d (uval l (Z.quot n d)).
Proof.
  intros Hm Hp Hq. pose proof w_ge. pose proof (pow_width w ltac:(lia)) as [EB ?].
  assert (in_signed w (N * m / 2 ^ w)) as Hin.
  { unfold in_signed in *. split; [apply Z.div_le_lower_bound|apply Z.div_lt_upper_bound];
      destruct (d <? 0); nia. }
  pose proof (in_signed_quot w n d ltac:(lia) Hn ltac:(lia)) as Hquot.
  unfold apply_div_const_magic_s_shift. cbn [ms_shift_by].
  rewrite (iconst_s_run (p - w)) by (apply in_signed_count; lia). cbn [mbind ValueResult_bind].
  rewrite emit_sshr by (done || lia). cbn [mbind ValueResult_bind].
  rewrite iconst_s_run by (apply in_signed_count; lia). cbn [mbind ValueResult_bind].
  rewrite shift_product by lia.
  assert (in_signed w (N * m / 2 ^ p)) as Hq3.
  { rewrite <- shift_product, <- Z.shiftr_div_pow2 by lia. apply in_signed_shr; lia || done. }
  rewrite <- (uval_wrap (N * m / 2 ^ p)) at 1.
  rewrite emit_ushr by (lia || apply wrap_range; lia). cbn [mbind ValueResult_bind].
  pose proof (sign_bit w _ ltac:(lia) Hq3) as Es. rewrite Z.shiftr_div_pow2 in Es by lia.
  rewrite Es, emit_iadd.
  cbn [mbind ValueResult_bind]. do 2 f_equal. rewrite Hq.
  assert ((Z.quot n d - (if N <? 0 then 1 else 0) <? 0) = (N <? 0)) as ->.
  { rewrite quot_abs. destruct (Z.ltb_spec N 0).
    - apply Z.ltb_lt. pose proof (Z.quot_le_mono N 0 (Z.abs d)).
      pose proof (Z.quot_0_l (Z.abs d)). lia.
    - apply Z.ltb_ge. pose proof (Z.quot_pos N (Z.abs d)). lia. }
  destruct (N <? 0); lia.
Qed.

Lemma magic_s_apply op :
  apply_div_const_magic_s l op (uval l n) d =
  apply_div_const_magic_s_finish l op (uval l n) d (uval l (Z.quot n d)).
Proof.
  pose proof w_ge. destruct (magic_s_run w d ltac:(lia) Hd Hd2) as ([mul sh] & E & p & m & Hok).
  cbv zeta in Hok. destruct Hok as (Es & Em & Hp & Hm & Hmd & Hnc).
  cbn [ms_shift_by ms_mul_by] in *. subst sh mul.
  pose proof (magic_s_product p m ltac:(lia) ltac:(lia) Hmd Hnc) as Hq.
  unfold apply_div_const_magic_s, div_const_magic_s. rewrite E. cbn [ms_shift_by].
  rewrite (proj2 (Z.leb_le _ _)) by lia. cbn [mbind ValueResult_bind ms_mul_by].
  pose proof (swrap_in w ltac:(lia) (if d <? 0 then - m else m)) as Hmul.
  rewrite iconst_s_run by done. cbn [mbind ValueResult_bind].
  rewrite emit_smulhi by done. cbn [mbind ValueResult_bind].
  rewrite magic_s_add_sub_run by done. by apply magic_s_shift_run.
Qed.
End magic_signed.

Lemma magic_u_rules a d : 0 <= a < 2 ^ w -> 2 <= d < 2 ^ w ->
  apply_div_const_magic_u l Udiv (uval l a) d = Ok (uval l (a / d)) /\
  apply_div_const_magic_u l Urem (uval l a) d = Ok (uval l (a mod d)).
Proof.
  intros Ha Hd. rewrite !magic_u_apply by done. split; [done|]. cbn [apply_div_const_magic_u_finish].
  rewrite iconst_u_run by lia. cbn [mbind ValueResult_bind]. rewrite emit_imul.
  cbn [mbind ValueResult_bind]. rewrite emit_isub. do 2 f_equal. rewrite Z.mod_eq by lia. lia.
Qed.

Lemma magic_s_rules a d : in_signed w a -> in_signed w d -> 2 <= Z.abs d ->
  apply_div_const_magic_s l Sdiv (uval l a) d = Ok (uval l (Z.quot a d)) /\
  apply_div_const_magic_s l Srem (uval l a) d = Ok (uval l (Z.rem a d)).
Proof.
  intros Ha Hd Hd2. rewrite !magic_s_apply by done. split; [done|]. cbn [apply_div_const_magic_s_finish].
  rewrite iconst_s_run by done. cbn [mbind ValueResult_bind]. rewrite emit_imul.
  cbn [mbind ValueResult_bind]. rewrite emit_isub. do 2 f_equal.
  pose proof (Z.quot_rem' a d). lia.
Qed.

(** ** Powers of two *)

Lemma div_pow_signed a k : 0 <= k -> in_signed w a -> in_signed w (a / 2 ^ k).
Proof. intros. pose proof w_ge. rewrite <- Z.shiftr_div_pow2 by done. apply in_signed_shr; lia || done. Qed.

(** The sign bits, shifted down to the low [k] bits. *)
Lemma sign_mask a k : in_signed w a -> 1 <= k <= w - 1 ->
  wrap w (a / 2 ^ (k - 1)) / 2 ^ (w - k) = if a <? 0 then 2 ^ k - 1 else 0.
Proof.
  intros Ha Hk. pose proof w_ge. pose proof (div_pow_signed a (k - 1) ltac:(lia) Ha) as Ht.
  rewrite wrap_signed by (done || lia).
  assert (2 ^ (w - 1) = 2 ^ (k - 1) * 2 ^ (w - k)) as E1
    by (rewrite <- Z.pow_add_r by lia; f_equal; lia).
  assert (2 ^ w = 2 ^ k * 2 ^ (w - k)) as E2 by (rewrite <- Z.pow_add_r by lia; f_equal; lia).
  assert (0 < 2 ^ (k - 1)) by (apply Z.pow_pos_nonneg; lia).
  assert (0 < 2 ^ (w - k)) by (apply Z.pow_pos_nonneg; lia). unfold in_signed in Ha.
  destruct (Z.ltb_spec a 0).
  - assert (- 2 ^ (w - k) <= a / 2 ^ (k - 1) < 0)
      by (split; [apply Z.div_le_lower_bound|apply Z.div_lt_upper_bound]; lia).
    rewrite (proj2 (Z.ltb_lt _ _)) by lia.
    symmetry. apply (Z.div_unique_pos _ _ _ (a / 2 ^ (k - 1) + 2 ^ (w - k))); lia.
  - assert (0 <= a / 2 ^ (k - 1) < 2 ^ (w - k))
      by (split; [apply Z.div_pos|apply Z.div_lt_upper_bound]; lia).
    rewrite (proj2 (Z.ltb_ge _ _)) by lia. apply Z.div_small. lia.
Qed.

Definition bias (a k : Z) : Z := if a <? 0 then 2 ^ k - 1 else 0.

Lemma sdiv_bias_run a k : in_signed w a -> 1 <= k <= w - 1 ->
  sdiv_bias l (uval l a) k = Ok (uval l (a + bias a k)).
Proof.
  intros Ha Hk. pose proof w_ge. pose proof (in_signed_count l w) as Hc.
  pose proof (pow_width w ltac:(lia)) as [EB _]. unfold in_signed in Hc.
  unfold sdiv_bias. rewrite (iconst_u_run (k - 1)) by lia. cbn [mbind ValueResult_bind].
  rewrite emit_sshr by (done || lia). cbn [mbind ValueResult_bind].
  rewrite (iconst_u_run (w - k)) by lia. cbn [mbind ValueResult_bind].
  rewrite <- (uval_wrap (a / 2 ^ (k - 1))).
  rewrite emit_ushr by (lia || apply wrap_range; lia). cbn [mbind ValueResult_bind].
  by rewrite sign_mask, emit_iadd.
Qed.

(** With the bias, the shift rounds towards zero. *)
Lemma bias_quot a k : in_signed w a -> 1 <= k <= w - 1 ->
  in_signed w (a + bias a k) /\ (a + bias a k) / 2 ^ k = Z.quot a (2 ^ k).
Proof.
  intros Ha Hk. pose proof w_ge. unfold bias, in_signed in *.
  assert (0 < 2 ^ k) by (apply Z.pow_pos_nonneg; lia).
  assert (2 ^ k <= 2 ^ (w - 1)) by (apply Z.pow_le_mono_r; lia).
  destruct (Z.ltb_spec a 0); (split; [lia|]).
  - rewrite <- (Z.opp_involutive a) at 2. rewrite Z.quot_opp_l, Z.quot_div_nonneg by lia.
    pose proof (Z.div_mod (- a) (2 ^ k) ltac:(lia)). pose proof (Z.mod_pos_bound (- a) (2 ^ k) ltac:(lia)).
    symmetry. apply (Z.div_unique_pos _ _ _ (2 ^ k - 1 - (- a) mod 2 ^ k)); lia.
  - by rewrite Z.add_0_r, Z.quot_div_nonneg by lia.
Qed.

Lemma sdiv_pow_run a k : in_signed w a -> 1 <= k <= w - 1 ->
  (t3 ← sdiv_bias l (uval l a) k; ck ← iconst_s l k; emit Sshr l [t3; ck]) =
    Ok (uval l (Z.quot a (2 ^ k))).
Proof.
  intros Ha Hk. destruct (bias_quot a k Ha Hk) as [Hin E].
  rewrite sdiv_bias_run by done. cbn [mbind ValueResult_bind].
  rewrite iconst_s_run by (apply in_signed_count; lia). cbn [mbind ValueResult_bind].
  rewrite emit_sshr by (done || lia). by rewrite E.
Qed.

Lemma neg_pow2_ones k : - 2 ^ k = Z.lnot (Z.ones k).
Proof. rewrite Z.ones_equiv. unfold Z.lnot. lia. Qed.

Lemma land_neg_pow2 x k : 0 <= k -> Z.land x (- 2 ^ k) = x / 2 ^ k * 2 ^ k.
Proof.
  intros Hk. rewrite neg_pow2_ones.
  rewrite <- Z.ldiff_land, Z.ldiff_ones_r, Z.shiftr_div_pow2, Z.shiftl_mul_pow2 by lia. done.
Qed.

Lemma srem_pow_run a k : in_signed w a -> 1 <= k <= w - 1 ->
  (t3 ← sdiv_bias l (uval l a) k; m ← iconst_s l (- 2 ^ k);
   t4 ← emit Band l [t3; m]; emit Isub l [uval l a; t4]) = Ok (uval l (Z.rem a (2 ^ k))).
Proof.
  intros Ha Hk. destruct (bias_quot a k Ha Hk) as [Hin E]. pose proof w_ge.
  rewrite sdiv_bias_run by done. cbn [mbind ValueResult_bind].
  assert (2 ^ k <= 2 ^ (w - 1)) by (apply Z.pow_le_mono_r; lia).
  assert (0 < 2 ^ k) by (apply Z.pow_pos_nonneg; lia).
  rewrite iconst_s_run by (unfold in_signed; lia). cbn [mbind ValueResult_bind].
  rewrite emit_band. cbn [mbind ValueResult_bind]. rewrite emit_isub, land_neg_pow2, E by lia.
  do 2 f_equal. pose proof (Z.quot_rem' a (2 ^ k)). lia.
Qed.
End emitted.

Lemma pow2_true x : is_power_of_two x = true -> exists k, 0 <= k /\ x = 2 ^ k.
Proof.
  intros [Hx E%Z.eqb_eq]%andb_true_iff. exists (Z.log2 x). split; [apply Z.log2_nonneg|done].
Qed.

Lemma pow2_intro k : 0 <= k -> is_power_of_two (2 ^ k) = true.
Proof.
  intros. unfold is_power_of_two. rewrite Z.log2_pow2, Z.eqb_refl, andb_true_r by done.
  apply Z.ltb_lt, Z.pow_pos_nonneg; lia.
Qed.

Lemma pow2_exponent j k : 0 <= j -> 2 ^ j < 2 ^ k -> j < k.
Proof. intros ? ?. apply (Z.pow_lt_mono_r_iff 2); try lia. destruct (decide (k < 0)); [|lia].
  rewrite (Z.pow_neg_r 2 k) in * by done. pose proof (Z.pow_pos_nonneg 2 j). lia. Qed.

Lemma trailing_zeros_intro w x k : 0 <= k < w -> Z.testbit x k = true ->
  (forall i, 0 <= i < k -> Z.testbit x i = false) -> BitSet.trailing_zeros w x = k.
Proof.
  intros Hk Hbit Hlow. unfold BitSet.trailing_zeros.
  assert (k ∈ ones_of w x) as Hin by by apply elem_of_ones.
  pose proof (ones_sorted w x) as Hs. destruct (ones_of w x) as [|i rest] eqn:E; [by apply not_elem_of_nil in Hin|].
  assert (i ∈ ones_of w x) as [Hi Hti]%elem_of_ones by (rewrite E; left). simpl.
  apply elem_of_cons in Hin as [->|Hin]; [done|]. inversion Hs as [|? ? _ Hf]; subst.
  rewrite Forall_forall in Hf. specialize (Hf _ Hin). rewrite Hlow in Hti by lia. done.
Qed.

Lemma trailing_zeros_pow2 k c : 0 <= k < 64 -> c = 2 ^ k \/ c = - 2 ^ k ->
  i64_trailing_zeros c = k.
Proof.
  intros Hk Hc. apply trailing_zeros_intro; [done|..].
  - rewrite wrap_testbit by lia. destruct Hc as [->| ->]; [apply Z.pow2_bits_true; lia|].
    by rewrite neg_pow2_ones, Z.lnot_spec, Z.ones_spec_high by lia.
  - intros i Hi. rewrite wrap_testbit by lia. destruct Hc as [->| ->].
    + apply Z.pow2_bits_false. lia.
    + by rewrite neg_pow2_ones, Z.lnot_spec, Z.ones_spec_low by lia.
Qed.

Lemma u64_trailing_zeros_pow2 k : 0 <= k < 64 -> u64_trailing_zeros (2 ^ k) = k.
Proof.
  intros Hk. rewrite <- (trailing_zeros_pow2 k (2 ^ k)) at 2 by (done || by left).
  unfold u64_trailing_zeros, i64_trailing_zeros. rewrite wrap_small; [done|].
  pose proof (Z.pow_lt_mono_r 2 k 64). pose proof (Z.pow_pos_nonneg 2 k). lia.
Qed.

Section recognise.
Context (w c : Z) (Hw : 8 <= w <= 64) (Hc : in_signed w c).

Lemma signed_64 : - 2 ^ 63 <= c < 2 ^ 63.
Proof. unfold in_signed in Hc. pose proof (Z.pow_le_mono_r 2 (w - 1) 63). lia. Qed.

Lemma pow2_bits_range k : 2 ^ 63 <= 2 ^ k < 2 ^ 64 -> 0 <= k -> k = 63.
Proof.
  intros [H1 H2] Hk. apply pow2_exponent in H2; [|done].
  destruct (decide (k < 63)) as [H|]; [|lia].
  apply (Z.pow_lt_mono_r 2) in H; lia.
Qed.

Lemma negative_power :
  i64_is_negative_power_of_two c = true <-> exists k, 0 <= k <= w - 1 /\ c = - 2 ^ k.
Proof.
  pose proof signed_64. unfold i64_is_negative_power_of_two, u64_is_power_of_two.
  rewrite wrap_swrap by lia. split.
  - intros (k & Hk & E)%pow2_true. destruct (decide (c < 0)).
    + rewrite wrap_small in E by lia. exists k. split; [|lia]. split; [done|].
      unfold in_signed in Hc. apply Z.lt_succ_r. apply pow2_exponent; [done|].
      rewrite Z.pow_succ_r by lia. lia.
    + exfalso. assert (c = 0 \/ 0 < c) as [->|] by lia.
      * change (wrap 64 (- 0)) with 0 in E. pose proof (Z.pow_pos_nonneg 2 k). lia.
      * unfold wrap in E. rewrite <- (Z.mod_unique_pos (- c) _ (-1) (2 ^ 64 - c)) in E by lia.
        assert (k = 63) as -> by (apply pow2_bits_range; lia). lia.
  - intros (k & Hk & ->). rewrite Z.opp_involutive.
    pose proof (Z.pow_le_mono_r 2 k (w - 1)). pose proof (Z.pow_pos_nonneg 2 k).
    rewrite wrap_small by lia. apply pow2_intro. lia.
Qed.

Lemma any_sign_power :
  i64_is_any_sign_power_of_two c = true <->
  exists k, 0 <= k <= w - 1 /\ (c = 2 ^ k \/ c = - 2 ^ k).
Proof.
  pose proof signed_64. unfold i64_is_any_sign_power_of_two.
  destruct (u64_is_power_of_two (wrap 64 c)) eqn:E.
  - split; [intros _|done]. apply pow2_true in E as (k & Hk & E). destruct (decide (0 <= c)).
    + rewrite wrap_small in E by lia. exists k. split; [|by left]. unfold in_signed in Hc.
      assert (k < w - 1) by (apply pow2_exponent; lia). lia.
    + unfold wrap in E. rewrite <- (Z.mod_unique_pos c _ (-1) (2 ^ 64 + c)) in E by lia.
      assert (k = 63) as -> by (apply pow2_bits_range; lia). exists (w - 1). split; [lia|right].
      assert (c = - 2 ^ 63) as Ec by lia. unfold in_signed in Hc. destruct (decide (w = 64)) as [->|]; [done|].
      pose proof (Z.pow_lt_mono_r 2 (w - 1) 63). lia.
  - destruct (i64_is_negative_power_of_two c) eqn:En.
    + split; [intros _|done]. apply negative_power in En as (k & ? & ?). eauto.
    + split; [done|]. intros (k & Hk & [Ek|Ek]).
      * pose proof (Z.pow_pos_nonneg 2 k). rewrite wrap_small in E by lia.
        rewrite Ek in E. unfold u64_is_power_of_two in E. by rewrite pow2_intro in E by lia.
      * rewrite <- En. apply negative_power. eauto.
Qed.
End recognise.

(** ** The rules compute the divisions *)

Lemma elem_of_rule r b x : r ∈ rule b x <-> b = true /\ r = x.
Proof. destruct b; simpl; rewrite ?elem_of_nil, ?list_elem_of_singleton; naive_solver. Qed.

Lemma rule_nil b x : rule b x = [] <-> b = false.
Proof. by destruct b. Qed.

Section rules.
Context (l : LaneType) (Hl : lt_is_int l = true) (Hw64 : lt_bits l <= 64).
Context (a c : Z) (Ha : in_signed (lt_bits l) a) (Hc : in_signed (lt_bits l) c).
Abbreviation w := (lt_bits l).
Abbreviation n := (wrap w a).
Abbreviation d := (wrap w c).

Lemma unsigned_args : 8 <= w /\ VI l a = uval l n /\ 0 <= n < 2 ^ w /\ 0 <= d < 2 ^ w.
Proof.
  pose proof (w_ge l Hl). split_and!; try done; try apply wrap_range; try lia.
  by rewrite uval_wrap, <- uval_signed.
Qed.

(** A divisor that is neither zero nor a power of two is at least three. *)
Lemma not_pow2 x : 0 <= x -> x <> 0 -> is_power_of_two x = false -> 2 <= x.
Proof. intros ? ? Hp. destruct (decide (x = 1)) as [->|]; [done|lia]. Qed.

Lemma rules_udiv_run r : r ∈ rules_udiv l (VI l a) c -> r = Ok (uval l (n / d)) /\ c <> 0.
Proof.
  destruct unsigned_args as (Hw & Ea & Hn & Hd). rewrite Ea. unfold rules_udiv.
  rewrite !elem_of_app, !elem_of_rule, !andb_true_iff, !negb_true_iff, !Z.eqb_eq, Z.eqb_neq.
  assert (d <> 0 -> c <> 0) as Hnz by (by intros ? ->).
  intros [[E ->]|[[(k & Hk & E)%pow2_true ->]|[[[_ H0] Hp] ->]]].
  - rewrite E, Z.div_1_r. split; [done|]. apply Hnz. lia.
  - pose proof (Z.pow_pos_nonneg 2 k). split; [|apply Hnz; lia]. rewrite E, Z.log2_pow2 by done.
    assert (k < w) by (apply pow2_exponent; lia).
    pose proof (in_signed_count l w) as Hcnt. pose proof (pow_width w). unfold in_signed in Hcnt.
    rewrite iconst_u_run by lia. cbn [mbind ValueResult_bind]. by rewrite emit_ushr by (done || lia).
  - split; [|by apply Hnz]. pose proof (not_pow2 d ltac:(lia) H0 Hp).
    exact (proj1 (magic_u_rules l Hl Hw64 n d Hn ltac:(lia))).
Qed.

Lemma rules_urem_run r : r ∈ rules_urem l (VI l a) c -> r = Ok (uval l (n mod d)) /\ c <> 0.
Proof.
  destruct unsigned_args as (Hw & Ea & Hn & Hd). rewrite Ea. unfold rules_urem.
  rewrite !elem_of_app, !elem_of_rule, !andb_true_iff, !negb_true_iff, !Z.eqb_eq, Z.eqb_neq, Z.ltb_lt.
  assert (d <> 0 -> c <> 0) as Hnz by (by intros ? ->).
  intros [[E ->]|[[[(k & Hk & E)%pow2_true H1] ->]|[[[_ H0] Hp] ->]]].
  - rewrite E, Z.mod_1_r. split; [|apply Hnz; lia]. apply iconst_u_run; lia.
  - pose proof (Z.pow_pos_nonneg 2 k). split; [|apply Hnz; lia].
    assert (k < w) by (apply pow2_exponent; lia).
    pose proof (Z.pow_lt_mono_r 2 k w). pose proof (Z.pow_le_mono_r 2 w 64).
    rewrite E, Z.log2_pow2, Z.shiftl_mul_pow2, Z.mul_1_l by lia. rewrite (wrap_small 64) by lia.
    rewrite iconst_u_run by lia. cbn [mbind ValueResult_bind]. rewrite emit_band by done.
    by rewrite <- Z.land_ones, Z.ones_equiv by lia.
  - split; [|by apply Hnz]. pose proof (not_pow2 d ltac:(lia) H0 Hp).
    exact (proj2 (magic_u_rules l Hl Hw64 n d Hn ltac:(lia))).
Qed.

Lemma not_any_power : i64_is_any_sign_power_of_two c = false -> c <> 0 -> 2 <= Z.abs c.
Proof.
  intros Hp H0. pose proof (w_ge l Hl). destruct (decide (2 <= Z.abs c)); [done|exfalso].
  assert (i64_is_any_sign_power_of_two c = true); [|congruence].
  apply (any_sign_power w c ltac:(lia) Hc). exists 0. lia.
Qed.

Lemma rules_sdiv_run r : r ∈ rules_sdiv l (VI l a) c ->
  r = Ok (uval l (Z.quot a c)) /\ c <> 0 /\ c <> -1.
Proof.
  destruct unsigned_args as (Hw & _ & _ & Hd). rewrite uval_signed by done. unfold rules_sdiv.
  rewrite !elem_of_app, !elem_of_rule, !andb_true_iff, !negb_true_iff, !Z.eqb_eq, !Z.eqb_neq, !Z.ltb_lt.
  pose proof (pow_width w ltac:(lia)) as [EB ?]. unfold in_signed in Hc.
  intros [[-> ->]|[[[[(k & Hk & E)%pow2_true H1] Htz] ->]|[[[Hp H1] ->]|[[[_ H0] Hp] ->]]]].
  - rewrite Z.quot_1_r. split; [done|lia].
  - assert (c = 2 ^ k /\ 1 <= k < w - 1) as [Ec Hk1].
    { assert (k < w) by (apply pow2_exponent; lia).
      rewrite E, u64_trailing_zeros_pow2 in Htz by lia. rewrite E in H1.
      assert (1 <= k) by (destruct (decide (k = 0)) as [->|]; lia). split; [|lia].
      pose proof (Z.pow_lt_mono_r 2 k (w - 1)). rewrite wrap_signed in E by (done || lia).
      destruct (Z.ltb_spec c 0); lia. }
    rewrite E, u64_trailing_zeros_pow2 by lia. rewrite sdiv_pow_run by (done || lia).
    rewrite Ec. split; [done|]. pose proof (Z.pow_pos_nonneg 2 k). lia.
  - apply (negative_power w c ltac:(lia) Hc) in Hp as (k & Hk & Ec).
    assert (1 <= k) by (destruct (decide (k = 0)) as [->|]; lia).
    rewrite (trailing_zeros_pow2 k c) by (lia || by right).
    split; [|pose proof (Z.pow_pos_nonneg 2 k); lia].
    transitivity (t4 ← Ok (uval l (Z.quot a (2 ^ k))); emit Ineg l [t4]).
    + rewrite <- (sdiv_pow_run l Hl Hw64 a k) by (done || lia).
      destruct (sdiv_bias _ _ _); [|done..]. cbn [mbind ValueResult_bind].
      by destruct (iconst_s _ _).
    + cbn [mbind ValueResult_bind]. pose proof (Z.pow_pos_nonneg 2 k).
      rewrite emit_ineg by done. by rewrite Ec, Z.quot_opp_r by lia.
  - pose proof (not_any_power Hp H0). split; [|lia].
    exact (proj1 (magic_s_rules l Hl Hw64 a c Ha Hc ltac:(lia))).
Qed.

Lemma rules_srem_run r : r ∈ rules_srem l (VI l a) c -> r = Ok (uval l (Z.rem a c)) /\ c <> 0.
Proof.
  destruct unsigned_args as (Hw & _ & _ & Hd). rewrite uval_signed by done. unfold rules_srem.
  rewrite !elem_of_app, !elem_of_rule, !andb_true_iff, !negb_true_iff, !Z.eqb_eq, !Z.eqb_neq.
  pose proof (pow_width w ltac:(lia)) as [EB ?].
  intros [[E ->]|[[-> ->]|[[[[Hp H1] Hm1] ->]|[[[_ H0] Hp] ->]]]].
  - assert (c = 1) as ->.
    { pose proof (half_ge w ltac:(lia)). unfold in_signed in Hc.
      rewrite wrap_signed in E by (done || lia). destruct (Z.ltb_spec c 0); lia. }
    rewrite Z.rem_1_r. split; [|lia]. apply iconst_u_run; lia.
  - assert (Z.rem a (-1) = 0) as -> by (rewrite <- (Z.rem_1_r a); apply (Z.rem_opp_r a 1); lia).
    split; [|lia]. apply iconst_u_run; lia.
  - apply (any_sign_power w c ltac:(lia) Hc) in Hp as (k & Hk & Ec).
    assert (1 <= k) by (destruct (decide (k = 0)) as [->|]; lia).
    pose proof (Z.pow_pos_nonneg 2 k). split; [|lia].
    rewrite (trailing_zeros_pow2 k c) by (lia || done).
    assert (Z.rem a c = Z.rem a (2 ^ k)) as ->
      by (destruct Ec as [->| ->]; rewrite ?Z.rem_opp_r by lia; done).
    rewrite <- (srem_pow_run l Hl Hw64 a k) by (done || lia).
    replace (swrap 64 (- swrap 64 (Z.shiftl 1 k))) with (- 2 ^ k); [done|].
    rewrite Z.shiftl_mul_pow2, Z.mul_1_l by lia. pose proof (Z.pow_le_mono_r 2 k 63).
    rewrite <- (swrap_small 64 ltac:(lia) (- 2 ^ k)) at 1 by (unfold in_signed; lia).
    apply swrap_eq. rewrite <- (Z.sub_0_l (2 ^ k)), <- (Z.sub_0_l (swrap _ _)).
    rewrite wrap_sub, (wrap_sub _ 0 (swrap _ _)), wrap_swrap by lia. done.
  - pose proof (not_any_power Hp H0). split; [|lia].
    exact (proj2 (magic_s_rules l Hl Hw64 a c Ha Hc ltac:(lia))).
Qed.
End rules.

(** C13. Every rewrite of an unsigned division or remainder by a
    constant is an equivalence: for all scalar types up to 64 bits, all
    dividends and all constants, whichever rule fires (identity, shift or mask
    for powers of two, magic multiplication on I32 and I64), the instructions it
    emits compute what the division computes, which does not trap. *)
Theorem unsigned_rules_sound l a c r i a0 :
  lt_is_int l = true -> lt_bits l <= 64 -> in_signed (lt_bits l) a -> in_signed (lt_bits l) c ->
  let run op := step (mkInst op (Lane l) i a0) [VI l a; VI l c] in
  (r ∈ rules_udiv l (VI l a) c -> exists v, r = Ok v /\ run Udiv = Ok (Assign [v])) /\
  (r ∈ rules_urem l (VI l a) c -> exists v, r = Ok v /\ run Urem = Ok (Assign [v])).
Proof.
  intros Hl H64 Ha Hc. cbv zeta.
  destruct (division_run l a c i a0 Hl Ha Hc) as (-> & -> & _ & _). split.
  - intros [-> H0]%(rules_udiv_run l Hl H64 a c Ha Hc). rewrite (proj2 (Z.eqb_neq c 0)) by done. eauto.
  - intros [-> H0]%(rules_urem_run l Hl H64 a c Ha Hc). rewrite (proj2 (Z.eqb_neq c 0)) by done. eauto.
Qed.

Lemma unsigned_rules_sound_witness :
  exists v, Ok (VI I32 613566756) = Ok v /\
    step (mkInst Udiv (Lane I32) (VI I64 0) (Lane I32)) [VI I32 (-1); VI I32 7] = Ok (Assign [v]).
Proof.
  apply (unsigned_rules_sound I32 (-1) 7 (Ok (VI I32 613566756)) (VI I64 0) (Lane I32));
    [reflexivity|simpl; lia|unfold in_signed; simpl; lia..|].
  rewrite rules_udiv_7. left.
Defined.

(** C23. The same for signed division and remainder, except that a
    remainder by -1 becomes zero also where the interpreter traps (the most
    negative dividend); a division by -1 is never rewritten. *)
Theorem signed_rules_sound l a c r i a0 :
  lt_is_int l = true -> lt_bits l <= 64 -> in_signed (lt_bits l) a -> in_signed (lt_bits l) c ->
  let run op := step (mkInst op (Lane l) i a0) [VI l a; VI l c] in
  (r ∈ rules_sdiv l (VI l a) c -> exists v, r = Ok v /\ run Sdiv = Ok (Assign [v])) /\
  (r ∈ rules_srem l (VI l a) c -> exists v, r = Ok v /\
     if bool_decide (a = - 2 ^ (lt_bits l - 1) /\ c = -1) then v = VI l 0
     else run Srem = Ok (Assign [v])).
Proof.
  intros Hl H64 Ha Hc. cbv zeta. pose proof (w_ge l Hl H64).
  destruct (division_run l a c i a0 Hl Ha Hc) as (_ & _ & -> & ->). split.
  - intros (-> & H0 & H1)%(rules_sdiv_run l Hl H64 a c Ha Hc).
    rewrite bool_decide_false, (proj2 (Z.eqb_neq c 0)) by naive_solver.
    eexists. split; [done|]. rewrite <- (uval_signed l Hl H64); [done|].
    apply in_signed_quot; [lia|done..|naive_solver].
  - intros [-> H0]%(rules_srem_run l Hl H64 a c Ha Hc). eexists. split; [done|].
    rewrite <- (uval_signed l Hl H64) by (apply in_signed_rem; (done || lia)).
    case_bool_decide as E; [|by rewrite (proj2 (Z.eqb_neq c 0))].
    destruct E as [-> ->]. f_equal. by destruct l.
Qed.

Lemma signed_rules_sound_witness :
  exists v, Ok (VI I8 12) = Ok v /\
    step (mkInst Sdiv (Lane I8) (VI I64 0) (Lane I8)) [VI I8 (-100); VI I8 (-8)] = Ok (Assign [v]).
Proof.
  apply (signed_rules_sound I8 (-100) (-8) (Ok (VI I8 12)) (VI I64 0) (Lane I8));
    [reflexivity|simpl; lia|unfold in_signed; simpl; lia..|].
  rewrite rules_sdiv_m8. left.
Defined.

(** Where the rules apply: a division or remainder by the constant
    zero is never rewritten, nor a signed division by -1, so their traps stay;
    on I32 and I64 every other constant divisor is rewritten. *)
Theorem div_rules_complete l x c :
  lt_is_int l = true -> lt_bits l <= 64 -> in_signed (lt_bits l) c ->
  (c = 0 -> rules_udiv l x c = [] /\ rules_urem l x c = [] /\
            rules_sdiv l x c = [] /\ rules_srem l x c = []) /\
  (c = -1 -> rules_sdiv l x c = []) /\
  (c <> 0 -> is_32_or_64 l = true ->
     rules_udiv l x c <> [] /\ rules_urem l x c <> [] /\ rules_srem l x c <> [] /\
     (c <> -1 -> rules_sdiv l x c <> [])).
Proof.
  intros Hl H64 Hc. pose proof (w_ge l Hl H64). pose proof (pow_width (lt_bits l) ltac:(lia)) as [EB Hh].
  split_and!.
  - intros ->. by destruct l.
  - intros ->. destruct l; try done; simpl in H64; lia.
  - intros Hc0 H32. pose proof (wrap_zero l c Hc) as Hz. rewrite (proj2 (Z.eqb_neq c 0)) in Hz by done.
    unfold rules_udiv, rules_urem, rules_srem, rules_sdiv. rewrite !app_nil, !rule_nil.
    rewrite H32, Hz, (proj2 (Z.eqb_neq c 0)) by done. cbn [andb negb]. split_and!.
    + by destruct (u64_is_power_of_two _); intros (? & ? & ?).
    + intros (H1%Z.eqb_neq & H2 & Hp%negb_false_iff). rewrite Hp in H2. cbn [andb] in H2.
      apply Z.ltb_ge in H2. apply Z.eqb_neq in Hz.
      pose proof (wrap_range (lt_bits l) ltac:(lia) c). lia.
    + intros (H1 & Hm1 & Hp & Hq%negb_false_iff). rewrite Hq, Hm1, andb_true_r in Hp. cbn [andb] in Hp.
      apply negb_false_iff, Z.eqb_eq in Hp as ->. rewrite wrap_small in H1 by lia. done.
    + intros Hm1 (H1 & Hp & Hn & Hq%negb_false_iff).
      rewrite (proj2 (Z.eqb_neq c (-1))), andb_true_r in Hn by done.
      apply (any_sign_power (lt_bits l) c ltac:(lia) Hc) in Hq as (k & Hk & Ec).
      destruct Ec as [Ec|Ec]; [|by rewrite (proj2 (negative_power (lt_bits l) c ltac:(lia) Hc)) in Hn by eauto].
      unfold in_signed in Hc. apply Z.eqb_neq in H1. pose proof (Z.pow_pos_nonneg 2 k).
      assert (k < lt_bits l - 1) by (apply pow2_exponent; lia).
      rewrite wrap_small, Ec in Hp by lia. revert Hp. unfold u64_is_power_of_two.
      rewrite pow2_intro, u64_trailing_zeros_pow2, !(proj2 (Z.ltb_lt _ _)) by lia. done.
Qed.

Lemma div_rules_complete_witness :
  rules_sdiv I64 (VI I64 5) (-7) <> [].
Proof.
  apply (div_rules_complete I64 (VI I64 5) (-7)); try reflexivity; try discriminate;
    (simpl; lia) || (unfold in_signed; simpl; lia).
Defined.
