(* ===== verification/Emit.v ===== *)
(** * Emitting instructions, and running what was emitted

    The translator of crates/cranelift turns WebAssembly into CLIF through a
    [FunctionBuilder].  This file has the part of the builder that straight-line
    translation uses: values numbered in the order they are defined, each with its
    type and, for constants, its defining instruction; the instructions emitted
    so far; the cold blocks that only trap.  On it, the trap helpers of
    crates/cranelift/src/trap.rs and the division guards of func_environ.rs, and
    the trap codes of cranelift/codegen/src/ir/trapcode.rs with their meaning
    to the runtime (crates/cranelift/src/lib.rs).

    What was emitted runs on the interpreter of ClifStep.v: the compile-time
    functions below see value numbers only, never run-time integers.  [value b v l x]
    says that [v] was defined with type [l] and holds [x] whenever the code runs
    to its end; [traps b c t] that it does run to its end unless [c] holds, and
    raises [t] if [c] does.  Each emitted instruction has a lemma that says how it
    extends the two.

    Shown: with any configuration the translated divisions compute the quotient
    and remainder or raise the trap that WebAssembly asks for, and never rely on a
    trapping instruction where the configuration forbids it. *)

From S2P Require Import BitSet.
From S2P Require Import Prelude MemoryTypes TrapEncoding ClifTypes DivConst CondCodes ClifValue ClifOps ClifStep DivRules.

(** ** Trap codes *)

Module TrapCode.
Definition RESERVED : Z := 5.
Definition RESERVED_START : Z := u8_MAX - RESERVED + 1.

Definition reserved (byte : Z) : option Z :=
  code ← checked_add u8_MAX byte RESERVED_START; if code =? 0 then None else Some code.

Definition user (code : Z) : option Z :=
  if RESERVED_START <=? code then None else if code =? 0 then None else Some code.

(** The constants are what [reserved] and [unwrap_user] make at compile time. *)
Definition constant (c : option Z) : Z := default 0 c.
Definition STACK_OVERFLOW : Z := constant (reserved 0).
Definition INTEGER_OVERFLOW : Z := constant (reserved 1).
Definition HEAP_OUT_OF_BOUNDS : Z := constant (reserved 2).
Definition INTEGER_DIVISION_BY_ZERO : Z := constant (reserved 3).
Definition BAD_CONVERSION_TO_INTEGER : Z := constant (reserved 4).
End TrapCode.

Definition TRAP_INTERNAL_ASSERT : Z := TrapCode.constant (TrapCode.user 1).
Definition TRAP_GC_HEAP_CORRUPT : Z := TrapCode.constant (TrapCode.user 2).
Definition TRAP_OFFSET : Z := 3.

(** [None] is the failed [unwrap]; [Some None] is a code without a meaning to
    the runtime. *)
Definition clif_trap_to_env_trap (trap : Z) (tunables : Tunables) : option (option CompiledTrap) :=
  if trap =? TrapCode.STACK_OVERFLOW then Some (Some (Normal StackOverflow))
  else if trap =? TrapCode.HEAP_OUT_OF_BOUNDS then Some (Some (Normal MemoryOutOfBounds))
  else if trap =? TrapCode.INTEGER_OVERFLOW then Some (Some (Normal TrapEncoding.IntegerOverflow))
  else if trap =? TrapCode.INTEGER_DIVISION_BY_ZERO then Some (Some (Normal TrapEncoding.IntegerDivisionByZero))
  else if trap =? TrapCode.BAD_CONVERSION_TO_INTEGER then Some (Some (Normal BadConversionToInteger))
  else if trap =? TRAP_INTERNAL_ASSERT then
    Some (if metadata_for_internal_asserts tunables then Some InternalAssert else None)
  else if trap =? TRAP_GC_HEAP_CORRUPT then
    Some (if metadata_for_gc_heap_corruption tunables then Some GcHeapCorrupt else None)
  else
    code ← checked_sub trap TRAP_OFFSET; t ← Trap_from_u8 code; Some (Some (Normal t)).

(** ** The function under construction *)

Abbreviation Value := nat.

(** The pointers and the lengths that emitted code reads from the context. *)
Inductive GlobalValue := VmctxPtr | HeapBase | HeapBound | TableBase | TableBound.

(** Emitted code: an instruction with its results, arguments and trap code; the
    reading of a global value; traps; the calls of the two trap libcalls; a branch
    to a cold block, which is kept with the branch; the saving of the fuel
    counter, which has no effect on values. *)
#[local] Set Warnings "-register-all".
Inductive Clif :=
| Op (results : list Value) (inst : Inst) (args : list Value) (code : Z)
| ReadGlobal (result : Value) (l : LaneType) (g : GlobalValue)
| TrapIf (nonzero : bool) (v : Value) (code : Z)
| TrapNow (code : Z)
| CallTrap (vmctx code : Value)
| CallRaise (vmctx : Value)
| BranchCold (c : Value) (cold : list Clif)
| SaveFuel.

Record Builder := mkBuilder {
  dfg : list (LaneType * option Inst);
  code : list Clif
}.

(** What the translator asks of the target and the configuration. *)
Record FuncEnvironment := mkEnv {
  tunables : Tunables;
  is_pulley : bool;
  pointer_type : LaneType;
  page_size_align_log2 : Z;
  enable_heap_access_spectre_mitigation : bool;
  enable_table_access_spectre_mitigation : bool
}.

Abbreviation B := (M Builder Empty_set).

Definition value_type (v : Value) : B LaneType :=
  b <- get ;; d <- unwrap (dfg b !! v) ;; ret d.1.

Definition new_value (l : LaneType) (def : option Inst) : B Value :=
  fun b => Ret (length (dfg b)) (mkBuilder (dfg b ++ [(l, def)]) (code b)).

Definition append (i : Clif) : B unit := fun b => Ret tt (mkBuilder (dfg b) (code b ++ [i])).

(** The [InstBuilder] methods. *)
Module ins.
Definition op1 (op : Opcode) (t l : LaneType) (imm : DataValue) (args : list Value) (code : Z) : B Value :=
  let inst := mkInst op (Lane t) imm (Lane t) in
  v <- new_value l (Some inst) ;; append (Op [v] inst args code) ;;; ret v.

Definition iconst (l : LaneType) (imm : Z) : B Value := op1 Iconst l l (VI I64 (swrap 64 imm)) [] 0.
Definition binary (op : Opcode) (x y : Value) (code : Z) : B Value :=
  l <- value_type x ;; op1 op l l (VI I64 0) [x; y] code.
Definition iadd (x y : Value) : B Value := binary Iadd x y 0.
Definition isub (x y : Value) : B Value := binary Isub x y 0.
Definition band (x y : Value) : B Value := binary Band x y 0.
Definition ushr (x y : Value) : B Value := binary Ushr x y 0.
Definition udiv (x y : Value) : B Value := binary Udiv x y TrapCode.INTEGER_DIVISION_BY_ZERO.
Definition sdiv (x y : Value) : B Value := binary Sdiv x y TrapCode.INTEGER_DIVISION_BY_ZERO.
Definition urem (x y : Value) : B Value := binary Urem x y TrapCode.INTEGER_DIVISION_BY_ZERO.
Definition srem (x y : Value) : B Value := binary Srem x y TrapCode.INTEGER_DIVISION_BY_ZERO.
Definition icmp (cc : IntCC) (x y : Value) : B Value :=
  l <- value_type x ;; op1 (Icmp cc) l I8 (VI I64 0) [x; y] 0.
Definition select (c x y : Value) : B Value := l <- value_type x ;; op1 Select l l (VI I64 0) [c; x; y] 0.
Definition select_spectre_guard (c x y : Value) : B Value :=
  l <- value_type x ;; op1 SelectSpectreGuard l l (VI I64 0) [c; x; y] 0.
Definition uextend (l : LaneType) (x : Value) : B Value := op1 Uextend l l (VI I64 0) [x] 0.
Definition ireduce (l : LaneType) (x : Value) : B Value := op1 Ireduce l l (VI I64 0) [x] 0.
Definition uadd_overflow_trap (x y : Value) (code : Z) : B Value := binary UaddOverflowTrap x y code.
Definition uadd_overflow (x y : Value) : B (Value * Value) :=
  l <- value_type x ;;
  let inst := mkInst UaddOverflow (Lane l) (VI I64 0) (Lane l) in
  v <- new_value l (Some inst) ;; f <- new_value I8 (Some inst) ;;
  append (Op [v; f] inst [x; y] 0) ;;; ret (v, f).
Definition global_value (l : LaneType) (g : GlobalValue) : B Value :=
  v <- new_value l None ;; append (ReadGlobal v l g) ;;; ret v.
Definition trap (code : Z) : B unit := append (TrapNow code).
Definition trapz (v : Value) (code : Z) : B unit := append (TrapIf false v code).
Definition trapnz (v : Value) (code : Z) : B unit := append (TrapIf true v code).
End ins.

(** ** Traps *)

Section traps.
Context (env : FuncEnvironment).

Definition clif_instruction_traps_enabled : bool :=
  signals_based_traps (tunables env) || (is_pulley env && negb (debug_guest (tunables env))).

Definition trap (t : Z) : B unit :=
  r <- unwrap (clif_trap_to_env_trap t (tunables env)) ;;
  match clif_instruction_traps_enabled, r with
  | true, _ | _, None => ins.trap t
  | false, Some t =>
      vmctx <- ins.global_value (pointer_type env) VmctxPtr ;;
      byte <- unwrap (as_u8 t) ;;
      trap_code <- ins.iconst I8 byte ;;
      append (CallTrap vmctx trap_code) ;;;
      append (CallRaise vmctx) ;;;
      ins.trap TRAP_INTERNAL_ASSERT
  end.

(** What [m] emits in a block of its own. *)
Definition in_cold_block (m : B unit) : B (list Clif) :=
  fun b => match m (mkBuilder (dfg b) []) with
           | Ret _ b' => Ret (code b') (mkBuilder (dfg b') (code b))
           | Fail e _ => match e with end
           | Panic => Panic
           end.

Definition conditionally_trap (trap_cond : Value) (t : Z) : B unit :=
  rust_assert (negb clif_instruction_traps_enabled) ;;;
  cold <- in_cold_block (trap t) ;;
  append (BranchCold trap_cond cold).

Definition trapz (v : Value) (t : Z) : B unit :=
  if clif_instruction_traps_enabled then ins.trapz v t
  else
    ty <- value_type v ;; zero <- ins.iconst ty 0 ;; cmp <- ins.icmp Equal v zero ;;
    conditionally_trap cmp t.

Definition trapnz (v : Value) (t : Z) : B unit :=
  if clif_instruction_traps_enabled then ins.trapnz v t
  else
    ty <- value_type v ;; zero <- ins.iconst ty 0 ;; cmp <- ins.icmp NotEqual v zero ;;
    conditionally_trap cmp t.

Definition uadd_overflow_trap (lhs rhs : Value) (t : Z) : B Value :=
  if clif_instruction_traps_enabled then ins.uadd_overflow_trap lhs rhs t
  else
    p <- ins.uadd_overflow lhs rhs ;;
    conditionally_trap p.2 t ;;; ret p.1.

(** ** Divisions *)

Definition guard_zero_divisor (rhs : Value) : B unit :=
  if clif_instruction_traps_enabled then ret tt else trapz rhs TrapCode.INTEGER_DIVISION_BY_ZERO.

Definition guard_signed_divide (lhs rhs : Value) : B unit :=
  if clif_instruction_traps_enabled then ret tt
  else
    trapz rhs TrapCode.INTEGER_DIVISION_BY_ZERO ;;;
    ty <- value_type rhs ;;
    minus_one <- ins.iconst ty (-1) ;;
    rhs_is_minus_one <- ins.icmp Equal rhs minus_one ;;
    min <- unwrap (match ty with I32 => Some (- 2 ^ 31) | I64 => Some (- 2 ^ 63) | _ => None end) ;;
    int_min <- ins.iconst ty min ;;
    lhs_is_int_min <- ins.icmp Equal lhs int_min ;;
    is_integer_overflow <- ins.band rhs_is_minus_one lhs_is_int_min ;;
    conditionally_trap is_integer_overflow TrapCode.INTEGER_OVERFLOW.

Definition translate_sdiv (lhs rhs : Value) : B Value := guard_signed_divide lhs rhs ;;; ins.sdiv lhs rhs.
Definition translate_udiv (lhs rhs : Value) : B Value := guard_zero_divisor rhs ;;; ins.udiv lhs rhs.
Definition translate_srem (lhs rhs : Value) : B Value := guard_zero_divisor rhs ;;; ins.srem lhs rhs.
Definition translate_urem (lhs rhs : Value) : B Value := guard_zero_divisor rhs ;;; ins.urem lhs rhs.
End traps.

(** ** Running emitted code

    The machine the code runs on: the pointers and the lengths it finds in its
    context.  A native trap is recorded as such; the two libcalls raise the trap
    whose byte they were given. *)

Record Machine := mkMachine { vmctx : Z; heap_base : Z; heap_bound : Z; table_base : Z; table_bound : Z }.

Definition global (m : Machine) (g : GlobalValue) : Z :=
  match g with
  | VmctxPtr => vmctx m
  | HeapBase => heap_base m
  | HeapBound => heap_bound m
  | TableBase => table_base m
  | TableBound => table_bound m
  end.

Inductive Outcome :=
| Running (values : gmap nat DataValue) (pending : option Z)
| Raised (native : bool) (t : option CompiledTrap)
| Stuck.

(** The arguments of an instruction hold what they are said to hold. *)
Ltac operands := repeat first [apply Forall_nil_2 | apply Forall_cons_2 | done].

Section run.
Context (env : FuncEnvironment) (machine : Machine).

(** A trapping instruction: its place in the trap section (see TrapEncoding.v)
    says which trap it is. *)
Definition raise_native (c : Z) : Outcome :=
  match clif_trap_to_env_trap c (tunables env) with Some t => Raised true t | None => Stuck end.

Definition step_trap (c : ClifStep.TrapCode) (user : Z) : Z :=
  match c with
  | INTEGER_DIVISION_BY_ZERO => TrapCode.INTEGER_DIVISION_BY_ZERO
  | INTEGER_OVERFLOW => TrapCode.INTEGER_OVERFLOW
  | UserTrap => user
  end.

Definition exec_op (results : list Value) (inst : Inst) (args : list Value) (c : Z)
    (e : gmap nat DataValue) (p : option Z) : Outcome :=
  match mapM (fun v => e !! v) args with
  | Some vs =>
      match step inst vs with
      | Ok (Assign outs) =>
          if bool_decide (length outs = length results)
          then Running (list_to_map (zip results outs) ∪ e) p else Stuck
      | Ok (ClifStep.Trap t) => raise_native (step_trap t c)
      | _ => Stuck
      end
  | None => Stuck
  end.

Fixpoint exec1 (i : Clif) (e : gmap nat DataValue) (p : option Z) : Outcome :=
  match i with
  | Op results inst args c => exec_op results inst args c e p
  | ReadGlobal r l g => Running (<[r := uval l (global machine g)]> e) p
  | TrapIf nonzero v c =>
      match e !! v with
      | Some (VI _ x) => if eqb (x =? 0) nonzero then Running e p else raise_native c
      | _ => Stuck
      end
  | TrapNow c => raise_native c
  | CallTrap ctx c =>
      match e !! ctx, e !! c with
      | Some _, Some (VI I8 x) => Running e (Some (wrap 8 x))
      | _, _ => Stuck
      end
  | CallRaise ctx =>
      match e !! ctx, p with
      | Some _, Some byte => match from_u8 byte with Some t => Raised false (Some t) | None => Stuck end
      | _, _ => Stuck
      end
  | BranchCold c cold =>
      match e !! c with
      | Some (VI _ x) =>
          if x =? 0 then Running e p
          else (fix block (l : list Clif) e p :=
                  match l with
                  | [] => Stuck
                  | i :: l => match exec1 i e p with Running e p => block l e p | o => o end
                  end) cold e p
      | _ => Stuck
      end
  | SaveFuel => Running e p
  end.

Definition continue (o : Outcome) (i : Clif) : Outcome :=
  match o with Running e p => exec1 i e p | o => o end.

Definition exec (l : list Clif) (o : Outcome) : Outcome := foldl continue o l.

(** ** What emission adds

    [allowed] says whether trapping instructions may be relied on. *)

Context (e0 : gmap nat DataValue) (allowed : bool).

Definition run (b : Builder) : Outcome := exec (code b) (Running e0 None).

Definition value (b : Builder) (v : Value) (l : LaneType) (x : Z) : Prop :=
  (exists d, dfg b !! v = Some (l, d)) /\ forall e p, run b = Running e p -> e !! v = Some (uval l x).

(** The trap [t] is raised: by a native instruction only where the configuration
    allows it, or the trap has no meaning the libcall could be given. *)
Definition raises (t : option CompiledTrap) (o : Outcome) : Prop :=
  exists native, o = Raised native t /\
    (native = true -> allowed = true \/ t = None).

Definition traps (b : Builder) (c : bool) (t : option CompiledTrap) : Prop :=
  if c then raises t (run b) else exists e, run b = Running e None.

Definition extends (b b' : Builder) : Prop :=
  dfg b `prefix_of` dfg b' /\ forall v l x, value b v l x -> value b' v l x.

#[export] Instance extends_preorder : PreOrder extends.
Proof.
  split; [by split|]. intros b1 b2 b3 [P12 H12] [P23 H23]. split; [by etrans|]. intros v l x H. by apply H23, H12.
Qed.

(** What is emitted by [m] in the state [b] adds: results that [P] describes. *)
Definition emits {A} (m : B A) (b : Builder) (c : bool) (t : option CompiledTrap)
    (P : A -> Builder -> Prop) : Prop :=
  wp m (fun a b' => extends b b' /\ traps b' c t /\ P a b') (fun _ _ => False) b.

Lemma emits_bind {A A'} (m : B A) (k : A -> B A') b c c' t P Q :
  emits m b c t P ->
  (forall a b', extends b b' -> traps b' c t -> P a b' -> emits (k a) b' c' t Q) ->
  emits (bind m k) b c' t Q.
Proof.
  intros Hm Hk. apply wp_bind. eapply wp_mono; [exact Hm| |done].
  intros a b' (He & Ht & Hp). eapply wp_mono; [by apply Hk| |done].
  intros a' b'' (He' & ? & ?). split; [by etrans|done].
Qed.

(** The same where what follows decides whether there is a trap, and more. *)
Lemma emits_bind_ex {A A' X} (m : B A) (k : A -> B A') b c (d : X -> bool) t P (R : X -> Prop) Q :
  emits m b c t P ->
  (forall a b', extends b b' -> traps b' c t -> P a b' -> exists x, R x /\ emits (k a) b' (d x) t (Q x)) ->
  exists x, R x /\ emits (bind m k) b (d x) t (Q x).
Proof.
  unfold emits, wp, bind. intros Hm Hk. destruct (m b) as [a b'|[]|]; [|done].
  destruct Hm as (He & Ht & Hp). destruct (Hk a b' He Ht Hp) as (x & Hx & Hw). exists x. split; [done|].
  destruct (k a b') as [a' b''|[]|]; [|done]. destruct Hw as (? & ? & ?). split; [by etrans|done].
Qed.

Lemma emits_ret {A} (a : A) b c t P : traps b c t -> P a b -> emits (ret a) b c t P.
Proof. intros. by apply wp_ret. Qed.

Lemma emits_mono {A} (m : B A) b c t (P Q : A -> Builder -> Prop) :
  (forall a b', P a b' -> Q a b') -> emits m b c t P -> emits m b c t Q.
Proof. intros HPQ Hm. eapply wp_mono; [exact Hm| |done]. intros a b' (? & ? & ?). auto. Qed.

Lemma value_mod b v l x : value b v l x -> value b v l (x mod 2 ^ lt_bits l).
Proof.
  intros [Hd Hv]. split; [done|]. intros e p He. rewrite (Hv e p He). f_equal. unfold uval. f_equal.
  apply swrap_eq. unfold wrap. by rewrite Zmod_mod.
Qed.

(** Steps that only look: assertions and types. *)
Lemma emits_assert {A} (q : bool) (m : B A) b c t P : q = true -> emits m b c t P ->
  emits (rust_assert q ;;; m) b c t P.
Proof. intros -> Hm. exact Hm. Qed.

Lemma emits_unwrap {A A'} (o : option A) a (m : A -> B A') b c t P : o = Some a -> emits (m a) b c t P ->
  emits (x <- unwrap o ;; m x) b c t P.
Proof. intros -> Hm. exact Hm. Qed.

Lemma emits_value_type {A} v l x (m : LaneType -> B A) b c t P : value b v l x -> emits (m l) b c t P ->
  emits (y <- value_type v ;; m y) b c t P.
Proof.
  intros [[d Hd] _] Hm. unfold emits, wp, value_type, bind, get, unwrap, ret in *. by rewrite Hd.
Qed.

Lemma run_append b b' i : code b' = code b ++ [i] -> run b' = continue (run b) i.
Proof. intros E. unfold run, exec. by rewrite E, foldl_app. Qed.

(** Appending an instruction that defines at most fresh values. *)
Lemma extends_append b b' i : code b' = code b ++ [i] -> dfg b `prefix_of` dfg b' ->
  (forall e p e' p', exec1 i e p = Running e' p' ->
     forall v, (v < length (dfg b))%nat -> e' !! v = e !! v) ->
  extends b b'.
Proof.
  intros Hc Hp Hi. split; [done|]. destruct Hp as [k Hd]. intros v l x [[d Hv] Hx]. split.
  - exists d. rewrite Hd. by apply lookup_app_l_Some.
  - intros e' p' Hr. rewrite (run_append _ _ _ Hc) in Hr.
    destruct (run b) as [e p| |] eqn:E; try done. simpl in Hr.
    rewrite (Hi _ _ _ _ Hr v); [by eapply Hx|]. by apply lookup_lt_Some in Hv.
Qed.

Lemma traps_append b b' i (c k : bool) t : code b' = code b ++ [i] -> traps b c t ->
  (forall e, run b = Running e None ->
     if k then raises t (exec1 i e None) else exists e', exec1 i e None = Running e' None) ->
  traps b' (c || k) t.
Proof.
  intros Hc Ht Hi. unfold traps in *. rewrite (run_append _ _ _ Hc). destruct c; simpl.
  - destruct Ht as (n & -> & ?). exists n. auto.
  - destruct Ht as [e E]. rewrite E. simpl. specialize (Hi e E). by destruct k.
Qed.

Lemma exec_op_frame rs inst args k e p e' p' : exec_op rs inst args k e p = Running e' p' ->
  forall v, v ∉ rs -> e' !! v = e !! v.
Proof.
  unfold exec_op. intros H v Hv. destruct (mapM _ _); [|done].
  destruct (step _ _) as [[outs|tc]| |]; try done.
  - case_bool_decide as E; [|done]. injection H as <- <-. apply lookup_union_r.
    apply not_elem_of_list_to_map. rewrite fst_zip by lia. done.
  - unfold raise_native in H. by destruct (clif_trap_to_env_trap _ _).
Qed.

Lemma running_alive b c t e : traps b c t -> run b = Running e None -> c = false.
Proof. destruct c; [|done]. intros (n & -> & _). done. Qed.

(** An instruction with one result: it traps if [k] holds, and else has the value
    [x]. *)
Lemma emits_result (i : Value -> Clif) l d x b (c k : bool) t :
  let v := length (dfg b) in
  traps b c t ->
  (forall e p e' p', exec1 (i v) e p = Running e' p' -> forall w, w <> v -> e' !! w = e !! w) ->
  (forall e, run b = Running e None ->
     if k then raises t (exec1 (i v) e None)
     else exists e', exec1 (i v) e None = Running e' None /\ e' !! v = Some (uval l x)) ->
  emits (r <- new_value l d ;; append (i r) ;;; ret r) b (c || k) t (fun r b' => value b' r l x).
Proof.
  intros v Ht Hframe Hi. unfold emits. eapply wp_run; [done|].
  set (b' := mkBuilder _ _). assert (code b' = code b ++ [i v]) as Hc by done.
  split_and!.
  - eapply extends_append; [exact Hc|by exists [(l, d)]|].
    intros e p e' p' He w Hw. apply (Hframe _ _ _ _ He). unfold v. lia.
  - eapply traps_append; [done..|]. intros e He. specialize (Hi e He). destruct k; [done|]. naive_solver.
  - split.
    + exists d. cbn [b' dfg]. by rewrite lookup_app_r, Nat.sub_diag by done.
    + intros e' p' Hr. rewrite (run_append b b' (i v) Hc) in Hr.
      destruct c; simpl in Ht; [by destruct Ht as (n & E & _); rewrite E in Hr|].
      destruct Ht as [e E]. rewrite E in Hr. specialize (Hi e E). simpl in Hr.
      destruct k; [by destruct Hi as (n & E' & _); rewrite E' in Hr|].
      destruct Hi as (e2 & E2 & Hx). rewrite E2 in Hr. by injection Hr as <- <-.
Qed.

Lemma values_of b vs : Forall (fun a => value b a.1.1 a.1.2 a.2) vs ->
  forall e p, run b = Running e p -> mapM (fun v => e !! v) (vs.*1.*1) = Some ((fun a => uval a.1.2 a.2) <$> vs).
Proof.
  intros Hvs e p He. apply mapM_Some. induction Hvs as [|a vs [_ Ha] _ IH]; simpl; constructor; [by eapply Ha|done].
Qed.

(** An instruction of the interpreter on values [vs]. *)
Lemma emits_op1 op t0 l imm vs k b (c trap : bool) t x :
  Forall (fun a => value b a.1.1 a.1.2 a.2) vs -> traps b c t ->
  (c = false -> if trap then
     exists tc, step (mkInst op (Lane t0) imm (Lane t0)) ((fun a => uval a.1.2 a.2) <$> vs) = Ok (ClifStep.Trap tc) /\
       raises t (raise_native (step_trap tc k))
   else step (mkInst op (Lane t0) imm (Lane t0)) ((fun a => uval a.1.2 a.2) <$> vs) = Ok (Assign [uval l x])) ->
  emits (ins.op1 op t0 l imm (vs.*1.*1) k) b (c || trap) t (fun r b' => value b' r l x).
Proof.
  intros Hvs Ht Hs. unfold ins.op1.
  apply (emits_result (fun v => Op [v] (mkInst op (Lane t0) imm (Lane t0)) (vs.*1.*1) k)); [done| |].
  - intros e p e' p' He w Hw. eapply exec_op_frame; [exact He|]. by rewrite list_elem_of_singleton.
  - intros e He. specialize (Hs (running_alive _ _ _ _ Ht He)).
    cbn [exec1]. unfold exec_op. rewrite (values_of b vs Hvs e None He).
    destruct trap; [by destruct Hs as (tc & -> & ?)|]. rewrite Hs. simpl. eexists. split; [done|].
    apply lookup_union_Some_l. by simplify_map_eq.
Qed.

(** ** The instructions, one by one *)

Lemma emit_inv op l args v : emit op l args = Ok v ->
  step (mkInst op (Lane l) (VI I64 0) (Lane l)) args = Ok (Assign [v]).
Proof.
  unfold emit. destruct (step _ args) as [[[|u [|]]|]| |]; simpl; try done. by intros [= ->].
Qed.

(** The widths of the translator's integers. *)
Definition word (l : LaneType) : Prop := l = I8 \/ l = I32 \/ l = I64.

Lemma word_facts l : word l -> lt_is_int l = true /\ lt_bits l <= 64 /\ 8 <= lt_bits l.
Proof. by intros [->|[->| ->]]. Qed.

Lemma emits_iconst l n b c t : word l -> traps b c t ->
  emits (ins.iconst l n) b c t (fun r b' => value b' r l n).
Proof.
  intros Hl Ht. rewrite <- (orb_false_r c). unfold ins.iconst.
  apply (emits_op1 Iconst l l _ [] 0 b c false); [constructor|done|intros _].
  unfold step, step_select. cbn [opcode ctrl_ty imm arg0_ty DataValueExt.into_int_signed mbind ValueResult_bind].
  destruct (word_facts l Hl) as (Hi & Hb & Hb8). 
  assert (forall m, DataValueExt.int m (Lane l) = Ok (VI l (swrap (lt_bits l) m))) as -> by (by destruct Hl as [->|[->| ->]]).
  cbn [assign mbind ValueResult_bind]. do 2 f_equal. unfold uval. do 2 f_equal. apply swrap_eq.
  unfold wrap. rewrite <- (Z.mod_mod_divide (swrap 64 n) (2 ^ 64)), <- (Z.mod_mod_divide n (2 ^ 64)).
  - f_equal. apply (wrap_swrap 64). lia.
  - destruct Hl as [->|[->| ->]]; [exists (2 ^ 56)|exists (2 ^ 32)|exists 1]; done.
  - destruct Hl as [->|[->| ->]]; [exists (2 ^ 56)|exists (2 ^ 32)|exists 1]; done.
Qed.

Lemma emits_binary op l x y z u v k b c t :
  value b u l x -> value b v l y -> traps b c t ->
  emit op l [uval l x; uval l y] = Ok (uval l z) ->
  emits (ins.binary op u v k) b c t (fun r b' => value b' r l z).
Proof.
  intros Hu Hv Ht He%emit_inv. unfold ins.binary. eapply emits_value_type; [done|].
  rewrite <- (orb_false_r c).
  apply (emits_op1 op l l _ [(u, l, x); (v, l, y)] k b c false); [operands|done|done].
Qed.

Lemma emits_iadd l x y u v b c t : word l -> value b u l x -> value b v l y -> traps b c t ->
  emits (ins.iadd u v) b c t (fun r b' => value b' r l (x + y)).
Proof. intros (? & ? & ?)%word_facts Hu Hv Ht. eapply emits_binary; [done..|]. by apply emit_iadd. Qed.

Lemma emits_isub l x y u v b c t : word l -> value b u l x -> value b v l y -> traps b c t ->
  emits (ins.isub u v) b c t (fun r b' => value b' r l (x - y)).
Proof. intros (? & ? & ?)%word_facts Hu Hv Ht. eapply emits_binary; [done..|]. by apply emit_isub. Qed.

Lemma emits_band l x y u v b c t : word l -> value b u l x -> value b v l y -> traps b c t ->
  emits (ins.band u v) b c t (fun r b' => value b' r l (Z.land x y)).
Proof. intros (? & ? & ?)%word_facts Hu Hv Ht. eapply emits_binary; [done..|]. by apply emit_band. Qed.

(** A comparison, on the signed representations of its arguments. *)
Lemma emits_icmp cc l x y u v b c t : word l -> value b u l x -> value b v l y -> traps b c t ->
  emits (ins.icmp cc u v) b c t (fun r b' =>
    value b' r I8 (b2z (int_cmp (lt_bits l) cc (swrap (lt_bits l) x) (swrap (lt_bits l) y)))).
Proof.
  intros (Hi & _)%word_facts Hu Hv Ht. unfold ins.icmp. eapply emits_value_type; [done|].
  rewrite <- (orb_false_r c).
  apply (emits_op1 (Icmp cc) l I8 _ [(u, l, x); (v, l, y)] 0 b c false); [operands|done|intros _].
  unfold step, step_select. cbn [opcode ctrl_ty arg lookup list_lookup fmap list_fmap fst snd mbind ValueResult_bind].
  unfold uval at 1 2. rewrite icmp_scalar by done. cbn [assign mbind ValueResult_bind]. by destruct (int_cmp _ _ _ _).
Qed.

Lemma uval_testbit_zero l x : word l -> swrap (lt_bits l) x = 0 <-> wrap (lt_bits l) x = 0.
Proof.
  intros (_ & _ & Hb)%word_facts. split; intros E.
  - rewrite <- wrap_swrap, E by lia. by rewrite wrap_small by lia.
  - apply (wrap_inj (lt_bits l)); [lia|apply swrap_in; lia| |].
    + unfold in_signed. pose proof (pow_width (lt_bits l)). lia.
    + rewrite wrap_swrap, E by lia. by rewrite wrap_small by lia.
Qed.

Lemma emits_select_op op l cond x y w u v b c t :
  op = Select \/ op = SelectSpectreGuard ->
  value b w I8 (b2z cond) -> value b u l x -> value b v l y -> traps b c t ->
  emits (t <- value_type u ;; ins.op1 op t t (VI I64 0) [w; u; v] 0) b c t
    (fun r b' => value b' r l (if cond then x else y)).
Proof.
  intros Hop Hw Hu Hv Ht. eapply emits_value_type; [done|]. rewrite <- (orb_false_r c).
  apply (emits_op1 op l l _ [(w, I8, b2z cond); (u, l, x); (v, l, y)] 0 b c false); [operands|done|intros _].
  destruct Hop as [-> | ->]; by destruct cond.
Qed.

Lemma emits_global l g b c t : traps b c t ->
  emits (ins.global_value l g) b c t (fun r b' => value b' r l (global machine g)).
Proof.
  intros Ht. rewrite <- (orb_false_r c). apply (emits_result (fun v => ReadGlobal v l g)); [done| |].
  - intros e p e' p' [= <- <-] w Hw. by apply lookup_insert_ne.
  - intros e _. eexists. split; [done|]. by simplify_map_eq.
Qed.

Lemma emits_uextend l x u b c t : value b u I32 x -> l = I64 -> 0 <= x < 2 ^ 32 -> traps b c t ->
  emits (ins.uextend l u) b c t (fun r b' => value b' r l x).
Proof.
  intros Hu -> Hx Ht. rewrite <- (orb_false_r c).
  apply (emits_op1 Uextend I64 I64 _ [(u, I32, x)] 0 b c false); [operands|done|intros _].
  unfold step, step_convert. cbn [opcode ctrl_ty arg lookup list_lookup fmap list_fmap fst snd mbind ValueResult_bind].
  unfold uval at 1. rewrite convert_zext by done. rewrite wrap_swrap, wrap_small by (done || lia).
  cbn [assign mbind ValueResult_bind]. unfold uval. rewrite (swrap_small 64); [done|lia|].
  unfold in_signed. simpl. lia.
Qed.

Lemma emits_ireduce x u b c t : value b u I64 x -> traps b c t ->
  emits (ins.ireduce I32 u) b c t (fun r b' => value b' r I32 x).
Proof.
  intros Hu Ht. rewrite <- (orb_false_r c).
  apply (emits_op1 Ireduce I32 I32 _ [(u, I64, x)] 0 b c false); [operands|done|intros _].
  unfold step, step_convert. cbn [opcode ctrl_ty arg lookup list_lookup fmap list_fmap fst snd mbind ValueResult_bind].
  unfold uval at 1. rewrite convert_truncate by done. cbn [assign mbind ValueResult_bind].
  do 2 f_equal. unfold uval. do 2 f_equal. apply swrap_eq. cbn [lt_bits]. unfold wrap.
  rewrite <- (Z.mod_mod_divide (swrap 64 x) (2 ^ 64)), <- (Z.mod_mod_divide x (2 ^ 64)) by (by exists (2 ^ 32)).
  f_equal. apply (wrap_swrap 64). lia.
Qed.

(** The upper half of an index, on a host whose pointers are narrower. *)
Lemma emits_ushr32 x u v b c t : value b u I64 x -> value b v I32 32 -> 0 <= x < 2 ^ 64 -> traps b c t ->
  emits (ins.ushr u v) b c t (fun r b' => value b' r I64 (x / 2 ^ 32)).
Proof.
  intros Hu Hv Hx Ht. unfold ins.ushr, ins.binary. eapply emits_value_type; [done|].
  rewrite <- (orb_false_r c).
  apply (emits_op1 Ushr I64 I64 _ [(u, I64, x); (v, I32, 32)] 0 b c false); [operands|done|intros _].
  unfold step, step_bits, shift. cbn [opcode ctrl_ty arg lookup list_lookup fmap list_fmap fst snd mbind ValueResult_bind].
  unfold uval at 1 2. unfold DataValueExt.ushr. cbn [lt_bits].
  pose proof (shift_scalar (fun w a k => swrap w (Z.shiftr (wrap w a) k)) I64 (swrap 64 x) I32 (swrap 32 32)
                eq_refl eq_refl) as E.
  cbn [lt_bits] in E. rewrite wrap_swrap, wrap_small in E by lia.
  change (swrap 32 32 mod 64) with 32 in E. rewrite Z.shiftr_div_pow2 in E by lia.
  destruct (shift_amt (Lane I64) (VI I32 (swrap 32 32))) as [a| |]; try done.
  cbn [mbind ValueResult_bind] in E |- *. rewrite E. by cbn [assign mbind ValueResult_bind].
Qed.
End run.

(** ** Traps and cold blocks *)

Lemma bool_cases (q : bool) : q = true \/ q = false.
Proof. destruct q; auto. Qed.

Section trap_code.
Context (env : FuncEnvironment) (machine : Machine) (allowed : bool).
Context (Hallowed : clif_instruction_traps_enabled env = true -> allowed = true).
Abbreviation exec1 := (exec1 env machine).
Abbreviation exec := (exec env machine).

Lemma raise_native_stops c e p : raise_native env c <> Running e p.
Proof. unfold raise_native. by destruct (clif_trap_to_env_trap _ _). Qed.

Lemma exec_stopped l o : (forall e p, o <> Running e p) -> exec l o = o.
Proof. intros Ho. induction l as [|i l IH]; [done|]. simpl. by destruct o; [destruct (Ho values pending)|..]. Qed.

(** A cold block ends in a trap. *)
Lemma exec_cold c cold e p l x n t :
  e !! c = Some (VI l x) -> x <> 0 -> exec cold (Running e p) = Raised n t ->
  exec1 (BranchCold c cold) e p = Raised n t.
Proof.
  intros Hc Hx. cbn [Emit.exec1]. rewrite Hc, (proj2 (Z.eqb_neq _ _)) by done. clear Hc.
  revert e p. induction cold as [|i cold IH]; intros e p H; [done|].
  change (exec cold (exec1 i e p) = Raised n t) in H. destruct (exec1 i e p) as [e' p'| |] eqn:E.
  - by apply IH.
  - rewrite exec_stopped in H by done. done.
  - rewrite exec_stopped in H by done. done.
Qed.

Lemma exec_skip c cold e p l x : e !! c = Some (VI l x) -> x = 0 ->
  exec1 (BranchCold c cold) e p = Running e p.
Proof. intros Hc ->. cbn [Emit.exec1]. by rewrite Hc. Qed.

(** Instructions without results leave the values alone. *)
Definition defines (i : Clif) : list Value :=
  match i with Op rs _ _ _ => rs | ReadGlobal r _ _ => [r] | _ => [] end.

Lemma exec1_frame i e p e' p' : exec1 i e p = Running e' p' -> forall v, v ∉ defines i -> e' !! v = e !! v.
Proof.
  destruct i as [rs inst args k|r l g|nz w k|k|x k|x|w cold|]; intros H v Hv; simpl in H, Hv.
  - by eapply exec_op_frame.
  - injection H as <- <-. apply lookup_insert_ne. set_solver.
  - repeat case_match; try done; [by injection H as <- <-|by apply raise_native_stops in H].
  - by apply raise_native_stops in H.
  - repeat case_match; try done. by injection H as <- <-.
  - repeat case_match; done.
  - destruct (e !! w) as [[lw xw|]|]; try done. destruct (xw =? 0); [by injection H as <- <-|].
    exfalso. clear Hv. revert e p H. induction cold as [|i cold IH]; intros e p H; [done|].
    destruct (Emit.exec1 env machine i e p); [by eapply IH|done..].
  - by injection H as <- <-.
Qed.

Section emission.
Context (e0 : gmap nat DataValue).
Abbreviation run := (run env machine e0).
Abbreviation value := (value env machine e0).
Abbreviation traps := (traps env machine e0 allowed).
Abbreviation extends := (extends env machine e0).
Abbreviation emits := (emits env machine e0 allowed).

Lemma extends_code b b' i : code b' = code b ++ [i] -> dfg b `prefix_of` dfg b' ->
  (forall v, v ∈ defines i -> (length (dfg b) <= v)%nat) -> extends b b'.
Proof.
  intros Hc Hd Hi. eapply extends_append; [done..|].
  intros e p e' p' He v Hv. eapply exec1_frame; [exact He|]. intros ?%Hi. lia.
Qed.

Lemma emits_append i b (c k : bool) t : defines i = [] -> traps b c t ->
  (forall e, run b = Running e None ->
     if k then raises allowed t (exec1 i e None) else exec1 i e None = Running e None) ->
  emits (append i) b (c || k) t (fun _ _ => True).
Proof.
  intros Hd Ht Hi. eapply wp_run; [done|]. split_and!; [|eapply traps_append; [done..|]|done].
  - eapply extends_code; [done|done|]. rewrite Hd. by intros v ?%not_elem_of_nil.
  - intros e He. specialize (Hi e He). destruct k; [done|]. eauto.
Qed.

Lemma emits_trap tc b c r : clif_trap_to_env_trap tc (tunables env) = Some r -> traps b c r ->
  word (pointer_type env) -> emits (trap env tc) b true r (fun _ _ => True).
Proof.
  intros Hr Ht Hp. unfold trap. apply emits_unwrap with r; [done|].
  assert (clif_instruction_traps_enabled env = true \/ r = None -> emits (ins.trap tc) b true r (fun _ _ => True)) as Hn.
  { intros Hn. rewrite <- (orb_true_r c). apply (emits_append _ b c true); [done..|]. intros e _. cbn [Emit.exec1]. unfold raise_native.
    rewrite Hr. exists true. split; [done|]. intros _. destruct Hn; auto. }
  destruct (bool_cases (clif_instruction_traps_enabled env)) as [En|En]; rewrite En; [by apply Hn; left|].
  destruct r as [ct|]; [|by apply Hn; right]. clear Hn.
  eapply emits_bind; [by apply emits_global|]. intros x b1 H1 Ht1 Hx.
  apply emits_unwrap with (trap_byte ct); [apply as_u8_total|].
  eapply emits_bind; [apply emits_iconst; [by left|done]|]. intros y b2 H2 Ht2 Hy.
  eapply wp_run; [done|]. split_and!; [|destruct c; [|destruct Ht2 as [e He]]|done].
  - set (b' := mkBuilder (dfg b2) (code b2 ++ [CallTrap x y])).
    set (b'' := mkBuilder (dfg b2) (code b' ++ [CallRaise x])).
    trans b'; [|trans b'']; (eapply extends_code; [done|done|by intros v ?%not_elem_of_nil]).
  - destruct Ht2 as (n & E & Hn). exists n. split; [|done]. unfold Emit.run, Emit.exec. cbn [code].
    rewrite !foldl_app. change (foldl _ _ (code b2)) with (run b2). by rewrite E.
  - unfold traps, Emit.run, Emit.exec. cbn [code]. rewrite !foldl_app.
    change (foldl _ _ (code b2)) with (run b2). rewrite He. cbn [foldl continue Emit.exec1].
    rewrite (proj2 (proj2 H2 _ _ _ Hx) _ _ He), (proj2 Hy _ _ He). unfold uval. cbn [continue Emit.exec1].
    rewrite (proj2 (proj2 H2 _ _ _ Hx) _ _ He). cbn [lt_bits].
    assert (wrap 8 (swrap 8 (trap_byte ct)) = trap_byte ct) as ->.
    { rewrite wrap_swrap, wrap_small; [done| |lia]. destruct ct as [tr| |]; simpl; [|lia..].
      pose proof (Trap_as_u8_range tr). lia. }
    rewrite from_u8_byte. cbn [continue]. exists false. done.
Qed.
End emission.

Lemma emits_cold tc b r : clif_trap_to_env_trap tc (tunables env) = Some r -> word (pointer_type env) ->
  exists cold d, in_cold_block (trap env tc) b = Ret cold (mkBuilder d (code b)) /\ dfg b `prefix_of` d /\
    forall e, exists n, exec cold (Running e None) = Raised n r /\
      (n = true -> allowed = true \/ r = None).
Proof.
  intros Hr Hp. set (b0 := mkBuilder (dfg b) []).
  assert (forall e, emits env machine e allowed (trap env tc) b0 true r (fun _ _ => True)) as Hm.
  { intros e. by apply (emits_trap e tc b0 false); [|exists e|]. }
  unfold in_cold_block. fold b0. unfold emits, wp in Hm.
  destruct (trap env tc b0) as [[] b1|[]|]; [|by destruct (Hm ∅)].
  exists (code b1), (dfg b1). split; [done|]. split; [by destruct (Hm ∅) as [[? _] _]|].
  intros e. destruct (Hm e) as (_ & (n & Hn & ?) & _). by exists n.
Qed.

Section emission2.
Context (e0 : gmap nat DataValue) (tc : Z) (r : option CompiledTrap).
Context (Hr : clif_trap_to_env_trap tc (tunables env) = Some r) (Hp : word (pointer_type env)).
Abbreviation run := (run env machine e0).
Abbreviation value := (value env machine e0).
Abbreviation traps := (traps env machine e0 allowed).
Abbreviation emits := (emits env machine e0 allowed).

Lemma emits_conditionally_trap v l x b c t : clif_instruction_traps_enabled env = false ->
  word l -> value b v l x -> traps b c t ->
  c = true \/ negb (wrap (lt_bits l) x =? 0) = false \/ t = r ->
  emits (conditionally_trap env v tc) b (c || negb (wrap (lt_bits l) x =? 0)) t (fun _ _ => True).
Proof.
  intros Hn Hl Hv Ht Hs. unfold conditionally_trap. apply emits_assert; [by rewrite Hn|].
  destruct (emits_cold tc b r Hr Hp) as (cold & d & E & Hd & Hcold).
  unfold Emit.emits, wp, bind. rewrite E.
  set (b1 := mkBuilder d (code b)).
  assert (Emit.extends env machine e0 b b1) as Hb1.
  { split; [done|]. intros u l' y [[d' Hu] Hy]. split; [|done]. exists d'. by eapply prefix_lookup_Some. }
  eapply wp_mono; [apply (emits_append e0 (BranchCold v cold) b1 c (negb (wrap (lt_bits l) x =? 0)) t)| |done].
  - done.
  - exact Ht.
  - intros e He. pose proof (proj2 (proj2 Hb1 _ _ _ Hv) _ _ He) as Ev. unfold uval in Ev.
    destruct (Z.eqb_spec (wrap (lt_bits l) x) 0) as [E0|E0]; simpl negb; cbn iota.
    + eapply exec_skip; [exact Ev|]. by apply uval_testbit_zero.
    + apply (running_alive _ _ _ _ _ _ _ _ Ht) in He as ->. destruct Hs as [?|[?| ->]]; [done..|].
      destruct (Hcold e) as (n & Hc & Hnat). exists n. split; [|done].
      eapply exec_cold; [exact Ev| |exact Hc]. by rewrite uval_testbit_zero.
  - intros [] b2 (? & ? & _). split; [by trans b1|done].
Qed.

Lemma eqb_true_alt q : eqb q true = q.
Proof. by destruct q. Qed.
Lemma eqb_false_alt q : eqb q false = negb q.
Proof. by destruct q. Qed.

(** A trap on a value being zero, or not being zero. *)
Lemma emits_native_trap nz v l x b c t k : allowed = true ->
  word l -> value b v l x -> traps b c t -> k = eqb (negb (wrap (lt_bits l) x =? 0)) nz ->
  c = true \/ k = false \/ t = r -> emits (append (TrapIf nz v tc)) b (c || k) t (fun _ _ => True).
Proof.
  intros Hn Hl Hv Ht -> Hs. apply emits_append; [done..|]. intros e He.
  pose proof (proj2 Hv _ _ He) as Ev. unfold uval in Ev. cbn [Emit.exec1]. rewrite Ev.
  assert ((swrap (lt_bits l) x =? 0) = (wrap (lt_bits l) x =? 0)) as ->.
  { apply eq_true_iff_eq. rewrite !Z.eqb_eq. by apply uval_testbit_zero. }
  assert (raises allowed r (raise_native env tc)) as Hraise.
  { unfold raise_native. rewrite Hr. exists true. auto. }
  apply (running_alive _ _ _ _ _ _ _ _ Ht) in He as ->.
  destruct (_ =? _), nz; simpl in *; try done; naive_solver.
Qed.

Lemma emits_zero_trap cc nz v l x b c t k : clif_instruction_traps_enabled env = false ->
  word l -> cc = (if nz : bool then NotEqual else Equal) -> value b v l x -> traps b c t ->
  k = eqb (negb (wrap (lt_bits l) x =? 0)) nz -> c = true \/ k = false \/ t = r ->
  emits (ty <- value_type v ;; zero <- ins.iconst ty 0 ;; cmp <- ins.icmp cc v zero ;;
         conditionally_trap env cmp tc) b (c || k) t (fun _ _ => True).
Proof.
  intros Hn Hl Hcc Hv Ht Hk Hs. eapply emits_value_type; [done|].
  eapply emits_bind; [by apply emits_iconst|]. intros z b1 H1 Ht1 Hz.
  eapply emits_bind; [apply (emits_icmp _ _ _ _ cc l x 0 v z); [done|by apply H1|done|done]|].
  intros cmp b2 H2 Ht2 Hcmp.
  assert (k = negb (wrap (lt_bits I8) (b2z (int_cmp (lt_bits l) cc (swrap (lt_bits l) x) (swrap (lt_bits l) 0))) =? 0)) as ->.
  { destruct (word_facts l Hl) as (_ & _ & Hb8).
    assert (swrap (lt_bits l) 0 = 0) as -> by (apply swrap_small; [lia|apply in_signed_count; lia]).
    assert ((swrap (lt_bits l) x =? 0) = (wrap (lt_bits l) x =? 0)) as E.
    { apply eq_true_iff_eq. rewrite !Z.eqb_eq. by apply uval_testbit_zero. }
    rewrite Hk, Hcc. destruct nz; cbn [int_cmp]; rewrite E; by destruct (wrap (lt_bits l) x =? 0). }
  apply emits_conditionally_trap; [done|by left|done|done|done].
Qed.

Lemma emits_trapz v l x b c t k : word l -> value b v l x -> traps b c t ->
  k = (wrap (lt_bits l) x =? 0) -> c = true \/ k = false \/ t = r ->
  emits (trapz env v tc) b (c || k) t (fun _ _ => True).
Proof.
  intros Hl Hv Ht Hk Hs. rewrite <- (negb_involutive (_ =? _)), <- eqb_false_alt in Hk.
  unfold trapz. destruct (bool_cases (clif_instruction_traps_enabled env)) as [En|En]; rewrite En.
  - apply (emits_native_trap _ v l x); auto.
  - by apply (emits_zero_trap Equal false v l x).
Qed.

Lemma emits_trapnz v l x b c t k : word l -> value b v l x -> traps b c t ->
  k = negb (wrap (lt_bits l) x =? 0) -> c = true \/ k = false \/ t = r ->
  emits (trapnz env v tc) b (c || k) t (fun _ _ => True).
Proof.
  intros Hl Hv Ht Hk Hs. rewrite <- (eqb_true_alt (negb _)) in Hk.
  unfold trapnz. destruct (bool_cases (clif_instruction_traps_enabled env)) as [En|En]; rewrite En.
  - apply (emits_native_trap _ v l x); auto.
  - by apply (emits_zero_trap NotEqual true v l x).
Qed.

(** ** Additions that must not overflow *)

Lemma u_over_sum l x y : word l -> 0 <= x < 2 ^ lt_bits l -> 0 <= y < 2 ^ lt_bits l ->
  DataValueExt.u_over (lt_bits l) (wrap (lt_bits l) (swrap (lt_bits l) x) + wrap (lt_bits l) (swrap (lt_bits l) y)) =
    (2 ^ lt_bits l <=? x + y).
Proof.
  intros Hl Hx Hy. destruct (word_facts l Hl) as (_ & _ & ?). rewrite !wrap_swrap, !wrap_small by lia.
  unfold DataValueExt.u_over. destruct (Z.leb_spec (2 ^ lt_bits l) (x + y)).
  - apply negb_true_iff, Z.eqb_neq. unfold wrap. pose proof (Z.mod_pos_bound (x + y) (2 ^ lt_bits l)). lia.
  - apply negb_false_iff, Z.eqb_eq, wrap_small. lia.
Qed.

Lemma emits_uadd_overflow l x y u v b c t : word l -> value b u l x -> value b v l y -> traps b c t ->
  0 <= x < 2 ^ lt_bits l -> 0 <= y < 2 ^ lt_bits l ->
  emits (ins.uadd_overflow u v) b c t (fun p b' =>
    value b' p.1 l (x + y) /\ value b' p.2 I8 (b2z (2 ^ lt_bits l <=? x + y))).
Proof.
  intros Hl Hu Hv Ht Hx Hy. unfold ins.uadd_overflow. eapply emits_value_type; [done|].
  eapply wp_run; [done|]. cbn [dfg code fst snd].
  set (inst := mkInst UaddOverflow _ _ _). set (n := length (dfg b)).
  assert (length (dfg b ++ [(l, Some inst)]) = S n) as En by (rewrite length_app; simpl; lia).
  rewrite En. set (b' := mkBuilder _ _).
  assert (code b' = code b ++ [Op [n; S n] inst [u; v] 0]) as Hc by done.
  assert (forall e, run b = Running e None -> exec1 (Op [n; S n] inst [u; v] 0) e None =
    Running (<[n := uval l (x + y)]> (<[S n := uval I8 (b2z (2 ^ lt_bits l <=? x + y))]> ∅) ∪ e) None) as Hrun.
  { intros e He. cbn [Emit.exec1]. unfold exec_op. cbn [mapM option_bind mbind option_ret mret].
    rewrite (proj2 Hu _ _ He), (proj2 Hv _ _ He). cbn [mbind option_bind mret option_ret].
    unfold step, inst, step_overflow.
    cbn [opcode ctrl_ty arg lookup list_lookup mbind ValueResult_bind]. destruct (word_facts l Hl) as (Hi & _ & ?).
    unfold DataValueExt.uadd_overflow, DataValueExt.u_overflowing, DataValueExt.binary_match, uval at 1 2.
    rewrite decide_True, Hi by done. cbn [DataValueExt.pair_val mbind ValueResult_bind fst snd].
    rewrite u_over_sum by done. unfold with_flag. cbn [mbind ValueResult_bind fst snd DataValueExt.bool_ lt_is_int].
    assert (VI l (swrap (lt_bits l) (wrap (lt_bits l) (swrap (lt_bits l) x) + wrap (lt_bits l) (swrap (lt_bits l) y)))
            = uval l (x + y)) as -> by (rewrite !wrap_swrap, !wrap_small by lia; done).
    by destruct (2 ^ lt_bits l <=? x + y). }
  assert (dfg b' !! n = Some (l, Some inst) /\ dfg b' !! S n = Some (I8, Some inst)) as [Hn Hsn].
  { unfold b'. cbn [dfg]. rewrite <- app_assoc. unfold n. split; [by rewrite lookup_app_r, Nat.sub_diag by done|].
    by rewrite lookup_app_r, Nat.sub_succ_l, Nat.sub_diag by lia. }
  assert (forall e p, Emit.run env machine e0 b' = Running e p -> e !! n = Some (uval l (x + y)) /\
    e !! S n = Some (uval I8 (b2z (2 ^ lt_bits l <=? x + y)))) as Hval.
  { intros e' p' Hr'. rewrite (run_append _ _ _ b b' _ Hc) in Hr'.
    destruct c; [by destruct Ht as (m & E & _); rewrite E in Hr'|]. destruct Ht as [e E].
    rewrite E in Hr'. cbn [continue] in Hr'. rewrite Hrun in Hr' by done. injection Hr' as <- <-.
    split; apply lookup_union_Some_l; [by simplify_map_eq|]. rewrite lookup_insert_ne by lia. by simplify_map_eq. }
  split_and!.
  - eapply extends_code; [exact Hc| |cbn [defines]; set_solver by lia].
    cbn [b' dfg]. rewrite <- app_assoc. by eexists.
  - rewrite <- (orb_false_r c). eapply traps_append; [done..|]. intros e He. eexists. by apply Hrun.
  - split; [eauto|]. intros e p He. by destruct (Hval e p He).
  - split; [eauto|]. intros e p He. by destruct (Hval e p He).
Qed.

Lemma emits_native_uadd_overflow_trap l x y u v b c : allowed = true -> word l ->
  value b u l x -> value b v l y -> traps b c r -> 0 <= x < 2 ^ lt_bits l -> 0 <= y < 2 ^ lt_bits l ->
  emits (ins.uadd_overflow_trap u v tc) b (c || (2 ^ lt_bits l <=? x + y)) r
    (fun w b' => value b' w l (x + y)).
Proof.
  intros Hal Hl Hu Hv Ht Hx Hy. destruct (word_facts l Hl) as (Hi & _ & ?).
  unfold ins.uadd_overflow_trap, ins.binary. eapply emits_value_type; [done|].
  apply (emits_op1 _ _ _ _ UaddOverflowTrap l l _ [(u, l, x); (v, l, y)] tc b c); [operands|done|intros _].
  assert (step (mkInst UaddOverflowTrap (Lane l) (VI I64 0) (Lane l)) [uval l x; uval l y] =
    Ok (if 2 ^ lt_bits l <=? x + y then ClifStep.Trap UserTrap else Assign [uval l (x + y)])) as E.
  { unfold step, step_overflow, DataValueExt.uadd_checked, DataValueExt.binary_match.
    cbn [opcode ctrl_ty arg lookup list_lookup mbind ValueResult_bind]. unfold uval at 1 2.
    rewrite decide_True, Hi by done. cbn [DataValueExt.checked mbind ValueResult_bind fst snd].
    rewrite u_over_sum by done. destruct (2 ^ lt_bits l <=? x + y); [done|].
    cbn. do 3 f_equal. unfold uval. do 2 f_equal. rewrite !wrap_swrap, !wrap_small by lia. done. }
  cbn [fmap list_fmap fst snd]. rewrite E. destruct (2 ^ lt_bits l <=? x + y); [|done].
  exists UserTrap. split; [done|]. unfold raise_native. cbn [step_trap]. rewrite Hr. exists true. auto.
Qed.

Lemma emits_uadd_overflow_trap l x y u v b c : word l -> value b u l x -> value b v l y -> traps b c r ->
  0 <= x < 2 ^ lt_bits l -> 0 <= y < 2 ^ lt_bits l ->
  emits (uadd_overflow_trap env u v tc) b (c || (2 ^ lt_bits l <=? x + y)) r
    (fun w b' => value b' w l (x + y)).
Proof.
  intros Hl Hu Hv Ht Hx Hy. unfold uadd_overflow_trap.
  destruct (bool_cases (clif_instruction_traps_enabled env)) as [En|En]; rewrite En.
  - by apply emits_native_uadd_overflow_trap; [apply Hallowed|..].
  - eapply emits_bind; [by apply emits_uadd_overflow|]. intros [w f] b1 H1 Ht1 [Hw Hf]. cbn [fst snd] in *.
    eapply emits_bind; [eapply (emits_conditionally_trap f I8 _ b1 c r); [done|by left|done|done|auto]|].
    intros [] b2 H2 Ht2 _.
    replace (negb _) with (2 ^ lt_bits l <=? x + y) in Ht2 by (by destruct (2 ^ lt_bits l <=? x + y)).
    apply emits_ret; [done|]. by apply H2.
Qed.
End emission2.
End trap_code.

(** ** Divisions

    What WebAssembly asks of the divisions, on unsigned representations. *)

Definition wasm_div (op : Opcode) (l : LaneType) (x y : Z) : CompiledTrap + Z :=
  let w := lt_bits l in
  let sx := swrap w x in
  let sy := swrap w y in
  if y =? 0 then inl (Normal TrapEncoding.IntegerDivisionByZero)
  else match op with
       | Udiv => inr (x / y)
       | Urem => inr (x mod y)
       | Sdiv => if (sx =? - 2 ^ (w - 1)) && (sy =? -1) then inl (Normal TrapEncoding.IntegerOverflow)
                 else inr (Z.quot sx sy)
       | _ => inr (Z.rem sx sy)
       end.

Definition translate_div (env : FuncEnvironment) (op : Opcode) (lhs rhs : Value) : B Value :=
  match op with
  | Udiv => translate_udiv env lhs rhs
  | Urem => translate_urem env lhs rhs
  | Sdiv => translate_sdiv env lhs rhs
  | _ => translate_srem env lhs rhs
  end.

Definition is_div (op : Opcode) : Prop := op ∈ [Udiv; Urem; Sdiv; Srem].

Lemma is_div_cases op : is_div op -> op = Udiv \/ op = Urem \/ op = Sdiv \/ op = Srem.
Proof. unfold is_div. set_solver. Qed.

Definition is_trap (r : CompiledTrap + Z) : bool := match r with inl _ => true | _ => false end.

(** The remainder of the most negative value by -1 is where the interpreter and
    the documentation of [srem] part (see [ClifStep.interp_srem_min_traps]). *)
Definition srem_defined (op : Opcode) (l : LaneType) (x y : Z) : Prop :=
  op = Srem -> ~ (swrap (lt_bits l) x = - 2 ^ (lt_bits l - 1) /\ swrap (lt_bits l) y = -1).

Definition trap_of (t : CompiledTrap) : ClifStep.TrapCode :=
  if decide (t = Normal TrapEncoding.IntegerOverflow) then INTEGER_OVERFLOW else INTEGER_DIVISION_BY_ZERO.

Lemma step_division op l x y : is_div op -> word l -> 0 <= x < 2 ^ lt_bits l -> 0 <= y < 2 ^ lt_bits l ->
  srem_defined op l x y ->
  step (mkInst op (Lane l) (VI I64 0) (Lane l)) [uval l x; uval l y] =
    Ok (match wasm_div op l x y with inl t => ClifStep.Trap (trap_of t) | inr z => Assign [uval l z] end).
Proof.
  intros Hop Hl Hx Hy Hs. destruct (word_facts l Hl) as (Hi & _ & Hb).
  destruct (division_run l (swrap (lt_bits l) x) (swrap (lt_bits l) y) (VI I64 0) (Lane l) Hi)
    as (Eu & Eur & Es & Esr); [apply swrap_in; lia..|].
  assert ((swrap (lt_bits l) y =? 0) = (y =? 0)) as Ez.
  { apply eq_true_iff_eq. rewrite !Z.eqb_eq, uval_testbit_zero by done. by rewrite wrap_small by lia. }
  rewrite !wrap_swrap, !wrap_small in Eu, Eur by lia. rewrite Ez in *.
  assert (bool_decide (swrap (lt_bits l) x = - 2 ^ (lt_bits l - 1) /\ swrap (lt_bits l) y = -1) =
    (swrap (lt_bits l) x =? - 2 ^ (lt_bits l - 1)) && (swrap (lt_bits l) y =? -1)) as Em.
  { apply eq_true_iff_eq. by rewrite bool_decide_eq_true, andb_true_iff, !Z.eqb_eq. }
  assert (y = 0 -> (swrap (lt_bits l) y =? -1) = false) as Ey0.
  { intros ->. apply Z.eqb_neq. intros E. by rewrite E in Ez. }
  rewrite Em in *. unfold wasm_div. unfold is_div in Hop.
  assert (forall z, in_signed (lt_bits l) z -> VI l z = uval l z) as Hu.
  { intros z Hz. unfold uval. by rewrite swrap_small by (done || lia). }
  assert (forall z, in_signed (lt_bits l) (swrap (lt_bits l) z)) as Hsw by (intros; apply swrap_in; lia).
  apply elem_of_cons in Hop as [->|Hop]; [unfold uval at 1 2; rewrite Eu; by destruct (y =? 0)|].
  apply elem_of_cons in Hop as [->|Hop]; [unfold uval at 1 2; rewrite Eur; by destruct (y =? 0)|].
  apply elem_of_cons in Hop as [->|Hop%list_elem_of_singleton].
  - unfold uval at 1 2. rewrite Es. destruct (Z.eqb_spec y 0) as [E0|E0].
    + by rewrite Ey0, andb_false_r.
    + destruct (_ && _) eqn:Ec; [done|]. rewrite Hu; [done|].
      apply in_signed_quot; [lia|done| |].
      * intros E. apply uval_testbit_zero in E; [|done]. rewrite wrap_small in E; lia.
      * apply andb_false_iff in Ec. rewrite !Z.eqb_neq in Ec. lia.
  - subst op. unfold uval at 1 2. rewrite Esr. specialize (Hs eq_refl).
    destruct (_ && _) eqn:Ec; [by apply andb_true_iff in Ec; rewrite !Z.eqb_eq in Ec|].
    destruct (Z.eqb_spec y 0) as [E0|E0]; [done|]. rewrite Hu; [done|].
    apply in_signed_rem; [lia|done..|].
    intros E. apply uval_testbit_zero in E; [|done]. rewrite wrap_small in E; lia.
Qed.

Section divisions.
Context (env : FuncEnvironment) (machine : Machine) (e0 : gmap nat DataValue) (allowed : bool).
Context (Hallowed : clif_instruction_traps_enabled env = true -> allowed = true).
Context (Hp : word (pointer_type env)).
Abbreviation value := (value env machine e0).
Abbreviation traps := (traps env machine e0 allowed).
Abbreviation emits := (emits env machine e0 allowed).

Context (op : Opcode) (l : LaneType) (x y : Z) (u v : Value).
Context (Hop : is_div op) (Hl : l = I32 \/ l = I64).
Context (Hx : 0 <= x < 2 ^ lt_bits l) (Hy : 0 <= y < 2 ^ lt_bits l) (Hs : srem_defined op l x y).
Abbreviation result := (wasm_div op l x y).

Lemma div_word : word l.
Proof. unfold word. tauto. Qed.

(** The instruction itself, once its traps are guarded or allowed. *)
Lemma emits_div_inst b c t : value b u l x -> value b v l y -> traps b c t ->
  (c = false -> forall tr, result = inl tr -> clif_instruction_traps_enabled env = true /\ t = Some tr) ->
  emits (ins.binary op u v TrapCode.INTEGER_DIVISION_BY_ZERO) b (c || is_trap result) t
    (fun r b' => forall z, result = inr z -> value b' r l z).
Proof.
  intros Hu Hv Ht Hc. unfold ins.binary. eapply emits_value_type; [done|].
  eapply emits_mono; [|apply (emits_op1 _ _ _ _ op l l _ [(u, l, x); (v, l, y)] _ b c (is_trap result) t
    (match result with inr z => z | inl _ => 0 end)); [operands|done|intros Ec]].
  - intros r b' Hr z Hz. by rewrite Hz in Hr.
  - cbn [fmap list_fmap fst snd]. rewrite (step_division op l x y) by (done || apply div_word).
    destruct result as [tr|z] eqn:Er; [|done]. destruct (Hc Ec tr eq_refl) as [Hn ->].
    exists (trap_of tr). split; [done|]. exists true. split; [|by left; apply Hallowed].
    assert (tr = Normal TrapEncoding.IntegerOverflow \/ tr = Normal TrapEncoding.IntegerDivisionByZero) as [-> | ->].
    { unfold wasm_div in Er. destruct (y =? 0); [right; by injection Er|].
      destruct op; try done. destruct (_ && _); [left; by injection Er|done]. }
    + done.
    + done.
Qed.

Lemma emits_zero_guard b t : value b v l y -> traps b false t ->
  (y = 0 -> t = Some (Normal TrapEncoding.IntegerDivisionByZero)) ->
  emits (trapz env v TrapCode.INTEGER_DIVISION_BY_ZERO) b (y =? 0) t (fun _ _ => True).
Proof.
  intros Hv Ht Hz. rewrite <- (orb_false_l (y =? 0)).
  apply (emits_trapz env machine allowed Hallowed e0 TrapCode.INTEGER_DIVISION_BY_ZERO (Some (Normal TrapEncoding.IntegerDivisionByZero))
           eq_refl Hp v l y); [apply div_word|done|done| |].
  - by rewrite wrap_small.
  - destruct (Z.eqb_spec y 0); auto.
Qed.

Lemma emits_signed_guard b t : op = Sdiv -> clif_instruction_traps_enabled env = false ->
  value b u l x -> value b v l y -> traps b false t -> (forall tr, result = inl tr -> t = Some tr) ->
  emits (guard_signed_divide env u v) b (is_trap result) t (fun _ _ => True).
Proof.
  intros -> Hn Hu Hv Ht Hr. unfold guard_signed_divide. rewrite Hn. pose proof div_word as Hw.
  eapply emits_bind; [apply emits_zero_guard; [done..|]|].
  { intros ->. by apply Hr. }
  intros _ b1 H1 Ht1 _. eapply emits_value_type; [by apply H1|].
  eapply emits_bind; [by apply emits_iconst|]. intros m b2 H2 Ht2 Hm.
  eapply emits_bind; [apply (emits_icmp _ _ _ _ Equal l y (-1) v m); [done|by apply H2, H1|done|done]|].
  intros is_m b3 H3 Ht3 Him.
  eapply emits_unwrap with (a := - 2 ^ (lt_bits l - 1)); [by destruct Hl as [-> | ->]|].
  eapply emits_bind; [by apply emits_iconst|]. intros n b4 H4 Ht4 Hmin.
  eapply emits_bind; [apply (emits_icmp _ _ _ _ Equal l x (- 2 ^ (lt_bits l - 1)) u n);
    [done|by apply H4, H3, H2, H1|done|done]|].
  intros is_n b5 H5 Ht5 Hin.
  eapply emits_bind; [eapply (emits_band _ _ _ _ I8 _ _ is_m is_n); [by left|eapply (proj2 H5), (proj2 H4); exact Him|exact Hin|done]|].
  intros both b6 H6 Ht6 Hboth.
  destruct (word_facts l Hw) as (_ & _ & Hb8).
  assert (swrap (lt_bits l) (-1) = -1 /\ swrap (lt_bits l) (- 2 ^ (lt_bits l - 1)) = - 2 ^ (lt_bits l - 1)) as [E1 E2].
  { pose proof (pow_width (lt_bits l)). split; apply swrap_small; unfold in_signed; lia. }
  rewrite E1 in Hboth. rewrite E2 in Hboth. cbn [int_cmp] in Hboth.
  assert (is_trap (wasm_div Sdiv l x y) = (y =? 0) || negb (wrap (lt_bits I8) (Z.land
    (b2z (swrap (lt_bits l) y =? -1)) (b2z (swrap (lt_bits l) x =? - 2 ^ (lt_bits l - 1)))) =? 0)) as ->.
  { unfold wasm_div. destruct (y =? 0); [done|].
    by destruct (swrap (lt_bits l) x =? _), (swrap (lt_bits l) y =? -1). }
  apply (emits_conditionally_trap env machine allowed Hallowed e0 TrapCode.INTEGER_OVERFLOW (Some (Normal TrapEncoding.IntegerOverflow)) eq_refl Hp
           both I8); [done|by left|done|done|].
  unfold wasm_div in Hr. destruct (y =? 0); [by left|]. right.
  destruct (swrap (lt_bits l) x =? _), (swrap (lt_bits l) y =? -1); auto.
Qed.

Definition guard (o : Opcode) : B unit :=
  match o with Sdiv => guard_signed_divide env u v | _ => guard_zero_divisor env v end.

Lemma translate_div_guarded : translate_div env op u v =
  (guard op ;;; ins.binary op u v TrapCode.INTEGER_DIVISION_BY_ZERO).
Proof. by destruct (is_div_cases op Hop) as [->|[->|[->| ->]]]. Qed.

Lemma emits_translate_div b t : value b u l x -> value b v l y -> traps b false t ->
  (forall tr, result = inl tr -> t = Some tr) ->
  emits (translate_div env op u v) b (is_trap result) t (fun r b' => forall z, result = inr z -> value b' r l z).
Proof.
  intros Hu Hv Ht Hr.
  assert (forall b1 c1, Emit.extends env machine e0 b b1 -> traps b1 c1 t -> c1 = is_trap result ->
    emits (ins.binary op u v TrapCode.INTEGER_DIVISION_BY_ZERO) b1 (is_trap result) t
      (fun r b' => forall z, result = inr z -> value b' r l z)) as Hinst.
  { intros b1 c1 H1 Ht1 ->. rewrite <- (orb_diag (is_trap result)).
    apply emits_div_inst; [by apply H1|by apply H1|done|]. by intros E tr Er; rewrite Er in E. }
  assert (op <> Sdiv -> (y =? 0) = is_trap result) as Hc.
  { intros Hne. unfold wasm_div. destruct (y =? 0); [done|]. by destruct op. }
  rewrite translate_div_guarded. destruct (bool_cases (clif_instruction_traps_enabled env)) as [En|En].
  - assert (guard op = ret tt) as ->.
    { unfold guard, guard_signed_divide, guard_zero_divisor. rewrite En. by destruct op. }
    apply (emits_div_inst b false); [done..|]. intros _ tr Er. auto.
  - eapply emits_bind; [|intros [] b1 H1 Ht1 _; by apply (Hinst b1 (is_trap result))].
    assert (op = Sdiv \/ op <> Sdiv) as [E|Hne] by (destruct op; first [by left|by right]).
    + assert (guard op = guard_signed_divide env u v) as -> by (by rewrite E). by apply emits_signed_guard.
    + assert (guard op = guard_zero_divisor env v) as -> by (by destruct op).
      rewrite <- Hc by done. unfold guard_zero_divisor. rewrite En. apply emits_zero_guard; [done..|].
      intros ->. by apply Hr.
Qed.
End divisions.

(** What the code emitted so far does when it runs on the values [e0]. *)
Definition outcome_of env machine e0 (b : Builder) : Outcome := run env machine e0 b.


(** Without native traps, -2^31 / -1 on Pulley's 64-bit pointers. *)
Definition no_signals : Tunables :=
  mkTunables 65536 4096 0 true 65536 4096 0 true true false true true false false false true.
Definition pulley_debug : FuncEnvironment := mkEnv no_signals true I64 12 true true.
Definition two_params : Builder := mkBuilder [(I32, None); (I32, None)] [].
Definition param_values (x y : Z) : gmap nat DataValue := {[0%nat := uval I32 x; 1%nat := uval I32 y]}.

Example division_runs :
  match translate_div pulley_debug Sdiv 0%nat 1%nat two_params with
  | Ret _ b => outcome_of pulley_debug (mkMachine 0 0 0 0 0) (param_values (2 ^ 31) (2 ^ 32 - 1)) b =
                 Raised false (Some (Normal TrapEncoding.IntegerOverflow)) /\ zlen (code b) = 10
  | _ => False
  end.
Proof. vm_compute. split; reflexivity. Qed.

Lemma param_value env m x y (i : nat) : (i < 2)%nat ->
  value env m (param_values x y) two_params i I32 (if decide (i = 0%nat) then x else y).
Proof.
  intros Hi. destruct i as [|[|]]; [..|lia]; (split; [by eexists|]); by intros e p [= <- <-].
Defined.

