(* ===== verification/BoundsCheck.v ===== *)
(** * Bounds checks of memory accesses

    crates/cranelift/src/bounds_checks.rs: what is emitted for an access to a
    linear memory or to the GC heap, by the configuration, the type of the memory
    and the access (nine ways, from no check at all to a checked addition), with
    the address preparation of loads, stores and atomics in
    translate/code_translator.rs.  The functions are computations on the builder
    of Emit.v.

    A memory at run time is a base, a bound, a region of address space and what of
    the address space can be accessed; [heap_ok] says what the runtime promises
    about it (LinearMemory.v keeps the promise).  Emitted code is run, and the
    address it yields accessed: by a native instruction, where a fault in the
    memory's region or near the null address is a trap and any other fault ends
    the process (store.rs, [wasm_fault]); or by Pulley's [AddrZ], which traps on
    null only (pulley/src/interp.rs).

    Shown: for every configuration, type, index, offset and size, running what was
    emitted and accessing the address does what WebAssembly says: a trap exactly
    if the access is out of bounds, and otherwise an access to its bytes.  No
    assertion, subtraction or addition of the translation fails.  Accesses to
    fields of GC objects stay in the heap; where a failing check of such an access
    ends the process instead of trapping is shown. *)

From S2P Require Import Prelude MemoryTypes TrapEncoding ClifTypes DivConst CondCodes ClifValue ClifOps ClifStep Emit.

(** ** The translation *)

Record HeapData := mkHeap { memory : Memory.t; kind : MemoryKind }.

Definition index_type (heap : HeapData) : LaneType :=
  match Memory.idx_type (memory heap) with Idx32 => I32 | Idx64 => I64 end.

Definition memory_tunables (heap : HeapData) (tunables : Tunables) : MemoryTunables.t :=
  MemoryTunables.new tunables (kind heap).

Inductive BoundsCheck :=
| StaticOffset (offset access_size : Z)
| StaticObjectField (offset access_size object_size : Z)
| DynamicObjectField (offset object_size : Value).

Inductive Reachability := Reachable (v : Value) | Unreachable.

Inductive OobBehavior := ExplicitTrap | ConditionallyLoadFromZero (select_spectre_guard : bool).

Definition offset_plus_size (offset size : Z) : Z := offset + size.

Section translation.
Context (env : FuncEnvironment) (heap : HeapData).
Abbreviation pointer := (pointer_type env).
Abbreviation mt := (memory_tunables heap (tunables env)).

Definition clif_memory_traps_enabled : bool := signals_based_traps (tunables env) && negb (is_pulley env).

Definition load_from_zero_allowed : bool :=
  is_pulley env || (clif_memory_traps_enabled && enable_heap_access_spectre_mitigation env).

(** The fuel counter is written back before a trap that is always taken. *)
Definition before_unconditionally_trapping_memory_access : B unit :=
  if consume_fuel (tunables env) then append SaveFuel else ret tt.

Definition get_dynamic_heap_bound : B Value :=
  match Memory.static_heap_size (memory heap) with
  | Some max_size => ins.iconst pointer max_size
  | None => ins.global_value pointer HeapBound
  end.

Definition cast_index_to_pointer_ty (index : Value) (index_ty pointer_ty : LaneType) (t : Z) : B Value :=
  if bool_decide (index_ty = pointer_ty) then ret index
  else if lt_bits pointer_ty <? lt_bits index_ty then
    rust_assert (bool_decide (index_ty = I64)) ;;;
    rust_assert (bool_decide (pointer_ty = I32)) ;;;
    low_bits <- ins.ireduce pointer_ty index ;;
    c32 <- ins.iconst pointer_ty 32 ;;
    high_bits <- ins.ushr index c32 ;;
    high_bits <- ins.ireduce pointer_ty high_bits ;;
    ins.trapnz high_bits t ;;;
    ret low_bits
  else ins.uextend pointer_ty index.

Definition compute_addr (index : Value) (offset : Z) : B Value :=
  ty <- value_type index ;; rust_assert (bool_decide (ty = pointer)) ;;;
  heap_base <- ins.global_value pointer HeapBase ;;
  base_and_index <- ins.iadd heap_base index ;;
  if offset =? 0 then ret base_and_index
  else offset_val <- ins.iconst pointer offset ;; ins.iadd base_and_index offset_val.

Definition explicit_check_oob_condition_and_compute_addr (index : Value) (offset : Z)
    (oob_behavior : OobBehavior) (oob_condition : Value) (t : Z) : B Value :=
  (match oob_behavior with ExplicitTrap => trapnz env oob_condition t | _ => ret tt end) ;;;
  addr <- compute_addr index offset ;;
  match oob_behavior with
  | ConditionallyLoadFromZero select_spectre_guard =>
      rust_assert load_from_zero_allowed ;;;
      null <- ins.iconst pointer 0 ;;
      if select_spectre_guard : bool then ins.select_spectre_guard oob_condition null addr
      else ins.select oob_condition null addr
  | ExplicitTrap => ret addr
  end.

(** [imm.zero_extend_from_width(..)] of a constant index. *)
Definition constant_index (index : Value) (b : Builder) : option Z :=
  d ← dfg b !! index;
  i ← d.2;
  match opcode i, imm i with
  | Iconst, VI _ n => Some (wrap (lt_bits d.1) n)
  | _, _ => None
  end.

Definition minimum_or_max : Z := default u64_MAX (Memory.minimum_byte_size (memory heap)).

Definition statically_in_bounds (index : Value) (offset_and_size : Z) (b : Builder) : bool :=
  default false (i ← constant_index index b;
                 final_addr ← checked_add u64_MAX i offset_and_size;
                 Some (final_addr <=? minimum_or_max)).

Definition oob_behavior : OobBehavior :=
  let spectre_mitigations_enabled :=
    enable_heap_access_spectre_mitigation env && clif_memory_traps_enabled in
  if spectre_mitigations_enabled then ConditionallyLoadFromZero true
  else if load_from_zero_allowed then ConditionallyLoadFromZero false
  else ExplicitTrap.

Definition can_use_virtual_memory : bool :=
  Memory.can_use_virtual_memory (memory heap) (MemoryTunables.tunables mt) (page_size_align_log2 env)
  && clif_memory_traps_enabled.

(** The test of the branch without a check, with its short circuit. *)
Definition elides (offset_and_size : Z) : option bool :=
  can_elide ← Memory.can_elide_bounds_check (memory heap) mt (page_size_align_log2 env);
  if can_elide && clif_memory_traps_enabled then
    reach ← checked_add u64_MAX (MemoryTunables.reservation mt) (MemoryTunables.guard_size mt);
    rest ← checked_sub reach offset_and_size;
    Some (u32_MAX <=? rest)
  else Some false.

(** The explicit checks, from the one that needs no bound to the general one. *)
Definition checked_access (index : Value) (offset offset_and_size t : Z) : B Value :=
  let explicit oob := explicit_check_oob_condition_and_compute_addr index offset oob_behavior oob t in
  if can_use_virtual_memory
     && (minimum_or_max <=? MemoryTunables.reservation mt)
     && negb (Memory.memory_may_move (memory heap) mt)
     && (offset_and_size <=? MemoryTunables.reservation mt)
  then
    adjusted_bound <- unwrap (checked_sub (MemoryTunables.reservation mt) offset_and_size) ;;
    adjusted_bound_value <- ins.iconst pointer adjusted_bound ;;
    oob <- ins.icmp UnsignedGreaterThan index adjusted_bound_value ;;
    explicit oob
  else if (offset_and_size =? 1) && negb (is_pulley env) then
    bound <- get_dynamic_heap_bound ;;
    oob <- ins.icmp UnsignedGreaterThanOrEqual index bound ;;
    explicit oob
  else if can_use_virtual_memory && (offset_and_size <=? MemoryTunables.guard_size mt) then
    bound <- get_dynamic_heap_bound ;;
    oob <- ins.icmp UnsignedGreaterThan index bound ;;
    explicit oob
  else if offset_and_size <=? minimum_or_max then
    bound <- get_dynamic_heap_bound ;;
    adjustment_value <- ins.iconst pointer offset_and_size ;;
    adjusted_bound <- ins.isub bound adjustment_value ;;
    oob <- ins.icmp UnsignedGreaterThan index adjusted_bound ;;
    explicit oob
  else
    access_size_val <- ins.iconst pointer offset_and_size ;;
    adjusted_index <- uadd_overflow_trap env index access_size_val t ;;
    bound <- get_dynamic_heap_bound ;;
    oob <- ins.icmp UnsignedGreaterThan adjusted_index bound ;;
    explicit oob.

Definition always_traps (t : Z) : B Reachability :=
  before_unconditionally_trapping_memory_access ;;; trap env t ;;; ret Unreachable.

Definition bounds_check_field_access (index : Value) (offset access_size t : Z) : B Reachability :=
  let offset_and_size := offset_plus_size offset access_size in
  static <- gets (statically_in_bounds index offset_and_size) ;;
  index <- cast_index_to_pointer_ty index (index_type heap) pointer t ;;
  if default u64_MAX (Memory.maximum_byte_size (memory heap)) <? offset_and_size then always_traps t
  else if (lt_bits pointer <? 64) && (Z.shiftl 1 (lt_bits pointer) <=? offset_and_size) then always_traps t
  else
    elide <- unwrap (elides offset_and_size) ;;
    if elide : bool then
      rust_assert (bool_decide (index_type heap = I32)) ;;;
      rust_assert can_use_virtual_memory ;;;
      a <- compute_addr index offset ;; ret (Reachable a)
    else if static : bool then a <- compute_addr index offset ;; ret (Reachable a)
    else a <- checked_access index offset offset_and_size t ;; ret (Reachable a).

Definition bounds_check_and_compute_addr (index : Value) (check : BoundsCheck) (t : Z) : B Reachability :=
  match check with
  | StaticOffset offset access_size => bounds_check_field_access index offset access_size t
  | StaticObjectField offset access_size object_size =>
      offset_and_access_size <- unwrap (checked_add u32_MAX offset access_size) ;;
      rust_assert (offset_and_access_size <=? object_size) ;;;
      match try_from u8_MAX object_size with
      | Some object_size =>
          r <- bounds_check_field_access index 0 object_size t ;;
          match r with
          | Reachable obj_ptr =>
              offset <- ins.iconst pointer offset ;;
              field_ptr <- ins.iadd obj_ptr offset ;;
              ret (Reachable field_ptr)
          | Unreachable => ret Unreachable
          end
      | None => bounds_check_field_access index offset access_size t
      end
  | DynamicObjectField offset object_size =>
      rust_assert (bool_decide (index_type heap = I32)) ;;;
      ty <- value_type index ;; rust_assert (bool_decide (ty = I32)) ;;;
      ty <- value_type offset ;; rust_assert (bool_decide (ty = I32)) ;;;
      ty <- value_type object_size ;; rust_assert (bool_decide (ty = I32)) ;;;
      index_and_object_size <- ins.uadd_overflow_trap index object_size t ;;
      r <- bounds_check_field_access index_and_object_size 0 0 t ;;
      match r with
      | Reachable ptr_just_after_obj =>
          backwards_offset <- ins.isub object_size offset ;;
          backwards_offset <- cast_index_to_pointer_ty backwards_offset I32 pointer t ;;
          field_ptr <- ins.isub ptr_just_after_obj backwards_offset ;;
          ret (Reachable field_ptr)
      | Unreachable => ret Unreachable
      end
  end.

(** [prepare_addr]: the index is on the translator's stack; the flags of the
    access are left out. *)
Definition prepare_addr (index : Value) (memarg_offset access_size : Z) : B Reachability :=
  match try_from u32_MAX memarg_offset with
  | Some offset =>
      bounds_check_and_compute_addr index (StaticOffset offset access_size) TrapCode.HEAP_OUT_OF_BOUNDS
  | None =>
      offset <- ins.iconst (index_type heap) memarg_offset ;;
      adjusted_index <- uadd_overflow_trap env index offset TrapCode.HEAP_OUT_OF_BOUNDS ;;
      bounds_check_and_compute_addr adjusted_index (StaticOffset 0 access_size) TrapCode.HEAP_OUT_OF_BOUNDS
  end.
End translation.

(** ** Memories and accesses at run time *)

(** The memory an instance accesses: its base and bound, as emitted code reads
    them, the bytes after the base that belong to it with their guard
    ([wasm_accessible]), what the process can access, and whether it is a memory
    of an instance or the store's heap. *)
Record HeapMemory := mkHeapMemory {
  h_kind : MemoryKind;
  h_base : Z;
  h_bound : Z;
  h_region : Z;
  accessible : Z -> bool
}.

(** [size_of::<VMFuncRef>()]: two pointers, a 32-bit type index with its
    padding, a pointer. *)
Definition SIZE_OF_VMFUNCREF : Z := 8 + 8 + 8 + 8.

(** [Store::wasm_fault]: the faults that are traps.  It searches the memories of
    the store's instances, which the GC heap is not. *)
Definition wasm_fault (h : HeapMemory) (addr : Z) : bool :=
  (addr <=? SIZE_OF_VMFUNCREF) ||
  match h_kind h with
  | LinearMemory => (h_base h <=? addr) && (addr <? h_base h + h_region h)
  | GcHeap => false
  end.

Inductive Access := Accessed (addr : Z) | AccessTrap | AccessAbort.

Definition native_access (h : HeapMemory) (addr size : Z) : Access :=
  match List.find (fun a => negb (accessible h a)) (seqZ addr size) with
  | None => Accessed addr
  | Some a => if wasm_fault h a then AccessTrap else AccessAbort
  end.

(** Pulley's [AddrZ]; any other bad address is a fault of the interpreter itself. *)
Definition pulley_access (h : HeapMemory) (addr size : Z) : Access :=
  if addr =? 0 then AccessTrap
  else if forallb (accessible h) (seqZ addr size) then Accessed addr else AccessAbort.

Definition access (env : FuncEnvironment) (h : HeapMemory) (addr size : Z) : Access :=
  if is_pulley env then pulley_access h addr size else native_access h addr size.

(** What the program sees: a trap, an access to bytes, the end of the process. *)
Inductive Behaviour :=
| Traps (t : option CompiledTrap)
| Touches (addr : Z)
| Aborts
| Wrong.

Definition machine_of (vmctx : Z) (h : HeapMemory) : Machine := mkMachine vmctx (h_base h) (h_bound h) 0 0.

(** Running what was emitted and then accessing [size] bytes at the address;
    the access carries the trap code [t]. *)
Definition behaviour (env : FuncEnvironment) (vmctx : Z) (h : HeapMemory) (e0 : gmap nat DataValue)
    (t size : Z) (r : Reachability) (b : Builder) : Behaviour :=
  match outcome_of env (machine_of vmctx h) e0 b, r with
  | Raised _ tr, _ => Traps tr
  | Running e _, Reachable v =>
      match e !! v with
      | Some (VI l x) =>
          match access env h (wrap (lt_bits l) x) size with
          | Accessed a => Touches a
          | AccessTrap =>
              match clif_trap_to_env_trap t (tunables env) with Some tr => Traps tr | None => Wrong end
          | AccessAbort => Aborts
          end
      | _ => Wrong
      end
  | _, _ => Wrong
  end.

(** Native targets have 64-bit pointers; Pulley has either width. *)
Record target_ok (env : FuncEnvironment) : Prop := {
  tg_pointer : pointer_type env = I32 \/ pointer_type env = I64;
  tg_native : is_pulley env = false -> pointer_type env = I64;
}.

(** What the runtime promises the compiler about a memory, and the host about
    addresses: the first page and the upper half are not the process's. *)
Record heap_ok (env : FuncEnvironment) (heap : HeapData) (h : HeapMemory) : Prop := {
  ho_kind : h_kind h = kind heap;
  ho_type : Memory.valid (memory heap);
  ho_tunables : MemoryTunables.valid (memory_tunables heap (tunables env));
  ho_min : exists min, Memory.minimum_byte_size (memory heap) = Some min /\ min <= h_bound h;
  ho_max max : Memory.maximum_byte_size (memory heap) = Some max -> h_bound h <= max;
  ho_base : 0 < h_base h /\ h_base h + h_region h <= 2 ^ lt_bits (pointer_type env);
  ho_bound : 0 <= h_bound h <= h_region h;
  ho_mapped a : h_base h <= a < h_base h + h_bound h -> accessible h a = true;
  ho_null a : is_pulley env = false -> 0 <= a < 4096 \/ 2 ^ 63 <= a -> accessible h a = false;
  ho_region : can_use_virtual_memory env heap = true ->
    Z.max (h_bound h) (MemoryTunables.reservation (memory_tunables heap (tunables env)))
      + MemoryTunables.guard_size (memory_tunables heap (tunables env)) <= h_region h /\
    forall a, h_base h + h_bound h <= a < h_base h + h_region h -> accessible h a = false;
  ho_static : can_use_virtual_memory env heap = true ->
    Memory.memory_may_move (memory heap) (memory_tunables heap (tunables env)) = false ->
    minimum_or_max heap <= MemoryTunables.reservation (memory_tunables heap (tunables env)) ->
    h_bound h <= MemoryTunables.reservation (memory_tunables heap (tunables env));
}.

(** ** What is emitted computes *)

Section emission.
Context (env : FuncEnvironment) (heap : HeapData) (h : HeapMemory) (vmctx : Z) (e0 : gmap nat DataValue).
Context (Htarget : target_ok env) (Hheap : heap_ok env heap h).
Context (allowed : bool) (Hallowed : clif_instruction_traps_enabled env = true -> allowed = true).
Context (t : Z) (tr : option CompiledTrap) (Htr : clif_trap_to_env_trap t (tunables env) = Some tr).
Abbreviation machine := (machine_of vmctx h).
Abbreviation value := (value env machine e0).
Abbreviation traps := (traps env machine e0 allowed).
Abbreviation emits := (emits env machine e0 allowed).
Abbreviation pointer := (pointer_type env).
Abbreviation W := (lt_bits pointer).
Abbreviation base := (h_base h).
Abbreviation bound := (h_bound h).

Lemma pointer_word : word pointer.
Proof. unfold word. destruct (tg_pointer env Htarget); auto. Qed.

Lemma W_cases : W = 32 \/ W = 64.
Proof. destruct (tg_pointer env Htarget) as [-> | ->]; auto. Qed.

Lemma bound_lt : 0 <= bound < 2 ^ W.
Proof. destruct (ho_base _ _ _ Hheap), (ho_bound _ _ _ Hheap). lia. Qed.

(** An unsigned comparison of pointers. *)
Lemma emits_unsigned (cc : IntCC) (f : Z -> Z -> bool) u v x y b c :
  (forall w p q, int_cmp w cc p q = f (q mod 2 ^ w) (p mod 2 ^ w)) ->
  value b u pointer x -> value b v pointer y -> 0 <= x < 2 ^ W -> 0 <= y < 2 ^ W -> traps b c tr ->
  emits (ins.icmp cc u v) b c tr (fun r b' => value b' r I8 (b2z (f y x))).
Proof.
  intros Hcc Hu Hv Hx Hy Ht. eapply emits_mono; [|by apply (emits_icmp _ _ _ _ cc pointer x y u v); [apply pointer_word|..]].
  intros r b' Hr. rewrite Hcc in Hr. pose proof pointer_word as (_ & _ & ?)%word_facts.
  assert (forall z, 0 <= z < 2 ^ W -> swrap W z mod 2 ^ W = z) as E.
  { intros z Hz. change (wrap W (swrap W z) = z). rewrite wrap_swrap, wrap_small by lia. done. }
  by rewrite !E in Hr by done.
Qed.

Lemma emits_bound b c : traps b c tr ->
  emits (get_dynamic_heap_bound env heap) b c tr (fun r b' => value b' r pointer bound).
Proof.
  intros Ht. unfold get_dynamic_heap_bound. destruct (Memory.static_heap_size (memory heap)) as [n|] eqn:E.
  - apply Memory.static_heap_size_Some in E as [Emin Emax]. destruct (ho_min _ _ _ Hheap) as (mn & En & ?).
    pose proof (ho_max _ _ _ Hheap _ Emax). assert (n = bound) as -> by (simplify_eq; lia).
    apply emits_iconst; [apply pointer_word|done].
  - exact (emits_global env machine e0 allowed pointer HeapBound b c tr Ht).
Qed.

(** The index as a pointer; on a host of 32 bits an index that does not fit traps. *)
Lemma emits_cast v l idx b c : l = I32 \/ l = I64 -> value b v l idx -> 0 <= idx < 2 ^ lt_bits l ->
  traps b c tr -> (W < lt_bits l -> allowed = true) ->
  emits (cast_index_to_pointer_ty v l pointer t) b (c || (2 ^ W <=? idx)) tr
    (fun r b' => value b' r pointer (idx mod 2 ^ W)).
Proof.
  intros Hl Hv Hidx Ht Hal. unfold cast_index_to_pointer_ty. case_bool_decide as El.
  { subst l. rewrite (proj2 (Z.leb_gt _ _)), orb_false_r by lia. apply emits_ret; [done|]. by rewrite Z.mod_small by lia. }
  assert ((pointer = I32 /\ l = I64) \/ (pointer = I64 /\ l = I32)) as [[Ep ->]|[Ep ->]].
  { destruct (tg_pointer env Htarget), Hl; auto; congruence. }
  - rewrite Ep in *. cbn [lt_bits Z.ltb Z.compare Pos.compare Pos.compare_cont].
    do 2 (apply emits_assert; [done|]).
    eapply emits_bind; [eapply emits_ireduce; eassumption|]. intros lo b1 H1 Ht1 Hlo.
    eapply emits_bind; [apply emits_iconst; [by right; left|done]|]. intros c32 b2 H2 Ht2 H32.
    eapply emits_bind; [apply (emits_ushr32 _ _ _ _ idx v c32); [by apply H2, H1|done|done|done]|].
    intros hi b3 H3 Ht3 Hhi.
    eapply emits_bind; [by apply (emits_ireduce _ _ _ _ (idx / 2 ^ 32) hi)|].
    intros hi' b4 H4 Ht4 Hhi'.
    eapply emits_bind with (c := c || (2 ^ 32 <=? idx)).
    { apply (emits_native_trap env machine allowed Hallowed e0 t tr Htr true hi' I32 (idx / 2 ^ 32));
        [by apply Hal|by right; left|done|done| |by right; right].
      rewrite eqb_true_alt. cbn [lt_bits] in *. assert (0 <= idx / 2 ^ 32 < 2 ^ 32) as Hh.
      { split; [apply Z.div_pos; lia|apply Z.div_lt_upper_bound; lia]. }
      rewrite wrap_small by done. pose proof (Z.div_mod idx (2 ^ 32)). pose proof (Z.mod_pos_bound idx (2 ^ 32)).
      destruct (Z.leb_spec (2 ^ 32) idx), (Z.eqb_spec (idx / 2 ^ 32) 0); simpl; try done; exfalso; nia. }
    intros [] b5 H5 Ht5 _. apply emits_ret; [done|]. apply H5, H4, H3, H2.
    exact (value_mod _ _ _ _ _ I32 _ Hlo).
  - rewrite Ep in *. cbn [lt_bits Z.ltb Z.compare Pos.compare Pos.compare_cont] in *.
    rewrite (proj2 (Z.leb_gt _ _)), orb_false_r, Z.mod_small by lia. by apply emits_uextend.
Qed.

Lemma emits_compute_addr v idx offset b c : value b v pointer idx -> traps b c tr ->
  emits (compute_addr env v offset) b c tr (fun r b' => value b' r pointer (base + idx + offset)).
Proof.
  intros Hv Ht. unfold compute_addr. eapply emits_value_type; [done|].
  apply emits_assert; [by apply bool_decide_eq_true|]. pose proof pointer_word as Hp.
  eapply emits_bind; [exact (emits_global env machine e0 allowed pointer HeapBase b c tr Ht)|]. intros hb b1 H1 Ht1 Hhb.
  eapply emits_bind; [apply (emits_iadd _ _ _ _ pointer base idx hb v); [done|done|by apply H1|done]|].
  intros bi b2 H2 Ht2 Hbi. destruct (Z.eqb_spec offset 0) as [->|_].
  - apply emits_ret; [done|]. by rewrite Z.add_0_r.
  - eapply emits_bind; [by apply emits_iconst|]. intros off b3 H3 Ht3 Hoff.
    apply emits_iadd; [done|by apply H3|done|done].
Qed.

(** The address that an explicit check lets through, and whether it traps itself. *)
Definition guarded (oob : bool) (addr : Z) : bool * Z :=
  match oob_behavior env with
  | ExplicitTrap => (oob, addr)
  | ConditionallyLoadFromZero _ => (false, if oob then 0 else addr)
  end.

Lemma emits_explicit v idx offset f oob b c : value b v pointer idx -> value b f I8 (b2z oob) -> traps b c tr ->
  emits (explicit_check_oob_condition_and_compute_addr env v offset (oob_behavior env) f t) b
    (c || (guarded oob (base + idx + offset)).1) tr
    (fun r b' => value b' r pointer (guarded oob (base + idx + offset)).2).
Proof.
  intros Hv Hf Ht. unfold explicit_check_oob_condition_and_compute_addr, guarded. pose proof pointer_word as Hp.
  assert (forall s, oob_behavior env = ConditionallyLoadFromZero s -> load_from_zero_allowed env = true) as Hz.
  { intros s. unfold oob_behavior, load_from_zero_allowed.
    destruct (is_pulley env), (clif_memory_traps_enabled env), (enable_heap_access_spectre_mitigation env); done. }
  destruct (oob_behavior env) as [|s].
  - eapply emits_bind with (c := (c || oob)).
    { apply (emits_trapnz env machine allowed Hallowed e0 t tr Htr Hp f I8 (b2z oob)); [by left|done|done| |auto].
      by destruct oob. }
    intros [] b1 H1 Ht1 _. eapply emits_bind; [apply emits_compute_addr; [by apply H1|done]|].
    intros a b2 H2 Ht2 Ha. by apply emits_ret.
  - cbn [fst snd]. rewrite orb_false_r.
    eapply emits_bind with (c := c) (P := fun _ b' => b' = b); [by apply emits_ret|]. intros [] ? _ _ ->.
    eapply emits_bind; [by apply emits_compute_addr|].
    intros a b1 H1 Ht1 Ha. apply emits_assert; [by eapply Hz|].
    eapply emits_bind; [by apply emits_iconst|]. intros null b2 H2 Ht2 Hnull.
    assert (value b2 f I8 (b2z oob)) by (by apply H2, H1). assert (value b2 a pointer (base + idx + offset)) by (by apply H2).
    destruct s; [eapply (emits_select_op _ _ _ _ SelectSpectreGuard)|eapply (emits_select_op _ _ _ _ Select)]; auto.
Qed.
(** What an address computed under checks may be, for an index [x] and the sum
    [os] of offset and size: the address itself if it is in bounds; otherwise a
    trap before it, null, or an address whose access faults. *)
Definition verdict (x offset os : Z) (c : bool) (A : Z) : Prop :=
  if x + os <=? bound then c = false /\ A = base + x + offset
  else c = true \/ (A = 0 /\ load_from_zero_allowed env = true) \/
       (can_use_virtual_memory env heap = true /\ A = base + x + offset /\ x + os <= h_region h).

Lemma verdict_guarded x offset os oob :
  (oob = true -> bound < x + os) ->
  (oob = false -> x + os <= bound \/ (can_use_virtual_memory env heap = true /\ x + os <= h_region h)) ->
  verdict x offset os (guarded oob (base + x + offset)).1 (guarded oob (base + x + offset)).2.
Proof.
  intros Ht Hf. unfold verdict, guarded. destruct (Z.leb_spec (x + os) bound).
  - assert (oob = false) as -> by (destruct oob; [exfalso; specialize (Ht eq_refl); lia|done]).
    by destruct (oob_behavior env).
  - destruct oob.
    + unfold oob_behavior, load_from_zero_allowed.
      destruct (is_pulley env), (clif_memory_traps_enabled env), (enable_heap_access_spectre_mitigation env); auto.
    + destruct (Hf eq_refl) as [?|[? ?]]; [lia|]. destruct (oob_behavior env); auto.
Qed.

Lemma minimum_or_max_le : 0 <= minimum_or_max heap <= bound.
Proof.
  destruct (ho_min _ _ _ Hheap) as (mn & En & ?). unfold minimum_or_max. rewrite En. simpl.
  destruct (Memory.minimum_byte_size_Some _ (ho_type _ _ _ Hheap) _ En). lia.
Qed.

Lemma maximum_ge : bound <= default u64_MAX (Memory.maximum_byte_size (memory heap)).
Proof.
  destruct (Memory.maximum_byte_size (memory heap)) as [mx|] eqn:E; simpl.
  - by apply (ho_max _ _ _ Hheap).
  - destruct bound_lt as [_ ?]. destruct W_cases as [E1|E1]; rewrite E1 in *; unfold u64_MAX; lia.
Qed.

(** Virtual memory is only relied on by native code, on pointers of 64 bits. *)
Lemma virtual_native : can_use_virtual_memory env heap = true -> is_pulley env = false /\ W = 64.
Proof.
  unfold can_use_virtual_memory, clif_memory_traps_enabled. intros [_ [_ Hp%negb_true_iff]%andb_prop]%andb_prop.
  split; [done|]. by rewrite (tg_native _ Htarget Hp).
Qed.

(** The test for no check at all does not underflow, and means what it should. *)
Lemma elides_total os : 0 <= os ->
  os <= default u64_MAX (Memory.maximum_byte_size (memory heap)) -> exists q, elides env heap os = Some q /\
  (q = true -> index_type heap = I32 /\ can_use_virtual_memory env heap = true /\ 2 ^ 32 - 1 + os <= h_region h).
Proof.
  intros Hos Hmax. unfold elides, Memory.can_elide_bounds_check. set (mt := memory_tunables heap (tunables env)).
  pose proof (ho_tunables _ _ _ Hheap) as Hmt. fold mt in Hmt. destruct Hmt as [Hr Hg _ Hsum].
  destruct (Memory.can_use_virtual_memory (memory heap) (MemoryTunables.tunables mt) (page_size_align_log2 env)) eqn:Ev;
    cbn [andb]; [|by exists false].
  case_bool_decide as Ei; cbn [andb mbind option_bind]; [|by exists false].
  assert (checked_add u64_MAX (MemoryTunables.reservation mt) (MemoryTunables.guard_size mt)
    = Some (MemoryTunables.reservation mt + MemoryTunables.guard_size mt)) as E by (by apply checked_add_Some).
  rewrite E. cbn [mbind option_bind]. destruct (clif_memory_traps_enabled env) eqn:Et; [|rewrite andb_false_r; by exists false].
  rewrite andb_true_r. destruct (Z.leb_spec (Z.shiftl 1 32) (MemoryTunables.reservation mt + MemoryTunables.guard_size mt)) as [H32|];
    [|by exists false].
  destruct (Memory.maximum_byte_size_32 _ (ho_type _ _ _ Hheap) Ei) as (mx & Emx & ?). rewrite Emx in Hmax. simpl in Hmax.
  change (Z.shiftl 1 32) with (2 ^ 32) in H32.
  assert (checked_sub (MemoryTunables.reservation mt + MemoryTunables.guard_size mt) os
    = Some (MemoryTunables.reservation mt + MemoryTunables.guard_size mt - os)) as ->.
  { apply checked_sub_Some. lia. }
  simpl. eexists. split; [done|]. intros Hle%Z.leb_le.
  assert (can_use_virtual_memory env heap = true) as Hvm.
  { unfold can_use_virtual_memory. fold mt. by rewrite Ev, Et. }
  split_and!; [unfold index_type; by rewrite Ei|done|].
  destruct (ho_region _ _ _ Hheap Hvm) as [Hreg _]. fold mt in Hreg. unfold u32_MAX in *. lia.
Qed.

Context (offset size : Z) (Hoffset : 0 <= offset <= u32_MAX) (Hsize : 0 <= size <= u8_MAX).
Abbreviation os := (offset_plus_size offset size).

(** A checked access whose emitted condition is exact or leaves the rest to the guard. *)
Lemma emits_condition (cc : IntCC) (f : Z -> Z -> bool) v w u x y p b c : (forall k p q, int_cmp k cc p q = f (q mod 2 ^ k) (p mod 2 ^ k)) ->
  value b v pointer x -> value b w pointer p -> value b u pointer y -> 0 <= p < 2 ^ W -> 0 <= y < 2 ^ W ->
  traps b c tr ->
  emits (oob <- ins.icmp cc w u ;;
         explicit_check_oob_condition_and_compute_addr env v offset (oob_behavior env) oob t) b
    (c || (guarded (f y p) (base + x + offset)).1) tr
    (fun r b' => value b' r pointer (guarded (f y p) (base + x + offset)).2).
Proof.
  intros Hcc Hv Hw Hu Hp Hy Ht. eapply emits_bind; [by apply (emits_unsigned cc f w u p y)|].
  intros oob b1 H1 Ht1 Hoob. apply emits_explicit; [by apply H1|done|done].
Qed.
(** ** The checks of [checked_access] *)

Section checks.
Context (v : Value) (x : Z) (b : Builder) (c0 : bool).
Context (Hv : value b v pointer x) (Hx : 0 <= x < 2 ^ W) (Ht : traps b c0 tr) (Hos : os < 2 ^ W).
Abbreviation explicit f := (explicit_check_oob_condition_and_compute_addr env v offset (oob_behavior env) f t).

Definition checks (m : B Value) : Prop := exists c A, verdict x offset os c A /\
  emits m b (c0 || c) tr (fun r b' => value b' r pointer A).

Lemma os_nonneg : 0 <= os.
Proof. unfold offset_plus_size. lia. Qed.

Lemma checks_constant n : 0 <= n < 2 ^ W -> (n < x -> bound < x + os) ->
  (x <= n -> x + os <= bound \/ (can_use_virtual_memory env heap = true /\ x + os <= h_region h)) ->
  checks (a <- ins.iconst pointer n ;; oob <- ins.icmp UnsignedGreaterThan v a ;; explicit oob).
Proof.
  intros Hn Hoob Hin. do 2 eexists. split; [|eapply emits_bind; [by apply emits_iconst, Ht; apply pointer_word|];
    intros a b1 H1 Ht1 Ha; by apply (emits_condition UnsignedGreaterThan Z.ltb v v a x n x); [|apply H1|apply H1|..]].
  apply verdict_guarded; [intros ?%Z.ltb_lt|intros ?%Z.ltb_ge]; auto.
Qed.

Lemma checks_bound (cc : IntCC) (f : Z -> Z -> bool) : (forall k p q, int_cmp k cc p q = f (q mod 2 ^ k) (p mod 2 ^ k)) ->
  (f bound x = true -> bound < x + os) ->
  (f bound x = false -> x + os <= bound \/ (can_use_virtual_memory env heap = true /\ x + os <= h_region h)) ->
  checks (bnd <- get_dynamic_heap_bound env heap ;; oob <- ins.icmp cc v bnd ;; explicit oob).
Proof.
  intros Hcc Hoob Hin. do 2 eexists. split; [|eapply emits_bind; [by apply emits_bound|];
    intros a b1 H1 Ht1 Ha; by apply (emits_condition cc f v v a x bound x); [|apply H1|apply H1|..|apply bound_lt|]].
  by apply verdict_guarded.
Qed.

Lemma checks_adjusted : os <= bound ->
  checks (bnd <- get_dynamic_heap_bound env heap ;; n <- ins.iconst pointer os ;; a <- ins.isub bnd n ;;
          oob <- ins.icmp UnsignedGreaterThan v a ;; explicit oob).
Proof.
  intros Hle. pose proof pointer_word as Hp. pose proof bound_lt. pose proof os_nonneg. do 2 eexists. split.
  2: { eapply emits_bind; [by apply emits_bound|]. intros bnd b1 H1 Ht1 Hbnd.
    eapply emits_bind; [by apply emits_iconst|]. intros n b2 H2 Ht2 Hn.
    eapply emits_bind; [apply (emits_isub _ _ _ _ pointer bound os bnd n); [done|by apply H2|done|done]|].
    intros a b3 H3 Ht3 Ha.
    apply (emits_condition UnsignedGreaterThan Z.ltb v v a x (bound - os) x); try done; [by apply H3, H2, H1..|lia]. }
  apply verdict_guarded; [intros ?%Z.ltb_lt|intros ?%Z.ltb_ge]; lia.
Qed.

(** The addition of the most general check may itself trap. *)
Lemma checks_added :
  checks (n <- ins.iconst pointer os ;; a <- uadd_overflow_trap env v n t ;;
          bnd <- get_dynamic_heap_bound env heap ;; oob <- ins.icmp UnsignedGreaterThan a bnd ;; explicit oob).
Proof.
  pose proof pointer_word as Hp. pose proof bound_lt as Hb. pose proof os_nonneg.
  exists ((2 ^ W <=? x + os) || (guarded (bound <? (x + os) mod 2 ^ W) (base + x + offset)).1),
    (guarded (bound <? (x + os) mod 2 ^ W) (base + x + offset)).2. split.
  - destruct (Z.leb_spec (2 ^ W) (x + os)) as [Hw|Hw].
    + unfold verdict. rewrite (proj2 (Z.leb_gt _ _)) by lia. by left.
    + rewrite Z.mod_small by lia. apply verdict_guarded; [intros ?%Z.ltb_lt|intros ?%Z.ltb_ge]; lia.
  - eapply emits_bind; [by apply emits_iconst|]. intros n b1 H1 Ht1 Hn.
    eapply emits_bind; [apply (emits_uadd_overflow_trap env machine allowed Hallowed e0 t tr Htr Hp pointer x os v n);
      [done|by apply H1|done..]|].
    intros a b2 H2 Ht2 Ha. eapply emits_bind; [by apply emits_bound|]. intros bnd b3 H3 Ht3 Hbnd.
    rewrite orb_assoc.
    apply (emits_condition UnsignedGreaterThan Z.ltb v a bnd x bound ((x + os) mod 2 ^ W)); try done;
      [by apply H3, H2, H1| |by apply Z.mod_pos_bound; lia].
    by apply H3, value_mod.
Qed.

Lemma emits_checked_access : checks (checked_access env heap v offset os t).
Proof.
  pose proof bound_lt as Hb. pose proof minimum_or_max_le as Hmin. pose proof os_nonneg.
  set (mt := memory_tunables heap (tunables env)).
  destruct (ho_tunables _ _ _ Hheap) as [Hr Hg _ Hsum]. fold mt in Hr, Hg, Hsum.
  assert (can_use_virtual_memory env heap = true -> Z.max bound (MemoryTunables.reservation mt) + MemoryTunables.guard_size mt <= h_region h)
    as Hreg by (intros En; apply (ho_region _ _ _ Hheap En)).
  unfold checked_access. fold mt. destruct (_ && negb _ && _) eqn:E1.
  { apply andb_prop in E1 as [[[En ?%Z.leb_le]%andb_prop Em%negb_true_iff]%andb_prop ?%Z.leb_le].
    pose proof (ho_static _ _ _ Hheap En Em ltac:(done)) as Hst. fold mt in Hst. destruct (virtual_native En) as [_ EW].
    specialize (Hreg En). rewrite (proj2 (checked_sub_Some _ _ (MemoryTunables.reservation mt - os))) by lia.
    apply checks_constant; [rewrite EW; unfold u64_MAX in *; lia|lia|right; split; [done|lia]]. }
  clear E1. destruct (_ && negb _) eqn:E2.
  { apply andb_prop in E2 as [?%Z.eqb_eq _]. apply (checks_bound UnsignedGreaterThanOrEqual Z.leb); [done|..].
    - intros ?%Z.leb_le. lia.
    - intros ?%Z.leb_gt. lia. }
  clear E2. destruct (_ && (os <=? MemoryTunables.guard_size mt)) eqn:E3.
  { apply andb_prop in E3 as [En ?%Z.leb_le]. specialize (Hreg En). apply (checks_bound UnsignedGreaterThan Z.ltb); [done|..].
    - intros ?%Z.ltb_lt. lia.
    - intros ?%Z.ltb_ge. right. split; [done|lia]. }
  destruct (Z.leb_spec os (minimum_or_max heap)); [apply checks_adjusted; lia|apply checks_added].
Qed.
End checks.
Lemma emits_always_traps b c : traps b c tr ->
  emits (always_traps env t) b true tr (fun r _ => r = Unreachable).
Proof.
  intros Ht. unfold always_traps, before_unconditionally_trapping_memory_access.
  eapply emits_bind with (c := c) (P := fun _ _ => True).
  { destruct (consume_fuel _); [|by apply emits_ret]. rewrite <- (orb_false_r c). by apply emits_append. }
  intros [] b1 H1 Ht1 _. eapply emits_bind; [by apply (emits_trap env machine allowed Hallowed e0 t b1 c tr Htr Ht1 pointer_word)|].
  intros [] b2 H2 Ht2 _. by apply emits_ret.
Qed.

(** The translation of an access: an address under [verdict], or no code after it. *)
Definition addressed (p : bool * Z) (r : Reachability) (b : Builder) : Prop :=
  match r with Reachable a => value b a pointer p.2 | Unreachable => p.1 = true end.

(** A translation whose address is as [verdict] says. *)
Definition checked (c0 : bool) (idx : Z) (m : B Reachability) (b : Builder) : Prop :=
  exists p, (c0 = false -> verdict idx offset os p.1 p.2) /\
    emits m b (c0 || p.1) tr (addressed (c0 || p.1, p.2)).

Section field_access.
Context (c0 : bool) (idx : Z) (b : Builder) (w : Value).
Context (Hidx : 0 <= idx) (Hw : value b w pointer (idx mod 2 ^ W)) (Ht : traps b (c0 || (2 ^ W <=? idx)) tr).

Lemma verdict_cast c A : (idx < 2 ^ W -> verdict (idx mod 2 ^ W) offset os c A) ->
  verdict idx offset os ((2 ^ W <=? idx) || c) A.
Proof.
  intros Hver. pose proof bound_lt. pose proof os_nonneg. destruct (Z.leb_spec (2 ^ W) idx) as [?|Hlt].
  - unfold verdict. rewrite (proj2 (Z.leb_gt _ _)) by lia. by left.
  - specialize (Hver Hlt). by rewrite Z.mod_small in Hver by lia.
Qed.

Lemma checked_always : bound < idx + os -> checked c0 idx (always_traps env t) b.
Proof.
  intros Hlt. exists (true, 0). split; cbn [fst snd].
  - intros _. unfold verdict. rewrite (proj2 (Z.leb_gt _ _)) by lia. by left.
  - rewrite orb_true_r. eapply emits_mono; [|by eapply emits_always_traps]. by intros r b' ->.
Qed.

Lemma checked_unchecked : (idx < 2 ^ W ->
    idx + os <= bound \/ (can_use_virtual_memory env heap = true /\ idx + os <= h_region h)) ->
  checked c0 idx (a <- compute_addr env w offset ;; ret (Reachable a)) b.
Proof.
  intros Hin. exists (2 ^ W <=? idx, base + idx mod 2 ^ W + offset). split; cbn [fst snd].
  - intros _. rewrite <- (orb_false_r (2 ^ W <=? idx)). apply verdict_cast. intros Hlt. specialize (Hin Hlt).
    rewrite Z.mod_small by lia. unfold verdict. destruct (Z.leb_spec (idx + os) bound); [done|].
    destruct Hin as [?|[? ?]]; [lia|auto].
  - eapply emits_bind; [by apply emits_compute_addr|]. intros a b1 _ Ht1 Ha. by apply emits_ret.
Qed.

Lemma checked_checked : os < 2 ^ W ->
  checked c0 idx (a <- checked_access env heap w offset os t ;; ret (Reachable a)) b.
Proof.
  intros Hlt. destruct W_cases as [EW|EW];
  (destruct (emits_checked_access w (idx mod 2 ^ W) b (c0 || (2 ^ W <=? idx))) as (c & A & Hver & Hem);
    [done|apply Z.mod_pos_bound; lia|done|done|]);
  (exists ((2 ^ W <=? idx) || c, A); split; [by intros _; apply verdict_cast|]; cbn [fst snd]; rewrite !orb_assoc;
   eapply emits_bind; [exact Hem|]; intros a b1 _ Ht1 Ha; by apply emits_ret).
Qed.
End field_access.

Lemma emits_field_access v idx b c0 : value b v (index_type heap) idx -> 0 <= idx < 2 ^ lt_bits (index_type heap) ->
  (forall i, constant_index v b = Some i -> i = idx) -> traps b c0 tr -> (W < lt_bits (index_type heap) -> allowed = true) ->
  checked c0 idx (bounds_check_field_access env heap v offset size t) b.
Proof.
  intros Hv Hidx Hconst Ht Hal. pose proof bound_lt as Hb. pose proof W_cases as HW. pose proof os_nonneg as Hos.
  pose proof maximum_ge as Hmax. pose proof minimum_or_max_le as Hmin.
  assert (statically_in_bounds heap v os b = true -> idx + os <= bound) as Hstatic.
  { unfold statically_in_bounds. destruct (constant_index v b) as [i|] eqn:Ei; [|done]. simpl.
    rewrite (Hconst i) by done. unfold checked_add. case_match; [|done]. simpl. intros ?%Z.leb_le. lia. }
  unfold bounds_check_field_access. set (static := statically_in_bounds heap v os b) in Hstatic.
  apply (emits_bind_ex _ _ _ _ _ _ b c0 (fun p : bool * Z => c0 || p.1) tr (fun q b' => b' = b /\ q = static)
    (fun p => c0 = false -> verdict idx offset os p.1 p.2) (fun p => addressed (c0 || p.1, p.2))); [by apply emits_ret|]. intros q ? _ _ [-> ->].
  eapply emits_bind_ex; [by apply emits_cast; [unfold index_type; destruct (Memory.idx_type _); auto|..]|].
  intros w b' Hext Htw Hw. cbn beta in Hw.
  destruct (Z.ltb_spec (default u64_MAX (Memory.maximum_byte_size (memory heap))) os);
    [apply checked_always; auto; lia|].
  destruct (_ && (Z.shiftl 1 W <=? os)) eqn:E1.
  { apply andb_prop in E1 as [_ ?%Z.leb_le]. rewrite Z.shiftl_1_l in *. apply checked_always; auto; lia. }
  assert (os < 2 ^ W) as Hos'.
  { destruct HW as [EW|EW]; rewrite EW in *; [apply Z.leb_gt in E1; exact E1|unfold offset_plus_size, u32_MAX, u8_MAX in *; lia]. }
  destruct (elides_total os Hos ltac:(lia)) as (e & -> & He). apply (emits_bind_ex _ _ _ _ _ _ b' (c0 || (2 ^ W <=? idx))
    (fun p : bool * Z => c0 || p.1) tr (fun q b'' => b'' = b' /\ q = e)
    (fun p => c0 = false -> verdict idx offset os p.1 p.2) (fun p => addressed (c0 || p.1, p.2))); [by apply emits_ret|].
  intros q ? _ _ [-> ->]. destruct e; [|destruct static].
  - destruct (He eq_refl) as (Ei & Evm & ?). rewrite Ei, Evm. apply checked_unchecked; [lia|done..|].
    rewrite Ei in Hidx. cbn [lt_bits] in Hidx. right. split; [done|lia].
  - apply checked_unchecked; auto; lia.
  - apply checked_checked; auto; lia.
Qed.
End emission.

(** ** Accesses under a verdict *)

Section accesses.
Context (env : FuncEnvironment) (heap : HeapData) (h : HeapMemory).
Context (Htarget : target_ok env) (Hheap : heap_ok env heap h).

Lemma find_all (p : Z -> bool) l : (forall a, a ∈ l -> p a = true) -> List.find (fun a => negb (p a)) l = None.
Proof.
  intros Hp. destruct (List.find _ l) as [a|] eqn:E; [|done]. apply List.find_some in E as [Hin Hn].
  rewrite (Hp a) in Hn by (by apply list_elem_of_In). done.
Qed.

Lemma find_some_bad (p : Z -> bool) l a : a ∈ l -> p a = false -> exists a',
  List.find (fun a => negb (p a)) l = Some a' /\ a' ∈ l /\ p a' = false.
Proof.
  intros Hin Hp. destruct (List.find _ l) as [a'|] eqn:E.
  - apply List.find_some in E as [? ?%negb_true_iff]. exists a'. by rewrite list_elem_of_In.
  - apply list_elem_of_In, (List.find_none _ _ E) in Hin. cbn beta in Hin. by rewrite Hp in Hin.
Qed.

Lemma access_in addr size : 0 < size -> h_base h <= addr -> addr + size <= h_base h + h_bound h ->
  access env h addr size = Accessed addr.
Proof.
  intros Hs Ha Hb. destruct (ho_base _ _ _ Hheap) as [? _].
  assert (forall a, a ∈ seqZ addr size -> accessible h a = true) as Hall.
  { intros a ?%elem_of_seqZ. apply (ho_mapped _ _ _ Hheap). lia. }
  unfold access, pulley_access, native_access. rewrite find_all by done.
  destruct (is_pulley env); [|done]. rewrite (proj2 (Z.eqb_neq _ _)) by lia.
  assert (forallb (accessible h) (seqZ addr size) = true) as ->; [|done].
  apply forallb_forall. intros a ?%list_elem_of_In. auto.
Qed.

Lemma access_null size : 0 < size -> access env h 0 size = AccessTrap.
Proof.
  intros Hs. unfold access. destruct (is_pulley env) eqn:Ep; [done|]. unfold native_access.
  rewrite seqZ_cons by lia. cbn [List.find]. by rewrite (ho_null _ _ _ Hheap 0 Ep) by lia.
Qed.

(** An access that ends in the guard of a memory whose bounds are virtual. *)
Lemma access_fault addr size : can_use_virtual_memory env heap = true -> 0 < size -> h_base h <= addr ->
  h_base h + h_bound h < addr + size -> addr + size <= h_base h + h_region h ->
  (kind heap = LinearMemory -> access env h addr size = AccessTrap) /\
  (access env h addr size = AccessTrap \/ access env h addr size = AccessAbort).
Proof.
  intros Hvm Hs Ha Hb Hr. destruct (virtual_native env heap Htarget Hvm) as [Ep _].
  destruct (ho_region _ _ _ Hheap Hvm) as [_ Hno].
  destruct (find_some_bad (accessible h) (seqZ addr size) (addr + size - 1)) as (a' & E & Hin & _).
  - apply elem_of_seqZ. lia.
  - apply Hno. lia.
  - unfold access, native_access. rewrite Ep, E. split; [|destruct (wasm_fault h a'); auto].
    intros Ek. apply elem_of_seqZ in Hin. unfold wasm_fault. rewrite (ho_kind _ _ _ Hheap), Ek.
    rewrite (proj2 (Z.leb_le (h_base h) a')), (proj2 (Z.ltb_lt a' _)) by lia. by rewrite orb_true_r.
Qed.

Section verdicts.
Context (vmctx : Z) (e0 : gmap nat DataValue) (allowed : bool) (t : Z) (tr : option CompiledTrap).
Context (Htr : clif_trap_to_env_trap t (tunables env) = Some tr).
Context (idx offset size : Z) (c : bool) (A : Z) (r : Reachability) (b : Builder).
Context (Hidx : 0 <= idx) (Hoff : 0 <= offset) (Hsize : 0 < size).
Context (Ht : traps env (machine_of vmctx h) e0 allowed b c tr).

(** Code that yields an address with a verdict, and the access. *)
Lemma behaviour_verdict : kind heap = LinearMemory ->
  verdict env heap h idx offset (offset_plus_size offset size) c A ->
  addressed env h vmctx e0 (c, A) r b ->
  behaviour env vmctx h e0 t size r b =
    if idx + offset + size <=? h_bound h then Touches (h_base h + idx + offset) else Traps tr.
Proof.
  intros Hk Hver Ha. destruct (ho_base _ _ _ Hheap), (ho_bound _ _ _ Hheap).
  pose proof (pointer_word env Htarget) as (_ & _ & HW)%word_facts.
  unfold verdict, offset_plus_size in Hver. rewrite Z.add_assoc in Hver. unfold behaviour, outcome_of.
  destruct (bool_cases c) as [Ec|Ec]; rewrite Ec in *; cbn [traps] in Ht.
  { destruct Ht as (n & -> & _). destruct (idx + offset + size <=? h_bound h); [|done]. by destruct Hver. }
  destruct Ht as [e He]. rewrite He. destruct r as [v|]; [|done]. rewrite (proj2 Ha e None He). unfold uval.
  cbn [snd]. rewrite wrap_swrap by lia. rewrite Htr. destruct (Z.leb_spec (idx + offset + size) (h_bound h)).
  - destruct Hver as [_ ->]. rewrite wrap_small by lia. rewrite access_in by lia. do 2 f_equal.
  - destruct Hver as [?|[[-> _]|(Hvm & -> & ?)]]; [done|by rewrite wrap_small, access_null by lia|].
    rewrite wrap_small by (done || lia). by rewrite (proj1 (access_fault (h_base h + idx + offset) size Hvm ltac:(lia) ltac:(lia)
      ltac:(lia) ltac:(lia)) Hk).
Qed.

(** What an access to a field may do: its bytes are in the heap. *)
Definition object_access (checked_end : Z) (addr : Z) (o : Behaviour) : Prop :=
  if checked_end <=? h_bound h then o = Touches (h_base h + addr)
  else o = Traps tr \/ o = Aborts \/ (addr + size <= h_bound h /\ o = Touches (h_base h + addr)).

(** The same for a displacement [d] added to the address afterwards. *)
Lemma behaviour_displaced os d : is_pulley env = false -> 0 <= os -> 0 <= idx + offset + d -> offset + d + size <= os ->
  - 2 ^ 32 <= d < 4096 -> verdict env heap h idx offset os c A ->
  addressed env h vmctx e0 (c, A + d) r b ->
  object_access (idx + os) (idx + offset + d) (behaviour env vmctx h e0 t size r b).
Proof.
  intros Hnat Hos0 Hd Hos Hd' Hver Ha. destruct (ho_base _ _ _ Hheap) as [Hb0 Hb1], (ho_bound _ _ _ Hheap).
  rewrite (tg_native _ Htarget Hnat) in Hb1. cbn [lt_bits] in Hb1. unfold verdict in Hver. unfold object_access, behaviour, outcome_of.
  destruct (bool_cases c) as [Ec|Ec]; rewrite Ec in *; cbn [traps] in Ht.
  { destruct Ht as (n & -> & _). destruct (idx + os <=? h_bound h); [by destruct Hver|by left]. }
  destruct Ht as [e He]. rewrite He. destruct r as [v|]; [|done]. rewrite (proj2 Ha e None He). unfold uval.
  cbn [snd]. rewrite (tg_native _ Htarget Hnat). cbn [lt_bits]. rewrite wrap_swrap by lia. rewrite Htr.
  assert (0 <= h_base h + (idx + offset + d)) by lia.
  assert (forall a, a = wrap 64 (A + d) -> accessible h a = false -> exists o,
    access env h (wrap 64 (A + d)) size = o /\ (o = AccessTrap \/ o = AccessAbort)) as Hbad.
  { intros a -> Hno. unfold access, native_access. rewrite Hnat. rewrite seqZ_cons by lia. cbn [List.find]. rewrite Hno.
    cbn [negb]. eexists. split; [done|]. destruct (wasm_fault h _); auto. }
  destruct (Z.leb_spec (idx + os) (h_bound h)).
  - destruct Hver as [_ ->]. rewrite <- !Z.add_assoc. rewrite wrap_small by lia. by rewrite access_in by lia.
  - destruct Hver as [?|[[-> _]|(Hvm & -> & ?)]]; [done| |].
    + destruct (Hbad (wrap 64 (0 + d)) eq_refl) as (o & -> & [-> | ->]); [|by left|by right; left].
      apply (ho_null _ _ _ Hheap _ Hnat). unfold wrap. rewrite Z.add_0_l. destruct (decide (0 <= d)).
      * rewrite Z.mod_small by lia. lia.
      * right. rewrite <- (Z.mod_unique d (2 ^ 64) (-1) (d + 2 ^ 64)); lia.
    + rewrite <- !Z.add_assoc, !(Z.add_assoc idx). rewrite wrap_small by lia.
      destruct (Z.leb_spec (idx + offset + d + size) (h_bound h)); [rewrite access_in by lia; right; right; split; [lia|done]|].
      destruct (access_fault (h_base h + (idx + offset + d)) size Hvm ltac:(lia) ltac:(lia)) as [_ [-> | ->]];
        [lia..|by left|by right; left].
Qed.
End verdicts.
End accesses.

(** ** The index of an access with a large offset *)

Lemma conditionally_trap_dfg env c t b :
  match conditionally_trap env c t b with Ret _ b' => dfg b `prefix_of` dfg b' | _ => True end.
Proof.
  unfold conditionally_trap, trap, rust_assert, bind, in_cold_block. destruct (negb _); [|done]. cbn -[clif_trap_to_env_trap].
  destruct (clif_trap_to_env_trap t (tunables env)) as [[ct|]|], (clif_instruction_traps_enabled env); cbn;
    try (by exists []; rewrite app_nil_r); try done.
  destruct (as_u8 ct); cbn; [|done]. rewrite <- app_assoc. by eexists.
Qed.

Lemma native_uadd_not_constant u v t b w b' : ins.uadd_overflow_trap u v t b = Ret w b' -> constant_index w b' = None.
Proof.
  unfold ins.uadd_overflow_trap, ins.binary, value_type. unfold bind at 1.
  cbn. destruct (dfg b !! u) as [d|]; cbn; [|done]. intros [= <- <-]. unfold constant_index. cbn [dfg].
  by rewrite lookup_app_r, Nat.sub_diag by lia.
Qed.

Lemma uadd_overflow_trap_not_constant env u v t b w b' :
  uadd_overflow_trap env u v t b = Ret w b' -> constant_index w b' = None.
Proof.
  unfold uadd_overflow_trap. destruct (clif_instruction_traps_enabled env); [apply native_uadd_not_constant|].
  unfold ins.uadd_overflow, value_type.
  unfold bind, get, ret, unwrap, new_value, append. cbn -[conditionally_trap].
  destruct (dfg b !! u) as [d|]; cbn -[conditionally_trap]; [|by intros].
  match goal with |- context [conditionally_trap env ?c t ?b1] =>
      pose proof (conditionally_trap_dfg env c t b1) as Hp;
      destruct (conditionally_trap env c t b1) as [[] b2|[]|]; [|done] end.
    intros [= <- <-]. destruct Hp as [k Hk]. unfold constant_index. rewrite Hk. cbn [dfg]. rewrite <- !app_assoc.
    by rewrite lookup_app_r, Nat.sub_diag by lia.
Qed.

(** ** What accesses do *)

Lemma heap_oob_trap tn : clif_trap_to_env_trap TrapCode.HEAP_OUT_OF_BOUNDS tn = Some (Some (Normal MemoryOutOfBounds)).
Proof. reflexivity. Qed.

Section memory_accesses.
Context (env : FuncEnvironment) (heap : HeapData) (h : HeapMemory) (vmctx : Z) (e0 : gmap nat DataValue).
Context (Htarget : target_ok env) (Hheap : heap_ok env heap h) (Hkind : kind heap = LinearMemory).
Abbreviation machine := (machine_of vmctx h).
Abbreviation narrow := (lt_bits (pointer_type env) <? lt_bits (index_type heap)).

(** Trapping instructions are used where the configuration allows it, or on a
    32-bit host for the upper half of a 64-bit index. *)
Definition allowed_traps : bool := clif_instruction_traps_enabled env || narrow.

(** What the program sees of an access: in bounds, or the trap. *)
Definition wasm_access (t : option CompiledTrap) (addr size : Z) : Behaviour :=
  if addr + size <=? h_bound h then Touches (h_base h + addr) else Traps t.

(** Native traps with a meaning are raised only where they are allowed. *)
Definition native_traps_allowed (b : Builder) : Prop :=
  forall t, outcome_of env machine e0 b = Raised true (Some t) -> allowed_traps = true.

Lemma static_offset_behaviour t tr v idx offset size b c0 :
  clif_trap_to_env_trap t (tunables env) = Some tr ->
  0 <= offset <= u32_MAX -> 0 < size <= u8_MAX -> 0 <= idx < 2 ^ lt_bits (index_type heap) ->
  value env machine e0 b v (index_type heap) idx -> (forall i, constant_index v b = Some i -> i = idx) ->
  traps env machine e0 allowed_traps b c0 tr ->
  match bounds_check_and_compute_addr env heap v (StaticOffset offset size) t b with
  | Ret r b' =>
      behaviour env vmctx h e0 t size r b' = (if c0 then Traps tr else wasm_access tr (idx + offset) size) /\
      native_traps_allowed b'
  | _ => False
  end.
Proof.
  intros Htr Hoff Hsize Hidx Hv Hconst Ht. cbn [bounds_check_and_compute_addr].
  assert (checked env heap h vmctx e0 allowed_traps tr offset size c0 idx
    (bounds_check_field_access env heap v offset size t) b) as (p & Hver & Hem).
  { apply emits_field_access; try done; [|lia|].
    - intros En. unfold allowed_traps. by rewrite En.
    - intros Hlt. unfold allowed_traps. rewrite (proj2 (Z.ltb_lt _ _) Hlt). apply orb_true_r. }
  unfold emits, wp in Hem. destruct (bounds_check_field_access env heap v offset size t b) as [r b'|?|]; [|done..].
  destruct Hem as (_ & Ht' & Ha). unfold wasm_access. rewrite Z.add_assoc. split.
  - destruct c0; [|by eapply behaviour_verdict; [..|exact Ht'|exact Hkind|apply Hver|exact Ha]; try done; lia].
    destruct Ht' as (n & E & _). unfold behaviour, outcome_of. by rewrite E.
  - intros tc E. unfold outcome_of in E. destruct (c0 || p.1); simpl in Ht'.
    + destruct Ht' as (n & E' & Hn). rewrite E in E'. injection E' as <- <-. by destruct (Hn eq_refl).
    + destruct Ht'. congruence.
Qed.
(** The index of an access with an offset of more than 32 bits. *)
Lemma emits_large_offset v idx offset b : index_type heap = I64 -> 0 <= offset <= u64_MAX -> 0 <= idx < 2 ^ 64 ->
  value env machine e0 b v I64 idx -> traps env machine e0 allowed_traps b false (Some (Normal MemoryOutOfBounds)) ->
  emits env machine e0 allowed_traps
    (o <- ins.iconst I64 offset ;; uadd_overflow_trap env v o TrapCode.HEAP_OUT_OF_BOUNDS) b
    (2 ^ 64 <=? idx + offset) (Some (Normal MemoryOutOfBounds))
    (fun w b' => value env machine e0 b' w I64 ((idx + offset) mod 2 ^ 64) /\ constant_index w b' = None).
Proof.
  intros Hi Hoff Hidx Hv Ht.
  assert (word I64) as H64 by (by right; right). assert (clif_instruction_traps_enabled env = true -> allowed_traps = true) as Hal.
  { intros En. unfold allowed_traps. by rewrite En. }
  assert (word (pointer_type env)) as Hp by by apply pointer_word.
  eapply emits_bind; [by apply emits_iconst|]. intros o b1 H1 Ht1 Ho.
  assert (value env machine e0 b1 v I64 idx) as Hv1 by by apply H1.
  pose proof (emits_uadd_overflow_trap env machine allowed_traps Hal e0 TrapCode.HEAP_OUT_OF_BOUNDS _ (heap_oob_trap _) Hp
    I64 idx offset v o b1 false H64 Hv1 Ho Ht1 ltac:(done) ltac:(unfold u64_MAX in *; simpl; lia)) as Hem.
  unfold emits, wp in Hem |- *.
  destruct (uadd_overflow_trap env v o TrapCode.HEAP_OUT_OF_BOUNDS b1) as [w b2|?|] eqn:E; [|done..].
  destruct Hem as (? & ? & Hw). do 2 (split; [done|]).
  split; [exact (value_mod _ _ _ _ _ I64 _ Hw)|by eapply uadd_overflow_trap_not_constant].
Qed.
End memory_accesses.

(** A translated access, at any point of a function. *)
Lemma prepare_addr_behaviour env heap h vmctx e0 v idx offset size b :
  target_ok env -> heap_ok env heap h -> kind heap = LinearMemory -> 0 <= offset <= u64_MAX -> (index_type heap = I32 -> offset <= u32_MAX) ->
  0 < size <= u8_MAX -> 0 <= idx < 2 ^ lt_bits (index_type heap) ->
  value env (machine_of vmctx h) e0 b v (index_type heap) idx -> (forall i, constant_index v b = Some i -> i = idx) ->
  (exists values, outcome_of env (machine_of vmctx h) e0 b = Running values None) ->
  match prepare_addr env heap v offset size b with
  | Ret r b' =>
      behaviour env vmctx h e0 TrapCode.HEAP_OUT_OF_BOUNDS size r b' =
        wasm_access h (Some (Normal MemoryOutOfBounds)) (idx + offset) size /\
      native_traps_allowed env heap h vmctx e0 b'
  | _ => False
  end.
Proof.
  intros Htg Hh Hk Hoff H32 Hsize Hidx Hv Hconst Ht. unfold prepare_addr, try_from.
  pose proof (heap_oob_trap (tunables env)) as Htr. pose proof (bound_lt env heap h Hh). pose proof (W_cases env Htg).
  destruct (bool_cases ((0 <=? offset) && (offset <=? u32_MAX))) as [E|E]; rewrite E.
  { apply andb_prop in E as [_ ?%Z.leb_le].
    apply (static_offset_behaviour env heap h vmctx e0 Htg Hh Hk _ _ v idx offset size b false Htr); auto; lia. }
  rewrite (proj2 (Z.leb_le 0 offset)) in E by lia. apply Z.leb_gt in E.
  assert (index_type heap = I64) as Hi.
  { unfold index_type in *. destruct (Memory.idx_type (memory heap)); [by specialize (H32 eq_refl); lia|done]. }
  rewrite Hi in *. cbn [lt_bits] in Hidx.
  pose proof (emits_large_offset env heap h vmctx e0 Htg v idx offset b Hi Hoff Hidx Hv Ht) as Hem.
  unfold emits, wp in Hem. unfold bind in Hem |- *.
  destruct (ins.iconst I64 offset b) as [o b1|?|]; [|done..].
  destruct (uadd_overflow_trap env v o TrapCode.HEAP_OUT_OF_BOUNDS b1) as [w b2|?|]; [|done..].
  destruct Hem as (_ & Ht2 & Hw & Hc).
  pose proof (static_offset_behaviour env heap h vmctx e0 Htg Hh Hk _ _ w ((idx + offset) mod 2 ^ 64) 0 size b2
    (2 ^ 64 <=? idx + offset) Htr) as Hs.
  rewrite Hi in Hs. specialize (Hs ltac:(done) Hsize ltac:(by apply Z.mod_pos_bound) Hw ltac:(by rewrite Hc) Ht2).
  destruct (bounds_check_and_compute_addr env heap w (StaticOffset 0 size) _ b2) as [r b'|?|]; [|done..].
  destruct Hs as [-> Hn]. split; [|done]. unfold wasm_access. rewrite Z.add_0_r.
  destruct (Z.leb_spec (2 ^ 64) (idx + offset)) as [Hbig|]; [|by rewrite Z.mod_small by lia].
  rewrite (proj2 (Z.leb_gt _ _)) by (destruct H0 as [E0|E0]; rewrite E0 in *; lia). done.
Qed.


(** ** Fields of GC objects *)

Section objects.
Context (env : FuncEnvironment) (heap : HeapData) (h : HeapMemory) (vmctx : Z) (e0 : gmap nat DataValue).
Context (Htarget : target_ok env) (Hheap : heap_ok env heap h) (Hnative : is_pulley env = false).
Context (Hindex : index_type heap = I32).
Context (t : Z) (tr : option CompiledTrap) (Htr : clif_trap_to_env_trap t (tunables env) = Some tr).
Abbreviation machine := (machine_of vmctx h).
Abbreviation value := (value env machine e0).
Abbreviation traps := (traps env machine e0 true).
Abbreviation emits := (emits env machine e0 true).
Abbreviation pointer := (pointer_type env).

Lemma native_pointer : pointer = I64.
Proof. by apply (tg_native _ Htarget). Qed.

Lemma emits_object_check v idx offset size b c0 : value b v I32 idx -> 0 <= idx < 2 ^ 32 ->
  (forall i, constant_index v b = Some i -> i = idx) -> traps b c0 tr -> 0 <= offset <= u32_MAX -> 0 <= size <= u8_MAX ->
  checked env heap h vmctx e0 true tr offset size c0 idx (bounds_check_field_access env heap v offset size t) b.
Proof.
  intros Hv Hidx Hc Ht Hoff Hsize. apply emits_field_access; try done; rewrite Hindex; done.
Qed.

(** Moving the address that a check gave. *)
Lemma checked_displaced offset size c0 idx m (k : Value -> B Reachability) d b :
  checked env heap h vmctx e0 true tr offset size c0 idx m b ->
  (forall a A c b', extends env machine e0 b b' -> value b' a pointer A -> traps b' c tr ->
     emits (k a) b' c tr (addressed env h vmctx e0 (c, A + d))) ->
  match (r <- m ;; match r with Reachable p => k p | Unreachable => ret Unreachable end) b with
  | Ret r b' => exists c A, (c0 = false -> verdict env heap h idx offset (offset_plus_size offset size) c A) /\
      traps b' (c0 || c) tr /\ addressed env h vmctx e0 (c0 || c, A + d) r b'
  | _ => False
  end.
Proof.
  intros ([c A] & Hver & Hem) Hk. unfold Emit.emits, wp in Hem. unfold bind.
  destruct (m b) as [r b1|?|]; [|done..]. cbn [fst snd] in *. destruct Hem as (Hext & Ht & Ha). destruct r as [p|].
  - specialize (Hk p A (c0 || c) b1 Hext Ha Ht). unfold Emit.emits, wp in Hk.
    destruct (k p b1) as [f b2|?|]; [|done..]. destruct Hk as (_ & Ht2 & Hf). exists c, A. auto.
  - exists c, A. split_and!; auto.
Qed.

Lemma object_access_mono size e e' addr o : e <= e' -> addr + size <= e ->
  object_access h tr size e addr o -> object_access h tr size e' addr o.
Proof.
  unfold object_access. intros ? ?. destruct (Z.leb_spec e (h_bound h)), (Z.leb_spec e' (h_bound h)); try lia; auto.
  intros ->. right. right. split; [lia|done].
Qed.

Section field.
Context (idx size : Z) (v : Value) (b : Builder).
Context (Hv : value b v I32 idx) (Hidx : 0 <= idx < 2 ^ 32) (Ht : traps b false tr) (Hsize : 0 < size <= u8_MAX).
Abbreviation result addr last r b' :=
  (object_access h tr size last addr (behaviour env vmctx h e0 t size r b')).

Lemma static_object_unfold offset object_size : 0 <= offset -> offset + size <= object_size <= u32_MAX ->
  bounds_check_and_compute_addr env heap v (StaticObjectField offset size object_size) t =
  match try_from u8_MAX object_size with
  | Some object_size =>
      r <- bounds_check_field_access env heap v 0 object_size t ;;
      match r with
      | Reachable p => o <- ins.iconst pointer offset ;; f <- ins.iadd p o ;; ret (Reachable f)
      | Unreachable => ret Unreachable
      end
  | None => bounds_check_field_access env heap v offset size t
  end.
Proof.
  intros Hoff Hobj. cbn [bounds_check_and_compute_addr].
  rewrite (proj2 (checked_add_Some u32_MAX offset size (offset + size))) by lia.
  unfold unwrap. change (bind (ret (offset + size)) ?k) with (k (offset + size)). cbn beta.
  by rewrite (proj2 (Z.leb_le _ object_size)) by lia.
Qed.

(** A checked translation whose address is moved by [d], and the access. *)
Lemma displaced_access x offset sz c0 m k d b1 : 0 <= x -> 0 <= offset -> 0 <= offset + sz ->
  (c0 = false -> 0 <= x + offset + d) -> d + size <= sz -> - 2 ^ 32 <= d < 4096 ->
  checked env heap h vmctx e0 true tr offset sz c0 x m b1 ->
  (forall a A c b', extends env machine e0 b1 b' -> value b' a pointer A -> traps b' c tr ->
     emits (k a) b' c tr (addressed env h vmctx e0 (c, A + d))) ->
  match (r <- m ;; match r with Reachable p => k p | Unreachable => ret Unreachable end) b1 with
  | Ret r b' => if c0 then behaviour env vmctx h e0 t size r b' = Traps tr
                else object_access h tr size (x + offset + sz) (x + offset + d) (behaviour env vmctx h e0 t size r b')
  | _ => False
  end.
Proof.
  intros Hx Hoff Hos Hd Hsz Hd' Hm Hk. pose proof (checked_displaced offset sz c0 x m k d b1 Hm Hk) as H.
  destruct (bind _ _ b1) as [r b'|?|]; [|done..]. destruct H as (c & A & Hver & Ht' & Ha).
  destruct (bool_cases c0) as [E|E]; rewrite E in *.
  - destruct Ht' as (n & Er & _). unfold behaviour, outcome_of. by rewrite Er.
  - rewrite <- Z.add_assoc. apply (behaviour_displaced env heap h Htarget Hheap vmctx e0 true t tr Htr x offset size c A r b');
      try done; try (unfold offset_plus_size in *; lia).
    all: auto.
Qed.

Lemma static_object_field offset object_size : (forall i, constant_index v b = Some i -> i = idx) ->
  0 <= offset -> offset + size <= object_size <= u32_MAX ->
  match bounds_check_and_compute_addr env heap v (StaticObjectField offset size object_size) t b with
  | Ret r b' => result (idx + offset) (idx + object_size) r b'
  | _ => False
  end.
Proof.
  intros Hc Hoff Hobj. rewrite static_object_unfold by done. pose proof native_pointer as Hp.
  assert (word pointer) as Hw by (rewrite Hp; by right; right). destruct (decide (object_size <= u8_MAX)) as [Hle|Hgt].
  - rewrite try_from_in by lia.
    pose proof (displaced_access idx 0 object_size false (bounds_check_field_access env heap v 0 object_size t)
      (fun p => o <- ins.iconst pointer offset ;; f <- ins.iadd p o ;; ret (Reachable f)) offset b) as Hd.
    rewrite Z.add_0_r in Hd. apply Hd; try lia; [unfold u8_MAX in *; lia|apply emits_object_check; done || lia|].
    intros a A c b' _ HA Htb. eapply emits_bind; [by apply emits_iconst|]. intros o b1 H1 Ht1 Ho.
    eapply emits_bind; [by apply (emits_iadd _ _ _ _ pointer A offset a o); [|apply H1|..]|].
    intros f b2 H2 Ht2 Hf. by apply emits_ret.
  - assert (try_from u8_MAX object_size = None) as ->.
    { unfold try_from. by rewrite (proj2 (Z.leb_gt object_size u8_MAX)), andb_false_r by lia. }
    destruct (emits_object_check v idx offset size b false Hv Hidx Hc Ht ltac:(lia) ltac:(lia)) as ([c A] & Hver & Hem).
    unfold Emit.emits, wp in Hem. destruct (bounds_check_field_access env heap v offset size t b) as [r b'|?|]; [|done..].
    destruct Hem as (_ & Ht' & Ha). apply (object_access_mono size (idx + (offset + size))); [lia..|].
    rewrite <- (Z.add_0_r (idx + offset)). rewrite <- (Z.add_0_r A) in Ha.
    apply (behaviour_displaced env heap h Htarget Hheap vmctx e0 true t tr Htr idx offset size c A r b');
      try done; try lia. by apply Hver.
Qed.

Lemma value_type_run w l x b' : value b' w l x -> value_type w b' = Ret l b'.
Proof. intros [[d Hd] _]. unfold value_type, bind, get, unwrap. cbn. by rewrite Hd. Qed.

(** The field behind the end of an object. *)
Definition field_of (o u p : Value) : B Reachability :=
  d <- ins.isub u o ;; d <- cast_index_to_pointer_ty d I32 pointer t ;; f <- ins.isub p d ;; ret (Reachable f).

Lemma emits_field_of o u p off osz A c b' : value b' o I32 off -> value b' u I32 osz -> 0 <= off -> off <= osz < 2 ^ 32 ->
  value b' p pointer A -> traps b' c tr ->
  emits (field_of o u p) b' c tr (addressed env h vmctx e0 (c, A + (off - osz))).
Proof.
  intros Ho Hu Hoff Hosz Hp Ht'. pose proof native_pointer as En. unfold field_of.
  assert (word I32) as W32 by (right; by left). assert (word pointer) as Wp by (rewrite En; by right; right).
  eapply emits_bind; [by apply (emits_isub _ _ _ _ I32 osz off u o)|]. intros d b1 H1 Ht1 Hd.
  eapply emits_bind with (c := c).
  { rewrite <- (orb_false_r c). replace false with (2 ^ lt_bits pointer <=? osz - off) by (rewrite En; apply Z.leb_gt; cbn [lt_bits]; lia).
    apply (emits_cast env h vmctx e0 Htarget true ltac:(done) t tr Htr d I32 (osz - off) b1 c); try done; [by left|cbn [lt_bits]; lia]. }
  intros d' b2 H2 Ht2 Hd'. cbn beta in Hd'.
  eapply emits_bind; [apply (emits_isub _ _ _ _ pointer A ((osz - off) mod 2 ^ lt_bits pointer) p d'); [done|by apply H2, H1|done|done]|].
  intros f b3 H3 Ht3 Hf. apply emits_ret; [done|]. cbn [addressed snd].
  rewrite En in Hf |- *. cbn [lt_bits] in Hf. rewrite Z.mod_small in Hf by lia. by replace (A + (off - osz)) with (A - (osz - off)) by lia.
Qed.

Lemma dynamic_object_unfold o off u osz : value b o I32 off -> value b u I32 osz ->
  bounds_check_and_compute_addr env heap v (DynamicObjectField o u) t b =
  (w <- ins.uadd_overflow_trap v u t ;;
   r <- bounds_check_field_access env heap w 0 0 t ;;
   match r with Reachable p => field_of o u p | Unreachable => ret Unreachable end) b.
Proof.
  intros Ho Hu. cbn [bounds_check_and_compute_addr]. rewrite Hindex. unfold field_of, bind, rust_assert.
  rewrite bool_decide_eq_true_2 by done. cbn [ret].
  rewrite (value_type_run _ _ _ _ Hv), bool_decide_eq_true_2 by done. cbn [ret].
  rewrite (value_type_run _ _ _ _ Ho), bool_decide_eq_true_2 by done. cbn [ret].
  by rewrite (value_type_run _ _ _ _ Hu), bool_decide_eq_true_2 by done.
Qed.

Lemma dynamic_object_field o off u osz : value b o I32 off -> value b u I32 osz ->
  0 <= off -> off + size <= osz < 2 ^ 32 -> (idx + osz = 2 ^ 32 -> h_bound h < 2 ^ 32) ->
  match bounds_check_and_compute_addr env heap v (DynamicObjectField o u) t b with
  | Ret r b' => result (idx + off) (idx + osz) r b'
  | _ => False
  end.
Proof.
  intros Ho Hu Hoff Hosz Hlast. pose proof native_pointer as Hp.
  assert (emits (ins.uadd_overflow_trap v u t) b (2 ^ 32 <=? idx + osz) tr (fun w b' =>
    value b' w I32 ((idx + osz) mod 2 ^ 32) /\ constant_index w b' = None /\ value b' u I32 osz /\ value b' o I32 off)) as Hw.
  { pose proof (emits_native_uadd_overflow_trap env machine true e0 t tr Htr I32 idx osz v u b false eq_refl
      ltac:(right; by left) Hv Hu Ht Hidx ltac:(cbn [lt_bits]; lia)) as Hadd. unfold Emit.emits, wp in Hadd |- *.
    destruct (ins.uadd_overflow_trap v u t b) as [w b1|?|] eqn:E; [|done..].
    destruct Hadd as ([Hpre Hext] & Htw & Hw). do 2 (split; [done|]).
    split_and!; [exact (value_mod _ _ _ _ _ I32 _ Hw)|by eapply native_uadd_not_constant|by apply Hext..]. }
  rewrite (dynamic_object_unfold o off u osz) by done. unfold Emit.emits, wp in Hw. unfold bind at 1.
  destruct (ins.uadd_overflow_trap v u t b) as [w b1|?|]; [|done..]. destruct Hw as (_ & Ht1 & Hw & Hc & Hu1 & Ho1).
  assert (0 <= (idx + osz) mod 2 ^ 32 < 2 ^ 32) as Hm by (apply Z.mod_pos_bound; lia).
  pose proof (displaced_access ((idx + osz) mod 2 ^ 32) 0 0 (2 ^ 32 <=? idx + osz)
    (bounds_check_field_access env heap w 0 0 t) (field_of o u) (off - osz) b1) as Hd.
  lapply Hd; [clear Hd; intros Hd|lia]. do 2 (lapply Hd; [clear Hd; intros Hd|lia]).
  lapply Hd; [clear Hd; intros Hd|intros ?%Z.leb_gt; rewrite Z.mod_small by lia; lia].
  do 2 (lapply Hd; [clear Hd; intros Hd|lia]).
  lapply Hd; [clear Hd; intros Hd|by apply emits_object_check; try done; rewrite Hc].
  lapply Hd; [clear Hd; intros Hd|intros a A c b' [_ Hext] HA Htb; apply emits_field_of; auto; lia].
  destruct (bind _ _ b1) as [r b'|?|]; [|done..]. destruct (Z.leb_spec (2 ^ 32) (idx + osz)).
  - rewrite Hd. unfold object_access. rewrite (proj2 (Z.leb_gt _ _)); [by left|].
    destruct (Memory.maximum_byte_size_32 _ (ho_type _ _ _ Hheap)) as (mx & Emx & ?).
    { unfold index_type in Hindex. by destruct (Memory.idx_type (memory heap)). }
    pose proof (ho_max _ _ _ Hheap _ Emx). destruct (decide (idx + osz = 2 ^ 32)); [specialize (Hlast ltac:(done))|]; lia.
  - rewrite Z.mod_small in Hd by lia.
    by replace (idx + osz + 0 + (off - osz)) with (idx + off) in Hd by lia; rewrite !Z.add_0_r in Hd.
Qed.
End field.
End objects.

(** What a check of an object's field says: the access of [size] bytes at [addr]
    is in an object that ends at [last]. *)
Definition object_field env h vmctx e0 (b : Builder) (idx size : Z) (check : BoundsCheck) (addr last : Z) : Prop :=
  match check with
  | StaticOffset _ _ => False
  | StaticObjectField off sz osz => sz = size /\ 0 <= off /\ off + size <= osz <= u32_MAX /\
      addr = idx + off /\ last = idx + osz
  | DynamicObjectField o u => exists off osz,
      value env (machine_of vmctx h) e0 b o I32 off /\ value env (machine_of vmctx h) e0 b u I32 osz /\
      0 <= off /\ off + size <= osz < 2 ^ 32 /\ (idx + osz = 2 ^ 32 -> h_bound h < 2 ^ 32) /\
      addr = idx + off /\ last = idx + osz
  end.

(** C27. An access to a field of a GC object from compiled code, in a heap that may be corrupt: the
    reference, the offset and the size are whatever the heap says.  If the whole
    object is in the heap, the access touches the field; otherwise it traps,
    ends the process, or touches bytes of the heap all the same: nothing outside the
    heap is ever read or written.  (Objects whose size is in the heap end below
    4GiB if the heap does not.) *)
Theorem object_field_safe env heap h vmctx e0 t tr v idx size check addr last b :
  target_ok env -> heap_ok env heap h -> is_pulley env = false -> index_type heap = I32 ->
  clif_trap_to_env_trap t (tunables env) = Some tr -> 0 < size <= u8_MAX -> 0 <= idx < 2 ^ 32 ->
  value env (machine_of vmctx h) e0 b v I32 idx -> (forall i, constant_index v b = Some i -> i = idx) ->
  (exists values, outcome_of env (machine_of vmctx h) e0 b = Running values None) ->
  object_field env h vmctx e0 b idx size check addr last ->
  match bounds_check_and_compute_addr env heap v check t b with
  | Ret r b' => object_access h tr size last addr (behaviour env vmctx h e0 t size r b')
  | _ => False
  end.
Proof.
  intros Htg Hh Hnat Hi Htr Hsize Hidx Hv Hc Ht Hf. destruct check as [|off sz osz|o u]; [done|..].
  - destruct Hf as (-> & ? & ? & -> & ->).
    by apply (static_object_field env heap h vmctx e0 Htg Hh Hnat Hi t tr Htr idx size v b Hv Hidx Ht Hsize off osz Hc).
  - destruct Hf as (off & osz & ? & ? & ? & ? & ? & -> & ->).
    by apply (dynamic_object_field env heap h vmctx e0 Htg Hh Hnat Hi t tr Htr idx size v b Hv Hidx Ht Hsize o off u osz).
Qed.

(** ** Configurations *)

(** The defaults of a 64-bit host, but for the reservation and the guard. *)
Definition host_tunables (reservation guard : Z) : Tunables :=
  mkTunables reservation guard (2 ^ 31) true reservation guard (2 ^ 31) true true true true false false false false true.
Definition host (reservation guard : Z) : FuncEnvironment := mkEnv (host_tunables reservation guard) false I64 12 true true.
Definition one_page (it : IndexType) : Memory.t := Memory.mkMemory it (Memory.mkLimits 1 None) false 16.

Definition at_1TiB (k : MemoryKind) (bound region : Z) : HeapMemory :=
  mkHeapMemory k (2 ^ 40) bound region (fun a => (2 ^ 40 <=? a) && (a <? 2 ^ 40 + bound)).

Definition param (l : LaneType) : Builder := mkBuilder [(l, None)] [].
Definition param_value (l : LaneType) (x : Z) : gmap nat DataValue := {[0%nat := uval l x]}.

Definition run_access (env : FuncEnvironment) (heap : HeapData) (h : HeapMemory) (idx offset size : Z) : Behaviour :=
  match prepare_addr env heap 0%nat offset size (param (index_type heap)) with
  | Ret r b => behaviour env 0 h (param_value (index_type heap) idx) TrapCode.HEAP_OUT_OF_BOUNDS size r b
  | _ => Wrong
  end.

(** The last bytes of a page, by guard pages, by checks and on Pulley. *)
Example access_runs :
  let big := at_1TiB LinearMemory 65536 (2 ^ 32 + 2 ^ 25) in
  let small := at_1TiB LinearMemory 65536 (2 ^ 20 + 4096) in
  let pulley := mkEnv no_signals true I64 12 true true in
  let oob := Traps (Some (Normal MemoryOutOfBounds)) in
  run_access (host (2 ^ 32) (2 ^ 25)) (mkHeap (one_page Idx32) LinearMemory) big 65532 0 4 = Touches (2 ^ 40 + 65532) /\
  run_access (host (2 ^ 32) (2 ^ 25)) (mkHeap (one_page Idx32) LinearMemory) big (2 ^ 32 - 1) 0 4 = oob /\
  run_access (host (2 ^ 20) 4096) (mkHeap (one_page Idx64) LinearMemory) small 65532 0 4 = Touches (2 ^ 40 + 65532) /\
  run_access (host (2 ^ 20) 4096) (mkHeap (one_page Idx64) LinearMemory) small 65532 1 4 = oob /\
  run_access (host (2 ^ 20) 4096) (mkHeap (one_page Idx64) LinearMemory) small (2 ^ 64 - 1) (2 ^ 64 - 1) 4 = oob /\
  run_access pulley (mkHeap (one_page Idx64) LinearMemory) small 65528 4 4 = Touches (2 ^ 40 + 65532) /\
  run_access pulley (mkHeap (one_page Idx64) LinearMemory) small 65528 5 4 = oob.
Proof. vm_compute. repeat split. Qed.

(** On Pulley with 32-bit pointers and without native traps, the upper half of a
    64-bit index still traps natively. *)
Example narrow_index_native :
  let env := mkEnv no_signals true I32 12 true true in
  let heap := mkHeap (one_page Idx64) LinearMemory in
  let h := mkHeapMemory LinearMemory 65536 65536 65536 (fun a => 65536 <=? a) in
  clif_instruction_traps_enabled env = false /\
  match prepare_addr env heap 0%nat 0 4 (param I64) with
  | Ret _ b => outcome_of env (machine_of 0 h) (param_value I64 (2 ^ 32)) b = Raised true (Some (Normal MemoryOutOfBounds))
  | _ => False
  end.
Proof. vm_compute. split; reflexivity. Qed.

(** A failing check of an object goes to the null address and then to the field:
    past the first bytes the fault ends the process. *)
Definition run_field (offset object_size idx : Z) : Behaviour :=
  let env := host (2 ^ 20) 0 in
  let h := at_1TiB GcHeap 65536 (2 ^ 20) in
  match bounds_check_and_compute_addr env (mkHeap (one_page Idx32) GcHeap) 0%nat
          (StaticObjectField offset 4 object_size) TRAP_GC_HEAP_CORRUPT (param I32) with
  | Ret r b => behaviour env 0 h (param_value I32 idx) TRAP_GC_HEAP_CORRUPT 4 r b
  | _ => Wrong
  end.

Example corrupt_object_aborts :
  run_field 40 48 65488 = Touches (2 ^ 40 + 65528) /\ run_field 16 48 65489 = Traps None /\
  run_field 40 48 65489 = Aborts.
Proof. vm_compute. repeat split. Qed.

Lemma host_target R G : target_ok (host R G).
Proof. split; [by right|done]. Defined.

(** One page in a reservation, its guard after it. *)
Lemma host_heap_ok it k R G : 65536 <= R -> 0 <= G -> R + G <= 2 ^ 40 ->
  heap_ok (host R G) (mkHeap (one_page it) k) (at_1TiB k 65536 (R + G)).
Proof.
  intros HR HG Hsum.
  assert (forall tn, MemoryTunables.reservation (MemoryTunables.new (host_tunables R G) k) = R /\
    MemoryTunables.guard_size (MemoryTunables.new (host_tunables R G) k) = G /\
    MemoryTunables.reservation_for_growth (MemoryTunables.new (host_tunables R G) k) = 2 ^ 31 /\ tn = tn :> Z) as Hmt.
  { intros tn. by destruct k. }
  destruct (Hmt 0) as (Er & Eg & Eh & _). split; cbn [memory kind h_kind h_base h_bound h_region at_1TiB tunables host accessible].
  - done.
  - split; [by right|done|destruct it; vm_compute; discriminate|done].
  - unfold memory_tunables. cbn [kind]. split; rewrite ?Er, ?Eg, ?Eh; unfold u64_MAX; lia.
  - exists 65536. split; [reflexivity|lia].
  - intros mx. destruct it; intros [= <-]; vm_compute; discriminate.
  - cbn. lia.
  - lia.
  - intros a [? ?]. apply andb_true_intro. split; [apply Z.leb_le|apply Z.ltb_lt]; lia.
  - intros a _ Ha. destruct (Z.leb_spec (2 ^ 40) a); [|done]. apply Z.ltb_ge. lia.
  - intros _. unfold memory_tunables. cbn [kind]. rewrite Er, Eg. split; [lia|].
    intros a ?. apply andb_false_intro2, Z.ltb_ge. lia.
  - intros _ _ _. unfold memory_tunables. cbn [kind]. rewrite Er. lia.
Defined.

Lemma param_holds env m l x : value env m (param_value l x) (param l) 0%nat l x.
Proof. split; [by eexists|]. by intros e p [= <- <-]. Defined.


Lemma object_field_safe_witness :
  let env := host (2 ^ 20) 4096 in
  let h := at_1TiB GcHeap 65536 (2 ^ 20 + 4096) in
  match bounds_check_and_compute_addr env (mkHeap (one_page Idx32) GcHeap) 0%nat (StaticObjectField 40 4 48)
          TRAP_GC_HEAP_CORRUPT (param I32) with
  | Ret r b' => object_access h None 4 (65489 + 48) (65489 + 40)
      (behaviour env 0 h (param_value I32 65489) TRAP_GC_HEAP_CORRUPT 4 r b')
  | _ => False
  end.
Proof.
  apply (object_field_safe (host (2 ^ 20) 4096) (mkHeap (one_page Idx32) GcHeap)
    (at_1TiB GcHeap 65536 (2 ^ 20 + 4096)) 0 (param_value I32 65489) TRAP_GC_HEAP_CORRUPT None 0%nat 65489 4
    (StaticObjectField 40 4 48) (65489 + 40) (65489 + 48) (param I32)).
  - apply host_target.
  - apply host_heap_ok; lia.
  - done.
  - done.
  - done.
  - done.
  - done.
  - apply param_holds.
  - done.
  - by eexists.
  - done.
Defined.
