(* ===== verification/MemorySize.v ===== *)
(** * The answers of [memory.size] and [memory.grow]

    crates/cranelift/src/func_environ.rs: the delta of [memory.grow] on its way
    to the runtime, the number of pages on its way back, and [memory.size]; with
    the form that a libcall gives its result (runtime/vm/libcalls.rs).  A host's
    pointer may be narrower or wider than the index of the memory, and a failure
    is minus one in either.

    Shown: on hosts of 32 and 64 bits, for both index types and both page sizes,
    what the guest sees is the number of pages, and minus one exactly for a
    growth that failed: a memory whose number of pages is minus one in its index
    type is never made. *)

From S2P Require Import Prelude MemoryTypes TrapEncoding ClifTypes DivConst CondCodes ClifValue ClifOps ClifStep Emit BoundsCheck.

(** ** The translation *)

Module ins2.
Definition sextend (l : LaneType) (x : Value) : B Value := ins.op1 Sextend l l (VI I64 0) [x] 0.
Definition icmp_imm (cc : IntCC) (x : Value) (n : Z) : B Value :=
  l <- value_type x ;; ins.op1 (IcmpImm cc) l I8 (VI I64 n) [x] 0.
Definition ushr_imm (x : Value) (n : Z) : B Value :=
  l <- value_type x ;; ins.op1 UshrImm l l (VI I64 n) [x] 0.
(** A trusted load of the current length from the context: the machine's. *)
Definition load_current_length (l : LaneType) (base : Value) : B Value :=
  _ <- value_type base ;; ins.global_value l HeapBound.
End ins2.

Definition index_type_to_ir_type (it : IndexType) : LaneType := match it with Idx32 => I32 | Idx64 => I64 end.

Definition cast_index_to_i64 (val : Value) (it : IndexType) : B Value :=
  match it with Idx32 => ins.uextend I64 val | Idx64 => ret val end.

Definition convert_pointer_to_index_type (env : FuncEnvironment) (val : Value) (it : IndexType)
    (single_byte_pages : bool) : B Value :=
  let desired_type := index_type_to_ir_type it in
  let pointer_type := pointer_type env in
  ty <- value_type val ;; rust_assert (bool_decide (ty = pointer_type)) ;;;
  if bool_decide (pointer_type = desired_type) then ret val
  else if lt_bits desired_type <? lt_bits pointer_type then ins.ireduce desired_type val
  else if single_byte_pages then
    extended <- ins.uextend desired_type val ;;
    neg_one <- ins.iconst desired_type (-1) ;;
    is_failure <- ins2.icmp_imm Equal val (-1) ;;
    ins.select is_failure neg_one extended
  else ins2.sextend desired_type val.

(** The two page sizes there are. *)
Definition single_byte_pages (ty : Memory.t) : B bool :=
  if Memory.page_size_log2 ty =? 16 then ret false
  else if Memory.page_size_log2 ty =? 0 then ret true
  else panic.

(** [memory_size_in_bytes] of a memory that the instance owns. *)
Definition memory_size_in_bytes (env : FuncEnvironment) : B Value :=
  base <- ins.global_value (pointer_type env) VmctxPtr ;;
  ins2.load_current_length (pointer_type env) base.

Definition translate_memory_size (env : FuncEnvironment) (ty : Memory.t) : B Value :=
  current_length_in_bytes <- memory_size_in_bytes env ;;
  current_length_in_pages <- ins2.ushr_imm current_length_in_bytes (Memory.page_size_log2 ty) ;;
  single <- single_byte_pages ty ;;
  convert_pointer_to_index_type env current_length_in_pages (Memory.idx_type ty) single.

(** [translate_memory_grow] before and after the call. *)
Definition translate_memory_grow_argument (ty : Memory.t) (val : Value) : B Value :=
  cast_index_to_i64 val (Memory.idx_type ty).
Definition translate_memory_grow_result (env : FuncEnvironment) (ty : Memory.t) (result : Value) : B Value :=
  single <- single_byte_pages ty ;;
  convert_pointer_to_index_type env result (Memory.idx_type ty) single.

(** ** The libcall's result

    On a host with words of [w] bits, [usize::MAX] is a failure; an unwinding is
    one less. *)

Definition SENTINEL (w : Z) : Z := 2 ^ w - 2.
Definition into_abi (w : Z) (r : option Z) : option Z :=
  match r with
  | Some size => if size <? 2 ^ w - 2 then Some size else None
  | None => Some (2 ^ w - 1)
  end.

(** What the guest is to see. *)
Definition wasm_result (it : IndexType) (r : option Z) : Z :=
  default (2 ^ lt_bits (index_type_to_ir_type it) - 1) r.

(** ** The instructions *)

Section emission.
Context (env : FuncEnvironment) (machine : Machine) (e0 : gmap nat DataValue) (allowed : bool).
Abbreviation value := (value env machine e0).
Abbreviation traps := (traps env machine e0 allowed).
Abbreviation emits := (emits env machine e0 allowed).
Abbreviation pointer := (pointer_type env).
Abbreviation W := (lt_bits pointer).

Lemma emits_sextend u x b c t : value b u I32 x -> traps b c t ->
  emits (ins2.sextend I64 u) b c t (fun r b' => value b' r I64 (swrap 32 x)).
Proof.
  intros Hu Ht. rewrite <- (orb_false_r c).
  apply (emits_op1 _ _ _ _ Sextend I64 I64 _ [(u, I32, x)] 0 b c false); [operands|done|intros _].
  unfold step, step_convert. cbn [opcode ctrl_ty arg lookup list_lookup fmap list_fmap fst snd mbind ValueResult_bind].
  unfold uval at 1. rewrite convert_sext by done. cbn [assign mbind ValueResult_bind]. unfold uval. cbn [lt_bits].
  rewrite (swrap_small 64); [done|lia|]. pose proof (swrap_in 32 ltac:(lia) x) as Hs. revert Hs. generalize (swrap 32 x). unfold in_signed. simpl. lia.
Qed.

Lemma emits_equals_minus_one l u x b c t : word l -> value b u l x -> traps b c t ->
  emits (ins2.icmp_imm Equal u (-1)) b c t (fun r b' => value b' r I8 (b2z (wrap (lt_bits l) x =? 2 ^ lt_bits l - 1))).
Proof.
  intros Hl Hu Ht. destruct (word_facts l Hl) as (Hi & Hb & Hb8). unfold ins2.icmp_imm. eapply emits_value_type; [done|].
  rewrite <- (orb_false_r c).
  apply (emits_op1 _ _ _ _ (IcmpImm Equal) l I8 _ [(u, l, x)] 0 b c false); [operands|done|intros _].
  unfold step, step_select, imm_as_ctrl_ty.
  cbn [opcode ctrl_ty imm arg lookup list_lookup fmap list_fmap fst snd mbind ValueResult_bind].
  rewrite convert_exact by done. cbn [mbind ValueResult_bind].
  unfold uval at 1. rewrite icmp_scalar by done. cbn [assign mbind ValueResult_bind int_cmp].
  assert ((swrap (lt_bits l) x =? swrap (lt_bits l) (-1)) = (wrap (lt_bits l) x =? 2 ^ lt_bits l - 1)) as ->.
  { assert (wrap (lt_bits l) (-1) = 2 ^ lt_bits l - 1) as <-.
    { symmetry. apply (Z.mod_unique _ _ (-1)); [pose proof (pow_width (lt_bits l)); lia|lia]. }
    apply eq_true_iff_eq. rewrite !Z.eqb_eq. split; [|apply swrap_eq; lia].
    intros E. rewrite <- (wrap_swrap (lt_bits l) ltac:(lia) x), E. apply wrap_swrap. lia. }
  by destruct (_ =? _).
Qed.

Lemma emits_ushr_imm l u x n b c t : word l -> value b u l x -> 0 <= x < 2 ^ lt_bits l -> 0 <= n < lt_bits l -> traps b c t ->
  emits (ins2.ushr_imm u n) b c t (fun r b' => value b' r l (x / 2 ^ n)).
Proof.
  intros Hl Hu Hx Hn Ht. destruct (word_facts l Hl) as (Hi & Hb & Hb8). unfold ins2.ushr_imm. eapply emits_value_type; [done|].
  rewrite <- (orb_false_r c).
  apply (emits_op1 _ _ _ _ UshrImm l l _ [(u, l, x)] 0 b c false); [operands|done|intros _].
  unfold step, step_bits, shift_imm.
  cbn [opcode ctrl_ty imm arg lookup list_lookup fmap list_fmap fst snd mbind ValueResult_bind].
  unfold uval at 1. unfold DataValueExt.ushr.
  pose proof (shift_scalar (fun w a k => swrap w (Z.shiftr (wrap w a) k)) l (swrap (lt_bits l) x) I64 n Hi eq_refl) as E.
  cbn beta in E.
  rewrite wrap_swrap, wrap_small, (Z.mod_small n), Z.shiftr_div_pow2 in E by lia.
  destruct (shift_amt (Lane l) (VI I64 n)) as [a| |]; try done.
  cbn [mbind ValueResult_bind] in E |- *. rewrite E. by cbn [assign mbind ValueResult_bind].
Qed.
End emission.

Section conversion.
Context (env : FuncEnvironment) (machine : Machine) (e0 : gmap nat DataValue) (allowed : bool) (Htarget : target_ok env).
Abbreviation value := (value env machine e0).
Abbreviation traps := (traps env machine e0 allowed).
Abbreviation emits := (emits env machine e0 allowed).
Abbreviation pointer := (pointer_type env).
Abbreviation W := (lt_bits pointer).
Abbreviation bits it := (lt_bits (index_type_to_ir_type it)).

(** A number of pages, or a failure, as the libcall gives it. *)
Definition abi_value (r : option Z) : Z := default (2 ^ W - 1) r.

(** What fits: the number is not minus one in either type, and if pages are large it has no sign. *)
Definition fits (it : IndexType) (single : bool) (n : Z) : Prop :=
  0 <= n < 2 ^ W - 1 /\ n < 2 ^ bits it - 1 /\ (single = false -> W = 32 -> n < 2 ^ 31).

Lemma emits_cast_index_to_i64 it u x b c t : value b u (index_type_to_ir_type it) x -> 0 <= x < 2 ^ bits it -> traps b c t ->
  emits (cast_index_to_i64 u it) b c t (fun r b' => value b' r I64 x).
Proof.
  intros Hu Hx Ht. destruct it; cbn [cast_index_to_i64 index_type_to_ir_type lt_bits] in *; [by apply emits_uextend|].
  by apply emits_ret.
Qed.

(** The conversion keeps numbers that fit and the failure, whatever the widths. *)
Lemma emits_convert it single r u b c t : (forall n, r = Some n -> fits it single n) ->
  value b u pointer (abi_value r) -> traps b c t ->
  emits (convert_pointer_to_index_type env u it single) b c t
    (fun v b' => value b' v (index_type_to_ir_type it) (wasm_result it r)).
Proof.
  intros Hfit Hu Ht. unfold convert_pointer_to_index_type. eapply emits_value_type; [done|].
  apply emits_assert; [by apply bool_decide_eq_true|]. unfold abi_value, wasm_result, fits in *.
  destruct (tg_pointer env Htarget) as [Ep|Ep], it; rewrite Ep in *; cbn [index_type_to_ir_type lt_bits] in *.
  - rewrite bool_decide_eq_true_2 by done. by apply emits_ret.
  - rewrite bool_decide_eq_false_2 by done. cbn [Z.ltb Z.compare Pos.compare Pos.compare_cont]. destruct single.
    + assert (0 <= default (2 ^ 32 - 1) r < 2 ^ 32) as Hr by (destruct r as [n|]; [specialize (Hfit n eq_refl)|]; simpl in *; lia).
      eapply emits_bind; [by apply emits_uextend|]. intros x b1 H1 Ht1 Hx.
      eapply emits_bind; [apply emits_iconst; [by right; right|done]|]. intros m b2 H2 Ht2 Hm.
      eapply emits_bind; [apply (emits_equals_minus_one _ _ _ _ I32 u (default (2 ^ 32 - 1) r)); [by right; left|by apply H2, H1|done]|].
      intros f b3 H3 Ht3 Hf. cbn [lt_bits] in Hf. rewrite wrap_small in Hf by done.
      assert (value b3 m I64 (-1)) as Hm' by by apply H3. assert (value b3 x I64 (default (2 ^ 32 - 1) r)) as Hx' by by apply H3, H2.
      pose proof (emits_select_op env machine e0 allowed Select I64 _ (-1) _ f m x b3 c t (or_introl eq_refl) Hf Hm' Hx' Ht3) as Hem.
      eapply emits_mono; [|exact Hem]. cbn beta. intros v b4 Hv. destruct (Z.eqb_spec (default (2 ^ 32 - 1) r) (2 ^ 32 - 1)) as [E|E].
      * destruct r as [n|]; [specialize (Hfit n eq_refl); simpl in E; lia|]. exact (value_mod _ _ _ _ _ I64 _ Hv).
      * destruct r as [n|]; [done|]. by simpl in E.
    + eapply emits_mono; [|by apply emits_sextend]. cbn beta. intros v b1 Hv. destruct r as [n|]; cbn [default from_option id] in *.
      * destruct (Hfit n eq_refl) as (? & ? & Hs). rewrite swrap_small in Hv; [done|lia|]. unfold in_signed. specialize (Hs eq_refl eq_refl). simpl in *. lia.
      * exact (value_mod _ _ _ _ _ I64 _ Hv).
  - rewrite bool_decide_eq_false_2 by done. cbn [Z.ltb Z.compare Pos.compare Pos.compare_cont].
    eapply emits_mono; [|by apply emits_ireduce]. cbn beta. intros v b1 Hv. destruct r as [n|]; [done|].
    exact (value_mod _ _ _ _ _ I32 _ Hv).
  - rewrite bool_decide_eq_true_2 by done. by apply emits_ret.
Qed.

(** The number of pages of a memory that may exist. *)
Lemma pages_fit ty n : Memory.valid ty -> 0 <= n < 2 ^ W - 1 -> (Memory.page_size ty | n) -> Memory.allow_growth_to ty n = true ->
  (forall mx, Memory.maximum_byte_size ty = Some mx -> n <= mx) ->
  fits (Memory.idx_type ty) (Memory.page_size_log2 ty =? 0) (n / Memory.page_size ty).
Proof.
  intros Hty Hn Hd Hal Hmax. unfold fits, Memory.allow_growth_to, Memory.page_size in *.
  assert (W = 32 \/ W = 64) as HW by (destruct (tg_pointer env Htarget) as [-> | ->]; auto).
  assert (Memory.idx_type ty = Idx32 -> n <= 2 ^ 32) as H32.
  { intros Ei. destruct (Memory.maximum_byte_size_32 _ Hty Ei) as (m & Em & ?). specialize (Hmax m Em). lia. }
  destruct (Memory.v_log2 ty Hty) as [El|El]; rewrite El in *; cbn [Z.eqb negb] in *.
  - change (Z.shiftl 1 0) with 1. rewrite Z.div_1_r. destruct (Memory.idx_type ty) eqn:Ei; cbn in *.
    + apply Z.ltb_lt in Hal. split; [done|]. by split; [lia|].
    + destruct HW as [E|E]; rewrite E in *; (split; [done|]); by split; [lia|].
  - change (Z.shiftl 1 16) with 65536 in *. pose proof (Z.div_lt_upper_bound n 65536 (2 ^ 48) ltac:(lia)) as H48.
    assert (0 <= n / 65536) by (apply Z.div_pos; lia). assert (n < 2 ^ 64 - 1) by (destruct HW as [E|E]; rewrite E in *; lia).
    specialize (H48 ltac:(lia)). assert (n / 65536 <= n) by (apply Z.div_le_upper_bound; lia).
    split; [lia|split].
    + destruct (Memory.idx_type ty) eqn:Ei; cbn; [|lia].
      specialize (H32 eq_refl).
      assert (n / 65536 <= 65536) by (apply Z.div_le_upper_bound; lia). lia.
    + intros _ E. rewrite E in *. assert (n / 65536 < 65536) by (apply Z.div_lt_upper_bound; lia). lia.
Qed.

Lemma single_byte_pages_run ty (b : Builder) : Memory.valid ty -> single_byte_pages ty b = Ret (Memory.page_size_log2 ty =? 0) b.
Proof. intros Hty. unfold single_byte_pages. by destruct (Memory.v_log2 ty Hty) as [-> | ->]. Qed.

Lemma emits_memory_grow_result ty r u b c t : Memory.valid ty ->
  (forall n, r = Some n -> fits (Memory.idx_type ty) (Memory.page_size_log2 ty =? 0) n) ->
  value b u pointer (abi_value r) -> traps b c t ->
  emits (translate_memory_grow_result env ty u) b c t
    (fun v b' => value b' v (index_type_to_ir_type (Memory.idx_type ty)) (wasm_result (Memory.idx_type ty) r)).
Proof.
  intros Hty Hfit Hu Ht. unfold translate_memory_grow_result. unfold Emit.emits, wp, bind.
  rewrite single_byte_pages_run by done. by apply emits_convert.
Qed.

Lemma emits_memory_size ty b c t : Memory.valid ty -> 0 <= heap_bound machine < 2 ^ W - 1 ->
  (Memory.page_size ty | heap_bound machine) -> Memory.allow_growth_to ty (heap_bound machine) = true ->
  (forall mx, Memory.maximum_byte_size ty = Some mx -> heap_bound machine <= mx) -> traps b c t ->
  emits (translate_memory_size env ty) b c t
    (fun v b' => value b' v (index_type_to_ir_type (Memory.idx_type ty)) (heap_bound machine / Memory.page_size ty)).
Proof.
  intros Hty Hn Hd Hal Hmax Ht. assert (word pointer) as Hp by by apply pointer_word.
  unfold translate_memory_size, memory_size_in_bytes, ins2.load_current_length. set (n := heap_bound machine) in *.
  eapply emits_bind.
  { eapply emits_bind; [exact (emits_global env machine e0 allowed pointer VmctxPtr b c t Ht)|]. intros base b1 H1 Ht1 Hb.
    eapply (emits_value_type _ _ _ _ base pointer (global machine VmctxPtr)); [exact Hb|]. exact (emits_global env machine e0 allowed pointer HeapBound b1 c t Ht1). }
  intros len b1 H1 Ht1 Hlen. cbn [global] in Hlen. fold n in Hlen.
  assert (0 <= Memory.page_size_log2 ty < W) as Hlog.
  { destruct (Memory.v_log2 ty Hty) as [-> | ->], (tg_pointer env Htarget) as [-> | ->]; simpl; lia. }
  eapply emits_bind; [by apply (emits_ushr_imm _ _ _ _ pointer len n); [..|lia| |]|]. intros pages b2 H2 Ht2 Hpages.
  assert (n / 2 ^ Memory.page_size_log2 ty = n / Memory.page_size ty) as E.
  { unfold Memory.page_size. by rewrite Z.shiftl_1_l. }
  rewrite E in Hpages. unfold Emit.emits, wp. unfold bind at 1. rewrite single_byte_pages_run by done.
  apply (emits_convert (Memory.idx_type ty) _ (Some (n / Memory.page_size ty)) pages b2 c t); [|done|done].
  intros ? [= <-]. by apply pages_fit.
Qed.
End conversion.
