(* ===== verification/TableAccess.v ===== *)
(** * Accesses to tables, and bounds checks of bulk operations

    cranelift/src/translate/table.rs, and the bounds checks of
    [table.copy], [memory.fill] and their like in cranelift/src/func_environ.rs,
    as computations on the builder of Emit.v.  Tables and memories as entities;
    segments and GC arrays as entities are not modelled.

    Shown: on hosts of 32 and 64 bits and for both index types, the address of an
    element is that of the table and the index, and an index that is out of bounds traps, or
    yields the null address with the trap noted for its access; a bulk operation
    traps exactly when it reaches past the end of its entity, for all indices and
    lengths, and otherwise gets the address of its first element. *)

From S2P Require Import Tables.
From S2P Require Import Prelude MemoryTypes TrapEncoding ClifTypes DivConst CondCodes ClifValue ClifOps ClifStep DivRules Emit BoundsCheck MemorySize.

(** ** The translation *)

Definition TRAP_TABLE_OUT_OF_BOUNDS : Z := TrapCode.constant (TrapCode.user (Trap_as_u8 TableOutOfBounds + TRAP_OFFSET)).

Module ins3.
Definition imul_imm (x : Value) (n : Z) : B Value := l <- value_type x ;; ins.op1 ImulImm l l (VI I64 n) [x] 0.
Definition ishl_imm (x : Value) (n : Z) : B Value := l <- value_type x ;; ins.op1 IshlImm l l (VI I64 n) [x] 0.
End ins3.

Inductive TableSize := Static (bound : Z) | Dynamic.

(** [TableSize::bound]; the global value has the width of pointers. *)
Definition bound (env : FuncEnvironment) (size : TableSize) (index_ty : LaneType) : B Value :=
  match size with
  | Static bound => ins.iconst index_ty (swrap 64 bound)
  | Dynamic =>
      let ty := pointer_type env in
      gv <- ins.global_value ty TableBound ;;
      if bool_decide (index_ty = ty) then ret gv
      else if lt_bits index_ty <? lt_bits ty then ins.ireduce index_ty gv
      else ins.uextend index_ty gv
  end.

Record TableData := mkTableData { td_bound : TableSize; element_size : Z }.

(** What the module says about a table. *)
Record TableType := mkTableType { t_idx_type : IndexType; t_min : Z; t_max : option Z; t_elem : Tables.TableElementType }.

(** [make_table]: the globals are those of the machine. *)
Definition make_table (env : FuncEnvironment) (table : TableType) : TableData :=
  let element_size :=
    match t_elem table with
    | Tables.GcRef => 4
    | Tables.Func => lt_bits (pointer_type env) / 8
    | Tables.Cont => 2 * (lt_bits (pointer_type env) / 8)
    end in
  mkTableData (if bool_decide (Some (t_min table) = t_max table) then Static (t_min table) else Dynamic) element_size.

Definition is_power_of_two (n : Z) : bool := (0 <? n) && (Z.land n (n - 1) =? 0).
Definition trailing_zeros (n : Z) : Z := Z.log2 (Z.land n (- n)).

Section translation.
Context (env : FuncEnvironment).
Abbreviation pointer := (pointer_type env).

(** The address, and the trap code of its access. *)
Definition prepare_table_addr (td : TableData) (index : Value) : B (Value * option Z) :=
  index_ty <- value_type index ;;
  let spectre_mitigations_enabled := enable_table_access_spectre_mitigation env && clif_memory_traps_enabled env in
  bound <- bound env (td_bound td) index_ty ;;
  oob <- ins.icmp UnsignedGreaterThanOrEqual index bound ;;
  (if negb spectre_mitigations_enabled then trapnz env oob TRAP_TABLE_OUT_OF_BOUNDS else ret tt) ;;;
  index <- (if lt_bits index_ty <? lt_bits pointer then ins.uextend pointer index
            else if lt_bits pointer <? lt_bits index_ty then ins.ireduce pointer index else ret index) ;;
  base <- ins.global_value pointer TableBase ;;
  let element_size := element_size td in
  offset <- (if element_size =? 1 then ret index
             else if is_power_of_two element_size then ins3.ishl_imm index (trailing_zeros element_size)
             else ins3.imul_imm index element_size) ;;
  element_addr <- ins.iadd base offset ;;
  if spectre_mitigations_enabled then
    zero <- ins.iconst pointer 0 ;;
    addr <- ins.select_spectre_guard oob zero element_addr ;;
    ret (addr, Some TRAP_TABLE_OUT_OF_BOUNDS)
  else ret (element_addr, None).

Definition translate_table_size (table : TableType) : B Value :=
  bound env (td_bound (make_table env table)) (index_type_to_ir_type (t_idx_type table)).

Definition unchecked_cast_wasm_addr_to_native_addr (val : Value) (index_type : IndexType) : B Value :=
  match pointer, index_type with
  | I32, Idx32 | I64, Idx64 => ret val
  | I32, Idx64 => ins.ireduce I32 val
  | I64, Idx32 => ins.uextend I64 val
  | _, _ => panic
  end.

Inductive CheckedEntity := EMemory (ty : Memory.t) | ETable (table : TableType).

Definition entity_index_type (entity : CheckedEntity) : IndexType :=
  match entity with EMemory ty => Memory.idx_type ty | ETable table => t_idx_type table end.

Definition entity_element_size (entity : CheckedEntity) : Z :=
  match entity with EMemory _ => 1 | ETable table => element_size (make_table env table) end.

Definition oob_trap_code (entity : CheckedEntity) : Z :=
  match entity with EMemory _ => TrapCode.HEAP_OUT_OF_BOUNDS | ETable _ => TRAP_TABLE_OUT_OF_BOUNDS end.

Definition translate_entity_bounds_check (entity : CheckedEntity) (idx len : Value) : B Value :=
  let idx_type := entity_index_type entity in
  let idx_clif_type := index_type_to_ir_type idx_type in
  ti <- value_type idx ;; rust_assert (bool_decide (ti = idx_clif_type)) ;;;
  tl <- value_type len ;; rust_assert (bool_decide (tl = idx_clif_type)) ;;;
  entity_size <- match entity with
                 | EMemory _ => memory_size_in_bytes env
                 | ETable table => size <- translate_table_size table ;; unchecked_cast_wasm_addr_to_native_addr size idx_type
                 end ;;
  te <- value_type entity_size ;; rust_assert (bool_decide (te = pointer)) ;;;
  let trap_code := oob_trap_code entity in
  end64 <- match idx_type with
           | Idx32 =>
               idx64 <- ins.uextend I64 idx ;;
               len64 <- ins.uextend I64 len ;;
               len64 <- ins3.imul_imm len64 1 ;;
               ins.iadd idx64 len64
           | Idx64 => uadd_overflow_trap env idx len trap_code
           end ;;
  entity_size64 <- match pointer with I32 => ins.uextend I64 entity_size | I64 => ret entity_size | _ => panic end ;;
  inbounds <- ins.icmp UnsignedGreaterThan end64 entity_size64 ;;
  trapnz env inbounds trap_code ;;;
  base <- match entity with
          | EMemory _ => ins.global_value pointer HeapBase
          | ETable _ => ins.global_value pointer TableBase
          end ;;
  tb <- value_type base ;; rust_assert (bool_decide (tb = pointer)) ;;;
  idx <- unchecked_cast_wasm_addr_to_native_addr idx idx_type ;;
  tx <- value_type idx ;; rust_assert (bool_decide (tx = pointer)) ;;;
  byte_offset <- ins3.imul_imm idx (entity_element_size entity) ;;
  ins.iadd base byte_offset.
End translation.

(** ** What it computes *)

Section emission.
Context (env : FuncEnvironment) (machine : Machine) (e0 : gmap nat DataValue) (Htarget : target_ok env).
Context (allowed : bool) (Hallowed : clif_instruction_traps_enabled env = true -> allowed = true).
Abbreviation value := (value env machine e0).
Abbreviation traps := (traps env machine e0 allowed).
Abbreviation emits := (emits env machine e0 allowed).
Abbreviation pointer := (pointer_type env).
Abbreviation W := (lt_bits pointer).

Lemma emits_imul_imm l u x n b c t : word l -> value b u l x -> traps b c t ->
  emits (ins3.imul_imm u n) b c t (fun r b' => value b' r l (x * n)).
Proof.
  intros Hl Hu Ht. destruct (word_facts l Hl) as (Hi & Hb & Hb8). unfold ins3.imul_imm. eapply emits_value_type; [done|].
  rewrite <- (orb_false_r c).
  apply (emits_op1 _ _ _ _ ImulImm l l _ [(u, l, x)] 0 b c false); [operands|done|intros _].
  unfold step, step_arith, binary_imm, imm_as_ctrl_ty.
  cbn [opcode ctrl_ty imm arg lookup list_lookup fmap list_fmap fst snd mbind ValueResult_bind].
  rewrite convert_exact by done. cbn [mbind ValueResult_bind]. unfold uval at 1. rewrite binary_arith_scalar.
  unfold DataValueExt.mul. rewrite binary_val_run by done. cbn [assign mbind ValueResult_bind]. do 2 f_equal. unfold uval. do 2 f_equal.
  apply swrap_eq. by rewrite wrap_mul, !wrap_swrap, <- wrap_mul by lia.
Qed.

Lemma emits_ishl_imm l u x n b c t : word l -> value b u l x -> 0 <= n < lt_bits l -> traps b c t ->
  emits (ins3.ishl_imm u n) b c t (fun r b' => value b' r l (x * 2 ^ n)).
Proof.
  intros Hl Hu Hn Ht. destruct (word_facts l Hl) as (Hi & Hb & Hb8). unfold ins3.ishl_imm. eapply emits_value_type; [done|].
  rewrite <- (orb_false_r c).
  apply (emits_op1 _ _ _ _ IshlImm l l _ [(u, l, x)] 0 b c false); [operands|done|intros _].
  unfold step, step_bits, shift_imm.
  cbn [opcode ctrl_ty imm arg lookup list_lookup fmap list_fmap fst snd mbind ValueResult_bind].
  unfold uval at 1. unfold DataValueExt.shl.
  pose proof (shift_scalar (fun w a k => swrap w (Z.shiftl a k)) l (swrap (lt_bits l) x) I64 n Hi eq_refl) as E.
  cbn beta in E. rewrite (Z.mod_small n), Z.shiftl_mul_pow2 in E by lia.
  destruct (shift_amt (Lane l) (VI I64 n)) as [a| |]; try done.
  cbn [mbind ValueResult_bind] in E |- *. rewrite E. cbn [assign mbind ValueResult_bind]. do 2 f_equal. unfold uval. do 2 f_equal.
  apply swrap_eq. by rewrite wrap_mul, !wrap_swrap, <- wrap_mul by lia.
Qed.

Lemma pointer_is_word : word pointer.
Proof. destruct (tg_pointer env Htarget) as [-> | ->]; [by right; left|by right; right]. Qed.

(** An unsigned comparison, at any width. *)
Lemma emits_unsigned_at (cc : IntCC) (f : Z -> Z -> bool) l u v x y b c t :
  (forall w p q, int_cmp w cc p q = f (q mod 2 ^ w) (p mod 2 ^ w)) -> word l ->
  value b u l x -> value b v l y -> 0 <= x < 2 ^ lt_bits l -> 0 <= y < 2 ^ lt_bits l -> traps b c t ->
  emits (ins.icmp cc u v) b c t (fun r b' => value b' r I8 (b2z (f y x))).
Proof.
  intros Hcc Hl Hu Hv Hx Hy Ht. eapply emits_mono; [|by apply (emits_icmp _ _ _ _ cc l x y u v)].
  intros r b' Hr. rewrite Hcc in Hr. destruct (word_facts l Hl) as (_ & _ & ?).
  assert (E : forall z, 0 <= z < 2 ^ lt_bits l -> swrap (lt_bits l) z mod 2 ^ lt_bits l = z).
  { intros z Hz. change (wrap (lt_bits l) (swrap (lt_bits l) z) = z). rewrite wrap_swrap, wrap_small by lia. done. }
  by rewrite !E in Hr by done.
Qed.

Lemma uval_swrap64 l z : word l -> uval l (swrap 64 z) = uval l z.
Proof.
  intros Hl. unfold uval. f_equal. apply swrap_eq. unfold wrap.
  assert ((2 ^ lt_bits l | 2 ^ 64)) as Hd by (destruct Hl as [->|[->| ->]]; [by exists (2 ^ 56)|by exists (2 ^ 32)|by exists 1]).
  rewrite <- (Z.mod_mod_divide (swrap 64 z) (2 ^ 64)), <- (Z.mod_mod_divide z (2 ^ 64)) by (done || lia).
  f_equal. apply (wrap_swrap 64). lia.
Qed.

(** A table with [size] elements at run time. *)
Record table_ok (table : TableType) (size : Z) : Prop := {
  to_size : 0 <= size < 2 ^ W;
  to_index : size < 2 ^ lt_bits (index_type_to_ir_type (t_idx_type table));
  to_bound : table_bound machine = size;
  to_fixed : Some (t_min table) = t_max table -> size = t_min table
}.

Lemma emits_table_size table size b c t : table_ok table size -> traps b c t ->
  emits (translate_table_size env table) b c t
    (fun r b' => value b' r (index_type_to_ir_type (t_idx_type table)) size).
Proof.
  intros [Hs Hi Hb Hf] Ht. unfold translate_table_size, bound, make_table. cbn [td_bound].
  set (l := index_type_to_ir_type (t_idx_type table)) in *.
  assert (Hl : word l) by (unfold l; destruct (t_idx_type table); [by right; left|by right; right]).
  destruct (decide (Some (t_min table) = t_max table)) as [E|E].
  - rewrite bool_decide_eq_true_2 by done. rewrite <- (Hf E).
    eapply emits_mono; [|by apply emits_iconst]. cbn beta. intros r b1 [Hd Hr]. split; [done|].
    intros e p He. rewrite (Hr e p He). f_equal. by apply uval_swrap64.
  - rewrite bool_decide_eq_false_2 by done.
    eapply emits_bind; [by apply emits_global|]. intros gv b1 H1 Ht1 Hgv. cbn [global] in Hgv. rewrite Hb in Hgv.
    destruct (tg_pointer env Htarget) as [Ep|Ep]; rewrite Ep in *; unfold l in *; destruct (t_idx_type table); cbn [index_type_to_ir_type lt_bits] in *;
      cbn [bool_decide LaneType_eq_dec Z.ltb Z.compare Pos.compare Pos.compare_cont].
    + rewrite bool_decide_eq_true_2 by done. by apply emits_ret.
    + rewrite bool_decide_eq_false_2 by done. by apply emits_uextend.
    + rewrite bool_decide_eq_false_2 by done. by apply emits_ireduce.
    + rewrite bool_decide_eq_true_2 by done. by apply emits_ret.
Qed.

(** The cast of an index to the width of pointers keeps its low bits. *)
Lemma emits_native it u x b c t : value b u (index_type_to_ir_type it) x -> 0 <= x < 2 ^ lt_bits (index_type_to_ir_type it) -> traps b c t ->
  emits (unchecked_cast_wasm_addr_to_native_addr env u it) b c t (fun r b' => value b' r pointer x).
Proof.
  intros Hu Hx Ht. unfold unchecked_cast_wasm_addr_to_native_addr.
  destruct (tg_pointer env Htarget) as [Ep|Ep]; rewrite Ep in *; destruct it; cbn [index_type_to_ir_type lt_bits] in *;
    first [by apply emits_ret | by apply emits_uextend | by apply emits_ireduce].
Qed.

(** A trap code that stands for the trap [t] of WebAssembly. *)
Lemma table_oob_trap tn : clif_trap_to_env_trap TRAP_TABLE_OUT_OF_BOUNDS tn = Some (Some (Normal TableOutOfBounds)).
Proof. by vm_compute. Qed.

(** The sizes of elements. *)
Lemma element_size_cases table : let es := element_size (make_table env table) in
  (es = 4 \/ es = 8 \/ es = 16) /\ is_power_of_two es = true /\ 2 ^ trailing_zeros es = es /\ 0 <= trailing_zeros es < W.
Proof.
  unfold make_table, element_size. destruct (t_elem table), (tg_pointer env Htarget) as [-> | ->]; vm_compute; intuition congruence.
Qed.

(** The element's address, by either way to scale an index. *)
Lemma emits_offset table u x b c t : value b u pointer x -> traps b c t ->
  let es := element_size (make_table env table) in
  emits (if es =? 1 then ret u else if is_power_of_two es then ins3.ishl_imm u (trailing_zeros es) else ins3.imul_imm u es) b c t
    (fun r b' => value b' r pointer (x * es)).
Proof.
  intros Hu Ht es. destruct (element_size_cases table) as (Hes & Hp & E & Hz). fold es in Hes, Hp, E, Hz.
  destruct (Z.eqb_spec es 1); [lia|]. rewrite Hp. eapply emits_mono; [|apply emits_ishl_imm; [apply pointer_is_word|done|exact Hz|done]].
  cbn beta. intros r b' Hr. by rewrite E in Hr.
Qed.

Lemma emits_resize_index it u x b c t : value b u (index_type_to_ir_type it) x -> 0 <= x < 2 ^ lt_bits (index_type_to_ir_type it) -> traps b c t ->
  emits (if lt_bits (index_type_to_ir_type it) <? W then ins.uextend pointer u
         else if W <? lt_bits (index_type_to_ir_type it) then ins.ireduce pointer u else ret u) b c t
    (fun r b' => value b' r pointer x).
Proof.
  intros Hu Hx Ht. destruct (tg_pointer env Htarget) as [Ep|Ep]; rewrite Ep in *; destruct it; cbn [index_type_to_ir_type lt_bits] in *;
    cbn [Z.ltb Z.compare Pos.compare Pos.compare_cont];
    first [by apply emits_ret | by apply emits_uextend | by apply emits_ireduce].
Qed.

Definition spectre : bool := enable_table_access_spectre_mitigation env && clif_memory_traps_enabled env.

Lemma emits_prepare_table_addr table size u i b : table_ok table size ->
  value b u (index_type_to_ir_type (t_idx_type table)) i -> 0 <= i < 2 ^ lt_bits (index_type_to_ir_type (t_idx_type table)) ->
  traps b false (Some (Normal TableOutOfBounds)) ->
  let td := make_table env table in
  emits (prepare_table_addr env td u) b (negb spectre && (size <=? i)) (Some (Normal TableOutOfBounds)) (fun r b' =>
    value b' r.1 pointer (if spectre && (size <=? i) then 0 else table_base machine + i * element_size td) /\
    r.2 = if spectre then Some TRAP_TABLE_OUT_OF_BOUNDS else None).
Proof.
  intros Hto Hu Hi Ht td. unfold prepare_table_addr. eapply emits_value_type; [done|]. fold spectre.
  set (l := index_type_to_ir_type (t_idx_type table)) in *.
  assert (Hl : word l) by (unfold l; destruct (t_idx_type table); [by right; left|by right; right]).
  eapply emits_bind; [by apply (emits_table_size table size)|]. intros bd b1 H1 Ht1 Hbd. fold l in Hbd.
  pose proof (to_size _ _ Hto) as Hsz. pose proof (to_index _ _ Hto) as Hsi. fold l in Hsi.
  eapply emits_bind.
  { apply (emits_unsigned_at UnsignedGreaterThanOrEqual Z.leb l u bd i size); try done; [by apply H1|lia]. }
  intros oob b2 H2 Ht2 Hoob.
  eapply (emits_bind _ _ _ _ _ _ b2 (negb spectre && (size <=? i)) _ _ (fun _ _ => True)).
  { destruct spectre eqn:Es; cbn [negb andb]; [by apply emits_ret|].
    rewrite <- (orb_false_l (size <=? i)).
    apply (emits_trapnz env machine allowed Hallowed e0 TRAP_TABLE_OUT_OF_BOUNDS _ (table_oob_trap _) pointer_is_word oob I8 (b2z (size <=? i)));
      [by left|done|done| |by right; right]. by destruct (size <=? i). }
  intros [] b3 H3 Ht3 _.
  eapply emits_bind; [apply (emits_resize_index (t_idx_type table) u i); [by apply H3, H2, H1|done|done]|]. intros ix b4 H4 Ht4 Hix.
  eapply emits_bind; [by apply emits_global|]. intros base b5 H5 Ht5 Hbase. cbn [global] in Hbase.
  eapply emits_bind; [by apply (emits_offset table ix i); [apply H5|]|]. intros off b6 H6 Ht6 Hoff.
  eapply emits_bind; [apply (emits_iadd _ _ _ _ pointer (table_base machine) (i * element_size td) base off); [apply pointer_is_word|by apply H6|done|done]|].
  intros addr b7 H7 Ht7 Haddr. destruct spectre eqn:Es; cbn [negb andb] in *.
  - eapply emits_bind; [apply emits_iconst; [apply pointer_is_word|done]|]. intros z b8 H8 Ht8 Hz.
    eapply emits_bind.
    { apply (emits_select_op env machine e0 allowed SelectSpectreGuard pointer (size <=? i) 0 (table_base machine + i * element_size td) oob z addr);
        [by right|by apply H8, H7, H6, H5, H4, H3|done|by apply H8|done]. }
    intros a b9 H9 Ht9 Ha. by apply emits_ret.
  - by apply emits_ret.
Qed.

(** ** Entities *)

(** The state of an entity: a memory of [size] bytes, or a table. *)
Definition entity_ok (entity : CheckedEntity) (size : Z) : Prop :=
  match entity with
  | EMemory ty => heap_bound machine = size /\ 0 <= size < 2 ^ W
  | ETable table => table_ok table size
  end.

Definition entity_base (entity : CheckedEntity) : Z :=
  match entity with EMemory _ => heap_base machine | ETable _ => table_base machine end.

Definition entity_trap (entity : CheckedEntity) : TrapEncoding.Trap :=
  match entity with EMemory _ => MemoryOutOfBounds | ETable _ => TableOutOfBounds end.

Lemma entity_trap_code entity : clif_trap_to_env_trap (oob_trap_code entity) (tunables env) = Some (Some (Normal (entity_trap entity))).
Proof. destruct entity; [apply heap_oob_trap|apply table_oob_trap]. Qed.

Lemma emits_entity_size entity size b c t : entity_ok entity size -> traps b c t ->
  emits (match entity with
         | EMemory _ => memory_size_in_bytes env
         | ETable table => size <- translate_table_size env table ;; unchecked_cast_wasm_addr_to_native_addr env size (entity_index_type entity)
         end) b c t (fun r b' => value b' r pointer size).
Proof.
  intros Ho Ht. destruct entity as [ty|table]; cbn [entity_ok entity_index_type] in *.
  - destruct Ho as [Eb Hs]. unfold memory_size_in_bytes, ins2.load_current_length.
    eapply emits_bind; [by apply emits_global|]. intros base b1 H1 Ht1 Hb.
    eapply emits_value_type; [exact Hb|].
    eapply emits_mono; [|by apply (emits_global env machine e0 allowed pointer HeapBound)]. cbn [global]. intros r b' Hr. by rewrite Eb in Hr.
  - eapply emits_bind; [by apply (emits_table_size table size)|]. intros r b1 H1 Ht1 Hr.
    apply emits_native; [done| |done]. split; [apply (to_size _ _ Ho)|apply (to_index _ _ Ho)].
Qed.

(** The end of a range, as 64 bits: for 64-bit indices the addition traps when it wraps. *)
Lemma emits_end64 entity u v i l b size : entity_ok entity size ->
  let it := entity_index_type entity in let ty := index_type_to_ir_type it in
  value b u ty i -> value b v ty l -> 0 <= i < 2 ^ lt_bits ty -> 0 <= l < 2 ^ lt_bits ty ->
  traps b false (Some (Normal (entity_trap entity))) ->
  emits (match it with
         | Idx32 => idx64 <- ins.uextend I64 u ;; len64 <- ins.uextend I64 v ;; len64 <- ins3.imul_imm len64 1 ;; ins.iadd idx64 len64
         | Idx64 => uadd_overflow_trap env u v (oob_trap_code entity)
         end) b (2 ^ 64 <=? i + l) (Some (Normal (entity_trap entity))) (fun r b' => value b' r I64 (i + l)).
Proof.
  intros Ho it ty Hu Hv Hi Hl Ht. unfold ty in *. destruct it; cbn [index_type_to_ir_type lt_bits] in *.
  - replace (2 ^ 64 <=? i + l) with false by lia.
    eapply emits_bind; [by apply (emits_uextend _ _ _ _ I64 i u)|]. intros x b1 H1 Ht1 Hx.
    eapply emits_bind; [apply (emits_uextend _ _ _ _ I64 l v); [by apply H1|done|done|done]|]. intros y b2 H2 Ht2 Hy.
    eapply emits_bind; [apply (emits_imul_imm I64 y l 1); [by right; right|done|done]|]. intros z b3 H3 Ht3 Hz.
    rewrite Z.mul_1_r in Hz. apply emits_iadd; [by right; right|by apply H3, H2|done|done].
  - rewrite <- (orb_false_l (_ <=? _)).
    apply (emits_uadd_overflow_trap env machine allowed Hallowed e0 (oob_trap_code entity) _ (entity_trap_code entity) pointer_is_word I64);
      try done; by right; right.
Qed.

Lemma emits_widen u x b c t : value b u pointer x -> 0 <= x < 2 ^ W -> traps b c t ->
  emits (match pointer with I32 => ins.uextend I64 u | I64 => ret u | _ => panic end) b c t (fun r b' => value b' r I64 x).
Proof.
  intros Hu Hx Ht. destruct (tg_pointer env Htarget) as [Ep|Ep]; rewrite Ep in *; [by apply emits_uextend|by apply emits_ret].
Qed.

Lemma emits_entity_bounds_check entity u v i l b size : entity_ok entity size ->
  let ty := index_type_to_ir_type (entity_index_type entity) in
  value b u ty i -> value b v ty l -> 0 <= i < 2 ^ lt_bits ty -> 0 <= l < 2 ^ lt_bits ty ->
  traps b false (Some (Normal (entity_trap entity))) ->
  emits (translate_entity_bounds_check env entity u v) b (size <? i + l) (Some (Normal (entity_trap entity)))
    (fun r b' => value b' r pointer (entity_base entity + i * entity_element_size env entity)).
Proof.
  intros Ho ty Hu Hv Hi Hl Ht. unfold translate_entity_bounds_check. fold ty.
  assert (Hsize : 0 <= size < 2 ^ W) by (destruct entity; [apply Ho|apply (to_size _ _ Ho)]).
  assert (HW : 2 ^ W <= 2 ^ 64) by (destruct (tg_pointer env Htarget) as [-> | ->]; done).
  eapply (emits_value_type _ _ _ _ u); [exact Hu|]. apply emits_assert; [by apply bool_decide_eq_true|].
  eapply (emits_value_type _ _ _ _ v); [exact Hv|]. apply emits_assert; [by apply bool_decide_eq_true|].
  eapply emits_bind; [by apply (emits_entity_size entity size)|]. intros es b1 H1 Ht1 Hes.
  eapply (emits_value_type _ _ _ _ es); [exact Hes|]. apply emits_assert; [by apply bool_decide_eq_true|].
  eapply emits_bind; [apply (emits_end64 entity u v i l b1 size); [done|by apply H1|by apply H1|done|done|done]|]. intros e64 b2 H2 Ht2 He64.
  eapply emits_bind; [apply (emits_widen es size); [by apply H2|done|done]|]. intros s64 b3 H3 Ht3 Hs64.
  eapply emits_bind.
  { apply (emits_unsigned_at UnsignedGreaterThan Z.ltb I64 e64 s64 ((i + l) mod 2 ^ 64) size); try done.
    - by right; right.
    - apply H3. exact (value_mod _ _ _ _ _ I64 _ He64).
    - by apply Z.mod_pos_bound.
    - cbn [lt_bits]. lia. }
  intros oob b4 H4 Ht4 Hoob.
  assert (Ec : (2 ^ 64 <=? i + l) || (size <? (i + l) mod 2 ^ 64) = (size <? i + l)).
  { destruct (Z.leb_spec (2 ^ 64) (i + l)); simpl; [symmetry; apply Z.ltb_lt; lia|]. by rewrite Z.mod_small by lia. }
  eapply (emits_bind _ _ _ _ _ _ b4 (size <? i + l) _ _ (fun _ _ => True)).
  { rewrite <- Ec. apply (emits_trapnz env machine allowed Hallowed e0 (oob_trap_code entity) _ (entity_trap_code entity) pointer_is_word
      oob I8 (b2z (size <? (i + l) mod 2 ^ 64))); [by left|done|done| |by right; right]. by destruct (size <? _). }
  intros [] b5 H5 Ht5 _.
  eapply (emits_bind _ _ _ _ _ _ b5 _ _ _ (fun r b' => value b' r pointer (entity_base entity))).
  { destruct entity; by apply emits_global. }
  intros base b6 H6 Ht6 Hbase. eapply (emits_value_type _ _ _ _ base); [exact Hbase|]. apply emits_assert; [by apply bool_decide_eq_true|].
  eapply emits_bind; [apply (emits_native (entity_index_type entity) u i); [by apply H6, H5, H4, H3, H2, H1|done|done]|]. intros ix b7 H7 Ht7 Hix.
  eapply (emits_value_type _ _ _ _ ix); [exact Hix|]. apply emits_assert; [by apply bool_decide_eq_true|].
  eapply emits_bind; [by apply (emits_imul_imm pointer ix i); [apply pointer_is_word|..]|]. intros off b8 H8 Ht8 Hoff.
  apply emits_iadd; [apply pointer_is_word|by apply H8, H7|done|done].
Qed.
End emission.

(** ** Properties *)

(** C5. The bounds check of a bulk operation on a memory or a table, on hosts of 32
    and 64 bits, for either index type and every index and length, after code that
    has not trapped: the translation never panics; the code raises the trap of the
    entity, as the configuration allows, exactly when the range reaches past the
    end of the entity, wrapping included; otherwise the new value is the address
    of the first element. *)
Theorem entity_bounds_check_correct env machine e0 entity size i l u v b :
  let ty := index_type_to_ir_type (entity_index_type entity) in
  target_ok env -> entity_ok env machine entity size ->
  value env machine e0 b u ty i -> value env machine e0 b v ty l ->
  0 <= i < 2 ^ lt_bits ty -> 0 <= l < 2 ^ lt_bits ty ->
  (exists values, outcome_of env machine e0 b = Running values None) ->
  match translate_entity_bounds_check env entity u v b with
  | Ret r b' =>
      if size <? i + l then
        exists native, outcome_of env machine e0 b' = Raised native (Some (Normal (entity_trap entity))) /\
          (native = true -> clif_instruction_traps_enabled env = true)
      else
        exists values, outcome_of env machine e0 b' = Running values None /\
          values !! r = Some (uval (pointer_type env) (entity_base machine entity + i * entity_element_size env entity))
  | _ => False
  end.
Proof.
  intros ty Htg Ho Hu Hv Hi Hl Ht.
  pose proof (emits_entity_bounds_check env machine e0 Htg (clif_instruction_traps_enabled env) (fun E => E)
    entity u v i l b size Ho Hu Hv Hi Hl Ht) as H.
  unfold emits, wp in H. destruct (translate_entity_bounds_check env entity u v b) as [r b'|[]|]; [|done].
  destruct H as (_ & Htr & _ & Hval). unfold outcome_of. destruct (size <? i + l).
  - destruct Htr as (n & E & Hn). exists n. split; [done|]. by intros [|]%Hn.
  - destruct Htr as [e E]. exists e. split; [done|]. by eapply Hval.
Qed.

(** C18. The address of an element of a table, on hosts of 32 and 64 bits, for either
    index type, tables of fixed or changing size and every index: the
    translation never panics.  Without the mitigation of speculative accesses the code raises an
    out-of-bounds trap exactly when there is no such element; with it the code
    runs on, the address is null exactly then, and the access at the address is one whose
    fault is that trap.  Otherwise the address is that of the element. *)
Theorem table_address_correct env machine e0 table size i u b :
  let ty := index_type_to_ir_type (t_idx_type table) in
  target_ok env -> table_ok env machine table size -> value env machine e0 b u ty i -> 0 <= i < 2 ^ lt_bits ty ->
  (exists values, outcome_of env machine e0 b = Running values None) ->
  match prepare_table_addr env (make_table env table) u b with
  | Ret (r, code) b' =>
      if negb (spectre env) && (size <=? i) then
        exists native, outcome_of env machine e0 b' = Raised native (Some (Normal TableOutOfBounds)) /\
          (native = true -> clif_instruction_traps_enabled env = true)
      else
        code = (if spectre env then Some TRAP_TABLE_OUT_OF_BOUNDS else None) /\
        exists values, outcome_of env machine e0 b' = Running values None /\
          values !! r = Some (uval (pointer_type env)
            (if size <=? i then 0 else table_base machine + i * element_size (make_table env table)))
  | _ => False
  end.
Proof.
  intros ty Htg Ho Hu Hi Ht.
  pose proof (emits_prepare_table_addr env machine e0 Htg (clif_instruction_traps_enabled env) (fun E => E)
    table size u i b Ho Hu Hi Ht) as H.
  unfold emits, wp in H. destruct (prepare_table_addr env (make_table env table) u b) as [[r code] b'|[]|]; [|done].
  destruct H as (_ & Htr & (_ & Hval) & Hcode). unfold outcome_of. cbn [fst snd] in *.
  destruct (spectre env); cbn [negb andb] in *.
  - destruct Htr as [e E]. split; [done|]. exists e. split; [done|]. by eapply Hval.
  - destruct (size <=? i).
    + destruct Htr as (n & E & Hn). exists n. split; [done|]. by intros [|]%Hn.
    + destruct Htr as [e E]. split; [done|]. exists e. split; [done|]. by eapply Hval.
Qed.

(** ** Concrete tables *)

(** A table of functions that can grow, with ten elements, of 32-bit indices. *)
Definition growing_table : TableType := mkTableType Idx32 1 None Tables.Func.
Definition ten_elements : Machine := mkMachine 0 0 0 4096 10.

Lemma entity_bounds_check_correct_witness :
  match translate_entity_bounds_check (host 0 0) (ETable growing_table) 0%nat 1%nat two_params with
  | Ret r b' => exists native, outcome_of (host 0 0) ten_elements (param_values 7 4) b' = Raised native (Some (Normal TableOutOfBounds)) /\
      (native = true -> clif_instruction_traps_enabled (host 0 0) = true)
  | _ => False
  end.
Proof.
  apply (entity_bounds_check_correct (host 0 0) ten_elements (param_values 7 4) (ETable growing_table) 10 7 4 0%nat 1%nat two_params).
  - split; [by right|done].
  - split; [done|done|done|done].
  - exact (Emit.param_value _ _ 7 4 0 ltac:(lia)).
  - exact (Emit.param_value _ _ 7 4 1 ltac:(lia)).
  - done.
  - done.
  - by eexists.
Defined.

Lemma table_address_correct_witness :
  match prepare_table_addr (host 0 0) (make_table (host 0 0) growing_table) 0%nat two_params with
  | Ret (r, code) b' => code = Some TRAP_TABLE_OUT_OF_BOUNDS /\
      exists values, outcome_of (host 0 0) ten_elements (param_values 9 0) b' = Running values None /\ values !! r = Some (uval I64 4168)
  | _ => False
  end.
Proof.
  apply (table_address_correct (host 0 0) ten_elements (param_values 9 0) growing_table 10 9 0%nat two_params).
  - split; [by right|done].
  - split; [done|done|done|done].
  - exact (Emit.param_value _ _ 9 0 0 ltac:(lia)).
  - done.
  - by eexists.
Defined.
