(* ===== verification/MemorySafety.v ===== *)
(** * Memories under compiled code

    What the parts do together: an instance whose memory was made and grows as in
    LinearMemory.v, the accesses, [memory.size] and [memory.grow] that are compiled for
    it as in BoundsCheck.v and MemorySize.v, the libcall between them (runtime/vm/libcalls.rs,
    instance.rs), and faults.  The compiler and the runtime share only the type of the memory,
    the tunables and the two words that an instance shows to its code.

    [heap_memory_ok]: a memory satisfies what the compiler assumes of it.
    [guest_memory_refined]: whatever a guest does with a new memory, its bytes and
    answers are those of the list of bytes that the WebAssembly specification
    describes, and nothing that the process had mapped before is changed or
    unmapped.  Also here: the check that host functions make for atomic accesses. *)

From S2P Require Import Prelude MemoryTypes TrapEncoding ClifTypes DivConst CondCodes ClifValue ClifOps ClifStep Emit BoundsCheck MemorySize.
From S2P Require Import SlabLayout.
From S2P Require CowSlot Allocations.
From S2P Require Import LinearMemory.
Import Allocations (AddressSpace, cell_at, space, mapped_at, space_ok, frame, isolated, store, RuntimeLinearMemory,
  LinearMemoryLaws, byte_size, byte_capacity, base_ptr, base_mmap, Mapper, Allocator).
Import CowSlot (OS, MemoryImage).

(** ** The instance *)

(** A memory and the [VMMemoryDefinition] that compiled code reads. *)
Record Instance_ {A : Type} := mkInstance { linear : LocalMemory.t A; vmmemory : Z * Z }.
#[global] Arguments Instance_ : clear implicits.
#[global] Arguments mkInstance {A} _ _.

Section instance.
Context `{Host} `{OS} {A : Type} `{!RuntimeLinearMemory A}.
Abbreviation state := (Instance_ A * AddressSpace)%type.

(** [LocalMemory::vmmemory]: base and current length. *)
Definition vmmemory_of (m : LocalMemory.t A) : Z * Z := (base_ptr (LocalMemory.alloc m), byte_size (LocalMemory.alloc m)).

(** [Instance::memory_grow]: the definition is updated whatever came of it. *)
Definition memory_grow (delta : Z) (limiter : option Limiter) : M state PoolError (option Z) :=
  result <- catch (zoom (fun p => (linear p.1, p.2)) (fun q p => (mkInstance q.1 (vmmemory p.1), q.2))
                     (LocalMemory.grow delta limiter)) ;;
  modify (fun p : state => (mkInstance (linear p.1) (vmmemory_of (linear p.1)), p.2)) ;;;
  match result with
  | inl e => fail e
  | inr (Some (old, _)) => ret (Some old)
  | inr None => ret None
  end.

(** The libcall. *)
Definition memory_grow_libcall (ty : Memory.t) (delta : Z) (limiter : option Limiter) : M state PoolError (option Z) :=
  result <- memory_grow delta limiter ;;
  ret (size_in_bytes ← result; Some (Z.shiftr size_in_bytes (Memory.page_size_log2 ty))).

(** What compiled code and the fault handler see. *)
Definition heap_memory (p : state) : HeapMemory :=
  mkHeapMemory MemoryTypes.LinearMemory (vmmemory p.1).1 (vmmemory p.1).2
    (default 0 (range ← LocalMemory.wasm_accessible (linear p.1); Some range.2))
    (fun a => CowSlot.readwrite (cell_at p.2 a)).
End instance.

(** ** The memory keeps the compiler's assumptions *)

(** The host the code runs on has 64-bit pointers, and pages no larger than the
    compiler takes them for; reservations are whole pages. *)
Record matches `{Host} (env : FuncEnvironment) (heap : HeapData) : Prop := {
  ma_target : target_ok env;
  ma_pointer : pointer_type env = I64;
  ma_kind : kind heap = MemoryTypes.LinearMemory;
  ma_page : host_page_log2 <= page_size_align_log2 env;
  ma_type : Memory.valid (memory heap);
  ma_tunables : MemoryTunables.valid (memory_tunables heap (tunables env));
  ma_reservation : (host_page_size | MemoryTunables.reservation (memory_tunables heap (tunables env)));
}.

Section promise.
Context `{Host} `{OS} {A : Type} `{!RuntimeLinearMemory A} `{!LinearMemoryLaws A} (images : Z -> MemoryImage).
Context (env : FuncEnvironment) (heap : HeapData) (Hma : matches env heap).
Context (Hmap : signals_based_traps (tunables env) = true -> base_mmap = true).
Abbreviation mt := (memory_tunables heap (tunables env)).
Abbreviation state := (Instance_ A * AddressSpace)%type.

(** An instance whose memory is in order. *)
Definition instance_ok (p : state) : Prop :=
  local_ok images (linear p.1) p.2 /\ configured (memory heap) mt (linear p.1) /\ vmmemory p.1 = vmmemory_of (linear p.1).

Section ok.
Context (m : LocalMemory.t A) (s : AddressSpace) (Hok : local_ok images m s) (Hc : configured (memory heap) mt m).
Abbreviation p := (mkInstance m (vmmemory_of m), s).

Lemma region_eq : h_region (heap_memory p) =
  Z.max (cap m) (MemoryTunables.reservation mt) + MemoryTunables.guard_size mt.
Proof.
  destruct (cap_eq images m s Hok) as (E & _). unfold heap_memory. cbn [h_region linear fst]. unfold LocalMemory.wasm_accessible.
  rewrite E. cbn. by rewrite (cf_memory_reservation _ _ _ Hc), (cf_guard_size _ _ _ Hc).
Qed.

Lemma page_aligned : can_use_virtual_memory env heap = true -> (host_page_size | size m).
Proof.
  intros [[_ Hl%Z.leb_le]%andb_prop _]%andb_prop. etrans; [|apply (cf_pages _ _ _ Hc)].
  rewrite host_page_size_pow2. unfold Memory.page_size. rewrite Z.shiftl_1_l. pose proof host_page_log2_range.
  pose proof (ma_page _ _ Hma). exists (2 ^ (Memory.page_size_log2 (memory heap) - host_page_log2)).
  rewrite <- Z.pow_add_r by lia. f_equal. lia.
Qed.

(** Behind the bytes of the memory nothing is accessible, where faults are relied on. *)
Lemma guard_inaccessible a : can_use_virtual_memory env heap = true ->
  start m + size m <= a < start m + (cap m + Allocations.guard_of (LocalMemory.alloc m)) -> CowSlot.readwrite (cell_at s a) = false.
Proof.
  intros Hvm Ha. destruct (cap_eq images m s Hok) as (E & Hsz & _). pose proof (lo_alloc _ _ _ Hok) as Hv.
  assert (base_mmap = true) as Hmm.
  { apply Hmap. by apply andb_prop in Hvm as [[? _]%andb_prop _]. }
  destruct (Z.ltb_spec a (start m + cap m)).
  - assert (0 <= a - start m < cap m) as Ho by lia. destruct (Allocations.image_view _ s (cap m) (a - start m) Hmm Hv E Ho) as [Hrw _].
    replace (base_ptr (LocalMemory.alloc m) + (a - start m)) with a in Hrw by (unfold start; lia).
    rewrite Hrw, Allocations.round_up_aligned; [apply Z.ltb_ge; unfold size in *; lia|unfold size in *; lia|by apply page_aligned].
  - apply (Allocations.valid_guard (LocalMemory.alloc m) s (cap m)); [done|done|]. unfold start in *. lia.
Qed.

Lemma space_ends a : 0 <= a < 4096 \/ 2 ^ 63 <= a -> CowSlot.readwrite (cell_at s a) = false.
Proof.
  intros Ha. pose proof (Allocations.valid_space _ _ (lo_alloc _ _ _ Hok)) as Hs. apply not_true_is_false. intros Hrw.
  destruct (Allocations.so_access _ Hs a Hrw) as (r & Hr & ?). pose proof (Allocations.so_range _ Hs r Hr). lia.
Qed.

Lemma heap_memory_ok : heap_ok env heap (heap_memory p).
Proof.
  destruct (cap_eq images m s Hok) as (E & Hsz & Hg & Hst & H47). pose proof (cf_guard _ _ _ Hc). pose proof (cf_reservation _ _ _ Hc).
  destruct (ma_tunables _ _ Hma) as [Hr0 Hg0 _ _]. pose proof region_eq as Hreg.
  pose proof (ma_type _ _ Hma) as Hty. pose proof (ma_pointer _ _ Hma) as Hp.
  split; rewrite ?Hreg; cbn [heap_memory h_kind h_base h_bound accessible fst snd vmmemory_of vmmemory linear].
  - symmetry. apply (ma_kind _ _ Hma).
  - done.
  - apply (ma_tunables _ _ Hma).
  - apply (cf_min _ _ _ Hc).
  - apply (cf_max _ _ _ Hc).
  - rewrite Hp. cbn [lt_bits]. unfold start in *. lia.
  - unfold size in *. lia.
  - intros a Ha. replace a with (start m + (a - start m)) by lia.
    apply (Allocations.valid_readwrite (LocalMemory.alloc m) s (a - start m)); [apply Hok|]. unfold start in *. lia.
  - intros a _. apply space_ends.
  - intros Hvm. split; [unfold size in *; lia|]. intros a Ha. apply guard_inaccessible; [done|]. unfold start, size in *. lia.
  - intros Hvm Hmv Hmin. destruct (cf_min _ _ _ Hc) as (mn & Emn & _). unfold minimum_or_max in Hmin. rewrite Emn in Hmin.
    assert (base_mmap = true) as Hmm by (apply Hmap; by apply andb_prop in Hvm as [[? _]%andb_prop _]).
    pose proof (cf_fixed _ _ _ Hc mn Hmm) as Hfix. rewrite (cf_move _ _ _ Hc) in Hfix. specialize (Hfix Hmv Emn Hmin).
    rewrite (Allocations.round_up_aligned _ Hr0 (ma_reservation _ _ Hma)) in Hfix. unfold size in *. lia.
Qed.
End ok.
End promise.

(** ** What a guest does *)

Inductive Action :=
| Load (idx offset size : Z)
| Store (idx offset : Z) (bytes : list Z)
| Size
| Grow (delta : Z) (limiter : option Limiter).

(** [Raises] is the limiter's error. *)
Inductive Observation :=
| Loaded (bytes : list Z)
| Stored
| Sized (pages : Z)
| Grown (answer : Z)
| Trapped (t : option CompiledTrap)
| Raises.

Definition stops (o : Observation) : bool := match o with Trapped _ | Raises => true | _ => false end.

Fixpoint store_bytes (a : Z) (bytes : list Z) (s : AddressSpace) : AddressSpace :=
  match bytes with [] => s | b :: bytes => store_bytes (a + 1) bytes (store a b s) end.

Section guest.
Context `{Host} `{OS} {A : Type} `{!RuntimeLinearMemory A} (env : FuncEnvironment) (heap : HeapData).
Abbreviation state := (Instance_ A * AddressSpace)%type.

(** The value that emitted code computes. *)
Definition computed (h : HeapMemory) (e0 : gmap nat DataValue) (r : outcome Builder Empty_set Value) : option Z :=
  match r with
  | Ret v b =>
      match outcome_of env (machine_of 0 h) e0 b with
      | Running e _ => match e !! v with Some (VI l x) => Some (wrap (lt_bits l) x) | _ => None end
      | _ => None
      end
  | _ => None
  end.

Definition compiled_size (h : HeapMemory) : option Z :=
  computed h ∅ (translate_memory_size env (memory heap) (mkBuilder [] [])).
Definition compiled_grow_argument (h : HeapMemory) (delta : Z) : option Z :=
  computed h (param_value (index_type heap) delta)
    (translate_memory_grow_argument (memory heap) 0%nat (param (index_type heap))).
Definition compiled_grow_result (h : HeapMemory) (r : Z) : option Z :=
  computed h (param_value (pointer_type env) r)
    (translate_memory_grow_result env (memory heap) 0%nat (param (pointer_type env))).

(** One action, compiled and run; no answer is the end of the process or a
    panic. *)
Definition step (a : Action) (p : state) : option (Observation * state) :=
  let h := heap_memory p in
  match a with
  | Load idx offset size =>
      match run_access env heap h idx offset size with
      | Touches a => Some (Loaded (map (fun k => CowSlot.value (cell_at p.2 (a + k))) (seqZ 0 size)), p)
      | Traps t => Some (Trapped t, p)
      | Aborts | Wrong => None
      end
  | Store idx offset bytes =>
      match run_access env heap h idx offset (zlen bytes) with
      | Touches a => Some (Stored, (p.1, store_bytes a bytes p.2))
      | Traps t => Some (Trapped t, p)
      | Aborts | Wrong => None
      end
  | Size => pages ← compiled_size h; Some (Sized pages, p)
  | Grow delta limiter =>
      delta ← compiled_grow_argument h delta;
      match memory_grow_libcall (memory heap) delta limiter p with
      | Ret result p =>
          r ← into_abi 64 result;
          answer ← compiled_grow_result (heap_memory p) r;
          Some (Grown answer, p)
      | Fail _ p => Some (Raises, p)
      | Panic => None
      end
  end.

Fixpoint run (l : list Action) (p : state) : option (list Observation * state) :=
  match l with
  | [] => Some ([], p)
  | a :: l =>
      '(o, p) ← step a p;
      if stops o then Some ([o], p)
      else '(os, p) ← run l p; Some (o :: os, p)
  end.
End guest.

(** The operands of instructions are integers of their types. *)
Definition sane (heap : HeapData) (a : Action) : Prop :=
  let access idx offset size :=
    0 <= idx < 2 ^ lt_bits (index_type heap) /\ 0 <= offset <= u64_MAX /\
    (index_type heap = I32 -> offset <= u32_MAX) /\ 0 < size <= u8_MAX in
  match a with
  | Load idx offset size => access idx offset size
  | Store idx offset bytes => access idx offset (zlen bytes)
  | Size => True
  | Grow delta _ => 0 <= delta < 2 ^ lt_bits (index_type heap)
  end.

(** ** The memories of WebAssembly

    A list of bytes.  Growing may fail, and a limiter may raise an error; the answer
    of a growth that succeeds is not the one of a failure. *)

Section wasm.
Context (ty : Memory.t).
Abbreviation bits := (lt_bits (index_type_to_ir_type (Memory.idx_type ty))).

Inductive wasm_step : list Z -> Action -> Observation -> list Z -> Prop :=
| wasm_load idx offset size m : idx + offset + size <= zlen m ->
    wasm_step m (Load idx offset size) (Loaded (take (Z.to_nat size) (drop (Z.to_nat (idx + offset)) m))) m
| wasm_load_trap idx offset size m : zlen m < idx + offset + size ->
    wasm_step m (Load idx offset size) (Trapped (Some (Normal MemoryOutOfBounds))) m
| wasm_store idx offset bytes m : idx + offset + zlen bytes <= zlen m ->
    wasm_step m (Store idx offset bytes) Stored (list_inserts (Z.to_nat (idx + offset)) bytes m)
| wasm_store_trap idx offset bytes m : zlen m < idx + offset + zlen bytes ->
    wasm_step m (Store idx offset bytes) (Trapped (Some (Normal MemoryOutOfBounds))) m
| wasm_size m : wasm_step m Size (Sized (zlen m / Memory.page_size ty)) m
| wasm_grow delta limiter m :
    (0 < delta -> forall max, Memory.maximum_byte_size ty = Some max -> zlen m + delta * Memory.page_size ty <= max) ->
    zlen m / Memory.page_size ty < 2 ^ bits - 1 ->
    wasm_step m (Grow delta limiter) (Grown (zlen m / Memory.page_size ty))
      (m ++ replicate (Z.to_nat (delta * Memory.page_size ty)) 0)
| wasm_grow_fails delta limiter m : wasm_step m (Grow delta limiter) (Grown (2 ^ bits - 1)) m
| wasm_grow_raises delta limiter m : wasm_step m (Grow delta (Some limiter)) Raises m.

Inductive wasm_run : list Z -> list Action -> list Observation -> list Z -> Prop :=
| wasm_done m : wasm_run m [] [] m
| wasm_stops m a l o m' : stops o = true -> wasm_step m a o m' -> wasm_run m (a :: l) [o] m'
| wasm_goes_on m a l o m' os m'' : stops o = false -> wasm_step m a o m' -> wasm_run m' l os m'' ->
    wasm_run m (a :: l) (o :: os) m''.
End wasm.

(** ** Lists of bytes *)

Section bytes.
Context (f : Z -> Z) (n : Z).
Abbreviation bytes f n := (map f (seqZ 0 n)).

Lemma bytes_lookup (g : Z -> Z) k i : bytes g k !! i = if Z.of_nat i <? k then Some (g (Z.of_nat i)) else None.
Proof.
  rewrite list_lookup_fmap. destruct (Z.ltb_spec (Z.of_nat i) k) as [Hi|Hi].
  - by rewrite (proj2 (lookup_seqZ 0 k i (Z.of_nat i))) by lia.
  - by rewrite lookup_seqZ_ge by lia.
Qed.

Lemma bytes_length : 0 <= n -> zlen (bytes f n) = n.
Proof. intros ?. unfold zlen. rewrite length_fmap, length_seqZ. lia. Qed.

Lemma bytes_slice k m : 0 <= k -> 0 <= m -> k + m <= n ->
  take (Z.to_nat m) (drop (Z.to_nat k) (bytes f n)) = bytes (fun i => f (k + i)) m.
Proof.
  intros Hk Hm Hle. apply list_eq. intros i. rewrite bytes_lookup. destruct (Z.ltb_spec (Z.of_nat i) m).
  - rewrite lookup_take_lt, lookup_drop, bytes_lookup by lia. rewrite (proj2 (Z.ltb_lt _ _)) by lia. do 2 f_equal. lia.
  - by rewrite lookup_take_ge by lia.
Qed.

Lemma bytes_inserts g k bs : 0 <= k -> k + zlen bs <= n ->
  (forall o, 0 <= o < n -> g o = if CowSlot.in_range k (zlen bs) o then default 0 (bs !! Z.to_nat (o - k)) else f o) ->
  bytes g n = list_inserts (Z.to_nat k) bs (bytes f n).
Proof.
  intros Hk Hle Hg. unfold zlen in *. apply list_eq. intros i. rewrite bytes_lookup.
  destruct (Z.ltb_spec (Z.of_nat i) n) as [Hi|Hi].
  - rewrite Hg by lia. destruct (CowSlot.in_range k _ (Z.of_nat i)) eqn:E.
    + apply CowSlot.in_range_spec in E. rewrite list_lookup_inserts by (rewrite ?length_fmap, ?length_seqZ; lia).
      replace (Z.to_nat (Z.of_nat i - k)) with (i - Z.to_nat k)%nat by lia.
      destruct (lookup_lt_is_Some_2 bs (i - Z.to_nat k)) as [x Hx]; [lia|]. by rewrite Hx.
    + assert (~ (k <= Z.of_nat i < k + Z.of_nat (length bs))) as Hout.
      { intros Hin. by rewrite (proj2 (CowSlot.in_range_spec _ _ _) Hin) in E. }
      assert (bytes f n !! i = Some (f (Z.of_nat i))) as <- by by rewrite bytes_lookup, (proj2 (Z.ltb_lt _ _)) by lia.
      symmetry. destruct (Z.le_gt_cases k (Z.of_nat i)); [apply list_lookup_inserts_ge|apply list_lookup_inserts_lt]; lia.
  - symmetry. apply lookup_ge_None_2. rewrite length_inserts, length_fmap, length_seqZ. lia.
Qed.

Lemma bytes_append g k : 0 <= n -> 0 <= k -> (forall o, 0 <= o < n + k -> g o = if o <? n then f o else 0) ->
  bytes g (n + k) = bytes f n ++ replicate (Z.to_nat k) 0.
Proof.
  intros Hn Hk Hg. apply list_eq. intros i. rewrite bytes_lookup.
  destruct (Z.ltb_spec (Z.of_nat i) (n + k)) as [Hi|Hi].
  - rewrite Hg by lia. destruct (Z.ltb_spec (Z.of_nat i) n).
    + rewrite lookup_app_l by (rewrite length_fmap, length_seqZ; lia). by rewrite bytes_lookup, (proj2 (Z.ltb_lt _ _)) by lia.
    + rewrite lookup_app_r by (rewrite length_fmap, length_seqZ; lia). rewrite length_fmap, length_seqZ.
      symmetry. apply lookup_replicate. split; [done|lia].
  - symmetry. apply lookup_ge_None_2. rewrite length_app, length_fmap, length_seqZ, length_replicate. lia.
Qed.
End bytes.

Lemma store_bytes_value bs a s x : CowSlot.value (cell_at (store_bytes a bs s) x) =
  if CowSlot.in_range a (zlen bs) x then default 0 (bs !! Z.to_nat (x - a)) else CowSlot.value (cell_at s x).
Proof.
  revert a s. induction bs as [|b bs IH]; intros a s; cbn [store_bytes].
  - destruct (CowSlot.in_range a (zlen []) x) eqn:E; [|done]. apply CowSlot.in_range_spec in E. unfold zlen in E. simpl in E. lia.
  - rewrite IH. unfold zlen. cbn [length].
    destruct (CowSlot.in_range (a + 1) _ x) eqn:E1, (CowSlot.in_range a _ x) eqn:E2; try apply CowSlot.in_range_spec in E1;
      try apply CowSlot.in_range_spec in E2.
    + replace (Z.to_nat (x - a)) with (S (Z.to_nat (x - (a + 1)))) by lia. done.
    + exfalso. rewrite (proj2 (CowSlot.in_range_spec _ _ _)) in E2; [done|lia].
    + assert (x = a) as ->.
      { destruct (Z.eq_dec x a); [done|]. rewrite (proj2 (CowSlot.in_range_spec _ _ _)) in E1; [done|lia]. }
      rewrite Allocations.store_at, Z.eqb_refl, Z.sub_diag. done.
    + rewrite Allocations.store_at. destruct (Z.eqb_spec x a) as [->|]; [|done].
      rewrite (proj2 (CowSlot.in_range_spec _ _ _)) in E2; [done|lia].
Qed.

(** ** Each action does what WebAssembly says *)

Lemma grow_needs_limiter `{Host} `{OS} {A : Type} `{!RuntimeLinearMemory A} delta (p : LocalMemory.t A * AddressSpace) e q :
  LocalMemory.grow delta None p <> Fail e q.
Proof.
  unfold LocalMemory.grow, Allocations.self_, bind, ret. cbn [fst]. destruct (delta =? 0); [done|].
  destruct (negb _); [done|]. unfold memory_growing_, Allocations.on_os, zoom, ret. cbn. unfold unwrap.
  destruct (byte_capacity _); [|done]. unfold ret, catch. destruct (LocalMemory.grow_allocation _ _ _) as [[] q'|e' q'|]; try done.
  cbn. destruct (_ <=? _); [|done]. unfold rust_assert, ret. by destruct (_ =? _).
Qed.

Section simulation.
Context `{Host} `{OS} {A : Type} `{!RuntimeLinearMemory A} `{!LinearMemoryLaws A} (images : Z -> MemoryImage).
Context (env : FuncEnvironment) (heap : HeapData) (Hma : matches env heap) (Hat : CowSlot.atomic_failures).
Context (Hmap : signals_based_traps (tunables env) = true -> base_mmap = true).
Abbreviation mt := (memory_tunables heap (tunables env)).
Abbreviation ty := (memory heap).
Abbreviation state := (Instance_ A * AddressSpace)%type.
Abbreviation ok := (instance_ok images env heap).
Abbreviation local := (LocalMemory.t A * AddressSpace)%type.

(** The bytes of the memory. *)
Definition contents (p : local) : list Z := map (fun o => CowSlot.value (cell_at p.2 (start p.1 + o))) (seqZ 0 (size p.1)).

Abbreviation local_of p := (linear p.1, p.2).

Lemma contents_zlen p : local_ok images p.1 p.2 -> zlen (contents p) = size p.1.
Proof. intros Hok. destruct (cap_eq images _ _ Hok) as (_ & ? & _). apply bytes_length. lia. Qed.

Lemma instance_heap_ok p : ok p -> heap_ok env heap (heap_memory p).
Proof.
  destruct p as [[m d] s]. intros (Hok & Hc & E). cbn in Hok, Hc, E. subst d. by apply (heap_memory_ok images env heap Hma Hmap m s).
Qed.

Lemma instance_def p : ok p -> h_base (heap_memory p) = start (linear p.1) /\ h_bound (heap_memory p) = size (linear p.1).
Proof. intros (_ & _ & E). unfold heap_memory. cbn [h_base h_bound]. by rewrite E. Qed.

Lemma run_access_eq p idx offset size : ok p -> 0 <= idx < 2 ^ lt_bits (index_type heap) -> 0 <= offset <= u64_MAX ->
  (index_type heap = I32 -> offset <= u32_MAX) -> 0 < size <= u8_MAX ->
  run_access env heap (heap_memory p) idx offset size =
    wasm_access (heap_memory p) (Some (Normal MemoryOutOfBounds)) (idx + offset) size.
Proof.
  intros Hok Hidx Hoff H32 Hsize. pose proof (instance_heap_ok p Hok) as Hh. unfold run_access.
  pose proof (prepare_addr_behaviour env heap (heap_memory p) 0 (param_value (index_type heap) idx) 0%nat idx offset size
    (param (index_type heap)) (ma_target _ _ Hma) Hh (ma_kind _ _ Hma) Hoff H32 Hsize Hidx) as Hp.
  specialize (Hp (param_holds _ _ _ _) ltac:(done) ltac:(by eexists)).
  destruct (prepare_addr _ _ _ _ _ _) as [r b|?|]; [|done..]. by destruct Hp as [-> _].
Qed.

Lemma store_bytes_keeps bs (m : LocalMemory.t A) s o : local_ok images m s -> configured ty mt m -> 0 <= o -> o + zlen bs <= size m ->
  keeps images ty mt (m, s) (m, store_bytes (start m + o) bs s).
Proof.
  revert s o. induction bs as [|b bs IH]; intros s o Hok Hc Ho Hle; cbn [store_bytes].
  - split_and!; [done|done|by split; [apply Allocations.mapped_frame_refl|]|done].
  - unfold zlen in *. cbn [length] in Hle.
    pose proof (store_keeps images ty mt (m, s) o b Hok Hc ltac:(cbn; lia)) as Hk. cbn [fst snd] in Hk.
    eapply keeps_trans; [exact Hk|]. destruct Hk as (Hok1 & Hc1 & _). cbn [fst snd] in *.
    replace (start m + o + 1) with (start m + (o + 1)) by lia. apply IH; [done|done|lia|unfold zlen; lia].
Qed.

(** What [emits] says of code that is run. *)
Lemma computed_value h e0 m b0 tr l x :
  Emit.emits env (machine_of 0 h) e0 true m b0 false tr (fun v b' => Emit.value env (machine_of 0 h) e0 b' v l x) ->
  0 <= x < 2 ^ lt_bits l -> computed env h e0 (m b0) = Some x.
Proof.
  intros Hem Hx. unfold Emit.emits, wp in Hem. unfold computed. destruct (m b0) as [v b|?|]; [|done..].
  destruct Hem as (_ & [e He] & _ & Hv). unfold outcome_of. rewrite He. rewrite (Hv _ _ He). unfold uval.
  f_equal. pose proof (lt_bits_pos l). rewrite wrap_swrap, wrap_small; done || lia.
Qed.

Lemma index_type_eq : index_type_to_ir_type (Memory.idx_type ty) = index_type heap.
Proof. unfold index_type. by destruct (Memory.idx_type ty). Qed.

(** The number of pages fits everywhere. *)
Lemma pages_ok p : ok p -> let n := size (linear p.1) in
  0 <= n < 2 ^ 47 + 1 /\ fits env (Memory.idx_type ty) (Memory.page_size_log2 ty =? 0) (n / Memory.page_size ty).
Proof.
  intros (Hok & Hc & _) n. destruct (cap_eq images _ _ Hok) as (_ & Hsz & ? & ? & ?). split; [unfold n; lia|].
  apply pages_fit; [apply (ma_target _ _ Hma)|apply (ma_type _ _ Hma)| |apply (cf_pages _ _ _ Hc)|apply (cf_allowed _ _ _ Hc)|apply (cf_max _ _ _ Hc)].
  rewrite (ma_pointer _ _ Hma). cbn. unfold n. lia.
Qed.

Lemma compiled_size_eq p : ok p ->
  compiled_size env heap (heap_memory p) = Some (size (linear p.1) / Memory.page_size ty).
Proof.
  intros Hok. destruct (instance_def p Hok) as [_ Eb]. destruct (pages_ok p Hok) as [Hn (Hf & Hf2 & _)].
  destruct Hok as (Hok & Hc & E). rewrite <- Eb in *. unfold compiled_size.
  apply (computed_value _ _ _ _ None (index_type_to_ir_type (Memory.idx_type ty))); [|lia].
  change (h_bound (heap_memory p)) with (heap_bound (machine_of 0 (heap_memory p))).
  apply emits_memory_size; try apply Hma; cbn [heap_bound machine_of]; rewrite ?Eb; try apply Hc; [|by eexists].
  rewrite (ma_pointer _ _ Hma). cbn. lia.
Qed.

Lemma compiled_grow_argument_eq h delta : 0 <= delta < 2 ^ lt_bits (index_type heap) ->
  compiled_grow_argument env heap h delta = Some delta.
Proof.
  intros Hd. unfold compiled_grow_argument. apply (computed_value _ _ _ _ None I64).
  - apply emits_cast_index_to_i64; rewrite ?index_type_eq; [apply param_holds|done|by eexists].
  - unfold index_type in Hd. destruct (Memory.idx_type ty); cbn in *; lia.
Qed.

Lemma compiled_grow_result_eq h r : (forall n, r = Some n -> fits env (Memory.idx_type ty) (Memory.page_size_log2 ty =? 0) n) ->
  compiled_grow_result env heap h (abi_value env r) = Some (wasm_result (Memory.idx_type ty) r).
Proof.
  intros Hf. unfold compiled_grow_result. apply (computed_value _ _ _ _ None (index_type_to_ir_type (Memory.idx_type ty))).
  - apply emits_memory_grow_result; [apply Hma|apply Hma|done|apply param_holds|by eexists].
  - unfold wasm_result. destruct r as [n|]; cbn [default from_option id].
    + destruct (Hf n eq_refl) as (? & ? & _). lia.
    + pose proof (pow_width (lt_bits (index_type_to_ir_type (Memory.idx_type ty)))) as Hp.
      pose proof (lt_bits_pos (index_type_to_ir_type (Memory.idx_type ty))). lia.
Qed.

Lemma grow_contents (p : local) delta limiter : local_ok images p.1 p.2 -> configured ty mt p.1 -> 0 <= delta <= u64_MAX ->
  match LocalMemory.grow delta limiter p with
  | Ret (Some r) q => keeps images ty mt p q /\ r.1 = size p.1 /\
      contents q = contents p ++ replicate (Z.to_nat (delta * Memory.page_size ty)) 0 /\
      (0 < delta -> forall max, Memory.maximum_byte_size ty = Some max -> size p.1 + delta * Memory.page_size ty <= max)
  | Ret None q => keeps images ty mt p q /\ contents q = contents p
  | Fail _ q => keeps images ty mt p q /\ contents q = contents p /\ limiter <> None
  | Panic => False
  end.
Proof.
  destruct p as [m s]. cbn [fst snd]. intros Hok Hc Hd.
  pose proof (grow_keeps images ty mt (m, s) delta limiter Hat Hok Hc Hd) as Hk.
  pose proof (grow_wp images Hat m s Hok delta limiter Hd) as Hw. unfold wp in Hw.
  destruct (cap_eq images _ _ Hok) as (_ & Hsz & _).
  assert (forall q, not_grown images m s q.1 q.2 -> contents q = contents (m, s)) as Hng.
  { intros q [[_ _ E _ Hcon _] _]. unfold contents. rewrite E. cbn [fst snd]. apply list_fmap_ext. intros i o [-> Hi]%lookup_seqZ.
    rewrite Hcon by lia. by rewrite (proj2 (Z.ltb_lt _ _)) by lia. }
  destruct (LocalMemory.grow delta limiter (m, s)) as [[r|] q|e q|] eqn:E; [|by auto| |done].
  - destruct Hw as (-> & Hg & Hmax & _). cbn [fst snd] in *. rewrite (cf_ty _ _ _ Hc) in *.
    split; [done|]. split; [done|]. split; [|by intros ?; apply Hmax].
    unfold contents. rewrite (gt_size _ _ _ _ _ _ Hg). cbn [fst snd].
    assert (0 <= delta * Memory.page_size ty) by (pose proof (Memory.page_size_cases ty (ma_type _ _ Hma)); nia).
    apply bytes_append; [lia|done|]. intros o Ho. by apply (gt_contents _ _ _ _ _ _ Hg).
  - split; [done|]. split; [auto|]. intros ->. by apply (grow_needs_limiter delta (m, s) e q).
Qed.

(** The instance after a growth. *)
Lemma memory_grow_libcall_step p delta limiter : ok p -> 0 <= delta <= u64_MAX ->
  match memory_grow_libcall ty delta limiter p with
  | Ret r q => ok q /\ keeps images ty mt (local_of p) (local_of q) /\
      match r with
      | Some n => n = size (linear p.1) / Memory.page_size ty /\
          contents (local_of q) = contents (local_of p) ++ replicate (Z.to_nat (delta * Memory.page_size ty)) 0 /\
          (0 < delta -> forall max, Memory.maximum_byte_size ty = Some max ->
             size (linear p.1) + delta * Memory.page_size ty <= max)
      | None => contents (local_of q) = contents (local_of p)
      end
  | Fail _ q => ok q /\ keeps images ty mt (local_of p) (local_of q) /\ contents (local_of q) = contents (local_of p) /\ limiter <> None
  | Panic => False
  end.
Proof.
  intros (Hok & Hc & _) Hd. destruct p as [[m d] s]. cbn [linear fst snd] in *.
  pose proof (grow_contents (m, s) delta limiter Hok Hc Hd) as Hg. cbn [fst snd] in Hg.
  unfold memory_grow_libcall, memory_grow, bind, catch, zoom, modify, ret, fail. cbn [fst snd linear vmmemory].
  assert (forall q, keeps images ty mt (m, s) q -> ok (mkInstance q.1 (vmmemory_of q.1), q.2)) as Hq by (intros q (? & ? & _); by split_and!).
  destruct (LocalMemory.grow delta limiter (m, s)) as [[[old new]|] [m' s']|e [m' s']|]; cbn [fst snd linear vmmemory mbind option_bind] in *.
  - destruct Hg as (Hk & -> & Hcon & Hmax). split_and!; [by apply (Hq (m', s'))|done| |done|done].
    unfold Memory.page_size. rewrite Z.shiftl_1_l, Z.shiftr_div_pow2; [done|].
    destruct (Memory.v_log2 ty (ma_type _ _ Hma)) as [-> | ->]; lia.
  - destruct Hg as (Hk & Hcon). split_and!; [by apply (Hq (m', s'))|done|done].
  - destruct Hg as (Hk & Hcon & Hl). split_and!; [by apply (Hq (m', s'))|done..].
  - done.
Qed.

(** One action. *)
Definition simulates (a : Action) (p : state) : Prop := exists o q,
  step env heap a p = Some (o, q) /\ ok q /\ keeps images ty mt (local_of p) (local_of q) /\
  wasm_step ty (contents (local_of p)) a o (contents (local_of q)).

Lemma keeps_refl p : ok p -> keeps images ty mt (local_of p) (local_of p).
Proof. intros (Hok & Hc & _). split_and!; [done|done|by split; [apply Allocations.mapped_frame_refl|]|lia]. Qed.

Lemma load_simulates idx offset size p : ok p -> sane heap (Load idx offset size) -> simulates (Load idx offset size) p.
Proof.
  intros Hok (Hidx & Hoff & H32 & Hs). pose proof (instance_def p Hok) as [Eb En]. pose proof (keeps_refl p Hok) as Hk.
  pose proof Hok as (Hlok & Hlc & _). pose proof (contents_zlen (local_of p) Hlok) as Hlen. cbn [fst snd] in Hlen.
  unfold simulates. cbn [step]. rewrite run_access_eq by done. unfold wasm_access. rewrite En, Eb.
  destruct (Z.leb_spec (idx + offset + size) (LinearMemory.size (linear p.1))).
  - do 2 eexists. split; [done|]. split_and!; [done|done|].
    assert (map (fun k => CowSlot.value (cell_at p.2 (start (linear p.1) + (idx + offset) + k))) (seqZ 0 size) =
      take (Z.to_nat size) (drop (Z.to_nat (idx + offset)) (contents (local_of p)))) as ->.
    { unfold contents. cbn [fst snd]. rewrite bytes_slice by lia. apply list_fmap_ext. intros i o _. do 2 f_equal. lia. }
    constructor. by rewrite Hlen.
  - do 2 eexists. split; [done|]. split_and!; [done|done|]. constructor. by rewrite Hlen.
Qed.

Lemma store_simulates idx offset bs p : ok p -> sane heap (Store idx offset bs) -> simulates (Store idx offset bs) p.
Proof.
  intros Hok (Hidx & Hoff & H32 & Hs). pose proof (instance_def p Hok) as [Eb En]. pose proof (keeps_refl p Hok) as Hk.
  pose proof Hok as (Hlok & Hlc & Hd). pose proof (contents_zlen (local_of p) Hlok) as Hlen. cbn [fst snd] in Hlen.
  unfold simulates. cbn [step]. rewrite run_access_eq by done. unfold wasm_access. rewrite En, Eb.
  destruct (Z.leb_spec (idx + offset + zlen bs) (LinearMemory.size (linear p.1))).
  - do 2 eexists. split; [done|].
    pose proof (store_bytes_keeps bs (linear p.1) p.2 (idx + offset) Hlok Hlc ltac:(lia) ltac:(lia)) as Hk'.
    destruct Hk' as (Hlok' & Hrest). split_and!; [by split_and!|done|apply Hrest..|].
    assert (contents (linear p.1, store_bytes (start (linear p.1) + (idx + offset)) bs p.2) =
      list_inserts (Z.to_nat (idx + offset)) bs (contents (local_of p))) as Econ.
    { unfold contents. cbn [fst snd]. apply bytes_inserts; [lia|lia|]. intros o Ho. rewrite store_bytes_value.
      replace (start (linear p.1) + o - (start (linear p.1) + (idx + offset))) with (o - (idx + offset)) by lia.
      assert (CowSlot.in_range (start (linear p.1) + (idx + offset)) (zlen bs) (start (linear p.1) + o) =
        CowSlot.in_range (idx + offset) (zlen bs) o) as ->; [|done].
      apply eq_true_iff_eq. rewrite !CowSlot.in_range_spec. lia. }
    cbn [linear fst snd]. rewrite Econ. constructor. by rewrite Hlen.
  - do 2 eexists. split; [done|]. split_and!; [done|done|]. constructor. by rewrite Hlen.
Qed.

Lemma grow_simulates delta limiter p : ok p -> sane heap (Grow delta limiter) -> simulates (Grow delta limiter) p.
Proof.
  intros Hok Hd. cbn in Hd. pose proof Hok as (Hlok & _). pose proof (contents_zlen (local_of p) Hlok) as Hlen. cbn [fst snd] in Hlen.
  destruct (pages_ok p Hok) as [Hn Hfit]. unfold simulates. cbn [step]. rewrite compiled_grow_argument_eq by done. cbn [mbind option_bind].
  assert (0 <= delta <= u64_MAX) as Hd'.
  { unfold index_type in Hd. unfold u64_MAX. destruct (Memory.idx_type ty); cbn in Hd; lia. }
  pose proof (memory_grow_libcall_step p delta limiter Hok Hd') as Hg. pose proof (ma_pointer _ _ Hma) as Ep.
  assert (forall r, (forall n, r = Some n -> 0 <= n <= 2 ^ 47) -> into_abi 64 r = Some (abi_value env r)) as Habi.
  { intros [n|] Hr; unfold into_abi, abi_value; rewrite Ep; [|done]. specialize (Hr n eq_refl).
    rewrite (proj2 (Z.ltb_lt _ _)) by lia. done. }
  destruct (memory_grow_libcall ty delta limiter p) as [r q|e q|]; [|..|done].
  - destruct Hg as (Hok' & Hk & Hr). assert (forall n, r = Some n -> n = LinearMemory.size (linear p.1) / Memory.page_size ty) as Er
      by (intros n ->; apply Hr).
    rewrite Habi. 2: { intros n ->%Er. assert (0 < Memory.page_size ty) by (pose proof (Memory.page_size_cases ty (ma_type _ _ Hma)); lia).
      split; [apply Z.div_pos; lia|]. apply Z.div_le_upper_bound; nia. }
    cbn [mbind option_bind]. rewrite compiled_grow_result_eq by (intros n ->%Er; done). cbn [mbind option_bind].
    do 2 eexists. split; [done|]. split_and!; [done|apply Hk..|]. unfold wasm_result.
    destruct r as [n|]; cbn [default from_option id]; [|rewrite Hr; constructor].
    destruct Hr as (-> & -> & Hmax). rewrite <- Hlen in *. constructor; [done|]. apply Hfit.
  - destruct Hg as (Hok' & Hk & Hcon & Hl). do 2 eexists. split; [done|]. split_and!; [done|apply Hk..|]. rewrite Hcon.
    destruct limiter; [constructor|done].
Qed.

Lemma step_simulates a p : ok p -> sane heap a -> simulates a p.
Proof.
  intros Hok Hs. destruct a; [by apply load_simulates|by apply store_simulates| |by apply grow_simulates].
  unfold simulates. cbn [step]. rewrite compiled_size_eq by done. do 2 eexists. split; [done|].
  pose proof (contents_zlen (local_of p) (proj1 Hok)) as Hlen. cbn [fst snd] in Hlen. rewrite <- Hlen.
  split_and!; [done|apply keeps_refl; done..|constructor].
Qed.

Lemma run_simulates l p : ok p -> Forall (sane heap) l -> exists os q,
  run env heap l p = Some (os, q) /\ ok q /\ keeps images ty mt (local_of p) (local_of q) /\
  wasm_run ty (contents (local_of p)) l os (contents (local_of q)).
Proof.
  intros Hok Hl. induction Hl as [|a l Ha _ IH] in p, Hok |- *.
  - do 2 eexists. split; [done|]. split_and!; [done|apply keeps_refl; done..|constructor].
  - destruct (step_simulates a p Hok Ha) as (o & q & E & Hq & Hk & Hw). cbn [run]. rewrite E. cbn [mbind option_bind].
    destruct (stops o) eqn:Es.
    + do 2 eexists. split; [done|]. split_and!; [done|apply Hk..|by econstructor].
    + destruct (IH q Hq) as (os & q' & E' & Hq' & Hk' & Hw'). rewrite E'. cbn [mbind option_bind].
      do 2 eexists. split; [done|]. pose proof (keeps_trans images ty mt _ _ _ Hk Hk') as Ht.
      split_and!; [done|apply Ht..|by eapply wasm_goes_on].
Qed.
End simulation.

(** ** The theorems *)

(** The bytes of a new memory. *)
Definition initial {A} (images : Z -> MemoryImage) (image : option Z) (m : LocalMemory.t A) (n : Z) : list Z :=
  map (CowSlot.expected images (shown_image m image)) (seqZ 0 n).

(** What running [actions] on an instance made in [s0] comes to. *)
Definition refined `{Host} `{OS} {A} `{!RuntimeLinearMemory A} (images : Z -> MemoryImage) (env : FuncEnvironment)
    (heap : HeapData) (image : option Z) (actions : list Action) (s0 : AddressSpace) (m : LocalMemory.t A) (s1 : AddressSpace) : Prop :=
  exists n os q, Memory.minimum_byte_size (memory heap) = Some n /\
    run env heap actions (mkInstance m (vmmemory_of m), s1) = Some (os, q) /\
    wasm_run (memory heap) (initial images image m n) actions os (contents (linear q.1, q.2)) /\
    forall x, mapped_at s0 x -> mapped_at q.2 x /\ cell_at q.2 x = cell_at s0 x.

Lemma created_refined `{Host} `{OS} {A} `{!RuntimeLinearMemory A} `{!LinearMemoryLaws A} images env heap image actions s0 (m : LocalMemory.t A) s1 :
  matches env heap -> CowSlot.atomic_failures -> (signals_based_traps (tunables env) = true -> base_mmap = true) ->
  Forall (sane heap) actions -> created_ok images (memory heap) (memory_tunables heap (tunables env)) image s0 m s1 ->
  refined images env heap image actions s0 m s1.
Proof.
  intros Hma Hat Hmap Hs (Hok & Hc & Hmin & [Hf Hn] & _ & Hcon).
  assert (instance_ok images env heap (mkInstance m (vmmemory_of m), s1)) as Hi by by split_and!.
  destruct (run_simulates images env heap Hma Hat Hmap actions _ Hi Hs) as (os & q & E & Hq & (_ & _ & [Hf' _] & _) & Hw).
  exists (size m), os, q. split_and!; [done|done| |].
  - assert (contents (m, s1) = initial images image m (size m)) as <-; [|done].
    unfold contents, initial. cbn [fst snd]. apply list_fmap_ext. intros i o [-> Hi']%lookup_seqZ. apply Hcon. lia.
  - intros x Hx. destruct (Hf x Hx id) as [Hx' <-]. apply Hf'; [done|]. exact (Hn x Hx id).
Qed.


(** [validate_atomic_addr]: the check that the libcalls of atomics make, given the
    definition of the memory. *)
Definition validate_atomic_addr (def : Z * Z) (addr access_size access_alignment : Z) : TrapEncoding.Trap + Z :=
  if negb (addr mod access_alignment =? 0) then inl HeapMisaligned
  else if negb (saturating_add u64_MAX addr access_size <=? def.2) then inl MemoryOutOfBounds
  else inr ((def.1 + addr) mod 2 ^ 64).

(** For an aligned address the check that the host makes of an atomic access is
    the one that compiled code makes of a load: the same bytes or the same trap,
    whether or not the compiled code has a check at all, and for addresses so large that address and size
    do not add up to 64 bits; and an unaligned address is a trap of its own. *)
Theorem validate_atomic_addr_agrees `{Host} `{OS} {A} `{!RuntimeLinearMemory A} `{!LinearMemoryLaws A} images env heap
    (p : Instance_ A * AddressSpace) addr access_size access_alignment :
  matches env heap -> (signals_based_traps (tunables env) = true -> base_mmap = true) -> instance_ok images env heap p ->
  0 <= addr < 2 ^ lt_bits (index_type heap) -> 0 < access_size <= u8_MAX -> 0 < access_alignment ->
  match validate_atomic_addr (vmmemory p.1) addr access_size access_alignment with
  | inr a => (access_alignment | addr) /\ run_access env heap (heap_memory p) addr 0 access_size = Touches a
  | inl t => (access_alignment | addr) /\ run_access env heap (heap_memory p) addr 0 access_size = Traps (Some (Normal t)) \/
      t = HeapMisaligned /\ ~ (access_alignment | addr)
  end.
Proof.
  intros Hma Hmap Hok Hidx Hsize Hal. unfold validate_atomic_addr.
  pose proof Hok as (Hlok & _ & Ed). destruct (cap_eq images _ _ Hlok) as (_ & Hsz & Hg & Hst & H47).
  destruct (Z.eqb_spec (addr mod access_alignment) 0) as [Ea|Ea]; cbn [negb].
  2: { right. split; [done|]. intros Hd. apply Ea. by apply Z.mod_divide; [lia|]. }
  assert (access_alignment | addr) as Hd by (apply Z.mod_divide; [lia|done]).
  rewrite (run_access_eq images env heap Hma Hmap p) by (done || unfold u64_MAX, u32_MAX in *; lia).
  unfold wasm_access. destruct (instance_def images env heap p Hok) as [-> ->]. rewrite Ed. cbn [vmmemory_of fst snd].
  fold (start (linear p.1)) (LinearMemory.size (linear p.1)). rewrite Z.add_0_r.
  assert (index_type heap = I32 \/ index_type heap = I64) as Hl by (unfold index_type; destruct (Memory.idx_type _); auto).
  assert ((saturating_add u64_MAX addr access_size <=? LinearMemory.size (linear p.1)) = (addr + access_size <=? LinearMemory.size (linear p.1))) as ->.
  { unfold saturating_add, u64_MAX. apply eq_true_iff_eq. rewrite !Z.leb_le. lia. }
  destruct (Z.leb_spec (addr + access_size) (LinearMemory.size (linear p.1))); cbn [negb]; [|by left].
  split; [done|]. rewrite Z.mod_small by lia. done.
Qed.

(** ** Instances *)

#[local] Existing Instance host_4k.
#[local] Existing Instance CowSlot.os_ok.
#[local] Existing Instance bump_mapper.
#[local] Existing Instance bump_allocator.

(** One page, with an image, that may grow in a reservation of 1MiB. *)
Definition env_1MiB : FuncEnvironment := host (2 ^ 20) 65536.
Definition heap_32 : HeapData := mkHeap (one_page Idx32) MemoryTypes.LinearMemory.

Lemma matches_1MiB : matches env_1MiB heap_32.
Proof.
  split; [apply host_target|done..| | |].
  - split; [by right|done|by vm_compute|done].
  - split; by vm_compute.
  - by exists 256.
Defined.

Lemma image_3_fits i minimum : Some 3 = Some i -> Memory.minimum_byte_size (memory heap_32) = Some minimum ->
  memory_init_cow (tunables env_1MiB) = true /\ CowSlot.image_below CowSlot.image_3 (Some i) minimum.
Proof. intros [= <-] [= <-]. by vm_compute. Defined.

(** The observations of a new memory. *)
Definition observe (env : FuncEnvironment) (heap : HeapData) (image : option Z) (actions : list Action) : option (list Observation) :=
  match new_dynamic CowSlot.image_3 (memory heap) (memory_tunables heap (tunables env)) image None no_mappings with
  | Ret (DynMmap m) s1 => fst <$> run env heap actions (mkInstance m (vmmemory_of m), s1)
  | Ret (DynMalloc m) s1 => fst <$> run env heap actions (mkInstance m (vmmemory_of m), s1)
  | _ => None
  end.

Definition program : list Action :=
  [Load 4096 0 2; Store 65500 34 [7; 8]; Grow 1 None; Load 0 65534 4; Size; Grow 65535 None; Load 131070 0 4; Size].

Example program_runs : observe env_1MiB heap_32 (Some 3) program =
  Some [Loaded [3; 4]; Stored; Grown 1; Loaded [7; 8; 0; 0]; Sized 2; Grown (2 ^ 32 - 1); Trapped (Some (Normal MemoryOutOfBounds))].
Proof. vm_compute. reflexivity. Qed.

Lemma program_sane : Forall (sane heap_32) program.
Proof. repeat constructor; vm_compute; done. Defined.


(** A reservation that is not whole pages: the runtime rounds it up and lets the memory grow to
    its second page, the check that the compiler emits for a memory that does not
    move still has the smaller number in it, and bytes that exist cannot be read. *)
Definition env_uneven : FuncEnvironment :=
  mkEnv (mkTunables (2 ^ 17 - 100) 0 0 false (2 ^ 17) 0 0 false true true true false false false false true) false I64 12 true true.

Example uneven_reservation :
  observe env_uneven heap_32 None [Grow 1 None; Size; Load 131060 0 4] =
  Some [Grown 1; Sized 2; Trapped (Some (Normal MemoryOutOfBounds))].
Proof. vm_compute. reflexivity. Qed.

Definition made : LocalMemory.t Allocations.MmapMemory.t * AddressSpace :=
  match new_dynamic CowSlot.image_3 (memory heap_32) (memory_tunables heap_32 (tunables env_1MiB)) (Some 3) None no_mappings with
  | Ret (DynMmap m) s1 => (m, s1)
  | _ => (no_memory, no_mappings)
  end.

Lemma made_ok : instance_ok CowSlot.image_3 env_1MiB heap_32 (mkInstance made.1 (vmmemory_of made.1), made.2).
Proof.
  pose proof matches_1MiB as Hma.
  pose proof (new_dynamic_wp CowSlot.image_3 os_ok_atomic (memory heap_32) (memory_tunables heap_32 (tunables env_1MiB)) (ma_type _ _ Hma)
    (ma_tunables _ _ Hma) (Some 3) None no_mappings no_mappings_ok image_3_fits) as Hw.
  assert (LinearMemory.size made.1 = 65536) as E by by vm_compute.
  unfold wp in Hw. unfold made in *.
  destruct (new_dynamic _ _ _ _ _ _) as [[m|m] s1|e s1|]; [|discriminate E..]. destruct Hw as (Hok & Hc & _). by split_and!.
Qed.

Lemma validate_atomic_addr_agrees_witness :
  let p := (mkInstance made.1 (vmmemory_of made.1), made.2) in
  validate_atomic_addr (vmmemory p.1) 65528 8 8 = inr (2 * 65536 + 65528) /\
  match validate_atomic_addr (vmmemory p.1) 65528 8 8 with
  | inr a => (8 | 65528) /\ run_access env_1MiB heap_32 (heap_memory p) 65528 0 8 = Touches a
  | inl t => (8 | 65528) /\ run_access env_1MiB heap_32 (heap_memory p) 65528 0 8 = Traps (Some (Normal t)) \/
      t = HeapMisaligned /\ ~ (8 | 65528)
  end.
Proof.
  split; [by vm_compute|].
  apply (validate_atomic_addr_agrees CowSlot.image_3 env_1MiB heap_32 (mkInstance made.1 (vmmemory_of made.1), made.2) 65528 8 8).
  - apply matches_1MiB.
  - done.
  - apply made_ok.
  - by vm_compute.
  - by vm_compute.
  - lia.
Defined.
