(* ===== verification/EntityMap.v ===== *)
(** * Maps keyed by entities

    cranelift/entity/src/map.rs: [SecondaryMap], a vector with a default value.  Every key has a value from
    the beginning; the vector grows when a key behind its end is written.  An entity is
    its index.

    Shown: writes and reads are those of a total function, whatever the length of the
    vector; [==] is equality of these functions; serialization keeps them. *)

From S2P Require Import Prelude.

Record SecondaryMap V := mkSecondary { elems : list V; dflt : V }.
#[global] Arguments mkSecondary {V} _ _.
#[global] Arguments elems {V} _.
#[global] Arguments dflt {V} _.

Section map.
Context {V : Type}.
Implicit Types (m : SecondaryMap V) (k : nat) (v : V).

Definition with_default v : SecondaryMap V := mkSecondary [] v.

(** [Index]. *)
Definition index m k : V := default (dflt m) (elems m !! k).

Definition resize m (n : nat) : SecondaryMap V :=
  mkSecondary (take n (elems m) ++ replicate (n - length (elems m)) (dflt m)) (dflt m).

(** [IndexMut]: what is at [k] is changed in place. *)
Definition index_mut (f : V -> V) k m : SecondaryMap V :=
  let m := if (length (elems m) <=? k)%nat then resize m (S k) else m in
  mkSecondary (alter f k (elems m)) (dflt m).

Definition try_insert k v m : option V * SecondaryMap V :=
  match elems m !! k with
  | Some old => (Some old, mkSecondary (<[k := v]> (elems m)) (dflt m))
  | None => let m := resize m (S k) in (None, mkSecondary (<[k := v]> (elems m)) (dflt m))
  end.

Definition remove k m : option V * SecondaryMap V :=
  match elems m !! k with
  | Some old => (Some old, mkSecondary (<[k := dflt m]> (elems m)) (dflt m))
  | None => (None, m)
  end.

Definition clear m : SecondaryMap V := mkSecondary [] (dflt m).

Definition keys m : list nat := seq 0 (length (elems m)).

(** [eq]. *)
Definition eqb `{EqDecision V} m m' : bool :=
  let min_size := Nat.min (length (elems m)) (length (elems m')) in
  bool_decide (dflt m = dflt m') && bool_decide (take min_size (elems m) = take min_size (elems m')) &&
  forallb (fun e => bool_decide (e = dflt m)) (drop min_size (elems m)) &&
  forallb (fun e => bool_decide (e = dflt m')) (drop min_size (elems m')).

(** The elements that [serialize] writes after the default. *)
Fixpoint trim `{EqDecision V} (d : V) (l : list V) : list V :=
  match l with
  | [] => []
  | e :: l => match trim d l with [] => if bool_decide (e = d) then [] else [e] | l => e :: l end
  end.

Definition serialize `{EqDecision V} m : list (option V) :=
  Some (dflt m) :: map (fun e => if bool_decide (e = dflt m) then None else Some e) (trim (dflt m) (elems m)).

Fixpoint visit (d : V) (idx : nat) (vals : list (option V)) m : SecondaryMap V :=
  match vals with
  | [] => m
  | val :: vals => visit d (S idx) vals (index_mut (fun _ => default d val) idx m)
  end.

Definition deserialize (vals : list (option V)) : option (SecondaryMap V) :=
  match vals with
  | Some default_val :: vals => Some (visit default_val 0 vals (with_default default_val))
  | _ => None
  end.

(** ** A total function *)

Lemma index_resize m n k : (length (elems m) <= n)%nat -> index (resize m n) k = index m k.
Proof.
  intros Hn. unfold index, resize. simpl. rewrite take_ge by lia. rewrite lookup_app.
  destruct (elems m !! k); [done|]. simpl. destruct (replicate _ _ !! _) eqn:E; [|done].
  by apply lookup_replicate in E as [-> _].
Qed.

Lemma length_resize m n : (length (elems m) <= n)%nat -> length (elems (resize m n)) = n.
Proof. intros. simpl. rewrite length_app, length_take, length_replicate. lia. Qed.

Lemma index_mut_eq f k m : index (index_mut f k m) k = f (index m k).
Proof.
  unfold index_mut. case Nat.leb_spec; intros Hk.
  - unfold index at 1. cbn [elems dflt]. rewrite list_lookup_alter_eq, <- (index_resize m (S k) k) by lia. unfold index.
    destruct (lookup_lt_is_Some_2 (elems (resize m (S k))) k) as [v E]; [rewrite length_resize; lia|]. by rewrite E.
  - unfold index. cbn [elems dflt]. rewrite list_lookup_alter_eq. by destruct (lookup_lt_is_Some_2 (elems m) k Hk) as [v ->].
Qed.

Lemma index_mut_ne f k m j : j <> k -> index (index_mut f k m) j = index m j.
Proof.
  intros Hj. unfold index_mut. case Nat.leb_spec; intros Hk.
  - rewrite <- (index_resize m (S k) j) by lia. unfold index at 1. cbn [elems dflt]. by rewrite list_lookup_alter_ne.
  - unfold index. cbn [elems dflt]. by rewrite list_lookup_alter_ne.
Qed.

(** The keys that were written are those of the vector. *)
Lemma length_index_mut f k m : length (elems (index_mut f k m)) = Nat.max (S k) (length (elems m)).
Proof.
  unfold index_mut. case Nat.leb_spec; intros Hk; cbn [elems]; rewrite length_alter; [rewrite length_resize|]; lia.
Qed.

Lemma dflt_index_mut f k m : dflt (index_mut f k m) = dflt m.
Proof. unfold index_mut. by case_match. Qed.

Lemma index_new v k : index (with_default v) k = v.
Proof. reflexivity. Qed.

Lemma index_beyond m k : index m k <> dflt m -> (k < length (elems m))%nat.
Proof.
  intros H. apply not_ge. intros Hk. apply H. unfold index. by rewrite lookup_ge_None_2 by lia.
Qed.

Lemma index_set m k v (H : (k < length (elems m))%nat) j :
  index (mkSecondary (<[k := v]> (elems m)) (dflt m)) j = if decide (j = k) then v else index m j.
Proof.
  unfold index. simpl. case_decide as Hj; [subst; by rewrite list_lookup_insert_eq|by rewrite list_lookup_insert_ne].
Qed.

(** [eq] does not see how long the vectors are. *)
Lemma eqb_index `{EqDecision V} m m' : eqb m m' = true <-> dflt m = dflt m' /\ forall k, index m k = index m' k.
Proof.
  unfold eqb. set (n := Nat.min _ _). rewrite !andb_true_iff, !bool_decide_eq_true, !forallb_forall.
  setoid_rewrite bool_decide_eq_true. setoid_rewrite <- list_elem_of_In. split.
  - intros [[[Hd Ht] H1] H2]. split; [done|]. intros k. unfold index. destruct (decide (k < n)%nat).
    + by rewrite <- (lookup_take_lt (elems m) n k), Ht, lookup_take_lt, Hd by lia.
    + assert (forall (l : list V) d, (forall x, x ∈ drop n l -> x = d) -> default d (l !! k) = d) as Hdef.
      { intros l d Hall. destruct (l !! k) eqn:E; [|done]. simpl. apply Hall.
        apply (list_elem_of_lookup_2 _ (k - n)). rewrite lookup_drop. by replace (n + (k - n))%nat with k by lia. }
      by rewrite (Hdef _ _ H1), (Hdef _ _ H2).
  - intros [Hd Hi].
    split_and!; [done| | |].
    + apply list_eq. intros k. destruct (decide (k < n)%nat); [|by rewrite !lookup_take_ge by lia].
      rewrite !lookup_take_lt by done. specialize (Hi k). unfold index in Hi.
      destruct (lookup_lt_is_Some_2 (elems m) k) as [x Ex]; [lia|].
      destruct (lookup_lt_is_Some_2 (elems m') k) as [y Ey]; [lia|]. rewrite Ex, Ey in *. by f_equal.
    + intros x [k Hk]%list_elem_of_lookup. rewrite lookup_drop in Hk. specialize (Hi (n + k)%nat). unfold index in Hi.
      rewrite Hk, (lookup_ge_None_2 (elems m')) in Hi; [by rewrite Hd|]. apply lookup_lt_Some in Hk. lia.
    + intros x [k Hk]%list_elem_of_lookup. rewrite lookup_drop in Hk. specialize (Hi (n + k)%nat). unfold index in Hi.
      rewrite Hk, (lookup_ge_None_2 (elems m)) in Hi; [by rewrite <- Hd|]. apply lookup_lt_Some in Hk. lia.
Qed.

Lemma trim_lookup `{EqDecision V} d l k : default d (trim d l !! k) = default d (l !! k).
Proof.
  revert k. induction l as [|e l IH]; intros k; [done|]. simpl.
  destruct (trim d l) as [|x t] eqn:E; [case_bool_decide as He|].
  - subst. destruct k; [done|]. simpl. by rewrite <- IH.
  - destruct k; [done|]. simpl. by rewrite <- IH.
  - destruct k; [done|]. apply IH.
Qed.

Lemma visit_index d vals idx m k : dflt m = d ->
  index (visit d idx vals m) k = if decide (idx <= k < idx + length vals)%nat then default d (default None (vals !! (k - idx)%nat)) else index m k.
Proof.
  revert idx m. induction vals as [|val vals IH]; intros idx m Hd; simpl; [by rewrite decide_False by lia|].
  rewrite IH by (by rewrite dflt_index_mut). destruct (decide (k = idx)) as [->|Hk].
  - rewrite decide_False, decide_True, index_mut_eq by lia. by rewrite Nat.sub_diag.
  - rewrite index_mut_ne by done. case_decide; case_decide; try lia; [|done].
    by replace (k - idx)%nat with (S (k - S idx)) by lia.
Qed.

Lemma visit_dflt d vals idx m : dflt (visit d idx vals m) = dflt m.
Proof.
  revert idx m. induction vals as [|val vals IH]; intros idx m; simpl; [done|]. by rewrite IH, dflt_index_mut.
Qed.
End map.

(** A secondary map is a total function with finitely many values written: after
    any write, also behind the end of its vector, each key has the value last written or
    the default; equality is that of the functions; and what is serialized
    (without default values at the end) deserializes to an equal map. *)
Theorem secondary_map_correct `{EqDecision V} (m : SecondaryMap V) k v j :
  index (with_default v) k = v /\
  (forall f, index (index_mut f k m) j = if decide (j = k) then f (index m k) else index m j) /\
  (let '(old, m1) := try_insert k v m in
   (forall o, old = Some o -> o = index m k) /\ index m1 j = if decide (j = k) then v else index m j) /\
  (let '(old, m1) := remove k m in
   (forall o, old = Some o -> o = index m k) /\ index m1 j = if decide (j = k) then dflt m else index m j) /\
  (forall m', eqb m m' = true <-> dflt m = dflt m' /\ forall i, index m i = index m' i) /\
  (exists m', deserialize (serialize m) = Some m' /\ eqb m m' = true).
Proof.
  split_and!; [done| | | |apply eqb_index|].
  - intros f. case_decide; [subst; apply index_mut_eq|by apply index_mut_ne].
  - unfold try_insert. destruct (elems m !! k) as [o|] eqn:E.
    + split; [intros ? [= <-]; unfold index; by rewrite E|]. apply index_set. by eapply lookup_lt_Some.
    + split; [done|]. apply lookup_ge_None_1 in E.
      rewrite (index_set (resize m (S k))) by (rewrite length_resize; lia). case_decide; [done|]. apply index_resize. lia.
  - unfold remove. destruct (elems m !! k) as [o|] eqn:E.
    + split; [intros ? [= <-]; unfold index; by rewrite E|]. apply index_set. by eapply lookup_lt_Some.
    + split; [done|]. case_decide; [subst; unfold index; by rewrite E|done].
  - eexists. split; [reflexivity|]. apply eqb_index. rewrite visit_dflt. split; [done|]. intros i.
    rewrite visit_index by done. rewrite length_map, Nat.sub_0_r. case_decide as Hi.
    + rewrite list_lookup_fmap. unfold index. rewrite <- trim_lookup.
      destruct (lookup_lt_is_Some_2 (trim (dflt m) (elems m)) i) as [x Ex]; [lia|]. rewrite Ex. simpl.
      by case_bool_decide.
    + change (index m i = dflt m). unfold index. rewrite <- trim_lookup. by rewrite lookup_ge_None_2 by lia.
Qed.
