(* ===== verification/LinkedList.v ===== *)
(** * Doubly linked lists

    The links of a doubly linked list, read as two functions on the elements: what
    comes before an element and what comes after it, with nothing at both ends.  How
    inserting, removing and cutting change the links. *)

From S2P Require Import Prelude.

Section links.
Context {K : Type} `{EqDecision K}.
Implicit Types (prv nxt : K -> option K) (l : list K).

(** A part of a list, between what is before it and what is after it. *)
Fixpoint linked prv nxt (before : option K) l (after : option K) : Prop :=
  match l with
  | [] => True
  | x :: l => prv x = before /\ nxt x = match l with [] => after | y :: _ => Some y end /\ linked prv nxt (Some x) l after
  end.

Definition or (o o' : option K) : option K := match o with Some x => Some x | None => o' end.

Lemma linked_app prv nxt p l1 l2 e :
  linked prv nxt p (l1 ++ l2) e <-> linked prv nxt p l1 (or (head l2) e) /\ linked prv nxt (or (last l1) p) l2 e.
Proof.
  revert p. induction l1 as [|x l1 IH]; intros p; simpl; [tauto|].
  rewrite IH. destruct l1 as [|y l1]; simpl.
  - destruct l2; simpl; tauto.
  - destruct (last (y :: l1)) eqn:E; [simpl; tauto|]. by apply last_None in E.
Qed.

Lemma linked_ext prv nxt prv' nxt' p l e :
  (forall x, x ∈ l -> prv' x = prv x /\ nxt' x = nxt x) -> linked prv nxt p l e -> linked prv' nxt' p l e.
Proof.
  revert p. induction l as [|x l IH]; intros p Hext; simpl; [done|]. intros (Hp & Hn & Hl).
  destruct (Hext x) as [-> ->]; [by left|]. split_and!; [done..|]. apply IH; [|done]. intros y Hy. apply Hext. by right.
Qed.

(** Another element, or none, before or after a part. *)
Lemma linked_before prv nxt prv' nxt' p p' l e : NoDup l ->
  (forall x, x ∈ l -> nxt' x = nxt x /\ prv' x = if decide (head l = Some x) then p' else prv x) ->
  linked prv nxt p l e -> linked prv' nxt' p' l e.
Proof.
  destruct l as [|x l]; [done|]. intros [Hx Hl]%NoDup_cons Hext (Hp & Hn & Hr). simpl.
  destruct (Hext x) as [En Ep]; [by left|]. rewrite decide_True in Ep by done. split_and!; [done|congruence|].
  eapply linked_ext; [|exact Hr]. intros y Hy. destruct (Hext y) as [E1 E2]; [by right|]. split; [|done].
  rewrite decide_False in E2; [done|]. intros [= ->]. done.
Qed.

Lemma linked_after prv nxt prv' nxt' p l e e' : NoDup l ->
  (forall x, x ∈ l -> prv' x = prv x /\ nxt' x = if decide (last l = Some x) then e' else nxt x) ->
  linked prv nxt p l e -> linked prv' nxt' p l e'.
Proof.
  destruct l as [|x l] using rev_ind; [done|]. clear IHl. intros [Hl [Hx _]]%NoDup_app Hext.
  rewrite last_snoc in Hext. rewrite !linked_app. simpl. intros (H1 & Hp & Hn & _).
  destruct (Hext x) as [Ep En]; [by apply elem_of_app; right; left|]. rewrite decide_True in En by done.
  split_and!; [|congruence|done..]. eapply linked_ext; [|exact H1].
  intros y Hy. destruct (Hext y) as [E1 E2]; [apply elem_of_app; by left|]. split; [done|].
  rewrite decide_False in E2; [done|]. intros [= E]. apply (Hx y Hy). rewrite E. by left.
Qed.

(** The whole of a list, with its two ends. *)
Definition dll prv nxt (first last_ : option K) l : Prop :=
  first = head l /\ last_ = last l /\ linked prv nxt None l None.

Lemma dll_at prv nxt f e l1 x l2 : dll prv nxt f e (l1 ++ x :: l2) -> prv x = last l1 /\ nxt x = head l2.
Proof.
  intros (_ & _ & Hl). apply linked_app in Hl as [_ (-> & -> & _)]. split; [by destruct (last l1)|by destruct l2].
Qed.

Lemma dll_same prv nxt prv' nxt' f e l :
  (forall x, x ∈ l -> prv' x = prv x /\ nxt' x = nxt x) -> dll prv nxt f e l -> dll prv' nxt' f e l.
Proof. intros Hext (Hf & He & Hl). split_and!; [done..|]. by eapply linked_ext. Qed.

Lemma dll_insert prv nxt prv' nxt' f e l1 x l2 : NoDup (l1 ++ l2) ->
  dll prv nxt f e (l1 ++ l2) ->
  prv' x = last l1 -> nxt' x = head l2 ->
  (forall y, y ∈ l1 ++ l2 -> prv' y = (if decide (head l2 = Some y) then Some x else prv y) /\
     nxt' y = if decide (last l1 = Some y) then Some x else nxt y) ->
  dll prv' nxt' (match l1 with [] => Some x | _ => f end) (match l2 with [] => Some x | _ => e end) (l1 ++ x :: l2).
Proof.
  intros (Hd1 & Hdis & Hd2)%NoDup_app (Hf & He & [H1 H2]%linked_app) Hpx Hnx Hext. split_and!.
  - by destruct l1.
  - destruct l2 as [|y l2]; [by rewrite last_snoc|]. by rewrite He, !last_app_cons.
  - apply linked_app. split; [|simpl; split_and!].
    + eapply linked_after; [done| |exact H1]. intros y Hy. destruct (Hext y) as [-> ->]; [apply elem_of_app; by left|].
      split; [|done]. rewrite decide_False; [done|]. intros E%head_Some_elem_of. by eapply Hdis.
    + by destruct (last l1).
    + by destruct l2.
    + eapply linked_before; [done| |exact H2]. intros y Hy. destruct (Hext y) as [-> ->]; [apply elem_of_app; by right|].
      split; [|done]. rewrite decide_False; [done|]. intros E%last_Some_elem_of. by eapply Hdis.
Qed.

Lemma dll_remove prv nxt prv' nxt' f e l1 x l2 : NoDup (l1 ++ x :: l2) ->
  dll prv nxt f e (l1 ++ x :: l2) ->
  (forall y, y ∈ l1 ++ l2 -> prv' y = (if decide (head l2 = Some y) then last l1 else prv y) /\
     nxt' y = if decide (last l1 = Some y) then head l2 else nxt y) ->
  dll prv' nxt' (match last l1 with None => head l2 | Some _ => f end) (match head l2 with None => last l1 | Some _ => e end) (l1 ++ l2).
Proof.
  intros (Hd1 & Hdis & Hd2)%NoDup_app (Hf & He & [H1 (_ & _ & H2)]%linked_app) Hext. apply NoDup_cons in Hd2 as [_ Hd2].
  assert (forall y, y ∈ l1 -> y ∉ l2) as Hdis' by (intros y Hy Hy2; apply (Hdis y Hy); by right).
  split_and!.
  - destruct l1 as [|y l1 _] using rev_ind; [done|]. rewrite last_snoc, Hf. by destruct l1.
  - destruct l2 as [|y l2]; simpl; [by rewrite app_nil_r|]. by rewrite He, !last_app_cons.
  - apply linked_app. split.
    + eapply linked_after; [done| |exact H1]. intros y Hy. destruct (Hext y) as [-> ->]; [apply elem_of_app; by left|].
      split; [|by destruct (head l2)]. rewrite decide_False; [done|]. intros E%head_Some_elem_of. by eapply Hdis'.
    + eapply linked_before; [done| |exact H2]. intros y Hy. destruct (Hext y) as [-> ->]; [apply elem_of_app; by right|].
      split; [|by destruct (last l1)]. rewrite decide_False; [done|]. intros E%last_Some_elem_of. by eapply Hdis'.
Qed.

Lemma dll_split prv nxt prv' nxt' f e l1 l2 : NoDup (l1 ++ l2) -> dll prv nxt f e (l1 ++ l2) ->
  (forall y, y ∈ l1 ++ l2 -> prv' y = (if decide (head l2 = Some y) then None else prv y) /\
     nxt' y = if decide (last l1 = Some y) then None else nxt y) ->
  dll prv' nxt' (head l1) (last l1) l1 /\ dll prv' nxt' (head l2) (last l2) l2.
Proof.
  intros (Hd1 & Hdis & Hd2)%NoDup_app (_ & _ & [H1 H2]%linked_app) Hext. split; (split_and!; [done..|]).
  - eapply linked_after; [done| |exact H1]. intros y Hy. destruct (Hext y) as [-> ->]; [apply elem_of_app; by left|].
    split; [|done]. rewrite decide_False; [done|]. intros E%head_Some_elem_of. by eapply Hdis.
  - eapply linked_before; [done| |exact H2]. intros y Hy. destruct (Hext y) as [-> ->]; [apply elem_of_app; by right|].
    split; [|done]. rewrite decide_False; [done|]. intros E%last_Some_elem_of. by eapply Hdis.
Qed.
End links.
