(* ===== verification/Layout.v ===== *)
(** * The layout of a function

    cranelift/codegen/src/ir/layout.rs: the order of the blocks of a function and of the
    instructions of each block, as doubly linked lists in two secondary maps, with
    sequence numbers that compare two instructions of a block.

    The abstract state is the list of blocks with the lists of their instructions.

    Shown here: the links and the numbers after each operation on blocks and each insertion and
    removal of an instruction, with the renumbering of a block.  LayoutRefine.v has the rest: no
    operation, used as its assertions ask for, panics, and each does to these lists what
    it says; comparing numbers compares positions; iterators, also from both ends, yield the
    lists.  LayoutSerde.v has serialization, and shows where the numbers, which grow with every
    instruction that is appended even if others are removed, run out. *)

From S2P Require Import Prelude EntityMap LinkedList.

Abbreviation Block := nat.
Abbreviation Inst := nat.

(** ** The data *)

Record BlockNode := mkBlockNode {
  b_prev : option Block; b_next : option Block;
  first_inst_ : option Inst; last_inst_ : option Inst;
  cold : bool
}.

Record InstNode := mkInstNode { i_block : option Block; i_prev : option Inst; i_next : option Inst; seq_ : Z }.

Definition default_block : BlockNode := mkBlockNode None None None None false.
Definition default_inst : InstNode := mkInstNode None None None 0.

Record Layout := mkLayout {
  blocks_ : SecondaryMap BlockNode;
  insts : SecondaryMap InstNode;
  first_block : option Block;
  last_block_ : option Block
}.

Definition new : Layout := mkLayout (with_default default_block) (with_default default_inst) None None.

(** [self.blocks[b]] and [self.insts[i]]. *)
Definition block_node (L : Layout) (b : Block) : BlockNode := index (blocks_ L) b.
Definition inst_node (L : Layout) (i : Inst) : InstNode := index (insts L) i.

(** Computations on a layout have no errors. *)
Abbreviation LM := (M Layout Empty_set).

Definition upd_block (b : Block) (f : BlockNode -> BlockNode) : LM unit :=
  modify (fun L => mkLayout (index_mut f b (blocks_ L)) (insts L) (first_block L) (last_block_ L)).
Definition upd_inst (i : Inst) (f : InstNode -> InstNode) : LM unit :=
  modify (fun L => mkLayout (blocks_ L) (index_mut f i (insts L)) (first_block L) (last_block_ L)).
Definition set_first_block (o : option Block) : LM unit :=
  modify (fun L => mkLayout (blocks_ L) (insts L) o (last_block_ L)).
Definition set_last_block (o : option Block) : LM unit :=
  modify (fun L => mkLayout (blocks_ L) (insts L) (first_block L) o).

(** Fields of nodes. *)
Definition set_b_prev (o : option Block) (n : BlockNode) := mkBlockNode o (b_next n) (first_inst_ n) (last_inst_ n) (cold n).
Definition set_b_next (o : option Block) (n : BlockNode) := mkBlockNode (b_prev n) o (first_inst_ n) (last_inst_ n) (cold n).
Definition set_first_inst (o : option Inst) (n : BlockNode) := mkBlockNode (b_prev n) (b_next n) o (last_inst_ n) (cold n).
Definition set_last_inst (o : option Inst) (n : BlockNode) := mkBlockNode (b_prev n) (b_next n) (first_inst_ n) o (cold n).
Definition set_cold_ (c : bool) (n : BlockNode) := mkBlockNode (b_prev n) (b_next n) (first_inst_ n) (last_inst_ n) c.
Definition set_i_block (o : option Block) (n : InstNode) := mkInstNode o (i_prev n) (i_next n) (seq_ n).
Definition set_i_prev (o : option Inst) (n : InstNode) := mkInstNode (i_block n) o (i_next n) (seq_ n).
Definition set_i_next (o : option Inst) (n : InstNode) := mkInstNode (i_block n) (i_prev n) o (seq_ n).
Definition set_seq (z : Z) (n : InstNode) := mkInstNode (i_block n) (i_prev n) (i_next n) z.

(** ** Sequence numbers *)

Definition MAJOR_STRIDE : Z := 10.
Definition MINOR_STRIDE : Z := 2.
Definition LOCAL_LIMIT : Z := 100 * MINOR_STRIDE.

(** [+] on [SequenceNumber]s. *)
Definition add32 (a b : Z) : LM Z := unwrap (checked_add u32_MAX a b).

Definition midpoint (a b : Z) : LM (option Z) :=
  rust_assert (a <? b) ;;;
  let m := a + (b - a) / 2 in
  ret (if a <? m then Some m else None).

Definition inst_block (L : Layout) (i : Inst) : option Block := i_block (inst_node L i).

(** The loop of [full_block_renumber]; each turn has the fuel for one instruction. *)
Fixpoint renumber_from (fuel : nat) (next_inst : option Inst) (seq : Z) : LM unit :=
  match next_inst with
  | None => ret tt
  | Some inst =>
      match fuel with
      | O => panic
      | S fuel =>
          upd_inst inst (set_seq seq) ;;;
          seq <- add32 seq MAJOR_STRIDE ;;
          n <- gets (fun L => inst_node L inst) ;;
          renumber_from fuel (i_next n) seq
      end
  end.

(** There are never more instructions in a block than in the map. *)
Definition inst_fuel (L : Layout) : nat := length (elems (insts L)).

Definition full_block_renumber (block : Block) : LM unit :=
  n <- gets (fun L => block_node L block) ;;
  fuel <- gets inst_fuel ;;
  renumber_from fuel (first_inst_ n) MAJOR_STRIDE.

Fixpoint renumber_loop (fuel : nat) (inst : Inst) (seq limit : Z) : LM unit :=
  match fuel with
  | O => panic
  | S fuel =>
      upd_inst inst (set_seq seq) ;;;
      n <- gets (fun L => inst_node L inst) ;;
      match i_next n with
      | None => ret tt
      | Some inst =>
          n <- gets (fun L => inst_node L inst) ;;
          if seq <? seq_ n then ret tt
          else if limit <? seq then
            block <- unwrap (i_block n) ;;
            full_block_renumber block
          else
            seq <- add32 seq MINOR_STRIDE ;;
            renumber_loop fuel inst seq limit
      end
  end.

Definition renumber_insts (inst : Inst) (seq limit : Z) : LM unit :=
  fuel <- gets inst_fuel ;; renumber_loop fuel inst seq limit.

Definition assign_inst_seq (inst : Inst) : LM unit :=
  L <- get ;;
  let prev_seq := match i_prev (inst_node L inst) with Some prev_inst => seq_ (inst_node L prev_inst) | None => 0 end in
  match i_next (inst_node L inst) with
  | None => seq <- add32 prev_seq MAJOR_STRIDE ;; upd_inst inst (set_seq seq)
  | Some next_inst =>
      let next_seq := seq_ (inst_node L next_inst) in
      mid <- midpoint prev_seq next_seq ;;
      match mid with
      | Some seq => upd_inst inst (set_seq seq)
      | None =>
          seq <- add32 prev_seq MINOR_STRIDE ;;
          limit <- add32 prev_seq LOCAL_LIMIT ;;
          renumber_insts inst seq limit
      end
  end.

(** ** Blocks *)

Definition is_block_inserted (L : Layout) (block : Block) : bool :=
  bool_decide (Some block = first_block L) || bool_decide (is_Some (b_prev (block_node L block))).

Definition is_none {A} (o : option A) : bool := match o with None => true | Some _ => false end.

Definition append_block (block : Block) : LM unit :=
  L <- get ;;
  rust_assert (negb (is_block_inserted L block)) ;;;
  rust_assert (is_none (first_inst_ (block_node L block)) && is_none (last_inst_ (block_node L block))) ;;;
  upd_block block (fun n => set_b_next None (set_b_prev (last_block_ L) n)) ;;;
  match last_block_ L with
  | Some last => upd_block last (set_b_next (Some block))
  | None => set_first_block (Some block)
  end ;;;
  set_last_block (Some block).

Definition insert_block (block before : Block) : LM unit :=
  L <- get ;;
  rust_assert (negb (is_block_inserted L block)) ;;;
  rust_assert (is_block_inserted L before) ;;;
  let after := b_prev (block_node L before) in
  upd_block block (fun n => set_b_prev after (set_b_next (Some before) n)) ;;;
  upd_block before (set_b_prev (Some block)) ;;;
  match after with
  | None => set_first_block (Some block)
  | Some a => upd_block a (set_b_next (Some block))
  end.

Definition insert_block_after (block after : Block) : LM unit :=
  L <- get ;;
  rust_assert (negb (is_block_inserted L block)) ;;;
  rust_assert (is_block_inserted L after) ;;;
  let before := b_next (block_node L after) in
  upd_block block (fun n => set_b_prev (Some after) (set_b_next before n)) ;;;
  upd_block after (set_b_next (Some block)) ;;;
  match before with
  | None => set_last_block (Some block)
  | Some b => upd_block b (set_b_prev (Some block))
  end.

Definition remove_block (block : Block) : LM unit :=
  L <- get ;;
  rust_assert (is_block_inserted L block) ;;;
  rust_assert (is_none (first_inst_ (block_node L block))) ;;;
  let prev := b_prev (block_node L block) in
  let next := b_next (block_node L block) in
  upd_block block (fun n => set_b_next None (set_b_prev None n)) ;;;
  match prev with
  | None => set_first_block next
  | Some p => upd_block p (set_b_next next)
  end ;;;
  match next with
  | None => set_last_block prev
  | Some n => upd_block n (set_b_prev prev)
  end.

Definition prev_block (L : Layout) (block : Block) : option Block := b_prev (block_node L block).
Definition next_block (L : Layout) (block : Block) : option Block := b_next (block_node L block).
Definition entry_block (L : Layout) : option Block := first_block L.
Definition last_block (L : Layout) : option Block := last_block_ L.
Definition set_cold (block : Block) : LM unit := upd_block block (set_cold_ true).
Definition is_cold (L : Layout) (block : Block) : bool := cold (block_node L block).

(** ** Instructions *)

Inductive ProgramPoint := PInst (inst : Inst) | PBlock (block : Block).

(** [pp_block] panics if the instruction is not in the layout. *)
Definition pp_block (L : Layout) (pp : ProgramPoint) : option Block :=
  match pp with PBlock block => Some block | PInst inst => inst_block L inst end.

Definition pp_seq (L : Layout) (pp : ProgramPoint) : Z :=
  match pp with PBlock _ => 0 | PInst inst => seq_ (inst_node L inst) end.

Definition pp_cmp (a b : ProgramPoint) : LM comparison :=
  L <- get ;;
  block_a <- unwrap (pp_block L a) ;;
  block_b <- unwrap (pp_block L b) ;;
  rust_assert (bool_decide (block_a = block_b)) ;;;
  ret (pp_seq L a ?= pp_seq L b).

Definition first_inst (L : Layout) (block : Block) : option Inst := first_inst_ (block_node L block).
Definition last_inst (L : Layout) (block : Block) : option Inst := last_inst_ (block_node L block).
Definition next_inst (L : Layout) (inst : Inst) : option Inst := i_next (inst_node L inst).
Definition prev_inst (L : Layout) (inst : Inst) : option Inst := i_prev (inst_node L inst).

Definition append_inst (inst : Inst) (block : Block) : LM unit :=
  L <- get ;;
  rust_assert (is_none (inst_block L inst)) ;;;
  rust_assert (is_block_inserted L block) ;;;
  upd_inst inst (fun n => set_i_prev (last_inst L block) (set_i_block (Some block) n)) ;;;
  rust_assert (is_none (next_inst L inst)) ;;;
  match first_inst L block with
  | None => upd_block block (set_first_inst (Some inst))
  | Some _ => last <- unwrap (last_inst L block) ;; upd_inst last (set_i_next (Some inst))
  end ;;;
  upd_block block (set_last_inst (Some inst)) ;;;
  assign_inst_seq inst.

Definition insert_inst (inst before : Inst) : LM unit :=
  L <- get ;;
  rust_assert (is_none (inst_block L inst)) ;;;
  block <- unwrap (inst_block L before) ;;
  let after := prev_inst L before in
  upd_inst inst (fun n => set_i_prev after (set_i_next (Some before) (set_i_block (Some block) n))) ;;;
  upd_inst before (set_i_prev (Some inst)) ;;;
  match after with
  | None => upd_block block (set_first_inst (Some inst))
  | Some a => upd_inst a (set_i_next (Some inst))
  end ;;;
  assign_inst_seq inst.

Definition remove_inst (inst : Inst) : LM unit :=
  L <- get ;;
  block <- unwrap (inst_block L inst) ;;
  let prev := prev_inst L inst in
  let next := next_inst L inst in
  upd_inst inst (fun n => set_i_next None (set_i_prev None (set_i_block None n))) ;;;
  match prev with
  | None => upd_block block (set_first_inst next)
  | Some p => upd_inst p (set_i_next next)
  end ;;;
  match next with
  | None => upd_block block (set_last_inst prev)
  | Some n => upd_inst n (set_i_prev prev)
  end.

Fixpoint remove_insts (fuel : nat) (block : Block) : LM unit :=
  first <- gets (fun L => first_inst L block) ;;
  match first with
  | None => ret tt
  | Some inst => match fuel with O => panic | S fuel => remove_inst inst ;;; remove_insts fuel block end
  end.

Definition remove_block_and_insts (block : Block) : LM unit :=
  fuel <- gets inst_fuel ;; remove_insts fuel block ;;; remove_block block.

Definition block_contains_exactly_one_inst (L : Layout) (block : Block) : bool :=
  bool_decide (is_Some (first_inst L block)) && bool_decide (first_inst L block = last_inst L block).

(** The loop of [split_block]. *)
Fixpoint move_insts (fuel : nat) (opt_i : option Inst) (old_block new_block : Block) : LM unit :=
  match opt_i with
  | None => ret tt
  | Some i =>
      match fuel with
      | O => panic
      | S fuel =>
          n <- gets (fun L => inst_node L i) ;;
          rust_assert (bool_decide (i_block n = Some old_block)) ;;;
          upd_inst i (set_i_block (Some new_block)) ;;;
          move_insts fuel (i_next n) old_block new_block
      end
  end.

Definition split_block (new_block : Block) (before : Inst) : LM unit :=
  L <- get ;;
  old_block <- unwrap (inst_block L before) ;;
  rust_assert (negb (is_block_inserted L new_block)) ;;;
  let next_block := next_block L old_block in
  let last_inst := last_inst L old_block in
  upd_block new_block (fun n => mkBlockNode (Some old_block) next_block (Some before) last_inst (cold n)) ;;;
  upd_block old_block (set_b_next (Some new_block)) ;;;
  (if bool_decide (Some old_block = last_block L) then set_last_block (Some new_block)
   else next <- unwrap next_block ;; upd_block next (set_b_prev (Some new_block))) ;;;
  let prev_inst := prev_inst L before in
  upd_inst before (set_i_prev None) ;;;
  upd_block old_block (set_last_inst prev_inst) ;;;
  match prev_inst with
  | None => upd_block old_block (set_first_inst None)
  | Some pi => upd_inst pi (set_i_next None)
  end ;;;
  fuel <- gets inst_fuel ;;
  move_insts fuel (Some before) old_block new_block.

(** ** Iterators *)

(** [Blocks::next], up to the end. *)
Fixpoint blocks_from (fuel : nat) (L : Layout) (next : option Block) : list Block :=
  match fuel, next with
  | S fuel, Some block => block :: blocks_from fuel L (next_block L block)
  | _, _ => []
  end.

Definition blocks (L : Layout) : list Block := blocks_from (length (elems (blocks_ L))) L (first_block L).

Record Insts := mkInsts { head_ : option Inst; tail_ : option Inst }.

Definition block_insts (L : Layout) (block : Block) : Insts := mkInsts (first_inst L block) (last_inst L block).

Definition next (L : Layout) (it : Insts) : option Inst * Insts :=
  match head_ it with
  | None => (None, it)
  | Some inst => (Some inst, if bool_decide (head_ it = tail_ it) then mkInsts None None else mkInsts (next_inst L inst) (tail_ it))
  end.

Definition next_back (L : Layout) (it : Insts) : option Inst * Insts :=
  match tail_ it with
  | None => (None, it)
  | Some inst => (Some inst, if bool_decide (head_ it = tail_ it) then mkInsts None None else mkInsts (head_ it) (prev_inst L inst))
  end.

(** The instructions of a block, one [next] after the other. *)
Fixpoint insts_from (fuel : nat) (L : Layout) (it : Insts) : list Inst :=
  match fuel, next L it with S fuel, (Some inst, it) => inst :: insts_from fuel L it | _, _ => [] end.

Definition insts_list (L : Layout) (block : Block) : list Inst := insts_from (inst_fuel L) L (block_insts L block).

(** ** Serialization *)

Inductive Element := EBlock (block : Block) | ECold (cold : bool) | ECount (count : Z) | EInst (inst : Inst).

(** [None] is a panic: more instructions than fit the count. *)
Fixpoint serialize_blocks (L : Layout) (bs : list Block) : option (list Element) :=
  match bs with
  | [] => Some []
  | block :: bs =>
      let members := insts_list L block in
      count ← try_from u32_MAX (zlen members);
      rest ← serialize_blocks L bs;
      Some (EBlock block :: ECold (is_cold L block) :: ECount count :: map EInst members ++ rest)
  end.

Definition serialize (L : Layout) : option (list Element) := serialize_blocks L (blocks L).

Inductive DeError := MissingField | WrongType.
Abbreviation DM := (M Layout DeError).

Definition lift {A} (m : LM A) : DM A := map_err (fun e : Empty_set => match e with end) m.

Definition missing {A} (access : list Element) : DM A := fail (match access with [] => MissingField | _ => WrongType end).

Fixpoint visit_insts (count : nat) (block : Block) (access : list Element) : DM (list Element) :=
  match count with
  | O => ret access
  | S count =>
      match access with
      | EInst inst :: access => lift (append_inst inst block) ;;; visit_insts count block access
      | _ => missing access
      end
  end.

Definition visit_block (block : Block) (access : list Element) : DM (list Element) :=
  lift (append_block block) ;;;
  match access with
  | ECold c :: access =>
      lift (upd_block block (set_cold_ c)) ;;;
      match access with
      | ECount count :: access => visit_insts (Z.to_nat count) block access
      | _ => missing access
      end
  | _ => missing access
  end.

Fixpoint visit_seq (fuel : nat) (access : list Element) : DM unit :=
  match access with
  | [] => ret tt
  | EBlock block :: access =>
      match fuel with O => panic | S fuel => access <- visit_block block access ;; visit_seq fuel access end
  | _ => fail WrongType
  end.

(** Every block takes an element of its own. *)
Definition deserialize (access : list Element) : outcome Layout DeError unit := visit_seq (length access) access new.

(** ** Sequences of operations *)

Definition clear : LM unit := modify (fun L => mkLayout (EntityMap.clear (blocks_ L)) (EntityMap.clear (insts L)) None None).

Inductive Op :=
| AppendBlock (block : Block) | InsertBlock (block before : Block) | InsertBlockAfter (block after : Block)
| RemoveBlock (block : Block) | RemoveBlockAndInsts (block : Block) | SetCold (block : Block)
| AppendInst (inst : Inst) (block : Block) | InsertInst (inst before : Inst) | RemoveInst (inst : Inst)
| SplitBlock (new_block : Block) (before : Inst) | Clear.

Definition exec (op : Op) : LM unit :=
  match op with
  | AppendBlock block => append_block block
  | InsertBlock block before => insert_block block before
  | InsertBlockAfter block after => insert_block_after block after
  | RemoveBlock block => remove_block block
  | RemoveBlockAndInsts block => remove_block_and_insts block
  | SetCold block => set_cold block
  | AppendInst inst block => append_inst inst block
  | InsertInst inst before => insert_inst inst before
  | RemoveInst inst => remove_inst inst
  | SplitBlock new_block before => split_block new_block before
  | Clear => clear
  end.

Fixpoint exec_all (ops : list Op) : LM unit := match ops with [] => ret tt | op :: ops => exec op ;;; exec_all ops end.

(** ** The abstract state

    The order of the blocks and the instructions of each. *)

Record Program := mkProgram { order : list Block; code : Block -> list Inst }.

Record links (L : Layout) (p : Program) : Prop := {
  l_blocks : dll (prev_block L) (next_block L) (first_block L) (last_block_ L) (order p);
  l_nodup : NoDup (order p);
  l_insts b : dll (prev_inst L) (next_inst L) (first_inst L b) (last_inst L b) (code p b);
  l_insts_nodup b : NoDup (code p b);
  l_inst_block b i : i ∈ code p b <-> inst_block L i = Some b;
  l_absent b : b ∉ order p -> code p b = [] /\ prev_block L b = None /\ next_block L b = None;
  l_loose i : inst_block L i = None -> prev_inst L i = None /\ next_inst L i = None;
  l_range : Forall (fun b => (b < length (elems (blocks_ L)))%nat) (order p);
  l_dflt : dflt (insts L) = default_inst
}.

Definition inst_seq (L : Layout) (i : Inst) : Z := seq_ (inst_node L i).

Fixpoint ascending (f : Inst -> Z) (lo : Z) (l : list Inst) : Prop :=
  match l with [] => True | i :: l => lo < f i /\ ascending f (f i) l end.

(** The sequence numbers are in order, none is greater than the bound, and blocks are not too long for it. *)
Definition ordered (B : Z) (L : Layout) (p : Program) : Prop :=
  (forall b, ascending (inst_seq L) 0 (code p b)) /\ (forall i, inst_seq L i <= B) /\
  0 <= B /\ forall b, 10 * Z.of_nat (length (code p b)) <= B.

(** ** Reading nodes that were written *)

Lemma index_mut_at {V} (f : V -> V) k m j :
  index (index_mut f k m) j = if decide (j = k) then f (index m k) else index m j.
Proof. case_decide; [subst; apply index_mut_eq|by apply index_mut_ne]. Qed.

(** The fields of the nodes of a layout that was written to. *)
Ltac nodes :=
  unfold prev_block, next_block, first_inst, last_inst, prev_inst, next_inst, inst_block, inst_seq, is_cold, block_node, inst_node in *;
  cbn [blocks_ insts first_block last_block_]; rewrite ?index_mut_at;
  repeat (case_decide; subst; cbn; rewrite ?index_mut_at); try congruence; try done.

Lemma wp_get P (Q : Empty_set -> Layout -> Prop) L : P L L -> wp get P Q L.
Proof. done. Qed.

Lemma wp_modify f P (Q : Empty_set -> Layout -> Prop) L : P tt (f L) -> wp (modify f) P Q L.
Proof. done. Qed.

(** Runs reads and writes; asserts are left to the caller. *)
Ltac run :=
  repeat (lazymatch goal with
          | |- wp (bind _ _) _ _ _ => apply wp_bind
          | |- wp get _ _ _ => apply wp_get
          | |- wp (gets _) _ _ _ => eapply wp_run; [reflexivity|]
          | |- wp (ret _) _ _ _ => apply wp_ret
          | |- wp (upd_block _ _) _ _ _ => apply wp_modify
          | |- wp (upd_inst _ _) _ _ _ => apply wp_modify
          | |- wp (set_first_block _) _ _ _ => apply wp_modify
          | |- wp (set_last_block _) _ _ _ => apply wp_modify
          end; cbv beta).

(** What returns without an error. *)
Abbreviation returns m P L := (wp m (fun _ => P) (fun _ _ => False) L).

Lemma is_block_inserted_spec L p b : links L p -> is_block_inserted L b = bool_decide (b ∈ order p).
Proof.
  intros Hl. unfold is_block_inserted. destruct (l_blocks _ _ Hl) as (Hf & _ & Hd).
  apply eq_true_iff_eq. rewrite orb_true_iff, !bool_decide_eq_true. split.
  - intros [H|[x H]].
    + apply head_Some_elem_of. congruence.
    + apply dec_stable. intros Hb. destruct (l_absent _ _ Hl b Hb) as (_ & Hp & _). unfold prev_block in Hp. congruence.
  - intros (l1 & l2 & E)%list_elem_of_split. rewrite E in Hf, Hd.
    destruct (last l1) as [x|] eqn:El.
    + right. exists x. pose proof (l_blocks _ _ Hl) as Hp. rewrite E in Hp. apply dll_at in Hp as [Hp _].
      unfold prev_block in Hp. congruence.
    + left. apply last_None in El as ->. done.
Qed.

(** ** The order of blocks *)

Lemma links_insert_block L L' p l1 x l2 : links L p -> order p = l1 ++ l2 -> x ∉ l1 ++ l2 ->
  insts L' = insts L -> (forall b, first_inst L' b = first_inst L b /\ last_inst L' b = last_inst L b) ->
  (forall y, prev_block L' y = if decide (y = x) then last l1 else if decide (head l2 = Some y) then Some x else prev_block L y) ->
  (forall y, next_block L' y = if decide (y = x) then head l2 else if decide (last l1 = Some y) then Some x else next_block L y) ->
  first_block L' = (match l1 with [] => Some x | _ => first_block L end) ->
  last_block_ L' = (match l2 with [] => Some x | _ => last_block_ L end) ->
  (S x <= length (elems (blocks_ L')) /\ length (elems (blocks_ L)) <= length (elems (blocks_ L')))%nat ->
  links L' (mkProgram (l1 ++ x :: l2) (code p)).
Proof.
  intros Hl Ho Hx Hi Hfl Hp Hn Hf He Hr. pose proof (l_nodup _ _ Hl) as Hd. rewrite Ho in Hd.
  split; cbn [order code].
  - rewrite Hf, He. eapply dll_insert; [done|rewrite <- Ho; apply Hl| | |].
    + by rewrite Hp, decide_True.
    + by rewrite Hn, decide_True.
    + intros y Hy. by rewrite Hp, Hn, !(decide_False (P := y = x)) by (by intros ->).
  - rewrite NoDup_app, NoDup_cons. apply NoDup_app in Hd as (H1 & H2 & H3). rewrite elem_of_app in Hx. set_solver.
  - intros b. destruct (Hfl b) as [-> ->]. unfold prev_inst, next_inst, inst_node. rewrite Hi. apply (l_insts _ _ Hl).
  - apply (l_insts_nodup _ _ Hl).
  - intros b i. unfold inst_block, inst_node. rewrite Hi. apply (l_inst_block _ _ Hl).
  - intros b Hb. destruct (l_absent _ _ Hl b) as (Hc & Hpb & Hnb); [rewrite Ho; set_solver|]. split; [done|].
    rewrite Hp, Hn, !decide_False; [done|..].
    + intros E%last_Some_elem_of. set_solver.
    + set_solver.
    + intros E%head_Some_elem_of. set_solver.
    + set_solver.
  - intros i. unfold inst_block, prev_inst, next_inst, inst_node. rewrite Hi. apply (l_loose _ _ Hl).
  - pose proof (l_range _ _ Hl) as Hrange. rewrite Ho, Forall_app in Hrange. rewrite Forall_app, Forall_cons.
    split_and!; [|lia|]; eapply Forall_impl; try apply Hrange; simpl; lia.
  - rewrite Hi. apply (l_dflt _ _ Hl).
Qed.

(** The cases of an end of a list that are left. *)
Ltac list_ends :=
  repeat match goal with
         | H : last _ = None |- _ => apply last_None in H; subst
         | H : last ?l = Some _ |- _ = match ?l with [] => _ | _ => _ end => by destruct l
         | H : head ?l = _ |- _ = match ?l with [] => _ | _ => _ end => by destruct l
         | |- _ = match ?l ++ _ with [] => _ | _ => _ end => by destruct l
         | H : last ?l = Some ?x |- _ => exfalso; apply last_Some_elem_of in H; set_solver
         | H : head ?l = Some ?x |- _ => exfalso; apply head_Some_elem_of in H; set_solver
         end; try done.

Lemma append_block_links L p b : links L p -> b ∉ order p ->
  returns (append_block b) (fun L' => links L' (mkProgram (order p ++ [b]) (code p)) /\ insts L' = insts L) L.
Proof.
  intros Hl Hb. destruct (l_absent _ _ Hl b Hb) as (Hc & Hp & Hn).
  assert (Hfl : first_inst L b = None /\ last_inst L b = None).
  { destruct (l_insts _ _ Hl b) as (-> & -> & _). by rewrite Hc. }
  unfold append_block. run. apply wp_assert; [by rewrite (is_block_inserted_spec L p), bool_decide_eq_false_2|].
  run. apply wp_assert; [unfold first_inst, last_inst in Hfl; by rewrite (proj1 Hfl), (proj2 Hfl)|].
  pose proof (l_blocks _ _ Hl) as (Hf & He & _).
  destruct (last_block_ L) as [l|] eqn:El; symmetry in He; run; (split; [|done]);
    apply (links_insert_block L _ p (order p) b []); rewrite ?app_nil_r; cbn [insts first_block last_block_ blocks_ head]; try done.
  all: try (rewrite !length_index_mut; lia).
  all: try (intros y; rewrite ?He, ?El; try split; nodes).
  all: list_ends.
  by rewrite He.
Qed.

Lemma insert_block_links L p b l1 before l2 : links L p -> b ∉ order p -> order p = l1 ++ before :: l2 ->
  returns (insert_block b before) (fun L' => links L' (mkProgram (l1 ++ b :: before :: l2) (code p)) /\ insts L' = insts L) L.
Proof.
  intros Hl Hb Ho. destruct (l_absent _ _ Hl b Hb) as (Hc & Hp & Hn).
  pose proof (l_blocks _ _ Hl) as Hdll. rewrite Ho in Hdll. pose proof Hdll as (Hf & He & _). apply dll_at in Hdll as [Hbp Hbn].
  pose proof (l_nodup _ _ Hl) as Hd. rewrite Ho in Hd. apply NoDup_app in Hd as (Hd1 & Hdis & _).
  unfold insert_block. run. apply wp_assert; [by rewrite (is_block_inserted_spec L p), bool_decide_eq_false_2|].
  run. apply wp_assert; [rewrite (is_block_inserted_spec L p), bool_decide_eq_true_2; [done|rewrite Ho; set_solver|done]|].
  run. unfold prev_block in Hbp. rewrite Hbp. rewrite Ho in Hb. assert (before <> b) by set_solver.
  destruct (last l1) as [a|] eqn:El; run; (split; [|done]);
    apply (links_insert_block L _ p l1 b (before :: l2)); cbn [insts first_block last_block_ blocks_ head]; try done.
  all: try (rewrite !length_index_mut; lia).
  all: try (intros y; rewrite ?El; try split; nodes).
  all: list_ends.
Qed.

Lemma insert_block_after_links L p b l1 after l2 : links L p -> b ∉ order p -> order p = l1 ++ after :: l2 ->
  returns (insert_block_after b after) (fun L' => links L' (mkProgram (l1 ++ after :: b :: l2) (code p)) /\ insts L' = insts L) L.
Proof.
  intros Hl Hb Ho. destruct (l_absent _ _ Hl b Hb) as (Hc & Hp & Hn).
  pose proof (l_blocks _ _ Hl) as Hdll. rewrite Ho in Hdll. pose proof Hdll as (Hf & He & _). apply dll_at in Hdll as [Hbp Hbn].
  pose proof (l_nodup _ _ Hl) as Hd. rewrite Ho in Hd. apply NoDup_app in Hd as (Hd1 & Hdis & [Ha2 _]%NoDup_cons).
  unfold insert_block_after. run. apply wp_assert; [by rewrite (is_block_inserted_spec L p), bool_decide_eq_false_2|].
  run. apply wp_assert; [rewrite (is_block_inserted_spec L p), bool_decide_eq_true_2; [done|rewrite Ho; set_solver|done]|].
  run. unfold next_block in Hbn. rewrite Hbn. assert (after <> b) by (rewrite Ho in Hb; set_solver).
  replace (l1 ++ after :: b :: l2) with ((l1 ++ [after]) ++ b :: l2) by (by rewrite <- (assoc app)).
  assert (Ho' : order p = (l1 ++ [after]) ++ l2) by (by rewrite <- (assoc app)). rewrite Ho in Hb.
  destruct (head l2) as [a|] eqn:El; run; (split; [|done]);
    apply (links_insert_block L _ p (l1 ++ [after]) b l2); cbn [insts first_block last_block_ blocks_ head]; try done.
  all: try (rewrite !length_index_mut; lia).
  all: try (intros y; rewrite ?El, ?last_snoc; try split; nodes).
  all: list_ends.
Qed.

Lemma links_remove_block L L' p l1 b l2 : links L p -> code p b = [] -> order p = l1 ++ b :: l2 ->
  insts L' = insts L -> (forall y, first_inst L' y = first_inst L y /\ last_inst L' y = last_inst L y) ->
  (forall y, prev_block L' y = if decide (y = b) then None else if decide (head l2 = Some y) then last l1 else prev_block L y) ->
  (forall y, next_block L' y = if decide (y = b) then None else if decide (last l1 = Some y) then head l2 else next_block L y) ->
  first_block L' = (match last l1 with None => head l2 | Some _ => first_block L end) ->
  last_block_ L' = (match head l2 with None => last l1 | Some _ => last_block_ L end) ->
  (length (elems (blocks_ L)) <= length (elems (blocks_ L')))%nat ->
  links L' (mkProgram (l1 ++ l2) (code p)).
Proof.
  intros Hl Hc Ho Hi Hfl Hp Hn Hf He Hr.
  pose proof (l_blocks _ _ Hl) as Hdll. rewrite Ho in Hdll.
  pose proof (l_nodup _ _ Hl) as Hd. rewrite Ho in Hd. pose proof Hd as (Hd1 & Hdis & [Ha2 Hd2]%NoDup_cons)%NoDup_app.
  assert (Hb1 : b ∉ l1) by (intros Hb; apply (Hdis b Hb); by left).
  split; cbn [order code].
  - rewrite Hf, He. eapply dll_remove; [exact Hd|exact Hdll|]. intros y Hy. rewrite Hp, Hn.
    by rewrite !(decide_False (P := y = b)) by (intros ->; apply elem_of_app in Hy as [|]; done).
  - apply NoDup_app. split_and!; [done| |done]. intros y Hy Hy2. apply (Hdis y Hy). by right.
  - intros y. destruct (Hfl y) as [-> ->]. unfold prev_inst, next_inst, inst_node. rewrite Hi. apply (l_insts _ _ Hl).
  - apply (l_insts_nodup _ _ Hl).
  - intros y i. unfold inst_block, inst_node. rewrite Hi. apply (l_inst_block _ _ Hl).
  - intros y Hy. rewrite Hp, Hn. destruct (decide (y = b)) as [->|Hyb]; [done|].
    destruct (l_absent _ _ Hl y) as (Hcy & Hpy & Hny); [rewrite Ho; set_solver|]. split; [done|].
    rewrite !decide_False; [done|intros E%last_Some_elem_of; set_solver|intros E%head_Some_elem_of; set_solver].
  - intros i. unfold inst_block, prev_inst, next_inst, inst_node. rewrite Hi. apply (l_loose _ _ Hl).
  - pose proof (l_range _ _ Hl) as Hrange. rewrite Ho in Hrange. rewrite Forall_app, Forall_cons in Hrange. apply Forall_app.
    split; eapply Forall_impl; try apply Hrange; simpl; lia.
  - rewrite Hi. apply (l_dflt _ _ Hl).
Qed.

Lemma remove_block_links L p b l1 l2 : links L p -> code p b = [] -> order p = l1 ++ b :: l2 ->
  returns (remove_block b) (fun L' => links L' (mkProgram (l1 ++ l2) (code p)) /\ insts L' = insts L) L.
Proof.
  intros Hl Hc Ho. destruct (l_insts _ _ Hl b) as (Hfi & Hla & _). rewrite Hc in Hfi, Hla.
  pose proof (l_blocks _ _ Hl) as Hdll. rewrite Ho in Hdll. apply dll_at in Hdll as [Hbp Hbn].
  pose proof (l_nodup _ _ Hl) as Hd. rewrite Ho in Hd. apply NoDup_app in Hd as (Hd1 & Hdis & [Ha2 Hd2]%NoDup_cons).
  unfold remove_block. run. apply wp_assert; [rewrite (is_block_inserted_spec L p), bool_decide_eq_true_2; [done|rewrite Ho; set_solver|done]|].
  run. apply wp_assert; [unfold first_inst in Hfi; by rewrite Hfi|].
  run. unfold prev_block in Hbp. unfold next_block in Hbn. rewrite Hbp, Hbn.
  assert (Hx : forall x, last l1 = Some x -> x <> b /\ forall z, head l2 = Some z -> x <> z).
  { intros x E%last_Some_elem_of. split; [intros ->; apply (Hdis b E); by left|].
    intros z E2%head_Some_elem_of ->. apply (Hdis z E). by right. }
  assert (Hz : forall z, head l2 = Some z -> z <> b) by (intros z E%head_Some_elem_of ->; done).
  destruct (last l1) as [x|] eqn:E1, (head l2) as [z|] eqn:E2;
    try (destruct (Hx x eq_refl) as [? Hx2]); try (specialize (Hx2 z eq_refl)); try (specialize (Hz z eq_refl));
    clear Hx; run; (split; [|done]); apply (links_remove_block L _ p l1 b l2); rewrite ?E1, ?E2; cbn [insts first_block last_block_ blocks_]; try done.
  all: try (rewrite !length_index_mut; lia).
  all: try (intros y; try split; nodes).
Qed.

(** ** The instructions of a block *)

Definition set_code (b : Block) (l : list Inst) (p : Program) : Program :=
  mkProgram (order p) (fun c => if decide (c = b) then l else code p c).

Lemma code_in L p b c i : links L p -> i ∈ code p b -> i ∈ code p c -> c = b.
Proof. intros Hl H1%(l_inst_block _ _ Hl) H2%(l_inst_block _ _ Hl). congruence. Qed.

(** The blocks of a layout are as in another one. *)
Definition same_blocks (L L' : Layout) : Prop :=
  (forall y, prev_block L' y = prev_block L y /\ next_block L' y = next_block L y) /\
  first_block L' = first_block L /\ last_block_ L' = last_block_ L /\
  (length (elems (blocks_ L)) <= length (elems (blocks_ L')))%nat /\ dflt (insts L') = dflt (insts L).

Lemma links_insert_inst L L' p b l1 x l2 : links L p -> b ∈ order p -> code p b = l1 ++ l2 -> inst_block L x = None ->
  same_blocks L L' ->
  (forall y, prev_inst L' y = if decide (y = x) then last l1 else if decide (head l2 = Some y) then Some x else prev_inst L y) ->
  (forall y, next_inst L' y = if decide (y = x) then head l2 else if decide (last l1 = Some y) then Some x else next_inst L y) ->
  (forall y, inst_block L' y = if decide (y = x) then Some b else inst_block L y) ->
  (forall c, first_inst L' c = if decide (c = b) then match l1 with [] => Some x | _ => first_inst L b end else first_inst L c) ->
  (forall c, last_inst L' c = if decide (c = b) then match l2 with [] => Some x | _ => last_inst L b end else last_inst L c) ->
  links L' (set_code b (l1 ++ x :: l2) p).
Proof.
  intros Hl Hb Hc Hx (Hbl & Hf & He & Hr & Hdf) Hp Hn Hib Hfi Hla.
  assert (Hloose : forall c, x ∉ code p c) by (intros c H%(l_inst_block _ _ Hl); congruence).
  pose proof (l_insts_nodup _ _ Hl b) as Hd. pose proof (l_insts _ _ Hl b) as Hdll. rewrite Hc in Hd, Hdll.
  assert (Hxb : x ∉ l1 ++ l2) by (rewrite <- Hc; apply Hloose).
  split; cbn [order code set_code].
  - rewrite Hf, He. eapply dll_same; [|apply Hl]. intros y _. apply Hbl.
  - apply Hl.
  - intros c. rewrite Hfi, Hla. destruct (decide (c = b)) as [->|Hcb].
    + eapply dll_insert; [exact Hd|exact Hdll|by rewrite Hp, decide_True|by rewrite Hn, decide_True|].
      intros y Hy. by rewrite Hp, Hn, !(decide_False (P := y = x)) by (by intros ->).
    + eapply dll_same; [|apply (l_insts _ _ Hl)]. intros y Hy. rewrite Hp, Hn.
      rewrite !(decide_False (P := y = x)) by (intros ->; by eapply Hloose).
      assert (Hyb : y ∉ l1 ++ l2) by (rewrite <- Hc; intros Hyb; destruct Hcb; by eapply code_in).
      rewrite !decide_False; [done|intros E%last_Some_elem_of; set_solver|intros E%head_Some_elem_of; set_solver].
  - intros c. case_decide; [|apply (l_insts_nodup _ _ Hl)].
    rewrite NoDup_app, NoDup_cons. apply NoDup_app in Hd as (H1 & H2 & H3). rewrite elem_of_app in Hxb. set_solver.
  - intros c i. rewrite Hib. destruct (decide (i = x)) as [->|Hi].
    + case_decide as Hcb; [subst; set_solver|]. split; [intros H; by destruct (Hloose c)|congruence].
    + rewrite <- (l_inst_block _ _ Hl). case_decide as Hcb; [subst; rewrite Hc; set_solver|done].
  - intros c Hcb. destruct (Hbl c) as [-> ->]. rewrite decide_False by (by intros ->). by apply (l_absent _ _ Hl).
  - intros i. rewrite Hib, Hp, Hn. case_decide; [done|]. intros Hi. rewrite !decide_False; [by apply (l_loose _ _ Hl)| |].
    + intros E%last_Some_elem_of. assert (i ∈ code p b) as H2%(l_inst_block _ _ Hl) by (rewrite Hc; set_solver). congruence.
    + intros E%head_Some_elem_of. assert (i ∈ code p b) as H2%(l_inst_block _ _ Hl) by (rewrite Hc; set_solver). congruence.
  - eapply Forall_impl; [apply Hl|]. simpl. lia.
  - rewrite Hdf. apply Hl.
Qed.

Lemma links_remove_inst L L' p b l1 x l2 : links L p -> code p b = l1 ++ x :: l2 ->
  same_blocks L L' ->
  (forall y, prev_inst L' y = if decide (y = x) then None else if decide (head l2 = Some y) then last l1 else prev_inst L y) ->
  (forall y, next_inst L' y = if decide (y = x) then None else if decide (last l1 = Some y) then head l2 else next_inst L y) ->
  (forall y, inst_block L' y = if decide (y = x) then None else inst_block L y) ->
  (forall c, first_inst L' c = if decide (c = b) then match last l1 with None => head l2 | Some _ => first_inst L b end else first_inst L c) ->
  (forall c, last_inst L' c = if decide (c = b) then match head l2 with None => last l1 | Some _ => last_inst L b end else last_inst L c) ->
  links L' (set_code b (l1 ++ l2) p).
Proof.
  intros Hl Hc (Hbl & Hf & He & Hr & Hdf) Hp Hn Hib Hfi Hla.
  pose proof (l_insts_nodup _ _ Hl b) as Hd. pose proof (l_insts _ _ Hl b) as Hdll. rewrite Hc in Hd, Hdll.
  pose proof Hd as (Hd1 & Hdis & [Ha2 Hd2]%NoDup_cons)%NoDup_app.
  assert (Hx1 : x ∉ l1) by (intros Hx; apply (Hdis x Hx); by left).
  assert (Hxb : x ∈ code p b) by (rewrite Hc; set_solver).
  split; cbn [order code set_code].
  - rewrite Hf, He. eapply dll_same; [|apply Hl]. intros y _. apply Hbl.
  - apply Hl.
  - intros c. rewrite Hfi, Hla. destruct (decide (c = b)) as [->|Hcb].
    + eapply dll_remove; [exact Hd|exact Hdll|]. intros y Hy.
      by rewrite Hp, Hn, !(decide_False (P := y = x)) by (intros ->; apply elem_of_app in Hy as [|]; done).
    + eapply dll_same; [|apply (l_insts _ _ Hl)]. intros y Hy. rewrite Hp, Hn.
      assert (Hyb : y ∉ l1 ++ x :: l2) by (rewrite <- Hc; intros Hyb; destruct Hcb; by eapply code_in).
      rewrite !decide_False; [done|intros E%last_Some_elem_of|..|intros E%head_Some_elem_of|]; set_solver.
  - intros c. case_decide; [|apply (l_insts_nodup _ _ Hl)].
    apply NoDup_app. split_and!; [done| |done]. intros y Hy Hy2. apply (Hdis y Hy). by right.
  - intros c i. rewrite Hib. destruct (decide (i = x)) as [->|Hi].
    + case_decide as Hcb; [subst; set_solver|]. split; [|done]. intros H. destruct Hcb. by eapply code_in.
    + rewrite <- (l_inst_block _ _ Hl). case_decide as Hcb; [subst; rewrite Hc; set_solver|done].
  - intros c Hcb. destruct (Hbl c) as [-> ->]. destruct (l_absent _ _ Hl c Hcb) as (Hcc & ?). split; [|done].
    case_decide; [subst|done]. rewrite Hcc in Hxb. set_solver.
  - intros i. rewrite Hib, Hp, Hn. case_decide; [done|]. intros Hi. rewrite !decide_False; [by apply (l_loose _ _ Hl)| |].
    + intros E%last_Some_elem_of. assert (i ∈ code p b) as H2%(l_inst_block _ _ Hl) by (rewrite Hc; set_solver). congruence.
    + intros E%head_Some_elem_of. assert (i ∈ code p b) as H2%(l_inst_block _ _ Hl) by (rewrite Hc; set_solver). congruence.
  - eapply Forall_impl; [apply Hl|]. simpl. lia.
  - rewrite Hdf. apply Hl.
Qed.

(** ** Sequence numbers *)

(** Another layout that differs in sequence numbers only. *)
Definition only_seqs (L L' : Layout) : Prop :=
  blocks_ L' = blocks_ L /\ first_block L' = first_block L /\ last_block_ L' = last_block_ L /\
  (forall i, inst_block L' i = inst_block L i /\ prev_inst L' i = prev_inst L i /\ next_inst L' i = next_inst L i) /\
  dflt (insts L') = dflt (insts L) /\ (inst_fuel L <= inst_fuel L')%nat.

Lemma only_seqs_refl L : only_seqs L L.
Proof. split_and!; done. Qed.

Lemma only_seqs_trans L1 L2 L3 : only_seqs L1 L2 -> only_seqs L2 L3 -> only_seqs L1 L3.
Proof.
  intros (H1 & H2 & H3 & H4 & H5 & H6) (G1 & G2 & G3 & G4 & G5 & G6). split_and!; try congruence; [|lia].
  intros i. destruct (H4 i) as (? & ? & ?), (G4 i) as (? & ? & ?). split_and!; congruence.
Qed.

Lemma links_only_seqs L L' p : links L p -> only_seqs L L' -> links L' p.
Proof.
  intros Hl (Hb & Hf & He & Hi & Hd & _). unfold prev_block, next_block, first_inst, last_inst, block_node.
  split; unfold prev_block, next_block, first_inst, last_inst, block_node; rewrite ?Hb, ?Hf, ?He, ?Hd; try apply Hl.
  - intros b. eapply dll_same; [|apply (l_insts _ _ Hl)]. intros y _. apply Hi.
  - intros b i. destruct (Hi i) as [-> _]. apply (l_inst_block _ _ Hl).
  - intros i. destruct (Hi i) as (-> & -> & ->). apply (l_loose _ _ Hl).
Qed.

Definition with_seq (L : Layout) (i : Inst) (z : Z) : Layout :=
  mkLayout (blocks_ L) (index_mut (set_seq z) i (insts L)) (first_block L) (last_block_ L).

Lemma with_seq_only L i z : only_seqs L (with_seq L i z).
Proof.
  split_and!; try done; unfold with_seq, inst_fuel; cbn [insts]; [|by rewrite dflt_index_mut|rewrite length_index_mut; lia].
  intros j. split_and!; nodes.
Qed.

Lemma with_seq_at L i z j : inst_seq (with_seq L i z) j = if decide (j = i) then z else inst_seq L j.
Proof. unfold with_seq. nodes. Qed.

(** Where an ascending list ends. *)
Definition seq_end (f : Inst -> Z) (lo : Z) (l : list Inst) : Z := match last l with Some i => f i | None => lo end.

Lemma ascending_app f lo l1 l2 : ascending f lo (l1 ++ l2) <-> ascending f lo l1 /\ ascending f (seq_end f lo l1) l2.
Proof.
  revert lo. induction l1 as [|x l1 IH]; intros lo; simpl; [by unfold seq_end; simpl; tauto|].
  rewrite IH. unfold seq_end. destruct l1 as [|y l1]; simpl; [tauto|].
  destruct (last (y :: l1)) eqn:E; [simpl in *; rewrite ?E; tauto|by apply last_None in E].
Qed.

Lemma ascending_ext f g lo l : (forall i, i ∈ l -> g i = f i) -> ascending f lo l -> ascending g lo l.
Proof.
  revert lo. induction l as [|x l IH]; intros lo H; simpl; [done|]. rewrite (H x) by (by left). intros [? ?].
  split; [done|]. apply IH; [|done]. intros i Hi. apply H. by right.
Qed.

Lemma seq_end_ext f g lo l : (forall i, i ∈ l -> g i = f i) -> seq_end g lo l = seq_end f lo l.
Proof. intros H. unfold seq_end. destruct (last l) eqn:E; [|done]. by apply H, last_Some_elem_of. Qed.

Lemma ascending_steps f lo s l : lo < s -> (forall (k : nat) i, l !! k = Some i -> f i = s + 10 * Z.of_nat k) -> ascending f lo l.
Proof.
  revert lo s. induction l as [|x l IH]; intros lo s Hs H; simpl; [done|].
  pose proof (H 0%nat x eq_refl). split; [lia|]. apply (IH _ (s + 10)); [lia|].
  intros k i Hi. rewrite (H (S k) i Hi). lia.
Qed.

Lemma wp_add32 a b P (Q : Empty_set -> Layout -> Prop) L : a + b <= u32_MAX -> P (a + b) L -> wp (add32 a b) P Q L.
Proof. intros. apply wp_unwrap with (a + b); [by apply checked_add_Some|done]. Qed.

(** All instructions of a block are in the vector. *)
Lemma code_fuel L p b : links L p -> (length (code p b) <= inst_fuel L)%nat.
Proof.
  intros Hl. assert (code p b ⊆+ seq 0 (inst_fuel L)) as H%submseteq_length; [|by rewrite length_seq in H].
  apply NoDup_submseteq; [apply Hl|]. intros i Hi. apply elem_of_seq. split; [lia|]. simpl. apply index_beyond.
  rewrite (l_dflt _ _ Hl). apply (l_inst_block _ _ Hl) in Hi. unfold inst_block, inst_node in Hi. intros E. by rewrite E in Hi.
Qed.

Lemma renumber_from_ok fuel : forall l L before s, linked (prev_inst L) (next_inst L) before l None -> NoDup l ->
  (length l <= fuel)%nat -> s + 10 * Z.of_nat (length l) <= u32_MAX ->
  returns (renumber_from fuel (head l) s) (fun L' => only_seqs L L' /\
    (forall y, y ∉ l -> inst_seq L' y = inst_seq L y) /\
    forall (k : nat) i, l !! k = Some i -> inst_seq L' i = s + 10 * Z.of_nat k) L.
Proof.
  induction fuel as [|fuel IH]; intros [|x l] L before s; try (simpl; lia);
    [by (intros; split_and!; [apply only_seqs_refl|..])|by (intros; split_and!; [apply only_seqs_refl|..])|].
  intros (_ & Hn & Hlk) [Hx Hd]%NoDup_cons Hf Hs. cbn [length] in Hf, Hs. cbn [renumber_from head]. run.
  change (mkLayout _ _ _ _) with (with_seq L x s). apply wp_add32; [unfold MAJOR_STRIDE; lia|]. run.
  pose proof (with_seq_only L x s) as Hs1. destruct (Hs1) as (_ & _ & _ & Hi & _).
  replace (i_next (inst_node (with_seq L x s) x)) with (head l)
    by (destruct (Hi x) as (_ & _ & E); unfold next_inst in E, Hn; rewrite E, Hn; by destruct l).
  eapply wp_mono; [apply (IH l (with_seq L x s) (Some x) (s + MAJOR_STRIDE))| |done]; [|done|lia|unfold MAJOR_STRIDE; lia|].
  { eapply linked_ext; [|exact Hlk]. intros y _. apply Hi. }
  intros [] L' (Ho & Hout & Hin). split_and!.
  - by eapply only_seqs_trans.
  - intros y Hy. rewrite Hout, with_seq_at, decide_False; [done|..]; set_solver.
  - intros [|k] i Hk; simpl in Hk; [|rewrite (Hin _ _ Hk); unfold MAJOR_STRIDE; lia].
    injection Hk as ->. rewrite Hout by done. rewrite with_seq_at, decide_True by done. lia.
Qed.

(** What assigning numbers in block [b] does: its instructions are in order
    afterwards, and no number is above the bound. *)
Definition renumbered (B : Z) (p : Program) (b : Block) (L L' : Layout) : Prop :=
  only_seqs L L' /\ (forall y, y ∉ code p b -> inst_seq L' y = inst_seq L y) /\
  ascending (inst_seq L') 0 (code p b) /\ forall y, inst_seq L' y <= B.

Lemma full_block_renumber_ok L p b B : links L p -> (forall y, inst_seq L y <= B) ->
  10 * Z.of_nat (length (code p b)) <= B -> 10 * Z.of_nat (length (code p b)) + 10 <= u32_MAX ->
  returns (full_block_renumber b) (renumbered B p b L) L.
Proof.
  intros Hl HB Hlen Hmax. unfold full_block_renumber. run.
  destruct (l_insts _ _ Hl b) as (Hf & _ & Hlk). unfold first_inst in Hf. rewrite Hf.
  eapply wp_mono; [apply (renumber_from_ok _ _ L None MAJOR_STRIDE Hlk)| |done];
    [apply (l_insts_nodup _ _ Hl)|by apply code_fuel|unfold MAJOR_STRIDE; lia|].
  intros [] L' (Ho & Hout & Hin). split_and!; [done..| |].
  - eapply ascending_steps; [|exact Hin]. done.
  - intros y. destruct (decide (y ∈ code p b)) as [Hy|Hy]; [|rewrite Hout by done; apply HB].
    apply list_elem_of_lookup in Hy as [k Hk]. rewrite (Hin _ _ Hk). apply lookup_lt_Some in Hk. unfold MAJOR_STRIDE. lia.
Qed.

Lemma renumbered_only B p b L1 L2 L3 :
  only_seqs L1 L2 -> (forall y, y ∉ code p b -> inst_seq L2 y = inst_seq L1 y) ->
  renumbered B p b L2 L3 -> renumbered B p b L1 L3.
Proof.
  intros Ho Hs (Ho' & Hs' & Ha & HB). split_and!; [by eapply only_seqs_trans| |done..].
  intros y Hy. rewrite Hs', Hs; done.
Qed.

Section renumber.
Context (B limit : Z) (p : Program) (b : Block).
Hypothesis (HB : limit + MINOR_STRIDE <= B).
Hypothesis (Hlen : 10 * Z.of_nat (length (code p b)) <= B) (Hmax : B + 10 <= u32_MAX).

Lemma renumber_loop_ok fuel : forall l1 x l2 lo L s, links L p -> code p b = l1 ++ x :: l2 -> (length (x :: l2) <= fuel)%nat ->
  (forall y, inst_seq L y <= B) -> s <= limit + MINOR_STRIDE ->
  ascending (inst_seq L) 0 l1 -> seq_end (inst_seq L) 0 l1 < s -> ascending (inst_seq L) lo l2 ->
  returns (renumber_loop fuel x s limit) (renumbered B p b L) L.
Proof.
  induction fuel as [|fuel IH]; intros l1 x l2 lo L s Hl Hc Hf HS Hs H1 He H2; [simpl in Hf; lia|].
  pose proof (l_insts_nodup _ _ Hl b) as Hd. rewrite Hc in Hd. apply NoDup_app in Hd as (Hd1 & Hdis & [Hx2 Hd2]%NoDup_cons).
  assert (Hx1 : x ∉ l1) by (intros Hx; apply (Hdis x Hx); by left).
  pose proof (with_seq_only L x s) as Ho. pose proof (links_only_seqs _ _ _ Hl Ho) as Hl1.
  assert (Hout : forall y, y ∉ code p b -> inst_seq (with_seq L x s) y = inst_seq L y).
  { intros y Hy. rewrite with_seq_at, decide_False; [done|]. intros ->. apply Hy. rewrite Hc. set_solver. }
  set (L1 := with_seq L x s) in *.
  assert (Hsame : forall y, y <> x -> inst_seq L1 y = inst_seq L y) by (intros; unfold L1; by rewrite with_seq_at, decide_False).
  assert (Hx : inst_seq L1 x = s) by (unfold L1; by rewrite with_seq_at, decide_True).
  assert (Hpre : ascending (inst_seq L1) 0 (l1 ++ [x])).
  { apply ascending_app. simpl. rewrite (seq_end_ext (inst_seq L)), Hx by (intros i Hi; apply Hsame; by intros ->).
    split; [|done]. eapply ascending_ext; [|exact H1]. intros i Hi. apply Hsame. by intros ->. }
  assert (Hend : seq_end (inst_seq L1) 0 (l1 ++ [x]) = s) by (unfold seq_end; by rewrite last_snoc).
  assert (Hsuf : ascending (inst_seq L1) lo l2).
  { eapply ascending_ext; [|exact H2]. intros i Hi. apply Hsame. by intros ->. }
  assert (HS1 : forall y, inst_seq L1 y <= B).
  { intros y. destruct (decide (y = x)) as [->|]; [lia|by rewrite Hsame]. }
  cbn [renumber_loop]. run. change (mkLayout _ _ _ _) with L1.
  pose proof (l_insts _ _ Hl1 b) as Hdll. rewrite Hc in Hdll. apply dll_at in Hdll as [_ Hn]. unfold next_inst in Hn. rewrite Hn.
  assert (Hc' : code p b = (l1 ++ [x]) ++ l2) by (by rewrite <- (assoc app)).
  destruct l2 as [|n l2]; cbn [head].
  { apply wp_ret. split_and!; [done|done|by rewrite Hc', app_nil_r|done]. }
  run. fold (inst_seq L1 n). destruct Hsuf as [_ Hsuf]. case Z.ltb_spec; intros Hsn.
  { apply wp_ret. split_and!; [done|done| |done]. rewrite Hc'. apply ascending_app. by rewrite Hend. }
  case Z.ltb_spec; intros Hls; run.
  - assert (Hb : n ∈ code p b) by (rewrite Hc; set_solver). apply (l_inst_block _ _ Hl1) in Hb. unfold inst_block in Hb.
    apply wp_unwrap with b; [done|]. eapply wp_mono; [apply (full_block_renumber_ok L1 p b B)| |done]; [done..|lia|].
    intros [] L'. by apply renumbered_only.
  - apply wp_add32; [unfold MINOR_STRIDE in *; lia|]. eapply wp_mono; [apply (IH (l1 ++ [x]) n l2 (inst_seq L1 n))| |done];
      try done; [simpl in *; lia|unfold MINOR_STRIDE in *; lia|unfold MINOR_STRIDE; lia|].
    intros [] L'. by apply renumbered_only.
Qed.
End renumber.

(** The numbers in front of and behind an instruction. *)
Lemma neighbour_seqs L p b l1 x l2 : links L p -> code p b = l1 ++ x :: l2 ->
  i_prev (inst_node L x) = last l1 /\ i_next (inst_node L x) = head l2 /\
  (match last l1 with Some i => seq_ (inst_node L i) | None => 0 end) = seq_end (inst_seq L) 0 l1.
Proof.
  intros Hl Hc. pose proof (l_insts _ _ Hl b) as Hdll. rewrite Hc in Hdll. apply dll_at in Hdll as [Hp Hn].
  unfold prev_inst, next_inst in *. split_and!; done.
Qed.

(** Giving one instruction a number that fits. *)
Lemma with_seq_renumbered L p b l1 x l2 z B : links L p -> code p b = l1 ++ x :: l2 -> (forall y, inst_seq L y <= B) -> z <= B ->
  ascending (inst_seq L) 0 l1 -> seq_end (inst_seq L) 0 l1 < z -> ascending (inst_seq L) z l2 ->
  renumbered B p b L (with_seq L x z).
Proof.
  intros Hl Hc HS Hz H1 He H2. pose proof (l_insts_nodup _ _ Hl b) as Hd. rewrite Hc in Hd.
  apply NoDup_app in Hd as (Hd1 & Hdis & [Hx2 Hd2]%NoDup_cons).
  assert (Hx1 : x ∉ l1) by (intros Hx; apply (Hdis x Hx); by left).
  assert (Hsame : forall y, y <> x -> inst_seq (with_seq L x z) y = inst_seq L y) by (intros; by rewrite with_seq_at, decide_False).
  split_and!; [apply with_seq_only| | |].
  - intros y Hy. apply Hsame. intros ->. apply Hy. rewrite Hc. set_solver.
  - rewrite Hc. apply ascending_app. simpl. rewrite (seq_end_ext (inst_seq L)) by (intros i Hi; apply Hsame; by intros ->).
    rewrite with_seq_at, decide_True by done.
    split_and!; [|done|]; (eapply ascending_ext; [|eassumption]); intros i Hi; apply Hsame; by intros ->.
  - intros y. rewrite with_seq_at. case_decide; [done|apply HS].
Qed.

Lemma renumbered_mono B B' p b L L' : B <= B' -> renumbered B p b L L' -> renumbered B' p b L L'.
Proof. intros H (? & ? & ? & Hb). split_and!; [done..|]. intros y. specialize (Hb y). lia. Qed.

Lemma assign_inst_seq_ok L p b l1 x l2 B : links L p -> code p b = l1 ++ x :: l2 -> (forall y, inst_seq L y <= B) -> 0 <= B ->
  ascending (inst_seq L) 0 (l1 ++ l2) -> 10 * Z.of_nat (length (code p b)) <= B + 202 -> B + 212 <= u32_MAX ->
  returns (assign_inst_seq x) (renumbered (B + 202) p b L) L.
Proof.
  intros Hl Hc HS HB [H1 H2]%ascending_app Hlen Hmax. destruct (neighbour_seqs L p b l1 x l2 Hl Hc) as (Hp & Hn & He).
  assert (Hend : seq_end (inst_seq L) 0 l1 <= B) by (unfold seq_end; destruct (last l1); [apply HS|done]).
  unfold assign_inst_seq. run. rewrite Hp, Hn, He. destruct l2 as [|n l2]; cbn [head].
  - run. apply wp_add32; [unfold MAJOR_STRIDE; lia|]. run. change (mkLayout _ _ _ _) with (with_seq L x (seq_end (inst_seq L) 0 l1 + MAJOR_STRIDE)).
    unfold MAJOR_STRIDE. apply (with_seq_renumbered L p b l1 x []); try done; try lia. intros y. specialize (HS y). lia.
  - fold (inst_seq L n). destruct H2 as [H2 H3]. run. unfold midpoint. run. apply wp_assert; [by apply Z.ltb_lt|]. run.
    set (a := seq_end (inst_seq L) 0 l1) in *. set (mid := a + (inst_seq L n - a) / 2).
    assert (a <= mid < inst_seq L n) by (unfold mid; nia || (pose proof (Z.div_lt_upper_bound (inst_seq L n - a) 2 (inst_seq L n - a)); pose proof (Z.div_pos (inst_seq L n - a) 2); lia)).
    case Z.ltb_spec; intros Hm; run.
    + change (mkLayout _ _ _ _) with (with_seq L x mid). pose proof (HS n).
      apply (with_seq_renumbered L p b l1 x (n :: l2)); try done; [intros y; specialize (HS y); lia|lia|]. simpl. split; [lia|done].
    + apply wp_add32; [unfold MINOR_STRIDE; lia|]. run. apply wp_add32; [unfold LOCAL_LIMIT, MINOR_STRIDE; lia|].
      unfold renumber_insts. run. apply (renumber_loop_ok (B + 202) (a + LOCAL_LIMIT) p b) with (l1 := l1) (l2 := n :: l2) (lo := a);
        try done; unfold LOCAL_LIMIT, MINOR_STRIDE in *; try lia.
      * pose proof (code_fuel L p b Hl) as Hf. rewrite Hc, length_app in Hf. simpl in *. lia.
      * intros y. specialize (HS y). lia.
Qed.

(** ** Operations on instructions *)

Ltac same_blocks_ok :=
  split_and!; cbn [blocks_ insts first_block last_block_]; rewrite ?length_index_mut, ?dflt_index_mut; try done; try lia;
  intros ?; split; nodes.

(** How much the numbers may grow with one operation. *)
Definition GROWTH : Z := LOCAL_LIMIT + MINOR_STRIDE.

(** The last step of an insertion. *)
Lemma assign_inserted L1 L p b l1 x l2 B : links L1 (set_code b (l1 ++ x :: l2) p) -> code p b = l1 ++ l2 -> ordered B L p ->
  (forall y, inst_seq L1 y = inst_seq L y) -> B + GROWTH + MAJOR_STRIDE <= u32_MAX ->
  returns (assign_inst_seq x) (fun L' => links L' (set_code b (l1 ++ x :: l2) p) /\ ordered (B + GROWTH) L' (set_code b (l1 ++ x :: l2) p)) L1.
Proof.
  intros Hl Hc (Ha & HS & HB & Hlen) Hsame Hmax. unfold GROWTH, LOCAL_LIMIT, MINOR_STRIDE, MAJOR_STRIDE in *.
  set (p' := set_code b (l1 ++ x :: l2) p) in *. assert (Hc' : code p' b = l1 ++ x :: l2) by (unfold p'; simpl; by rewrite decide_True).
  pose proof (Hlen b) as Hlb. rewrite Hc, length_app in Hlb.
  eapply wp_mono; [apply (assign_inst_seq_ok L1 p' b l1 x l2 B)| |done]; try done.
  - intros y. rewrite Hsame. apply HS.
  - rewrite <- Hc. eapply ascending_ext; [|apply Ha]. intros i _. apply Hsame.
  - rewrite Hc', length_app. simpl. lia.
  - lia.
  - intros [] L' (Ho & Hout & Has & HS'). split; [by eapply links_only_seqs|]. split_and!; [|done|lia|].
    + intros c. destruct (decide (c = b)) as [->|Hcb]; [done|].
      assert (Hcc : code p' c = code p c) by (unfold p'; simpl; by rewrite decide_False). rewrite Hcc.
      eapply ascending_ext; [|apply Ha]. intros i Hi. rewrite Hout, Hsame; [done|]. intros Hb. destruct Hcb.
      rewrite <- Hcc in Hi. symmetry. by eapply (code_in L1 p').
    + intros c. unfold p'. simpl. case_decide; [rewrite length_app; simpl; lia|]. specialize (Hlen c). lia.
Qed.

Lemma append_inst_ok L p b x B : links L p -> ordered B L p -> b ∈ order p -> inst_block L x = None -> B + GROWTH + MAJOR_STRIDE <= u32_MAX ->
  let p' := set_code b (code p b ++ [x]) p in
  returns (append_inst x b) (fun L' => links L' p' /\ ordered (B + GROWTH) L' p') L.
Proof.
  intros Hl Ho Hb Hx Hmax p'. destruct (l_loose _ _ Hl x Hx) as (Hpx & Hnx). destruct (l_insts _ _ Hl b) as (Hfi & Hla & _).
  unfold append_inst. run. apply wp_assert; [by rewrite Hx|]. run.
  apply wp_assert; [by rewrite (is_block_inserted_spec L p), bool_decide_eq_true_2|]. run.
  apply wp_assert; [by rewrite Hnx|]. run.
  assert (Hlx : forall y, last_inst L b = Some y -> y <> x).
  { intros y Hy ->. rewrite Hy in Hla. symmetry in Hla. apply last_Some_elem_of in Hla. apply (l_inst_block _ _ Hl) in Hla. congruence. }
  destruct (first_inst L b) as [f|] eqn:Ef; run.
  - destruct (last_inst L b) as [l|] eqn:El; [|symmetry in Hla; apply last_None in Hla; by rewrite Hla in Hfi].
    apply wp_unwrap with l; [done|]. run. specialize (Hlx l eq_refl).
    apply (assign_inserted _ L p b (code p b) x []); [|by rewrite app_nil_r|done| |done]; [|intros y; nodes].
    apply (links_insert_inst L _ p b (code p b) x []); rewrite ?app_nil_r, <- ?Hla; try done.
    + same_blocks_ok.
    + intros y. nodes.
    + intros y. nodes.
    + intros y. nodes.
    + intros y. destruct (code p b); [done|]. nodes.
    + intros y. nodes.
  - assert (Hc : code p b = []) by (by destruct (code p b)).
    apply (assign_inserted _ L p b (code p b) x []); [|by rewrite app_nil_r|done| |done]; [|intros y; nodes].
    apply (links_insert_inst L _ p b (code p b) x []); rewrite ?app_nil_r; try done; try same_blocks_ok.
    all: rewrite ?Hc in *; intros y; nodes.
Qed.

Lemma insert_inst_ok L p b l1 before l2 x B : links L p -> ordered B L p -> code p b = l1 ++ before :: l2 ->
  inst_block L x = None -> B + GROWTH + MAJOR_STRIDE <= u32_MAX ->
  let p' := set_code b (l1 ++ x :: before :: l2) p in
  returns (insert_inst x before) (fun L' => links L' p' /\ ordered (B + GROWTH) L' p') L.
Proof.
  intros Hl Ho Hc Hx Hmax p'. destruct (l_loose _ _ Hl x Hx) as (Hpx & Hnx). destruct (l_insts _ _ Hl b) as (Hfi & Hla & _).
  pose proof (l_insts _ _ Hl b) as Hdll. rewrite Hc in Hdll. apply dll_at in Hdll as [Hbp Hbn].
  assert (Hin : forall y, y ∈ code p b -> inst_block L y = Some b) by (intros y Hy; by apply (l_inst_block _ _ Hl)).
  assert (Hbb : inst_block L before = Some b) by (apply Hin; rewrite Hc; set_solver).
  assert (Hb : b ∈ order p) by (apply dec_stable; intros Hb; destruct (l_absent _ _ Hl b Hb) as [E _]; by rewrite E in Hc; destruct l1).
  unfold insert_inst. run. apply wp_assert; [by rewrite Hx|]. run. apply wp_unwrap with b; [done|]. run. rewrite Hbp.
  assert (before <> x) by congruence.
  assert (Hlx : forall y, last l1 = Some y -> y <> x /\ y <> before).
  { intros y Hy%last_Some_elem_of. split; [intros ->; rewrite Hin in Hx; [done|rewrite Hc; set_solver]|].
    intros ->. pose proof (l_insts_nodup _ _ Hl b) as Hd. rewrite Hc in Hd. apply NoDup_app in Hd as (_ & Hd & _). apply (Hd before Hy). by left. }
  destruct (last l1) as [a|] eqn:El; run;
    (apply (assign_inserted _ L p b l1 x (before :: l2)); [|done|done|intros y; nodes|done]);
    apply (links_insert_inst L _ p b l1 x (before :: l2)); try done; rewrite ?El; try same_blocks_ok.
  all: try (destruct (Hlx a eq_refl)).
  all: try (intros y; nodes).
  all: list_ends.
Qed.

(** Removing leaves the numbers as they are. *)
Lemma ascending_remove f lo l1 x l2 : ascending f lo (l1 ++ x :: l2) -> ascending f lo (l1 ++ l2).
Proof.
  rewrite !ascending_app. intros [H1 [Hx H2]]. split; [done|]. destruct l2 as [|y l2]; [done|]. destruct H2. split; [lia|done].
Qed.

Lemma ordered_remove B L L' p b l1 x l2 : ordered B L p -> code p b = l1 ++ x :: l2 -> (forall y, inst_seq L' y = inst_seq L y) ->
  ordered B L' (set_code b (l1 ++ l2) p).
Proof.
  intros (Ha & HS & HB & Hlen) Hc Hs. split_and!; [|intros y; rewrite Hs; apply HS|done|].
  - intros c. simpl. case_decide; [subst|]; (eapply ascending_ext; [intros i _; apply Hs|]); [|apply Ha].
    apply ascending_remove with x. rewrite <- Hc. apply Ha.
  - intros c. simpl. case_decide; [|apply Hlen]. specialize (Hlen b). rewrite Hc, length_app in Hlen. rewrite length_app. simpl in *. lia.
Qed.

Lemma remove_inst_ok L p b l1 x l2 B : links L p -> ordered B L p -> code p b = l1 ++ x :: l2 ->
  let p' := set_code b (l1 ++ l2) p in
  returns (remove_inst x) (fun L' => links L' p' /\ ordered B L' p' /\ inst_fuel L' = inst_fuel L) L.
Proof.
  intros Hl Ho Hc p'. destruct (l_insts _ _ Hl b) as (Hfi & Hla & _).
  pose proof (l_insts _ _ Hl b) as Hdll. rewrite Hc in Hdll. apply dll_at in Hdll as [Hbp Hbn].
  pose proof (l_insts_nodup _ _ Hl b) as Hd. rewrite Hc in Hd. apply NoDup_app in Hd as (_ & Hdis & [Hx2 _]%NoDup_cons).
  assert (Hin : forall y, y ∈ code p b -> inst_block L y = Some b /\ (y < inst_fuel L)%nat).
  { intros y Hy%(l_inst_block _ _ Hl). split; [done|]. apply index_beyond. rewrite (l_dflt _ _ Hl). intros E.
    unfold inst_block, inst_node in Hy. by rewrite E in Hy. }
  assert (Hxb : inst_block L x = Some b /\ (x < inst_fuel L)%nat) by (apply Hin; rewrite Hc; set_solver).
  unfold remove_inst. run. apply wp_unwrap with b; [apply Hxb|]. run. rewrite Hbp, Hbn.
  assert (Hx : forall a, last l1 = Some a -> a <> x /\ (a < inst_fuel L)%nat /\ forall z, head l2 = Some z -> a <> z).
  { intros a E%last_Some_elem_of. split_and!; [intros ->; apply (Hdis x E); by left|apply Hin; rewrite Hc; set_solver|].
    intros z E2%head_Some_elem_of ->. apply (Hdis z E). by right. }
  assert (Hz : forall z, head l2 = Some z -> z <> x /\ (z < inst_fuel L)%nat).
  { intros z E%head_Some_elem_of. split; [by intros ->|apply Hin; rewrite Hc; set_solver]. }
  destruct (last l1) as [a|] eqn:E1, (head l2) as [z|] eqn:E2;
    try (destruct (Hx a eq_refl) as (? & ? & Hx2')); try (specialize (Hx2' z eq_refl)); try (destruct (Hz z eq_refl));
    clear Hx Hz; run; (split_and!; [|apply (ordered_remove B L _ p b l1 x l2); [done..|intros y; nodes]|]).
  all: try (unfold inst_fuel in *; cbn [insts]; rewrite !length_index_mut; lia).
  all: apply (links_remove_inst L _ p b l1 x l2); rewrite ?E1, ?E2; try done; try same_blocks_ok.
  all: intros y; nodes.
Qed.
