(* ===== verification/LayoutRefine.v ===== *)
(** * The layout of a function refines lists

    The operations of Layout.v that are loops or touch two blocks, its iterators and its
    serialization, and what all of it amounts to: the operations implement those on a list of
    blocks with their instructions. *)

From S2P Require Import Prelude EntityMap LinkedList Layout.

(** Blocks with the same instructions. *)
Lemma links_code L p p' : links L p -> order p' = order p -> (forall c, code p' c = code p c) -> links L p'.
Proof. intros Hl Ho Hc. split; rewrite ?Ho; intros; rewrite ?Hc in *; try apply Hl; auto. Qed.

Lemma ordered_code B L p p' : ordered B L p -> (forall c, code p' c = code p c) -> ordered B L p'.
Proof. intros (Ha & HS & HB & Hlen) Hc. split_and!; try done; intros; rewrite Hc; auto. Qed.

Lemma remove_insts_ok fuel : forall L p b B, links L p -> ordered B L p -> (length (code p b) <= fuel)%nat ->
  returns (remove_insts fuel b) (fun L' => links L' (set_code b [] p) /\ ordered B L' (set_code b [] p)) L.
Proof.
  induction fuel as [|fuel IH]; intros L p b B Hl Ho Hf; destruct (l_insts _ _ Hl b) as (Hfi & _);
    destruct (code p b) as [|i l] eqn:Hc; simpl in Hf; try lia; cbn [remove_insts]; run; rewrite Hfi; cbn [head].
  1,2: apply wp_ret; split; [apply (links_code _ p)|apply (ordered_code _ _ p)]; try done;
    intros c; simpl; case_decide; by subst.
  run. eapply wp_mono; [apply (remove_inst_ok L p b [] i l B)| |done]; [done..|]. intros [] L' (Hl' & Ho' & _).
  eapply wp_mono; [apply (IH L' (set_code b ([] ++ l) p) b B)| |done]; [done..|simpl; rewrite decide_True by done; lia|].
  intros [] L'' [Hl'' Ho'']. split; [apply (links_code _ _ _ Hl'')|apply (ordered_code _ _ _ _ Ho'')]; try done;
    intros c; simpl; by case_decide.
Qed.

(** A change of blocks only. *)
Lemma ordered_insts B L L' p p' : ordered B L p -> insts L' = insts L -> code p' = code p -> ordered B L' p'.
Proof.
  intros (Ha & HS & HB & Hlen) Hi Hc. unfold ordered. rewrite Hc. unfold inst_seq, inst_node in *. by rewrite Hi.
Qed.

Lemma remove_block_and_insts_ok L p l1 b l2 B : links L p -> ordered B L p -> order p = l1 ++ b :: l2 ->
  let p' := mkProgram (l1 ++ l2) (code (set_code b [] p)) in
  returns (remove_block_and_insts b) (fun L' => links L' p' /\ ordered B L' p') L.
Proof.
  intros Hl Ho Hor p'. unfold remove_block_and_insts. run.
  eapply wp_mono; [apply (remove_insts_ok _ L p b B)| |done]; [done..|by apply code_fuel|]. intros [] L' [Hl' Ho'].
  eapply wp_mono; [apply (remove_block_links L' (set_code b [] p) b l1 l2)| |done]; [done|simpl; by rewrite decide_True|done|].
  intros [] L'' [Hl'' Hi]. split; [done|]. by eapply ordered_insts.
Qed.

(** ** Splitting a block *)

Definition split_code (b nb : Block) (l1 l2 : list Inst) (p : Program) (c : Block) : list Inst :=
  if decide (c = nb) then l2 else if decide (c = b) then l1 else code p c.

Lemma links_split L L' p o1 b o2 nb l1 l2 : links L p -> order p = o1 ++ b :: o2 -> code p b = l1 ++ l2 -> nb ∉ order p ->
  (forall y, prev_block L' y = if decide (y = nb) then Some b else if decide (head o2 = Some y) then Some nb else prev_block L y) ->
  (forall y, next_block L' y = if decide (y = nb) then head o2 else if decide (y = b) then Some nb else next_block L y) ->
  first_block L' = first_block L -> last_block_ L' = (match o2 with [] => Some nb | _ => last_block_ L end) ->
  (S nb <= length (elems (blocks_ L')) /\ length (elems (blocks_ L)) <= length (elems (blocks_ L')))%nat ->
  (forall y, prev_inst L' y = if decide (head l2 = Some y) then None else prev_inst L y) ->
  (forall y, next_inst L' y = if decide (last l1 = Some y) then None else next_inst L y) ->
  (forall y, inst_block L' y = if decide (y ∈ l2) then Some nb else inst_block L y) ->
  (forall c, first_inst L' c = if decide (c = nb) then head l2 else if decide (c = b) then head l1 else first_inst L c) ->
  (forall c, last_inst L' c = if decide (c = nb) then last l2 else if decide (c = b) then last l1 else last_inst L c) ->
  dflt (insts L') = dflt (insts L) ->
  links L' (mkProgram (o1 ++ b :: nb :: o2) (split_code b nb l1 l2 p)).
Proof.
  intros Hl Ho Hc Hnb Hp Hn Hf He Hr Hip Hin Hib Hfi Hla Hdf.
  pose proof (l_nodup _ _ Hl) as Hd. pose proof (l_blocks _ _ Hl) as Hdll. rewrite Ho in Hd, Hdll, Hnb.
  assert (Hb : nb <> b) by (intros ->; set_solver).
  assert (Hnc : code p nb = []) by (apply (l_absent _ _ Hl); by rewrite Ho).
  pose proof (l_insts_nodup _ _ Hl b) as Hdi. pose proof (l_insts _ _ Hl b) as Hil. rewrite Hc in Hdi, Hil.
  pose proof Hdi as (Hd1 & Hdis & Hd2)%NoDup_app.
  assert (Hother : forall c y, c <> b -> y ∈ code p c -> y ∉ l1 ++ l2).
  { intros c y Hcb Hy Hy2. apply Hcb. rewrite <- Hc in Hy2. by eapply code_in. }
  replace (o1 ++ b :: nb :: o2) with ((o1 ++ [b]) ++ nb :: o2) by (by rewrite <- (assoc app)).
  replace (o1 ++ b :: o2) with ((o1 ++ [b]) ++ o2) in Hd, Hdll, Hnb by (by rewrite <- (assoc app)).
  split; cbn [order code].
  - replace (first_block L') with (match o1 ++ [b] with [] => Some nb | _ => first_block L end) by (rewrite Hf; by destruct o1).
    rewrite He. eapply dll_insert; [exact Hd|exact Hdll|by rewrite Hp, decide_True, last_snoc|by rewrite Hn, decide_True|].
    intros y Hy. rewrite Hp, Hn, last_snoc, !(decide_False (P := y = nb)) by (by intros ->). split; [done|].
    repeat case_decide; congruence.
  - rewrite NoDup_app, NoDup_cons. apply NoDup_app in Hd as (H1 & H2 & H3). rewrite elem_of_app in Hnb. set_solver.
  - intros c. rewrite Hfi, Hla. unfold split_code.
    assert (Hsp : dll (prev_inst L') (next_inst L') (head l1) (last l1) l1 /\ dll (prev_inst L') (next_inst L') (head l2) (last l2) l2).
    { eapply dll_split; [exact Hdi|exact Hil|]. intros y _. by rewrite Hip, Hin. }
    repeat case_decide; [apply Hsp..|]. eapply dll_same; [|apply (l_insts _ _ Hl)]. intros y Hy.
    assert (Hy2 : y ∉ l1 ++ l2) by (by eapply Hother). rewrite Hip, Hin, !decide_False; [done|..].
    + intros E%last_Some_elem_of. set_solver.
    + intros E%head_Some_elem_of. set_solver.
  - intros c. unfold split_code. repeat case_decide; [done..|apply Hl].
  - intros c i. rewrite Hib. unfold split_code. pose proof (l_inst_block _ _ Hl c i) as Hi.
    destruct (decide (c = nb)) as [->|Hcn]; [rewrite Hnc in Hi; case_decide; set_solver|].
    destruct (decide (c = b)) as [->|Hcb]; [rewrite Hc in Hi; case_decide; set_solver|]. rewrite Hi.
    case_decide as Hi2; [|done]. split; [|congruence]. intros Hi3%Hi. destruct (Hother c i Hcb Hi3). set_solver.
  - intros c Hcb. unfold split_code. destruct (decide (c = nb)) as [->|Hcn]; [set_solver|].
    rewrite decide_False by set_solver. destruct (l_absent _ _ Hl c) as (-> & Hpc & Hnc'); [rewrite Ho; set_solver|]. split; [done|].
    rewrite Hp, Hn, !decide_False; try done; [set_solver|intros E%head_Some_elem_of; set_solver].
  - intros i. rewrite Hib, Hip, Hin. case_decide; [done|]. intros Hi. destruct (l_loose _ _ Hl i Hi) as [-> ->].
    by repeat case_decide.
  - pose proof (l_range _ _ Hl) as Hrange. rewrite Ho, Forall_app, Forall_cons in Hrange. rewrite !Forall_app, Forall_cons.
    destruct Hrange as (? & ? & ?). split_and!; [|lia|done|constructor; [lia|]]; (eapply Forall_impl; [eassumption|]); simpl; lia.
  - rewrite Hdf. apply Hl.
Qed.

Lemma move_insts_ok fuel : forall l L before old nb, linked (prev_inst L) (next_inst L) before l None -> NoDup l ->
  Forall (fun i => inst_block L i = Some old) l -> (length l <= fuel)%nat ->
  returns (move_insts fuel (head l) old nb) (fun L' =>
    blocks_ L' = blocks_ L /\ first_block L' = first_block L /\ last_block_ L' = last_block_ L /\ dflt (insts L') = dflt (insts L) /\
    (forall i, prev_inst L' i = prev_inst L i /\ next_inst L' i = next_inst L i /\ inst_seq L' i = inst_seq L i) /\
    (forall i, inst_block L' i = if decide (i ∈ l) then Some nb else inst_block L i)) L.
Proof.
  induction fuel as [|fuel IH]; intros [|x l] L before old nb; try (simpl; lia);
    [by (intros; split_and!)|by (intros; split_and!)|].
  intros (_ & Hn & Hlk) [Hx Hd]%NoDup_cons [Hb HF]%Forall_cons Hf. cbn [move_insts head]. run.
  apply wp_assert; [by apply bool_decide_eq_true|]. run.
  replace (i_next (inst_node L x)) with (head l) by (unfold next_inst in Hn; rewrite Hn; by destruct l).
  set (L1 := mkLayout _ _ _ _). assert (Hlinks : forall i, prev_inst L1 i = prev_inst L i /\ next_inst L1 i = next_inst L i /\ inst_seq L1 i = inst_seq L i)
    by (intros i; unfold L1; split_and!; nodes).
  assert (Hblk : forall i, inst_block L1 i = if decide (i = x) then Some nb else inst_block L i) by (intros i; unfold L1; nodes).
  eapply wp_mono; [apply (IH l L1 (Some x) old nb)| |done]; [|done| |simpl in Hf; lia|].
  - eapply linked_ext; [|exact Hlk]. intros y _. destruct (Hlinks y) as (-> & -> & _). done.
  - apply Forall_forall. intros i Hi. rewrite Hblk, decide_False by (by intros ->). by apply (proj1 (Forall_forall _ _) HF).
  - intros [] L' (H1 & H2 & H3 & H4 & H5 & H6). split_and!; try done.
    + rewrite H4. unfold L1. cbn [insts]. apply dflt_index_mut.
    + intros i. destruct (H5 i) as (-> & -> & ->). apply Hlinks.
    + intros i. rewrite H6, Hblk. destruct (decide (i = x)) as [->|Hi].
      * rewrite (decide_True (P := x ∈ x :: l)) by (by left). by case_decide.
      * case_decide; [by rewrite decide_True by (by right)|]. rewrite decide_False; [done|]. by intros [|]%elem_of_cons.
Qed.

Lemma ascending_split f l1 l2 : ascending f 0 (l1 ++ l2) -> Forall (fun i => 0 < f i) (l1 ++ l2) -> ascending f 0 l1 /\ ascending f 0 l2.
Proof.
  rewrite ascending_app. intros [H1 H2] HF. split; [done|]. destruct l2 as [|y l2]; [done|]. destruct H2 as [_ H2]. split; [|done].
  apply Forall_app in HF as [_ HF]. by apply Forall_cons in HF as [HF _].
Qed.

Lemma ascending_positive f lo l : ascending f lo l -> 0 <= lo -> Forall (fun i => 0 < f i) l.
Proof. revert lo. induction l as [|x l IH]; intros lo; [done|]. intros [H1 H2] H. constructor; [lia|]. apply (IH (f x)); [done|lia]. Qed.

(** What [split_block] has written before its loop. *)
Record split_written (L L1 : Layout) (b nb : Block) (o2 : list Block) (l1 l2 : list Inst) : Prop := {
  w_prev y : prev_block L1 y = if decide (y = nb) then Some b else if decide (head o2 = Some y) then Some nb else prev_block L y;
  w_next y : next_block L1 y = if decide (y = nb) then head o2 else if decide (y = b) then Some nb else next_block L y;
  w_first : first_block L1 = first_block L;
  w_last : last_block_ L1 = match o2 with [] => Some nb | _ => last_block_ L end;
  w_range : (S nb <= length (elems (blocks_ L1)) /\ length (elems (blocks_ L)) <= length (elems (blocks_ L1)))%nat;
  w_prev_inst y : prev_inst L1 y = if decide (head l2 = Some y) then None else prev_inst L y;
  w_next_inst y : next_inst L1 y = if decide (last l1 = Some y) then None else next_inst L y;
  w_block y : inst_block L1 y = inst_block L y;
  w_seq y : inst_seq L1 y = inst_seq L y;
  w_first_inst c : first_inst L1 c = if decide (c = nb) then head l2 else if decide (c = b) then head l1 else first_inst L c;
  w_last_inst c : last_inst L1 c = if decide (c = nb) then last l2 else if decide (c = b) then last l1 else last_inst L c;
  w_dflt : dflt (insts L1) = dflt (insts L);
  w_fuel : (inst_fuel L <= inst_fuel L1)%nat
}.

Lemma split_finish L L1 p o1 b o2 nb l1 l2 B : links L p -> ordered B L p -> order p = o1 ++ b :: o2 ->
  code p b = l1 ++ l2 -> nb ∉ order p -> split_written L L1 b nb o2 l1 l2 ->
  let p' := mkProgram (o1 ++ b :: nb :: o2) (split_code b nb l1 l2 p) in
  returns (fuel <- gets inst_fuel ;; move_insts fuel (head l2) b nb) (fun L' => links L' p' /\ ordered B L' p') L1.
Proof.
  intros Hl (Ha & HS & HB & Hlen) Ho Hc Hnb W p'. pose proof (l_insts_nodup _ _ Hl b) as Hd. pose proof (l_insts _ _ Hl b) as Hil.
  pose proof (code_fuel L p b Hl) as Hf. pose proof (w_fuel _ _ _ _ _ _ _ W). rewrite Hc in Hd, Hil, Hf. rewrite length_app in Hf.
  pose proof Hd as (_ & _ & Hd2)%NoDup_app.
  apply (dll_split _ _ (prev_inst L1) (next_inst L1)) in Hil as [_ (_ & _ & Hlk)];
    [|done|intros y _; by rewrite (w_prev_inst _ _ _ _ _ _ _ W), (w_next_inst _ _ _ _ _ _ _ W)].
  run. eapply wp_mono; [apply (move_insts_ok _ l2 L1 None b nb Hlk Hd2)| |done]; [|lia|].
  - apply Forall_forall. intros i Hi. rewrite (w_block _ _ _ _ _ _ _ W). apply (l_inst_block _ _ Hl). rewrite Hc. set_solver.
  - intros [] L' (H1 & H2 & H3 & H4 & H5 & H6). split.
    + apply (links_split L L' p o1 b o2 nb l1 l2); try done;
        unfold prev_block, next_block, first_inst, last_inst, block_node; rewrite ?H1, ?H2, ?H3, ?H4; try apply W.
      * intros y. destruct (H5 y) as (-> & _). apply W.
      * intros y. destruct (H5 y) as (_ & -> & _). apply W.
      * intros y. rewrite H6. by rewrite (w_block _ _ _ _ _ _ _ W).
    + assert (Hs : forall y, inst_seq L' y = inst_seq L y) by (intros y; destruct (H5 y) as (_ & _ & ->); apply W).
      pose proof (Ha b) as Hab. pose proof (Hlen b) as Hlb. rewrite Hc in Hab, Hlb. rewrite length_app in Hlb.
      destruct (ascending_split _ _ _ Hab) as [Ha1 Ha2]; [by apply (ascending_positive _ 0)|].
      split_and!; [|intros y; rewrite Hs; apply HS|done|]; intros c; unfold p', split_code; simpl.
      * eapply ascending_ext; [intros i _; apply Hs|]. by repeat case_decide.
      * repeat case_decide; [lia..|apply Hlen].
Qed.

Lemma split_block_ok L p o1 b o2 nb l1 before l2 B : links L p -> ordered B L p -> order p = o1 ++ b :: o2 ->
  code p b = l1 ++ before :: l2 -> nb ∉ order p ->
  let p' := mkProgram (o1 ++ b :: nb :: o2) (split_code b nb l1 (before :: l2) p) in
  returns (split_block nb before) (fun L' => links L' p' /\ ordered B L' p') L.
Proof.
  intros Hl Ho Hor Hc Hnb p'.
  assert (Hbb : inst_block L before = Some b) by (apply (l_inst_block _ _ Hl); rewrite Hc; set_solver).
  pose proof (l_blocks _ _ Hl) as Hdll. rewrite Hor in Hdll. pose proof Hdll as (_ & Hla & _). apply dll_at in Hdll as [Hbp Hbn].
  pose proof (l_insts _ _ Hl b) as Hil. rewrite Hc in Hil. pose proof Hil as (Hfi & Hli & _). apply dll_at in Hil as [Hip _].
  pose proof (l_nodup _ _ Hl) as Hd. rewrite Hor in Hd. apply NoDup_app in Hd as (_ & _ & [Hb2 _]%NoDup_cons).
  pose proof (l_insts_nodup _ _ Hl b) as Hdi. rewrite Hc in Hdi. apply NoDup_app in Hdi as (_ & Hdis & _).
  assert (Hnbb : nb <> b) by (intros ->; rewrite Hor in Hnb; set_solver).
  unfold split_block. run. apply wp_unwrap with b; [done|]. run.
  apply wp_assert; [by rewrite (is_block_inserted_spec L p), bool_decide_eq_false_2|]. run. rewrite Hip, Hbn.
  assert (Hpi : forall y, last l1 = Some y -> y <> before).
  { intros y E%last_Some_elem_of ->. apply (Hdis before E). by left. }
  rewrite last_app_cons in Hli, Hla.
  assert (Hfi' : forall y, last l1 = Some y -> first_inst L b = head l1) by (intros y E; rewrite Hfi; by destruct l1).
  assert (Hl1 : match last l1 with None => head l1 = None | _ => True end) by (destruct (last l1) eqn:E; [done|by apply last_None in E as ->]).
  unfold last_block. destruct o2 as [|z o2]; cbn [head].
  - rewrite (bool_decide_eq_true_2 (Some b = last_block_ L)) by done. run.
    destruct (last l1) as [a|] eqn:El; try (specialize (Hpi a eq_refl)); try (specialize (Hfi' a eq_refl));
      run; apply (split_finish L _ p o1 b [] nb l1 (before :: l2) B); try done.
    all: split; rewrite ?El, ?Hl1; cbn [first_block last_block_ blocks_ insts head]; try done; unfold inst_fuel; cbn [insts blocks_];
      rewrite ?length_index_mut, ?dflt_index_mut; try done; try lia; try (intros y; nodes).
  - rewrite (bool_decide_eq_false_2 (Some b = last_block_ L)); cycle 1.
    { rewrite Hla. change (last (b :: z :: o2)) with (last (z :: o2)). intros E. symmetry in E. by apply last_Some_elem_of in E. }
    run. apply wp_unwrap with z; [done|]. run. assert (Hz : z <> b /\ z <> nb) by (split; intros ->; [|rewrite Hor in Hnb]; set_solver).
    destruct Hz as [Hz1 Hz2].
    destruct (last l1) as [a|] eqn:El; try (specialize (Hpi a eq_refl)); try (specialize (Hfi' a eq_refl));
      run; apply (split_finish L _ p o1 b (z :: o2) nb l1 (before :: l2) B); try done.
    all: split; rewrite ?El, ?Hl1; cbn [first_block last_block_ blocks_ insts head]; try done; unfold inst_fuel; cbn [insts blocks_];
      rewrite ?length_index_mut, ?dflt_index_mut; try done; try lia; try (intros y; nodes).
Qed.

(** ** Iterators and comparisons *)

Lemma blocks_from_ok fuel : forall l L before, linked (prev_block L) (next_block L) before l None -> (length l <= fuel)%nat ->
  blocks_from fuel L (head l) = l.
Proof.
  induction fuel as [|fuel IH]; intros [|b l] L before; simpl; try done; [lia|]. intros (_ & Hn & Hlk) Hf.
  rewrite Hn. f_equal. replace (match l with [] => None | y :: _ => Some y end) with (head l) by (by destruct l).
  eapply IH; [exact Hlk|lia].
Qed.

Lemma blocks_order L p : links L p -> blocks L = order p.
Proof.
  intros Hl. destruct (l_blocks _ _ Hl) as (Hf & _ & Hlk). unfold blocks. rewrite Hf. eapply blocks_from_ok; [exact Hlk|].
  assert (order p ⊆+ seq 0 (length (elems (blocks_ L)))) as H%submseteq_length; [|by rewrite length_seq in H].
  apply NoDup_submseteq; [apply Hl|]. intros b Hb. apply elem_of_seq. split; [lia|].
  exact (proj1 (Forall_forall _ _) (l_range _ _ Hl) b Hb).
Qed.

(** Calls of [next] and [next_back] in any order, and what a list answers to them. *)
Fixpoint drive (L : Layout) (it : Insts) (calls : list bool) : list (option Inst) :=
  match calls with
  | [] => []
  | back :: calls => let '(r, it) := if back : bool then next_back L it else next L it in r :: drive L it calls
  end.

Fixpoint drive_list (l : list Inst) (calls : list bool) : list (option Inst) :=
  match calls with
  | [] => []
  | back :: calls => if back : bool then last l :: drive_list (removelast l) calls else head l :: drive_list (tail l) calls
  end.

(** The part of a block that is left is a list between two others. *)
Lemma next_ok L p b l1 l l2 : links L p -> code p b = l1 ++ l ++ l2 ->
  next L (mkInsts (head l) (last l)) = (head l, mkInsts (head (tail l)) (last (tail l))).
Proof.
  intros Hl Hc. pose proof (l_insts_nodup _ _ Hl b) as Hd. rewrite Hc in Hd. apply NoDup_app in Hd as (_ & _ & [Hd _]%NoDup_app).
  pose proof (l_insts _ _ Hl b) as Hdll. rewrite Hc in Hdll. unfold next. cbn [head_ tail_]. destruct l as [|x l]; [done|].
  cbn [head tail app] in *. apply dll_at in Hdll as [_ Hn]. f_equal. destruct l as [|y l]; [by rewrite bool_decide_eq_true_2|].
  rewrite bool_decide_eq_false_2; [by rewrite Hn|].
  change (last (x :: y :: l)) with (last (y :: l)). intros E. symmetry in E. apply last_Some_elem_of in E. by apply NoDup_cons in Hd as [Hd _].
Qed.

Lemma next_back_ok L p b l1 l l2 : links L p -> code p b = l1 ++ l ++ l2 ->
  next_back L (mkInsts (head l) (last l)) = (last l, mkInsts (head (removelast l)) (last (removelast l))).
Proof.
  intros Hl Hc. pose proof (l_insts_nodup _ _ Hl b) as Hd. rewrite Hc in Hd. apply NoDup_app in Hd as (_ & _ & [Hd _]%NoDup_app).
  pose proof (l_insts _ _ Hl b) as Hdll. rewrite Hc in Hdll. unfold next_back. cbn [head_ tail_].
  destruct l as [|x l _] using rev_ind; [done|]. rewrite last_snoc, removelast_last.
  replace (l1 ++ (l ++ [x]) ++ l2) with ((l1 ++ l) ++ x :: l2) in Hdll by (by rewrite <- !(assoc app)).
  apply dll_at in Hdll as [Hp _]. f_equal. destruct l as [|y l]; [by rewrite bool_decide_eq_true_2|].
  cbn [head app]. rewrite bool_decide_eq_false_2; [by rewrite Hp, last_app_cons|].
  intros [= ->]. apply NoDup_cons in Hd as [Hd _]. set_solver.
Qed.

Lemma drive_ok L p b calls : links L p -> forall l1 l l2, code p b = l1 ++ l ++ l2 ->
  drive L (mkInsts (head l) (last l)) calls = drive_list l calls.
Proof.
  intros Hl. induction calls as [|back calls IH]; intros l1 l l2 Hc; [done|]. simpl. destruct back.
  - rewrite (next_back_ok L p b l1 l l2 Hl Hc). f_equal. destruct l as [|x l _] using rev_ind; [by apply (IH l1 [] l2)|].
    rewrite removelast_last. apply (IH l1 l ([x] ++ l2)). by rewrite Hc, <- (assoc app).
  - rewrite (next_ok L p b l1 l l2 Hl Hc). f_equal. destruct l as [|x l]; [by apply (IH l1 [] l2)|].
    apply (IH (l1 ++ [x]) l l2). by rewrite Hc, <- (assoc app).
Qed.

Lemma insts_from_ok L p b fuel : links L p -> forall l1 l l2, code p b = l1 ++ l ++ l2 -> (length l <= fuel)%nat ->
  insts_from fuel L (mkInsts (head l) (last l)) = l.
Proof.
  intros Hl. induction fuel as [|fuel IH]; intros l1 l l2 Hc Hf; [by destruct l; simpl in Hf; [|lia]|]. simpl.
  rewrite (next_ok L p b l1 l l2 Hl Hc). destruct l as [|x l]; [done|]. cbn [head tail]. f_equal.
  apply (IH (l1 ++ [x]) l l2); [by rewrite Hc, <- (assoc app)|simpl in Hf; lia].
Qed.

Lemma insts_list_code L p b : links L p -> insts_list L b = code p b.
Proof.
  intros Hl. unfold insts_list, block_insts. destruct (l_insts _ _ Hl b) as (-> & -> & _).
  apply (insts_from_ok L p b _ Hl [] (code p b) []); [by rewrite app_nil_r|by apply code_fuel].
Qed.

(** Where a point of a block is: the block itself is before its instructions. *)
Definition pp_at (p : Program) (b : Block) (pp : ProgramPoint) (n : nat) : Prop :=
  match pp with PBlock c => c = b /\ n = 0%nat | PInst i => exists k, n = S k /\ code p b !! k = Some i end.

Lemma ascending_lookup f lo l k i : ascending f lo l -> l !! k = Some i -> lo < f i.
Proof.
  revert lo k. induction l as [|x l IH]; intros lo [|k]; try done; intros [H1 H2] Hk; simpl in Hk; [by injection Hk as <-|].
  pose proof (IH _ _ H2 Hk). lia.
Qed.

Lemma ascending_compare f lo l j k i i' : ascending f lo l -> l !! j = Some i -> l !! k = Some i' -> (f i ?= f i') = Nat.compare j k.
Proof.
  revert lo j k. induction l as [|x l IH]; intros lo [|j] [|k]; try done; intros [H1 H2] Hj Hk; simpl in Hj, Hk.
  - injection Hj as <-. injection Hk as <-. apply Z.compare_refl.
  - injection Hj as <-. pose proof (ascending_lookup _ _ _ _ _ H2 Hk). simpl. by apply Z.compare_lt_iff.
  - injection Hk as <-. pose proof (ascending_lookup _ _ _ _ _ H2 Hj). simpl. by apply Z.compare_gt_iff.
  - simpl. by eapply IH.
Qed.

Lemma pp_cmp_ok L p B b x y n m : links L p -> ordered B L p -> pp_at p b x n -> pp_at p b y m ->
  pp_cmp x y L = Ret (Nat.compare n m) L.
Proof.
  intros Hl (Ha & _) Hx Hy. specialize (Ha b).
  assert (Hb : forall z k, pp_at p b z k -> pp_block L z = Some b).
  { intros [i|c] k; simpl; [intros (j & -> & Hj); apply (l_inst_block _ _ Hl); by eapply list_elem_of_lookup_2|by intros [-> _]]. }
  unfold pp_cmp. erewrite bind_run by reflexivity.
  rewrite (bind_run _ _ _ _ _ (unwrap_run _ _ _ (Hb x n Hx))), (bind_run _ _ _ _ _ (unwrap_run _ _ _ (Hb y m Hy))).
  rewrite (bind_run _ _ _ tt L) by (apply assert_run; by apply bool_decide_eq_true). unfold ret. f_equal. destruct x as [i|c], y as [i'|c']; simpl in Hx, Hy; unfold pp_seq; fold (inst_seq L).
  - destruct Hx as (j & -> & Hj), Hy as (k & -> & Hk). exact (ascending_compare (inst_seq L) 0 (code p b) j k i i' Ha Hj Hk).
  - destruct Hx as (j & -> & Hj), Hy as (_ & ->). apply Z.compare_gt_iff. exact (ascending_lookup (inst_seq L) 0 (code p b) j i Ha Hj).
  - destruct Hx as (_ & ->), Hy as (k & -> & Hk). apply Z.compare_lt_iff. exact (ascending_lookup (inst_seq L) 0 (code p b) k i' Ha Hk).
  - destruct Hx as (_ & ->), Hy as (_ & ->). done.
Qed.

(** ** The refinement *)

(** What the operations do to the lists, where they may be called. *)
Inductive spec_step (p : Program) : Op -> Program -> Prop :=
| S_append_block b : b ∉ order p -> spec_step p (AppendBlock b) (mkProgram (order p ++ [b]) (code p))
| S_insert_block b l1 before l2 : order p = l1 ++ before :: l2 -> b ∉ order p ->
    spec_step p (InsertBlock b before) (mkProgram (l1 ++ b :: before :: l2) (code p))
| S_insert_block_after b l1 after l2 : order p = l1 ++ after :: l2 -> b ∉ order p ->
    spec_step p (InsertBlockAfter b after) (mkProgram (l1 ++ after :: b :: l2) (code p))
| S_remove_block b l1 l2 : order p = l1 ++ b :: l2 -> code p b = [] -> spec_step p (RemoveBlock b) (mkProgram (l1 ++ l2) (code p))
| S_remove_block_and_insts b l1 l2 : order p = l1 ++ b :: l2 ->
    spec_step p (RemoveBlockAndInsts b) (mkProgram (l1 ++ l2) (code (set_code b [] p)))
| S_set_cold b : b ∈ order p -> spec_step p (SetCold b) p
| S_append_inst i b : b ∈ order p -> (forall c, i ∉ code p c) -> spec_step p (AppendInst i b) (set_code b (code p b ++ [i]) p)
| S_insert_inst i b l1 before l2 : code p b = l1 ++ before :: l2 -> (forall c, i ∉ code p c) ->
    spec_step p (InsertInst i before) (set_code b (l1 ++ i :: before :: l2) p)
| S_remove_inst b l1 i l2 : code p b = l1 ++ i :: l2 -> spec_step p (RemoveInst i) (set_code b (l1 ++ l2) p)
| S_split_block nb o1 b o2 l1 before l2 : order p = o1 ++ b :: o2 -> code p b = l1 ++ before :: l2 -> nb ∉ order p ->
    spec_step p (SplitBlock nb before) (mkProgram (o1 ++ b :: nb :: o2) (split_code b nb l1 (before :: l2) p))
| S_clear : spec_step p Clear (mkProgram [] (fun _ => [])).

Inductive spec_steps (p : Program) : list Op -> Program -> Prop :=
| S_nil : spec_steps p [] p
| S_cons op p1 ops p2 : spec_step p op p1 -> spec_steps p1 ops p2 -> spec_steps p (op :: ops) p2.

Definition empty_program : Program := mkProgram [] (fun _ => []).

Lemma new_links L : dflt (insts L) = default_inst -> elems (insts L) = [] -> elems (blocks_ L) = [] -> dflt (blocks_ L) = default_block ->
  first_block L = None -> last_block_ L = None -> links L empty_program.
Proof.
  intros H1 H2 H3 H4 H5 H6.
  assert (Hi : forall i, inst_node L i = default_inst) by (intros i; unfold inst_node, index; by rewrite H2, H1).
  assert (Hb : forall b, block_node L b = default_block) by (intros b; unfold block_node, index; by rewrite H3, H4).
  split; unfold prev_block, next_block, first_inst, last_inst, prev_inst, next_inst, inst_block; simpl; try done.
  - constructor.
  - intros b. by rewrite Hb.
  - intros b. constructor.
  - intros b i. rewrite Hi. split; [by intros ?%elem_of_nil|done].
  - intros b _. by rewrite Hb.
  - intros i. by rewrite Hi.
Qed.

Lemma ordered_mono B B' L p : B <= B' -> ordered B L p -> ordered B' L p.
Proof.
  intros H (Ha & HS & HB & Hlen). split_and!; [done| |lia|]; intros x; [specialize (HS x)|specialize (Hlen x)]; lia.
Qed.

(** What all operations keep: a relation that writes of links and numbers respect. *)
Section keeps.
Context (R : Layout -> Layout -> Prop) `{!Reflexive R, !Transitive R}.

Definition keeps {A} (m : LM A) : Prop := forall L, match m L with Ret _ L' => R L L' | _ => True end.

(** A write of a block's node that the relation respects. *)
Definition respects (f : BlockNode -> BlockNode) : Prop := forall b, keeps (upd_block b f).

Context (Hinst : forall i f, keeps (upd_inst i f)).
Context (Hfirst : forall o, keeps (set_first_block o)) (Hlast : forall o, keeps (set_last_block o)).
Context (Hlinks : forall f, (forall n, cold (f n) = cold n) -> respects f).

Lemma keeps_bind {A B} (m : LM A) (k : A -> LM B) : keeps m -> (forall a, keeps (k a)) -> keeps (bind m k).
Proof.
  intros Hm Hk L. unfold bind. specialize (Hm L). destruct (m L) as [a L1| |]; try done. specialize (Hk a L1).
  destruct (k a L1); try done. by etransitivity.
Qed.

Lemma keeps_ret {A} (a : A) : keeps (ret a).
Proof. intros L. cbn. reflexivity. Qed.
Lemma keeps_get : keeps get.
Proof. intros L. cbn. reflexivity. Qed.
Lemma keeps_gets {A} (f : Layout -> A) : keeps (gets f).
Proof. intros L. cbn. reflexivity. Qed.
Lemma keeps_panic {A} : keeps (panic : LM A).
Proof. intros L. exact I. Qed.
Lemma keeps_unwrap {A} (o : option A) : keeps (unwrap o).
Proof. destruct o; [apply keeps_ret|apply keeps_panic]. Qed.
Lemma keeps_assert b : keeps (rust_assert b).
Proof. destruct b; [apply keeps_ret|apply keeps_panic]. Qed.
Lemma keeps_block b f : (forall n, cold (f n) = cold n) -> keeps (upd_block b f).
Proof. intros H. exact (Hlinks f H b). Qed.

Ltac keep :=
  repeat first
    [ apply keeps_bind; [|intros ?] | apply keeps_ret | apply keeps_get | apply keeps_gets | apply keeps_panic
    | apply keeps_unwrap | apply keeps_assert | apply Hinst | apply Hfirst | apply Hlast | apply keeps_block; done
    | case_match ].

Lemma keeps_append_block b : keeps (append_block b).
Proof. unfold append_block. keep. Qed.
Lemma keeps_insert_block b c : keeps (insert_block b c).
Proof. unfold insert_block. keep. Qed.
Lemma keeps_insert_block_after b c : keeps (insert_block_after b c).
Proof. unfold insert_block_after. keep. Qed.
Lemma keeps_remove_block b : keeps (remove_block b).
Proof. unfold remove_block. keep. Qed.
Lemma keeps_remove_inst i : keeps (remove_inst i).
Proof. unfold remove_inst. keep. Qed.

Lemma keeps_remove_insts fuel b : keeps (remove_insts fuel b).
Proof. induction fuel as [|fuel IH]; simpl; keep; try apply keeps_remove_inst; apply IH. Qed.

Lemma keeps_remove_block_and_insts b : keeps (remove_block_and_insts b).
Proof. unfold remove_block_and_insts. keep; apply keeps_remove_insts || apply keeps_remove_block. Qed.

Lemma keeps_renumber_from fuel : forall o z, keeps (renumber_from fuel o z).
Proof. induction fuel as [|fuel IH]; intros [i|] z; simpl; keep. apply IH. Qed.

Lemma keeps_renumber_loop fuel : forall i z limit, keeps (renumber_loop fuel i z limit).
Proof. induction fuel as [|fuel IH]; intros i z limit; simpl; keep; apply IH || apply keeps_renumber_from. Qed.

Lemma keeps_assign i : keeps (assign_inst_seq i).
Proof. unfold assign_inst_seq, midpoint, renumber_insts. keep; apply keeps_renumber_loop. Qed.

Lemma keeps_append_inst i b : keeps (append_inst i b).
Proof. unfold append_inst. keep; apply keeps_renumber_loop. Qed.
Lemma keeps_insert_inst i j : keeps (insert_inst i j).
Proof. unfold insert_inst. keep; apply keeps_renumber_loop. Qed.

Lemma keeps_split_block b i : keeps (split_block b i).
Proof.
  unfold split_block. keep. all: match goal with |- keeps (move_insts ?n ?o _ _) => generalize o; induction n as [|n IH] end;
    intros [?|]; simpl; keep; apply IH.
Qed.
End keeps.

(** The two relations: the default of the map of blocks, and which blocks are cold. *)
Definition same_dflt (L L' : Layout) : Prop := dflt (blocks_ L') = dflt (blocks_ L).
Definition same_cold (L L' : Layout) : Prop := forall b, is_cold L' b = is_cold L b.

#[export] Instance same_dflt_refl : Reflexive same_dflt.
Proof. done. Qed.
#[export] Instance same_dflt_trans : Transitive same_dflt.
Proof. unfold same_dflt. intros ???. congruence. Qed.
#[export] Instance same_cold_refl : Reflexive same_cold.
Proof. done. Qed.
#[export] Instance same_cold_trans : Transitive same_cold.
Proof. intros ??? H1 H2 b. by rewrite H2. Qed.

Lemma dflt_write b f : keeps same_dflt (upd_block b f).
Proof. intros L. apply dflt_index_mut. Qed.

Lemma cold_write b f : (forall n, cold (f n) = cold n) -> keeps same_cold (upd_block b f).
Proof. intros Hf L c. unfold is_cold, block_node. cbn [blocks_]. rewrite index_mut_at. case_decide; [by subst|done]. Qed.

Lemma exec_dflt op : keeps same_dflt (exec op).
Proof.
  destruct op; [apply keeps_append_block|apply keeps_insert_block|apply keeps_insert_block_after|apply keeps_remove_block
    |apply keeps_remove_block_and_insts|apply dflt_write|apply keeps_append_inst|apply keeps_insert_inst|apply keeps_remove_inst
    |apply keeps_split_block|done]; try apply _; try done; intros f _ c; apply dflt_write.
Qed.

Lemma returns_keeps {A} (R : Layout -> Layout -> Prop) (m : LM A) P L :
  wp m (fun _ => P) (fun _ _ => False) L -> keeps R m -> wp m (fun _ L' => P L' /\ R L L') (fun _ _ => False) L.
Proof. unfold wp. intros Hm Hk. specialize (Hk L). by destruct (m L). Qed.

Definition inv (B : Z) (L : Layout) (p : Program) : Prop := links L p /\ ordered B L p /\ dflt (blocks_ L) = default_block.

Lemma write_cold_ok L p b cold : links L p -> returns (upd_block b (set_cold_ cold)) (fun L' => links L' p /\ insts L' = insts L) L.
Proof.
  intros Hl. run. split; [|done]. set (L' := mkLayout _ _ _ _).
  assert (Hb : forall y, prev_block L' y = prev_block L y /\ next_block L' y = next_block L y /\ first_inst L' y = first_inst L y /\ last_inst L' y = last_inst L y)
    by (intros y; unfold L'; split_and!; nodes).
  split; try apply Hl.
  - eapply dll_same; [|apply (l_blocks _ _ Hl)]. intros y _. by destruct (Hb y) as (-> & -> & _).
  - intros c. destruct (Hb c) as (_ & _ & -> & ->). apply (l_insts _ _ Hl).
  - intros c Hc. destruct (Hb c) as (-> & -> & _). by apply (l_absent _ _ Hl).
  - eapply Forall_impl; [apply Hl|]. intros y Hy. unfold L'. cbn [blocks_]. rewrite length_index_mut. simpl in Hy. lia.
Qed.

Lemma clear_ok L B : dflt (insts L) = default_inst -> dflt (blocks_ L) = default_block -> 0 <= B ->
  returns clear (fun L' => links L' empty_program /\ ordered B L' empty_program) L.
Proof.
  intros Hi Hb HB. unfold clear. eapply wp_run; [reflexivity|]. split; [by apply new_links|].
  split_and!; [done| |done|simpl; lia]. intros i. unfold inst_seq, inst_node, index. simpl. by rewrite Hi.
Qed.

Lemma exec_links B L p op p' : inv B L p -> spec_step p op p' -> B + GROWTH + MAJOR_STRIDE <= u32_MAX ->
  returns (exec op) (fun L' => links L' p' /\ ordered (B + GROWTH) L' p') L.
Proof.
  intros (Hl & Ho & Hd) Hstep HB. assert (Ho' : forall L' q, ordered B L' q -> ordered (B + GROWTH) L' q).
  { intros L' q. apply ordered_mono. unfold GROWTH, LOCAL_LIMIT, MINOR_STRIDE. lia. }
  assert (Hblocks : forall (m : LM unit) q, code q = code p -> returns m (fun L' => links L' q /\ insts L' = insts L) L ->
    returns m (fun L' => links L' q /\ ordered (B + GROWTH) L' q) L).
  { intros m q Hc Hm. eapply wp_mono; [exact Hm| |done]. intros [] L' [Hl' Hi]. split; [done|]. apply Ho'. by eapply ordered_insts. }
  assert (Hloose : forall i, (forall c, i ∉ code p c) -> inst_block L i = None).
  { intros i Hi. destruct (inst_block L i) as [c|] eqn:E; [|done]. apply (l_inst_block _ _ Hl) in E. by destruct (Hi c). }
  assert (Hmono : forall (m : LM unit) q, returns m (fun L' => links L' q /\ ordered B L' q) L -> returns m (fun L' => links L' q /\ ordered (B + GROWTH) L' q) L).
  { intros m q Hm. eapply wp_mono; [exact Hm| |done]. intros [] L' []. auto. }
  destruct Hstep; cbn [exec].
  - by apply Hblocks, append_block_links.
  - by apply Hblocks, insert_block_links.
  - by apply Hblocks, insert_block_after_links.
  - by apply Hblocks, remove_block_links.
  - by apply Hmono, remove_block_and_insts_ok.
  - by apply Hblocks, write_cold_ok.
  - apply append_inst_ok; auto.
  - apply insert_inst_ok; auto.
  - eapply wp_mono; [by apply (remove_inst_ok L p b l1 i l2 B)| |done]. intros [] L' (? & ? & _). auto.
  - by apply Hmono, split_block_ok.
  - apply clear_ok; [apply Hl|done|]. destruct Ho as (_ & _ & H0 & _). unfold GROWTH, LOCAL_LIMIT, MINOR_STRIDE. lia.
Qed.

Lemma exec_all_ok p ops p' : spec_steps p ops p' -> forall B L, inv B L p -> B + GROWTH * zlen ops + MAJOR_STRIDE <= u32_MAX ->
  exists L', exec_all ops L = Ret tt L' /\ inv (B + GROWTH * zlen ops) L' p'.
Proof.
  induction 1 as [p|p op p1 ops p2 Hop _ IH]; intros B L Hinv HB.
  - exists L. split; [done|]. by replace (B + GROWTH * zlen []) with B by (unfold zlen; simpl; lia).
  - assert (Hz : zlen (op :: ops) = zlen ops + 1) by (unfold zlen; simpl; lia). pose proof (zlen_nonneg ops). rewrite Hz in *.
    pose proof (returns_keeps _ _ _ _ (exec_links B L p op p1 Hinv Hop ltac:(unfold GROWTH, LOCAL_LIMIT, MINOR_STRIDE in *; lia)) (exec_dflt op)) as Hw.
    unfold wp in Hw. simpl. destruct (exec op L) as [[] L1| |] eqn:E; [|done..]. destruct Hw as [[Hl Ho] Hd].
    destruct (IH (B + GROWTH) L1) as (L' & Hrun & Hinv'); [split_and!; [done|done|destruct Hinv as (_ & _ & <-); apply Hd]|lia|].
    exists L'. split; [by rewrite (bind_run _ _ _ _ _ E)|]. by replace (B + GROWTH * (zlen ops + 1)) with (B + GROWTH + GROWTH * zlen ops) by lia.
Qed.

(** What there is to see of a layout is what the lists say. *)
Record shows (L : Layout) (p : Program) : Prop := {
  v_blocks : blocks L = order p /\ entry_block L = head (order p) /\ last_block L = last (order p);
  v_inserted b : is_block_inserted L b = bool_decide (b ∈ order p);
  v_around l1 b l2 : order p = l1 ++ b :: l2 -> prev_block L b = last l1 /\ next_block L b = head l2;
  v_inst_block i b : inst_block L i = Some b <-> i ∈ code p b;
  v_insts b calls : drive L (block_insts L b) calls = drive_list (code p b) calls;
  v_ends b : first_inst L b = head (code p b) /\ last_inst L b = last (code p b) /\
    block_contains_exactly_one_inst L b = (length (code p b) =? 1)%nat;
  v_inst_around b l1 i l2 : code p b = l1 ++ i :: l2 -> prev_inst L i = last l1 /\ next_inst L i = head l2;
  v_cmp b x y n m : pp_at p b x n -> pp_at p b y m -> pp_cmp x y L = Ret (Nat.compare n m) L
}.

Lemma links_shows B L p : links L p -> ordered B L p -> shows L p.
Proof.
  intros Hl Ho. split.
  - split_and!; [by apply blocks_order|apply (l_blocks _ _ Hl)|apply (l_blocks _ _ Hl)].
  - intros b. by apply is_block_inserted_spec.
  - intros l1 b l2 E. pose proof (l_blocks _ _ Hl) as Hd. rewrite E in Hd. by apply dll_at in Hd.
  - intros i b. symmetry. apply (l_inst_block _ _ Hl).
  - intros b calls. unfold block_insts. destruct (l_insts _ _ Hl b) as (-> & -> & _).
    apply (drive_ok L p b calls Hl [] (code p b) []). by rewrite app_nil_r.
  - intros b. destruct (l_insts _ _ Hl b) as (Hf & He & _). split_and!; [done..|]. unfold block_contains_exactly_one_inst. rewrite Hf, He.
    pose proof (l_insts_nodup _ _ Hl b) as Hd. destruct (code p b) as [|x [|y l]]; [done|by rewrite !bool_decide_eq_true_2|].
    rewrite (bool_decide_eq_false_2 (head _ = _)), andb_false_r; [done|]. cbn [head].
    change (last (x :: y :: l)) with (last (y :: l)). intros E. symmetry in E. apply last_Some_elem_of in E. by apply NoDup_cons in Hd as [Hd _].
  - intros b l1 i l2 E. pose proof (l_insts _ _ Hl b) as Hd. rewrite E in Hd. by apply dll_at in Hd.
  - intros b x y n m. by apply (pp_cmp_ok L p B).
Qed.

Lemma inv_new : inv 0 new empty_program.
Proof. split_and!; [by apply new_links|split_and!; done|done]. Qed.


(** Two blocks, one split off the other; an instruction between two others and one removed. *)
Definition example_ops : list Op :=
  [AppendBlock 4; AppendInst 0 4; AppendInst 1 4; InsertInst 2 1; SplitBlock 7 2; InsertBlock 5 7; SetCold 5; RemoveInst 0]%nat.

Definition example_result : Program :=
  (set_code 4 [] (mkProgram [4; 5; 7] (split_code 4 7 [0] [2; 1] (set_code 4 [0; 2; 1] (set_code 4 [0; 1] (set_code 4 [0] (mkProgram [4] (fun _ => []))))))))%nat.

Lemma example_steps : spec_steps empty_program example_ops example_result.
Proof.
  eapply S_cons; [by apply S_append_block, not_elem_of_nil|].
  eapply S_cons; [apply S_append_inst; [by left|by intros c ?%elem_of_nil]|].
  eapply S_cons; [apply S_append_inst; [by left|intros c; simpl; case_decide; set_solver]|].
  eapply S_cons; [apply (S_insert_inst _ 2 4 [0%nat] 1 []); [reflexivity|intros c; simpl; repeat case_decide; set_solver]|].
  eapply S_cons; [apply (S_split_block _ 7 [] 4 [] [0%nat] 2 [1%nat]); [reflexivity|reflexivity|simpl; set_solver]|].
  eapply S_cons; [apply (S_insert_block _ 5 [4%nat] 7 []); [reflexivity|simpl; set_solver]|].
  eapply S_cons; [apply S_set_cold; simpl; set_solver|].
  eapply S_cons; [apply (S_remove_inst _ 4 [] 0 []); reflexivity|]. apply S_nil.
Qed.

