(* ===== verification/LayoutSerde.v ===== *)
(** * Serialized layouts

    The serialization of Layout.v: a list of the blocks with their coldness and their
    instructions; deserializing appends them to a new layout.

    Shown: the layout that is read back has the same blocks with the same
    instructions, and the same blocks are cold. *)

From S2P Require Import Prelude EntityMap LinkedList Layout LayoutRefine.

Lemma keeps_cold_append_block b : keeps same_cold (append_block b).
Proof. apply keeps_append_block; try apply _; try done; intros f Hf c; by apply cold_write. Qed.

Lemma keeps_cold_append_inst i b : keeps same_cold (append_inst i b).
Proof. apply keeps_append_inst; try apply _; try done; intros f Hf c; by apply cold_write. Qed.

Lemma lift_run {A} (m : LM A) L a L' : m L = Ret a L' -> lift m L = Ret a L'.
Proof. unfold lift, map_err. by intros ->. Qed.

(** A run that returns, from its weakest precondition. *)
Lemma wp_returns {A} (m : LM A) P L : wp m (fun _ => P) (fun _ _ => False) L -> exists a L', m L = Ret a L' /\ P L'.
Proof. unfold wp. destruct (m L) as [a L'| |]; [eauto|done..]. Qed.

Lemma visit_insts_ok b rest l : forall L q B, links L q -> ordered B L q -> b ∈ order q -> NoDup l ->
  (forall i c, i ∈ l -> i ∉ code q c) -> B + GROWTH * zlen l + MAJOR_STRIDE <= u32_MAX ->
  exists L', visit_insts (length l) b (map EInst l ++ rest) L = Ret rest L' /\
    links L' (set_code b (code q b ++ l) q) /\ ordered (B + GROWTH * zlen l) L' (set_code b (code q b ++ l) q) /\ same_cold L L'.
Proof.
  induction l as [|i l IH]; intros L q B Hl Ho Hb Hd Hfresh HB.
  - exists L. split; [done|]. unfold zlen. simpl. rewrite app_nil_r, Z.mul_0_r, Z.add_0_r.
    assert (Hc : forall c, code (set_code b (code q b) q) c = code q c) by (intros c; simpl; case_decide; by subst).
    split_and!; [by apply (links_code _ q)|by apply (ordered_code _ _ q)|done].
  - assert (Hz : zlen (i :: l) = zlen l + 1) by (unfold zlen; simpl; lia). pose proof (zlen_nonneg l). rewrite Hz in *.
    apply NoDup_cons in Hd as [Hi Hd].
    assert (Hloose : inst_block L i = None).
    { destruct (inst_block L i) as [c|] eqn:E; [|done]. apply (l_inst_block _ _ Hl) in E. destruct (Hfresh i c); [by left|done]. }
    assert (HB1 : B + GROWTH + MAJOR_STRIDE <= u32_MAX) by (unfold GROWTH, LOCAL_LIMIT, MINOR_STRIDE in *; lia).
    destruct (wp_returns _ _ _ (returns_keeps _ _ _ _ (append_inst_ok L q b i B Hl Ho Hb Hloose HB1) (keeps_cold_append_inst i b)))
      as ([] & L1 & Hrun & [Hl1 Ho1] & Hc1).
    destruct (IH L1 _ _ Hl1 Ho1) as (L' & Hrun' & Hl' & Ho' & Hc'); [done|done| |lia|].
    { intros j c Hj. simpl. case_decide; [subst|apply Hfresh; by right].
      rewrite elem_of_app, list_elem_of_singleton. intros [Hj2| ->]; [|done]. destruct (Hfresh j b); [by right|done]. }
    exists L'. split; [cbn [length map app visit_insts]; by rewrite (bind_run _ _ _ _ _ (lift_run _ _ _ _ Hrun))|].
    assert (Hc : forall c, code (set_code b (code q b ++ i :: l) q) c =
      code (set_code b (code (set_code b (code q b ++ [i]) q) b ++ l) (set_code b (code q b ++ [i]) q)) c).
    { intros c. simpl. case_decide; [|done]. rewrite decide_True by done. by rewrite <- (assoc app). }
    replace (B + GROWTH * (zlen l + 1)) with (B + GROWTH + GROWTH * zlen l) by lia.
    split_and!; [by apply (links_code _ _ _ Hl')|by apply (ordered_code _ _ _ _ Ho')|by etransitivity].
Qed.

(** The blocks that were read so far. *)
Definition upto (p : Program) (done_ : list Block) : Program :=
  mkProgram done_ (fun c => if decide (c ∈ done_) then code p c else []).

Lemma visit_block_ok L p B done_ b c rest : let l := code p b in
  links L (upto p done_) -> ordered B L (upto p done_) -> b ∉ done_ -> NoDup l ->
  (forall i d, i ∈ l -> i ∈ code p d -> d = b) -> B + GROWTH * zlen l + MAJOR_STRIDE <= u32_MAX ->
  exists L', visit_block b (ECold c :: ECount (zlen l) :: map EInst l ++ rest) L = Ret rest L' /\
    links L' (upto p (done_ ++ [b])) /\ ordered (B + GROWTH * zlen l) L' (upto p (done_ ++ [b])) /\
    forall y, is_cold L' y = if decide (y = b) then c else is_cold L y.
Proof.
  intros l Hl Ho Hb Hd Hown HB. destruct (wp_returns _ _ _ (returns_keeps _ _ _ _ (append_block_links L _ b Hl Hb) (keeps_cold_append_block b)))
    as ([] & L1 & Hrun1 & [Hl1 Hi1] & Hc1).
  assert (Ho1 : ordered B L1 (mkProgram (done_ ++ [b]) (code (upto p done_)))) by (by eapply ordered_insts).
  destruct (wp_returns _ _ _ (write_cold_ok L1 _ b c Hl1)) as ([] & L2 & Hrun2 & Hl2 & Hi2).
  assert (Ho2 : ordered B L2 (mkProgram (done_ ++ [b]) (code (upto p done_)))) by (by eapply ordered_insts).
  assert (Hc2 : forall y, is_cold L2 y = if decide (y = b) then c else is_cold L1 y).
  { injection Hrun2 as <-. intros y. unfold is_cold, block_node. cbn [blocks_]. rewrite index_mut_at. by case_decide. }
  destruct (visit_insts_ok b rest l L2 _ B Hl2 Ho2) as (L' & Hrun3 & Hl3 & Ho3 & Hc3); [simpl; set_solver|done| |done|].
  { intros i d Hi. simpl. case_decide as Hdd; [|apply not_elem_of_nil]. intros Hi2'. by rewrite (Hown i d Hi Hi2') in Hdd. }
  exists L'. split.
  { unfold visit_block. rewrite (bind_run _ _ _ _ _ (lift_run _ _ _ _ Hrun1)), (bind_run _ _ _ _ _ (lift_run _ _ _ _ Hrun2)).
    unfold zlen. rewrite Nat2Z.id. exact Hrun3. }
  assert (Hcode : forall d, code (upto p (done_ ++ [b])) d =
    code (set_code b (code (mkProgram (done_ ++ [b]) (code (upto p done_))) b ++ l) (mkProgram (done_ ++ [b]) (code (upto p done_)))) d).
  { intros d. simpl. destruct (decide (d = b)) as [->|Hdb].
    - by rewrite decide_True, decide_False by set_solver.
    - destruct (decide (d ∈ done_)); [rewrite decide_True by set_solver|rewrite decide_False by set_solver]; done. }
  split_and!; [by apply (links_code _ _ _ Hl3)|by apply (ordered_code _ _ _ _ Ho3)|].
  intros y. rewrite Hc3, Hc2. case_decide; [done|apply Hc1].
Qed.

(** The instructions of blocks together. *)
Definition total (p : Program) (bs : list Block) : Z := foldr (fun b n => zlen (code p b) + n) 0 bs.

Lemma visit_seq_ok Lp p bs : links Lp p -> forall fuel es L B done_, order p = done_ ++ bs ->
  serialize_blocks Lp bs = Some es -> (length es <= fuel)%nat ->
  links L (upto p done_) -> ordered B L (upto p done_) -> B + GROWTH * total p bs + MAJOR_STRIDE <= u32_MAX ->
  exists L', visit_seq fuel es L = Ret tt L' /\ links L' (upto p (done_ ++ bs)) /\ ordered (B + GROWTH * total p bs) L' (upto p (done_ ++ bs)) /\
    forall y, is_cold L' y = if decide (y ∈ bs) then is_cold Lp y else is_cold L y.
Proof.
  intros HLp. induction bs as [|b bs IH]; intros fuel es L B done_ Hor Hs Hf Hl Ho HB.
  - injection Hs as <-. exists L. unfold total in *. simpl in *. rewrite app_nil_r. rewrite Z.mul_0_r, Z.add_0_r in *.
    split_and!; [by destruct fuel|done..].
  - simpl in Hs. rewrite (insts_list_code Lp p b HLp) in Hs.
    destruct (try_from _ _) as [n|] eqn:En; [|done]. simpl in Hs. destruct (serialize_blocks Lp bs) as [rest|] eqn:Er; [|done].
    simpl in Hs. injection Hs as <-. unfold try_from in En. destruct (_ && _); [|done]. injection En as <-.
    destruct fuel as [|fuel]; [simpl in Hf; lia|]. pose proof (l_nodup _ _ HLp) as Hd. rewrite Hor in Hd.
    apply NoDup_app in Hd as (_ & Hdis & [Hb _]%NoDup_cons).
    assert (Htot : total p (b :: bs) = zlen (code p b) + total p bs) by done. rewrite Htot in HB.
    assert (0 <= total p bs) by (clear; induction bs as [|x bs IH]; [done|]; simpl; pose proof (zlen_nonneg (code p x)); lia).
    destruct (visit_block_ok L p B done_ b (is_cold Lp b) rest Hl Ho) as (L1 & Hrun1 & Hl1 & Ho1 & Hc1).
    { intros Hb2. apply (Hdis b Hb2). by left. }
    { apply (l_insts_nodup _ _ HLp). }
    { intros i d Hi Hi2. symmetry. by eapply (code_in Lp p d b). }
    { unfold GROWTH, LOCAL_LIMIT, MINOR_STRIDE in *. lia. }
    destruct (IH fuel rest L1 (B + GROWTH * zlen (code p b)) (done_ ++ [b])) as (L' & Hrun' & Hl' & Ho' & Hc'); try done.
    { by rewrite <- (assoc app). }
    { simpl in Hf. rewrite length_app in Hf. lia. }
    { lia. }
    exists L'. rewrite <- (assoc app) in Hl', Ho'. rewrite Htot.
    replace (B + GROWTH * (zlen (code p b) + total p bs)) with (B + GROWTH * zlen (code p b) + GROWTH * total p bs) by lia.
    split_and!; [cbn [visit_seq]; by rewrite (bind_run _ _ _ _ _ Hrun1)|done..|].
    intros y. rewrite Hc', Hc1. destruct (decide (y = b)) as [->|Hyb].
    + rewrite (decide_True (P := b ∈ b :: bs)) by (by left). by case_decide.
    + destruct (decide (y ∈ bs)); [by rewrite decide_True by (by right)|]. rewrite decide_False; [done|]. by intros [|]%elem_of_cons.
Qed.

Lemma serialize_blocks_Some L p bs : links L p -> total p bs <= u32_MAX -> exists es, serialize_blocks L bs = Some es.
Proof.
  intros Hl. induction bs as [|b bs IH]; intros Ht; simpl; [by eexists|]. rewrite (insts_list_code L p b Hl).
  assert (0 <= total p bs) by (clear; induction bs as [|x bs IH]; [done|]; simpl; pose proof (zlen_nonneg (code p x)); lia).
  pose proof (zlen_nonneg (code p b)). simpl in Ht. unfold try_from.
  rewrite (proj2 (Z.leb_le 0 _)), (proj2 (Z.leb_le _ u32_MAX)) by lia. simpl. destruct IH as [es ->]; [lia|]. by eexists.
Qed.

Lemma upto_all L p c : links L p -> code p c = code (upto p (order p)) c.
Proof. intros Hl. simpl. case_decide as Hc; [done|]. by apply (l_absent _ _ Hl). Qed.

(** The layout that is read back. *)
Lemma roundtrip B L p : inv B L p -> GROWTH * total p (order p) + MAJOR_STRIDE <= u32_MAX ->
  exists es L', serialize L = Some es /\ deserialize es = Ret tt L' /\ shows L' p /\
    forall b, is_cold L' b = if decide (b ∈ order p) then is_cold L b else false.
Proof.
  intros (Hl & Ho & _) Ht. unfold serialize. rewrite (blocks_order L p Hl).
  destruct (serialize_blocks_Some L p (order p) Hl) as [es Hes].
  { unfold GROWTH, LOCAL_LIMIT, MINOR_STRIDE, MAJOR_STRIDE in Ht. pose proof (eq_refl : u32_MAX = 2 ^ 32 - 1). lia. }
  destruct inv_new as (Hl0 & Ho0 & Hd0).
  destruct (visit_seq_ok L p (order p) Hl (length es) es new 0 []) as (L' & Hrun & Hl' & Ho' & Hc); try done.
  exists es, L'. split_and!; [done|done| |exact Hc].
  apply (links_shows (0 + GROWTH * total p (order p))).
  - apply (links_code _ _ _ Hl'); [done|]. intros c. by apply upto_all with L.
  - apply (ordered_code _ _ _ _ Ho'). intros c. by apply upto_all with L.
Qed.

(** C36. A layout that operations have made, serialized and read back, is the same: the same blocks in the same
    order, each with its instructions in order, and comparisons of program points that agree with
    the order; exactly the blocks of it that were cold are cold. *)
Theorem layout_roundtrip ops p : spec_steps empty_program ops p -> GROWTH * zlen ops + MAJOR_STRIDE <= u32_MAX ->
  GROWTH * total p (order p) + MAJOR_STRIDE <= u32_MAX ->
  exists L es L', exec_all ops new = Ret tt L /\ serialize L = Some es /\ deserialize es = Ret tt L' /\ shows L' p /\
    forall b, is_cold L' b = if decide (b ∈ order p) then is_cold L b else false.
Proof.
  intros Hs Hb Ht. destruct (exec_all_ok _ _ _ Hs 0 new inv_new) as (L & Hrun & Hinv); [lia|].
  destruct (roundtrip _ L p Hinv Ht) as (es & L' & ? & ? & ? & ?). by exists L, es, L'.
Qed.

Lemma layout_roundtrip_witness : exists L es L', exec_all example_ops new = Ret tt L /\ serialize L = Some es /\
  deserialize es = Ret tt L' /\ shows L' example_result /\
  forall b, is_cold L' b = if decide (b ∈ order example_result) then is_cold L b else false.
Proof. apply (layout_roundtrip example_ops example_result); [exact example_steps|by vm_compute|by vm_compute]. Defined.

(** What is written for the example. *)
Example example_serialized :
  match exec_all example_ops new with
  | Ret _ L => serialize L = Some [EBlock 4; ECold false; ECount 0; EBlock 5; ECold true; ECount 0; EBlock 7; ECold false; ECount 2; EInst 2; EInst 1]
  | _ => False
  end.
Proof. vm_compute. reflexivity. Qed.

(** A block that was removed stays cold, and is cold when it is inserted again. *)
Example removed_stays_cold :
  match exec_all [AppendBlock 3; SetCold 3; RemoveBlock 3; AppendBlock 3]%nat new with Ret _ L => is_cold L 3 = true | _ => False end.
Proof. vm_compute. reflexivity. Qed.

(** Appending gives larger numbers also when other instructions are removed: two
    instructions in turn, and the numbers run out. *)
Example numbers_run_out : let L := mkLayout (mkSecondary [mkBlockNode None None (Some 0%nat) (Some 0%nat) false] default_block)
    (mkSecondary [mkInstNode (Some 0%nat) None None (u32_MAX - 5)] default_inst) (Some 0%nat) (Some 0%nat) in
  append_inst 1 0 L = Panic /\
  match exec_all [AppendBlock 0; AppendInst 0 0; AppendInst 1 0; RemoveInst 0; AppendInst 0 0; RemoveInst 1]%nat new with
  | Ret _ L' => inst_seq L' 0 = 30 | _ => False end.
Proof. vm_compute. split; reflexivity. Qed.
